(* ===== verification/_CoqProject ===== *)
-Q . S2P
Prelude.v
Leb128.v
Opcode.v
WasmModule.v
Provenance.v
MutModule.v
Relaxation.v
Bits.v
BitMisc.v
RelocInsn.v
RelocInfo.v
RelocTables.v
TableX86.v
TableAArch64.v
TableRiscV.v
TableLoongArch.v
TableFacts.v
BlockWalker.v
Scan.v
Remap.v
Tokens.v
WasmSem.v
Peephole.v
WasmSpec.v
EditScript.v
BodyPass.v
ConstFold.v
Vacuum.v
VacuumEdits.v
BodyIr.v
IfArms.v
IfFold.v
IfFoldSpec.v
Dce.v
DceFacts.v
DceSections.v
DcePass.v
Pipeline.v
ByteOrder.v
SuffixShare.v
Utf8.v
Daemon.v
Snapshot.v
Alignment.v
ScriptExpr.v
ScriptParse.v
ScriptGrammar.v
ValueFlags.v
GotAlloc.v
GotSpec.v
GotLoad.v
RelaxX86.v
ApplyReloc.v
ScanReloc.v
ScanSpec.v
X86Spec.v
ScanWrite.v
OutputOrder.v
AddressLayout.v
Placement.v
SegmentExtents.v
OrderSpec.v
LayoutImage.v
HashTables.v
HashSpec.v
