(* ===== verification/Prelude.v ===== *)
(** * A verification library for the wild linker

    [wild] is a linker written in Rust.  Its sources (under [src/]) fall into
    crates; this library models the parts whose core is computation rather than
    input and output:

    - [wilt], an optimiser of WebAssembly modules that the linker runs on its own
      output ([src/wilt/src/]);
    - [linker-utils], what relocations are on each architecture and how they are
      written into instructions ([src/linker-utils/src/]);
    - [libwild], the linker proper ([src/libwild/src/]): from the scan of
      relocations over the tables of symbols and the layout of the output to the
      bytes that are written and what a loader makes of them; and smaller
      components around it (linker-script expressions, string tables, the layout
      snapshot, the daemon's protocol).

    ** The parts and how they interact

    [wilt] works on bytes throughout.  A module is parsed into section spans
    ([WasmModule.parse]); bodies are decoded one instruction at a time
    ([Opcode], over the integers of [Leb128]); passes rewrite bodies as bytes and
    describe each rewrite as a list of edits ([Provenance]); a copy-on-write
    module collects the rewrites and serialises the result ([MutModule]).  Passes
    that remove functions renumber the rest and return a remap table ([Remap],
    [Scan], [Dce]).

    An ELF link first scans the relocations of each section it keeps
    ([ScanReloc]): what a relocation asks of its symbol is collected in the
    symbol's flags ([ValueFlags], updated by many threads at once), and dynamic
    relocations are reserved.  From the final flags layout computes how much of
    the GOT, the PLT and the relocation tables each symbol needs ([GotAlloc]),
    orders the output sections and the segments that cover them
    ([OutputOrder]) and gives them file offsets and addresses ([AddressLayout],
    over [Alignment]).  The writer then fills the tables ([GotAlloc]) and applies
    the relocations ([ApplyReloc]): it looks a relocation number up in a table
    per architecture ([TableX86] and its siblings), may relax the instruction
    ([RelaxX86]), checks the value against the range of the field and stores it
    ([RelocInfo], [RelocInsn], [BitMisc]); when sections shrink or grow, positions
    are translated by the delta lists of [Relaxation].  Each stage relies on the
    decisions of those before it without recomputing them, so most theorems about
    [libwild] say that two stages agree.

    ** Which file models what

    Shared:
    - [Prelude]: Rust values and panics ([outcome]), indexing and slicing as Rust
      does them, machine integers as [Z] with [u8] ... [u64] and [i32] as wrapping
      casts, loops that count, and the lemmas and tactics all files use.
    - [Bits]: bit expressions and their decision by reflection ([bitblast]).
    - [ByteOrder], [Utf8]: the order of byte strings and UTF-8 validity.

    [wilt], data and codecs:
    - [Leb128] ([leb128.rs]), [Opcode] ([opcode.rs]), [WasmModule] ([module.rs],
      [emit.rs]), [Provenance] ([provenance.rs]), [MutModule] ([mut_module.rs]),
      [BlockWalker] ([block_walker.rs]), [Scan] ([scan.rs]), [Remap] ([remap.rs]),
      [BodyIr] ([ir/body.rs]).

    [wilt], the specification of passes:
    - [Tokens]: a body as a list of instructions, each its own bytes; the decoder
      is self-delimiting, so lists of instructions and bytes correspond.
    - [WasmSem]: a small-step machine for bodies, with frames, labels and an operand
      stack; all instructions but control and trap-free i32 arithmetic are a
      parameter.  [WasmSpec]: what the passes need of those instructions, as a
      record of hypotheses, and a concrete machine that meets it.
    - [Peephole] and [IfArms]: rewriting fragments anywhere in a body, and moving
      branch-free code out of a block, preserve what a body does.
    - [EditScript]: what it means that edits describe a rewrite.
    - [BodyPass]: the [apply_mut] of a pass, and the class of passes that keep
      behaviour and report true edits; runs of passes compose.

    [wilt], passes:
    - [ConstFold] ([passes/const_fold.rs]), [Vacuum] and [VacuumEdits]
      ([passes/vacuum.rs]), [IfFold] and [IfFoldSpec] ([passes/if_fold.rs]): each is
      an instance of [BodyPass].  [Pipeline]: their chain on one module, as
      [optimise_once_with_hints] of [lib.rs] chains them.
    - [Dce] ([passes/dce.rs]) models the removal of functions, [DceFacts] and
      [DceSections] say what its loops compute on well-formed sections, [DcePass]
      states its properties.

    [linker-utils]:
    - [BitMisc] ([bit_misc.rs], [utils.rs]), [RelocInsn] (the [write_to_value] and
      [read_value] of [aarch64.rs], [riscv64.rs], [loongarch64.rs]), [RelocInfo]
      ([elf.rs], and [write_relocation_to_buffer] of [libwild/src/elf.rs]),
      [Relaxation] ([relaxation.rs]).
    - [RelocTables] is the interface of a table, [TableX86], [TableAArch64],
      [TableRiscV] and [TableLoongArch] are the tables in the order of the source,
      [TableFacts] proves the properties of all four.

    [libwild], relocations and symbols:
    - [ValueFlags] ([value_flags.rs], [output_kind.rs]): flags of symbols; concurrent
      [fetch_or] as a step relation on one location.
    - [GotAlloc] ([allocate_resolution], [create_resolution], [process_resolution]),
      [GotSpec] (the effect of a symbol on each table, which all three follow),
      [GotLoad] (what the dynamic loader makes of the tables).
    - [RelaxX86] ([elf_x86_64.rs], [linker-utils/src/x86_64.rs]), [X86Spec] (a decoder
      for the instructions around a field, under which relaxed code means the same).
    - [ApplyReloc] ([apply_relocations] of [elf_writer.rs]) and [ScanReloc]
      ([load_section_relocations] of [elf.rs]) over one class [Arch] for what they ask of
      an architecture; [ScanSpec] and [ScanWrite] prove that they agree.

    [libwild], layout:
    - [Alignment] ([alignment.rs]); [OutputOrder] ([output_section_id.rs],
      [part_id.rs], [program_segments.rs] and the tables of [elf.rs]);
      [AddressLayout] ([layout_section_parts], [layout_sections],
      [compute_segment_layout] and [determine_header_sizes] of [layout.rs]).
    - [OrderSpec]: the builder of the order, as an invariant.  [Placement]: parts and
      sections follow each other, and where segments start.  [SegmentExtents]: extents of
      segments.  [LayoutImage]: what loading them gives.
    - [HashTables] ([create_gnu_hash_layout], [allocate_sysv_hash] and their writers in
      [elf_writer.rs]); [HashSpec]: what the dynamic loader finds in them.

    [libwild], other components:
    - [ScriptExpr] ([expression_eval.rs]), [ScriptParse] ([linker_script.rs]) and
      [ScriptGrammar] (the grammar as a specification); [SuffixShare]
      ([suffix_share.rs]); [Snapshot] ([layout_snapshot.rs]); [Daemon]
      ([daemon_protocol.rs]).

    Definitions keep the names of the Rust functions; where two files use one name
    the definition is qualified by its file, and the loops of a function carry its
    name with a suffix.

    ** What the theorems show

    - Codecs: LEB128 readers undo writers on every value of their width; the walk
      over a body succeeds exactly on sequences of complete instructions and lists
      them; parsing a well-formed module and emitting it unchanged is the identity,
      and emitting replaced sections produces a module with those contents; the
      snapshot and the daemon's messages survive their codecs.
    - Edits: applying an edit list substitutes exactly the described regions; the
      edits each pass reports rebuild its output from its input.
    - Passes: each body pass returns on every body that decodes, is properly nested and
      has no branch on references (for which if-folding is wrong), and its output
      reproduces every run of the input that does not get stuck, for every
      implementation of the other instructions; this composes over any sequence of
      passes and carries over to the serialised module.
    - Functions: the elimination keeps exactly the functions reachable from
      outside, numbers them densely in order, and renumbers every reference it
      finds along with the function it means.
    - Relocations: no table lookup or write panics; accepted values fit their field;
      writing and reading branch immediates is the identity; only the bits of the
      field change.  The x86_64 relaxations keep what the instruction does.
    - Agreement of scan, layout and writer: what was scanned can be written and
      uses up what was reserved; tables are filled exactly; after loading, GOT
      entries and thread-local offsets are what the code that reads them expects;
      under any interleaving flag updates act as if they followed each other, and one
      thread activates a symbol.
    - Layout, in full links without fixed addresses: the order that is built is well
      nested and complete, with each section in the segments of the kinds that want it;
      LOAD segments can be mapped by pages; mapping them puts the contents of every
      loaded part at its address, zeros for sections without data.
    - Hash tables: a lookup by name in [.gnu.hash] or [.hash] finds the symbol that
      defines it, and nothing else.
    - Scripts: the parser accepts exactly the grammar, printing and parsing is the
      identity, evaluation stays in 64 bits and ends or loops for a reason that is
      decidable.
    - Strings: suffix sharing finds every name and no table is smaller.
    - Positions: the binary-searched translations equal their linear references,
      are monotone, and are inverse to each other where bytes survive.
    - Where the code does not do what it says, a lemma shows the concrete input
      (folding arms that branch on references, table initialisers, read-only
      sections without data, and others listed with their component).

    ** Bounds and fuel

    Integers are [Z]; casts and arithmetic of a fixed width wrap as in a release
    build ([usize] is taken as unbounded where every offset is below twice the length
    of a byte slice, and as 64 bits in layout).  Functions that panic return [Panic].
    Loops over input bytes recurse on the input or take as fuel its length plus one:
    each round consumes a byte or returns.  A loop [for _ in 0..count] over bytes takes
    the smaller of the count and that fuel.  The closure over a call graph takes one
    sweep per function plus one.  The expression parser takes as fuel more than the
    length of its input, each call in depth having consumed a character
    ([ScriptGrammar.parse_fuel_enough]); the evaluator, which may really loop through
    memory regions, two steps per region and one more ([region_fuel]): an evaluation that
    goes on after them never returns ([ScriptExpr.expression_returns]).  That the fuel is enough is
    part of the functional theorems.

    Theorems on layout and tables assume room below the limits of 64 bits: the records
    [sound_input] (the sizes of all parts, each rounded up, below [2^63]) and the [room]
    of [GotSpec] (200 bytes for each symbol).

    ** Parameters

    Relocation numbers ([object::elf::R_*]) and some constants come from the [object]
    crate; the tables take the numbering as an argument, and theorems that single out
    one relocation assume that its number is no other's.  WebAssembly instructions
    outside [WasmSem] are a parameter described by [WasmSpec].  The parser is over the
    combinators of the [winnow] crate, described by their documented behaviour; the
    LEB128 encoder of a crate and the lookup of merged strings are arguments.
    The hash functions of symbol names are arguments ([object]).  The dynamic loader and
    the kernel's mapping of segments are specifications ([GotLoad], [HashTables.gnu_lookup],
    [HashTables.sysv_lookup], [LayoutImage.loaded_byte]).

    ** Not modelled

    - [wilt]: the remaining passes (branch threading, unused branches, block merging,
      constant and copy propagation, locals, inlining, merging and removing of
      imports, types, data and elements), the fixpoint loop and debug tiers of
      [lib.rs], the DWARF passes (third-party [gimli]); [Scratch] and [fingerprint]
      of [mut_module.rs]; [parse_imports] of [dce.rs].
    - [linker-utils]: instruction rewriting of the other architectures; casts of byte
      slices to types of the [object] crate.
    - [libwild]: reading inputs and symbol resolution (parallel work over memory maps
      and types of the [object] crate), the sizes of the parts that layout starts from,
      symbol tables, versions and [.eh_frame], iterative relaxation, fixed addresses
      of sections in the theorems on layout (the definitions have them); the Mach-O and
      WebAssembly formats; argument parsing.
    - [linker-diff] and the daemon's processes: clients of other programs. *)
From Stdlib Require Export ZArith Lia Bool Sorted.
From stdpp Require Export base numbers option list.

#[export] Set Default Goal Selector "!".
#[export] Unset Program Cases.
Open Scope Z_scope.

(** * Rust outcomes

    A Rust expression either evaluates to a value or panics (an index out of
    range, an [unwrap] of [None], an arithmetic overflow check).  [outcome]
    makes the second case a value, so that "this function never panics on such
    inputs" is a theorem and not a convention. *)

Inductive outcome (A : Type) : Type :=
| Ret (a : A)
| Panic.
Arguments Ret {A} a.
Arguments Panic {A}.

#[global] Instance outcome_ret : MRet outcome := fun A a => Ret a.
#[global] Instance outcome_bind : MBind outcome := fun A B f m =>
  match m with Ret a => f a | Panic => Panic end.
#[global] Instance outcome_fmap : FMap outcome := fun A B f m =>
  match m with Ret a => Ret (f a) | Panic => Panic end.

Declare Scope rust_scope.
Delimit Scope rust_scope with rust.

(** [x ←? e; k] is Rust's [let x = e?; k] for a call [e] that may panic and
    otherwise yields an [Option]. *)
Notation "x ←? e ; k" :=
  (match e with Ret (Some x) => k | Ret None => Ret None | Panic => Panic end)
  (at level 20, e at level 100, k at level 200, only parsing) : rust_scope.
Notation "' x ←? e ; k" :=
  (match e with Ret (Some x) => k | Ret None => Ret None | Panic => Panic end)
  (at level 20, x pattern, e at level 100, k at level 200, only parsing) : rust_scope.
Open Scope rust_scope.

(** * Machine integers

    A [w]-bit unsigned integer is a [Z] in [0, 2^w); a signed one is a [Z] in
    [-2^(w-1), 2^(w-1)).  [wrap w] is the cast to the unsigned type and [sext w]
    the cast to the signed one, both modulo [2^w] as Rust's [as] and
    [wrapping_*] are.  [usize] is 64 bits wide; the offsets of the modelled
    code are bounded by buffer lengths plus a few 32-bit lengths, so they are
    plain [Z]s. *)

Definition wrap (w z : Z) : Z := z mod 2 ^ w.
Definition sext (w z : Z) : Z := (z + 2 ^ (w - 1)) mod 2 ^ w - 2 ^ (w - 1).

Abbreviation u8 := (wrap 8).
Abbreviation u16 := (wrap 16).
Abbreviation u32 := (wrap 32).
Abbreviation u64 := (wrap 64).
Abbreviation i8 := (sext 8).
Abbreviation i32 := (sext 32).
Abbreviation i64 := (sext 64).

Definition is_uint (w z : Z) : Prop := 0 <= z < 2 ^ w.
Definition is_sint (w z : Z) : Prop := - 2 ^ (w - 1) <= z < 2 ^ (w - 1).

(** [!x] on a [w]-bit unsigned integer. *)
Definition not_w (w z : Z) : Z := wrap w (Z.lnot z).

(** * Byte buffers *)

Abbreviation bytes := (list Z).
Definition is_bytes (d : bytes) : Prop := Forall (is_uint 8) d.

Definition len {A} (d : list A) : Z := Z.of_nat (length d).

(** [d.get(i)]. *)
Definition get {A} (d : list A) (i : Z) : option A :=
  if (0 <=? i) && (i <? len d) then d !! Z.to_nat i else None.
(** [d[i]]. *)
Definition index {A} (d : list A) (i : Z) : outcome A :=
  match get d i with Some b => Ret b | None => Panic end.
(** [d.get(off..)]. *)
Definition get_from {A} (d : list A) (off : Z) : option (list A) :=
  if (0 <=? off) && (off <=? len d) then Some (drop (Z.to_nat off) d) else None.
(** [&d[off..]]. *)
Definition slice_from {A} (d : list A) (off : Z) : outcome (list A) :=
  match get_from d off with Some t => Ret t | None => Panic end.
(** [d.get(a..b)] and [&d[a..b]]. *)
Definition get_range {A} (d : list A) (a b : Z) : option (list A) :=
  if (0 <=? a) && (a <=? b) && (b <=? len d)
  then Some (take (Z.to_nat (b - a)) (drop (Z.to_nat a) d)) else None.
Definition slice {A} (d : list A) (a b : Z) : outcome (list A) :=
  match get_range d a b with Some t => Ret t | None => Panic end.
(** [d[i] = v] on a mutable slice or vector. *)
Definition store {A} (d : list A) (i : Z) (v : A) : outcome (list A) :=
  if (0 <=? i) && (i <? len d) then Ret (<[Z.to_nat i := v]> d) else Panic.

(** * Shared lemmas *)

Create HintDb widths.
#[export] Hint Unfold is_uint is_sint wrap sext : widths.

Create HintDb slices.
Create Rewrite HintDb slices.

Section lists.
Context {A : Type}.
Implicit Types (d : list A) (i : Z).

Lemma len_nonneg d : 0 <= len d.
Proof. unfold len; lia. Qed.

Lemma len_nil : len (@nil A) = 0.
Proof. reflexivity. Qed.

Lemma len_cons x d : len (x :: d) = 1 + len d.
Proof. unfold len; simpl; lia. Qed.

Lemma len_app d1 d2 : len (d1 ++ d2) = len d1 + len d2.
Proof. unfold len; rewrite length_app; lia. Qed.

Lemma len_drop n d : len (drop n d) = Z.max 0 (len d - Z.of_nat n).
Proof. unfold len; rewrite length_drop; lia. Qed.

Lemma len_take n d : len (take n d) = Z.min (Z.of_nat n) (len d).
Proof. unfold len; rewrite length_take; lia. Qed.

Lemma len_0_inv d : len d = 0 -> d = [].
Proof. destruct d; [done|]. unfold len; simpl; lia. Qed.

Lemma get_Some d i x : get d i = Some x -> 0 <= i < len d.
Proof. unfold get. destruct (_ && _) eqn:E; [|done]. lia. Qed.

Lemma get_lookup d i x :
  get d i = Some x <-> 0 <= i < len d /\ d !! Z.to_nat i = Some x.
Proof.
  split.
  - intros H. split; [by eapply get_Some|]. unfold get in H.
    destruct (_ && _); congruence.
  - intros [? ?]. unfold get.
    replace ((0 <=? i) && (i <? len d)) with true by lia. done.
Qed.

Lemma get_is_Some d i : 0 <= i < len d -> exists x, get d i = Some x.
Proof.
  intros H. unfold get. replace ((0 <=? i) && (i <? len d)) with true by lia.
  apply lookup_lt_is_Some. unfold len in H. lia.
Qed.

Lemma get_None d i : get d i = None <-> i < 0 \/ len d <= i.
Proof.
  split.
  - intros H. destruct (decide (0 <= i < len d)) as [Hi|]; [|lia].
    destruct (get_is_Some _ _ Hi); congruence.
  - intros H. unfold get. replace ((0 <=? i) && (i <? len d)) with false by lia. done.
Qed.

Lemma get_app_l d1 d2 i : i < len d1 -> get (d1 ++ d2) i = get d1 i.
Proof.
  intros H. unfold get. rewrite len_app. pose proof (len_nonneg d2).
  destruct (Z.leb_spec 0 i); [|done]. simpl.
  replace (i <? len d1 + len d2) with true by lia.
  replace (i <? len d1) with true by lia.
  apply lookup_app_l. unfold len in H. lia.
Qed.

Lemma get_app_r d1 d2 i : 0 <= i -> get (d1 ++ d2) (len d1 + i) = get d2 i.
Proof.
  intros H. unfold get. rewrite len_app. pose proof (len_nonneg d1).
  replace (0 <=? len d1 + i) with true by lia.
  replace (0 <=? i) with true by lia. simpl.
  destruct (Z.ltb_spec i (len d2)).
  - replace (len d1 + i <? len d1 + len d2) with true by lia.
    rewrite lookup_app_r by (unfold len; lia). f_equal. unfold len. lia.
  - replace (len d1 + i <? len d1 + len d2) with false by lia. done.
Qed.

Lemma get_from_eq d i :
  0 <= i <= len d -> get_from d i = Some (drop (Z.to_nat i) d).
Proof.
  intros H. unfold get_from.
  replace ((0 <=? i) && (i <=? len d)) with true by lia. done.
Qed.

Lemma get_from_Some d i t :
  get_from d i = Some t <-> 0 <= i <= len d /\ t = drop (Z.to_nat i) d.
Proof.
  unfold get_from. destruct (_ && _) eqn:E; split.
  - intros [= <-]. split; [lia|done].
  - intros [_ ->]. done.
  - done.
  - intros [? _]. lia.
Qed.

Lemma get_from_split d i t :
  get_from d i = Some t -> exists p, d = p ++ t /\ len p = i.
Proof.
  rewrite get_from_Some. intros [? ->]. exists (take (Z.to_nat i) d).
  rewrite take_drop, len_take. split; [done|lia].
Qed.

Lemma get_from_app d1 d2 i : 0 <= i ->
  get_from (d1 ++ d2) (len d1 + i) = get_from d2 i.
Proof.
  intros H. unfold get_from. rewrite len_app. pose proof (len_nonneg d1).
  replace (0 <=? len d1 + i) with true by lia.
  replace (0 <=? i) with true by lia. simpl.
  destruct (Z.leb_spec i (len d2)).
  - replace (len d1 + i <=? len d1 + len d2) with true by lia.
    rewrite drop_app_ge by (unfold len; lia). do 2 f_equal. unfold len. lia.
  - replace (len d1 + i <=? len d1 + len d2) with false by lia. done.
Qed.

Lemma get_from_len d1 d2 : get_from (d1 ++ d2) (len d1) = Some d2.
Proof.
  replace (len d1) with (len d1 + 0) by lia. rewrite get_from_app by lia.
  rewrite get_from_eq by (pose proof (len_nonneg d2); lia). done.
Qed.

Lemma get_from_app_l d1 d2 i t :
  get_from d1 i = Some t -> get_from (d1 ++ d2) i = Some (t ++ d2).
Proof.
  rewrite !get_from_Some, len_app. intros [? ->]. pose proof (len_nonneg d2).
  split; [lia|]. rewrite drop_app_le by (unfold len in *; lia). done.
Qed.

Lemma slice_eq d a b : 0 <= a <= b -> b <= len d ->
  slice d a b = Ret (take (Z.to_nat (b - a)) (drop (Z.to_nat a) d)).
Proof.
  intros. unfold slice, get_range.
  replace ((0 <=? a) && (a <=? b) && (b <=? len d)) with true by lia. done.
Qed.

Lemma slice_Ret d a b t : slice d a b = Ret t ->
  0 <= a <= b /\ b <= len d /\ t = take (Z.to_nat (b - a)) (drop (Z.to_nat a) d).
Proof.
  unfold slice, get_range. destruct (_ && _) eqn:E; [|done].
  intros [= <-]. repeat split; lia.
Qed.

Lemma slice_len d a b t : slice d a b = Ret t -> len t = b - a.
Proof.
  intros (? & ? & ->)%slice_Ret. rewrite len_take, len_drop. lia.
Qed.

Lemma slice_app d1 d2 d3 :
  slice (d1 ++ d2 ++ d3) (len d1) (len d1 + len d2) = Ret d2.
Proof.
  pose proof (len_nonneg d1). pose proof (len_nonneg d2).
  rewrite slice_eq by (rewrite ?len_app; pose proof (len_nonneg d3); lia).
  rewrite drop_app_length' by (unfold len; lia).
  rewrite take_app_length' by (unfold len; lia). done.
Qed.

Lemma slice_split d a b t : slice d a b = Ret t ->
  exists p s, d = p ++ t ++ s /\ len p = a /\ len t = b - a.
Proof.
  intros H. pose proof (slice_len _ _ _ _ H) as Hl.
  apply slice_Ret in H as (? & ? & ->).
  exists (take (Z.to_nat a) d), (drop (Z.to_nat (b - a)) (drop (Z.to_nat a) d)).
  rewrite !take_drop. rewrite len_take. repeat split; [lia|done].
Qed.

Lemma slice_from_len d1 d2 : slice_from (d1 ++ d2) (len d1) = Ret d2.
Proof. unfold slice_from. by rewrite get_from_len. Qed.
End lists.

#[export] Hint Rewrite @len_nil @len_cons @len_app : slices.
#[export] Hint Resolve len_nonneg : slices.

Lemma is_bytes_app d1 d2 : is_bytes (d1 ++ d2) <-> is_bytes d1 /\ is_bytes d2.
Proof. apply Forall_app. Qed.

Lemma is_bytes_get d i b : is_bytes d -> get d i = Some b -> 0 <= b < 256.
Proof.
  intros Hd [_ Hi]%get_lookup. unfold is_bytes in Hd.
  rewrite Forall_lookup in Hd. by apply (Hd _ _ Hi).
Qed.

(** Widths. *)
Lemma wrap_bound w z : 0 <= w -> is_uint w (wrap w z).
Proof. intros. apply Z.mod_pos_bound. lia. Qed.

Lemma wrap_id w z : is_uint w z -> wrap w z = z.
Proof. intros. apply Z.mod_small. done. Qed.

Lemma sext_bound w z : 0 < w -> is_sint w (sext w z).
Proof.
  intros. unfold is_sint, sext.
  replace (2 ^ w) with (2 * 2 ^ (w - 1)) by (rewrite <- Z.pow_succ_r by lia; f_equal; lia).
  pose proof (Z.mod_pos_bound (z + 2 ^ (w - 1)) (2 * 2 ^ (w - 1))). lia.
Qed.

Lemma sext_id w z : 0 < w -> is_sint w z -> sext w z = z.
Proof.
  intros Hw Hz. unfold is_sint, sext in *.
  replace (2 ^ w) with (2 * 2 ^ (w - 1)) by (rewrite <- Z.pow_succ_r by lia; f_equal; lia).
  rewrite Z.mod_small by lia. lia.
Qed.

(** Bit operations on numbers written in a power-of-two radix. *)
Lemma land_ones_mod x n : 0 <= n -> Z.land x (2 ^ n - 1) = x mod 2 ^ n.
Proof. intros. rewrite <- Z.land_ones by lia. f_equal. rewrite Z.ones_equiv. lia. Qed.

Lemma land_127 x : Z.land x 127 = x mod 128.
Proof. apply (land_ones_mod x 7). lia. Qed.

Lemma shiftr_7 x : Z.shiftr x 7 = x / 128.
Proof. apply Z.shiftr_div_pow2. lia. Qed.

(** Disjoint [lor] is addition. *)
Lemma lor_shiftl_add a b n : 0 <= n -> 0 <= a < 2 ^ n ->
  Z.lor a (Z.shiftl b n) = a + b * 2 ^ n.
Proof.
  intros Hn Ha. rewrite <- Z.shiftl_mul_pow2 by lia.
  assert (Hd : Z.land a (Z.shiftl b n) = 0).
  { apply Z.bits_inj'. intros k Hk. rewrite Z.land_spec, Z.bits_0.
    destruct (Z.lt_ge_cases k n) as [|Hkn].
    - rewrite Z.shiftl_spec_low by lia. apply andb_false_r.
    - rewrite <- (Z.mod_small a (2 ^ n)) by lia.
      by rewrite Z.mod_pow2_bits_high by lia. }
  rewrite <- Z.lxor_lor by done. symmetry. by apply Z.add_nocarry_lxor.
Qed.

Lemma lor_128 b : 0 <= b < 128 -> Z.lor b 128 = b + 128.
Proof. intros. apply (lor_shiftl_add b 1 7); lia. Qed.

(** A fact about every byte (or any small range) is checked by evaluation. *)
Lemma forall_below (n : Z) (P : Z -> bool) :
  forallb P (seqZ 0 n) = true -> forall z, 0 <= z < n -> P z = true.
Proof.
  intros H z Hz. rewrite forallb_forall in H. apply H.
  rewrite <- list_elem_of_In, elem_of_seqZ. lia.
Qed.

Lemma some_pair {A B} (a a' : A) (b b' : B) :
  a = a' -> b = b' -> Some (a, b) = Some (a', b').
Proof. by intros -> ->. Qed.

Lemma wrap_lor w a b : 0 <= w -> wrap w (Z.lor a b) = Z.lor (wrap w a) (wrap w b).
Proof.
  intros. unfold wrap. rewrite <- !Z.land_ones by lia. apply Z.land_lor_distr_l.
Qed.

Lemma is_uint_lor w a b : 0 <= w -> is_uint w a -> is_uint w b -> is_uint w (Z.lor a b).
Proof.
  intros Hw Ha Hb. rewrite <- (wrap_id w a), <- (wrap_id w b), <- wrap_lor by done.
  by apply wrap_bound.
Qed.

Lemma store_app {A} (p s : list A) x v :
  store (p ++ x :: s) (len p) v = Ret (p ++ v :: s).
Proof.
  unfold store. rewrite len_app, len_cons. pose proof (len_nonneg p). pose proof (len_nonneg s).
  replace ((0 <=? len p) && (len p <? len p + (1 + len s))) with true by lia.
  replace (Z.to_nat (len p)) with (length p + 0)%nat by (unfold len; lia).
  rewrite insert_app_r. done.
Qed.

Lemma store_Panic {A} (d : list A) i v : i < 0 \/ len d <= i -> store d i v = Panic.
Proof.
  intros H. unfold store. replace ((0 <=? i) && (i <? len d)) with false by lia. done.
Qed.

Lemma store_len {A} (d d' : list A) i v : store d i v = Ret d' -> len d' = len d.
Proof.
  unfold store. destruct (_ && _); [|done]. intros [= <-].
  unfold len. by rewrite length_insert.
Qed.

(** A buffer with [n] bytes left after [off] splits around them. *)
Lemma split_at {A} (d : list A) off n : 0 <= off -> 0 <= n -> off + n <= len d ->
  exists p m s, d = p ++ m ++ s /\ len p = off /\ len m = n.
Proof.
  intros. exists (take (Z.to_nat off) d), (take (Z.to_nat n) (drop (Z.to_nat off) d)),
    (drop (Z.to_nat n) (drop (Z.to_nat off) d)).
  rewrite !take_drop, !len_take, len_drop. repeat split; lia.
Qed.

(** The bytes of a list of known length, one by one. *)
Ltac list_of_len H :=
  match type of H with
  | len ?m = _ =>
      first
        [ apply len_0_inv in H; subst m
        | destruct m as [|? m];
          [ exfalso; unfold len in H; simpl in H; lia
          | rewrite len_cons in H;
            match type of H with 1 + _ = ?n =>
              let n' := eval vm_compute in (n - 1) in
              let H' := fresh in assert (H' : len m = n') by lia; clear H; rename H' into H
            end ] ]
  end.

Lemma store_app_insert {A} (p m : list A) i v : 0 <= i < len m ->
  store (p ++ m) (len p + i) v = Ret (p ++ <[Z.to_nat i := v]> m).
Proof.
  intros Hi. unfold store. rewrite len_app. pose proof (len_nonneg p).
  replace ((0 <=? len p + i) && (len p + i <? len p + len m)) with true by lia.
  replace (Z.to_nat (len p + i)) with (length p + Z.to_nat i)%nat by (unfold len; lia).
  by rewrite insert_app_r.
Qed.

(** * Byte patterns and counted loops *)

(** The pattern [lo..=hi] and the alternative pattern [a | b | ...]. *)
Definition in_range (lo hi x : Z) : bool := (lo <=? x) && (x <=? hi).
Definition one_of (l : list Z) (x : Z) : bool := existsb (Z.eqb x) l.

(** [for _ in 0..count { s = step(s)? }].  The count comes from the input and
    may be as large as [2^32 - 1], so the recursion is on fuel; every use
    supplies more fuel than the loop's measure ([for_count_enough]). *)
Fixpoint for_count {S} (fuel : nat) (count : Z) (step : S -> option S) (s : S) : option S :=
  if count <=? 0 then Some s else
  match fuel with
  | O => None
  | S fuel => s' ← step s; for_count fuel (count - 1) step s'
  end.

Section for_count.
Context {S : Type} (step : S -> option S) (I : S -> Prop) (m : S -> nat).
Context (Hstep : forall s s', I s -> step s = Some s' -> I s' /\ (m s' < m s)%nat).

(** Any two amounts of fuel above the measure give the same result. *)
Lemma for_count_enough f1 f2 count s : I s ->
  (m s < f1)%nat -> (m s < f2)%nat ->
  for_count f1 count step s = for_count f2 count step s.
Proof using Hstep.
  revert f2 count s. induction f1 as [|f1 IH]; intros f2 count s HI H1 H2; [lia|].
  destruct f2 as [|f2]; [lia|]. simpl. destruct (count <=? 0); [done|].
  destruct (step s) as [s'|] eqn:E; simpl; [|done].
  destruct (Hstep _ _ HI E). apply IH; [done|lia..].
Qed.

Lemma for_count_inv f count s s' : I s -> for_count f count step s = Some s' -> I s'.
Proof using Hstep.
  revert count s. induction f as [|f IH]; intros count s HI; simpl;
    (destruct (count <=? 0); [by intros [= ->]|]); [done|].
  destruct (step s) as [t|] eqn:E; simpl; [|done]. apply IH. by apply (Hstep s).
Qed.
End for_count.

(** What every step preserves. *)
Lemma for_count_preserves {S} (step : S -> option S) (I : S -> Prop) f count s s' :
  (forall s s', I s -> step s = Some s' -> I s') -> I s -> for_count f count step s = Some s' -> I s'.
Proof.
  intros Hstep. revert count s. induction f as [|f IH]; intros count s HI; simpl;
    (destruct (count <=? 0); [by intros [= ->]|]); [done|].
  destruct (step s) as [t|] eqn:E; simpl; [|done]. apply IH. by eapply Hstep.
Qed.

(** A loop whose body agrees with another on every successful step. *)
Lemma for_count_mono {S} (step1 step2 : S -> option S) f1 f2 count s s' :
  (forall t t', step1 t = Some t' -> step2 t = Some t') -> (f1 <= f2)%nat ->
  for_count f1 count step1 s = Some s' -> for_count f2 count step2 s = Some s'.
Proof.
  intros Hs. revert f2 count s. induction f1 as [|f1 IH]; intros f2 count s Hf; simpl.
  - destruct f2; simpl; by destruct (count <=? 0).
  - destruct f2 as [|f2]; [lia|]. simpl. destruct (count <=? 0); [done|].
    destruct (step1 s) as [t|] eqn:E; simpl; [|done].
    rewrite (Hs _ _ E). simpl. apply IH. lia.
Qed.

(** * [Result] values *)

Inductive result (A E : Type) : Type :=
| Ok (a : A)
| Err (e : E).
Arguments Ok {A E} a.
Arguments Err {A E} e.

(** [x ←! e; k] is [let x = e?; k] for a call that may panic and otherwise
    yields a [Result]. *)
Notation "x ←! e ; k" :=
  (match e with Ret (Ok x) => k | Ret (Err er) => Ret (Err er) | Panic => Panic end)
  (at level 20, e at level 100, k at level 200, only parsing) : rust_scope.

(** [e.ok_or(msg)] followed by [?]. *)
Definition ok_or {A E} (o : option A) (e : E) : outcome (result A E) :=
  Ret (match o with Some a => Ok a | None => Err e end).

Lemma slice_from_eq {A} (d : list A) i : 0 <= i <= len d ->
  slice_from d i = Ret (drop (Z.to_nat i) d).
Proof. intros. unfold slice_from. by rewrite get_from_eq. Qed.

Lemma index_is_Ret {A} (d : list A) i : 0 <= i < len d -> exists x, index d i = Ret x.
Proof. intros H. unfold index. destruct (get_is_Some d i H) as [x ->]. by exists x. Qed.

Lemma index_Ret {A} (d : list A) i x : index d i = Ret x -> 0 <= i < len d /\ get d i = Some x.
Proof.
  unfold index. destruct (get d i) eqn:E; [|done]. intros [= ->].
  split; [by eapply get_Some|done].
Qed.

Lemma slice_from_Ret {A} (d : list A) i t : slice_from d i = Ret t ->
  0 <= i <= len d /\ t = drop (Z.to_nat i) d.
Proof.
  unfold slice_from. destruct (get_from d i) eqn:E; [|done]. intros [= ->].
  by apply get_from_Some.
Qed.

Lemma get_app_cons {A} (p : list A) x s i : i = len p -> get (p ++ x :: s) i = Some x.
Proof. intros ->. rewrite <- (Z.add_0_r (len p)). by rewrite get_app_r by lia. Qed.

Lemma index_app_cons {A} (p : list A) x s i : i = len p -> index (p ++ x :: s) i = Ret x.
Proof. intros ->. unfold index. by rewrite get_app_cons. Qed.

Lemma mapM_Ret {A B} (f : A -> outcome B) l k :
  Forall2 (fun x y => f x = Ret y) l k -> mapM f l = Ret k.
Proof. induction 1 as [|x y l k Hx _ IH]; simpl; [done|]. by rewrite Hx; simpl; rewrite IH. Qed.

Lemma existsb_replicate {A} (p : A -> bool) x n : p x = false -> existsb p (replicate n x) = false.
Proof. intros H. induction n as [|n IH]; simpl; [done|]. by rewrite H. Qed.

(** * Binary search

    [slice::binary_search_by]: halve the window [base, base + size) until one
    element is left.  [partition_point] is the same search with a predicate. *)

Fixpoint search_loop {A} (f : A -> comparison) (d : list A) (fuel : nat) (base size : nat)
    : outcome nat :=
  match fuel with
  | O => Ret base
  | S fuel =>
      if (size <=? 1)%nat then Ret base else
      let half := (size / 2)%nat in
      let mid := (base + half)%nat in
      x ← index d (Z.of_nat mid);
      search_loop f d fuel (match f x with Gt => base | _ => mid end) (size - half)
  end.

(** [inl i] is [Ok(i)], [inr i] is [Err(i)]. *)
Definition binary_search_by {A} (f : A -> comparison) (d : list A) : outcome (nat + nat) :=
  match d with
  | [] => Ret (inr O)
  | _ =>
      base ← search_loop f d (length d) 0 (length d);
      x ← index d (Z.of_nat base);
      Ret (match f x with Eq => inl base | Lt => inr (S base) | Gt => inr base end)
  end.

Definition partition_point {A} (p : A -> bool) (d : list A) : outcome nat :=
  r ← binary_search_by (fun x => if p x then Lt else Gt) d;
  Ret (match r with inl i | inr i => i end).

(** The slice is split as the search needs: [Lt] and [Eq] before [Gt]. *)
Definition search_split {A} (f : A -> comparison) (d : list A) (n : nat) : Prop :=
  (n <= length d)%nat /\ forall i x, d !! i = Some x -> (f x <> Gt <-> (i < n)%nat).

Lemma index_lookup {A} (d : list A) i x : d !! i = Some x -> index d (Z.of_nat i) = Ret x.
Proof.
  intros H. unfold index, get. pose proof (lookup_lt_Some _ _ _ H).
  replace (_ && _) with true by (unfold len; lia). by rewrite Nat2Z.id, H.
Qed.

Lemma search_loop_spec {A} (f : A -> comparison) d n fuel base size :
  search_split f d n -> (base + size <= length d)%nat -> (1 <= size)%nat -> (size <= S fuel)%nat ->
  (base < Nat.max 1 n)%nat -> (n <= base + size)%nat ->
  search_loop f d fuel base size = Ret (Nat.pred (Nat.max 1 n)).
Proof.
  intros [Hn Hs]. revert base size.
  induction fuel as [|fuel IH]; intros base size Hb Hsz Hf Hbn Hns; cbn [search_loop]; [f_equal; lia|].
  destruct (Nat.leb_spec size 1); [f_equal; lia|].
  pose proof (Nat.div_lt size 2 ltac:(lia) ltac:(lia)).
  pose proof (Nat.div_le_lower_bound size 2 1 ltac:(lia) ltac:(lia)).
  pose proof (Nat.Div0.mul_div_le size 2).
  set (half := (size / 2)%nat) in *.
  destruct (lookup_lt_is_Some_2 d (base + half)%nat ltac:(lia)) as [x Hx].
  rewrite (index_lookup _ _ _ Hx). cbn [mbind outcome_bind].
  specialize (Hs _ _ Hx).
  destruct (f x) eqn:E.
  - assert (base + half < n)%nat by (apply Hs; done). apply IH; lia.
  - assert (base + half < n)%nat by (apply Hs; done). apply IH; lia.
  - assert (~ (base + half < n)%nat) by (intros ?%Hs; done). apply IH; lia.
Qed.

(** On a partitioned slice [partition_point] is the length of the first part. *)
Lemma partition_point_spec {A} (p : A -> bool) l1 l2 :
  Forall (fun x => p x = true) l1 -> Forall (fun x => p x = false) l2 ->
  partition_point p (l1 ++ l2) = Ret (length l1).
Proof.
  intros H1 H2. unfold partition_point, binary_search_by.
  destruct (l1 ++ l2) as [|y l] eqn:El; [by apply app_eq_nil in El as [-> ->]|]. rewrite <- El.
  set (f := fun x => if p x then Lt else Gt).
  assert (Hsp : search_split f (l1 ++ l2) (length l1)).
  { split; [rewrite length_app; lia|]. intros i x Hx. unfold f.
    apply lookup_app_Some in Hx as [Hx|[Hi Hx]].
    - rewrite (Forall_lookup_1 _ _ _ _ H1 Hx). apply lookup_lt_Some in Hx. split; [lia|done].
    - rewrite (Forall_lookup_1 _ _ _ _ H2 Hx). split; [done|lia]. }
  assert (Hl : (1 <= length (l1 ++ l2))%nat) by (rewrite El; simpl; lia).
  rewrite length_app in *.
  rewrite (search_loop_spec f _ (length l1)); [|done|rewrite length_app; lia|lia..].
  cbn [mbind outcome_bind].
  destruct (lookup_lt_is_Some_2 (l1 ++ l2) (Nat.pred (Nat.max 1 (length l1)))) as [x Hx];
    [rewrite length_app; lia|].
  rewrite (index_lookup _ _ _ Hx). cbn [mbind outcome_bind].
  destruct Hsp as [_ Hsp]. specialize (Hsp _ _ Hx).
  unfold f in *. destruct (p x).
  - f_equal. assert (Nat.pred (Nat.max 1 (length l1)) < length l1)%nat by (by apply Hsp). lia.
  - f_equal. assert (~ (Nat.pred (Nat.max 1 (length l1)) < length l1)%nat) by (intros ?%Hsp; done). lia.
Qed.

Lemma binary_search_base {A} (f : A -> comparison) d n : d <> [] -> search_split f d n ->
  exists x, d !! Nat.pred (Nat.max 1 n) = Some x /\
    binary_search_by f d = Ret (match f x with
      | Eq => inl (Nat.pred (Nat.max 1 n)) | Lt => inr (S (Nat.pred (Nat.max 1 n)))
      | Gt => inr (Nat.pred (Nat.max 1 n)) end).
Proof.
  intros Hd Hs. unfold binary_search_by. destruct d as [|y d]; [done|].
  pose proof Hs as [Hn _]. cbn [length] in *.
  rewrite (search_loop_spec f _ n); [|done|simpl; lia..].
  destruct (lookup_lt_is_Some_2 (y :: d) (Nat.pred (Nat.max 1 n))) as [x Hx]; [simpl; lia|].
  exists x. split; [done|]. cbn [mbind outcome_bind]. by rewrite (index_lookup _ _ _ Hx).
Qed.

Lemma binary_search_found {A} (f : A -> comparison) l1 x l2 :
  Forall (fun y => f y = Lt) l1 -> f x = Eq -> Forall (fun y => f y = Gt) l2 ->
  binary_search_by f (l1 ++ x :: l2) = Ret (inl (length l1)).
Proof.
  intros H1 Hx H2.
  destruct (binary_search_base f (l1 ++ x :: l2) (S (length l1))) as (y & Hy & ->).
  - by destruct l1.
  - split; [rewrite length_app; simpl; lia|]. intros i y Hy.
    apply lookup_app_Some in Hy as [Hy|[Hi Hy]].
    + rewrite (Forall_lookup_1 _ _ _ _ H1 Hy). apply lookup_lt_Some in Hy. split; [lia|done].
    + apply lookup_cons_Some in Hy as [[? <-]|[? Hy]]; [rewrite Hx; split; [lia|done]|].
      rewrite (Forall_lookup_1 _ _ _ _ H2 Hy). split; [done|lia].
  - replace (Nat.pred (Nat.max 1 (S (length l1)))) with (length l1) in * by lia.
    rewrite list_lookup_middle in Hy by done. injection Hy as <-. by rewrite Hx.
Qed.

Lemma binary_search_absent {A} (f : A -> comparison) l1 l2 :
  Forall (fun y => f y = Lt) l1 -> Forall (fun y => f y = Gt) l2 ->
  binary_search_by f (l1 ++ l2) = Ret (inr (length l1)).
Proof.
  intros H1 H2. destruct (decide (l1 ++ l2 = [])) as [E|E].
  { apply app_eq_nil in E as [-> ->]. done. }
  destruct (binary_search_base f (l1 ++ l2) (length l1) E) as (y & Hy & ->).
  - split; [rewrite length_app; lia|]. intros i y Hy.
    apply lookup_app_Some in Hy as [Hy|[Hi Hy]].
    + rewrite (Forall_lookup_1 _ _ _ _ H1 Hy). apply lookup_lt_Some in Hy. split; [lia|done].
    + rewrite (Forall_lookup_1 _ _ _ _ H2 Hy). split; [done|lia].
  - destruct l1 as [|z l1].
    + change ([] ++ l2) with l2 in Hy. by rewrite (Forall_lookup_1 _ _ _ _ H2 Hy).
    + replace (Nat.pred (Nat.max 1 (length (z :: l1)))) with (length l1) in * by (simpl; lia).
      rewrite lookup_app_l in Hy by (simpl; lia). by rewrite (Forall_lookup_1 _ _ _ _ H1 Hy).
Qed.

(** * Modular casts inside sums *)

Lemma sext_cong w z : 0 < w -> sext w z mod 2 ^ w = z mod 2 ^ w.
Proof.
  intros. unfold sext. rewrite Zminus_mod_idemp_l. f_equal. lia.
Qed.

Lemma sext_add w a b : 0 < w -> sext w (sext w a + b) = sext w (a + b).
Proof.
  intros. unfold sext. f_equal.
  replace (_ - _ + b + _) with ((a + 2 ^ (w - 1)) mod 2 ^ w + b) by lia.
  rewrite Zplus_mod_idemp_l. f_equal. lia.
Qed.

Lemma sext_sub w a b : 0 < w -> sext w (a - sext w b) = sext w (a - b).
Proof.
  intros Hw. unfold sext at 1 3. f_equal.
  rewrite <- (Zplus_mod_idemp_l (a - sext w b)), <- (Zplus_mod_idemp_l (a - b)).
  by rewrite <- (Zminus_mod_idemp_r a (sext w b)), sext_cong, Zminus_mod_idemp_r.
Qed.

Lemma wrap_sub_wrap w a b : wrap w (a - wrap w b) = wrap w (a - b).
Proof. apply Zminus_mod_idemp_r. Qed.

Lemma wrap_add_wrap w a b : wrap w (a + wrap w b) = wrap w (a + b).
Proof. apply Zplus_mod_idemp_r. Qed.

Lemma wrap_sext w a : 0 < w -> wrap w (sext w a) = wrap w a.
Proof. intros. unfold wrap. by apply sext_cong. Qed.

Lemma wrap_sub_sext w a b : 0 < w -> wrap w (a - wrap w (sext w b)) = wrap w (a - b).
Proof. intros. by rewrite wrap_sext, wrap_sub_wrap. Qed.

(** * Sorted lists *)

(** A predicate that holds downwards along a sorted list cuts it in two. *)
Lemma sorted_cut {A} (R : A -> A -> Prop) (p : A -> bool) l :
  StronglySorted R l -> (forall x y, R x y -> p y = true -> p x = true) ->
  exists l1 l2, l = l1 ++ l2 /\ Forall (fun x => p x = true) l1 /\ Forall (fun x => p x = false) l2.
Proof.
  intros Hs Hp. induction Hs as [|x l Hs IH Hx]; [by exists [], []|].
  destruct (p x) eqn:E.
  - destruct IH as (l1 & l2 & -> & H1 & H2). exists (x :: l1), l2. split_and!; [done|by constructor|done].
  - exists [], (x :: l). split_and!; [done|constructor|constructor; [done|]].
    eapply Forall_impl; [exact Hx|]. intros y Hy. destruct (p y) eqn:Ey; [|done].
    by rewrite (Hp _ _ Hy Ey) in E.
Qed.

Lemma StronglySorted_app_l {A} (R : A -> A -> Prop) l1 l2 :
  StronglySorted R (l1 ++ l2) -> StronglySorted R l1.
Proof.
  induction l1 as [|x l1 IH]; simpl; [constructor|].
  inversion_clear 1 as [|? ? Hs Hx]. apply Forall_app in Hx as [? _]. constructor; auto.
Qed.

Lemma slice_prefix {A} (d1 d2 : list A) : slice (d1 ++ d2) 0 (len d1) = Ret d1.
Proof. apply (slice_app [] d1 d2). Qed.

(** Take apart a successful operation. *)
Ltac outcome_inv :=
  repeat match goal with
    | H : Ret _ = Ret _ |- _ => injection H as H; try subst
    | H : Panic = Ret _ |- _ => discriminate H
    | H : (?e ≫= _) = Ret _ |- _ =>
        let E := fresh "E" in
        destruct e eqn:E; cbn [mbind outcome_bind] in H; [|discriminate H]
    | H : (if ?b then _ else _) = Ret _ |- _ => destruct b eqn:?
    end.
