(* ===== verification/Leb128.v ===== *)
(** LEB128 encoding and decoding ([wilt/src/leb128.rs]): the variable-length
    integers of the WASM binary format.  The readers recurse over the input
    with the accumulated [result] and [shift] of the Rust loops; the writers
    recurse on fuel (5 groups of 7 bits cover 32 bits, 10 cover 64), and
    [write_u32_unfold] / [write_sleb_unfold] show that the fuel is never
    exhausted. *)
From S2P Require Import Prelude.

(** ** Readers *)

Fixpoint read_u32_loop (data : bytes) (i result shift : Z) : option (Z * Z) :=
  match data with
  | [] => None
  | byte :: rest =>
      let result := Z.lor result (u32 (Z.shiftl (Z.land byte 0x7F) shift)) in
      let shift := shift + 7 in
      if byte <? 0x80 then Some (result, i + 1)
      else if 35 <=? shift then None
      else read_u32_loop rest (i + 1) result shift
  end.

Definition read_u32 (data : bytes) : option (Z * Z) := read_u32_loop data 0 0 0.

(** The loop shared by [read_i32] ([limit] 35) and [read_i64] ([limit] 70):
    both accumulate in an [i64]. *)
Fixpoint read_sleb_loop (limit : Z) (data : bytes) (i result shift : Z)
  : option (Z * Z) :=
  match data with
  | [] => None
  | byte :: rest =>
      let result := Z.lor result (i64 (Z.shiftl (Z.land byte 0x7F) shift)) in
      let shift := shift + 7 in
      if byte <? 0x80 then
        let result :=
          if (shift <? 64) && negb (Z.land byte 0x40 =? 0)
          then Z.lor result (i64 (Z.shiftl (-1) shift)) else result in
        Some (result, i + 1)
      else if limit <=? shift then None
      else read_sleb_loop limit rest (i + 1) result shift
  end.

Definition read_i32 (data : bytes) : option (Z * Z) :=
  '(result, n) ← read_sleb_loop 35 data 0 0 0; Some (i32 result, n).

Definition read_i64 (data : bytes) : option (Z * Z) := read_sleb_loop 70 data 0 0 0.

(** ** Writers: the bytes pushed on [out]. *)

Fixpoint write_u32_loop (fuel : nat) (value : Z) : bytes :=
  match fuel with
  | O => []
  | S fuel =>
      let byte := u8 (Z.land value 0x7F) in
      let value := Z.shiftr value 7 in
      let byte := if negb (value =? 0) then Z.lor byte 0x80 else byte in
      byte :: (if value =? 0 then [] else write_u32_loop fuel value)
  end.

Definition write_u32 (value : Z) : bytes := write_u32_loop 5 value.

Fixpoint write_sleb_loop (fuel : nat) (value : Z) : bytes :=
  match fuel with
  | O => []
  | S fuel =>
      let byte := u8 (Z.land value 0x7F) in
      let value := Z.shiftr value 7 in
      let sign_bit := Z.land byte 0x40 in
      let done := ((value =? 0) && (sign_bit =? 0))
                  || ((value =? -1) && negb (sign_bit =? 0)) in
      if done then [byte]
      else Z.lor byte 0x80 :: write_sleb_loop fuel value
  end.

Definition write_i32 (value : Z) : bytes := write_sleb_loop 5 value.
Definition write_i64 (value : Z) : bytes := write_sleb_loop 10 value.

(** ** Lengths *)

Fixpoint skip_len_loop (fuel : nat) (i : Z) (data : bytes) : option Z :=
  match fuel with
  | O => None
  | S fuel =>
      b ← get data i;
      if b <? 0x80 then Some (i + 1) else skip_len_loop fuel (i + 1) data
  end.

Definition skip_len (data : bytes) : option Z := skip_len_loop 10 0 data.

Fixpoint u32_size_loop (fuel : nat) (value size : Z) : Z :=
  match fuel with
  | O => size
  | S fuel =>
      if 128 <=? value then u32_size_loop fuel (Z.shiftr value 7) (size + 1) else size
  end.

Definition u32_size (value : Z) : Z := u32_size_loop 5 value 1.

(** ** Five-byte padded form *)

Fixpoint read_padded_loop (fuel : nat) (i : Z) (data : bytes) (offset result : Z) : Z :=
  match fuel with
  | O => result
  | S fuel =>
      match get data (offset + i) with
      | None => result
      | Some byte =>
          let result := Z.lor result (u32 (Z.shiftl (Z.land byte 0x7F) (i * 7))) in
          if byte <? 0x80 then result
          else read_padded_loop fuel (i + 1) data offset result
      end
  end.

Definition read_padded_u32 (data : bytes) (offset : Z) : Z :=
  read_padded_loop 5 0 data offset 0.

Definition write_padded_u32 (buf : bytes) (offset value : Z) : outcome bytes :=
  buf ← store buf offset (Z.lor (u8 (Z.land value 0x7F)) 0x80);
  buf ← store buf (offset + 1) (Z.lor (u8 (Z.land (Z.shiftr value 7) 0x7F)) 0x80);
  buf ← store buf (offset + 2) (Z.lor (u8 (Z.land (Z.shiftr value 14) 0x7F)) 0x80);
  buf ← store buf (offset + 3) (Z.lor (u8 (Z.land (Z.shiftr value 21) 0x7F)) 0x80);
  store buf (offset + 4) (u8 (Z.land (Z.shiftr value 28) 0x0F)).

Lemma write_u32_len v : len (write_u32 v) <= 5.
Proof.
  assert (H : forall n v, len (write_u32_loop n v) <= Z.of_nat n).
  { induction n as [|n IH]; intros w; cbn [write_u32_loop]; [done|]. cbv zeta. rewrite len_cons.
    destruct (_ =? 0); [rewrite len_nil; lia|]. specialize (IH (Z.shiftr w 7)). lia. }
  apply (H 5%nat).
Qed.

Lemma write_i32_len v : len (write_i32 v) <= 5.
Proof.
  assert (H : forall n v, len (write_sleb_loop n v) <= Z.of_nat n).
  { induction n as [|n IH]; intros w; cbn [write_sleb_loop]; [done|]. cbv zeta.
    case_match; rewrite len_cons; [rewrite len_nil; lia|]. specialize (IH (Z.shiftr w 7)). lia. }
  apply (H 5%nat).
Qed.

(** ** Lemmas: one group of seven bits *)

Lemma u8_land_127 v : u8 (Z.land v 127) = v mod 128.
Proof. rewrite land_127. apply wrap_id. pose proof (Z.mod_pos_bound v 128). unfold is_uint. lia. Qed.

Lemma sign_bit_spec b : 0 <= b < 128 -> (Z.land b 64 =? 0) = (b <? 64).
Proof.
  intros Hb. apply eqb_prop.
  revert b Hb. apply (forall_below 128 (fun b => Bool.eqb (Z.land b 64 =? 0) (b <? 64))).
  reflexivity.
Qed.

(** The group shifted to its place and [or]ed into a smaller accumulator. *)
Lemma lor_group r v s w : 0 <= s -> 0 <= r < 2 ^ s -> 0 <= v -> v * 2 ^ s < 2 ^ w ->
  Z.lor r (wrap w (Z.shiftl v s)) = r + v * 2 ^ s.
Proof.
  intros. rewrite wrap_id; [apply lor_shiftl_add; lia|].
  rewrite Z.shiftl_mul_pow2 by lia. unfold is_uint. nia.
Qed.

(** ** Unsigned round trip *)

Lemma write_u32_loop_unfold fuel v :
  write_u32_loop (S fuel) v =
    if v / 128 =? 0 then [v mod 128] else v mod 128 + 128 :: write_u32_loop fuel (v / 128).
Proof.
  simpl. rewrite u8_land_127, shiftr_7.
  destruct (v / 128 =? 0) eqn:E; simpl; [done|].
  rewrite lor_128; [done|]. apply Z.mod_pos_bound. lia.
Qed.

Lemma write_u32_loop_enough n m v :
  0 <= v < 128 ^ Z.of_nat n -> (n <= m)%nat -> (0 < n)%nat ->
  write_u32_loop m v = write_u32_loop n v.
Proof.
  revert m v. induction n as [|n IH]; intros m v Hv Hm Hn; [lia|].
  destruct m as [|m]; [lia|]. rewrite !write_u32_loop_unfold.
  destruct (v / 128 =? 0) eqn:E; [done|]. f_equal. apply IH; [|lia|].
  - rewrite Nat2Z.inj_succ, Z.pow_succ_r in Hv by lia. Z.div_mod_to_equations. nia.
  - destruct n; [|lia]. simpl in Hv. Z.div_mod_to_equations. lia.
Qed.

(** The writer's loop equation: the five units of fuel are enough. *)
Lemma write_u32_unfold v : is_uint 32 v ->
  write_u32 v = if v / 128 =? 0 then [v mod 128]
                else v mod 128 + 128 :: write_u32 (v / 128).
Proof.
  intros Hv. unfold is_uint in Hv. unfold write_u32.
  rewrite <- (write_u32_loop_enough 5 6 v) by (simpl; lia).
  by rewrite write_u32_loop_unfold.
Qed.

Lemma read_u32_loop_write n v i r s rest :
  0 <= v < 128 ^ Z.of_nat n -> (0 < n)%nat -> 0 <= s -> s + 7 * Z.of_nat n <= 35 ->
  0 <= r < 2 ^ s -> v * 2 ^ s < 2 ^ 32 ->
  read_u32_loop (write_u32_loop n v ++ rest) i r s
    = Some (r + v * 2 ^ s, i + len (write_u32_loop n v)).
Proof.
  revert v i r s. induction n as [|n IH]; intros v i r s Hv Hn Hs Hsn Hr Hb; [lia|].
  rewrite Nat2Z.inj_succ, Z.pow_succ_r in Hv by lia.
  pose proof (Z.pow_pos_nonneg 2 s ltac:(lia) Hs).
  assert (Hvm : 0 <= v mod 128 < 128) by (apply Z.mod_pos_bound; lia).
  assert (Hvd : v = 128 * (v / 128) + v mod 128) by (apply Z.div_mod; lia).
  rewrite write_u32_loop_unfold. destruct (v / 128 =? 0) eqn:E; simpl; rewrite land_127.
  - replace (v mod 128 <? 128) with true by lia.
    rewrite Zmod_mod, lor_group by nia. apply some_pair; [nia|unfold len; simpl; lia].
  - replace (v mod 128 + 128 <? 128) with false by lia.
    replace ((v mod 128 + 128) mod 128) with (v mod 128) by (Z.div_mod_to_equations; lia).
    destruct n as [|n]; [simpl in Hv; nia|].
    replace (35 <=? s + 7) with false by lia.
    assert (Hs7 : 2 ^ (s + 7) = 2 ^ s * 128) by (rewrite Z.pow_add_r by lia; lia).
    rewrite lor_group by nia.
    rewrite IH; [|lia || (rewrite ?Hs7; nia)..].
    apply some_pair; [nia|rewrite len_cons; lia].
Qed.

Lemma read_u32_write v rest : is_uint 32 v ->
  read_u32 (write_u32 v ++ rest) = Some (v, len (write_u32 v)).
Proof.
  intros Hv. unfold is_uint in Hv. unfold read_u32.
  change (write_u32 v) with (write_u32_loop 5 v).
  rewrite read_u32_loop_write by (simpl in *; lia). apply some_pair; lia.
Qed.

Lemma write_u32_loop_bytes n v : is_bytes (write_u32_loop n v).
Proof.
  revert v. induction n as [|n IH]; intros v; [constructor|].
  rewrite write_u32_loop_unfold.
  pose proof (Z.mod_pos_bound v 128). unfold is_bytes in *.
  destruct (v / 128 =? 0); repeat constructor; try apply IH; lia.
Qed.

Lemma write_u32_bytes v : is_bytes (write_u32 v).
Proof. apply write_u32_loop_bytes. Qed.

Lemma u32_size_loop_write n v k : 0 <= v < 128 ^ Z.of_nat (S n) ->
  u32_size_loop n v k = k - 1 + len (write_u32_loop (S n) v).
Proof.
  revert v k. induction n as [|n IH]; intros v k Hv.
  - simpl in Hv. rewrite write_u32_loop_unfold.
    replace (v / 128 =? 0) with true by (Z.div_mod_to_equations; lia).
    unfold len. simpl. lia.
  - rewrite write_u32_loop_unfold. simpl u32_size_loop. rewrite shiftr_7.
    destruct (Z.leb_spec 128 v).
    + replace (v / 128 =? 0) with false by (Z.div_mod_to_equations; lia).
      rewrite IH, len_cons; [lia|].
      rewrite Nat2Z.inj_succ, Z.pow_succ_r in Hv by lia. Z.div_mod_to_equations; nia.
    + replace (v / 128 =? 0) with true by (Z.div_mod_to_equations; lia).
      unfold len; simpl; lia.
Qed.

Lemma u32_size_write v : is_uint 32 v -> u32_size v = len (write_u32 v).
Proof.
  intros Hv. unfold is_uint in Hv. unfold u32_size.
  rewrite u32_size_loop_write by (simpl; lia).
  unfold write_u32. rewrite <- (write_u32_loop_enough 5 6 v) by (simpl; lia). lia.
Qed.

(** ** What the unsigned reader accepts *)

Lemma read_u32_loop_bounds data i r s v n :
  is_uint 32 r -> 0 <= s < 35 ->
  read_u32_loop data i r s = Some (v, n) ->
  is_uint 32 v /\ i + 1 <= n <= i + Z.min (len data) ((35 - s + 6) / 7).
Proof.
  revert i r s. induction data as [|b data IH]; intros i r s Hr Hs; simpl; [done|].
  pose proof (len_nonneg data). rewrite len_cons.
  assert (Hr' : is_uint 32 (Z.lor r (u32 (Z.shiftl (Z.land b 127) s))))
    by (apply is_uint_lor; [done|done|by apply wrap_bound]).
  destruct (Z.ltb_spec b 128).
  - intros [= <- <-]. split; [done|]. Z.div_mod_to_equations; lia.
  - destruct (Z.leb_spec 35 (s + 7)); [done|]. intros Hrec.
    apply IH in Hrec; [|done|lia]. destruct Hrec as [? Hn]. split; [done|].
    Z.div_mod_to_equations; lia.
Qed.

Lemma read_u32_bounds data v n : read_u32 data = Some (v, n) ->
  is_uint 32 v /\ 1 <= n <= 5 /\ n <= len data.
Proof.
  intros H. apply read_u32_loop_bounds in H; [|done|lia].
  change ((35 - 0 + 6) / 7) with 5 in H. destruct H as [? ?]. split; [done|]. lia.
Qed.

(** The reader looks at the encoded integer only. *)
Lemma read_u32_loop_app data ext i r s v n :
  read_u32_loop data i r s = Some (v, n) -> read_u32_loop (data ++ ext) i r s = Some (v, n).
Proof.
  revert i r s. induction data as [|b data IH]; intros i r s; simpl; [done|].
  destruct (b <? 128); [done|]. destruct (35 <=? s + 7); [done|]. apply IH.
Qed.

Lemma read_u32_app data ext v n :
  read_u32 data = Some (v, n) -> read_u32 (data ++ ext) = Some (v, n).
Proof. apply read_u32_loop_app. Qed.

Lemma read_u32_loop_take data i r s v n :
  read_u32_loop data i r s = Some (v, n) ->
  read_u32_loop (take (Z.to_nat (n - i)) data) i r s = Some (v, n).
Proof.
  revert i r s. induction data as [|b data IH]; intros i r s; simpl; [done|].
  destruct (b <? 128) eqn:E.
  - intros [= <- <-]. replace (i + 1 - i) with 1 by lia. simpl. by rewrite E.
  - destruct (35 <=? s + 7) eqn:E'; [done|]. intros H.
    assert (Hn : i + 1 + 1 <= n).
    { clear IH E E'. revert H. generalize (i + 1). intros j.
      generalize (Z.lor r (u32 (Z.land b 127 ≪ s))), (s + 7). revert j.
      induction data as [|c data IH]; intros j r' s' H; simpl in H; [done|].
      destruct (c <? 128); [injection H; lia|].
      destruct (35 <=? s' + 7); [done|]. apply IH in H. lia. }
    apply IH in H.
    replace (Z.to_nat (n - i)) with (S (Z.to_nat (n - (i + 1)))) by lia.
    simpl. by rewrite E, E'.
Qed.

Lemma read_u32_take data v n :
  read_u32 data = Some (v, n) -> read_u32 (take (Z.to_nat n) data) = Some (v, n).
Proof. intros H%read_u32_loop_take. by rewrite Z.sub_0_r in H. Qed.

(** ** Signed round trip *)

Lemma write_sleb_loop_unfold fuel v :
  write_sleb_loop (S fuel) v =
    if (-64 <=? v) && (v <? 64) then [v mod 128]
    else v mod 128 + 128 :: write_sleb_loop fuel (v / 128).
Proof.
  assert (Hm : 0 <= v mod 128 < 128) by (apply Z.mod_pos_bound; lia).
  simpl. rewrite u8_land_127, shiftr_7, sign_bit_spec, lor_128 by lia.
  replace ((v / 128 =? 0) && (v mod 128 <? 64)
           || (v / 128 =? -1) && negb (v mod 128 <? 64))
    with ((-64 <=? v) && (v <? 64)); [done|].
  clear Hm. Z.div_mod_to_equations. lia.
Qed.

Lemma write_sleb_loop_enough n m v :
  - 2 ^ (7 * Z.of_nat n - 1) <= v < 2 ^ (7 * Z.of_nat n - 1) -> (0 < n <= m)%nat ->
  write_sleb_loop m v = write_sleb_loop n v.
Proof.
  revert m v. induction n as [|n IH]; intros m v Hv Hm; [lia|].
  destruct m as [|m]; [lia|]. rewrite !write_sleb_loop_unfold.
  destruct ((-64 <=? v) && (v <? 64)) eqn:E; [done|]. f_equal.
  destruct n as [|n]; [simpl in Hv; lia|].
  apply IH; [|lia].
  replace (7 * Z.of_nat (S (S n)) - 1) with (7 + (7 * Z.of_nat (S n) - 1)) in Hv by lia.
  rewrite Z.pow_add_r in Hv by lia. change (2 ^ 7) with 128 in Hv.
  clear IH. set (p := 2 ^ (7 * Z.of_nat (S n) - 1)) in *. clearbody p.
  Z.div_mod_to_equations. lia.
Qed.

(** The writers' loop equation: 5 (resp. 10) units of fuel are enough. *)
Lemma write_i32_unfold v : is_sint 32 v ->
  write_i32 v = if (-64 <=? v) && (v <? 64) then [v mod 128]
                else v mod 128 + 128 :: write_i32 (v / 128).
Proof.
  intros Hv. unfold is_sint in Hv. unfold write_i32.
  rewrite <- (write_sleb_loop_enough 5 6 v) by (simpl in *; lia).
  by rewrite write_sleb_loop_unfold.
Qed.

Lemma write_i64_unfold v : is_sint 64 v ->
  write_i64 v = if (-64 <=? v) && (v <? 64) then [v mod 128]
                else v mod 128 + 128 :: write_i64 (v / 128).
Proof.
  intros Hv. unfold is_sint in Hv. unfold write_i64.
  rewrite <- (write_sleb_loop_enough 10 11 v) by (simpl in *; lia).
  by rewrite write_sleb_loop_unfold.
Qed.

(** The last group, with its sign extension, contributes [v * 2 ^ s]. *)
Lemma last_group r v k : 0 <= k <= 9 -> 0 <= r < 2 ^ (7 * k) -> -64 <= v < 64 ->
  - 2 ^ 63 <= v * 2 ^ (7 * k) < 2 ^ 63 ->
  let result := Z.lor r (i64 (Z.shiftl (v mod 128) (7 * k))) in
  (if (7 * k + 7 <? 64) && negb (Z.land (v mod 128) 64 =? 0)
   then Z.lor result (i64 (Z.shiftl (-1) (7 * k + 7))) else result) = r + v * 2 ^ (7 * k).
Proof.
  intros Hk Hr Hv Hvs. cbv zeta.
  assert (Hm : 0 <= v mod 128 < 128) by (apply Z.mod_pos_bound; lia).
  rewrite sign_bit_spec by done.
  destruct (Z.eq_dec k 9) as [->|Hk9].
  - simpl in Hr, Hvs. assert (v = 0 \/ v = -1) as [-> | ->] by lia; simpl.
    + rewrite Z.lor_0_r. lia.
    + replace (i64 (Z.shiftl (-1 mod 128) (7 * 9))) with (Z.shiftl (-1) (7 * 9)) by reflexivity.
      rewrite lor_shiftl_add by lia. lia.
  - assert (Hp : 0 < 2 ^ (7 * k) <= 2 ^ 56).
    { split; [apply Z.pow_pos_nonneg; lia|apply Z.pow_le_mono_r; lia]. }
    rewrite (sext_id 64 (Z.shiftl (v mod 128) _)), lor_shiftl_add; [|lia|done|lia|].
    2: { rewrite Z.shiftl_mul_pow2 by lia. unfold is_sint. simpl in *. nia. }
    replace (7 * k + 7 <? 64) with true by lia. simpl.
    destruct (Z.ltb_spec (v mod 128) 64) as [Hlt|Hge]; simpl.
    + replace (v mod 128) with v by (clear -Hv Hlt; Z.div_mod_to_equations; lia). done.
    + assert (Hp7 : 2 ^ (7 * k + 7) = 2 ^ (7 * k) * 128) by (rewrite Z.pow_add_r by lia; done).
      rewrite sext_id, lor_shiftl_add; [|lia|rewrite Hp7; nia|lia|].
      * rewrite Hp7. replace (v mod 128) with (v + 128)
          by (clear -Hv Hge; Z.div_mod_to_equations; lia). lia.
      * rewrite Z.shiftl_mul_pow2, Hp7 by lia. unfold is_sint. simpl in *. nia.
Qed.

Lemma read_sleb_loop_write limit n v i r k rest :
  0 <= k -> 7 * (k + Z.of_nat n) <= limit -> limit <= 70 -> (0 < n)%nat ->
  - 2 ^ (7 * Z.of_nat n - 1) <= v < 2 ^ (7 * Z.of_nat n - 1) ->
  - 2 ^ 63 <= v * 2 ^ (7 * k) < 2 ^ 63 -> 0 <= r < 2 ^ (7 * k) ->
  read_sleb_loop limit (write_sleb_loop n v ++ rest) i r (7 * k)
    = Some (r + v * 2 ^ (7 * k), i + len (write_sleb_loop n v)).
Proof.
  intros Hk Hkn Hl Hn. revert v i r k Hk Hkn. induction n as [|n IH]; [lia|].
  intros v i r k Hk Hkn Hv Hvs Hr. rewrite write_sleb_loop_unfold.
  assert (Hm : 0 <= v mod 128 < 128) by (apply Z.mod_pos_bound; lia).
  destruct ((-64 <=? v) && (v <? 64)) eqn:E; simpl; rewrite land_127.
  - rewrite Zmod_mod. replace (v mod 128 <? 128) with true by lia.
    rewrite last_group by lia. done.
  - replace (v mod 128 + 128 <? 128) with false by lia.
    replace ((v mod 128 + 128) mod 128) with (v mod 128) by (clear; Z.div_mod_to_equations; lia).
    destruct n as [|n]; [simpl in Hv; lia|].
    replace (limit <=? 7 * k + 7) with false by lia.
    assert (Hp : 0 < 2 ^ (7 * k) <= 2 ^ 56).
    { split; [apply Z.pow_pos_nonneg; lia|apply Z.pow_le_mono_r; lia]. }
    assert (Hp7 : 2 ^ (7 * (k + 1)) = 2 ^ (7 * k) * 128)
      by (replace (7 * (k + 1)) with (7 * k + 7) by lia; rewrite Z.pow_add_r by lia; done).
    rewrite (sext_id 64 (Z.shiftl (v mod 128) _)), lor_shiftl_add; [|lia|done|lia|].
    2: { rewrite Z.shiftl_mul_pow2 by lia. unfold is_sint. simpl in *. nia. }
    replace (7 * k + 7) with (7 * (k + 1)) by lia.
    assert (Hd : v = 128 * (v / 128) + v mod 128) by (apply Z.div_mod; lia).
    rewrite IH; [|lia|lia|lia| | |].
    + apply some_pair; [rewrite Hp7; nia|rewrite len_cons; lia].
    + replace (7 * Z.of_nat (S (S n)) - 1) with (7 + (7 * Z.of_nat (S n) - 1)) in Hv by lia.
      rewrite Z.pow_add_r in Hv by lia. change (2 ^ 7) with 128 in Hv. lia.
    + (* [2^63] is a multiple of the next radix, so the floor stays in range *)
      assert (Hq : 2 ^ 63 = 2 ^ (63 - 7 * (k + 1)) * 2 ^ (7 * (k + 1)))
        by (rewrite <- Z.pow_add_r by lia; f_equal; lia).
      rewrite Hq, Hp7 in *. clear -Hvs Hp Hd Hm.
      set (p := 2 ^ (7 * k)) in *. set (q := 2 ^ (63 - 7 * (k + 1))) in *.
      assert (- q <= v / 128 < q) by (clear Hp; nia). nia.
    + rewrite Hp7. nia.
Qed.

Lemma read_i32_write v rest : is_sint 32 v ->
  read_i32 (write_i32 v ++ rest) = Some (v, len (write_i32 v)).
Proof.
  intros Hv. unfold read_i32, write_i32. pose proof Hv as Hv'. unfold is_sint in Hv'.
  change 0 with (7 * 0) at 3. rewrite read_sleb_loop_write by (simpl in *; lia).
  cbv beta iota delta [mbind option_bind].
  apply some_pair; [|lia]. rewrite Z.mul_0_r, Z.mul_1_r. by apply sext_id.
Qed.

Lemma read_i64_write v rest : is_sint 64 v ->
  read_i64 (write_i64 v ++ rest) = Some (v, len (write_i64 v)).
Proof.
  intros Hv. unfold read_i64, write_i64. unfold is_sint in Hv.
  change 0 with (7 * 0) at 3. rewrite read_sleb_loop_write by (simpl in *; lia).
  rewrite Z.mul_0_r. apply some_pair; lia.
Qed.

(** ** Skipping agrees with decoding *)

Lemma skip_len_read_i64_loop p rest fuel i r k :
  len p = i -> 0 <= k -> Z.of_nat fuel = 10 - k -> (0 < fuel)%nat ->
  skip_len_loop fuel i (p ++ rest) = (snd <$> read_sleb_loop 70 rest i r (7 * k)).
Proof.
  revert p fuel i r k. induction rest as [|b rest IH]; intros p fuel i r k Hp Hk Hf Hpos;
    (destruct fuel as [|fuel]; [lia|]); simpl.
  - rewrite app_nil_r. by rewrite (proj2 (get_None p i)) by lia.
  - replace (get (p ++ b :: rest) i) with (Some b)
      by (replace i with (len p + 0) by lia; rewrite get_app_r by lia; done).
    simpl. destruct (b <? 128); [done|].
    destruct (Z.leb_spec 70 (7 * k + 7)).
    + destruct fuel; [done|lia].
    + replace (p ++ b :: rest) with ((p ++ [b]) ++ rest) by (rewrite <- app_assoc; done).
      replace (7 * k + 7) with (7 * (k + 1)) by lia.
      apply IH; [rewrite len_app; unfold len in *; simpl; lia|lia..].
Qed.

Lemma skip_len_read_i64 data : skip_len data = snd <$> read_i64 data.
Proof. apply (skip_len_read_i64_loop [] data 10 0 0 0); [reflexivity|lia..]. Qed.

Lemma skip_len_read_u32_loop p rest fuel i r k v n :
  len p = i -> 0 <= k <= 4 -> 5 - k <= Z.of_nat fuel ->
  read_u32_loop rest i r (7 * k) = Some (v, n) ->
  skip_len_loop fuel i (p ++ rest) = Some n.
Proof.
  revert p fuel i r k. induction rest as [|b rest IH]; intros p fuel i r k Hp Hk Hf; simpl; [done|].
  destruct fuel as [|fuel]; [lia|]. simpl.
  replace (get (p ++ b :: rest) i) with (Some b)
    by (replace i with (len p + 0) by lia; rewrite get_app_r by lia; done).
  simpl. destruct (b <? 128); [by intros [= _ ->]|].
  destruct (Z.leb_spec 35 (7 * k + 7)); [done|].
  replace (p ++ b :: rest) with ((p ++ [b]) ++ rest) by (rewrite <- app_assoc; done).
  replace (7 * k + 7) with (7 * (k + 1)) by lia.
  apply IH; [rewrite len_app; unfold len in *; simpl; lia|lia..].
Qed.

Lemma skip_len_read_u32 data v n : read_u32 data = Some (v, n) -> skip_len data = Some n.
Proof. apply (skip_len_read_u32_loop [] data 10 0 0 0); [reflexivity|lia..]. Qed.

Lemma skip_len_loop_bounds fuel i data n : 0 <= i ->
  skip_len_loop fuel i data = Some n -> i + 1 <= n <= i + Z.of_nat fuel /\ n <= len data.
Proof.
  revert i. induction fuel as [|fuel IH]; intros i Hi; simpl; [done|].
  destruct (get data i) as [b|] eqn:Hg; simpl; [|done]. apply get_Some in Hg.
  destruct (b <? 128); [intros [= <-]; lia|]. intros H%IH; lia.
Qed.

Lemma skip_len_bounds data n : skip_len data = Some n -> 1 <= n <= 10 /\ n <= len data.
Proof. intros H%skip_len_loop_bounds; lia. Qed.

Lemma skip_len_loop_app fuel i data ext n : 0 <= i ->
  skip_len_loop fuel i data = Some n -> skip_len_loop fuel i (data ++ ext) = Some n.
Proof.
  revert i. induction fuel as [|fuel IH]; intros i Hi; simpl; [done|].
  destruct (get data i) as [b|] eqn:Hg; simpl; [|done].
  rewrite get_app_l by (apply get_Some in Hg; lia). rewrite Hg. simpl.
  destruct (b <? 128); [done|]. apply IH. lia.
Qed.

Lemma skip_len_app data ext n : skip_len data = Some n -> skip_len (data ++ ext) = Some n.
Proof. apply skip_len_loop_app. lia. Qed.

(** ** Padded form *)

Definition padded_bytes (value : Z) : bytes :=
  [Z.lor (u8 (Z.land value 0x7F)) 0x80;
   Z.lor (u8 (Z.land (Z.shiftr value 7) 0x7F)) 0x80;
   Z.lor (u8 (Z.land (Z.shiftr value 14) 0x7F)) 0x80;
   Z.lor (u8 (Z.land (Z.shiftr value 21) 0x7F)) 0x80;
   u8 (Z.land (Z.shiftr value 28) 0x0F)].

Lemma write_padded_u32_app p m s value : len m = 5 ->
  write_padded_u32 (p ++ m ++ s) (len p) value = Ret (p ++ padded_bytes value ++ s).
Proof.
  intros Hm. do 6 list_of_len Hm. unfold write_padded_u32, mbind, outcome_bind.
  pose proof (len_nonneg s).
  rewrite <- (Z.add_0_r (len p)) at 1.
  repeat (rewrite store_app_insert by (unfold len in *; simpl; lia); simpl).
  done.
Qed.

(** One step of the padded reader over a continuation byte. *)
Lemma read_padded_loop_step fuel i p m s b r v :
  0 <= i -> get m i = Some (v + 128) -> 0 <= v < 128 ->
  0 <= r < 2 ^ (i * 7) -> i <= 3 -> b = v ->
  read_padded_loop (S fuel) i (p ++ m ++ s) (len p) r
    = read_padded_loop fuel (i + 1) (p ++ m ++ s) (len p) (r + b * 2 ^ (i * 7)).
Proof.
  intros Hi Hg Hv Hr Hi3 ->. simpl. rewrite get_app_r by done.
  rewrite get_app_l by (apply get_Some in Hg; lia). rewrite Hg.
  rewrite land_127. replace ((v + 128) mod 128) with v by (Z.div_mod_to_equations; lia).
  replace (v + 128 <? 128) with false by lia.
  rewrite lor_group; [done|lia|done|lia|].
  assert (2 ^ (i * 7) <= 2 ^ 21) by (apply Z.pow_le_mono_r; lia). simpl in *. nia.
Qed.

Lemma read_padded_u32_app p s v : is_uint 32 v ->
  read_padded_u32 (p ++ padded_bytes v ++ s) (len p) = v.
Proof.
  intros Hv. unfold is_uint in Hv. unfold read_padded_u32.
  assert (Hm : forall x, 0 <= x mod 128 < 128) by (intros; apply Z.mod_pos_bound; lia).
  assert (Hpad : padded_bytes v =
    [v mod 128 + 128; v / 2 ^ 7 mod 128 + 128; v / 2 ^ 14 mod 128 + 128;
     v / 2 ^ 21 mod 128 + 128; v / 2 ^ 28]).
  { unfold padded_bytes. rewrite !u8_land_127, !lor_128 by done.
    rewrite !Z.shiftr_div_pow2, (land_ones_mod _ 4) by lia. repeat f_equal.
    unfold wrap. simpl. Z.div_mod_to_equations; lia. }
  rewrite Hpad.
  rewrite (read_padded_loop_step _ 0 _ _ _ (v mod 128) _ (v mod 128)) by (done || lia).
  rewrite (read_padded_loop_step _ (0 + 1) _ _ _ (v / 2 ^ 7 mod 128) _ (v / 2 ^ 7 mod 128))
    by (done || (pose proof (Hm v); simpl; lia)).
  rewrite (read_padded_loop_step _ (0 + 1 + 1) _ _ _ (v / 2 ^ 14 mod 128) _ (v / 2 ^ 14 mod 128))
    by (done || (pose proof (Hm v); pose proof (Hm (v / 2 ^ 7)); simpl in *; lia)).
  rewrite (read_padded_loop_step _ (0 + 1 + 1 + 1) _ _ _ (v / 2 ^ 21 mod 128) _ (v / 2 ^ 21 mod 128))
    by (done || (pose proof (Hm v); pose proof (Hm (v / 2 ^ 7)); pose proof (Hm (v / 2 ^ 14));
                 simpl in *; lia)).
  assert (Hd : 0 <= v / 2 ^ 28 < 16) by (simpl in *; Z.div_mod_to_equations; lia).
  simpl read_padded_loop. rewrite get_app_r by lia.
  rewrite (proj2 (get_lookup _ _ (v / 2 ^ 28)))
    by (split; [rewrite !len_cons; pose proof (len_nonneg s); lia|reflexivity]).
  replace (v / 2 ^ 28 <? 128) with true by lia.
  rewrite land_127, (Z.mod_small (v / 2 ^ 28)) by lia.
  clear Hpad. pose proof (Hm v). pose proof (Hm (v / 2 ^ 7)).
  pose proof (Hm (v / 2 ^ 14)). pose proof (Hm (v / 2 ^ 21)).
  rewrite lor_group; simpl in *; [|lia..].
  clear Hm. Z.div_mod_to_equations; lia.
Qed.

(** ** Properties *)

(** Unsigned round trip: decoding [write_u32 v] followed by anything gives
    back [v] and consumes exactly the [u32_size v] bytes written, all of which
    are bytes. *)
Theorem u32_roundtrip v rest : is_uint 32 v ->
  read_u32 (write_u32 v ++ rest) = Some (v, u32_size v) /\
  len (write_u32 v) = u32_size v /\ is_bytes (write_u32 v).
Proof.
  intros Hv. rewrite u32_size_write, read_u32_write by done.
  split_and!; [done|done|apply write_u32_bytes].
Qed.

Lemma u32_roundtrip_witness :
  is_uint 32 16384 /\ read_u32 (write_u32 16384 ++ [7]) = Some (16384, 3).
Proof.
  assert (H : is_uint 32 16384) by (unfold is_uint; lia).
  split; [exact H|]. exact (proj1 (u32_roundtrip 16384 [7] H)).
Defined.

(** Signed round trips: [write_i32] and [write_i64] are decoded back to
    their value, whatever follows, consuming exactly the bytes written. *)
Theorem sleb_roundtrip v w rest : is_sint 32 v -> is_sint 64 w ->
  read_i32 (write_i32 v ++ rest) = Some (v, len (write_i32 v)) /\
  read_i64 (write_i64 w ++ rest) = Some (w, len (write_i64 w)).
Proof. intros. split; [by apply read_i32_write|by apply read_i64_write]. Qed.

Lemma sleb_roundtrip_witness :
  is_sint 32 (-129) /\ read_i64 (write_i64 (- 2 ^ 63) ++ [1]) = Some (- 2 ^ 63, 10).
Proof.
  assert (H : is_sint 32 (-129)) by (unfold is_sint; simpl; lia).
  assert (H' : is_sint 64 (- 2 ^ 63)) by (unfold is_sint; simpl; lia).
  split; [exact H|]. exact (proj2 (sleb_roundtrip (-129) (- 2 ^ 63) [1] H H')).
Defined.

(** [skip_len] is the length part of [read_i64] on every input, and agrees
    with [read_u32] wherever that reader accepts. *)
Theorem skip_len_correct data :
  skip_len data = snd <$> read_i64 data /\
  forall v n, read_u32 data = Some (v, n) -> skip_len data = Some n.
Proof. split; [apply skip_len_read_i64|apply skip_len_read_u32]. Qed.

(** The five-byte padded form: writing any [u32] at an offset with five
    bytes of room succeeds, changes only those five bytes, and is read back
    exactly; with less room the write panics. *)
Theorem padded_roundtrip buf offset v : 0 <= offset -> is_uint 32 v ->
  (offset + 5 <= len buf ->
     exists buf', write_padded_u32 buf offset v = Ret buf' /\ len buf' = len buf /\
       read_padded_u32 buf' offset = v /\
       forall i, i < offset \/ offset + 5 <= i -> get buf' i = get buf i) /\
  (len buf < offset + 5 -> write_padded_u32 buf offset v = Panic).
Proof.
  intros Ho Hv. split.
  - intros Hroom. destruct (split_at buf offset 5 Ho ltac:(lia) Hroom) as (p & m & s & -> & <- & Hm).
    exists (p ++ padded_bytes v ++ s). split_and!.
    + by apply write_padded_u32_app.
    + rewrite !len_app, Hm. done.
    + by apply read_padded_u32_app.
    + intros i Hi. destruct (Z.lt_ge_cases i (len p)); [by rewrite !get_app_l by done|].
      assert (Hpad : len (padded_bytes v) = 5) by done.
      replace i with (len p + (len m + (i - len p - 5))) by lia.
      rewrite !get_app_r by lia. rewrite Hm at 1. rewrite <- Hpad at 1.
      by rewrite !get_app_r by lia.
  - intros Hshort. unfold write_padded_u32, mbind, outcome_bind.
    repeat match goal with
      | |- context [match store ?b ?o ?x with _ => _ end] =>
          let E := fresh "E" in destruct (store b o x) eqn:E; [apply store_len in E|done]
      end.
    apply store_Panic. lia.
Qed.

Lemma padded_roundtrip_witness :
  exists buf', write_padded_u32 [1; 2; 3; 4; 5; 6] 1 300 = Ret buf' /\
    read_padded_u32 buf' 1 = 300.
Proof.
  destruct (padded_roundtrip [1; 2; 3; 4; 5; 6] 1 300 ltac:(lia) ltac:(unfold is_uint; lia))
    as [H _].
  destruct (H ltac:(reflexivity || (vm_compute; discriminate))) as (buf' & Hw & _ & Hr & _).
  exists buf'. auto.
Defined.
