(* ===== verification/Opcode.v ===== *)
(** The instruction-level WASM decoder shared by the passes
    ([wilt/src/opcode.rs]): instruction lengths, the locals header, and the
    [InstrIter] iterator with its [walk] driver. *)
From S2P Require Import Prelude Leb128.

Definition OP_CALL : Z := 0x10.
Definition OP_REF_FUNC : Z := 0xD2.
Definition OP_I32_CONST : Z := 0x41.

Definition valtype_len (d : bytes) (off : Z) : option Z :=
  v ← get d off;
  if in_range 0x7B 0x7F v then Some 1
  else if one_of [0x6F; 0x70] v then Some 1
  else None.

(** [leb128::read_u32(d)?.1] *)
Definition leb_len (d : bytes) : option Z := snd <$> read_u32 d.

(** [leb128::read_u32(d.get(off..)?)?], advancing [off]. *)
Definition skip_leb (d : bytes) (off : Z) : option Z :=
  r ← get_from d off; c ← leb_len r; Some (off + c).

(** One entry of the locals vector: a count and a valtype. *)
Definition skip_local (body : bytes) (off : Z) : option Z :=
  off ← skip_leb body off; t ← valtype_len body off; Some (off + t).

Definition skip_locals (body : bytes) : option Z :=
  '(count, off) ← read_u32 body;
  for_count (S (length body)) count (skip_local body) off.

Definition skip_valtype (d : bytes) (off : Z) : option Z :=
  t ← valtype_len d off; Some (off + t).

(** Two consecutive LEB immediates. *)
Definition leb_len2 (d : bytes) : option Z :=
  c1 ← leb_len d; r ← get_from d c1; c2 ← leb_len r; Some (c1 + c2).

(** The [0xFC] prefix: saturating truncations, bulk memory and table
    operations; [after_sub] follows the sub-opcode. *)
Definition fc_len (sub : Z) (after_sub : bytes) : option Z :=
  if in_range 0x00 0x07 sub then Some 0
  else if sub =? 0x08 then c1 ← leb_len after_sub; Some (c1 + 1)
  else if sub =? 0x09 then leb_len after_sub
  else if sub =? 0x0A then leb_len2 after_sub
  else if sub =? 0x0B then leb_len after_sub
  else if sub =? 0x0C then leb_len2 after_sub
  else if sub =? 0x0D then leb_len after_sub
  else if sub =? 0x0E then leb_len2 after_sub
  else if in_range 0x0F 0x11 sub then leb_len after_sub
  else None.

(** The [0xFB] prefix: the GC proposal. *)
Definition fb_len (sub : Z) (after_sub : bytes) : option Z :=
  if one_of [0x00; 0x01; 0x06; 0x07; 0x0B; 0x0C; 0x0D; 0x0E; 0x10] sub then leb_len after_sub
  else if one_of [0x02; 0x03; 0x04; 0x05; 0x08; 0x09; 0x0A; 0x11; 0x12; 0x13] sub
  then leb_len2 after_sub
  else if sub =? 0x0F then Some 0
  else if in_range 0x14 0x17 sub then leb_len after_sub
  else if one_of [0x18; 0x19] sub then
    t ← skip_leb after_sub 1; t ← skip_leb after_sub t; skip_leb after_sub t
  else if in_range 0x1A 0x1E sub then Some 0
  else None.

Definition memarg_len (rest : bytes) : option Z :=
  '(align, c1) ← read_u32 rest;
  total ← (if negb (Z.land align 0x40 =? 0) then skip_leb rest c1 else Some c1);
  skip_leb rest total.

(** The length of the immediates of opcode [op], read from the bytes [rest]
    that follow it. *)
Definition imm_len (op : Z) (rest : bytes) : option Z :=
  if one_of [0x00; 0x01; 0x05; 0x0B; 0x0F; 0x1A; 0x1B] op || in_range 0x45 0xC4 op
     || one_of [0xD1; 0xD3; 0xD4] op then Some 0
  else if in_range 0x02 0x04 op then leb_len rest
  else if one_of [0x0C; 0x0D; 0x10; 0x20; 0x21; 0x22; 0x23; 0x24; 0x25; 0x26;
                  0xD2; 0xD5; 0xD6] op then leb_len rest
  else if op =? 0x0E then
    '(n, c) ← read_u32 rest; for_count (S (length rest)) (n + 1) (skip_leb rest) c
  else if op =? 0x11 then leb_len2 rest
  else if op =? 0x1C then
    '(n, c) ← read_u32 rest; for_count (S (length rest)) n (skip_valtype rest) c
  else if in_range 0x28 0x3E op then memarg_len rest
  else if one_of [0x3F; 0x40] op then Some 1
  else if one_of [0x41; 0x42] op then skip_len rest
  else if op =? 0x43 then Some 4
  else if op =? 0x44 then Some 8
  else if op =? 0xD0 then leb_len rest
  else if op =? 0xFC then
    '(sub, c) ← read_u32 rest; after_sub ← get_from rest c;
    extra ← fc_len sub after_sub; Some (c + extra)
  else if op =? 0xFB then
    '(sub, c) ← read_u32 rest; after_sub ← get_from rest c;
    extra ← fb_len sub after_sub; Some (c + extra)
  else None.

Definition instr_len (body : bytes) (pos : Z) : option Z :=
  op ← get body pos; rest ← get_from body (pos + 1);
  imm ← imm_len op rest; Some (1 + imm).

(** ** The instruction iterator *)

Record InstrIter := { it_body : bytes; it_pos : Z; it_failed : bool }.

Definition iter_new (body : bytes) (start : Z) : InstrIter :=
  {| it_body := body; it_pos := start; it_failed := false |}.

(** [InstrIter::next]: the item yielded and the iterator afterwards. *)
Definition iter_next (it : InstrIter) : option (Z * Z) * InstrIter :=
  if it_failed it || (len (it_body it) <=? it_pos it) then (None, it)
  else match instr_len (it_body it) (it_pos it) with
       | Some n =>
           (Some (it_pos it, n),
            {| it_body := it_body it; it_pos := it_pos it + n; it_failed := it_failed it |})
       | None =>
           (None, {| it_body := it_body it; it_pos := it_pos it; it_failed := true |})
       end.

(** Drain the iterator: the items and the final state. *)
Fixpoint iter_collect (fuel : nat) (it : InstrIter) : list (Z * Z) * InstrIter :=
  match fuel with
  | O => ([], it)
  | S fuel =>
      match iter_next it with
      | (None, it') => ([], it')
      | (Some x, it') => let '(l, it'') := iter_collect fuel it' in (x :: l, it'')
      end
  end.

Definition walk (body : bytes) (start : Z) : option (list (Z * Z)) :=
  let '(out, it) := iter_collect (S (length body)) (iter_new body start) in
  if it_failed it then None else Some out.

Example walk_simple :
  walk [0; 0x41; 5; 0x41; 7; 0x6A; 0x1A; 0x0B] 1
    = Some [(1, 2); (3, 2); (5, 1); (6, 1); (7, 1)].
Proof. reflexivity. Qed.
Example walk_bails_on_simd : walk [0; 0xFD; 0; 0x0B] 1 = None.
Proof. reflexivity. Qed.
Example instr_len_i64_const :
  instr_len [0x42; 0x88; 0xef; 0x99; 0xab; 0xc5; 0xe8; 0x8c; 0x91; 0x11] 0 = Some 10.
Proof. reflexivity. Qed.

(** ** Decoders read a prefix of their input *)

Create HintDb stable.

(** Replay a successful decoder step by step on the longer input of the goal. *)
Ltac bind_simpl :=
  match goal with |- (Some ?x ≫= ?f) = ?y => change (f x = y); cbv beta end.
Ltac stable_step H :=
  first
    [ match type of H with
      | (get_from _ _ ≫= _) = Some _ =>
          let x := fresh "x" in let E := fresh "E" in
          apply bind_Some in H as (x & E & H); rewrite (get_from_app_l _ _ _ _ E);
          bind_simpl
      | (_ ≫= _) = Some _ =>
          let x := fresh "x" in let E := fresh "E" in let E' := fresh "E" in
          apply bind_Some in H as (x & E & H);
          match goal with
          | |- (?g ≫= _) = Some _ =>
              assert (E' : g = Some x) by (revert E; solve [eauto with stable | case_match; eauto with stable]);
              rewrite E'; clear E'; bind_simpl
          end
      | (let '(_, _) := ?p in _) = Some _ => destruct p
      | (if ?b then _ else _) = Some _ => destruct b
      end
    | solve [eauto with stable]
    | progress simpl in H |- * ].
Ltac stable := repeat match goal with H : _ = Some _ |- _ => stable_step H end.

Lemma stable_read_u32 d ext x : read_u32 d = Some x -> read_u32 (d ++ ext) = Some x.
Proof. destruct x. apply read_u32_app. Qed.

Lemma stable_get i (d ext : bytes) x : get d i = Some x -> get (d ++ ext) i = Some x.
Proof. intros H. rewrite get_app_l; [done|]. apply get_Some in H. lia. Qed.

#[export] Hint Resolve stable_read_u32 skip_len_app stable_get : stable.

Lemma stable_valtype_len off d ext n :
  valtype_len d off = Some n -> valtype_len (d ++ ext) off = Some n.
Proof. unfold valtype_len. intros H. stable. Qed.

Lemma stable_leb_len d ext n : leb_len d = Some n -> leb_len (d ++ ext) = Some n.
Proof.
  unfold leb_len. intros (p & Hp & ->)%fmap_Some. by rewrite (stable_read_u32 _ _ _ Hp).
Qed.
#[export] Hint Resolve stable_valtype_len stable_leb_len : stable.

Lemma stable_skip_leb off d ext n : skip_leb d off = Some n -> skip_leb (d ++ ext) off = Some n.
Proof. unfold skip_leb. intros H. stable. Qed.
#[export] Hint Resolve stable_skip_leb : stable.

Lemma stable_skip_valtype off d ext n :
  skip_valtype d off = Some n -> skip_valtype (d ++ ext) off = Some n.
Proof. unfold skip_valtype. intros H. stable. Qed.

Lemma stable_skip_local off d ext n :
  skip_local d off = Some n -> skip_local (d ++ ext) off = Some n.
Proof. unfold skip_local. intros H. stable. Qed.

Lemma stable_leb_len2 d ext n : leb_len2 d = Some n -> leb_len2 (d ++ ext) = Some n.
Proof. unfold leb_len2. intros H. stable. Qed.
#[export] Hint Resolve stable_skip_valtype stable_skip_local stable_leb_len2 : stable.

Lemma stable_fc_len sub d ext n : fc_len sub d = Some n -> fc_len sub (d ++ ext) = Some n.
Proof. unfold fc_len. intros H. stable. Qed.

Lemma stable_fb_len sub d ext n : fb_len sub d = Some n -> fb_len sub (d ++ ext) = Some n.
Proof. unfold fb_len. intros H. stable. Qed.

Lemma stable_memarg_len d ext n : memarg_len d = Some n -> memarg_len (d ++ ext) = Some n.
Proof. unfold memarg_len. intros H. stable. Qed.
#[export] Hint Resolve stable_fc_len stable_fb_len stable_memarg_len : stable.

Lemma stable_for_count count (step : bytes -> Z -> option Z) s d ext x :
  (forall off n, step d off = Some n -> step (d ++ ext) off = Some n) ->
  for_count (S (length d)) count (step d) s = Some x ->
  for_count (S (length (d ++ ext))) count (step (d ++ ext)) s = Some x.
Proof. intros Hs. apply for_count_mono; [done|rewrite length_app; lia]. Qed.

Lemma imm_len_app op d ext n : imm_len op d = Some n -> imm_len op (d ++ ext) = Some n.
Proof.
  unfold imm_len. intros H.
  repeat first
    [ solve [eauto using stable_for_count with stable]
    | stable_step H ].
Qed.

(** An instruction is decoded from its own bytes only, wherever it is. *)
Lemma instr_len_app_r p body pos : 0 <= pos ->
  instr_len (p ++ body) (len p + pos) = instr_len body pos.
Proof.
  intros Hp. unfold instr_len.
  by rewrite get_app_r, <- Z.add_assoc, get_from_app by lia.
Qed.

Lemma instr_len_app_l body ext pos n :
  instr_len body pos = Some n -> instr_len (body ++ ext) pos = Some n.
Proof. unfold instr_len. intros H. pose proof imm_len_app. stable. Qed.

(** ** Bounds and termination *)

Lemma leb_len_bounds d n : leb_len d = Some n -> 1 <= n <= 5 /\ n <= len d.
Proof.
  unfold leb_len. intros ([v m] & H & ->)%fmap_Some. apply read_u32_bounds in H. simpl. lia.
Qed.

Lemma skip_leb_bounds d off n : skip_leb d off = Some n -> 0 <= off < n /\ n <= len d.
Proof.
  unfold skip_leb. intros (r & Hr & H)%bind_Some. apply bind_Some in H as (c & Hc & [= <-]).
  apply get_from_Some in Hr as [? ->]. apply leb_len_bounds in Hc.
  rewrite len_drop in Hc. lia.
Qed.

Lemma valtype_len_bounds d off n :
  valtype_len d off = Some n -> n = 1 /\ 0 <= off < len d.
Proof.
  unfold valtype_len. intros (v & Hv & H)%bind_Some. apply get_Some in Hv.
  repeat case_match; by simplify_eq.
Qed.

Lemma skip_valtype_bounds d off n : skip_valtype d off = Some n -> 0 <= off < n /\ n <= len d.
Proof.
  unfold skip_valtype. intros (t & Ht & [= <-])%bind_Some.
  apply valtype_len_bounds in Ht. lia.
Qed.

Lemma skip_local_bounds d off n : skip_local d off = Some n -> 0 <= off < n /\ n <= len d.
Proof.
  unfold skip_local. intros (o & Ho & H)%bind_Some. apply skip_leb_bounds in Ho.
  apply bind_Some in H as (t & Ht & [= <-]). apply valtype_len_bounds in Ht. lia.
Qed.

Lemma leb_len2_bounds d n : leb_len2 d = Some n -> 2 <= n <= len d.
Proof.
  unfold leb_len2. intros (c1 & H1 & H)%bind_Some. apply bind_Some in H as (r & Hr & H).
  apply bind_Some in H as (c2 & H2 & [= <-]). apply leb_len_bounds in H1, H2.
  apply get_from_Some in Hr as [? ->]. rewrite len_drop in H2. lia.
Qed.

(** A vector skipped one entry at a time: every entry moves forward and stays
    in the buffer, so more fuel than bytes is enough whatever the count. *)
Section skip_vector.
Context (d : bytes) (step : Z -> option Z).
Context (Hstep : forall off n, step off = Some n -> 0 <= off < n /\ n <= len d).

Lemma skip_vector_enough f1 f2 count off : 0 <= off ->
  (length d < f1)%nat -> (length d < f2)%nat ->
  for_count f1 count step off = for_count f2 count step off.
Proof using Hstep.
  intros Ho H1 H2.
  apply (for_count_enough step (fun o => 0 <= o) (fun o => Z.to_nat (len d - o)));
    unfold len in *; [|lia..].
  intros s s' Hs [? ?]%Hstep. unfold len in *. lia.
Qed.

Lemma skip_vector_bounds f count off n :
  0 <= off <= len d -> for_count f count step off = Some n -> off <= n <= len d.
Proof using Hstep.
  intros Ho. apply (for_count_inv step (fun o => off <= o <= len d) (fun o => Z.to_nat (len d - o)));
    [|lia].
  intros s s' Hs [? ?]%Hstep. lia.
Qed.
End skip_vector.

Lemma imm_len_nonneg op rest n : imm_len op rest = Some n -> 0 <= n.
Proof.
  unfold imm_len, memarg_len, fc_len, fb_len. intros H.
  repeat match goal with
    | H : Some _ = Some _ |- _ => injection H as <-
    | H : None = Some _ |- _ => discriminate H
    | H : (_ ≫= _) = Some _ |- _ => apply bind_Some in H as (? & ? & H)
    | H : (let '(_, _) := ?p in _) = Some _ |- _ => destruct p
    | H : (if ?b then _ else _) = Some _ |- _ => destruct b
    | H : leb_len _ = Some _ |- _ => apply leb_len_bounds in H
    | H : leb_len2 _ = Some _ |- _ => apply leb_len2_bounds in H
    | H : skip_leb _ _ = Some _ |- _ => apply skip_leb_bounds in H
    | H : skip_len _ = Some _ |- _ => apply skip_len_bounds in H
    | H : read_u32 _ = Some _ |- _ => apply read_u32_bounds in H as (? & ? & ?)
    | H : for_count _ _ (skip_leb _) _ = Some _ |- _ =>
        apply (skip_vector_bounds rest _ (skip_leb_bounds _)) in H; [|lia]
    | H : for_count _ _ (skip_valtype _) _ = Some _ |- _ =>
        apply (skip_vector_bounds rest _ (skip_valtype_bounds _)) in H; [|lia]
    end; lia.
Qed.

Lemma instr_len_bounds body pos n :
  instr_len body pos = Some n -> 0 <= pos < len body /\ 1 <= n.
Proof.
  unfold instr_len. intros (op & Ho & H)%bind_Some. apply get_Some in Ho.
  apply bind_Some in H as (r & Hr & H). apply bind_Some in H as (i & Hi & [= <-]).
  apply imm_len_nonneg in Hi. lia.
Qed.

(** ** The walk visits exactly the instruction boundaries *)

(** [boundaries body p l q]: decoding from [p] yields the instructions [l]
    and stops at [q]. *)
Inductive boundaries (body : bytes) : Z -> list (Z * Z) -> Z -> Prop :=
| boundaries_nil p : boundaries body p [] p
| boundaries_cons p n l q :
    instr_len body p = Some n -> boundaries body (p + n) l q ->
    boundaries body p ((p, n) :: l) q.

Lemma iter_collect_spec fuel body p :
  0 <= p -> (Z.to_nat (len body - p) < fuel)%nat ->
  exists l q, boundaries body p l q /\
    iter_collect fuel (iter_new body p)
      = (l, {| it_body := body; it_pos := q;
               it_failed := bool_decide (q < len body) |}) /\
    (q < len body -> instr_len body q = None).
Proof.
  revert p. induction fuel as [|fuel IH]; intros p Hp Hf; [lia|].
  simpl. unfold iter_next. simpl. destruct (Z.leb_spec (len body) p).
  - exists [], p. split; [constructor|]. rewrite bool_decide_eq_false_2 by lia.
    split; [done|lia].
  - destruct (instr_len body p) as [n|] eqn:Hn.
    + pose proof (instr_len_bounds _ _ _ Hn) as [_ ?].
      destruct (IH (p + n)) as (l & q & Hb & Hc & Hq); [lia..|].
      exists ((p, n) :: l), q. split; [by constructor|].
      unfold iter_new in Hc. rewrite Hc. done.
    + exists [], p. split; [constructor|].
      rewrite bool_decide_eq_true_2 by lia. done.
Qed.

Lemma walk_spec body start : 0 <= start ->
  exists l q, boundaries body start l q /\
    walk body start = (if bool_decide (q < len body) then None else Some l) /\
    (q < len body -> instr_len body q = None).
Proof.
  intros Hs. destruct (iter_collect_spec (S (length body)) body start) as (l & q & Hb & Hc & Hq);
    [done|unfold len; lia|].
  exists l, q. unfold walk. rewrite Hc. done.
Qed.

Lemma boundaries_det body p l1 q1 l2 q2 :
  boundaries body p l1 q1 -> boundaries body p l2 q2 ->
  instr_len body q1 = None -> instr_len body q2 = None -> l1 = l2 /\ q1 = q2.
Proof.
  intros H1. revert l2 q2. induction H1 as [p|p n l q Hn H1 IH]; intros l2 q2 H2 E1 E2.
  - inversion H2; subst; [done|congruence].
  - inversion H2; subst; [congruence|].
    match goal with H : instr_len body p = Some ?m |- _ => assert (m = n) by congruence; subst m end.
    destruct (IH _ _ ltac:(eassumption) E1 E2) as [-> ->]. done.
Qed.

Lemma boundaries_app body p l q l' q' :
  boundaries body p l q -> boundaries body q l' q' -> boundaries body p (l ++ l') q'.
Proof. induction 1; simpl; [done|]. intros. econstructor; eauto. Qed.

Lemma boundaries_mono body p l q : boundaries body p l q -> p <= q.
Proof. induction 1; [lia|]. apply instr_len_bounds in H. lia. Qed.

(** ** Properties *)

(** [instr_len] decodes one instruction from its own bytes: a length is only
    returned inside the buffer, is at least 1, and does not depend on what
    precedes or follows the bytes already present. *)
Theorem instr_len_local body pos n : instr_len body pos = Some n ->
  0 <= pos < len body /\ 1 <= n /\
  forall pre ext, instr_len (pre ++ body ++ ext) (len pre + pos) = Some n.
Proof.
  intros H. pose proof (instr_len_bounds _ _ _ H) as [? ?]. split; [done|]. split; [done|].
  intros pre ext. rewrite instr_len_app_r by lia. by apply instr_len_app_l.
Qed.

Lemma instr_len_local_witness :
  instr_len [0x41; 5] 0 = Some 2 /\ instr_len ([1] ++ [0x41; 5] ++ [0x0B]) (len [1] + 0) = Some 2.
Proof.
  assert (H : instr_len [0x41; 5] 0 = Some 2) by reflexivity.
  split; [exact H|]. destruct (instr_len_local _ _ _ H) as (_ & _ & Hl). apply Hl.
Defined.

(** C33. [walk] terminates and visits exactly the instruction boundaries from
    [start]: it returns the contiguous list of instructions up to the end of
    the body, and [None] precisely when some boundary inside the body holds an
    instruction that cannot be decoded. *)
Theorem walk_correct body start : 0 <= start ->
  match walk body start with
  | Some l => exists q, boundaries body start l q /\ len body <= q
  | None => exists l q, boundaries body start l q /\ q < len body /\ instr_len body q = None
  end.
Proof.
  intros Hs. destruct (walk_spec body start Hs) as (l & q & Hb & -> & Hq).
  case_bool_decide; [exists l, q; auto|exists q; split; [done|lia]].
Qed.

Lemma walk_correct_witness :
  exists q, boundaries [0; 0x41; 5; 0x0B] 1 [(1, 2); (3, 1)] q /\ len [0; 0x41; 5; 0x0B] <= q.
Proof. exact (walk_correct [0; 0x41; 5; 0x0B] 1 ltac:(lia)). Defined.

(** The counted loops of the decoder ([br_table] targets, typed [select],
    the locals vector) finish within the buffer: with more fuel than bytes the
    result no longer depends on the fuel, even for a count of [2^32 - 1]. *)
Theorem decoder_loops_terminate (d : bytes) f count off :
  0 <= off -> (length d < f)%nat ->
  for_count f count (skip_leb d) off = for_count (S (length d)) count (skip_leb d) off /\
  for_count f count (skip_valtype d) off = for_count (S (length d)) count (skip_valtype d) off /\
  for_count f count (skip_local d) off = for_count (S (length d)) count (skip_local d) off.
Proof.
  intros Ho Hf.
  split_and!; (eapply skip_vector_enough; [|done|done|lia]); intros ? ?;
    eauto using skip_leb_bounds, skip_valtype_bounds, skip_local_bounds.
Qed.

Lemma decoder_loops_terminate_witness :
  for_count 100 4294967295 (skip_leb [1; 2; 3]) 0 = None.
Proof.
  rewrite (proj1 (decoder_loops_terminate [1; 2; 3] 100 4294967295 0 ltac:(lia) ltac:(simpl; lia))).
  reflexivity.
Defined.
