(* ===== verification/WasmModule.v ===== *)
(** The zero-copy WASM module ([wilt/src/module.rs]): section boundaries,
    function bodies, exports, and the emitter of [wilt/src/emit.rs].

    Loops whose count comes from the input recurse on fuel; running out of fuel
    is [Panic], so each "does not panic" theorem below is also a termination
    theorem. *)
From stdpp Require Export gmap.
From stdpp Require Export strings.
From S2P Require Export Prelude Leb128.

Definition SECTION_CUSTOM : Z := 0.
Definition SECTION_TYPE : Z := 1.
Definition SECTION_IMPORT : Z := 2.
Definition SECTION_FUNCTION : Z := 3.
Definition SECTION_TABLE : Z := 4.
Definition SECTION_MEMORY : Z := 5.
Definition SECTION_GLOBAL : Z := 6.
Definition SECTION_EXPORT : Z := 7.
Definition SECTION_START : Z := 8.
Definition SECTION_ELEMENT : Z := 9.
Definition SECTION_CODE : Z := 10.
Definition SECTION_DATA : Z := 11.
Definition SECTION_DATACOUNT : Z := 12.

(** A byte range of the input buffer; both fields are [u32]. *)
Record Span := mkSpan { sp_offset : Z; sp_len : Z }.

(** [Span::slice]; the addition is a [u32] addition. *)
Definition span_slice (s : Span) (data : bytes) : outcome bytes :=
  slice data (sp_offset s) (u32 (sp_offset s + sp_len s)).

Record Section_ := mkSection {
  sec_id : Z;
  sec_payload : Span;
  sec_full : Span;
  sec_custom_name : option Span;
}.

Record FunctionBody := mkBody { fb_full : Span; fb_body : Span }.

Record WasmModule := mkModule {
  wm_data : bytes;
  wm_sections : list Section_;
  wm_function_bodies : option (list FunctionBody);
}.

(** ** Parsing section boundaries *)

Definition wasm_header : bytes := [0; 97; 115; 109; 1; 0; 0; 0].

(** One iteration of the section loop at [pos]: the section and the position
    after it. *)
Definition parse_section (data : bytes) (pos : Z) : outcome (result (Section_ * Z) string) :=
  let section_start := pos in
  id ← index data pos;
  let pos := pos + 1 in
  rest ← slice_from data pos;
  sz ←! ok_or (read_u32 rest) "bad section size"%string;
  let '(size, consumed) := sz in
  let pos := pos + consumed in
  if len data <? pos + size then Ret (Err "section extends past end of file"%string) else
  custom_name ←
    (if id =? SECTION_CUSTOM then
       payload ← slice data pos (pos + size);
       Ret (match read_u32 payload with
            | Some (name_len, name_consumed) =>
                Some (mkSpan (u32 (pos + name_consumed)) name_len)
            | None => None
            end)
     else Ret None);
  Ret (Ok
    ({| sec_id := id;
        sec_payload := mkSpan (u32 pos) size;
        sec_full := mkSpan (u32 section_start) (u32 (pos + size - section_start));
        sec_custom_name := custom_name |}, pos + size)).

Fixpoint parse_sections (fuel : nat) (data : bytes) (pos : Z)
  : outcome (result (list Section_ * Z) string) :=
  if pos <? len data then
    match fuel with
    | O => Panic
    | S fuel =>
        sp ←! parse_section data pos;
        let '(s, pos) := sp in
        rest ←! parse_sections fuel data pos;
        let '(ss, pos) := rest in
        Ret (Ok (s :: ss, pos))
    end
  else Ret (Ok ([], pos)).

Definition parse (data : bytes) : outcome (result WasmModule string) :=
  if len data <? 8 then Ret (Err "too short for WASM header"%string) else
  magic ← slice data 0 4;
  if negb (bool_decide (magic = [0; 97; 115; 109])) then Ret (Err "bad WASM magic"%string) else
  version ← slice data 4 8;
  if negb (bool_decide (version = [1; 0; 0; 0]))
  then Ret (Err "unsupported WASM version"%string) else
  sp ←! parse_sections (length data) data 8;
  let '(sections, pos) := sp in
  if negb (pos =? len data) then Ret (Err "trailing bytes after last section"%string) else
  Ret (Ok {| wm_data := data; wm_sections := sections; wm_function_bodies := None |}).

(** ** Accessors *)

Definition section (m : WasmModule) (id : Z) : option Section_ :=
  List.find (fun s => sec_id s =? id) (wm_sections m).

(** The loop of [parse_function_bodies] over the code section's [payload],
    which starts at [code_off] in the file. *)
Fixpoint function_bodies_loop (fuel : nat) (payload : bytes) (code_off count off : Z)
  : outcome (list FunctionBody) :=
  if count <=? 0 then Ret [] else
  match fuel with
  | O => Panic
  | S fuel =>
      let full_start := u32 (code_off + u32 off) in
      rest ← slice_from payload off;
      match read_u32 rest with
      | None => Ret []
      | Some (body_size, size_consumed) =>
          let off := off + size_consumed in
          let body_start := u32 (code_off + u32 off) in
          let fb := {| fb_full := mkSpan full_start (u32 (size_consumed + body_size));
                       fb_body := mkSpan body_start body_size |} in
          bodies ← function_bodies_loop fuel payload code_off (count - 1) (off + body_size);
          Ret (fb :: bodies)
      end
  end.

Definition parse_function_bodies (m : WasmModule) : outcome (list FunctionBody) :=
  match section m SECTION_CODE with
  | None => Ret []
  | Some code =>
      payload ← span_slice (sec_payload code) (wm_data m);
      match read_u32 payload with
      | None => Ret []
      | Some (count, off) =>
          function_bodies_loop (S (length payload)) payload
            (sp_offset (sec_payload code)) count off
      end
  end.

Definition ensure_function_bodies_parsed (m : WasmModule) : outcome WasmModule :=
  match wm_function_bodies m with
  | Some _ => Ret m
  | None =>
      bodies ← parse_function_bodies m;
      Ret {| wm_data := wm_data m; wm_sections := wm_sections m;
             wm_function_bodies := Some bodies |}
  end.

Definition function_bodies (m : WasmModule) : list FunctionBody :=
  default [] (wm_function_bodies m).

Definition num_function_bodies (m : WasmModule) : Z :=
  match wm_function_bodies m with Some v => len v | None => 0 end.

Fixpoint exported_loop (fuel : nat) (payload : bytes) (count off : Z) : outcome (list Z) :=
  if count <=? 0 then Ret [] else
  match fuel with
  | O => Panic
  | S fuel =>
      rest ← slice_from payload off;
      match read_u32 rest with
      | None => Ret []
      | Some (name_len, c) =>
          let off := off + c + name_len in
          if len payload <=? off then Ret [] else
          kind ← index payload off;
          let off := off + 1 in
          rest ← slice_from payload off;
          match read_u32 rest with
          | None => Ret []
          | Some (idx, c) =>
              tail ← exported_loop fuel payload (count - 1) (off + c);
              Ret (if kind =? 0x00 then idx :: tail else tail)
          end
      end
  end.

Definition exported_function_indices (m : WasmModule) : outcome (list Z) :=
  match section m SECTION_EXPORT with
  | None => Ret []
  | Some export =>
      payload ← span_slice (sec_payload export) (wm_data m);
      match read_u32 payload with
      | None => Ret []
      | Some (count, off) => exported_loop (S (length payload)) payload count off
      end
  end.

Definition start_function (m : WasmModule) : outcome (option Z) :=
  match section m SECTION_START with
  | None => Ret None
  | Some start =>
      payload ← span_slice (sec_payload start) (wm_data m);
      Ret (fst <$> read_u32 payload)
  end.

Definition function_count (m : WasmModule) : outcome Z :=
  match section m SECTION_FUNCTION with
  | None => Ret 0
  | Some func =>
      payload ← span_slice (sec_payload func) (wm_data m);
      Ret (match read_u32 payload with Some (count, _) => count | None => 0 end)
  end.

Definition size (m : WasmModule) : Z := len (wm_data m).
Definition num_sections (m : WasmModule) : Z := len (wm_sections m).

(** ** The emitter ([wilt/src/emit.rs]) *)

Definition emit_unchanged (m : WasmModule) : bytes := wm_data m.

(** A section written with a new payload. *)
Definition encode_section (id : Z) (payload : bytes) : bytes :=
  id :: write_u32 (u32 (len payload)) ++ payload.

Fixpoint emit_sections (data : bytes) (repl : gmap nat bytes) (idx : nat)
    (sections : list Section_) : outcome bytes :=
  match sections with
  | [] => Ret []
  | s :: rest =>
      chunk ← (match repl !! idx with
               | Some new_payload => Ret (encode_section (sec_id s) new_payload)
               | None => span_slice (sec_full s) data
               end);
      out ← emit_sections data repl (S idx) rest;
      Ret (chunk ++ out)
  end.

Definition emit_with_replacements (m : WasmModule) (repl : gmap nat bytes) : outcome bytes :=
  header ← slice (wm_data m) 0 8;
  out ← emit_sections (wm_data m) repl 0 (wm_sections m);
  Ret (header ++ out).

Example parse_with_type_section :
  parse (wasm_header ++ [1; 4; 1; 0x60; 0; 0])
  = Ret (Ok {| wm_data := wasm_header ++ [1; 4; 1; 0x60; 0; 0];
               wm_sections := [mkSection 1 (mkSpan 10 4) (mkSpan 8 6) None];
               wm_function_bodies := None |}).
Proof. reflexivity. Qed.
Example parse_bad_magic :
  parse [0; 101; 108; 102; 1; 0; 0; 0] = Ret (Err "bad WASM magic"%string).
Proof. reflexivity. Qed.

(** ** Section chunks

    The bytes of one section: its id, the LEB of the payload length (canonical
    or not) and the payload. *)

Record chunk := mkChunk { ck_id : Z; ck_size : bytes; ck_payload : bytes }.

Definition ck_bytes (c : chunk) : bytes := ck_id c :: ck_size c ++ ck_payload c.
Definition chunk_ok (c : chunk) : Prop :=
  read_u32 (ck_size c) = Some (len (ck_payload c), len (ck_size c)).
Definition chunks_bytes (cs : list chunk) : bytes := mjoin (ck_bytes <$> cs).
Arguments ck_bytes : simpl never.
Arguments chunks_bytes : simpl never.

(** The section record the parser builds for a chunk at [pos]. *)
Definition section_at (pos : Z) (c : chunk) : Section_ :=
  let p := pos + 1 + len (ck_size c) in
  {| sec_id := ck_id c;
     sec_payload := mkSpan p (len (ck_payload c));
     sec_full := mkSpan pos (len (ck_bytes c));
     sec_custom_name :=
       if ck_id c =? SECTION_CUSTOM then
         match read_u32 (ck_payload c) with
         | Some (n, k) => Some (mkSpan (u32 (p + k)) n)
         | None => None
         end
       else None |}.

Fixpoint sections_at (pos : Z) (cs : list chunk) : list Section_ :=
  match cs with
  | [] => []
  | c :: cs => section_at pos c :: sections_at (pos + len (ck_bytes c)) cs
  end.

Lemma len_ck_bytes c : len (ck_bytes c) = 1 + len (ck_size c) + len (ck_payload c).
Proof. unfold ck_bytes. rewrite len_cons, len_app. lia. Qed.

Lemma chunk_ok_size c : chunk_ok c -> 1 <= len (ck_size c) <= 5 /\ len (ck_payload c) < 2 ^ 32.
Proof. intros H%read_u32_bounds. unfold is_uint in H. lia. Qed.

Lemma read_chunk_size c ext : chunk_ok c ->
  read_u32 (ck_size c ++ ext) = Some (len (ck_payload c), len (ck_size c)).
Proof. apply read_u32_app. Qed.

(** The byte accesses the parser makes around a chunk. *)
Lemma chunk_accesses pre c post d : d = pre ++ ck_bytes c ++ post ->
  let p := len pre + 1 + len (ck_size c) in
  index d (len pre) = Ret (ck_id c) /\
  slice_from d (len pre + 1) = Ret (ck_size c ++ ck_payload c ++ post) /\
  slice d p (p + len (ck_payload c)) = Ret (ck_payload c) /\
  slice d (len pre) (len pre + len (ck_bytes c)) = Ret (ck_bytes c) /\
  len d = p + len (ck_payload c) + len post.
Proof.
  intros Hd p.
  assert (Hd' : d = (pre ++ [ck_id c]) ++ ck_size c ++ ck_payload c ++ post)
    by (rewrite Hd; unfold ck_bytes; rewrite <- !app_assoc; simpl; by rewrite <- ?app_assoc).
  assert (Hp : len (pre ++ [ck_id c]) = len pre + 1) by (rewrite len_app; unfold len; simpl; lia).
  repeat split.
  - rewrite Hd. unfold index. rewrite <- (Z.add_0_r (len pre)). by rewrite get_app_r by lia.
  - rewrite Hd', <- Hp. apply slice_from_len.
  - rewrite Hd'. unfold p. rewrite <- Hp, <- len_app, app_assoc. apply slice_app.
  - rewrite Hd. apply slice_app.
  - rewrite Hd', len_app, Hp, !len_app. unfold p. lia.
Qed.

Lemma parse_section_chunk pre c post : chunk_ok c ->
  len (pre ++ ck_bytes c ++ post) < 2 ^ 32 ->
  parse_section (pre ++ ck_bytes c ++ post) (len pre)
    = Ret (Ok (section_at (len pre) c, len pre + len (ck_bytes c))).
Proof.
  intros Hc. pose proof (chunk_ok_size _ Hc) as [? ?].
  pose proof (len_nonneg pre). pose proof (len_nonneg post). pose proof (len_nonneg (ck_payload c)).
  remember (pre ++ ck_bytes c ++ post) as d eqn:Hd. intros Hlen.
  destruct (chunk_accesses _ _ _ _ Hd) as (Hi & Hf & Hs & _ & Hl).
  unfold parse_section, section_at. rewrite Hi. cbn [mbind outcome_bind]. rewrite Hf.
  cbn [mbind outcome_bind]. rewrite read_chunk_size by done. unfold ok_or.
  rewrite Hl, len_ck_bytes. rewrite Hl in Hlen.
  replace (_ <? _) with false by (symmetry; apply Z.ltb_ge; lia).
  rewrite !(wrap_id 32) by (unfold is_uint; lia).
  replace (len pre + 1 + len (ck_size c) + len (ck_payload c) - len pre)
    with (1 + len (ck_size c) + len (ck_payload c)) by lia.
  destruct (ck_id c =? SECTION_CUSTOM).
  - rewrite Hs. cbn [mbind outcome_bind mret]. do 3 f_equal. lia.
  - cbn [mbind outcome_bind mret]. do 3 f_equal. lia.
Qed.

(** Conversely, every section the parser accepts is a chunk of the input. *)
Lemma parse_section_inv data pos s q :
  0 <= pos -> len data < 2 ^ 32 -> parse_section data pos = Ret (Ok (s, q)) ->
  exists pre c post, data = pre ++ ck_bytes c ++ post /\ len pre = pos /\ chunk_ok c /\
    s = section_at pos c /\ q = pos + len (ck_bytes c).
Proof.
  intros Hpos Hlen H. pose proof H as Hrun. unfold parse_section, index in H.
  destruct (get data pos) as [id|] eqn:Hi; [|done]. cbn [mbind outcome_bind] in H.
  unfold slice_from in H. destruct (get_from data (pos + 1)) as [rest|] eqn:Hf; [|done].
  cbn [mbind outcome_bind] in H. unfold ok_or in H.
  destruct (read_u32 rest) as [[size consumed]|] eqn:Hr; [|done].
  destruct (Z.ltb_spec (len data) (pos + 1 + consumed + size)) as [|Hfit]; [done|]. clear H.
  pose proof (read_u32_bounds _ _ _ Hr) as ([Hsz _] & Hcons & Hcl).
  apply get_from_split in Hf as (p & -> & Hp).
  assert (Hpre : exists pre, p = pre ++ [id] /\ len pre = pos).
  { exists (take (Z.to_nat pos) p).
    assert (Hd : drop (Z.to_nat pos) p = [id]).
    { rewrite get_app_l in Hi by lia. apply get_lookup in Hi as [_ Hi].
      rewrite (drop_S _ id) by done. f_equal.
      apply drop_ge. unfold len in Hp. lia. }
    rewrite <- Hd, take_drop, len_take. split; [done|lia]. }
  destruct Hpre as (pre & -> & Hpre). rewrite !len_app in Hfit, Hlen.
  destruct (split_at rest consumed size) as (szb & payload & post & -> & Hszb & Hpl);
    [lia|done|rewrite len_app in Hp; unfold len in *; simpl in *; lia|].
  assert (Hok : chunk_ok {| ck_id := id; ck_size := szb; ck_payload := payload |}).
  { unfold chunk_ok; simpl. apply read_u32_take in Hr.
    rewrite take_app_length' in Hr by (unfold len in Hszb; lia). by rewrite Hpl, Hszb. }
  set (c := {| ck_id := id; ck_size := szb; ck_payload := payload |}) in *.
  assert (Hd : (pre ++ [id]) ++ szb ++ payload ++ post = pre ++ ck_bytes c ++ post)
    by (unfold ck_bytes; simpl; rewrite <- !app_assoc; simpl; by rewrite <- ?app_assoc).
  exists pre, c, post. rewrite Hd in *.
  subst pos. rewrite parse_section_chunk in Hrun; [|done|].
  - injection Hrun as <- <-. done.
  - rewrite <- Hd, !len_app. rewrite !len_app in Hlen. lia.
Qed.

(** ** The section table tiles the file *)

Lemma chunks_bytes_cons c cs : chunks_bytes (c :: cs) = ck_bytes c ++ chunks_bytes cs.
Proof. reflexivity. Qed.

Lemma chunks_count cs : (length cs <= length (chunks_bytes cs))%nat.
Proof.
  induction cs as [|c cs IH]; [done|]. rewrite chunks_bytes_cons, length_app.
  cbn [length]. unfold ck_bytes at 1. cbn [length]. lia.
Qed.

Lemma chunk_len_pos c : 0 < len (ck_bytes c).
Proof.
  rewrite len_ck_bytes. pose proof (len_nonneg (ck_size c)).
  pose proof (len_nonneg (ck_payload c)). lia.
Qed.

Lemma parse_sections_chunks fuel pre cs :
  Forall chunk_ok cs -> len (pre ++ chunks_bytes cs) < 2 ^ 32 ->
  (length cs <= fuel)%nat ->
  parse_sections fuel (pre ++ chunks_bytes cs) (len pre)
    = Ret (Ok (sections_at (len pre) cs, len (pre ++ chunks_bytes cs))).
Proof.
  intros Hcs. revert fuel pre. induction Hcs as [|c cs Hc Hcs IH]; intros fuel pre Hlen Hf.
  - unfold chunks_bytes; simpl. rewrite app_nil_r.
    destruct fuel; simpl; by rewrite Z.ltb_irrefl.
  - destruct fuel as [|fuel]; simpl in Hf; [lia|].
    rewrite chunks_bytes_cons in *. cbn [parse_sections sections_at].
    pose proof (chunk_len_pos c). pose proof (len_nonneg (chunks_bytes cs)).
    replace (len pre <? _) with true by (symmetry; apply Z.ltb_lt; rewrite !len_app; lia).
    rewrite parse_section_chunk by done.
    rewrite <- len_app, app_assoc. rewrite app_assoc in Hlen. rewrite IH; [done|done|lia].
Qed.

Lemma parse_sections_inv fuel data pos ss q :
  0 <= pos <= len data -> len data < 2 ^ 32 ->
  parse_sections fuel data pos = Ret (Ok (ss, q)) ->
  exists pre cs, data = pre ++ chunks_bytes cs /\ len pre = pos /\ Forall chunk_ok cs /\
    ss = sections_at pos cs /\ q = len data.
Proof.
  revert pos ss. induction fuel as [|fuel IH]; intros pos ss Hpos Hlen; simpl;
    (destruct (Z.ltb_spec pos (len data)) as [Hlt|];
     [|intros [= <- <-]; exists data, []; split_and!; [by rewrite app_nil_r|lia|constructor|done|lia]]);
    [done|].
  intros H. destruct (parse_section data pos) as [[[s p]|]|] eqn:Hs; [|done..].
  destruct (parse_sections fuel data p) as [[[ss' q']|]|] eqn:Hss; [|done..].
  injection H as <- <-.
  apply parse_section_inv in Hs as (pre & c & post & -> & Hpre & Hc & -> & ->); [|lia|done].
  pose proof (chunk_len_pos c). pose proof (len_nonneg post).
  apply IH in Hss as (pre' & cs & Hd & Hpre' & Hcs & -> & Hq); [|rewrite !len_app; lia|done].
  rewrite app_assoc in Hd. apply app_inj_1 in Hd as [<- ->];
    [|rewrite <- Hpre, <- len_app in Hpre'; unfold len in Hpre'; lia].
  exists pre, (c :: cs). rewrite chunks_bytes_cons. split_and!; [done|done|by constructor|done|done].
Qed.

Lemma parse_section_no_panic data pos : 0 <= pos < len data -> parse_section data pos <> Panic.
Proof.
  intros Hpos. unfold parse_section, index.
  destruct (get_is_Some data pos ltac:(lia)) as [id ->]. cbn [mbind outcome_bind].
  unfold slice_from. rewrite get_from_eq by lia. cbn [mbind outcome_bind].
  destruct (read_u32 _) as [[size consumed]|] eqn:Hr; [|done]. cbn [ok_or].
  apply read_u32_bounds in Hr as ([? _] & ? & ?).
  destruct (Z.ltb_spec (len data) (pos + 1 + consumed + size)); [done|].
  destruct (id =? SECTION_CUSTOM); [|done]. by rewrite slice_eq by lia.
Qed.

Lemma parse_section_progress data pos s q : 0 <= pos ->
  parse_section data pos = Ret (Ok (s, q)) -> pos + 2 <= q <= len data.
Proof.
  intros Hpos. unfold parse_section, index.
  destruct (get data pos) as [id|]; [|done]. cbn [mbind outcome_bind].
  destruct (slice_from _ _); [|done]. cbn [mbind outcome_bind].
  destruct (read_u32 _) as [[size consumed]|] eqn:Hr; [|done]. cbn [ok_or].
  apply read_u32_bounds in Hr as ([? _] & ? & ?).
  destruct (Z.ltb_spec (len data) (pos + 1 + consumed + size)); [done|].
  destruct (id =? SECTION_CUSTOM); [|intros [= <- <-]; lia].
  destruct (slice _ _ _); [|done]. intros [= <- <-]; lia.
Qed.

Lemma parse_sections_no_panic fuel data pos :
  0 <= pos -> len data - pos <= Z.of_nat fuel -> parse_sections fuel data pos <> Panic.
Proof.
  revert pos. induction fuel as [|fuel IH]; intros pos Hpos Hf; simpl;
    (destruct (Z.ltb_spec pos (len data)); [|done]); [lia|].
  pose proof (parse_section_no_panic data pos ltac:(lia)).
  destruct (parse_section data pos) as [[[s q]|]|] eqn:Hs; [|done..].
  apply parse_section_progress in Hs; [|done].
  specialize (IH q ltac:(lia) ltac:(lia)).
  by destruct (parse_sections fuel data q) as [[[]|]|].
Qed.

(** [parse] accepts exactly the header followed by chunks. *)
Lemma parse_chunks cs :
  Forall chunk_ok cs -> len (wasm_header ++ chunks_bytes cs) < 2 ^ 32 ->
  parse (wasm_header ++ chunks_bytes cs)
    = Ret (Ok {| wm_data := wasm_header ++ chunks_bytes cs;
                 wm_sections := sections_at 8 cs; wm_function_bodies := None |}).
Proof.
  intros Hcs Hlen. unfold parse. pose proof (len_nonneg (chunks_bytes cs)).
  replace (_ <? 8) with false
    by (symmetry; apply Z.ltb_ge; rewrite len_app; change (len wasm_header) with 8; lia).
  change (slice (wasm_header ++ chunks_bytes cs) 0 4)
    with (slice ([0; 97; 115; 109] ++ [1; 0; 0; 0] ++ chunks_bytes cs) 0 (len [0; 97; 115; 109])).
  rewrite slice_prefix. cbn [mbind outcome_bind]. rewrite bool_decide_eq_true_2 by done. simpl negb. cbv iota.
  change (slice (wasm_header ++ chunks_bytes cs) 4 8)
    with (slice ([0; 97; 115; 109] ++ [1; 0; 0; 0] ++ chunks_bytes cs) (len [0; 97; 115; 109])
            (len [0; 97; 115; 109] + len [1; 0; 0; 0])).
  rewrite slice_app. cbn [mbind outcome_bind]. rewrite bool_decide_eq_true_2 by done. simpl negb. cbv iota.
  change 8 with (len wasm_header). rewrite parse_sections_chunks; [|done..|].
  - by rewrite Z.eqb_refl.
  - rewrite length_app. pose proof (chunks_count cs). lia.
Qed.

Lemma parse_inv data m : len data < 2 ^ 32 -> parse data = Ret (Ok m) ->
  exists cs, data = wasm_header ++ chunks_bytes cs /\ Forall chunk_ok cs /\
    m = {| wm_data := data; wm_sections := sections_at 8 cs; wm_function_bodies := None |}.
Proof.
  intros Hlen. unfold parse. destruct (Z.ltb_spec (len data) 8) as [|H8]; [done|].
  destruct (slice data 0 4) as [magic|] eqn:Hm; [|done]. cbn [mbind outcome_bind].
  destruct (decide (magic = [0; 97; 115; 109])) as [->|]; [|by rewrite bool_decide_eq_false_2].
  rewrite bool_decide_eq_true_2 by done. simpl negb. cbv iota.
  destruct (slice data 4 8) as [version|] eqn:Hv; [|done]. cbn [mbind outcome_bind].
  destruct (decide (version = [1; 0; 0; 0])) as [->|]; [|by rewrite bool_decide_eq_false_2].
  rewrite bool_decide_eq_true_2 by done. simpl negb. cbv iota.
  destruct (parse_sections _ data 8) as [[[ss q]|]|] eqn:Hs; [|done..].
  destruct (Z.eqb_spec q (len data)); [|done]. intros [= <-].
  apply parse_sections_inv in Hs as (pre & cs & -> & Hpre & Hcs & -> & _); [|lia|done].
  exists cs. replace pre with wasm_header; [done|].
  apply slice_Ret in Hm as (_ & _ & Hm). apply slice_Ret in Hv as (_ & _ & Hv).
  do 9 list_of_len Hpre. simpl in Hm, Hv. injection Hm; injection Hv; by intros; subst.
Qed.

Lemma parse_no_panic data : parse data <> Panic.
Proof.
  unfold parse. destruct (Z.ltb_spec (len data) 8); [done|].
  rewrite !slice_eq by lia. cbn [mbind outcome_bind].
  repeat (case_match; [done|]).
  pose proof (parse_sections_no_panic (length data) data 8 ltac:(lia) ltac:(unfold len; lia)).
  destruct (parse_sections _ data 8) as [[[ss q]|]|]; [|done..]. by case_match.
Qed.

(** ** Slices of parsed sections *)

Lemma span_slice_full pre c post : chunk_ok c -> len (pre ++ ck_bytes c ++ post) < 2 ^ 32 ->
  span_slice (sec_full (section_at (len pre) c)) (pre ++ ck_bytes c ++ post) = Ret (ck_bytes c).
Proof.
  intros Hc. remember (pre ++ ck_bytes c ++ post) as d eqn:Hd. intros Hlen.
  destruct (chunk_accesses _ _ _ _ Hd) as (_ & _ & _ & Hs & Hl).
  pose proof (len_nonneg pre). pose proof (len_nonneg post). pose proof (chunk_len_pos c).
  unfold span_slice, section_at. simpl.
  rewrite wrap_id; [done|]. rewrite len_ck_bytes in *. unfold is_uint. lia.
Qed.

Lemma span_slice_payload pre c post : chunk_ok c -> len (pre ++ ck_bytes c ++ post) < 2 ^ 32 ->
  span_slice (sec_payload (section_at (len pre) c)) (pre ++ ck_bytes c ++ post)
    = Ret (ck_payload c).
Proof.
  intros Hc. remember (pre ++ ck_bytes c ++ post) as d eqn:Hd. intros Hlen.
  destruct (chunk_accesses _ _ _ _ Hd) as (_ & _ & Hs & _ & Hl).
  pose proof (len_nonneg pre). pose proof (len_nonneg post).
  pose proof (len_nonneg (ck_payload c)). pose proof (len_nonneg (ck_size c)).
  unfold span_slice, section_at. simpl. rewrite wrap_id; [done|]. unfold is_uint. lia.
Qed.

Lemma sections_at_length pos cs : length (sections_at pos cs) = length cs.
Proof. revert pos. induction cs; intros; simpl; [done|by f_equal]. Qed.

Lemma chunks_bytes_app cs1 cs2 : chunks_bytes (cs1 ++ cs2) = chunks_bytes cs1 ++ chunks_bytes cs2.
Proof. unfold chunks_bytes. by rewrite fmap_app, join_app. Qed.

(** The [i]-th section is the [i]-th chunk, at its place in the file. *)
Lemma sections_at_lookup pos cs i s : sections_at pos cs !! i = Some s ->
  exists cs1 c cs2, cs = cs1 ++ c :: cs2 /\ length cs1 = i /\
    s = section_at (pos + len (chunks_bytes cs1)) c.
Proof.
  revert pos i. induction cs as [|c cs IH]; intros pos i; simpl; [done|].
  destruct i as [|i]; simpl.
  - intros [= <-]. exists [], c, cs. split_and!; [done..|]. f_equal. unfold len; simpl. lia.
  - intros (cs1 & c' & cs2 & -> & <- & ->)%IH. exists (c :: cs1), c', cs2.
    split_and!; [done..|]. f_equal. rewrite chunks_bytes_cons, len_app. lia.
Qed.

Lemma sections_at_lookup_middle pos cs1 c cs2 :
  sections_at pos (cs1 ++ c :: cs2) !! length cs1
    = Some (section_at (pos + len (chunks_bytes cs1)) c).
Proof.
  revert pos. induction cs1 as [|c' cs1 IH]; intros pos; simpl.
  - do 2 f_equal. unfold len; simpl. lia.
  - rewrite IH. do 2 f_equal. rewrite chunks_bytes_cons, len_app. lia.
Qed.

(** The payload bytes of the section a chunk of a module gave. *)
Lemma module_payload pre cs1 c cs2 :
  Forall chunk_ok (cs1 ++ c :: cs2) -> len (pre ++ chunks_bytes (cs1 ++ c :: cs2)) < 2 ^ 32 ->
  span_slice (sec_payload (section_at (len pre + len (chunks_bytes cs1)) c))
    (pre ++ chunks_bytes (cs1 ++ c :: cs2)) = Ret (ck_payload c).
Proof.
  rewrite chunks_bytes_app, chunks_bytes_cons, app_assoc, <- len_app.
  intros [_ Hall]%Forall_app Hlen. inversion_clear Hall.
  by apply span_slice_payload.
Qed.

(** ** Emission *)

Fixpoint replace_chunks (repl : gmap nat bytes) (idx : nat) (cs : list chunk) : list chunk :=
  match cs with
  | [] => []
  | c :: cs =>
      match repl !! idx with
      | Some p => mkChunk (ck_id c) (write_u32 (u32 (len p))) p
      | None => c
      end :: replace_chunks repl (S idx) cs
  end.

(** Replacement payloads have lengths that fit the 32-bit size field. *)
Definition repl_fits (repl : gmap nat bytes) : Prop :=
  forall i p, repl !! i = Some p -> len p < 2 ^ 32.

Lemma written_chunk_ok id p : len p < 2 ^ 32 ->
  chunk_ok (mkChunk id (write_u32 (u32 (len p))) p).
Proof.
  intros H. unfold chunk_ok. simpl. pose proof (len_nonneg p).
  rewrite wrap_id by (unfold is_uint; lia).
  rewrite <- (app_nil_r (write_u32 _)) at 1. apply read_u32_write. unfold is_uint. lia.
Qed.

Lemma replace_chunks_ok repl idx cs : repl_fits repl ->
  Forall chunk_ok cs -> Forall chunk_ok (replace_chunks repl idx cs).
Proof.
  intros Hr Hcs. revert idx. induction Hcs as [|c cs Hc Hcs IH]; intros idx; simpl; constructor; [|done].
  destruct (repl !! idx) as [p|] eqn:E; [|done]. apply written_chunk_ok. by eapply Hr.
Qed.

Lemma replace_chunks_lookup repl idx cs i :
  replace_chunks repl idx cs !! i
    = (fun c => match repl !! (idx + i)%nat with
                | Some p => mkChunk (ck_id c) (write_u32 (u32 (len p))) p
                | None => c
                end) <$> cs !! i.
Proof.
  revert idx i. induction cs as [|c cs IH]; intros idx i; simpl; [done|].
  destruct i as [|i]; simpl; [by rewrite Nat.add_0_r|].
  rewrite IH. by replace (S idx + i)%nat with (idx + S i)%nat by lia.
Qed.

Lemma replace_chunks_length repl idx cs : length (replace_chunks repl idx cs) = length cs.
Proof. revert idx. induction cs; intros; simpl; [done|by f_equal]. Qed.

Lemma replace_chunks_empty idx cs : replace_chunks ∅ idx cs = cs.
Proof. revert idx. induction cs; intros; simpl; [done|]. rewrite lookup_empty. by f_equal. Qed.

Lemma emit_sections_spec repl idx pre cs :
  Forall chunk_ok cs -> len (pre ++ chunks_bytes cs) < 2 ^ 32 ->
  emit_sections (pre ++ chunks_bytes cs) repl idx (sections_at (len pre) cs)
    = Ret (chunks_bytes (replace_chunks repl idx cs)).
Proof.
  intros Hcs. revert idx pre. induction Hcs as [|c cs Hc Hcs IH]; intros idx pre Hlen; [done|].
  cbn [sections_at emit_sections replace_chunks]. rewrite !chunks_bytes_cons in *.
  pose proof Hlen as Hlen'. rewrite app_assoc in Hlen'. specialize (IH (S idx) _ Hlen').
  rewrite <- app_assoc, len_app in IH.
  destruct (repl !! idx) as [p|]; [|rewrite span_slice_full by done];
    cbn [mbind outcome_bind]; rewrite IH; done.
Qed.

Lemma emit_spec repl cs : Forall chunk_ok cs -> len (wasm_header ++ chunks_bytes cs) < 2 ^ 32 ->
  emit_with_replacements
    {| wm_data := wasm_header ++ chunks_bytes cs; wm_sections := sections_at 8 cs;
       wm_function_bodies := None |} repl
  = Ret (wasm_header ++ chunks_bytes (replace_chunks repl 0 cs)).
Proof.
  intros Hcs Hlen. unfold emit_with_replacements. cbn [wm_data wm_sections].
  change 8 with (len wasm_header). rewrite slice_prefix. cbn [mbind outcome_bind].
  by rewrite emit_sections_spec.
Qed.

(** ** Function bodies of a well-formed code section *)

Record body_chunk := mkBC { bc_size : bytes; bc_body : bytes }.
Definition bc_bytes (b : body_chunk) : bytes := bc_size b ++ bc_body b.
Definition bc_ok (b : body_chunk) : Prop :=
  read_u32 (bc_size b) = Some (len (bc_body b), len (bc_size b)).
Definition bcs_bytes (bs : list body_chunk) : bytes := mjoin (bc_bytes <$> bs).
Arguments bc_bytes : simpl never.
Arguments bcs_bytes : simpl never.

(** The spans of a body whose chunk starts at file offset [pos]. *)
Definition body_at (pos : Z) (b : body_chunk) : FunctionBody :=
  {| fb_full := mkSpan pos (len (bc_bytes b));
     fb_body := mkSpan (pos + len (bc_size b)) (len (bc_body b)) |}.

Fixpoint bodies_at (pos : Z) (bs : list body_chunk) : list FunctionBody :=
  match bs with
  | [] => []
  | b :: bs => body_at pos b :: bodies_at (pos + len (bc_bytes b)) bs
  end.

Lemma bcs_bytes_cons b bs : bcs_bytes (b :: bs) = bc_bytes b ++ bcs_bytes bs.
Proof. reflexivity. Qed.

Lemma bcs_bytes_app bs1 bs2 : bcs_bytes (bs1 ++ bs2) = bcs_bytes bs1 ++ bcs_bytes bs2.
Proof. unfold bcs_bytes. by rewrite fmap_app, join_app. Qed.

Lemma bcs_count bs : Forall bc_ok bs -> (length bs <= length (bcs_bytes bs))%nat.
Proof.
  induction 1 as [|b bs Hb Hbs IH]; [done|]. rewrite bcs_bytes_cons, length_app. cbn [length].
  apply read_u32_bounds in Hb as (_ & ? & _). unfold bc_bytes. rewrite length_app.
  unfold len in *. lia.
Qed.

Lemma function_bodies_loop_chunks fuel code_off pre bs :
  Forall bc_ok bs -> 0 <= code_off -> code_off + len (pre ++ bcs_bytes bs) < 2 ^ 32 ->
  (length bs <= fuel)%nat ->
  function_bodies_loop fuel (pre ++ bcs_bytes bs) code_off (len bs) (len pre)
    = Ret (bodies_at (code_off + len pre) bs).
Proof.
  intros Hbs Hco. revert fuel pre. induction Hbs as [|b bs Hb Hbs IH]; intros fuel pre Hlen Hf.
  - by destruct fuel.
  - destruct fuel as [|fuel]; [simpl in Hf; lia|].
    rewrite bcs_bytes_cons in *. cbn [function_bodies_loop bodies_at].
    pose proof (len_nonneg bs). pose proof (len_nonneg pre). pose proof (len_nonneg (bcs_bytes bs)).
    pose proof (len_nonneg (bc_body b)).
    replace (len (b :: bs) <=? 0) with false by (rewrite len_cons; lia).
    rewrite slice_from_len. cbn [mbind outcome_bind].
    pose proof (read_u32_bounds _ _ _ Hb) as ([_ ?] & ? & _).
    assert (Hl : len (bc_bytes b) = len (bc_size b) + len (bc_body b)) by apply len_app.
    pose proof Hlen as Hlen'. rewrite !len_app, Hl in Hlen'.
    replace (read_u32 _) with (Some (len (bc_body b), len (bc_size b)))
      by (unfold bc_bytes; rewrite <- app_assoc; symmetry; by apply read_u32_app).
    rewrite app_assoc.
    replace (len pre + len (bc_size b) + len (bc_body b)) with (len (pre ++ bc_bytes b))
      by (rewrite len_app; lia).
    rewrite len_cons. replace (1 + len bs - 1) with (len bs) by lia.
    rewrite IH; [|by rewrite <- app_assoc|simpl in Hf; lia]. cbn [mbind outcome_bind].
    unfold body_at. rewrite len_app, Hl, !(wrap_id 32) by (unfold is_uint; rewrite ?wrap_id by (unfold is_uint; lia); lia).
    rewrite !Z.add_assoc. done.
Qed.

(** A code section payload: the body count, then the bodies. *)
Definition code_payload_ok (cnt : bytes) (bs : list body_chunk) : Prop :=
  read_u32 cnt = Some (len bs, len cnt) /\ Forall bc_ok bs.

Lemma function_bodies_spec data sections code cnt bs :
  List.find (fun s => sec_id s =? SECTION_CODE) sections = Some code ->
  0 <= sp_offset (sec_payload code) ->
  span_slice (sec_payload code) data = Ret (cnt ++ bcs_bytes bs) ->
  code_payload_ok cnt bs ->
  sp_offset (sec_payload code) + len (cnt ++ bcs_bytes bs) < 2 ^ 32 ->
  parse_function_bodies
    {| wm_data := data; wm_sections := sections; wm_function_bodies := None |}
  = Ret (bodies_at (sp_offset (sec_payload code) + len cnt) bs).
Proof.
  intros Hfind Hoff Hslice [Hcnt Hbs] Hlen. unfold parse_function_bodies, section.
  cbn [wm_sections wm_data]. rewrite Hfind, Hslice. cbn [mbind outcome_bind].
  rewrite (read_u32_app _ _ _ _ Hcnt).
  apply function_bodies_loop_chunks; [done..|].
  rewrite length_app. pose proof (bcs_count _ Hbs). lia.
Qed.

(** ** Export section *)

Lemma exported_loop_no_panic fuel payload count off :
  0 <= off <= len payload -> len payload - off < Z.of_nat fuel ->
  exported_loop fuel payload count off <> Panic.
Proof.
  revert count off. induction fuel as [|fuel IH]; intros count off Hoff Hf; simpl;
    (destruct (count <=? 0); [done|]); [lia|].
  rewrite slice_from_eq by lia. cbn [mbind outcome_bind].
  destruct (read_u32 _) as [[name_len c]|] eqn:E; [|done].
  apply read_u32_bounds in E as ([? _] & ? & _).
  destruct (Z.leb_spec (len payload) (off + c + name_len)); [done|].
  destruct (index_is_Ret payload (off + c + name_len) ltac:(lia)) as [kind ->].
  cbn [mbind outcome_bind]. rewrite slice_from_eq by lia. cbn [mbind outcome_bind].
  destruct (read_u32 _) as [[idx c']|] eqn:E'; [|done].
  apply read_u32_bounds in E' as (_ & ? & Hc'). rewrite len_drop in Hc'.
  specialize (IH (count - 1) (off + c + name_len + 1 + c') ltac:(lia) ltac:(lia)).
  by destruct (exported_loop fuel payload _ _).
Qed.

(** ** Properties *)

(** [WasmModule::parse] is total: on every byte buffer it terminates without
    an out-of-range access, returning a module or an error message. *)
Theorem parse_total data : exists r, parse data = Ret r.
Proof. pose proof (parse_no_panic data). destruct (parse data); [by eexists|done]. Qed.

(** C31. The section table tiles the file: whenever [parse] accepts a buffer of
    less than 4 GiB, re-emitting the module with no replacement copies every
    section span and gives back the input byte for byte. *)
Theorem parse_emit_identity data m :
  len data < 2 ^ 32 -> parse data = Ret (Ok m) ->
  emit_with_replacements m ∅ = Ret data /\ emit_unchanged m = data.
Proof.
  intros Hlen H. apply parse_inv in H as (cs & -> & Hcs & ->); [|done].
  rewrite emit_spec, replace_chunks_empty by done. done.
Qed.

Lemma parse_emit_identity_witness :
  let d := wasm_header ++ [1; 4; 1; 0x60; 0; 0; 0; 0x83; 0; 1; 110; 7] in
  exists m, parse d = Ret (Ok m) /\ emit_with_replacements m ∅ = Ret d.
Proof.
  eexists. split; [reflexivity|].
  refine (proj1 (parse_emit_identity _ _ _ _)); reflexivity.
Defined.

(** Emission is correct for the parser: replacing some payloads of a parsed
    module yields a file that parses again, with the same sections in the same
    order, where section [i] carries the replacement payload if there is one
    and its original payload bytes otherwise. *)
Theorem emit_parse data m repl :
  len data < 2 ^ 32 -> parse data = Ret (Ok m) -> repl_fits repl ->
  (forall out, emit_with_replacements m repl = Ret out -> len out < 2 ^ 32) ->
  exists out m', emit_with_replacements m repl = Ret out /\ parse out = Ret (Ok m') /\
    length (wm_sections m') = length (wm_sections m) /\
    forall i s, wm_sections m !! i = Some s ->
      exists s', wm_sections m' !! i = Some s' /\ sec_id s' = sec_id s /\
        span_slice (sec_payload s') out
          = match repl !! i with
            | Some p => Ret p
            | None => span_slice (sec_payload s) data
            end.
Proof.
  intros Hlen H Hr Hout. apply parse_inv in H as (cs & -> & Hcs & ->); [|done].
  rewrite emit_spec in Hout |- * by done. specialize (Hout _ eq_refl).
  eexists _, _. split; [done|]. split; [by apply parse_chunks; [apply replace_chunks_ok|]|].
  cbn [wm_sections]. rewrite !sections_at_length, replace_chunks_length. split; [done|].
  intros i s Hs. apply sections_at_lookup in Hs as (cs1 & c & cs2 & -> & <- & ->).
  change 8 with (len wasm_header) in *.
  rewrite module_payload by done.
  destruct (replace_chunks repl 0 (cs1 ++ c :: cs2) !! length cs1) as [c'|] eqn:Hc'.
  2: { apply lookup_ge_None in Hc'. rewrite replace_chunks_length, length_app in Hc'.
       simpl in Hc'. lia. }
  pose proof Hc' as Hval. rewrite replace_chunks_lookup, list_lookup_middle in Hval by done.
  simpl in Hval.
  apply list_elem_of_split_length in Hc' as (ds1 & ds2 & Hds & Hd1). rewrite Hds, Hd1 in *.
  pose proof (replace_chunks_ok repl 0 _ Hr Hcs) as Hok. rewrite Hds in Hok.
  eexists. rewrite sections_at_lookup_middle. split; [done|].
  rewrite module_payload by done. simpl.
  destruct (repl !! length ds1); injection Hval as <-; done.
Qed.

Lemma emit_parse_witness :
  let d := wasm_header ++ [1; 4; 1; 0x60; 0; 0; 3; 2; 1; 0] in
  let repl : gmap nat bytes := {[ 1%nat := [2; 0; 0] ]} in
  exists m out m', parse d = Ret (Ok m) /\ emit_with_replacements m repl = Ret out /\
    parse out = Ret (Ok m').
Proof.
  set (d := wasm_header ++ [1; 4; 1; 0x60; 0; 0; 3; 2; 1; 0]).
  set (repl := ({[ 1%nat := [2; 0; 0] ]} : gmap nat bytes)).
  assert (Hp : exists m, parse d = Ret (Ok m)) by (eexists; reflexivity).
  destruct Hp as [m Hm].
  destruct (emit_parse d m repl) as (out & m' & Ho & Hp & _).
  - reflexivity.
  - exact Hm.
  - intros i p Hi. apply lookup_singleton_Some in Hi as [_ <-]. reflexivity.
  - injection Hm as <-. intros out Ho. vm_compute in Ho. injection Ho as <-. reflexivity.
  - exists m, out, m'. auto.
Defined.

(** [parse_function_bodies] indexes past the code section: when a body-size
    field overruns the payload and another body is expected, the next
    [&payload[off..]] is out of range and the call panics, although [parse]
    accepted the module. *)
Theorem function_bodies_overrun m code payload count off size k :
  section m SECTION_CODE = Some code ->
  span_slice (sec_payload code) (wm_data m) = Ret payload ->
  read_u32 payload = Some (count, off) -> 2 <= count ->
  read_u32 (drop (Z.to_nat off) payload) = Some (size, k) ->
  len payload < off + k + size ->
  parse_function_bodies m = Panic.
Proof.
  intros Hsec Hsl Hc Hcount Hs Hover. unfold parse_function_bodies.
  rewrite Hsec, Hsl. cbn [mbind outcome_bind]. rewrite Hc.
  pose proof (read_u32_bounds _ _ _ Hc) as (_ & ? & ?).
  destruct (length payload) as [|n] eqn:Hn; [unfold len in *; lia|].
  cbn [function_bodies_loop].
  replace (count <=? 0) with false by lia.
  replace (count - 1 <=? 0) with false by lia.
  rewrite slice_from_eq by lia. cbn [mbind outcome_bind]. rewrite Hs.
  unfold slice_from, get_from.
  replace (_ && _) with false by lia. done.
Qed.

(** The smallest such file: two bodies announced, the first one too long. *)
Lemma function_bodies_overrun_witness :
  exists m, parse (wasm_header ++ [10; 3; 2; 9; 0]) = Ret (Ok m) /\
    parse_function_bodies m = Panic.
Proof.
  eexists. split; [reflexivity|].
  apply (function_bodies_overrun _ (mkSection 10 (mkSpan 10 3) (mkSpan 8 5) None)
           [2; 9; 0] 2 1 9 1); reflexivity || lia.
Defined.

(** [exported_function_indices] never panics on a parsed module, however
    malformed the export section is. *)
Theorem exported_function_indices_total data m :
  len data < 2 ^ 32 -> parse data = Ret (Ok m) ->
  exists l, exported_function_indices m = Ret l.
Proof.
  intros Hlen H. apply parse_inv in H as (cs & -> & Hcs & ->); [|done].
  unfold exported_function_indices, section. cbn [wm_sections wm_data].
  destruct (List.find _ _) as [s|] eqn:Hf; [|by eexists].
  apply List.find_some in Hf as [Hin _]. apply list_elem_of_In, list_elem_of_lookup in Hin as [i Hi].
  apply sections_at_lookup in Hi as (cs1 & c & cs2 & -> & _ & ->).
  change 8 with (len wasm_header). rewrite module_payload by done. cbn [mbind outcome_bind].
  destruct (read_u32 (ck_payload c)) as [[count off]|] eqn:E; [|by eexists].
  apply read_u32_bounds in E as (_ & ? & ?).
  pose proof (exported_loop_no_panic (S (length (ck_payload c))) (ck_payload c) count off
    ltac:(lia) ltac:(unfold len; lia)).
  destruct (exported_loop _ _ _ _); [by eexists|done].
Qed.

Lemma exported_function_indices_total_witness :
  exists m l, parse (wasm_header ++ [7; 5; 1; 1; 102; 0; 0]) = Ret (Ok m) /\
    exported_function_indices m = Ret l.
Proof.
  assert (Hp : exists m, parse (wasm_header ++ [7; 5; 1; 1; 102; 0; 0]) = Ret (Ok m))
    by (eexists; reflexivity).
  destruct Hp as [m Hm].
  destruct (exported_function_indices_total (wasm_header ++ [7; 5; 1; 1; 102; 0; 0]) m eq_refl Hm) as [l Hl].
  exists m, l. auto.
Defined.
