(* ===== verification/Provenance.v ===== *)
(** Byte-level provenance of body rewrites ([wilt/src/provenance.rs]): edit
    lists, their application and their composition. *)
From S2P Require Import Prelude.

Record Edit := mkEdit { in_start : Z; in_len : Z; out_start : Z; out_len : Z }.
#[global] Instance Edit_eq_dec : EqDecision Edit.
Proof. solve_decision. Defined.

Definition edit_delete (in_start in_len out_start : Z) : Edit :=
  mkEdit in_start in_len out_start 0.
Definition edit_synth (in_start out_start out_len : Z) : Edit :=
  mkEdit in_start 0 out_start out_len.
Definition edit_subst (in_start in_len out_start out_len : Z) : Edit :=
  mkEdit in_start in_len out_start out_len.

Definition in_end (e : Edit) : Z := u32 (in_start e + in_len e).
Definition out_end (e : Edit) : Z := u32 (out_start e + out_len e).

Record BodyEdits := mkEdits { edits : list Edit; src_funcs : list (option Z) }.

Definition be_identity : BodyEdits := mkEdits [] [].
Definition from_edits (es : list Edit) : BodyEdits := mkEdits es (replicate (length es) None).
Definition is_identity (b : BodyEdits) : bool := match edits b with [] => true | _ => false end.
Definition be_push (b : BodyEdits) (e : Edit) (src : option Z) : BodyEdits :=
  mkEdits (edits b ++ [e]) (src_funcs b ++ [src]).

(** [u32::saturating_sub], [saturating_add]. *)
Definition sat_sub (a b : Z) : Z := Z.max 0 (a - b).
Definition sat_add (a b : Z) : Z := Z.min (2 ^ 32 - 1) (a + b).

(** ** Application *)

Section apply.
(** The callback that supplies synthesised bytes: edit index, source function
    and length requested. *)
Context (synth : Z -> option Z -> Z -> option bytes).

(** First pass: every edit fits the input and the output length fits [u32]. *)
Fixpoint check_fit (input_len : Z) (out_len_acc : Z) (es : list Edit) : option Z :=
  match es with
  | [] => Some out_len_acc
  | e :: es =>
      if input_len <? in_end e then None
      else if out_len_acc <? in_len e then None
      else let o := out_len_acc - in_len e in
           if 2 ^ 32 <=? o + out_len e then None
           else check_fit input_len (o + out_len e) es
  end.

(** The bytes written for one edit. *)
Definition edit_bytes (b : BodyEdits) (i : Z) (e : Edit) : outcome (option bytes) :=
  if 0 <? out_len e then
    src ← index (src_funcs b) i;
    match synth i src (out_len e) with
    | None => Ret None
    | Some new => if negb (u32 (len new) =? out_len e) then Ret None else Ret (Some new)
    end
  else Ret (Some []).

Fixpoint apply_loop (b : BodyEdits) (input : bytes) (i in_cursor : Z) (es : list Edit)
  : outcome (option bytes) :=
  match es with
  | [] =>
      if len input <? in_cursor then Ret None
      else tail ← slice_from input in_cursor; Ret (Some tail)
  | e :: es =>
      if in_start e <? in_cursor then Ret None
      else
        same ← slice input in_cursor (in_start e);
        new ←? edit_bytes b i e;
        rest ←? apply_loop b input (i + 1) (in_end e) es;
        Ret (Some (same ++ new ++ rest))
  end.

Definition apply (b : BodyEdits) (input : bytes) : outcome (option bytes) :=
  match check_fit (len input) (u32 (len input)) (edits b) with
  | None => Ret None
  | Some _ => apply_loop b input 0 0 (edits b)
  end.
End apply.

(** ** Composition *)

(** The scan of [mid_to_in] over the first edits list: shift before the span,
    lowest and highest input positions, shift through the overlap, and whether
    there was an overlap. *)
Fixpoint mid_scan (mid_start mid_end : Z) (es : list Edit)
    (before lo hi : Z) (had : bool) (thru : Z) : Z * Z * Z * bool * Z :=
  match es with
  | [] => (before, lo, hi, had, thru)
  | ae :: es =>
      if out_end ae <=? mid_start
      then mid_scan mid_start mid_end es (before + (in_len ae - out_len ae)) lo hi had thru
      else if mid_end <=? out_start ae then (before, lo, hi, had, thru)
      else mid_scan mid_start mid_end es before (Z.min lo (in_start ae)) (Z.max hi (in_end ae))
             true (thru + (in_len ae - out_len ae))
  end.

Definition overlaps (mid_start mid_end : Z) (e : Edit) : bool :=
  (mid_start <? out_end e) && (out_start e <? mid_end).

Definition mid_to_in (mid_start mid_len : Z) (a : BodyEdits) : Z * Z :=
  if is_identity a then (mid_start, mid_len) else
  let mid_end := u32 (mid_start + mid_len) in
  let '(before, lo, hi, had, thru) := mid_scan mid_start mid_end (edits a) 0 (2 ^ 32 - 1) 0 false 0 in
  if negb had then (u32 (Z.max 0 (mid_start + before)), mid_len) else
  let first := match List.find (overlaps mid_start mid_end) (edits a) with
               | Some e => out_start e | None => mid_start end in
  let last := match List.find (overlaps mid_start mid_end) (rev (edits a)) with
              | Some e => out_end e | None => mid_end end in
  let lo := if mid_start <? first
            then Z.min lo (u32 (Z.max 0 (mid_start + before))) else lo in
  let hi := if last <? mid_end
            then Z.max hi (u32 (Z.max 0 (mid_end + (before + thru)))) else hi in
  (lo, sat_sub hi lo).

Fixpoint find_src_loop (mid_start mid_end : Z) (srcs : list (option Z)) (i : Z) (es : list Edit)
  : outcome (option Z) :=
  match es with
  | [] => Ret None
  | ae :: es =>
      if out_end ae <=? mid_start then find_src_loop mid_start mid_end srcs (i + 1) es
      else if mid_end <=? out_start ae then Ret None
      else src ← index srcs i;
           match src with
           | Some s => Ret (Some s)
           | None => find_src_loop mid_start mid_end srcs (i + 1) es
           end
  end.

Definition find_src_in_a (mid_start mid_len : Z) (a : BodyEdits) : outcome (option Z) :=
  find_src_loop mid_start (u32 (mid_start + mid_len)) (src_funcs a) 0 (edits a).

(** The cursors of [compose]: the edits of [a] not yet consumed with the index of
    the first of them, and the high-water marks in mid and out space. *)
Record cursors := mkCursors { c_rest : list Edit; c_idx : Z; c_mid : Z; c_out : Z }.

(** The inner [while] loop: edits of [a] that end at or before [be]. *)
Fixpoint emit_before (be : Edit) (srcs : list (option Z)) (es : list Edit) (idx mid out : Z)
  : outcome (list (Edit * option Z) * cursors) :=
  match es with
  | ae :: es' =>
      if out_end ae <=? out_start be then
        let new_out := sat_add out (sat_sub (out_start ae) mid) in
        src ← index srcs idx;
        '(l, c) ← emit_before be srcs es' (idx + 1) (out_start ae) new_out;
        Ret ((mkEdit (in_start ae) (in_len ae) new_out (out_len ae), src) :: l, c)
      else Ret ([], mkCursors es idx mid out)
  | [] => Ret ([], mkCursors [] idx mid out)
  end.

Fixpoint compose_loop (a b : BodyEdits) (b_i : Z) (bs : list Edit) (c : cursors)
  : outcome (list (Edit * option Z) * cursors) :=
  match bs with
  | [] => Ret ([], c)
  | be :: bs =>
      '(pre, c) ← emit_before be (src_funcs a) (c_rest c) (c_idx c) (c_mid c) (c_out c);
      let '(start, length_) := mid_to_in (in_start be) (in_len be) a in
      b_src ← index (src_funcs b) b_i;
      src ← (match b_src with
             | Some s => Ret (Some s)
             | None => find_src_in_a (in_start be) (in_len be) a
             end);
      let out := sat_add (c_out c) (sat_sub (in_start be) (c_mid c)) in
      let e := mkEdit start length_ out (out_len be) in
      '(rest, c) ← compose_loop a b (b_i + 1) bs
        (mkCursors (c_rest c) (c_idx c) (in_end be) (sat_add out (out_len be)));
      Ret (pre ++ (e, src) :: rest, c)
  end.

(** Trailing edits of [a], past the last edit of [b]. *)
Fixpoint emit_trailing (srcs : list (option Z)) (es : list Edit) (idx mid out : Z)
  : outcome (list (Edit * option Z)) :=
  match es with
  | [] => Ret []
  | ae :: es =>
      src ← index srcs idx;
      rest ← emit_trailing srcs es (idx + 1) mid out;
      Ret ((mkEdit (in_start ae) (in_len ae) (sat_add (sat_sub (out_start ae) mid) out)
              (out_len ae), src) :: rest)
  end.

Definition compose (a b : BodyEdits) : outcome BodyEdits :=
  if is_identity a then Ret b
  else if is_identity b then Ret a
  else
    '(l, c) ← compose_loop a b 0 (edits b) (mkCursors (edits a) 0 0 0);
    tail ← emit_trailing (src_funcs a) (c_rest c) (c_idx c) (c_mid c) (c_out c);
    Ret (mkEdits ((l ++ tail).*1) ((l ++ tail).*2)).

(** ** Composition returns

    An edit list is aligned when it has one source entry per edit, as the
    constructors make it; [compose] then stays within its vectors. *)
Definition aligned (b : BodyEdits) : Prop := length (src_funcs b) = length (edits b).

Lemma be_push_aligned b e src : aligned b -> aligned (be_push b e src).
Proof. unfold aligned, be_push. simpl. rewrite !length_app. simpl. lia. Qed.

Lemma emit_before_total be srcs es : forall idx mid out, 0 <= idx -> idx + len es = len srcs ->
  exists l c, emit_before be srcs es idx mid out = Ret (l, c) /\ 0 <= c_idx c /\ c_idx c + len (c_rest c) = len srcs.
Proof.
  induction es as [|ae es IH]; intros idx mid out Hi Hl; cbn [emit_before]; [by do 2 eexists|].
  destruct (out_end ae <=? out_start be); [|by do 2 eexists]. rewrite len_cons in Hl.
  pose proof (len_nonneg es). destruct (index_is_Ret srcs idx) as [src ->]; [lia|]. cbn [mbind outcome_bind].
  destruct (IH (idx + 1) (out_start ae) (sat_add out (sat_sub (out_start ae) mid))) as (l & c & -> & H1 & H2); [lia..|].
  cbn [mbind outcome_bind]. by do 2 eexists.
Qed.

Lemma find_src_total lo hi srcs es : forall i, 0 <= i -> i + len es = len srcs ->
  exists r, find_src_loop lo hi srcs i es = Ret r.
Proof.
  induction es as [|ae es IH]; intros i Hi Hl; cbn [find_src_loop]; [by eexists|].
  rewrite len_cons in Hl. pose proof (len_nonneg es).
  destruct (out_end ae <=? lo); [apply IH; lia|]. destruct (hi <=? out_start ae); [by eexists|].
  destruct (index_is_Ret srcs i) as [src ->]; [lia|]. cbn [mbind outcome_bind].
  destruct src; [by eexists|apply IH; lia].
Qed.

Lemma compose_loop_total a b bs : aligned a -> forall b_i c, 0 <= b_i -> b_i + len bs = len (src_funcs b) ->
  0 <= c_idx c -> c_idx c + len (c_rest c) = len (src_funcs a) ->
  exists l c', compose_loop a b b_i bs c = Ret (l, c') /\ 0 <= c_idx c' /\ c_idx c' + len (c_rest c') = len (src_funcs a).
Proof.
  intros Ha. induction bs as [|be bs IH]; intros b_i c Hb Hbl Hc Hcl; cbn [compose_loop]; [by do 2 eexists|].
  rewrite len_cons in Hbl. pose proof (len_nonneg bs).
  destruct (emit_before_total be (src_funcs a) (c_rest c) (c_idx c) (c_mid c) (c_out c)) as (l & c1 & -> & H1 & H2); [done..|].
  cbn [mbind outcome_bind]. destruct (mid_to_in (in_start be) (in_len be) a) as [start length_].
  destruct (index_is_Ret (src_funcs b) b_i) as [b_src ->]; [lia|]. cbn [mbind outcome_bind].
  assert (Hsrc : exists src, match b_src with Some s => Ret (Some s)
    | None => find_src_in_a (in_start be) (in_len be) a end = Ret src).
  { destruct b_src; [by eexists|]. apply find_src_total; [done|]. unfold aligned, len in *. lia. }
  destruct Hsrc as [src ->]. cbn [mbind outcome_bind].
  edestruct (IH (b_i + 1)) as (l' & c' & -> & H3 & H4); [lia|lia|exact H1|exact H2|].
  cbn [mbind outcome_bind]. by do 2 eexists.
Qed.

Lemma emit_trailing_total srcs es : forall idx mid out, 0 <= idx -> idx + len es = len srcs ->
  exists l, emit_trailing srcs es idx mid out = Ret l.
Proof.
  induction es as [|ae es IH]; intros idx mid out Hi Hl; cbn [emit_trailing]; [by eexists|].
  rewrite len_cons in Hl. pose proof (len_nonneg es).
  destruct (index_is_Ret srcs idx) as [src ->]; [lia|]. cbn [mbind outcome_bind].
  destruct (IH (idx + 1) mid out) as [l ->]; [lia..|]. by eexists.
Qed.

Lemma compose_total a b : aligned a -> aligned b -> exists c, compose a b = Ret c /\ aligned c.
Proof.
  intros Ha Hb. unfold compose. destruct (is_identity a); [by exists b|]. destruct (is_identity b); [by exists a|].
  destruct (compose_loop_total a b (edits b) Ha 0 (mkCursors (edits a) 0 0 0)) as (l & c & -> & H1 & H2);
    [done|unfold aligned, len in *; lia|done|simpl; unfold aligned, len in *; lia|].
  cbn [mbind outcome_bind].
  destruct (emit_trailing_total (src_funcs a) (c_rest c) (c_idx c) (c_mid c) (c_out c)) as [tl ->]; [done..|].
  cbn [mbind outcome_bind]. eexists. split; [done|]. unfold aligned. simpl. by rewrite !length_fmap.
Qed.

(** ** What applying an edit list means *)

(** [applied synth srcs i cur input es out]: from edit number [i], with the
    remaining input [input] starting at position [cur], the output is the
    input with the span of every edit of [es] replaced by its new bytes and
    every other byte copied. *)
Inductive applied (synth : Z -> option Z -> Z -> option bytes) (srcs : list (option Z))
  : Z -> Z -> bytes -> list Edit -> bytes -> Prop :=
| applied_nil i cur input : applied synth srcs i cur input [] input
| applied_cons i cur same old rest e es new out :
    len same = in_start e - cur -> len old = in_len e ->
    (out_len e <= 0 /\ new = [] \/
     exists src, get srcs i = Some src /\ synth i src (out_len e) = Some new /\
                 len new = out_len e) ->
    applied synth srcs (i + 1) (in_start e + in_len e) rest es out ->
    applied synth srcs i cur (same ++ old ++ rest) (e :: es) (same ++ new ++ out).

(** A well-formed edit: the ends of both spans are [u32]s. *)
Definition edit_ok (e : Edit) : Prop :=
  0 <= in_start e /\ 0 <= in_len e /\ in_start e + in_len e < 2 ^ 32 /\
  0 <= out_start e /\ 0 <= out_len e /\ out_start e + out_len e < 2 ^ 32.

Lemma in_end_ok e : edit_ok e -> in_end e = in_start e + in_len e.
Proof. intros. unfold edit_ok in *. apply wrap_id. unfold is_uint. lia. Qed.

Lemma check_fit_ends input_len acc es o :
  check_fit input_len acc es = Some o -> Forall (fun e => in_end e <= input_len) es.
Proof.
  revert acc. induction es as [|e es IH]; intros acc; simpl; [by constructor|].
  destruct (Z.ltb_spec input_len (in_end e)); [done|].
  repeat case_match; try done. intros. constructor; [lia|eauto].
Qed.

Lemma edit_bytes_spec synth b i e new :
  (forall i src n bs, synth i src n = Some bs -> len bs < 2 ^ 32) ->
  edit_bytes synth b i e = Ret (Some new) ->
  out_len e <= 0 /\ new = [] \/
  exists src, get (src_funcs b) i = Some src /\ synth i src (out_len e) = Some new /\
              len new = out_len e.
Proof.
  intros Hsynth. unfold edit_bytes. destruct (Z.ltb_spec 0 (out_len e)).
  - destruct (index (src_funcs b) i) as [src|] eqn:Hi; [|done]. cbn [mbind outcome_bind].
    apply index_Ret in Hi as [_ Hi].
    destruct (synth i src (out_len e)) as [bs|] eqn:Hs; [|done].
    destruct (Z.eqb_spec (u32 (len bs)) (out_len e)) as [Hl|]; [|done].
    intros [= <-]. right. exists src. split_and!; [done..|].
    rewrite wrap_id in Hl; [done|]. split; [apply len_nonneg|by eapply Hsynth].
  - intros [= <-]. left. split; [lia|done].
Qed.

Lemma apply_loop_sound synth b input i cur es out pre rest :
  (forall i src n bs, synth i src n = Some bs -> len bs < 2 ^ 32) ->
  Forall edit_ok es -> Forall (fun e => in_end e <= len input) es ->
  input = pre ++ rest -> len pre = cur ->
  apply_loop synth b input i cur es = Ret (Some out) ->
  applied synth (src_funcs b) i cur rest es out.
Proof.
  intros Hsynth Hok Hends. revert i cur out pre rest Hends.
  induction Hok as [|e es He Hes IH]; intros i cur out pre rest Hends Hin Hpre; simpl.
  - destruct (_ <? _); [done|]. rewrite Hin, <- Hpre, slice_from_len.
    intros [= <-]. constructor.
  - inversion_clear Hends as [|? ? Hend Hends'].
    destruct (Z.ltb_spec (in_start e) cur); [done|].
    destruct (slice input cur (in_start e)) as [same|] eqn:Hsl; [|done]. cbn [mbind outcome_bind].
    destruct (edit_bytes synth b i e) as [[new|]|] eqn:Hnew; [|done..].
    destruct (apply_loop synth b input (i + 1) (in_end e) es) as [[out'|]|] eqn:Hrec; [|done..].
    intros [= <-]. pose proof (slice_len _ _ _ _ Hsl) as Hsame.
    rewrite in_end_ok in * by done.
    destruct (split_at rest (in_start e - cur) (in_len e)) as (same' & old & rest' & -> & Hs' & Ho);
      [lia|apply He|rewrite Hin, len_app in Hend; lia|].
    assert (Hslice : slice input cur (in_start e) = Ret same').
    { rewrite Hin, <- Hpre. replace (in_start e) with (len pre + len same') by lia. apply slice_app. }
    rewrite Hsl in Hslice. injection Hslice as ->.
    apply applied_cons; [done..|by apply edit_bytes_spec|].
    apply (IH (i + 1) (in_start e + in_len e) out' (pre ++ same' ++ old) rest'); [done|..|done].
    + by rewrite Hin, <- !app_assoc.
    + rewrite !len_app. lia.
Qed.

(** ** Properties *)

(** C34. [BodyEdits::apply] substitutes exactly the listed spans: when it returns
    bytes, they are the input with the input span of each edit replaced by the
    [out_len] bytes supplied for it and every other byte copied unchanged. *)
Theorem apply_substitutes synth b input out :
  Forall edit_ok (edits b) ->
  (forall i src n bs, synth i src n = Some bs -> len bs < 2 ^ 32) ->
  apply synth b input = Ret (Some out) ->
  applied synth (src_funcs b) 0 0 input (edits b) out.
Proof.
  intros Hok Hsynth. unfold apply.
  destruct (check_fit _ _ _) as [n|] eqn:Hfit; [|done]. intros H.
  apply check_fit_ends in Hfit. by eapply (apply_loop_sound _ _ input 0 0 _ _ []).
Qed.

Definition demo_synth (_ : Z) (_ : option Z) (n : Z) : option bytes :=
  if n =? 2 then Some [88; 89] else None.

Lemma apply_substitutes_witness :
  apply demo_synth (from_edits [edit_subst 1 2 1 2; edit_delete 4 1 4]) [97; 98; 99; 100; 101; 102]
    = Ret (Some [97; 88; 89; 100; 102]) /\
  applied demo_synth [None; None] 0 0 [97; 98; 99; 100; 101; 102]
    [edit_subst 1 2 1 2; edit_delete 4 1 4] [97; 88; 89; 100; 102].
Proof.
  assert (H : apply demo_synth (from_edits [edit_subst 1 2 1 2; edit_delete 4 1 4])
    [97; 98; 99; 100; 101; 102] = Ret (Some [97; 88; 89; 100; 102])) by reflexivity.
  split; [exact H|].
  refine (apply_substitutes _ (from_edits [edit_subst 1 2 1 2; edit_delete 4 1 4]) _ _ _ _ H).
  - repeat constructor; vm_compute; congruence.
  - intros i src n bs. unfold demo_synth. destruct (n =? 2); [|discriminate].
    intros [= <-]. reflexivity.
Defined.

(** [BodyEdits::compose] does not compose overlapping edits.  When the second
    pass deletes a span that the first pass substituted, both lists apply, one
    after the other, but their composition emits the first edit twice and is
    rejected by [apply] whatever bytes are supplied. *)
Theorem compose_overlap_rejected synth n :
  4 <= n < 2 ^ 32 ->
  let a := from_edits [edit_subst 2 2 2 2] in
  let b := from_edits [edit_delete 2 2 2] in
  compose a b = Ret (mkEdits [edit_delete 2 2 2; edit_subst 2 2 2 2] [None; None]) /\
  forall input ab, len input = n -> compose a b = Ret ab -> apply synth ab input = Ret None.
Proof.
  intros Hn a b. assert (Hc : compose a b
    = Ret (mkEdits [edit_delete 2 2 2; edit_subst 2 2 2 2] [None; None])) by reflexivity.
  split; [done|]. intros input ab Hl Hab. rewrite Hc in Hab. injection Hab as <-.
  unfold apply. destruct (check_fit _ _ _) as [m|] eqn:Hfit; [|done].
  simpl. change (in_end (edit_delete 2 2 2)) with 4. 
  rewrite slice_eq by lia. cbn [mbind outcome_bind]. done.
Qed.

Lemma compose_overlap_rejected_witness :
  apply demo_synth (from_edits [edit_subst 2 2 2 2]) [1; 2; 3; 4; 5] = Ret (Some [1; 2; 88; 89; 5]) /\
  apply demo_synth (from_edits [edit_delete 2 2 2]) [1; 2; 88; 89; 5] = Ret (Some [1; 2; 5]) /\
  exists ab, compose (from_edits [edit_subst 2 2 2 2]) (from_edits [edit_delete 2 2 2]) = Ret ab /\
    apply demo_synth ab [1; 2; 3; 4; 5] = Ret None.
Proof.
  split; [reflexivity|]. split; [reflexivity|].
  destruct (compose_overlap_rejected demo_synth 5 ltac:(lia)) as [Hc Ha].
  eexists. split; [exact Hc|]. apply Ha; [reflexivity|exact Hc].
Defined.
