(* ===== verification/MutModule.v ===== *)
(** The copy-on-write module ([wilt/src/mut_module.rs]): section and body
    overrides over the parsed input, per-body edit tracking, and the final
    serialisation.

    The [scratch] buffer only recycles allocations and [fingerprint] hashes with
    the standard library's [DefaultHasher]; neither is part of the state
    modelled here. *)
From S2P Require Import Prelude Leb128 WasmModule Provenance.

Record ModuleFacts := mkFacts {
  num_func_imports : Z;
  exported_func_indices : list Z;
  start_func : option Z;
}.

Record MutModule := mkMut {
  mm_input : bytes;
  mm_sections : list Section_;
  section_overrides : list (option bytes);
  section_removed : list bool;
  mm_bodies : list FunctionBody;
  body_overrides : list (option bytes);
  mm_body_edits : list (option BodyEdits);
  tracking_lost : list bool;
  facts : ModuleFacts;
}.

(** ** Facts *)

(** [if let Some((_, c)) = read_u32(&p[off..]) { off += c } else { break }]:
    the inner [None] is [break]. *)
Definition leb_or_break (p : bytes) (off : Z) : outcome (option Z) :=
  rest ← slice_from p off;
  Ret (match read_u32 rest with Some (_, c) => Some (off + c) | None => None end).

(** Limits of an imported table or memory: flags, minimum, optional maximum. *)
Definition limits_or_break (p : bytes) (off : Z) : outcome (option Z) :=
  if len p <=? off then Ret None else
  flags ← index p off;
  off ←? leb_or_break p (off + 1);
  if negb (Z.land flags 1 =? 0) then leb_or_break p off else Ret (Some off).

(** One import entry: the offset after it and whether it is a function;
    [None] is [break]. *)
Definition import_entry (p : bytes) (off : Z) : outcome (option (Z * bool)) :=
  rest ← slice_from p off;
  match read_u32 rest with
  | None => Ret None
  | Some (l, c) =>
      let off := off + (c + l) in
      if len p <? off then Ret None else
      rest ← slice_from p off;
      match read_u32 rest with
      | None => Ret None
      | Some (l, c) =>
          let off := off + (c + l) in
          if len p <=? off then Ret None else
          kind ← index p off;
          let off := off + 1 in
          if kind =? 0x00 then off ←? leb_or_break p off; Ret (Some (off, true))
          else if kind =? 0x01 then
            if len p <=? off then Ret None else
            off ←? limits_or_break p (off + 1); Ret (Some (off, false))
          else if kind =? 0x02 then off ←? limits_or_break p off; Ret (Some (off, false))
          else if kind =? 0x03 then Ret (Some (off + 2, false))
          else if kind =? 0x04 then off ←? leb_or_break p (off + 1); Ret (Some (off, false))
          else Ret None
      end
  end.

Fixpoint count_imports (fuel : nat) (p : bytes) (count off acc : Z) : outcome Z :=
  if count <=? 0 then Ret acc else
  match fuel with
  | O => Panic
  | S fuel =>
      e ← import_entry p off;
      match e with
      | None => Ret acc
      | Some (off, is_func) =>
          count_imports fuel p (count - 1) off (if is_func : bool then acc + 1 else acc)
      end
  end.

Definition find_id (id : Z) (sections : list Section_) : option Section_ :=
  List.find (fun s => sec_id s =? id) sections.

Definition compute_facts (input : bytes) (sections : list Section_) : outcome ModuleFacts :=
  imports ←
    (match find_id SECTION_IMPORT sections with
     | None => Ret 0
     | Some sec =>
         p ← span_slice (sec_payload sec) input;
         match read_u32 p with
         | None => Ret 0
         | Some (count, off) => count_imports (S (length p)) p count off 0
         end
     end);
  exports ←
    (match find_id SECTION_EXPORT sections with
     | None => Ret []
     | Some sec =>
         p ← span_slice (sec_payload sec) input;
         match read_u32 p with
         | None => Ret []
         | Some (count, off) => exported_loop (S (length p)) p count off
         end
     end);
  start ←
    (match find_id SECTION_START sections with
     | None => Ret None
     | Some sec => p ← span_slice (sec_payload sec) input; Ret (fst <$> read_u32 p)
     end);
  Ret (mkFacts imports exports start).

(** ** Construction and accessors *)

Definition mm_new (input : bytes) : outcome (result MutModule string) :=
  m ←! parse input;
  m ← ensure_function_bodies_parsed m;
  let sections := wm_sections m in
  let bodies := function_bodies m in
  f ← compute_facts input sections;
  Ret (Ok {| mm_input := input; mm_sections := sections;
             section_overrides := replicate (length sections) None;
             section_removed := replicate (length sections) false;
             mm_bodies := bodies;
             body_overrides := replicate (length bodies) None;
             mm_body_edits := replicate (length bodies) None;
             tracking_lost := replicate (length bodies) false;
             facts := f |}).

Definition num_bodies (m : MutModule) : Z := len (mm_bodies m).

Fixpoint position_loop (id i : Z) (sections : list Section_) : option Z :=
  match sections with
  | [] => None
  | s :: rest => if sec_id s =? id then Some i else position_loop id (i + 1) rest
  end.
Definition find_section (m : MutModule) (id : Z) : option Z := position_loop id 0 (mm_sections m).

Definition mm_section_payload (m : MutModule) (idx : Z) : outcome bytes :=
  match get (section_overrides m) idx with
  | Some (Some buf) => Ret buf
  | _ => sec ← index (mm_sections m) idx; span_slice (sec_payload sec) (mm_input m)
  end.

Definition set_section_payload (m : MutModule) (idx : Z) (payload : bytes) : outcome MutModule :=
  so ← store (section_overrides m) idx (Some payload);
  sr ← store (section_removed m) idx false;
  Ret (mkMut (mm_input m) (mm_sections m) so sr (mm_bodies m) (body_overrides m)
         (mm_body_edits m) (tracking_lost m) (facts m)).

Definition remove_section (m : MutModule) (idx : Z) : outcome MutModule :=
  sr ← store (section_removed m) idx true;
  Ret (mkMut (mm_input m) (mm_sections m) (section_overrides m) sr (mm_bodies m)
         (body_overrides m) (mm_body_edits m) (tracking_lost m) (facts m)).

Definition body_bytes (m : MutModule) (local_idx : Z) : outcome bytes :=
  match get (body_overrides m) local_idx with
  | Some (Some buf) => Ret buf
  | _ => b ← index (mm_bodies m) local_idx; span_slice (fb_body b) (mm_input m)
  end.

Definition set_body (m : MutModule) (local_idx : Z) (bs : bytes) : outcome MutModule :=
  bo ← store (body_overrides m) local_idx (Some bs);
  tl ← store (tracking_lost m) local_idx true;
  Ret (mkMut (mm_input m) (mm_sections m) (section_overrides m) (section_removed m)
         (mm_bodies m) bo (mm_body_edits m) tl (facts m)).

Definition set_body_with_edits (m : MutModule) (local_idx : Z) (bs : bytes) (pass_edits : BodyEdits)
  : outcome MutModule :=
  bo ← store (body_overrides m) local_idx (Some bs);
  lost ← index (tracking_lost m) local_idx;
  if lost : bool then
    Ret (mkMut (mm_input m) (mm_sections m) (section_overrides m) (section_removed m)
           (mm_bodies m) bo (mm_body_edits m) (tracking_lost m) (facts m))
  else
    prev ← index (mm_body_edits m) local_idx;
    next ← (match prev with Some prev => compose prev pass_edits | None => Ret pass_edits end);
    be ← store (mm_body_edits m) local_idx (Some next);
    Ret (mkMut (mm_input m) (mm_sections m) (section_overrides m) (section_removed m)
           (mm_bodies m) bo be (tracking_lost m) (facts m)).

Definition has_edit_track (m : MutModule) (local_idx : Z) : outcome bool :=
  lost ← index (tracking_lost m) local_idx; Ret (negb lost).

Definition body_edits (m : MutModule) (local_idx : Z) : outcome (option BodyEdits) :=
  track ← has_edit_track m local_idx;
  if negb track then Ret None else index (mm_body_edits m) local_idx.

(** ** Serialisation *)

Fixpoint code_bodies (input : bytes) (overrides : list (option bytes)) (i : nat)
    (bodies : list FunctionBody) : outcome bytes :=
  match bodies with
  | [] => Ret []
  | b :: rest =>
      bs ← (match overrides !! i with
            | Some (Some v) => Ret v
            | _ => span_slice (fb_body b) input
            end);
      tail ← code_bodies input overrides (S i) rest;
      Ret (write_u32 (u32 (len bs)) ++ bs ++ tail)
  end.

Definition build_code_section (bodies : list FunctionBody) (overrides : list (option bytes))
    (input : bytes) : outcome bytes :=
  rest ← code_bodies input overrides 0 bodies;
  Ret (write_u32 (u32 (len bodies)) ++ rest).

Fixpoint serialize_sections (input : bytes) (code_payload : option bytes)
    (overrides : list (option bytes)) (removed : list bool) (idx : Z)
    (sections : list Section_) : outcome bytes :=
  match sections with
  | [] => Ret []
  | s :: rest =>
      rm ← index removed idx;
      chunk ←
        (if rm : bool then Ret [] else
         match (if sec_id s =? SECTION_CODE then code_payload else None) with
         | Some buf => Ret (encode_section (sec_id s) buf)
         | None =>
             ov ← index overrides idx;
             match ov with
             | Some buf => Ret (encode_section (sec_id s) buf)
             | None => span_slice (sec_full s) input
             end
         end);
      out ← serialize_sections input code_payload overrides removed (idx + 1) rest;
      Ret (chunk ++ out)
  end.

Definition is_some {A} (o : option A) : bool := match o with Some _ => true | None => false end.

Definition serialize (m : MutModule) : outcome bytes :=
  header ← slice (mm_input m) 0 8;
  code_payload ←
    (if existsb is_some (body_overrides m) then
       p ← build_code_section (mm_bodies m) (body_overrides m) (mm_input m); Ret (Some p)
     else Ret None);
  out ← serialize_sections (mm_input m) code_payload (section_overrides m) (section_removed m) 0
          (mm_sections m);
  Ret (header ++ out).

Definition sample_module : bytes :=
  wasm_header ++ [1; 4; 1; 0x60; 0; 0] ++ [3; 2; 1; 0] ++ [7; 5; 1; 1; 102; 0; 0]
    ++ [10; 4; 1; 2; 0; 0x0B].

Example roundtrip_unchanged :
  (r ← mm_new sample_module;
   match r with Ok m => serialize m | Err _ => Panic end) = Ret sample_module.
Proof. reflexivity. Qed.
Example facts_populated :
  exists m, mm_new sample_module = Ret (Ok m) /\ facts m = mkFacts 0 [0] None.
Proof. eexists. split; reflexivity. Qed.

(** ** Shape invariant: the parallel vectors keep their lengths *)

Record mm_wf (m : MutModule) : Prop := {
  wf_overrides : length (section_overrides m) = length (mm_sections m);
  wf_removed : length (section_removed m) = length (mm_sections m);
  wf_bodies : length (body_overrides m) = length (mm_bodies m);
  wf_edits : length (mm_body_edits m) = length (mm_bodies m);
  wf_lost : length (tracking_lost m) = length (mm_bodies m);
}.

(** The operations passes use, as steps. *)
Inductive mm_step (m : MutModule) : MutModule -> Prop :=
| step_set_body i bs m' : set_body m i bs = Ret m' -> mm_step m m'
| step_set_body_with_edits i bs e m' : set_body_with_edits m i bs e = Ret m' -> mm_step m m'
| step_set_section_payload i p m' : set_section_payload m i p = Ret m' -> mm_step m m'
| step_remove_section i m' : remove_section m i = Ret m' -> mm_step m m'.

Lemma store_length {A} (d d' : list A) i v : store d i v = Ret d' -> length d' = length d.
Proof. intros H%store_len. unfold len in H. lia. Qed.

Lemma store_get {A} (d d' : list A) i v j : store d i v = Ret d' ->
  get d' j = if i =? j then Some v else get d j.
Proof.
  unfold store. destruct ((0 <=? i) && (i <? len d)) eqn:Hb; [|done]. intros [= <-].
  unfold get, len. rewrite length_insert. fold (len d).
  destruct (Z.eqb_spec i j) as [->|Hij].
  - rewrite Hb. apply list_lookup_insert_eq. unfold len in Hb. lia.
  - destruct ((0 <=? j) && (j <? len d)) eqn:Hj; [|done].
    apply list_lookup_insert_ne. lia.
Qed.

Lemma mm_step_wf m m' : mm_step m m' -> mm_wf m -> mm_wf m'.
Proof.
  intros Hs [H1 H2 H3 H4 H5]; destruct Hs as [i bs m' H|i bs e m' H|i p m' H|i m' H];
    unfold set_body, set_body_with_edits, set_section_payload, remove_section in H;
    outcome_inv; constructor; simpl;
    repeat match goal with E : store _ _ _ = Ret _ |- _ => apply store_length in E end; congruence.
Qed.

Lemma mm_step_lost m m' i : mm_step m m' ->
  get (tracking_lost m) i = Some true -> get (tracking_lost m') i = Some true.
Proof.
  intros Hs Hi; destruct Hs as [j bs m' H|j bs e m' H|j p m' H|j m' H];
    unfold set_body, set_body_with_edits, set_section_payload, remove_section in H;
    outcome_inv; simpl; try done.
  match goal with E : store (tracking_lost m) _ _ = Ret _ |- _ => rewrite (store_get _ _ _ _ i E) end.
  by destruct (j =? i).
Qed.

Lemma mm_step_fixed m m' : mm_step m m' ->
  mm_input m' = mm_input m /\ mm_sections m' = mm_sections m /\ mm_bodies m' = mm_bodies m /\
  facts m' = facts m.
Proof.
  intros Hs; destruct Hs as [j bs m' H|j bs e m' H|j p m' H|j m' H];
    unfold set_body, set_body_with_edits, set_section_payload, remove_section in H;
    outcome_inv; done.
Qed.

Lemma mm_new_wf input m : mm_new input = Ret (Ok m) -> mm_wf m.
Proof.
  unfold mm_new. destruct (parse input) as [[w|]|]; [|done..]. intros H.
  outcome_inv. constructor; simpl; by rewrite length_replicate.
Qed.

(** ** Serialisation as chunks *)

Definition written (id : Z) (p : bytes) : chunk := mkChunk id (write_u32 (u32 (len p))) p.

Lemma encode_section_written id p : encode_section id p = ck_bytes (written id p).
Proof. reflexivity. Qed.

Lemma chunks_bytes_one c : chunks_bytes [c] = ck_bytes c.
Proof. apply app_nil_r. Qed.

Definition out_chunk (code_payload : option bytes) (ov : option bytes) (rm : bool) (c : chunk)
  : list chunk :=
  if rm then [] else
  match (if ck_id c =? SECTION_CODE then code_payload else None) with
  | Some p => [written (ck_id c) p]
  | None => match ov with Some p => [written (ck_id c) p] | None => [c] end
  end.

Fixpoint out_chunks (code_payload : option bytes) (ovs : list (option bytes)) (rms : list bool)
    (cs : list chunk) {struct cs} : list chunk :=
  match cs, ovs, rms with
  | c :: cs, ov :: ovs, rm :: rms => out_chunk code_payload ov rm c ++ out_chunks code_payload ovs rms cs
  | _, _, _ => []
  end.


Lemma serialize_sections_spec cp povs ovs prms rms pre cs :
  Forall chunk_ok cs -> len (pre ++ chunks_bytes cs) < 2 ^ 32 ->
  length ovs = length cs -> length rms = length cs -> len povs = len prms ->
  serialize_sections (pre ++ chunks_bytes cs) cp (povs ++ ovs) (prms ++ rms) (len povs)
    (sections_at (len pre) cs)
  = Ret (chunks_bytes (out_chunks cp ovs rms cs)).
Proof.
  intros Hcs. revert povs ovs prms rms pre.
  induction Hcs as [|c cs Hc Hcs IH]; intros povs ovs prms rms pre Hlen Hov Hrm Hp; [reflexivity|].
  destruct ovs as [|ov ovs]; [done|]. destruct rms as [|rm rms]; [done|].
  cbn [sections_at serialize_sections out_chunks].
  rewrite chunks_bytes_cons in *. rewrite chunks_bytes_app.
  pose proof Hlen as Hlen'. rewrite app_assoc in Hlen'.
  specialize (IH (povs ++ [ov]) ovs (prms ++ [rm]) rms _ Hlen'
    ltac:(by injection Hov) ltac:(by injection Hrm) ltac:(rewrite !len_app; unfold len; simpl; unfold len in Hp; lia)).
  rewrite <- !app_assoc, !len_app in IH.
  change ([ov] ++ ovs) with (ov :: ovs) in IH. change ([rm] ++ rms) with (rm :: rms) in IH.
  change (len [ov]) with 1 in IH. 
  rewrite (index_app_cons prms) by done. cbn [mbind outcome_bind].
  unfold out_chunk. change (sec_id (section_at (len pre) c)) with (ck_id c).
  destruct rm.
  - cbn [mbind outcome_bind]. by rewrite IH.
  - destruct (if ck_id c =? SECTION_CODE then cp else None) as [p|].
    + cbn [mbind outcome_bind]. by rewrite IH, chunks_bytes_one, encode_section_written.
    + rewrite index_app_cons by done. cbn [mbind outcome_bind].
      destruct ov as [p|]; cbn [mbind outcome_bind].
      * by rewrite IH, chunks_bytes_one, encode_section_written.
      * rewrite span_slice_full by done. cbn [mbind outcome_bind].
        by rewrite IH, chunks_bytes_one.
Qed.

Lemma out_chunks_ok cp ovs rms cs :
  (forall p, cp = Some p -> len p < 2 ^ 32) ->
  Forall (fun ov => forall p, ov = Some p -> len p < 2 ^ 32) ovs ->
  Forall chunk_ok cs -> Forall chunk_ok (out_chunks cp ovs rms cs).
Proof.
  intros Hcp Hovs Hcs. revert ovs rms Hovs.
  induction Hcs as [|c cs Hc Hcs IH]; intros ovs rms Hovs; simpl; [constructor|].
  destruct ovs as [|ov ovs]; [constructor|]. destruct rms as [|rm rms]; [constructor|].
  inversion_clear Hovs as [|? ? Hov Hovs']. apply Forall_app. split; [|by apply IH].
  unfold out_chunk. destruct rm; [constructor|].
  destruct (if ck_id c =? SECTION_CODE then cp else None) as [p|] eqn:E.
  - constructor; [|constructor]. apply written_chunk_ok. apply Hcp. by destruct (ck_id c =? SECTION_CODE).
  - destruct ov; (constructor; [|constructor]); [apply written_chunk_ok; by apply Hov|done].
Qed.

Lemma out_chunks_untouched cs :
  out_chunks None (replicate (length cs) None) (replicate (length cs) false) cs = cs.
Proof.
  induction cs as [|c cs IH]; simpl; [done|]. rewrite IH. unfold out_chunk.
  by destruct (ck_id c =? SECTION_CODE).
Qed.

(** ** The invariant of reachable modules *)

Record mm_inv (input : bytes) (cs : list chunk) (m : MutModule) : Prop := {
  inv_input : mm_input m = input;
  inv_tiles : input = wasm_header ++ chunks_bytes cs;
  inv_sections : mm_sections m = sections_at 8 cs;
  inv_chunks : Forall chunk_ok cs;
  inv_len : len input < 2 ^ 32;
  inv_wf : mm_wf m;
}.

Lemma mm_new_inv input m : len input < 2 ^ 32 -> mm_new input = Ret (Ok m) ->
  exists cs, mm_inv input cs m.
Proof.
  intros Hlen H. pose proof (mm_new_wf _ _ H) as Hwf. unfold mm_new in H.
  destruct (parse input) as [[w|]|] eqn:Hp; [|done..].
  apply parse_inv in Hp as (cs & Hin & Hcs & ->); [|done].
  unfold ensure_function_bodies_parsed in H. cbn [wm_function_bodies] in H.
  outcome_inv. subst. exists cs. constructor; try done.
Qed.

Lemma mm_step_inv input cs m m' : mm_step m m' -> mm_inv input cs m -> mm_inv input cs m'.
Proof.
  intros Hs [H1 H2 H3 H4 H5 H6]. destruct (mm_step_fixed _ _ Hs) as (E1 & E2 & _).
  constructor; [congruence|done|congruence|done|done|by eapply mm_step_wf].
Qed.

Lemma mm_reach_inv input m0 m : len input < 2 ^ 32 -> mm_new input = Ret (Ok m0) ->
  rtc mm_step m0 m -> exists cs, mm_inv input cs m.
Proof.
  intros Hlen Hn Hr. destruct (mm_new_inv _ _ Hlen Hn) as [cs Hi]. exists cs.
  revert Hi. clear Hn. induction Hr; eauto using mm_step_inv.
Qed.

Definition code_payload_of (m : MutModule) : outcome (option bytes) :=
  if existsb is_some (body_overrides m) then
    p ← build_code_section (mm_bodies m) (body_overrides m) (mm_input m); Ret (Some p)
  else Ret None.

(** The serialised module, chunk by chunk. *)
Lemma serialize_spec input cs m cp : mm_inv input cs m -> code_payload_of m = Ret cp ->
  serialize m = Ret (wasm_header ++
    chunks_bytes (out_chunks cp (section_overrides m) (section_removed m) cs)).
Proof.
  intros [Hi Ht Hs Hcs Hlen [Hov Hrm _ _ _]] Hcp. subst input. unfold serialize.
  fold (code_payload_of m). rewrite Hs, sections_at_length in Hov, Hrm. rewrite Ht in Hlen.
  rewrite Hcp, Hs, Ht.
  change 8 with (len wasm_header). rewrite slice_prefix. cbn [mbind outcome_bind].
  pose proof (serialize_sections_spec cp [] (section_overrides m) [] (section_removed m)
    wasm_header cs Hcs Hlen Hov Hrm eq_refl) as H.
  change (len []) with 0 in H. simpl app in H at 2 3. rewrite H. done.
Qed.

(** What a parsed module holds: each section's id and payload bytes. *)
Definition contents (data : bytes) (ss : list Section_) : outcome (list (Z * bytes)) :=
  mapM (fun s => p ← span_slice (sec_payload s) data; Ret (sec_id s, p)) ss.

(** What a [MutModule] is meant to hold: the sections that are not removed, each
    with its current payload. *)
Fixpoint kept_from (m : MutModule) (idx : Z) (ss : list Section_) : outcome (list (Z * bytes)) :=
  match ss with
  | [] => Ret []
  | s :: rest =>
      rm ← index (section_removed m) idx;
      tail ← kept_from m (idx + 1) rest;
      if rm : bool then Ret tail
      else p ← mm_section_payload m idx; Ret ((sec_id s, p) :: tail)
  end.

Definition ck_pair (c : chunk) : Z * bytes := (ck_id c, ck_payload c).

Lemma contents_chunks pre cs : Forall chunk_ok cs -> len (pre ++ chunks_bytes cs) < 2 ^ 32 ->
  contents (pre ++ chunks_bytes cs) (sections_at (len pre) cs) = Ret (ck_pair <$> cs).
Proof.
  intros Hcs. revert pre. induction Hcs as [|c cs Hc Hcs IH]; intros pre Hlen; [done|].
  unfold contents in *. cbn [sections_at mapM]. rewrite chunks_bytes_cons in *.
  rewrite span_slice_payload by done. cbn [mbind outcome_bind].
  rewrite <- len_app, app_assoc, IH by (by rewrite <- app_assoc). done.
Qed.

Lemma kept_from_spec m pcs cs povs ovs prms rms : Forall chunk_ok (pcs ++ cs) ->
  mm_input m = wasm_header ++ chunks_bytes (pcs ++ cs) -> len (mm_input m) < 2 ^ 32 ->
  mm_sections m = sections_at 8 (pcs ++ cs) ->
  section_overrides m = povs ++ ovs -> section_removed m = prms ++ rms ->
  length povs = length pcs -> length prms = length pcs ->
  length ovs = length cs -> length rms = length cs ->
  kept_from m (len pcs) (sections_at (8 + len (chunks_bytes pcs)) cs)
    = Ret (ck_pair <$> out_chunks None ovs rms cs).
Proof.
  intros Hok Hin Hlen Hsec Hov Hrm Hl1 Hl2.
  revert pcs povs ovs prms rms Hok Hin Hsec Hov Hrm Hl1 Hl2.
  induction cs as [|c cs IH]; intros pcs povs ovs prms rms Hok Hin Hsec Hov Hrm Hl1 Hl2 Hl3 Hl4;
    [done|].
  destruct ovs as [|ov ovs]; [done|]. destruct rms as [|rm rms]; [done|].
  cbn [sections_at kept_from out_chunks]. unfold mm_section_payload.
  assert (H1 : len povs = len pcs) by (unfold len; lia).
  assert (H2 : len prms = len pcs) by (unfold len; lia).
  rewrite Hrm, index_app_cons by done. cbn [mbind outcome_bind].
  replace (8 + len (chunks_bytes pcs) + len (ck_bytes c))
    with (8 + len (chunks_bytes (pcs ++ [c]))) by (rewrite chunks_bytes_app, len_app, chunks_bytes_one; lia).
  replace (len pcs + 1) with (len (pcs ++ [c])) by (rewrite len_app; done).
  rewrite (IH (pcs ++ [c]) (povs ++ [ov]) ovs (prms ++ [rm]) rms);
    rewrite <- ?app_assoc; try done; [|rewrite !length_app; simpl; lia..|by injection Hl3|by injection Hl4].
  cbn [mbind outcome_bind]. rewrite fmap_app. unfold out_chunk. destruct rm; [done|].
  replace (if ck_id c =? SECTION_CODE then None else None) with (@None bytes) by (by case_match).
  rewrite Hov, get_app_cons by done. destruct ov; [done|]. rewrite Hsec.
  unfold index, get.
  assert (Hsl : len pcs < len (sections_at 8 (pcs ++ c :: cs)))
    by (unfold len; rewrite sections_at_length, length_app; simpl; lia).
  replace ((0 <=? len pcs) && _) with true by (pose proof (len_nonneg pcs); lia).
  replace (Z.to_nat (len pcs)) with (length pcs) by (unfold len; lia).
  rewrite sections_at_lookup_middle. cbn [mbind outcome_bind]. rewrite Hin in *.
  change 8 with (len wasm_header). rewrite module_payload by done. done.
Qed.

(** ** The rebuilt code section *)

Definition bc_written (v : bytes) : body_chunk := mkBC (write_u32 (u32 (len v))) v.

Lemma bc_written_ok v : len v < 2 ^ 32 -> bc_ok (bc_written v).
Proof. intros H. by apply (written_chunk_ok 0 v). Qed.

Lemma bcs_written_ok vs : Forall (fun v => len v < 2 ^ 32) vs -> Forall bc_ok (bc_written <$> vs).
Proof. induction 1; constructor; auto using bc_written_ok. Qed.

Lemma code_bodies_spec input povs ovs bodies vs :
  length ovs = length bodies ->
  Forall2 (fun '(ov, b) v =>
    match ov with Some w => Ret w | None => span_slice (fb_body b) input end = Ret v)
    (zip ovs bodies) vs ->
  code_bodies input (povs ++ ovs) (length povs) bodies = Ret (bcs_bytes (bc_written <$> vs)).
Proof.
  revert povs ovs vs. induction bodies as [|b bodies IH]; intros povs ovs vs Hl Hall;
    (destruct ovs as [|ov ovs]; try done); inversion_clear Hall as [|? v ? vs' Hv Hvs]; [done|].
  cbn [code_bodies]. rewrite list_lookup_middle by done.
  replace (match ov with Some w => Ret w | None => _ end) with (Ret v) by done.
  cbn [mbind outcome_bind].
  specialize (IH (povs ++ [ov]) ovs vs' ltac:(by injection Hl) Hvs).
  rewrite length_app, <- app_assoc in IH. simpl in IH. rewrite Nat.add_1_r in IH. rewrite IH.
  cbn [mbind outcome_bind fmap list_fmap]. rewrite bcs_bytes_cons.
  change (bc_bytes (bc_written v)) with (write_u32 (u32 (len v)) ++ v).
  by rewrite <- app_assoc.
Qed.

(** The current bytes of the bodies. *)
Definition current_bodies (m : MutModule) (vs : list bytes) : Prop :=
  length vs = length (mm_bodies m) /\
  forall i v, vs !! i = Some v -> body_bytes m (Z.of_nat i) = Ret v.

Lemma current_bodies_Forall2 m vs : mm_wf m -> current_bodies m vs ->
  Forall2 (fun '(ov, b) v =>
    match ov with Some w => Ret w | None => span_slice (fb_body b) (mm_input m) end = Ret v)
    (zip (body_overrides m) (mm_bodies m)) vs.
Proof.
  intros [_ _ Hb _ _] [Hl Hv]. apply Forall2_same_length_lookup_2.
  - rewrite length_zip_with, Hl. lia.
  - intros i [ov b] v Hz Hvi. specialize (Hv _ _ Hvi).
    apply lookup_zip_with_Some in Hz as (? & ? & [= <- <-] & Ho & Hbo).
    pose proof (lookup_lt_Some _ _ _ Ho). unfold body_bytes, index, get, len in Hv.
    replace ((0 <=? Z.of_nat i) && (Z.of_nat i <? Z.of_nat (length (body_overrides m))))
      with true in Hv by lia.
    replace ((0 <=? Z.of_nat i) && (Z.of_nat i <? Z.of_nat (length (mm_bodies m))))
      with true in Hv by lia.
    rewrite Nat2Z.id, Ho, Hbo in Hv. by destruct ov.
Qed.

Lemma build_code_section_spec m vs : mm_wf m -> current_bodies m vs -> len vs < 2 ^ 32 ->
  exists cnt, build_code_section (mm_bodies m) (body_overrides m) (mm_input m)
    = Ret (cnt ++ bcs_bytes (bc_written <$> vs)) /\ read_u32 cnt = Some (len vs, len cnt).
Proof.
  intros Hwf Hc Hlen. pose proof (current_bodies_Forall2 _ _ Hwf Hc) as Hall.
  destruct Hwf as [_ _ Hb _ _]. destruct Hc as [Hl _].
  exists (write_u32 (len vs)). split.
  - unfold build_code_section.
    pose proof (code_bodies_spec _ [] _ _ _ Hb Hall) as E. simpl app in E. simpl length in E.
    rewrite E. cbn [mbind outcome_bind].
    rewrite wrap_id; unfold is_uint, len in *; [by rewrite Hl|lia].
  - rewrite <- (app_nil_r (write_u32 _)) at 1. apply read_u32_write.
    unfold is_uint. pose proof (len_nonneg vs). lia.
Qed.

(** A body's span, in a file holding the body chunks from [len pre] on. *)
Lemma bodies_at_slice pre bs post i b : Forall bc_ok bs ->
  len (pre ++ bcs_bytes bs ++ post) < 2 ^ 32 -> bodies_at (len pre) bs !! i = Some b ->
  exists c, bs !! i = Some c /\ span_slice (fb_body b) (pre ++ bcs_bytes bs ++ post) = Ret (bc_body c).
Proof.
  intros Hbs. revert pre i. induction Hbs as [|c bs Hc Hbs IH]; intros pre i Hlen; [done|].
  rewrite bcs_bytes_cons in *. cbn [bodies_at].
  destruct i as [|i]; cbn [lookup list_lookup].
  - intros [= <-]. exists c. split; [done|].
    unfold bc_bytes, body_at, span_slice in *; simpl. rewrite <- !app_assoc in *.
    rewrite !len_app in Hlen. pose proof (len_nonneg pre). pose proof (len_nonneg (bc_size c)).
    pose proof (len_nonneg (bc_body c)). pose proof (len_nonneg (bcs_bytes bs)).
    pose proof (len_nonneg post).
    rewrite wrap_id by (unfold is_uint; lia).
    rewrite app_assoc, <- len_app. apply slice_app.
  - intros H. rewrite <- len_app in H. rewrite <- app_assoc, (app_assoc pre) in *.
    destruct (IH _ _ Hlen H) as (c' & ? & ?). eauto.
Qed.

Lemma find_code_app_written cs1 p cs2 pos :
  Forall (fun c => ck_id c <> SECTION_CODE) cs1 ->
  List.find (fun s => sec_id s =? SECTION_CODE)
    (sections_at pos (cs1 ++ written SECTION_CODE p :: cs2))
  = Some (section_at (pos + len (chunks_bytes cs1)) (written SECTION_CODE p)).
Proof.
  intros Hcs. revert pos. induction Hcs as [|c cs1 Hc Hcs IH]; intros pos; simpl.
  - do 2 f_equal. unfold len; simpl. lia.
  - change (ck_id c <> SECTION_CODE) in Hc. replace (ck_id c =? SECTION_CODE) with false by lia.
    rewrite IH, chunks_bytes_cons, len_app. do 2 f_equal. lia.
Qed.

(** With a rebuilt code section every code chunk that is kept carries it. *)
Lemma out_chunks_code p ovs rms cs :
  length ovs = length cs -> length rms = length cs ->
  (exists i c, cs !! i = Some c /\ ck_id c = SECTION_CODE /\ rms !! i = Some false) ->
  exists cs1 cs2, out_chunks (Some p) ovs rms cs = cs1 ++ written SECTION_CODE p :: cs2 /\
    Forall (fun c => ck_id c <> SECTION_CODE) cs1.
Proof.
  revert ovs rms. induction cs as [|c cs IH]; intros [|ov ovs] [|rm rms] Hl1 Hl2 (i & c' & Hc & Hid & Hrm);
    try done.
  cbn [out_chunks]. destruct (Z.eqb_spec (ck_id c) SECTION_CODE) as [E|E].
  - destruct rm.
    + destruct i as [|i]; [done|]. apply IH; [by injection Hl1|by injection Hl2|eauto].
    + unfold out_chunk. rewrite E. exists [], (out_chunks (Some p) ovs rms cs). done.
  - destruct i as [|i]; [simpl in Hc; congruence|].
    destruct (IH ovs rms ltac:(by injection Hl1) ltac:(by injection Hl2) ltac:(eauto))
      as (cs1 & cs2 & -> & Hn).
    exists (out_chunk (Some p) ov rm c ++ cs1), cs2. rewrite app_assoc. split; [done|].
    apply Forall_app. split; [|done]. unfold out_chunk. destruct rm; [constructor|].
    replace (ck_id c =? SECTION_CODE) with false by lia. destruct ov; by repeat constructor.
Qed.

Definition overrides_fit (m : MutModule) : Prop :=
  Forall (fun ov => forall p, ov = Some p -> len p < 2 ^ 32) (section_overrides m).

Lemma bodies_at_length pos bs : length (bodies_at pos bs) = length bs.
Proof. revert pos. induction bs; intros; simpl; [done|by f_equal]. Qed.

Lemma bodies_at_mapM pre vs post : Forall (fun v => len v < 2 ^ 32) vs ->
  len (pre ++ bcs_bytes (bc_written <$> vs) ++ post) < 2 ^ 32 ->
  mapM (fun b => span_slice (fb_body b) (pre ++ bcs_bytes (bc_written <$> vs) ++ post))
    (bodies_at (len pre) (bc_written <$> vs)) = Ret vs.
Proof.
  intros Hvs Hlen. apply mapM_Ret, Forall2_same_length_lookup_2.
  - by rewrite bodies_at_length, length_fmap.
  - intros i b v Hb Hv. eapply bodies_at_slice in Hb as (c & Hc & Hs);
      [|by apply bcs_written_ok|done].
    rewrite list_lookup_fmap, Hv in Hc. by injection Hc as <-.
Qed.

(** The bodies of a file whose first code section is the rebuilt one. *)
Lemma reparse_bodies cs1 cs2 cnt vs :
  let p := cnt ++ bcs_bytes (bc_written <$> vs) in
  let cs := cs1 ++ written SECTION_CODE p :: cs2 in
  let out := wasm_header ++ chunks_bytes cs in
  Forall (fun c => ck_id c <> SECTION_CODE) cs1 -> Forall chunk_ok cs ->
  Forall (fun v => len v < 2 ^ 32) vs -> read_u32 cnt = Some (len vs, len cnt) ->
  len out < 2 ^ 32 ->
  exists bodies,
    parse_function_bodies {| wm_data := out; wm_sections := sections_at 8 cs;
                             wm_function_bodies := None |} = Ret bodies /\
    mapM (fun b => span_slice (fb_body b) out) bodies = Ret vs.
Proof.
  intros p cs out Hcs1 Hok Hvs Hcnt Hlen.
  set (pre := wasm_header ++ chunks_bytes cs1 ++ [SECTION_CODE] ++ write_u32 (u32 (len p))).
  assert (Hout : out = (pre ++ cnt) ++ bcs_bytes (bc_written <$> vs) ++ chunks_bytes cs2).
  { unfold out, cs, pre. rewrite chunks_bytes_app, chunks_bytes_cons. unfold ck_bytes, written, p.
    cbn [ck_id ck_size ck_payload]. rewrite <- !app_assoc. cbn [app]. by rewrite <- ?app_assoc. }
  assert (Hpre : 8 + len (chunks_bytes cs1) + 1 + len (write_u32 (u32 (len p))) = len pre).
  { unfold pre. rewrite !len_app. change (len wasm_header) with 8. change (len [SECTION_CODE]) with 1. lia. }
  eexists. split.
  - eapply (function_bodies_spec out _ (section_at (8 + len (chunks_bytes cs1)) (written SECTION_CODE p))
      cnt (bc_written <$> vs)).
    + by apply find_code_app_written.
    + unfold section_at. simpl. pose proof (len_nonneg pre). lia.
    + by apply (module_payload wasm_header cs1 (written SECTION_CODE p) cs2).
    + split; [unfold len; rewrite length_fmap; by rewrite Hcnt|].
      by apply bcs_written_ok.
    + unfold section_at. simpl. rewrite Hpre. rewrite Hout, !len_app in Hlen. rewrite len_app.
      pose proof (len_nonneg (chunks_bytes cs2)). lia.
  - unfold section_at. simpl sp_offset. rewrite Hpre, <- len_app, Hout. rewrite Hout in Hlen.
    by apply bodies_at_mapM.
Qed.

(** ** Properties *)

(** A module no pass has touched serialises to its input: for every file under
    4 GiB that [MutModule::new] accepts, [serialize] returns the same bytes. *)
Theorem untouched_serialize input m :
  len input < 2 ^ 32 -> mm_new input = Ret (Ok m) -> serialize m = Ret input.
Proof.
  intros Hlen H. destruct (mm_new_inv _ _ Hlen H) as [cs Hi].
  pose proof (inv_sections _ _ _ Hi) as Hs. pose proof (inv_tiles _ _ _ Hi) as ->.
  unfold mm_new in H. destruct (parse _) as [[w|]|]; [|done..].
  outcome_inv. cbn [mm_sections] in Hs.
  erewrite serialize_spec; [|exact Hi|].
  - cbn [section_overrides section_removed]. rewrite Hs, sections_at_length.
    by rewrite out_chunks_untouched.
  - unfold code_payload_of. cbn [body_overrides].
    by rewrite existsb_replicate.
Qed.

Lemma untouched_serialize_witness : exists m, mm_new sample_module = Ret (Ok m) /\ serialize m = Ret sample_module.
Proof.
  eexists. split; [reflexivity|].
  refine (untouched_serialize sample_module _ _ _); reflexivity.
Defined.

(** C32. Serialisation after any sequence of section rewrites and removals is
    correct for the parser: the output parses, and the parsed sections are
    exactly the sections that were not removed, in order, each with its
    override if it has one and its original payload otherwise. *)
Theorem serialize_contents input m0 m :
  len input < 2 ^ 32 -> mm_new input = Ret (Ok m0) -> rtc mm_step m0 m ->
  existsb is_some (body_overrides m) = false -> overrides_fit m ->
  exists out l, serialize m = Ret out /\ kept_from m 0 (mm_sections m) = Ret l /\
    (len out < 2 ^ 32 -> exists m', parse out = Ret (Ok m') /\ contents out (wm_sections m') = Ret l).
Proof.
  intros Hlen Hn Hr Hbo Hfit. destruct (mm_reach_inv _ _ _ Hlen Hn Hr) as [cs Hi].
  erewrite serialize_spec; [|exact Hi|unfold code_payload_of; by rewrite Hbo].
  destruct Hi as [Hin Ht Hs Hcs _ [Hov Hrm _ _ _]]. subst input.
  rewrite Hs, sections_at_length in Hov, Hrm.
  pose proof (kept_from_spec m [] cs [] (section_overrides m) [] (section_removed m) Hcs Ht Hlen Hs
    eq_refl eq_refl eq_refl eq_refl Hov Hrm) as Hk.
  eexists _, _. split; [done|]. rewrite Hs. split; [exact Hk|]. intros Hout.
  pose proof (out_chunks_ok None _ (section_removed m) _ ltac:(done) Hfit Hcs) as Hok.
  eexists. split; [by apply parse_chunks|]. cbn [wm_sections].
  change 8 with (len wasm_header). by apply contents_chunks.
Qed.

Lemma serialize_contents_witness : exists m0 m m' out l,
  mm_new sample_module = Ret (Ok m0) /\ set_section_payload m0 1 [1; 0] = Ret m /\
  remove_section m 2 = Ret m' /\ serialize m' = Ret out /\
  kept_from m' 0 (mm_sections m') = Ret l.
Proof.
  assert (H : exists m0 m m', mm_new sample_module = Ret (Ok m0) /\
    set_section_payload m0 1 [1; 0] = Ret m /\ remove_section m 2 = Ret m' /\
    existsb is_some (body_overrides m') = false /\
    section_overrides m' = [None; Some [1; 0]; None; None])
    by (do 3 eexists; repeat split).
  destruct H as (m0 & m & m' & H0 & H1 & H2 & Hb & Ho).
  destruct (serialize_contents sample_module m0 m') as (out & l & Hs & Hk & _).
  - reflexivity.
  - exact H0.
  - eapply rtc_l; [eapply step_set_section_payload; exact H1|].
    eapply rtc_l; [eapply step_remove_section; exact H2|]. apply rtc_refl.
  - exact Hb.
  - unfold overrides_fit. rewrite Ho. repeat constructor; by intros ? [= <-].
  - exists m0, m, m', out, l. auto.
Defined.

(** Serialisation after body rewrites is correct for the parser: provided the
    code section is kept, the output parses and its function bodies are, one
    by one, the current bodies: the override where a pass set one, the original
    bytes elsewhere. *)
Theorem serialize_bodies input m0 m vs i c :
  len input < 2 ^ 32 -> mm_new input = Ret (Ok m0) -> rtc mm_step m0 m ->
  existsb is_some (body_overrides m) = true -> overrides_fit m ->
  current_bodies m vs -> Forall (fun v => len v < 2 ^ 32) vs -> len vs < 2 ^ 32 ->
  mm_sections m !! i = Some c -> sec_id c = SECTION_CODE -> section_removed m !! i = Some false ->
  exists out, serialize m = Ret out /\
    (len out < 2 ^ 32 -> exists m' bodies,
      parse out = Ret (Ok m') /\ parse_function_bodies m' = Ret bodies /\
      mapM (fun b => span_slice (fb_body b) out) bodies = Ret vs).
Proof.
  intros Hlen Hn Hr Hbo Hfit Hcur Hvs Hnum Hci Hcid Hrmi.
  destruct (mm_reach_inv _ _ _ Hlen Hn Hr) as [cs Hi]. pose proof (inv_wf _ _ _ Hi) as Hwf.
  destruct (build_code_section_spec _ _ Hwf Hcur Hnum) as (cnt & Hp & Hcnt).
  erewrite serialize_spec; [|exact Hi|unfold code_payload_of; rewrite Hbo, Hp; reflexivity].
  destruct Hi as [Hin Ht Hs Hcs _ [Hov Hrm _ _ _]]. subst input.
  rewrite Hs, sections_at_length in Hov, Hrm.
  rewrite Hs in Hci. apply sections_at_lookup in Hci as (cs1 & ck & cs2 & -> & <- & ->).
  destruct (out_chunks_code (cnt ++ bcs_bytes (bc_written <$> vs)) _ _ _ Hov Hrm) as (os1 & os2 & Ho & Hn1).
  { exists (length cs1), ck. by rewrite list_lookup_middle. }
  eexists. split; [done|]. intros Hout.
  assert (Hok : Forall chunk_ok (out_chunks (Some (cnt ++ bcs_bytes (bc_written <$> vs)))
    (section_overrides m) (section_removed m) (cs1 ++ ck :: cs2))).
  { apply out_chunks_ok; [|done..]. intros p [= <-]. revert Hout. rewrite Ho.
    rewrite chunks_bytes_app, chunks_bytes_cons, !len_app. rewrite len_ck_bytes. simpl ck_payload.
    rewrite len_app. unfold len. lia. }
  eexists. rewrite Ho in *.
  destruct (reparse_bodies os1 os2 cnt vs Hn1 Hok Hvs Hcnt Hout) as (bodies & Hb & Hm).
  exists bodies. split; [by apply parse_chunks|]. done.
Qed.

Lemma serialize_bodies_witness : exists m0 m out,
  mm_new sample_module = Ret (Ok m0) /\ set_body m0 0 [0; 0x01; 0x0B] = Ret m /\
  serialize m = Ret out /\
  exists m' bodies, parse out = Ret (Ok m') /\ parse_function_bodies m' = Ret bodies /\
    mapM (fun b => span_slice (fb_body b) out) bodies = Ret [[0; 0x01; 0x0B]].
Proof.
  assert (H : exists m0 m, mm_new sample_module = Ret (Ok m0) /\
    set_body m0 0 [0; 0x01; 0x0B] = Ret m /\
    existsb is_some (body_overrides m) = true /\
    section_overrides m = [None; None; None; None] /\ section_removed m !! 3%nat = Some false /\
    length (mm_bodies m) = 1%nat /\ body_bytes m 0 = Ret [0; 0x01; 0x0B] /\
    (sec_id <$> mm_sections m !! 3%nat) = Some SECTION_CODE /\
    exists out, serialize m = Ret out /\ len out < 2 ^ 32)
    by (do 2 eexists; repeat split; eexists; split; [reflexivity|done]).
  destruct H as (m0 & m & H0 & H1 & Hb & Ho & Hr & Hl & Hbb & Hid & out & Hs & Hout).
  apply fmap_Some in Hid as (c & Hc & Hid).
  destruct (serialize_bodies sample_module m0 m [[0; 0x01; 0x0B]] 3 c) as (out' & Hs' & Hp).
  - reflexivity.
  - exact H0.
  - eapply rtc_l; [eapply step_set_body; exact H1|apply rtc_refl].
  - exact Hb.
  - unfold overrides_fit. rewrite Ho. repeat constructor; by intros ? [=].
  - split; [by rewrite Hl|]. intros [|i] v Hi; [by injection Hi as <-|done].
  - repeat constructor.
  - reflexivity.
  - exact Hc.
  - by rewrite Hid.
  - exact Hr.
  - exists m0, m, out. rewrite Hs in Hs'. injection Hs' as <-. auto.
Defined.

(** Losing the edit track is final: after an untracked [set_body], no sequence
    of later operations makes the provenance edits of that body visible again. *)
Theorem tracking_lost_final m m1 m2 i bs :
  mm_wf m -> set_body m i bs = Ret m1 -> rtc mm_step m1 m2 ->
  has_edit_track m2 i = Ret false /\ body_edits m2 i = Ret None.
Proof.
  intros Hwf Hset Hr.
  assert (Hl : get (tracking_lost m1) i = Some true).
  { unfold set_body in Hset. outcome_inv. simpl.
    match goal with E : store (tracking_lost m) _ _ = _ |- _ => rewrite (store_get _ _ _ _ i E) end.
    by rewrite Z.eqb_refl. }
  assert (Hl2 : get (tracking_lost m2) i = Some true)
    by (clear Hset; induction Hr; eauto using mm_step_lost).
  unfold body_edits, has_edit_track, index. by rewrite Hl2.
Qed.

Lemma tracking_lost_final_witness : exists m m1 m2,
  mm_new sample_module = Ret (Ok m) /\ set_body m 0 [0; 0x0B] = Ret m1 /\
  set_body_with_edits m1 0 [0; 0x0B] (from_edits [edit_delete 1 1 1]) = Ret m2 /\
  body_edits m2 0 = Ret None.
Proof.
  assert (H : exists m m1 m2, mm_new sample_module = Ret (Ok m) /\
    set_body m 0 [0; 0x0B] = Ret m1 /\
    set_body_with_edits m1 0 [0; 0x0B] (from_edits [edit_delete 1 1 1]) = Ret m2)
    by (do 3 eexists; repeat split).
  destruct H as (m & m1 & m2 & H0 & H1 & H2). exists m, m1, m2. split_and!; [done..|].
  refine (proj2 (tracking_lost_final m m1 m2 0 [0; 0x0B] (mm_new_wf _ _ H0) H1 _)).
  eapply rtc_l; [eapply step_set_body_with_edits; exact H2|apply rtc_refl].
Defined.

(** A tracked rewrite stores the new bytes, composes the pass's edits onto the
    ones already recorded, and leaves every other body alone. *)
Theorem set_body_with_edits_spec m i bs e m' :
  mm_wf m -> get (tracking_lost m) i = Some false -> set_body_with_edits m i bs e = Ret m' ->
  body_bytes m' i = Ret bs /\
  (exists prev next, body_edits m i = Ret prev /\ body_edits m' i = Ret (Some next) /\
     (match prev with Some prev => compose prev e | None => Ret e end) = Ret next) /\
  forall j, j <> i -> body_bytes m' j = body_bytes m j /\ body_edits m' j = body_edits m j.
Proof.
  intros Hwf Hl Hset. unfold set_body_with_edits in Hset.
  replace (index (tracking_lost m) i) with (Ret false) in Hset by (unfold index; by rewrite Hl).
  destruct (store (body_overrides m) i (Some bs)) as [bo|] eqn:Ebo; [|done].
  cbn [mbind outcome_bind] in Hset.
  destruct (index (mm_body_edits m) i) as [prev|] eqn:Eprev; [|done]. cbn [mbind outcome_bind] in Hset.
  destruct (match prev with Some _ => _ | None => _ end) as [next|] eqn:Enext; [|done].
  cbn [mbind outcome_bind] in Hset.
  destruct (store (mm_body_edits m) i (Some next)) as [be|] eqn:Ebe; [|done]. injection Hset as <-.
  unfold body_bytes, body_edits, has_edit_track, index; simpl.
  split; [by rewrite (store_get _ _ _ _ i Ebo), Z.eqb_refl|]. split.
  - exists prev, next. rewrite Hl. simpl. rewrite (store_get _ _ _ _ i Ebe), Z.eqb_refl.
    unfold index in Eprev. auto.
  - intros j Hj. rewrite (store_get _ _ _ _ j Ebo), (store_get _ _ _ _ j Ebe).
    replace (i =? j) with false by lia. done.
Qed.

Lemma set_body_with_edits_spec_witness : exists m m1,
  mm_new sample_module = Ret (Ok m) /\
  set_body_with_edits m 0 [0; 0x01; 0x0B] (from_edits [edit_synth 1 1 1]) = Ret m1 /\
  body_bytes m1 0 = Ret [0; 0x01; 0x0B].
Proof.
  assert (H : exists m m1, mm_new sample_module = Ret (Ok m) /\
    set_body_with_edits m 0 [0; 0x01; 0x0B] (from_edits [edit_synth 1 1 1]) = Ret m1 /\
    get (tracking_lost m) 0 = Some false) by (do 2 eexists; repeat split).
  destruct H as (m & m1 & H0 & H1 & Hl). exists m, m1. split_and!; [done..|].
  exact (proj1 (set_body_with_edits_spec m 0 _ _ m1 (mm_new_wf _ _ H0) Hl H1)).
Defined.

(** [compute_facts] indexes past a truncated import section: when an entry's
    last bytes are cut off (the two descriptor bytes of a global, or a length
    that overruns) and another entry is expected, the next [&p[off..]] is out of
    range and building the [MutModule] panics. *)
Theorem import_overrun_panics input sections sec p count off off' f :
  find_id SECTION_IMPORT sections = Some sec -> span_slice (sec_payload sec) input = Ret p ->
  read_u32 p = Some (count, off) -> 2 <= count ->
  import_entry p off = Ret (Some (off', f)) -> len p < off' ->
  compute_facts input sections = Panic.
Proof.
  intros Hf Hs Hc Hn He Ho. unfold compute_facts. rewrite Hf, Hs. cbn [mbind outcome_bind].
  rewrite Hc. pose proof (read_u32_bounds _ _ _ Hc) as (_ & ? & ?).
  destruct (length p) as [|n] eqn:Hl; [unfold len in *; lia|].
  cbn [count_imports]. replace (count <=? 0) with false by lia. rewrite He. cbn [mbind outcome_bind].
  replace (count - 1 <=? 0) with false by lia.
  unfold import_entry, slice_from, get_from. by replace ((0 <=? off') && _) with false by lia.
Qed.

Lemma import_overrun_panics_witness :
  let d := wasm_header ++ [2; 4; 2; 0; 0; 3] in
  exists m, parse d = Ret (Ok m) /\ compute_facts d (wm_sections m) = Panic /\ mm_new d = Panic.
Proof.
  eexists. split; [reflexivity|]. split; [|reflexivity].
  eapply (import_overrun_panics _ _ _ [2; 0; 0; 3] 2 1 6 false); reflexivity || lia.
Defined.
