(* ===== verification/Relaxation.v ===== *)
(** Byte-deletion and padding maps ([linker-utils/src/relaxation.rs]): the list of
    signed adjustments of a section, the two offset translations, the forward
    cursor, and the per-section map.

    Offsets are [u64], cumulative deltas [i64], single deltas [i32]; all
    additions and casts wrap as the code's do in release builds, except the
    [i128] arithmetic of the inverse translation, which cannot overflow. *)
From stdpp Require Import gmap.
From S2P Require Import Prelude.

Inductive RelocationModifier := Normal | SkipNextRelocation.

Record RelaxDelta := mkDelta {
  input_offset : Z;
  cumulative_delta : Z;
  bytes_delta : Z;
}.

(** [SectionDeltas] is its one field, the sorted vector. *)
Abbreviation SectionDeltas := (list RelaxDelta).

Fixpoint new_loop (running : Z) (raw : list (Z * Z)) : SectionDeltas :=
  match raw with
  | [] => []
  | (off, b) :: raw =>
      let running := i64 (running + b) in
      mkDelta off running b :: new_loop running raw
  end.

Definition sd_new (raw : list (Z * Z)) : SectionDeltas := new_loop 0 raw.

Definition total_delta (ds : SectionDeltas) : Z :=
  match last ds with Some d => cumulative_delta d | None => 0 end.

(** [Vec::sort_by_key] is a stable sort: insertion after equal keys. *)
Fixpoint sort_insert (x : Z * Z) (l : list (Z * Z)) : list (Z * Z) :=
  match l with
  | [] => [x]
  | y :: l' => if fst x <? fst y then x :: l else y :: sort_insert x l'
  end.
Definition sort_by_offset (l : list (Z * Z)) : list (Z * Z) := foldl (fun acc x => sort_insert x acc) [] l.

Definition raw_of (ds : SectionDeltas) : list (Z * Z) :=
  (fun d => (input_offset d, bytes_delta d)) <$> ds.

Definition merge_additional (ds : SectionDeltas) (additional : list (Z * Z)) : SectionDeltas :=
  match additional with
  | [] => ds
  | _ => sd_new (sort_by_offset (raw_of ds ++ additional))
  end.

(** [binary_search_by_key(&offset, |d| d.input_offset)]. *)
Definition search_offset (ds : SectionDeltas) (offset : Z) : outcome (nat + nat) :=
  binary_search_by (fun d => input_offset d ?= offset) ds.

Definition has_delta_at (ds : SectionDeltas) (offset : Z) : outcome bool :=
  r ← search_offset ds offset; Ret (match r with inl _ => true | inr _ => false end).

Definition delta_at (ds : SectionDeltas) (offset : Z) : outcome Z :=
  r ← search_offset ds offset;
  match r with
  | inl i => d ← index ds (Z.of_nat i); Ret (bytes_delta d)
  | inr _ => Ret 0
  end.

(** The entry at [d] moves a query for [offset]: strictly before it, or at it
    when the entry is an insertion. *)
Definition moves (offset : Z) (d : RelaxDelta) : bool :=
  (input_offset d <? offset) || ((input_offset d =? offset) && (bytes_delta d <? 0)).

Definition input_to_output_offset (ds : SectionDeltas) (offset : Z) : outcome Z :=
  match ds with
  | [] => Ret offset
  | _ =>
      idx ← partition_point (moves offset) ds;
      if (idx =? 0)%nat then Ret offset
      else d ← index ds (Z.of_nat idx - 1); Ret (u64 (offset - u64 (cumulative_delta d)))
  end.

(** Output position from which the entry is in effect ([i128] arithmetic). *)
Definition boundary (d : RelaxDelta) : Z := input_offset d + bytes_delta d - cumulative_delta d.

Definition output_to_input_offset (ds : SectionDeltas) (offset : Z) : outcome Z :=
  match ds with
  | [] => Ret offset
  | _ =>
      lo ← partition_point (fun d => boundary d <=? offset) ds;
      if (lo =? 0)%nat then Ret offset
      else d ← index ds (Z.of_nat lo - 1); Ret (u64 (offset + u64 (cumulative_delta d)))
  end.

Record RelaxCursor := mkCursor { rc_index : Z; current_cumulative : Z }.

Definition cursor : RelaxCursor := mkCursor 0 0.

(** The [while] of [translate], over the entries from [index] on. *)
Fixpoint translate_loop (offset : Z) (rest : list RelaxDelta) (c : RelaxCursor) : RelaxCursor :=
  match rest with
  | [] => c
  | d :: rest =>
      if moves offset d then translate_loop offset rest (mkCursor (rc_index c + 1) (cumulative_delta d))
      else c
  end.

Definition translate (ds : SectionDeltas) (c : RelaxCursor) (offset : Z) : Z * RelaxCursor :=
  let c := translate_loop offset (drop (Z.to_nat (rc_index c)) ds) c in
  (u64 (offset - u64 (current_cumulative c)), c).

Definition opt_input_to_output (ds : option SectionDeltas) (offset : Z) : outcome Z :=
  match ds with Some d => input_to_output_offset d offset | None => Ret offset end.

(** ** The per-section map *)

Abbreviation SectionDeltaMap := (list (Z * SectionDeltas)).

Definition dm_insert (m : SectionDeltaMap) (section_index : Z) (d : SectionDeltas) : SectionDeltaMap :=
  m ++ [(section_index, d)].

Definition dm_get (m : SectionDeltaMap) (section_index : Z) : outcome (option SectionDeltas) :=
  r ← binary_search_by (fun e => fst e ?= section_index) m;
  match r with
  | inl i => e ← index m (Z.of_nat i); Ret (Some (snd e))
  | inr _ => Ret None
  end.

(** [get_mut] followed by a write of [f] of the entry. *)
Definition dm_update (m : SectionDeltaMap) (section_index : Z) (f : SectionDeltas -> SectionDeltas)
  : outcome (option SectionDeltaMap) :=
  r ← binary_search_by (fun e => fst e ?= section_index) m;
  match r with
  | inl i =>
      e ← index m (Z.of_nat i);
      m' ← store m (Z.of_nat i) (fst e, f (snd e)); Ret (Some m')
  | inr _ => Ret None
  end.

Definition insert_sorted (m : SectionDeltaMap) (section_index : Z) (d : SectionDeltas)
  : outcome SectionDeltaMap :=
  pos ← partition_point (fun e => fst e <? section_index) m;
  Ret (take pos m ++ (section_index, d) :: drop pos m).

Example insertion_at_anchor :
  input_to_output_offset (sd_new [(10, 4); (20, -8)]) 20 = Ret 24.
Proof. reflexivity. Qed.
Example round_trip_after_deletion :
  output_to_input_offset (sd_new [(20, 4)]) 26 = Ret 30.
Proof. reflexivity. Qed.

(** ** Sums of adjustments *)

Definition sum_deltas (raw : list (Z * Z)) : Z := foldr (fun p acc => snd p + acc) 0 raw.

Definition run (r : Z) (raw : list (Z * Z)) : Z := foldl (fun r p => i64 (r + snd p)) r raw.

Lemma sum_deltas_app r1 r2 : sum_deltas (r1 ++ r2) = sum_deltas r1 + sum_deltas r2.
Proof. induction r1; simpl; lia. Qed.

Lemma run_sum raw : forall a, run (i64 a) raw = i64 (a + sum_deltas raw).
Proof.
  induction raw as [|[x b] raw IH]; intros a; simpl.
  - by rewrite Z.add_0_r.
  - unfold run in *. simpl. rewrite sext_add by lia. rewrite IH. f_equal. lia.
Qed.

Lemma run_0 raw : run 0 raw = i64 (sum_deltas raw).
Proof. apply (run_sum raw 0). Qed.

Lemma new_loop_app r raw1 raw2 :
  new_loop r (raw1 ++ raw2) = new_loop r raw1 ++ new_loop (run r raw1) raw2.
Proof.
  revert r. induction raw1 as [|[x b] raw1 IH]; intros r; simpl; [done|]. by rewrite IH.
Qed.

Lemma new_loop_length r raw : length (new_loop r raw) = length raw.
Proof. revert r. induction raw as [|[x b] raw IH]; intros; simpl; auto. Qed.

Lemma new_loop_last r raw x b :
  last (new_loop r (raw ++ [(x, b)])) = Some (mkDelta x (run r (raw ++ [(x, b)])) b).
Proof. rewrite new_loop_app. unfold run. rewrite foldl_app. simpl. by rewrite last_snoc. Qed.

(** A predicate on entries that only looks at offset and amount. *)
Definition moves_raw (offset : Z) (p : Z * Z) : bool :=
  (fst p <? offset) || ((fst p =? offset) && (snd p <? 0)).

Lemma new_loop_Forall (P : RelaxDelta -> Prop) (Q : Z * Z -> Prop) r raw :
  (forall x c b, Q (x, b) -> P (mkDelta x c b)) -> Forall Q raw -> Forall P (new_loop r raw).
Proof.
  intros HPQ H. revert r. induction H as [|[x b] raw Hx _ IH]; intros r; simpl; constructor; auto.
Qed.

Abbreviation raw_sorted := (StronglySorted (fun p q : Z * Z => fst p < fst q)).

(** The adjustments that apply to a query, in the reference definition. *)
Definition applied_delta (raw : list (Z * Z)) (offset : Z) : Z :=
  foldr (fun p acc => (if moves_raw offset p then snd p else 0) + acc) 0 raw.

Lemma moves_cut raw offset : raw_sorted raw ->
  exists r1 r2, raw = r1 ++ r2 /\ Forall (fun p => moves_raw offset p = true) r1 /\
    Forall (fun p => moves_raw offset p = false) r2 /\ applied_delta raw offset = sum_deltas r1.
Proof.
  intros Hs. destruct (sorted_cut _ (moves_raw offset) raw Hs) as (r1 & r2 & -> & H1 & H2).
  { unfold moves_raw. intros [x b] [y c]; simpl. lia. }
  exists r1, r2. split_and!; [done..|]. clear Hs. unfold applied_delta.
  induction H1 as [|p r1 Hp _ IH]; simpl; [|by rewrite Hp, IH].
  induction H2 as [|p r2 Hp _ IH]; simpl; [done|]. by rewrite Hp, IH.
Qed.

Lemma new_loop_cut r r1 r2 offset :
  Forall (fun p => moves_raw offset p = true) r1 ->
  Forall (fun p => moves_raw offset p = false) r2 ->
  Forall (fun d => moves offset d = true) (new_loop r r1) /\
  Forall (fun d => moves offset d = false) (new_loop (run r r1) r2).
Proof. intros H1 H2. split; eapply new_loop_Forall; [|exact H1| |exact H2]; done. Qed.

(** The translation reads the cumulative delta of the last entry that moves the
    query; with a counted prefix this is the sum of the prefix. *)
Lemma index_last_cumulative r1 r2 (f : Z -> Z) : r1 <> [] ->
  (d ← index (new_loop 0 r1 ++ new_loop (run 0 r1) r2) (Z.of_nat (length r1) - 1);
   Ret (f (cumulative_delta d))) = Ret (f (i64 (sum_deltas r1))).
Proof.
  intros Hne. destruct (exists_last Hne) as (r & [x b] & ->).
  rewrite (new_loop_app 0 r), <- app_assoc. simpl app.
  replace (Z.of_nat (length (r ++ [(x, b)])) - 1) with (len (new_loop 0 r))
    by (unfold len; rewrite new_loop_length, length_app; simpl; lia).
  rewrite index_app_cons by done. cbn [mbind outcome_bind cumulative_delta].
  rewrite run_0, sext_add, sum_deltas_app by lia. simpl. by rewrite Z.add_0_r.
Qed.

Lemma partition_new_loop p r1 r2 :
  Forall (fun d => p d = true) (new_loop 0 r1) ->
  Forall (fun d => p d = false) (new_loop (run 0 r1) r2) ->
  partition_point p (new_loop 0 r1 ++ new_loop (run 0 r1) r2) = Ret (length r1).
Proof. intros H1 H2. by rewrite partition_point_spec, new_loop_length by done. Qed.

Lemma input_to_output_cut r1 r2 offset : is_uint 64 offset ->
  Forall (fun p => moves_raw offset p = true) r1 ->
  Forall (fun p => moves_raw offset p = false) r2 ->
  input_to_output_offset (sd_new (r1 ++ r2)) offset = Ret (u64 (offset - sum_deltas r1)).
Proof.
  intros Ho H1 H2. unfold input_to_output_offset, sd_new.
  destruct (new_loop_cut 0 r1 r2 offset H1 H2) as [P1 P2].
  assert (Hid : u64 offset = offset) by (by apply wrap_id).
  destruct (new_loop 0 (r1 ++ r2)) as [|d ds] eqn:E.
  - rewrite new_loop_app in E. apply app_eq_nil in E as [E _].
    destruct r1 as [|[? ?] ?]; [|done]. simpl. by rewrite Z.sub_0_r, Hid.
  - rewrite <- E, new_loop_app. rewrite partition_new_loop by done. cbn [mbind outcome_bind].
    destruct (decide (r1 = [])) as [->|Hne]; [simpl; by rewrite Z.sub_0_r, Hid|].
    replace (_ =? 0)%nat with false by (destruct r1; [done|simpl; lia]).
    rewrite (index_last_cumulative r1 r2 (fun c => u64 (offset - u64 c))) by done.
    by rewrite wrap_sub_sext.
Qed.

(** ** Well-formed adjustment lists

    Entries are in ascending order, no entry is empty, and no deletion reaches
    the next entry. *)

Fixpoint wf_raw (lo : Z) (raw : list (Z * Z)) : Prop :=
  match raw with
  | [] => True
  | (x, b) :: raw => lo <= x /\ b <> 0 /\ wf_raw (x + Z.max 1 b) raw
  end.

(** [offset] is not strictly inside a deleted range; [kept]: it is not one of the
    deleted bytes. *)
Definition not_inside (raw : list (Z * Z)) (offset : Z) : Prop :=
  Forall (fun '(x, b) => ~ (x < offset < x + b)) raw.
Definition kept (raw : list (Z * Z)) (offset : Z) : Prop :=
  Forall (fun '(x, b) => ~ (x <= offset < x + b)) raw.

(** No sum of the amounts overflows at this offset. *)
Definition sum_abs (raw : list (Z * Z)) : Z := foldr (fun p acc => Z.abs (snd p) + acc) 0 raw.
Definition fits (raw : list (Z * Z)) (offset : Z) : Prop :=
  sum_abs raw < 2 ^ 63 /\ offset + sum_abs raw < 2 ^ 64.

Lemma kept_not_inside raw offset : kept raw offset -> not_inside raw offset.
Proof. intros H. eapply Forall_impl; [exact H|]. intros [x b]. lia. Qed.

Lemma sum_abs_app r1 r2 : sum_abs (r1 ++ r2) = sum_abs r1 + sum_abs r2.
Proof. induction r1; simpl; lia. Qed.

Lemma sum_abs_bound raw : Z.abs (sum_deltas raw) <= sum_abs raw.
Proof. induction raw as [|[x b] raw IH]; simpl; lia. Qed.

Lemma wf_raw_weaken lo lo' raw : lo' <= lo -> wf_raw lo raw -> wf_raw lo' raw.
Proof. destruct raw as [|[x b] raw]; simpl; [done|]. intros ? (? & ? & ?). split_and!; [lia|done..]. Qed.

Lemma wf_raw_above lo raw : wf_raw lo raw -> Forall (fun p => lo <= fst p) raw.
Proof.
  revert lo. induction raw as [|[x b] raw IH]; intros lo; simpl; [constructor|].
  intros (? & ? & H). constructor; [done|]. apply IH in H.
  eapply Forall_impl; [exact H|]. intros [y c]; simpl. lia.
Qed.

Lemma wf_raw_sorted lo raw : wf_raw lo raw -> raw_sorted raw.
Proof.
  revert lo. induction raw as [|[x b] raw IH]; intros lo; simpl; [constructor|].
  intros (? & ? & H). constructor; [by eapply IH|]. apply wf_raw_above in H.
  eapply Forall_impl; [exact H|]. intros [y c]; simpl. lia.
Qed.

Lemma wf_raw_app lo r1 r2 : wf_raw lo (r1 ++ r2) -> wf_raw lo r1 /\ exists lo', lo <= lo' /\ wf_raw lo' r2.
Proof.
  revert lo. induction r1 as [|[x b] r1 IH]; intros lo; simpl.
  - intros H. split; [done|]. exists lo. split; [lia|done].
  - intros (? & ? & (H1 & lo' & ? & H2)%IH). split_and!; try done. exists lo'. split; [lia|done].
Qed.

(** The entries moving [offset] delete at most the distance to the first one. *)
Lemma moved_sum lo raw offset : wf_raw lo raw -> not_inside raw offset ->
  Forall (fun p => moves_raw offset p = true) raw -> raw <> [] ->
  exists x b r, raw = (x, b) :: r /\ sum_deltas raw <= offset - x.
Proof.
  revert lo. induction raw as [|[x b] raw IH]; intros lo Hwf Hin Hmv Hne; [done|].
  exists x, b, raw. split; [done|]. simpl in Hwf. destruct Hwf as (? & ? & Hwf).
  apply Forall_cons in Hin as [Hx Hin]. apply Forall_cons in Hmv as [Hm Hmv].
  unfold moves_raw in Hm; simpl in Hm. cbn [sum_deltas foldr snd].
  destruct (decide (raw = [])) as [->|Hne'].
  - simpl. lia.
  - destruct (IH _ Hwf Hin Hmv Hne') as (y & c & r & -> & Hs).
    apply wf_raw_above, Forall_cons in Hwf as [Hy _]. simpl in Hy.
    cbn [sum_deltas foldr snd] in Hs. simpl. simpl in Hs. lia.
Qed.

Lemma moved_sum_le lo raw offset : 0 <= lo <= offset -> wf_raw lo raw -> not_inside raw offset ->
  Forall (fun p => moves_raw offset p = true) raw -> sum_deltas raw <= offset - lo.
Proof.
  intros Hlo Hwf Hin Hmv. destruct (decide (raw = [])) as [->|Hne]; [simpl; lia|].
  destruct (moved_sum _ _ _ Hwf Hin Hmv Hne) as (x & b & r & -> & Hs).
  apply wf_raw_above, Forall_cons in Hwf as [Hx _]. simpl in Hx. lia.
Qed.

(** Where the translation lands, without wrap-around. *)
Lemma translation_exact raw offset : 0 <= offset -> wf_raw 0 raw -> not_inside raw offset ->
  fits raw offset ->
  exists r1 r2, raw = r1 ++ r2 /\ Forall (fun p => moves_raw offset p = true) r1 /\
    Forall (fun p => moves_raw offset p = false) r2 /\
    input_to_output_offset (sd_new raw) offset = Ret (offset - sum_deltas r1) /\
    is_uint 64 (offset - sum_deltas r1).
Proof.
  intros Ho Hwf Hin [Hf1 Hf2]. pose proof (wf_raw_sorted _ _ Hwf) as Hs.
  destruct (moves_cut _ offset Hs) as (r1 & r2 & -> & H1 & H2 & _).
  apply Forall_app in Hin as [Hin1 _]. pose proof (wf_raw_app _ _ _ Hwf) as [Hwf1 _].
  pose proof (moved_sum_le 0 _ offset ltac:(lia) Hwf1 Hin1 H1).
  rewrite sum_abs_app in *. pose proof (sum_abs_bound r1).
  assert (0 <= sum_abs r2) by (pose proof (sum_abs_bound r2); lia).
  assert (Hu : is_uint 64 (offset - sum_deltas r1)) by (unfold is_uint; lia).
  exists r1, r2. split_and!; [done..| |done].
  rewrite input_to_output_cut by (try done; unfold is_uint; lia). by rewrite wrap_id.
Qed.

(** Boundaries: entries that moved [offset] are visible at its image, the others
    are not. *)
Lemma boundary_before r lo raw offset : wf_raw lo raw -> not_inside raw offset ->
  Forall (fun p => moves_raw offset p = true) raw -> Z.abs r + sum_abs raw < 2 ^ 63 ->
  Forall (fun d => (boundary d <=? offset - (r + sum_deltas raw)) = true) (new_loop r raw).
Proof.
  revert r lo. induction raw as [|[x b] raw IH]; intros r lo Hwf Hin Hmv Hf; simpl; [constructor|].
  destruct (moved_sum _ _ _ Hwf Hin Hmv ltac:(done)) as (x' & b' & r' & [= <- <- <-] & Hs).
  simpl in Hs, Hf. assert (0 <= sum_abs raw) by (pose proof (sum_abs_bound raw); lia).
  rewrite sext_id by (unfold is_sint; lia).
  constructor.
  - unfold boundary; simpl. lia.
  - simpl in Hwf. destruct Hwf as (_ & _ & Hwf). apply Forall_cons in Hin as [_ Hin].
    apply Forall_cons in Hmv as [_ Hmv].
    eapply Forall_impl; [apply (IH (r + b) _ Hwf Hin Hmv); lia|]. intros d. cbv beta. lia.
Qed.

Lemma boundary_after r lo raw offset : wf_raw lo raw -> offset < lo -> Z.abs r + sum_abs raw < 2 ^ 63 ->
  Forall (fun d => (boundary d <=? offset - r) = false) (new_loop r raw).
Proof.
  revert r lo offset. induction raw as [|[x b] raw IH]; intros r lo offset Hwf Hlo Hf; simpl; [constructor|].
  simpl in Hwf, Hf. destruct Hwf as (? & ? & Hwf).
  assert (0 <= sum_abs raw) by (pose proof (sum_abs_bound raw); lia).
  rewrite sext_id by (unfold is_sint; lia). constructor.
  - unfold boundary; simpl. lia.
  - eapply Forall_impl; [apply (IH (r + b) _ (offset + b) Hwf); lia|]. intros d. cbv beta. lia.
Qed.

Lemma not_moved_above lo raw offset : wf_raw lo raw -> kept raw offset ->
  Forall (fun p => moves_raw offset p = false) raw -> exists lo', offset < lo' /\ wf_raw lo' raw.
Proof.
  destruct raw as [|[x b] raw]; intros Hwf Hk Hm.
  - exists (offset + 1). split; [lia|done].
  - exists x. apply Forall_cons in Hk as [Hx _]. apply Forall_cons in Hm as [Hm _].
    unfold moves_raw in Hm; simpl in *.
    destruct Hwf as (_ & ? & ?). split_and!; try done; lia.
Qed.

Lemma output_to_input_cut r1 r2 out :
  Forall (fun d => (boundary d <=? out) = true) (new_loop 0 r1) ->
  Forall (fun d => (boundary d <=? out) = false) (new_loop (run 0 r1) r2) ->
  is_uint 64 out -> output_to_input_offset (sd_new (r1 ++ r2)) out = Ret (u64 (out + sum_deltas r1)).
Proof.
  intros P1 P2 Ho. unfold output_to_input_offset, sd_new.
  assert (Hid : u64 out = out) by (by apply wrap_id).
  destruct (new_loop 0 (r1 ++ r2)) as [|d ds] eqn:E.
  - rewrite new_loop_app in E. apply app_eq_nil in E as [E _].
    destruct r1 as [|[? ?] ?]; [|done]. simpl. by rewrite Z.add_0_r, Hid.
  - rewrite <- E, new_loop_app.
    rewrite (partition_new_loop (fun d => boundary d <=? out)) by done. cbn [mbind outcome_bind].
    destruct (decide (r1 = [])) as [->|Hne]; [simpl; by rewrite Z.add_0_r, Hid|].
    replace (_ =? 0)%nat with false by (destruct r1; [done|simpl; lia]).
    rewrite (index_last_cumulative r1 r2 (fun c => u64 (out + u64 c))) by done.
    by rewrite wrap_sext, wrap_add_wrap by lia.
Qed.

(** ** The cursor *)

Fixpoint translate_all (ds : SectionDeltas) (c : RelaxCursor) (probes : list Z) : list Z :=
  match probes with
  | [] => []
  | p :: probes => let '(o, c) := translate ds c p in o :: translate_all ds c probes
  end.

Definition cursor_at (r1 : list (Z * Z)) : RelaxCursor := mkCursor (len r1) (run 0 r1).

Lemma translate_loop_spec r1 r2 r3 offset r :
  Forall (fun p => moves_raw offset p = true) r2 ->
  Forall (fun p => moves_raw offset p = false) r3 -> r = run 0 r1 ->
  translate_loop offset (new_loop r (r2 ++ r3)) (mkCursor (len r1) r) = cursor_at (r1 ++ r2).
Proof.
  intros H2 H3 ->. revert r1. induction H2 as [|[x b] r2 Hx _ IH]; intros r1.
  - rewrite app_nil_r. destruct H3 as [|[x b] r3 Hx _]; [done|]. simpl.
    change (moves offset (mkDelta x (i64 (run 0 r1 + b)) b)) with (moves_raw offset (x, b)).
    by rewrite Hx.
  - simpl. change (moves offset (mkDelta x (i64 (run 0 r1 + b)) b)) with (moves_raw offset (x, b)).
    rewrite Hx. specialize (IH (r1 ++ [(x, b)])).
    rewrite <- app_assoc in IH. simpl in IH. rewrite <- IH. unfold run. rewrite foldl_app.
    rewrite len_app. done.
Qed.

Lemma translate_spec r1 r2 r3 offset :
  Forall (fun p => moves_raw offset p = true) r2 ->
  Forall (fun p => moves_raw offset p = false) r3 ->
  translate (sd_new (r1 ++ r2 ++ r3)) (cursor_at r1) offset
    = (u64 (offset - sum_deltas (r1 ++ r2)), cursor_at (r1 ++ r2)).
Proof.
  intros H2 H3. unfold translate, sd_new, cursor_at. cbn [rc_index].
  rewrite new_loop_app.
  replace (drop _ _) with (new_loop (run 0 r1) (r2 ++ r3)).
  2: { rewrite drop_app_length'; [done|]. rewrite new_loop_length. unfold len. lia. }
  rewrite (translate_loop_spec r1 r2 r3) by done. unfold cursor_at. cbn [current_cumulative].
  by rewrite run_0, wrap_sub_sext.
Qed.

Lemma moves_raw_mono offset offset' p : offset <= offset' ->
  moves_raw offset p = true -> moves_raw offset' p = true.
Proof. unfold moves_raw. lia. Qed.

(** The prefix moved by a query extends as the query grows. *)
Lemma moved_prefix lo p r1 r s1 s2 : lo <= p -> r1 ++ r = s1 ++ s2 ->
  Forall (fun q => moves_raw lo q = true) r1 -> Forall (fun q => moves_raw p q = false) s2 ->
  exists r2, s1 = r1 ++ r2 /\ r = r2 ++ s2.
Proof.
  intros Hlp E H1 M2. apply app_eq_inv in E as [(k & -> & ->)|(k & -> & ->)]; [|by exists k].
  destruct k as [|[x b] k]; [exists []; by rewrite !app_nil_r|].
  exfalso. apply Forall_app in H1 as [_ [Hxb _]%Forall_cons]. simpl in M2.
  apply Forall_cons in M2 as [Hxb' _]. by rewrite (moves_raw_mono lo p) in Hxb'.
Qed.

(** From a cursor that has consumed a moved prefix, every ascending run of
    queries is translated as by the direct lookup. *)
Lemma translate_all_spec r1 r probes lo :
  raw_sorted (r1 ++ r) -> Forall (fun p => moves_raw lo p = true) r1 ->
  Forall (is_uint 64) probes -> Forall (fun p => lo <= p) probes -> Sorted Z.le probes ->
  mapM (input_to_output_offset (sd_new (r1 ++ r))) probes
    = Ret (translate_all (sd_new (r1 ++ r)) (cursor_at r1) probes).
Proof.
  intros Hs H1 Hu. revert lo r1 r Hs H1.
  induction Hu as [|p probes Hp Hu IH]; intros lo r1 r Hs H1 Hlo Hso; [done|].
  apply Forall_cons in Hlo as [Hlop Hlo].
  destruct (moves_cut _ p Hs) as (s1 & s2 & E & M1 & M2 & _).
  pose proof (moved_prefix lo p _ _ _ _ Hlop E H1 M2) as Hpre.
  destruct Hpre as (r2 & -> & ->).
  pose proof M1 as [_ M2']%Forall_app.
  cbn [translate_all]. rewrite translate_spec by done.
  cbn [mapM]. rewrite app_assoc in Hs |- *. rewrite input_to_output_cut by done.
  cbn [mbind outcome_bind].
  rewrite (IH p (r1 ++ r2) s2 Hs M1).
  - done.
  - apply Sorted_StronglySorted in Hso; [by inversion_clear Hso|]. intros ? ? ? ? ?. lia.
  - by inversion_clear Hso.
Qed.

(** ** Sorting and merging *)

Lemma sort_insert_perm x l : sort_insert x l ≡ₚ x :: l.
Proof.
  induction l as [|y l IH]; simpl; [done|]. destruct (_ <? _); [done|]. rewrite IH. apply Permutation_swap.
Qed.

Lemma sort_insert_sorted x l : raw_sorted l -> Forall (fun y => fst y <> fst x) l ->
  raw_sorted (sort_insert x l).
Proof.
  intros Hs. induction Hs as [|y l Hs IH Hy]; intros Hne; simpl; [by repeat constructor|].
  apply Forall_cons in Hne as [Hxy Hne]. destruct (Z.ltb_spec (fst x) (fst y)).
  - constructor; [by constructor|]. constructor; [done|].
    eapply Forall_impl; [exact Hy|]. intros z. cbv beta. lia.
  - constructor; [by apply IH|]. rewrite sort_insert_perm. constructor; [lia|done].
Qed.

Lemma sort_foldl_perm l acc : foldl (fun acc x => sort_insert x acc) acc l ≡ₚ acc ++ l.
Proof.
  revert acc. induction l as [|x l IH]; intros acc; simpl; [by rewrite app_nil_r|].
  rewrite IH, sort_insert_perm. apply Permutation_middle.
Qed.

Lemma sort_foldl_sorted l acc : raw_sorted acc -> NoDup (fst <$> acc ++ l) ->
  raw_sorted (foldl (fun acc x => sort_insert x acc) acc l).
Proof.
  revert acc. induction l as [|x l IH]; intros acc Hs Hnd; simpl; [done|].
  apply IH.
  - apply sort_insert_sorted; [done|]. rewrite <- Permutation_middle in Hnd.
    rewrite fmap_cons in Hnd. apply NoDup_cons in Hnd as [Hx _].
    apply Forall_forall. intros y Hy Heq. apply Hx. rewrite <- Heq.
    apply list_elem_of_fmap. exists y. split; [done|]. apply elem_of_app. by left.
  - rewrite sort_insert_perm. simpl. by rewrite <- Permutation_middle in Hnd.
Qed.

Lemma raw_of_new raw : raw_of (sd_new raw) = raw.
Proof.
  unfold sd_new, raw_of. generalize 0. induction raw as [|[x b] raw IH]; intros r; simpl; [done|].
  by rewrite IH.
Qed.

Lemma applied_delta_perm r1 r2 offset : r1 ≡ₚ r2 -> applied_delta r1 offset = applied_delta r2 offset.
Proof.
  unfold applied_delta. induction 1 as [|x l l' _ IH|x y l|l l' l'' _ IH1 _ IH2]; simpl; lia.
Qed.

Lemma applied_delta_app r1 r2 offset :
  applied_delta (r1 ++ r2) offset = applied_delta r1 offset + applied_delta r2 offset.
Proof. unfold applied_delta. induction r1; simpl; lia. Qed.

Lemma input_to_output_applied raw offset : raw_sorted raw -> is_uint 64 offset ->
  input_to_output_offset (sd_new raw) offset = Ret (u64 (offset - applied_delta raw offset)).
Proof.
  intros Hs Ho. destruct (moves_cut _ offset Hs) as (r1 & r2 & -> & H1 & H2 & ->).
  by apply input_to_output_cut.
Qed.

(** ** The per-section map refines a finite map *)

Abbreviation keys_sorted := (StronglySorted (fun e f : Z * SectionDeltas => fst e < fst f)).

Definition dm_model (m : SectionDeltaMap) : gmap Z SectionDeltas := list_to_map m.

Lemma key_cut {B} (m : list (Z * B)) k :
  StronglySorted (fun e f => fst e < fst f) m ->
  exists l1 l2, Forall (fun e => fst e < k) l1 /\ Forall (fun e => k < fst e) l2 /\
    (m = l1 ++ l2 \/ exists d, m = l1 ++ (k, d) :: l2).
Proof.
  intros Hs. induction Hs as [|[j d] m Hs IH Hj]; [exists [], []; auto|]. simpl in Hj.
  destruct (Z.lt_trichotomy j k) as [Hlt|[->|Hgt]].
  - destruct IH as (l1 & l2 & H1 & H2 & [->|[e ->]]); exists ((j, d) :: l1), l2;
      (split_and!; [by constructor|done|]); eauto.
  - exists [], m. split_and!; [constructor|done|]. right. by exists d.
  - exists [], ((j, d) :: m). split_and!; [constructor| |by left]. constructor; [done|].
    eapply Forall_impl; [exact Hj|]. intros e. simpl. lia.
Qed.

Lemma model_lookup_cut (l1 l2 : SectionDeltaMap) k :
  Forall (fun e => fst e < k) l1 -> Forall (fun e => k < fst e) l2 ->
  dm_model (l1 ++ l2) !! k = None /\ forall d, dm_model (l1 ++ (k, d) :: l2) !! k = Some d.
Proof.
  intros H1 H2. unfold dm_model.
  assert (N1 : k ∉ l1.*1).
  { intros (e & -> & He)%list_elem_of_fmap. eapply Forall_forall in H1; [|exact He]. lia. }
  assert (N2 : k ∉ l2.*1).
  { intros (e & -> & He)%list_elem_of_fmap. eapply Forall_forall in H2; [|exact He]. lia. }
  split.
  - apply not_elem_of_list_to_map. rewrite fmap_app, elem_of_app. tauto.
  - intros d. rewrite list_to_map_app, lookup_union_r.
    + simpl. by rewrite lookup_insert_eq.
    + by apply not_elem_of_list_to_map.
Qed.

Lemma dm_search_cut l1 l2 k :
  Forall (fun e : Z * SectionDeltas => fst e < k) l1 -> Forall (fun e => k < fst e) l2 ->
  binary_search_by (fun e => fst e ?= k) (l1 ++ l2) = Ret (inr (length l1)) /\
  forall d, binary_search_by (fun e => fst e ?= k) (l1 ++ (k, d) :: l2) = Ret (inl (length l1)).
Proof.
  intros H1 H2.
  assert (L1 : Forall (fun e : Z * SectionDeltas => (fst e ?= k) = Lt) l1)
    by (eapply Forall_impl; [exact H1|]; intros e; apply Z.compare_lt_iff).
  assert (L2 : Forall (fun e : Z * SectionDeltas => (fst e ?= k) = Gt) l2)
    by (eapply Forall_impl; [exact H2|]; intros e; apply Z.compare_gt_iff).
  split; [by apply binary_search_absent|].
  intros d. apply binary_search_found; [done|by apply Z.compare_eq_iff|done].
Qed.

Lemma dm_get_spec m k : keys_sorted m -> dm_get m k = Ret (dm_model m !! k).
Proof.
  intros Hs. destruct (key_cut m k Hs) as (l1 & l2 & H1 & H2 & Hm).
  destruct (dm_search_cut l1 l2 k H1 H2) as [S1 S2].
  destruct (model_lookup_cut l1 l2 k H1 H2) as [M1 M2]. unfold dm_get.
  destruct Hm as [->|[d ->]].
  - by rewrite S1, M1.
  - rewrite S2, M2. cbn [mbind outcome_bind]. by rewrite index_app_cons.
Qed.

Lemma keys_sorted_insert l1 l2 k (d : SectionDeltas) : keys_sorted (l1 ++ l2) ->
  Forall (fun e => fst e < k) l1 -> Forall (fun e => k < fst e) l2 -> keys_sorted (l1 ++ (k, d) :: l2).
Proof.
  intros Hs H1 H2. induction H1 as [|e l1 He H1 IH]; simpl in *.
  - by constructor.
  - inversion_clear Hs as [|? ? Hs' Hall]. constructor; [by apply IH|].
    apply Forall_app in Hall as [A1 A2]. apply Forall_app. split; [done|by constructor].
Qed.

Lemma dm_model_insert l1 l2 k (d : SectionDeltas) : Forall (fun e => fst e < k) l1 ->
  dm_model (l1 ++ (k, d) :: l2) = <[k := d]> (dm_model (l1 ++ l2)).
Proof.
  intros H1. unfold dm_model. rewrite !list_to_map_app. simpl.
  rewrite insert_union_r; [done|]. apply not_elem_of_list_to_map.
  intros (e & -> & He)%list_elem_of_fmap. eapply Forall_forall in H1; [|exact He]. lia.
Qed.

Lemma insert_sorted_cut l1 l2 k (d : SectionDeltas) :
  Forall (fun e => fst e < k) l1 -> Forall (fun e => k < fst e) l2 ->
  insert_sorted (l1 ++ l2) k d = Ret (l1 ++ (k, d) :: l2).
Proof.
  intros H1 H2. unfold insert_sorted. rewrite partition_point_spec.
  - cbn [mbind outcome_bind]. by rewrite take_app_length, drop_app_length.
  - eapply Forall_impl; [exact H1|]. intros e. cbv beta. lia.
  - eapply Forall_impl; [exact H2|]. intros e. cbv beta. lia.
Qed.

(** ** Properties *)

(** C35. The translation of an input offset agrees with its reference definition on
    every sorted adjustment list, machine arithmetic included: it subtracts the
    sum of the adjustments strictly before the offset and of the insertions at
    the offset. *)
Theorem input_to_output_reference raw offset : raw_sorted raw -> is_uint 64 offset ->
  input_to_output_offset (sd_new raw) offset = Ret (u64 (offset - applied_delta raw offset)).
Proof. apply input_to_output_applied. Qed.

Lemma input_to_output_reference_witness :
  input_to_output_offset (sd_new [(10, 4); (20, -8)]) 20 = Ret 24.
Proof.
  assert (Hs : raw_sorted [(10, 4); (20, -8)]) by (repeat constructor; simpl; lia).
  exact (input_to_output_reference _ 20 Hs ltac:(unfold is_uint; simpl; lia)).
Defined.

(** C36. [output_to_input_offset] inverts [input_to_output_offset] on every byte that
    survives: for deletions and insertions in any mix, an offset that is not
    deleted is mapped to an output offset that is mapped back to it. *)
Theorem output_to_input_inverse raw offset :
  0 <= offset -> wf_raw 0 raw -> kept raw offset -> fits raw offset ->
  exists out, input_to_output_offset (sd_new raw) offset = Ret out /\
    output_to_input_offset (sd_new raw) out = Ret offset.
Proof.
  intros Ho Hwf Hk Hf.
  destruct (translation_exact raw offset Ho Hwf (kept_not_inside _ _ Hk) Hf)
    as (r1 & r2 & -> & H1 & H2 & -> & Hu).
  eexists. split; [done|]. destruct Hf as [Hf1 Hf2]. rewrite sum_abs_app in *.
  destruct (wf_raw_app _ _ _ Hwf) as (Hwf1 & lo & Hlo & Hwf2).
  apply Forall_app in Hk as [Hk1 Hk2].
  destruct (not_moved_above _ _ _ Hwf2 Hk2 H2) as (lo' & Hlt & Hwf2').
  pose proof (sum_abs_bound r1). pose proof (sum_abs_bound r2).
  rewrite output_to_input_cut; [by rewrite wrap_id by (unfold is_uint; lia); do 2 f_equal; lia| | |done].
  - eapply Forall_impl; [apply (boundary_before 0 0 r1 offset Hwf1 (kept_not_inside _ _ Hk1) H1); lia|].
    intros d. by rewrite Z.add_0_l.
  - rewrite run_0, sext_id by (unfold is_sint; lia).
    apply (boundary_after _ lo'); [done|lia|lia].
Qed.

Lemma output_to_input_inverse_witness :
  exists out, input_to_output_offset (sd_new [(10, 4); (20, -8)]) 25 = Ret out /\
    output_to_input_offset (sd_new [(10, 4); (20, -8)]) out = Ret 25.
Proof.
  apply (output_to_input_inverse [(10, 4); (20, -8)] 25).
  - lia.
  - simpl. lia.
  - repeat constructor; lia.
  - split; simpl; lia.
Defined.

(** Relaxation preserves layout order: of two surviving bytes the one that is
    first in the input is first in the output, so no two surviving bytes
    collide; and an offset at a deletion's anchor never moves past a later
    one. *)
Theorem input_to_output_order raw i j :
  0 <= i <= j -> wf_raw 0 raw -> not_inside raw i -> not_inside raw j -> fits raw j ->
  exists oi oj, input_to_output_offset (sd_new raw) i = Ret oi /\
    input_to_output_offset (sd_new raw) j = Ret oj /\ oi <= oj /\
    (kept raw i -> i < j -> oi < oj).
Proof.
  intros Hij Hwf Hi Hj Hf.
  assert (Hfi : fits raw i) by (destruct Hf; split; lia).
  destruct (translation_exact raw i ltac:(lia) Hwf Hi Hfi) as (s1 & s2 & E & M1 & M2 & -> & _).
  destruct (translation_exact raw j ltac:(lia) Hwf Hj Hf) as (r1 & r2 & -> & H1 & H2 & -> & _).
  do 2 eexists. split; [done|]. split; [done|].
  pose proof (moved_prefix i j _ _ _ _ ltac:(lia) (eq_sym E) M1 H2) as Hpre.
  destruct Hpre as (t & -> & ->). rewrite sum_deltas_app.
  rewrite <- app_assoc in *. destruct (wf_raw_app _ _ _ Hwf) as (_ & lo & _ & Hwft).
  destruct (wf_raw_app _ _ _ Hwft) as (Hwft' & _).
  apply Forall_app in Hj as [_ [Hjt _]%Forall_app]. apply Forall_app in H1 as [_ Ht].
  apply Forall_app in M2 as [Mt _].
  destruct (decide (t = [])) as [->|Hne]; [simpl; lia|].
  destruct (moved_sum _ _ _ Hwft' Hjt Ht Hne) as (x & b & r & -> & Hs).
  apply Forall_cons in Mt as [Mx _]. apply Forall_cons in Ht as [Hx _].
  unfold moves_raw in Mx, Hx. simpl in Mx, Hx. split; [lia|].
  intros Hk Hlt. apply Forall_app in Hk as [_ Hk]. simpl in Hk. apply Forall_cons in Hk as [Hk _].
  simpl in Hwft'. lia.
Qed.

Lemma input_to_output_order_witness :
  exists oi oj, input_to_output_offset (sd_new [(10, 4); (20, -8)]) 9 = Ret oi /\
    input_to_output_offset (sd_new [(10, 4); (20, -8)]) 14 = Ret oj /\ oi < oj.
Proof.
  destruct (input_to_output_order [(10, 4); (20, -8)] 9 14) as (oi & oj & H1 & H2 & _ & H).
  - lia.
  - simpl. lia.
  - repeat constructor; lia.
  - repeat constructor; lia.
  - split; simpl; lia.
  - exists oi, oj. split_and!; [done..|]. apply H; [repeat constructor; lia|lia].
Defined.

(** The forward cursor is an optimisation only: on any ascending run of queries
    it returns exactly what the binary-search lookup returns for each. *)
Theorem cursor_equivalent raw probes :
  raw_sorted raw -> Forall (is_uint 64) probes -> Sorted Z.le probes ->
  mapM (input_to_output_offset (sd_new raw)) probes = Ret (translate_all (sd_new raw) cursor probes).
Proof.
  intros Hs Hu Hso. apply (translate_all_spec [] raw probes 0); [done|constructor|done| |done].
  eapply Forall_impl; [exact Hu|]. unfold is_uint. lia.
Qed.

Lemma cursor_equivalent_witness :
  mapM (input_to_output_offset (sd_new [(10, 4); (20, -8); (30, 2)])) [5; 15; 25; 35]
    = Ret (translate_all (sd_new [(10, 4); (20, -8); (30, 2)]) cursor [5; 15; 25; 35]).
Proof.
  apply cursor_equivalent.
  - repeat constructor; simpl; lia.
  - repeat constructor; simpl; lia.
  - repeat constructor; lia.
Defined.

(** Merging adjustments is correct and order-independent: after
    [merge_additional] the translation applies the old and the additional
    adjustments together, whatever the order of the additional ones. *)
Theorem merge_additional_correct raw additional offset :
  raw_sorted raw -> NoDup (fst <$> raw ++ additional) -> is_uint 64 offset ->
  input_to_output_offset (merge_additional (sd_new raw) additional) offset
    = Ret (u64 (offset - applied_delta raw offset - applied_delta additional offset)).
Proof.
  intros Hs Hnd Ho. unfold merge_additional. destruct additional as [|p additional].
  - rewrite input_to_output_applied by done. unfold applied_delta at 3. simpl. by rewrite Z.sub_0_r.
  - rewrite raw_of_new, input_to_output_applied; [|by apply sort_foldl_sorted; [constructor|]|done].
    unfold sort_by_offset.
    rewrite (applied_delta_perm _ _ offset (sort_foldl_perm _ [])), app_nil_l, applied_delta_app.
    do 2 f_equal. lia.
Qed.

Lemma merge_additional_correct_witness :
  input_to_output_offset (merge_additional (sd_new [(10, 4)]) [(20, 6); (5, 2)]) 30 = Ret 18.
Proof.
  refine (merge_additional_correct [(10, 4)] [(20, 6); (5, 2)] 30 _ _ _).
  - repeat constructor.
  - apply (bool_decide_unpack _). reflexivity.
  - unfold is_uint; simpl; lia.
Defined.

(** [SectionDeltaMap] implements a finite map from section indices: on its
    ascending vectors [get] is map lookup, and [insert_sorted] of a new index
    keeps the vector ascending and is map insertion. *)
Theorem delta_map_refines m k d :
  keys_sorted m -> dm_get m k = Ret (dm_model m !! k) /\
  (dm_model m !! k = None -> exists m', insert_sorted m k d = Ret m' /\ keys_sorted m' /\
     dm_model m' = <[k := d]> (dm_model m)).
Proof.
  intros Hs. split; [by apply dm_get_spec|]. intros Hnone.
  destruct (key_cut m k Hs) as (l1 & l2 & H1 & H2 & [->|[d' ->]]).
  - exists (l1 ++ (k, d) :: l2). split_and!.
    + by apply insert_sorted_cut.
    + by apply keys_sorted_insert.
    + by apply dm_model_insert.
  - by rewrite (proj2 (model_lookup_cut l1 l2 k H1 H2)) in Hnone.
Qed.

Lemma delta_map_refines_witness :
  dm_get [(3, sd_new [(0, 4)]); (7, [])] 7 = Ret (Some []).
Proof.
  assert (Hs : keys_sorted [(3, sd_new [(0, 4)]); (7, [])]) by (repeat constructor; simpl; lia).
  exact (proj1 (delta_map_refines _ 7 [] Hs)).
Defined.
