(* ===== verification/Bits.v ===== *)
(** Bit vectors by reflection: a small language of shift, mask and extension
    expressions over [Z], a symbolic evaluation of one bit, and a tactic
    [bitblast] that proves two such expressions equal by comparing them bit by
    bit inside the kernel's evaluator.

    The instruction encoders and decoders only permute bits, so every
    round-trip obligation is one call of [bitblast]. *)
From S2P Require Import Prelude.

Inductive bexp :=
| BVar (n : nat)
| BConst (z : Z)
| BLor (a b : bexp)
| BLand (a b : bexp)
| BShl (a : bexp) (k : Z)
| BShr (a : bexp) (k : Z)
| BWrap (w : Z) (a : bexp)
| BSext (w : Z) (a : bexp)
| BNot (a : bexp).

Fixpoint denote (env : list Z) (e : bexp) : Z :=
  match e with
  | BVar n => nth n env 0
  | BConst z => z
  | BLor a b => Z.lor (denote env a) (denote env b)
  | BLand a b => Z.land (denote env a) (denote env b)
  | BShl a k => Z.shiftl (denote env a) k
  | BShr a k => Z.shiftr (denote env a) k
  | BWrap w a => wrap w (denote env a)
  | BSext w a => sext w (denote env a)
  | BNot a => Z.lnot (denote env a)
  end.

(** A symbolic bit: a constant, or a bit of a variable, possibly negated. *)
Inductive sbit :=
| SConst (b : bool)
| SVar (neg : bool) (n : nat) (i : Z).

Definition sbit_val (env : list Z) (s : sbit) : bool :=
  match s with
  | SConst b => b
  | SVar neg n i => xorb neg (Z.testbit (nth n env 0) i)
  end.

Definition sbit_eqb (s t : sbit) : bool :=
  match s, t with
  | SConst a, SConst b => Bool.eqb a b
  | SVar a n i, SVar b m j => Bool.eqb a b && (n =? m)%nat && (i =? j)
  | _, _ => false
  end.

Definition sbit_or (s t : option sbit) : option sbit :=
  match s, t with
  | Some (SConst true), _ | _, Some (SConst true) => Some (SConst true)
  | Some (SConst false), x | x, Some (SConst false) => x
  | Some a, Some b => if sbit_eqb a b then Some a else None
  | _, _ => None
  end.

Definition sbit_not (s : option sbit) : option sbit :=
  match s with
  | Some (SConst b) => Some (SConst (negb b))
  | Some (SVar neg n i) => Some (SVar (negb neg) n i)
  | None => None
  end.

Definition sbit_and (s t : option sbit) : option sbit := sbit_not (sbit_or (sbit_not s) (sbit_not t)).

(** The bit of [e] at position [i >= 0]; [None] when it is not a single literal. *)
Fixpoint sym (e : bexp) (i : Z) : option sbit :=
  match e with
  | BVar n => Some (SVar false n i)
  | BConst z => Some (SConst (Z.testbit z i))
  | BLor a b => sbit_or (sym a i) (sym b i)
  | BLand a b => sbit_and (sym a i) (sym b i)
  | BShl a k => if 0 <=? k then if i <? k then Some (SConst false) else sym a (i - k) else None
  | BShr a k => if 0 <=? k then sym a (i + k) else None
  | BWrap w a => if 0 <=? w then if i <? w then sym a i else Some (SConst false) else None
  | BSext w a => if 0 <? w then if i <? w then sym a i else sym a (w - 1) else None
  | BNot a => sbit_not (sym a i)
  end.

(** From which position on all bits of [e] are the same literal. *)
Fixpoint tail (e : bexp) : option (Z * option sbit) :=
  match e with
  | BVar _ => None
  | BConst z => Some (Z.log2 (Z.abs z) + 1, Some (SConst (z <? 0)))
  | BLor a b =>
      match tail a, tail b with
      | Some (n, x), Some (m, y) => Some (Z.max n m, sbit_or x y)
      | _, _ => None
      end
  | BLand a b =>
      match tail a, tail b with
      | Some (n, x), Some (m, y) => Some (Z.max n m, sbit_and x y)
      | Some (n, Some (SConst false)), None | None, Some (n, Some (SConst false)) =>
          Some (n, Some (SConst false))
      | _, _ => None
      end
  | BShl a k =>
      match tail a with Some (n, x) => if 0 <=? k then Some (n + k, x) else None | None => None end
  | BShr a k =>
      match tail a with Some (n, x) => if 0 <=? k then Some (n, x) else None | None => None end
  | BWrap w _ => if 0 <=? w then Some (w, Some (SConst false)) else None
  | BSext w a => if 0 <? w then Some (w, sym a (w - 1)) else None
  | BNot a => match tail a with Some (n, x) => Some (n, sbit_not x) | None => None end
  end.

Definition osbit_eqb (s t : option sbit) : bool :=
  match s, t with Some a, Some b => sbit_eqb a b | _, _ => false end.

Fixpoint same_bits (n : nat) (a b : bexp) : bool :=
  match n with
  | O => true
  | S n => osbit_eqb (sym a (Z.of_nat n)) (sym b (Z.of_nat n)) && same_bits n a b
  end.

Definition same (a b : bexp) : bool :=
  match tail a, tail b with
  | Some (n, x), Some (m, y) => osbit_eqb x y && same_bits (Z.to_nat (Z.max n m)) a b
  | _, _ => false
  end.

(** ** Soundness *)

Lemma wrap_testbit w z i : 0 <= w -> 0 <= i ->
  Z.testbit (wrap w z) i = if i <? w then Z.testbit z i else false.
Proof.
  intros Hw Hi. unfold wrap. destruct (Z.ltb_spec i w).
  - apply Z.mod_pow2_bits_low. lia.
  - apply Z.mod_pow2_bits_high. lia.
Qed.

Lemma high_bits w s i : 0 < w -> is_sint w s -> w - 1 <= i -> Z.testbit s i = (s <? 0).
Proof.
  unfold is_sint. intros Hw Hs Hi.
  assert (Hp : 2 ^ (w - 1) <= 2 ^ i) by (apply Z.pow_le_mono_r; lia).
  destruct (Z.ltb_spec s 0).
  - apply Z.testbit_true; [lia|]. replace (s / 2 ^ i) with (-1); [done|].
    apply Z.div_unique with (r := s + 2 ^ i); lia.
  - apply Z.testbit_false; [lia|]. by rewrite Z.div_small by lia.
Qed.

Lemma sext_testbit w z i : 0 < w -> 0 <= i ->
  Z.testbit (sext w z) i = Z.testbit z (if i <? w then i else w - 1).
Proof.
  intros Hw Hi. pose proof (sext_cong w z Hw) as Hc.
  assert (Hlow : forall j, 0 <= j < w -> Z.testbit (sext w z) j = Z.testbit z j).
  { intros j Hj. rewrite <- (Z.mod_pow2_bits_low _ w j), Hc by lia. apply Z.mod_pow2_bits_low. lia. }
  destruct (Z.ltb_spec i w); [by apply Hlow|].
  rewrite <- Hlow by lia. pose proof (sext_bound w z Hw). by rewrite !(high_bits w) by (done || lia).
Qed.

(** Casts to narrower widths commute with the bitwise operators. *)
Lemma sext_sext w w' z : 0 < w <= w' -> sext w (sext w' z) = sext w z.
Proof.
  intros H. apply Z.bits_inj'. intros i Hi. rewrite !(sext_testbit w) by lia.
  set (j := if i <? w then i else w - 1). assert (0 <= j < w') by (unfold j; case_match; lia).
  rewrite sext_testbit by lia. by destruct (Z.ltb_spec j w'); [|lia].
Qed.

Lemma sext_lor w a b : 0 < w -> sext w (Z.lor a b) = Z.lor (sext w a) (sext w b).
Proof. intros H. apply Z.bits_inj'. intros i Hi. by rewrite Z.lor_spec, !sext_testbit, Z.lor_spec. Qed.

Lemma wrap_bitop (f : Z -> Z -> Z) (g : bool -> bool -> bool) w a b : 0 <= w ->
  (forall x y i, 0 <= i -> Z.testbit (f x y) i = g (Z.testbit x i) (Z.testbit y i)) ->
  g false false = false -> wrap w (f a b) = f (wrap w a) (wrap w b).
Proof.
  intros H Hf Hg. apply Z.bits_inj'. intros i Hi. rewrite Hf by done. unfold wrap.
  destruct (Z.lt_ge_cases i w).
  - by rewrite !Z.mod_pow2_bits_low, Hf by done.
  - by rewrite !Z.mod_pow2_bits_high by lia.
Qed.

Lemma sint_bitop (f : Z -> Z -> Z) (g : bool -> bool -> bool) w a b : 0 < w ->
  is_sint w a -> is_sint w b ->
  (forall x y i, 0 <= i -> Z.testbit (f x y) i = g (Z.testbit x i) (Z.testbit y i)) ->
  is_sint w (f a b).
Proof.
  intros Hw Ha Hb Hf. replace (f a b) with (sext w (f a b)); [by apply sext_bound|].
  apply Z.bits_inj'. intros i Hi. rewrite sext_testbit by done.
  destruct (Z.ltb_spec i w); [done|].
  rewrite !Hf, !(high_bits w) by (done || lia). done.
Qed.

Lemma sext_0_mod w z : 0 < w -> z mod 2 ^ w = 0 -> sext w z = 0.
Proof.
  intros H Hz. rewrite <- (sext_id w 0) by (done || unfold is_sint; lia). unfold sext.
  rewrite <- (Z.add_mod_idemp_l z), Hz by lia. done.
Qed.

Lemma sbit_eqb_val env s t : sbit_eqb s t = true -> sbit_val env s = sbit_val env t.
Proof.
  destruct s as [a|a n i], t as [b|b m j]; simpl; try done.
  - by destruct a, b.
  - intros H. apply andb_prop in H as [[H1 H2]%andb_prop H3].
    apply Bool.eqb_prop in H1 as ->. apply Nat.eqb_eq in H2 as ->. by apply Z.eqb_eq in H3 as ->.
Qed.

Lemma sbit_or_val env s t u : sbit_or s t = Some u ->
  forall a b, (forall s', s = Some s' -> a = sbit_val env s') ->
  (forall t', t = Some t' -> b = sbit_val env t') -> sbit_val env u = orb a b.
Proof.
  intros H a b Ha Hb.
  destruct s as [[[]|x n i]|]; destruct t as [[[]|y m j]|]; simpl in H; try done;
    repeat match type of H with
      | (if ?c then _ else _) = _ => destruct c eqn:E; [|done]
      | Some _ = Some _ => injection H as <-
      end;
    try rewrite (Ha _ eq_refl); try rewrite (Hb _ eq_refl); simpl;
    rewrite ?orb_true_r, ?orb_false_r; try done.
  change (sbit_val env (SVar x n i) = sbit_val env (SVar x n i) || sbit_val env (SVar y m j)).
  rewrite <- (sbit_eqb_val env (SVar x n i) (SVar y m j) E). by rewrite orb_diag.
Qed.

Lemma sbit_not_val env s u : sbit_not s = Some u ->
  exists s', s = Some s' /\ sbit_val env u = negb (sbit_val env s').
Proof.
  destruct s as [[b|neg n i]|]; simpl; intros H; try done; injection H as <-;
    (eexists; split; [done|]); simpl; [done|]. by destruct neg, (Z.testbit _ _).
Qed.

Lemma sbit_and_val env s t u : sbit_and s t = Some u ->
  forall a b, (forall s', s = Some s' -> a = sbit_val env s') ->
  (forall t', t = Some t' -> b = sbit_val env t') -> sbit_val env u = andb a b.
Proof.
  intros H a b Ha Hb. apply (sbit_not_val env) in H as (v & H & ->).
  rewrite (sbit_or_val env _ _ _ H (negb a) (negb b)).
  - by rewrite negb_orb, !negb_involutive.
  - intros s' (s0 & E & ->)%(sbit_not_val env). by rewrite (Ha _ E).
  - intros t' (t0 & E & ->)%(sbit_not_val env). by rewrite (Hb _ E).
Qed.

Lemma sym_sound env e : forall i s, 0 <= i -> sym e i = Some s ->
  Z.testbit (denote env e) i = sbit_val env s.
Proof.
  induction e as [n|z|a IHa b IHb|a IHa b IHb|a IHa k|a IHa k|w a IHa|w a IHa|a IHa]; intros i s Hi H;
    cbn [sym denote] in *.
  - by injection H as <-.
  - by injection H as <-.
  - rewrite Z.lor_spec. symmetry. eapply sbit_or_val; [exact H|..]; auto.
  - rewrite Z.land_spec. symmetry. eapply sbit_and_val; [exact H|..]; auto.
  - destruct (Z.leb_spec 0 k); [|done]. rewrite Z.shiftl_spec by done.
    destruct (Z.ltb_spec i k); [injection H as <-; by rewrite Z.testbit_neg_r by lia|].
    apply IHa; [lia|done].
  - destruct (Z.leb_spec 0 k); [|done]. rewrite Z.shiftr_spec by done. apply IHa; [lia|done].
  - destruct (Z.leb_spec 0 w); [|done]. rewrite wrap_testbit by done.
    destruct (i <? w); [by apply IHa|by injection H as <-].
  - destruct (Z.ltb_spec 0 w); [|done]. rewrite sext_testbit by done.
    destruct (i <? w); apply IHa; (done || lia).
  - apply (sbit_not_val env) in H as (s' & H & ->). rewrite Z.lnot_spec by done. f_equal. by apply IHa.
Qed.

Lemma tail_sound env e : forall n s, tail e = Some (n, s) ->
  0 <= n /\ forall i s', s = Some s' -> n <= i -> Z.testbit (denote env e) i = sbit_val env s'.
Proof.
  induction e as [v|z|a IHa b IHb|a IHa b IHb|a IHa k|a IHa k|w a IHa|w a IHa|a IHa]; intros n s H;
    cbn [tail denote] in *.
  - done.
  - injection H as <- <-. pose proof (Z.log2_nonneg (Z.abs z)). split; [lia|].
    intros i s' [= <-] Hi. simpl. destruct (Z.ltb_spec z 0).
    + apply Z.bits_iff_neg; lia.
    + apply Z.bits_iff_nonneg; lia.
  - destruct (tail a) as [[na xa]|]; [|done]. destruct (tail b) as [[nb xb]|]; [|done].
    injection H as <- <-. destruct (IHa _ _ eq_refl) as [? Ha]. destruct (IHb _ _ eq_refl) as [? Hb].
    split; [lia|]. intros i s' Hs Hi. rewrite Z.lor_spec. symmetry.
    eapply sbit_or_val; [exact Hs|..]; intros; [eapply Ha|eapply Hb]; eauto; lia.
  - destruct (tail a) as [[na xa]|]; destruct (tail b) as [[nb xb]|]; try done.
    + destruct (IHa _ _ eq_refl) as [? Ha]. destruct (IHb _ _ eq_refl) as [? Hb].
      assert (E : Some (Z.max na nb, sbit_and xa xb) = Some (n, s)) by (by destruct xa as [[[]|]|]).
      injection E as <- <-. clear H. split; [lia|]. intros i s' Hs Hi. rewrite Z.land_spec. symmetry.
      eapply sbit_and_val; [exact Hs|..]; intros; [eapply Ha|eapply Hb]; eauto; lia.
    + destruct (IHa _ _ eq_refl) as [? Ha]. destruct xa as [[[]|]|]; try done. injection H as <- <-.
      split; [lia|]. intros i s' [= <-] Hi. by rewrite Z.land_spec, (Ha i _ eq_refl Hi).
    + destruct (IHb _ _ eq_refl) as [? Hb]. destruct xb as [[[]|]|]; try done. injection H as <- <-.
      split; [lia|]. intros i s' [= <-] Hi. by rewrite Z.land_spec, (Hb i _ eq_refl Hi), andb_false_r.
  - destruct (tail a) as [[na xa]|]; [|done]. destruct (Z.leb_spec 0 k); [|done]. injection H as <- <-.
    destruct (IHa _ _ eq_refl) as [? Ha]. split; [lia|]. intros i s' Hs Hi.
    rewrite Z.shiftl_spec by lia. apply Ha; [done|lia].
  - destruct (tail a) as [[na xa]|]; [|done]. destruct (Z.leb_spec 0 k); [|done]. injection H as <- <-.
    destruct (IHa _ _ eq_refl) as [? Ha]. split; [lia|]. intros i s' Hs Hi.
    rewrite Z.shiftr_spec by lia. apply Ha; [done|lia].
  - destruct (Z.leb_spec 0 w); [|done]. injection H as <- <-. split; [lia|]. intros i s' [= <-] Hi.
    rewrite wrap_testbit by lia. by replace (i <? w) with false by lia.
  - destruct (Z.ltb_spec 0 w); [|done]. injection H as <- Hs. split; [lia|]. intros i s' -> Hi.
    rewrite sext_testbit by lia. replace (i <? w) with false by lia. apply sym_sound; [lia|done].
  - destruct (tail a) as [[na xa]|]; [|done]. injection H as <- <-.
    destruct (IHa _ _ eq_refl) as [? Ha]. split; [done|].
    intros i s' (s0 & Hs & ->)%(sbit_not_val env) Hi. rewrite Z.lnot_spec by lia. f_equal. by apply Ha.
Qed.

Lemma osbit_eqb_spec env s t : osbit_eqb s t = true ->
  exists a b, s = Some a /\ t = Some b /\ sbit_val env a = sbit_val env b.
Proof.
  destruct s as [a|], t as [b|]; simpl; try done. intros H. exists a, b. auto using sbit_eqb_val.
Qed.

Lemma same_bits_sound env n a b : same_bits n a b = true ->
  forall i, 0 <= i < Z.of_nat n -> Z.testbit (denote env a) i = Z.testbit (denote env b) i.
Proof.
  induction n as [|n IH]; intros H i Hi; [lia|]. cbn [same_bits] in H. apply andb_prop in H as [H1 H2].
  destruct (decide (i = Z.of_nat n)) as [->|]; [|apply IH; [done|lia]].
  destruct (osbit_eqb_spec env _ _ H1) as (x & y & Hx & Hy & E).
  by rewrite (sym_sound env a _ x), (sym_sound env b _ y) by (done || lia).
Qed.

Lemma same_sound env a b : same a b = true -> denote env a = denote env b.
Proof.
  unfold same. intros H. destruct (tail a) as [[n x]|] eqn:Ta; [|done].
  destruct (tail b) as [[m y]|] eqn:Tb; [|done]. apply andb_prop in H as [Hxy Hb].
  destruct (tail_sound env _ _ _ Ta) as [? Ha']. destruct (tail_sound env _ _ _ Tb) as [? Hb'].
  destruct (osbit_eqb_spec env _ _ Hxy) as (s & t & -> & -> & E).
  apply Z.bits_inj'. intros i Hi. destruct (Z.lt_ge_cases i (Z.max n m)).
  - apply (same_bits_sound env _ _ _ Hb). lia.
  - rewrite (Ha' i s), (Hb' i t) by (done || lia). done.
Qed.

(** ** Reification *)

Ltac bits_const t := let t := eval cbv in t in
  match t with Z0 => t | Zpos _ => t | Zneg _ => t end.

Ltac bits_ground t :=
  match t with
  | Z0 => constr:(true)
  | Zpos _ => constr:(true)
  | Zneg _ => constr:(true)
  | _ => constr:(false)
  end.

Ltac bits_index x env :=
  match env with
  | x :: _ => constr:(O)
  | _ :: ?env => let n := bits_index x env in constr:(S n)
  end.

Ltac bits_vars t env :=
  match t with
  | Z.lor ?a ?b => let env := bits_vars a env in bits_vars b env
  | Z.land ?a ?b => let env := bits_vars a env in bits_vars b env
  | Z.shiftl ?a _ => bits_vars a env
  | Z.shiftr ?a _ => bits_vars a env
  | wrap _ ?a => bits_vars a env
  | sext _ ?a => bits_vars a env
  | Z.lnot ?a => bits_vars a env
  | _ =>
      match bits_ground t with
      | true => env
      | false => match goal with
                 | _ => let n := bits_index t env in env
                 | _ => constr:(t :: env)
                 end
      end
  end.

Ltac bits_reify t env :=
  match t with
  | Z.lor ?a ?b => let a := bits_reify a env in let b := bits_reify b env in constr:(BLor a b)
  | Z.land ?a ?b => let a := bits_reify a env in let b := bits_reify b env in constr:(BLand a b)
  | Z.shiftl ?a ?k => let a := bits_reify a env in constr:(BShl a k)
  | Z.shiftr ?a ?k => let a := bits_reify a env in constr:(BShr a k)
  | wrap ?w ?a => let a := bits_reify a env in constr:(BWrap w a)
  | sext ?w ?a => let a := bits_reify a env in constr:(BSext w a)
  | Z.lnot ?a => let a := bits_reify a env in constr:(BNot a)
  | _ =>
      match bits_ground t with
      | true => constr:(BConst t)
      | false => let n := bits_index t env in constr:(BVar n)
      end
  end.

(** Unfold the interpreter before the operations it is made of. *)
#[global] Strategy expand [denote nth].

(** Proves an equation between two bit expressions whose shifts and widths are
    literals.  A variable stands for any integer; bound it by writing it as
    [wrap w x] first. *)
Ltac bitblast :=
  match goal with
  | |- ?a = ?b =>
      let env := bits_vars a (@nil Z) in
      let env := bits_vars b env in
      let ea := bits_reify a env in
      let eb := bits_reify b env in
      let H := fresh in
      assert (H : same ea eb = true) by (vm_compute; reflexivity);
      apply (same_sound env) in H; cbn [denote nth] in H; exact H
  end.

Example bitblast_demo x :
  Z.shiftr (sext 32 (Z.shiftl (Z.land (Z.shiftr (wrap 32 x) 20) 0xfff) 20)) 20
    = sext 12 (Z.shiftr (wrap 32 x) 20).
Proof. bitblast. Qed.
