(* ===== verification/BitMisc.v ===== *)
(** Bit extraction and byte-slice masking ([linker-utils/src/bit_misc.rs] and
    [linker-utils/src/utils.rs]).

    A [u64] is a [Z] in [0, 2^64).  Shift amounts are taken modulo 64, as the
    release build does.  The [anyhow] errors are the [Err] of [result] with the
    message; [read_string]'s lossy UTF-8 conversion and [object]'s [Pod] casts
    are third-party and not modelled. *)
From Stdlib Require Import String.
From S2P Require Import Prelude Bits.
Open Scope Z_scope.

Record BitRange := mkRange { range_start : Z; range_end : Z }.

Definition shl64 (x n : Z) : Z := u64 (Z.shiftl x (n mod 64)).
Definition shr64 (x n : Z) : Z := Z.shiftr x (n mod 64).

(** [(1 << n) - 1] on [u64]. *)
Definition mask64 (n : Z) : Z := u64 (shl64 1 n - 1).

Definition extract_bit_range (x start end_ : Z) : Z :=
  if (start =? 0) && (end_ =? 64) then x
  else Z.land (shr64 x start) (mask64 (Z.max 0 (end_ - start))).

Definition extract_bit (x position : Z) : Z := extract_bit_range x position (position + 1).

Definition low_bits (x num_bits : Z) : Z := Z.land x (mask64 num_bits).

Definition sign_extend (x sign_bit : Z) : Z :=
  if negb (Z.land x (shl64 1 sign_bit) =? 0)
  then Z.lor x (not_w 64 (u64 (shl64 2 sign_bit - 1))) else x.

Definition low_bits_signed (x num_bits : Z) : Z := sign_extend (low_bits x num_bits) (num_bits - 1).

(** ** Little-endian bytes *)

Fixpoint le_bytes (n : nat) (z : Z) : bytes :=
  match n with O => [] | S n => u8 z :: le_bytes n (Z.shiftr z 8) end.

Fixpoint le_combine (bs : bytes) : Z :=
  match bs with [] => 0 | b :: bs => Z.lor b (Z.shiftl (le_combine bs) 8) end.

(** [from_le_bytes] of [data.first_chunk::<n>().unwrap()]. *)
Definition from_slice (n : Z) (data : bytes) : outcome Z := d ← slice data 0 n; Ret (le_combine d).

Definition u32_from_slice (data : bytes) : outcome Z := from_slice 4 data.
Definition u64_from_slice (data : bytes) : outcome Z := from_slice 8 data.

Fixpoint or_from_slice (dest mask : bytes) : outcome bytes :=
  match mask, dest with
  | [], _ => Ret dest
  | _ :: _, [] => Panic
  | v :: mask, d :: dest => dest' ← or_from_slice dest mask; Ret (Z.lor d v :: dest')
  end.

Fixpoint and_from_slice (dest mask : bytes) : outcome bytes :=
  match mask, dest with
  | [], _ => Ret dest
  | _ :: _, [] => Panic
  | v :: mask, d :: dest => dest' ← and_from_slice dest mask; Ret (Z.land d v :: dest')
  end.

(** [read_u32] on a cursor: the value and the rest. *)
Definition cursor_read_u32 (content : bytes) : outcome (result (Z * bytes) string) :=
  if len content <? 4 then Ret (Err "Not enough bytes to read u32"%string)
  else
    v ← from_slice 4 content;
    rest ← slice_from content 4;
    Ret (Ok (v, rest)).

Example extract_nibble : extract_bit_range 0xC0 3 8 = 0x18.
Proof. reflexivity. Qed.
Example sign_extend_32 : i64 (sign_extend 33 5) = -31.
Proof. reflexivity. Qed.

(** ** Bit extraction *)

Lemma mask64_ones n : 0 <= n < 64 -> mask64 n = Z.ones n.
Proof.
  intros Hn. unfold mask64, shl64. rewrite (Z.mod_small n 64) by lia.
  rewrite Z.shiftl_1_l. pose proof (Z.pow_le_mono_r 2 n 63 ltac:(lia) ltac:(lia)).
  pose proof (Z.pow_pos_nonneg 2 n ltac:(lia) ltac:(lia)).
  rewrite (wrap_id 64 (2 ^ n)) by (unfold is_uint; lia).
  rewrite wrap_id by (unfold is_uint; lia). rewrite Z.ones_equiv. lia.
Qed.

Lemma low_bits_eq x n : 0 <= n < 64 -> low_bits x n = wrap n x.
Proof. intros Hn. unfold low_bits. rewrite mask64_ones by done. apply Z.land_ones. lia. Qed.

Lemma extract_bit_range_eq x s e : 0 <= s < e -> e <= 64 -> is_uint 64 x ->
  extract_bit_range x s e = wrap (e - s) (Z.shiftr x s).
Proof.
  intros Hs He Hx. unfold extract_bit_range.
  destruct (Z.eqb_spec s 0) as [->|]; destruct (Z.eqb_spec e 64) as [->|]; cbn [andb];
    [change (Z.shiftr x 0) with x; by rewrite wrap_id| | |];
    unfold shr64; rewrite (Z.mod_small _ 64), Z.max_r, mask64_ones by lia; by apply Z.land_ones; lia.
Qed.

Lemma land_pow2_testbit x k : 0 <= k -> negb (Z.land x (2 ^ k) =? 0) = Z.testbit x k.
Proof.
  intros Hk. destruct (Z.testbit x k) eqn:E.
  - destruct (Z.eqb_spec (Z.land x (2 ^ k)) 0) as [H|]; [|done].
    assert (Hb : Z.testbit (Z.land x (2 ^ k)) k = true)
      by (by rewrite Z.land_spec, E, Z.pow2_bits_true).
    by rewrite H, Z.bits_0 in Hb.
  - replace (Z.land x (2 ^ k)) with 0; [done|]. apply Z.bits_inj'. intros i Hi.
    rewrite Z.bits_0, Z.land_spec, Z.pow2_bits_eqb by done.
    destruct (Z.eqb_spec k i) as [<-|]; [by rewrite E|by rewrite andb_false_r].
Qed.

Lemma sign_extend_eq x k : 0 <= k < 63 -> is_uint (k + 1) x -> sign_extend x k = wrap 64 (sext (k + 1) x).
Proof.
  intros Hk Hx. unfold sign_extend, shl64. rewrite (Z.mod_small k 64) by lia.
  pose proof (Z.pow_le_mono_r 2 k 62 ltac:(lia) ltac:(lia)).
  pose proof (Z.pow_pos_nonneg 2 k ltac:(lia) ltac:(lia)).
  rewrite Z.shiftl_1_l, (wrap_id 64 (2 ^ k)), land_pow2_testbit by (unfold is_uint; lia).
  rewrite Z.shiftl_mul_pow2 by lia. rewrite (wrap_id 64 (2 * _)), (wrap_id 64) by (unfold is_uint; lia).
  assert (Hones : 2 * 2 ^ k - 1 = Z.ones (k + 1)) by (rewrite Z.ones_equiv, Z.pow_add_r by lia; lia).
  rewrite Hones. apply Z.bits_inj'. intros i Hi. rewrite wrap_testbit, sext_testbit by lia.
  assert (Hhigh : forall j, k + 1 <= j -> Z.testbit x j = false).
  { intros j Hj. rewrite <- (wrap_id (k + 1) x Hx), wrap_testbit by lia. by replace (j <? k + 1) with false by lia. }
  replace (k + 1 - 1) with k by lia.
  destruct (Z.testbit x k) eqn:E.
  - unfold not_w. rewrite Z.lor_spec, wrap_testbit, Z.lnot_spec, Z.testbit_ones_nonneg by lia.
    destruct (Z.ltb_spec i 64), (Z.ltb_spec i (k + 1)); cbn [negb];
      rewrite ?orb_false_r, ?orb_true_r, ?E; try done; by rewrite Hhigh by lia.
  - destruct (Z.ltb_spec i 64), (Z.ltb_spec i (k + 1)); rewrite ?E; try done; by rewrite Hhigh by lia.
Qed.

Lemma low_bits_signed_eq x n : 0 < n < 64 -> low_bits_signed x n = wrap 64 (sext n x).
Proof.
  intros Hn. unfold low_bits_signed. rewrite low_bits_eq by lia.
  rewrite sign_extend_eq; [|lia|replace (n - 1 + 1) with n by lia; apply wrap_bound; lia].
  replace (n - 1 + 1) with n by lia. f_equal. unfold sext, wrap. f_equal.
  by rewrite Zplus_mod_idemp_l.
Qed.

(** ** Byte slices as words *)

Lemma le_bytes_length n z : length (le_bytes n z) = n.
Proof. revert z. induction n; intros; simpl; [done|by f_equal]. Qed.

Lemma le_bytes_len n z : len (le_bytes n z) = Z.of_nat n.
Proof. unfold len. by rewrite le_bytes_length. Qed.

Lemma le_bytes_is_bytes n z : is_bytes (le_bytes n z).
Proof.
  revert z. induction n as [|n IH]; intros z; [constructor|]. constructor; [|apply IH].
  apply wrap_bound. lia.
Qed.

Lemma le_combine_le_bytes n z : le_combine (le_bytes n z) = wrap (8 * Z.of_nat n) z.
Proof.
  revert z. induction n as [|n IH]; intros z.
  - unfold wrap. simpl. by rewrite Z.mod_1_r.
  - cbn [le_bytes le_combine]. rewrite IH. apply Z.bits_inj'. intros i Hi.
    rewrite Z.lor_spec, Z.shiftl_spec by done.
    rewrite (wrap_testbit 8), (wrap_testbit (8 * Z.of_nat (S n))) by lia.
    destruct (Z.ltb_spec i 8).
    + rewrite (Z.testbit_neg_r _ (i - 8)), orb_false_r by lia. by rewrite (proj2 (Z.ltb_lt _ _)) by lia.
    + rewrite orb_false_l, wrap_testbit, Z.shiftr_spec by lia. replace (i - 8 + 8) with i by lia.
      destruct (Z.ltb_spec (i - 8) (8 * Z.of_nat n)), (Z.ltb_spec i (8 * Z.of_nat (S n))); (done || lia).
Qed.

Lemma le_bytes_wrap n z : le_bytes n (wrap (8 * Z.of_nat n) z) = le_bytes n z.
Proof.
  revert z. induction n as [|n IH]; intros z; [done|]. cbn [le_bytes]. f_equal.
  - apply Z.bits_inj'. intros i Hi. rewrite (wrap_testbit 8 z), (wrap_testbit 8 (wrap _ _)) by lia.
    destruct (Z.ltb_spec i 8); [|done]. rewrite wrap_testbit by lia. by rewrite (proj2 (Z.ltb_lt _ _)) by lia.
  - rewrite <- (IH (Z.shiftr z 8)), <- IH. f_equal. apply Z.bits_inj'. intros i Hi.
    rewrite !(wrap_testbit (8 * Z.of_nat n)) by lia. destruct (Z.ltb_spec i (8 * Z.of_nat n)); [|done].
    rewrite !Z.shiftr_spec, wrap_testbit by lia. by rewrite (proj2 (Z.ltb_lt _ _)) by lia.
Qed.

(** Every buffer of bytes is the little-endian form of a word. *)
Lemma le_bytes_combine d : is_bytes d -> d = le_bytes (length d) (le_combine d).
Proof.
  induction 1 as [|b d Hb _ IH]; [done|]. cbn [length le_bytes le_combine]. f_equal.
  - apply Z.bits_inj'. intros i Hi. rewrite wrap_testbit, Z.lor_spec, Z.shiftl_spec by lia.
    rewrite <- (wrap_id 8 b Hb), wrap_testbit by lia.
    destruct (Z.ltb_spec i 8); [|done]. by rewrite (Z.testbit_neg_r _ (i - 8)), orb_false_r by lia.
  - rewrite IH at 1. f_equal. apply Z.bits_inj'. intros i Hi.
    rewrite Z.shiftr_spec, Z.lor_spec, Z.shiftl_spec by lia.
    rewrite <- (wrap_id 8 b Hb), wrap_testbit by lia. replace (i + 8 <? 8) with false by lia.
    rewrite orb_false_l. f_equal. lia.
Qed.

Lemma from_slice_le n w rest :
  from_slice (Z.of_nat n) (le_bytes n w ++ rest) = Ret (wrap (8 * Z.of_nat n) w).
Proof.
  unfold from_slice. rewrite <- (le_bytes_len n w) at 1.
  rewrite slice_prefix. cbn [mbind outcome_bind].
  by rewrite le_combine_le_bytes.
Qed.

Lemma or_from_slice_le n w m rest :
  or_from_slice (le_bytes n w ++ rest) (le_bytes n m) = Ret (le_bytes n (Z.lor w m) ++ rest).
Proof.
  revert w m. induction n as [|n IH]; intros w m; cbn [le_bytes app]; [by destruct rest|].
  cbn [or_from_slice]. rewrite IH. cbn [mbind outcome_bind]. rewrite Z.shiftr_lor. do 2 f_equal.
  by rewrite wrap_lor by lia.
Qed.

Lemma wrap_land w a b : 0 <= w -> wrap w (Z.land a b) = Z.land (wrap w a) (wrap w b).
Proof.
  intros Hw. apply Z.bits_inj'. intros i Hi. rewrite Z.land_spec, !wrap_testbit, Z.land_spec by done.
  by destruct (i <? w).
Qed.

Lemma and_from_slice_le n w m rest :
  and_from_slice (le_bytes n w ++ rest) (le_bytes n m) = Ret (le_bytes n (Z.land w m) ++ rest).
Proof.
  revert w m. induction n as [|n IH]; intros w m; cbn [le_bytes app]; [by destruct rest|].
  cbn [and_from_slice]. rewrite IH. cbn [mbind outcome_bind]. rewrite Z.shiftr_land. do 2 f_equal.
  by rewrite wrap_land by lia.
Qed.

Lemma or_from_slice_short d m : len d < len m -> or_from_slice d m = Panic.
Proof.
  revert d. induction m as [|v m IH]; intros d H.
  - pose proof (len_nonneg d). unfold len in H; simpl in H; lia.
  - destruct d as [|b d]; [done|]. cbn [or_from_slice]. rewrite !len_cons in H. by rewrite IH by lia.
Qed.

Lemma and_from_slice_short d m : len d < len m -> and_from_slice d m = Panic.
Proof.
  revert d. induction m as [|v m IH]; intros d H.
  - pose proof (len_nonneg d). unfold len in H; simpl in H; lia.
  - destruct d as [|b d]; [done|]. cbn [and_from_slice]. rewrite !len_cons in H. by rewrite IH by lia.
Qed.
