(* ===== verification/RelocInsn.v ===== *)
(** Instruction immediates of relocations ([linker-utils/src/elf.rs], [aarch64.rs],
    [riscv64.rs] and [loongarch64.rs]): how an extracted value is stored into
    the instruction bytes of each format, and how it is read back.

    Word arithmetic keeps its width: [u32] and [u16] values are wrapped after
    every left shift, [i32] shifts are [sext 32], and a buffer that is too short
    panics as the slice accesses do. *)
From S2P Require Import Prelude Bits BitMisc.

Inductive AArch64Instruction :=
| Adr | Movkz | Movnz | Ldr | LdrRegister | Add | LdSt | TstBr | Bcond | JumpCall.

Inductive RiscVInstruction :=
| UiType | UType | IType | SType | BType | JType | CbType | CjType | CluiType.

Inductive LoongArch64Instruction := Shift5 | Shift10 | Branch21 | Branch26 | Call30 | Call36.

Inductive RelocationInstruction :=
| AArch64 (i : AArch64Instruction)
| RiscV (i : RiscVInstruction)
| LoongArch64 (i : LoongArch64Instruction).

#[export] Instance aarch64_instruction_eq_dec : EqDecision AArch64Instruction.
Proof. solve_decision. Defined.
#[export] Instance riscv_instruction_eq_dec : EqDecision RiscVInstruction.
Proof. solve_decision. Defined.
#[export] Instance loongarch64_instruction_eq_dec : EqDecision LoongArch64Instruction.
Proof. solve_decision. Defined.
#[export] Instance relocation_instruction_eq_dec : EqDecision RelocationInstruction.
Proof. solve_decision. Defined.

(** [(x as u32) << k], and [x << k >> k] on [i32]. *)
Definition shl32 (x k : Z) : Z := u32 (Z.shiftl (u32 x) k).
Definition sext_i32 (imm k : Z) : Z := Z.shiftr (i32 (Z.shiftl (i32 imm) k)) k.
Definition shl16 (x k : Z) : Z := u16 (Z.shiftl x k).

(** ** AArch64 *)

Definition aarch64_write (insn : AArch64Instruction) (v : Z) (negative : bool) (dest : bytes)
  : outcome bytes :=
  match insn with
  | Adr =>
      or_from_slice dest (le_bytes 4 (Z.lor (shl32 (extract_bit_range v 0 2) 29)
                                            (shl32 (extract_bit_range v 2 32) 5)))
  | Movkz => or_from_slice dest (le_bytes 4 (shl32 v 5))
  | Movnz =>
      dest ← and_from_slice dest (le_bytes 4 0x0060001F);
      let value := if negative then Z.lnot (i64 v) else i64 v in
      let opcode := if negative then 0x92800000 else 0xd2800000 in
      or_from_slice dest (le_bytes 4 (Z.lor opcode (shl32 (extract_bit_range (u64 value) 0 16) 5)))
  | Ldr => or_from_slice dest (le_bytes 4 (shl32 v 5))
  | LdrRegister => or_from_slice dest (le_bytes 4 (shl32 v 10))
  | Add => or_from_slice dest (le_bytes 4 (shl32 v 10))
  | LdSt => or_from_slice dest (le_bytes 4 (shl32 v 10))
  | TstBr => or_from_slice dest (le_bytes 4 (shl32 v 5))
  | Bcond => or_from_slice dest (le_bytes 4 (shl32 v 5))
  | JumpCall => or_from_slice dest (le_bytes 4 (u32 v))
  end.

Definition aarch64_read (insn : AArch64Instruction) (bs : bytes) : outcome (Z * bool) :=
  value ← u32_from_slice bs;
  Ret (match insn with
       | Adr => (Z.lor (low_bits (shr64 value 29) 2)
                       (shl64 (low_bits_signed (shr64 value 5) 19) 2), false)
       | Movkz => (low_bits_signed (shr64 value 5) 16, false)
       | Movnz =>
           let negative := Z.land value (shl64 1 30) =? 0 in
           let v := low_bits (shr64 value 5) 16 in
           (if negative then not_w 64 v else v, negative)
       | Ldr => (low_bits_signed (shr64 value 5) 19, false)
       | LdrRegister => (low_bits (shr64 value 10) 12, false)
       | Add => (low_bits (shr64 value 10) 12, false)
       | LdSt => (low_bits_signed (shr64 value 10) 12, false)
       | TstBr => (low_bits_signed (shr64 value 5) 14, false)
       | Bcond => (low_bits_signed (shr64 value 5) 19, false)
       | JumpCall => (low_bits_signed value 26, false)
       end).

(** ** RISC-V *)

Definition UTYPE_IMMEDIATE_MASK : Z := 0x00000FFF.
Definition ITYPE_IMMEDIATE_MASK : Z := 0x000FFFFF.
Definition STYPE_IMMEDIATE_MASK : Z := 0x01FFF07F.
Definition BTYPE_IMMEDIATE_MASK : Z := 0x01FFF07F.
Definition JTYPE_IMMEDIATE_MASK : Z := 0x00000FFF.
Definition CBTYPE_IMMEDIATE_MASK : Z := 0xE383.
Definition CJTYPE_IMMEDIATE_MASK : Z := 0xE003.
Definition CLUITYPE_IMMEDIATE_MASK : Z := 0xEF83.

(** Clear the immediate field, then set it: the last two calls of every arm. *)
Definition and_or (n : nat) (dest : bytes) (clear mask : Z) : outcome bytes :=
  dest ← and_from_slice dest (le_bytes n clear); or_from_slice dest (le_bytes n mask).

Definition riscv_write_utype (v : Z) (dest : bytes) : outcome bytes :=
  and_or 4 dest UTYPE_IMMEDIATE_MASK (shl32 (extract_bit_range (u64 (v + 0x800)) 12 32) 12).

Definition riscv_write_itype (v : Z) (dest : bytes) : outcome bytes :=
  and_or 4 dest ITYPE_IMMEDIATE_MASK (u32 (shl64 v 20)).

Definition riscv_write (insn : RiscVInstruction) (v : Z) (dest : bytes) : outcome bytes :=
  match insn with
  | UiType =>
      lo ← slice dest 0 4;
      lo ← riscv_write_utype v lo;
      hi ← slice_from dest 4;
      hi ← riscv_write_itype v hi;
      Ret (lo ++ hi)
  | UType => riscv_write_utype v dest
  | IType => riscv_write_itype v dest
  | SType =>
      let mask := Z.lor (shl64 (extract_bit_range v 0 5) 7) (shl64 (extract_bit_range v 5 12) 25) in
      and_or 4 dest STYPE_IMMEDIATE_MASK (u32 mask)
  | BType =>
      let mask := Z.lor (Z.lor (Z.lor (shl64 (extract_bit v 11) 7)
                                      (shl64 (extract_bit_range v 1 5) 8))
                               (shl64 (extract_bit_range v 5 11) 25))
                        (shl64 (extract_bit v 12) 31) in
      and_or 4 dest BTYPE_IMMEDIATE_MASK (u32 mask)
  | JType =>
      let mask := Z.lor (Z.lor (Z.lor (shl64 (extract_bit_range v 12 20) 12)
                                      (shl64 (extract_bit v 11) 20))
                               (shl64 (extract_bit_range v 1 11) 21))
                        (shl64 (extract_bit v 20) 31) in
      and_or 4 dest JTYPE_IMMEDIATE_MASK (u32 mask)
  | CbType =>
      let mask := Z.lor (Z.lor (Z.lor (Z.lor (shl64 (extract_bit v 5) 2)
                                             (shl64 (extract_bit_range v 1 3) 3))
                                      (shl64 (extract_bit_range v 6 8) 5))
                               (shl64 (extract_bit_range v 3 5) 10))
                        (shl64 (extract_bit v 8) 12) in
      and_or 2 dest CBTYPE_IMMEDIATE_MASK mask
  | CjType =>
      let mask := Z.lor (Z.lor (Z.lor (Z.lor (Z.lor (Z.lor (Z.lor
                    (shl64 (extract_bit v 5) 2)
                    (shl64 (extract_bit_range v 1 4) 3))
                    (shl64 (extract_bit v 7) 6))
                    (shl64 (extract_bit v 6) 7))
                    (shl64 (extract_bit v 10) 8))
                    (shl64 (extract_bit_range v 8 10) 9))
                    (shl64 (extract_bit v 4) 11))
                    (shl64 (extract_bit v 11) 12) in
      and_or 2 dest CJTYPE_IMMEDIATE_MASK mask
  | CluiType =>
      let hi20 := shr64 (u64 (v + 0x800)) 12 in
      let mask := Z.lor (shl64 (Z.land hi20 0x1f) 2) (shl64 (Z.land (shr64 hi20 5) 1) 12) in
      and_or 2 dest CLUITYPE_IMMEDIATE_MASK (u16 mask)
  end.

Definition signed_result (s : Z) : Z * bool := (u64 s, s <? 0).

Definition riscv_read_utype (bs : bytes) : outcome (Z * bool) :=
  value ← u32_from_slice bs;
  let imm := Z.land (Z.shiftr value 12) 0xfffff in
  let adjusted := sext_i32 imm 12 in
  Ret (u64 (u64 adjusted - 0x800), false).

Definition riscv_read_itype (bs : bytes) : outcome (Z * bool) :=
  value ← u32_from_slice bs;
  Ret (signed_result (sext_i32 (Z.land (Z.shiftr value 20) 0xfff) 20)).

(** [u16::from_le_bytes([bytes[0], bytes[1]])]. *)
Definition u16_of_bytes (bs : bytes) : outcome Z :=
  b0 ← index bs 0; b1 ← index bs 1; Ret (le_combine [b0; b1]).

Definition riscv_read (insn : RiscVInstruction) (bs : bytes) : outcome (Z * bool) :=
  match insn with
  | UiType =>
      lo ← slice bs 0 4;
      hi ← riscv_read_utype lo;
      rest ← slice_from bs 4;
      lo ← riscv_read_itype rest;
      Ret (Z.lor (shl64 (fst hi) 12) (fst lo), false)
  | UType => riscv_read_utype bs
  | IType => riscv_read_itype bs
  | SType =>
      value ← u32_from_slice bs;
      let imm_low := Z.land (Z.shiftr value 7) 0x1f in
      let imm_high := Z.land (Z.shiftr value 25) 0x7f in
      Ret (signed_result (sext_i32 (Z.lor (shl32 imm_high 5) imm_low) 20))
  | BType =>
      value ← u32_from_slice bs;
      let imm11 := Z.land (Z.shiftr value 7) 0x1 in
      let imm1_4 := Z.land (Z.shiftr value 8) 0xf in
      let imm5_10 := Z.land (Z.shiftr value 25) 0x3f in
      let imm12 := Z.land (Z.shiftr value 31) 0x1 in
      let imm := Z.lor (Z.lor (Z.lor (shl32 imm12 12) (shl32 imm11 11)) (shl32 imm5_10 5))
                       (shl32 imm1_4 1) in
      Ret (signed_result (sext_i32 imm 19))
  | JType =>
      value ← u32_from_slice bs;
      let imm12_19 := Z.land (Z.shiftr value 12) 0xff in
      let imm11 := Z.land (Z.shiftr value 20) 0x1 in
      let imm1_10 := Z.land (Z.shiftr value 21) 0x3ff in
      let imm20 := Z.land (Z.shiftr value 31) 0x1 in
      let imm := Z.lor (Z.lor (Z.lor (shl32 imm20 20) (shl32 imm12_19 12)) (shl32 imm11 11))
                       (shl32 imm1_10 1) in
      Ret (signed_result (sext_i32 imm 11))
  | CbType =>
      value ← u16_of_bytes bs;
      let imm5 := Z.land (Z.shiftr value 2) 0x1 in
      let imm1_2 := Z.land (Z.shiftr value 3) 0x3 in
      let imm6_7 := Z.land (Z.shiftr value 5) 0x3 in
      let imm3_4 := Z.land (Z.shiftr value 10) 0x3 in
      let imm8 := Z.land (Z.shiftr value 12) 0x1 in
      let imm := Z.lor (Z.lor (Z.lor (Z.lor (shl16 imm8 8) (shl16 imm6_7 6)) (shl16 imm5 5))
                              (shl16 imm3_4 3)) (shl16 imm1_2 1) in
      Ret (signed_result (sext_i32 imm 23))
  | CjType =>
      value ← u16_of_bytes bs;
      let imm5 := Z.land (Z.shiftr value 2) 0x1 in
      let imm1_3 := Z.land (Z.shiftr value 3) 0x7 in
      let imm7 := Z.land (Z.shiftr value 6) 0x1 in
      let imm6 := Z.land (Z.shiftr value 7) 0x1 in
      let imm10 := Z.land (Z.shiftr value 8) 0x1 in
      let imm8_9 := Z.land (Z.shiftr value 9) 0x3 in
      let imm4 := Z.land (Z.shiftr value 11) 0x1 in
      let imm11 := Z.land (Z.shiftr value 12) 0x1 in
      let imm := Z.lor (Z.lor (Z.lor (Z.lor (Z.lor (Z.lor (Z.lor
                   (shl16 imm11 11) (shl16 imm10 10)) (shl16 imm8_9 8)) (shl16 imm7 7))
                   (shl16 imm6 6)) (shl16 imm5 5)) (shl16 imm4 4)) (shl16 imm1_3 1) in
      Ret (signed_result (sext_i32 imm 20))
  | CluiType =>
      value ← u16_of_bytes bs;
      let nzimm4_0 := Z.land (Z.shiftr value 2) 0x1f in
      let nzimm5 := Z.land (Z.shiftr value 12) 0x1 in
      let nzimm := Z.lor (shl16 nzimm5 5) nzimm4_0 in
      let hi20 := u64 (sext_i32 nzimm 26) in
      Ret (u64 (shl64 hi20 12 - 0x800), i64 hi20 <? 0)
  end.

(** ** LoongArch *)

Definition CALL30_CLEAR : Z := Z.lor (Z.shiftl 0xFFF803FF 32) 0xFE00001F.
Definition CALL36_CLEAR : Z := Z.lor (Z.shiftl 0xFC0003FF 32) 0xFE00001F.

Definition loongarch_write (insn : LoongArch64Instruction) (v : Z) (dest : bytes) : outcome bytes :=
  match insn with
  | Shift5 => and_or 4 dest 0xFE00001F (u32 (shl64 v 5))
  | Shift10 => and_or 4 dest 0xFFC003FF (u32 (shl64 v 10))
  | Branch26 =>
      let low_part := shl64 (Z.land v 0xffff) 10 in
      let high_part := shr64 v 16 in
      and_or 4 dest 0xFC000000 (u32 (Z.lor low_part high_part))
  | Branch21 =>
      let low_part := shl64 (Z.land v 0xffff) 10 in
      let high_part := shr64 v 16 in
      and_or 4 dest 0xFC0003E0 (u32 (Z.lor low_part high_part))
  | Call30 =>
      let low_part := shl64 (Z.land v 0x1ff) 42 in
      let high_part := shl64 (Z.land v (not_w 64 0x1ff)) 5 in
      and_or 8 dest CALL30_CLEAR (Z.lor low_part high_part)
  | Call36 =>
      let low_part := shl64 (Z.land v 0xffff) 42 in
      let high_part := shl64 (shr64 (u64 (v + 0x8000)) 16) 5 in
      and_or 8 dest CALL36_CLEAR (Z.lor low_part high_part)
  end.

Definition loongarch_read (insn : LoongArch64Instruction) (bs : bytes) : outcome (Z * bool) :=
  match insn with
  | Shift5 => value ← u32_from_slice bs; Ret (Z.land (Z.shiftr value 5) 0xfffff, false)
  | Shift10 => value ← u32_from_slice bs; Ret (Z.land (Z.shiftr value 10) 0xfff, false)
  | Branch26 =>
      value ← u32_from_slice bs;
      let low_part := Z.land (Z.shiftr value 10) 0xffff in
      let high_part := Z.land value 0x3ff in
      Ret (signed_result (sext_i32 (Z.lor (shl32 high_part 16) low_part) 6))
  | Branch21 =>
      value ← u32_from_slice bs;
      let low_part := Z.land (Z.shiftr value 10) 0xffff in
      let high_part := Z.land value 0x1f in
      Ret (signed_result (sext_i32 (Z.lor (shl32 high_part 16) low_part) 11))
  | Call30 =>
      value ← u64_from_slice bs;
      let insn1 := u32 (Z.shiftr value 32) in
      let insn2 := u32 value in
      let high_part := shl32 (Z.land (Z.shiftr insn1 5) 0x7ffff) 9 in
      let low_part := Z.land (Z.shiftr insn2 10) 0x1ff in
      Ret (Z.lor high_part low_part, false)
  | Call36 =>
      value ← u64_from_slice bs;
      let insn1 := u32 value in
      let insn2 := u32 (Z.shiftr value 32) in
      let high_part := Z.land (Z.shiftr insn1 5) 0xfffff in
      let low_part := Z.land (Z.shiftr insn2 10) 0xffff in
      Ret (Z.lor (Z.land (u64 (shl64 high_part 16 - 0x8000)) 0xffffffff) low_part, false)
  end.

(** ** Dispatch *)

Definition write_to_value (insn : RelocationInstruction) (v : Z) (negative : bool) (dest : bytes)
  : outcome bytes :=
  match insn with
  | AArch64 i => aarch64_write i v negative dest
  | RiscV i => riscv_write i v dest
  | LoongArch64 i => loongarch_write i v dest
  end.

Definition read_value (insn : RelocationInstruction) (bs : bytes) : outcome (Z * bool) :=
  match insn with
  | AArch64 i => aarch64_read i bs
  | RiscV i => riscv_read i bs
  | LoongArch64 i => loongarch_read i bs
  end.

Definition bit_mask (insn : RelocationInstruction) (range : BitRange) : outcome bytes :=
  let all_ones := mask64 (range_end range - range_start range) in
  mask ← write_to_value insn all_ones false [0; 0; 0; 0];
  Ret (List.map (not_w 8) mask).

Definition write_windows_size (insn : RelocationInstruction) : Z :=
  match insn with AArch64 _ => 4 | RiscV _ => 4 | LoongArch64 _ => 4 end.

(** ** Words *)

(** A buffer with at least [n] bytes is a word followed by the rest. *)
Lemma buffer_word n d : is_bytes d -> Z.of_nat n <= len d ->
  exists w rest, is_uint (8 * Z.of_nat n) w /\ d = le_bytes n w ++ rest.
Proof.
  intros Hd Hl. exists (le_combine (take n d)), (drop n d).
  assert (Ht : is_bytes (take n d)) by (by apply Forall_take).
  assert (Hlen : length (take n d) = n) by (rewrite length_take; unfold len in Hl; lia).
  pose proof (le_bytes_combine _ Ht) as E. rewrite Hlen in E. split.
  - rewrite E, le_combine_le_bytes. apply wrap_bound. lia.
  - by rewrite <- E, take_drop.
Qed.

Lemma and_or_le n w c m rest :
  and_or n (le_bytes n w ++ rest) c m = Ret (le_bytes n (Z.lor (Z.land w c) m) ++ rest).
Proof. unfold and_or. rewrite and_from_slice_le. cbn [mbind outcome_bind]. apply or_from_slice_le. Qed.

Lemma u32_from_slice_le w rest : u32_from_slice (le_bytes 4 w ++ rest) = Ret (u32 w).
Proof. apply (from_slice_le 4). Qed.

Lemma u64_from_slice_le w rest : u64_from_slice (le_bytes 8 w ++ rest) = Ret (u64 w).
Proof. apply (from_slice_le 8). Qed.

Lemma u16_of_bytes_le w rest : u16_of_bytes (le_bytes 2 w ++ rest) = Ret (u16 w).
Proof.
  change (u16 w) with (wrap (8 * Z.of_nat 2) w). rewrite <- (le_combine_le_bytes 2 w).
  unfold u16_of_bytes. cbn [le_bytes app].
  pose proof (index_app_cons [] (u8 w) (u8 (Z.shiftr w 8) :: rest) 0 eq_refl) as H0.
  pose proof (index_app_cons [u8 w] (u8 (Z.shiftr w 8)) rest 1 eq_refl) as H1.
  simpl app in H0, H1. by rewrite H0; cbn [mbind outcome_bind]; rewrite H1.
Qed.

(** Normal form for [bitblast]: ranges and masks become [wrap]s, and the inputs
    are written as wrapped. *)
Lemma extract_bit_eq x k : 0 <= k < 64 -> is_uint 64 x -> extract_bit x k = wrap 1 (Z.shiftr x k).
Proof.
  intros Hk Hx. unfold extract_bit. rewrite extract_bit_range_eq by (done || lia). f_equal. lia.
Qed.

Lemma wrap64_uint x : is_uint 64 (u64 x).
Proof. apply wrap_bound. lia. Qed.

Lemma wrap_uint64 w x : 0 <= w <= 64 -> is_uint 64 (wrap w x).
Proof.
  intros Hw. pose proof (wrap_bound w x ltac:(lia)) as H. unfold is_uint in *.
  pose proof (Z.pow_le_mono_r 2 w 64 ltac:(lia) ltac:(lia)). lia.
Qed.
#[export] Hint Extern 1 (is_uint 64 (wrap _ _)) => apply wrap_uint64; lia : widths.

Ltac bits_norm :=
  unfold sext_i32, shl32, shl16, shl64, shr64;
  rewrite ?extract_bit_eq, ?extract_bit_range_eq, ?low_bits_signed_eq, ?low_bits_eq
    by (lia || auto with widths).

Lemma signed_result_cong a b : a = b -> Ret (signed_result a) = Ret (signed_result b).
Proof. by intros ->. Qed.

Lemma value_cong (a b : Z) (f : bool) : a = b -> Ret (a, f) = Ret (b, f).
Proof. by intros ->. Qed.

(** ** RISC-V round trips *)

(** The immediate of each format, as the signed value its bits denote. *)
Definition riscv_imm (insn : RiscVInstruction) (v : Z) : Z :=
  match insn with
  | IType | SType => sext 12 v
  | BType => Z.shiftl (sext 12 (Z.shiftr v 1)) 1
  | JType => Z.shiftl (sext 20 (Z.shiftr v 1)) 1
  | CbType => Z.shiftl (sext 8 (Z.shiftr v 1)) 1
  | CjType => Z.shiftl (sext 11 (Z.shiftr v 1)) 1
  | UiType | UType | CluiType => 0
  end.

Definition riscv_single (insn : RiscVInstruction) : bool :=
  match insn with UiType | UType | CluiType => false | _ => true end.

(** Instruction size, and the bits outside the immediate field. *)
Definition riscv_size (insn : RiscVInstruction) : nat :=
  match insn with CbType | CjType | CluiType => 2 | UiType => 8 | _ => 4 end.

Definition riscv_kept (insn : RiscVInstruction) : Z :=
  match insn with
  | UiType => Z.lor UTYPE_IMMEDIATE_MASK (Z.shiftl ITYPE_IMMEDIATE_MASK 32)
  | UType => UTYPE_IMMEDIATE_MASK
  | IType => ITYPE_IMMEDIATE_MASK
  | SType => STYPE_IMMEDIATE_MASK
  | BType => BTYPE_IMMEDIATE_MASK
  | JType => JTYPE_IMMEDIATE_MASK
  | CbType => CBTYPE_IMMEDIATE_MASK
  | CjType => CJTYPE_IMMEDIATE_MASK
  | CluiType => CLUITYPE_IMMEDIATE_MASK
  end.

Lemma riscv_roundtrip_word insn x w rest : riscv_single insn = true ->
  exists w', riscv_write insn (u64 x) (le_bytes (riscv_size insn) w ++ rest)
    = Ret (le_bytes (riscv_size insn) w' ++ rest) /\
    Z.land w' (riscv_kept insn) = Z.land w (riscv_kept insn) /\
    riscv_read insn (le_bytes (riscv_size insn) w' ++ rest)
      = Ret (signed_result (riscv_imm insn (u64 x))).
Proof.
  destruct insn; intros Hs; try discriminate Hs; clear Hs; cbn [riscv_write riscv_size riscv_kept riscv_read];
    unfold riscv_write_itype, riscv_read_itype;
    rewrite and_or_le; eexists; (split; [reflexivity|]);
    rewrite ?u32_from_slice_le, ?u16_of_bytes_le; cbn [mbind outcome_bind];
    unfold ITYPE_IMMEDIATE_MASK, STYPE_IMMEDIATE_MASK, BTYPE_IMMEDIATE_MASK, JTYPE_IMMEDIATE_MASK,
      CBTYPE_IMMEDIATE_MASK, CJTYPE_IMMEDIATE_MASK, riscv_imm; bits_norm;
    (split; [bitblast|]).
  all: apply signed_result_cong; bitblast.
Qed.

(** UType and C.LUI carry the rounded high part of the value: what is read back is
    not the value but re-encodes to the same field for C.LUI. *)
Definition hi20 (v : Z) : Z := Z.shiftr (u64 (v + 0x800)) 12.

Lemma riscv_utype_word v w rest :
  exists w', riscv_write UType v (le_bytes 4 w ++ rest) = Ret (le_bytes 4 w' ++ rest) /\
    Z.land w' UTYPE_IMMEDIATE_MASK = Z.land w UTYPE_IMMEDIATE_MASK /\
    Z.shiftr (u32 w') 12 = wrap 20 (hi20 v).
Proof.
  cbn [riscv_write]. unfold riscv_write_utype. rewrite and_or_le.
  eexists. split; [reflexivity|]. unfold UTYPE_IMMEDIATE_MASK, hi20. bits_norm.
  generalize (v + 2048). intros x. split; bitblast.
Qed.

Lemma clui_cong a c b d : u64 a = u64 c -> i64 b = d ->
  Ret (u64 (a - 0x800), i64 b <? 0) = Ret (u64 (c - 0x800), d <? 0).
Proof.
  intros E <-. apply value_cong. rewrite <- (wrap_id 64 (u64 (a - _))) by auto with widths.
  unfold wrap in *. by rewrite Zmod_mod, <- (Zminus_mod_idemp_l a), E, Zminus_mod_idemp_l.
Qed.

Lemma riscv_clui_word v w rest :
  exists w', riscv_write CluiType v (le_bytes 2 w ++ rest) = Ret (le_bytes 2 w' ++ rest) /\
    Z.land w' CLUITYPE_IMMEDIATE_MASK = Z.land w CLUITYPE_IMMEDIATE_MASK /\
    riscv_read CluiType (le_bytes 2 w' ++ rest)
      = Ret (u64 (Z.shiftl (sext 6 (hi20 v)) 12 - 0x800), sext 6 (hi20 v) <? 0).
Proof.
  cbn [riscv_write riscv_read]. rewrite and_or_le. eexists. split; [reflexivity|].
  rewrite u16_of_bytes_le. cbn [mbind outcome_bind]. unfold CLUITYPE_IMMEDIATE_MASK, hi20. bits_norm.
  generalize (v + 2048). intros x. split; [bitblast|].
  match goal with |- Ret (u64 (?a - _), i64 ?b <? 0) = Ret (u64 (?c - _), ?d <? 0) =>
    apply (clui_cong a c b d); bitblast end.
Qed.

(** ** LoongArch round trips *)

Definition loongarch_width (insn : LoongArch64Instruction) : Z :=
  match insn with Shift5 => 20 | Shift10 => 12 | Branch21 => 21 | Branch26 => 26 | Call30 => 30 | Call36 => 36 end.

Definition loongarch_kept (insn : LoongArch64Instruction) : Z :=
  match insn with
  | Shift5 => 0xFE00001F | Shift10 => 0xFFC003FF | Branch26 => 0xFC000000 | Branch21 => 0xFC0003E0
  | Call30 => CALL30_CLEAR | Call36 => CALL36_CLEAR
  end.

Definition loongarch_single (insn : LoongArch64Instruction) : bool :=
  match insn with Call30 | Call36 => false | _ => true end.

Definition loongarch_value (insn : LoongArch64Instruction) (v : Z) : Z * bool :=
  match insn with
  | Shift5 | Shift10 => (v, false)
  | _ => signed_result (sext (loongarch_width insn) v)
  end.

Lemma loongarch_roundtrip_word insn x w rest : loongarch_single insn = true ->
  let v := wrap (loongarch_width insn) x in
  exists w', loongarch_write insn v (le_bytes 4 w ++ rest) = Ret (le_bytes 4 w' ++ rest) /\
    Z.land w' (loongarch_kept insn) = Z.land w (loongarch_kept insn) /\
    loongarch_read insn (le_bytes 4 w' ++ rest) = Ret (loongarch_value insn v).
Proof.
  destruct insn; intros Hs; try discriminate Hs; clear Hs; cbn [loongarch_write loongarch_read
    loongarch_kept loongarch_width loongarch_value];
    rewrite and_or_le; eexists; (split; [reflexivity|]);
    rewrite u32_from_slice_le; cbn [mbind outcome_bind]; bits_norm; (split; [bitblast|]).
  1,2: apply value_cong; bitblast.
  all: apply signed_result_cong; bitblast.
Qed.

(** ** AArch64 round trips *)

(** Immediate width, and the bits that hold it. *)
Definition aarch64_width (insn : AArch64Instruction) : Z :=
  match insn with
  | Adr => 21 | Movkz => 16 | Movnz => 16 | Ldr => 19 | LdrRegister => 12 | Add => 12 | LdSt => 12
  | TstBr => 14 | Bcond => 19 | JumpCall => 26
  end.

Definition aarch64_field (insn : AArch64Instruction) : Z :=
  match insn with
  | Adr => 0x60FFFFE0 | Movkz => 0x001FFFE0 | Movnz => 0xFF9FFFE0 | Ldr => 0x00FFFFE0
  | LdrRegister | Add | LdSt => 0x003FFC00 | TstBr => 0x0007FFE0 | Bcond => 0x00FFFFE0
  | JumpCall => 0x03FFFFFF
  end.

(** What [read_value] makes of an immediate [v] of that width. *)
Definition aarch64_value (insn : AArch64Instruction) (v : Z) (negative : bool) : Z * bool :=
  match insn with
  | LdrRegister | Add => (v, false)
  | Movnz => (if negative then not_w 64 (wrap 16 (Z.lnot v)) else v, negative)
  | _ => (u64 (sext (aarch64_width insn) v), false)
  end.

(** A word whose immediate field is still zero. *)
Definition field_clear (insn : AArch64Instruction) (w : Z) : Prop :=
  exists x, w = u32 (Z.land x (Z.lnot (aarch64_field insn))).

Lemma land_pow2_zero x k : 0 <= k -> (Z.land x (Z.shiftl 1 k) =? 0) = negb (Z.testbit x k).
Proof.
  intros Hk. rewrite Z.shiftl_1_l, <- land_pow2_testbit by done. by rewrite negb_involutive.
Qed.

Lemma aarch64_roundtrip_word insn x w rest negative : insn <> Movnz -> field_clear insn w ->
  let v := wrap (aarch64_width insn) x in
  exists w', aarch64_write insn v negative (le_bytes 4 w ++ rest) = Ret (le_bytes 4 w' ++ rest) /\
    Z.land w' (Z.lnot (aarch64_field insn)) = w /\
    aarch64_read insn (le_bytes 4 w' ++ rest) = Ret (aarch64_value insn v negative).
Proof.
  intros Hne [y ->]; destruct insn; try (by destruct Hne); clear Hne; unfold aarch64_read;
    cbn [aarch64_write aarch64_field aarch64_width aarch64_value];
    rewrite or_from_slice_le; eexists; (split; [reflexivity|]);
    rewrite u32_from_slice_le; cbn [mbind outcome_bind]; bits_norm; (split; [bitblast|]);
    apply value_cong; bitblast.
Qed.

(** ** Properties *)

(** The RISC-V immediate formats I, S, B, J, CB and CJ: writing any value
    replaces exactly the immediate field, keeps every other bit of the
    instruction and all following bytes, and reads back as the value's low bits,
    sign-extended (with bit 0 dropped for branches and jumps). *)
Theorem riscv_immediate_roundtrip insn v d : riscv_single insn = true -> is_uint 64 v ->
  is_bytes d -> Z.of_nat (riscv_size insn) <= len d ->
  exists w w' rest, d = le_bytes (riscv_size insn) w ++ rest /\
    riscv_write insn v d = Ret (le_bytes (riscv_size insn) w' ++ rest) /\
    Z.land w' (riscv_kept insn) = Z.land w (riscv_kept insn) /\
    riscv_read insn (le_bytes (riscv_size insn) w' ++ rest)
      = Ret (u64 (riscv_imm insn v), riscv_imm insn v <? 0).
Proof.
  intros Hs Hv Hd Hl. destruct (buffer_word _ _ Hd Hl) as (w & rest & _ & ->).
  destruct (riscv_roundtrip_word insn v w rest Hs) as (w' & H1 & H2 & H3).
  rewrite (wrap_id 64 v Hv) in *. exists w, w', rest. auto.
Qed.

Lemma riscv_immediate_roundtrip_witness :
  exists w w' rest, [0x63; 0x06; 0xB5; 0x00; 7] = le_bytes 4 w ++ rest /\
    riscv_write BType (u64 (-4096)) (le_bytes 4 w ++ rest) = Ret (le_bytes 4 w' ++ rest) /\
    riscv_read BType (le_bytes 4 w' ++ rest) = Ret (u64 (-4096), true).
Proof.
  destruct (riscv_immediate_roundtrip BType (u64 (-4096)) [0x63; 0x06; 0xB5; 0x00; 7])
    as (w & w' & rest & E & H1 & _ & H3).
  - reflexivity.
  - apply wrap64_uint.
  - repeat constructor; done.
  - unfold len; simpl; lia.
  - exists w, w', rest. split; [exact E|]. split; [|exact H3].
    change 4%nat with (riscv_size BType). by rewrite <- E.
Defined.

(** [read_value] is not the inverse of [write_to_value] for three formats, though
    it is documented as such: an AArch64 load/store offset with its top bit set
    comes back sign-extended, a LoongArch 36-bit call comes back with 0x8000
    subtracted before the low part is merged, and a 30-bit call is read from the
    wrong one of its two instructions. *)
Theorem read_value_not_inverse :
  (forall v w rest negative, 2 ^ 11 <= v < 2 ^ 12 -> field_clear LdSt w ->
     exists out, write_to_value (AArch64 LdSt) v negative (le_bytes 4 w ++ rest) = Ret out /\
       read_value (AArch64 LdSt) out = Ret (v + 2 ^ 64 - 2 ^ 12, false)) /\
  (forall v w rest negative, 0 <= v < 2 ^ 15 ->
     exists out, write_to_value (LoongArch64 Call36) v negative (le_bytes 8 w ++ rest) = Ret out /\
       read_value (LoongArch64 Call36) out = Ret (Z.lor 0xFFFF8000 v, false)) /\
  (forall v w rest negative, 0 <= v < 2 ^ 9 ->
     exists out, write_to_value (LoongArch64 Call30) v negative (le_bytes 8 w ++ rest) = Ret out /\
       read_value (LoongArch64 Call30) out
         = Ret (Z.lor (Z.shiftl (Z.land (Z.shiftr (Z.lor (Z.land (Z.shiftr w 32) 0xFFF803FF)
                                                         (Z.shiftl v 10)) 5) 0x7ffff) 9) 0, false)).
Proof.
  split_and!; intros v w rest negative Hv.
  - intros Hw. destruct (aarch64_roundtrip_word LdSt v w rest negative ltac:(done) Hw) as (w' & H1 & _ & H3).
    rewrite wrap_id in * by (unfold is_uint; cbn; lia).
    eexists. split; [exact H1|]. cbn [read_value]. rewrite H3. cbn [aarch64_value]. apply value_cong.
    cbn [aarch64_width].
    assert (E : sext 12 v = v - 2 ^ 12).
    { unfold sext. change (2 ^ (12 - 1)) with (2 ^ 11).
      rewrite <- (Z.mod_unique_pos (v + 2 ^ 11) (2 ^ 12) 1 (v - 2 ^ 11)); lia. }
    rewrite E. unfold wrap. symmetry. apply (Z.mod_unique_pos _ _ (-1)); lia.
  - cbn [write_to_value loongarch_write read_value loongarch_read]. rewrite and_or_le.
    eexists. split; [reflexivity|]. rewrite u64_from_slice_le. cbn [mbind outcome_bind].
    apply value_cong. unfold shl64, shr64, CALL36_CLEAR.
    assert (E1 : Z.shiftr (u64 (v + 32768)) (16 mod 64) = 0).
    { rewrite wrap_id by (unfold is_uint; lia). rewrite Z.shiftr_div_pow2 by (vm_compute; done).
      apply Z.div_small. change (16 mod 64) with 16. lia. }
    rewrite E1.
    match goal with |- Z.lor (Z.land (u64 (?a - _)) _) ?b = _ =>
      assert (Ea : a = 0) by bitblast; assert (Eb : b = wrap 16 v) by bitblast end.
    rewrite Ea, Eb, (wrap_id 16) by (unfold is_uint; lia). reflexivity.
  - cbn [write_to_value loongarch_write read_value loongarch_read]. rewrite and_or_le.
    eexists. split; [reflexivity|]. rewrite u64_from_slice_le. cbn [mbind outcome_bind].
    apply value_cong. unfold shl64, shl32, shr64, CALL30_CLEAR, not_w.
    rewrite <- (wrap_id 9 v) by (unfold is_uint; lia). bitblast.
Qed.

(** [bit_mask] finds the immediate field of every AArch64 format (except the
    opcode-rewriting MOVN/MOVZ), of the single-instruction RISC-V formats and of
    the LoongArch single-instruction formats: writing all ones into zeros and
    inverting leaves exactly the bits outside the field. *)
Lemma bit_mask_field :
  (forall i, i <> Movnz -> bit_mask (AArch64 i) (mkRange 0 (aarch64_width i))
     = Ret (le_bytes 4 (Z.lnot (aarch64_field i)))) /\
  (forall i, riscv_single i = true -> bit_mask (RiscV i) (mkRange 0 32)
     = Ret (le_bytes (riscv_size i) (riscv_kept i) ++ List.repeat 0xff (4 - riscv_size i))) /\
  (forall i, loongarch_single i = true -> bit_mask (LoongArch64 i) (mkRange 0 (loongarch_width i))
     = Ret (le_bytes 4 (loongarch_kept i))).
Proof.
  split_and!; intros i Hi; destruct i; (done || discriminate Hi || (vm_compute; reflexivity)).
Qed.

(** For the formats that rewrite two instructions [bit_mask] panics, because it
    passes a four-byte buffer to an encoder that needs eight; and
    [write_windows_size] says four bytes although such a write changes the
    fifth.  For the RISC-V high part the mask is all ones: rounding carries the
    all-ones value out of the field. *)
Theorem wide_formats_unsupported e :
  bit_mask (RiscV UiType) (mkRange 0 e) = Panic /\
  bit_mask (LoongArch64 Call36) (mkRange 0 e) = Panic /\
  bit_mask (LoongArch64 Call30) (mkRange 0 e) = Panic /\
  bit_mask (RiscV UType) (mkRange 0 32) = Ret [0xff; 0xff; 0xff; 0xff] /\
  write_windows_size (LoongArch64 Call36) = 4 /\
  exists out, write_to_value (LoongArch64 Call36) 1 false (List.repeat 0 8) = Ret out /\
    get out 5 <> get (List.repeat 0 8) 5.
Proof.
  assert (Hshort : forall c m, and_or 8 [0; 0; 0; 0] c m = Panic).
  { intros c m. unfold and_or. by rewrite and_from_slice_short by (rewrite le_bytes_len; unfold len; simpl; lia). }
  split_and!; try (unfold bit_mask; cbn [write_to_value range_start range_end loongarch_write]; rewrite ?Hshort; reflexivity).
  eexists. split; [vm_compute; reflexivity|]. vm_compute. discriminate.
Qed.
