(* ===== verification/RelocInfo.v ===== *)
(** What a relocation is and how it is applied ([linker-utils/src/elf.rs] and the
    buffer writer of [libwild/src/elf.rs]): kinds, sizes, allowed ranges, the
    range and alignment check, the dynamic relocation kinds, and
    [write_relocation_to_buffer].

    The numeric [R_*] constants come from the [object] crate and are parameters
    here, as is the [leb128] crate's encoder. *)
From S2P Require Import Prelude Bits BitMisc RelocInsn.

Inductive Sign := Signed | Unsigned.

Inductive RelocationKind :=
| Absolute | AbsoluteSet | AbsoluteSetWord6 | AbsoluteAddition | AbsoluteAdditionWord6
| AbsoluteSubtraction | AbsoluteSubtractionWord6 | AbsoluteLowPart
| PairSubtractionULEB128 (r_type : Z)
| Relative | RelativeLoongArchHigh | RelativeRiscVLow12 | SymRelGotBase | GotRelGotBase | Got
| PltRelGotBase | PltRelative | GotRelative | GotRelativeLoongArch64
| TlsGd | TlsGdGot | TlsGdGotBase | TlsLd | TlsLdGot | TlsLdGotBase | DtpOff
| GotTpOff | GotTpOffLoongArch64 | GotTpOffGot | GotTpOffGotBase | TpOff
| TlsDesc | TlsDescLoongArch64 | TlsDescGot | TlsDescGotBase | TlsDescCall
| KNone | Alignment.

Definition is_tls (k : RelocationKind) : bool :=
  match k with
  | DtpOff | GotTpOff | GotTpOffGotBase | TlsDesc | TlsDescCall | TlsDescGot | TlsDescGotBase
  | TlsGd | TlsGdGot | TlsGdGotBase | TlsLd | TlsLdGot | TlsLdGotBase | TpOff => true
  | _ => false
  end.

Record BitMask := mkBitMask { bm_instruction : RelocationInstruction; bm_range : BitRange }.

Inductive RelocationSize := ByteSize (n : Z) | BitMasking (m : BitMask).

Definition bit_mask_aarch64 (s e : Z) (i : AArch64Instruction) : RelocationSize :=
  BitMasking (mkBitMask (AArch64 i) (mkRange s e)).
Definition bit_mask_riscv (s e : Z) (i : RiscVInstruction) : RelocationSize :=
  BitMasking (mkBitMask (RiscV i) (mkRange s e)).
Definition bit_mask_loongarch64 (s e : Z) (i : LoongArch64Instruction) : RelocationSize :=
  BitMasking (mkBitMask (LoongArch64 i) (mkRange s e)).

Definition SIZE_2KB : Z := Z.shiftl 1 11.
Definition SIZE_4KB : Z := Z.shiftl 1 12.
Definition SIZE_2GB : Z := Z.shiftl 1 31.
Definition SIZE_4GB : Z := Z.shiftl 1 32.
Definition PAGE_MASK_4KB : Z := SIZE_4KB - 1.
Definition PAGE_MASK_4GB : Z := SIZE_4GB - 1.

Inductive PageMask :=
| SymbolPlusAddendAndPosition (mask : Z)
| GotEntryAndPosition (mask : Z)
| GotBase (mask : Z)
| Position (mask : Z).

(** ** Allowed ranges *)

Record AllowedRange := mkAllowed { ar_min : Z; ar_max : Z }.

Definition no_check : AllowedRange := mkAllowed (- 2 ^ 63) (2 ^ 63 - 1).

Definition from_bit_size (n_bits : Z) (sign : Sign) : outcome AllowedRange :=
  if (n_bits =? 0) || (n_bits =? 64) then Ret no_check
  else if (n_bits =? 63) && (match sign with Unsigned => true | Signed => false end) then Panic
  else if (1 <=? n_bits) && (n_bits <? 64) then
    Ret (match sign with
         | Unsigned => mkAllowed 0 (2 ^ n_bits)
         | Signed => mkAllowed (- 2 ^ (n_bits - 1)) (2 ^ (n_bits - 1))
         end)
  else Panic.

Definition from_byte_size (n_bytes : Z) (sign : Sign) : outcome AllowedRange :=
  from_bit_size (8 * n_bytes) sign.

Definition ar_contains (r : AllowedRange) (value : Z) : bool :=
  (ar_min r <=? value) && (value <? ar_max r).

Record RelocationKindInfo := mkInfo {
  ri_kind : RelocationKind;
  ri_size : RelocationSize;
  ri_mask : option PageMask;
  ri_range : AllowedRange;
  ri_alignment : Z;
  ri_bias : Z;
}.

(** The [anyhow] errors of this module, without their formatted text. *)
Inductive RelocError := NotAligned | OutsideRange | OutsideSection | UlebTooLong.

(** [usize::is_multiple_of]. *)
Definition is_multiple_of (x a : Z) : bool := if a =? 0 then x =? 0 else x mod a =? 0.

Definition verify (info : RelocationKindInfo) (value : Z) : result unit RelocError :=
  if negb (is_multiple_of (u64 value) (ri_alignment info)) then Err NotAligned
  else if negb (ar_contains (ri_range info) value) then Err OutsideRange
  else Ok tt.

(** ** Page masks *)

Record PageMaskValue := mkPageMask {
  pm_symbol_plus_addend : Z; pm_got_entry : Z; pm_got : Z; pm_place : Z;
}.

Definition u64_max : Z := 2 ^ 64 - 1.
Definition page_mask_default : PageMaskValue := mkPageMask u64_max u64_max u64_max u64_max.

Definition get_page_mask (mask : option PageMask) : PageMaskValue :=
  match mask with
  | None => page_mask_default
  | Some (SymbolPlusAddendAndPosition m) => mkPageMask (not_w 64 m) u64_max u64_max (not_w 64 m)
  | Some (GotEntryAndPosition m) => mkPageMask u64_max (not_w 64 m) u64_max (not_w 64 m)
  | Some (GotBase m) => mkPageMask u64_max u64_max (not_w 64 m) u64_max
  | Some (Position m) => mkPageMask u64_max u64_max u64_max (not_w 64 m)
  end.

(** ** Applying a relocation *)

(** Overwrite the first bytes of [output]. *)
Definition copy_prefix (output src : bytes) : outcome bytes :=
  rest ← slice_from output (len src); Ret (src ++ rest).

Section write.
(** [leb128::write::unsigned]. *)
Context (uleb : Z -> bytes).

Definition is_pair_uleb (k : RelocationKind) : bool :=
  match k with PairSubtractionULEB128 _ => true | _ => false end.

Definition write_relocation_to_buffer (info : RelocationKindInfo) (value : Z) (output : bytes)
  : outcome (result bytes RelocError) :=
  match verify info (i64 value) with
  | Err e => Ret (Err e)
  | Ok _ =>
      if is_pair_uleb (ri_kind info) then
        let enc := uleb value in
        if len output <? len enc then Ret (Err UlebTooLong)
        else out ← copy_prefix output enc; Ret (Ok out)
      else
        match ri_size info with
        | ByteSize n =>
            if len output <? n then Ret (Err OutsideSection)
            else
              src ← slice (le_bytes 8 value) 0 n;
              out ← copy_prefix output src;
              Ret (Ok out)
        | BitMasking m =>
            let extracted_value := extract_bit_range value (range_start (bm_range m)) (range_end (bm_range m)) in
            let negative := i64 value <? 0 in
            out ← write_to_value (bm_instruction m) extracted_value negative output;
            Ret (Ok out)
        end
  end.
End write.

(** ** Dynamic relocation kinds *)

Inductive DynamicRelocationKind :=
| DCopy | DIrelative | DDtpMod | DDtpOff | DTlsDesc | DTpOff | DRelative | DAbsolute | DGotEntry | DJumpSlot.

(** The [object::elf::R_*] numbers one architecture uses for them. *)
Record dyn_constants := {
  R_COPY : Z; R_IRELATIVE : Z; R_DTPMOD : Z; R_DTPOFF : Z; R_TPOFF : Z; R_RELATIVE : Z;
  R_GLOB_DAT : Z; R_ABS : Z; R_TLSDESC : Z; R_JUMP_SLOT : Z;
}.

(** A [match] on constants: the first row whose constant is [r]. *)
Fixpoint match_const {A} (rows : list (Z * A)) (r : Z) : option A :=
  match rows with
  | [] => None
  | (k, a) :: rows => if r =? k then Some a else match_const rows r
  end.

Section dynamic.
Context (c : dyn_constants).

Definition from_x86_64_r_type (r : Z) : option DynamicRelocationKind :=
  match_const [(R_COPY c, DCopy); (R_IRELATIVE c, DIrelative); (R_DTPMOD c, DDtpMod);
    (R_DTPOFF c, DDtpOff); (R_TPOFF c, DTpOff); (R_RELATIVE c, DRelative);
    (R_GLOB_DAT c, DGotEntry); (R_ABS c, DAbsolute); (R_TLSDESC c, DTlsDesc);
    (R_JUMP_SLOT c, DJumpSlot)] r.

Definition x86_64_r_type (k : DynamicRelocationKind) : Z :=
  match k with
  | DCopy => R_COPY c | DIrelative => R_IRELATIVE c | DDtpMod => R_DTPMOD c | DDtpOff => R_DTPOFF c
  | DTpOff => R_TPOFF c | DRelative => R_RELATIVE c | DAbsolute => R_ABS c | DGotEntry => R_GLOB_DAT c
  | DTlsDesc => R_TLSDESC c | DJumpSlot => R_JUMP_SLOT c
  end.

Definition from_aarch64_r_type (r : Z) : option DynamicRelocationKind :=
  match_const [(R_COPY c, DCopy); (R_IRELATIVE c, DIrelative); (R_DTPMOD c, DDtpMod);
    (R_DTPOFF c, DDtpOff); (R_TPOFF c, DTpOff); (R_RELATIVE c, DRelative);
    (R_ABS c, DAbsolute); (R_GLOB_DAT c, DGotEntry); (R_TLSDESC c, DTlsDesc);
    (R_JUMP_SLOT c, DJumpSlot)] r.

Definition aarch64_r_type (k : DynamicRelocationKind) : Z :=
  match k with
  | DCopy => R_COPY c | DIrelative => R_IRELATIVE c | DDtpMod => R_DTPMOD c | DDtpOff => R_DTPOFF c
  | DTpOff => R_TPOFF c | DRelative => R_RELATIVE c | DAbsolute => R_ABS c | DGotEntry => R_GLOB_DAT c
  | DTlsDesc => R_TLSDESC c | DJumpSlot => R_JUMP_SLOT c
  end.

(** RISC-V and LoongArch have no GLOB_DAT. *)
Definition from_riscv64_r_type (r : Z) : option DynamicRelocationKind :=
  match_const [(R_COPY c, DCopy); (R_IRELATIVE c, DIrelative); (R_DTPMOD c, DDtpMod);
    (R_DTPOFF c, DDtpOff); (R_TPOFF c, DTpOff); (R_RELATIVE c, DRelative);
    (R_ABS c, DAbsolute); (R_TLSDESC c, DTlsDesc); (R_JUMP_SLOT c, DJumpSlot)] r.

Definition riscv64_r_type (k : DynamicRelocationKind) : Z :=
  match k with
  | DCopy => R_COPY c | DIrelative => R_IRELATIVE c | DDtpMod => R_DTPMOD c | DDtpOff => R_DTPOFF c
  | DTpOff => R_TPOFF c | DRelative => R_RELATIVE c | DAbsolute => R_ABS c | DGotEntry => R_ABS c
  | DTlsDesc => R_TLSDESC c | DJumpSlot => R_JUMP_SLOT c
  end.

Definition from_loongarch64_r_type (r : Z) : option DynamicRelocationKind :=
  match_const [(R_COPY c, DCopy); (R_IRELATIVE c, DIrelative); (R_DTPMOD c, DDtpMod);
    (R_DTPOFF c, DDtpOff); (R_TPOFF c, DTpOff); (R_RELATIVE c, DRelative);
    (R_ABS c, DAbsolute); (R_TLSDESC c, DTlsDesc); (R_JUMP_SLOT c, DJumpSlot)] r.

Definition loongarch64_r_type (k : DynamicRelocationKind) : Z :=
  match k with
  | DCopy => R_COPY c | DIrelative => R_IRELATIVE c | DDtpMod => R_DTPMOD c | DDtpOff => R_DTPOFF c
  | DTpOff => R_TPOFF c | DRelative => R_RELATIVE c | DAbsolute => R_ABS c | DGotEntry => R_ABS c
  | DTlsDesc => R_TLSDESC c | DJumpSlot => R_JUMP_SLOT c
  end.
End dynamic.

Example from_byte_size_4 : from_byte_size 4 Signed = Ret (mkAllowed (- 2 ^ 31) (2 ^ 31)).
Proof. reflexivity. Qed.

Lemma match_const_found {A} (rows : list (Z * A)) r a :
  NoDup (fst <$> rows) -> (r, a) ∈ rows -> match_const rows r = Some a.
Proof.
  induction rows as [|[k b] rows IH]; intros Hnd Hin; [by apply elem_of_nil in Hin|]. simpl.
  rewrite fmap_cons in Hnd. apply NoDup_cons in Hnd as [Hk Hnd].
  apply elem_of_cons in Hin as [[= -> ->]|Hin]; [by rewrite Z.eqb_refl|].
  destruct (Z.eqb_spec r k) as [->|]; [|by apply IH].
  destruct Hk. apply list_elem_of_fmap. by exists (k, a).
Qed.

Lemma match_const_row {A} (rows : list (Z * A)) r a : match_const rows r = Some a -> (r, a) ∈ rows.
Proof.
  induction rows as [|[k b] rows IH]; simpl; [done|].
  destruct (Z.eqb_spec r k) as [->|]; [intros [= ->]; by left|right; by apply IH].
Qed.

(** ** Ranges *)

Definition fits_bits (n : Z) (sign : Sign) (value : Z) : Prop :=
  match sign with Signed => is_sint n value | Unsigned => is_uint n value end.

Lemma from_bit_size_spec n sign : 1 <= n <= (match sign with Signed => 63 | Unsigned => 62 end) ->
  exists r, from_bit_size n sign = Ret r /\ forall v, ar_contains r v = true <-> fits_bits n sign v.
Proof.
  intros Hn. unfold from_bit_size.
  replace (n =? 0) with false by (destruct sign; lia). replace (n =? 64) with false by (destruct sign; lia).
  replace ((1 <=? n) && (n <? 64)) with true by (destruct sign; lia).
  destruct sign; rewrite ?andb_false_r; cbn [orb].
  - eexists. split; [done|]. intros v. unfold ar_contains, fits_bits, is_sint. cbn. lia.
  - replace (n =? 63) with false by lia. cbn [andb]. eexists. split; [done|].
    intros v. unfold ar_contains, fits_bits, is_uint. cbn. lia.
Qed.

(** ** Writing *)

Lemma copy_prefix_eq output src : len src <= len output ->
  copy_prefix output src = Ret (src ++ drop (length src) output).
Proof.
  intros Hl. unfold copy_prefix. rewrite slice_from_eq by (pose proof (len_nonneg src); lia).
  cbn [mbind outcome_bind]. do 3 f_equal. unfold len. lia.
Qed.

(** Reading a field back after extraction: the extracted bits of an aligned value
    in range determine the value. *)
Lemma extracted_value_exact value start m : 0 <= start -> 0 < m -> start + m < 64 ->
  is_sint (start + m) value -> value mod 2 ^ start = 0 ->
  let e := extract_bit_range (u64 value) start (start + m) in
  e = wrap m e /\ sext m e * 2 ^ start = value.
Proof.
  intros Hs Hm H64 Hv Hal e.
  assert (He : e = wrap m (Z.shiftr (u64 value) start)).
  { unfold e. rewrite extract_bit_range_eq by (auto with widths || lia). f_equal. lia. }
  split; [rewrite He; symmetry; apply wrap_id; apply wrap_bound; lia|].
  assert (Hq : Z.shiftr value start * 2 ^ start = value).
  { rewrite Z.shiftr_div_pow2 by done. apply Z.div_exact in Hal; [lia|]. apply Z.pow_nonzero; lia. }
  replace (sext m e) with (Z.shiftr value start); [done|].
  rewrite <- (sext_id m (Z.shiftr value start)); [|lia|].
  - rewrite He. apply Z.bits_inj'. intros i Hi. rewrite !sext_testbit by lia.
    set (j := if i <? m then i else m - 1). assert (0 <= j < m) by (unfold j; destruct (Z.ltb_spec i m); lia).
    rewrite wrap_testbit by lia. rewrite (proj2 (Z.ltb_lt j m)) by lia.
    rewrite !Z.shiftr_spec, wrap_testbit by lia. by rewrite (proj2 (Z.ltb_lt _ _)) by lia.
  - unfold is_sint in *. assert (E : 2 ^ (start + m - 1) = 2 ^ (m - 1) * 2 ^ start)
      by (rewrite <- Z.pow_add_r by lia; f_equal; lia).
    pose proof (Z.pow_pos_nonneg 2 start ltac:(lia) ltac:(lia)). nia.
Qed.

(** ** Lossless branch relocations *)

(** Immediate width of the PC-relative formats whose field is the low bits of the
    extracted value. *)
Definition pcrel_width (insn : RelocationInstruction) : option Z :=
  match insn with
  | AArch64 Adr => Some 21 | AArch64 Ldr => Some 19 | AArch64 TstBr => Some 14
  | AArch64 Bcond => Some 19 | AArch64 JumpCall => Some 26
  | LoongArch64 Branch26 => Some 26 | LoongArch64 Branch21 => Some 21
  | _ => None
  end.

(** AArch64 stores by OR: its field must still be zero. *)
Definition writable (insn : RelocationInstruction) (w : Z) : Prop :=
  match insn with AArch64 i => field_clear i w | _ => True end.

Lemma pcrel_roundtrip insn m e w rest negative : pcrel_width insn = Some m -> writable insn w ->
  e = wrap m e ->
  exists w' f, write_to_value insn e negative (le_bytes 4 w ++ rest) = Ret (le_bytes 4 w' ++ rest) /\
    read_value insn (le_bytes 4 w' ++ rest) = Ret (u64 (sext m e), f).
Proof.
  intros Hm Hw He. destruct insn as [i|i|i]; [|done|]; cbn [write_to_value read_value writable] in *.
  - assert (Hne : i <> Movnz) by (by intros ->).
    assert (Hmw : m = aarch64_width i) by (by destruct i; simpl in *; congruence). subst m.
    destruct (aarch64_roundtrip_word i e w rest negative Hne Hw) as (w' & H1 & _ & H3).
    rewrite <- He in *. exists w', false. split; [exact H1|]. rewrite H3.
    destruct i; simpl in Hm; try discriminate Hm; reflexivity.
  - assert (Hs : loongarch_single i = true) by (by destruct i; simpl in *; congruence).
    assert (Hmw : m = loongarch_width i) by (by destruct i; simpl in *; congruence). subst m.
    destruct (loongarch_roundtrip_word i e w rest Hs) as (w' & H1 & _ & H3).
    rewrite <- He in *. eexists w', _. split; [exact H1|]. rewrite H3.
    destruct i; simpl in Hm; try discriminate Hm; reflexivity.
Qed.

Lemma u64_multiple value start : 0 <= start < 64 ->
  is_multiple_of (u64 value) (2 ^ start) = (value mod 2 ^ start =? 0).
Proof.
  intros Hs. unfold is_multiple_of. pose proof (Z.pow_pos_nonneg 2 start ltac:(lia) ltac:(lia)).
  replace (2 ^ start =? 0) with false by lia. f_equal. unfold wrap.
  apply Z.mod_mod_divide. exists (2 ^ (64 - start)). rewrite <- Z.pow_add_r by lia. f_equal. lia.
Qed.

Lemma i64_u64 value : is_sint 64 value -> i64 (u64 value) = value.
Proof.
  intros Hv. rewrite <- (sext_id 64 value) at 2 by done. apply Z.bits_inj'. intros i Hi.
  rewrite !sext_testbit, wrap_testbit by (try lia; destruct (i <? 64) eqn:?; lia).
  destruct (Z.ltb_spec i 64) as [Hl|]; [by rewrite (proj2 (Z.ltb_lt i 64) Hl)|done].
Qed.

(** ** The RISC-V call pair *)

(** The offset an [auipc]/[jalr] pair adds to the program counter on RV64. *)
Definition call_offset (w : Z) : Z :=
  sext 32 (Z.land w 0xFFFFF000) + sext 12 (Z.shiftr w 52).

Lemma hi_lo_sum x : sext 32 (Z.shiftl (wrap 20 (Z.shiftr x 12)) 12) + wrap 12 x = sext 32 x.
Proof.
  set (h := sext 32 (Z.shiftl (wrap 20 (Z.shiftr x 12)) 12)).
  assert (Hand : Z.land h (wrap 12 x) = 0) by (unfold h; bitblast).
  assert (Hor : Z.lor h (wrap 12 x) = sext 32 x) by (unfold h; bitblast).
  rewrite <- (Z.add_lor_land h), Hand, Hor. lia.
Qed.

Lemma le_bytes_split n k w : le_bytes (n + k) w = le_bytes n w ++ le_bytes k (Z.shiftr w (8 * Z.of_nat n)).
Proof.
  revert w. induction n as [|n IH]; intros w.
  - simpl. by rewrite Z.shiftr_0_r.
  - cbn [Nat.add le_bytes app]. rewrite IH. do 3 f_equal. rewrite Z.shiftr_shiftr by lia. f_equal. lia.
Qed.

Lemma le_bytes_join n k a b :
  le_bytes n a ++ le_bytes k b = le_bytes (n + k) (Z.lor (wrap (8 * Z.of_nat n) a) (Z.shiftl b (8 * Z.of_nat n))).
Proof.
  rewrite le_bytes_split. f_equal.
  - rewrite <- (le_bytes_wrap n (Z.lor _ _)), <- (le_bytes_wrap n a). f_equal.
    apply Z.bits_inj'. intros i Hi. rewrite !wrap_testbit by lia.
    destruct (Z.ltb_spec i (8 * Z.of_nat n)) as [Hl|]; [|done].
    rewrite Z.lor_spec, wrap_testbit, Z.shiftl_spec, (proj2 (Z.ltb_lt _ _) Hl) by lia.
    by rewrite (Z.testbit_neg_r _ (i - _)), orb_false_r by lia.
  - f_equal. apply Z.bits_inj'. intros i Hi.
    rewrite Z.shiftr_spec, Z.lor_spec, wrap_testbit, Z.shiftl_spec by lia.
    rewrite (proj2 (Z.ltb_ge _ _)) by lia. rewrite orb_false_l. f_equal. lia.
Qed.

(** The words of the pair after [UiType] has been written. *)
Lemma uitype_word v w rest :
  exists w', riscv_write UiType v (le_bytes 8 w ++ rest) = Ret (le_bytes 8 w' ++ rest) /\
    Z.land w' (riscv_kept UiType) = Z.land w (riscv_kept UiType) /\
    Z.land w' 0xFFFFF000 = Z.shiftl (wrap 20 (Z.shiftr (u64 (v + 0x800)) 12)) 12 /\
    wrap 12 (Z.shiftr w' 52) = wrap 12 (u64 v).
Proof.
  cbn [riscv_write]. change 8%nat with (4 + 4)%nat. rewrite le_bytes_split, <- !app_assoc.
  change 4 with (len (le_bytes 4 w)) at 1 2.
  rewrite slice_prefix.
  cbn [mbind outcome_bind]. unfold riscv_write_utype, riscv_write_itype.
  match goal with |- context [and_or 4 (le_bytes 4 w) ?c ?m] =>
    pose proof (and_or_le 4 w c m []) as Hlo; rewrite !app_nil_r in Hlo; rewrite Hlo end.
  cbn [mbind outcome_bind].
  rewrite slice_from_len. cbn [mbind outcome_bind]. rewrite and_or_le. cbn [mbind outcome_bind].
  rewrite app_assoc, le_bytes_join. eexists. split; [reflexivity|].
  change (8 * Z.of_nat 4) with 32. unfold riscv_kept, UTYPE_IMMEDIATE_MASK, ITYPE_IMMEDIATE_MASK.
  bits_norm. generalize (v + 2048). intros x. split_and!; bitblast.
Qed.

(** Applying a PC-relative branch relocation: it succeeds just when the value is
    aligned and in range, and decoding the written instruction gives the value. *)
Lemma branch_lossless uleb insn m start kind mask bias r value w rest :
  pcrel_width insn = Some m -> 0 <= start -> start + m < 64 -> is_pair_uleb kind = false ->
  is_sint 64 value -> writable insn w -> from_bit_size (start + m) Signed = Ret r ->
  let info := mkInfo kind (BitMasking (mkBitMask insn (mkRange start (start + m)))) mask r (2 ^ start) bias in
  match write_relocation_to_buffer uleb info (u64 value) (le_bytes 4 w ++ rest) with
  | Ret (Ok out) =>
      is_sint (start + m) value /\ value mod 2 ^ start = 0 /\
      exists v f, read_value insn out = Ret (v, f) /\ i64 v * 2 ^ start = value
  | Ret (Err _) => value mod 2 ^ start <> 0 \/ ~ is_sint (start + m) value
  | Panic => False
  end.
Proof.
  intros Hm Hs H64 Hk Hv Hw Hr info.
  assert (Hm0 : 12 < m) by (destruct insn as [i|i|i]; destruct i; simpl in Hm; try discriminate Hm;
    injection Hm; lia).
  destruct (from_bit_size_spec (start + m) Signed ltac:(cbv beta iota; lia)) as (r' & Hr' & Hin).
  rewrite Hr in Hr'. injection Hr' as <-. cbn [fits_bits] in Hin.
  unfold write_relocation_to_buffer, verify. subst info. cbn [ri_kind ri_size ri_range ri_alignment bm_range
    bm_instruction range_start range_end].
  rewrite i64_u64, Hk by done. rewrite u64_multiple by lia.
  destruct (Z.eqb_spec (value mod 2 ^ start) 0) as [Hal|Hal]; cbn [negb]; [|by left].
  destruct (ar_contains r value) eqn:Hc; cbn [negb];
    [|right; rewrite <- Hin, Hc; done].
  apply Hin in Hc. destruct (extracted_value_exact value start m Hs ltac:(lia) H64 Hc Hal) as [He Hq].
  destruct (pcrel_roundtrip insn m _ w rest (value <? 0) Hm Hw He) as (w' & f & -> & Hread).
  cbn [mbind outcome_bind]. split_and!; [done..|]. eexists _, f. split; [exact Hread|].
  rewrite i64_u64; [done|].
  pose proof (sext_bound m (extract_bit_range (u64 value) start (start + m)) ltac:(lia)) as Hb.
  unfold is_sint in *. pose proof (Z.pow_le_mono_r 2 (m - 1) 63 ltac:(lia) ltac:(lia)).
  change (64 - 1) with 63. lia.
Qed.

(** ** Properties *)

(** The [auipc]/[jalr] pair written for a RISC-V call: on RV64 the pair adds the
    relocation value to the program counter exactly when the value lies in
    [-2^31 - 0x800, 2^31 - 0x800); outside it the offset is off by a multiple of
    2^32.  The allowed range in the relocation table goes up to 2^32. *)
Theorem riscv_call_reach v w rest : is_sint 64 v ->
  exists w', riscv_write UiType (u64 v) (le_bytes 8 w ++ rest) = Ret (le_bytes 8 w' ++ rest) /\
    Z.land w' (riscv_kept UiType) = Z.land w (riscv_kept UiType) /\
    call_offset w' = sext 32 (v + 0x800) - 0x800 /\
    (call_offset w' = v <-> - 2 ^ 31 - 0x800 <= v < 2 ^ 31 - 0x800).
Proof.
  intros Hv. destruct (uitype_word (u64 v) w rest) as (w' & H1 & H2 & H3 & H4).
  exists w'. split; [exact H1|]. split; [exact H2|].
  assert (E : call_offset w' = sext 32 (v + 0x800) - 0x800).
  { unfold call_offset. rewrite H3.
    assert (E12 : sext 12 (Z.shiftr w' 52) = sext 12 v).
    { replace (sext 12 (Z.shiftr w' 52)) with (sext 12 (wrap 12 (Z.shiftr w' 52))) by bitblast.
      rewrite H4. bitblast. }
    rewrite E12.
    replace (u64 (u64 v + 0x800)) with (u64 (v + 0x800))
      by (unfold wrap; by rewrite Zplus_mod_idemp_l).
    replace (wrap 20 (Z.shiftr (u64 (v + 0x800)) 12)) with (wrap 20 (Z.shiftr (v + 0x800) 12))
      by (generalize (v + 0x800); intros x; bitblast).
    assert (El : sext 12 v = wrap 12 (v + 0x800) - 0x800) by reflexivity.
    rewrite El, <- (hi_lo_sum (v + 0x800)). lia. }
  split; [exact E|]. rewrite E. split.
  - intros Heq. pose proof (sext_bound 32 (v + 0x800) ltac:(lia)) as Hb. unfold is_sint in Hb.
    change (32 - 1) with 31 in Hb. lia.
  - intros Hr. rewrite sext_id by (unfold is_sint; change (32 - 1) with 31; lia). lia.
Qed.

(** The value [2^31] is accepted by the relocation's range and lands 4 GiB below its
    target. *)
Lemma riscv_call_reach_witness :
  ar_contains (mkAllowed (- 2 ^ 31) (2 ^ 32)) (2 ^ 31) = true /\
  exists w', riscv_write UiType (u64 (2 ^ 31)) (le_bytes 8 0x000080e700000097) = Ret (le_bytes 8 w') /\
    call_offset w' = - 2 ^ 31.
Proof.
  split; [reflexivity|].
  destruct (riscv_call_reach (2 ^ 31) 0x000080e700000097 [] ltac:(unfold is_sint; lia)) as (w' & H1 & _ & H3 & _).
  exists w'. rewrite !app_nil_r in H1. split; [exact H1|]. by rewrite H3.
Defined.

Lemma slice_le_bytes n k v : (n <= k)%nat -> slice (le_bytes k v) 0 (Z.of_nat n) = Ret (le_bytes n v).
Proof.
  intros Hn. replace k with (n + (k - n))%nat by lia. rewrite le_bytes_split.
  rewrite <- (le_bytes_len n v) at 2. apply slice_prefix.
Qed.

(** Byte-sized relocations keep their value: for 1, 2 or 4 bytes with the range
    of that size, applying one succeeds exactly when the value fits and the
    section has room, changes only those bytes, and the bytes read back
    (extended by the field's sign) are the value; it never panics. *)
Theorem byte_relocation_lossless uleb n sign kind mask r bias value out :
  (n = 1 \/ n = 2 \/ n = 4)%nat -> is_pair_uleb kind = false -> is_sint 64 value ->
  from_byte_size (Z.of_nat n) sign = Ret r ->
  let info := mkInfo kind (ByteSize (Z.of_nat n)) mask r 1 bias in
  let fits := fits_bits (8 * Z.of_nat n) sign value in
  match write_relocation_to_buffer uleb info (u64 value) out with
  | Ret (Ok out') =>
      fits /\ Z.of_nat n <= len out /\ len out' = len out /\
      (forall i, Z.of_nat n <= i -> get out' i = get out i) /\
      from_slice (Z.of_nat n) out' = Ret (wrap (8 * Z.of_nat n) value) /\
      (match sign with Signed => sext | Unsigned => wrap end) (8 * Z.of_nat n) value = value
  | Ret (Err _) => ~ fits \/ len out < Z.of_nat n
  | Panic => False
  end.
Proof.
  intros Hn Hk Hv Hr info fits.
  assert (Hn4 : (1 <= n <= 4)%nat) by lia.
  destruct (from_bit_size_spec (8 * Z.of_nat n) sign ltac:(destruct sign; lia)) as (r' & Hr' & Hin).
  unfold from_byte_size in Hr. rewrite Hr in Hr'. injection Hr' as <-.
  unfold write_relocation_to_buffer, verify. subst info. cbn [ri_kind ri_size ri_range ri_alignment].
  rewrite i64_u64, Hk by done. change 1 with (2 ^ 0) at 1. rewrite u64_multiple by lia.
  rewrite Z.mod_1_r. cbn [Z.eqb negb].
  destruct (ar_contains r value) eqn:Hc; cbn [negb];
    [|left; unfold fits; rewrite <- Hin, Hc; done].
  apply Hin in Hc. destruct (Z.ltb_spec (len out) (Z.of_nat n)) as [|Hl]; [by right|].
  rewrite slice_le_bytes by lia. cbn [mbind outcome_bind].
  assert (Hlen : length (le_bytes n (u64 value)) = n) by apply le_bytes_length.
  rewrite copy_prefix_eq by (rewrite le_bytes_len; done). cbn [mbind outcome_bind].
  rewrite Hlen. split_and!; [done|done| | | |].
  - rewrite len_app, le_bytes_len, len_drop. lia.
  - intros i Hi. unfold get. rewrite len_app, le_bytes_len, len_drop.
    replace (Z.of_nat n + Z.max 0 (len out - Z.of_nat n)) with (len out) by lia.
    destruct (_ && _) eqn:Hb; [|done].
    rewrite lookup_app_r by lia. rewrite Hlen, lookup_drop. f_equal. lia.
  - rewrite from_slice_le. f_equal. apply Z.bits_inj'. intros i Hi.
    rewrite !(wrap_testbit (8 * Z.of_nat n)), wrap_testbit by lia.
    destruct (Z.ltb_spec i (8 * Z.of_nat n)); [|done]. by rewrite (proj2 (Z.ltb_lt i 64)) by lia.
  - destruct sign; [apply sext_id; [lia|done]|by apply wrap_id].
Qed.

Lemma byte_relocation_lossless_witness :
  exists out', write_relocation_to_buffer (fun _ => [])
      (mkInfo Relative (ByteSize 4) None (mkAllowed (- 2 ^ 31) (2 ^ 31)) 1 0) (u64 (-5)) [0; 0; 0; 0; 9]
      = Ret (Ok out') /\ from_slice 4 out' = Ret (wrap 32 (-5)).
Proof.
  pose proof (byte_relocation_lossless (fun _ => []) 4 Signed Relative None
    (mkAllowed (- 2 ^ 31) (2 ^ 31)) 0 (-5) [0; 0; 0; 0; 9] ltac:(lia) eq_refl
    ltac:(unfold is_sint; lia) eq_refl) as H.
  cbv zeta in H.
  destruct (write_relocation_to_buffer _ _ _ _) as [[out|e]|] eqn:E in H.
  - exists out. split; [exact E|]. exact (proj1 (proj2 (proj2 (proj2 (proj2 H))))).
  - exfalso. vm_compute in E. discriminate E.
  - done.
Defined.

(** Dynamic relocation kinds and ELF numbers are inverse to each other on every
    architecture: a kind's number maps back to the kind, except that on RISC-V
    and LoongArch, which share one number for both, a GOT entry maps back to an
    absolute relocation; and a number that maps to a kind is that kind's. *)
Theorem dynamic_kind_roundtrip c k :
  NoDup [R_COPY c; R_IRELATIVE c; R_DTPMOD c; R_DTPOFF c; R_TPOFF c; R_RELATIVE c; R_GLOB_DAT c;
         R_ABS c; R_TLSDESC c; R_JUMP_SLOT c] ->
  from_x86_64_r_type c (x86_64_r_type c k) = Some k /\
  from_aarch64_r_type c (aarch64_r_type c k) = Some k /\
  (let k' := match k with DGotEntry => DAbsolute | _ => k end in
   from_riscv64_r_type c (riscv64_r_type c k) = Some k' /\
   from_loongarch64_r_type c (loongarch64_r_type c k) = Some k') /\
  forall r, (from_x86_64_r_type c r = Some k -> x86_64_r_type c k = r) /\
            (from_riscv64_r_type c r = Some k -> riscv64_r_type c k = r).
Proof.
  intros Hnd.
  assert (Ha : NoDup [R_COPY c; R_IRELATIVE c; R_DTPMOD c; R_DTPOFF c; R_TPOFF c; R_RELATIVE c;
    R_ABS c; R_GLOB_DAT c; R_TLSDESC c; R_JUMP_SLOT c]).
  { revert Hnd. match goal with |- NoDup ?l -> NoDup ?k =>
      assert (P : l ≡ₚ k) by (do 6 apply perm_skip; apply perm_swap) end.
    by rewrite P. }
  assert (Hr : NoDup [R_COPY c; R_IRELATIVE c; R_DTPMOD c; R_DTPOFF c; R_TPOFF c; R_RELATIVE c;
    R_ABS c; R_TLSDESC c; R_JUMP_SLOT c]).
  { eapply sublist_NoDup; [exact Hnd|]. do 6 apply sublist_skip. apply sublist_cons. done. }
  cbv zeta. split_and!; [| | | |intros r; split].
  1-4: apply match_const_found; [assumption|]; destruct k; cbn; rewrite ?elem_of_cons; tauto.
  all: intros H%match_const_row; rewrite !elem_of_cons, elem_of_nil in H;
    repeat destruct H as [[= -> ->]|H]; done.
Qed.

Definition x86_64_constants : dyn_constants :=
  {| R_COPY := 5; R_IRELATIVE := 37; R_DTPMOD := 16; R_DTPOFF := 17; R_TPOFF := 18; R_RELATIVE := 8;
     R_GLOB_DAT := 6; R_ABS := 1; R_TLSDESC := 36; R_JUMP_SLOT := 7 |}.

Lemma dynamic_kind_roundtrip_witness :
  from_x86_64_r_type x86_64_constants (x86_64_r_type x86_64_constants DJumpSlot) = Some DJumpSlot.
Proof.
  refine (proj1 (dynamic_kind_roundtrip x86_64_constants DJumpSlot _)).
  apply (bool_decide_unpack _). reflexivity.
Defined.
