(* ===== verification/RelocTables.v ===== *)
(** The shape the four relocation tables share: a [match] on the relocation number
    whose arms give a [RelocationKindInfo], give nothing, or, when a range is
    built from a size that does not fit, panic.  The class [RelocTable] is the
    interface through which the theorems below see an architecture's table. *)
From S2P Require Import Prelude Bits BitMisc RelocInsn RelocInfo.

Definition entry : Type := outcome (option RelocationKindInfo).

Definition row (kind : RelocationKind) (size : RelocationSize) (mask : option PageMask)
  (range : outcome AllowedRange) (alignment bias : Z) : entry :=
  r ← range; Ret (Some (mkInfo kind size mask r alignment bias)).

(** [return None]. *)
Definition unsupported : entry := Ret None.

Fixpoint match_arms {N} (num : N -> Z) (arms : list (list N * entry)) (r_type : Z) : entry :=
  match arms with
  | [] => unsupported
  | (pats, body) :: arms =>
      if existsb (fun n => num n =? r_type) pats then body else match_arms num arms r_type
  end.

Class RelocTable (N : Type) := {
  table_num : N -> Z;
  table_arms : list (list N * entry);
}.

Definition from_raw {N} {T : RelocTable N} (r_type : Z) : entry := match_arms table_num table_arms r_type.

(** ** Reading a table *)

Section tables.
Context {N : Type} (num : N -> Z).

(** A check of every arm: it does not panic, and its description passes [p]. *)
Definition arms_all (p : list N -> RelocationKindInfo -> bool) (arms : list (list N * entry)) : bool :=
  forallb (fun a => match snd a with
                    | Ret (Some info) => p (fst a) info
                    | Ret None => true
                    | Panic => false
                    end) arms.

Lemma match_arms_cases p arms r : arms_all p arms = true ->
  match_arms num arms r = Ret None \/
  exists pats n info, match_arms num arms r = Ret (Some info) /\ In n pats /\ num n = r /\
    p pats info = true.
Proof.
  induction arms as [|[pats body] arms IH]; cbn [match_arms arms_all forallb]; [by left|].
  intros [Hp Hall]%andb_true_iff. cbn [fst snd] in Hp.
  destruct (existsb (fun n => num n =? r) pats) eqn:E; [|by apply IH].
  apply existsb_exists in E as (n & Hin & Hn%Z.eqb_eq).
  destruct body as [[info|]|]; [right; by exists pats, n, info|by left|done].
Qed.

Lemma match_arms_Some p arms r info : arms_all p arms = true ->
  match_arms num arms r = Ret (Some info) ->
  exists pats n, In n pats /\ num n = r /\ p pats info = true.
Proof.
  intros Hp H. destruct (match_arms_cases p arms r Hp) as [E|(pats & n & info' & E & H1)]; rewrite E in H.
  - discriminate H.
  - injection H as ->. eauto.
Qed.
End tables.

(** ** What a description needs of its buffer *)

(** The bytes an instruction format occupies, and the bytes a relocation writes. *)
Definition insn_size (insn : RelocationInstruction) : Z :=
  match insn with
  | AArch64 _ => 4
  | RiscV i => Z.of_nat (riscv_size i)
  | LoongArch64 (Call30 | Call36) => 8
  | LoongArch64 _ => 4
  end.

Definition footprint (info : RelocationKindInfo) : Z :=
  match ri_size info with ByteSize n => n | BitMasking m => insn_size (bm_instruction m) end.

(** A byte-to-byte operation that succeeds and keeps the length. *)
Definition keeps_length (out : bytes) (o : outcome bytes) : Prop :=
  exists out', o = Ret out' /\ len out' = len out.

Lemma or_from_slice_total m d : len m <= len d -> keeps_length d (or_from_slice d m).
Proof.
  revert d. induction m as [|v m IH]; intros d H; [exists d; by destruct d|].
  destruct d as [|b d]; [rewrite len_cons, len_nil in H; pose proof (len_nonneg m); lia|].
  rewrite !len_cons in H. destruct (IH d ltac:(lia)) as (d' & E & Hl).
  cbn [or_from_slice]. rewrite E. eexists. split; [reflexivity|]. rewrite !len_cons. lia.
Qed.

Lemma and_from_slice_total m d : len m <= len d -> keeps_length d (and_from_slice d m).
Proof.
  revert d. induction m as [|v m IH]; intros d H; [exists d; by destruct d|].
  destruct d as [|b d]; [rewrite len_cons, len_nil in H; pose proof (len_nonneg m); lia|].
  rewrite !len_cons in H. destruct (IH d ltac:(lia)) as (d' & E & Hl).
  cbn [and_from_slice]. rewrite E. eexists. split; [reflexivity|]. rewrite !len_cons. lia.
Qed.

Lemma and_or_total n d c m : Z.of_nat n <= len d -> keeps_length d (and_or n d c m).
Proof.
  intros H. unfold and_or.
  destruct (and_from_slice_total (le_bytes n c) d) as (d1 & -> & H1); [by rewrite le_bytes_len|].
  cbn [mbind outcome_bind].
  destruct (or_from_slice_total (le_bytes n m) d1) as (d2 & -> & H2); [rewrite le_bytes_len; lia|].
  exists d2. split; [done|lia].
Qed.

Lemma write_to_value_total insn v negative d : insn_size insn <= len d ->
  keeps_length d (write_to_value insn v negative d).
Proof.
  assert (Hor : forall n x d, Z.of_nat n <= len d -> keeps_length d (or_from_slice d (le_bytes n x)))
    by (intros; apply or_from_slice_total; by rewrite le_bytes_len).
  destruct insn as [i|i|i]; destruct i; cbn [write_to_value insn_size riscv_size]; intros Hl;
    cbn [aarch64_write riscv_write loongarch_write];
    unfold riscv_write_utype, riscv_write_itype;
    try (first [apply Hor | apply and_or_total]; lia).
  rewrite slice_eq by lia. cbn [mbind outcome_bind].
    match goal with |- context [and_or 4 ?d ?c ?m] =>
      destruct (and_or_total 4 d c m) as (lo & -> & Hlo) end;
      [rewrite len_take, len_drop; lia|].
    cbn [mbind outcome_bind]. rewrite slice_from_eq by lia. cbn [mbind outcome_bind].
    match goal with |- context [and_or 4 ?d ?c ?m] =>
      destruct (and_or_total 4 d c m) as (hi & -> & Hhi) end; [rewrite len_drop; lia|].
    eexists. split; [reflexivity|]. rewrite len_app, Hlo, Hhi, len_take, !len_drop. lia.
Qed.

(** Writing a described relocation into a buffer that has room. *)
Lemma write_relocation_total uleb info value out :
  (forall n, ri_size info = ByteSize n -> 0 <= n <= 8) -> footprint info <= len out ->
  exists res, write_relocation_to_buffer uleb info value out = Ret res /\
    (forall out', res = Ok out' -> len out' = len out).
Proof.
  intros Hn Hf. unfold write_relocation_to_buffer. destruct (verify _ _) as [u|e]; [|by exists (Err e)].
  assert (Hcopy : forall src, len src <= len out -> keeps_length out (copy_prefix out src)).
  { intros src Hs. exists (src ++ drop (length src) out). rewrite copy_prefix_eq by done.
    split; [done|]. rewrite len_app, len_drop. unfold len in *. lia. }
  destruct (is_pair_uleb _).
  - cbv zeta. destruct (Z.ltb_spec (len out) (len (uleb value))) as [|Hl]; [by eexists (Err _)|].
    destruct (Hcopy (uleb value) Hl) as (out' & -> & Ho). exists (Ok out'). split; [done|]. by intros ? [= <-].
  - unfold footprint in Hf. destruct (ri_size info) as [n|m].
    + specialize (Hn n eq_refl). destruct (Z.ltb_spec (len out) n); [by eexists (Err _)|].
      rewrite slice_eq by (rewrite ?le_bytes_len; lia). cbn [mbind outcome_bind].
      edestruct Hcopy as (out' & -> & Ho);
        [|exists (Ok out'); split; [reflexivity|by intros ? [= <-]]].
      rewrite len_take, len_drop, le_bytes_len. lia.
    + destruct (write_to_value_total (bm_instruction m)
        (extract_bit_range value (range_start (bm_range m)) (range_end (bm_range m)))
        (i64 value <? 0) out Hf) as (out' & -> & Ho).
      exists (Ok out'). split; [done|]. by intros ? [= <-].
Qed.

(** The arm a name is written in, when no other name has its number. *)
Fixpoint first_arm {N} (p : N -> bool) (arms : list (list N * entry)) : entry :=
  match arms with
  | [] => unsupported
  | (pats, body) :: arms => if existsb p pats then body else first_arm p arms
  end.

Lemma match_arms_named {N} (num : N -> Z) (p : N -> bool) x arms :
  (forall n, num n = num x <-> p n = true) -> match_arms num arms (num x) = first_arm p arms.
Proof.
  intros Hp. induction arms as [|[pats body] arms IH]; [done|]. cbn [match_arms first_arm]. rewrite IH.
  replace (existsb (fun n => num n =? num x) pats) with (existsb p pats); [done|].
  induction pats as [|n pats IHp]; [done|]. cbn [existsb]. rewrite IHp. f_equal.
  specialize (Hp n). destruct (p n), (Z.eqb_spec (num n) (num x)); try done.
  - destruct Hp as [_ Hp]. by rewrite Hp in *.
  - destruct Hp as [Hp _]. by specialize (Hp e).
Qed.

(** [x]'s number is no other name's. *)
Definition distinct {N} (num : N -> Z) (x : N) : Prop := forall n, num n = num x -> n = x.
