(* ===== verification/TableX86.v ===== *)
(** The x86_64 relocation table ([relocation_from_raw] of [linker-utils/src/x86_64.rs]), arm by arm and
    in the order of the source. *)
From S2P Require Import Prelude BitMisc RelocInsn RelocInfo RelocTables.

(** Size and range of the byte-sized relocations. *)
Definition RelocSizeAndRange : Type := RelocationSize * outcome AllowedRange.
Definition RELOC_8_BYTE_UNSIGNED : RelocSizeAndRange := (ByteSize 8, from_byte_size 8 Unsigned).
Definition RELOC_8_BYTE_SIGNED : RelocSizeAndRange := (ByteSize 8, from_byte_size 8 Signed).
Definition RELOC_4_BYTE_UNSIGNED : RelocSizeAndRange := (ByteSize 4, from_byte_size 4 Unsigned).
Definition RELOC_4_BYTE_SIGNED : RelocSizeAndRange := (ByteSize 4, from_byte_size 4 Signed).
Definition RELOC_2_BYTE_SIGNED : RelocSizeAndRange := (ByteSize 2, from_byte_size 2 Signed).
Definition RELOC_1_BYTE_SIGNED : RelocSizeAndRange := (ByteSize 1, from_byte_size 1 Signed).
Definition RELOC_NONE : RelocSizeAndRange := (ByteSize 0, Ret no_check).

Definition x86_row (kind : RelocationKind) (sr : RelocSizeAndRange) : entry :=
  row kind (fst sr) None (snd sr) 1 0.

Inductive x86_64_reloc :=
| R_X86_64_64 | R_X86_64_PC32 | R_X86_64_PC64 | R_X86_64_GOT32 | R_X86_64_GOT64 | R_X86_64_GOTOFF64
| R_X86_64_PLT32 | R_X86_64_PLTOFF64 | R_X86_64_GOTPCREL | R_X86_64_GOTPC64 | R_X86_64_GOTPC32
| R_X86_64_32 | R_X86_64_32S | R_X86_64_16 | R_X86_64_PC16 | R_X86_64_8 | R_X86_64_PC8
| R_X86_64_TLSGD | R_X86_64_TLSLD | R_X86_64_DTPOFF32 | R_X86_64_DTPOFF64 | R_X86_64_GOTTPOFF
| R_X86_64_CODE_4_GOTTPOFF | R_X86_64_CODE_5_GOTTPOFF | R_X86_64_CODE_6_GOTTPOFF
| R_X86_64_GOTPCRELX | R_X86_64_REX_GOTPCRELX | R_X86_64_CODE_4_GOTPCRELX | R_X86_64_CODE_5_GOTPCRELX
| R_X86_64_CODE_6_GOTPCRELX | R_X86_64_TPOFF32 | R_X86_64_GOTPC32_TLSDESC | R_X86_64_CODE_4_GOTPC32_TLSDESC
| R_X86_64_CODE_5_GOTPC32_TLSDESC | R_X86_64_CODE_6_GOTPC32_TLSDESC | R_X86_64_TLSDESC_CALL
| R_X86_64_NONE.

Section x86_64.
(** The numbers the [object] crate gives to the names. *)
Context (num : x86_64_reloc -> Z).

Definition x86_64_arms_1 : list (list x86_64_reloc * entry) := [
  ([R_X86_64_64], x86_row Absolute RELOC_8_BYTE_UNSIGNED);
  ([R_X86_64_PC32], x86_row Relative RELOC_4_BYTE_SIGNED);
  ([R_X86_64_PC64], x86_row Relative RELOC_8_BYTE_SIGNED);
  ([R_X86_64_GOT32], x86_row GotRelGotBase RELOC_4_BYTE_UNSIGNED);
  ([R_X86_64_GOT64], x86_row GotRelGotBase RELOC_8_BYTE_UNSIGNED);
  ([R_X86_64_GOTOFF64], x86_row SymRelGotBase RELOC_8_BYTE_SIGNED);
  ([R_X86_64_PLT32], x86_row PltRelative RELOC_4_BYTE_SIGNED);
  ([R_X86_64_PLTOFF64], x86_row PltRelGotBase RELOC_8_BYTE_SIGNED);
  ([R_X86_64_GOTPCREL], x86_row GotRelative RELOC_4_BYTE_SIGNED);
  ([R_X86_64_GOTPC64], x86_row Relative RELOC_8_BYTE_SIGNED);
  ([R_X86_64_GOTPC32], x86_row Relative RELOC_4_BYTE_SIGNED);
  ([R_X86_64_32], x86_row Absolute RELOC_4_BYTE_UNSIGNED);
  ([R_X86_64_32S], x86_row Absolute RELOC_4_BYTE_SIGNED);
  ([R_X86_64_16], x86_row Absolute RELOC_2_BYTE_SIGNED);
  ([R_X86_64_PC16], x86_row Relative RELOC_2_BYTE_SIGNED);
  ([R_X86_64_8], x86_row Absolute RELOC_1_BYTE_SIGNED);
  ([R_X86_64_PC8], x86_row Relative RELOC_1_BYTE_SIGNED);
  ([R_X86_64_TLSGD], x86_row TlsGd RELOC_4_BYTE_SIGNED);
  ([R_X86_64_TLSLD], x86_row TlsLd RELOC_4_BYTE_SIGNED);
  ([R_X86_64_DTPOFF32], x86_row DtpOff RELOC_4_BYTE_SIGNED);
  ([R_X86_64_DTPOFF64], x86_row DtpOff RELOC_8_BYTE_SIGNED);
  ([R_X86_64_GOTTPOFF; R_X86_64_CODE_4_GOTTPOFF; R_X86_64_CODE_5_GOTTPOFF; R_X86_64_CODE_6_GOTTPOFF], x86_row GotTpOff RELOC_4_BYTE_SIGNED);
  ([R_X86_64_GOTPCRELX; R_X86_64_REX_GOTPCRELX; R_X86_64_CODE_4_GOTPCRELX; R_X86_64_CODE_5_GOTPCRELX; R_X86_64_CODE_6_GOTPCRELX], x86_row GotRelative RELOC_4_BYTE_SIGNED);
  ([R_X86_64_TPOFF32], x86_row TpOff RELOC_4_BYTE_SIGNED);
  ([R_X86_64_GOTPC32_TLSDESC; R_X86_64_CODE_4_GOTPC32_TLSDESC; R_X86_64_CODE_5_GOTPC32_TLSDESC; R_X86_64_CODE_6_GOTPC32_TLSDESC], x86_row TlsDesc RELOC_4_BYTE_SIGNED);
  ([R_X86_64_TLSDESC_CALL], x86_row TlsDescCall RELOC_NONE);
  ([R_X86_64_NONE], x86_row KNone RELOC_NONE)
].

#[export] Instance x86_64_table : RelocTable x86_64_reloc :=
  {| table_num := num; table_arms := x86_64_arms_1 |}.

Definition relocation_from_raw (r_type : Z) : entry := from_raw r_type.
End x86_64.
