(* ===== verification/TableAArch64.v ===== *)
(** The aarch64 relocation table ([relocation_type_from_raw] of [linker-utils/src/aarch64.rs]), arm by arm and
    in the order of the source. *)
From S2P Require Import Prelude BitMisc RelocInsn RelocInfo RelocTables.

Inductive aarch64_reloc :=
| R_AARCH64_NONE | R_AARCH64_ABS64 | R_AARCH64_ABS32 | R_AARCH64_ABS16 | R_AARCH64_PREL64
| R_AARCH64_PREL32 | R_AARCH64_PREL16 | R_AARCH64_PLT32 | R_AARCH64_MOVW_UABS_G0
| R_AARCH64_MOVW_UABS_G0_NC | R_AARCH64_MOVW_UABS_G1 | R_AARCH64_MOVW_UABS_G1_NC
| R_AARCH64_MOVW_UABS_G2 | R_AARCH64_MOVW_UABS_G2_NC | R_AARCH64_MOVW_UABS_G3 | R_AARCH64_MOVW_SABS_G0
| R_AARCH64_MOVW_SABS_G1 | R_AARCH64_MOVW_SABS_G2 | R_AARCH64_LD_PREL_LO19 | R_AARCH64_ADR_PREL_LO21
| R_AARCH64_ADR_PREL_PG_HI21 | R_AARCH64_ADR_PREL_PG_HI21_NC | R_AARCH64_ADD_ABS_LO12_NC
| R_AARCH64_LDST8_ABS_LO12_NC | R_AARCH64_LDST16_ABS_LO12_NC | R_AARCH64_LDST32_ABS_LO12_NC
| R_AARCH64_LDST64_ABS_LO12_NC | R_AARCH64_LDST128_ABS_LO12_NC | R_AARCH64_TSTBR14
| R_AARCH64_CONDBR19 | R_AARCH64_JUMP26 | R_AARCH64_CALL26 | R_AARCH64_MOVW_PREL_G0
| R_AARCH64_MOVW_PREL_G0_NC | R_AARCH64_MOVW_PREL_G1 | R_AARCH64_MOVW_PREL_G1_NC
| R_AARCH64_MOVW_PREL_G2 | R_AARCH64_MOVW_PREL_G2_NC | R_AARCH64_MOVW_PREL_G3 | R_AARCH64_MOVW_GOTOFF_G0
| R_AARCH64_MOVW_GOTOFF_G0_NC | R_AARCH64_MOVW_GOTOFF_G1 | R_AARCH64_MOVW_GOTOFF_G1_NC
| R_AARCH64_MOVW_GOTOFF_G2 | R_AARCH64_MOVW_GOTOFF_G2_NC | R_AARCH64_MOVW_GOTOFF_G3
| R_AARCH64_GOTREL64 | R_AARCH64_GOTREL32 | R_AARCH64_GOTPCREL32 | R_AARCH64_GOT_LD_PREL19
| R_AARCH64_LD64_GOTOFF_LO15 | R_AARCH64_ADR_GOT_PAGE | R_AARCH64_LD64_GOT_LO12_NC
| R_AARCH64_LD64_GOTPAGE_LO15 | R_AARCH64_TLSGD_ADR_PREL21 | R_AARCH64_TLSGD_ADR_PAGE21
| R_AARCH64_TLSGD_ADD_LO12_NC | R_AARCH64_TLSGD_MOVW_G1 | R_AARCH64_TLSGD_MOVW_G0_NC
| R_AARCH64_TLSLD_ADR_PREL21 | R_AARCH64_TLSLD_ADR_PAGE21 | R_AARCH64_TLSLD_ADD_LO12_NC
| R_AARCH64_TLSLD_MOVW_G1 | R_AARCH64_TLSLD_MOVW_G0_NC | R_AARCH64_TLSLD_LD_PREL19
| R_AARCH64_TLSLD_MOVW_DTPREL_G2 | R_AARCH64_TLSLD_MOVW_DTPREL_G1 | R_AARCH64_TLSLD_MOVW_DTPREL_G1_NC
| R_AARCH64_TLSLD_MOVW_DTPREL_G0 | R_AARCH64_TLSLD_MOVW_DTPREL_G0_NC | R_AARCH64_TLSLD_ADD_DTPREL_HI12
| R_AARCH64_TLSLD_ADD_DTPREL_LO12 | R_AARCH64_TLSLD_ADD_DTPREL_LO12_NC | R_AARCH64_TLSLD_LDST8_DTPREL_LO12
| R_AARCH64_TLSLD_LDST8_DTPREL_LO12_NC | R_AARCH64_TLSLD_LDST16_DTPREL_LO12 | R_AARCH64_TLSLD_LDST16_DTPREL_LO12_NC
| R_AARCH64_TLSLD_LDST32_DTPREL_LO12 | R_AARCH64_TLSLD_LDST32_DTPREL_LO12_NC | R_AARCH64_TLSLD_LDST64_DTPREL_LO12
| R_AARCH64_TLSLD_LDST64_DTPREL_LO12_NC | R_AARCH64_TLSLD_LDST128_DTPREL_LO12 | R_AARCH64_TLSLD_LDST128_DTPREL_LO12_NC
| R_AARCH64_TLSIE_MOVW_GOTTPREL_G1 | R_AARCH64_TLSIE_MOVW_GOTTPREL_G0_NC | R_AARCH64_TLSIE_ADR_GOTTPREL_PAGE21
| R_AARCH64_TLSIE_LD64_GOTTPREL_LO12_NC | R_AARCH64_TLSIE_LD_GOTTPREL_PREL19 | R_AARCH64_TLSLE_MOVW_TPREL_G2
| R_AARCH64_TLSLE_MOVW_TPREL_G1 | R_AARCH64_TLSLE_MOVW_TPREL_G1_NC | R_AARCH64_TLSLE_MOVW_TPREL_G0
| R_AARCH64_TLSLE_MOVW_TPREL_G0_NC | R_AARCH64_TLSLE_ADD_TPREL_HI12 | R_AARCH64_TLSLE_ADD_TPREL_LO12
| R_AARCH64_TLSLE_ADD_TPREL_LO12_NC | R_AARCH64_TLSLE_LDST8_TPREL_LO12 | R_AARCH64_TLSLE_LDST8_TPREL_LO12_NC
| R_AARCH64_TLSLE_LDST16_TPREL_LO12 | R_AARCH64_TLSLE_LDST16_TPREL_LO12_NC | R_AARCH64_TLSLE_LDST32_TPREL_LO12
| R_AARCH64_TLSLE_LDST32_TPREL_LO12_NC | R_AARCH64_TLSLE_LDST64_TPREL_LO12 | R_AARCH64_TLSLE_LDST64_TPREL_LO12_NC
| R_AARCH64_TLSLE_LDST128_TPREL_LO12 | R_AARCH64_TLSLE_LDST128_TPREL_LO12_NC | R_AARCH64_TLSDESC_LD_PREL19
| R_AARCH64_TLSDESC_ADR_PREL21 | R_AARCH64_TLSDESC_ADR_PAGE21 | R_AARCH64_TLSDESC_LD64_LO12
| R_AARCH64_TLSDESC_ADD_LO12 | R_AARCH64_TLSDESC_OFF_G1 | R_AARCH64_TLSDESC_OFF_G0_NC
| R_AARCH64_TLSDESC_CALL.

Section aarch64.
(** The numbers the [object] crate gives to the names. *)
Context (num : aarch64_reloc -> Z).

Definition aarch64_arms_1 : list (list aarch64_reloc * entry) := [
  ([R_AARCH64_NONE],
    row KNone (ByteSize 0) None (Ret no_check) 1 0);
  ([R_AARCH64_ABS64],
    row Absolute (ByteSize 8) None (Ret no_check) 1 0);
  ([R_AARCH64_ABS32],
    row Absolute (ByteSize 4) None (Ret (mkAllowed (- 2 ^ 31) (2 ^ 32))) 1 0);
  ([R_AARCH64_ABS16],
    row Absolute (ByteSize 2) None (Ret (mkAllowed (- 2 ^ 15) (2 ^ 16))) 1 0);
  ([R_AARCH64_PREL64],
    row Relative (ByteSize 8) None (Ret no_check) 1 0);
  ([R_AARCH64_PREL32],
    row Relative (ByteSize 4) None (Ret (mkAllowed (- 2 ^ 31) (2 ^ 32))) 1 0);
  ([R_AARCH64_PREL16],
    row Relative (ByteSize 2) None (Ret (mkAllowed (- 2 ^ 15) (2 ^ 16))) 1 0);
  ([R_AARCH64_PLT32],
    row PltRelative (ByteSize 4) None (from_bit_size 32 Signed) 1 0);
  ([R_AARCH64_MOVW_UABS_G0],
    row Absolute (bit_mask_aarch64 0 16 Movkz) None (from_bit_size 16 Unsigned) 1 0);
  ([R_AARCH64_MOVW_UABS_G0_NC],
    row Absolute (bit_mask_aarch64 0 16 Movkz) None (Ret no_check) 1 0);
  ([R_AARCH64_MOVW_UABS_G1],
    row Absolute (bit_mask_aarch64 16 32 Movkz) None (from_bit_size 32 Unsigned) 1 0);
  ([R_AARCH64_MOVW_UABS_G1_NC],
    row Absolute (bit_mask_aarch64 16 32 Movkz) None (Ret no_check) 1 0);
  ([R_AARCH64_MOVW_UABS_G2],
    row Absolute (bit_mask_aarch64 32 48 Movkz) None (from_bit_size 48 Unsigned) 1 0);
  ([R_AARCH64_MOVW_UABS_G2_NC],
    row Absolute (bit_mask_aarch64 32 48 Movkz) None (Ret no_check) 1 0);
  ([R_AARCH64_MOVW_UABS_G3],
    row Absolute (bit_mask_aarch64 48 64 Movkz) None (Ret no_check) 1 0);
  ([R_AARCH64_MOVW_SABS_G0],
    row Absolute (bit_mask_aarch64 0 16 Movnz) None (from_bit_size 17 Signed) 1 0);
  ([R_AARCH64_MOVW_SABS_G1],
    row Absolute (bit_mask_aarch64 16 32 Movnz) None (from_bit_size 33 Signed) 1 0);
  ([R_AARCH64_MOVW_SABS_G2],
    row Absolute (bit_mask_aarch64 32 48 Movnz) None (from_bit_size 49 Signed) 1 0)
].

Definition aarch64_arms_2 : list (list aarch64_reloc * entry) := [
  ([R_AARCH64_LD_PREL_LO19],
    row Relative (bit_mask_aarch64 2 21 Ldr) None (from_bit_size 21 Signed) 4 0);
  ([R_AARCH64_ADR_PREL_LO21],
    row Relative (bit_mask_aarch64 0 21 Adr) None (from_bit_size 21 Signed) 1 0);
  ([R_AARCH64_ADR_PREL_PG_HI21],
    row Relative (bit_mask_aarch64 12 33 Adr) (Some (SymbolPlusAddendAndPosition PAGE_MASK_4KB)) (from_bit_size 33 Signed) 1 0);
  ([R_AARCH64_ADR_PREL_PG_HI21_NC],
    row Relative (bit_mask_aarch64 12 33 Adr) (Some (SymbolPlusAddendAndPosition PAGE_MASK_4KB)) (Ret no_check) 1 0);
  ([R_AARCH64_ADD_ABS_LO12_NC],
    row AbsoluteLowPart (bit_mask_aarch64 0 12 Add) None (Ret no_check) 1 0);
  ([R_AARCH64_LDST8_ABS_LO12_NC],
    row AbsoluteLowPart (bit_mask_aarch64 0 12 LdSt) None (Ret no_check) 1 0);
  ([R_AARCH64_LDST16_ABS_LO12_NC],
    row AbsoluteLowPart (bit_mask_aarch64 1 12 LdSt) None (Ret no_check) 2 0);
  ([R_AARCH64_LDST32_ABS_LO12_NC],
    row AbsoluteLowPart (bit_mask_aarch64 2 12 LdSt) None (Ret no_check) 4 0);
  ([R_AARCH64_LDST64_ABS_LO12_NC],
    row AbsoluteLowPart (bit_mask_aarch64 3 12 LdSt) None (Ret no_check) 8 0);
  ([R_AARCH64_LDST128_ABS_LO12_NC],
    row AbsoluteLowPart (bit_mask_aarch64 4 12 LdSt) None (Ret no_check) 16 0);
  ([R_AARCH64_TSTBR14],
    row Relative (bit_mask_aarch64 2 16 TstBr) None (from_bit_size 16 Signed) 4 0);
  ([R_AARCH64_CONDBR19],
    row Relative (bit_mask_aarch64 2 21 Bcond) None (from_bit_size 21 Signed) 4 0);
  ([R_AARCH64_JUMP26],
    row PltRelative (bit_mask_aarch64 2 28 JumpCall) None (from_bit_size 28 Signed) 4 0);
  ([R_AARCH64_CALL26],
    row PltRelative (bit_mask_aarch64 2 28 JumpCall) None (from_bit_size 28 Signed) 4 0);
  ([R_AARCH64_MOVW_PREL_G0],
    row Relative (bit_mask_aarch64 0 16 Movnz) None (Ret no_check) 1 0);
  ([R_AARCH64_MOVW_PREL_G0_NC],
    row Relative (bit_mask_aarch64 0 16 Movkz) None (Ret no_check) 1 0);
  ([R_AARCH64_MOVW_PREL_G1],
    row Relative (bit_mask_aarch64 16 32 Movnz) None (Ret no_check) 1 0);
  ([R_AARCH64_MOVW_PREL_G1_NC],
    row Relative (bit_mask_aarch64 16 32 Movkz) None (Ret no_check) 1 0);
  ([R_AARCH64_MOVW_PREL_G2],
    row Relative (bit_mask_aarch64 32 48 Movnz) None (Ret no_check) 1 0)
].

Definition aarch64_arms_3 : list (list aarch64_reloc * entry) := [
  ([R_AARCH64_MOVW_PREL_G2_NC],
    row Relative (bit_mask_aarch64 32 48 Movkz) None (Ret no_check) 1 0);
  ([R_AARCH64_MOVW_PREL_G3],
    row Relative (bit_mask_aarch64 48 64 Movnz) None (Ret no_check) 1 0);
  ([R_AARCH64_MOVW_GOTOFF_G0],
    row GotRelGotBase (bit_mask_aarch64 0 16 Movnz) None (Ret no_check) 1 0);
  ([R_AARCH64_MOVW_GOTOFF_G0_NC],
    row GotRelGotBase (bit_mask_aarch64 0 16 Movkz) None (Ret no_check) 1 0);
  ([R_AARCH64_MOVW_GOTOFF_G1],
    row GotRelGotBase (bit_mask_aarch64 16 32 Movnz) None (Ret no_check) 1 0);
  ([R_AARCH64_MOVW_GOTOFF_G1_NC],
    row GotRelGotBase (bit_mask_aarch64 16 32 Movkz) None (Ret no_check) 1 0);
  ([R_AARCH64_MOVW_GOTOFF_G2],
    row GotRelGotBase (bit_mask_aarch64 32 48 Movnz) None (Ret no_check) 1 0);
  ([R_AARCH64_MOVW_GOTOFF_G2_NC],
    row GotRelGotBase (bit_mask_aarch64 32 48 Movkz) None (Ret no_check) 1 0);
  ([R_AARCH64_MOVW_GOTOFF_G3],
    row GotRelGotBase (bit_mask_aarch64 48 64 Movnz) None (Ret no_check) 1 0);
  ([R_AARCH64_GOTREL64],
    row SymRelGotBase (ByteSize 4) None (Ret no_check) 1 0);
  ([R_AARCH64_GOTREL32],
    row SymRelGotBase (ByteSize 8) None (from_bit_size 32 Signed) 1 0);
  ([R_AARCH64_GOTPCREL32],
    row GotRelative (ByteSize 4) None (from_bit_size 32 Signed) 1 0);
  ([R_AARCH64_GOT_LD_PREL19],
    row GotRelative (bit_mask_aarch64 2 21 LdSt) None (from_bit_size 21 Signed) 4 0);
  ([R_AARCH64_LD64_GOTOFF_LO15],
    row GotRelGotBase (bit_mask_aarch64 3 15 LdSt) None (from_bit_size 15 Unsigned) 8 0);
  ([R_AARCH64_ADR_GOT_PAGE],
    row GotRelative (bit_mask_aarch64 12 33 Adr) (Some (GotEntryAndPosition PAGE_MASK_4KB)) (from_bit_size 33 Signed) 1 0);
  ([R_AARCH64_LD64_GOT_LO12_NC],
    row Got (bit_mask_aarch64 3 12 LdSt) None (Ret no_check) 8 0);
  ([R_AARCH64_LD64_GOTPAGE_LO15],
    row GotRelGotBase (bit_mask_aarch64 3 15 LdSt) (Some (GotBase PAGE_MASK_4KB)) (from_bit_size 15 Unsigned) 8 0);
  ([R_AARCH64_TLSGD_ADR_PREL21],
    row TlsGd (bit_mask_aarch64 0 21 Adr) None (from_bit_size 21 Signed) 1 0);
  ([R_AARCH64_TLSGD_ADR_PAGE21],
    row TlsGd (bit_mask_aarch64 12 33 Adr) (Some (GotEntryAndPosition PAGE_MASK_4KB)) (from_bit_size 33 Signed) 1 0)
].

Definition aarch64_arms_4 : list (list aarch64_reloc * entry) := [
  ([R_AARCH64_TLSGD_ADD_LO12_NC],
    row TlsGdGot (bit_mask_aarch64 0 12 Add) None (Ret no_check) 1 0);
  ([R_AARCH64_TLSGD_MOVW_G1],
    row TlsGdGotBase (bit_mask_aarch64 16 33 Movnz) None (Ret no_check) 1 0);
  ([R_AARCH64_TLSGD_MOVW_G0_NC],
    row TlsGdGotBase (bit_mask_aarch64 0 16 Movkz) None (Ret no_check) 1 0);
  ([R_AARCH64_TLSLD_ADR_PREL21],
    row TlsLd (bit_mask_aarch64 0 21 Adr) None (from_bit_size 21 Signed) 1 0);
  ([R_AARCH64_TLSLD_ADR_PAGE21],
    row TlsLd (bit_mask_aarch64 12 33 Adr) (Some (GotEntryAndPosition PAGE_MASK_4KB)) (from_bit_size 33 Signed) 1 0);
  ([R_AARCH64_TLSLD_ADD_LO12_NC],
    row TlsLdGot (bit_mask_aarch64 0 12 Add) None (Ret no_check) 1 0);
  ([R_AARCH64_TLSLD_MOVW_G1],
    row TlsLdGotBase (bit_mask_aarch64 16 32 Movnz) None (Ret no_check) 1 0);
  ([R_AARCH64_TLSLD_MOVW_G0_NC],
    row TlsLdGotBase (bit_mask_aarch64 0 16 Movkz) None (Ret no_check) 1 0);
  ([R_AARCH64_TLSLD_LD_PREL19],
    row TlsLd (bit_mask_aarch64 0 21 Ldr) None (from_bit_size 21 Signed) 1 0);
  ([R_AARCH64_TLSLD_MOVW_DTPREL_G2],
    row DtpOff (bit_mask_aarch64 32 48 Movnz) None (Ret no_check) 1 0);
  ([R_AARCH64_TLSLD_MOVW_DTPREL_G1],
    row DtpOff (bit_mask_aarch64 16 32 Movnz) None (Ret no_check) 1 0);
  ([R_AARCH64_TLSLD_MOVW_DTPREL_G1_NC],
    row DtpOff (bit_mask_aarch64 16 32 Movkz) None (Ret no_check) 1 0);
  ([R_AARCH64_TLSLD_MOVW_DTPREL_G0],
    row DtpOff (bit_mask_aarch64 0 16 Movnz) None (Ret no_check) 1 0);
  ([R_AARCH64_TLSLD_MOVW_DTPREL_G0_NC],
    row DtpOff (bit_mask_aarch64 0 16 Movkz) None (Ret no_check) 1 0);
  ([R_AARCH64_TLSLD_ADD_DTPREL_HI12],
    row DtpOff (bit_mask_aarch64 12 24 Add) None (from_bit_size 24 Unsigned) 1 0);
  ([R_AARCH64_TLSLD_ADD_DTPREL_LO12],
    row DtpOff (bit_mask_aarch64 0 12 Add) None (from_bit_size 12 Unsigned) 1 0);
  ([R_AARCH64_TLSLD_ADD_DTPREL_LO12_NC],
    row DtpOff (bit_mask_aarch64 0 12 Add) None (Ret no_check) 1 0);
  ([R_AARCH64_TLSLD_LDST8_DTPREL_LO12],
    row DtpOff (bit_mask_aarch64 0 12 LdSt) None (from_bit_size 12 Unsigned) 1 0);
  ([R_AARCH64_TLSLD_LDST8_DTPREL_LO12_NC],
    row DtpOff (bit_mask_aarch64 0 12 LdSt) None (Ret no_check) 1 0)
].

Definition aarch64_arms_5 : list (list aarch64_reloc * entry) := [
  ([R_AARCH64_TLSLD_LDST16_DTPREL_LO12],
    row DtpOff (bit_mask_aarch64 1 12 LdSt) None (from_bit_size 12 Unsigned) 2 0);
  ([R_AARCH64_TLSLD_LDST16_DTPREL_LO12_NC],
    row DtpOff (bit_mask_aarch64 1 12 LdSt) None (Ret no_check) 2 0);
  ([R_AARCH64_TLSLD_LDST32_DTPREL_LO12],
    row DtpOff (bit_mask_aarch64 2 12 LdSt) None (from_bit_size 12 Unsigned) 4 0);
  ([R_AARCH64_TLSLD_LDST32_DTPREL_LO12_NC],
    row DtpOff (bit_mask_aarch64 2 12 LdSt) None (Ret no_check) 4 0);
  ([R_AARCH64_TLSLD_LDST64_DTPREL_LO12],
    row DtpOff (bit_mask_aarch64 3 12 LdSt) None (from_bit_size 12 Unsigned) 8 0);
  ([R_AARCH64_TLSLD_LDST64_DTPREL_LO12_NC],
    row DtpOff (bit_mask_aarch64 3 12 LdSt) None (Ret no_check) 8 0);
  ([R_AARCH64_TLSLD_LDST128_DTPREL_LO12],
    row DtpOff (bit_mask_aarch64 4 12 LdSt) None (from_bit_size 12 Unsigned) 16 0);
  ([R_AARCH64_TLSLD_LDST128_DTPREL_LO12_NC],
    row DtpOff (bit_mask_aarch64 4 12 LdSt) None (Ret no_check) 16 0);
  ([R_AARCH64_TLSIE_MOVW_GOTTPREL_G1],
    row GotTpOffGotBase (bit_mask_aarch64 16 32 Movnz) None (Ret no_check) 1 0);
  ([R_AARCH64_TLSIE_MOVW_GOTTPREL_G0_NC],
    row GotTpOffGotBase (bit_mask_aarch64 0 16 Movkz) None (Ret no_check) 1 0);
  ([R_AARCH64_TLSIE_ADR_GOTTPREL_PAGE21],
    row GotTpOff (bit_mask_aarch64 12 33 Adr) (Some (GotEntryAndPosition PAGE_MASK_4KB)) (from_bit_size 33 Signed) 1 0);
  ([R_AARCH64_TLSIE_LD64_GOTTPREL_LO12_NC],
    row GotTpOffGot (bit_mask_aarch64 3 12 LdrRegister) None (Ret no_check) 8 0);
  ([R_AARCH64_TLSIE_LD_GOTTPREL_PREL19],
    row GotTpOff (bit_mask_aarch64 2 21 Ldr) None (from_bit_size 21 Signed) 4 0);
  ([R_AARCH64_TLSLE_MOVW_TPREL_G2],
    row TpOff (bit_mask_aarch64 32 48 Movnz) None (Ret no_check) 1 0);
  ([R_AARCH64_TLSLE_MOVW_TPREL_G1],
    row TpOff (bit_mask_aarch64 16 32 Movnz) None (Ret no_check) 1 0);
  ([R_AARCH64_TLSLE_MOVW_TPREL_G1_NC],
    row TpOff (bit_mask_aarch64 16 32 Movkz) None (Ret no_check) 1 0);
  ([R_AARCH64_TLSLE_MOVW_TPREL_G0],
    row TpOff (bit_mask_aarch64 0 16 Movnz) None (Ret no_check) 1 0);
  ([R_AARCH64_TLSLE_MOVW_TPREL_G0_NC],
    row TpOff (bit_mask_aarch64 0 16 Movkz) None (Ret no_check) 1 0);
  ([R_AARCH64_TLSLE_ADD_TPREL_HI12],
    row TpOff (bit_mask_aarch64 12 24 Add) None (from_bit_size 24 Unsigned) 1 0)
].

Definition aarch64_arms_6 : list (list aarch64_reloc * entry) := [
  ([R_AARCH64_TLSLE_ADD_TPREL_LO12],
    row TpOff (bit_mask_aarch64 0 12 Add) None (from_bit_size 12 Unsigned) 1 0);
  ([R_AARCH64_TLSLE_ADD_TPREL_LO12_NC],
    row TpOff (bit_mask_aarch64 0 12 Add) None (Ret no_check) 1 0);
  ([R_AARCH64_TLSLE_LDST8_TPREL_LO12],
    row TpOff (bit_mask_aarch64 0 12 LdSt) None (from_bit_size 12 Unsigned) 1 0);
  ([R_AARCH64_TLSLE_LDST8_TPREL_LO12_NC],
    row TpOff (bit_mask_aarch64 0 12 LdSt) None (Ret no_check) 1 0);
  ([R_AARCH64_TLSLE_LDST16_TPREL_LO12],
    row TpOff (bit_mask_aarch64 1 12 LdSt) None (from_bit_size 12 Unsigned) 2 0);
  ([R_AARCH64_TLSLE_LDST16_TPREL_LO12_NC],
    row TpOff (bit_mask_aarch64 1 12 LdSt) None (Ret no_check) 2 0);
  ([R_AARCH64_TLSLE_LDST32_TPREL_LO12],
    row TpOff (bit_mask_aarch64 2 12 LdSt) None (from_bit_size 12 Unsigned) 4 0);
  ([R_AARCH64_TLSLE_LDST32_TPREL_LO12_NC],
    row TpOff (bit_mask_aarch64 2 12 LdSt) None (Ret no_check) 4 0);
  ([R_AARCH64_TLSLE_LDST64_TPREL_LO12],
    row TpOff (bit_mask_aarch64 3 12 LdSt) None (from_bit_size 12 Unsigned) 8 0);
  ([R_AARCH64_TLSLE_LDST64_TPREL_LO12_NC],
    row TpOff (bit_mask_aarch64 3 12 LdSt) None (Ret no_check) 8 0);
  ([R_AARCH64_TLSLE_LDST128_TPREL_LO12],
    row TpOff (bit_mask_aarch64 4 12 LdSt) None (from_bit_size 12 Unsigned) 16 0);
  ([R_AARCH64_TLSLE_LDST128_TPREL_LO12_NC],
    row TpOff (bit_mask_aarch64 4 12 LdSt) None (Ret no_check) 16 0);
  ([R_AARCH64_TLSDESC_LD_PREL19],
    row TlsDesc (bit_mask_aarch64 2 21 Ldr) None (from_bit_size 21 Signed) 4 0);
  ([R_AARCH64_TLSDESC_ADR_PREL21],
    row TlsDesc (bit_mask_aarch64 0 21 Adr) None (from_bit_size 21 Signed) 1 0);
  ([R_AARCH64_TLSDESC_ADR_PAGE21],
    row TlsDesc (bit_mask_aarch64 12 33 Adr) (Some (GotEntryAndPosition PAGE_MASK_4KB)) (from_bit_size 33 Signed) 1 0);
  ([R_AARCH64_TLSDESC_LD64_LO12],
    row TlsDescGot (bit_mask_aarch64 3 12 LdrRegister) None (Ret no_check) 8 0);
  ([R_AARCH64_TLSDESC_ADD_LO12],
    row TlsDescGot (bit_mask_aarch64 0 12 Add) None (Ret no_check) 1 0);
  ([R_AARCH64_TLSDESC_OFF_G1],
    row TlsDescGotBase (bit_mask_aarch64 16 32 Movnz) None (from_bit_size 33 Signed) 1 0);
  ([R_AARCH64_TLSDESC_OFF_G0_NC],
    row TlsDescGotBase (bit_mask_aarch64 0 16 Movkz) None (Ret no_check) 1 0)
].

Definition aarch64_arms_7 : list (list aarch64_reloc * entry) := [
  ([R_AARCH64_TLSDESC_CALL],
    row TlsDescCall (ByteSize 0) None (Ret no_check) 1 0)
].

#[export] Instance aarch64_table : RelocTable aarch64_reloc :=
  {| table_num := num; table_arms := aarch64_arms_1 ++ aarch64_arms_2 ++ aarch64_arms_3 ++ aarch64_arms_4 ++ aarch64_arms_5 ++ aarch64_arms_6 ++ aarch64_arms_7 |}.

Definition aarch64_relocation_type_from_raw (r_type : Z) : entry := from_raw r_type.
End aarch64.
