(* ===== verification/TableRiscV.v ===== *)
(** The riscv64 relocation table ([relocation_type_from_raw] of [linker-utils/src/riscv64.rs]), arm by arm and
    in the order of the source. *)
From S2P Require Import Prelude BitMisc RelocInsn RelocInfo RelocTables.

Inductive riscv64_reloc :=
| R_RISCV_NONE | R_RISCV_32 | R_RISCV_64 | R_RISCV_BRANCH | R_RISCV_JAL | R_RISCV_CALL
| R_RISCV_CALL_PLT | R_RISCV_GOT_HI20 | R_RISCV_TLS_GOT_HI20 | R_RISCV_TLS_GD_HI20
| R_RISCV_PCREL_HI20 | R_RISCV_PCREL_LO12_I | R_RISCV_PCREL_LO12_S | R_RISCV_HI20
| R_RISCV_LO12_I | R_RISCV_LO12_S | R_RISCV_TPREL_HI20 | R_RISCV_TPREL_LO12_I | R_RISCV_TPREL_LO12_S
| R_RISCV_TPREL_ADD | R_RISCV_ADD8 | R_RISCV_ADD16 | R_RISCV_ADD32 | R_RISCV_ADD64
| R_RISCV_SUB8 | R_RISCV_SUB16 | R_RISCV_SUB32 | R_RISCV_SUB64 | R_RISCV_GOT32_PCREL
| R_RISCV_ALIGN | R_RISCV_RVC_BRANCH | R_RISCV_RVC_JUMP | R_RISCV_RELAX | R_RISCV_SUB6
| R_RISCV_SET6 | R_RISCV_SET8 | R_RISCV_SET16 | R_RISCV_SET32 | R_RISCV_32_PCREL
| R_RISCV_PLT32 | R_RISCV_SET_ULEB128 | R_RISCV_SUB_ULEB128 | R_RISCV_TLSDESC_HI20
| R_RISCV_TLSDESC_LOAD_LO12 | R_RISCV_TLSDESC_ADD_LO12 | R_RISCV_TLSDESC_CALL.

Section riscv64.
(** The numbers the [object] crate gives to the names. *)
Context (num : riscv64_reloc -> Z).

Definition riscv64_arms_1 : list (list riscv64_reloc * entry) := [
  ([R_RISCV_NONE],
    row KNone (ByteSize 0) None (Ret no_check) 1 0);
  ([R_RISCV_32],
    row Absolute (ByteSize 4) None (Ret (mkAllowed (- 2 ^ 31) (2 ^ 32))) 1 0);
  ([R_RISCV_64],
    row Absolute (ByteSize 4) None (Ret no_check) 1 0);
  ([R_RISCV_BRANCH],
    row Relative (bit_mask_riscv 0 32 BType) None (Ret (mkAllowed (- 2 ^ 12) (2 ^ 12 - 1))) 2 0);
  ([R_RISCV_JAL],
    row Relative (bit_mask_riscv 0 32 JType) None (Ret (mkAllowed (- 2 ^ 20) (2 ^ 20 - 1))) 2 0);
  ([R_RISCV_CALL; R_RISCV_CALL_PLT],
    row PltRelative (bit_mask_riscv 0 64 UiType) None (Ret (mkAllowed (- 2 ^ 31) (2 ^ 32))) 1 0);
  ([R_RISCV_GOT_HI20],
    row GotRelative (bit_mask_riscv 0 32 UType) None (Ret (mkAllowed (- 2 ^ 31) (2 ^ 32))) 1 0);
  ([R_RISCV_TLS_GOT_HI20],
    row GotTpOff (bit_mask_riscv 0 32 UType) None (Ret (mkAllowed (- 2 ^ 31) (2 ^ 32))) 1 0);
  ([R_RISCV_TLS_GD_HI20],
    row TlsGd (bit_mask_riscv 0 32 UType) None (Ret (mkAllowed (- 2 ^ 31) (2 ^ 32))) 1 0);
  ([R_RISCV_PCREL_HI20],
    row Relative (bit_mask_riscv 0 32 UType) None (Ret (mkAllowed (- 2 ^ 31) (2 ^ 32))) 1 0);
  ([R_RISCV_PCREL_LO12_I],
    row RelativeRiscVLow12 (bit_mask_riscv 0 32 IType) None (Ret (mkAllowed (- 2 ^ 31) (2 ^ 32))) 1 0);
  ([R_RISCV_PCREL_LO12_S],
    row RelativeRiscVLow12 (bit_mask_riscv 0 32 SType) None (Ret (mkAllowed (- 2 ^ 31) (2 ^ 32))) 1 0);
  ([R_RISCV_HI20],
    row Absolute (bit_mask_riscv 0 32 UType) None (Ret (mkAllowed (- 2 ^ 31) (2 ^ 32))) 1 0);
  ([R_RISCV_LO12_I],
    row Absolute (bit_mask_riscv 0 32 IType) None (Ret (mkAllowed (- 2 ^ 31) (2 ^ 32))) 1 0);
  ([R_RISCV_LO12_S],
    row Absolute (bit_mask_riscv 0 32 SType) None (Ret (mkAllowed (- 2 ^ 31) (2 ^ 32))) 1 0);
  ([R_RISCV_TPREL_HI20],
    row TpOff (bit_mask_riscv 0 32 UType) None (Ret (mkAllowed (- 2 ^ 31) (2 ^ 32))) 1 0);
  ([R_RISCV_TPREL_LO12_I],
    row TpOff (bit_mask_riscv 0 32 IType) None (Ret (mkAllowed (- 2 ^ 31) (2 ^ 32))) 1 0);
  ([R_RISCV_TPREL_LO12_S],
    row TpOff (bit_mask_riscv 0 32 SType) None (Ret (mkAllowed (- 2 ^ 31) (2 ^ 32))) 1 0)
].

Definition riscv64_arms_2 : list (list riscv64_reloc * entry) := [
  ([R_RISCV_TPREL_ADD],
    row KNone (ByteSize 0) None (Ret no_check) 1 0);
  ([R_RISCV_ADD8],
    row AbsoluteAddition (ByteSize 1) None (Ret no_check) 1 0);
  ([R_RISCV_ADD16],
    row AbsoluteAddition (ByteSize 2) None (Ret no_check) 1 0);
  ([R_RISCV_ADD32],
    row AbsoluteAddition (ByteSize 4) None (Ret no_check) 1 0);
  ([R_RISCV_ADD64],
    row AbsoluteAddition (ByteSize 8) None (Ret no_check) 1 0);
  ([R_RISCV_SUB8],
    row AbsoluteSubtraction (ByteSize 1) None (Ret no_check) 1 0);
  ([R_RISCV_SUB16],
    row AbsoluteSubtraction (ByteSize 2) None (Ret no_check) 1 0);
  ([R_RISCV_SUB32],
    row AbsoluteSubtraction (ByteSize 4) None (Ret no_check) 1 0);
  ([R_RISCV_SUB64],
    row AbsoluteSubtraction (ByteSize 8) None (Ret no_check) 1 0);
  ([R_RISCV_GOT32_PCREL],
    row GotRelative (ByteSize 4) None (Ret (mkAllowed (- 2 ^ 31) (2 ^ 32))) 1 0);
  ([R_RISCV_ALIGN],
    row Alignment (ByteSize 0) None (Ret no_check) 1 0);
  ([R_RISCV_RVC_BRANCH],
    row Relative (bit_mask_riscv 0 16 CbType) None (Ret (mkAllowed (- 2 ^ 8) (2 ^ 8 - 1))) 2 0);
  ([R_RISCV_RVC_JUMP],
    row Relative (bit_mask_riscv 0 16 CjType) None (Ret (mkAllowed (- 2 ^ 11) (2 ^ 11 - 1))) 2 0);
  ([R_RISCV_RELAX],
    row KNone (ByteSize 0) None (Ret no_check) 1 0);
  ([R_RISCV_SUB6],
    row AbsoluteSubtractionWord6 (ByteSize 1) None (Ret no_check) 1 0);
  ([R_RISCV_SET6],
    row AbsoluteSetWord6 (ByteSize 1) None (Ret no_check) 1 0);
  ([R_RISCV_SET8],
    row AbsoluteSet (ByteSize 1) None (Ret no_check) 1 0);
  ([R_RISCV_SET16],
    row AbsoluteSet (ByteSize 2) None (Ret no_check) 1 0);
  ([R_RISCV_SET32],
    row AbsoluteSet (ByteSize 4) None (Ret no_check) 1 0)
].

Definition riscv64_arms_3 : list (list riscv64_reloc * entry) := [
  ([R_RISCV_32_PCREL],
    row Relative (ByteSize 4) None (Ret (mkAllowed (- 2 ^ 31) (2 ^ 32))) 1 0);
  ([R_RISCV_PLT32],
    row PltRelative (ByteSize 4) None (Ret (mkAllowed (- 2 ^ 31) (2 ^ 32))) 1 0);
  ([R_RISCV_SET_ULEB128],
    row Relative (ByteSize 0) None (Ret no_check) 1 0);
  ([R_RISCV_SUB_ULEB128],
    row (PairSubtractionULEB128 (num R_RISCV_SET_ULEB128)) (ByteSize 8) None (Ret no_check) 1 0);
  ([R_RISCV_TLSDESC_HI20], unsupported);
  ([R_RISCV_TLSDESC_LOAD_LO12], unsupported);
  ([R_RISCV_TLSDESC_ADD_LO12], unsupported);
  ([R_RISCV_TLSDESC_CALL], unsupported)
].

#[export] Instance riscv64_table : RelocTable riscv64_reloc :=
  {| table_num := num; table_arms := riscv64_arms_1 ++ riscv64_arms_2 ++ riscv64_arms_3 |}.

Definition riscv64_relocation_type_from_raw (r_type : Z) : entry := from_raw r_type.
End riscv64.
