(* ===== verification/TableLoongArch.v ===== *)
(** The loongarch64 relocation table ([relocation_type_from_raw] of [linker-utils/src/loongarch64.rs]), arm by arm and
    in the order of the source. *)
From S2P Require Import Prelude BitMisc RelocInsn RelocInfo RelocTables.

Inductive loongarch64_reloc :=
| R_LARCH_NONE | R_LARCH_32 | R_LARCH_64 | R_LARCH_ADD6 | R_LARCH_ADD8 | R_LARCH_ADD16
| R_LARCH_ADD24 | R_LARCH_ADD32 | R_LARCH_ADD64 | R_LARCH_SUB6 | R_LARCH_SUB8 | R_LARCH_SUB16
| R_LARCH_SUB24 | R_LARCH_SUB32 | R_LARCH_SUB64 | R_LARCH_ADD_ULEB128 | R_LARCH_SUB_ULEB128
| R_LARCH_ABS_HI20 | R_LARCH_ABS_LO12 | R_LARCH_ABS64_HI12 | R_LARCH_ABS64_LO20 | R_LARCH_PCALA_HI20
| R_LARCH_PCALA_LO12 | R_LARCH_PCALA64_HI12 | R_LARCH_PCALA64_LO20 | R_LARCH_32_PCREL
| R_LARCH_PCREL20_S2 | R_LARCH_64_PCREL | R_LARCH_PCADD_HI20 | R_LARCH_GOT_PC_HI20
| R_LARCH_GOT_PC_LO12 | R_LARCH_GOT64_PC_HI12 | R_LARCH_GOT64_PC_LO20 | R_LARCH_B16
| R_LARCH_B21 | R_LARCH_B26 | R_LARCH_CALL36 | R_LARCH_CALL30 | R_LARCH_TLS_LE_HI20
| R_LARCH_TLS_LE_LO12 | R_LARCH_TLS_LE64_LO20 | R_LARCH_TLS_LE64_HI12 | R_LARCH_TLS_LE_HI20_R
| R_LARCH_TLS_LE_LO12_R | R_LARCH_TLS_IE_PC_HI20 | R_LARCH_TLS_IE_PC_LO12 | R_LARCH_TLS_IE64_PC_LO20
| R_LARCH_TLS_IE64_PC_HI12 | R_LARCH_TLS_IE_HI20 | R_LARCH_TLS_IE_LO12 | R_LARCH_TLS_IE64_HI12
| R_LARCH_TLS_IE64_LO20 | R_LARCH_TLS_LD_PC_HI20 | R_LARCH_TLS_LD_HI20 | R_LARCH_TLS_GD_PC_HI20
| R_LARCH_TLS_GD_HI20 | R_LARCH_TLS_DESC_PC_HI20 | R_LARCH_TLS_DESC_PC_LO12 | R_LARCH_TLS_DESC64_PC_HI12
| R_LARCH_TLS_DESC64_PC_LO20 | R_LARCH_TLS_DESC_LD | R_LARCH_TLS_DESC_CALL | R_LARCH_TLS_DTPREL32
| R_LARCH_TLS_DTPREL64 | R_LARCH_TLS_LD_PCREL20_S2 | R_LARCH_TLS_GD_PCREL20_S2 | R_LARCH_TLS_DESC_PCREL20_S2
| R_LARCH_RELAX | R_LARCH_TLS_LE_ADD_R | R_LARCH_ALIGN.

Section loongarch64.
(** The numbers the [object] crate gives to the names. *)
Context (num : loongarch64_reloc -> Z).

Definition loongarch64_arms_1 : list (list loongarch64_reloc * entry) := [
  ([R_LARCH_NONE],
    row KNone (ByteSize 0) None (Ret no_check) 1 0);
  ([R_LARCH_32],
    row Absolute (ByteSize 4) None (Ret (mkAllowed (- 2 ^ 31) (2 ^ 32))) 1 0);
  ([R_LARCH_64],
    row Absolute (ByteSize 4) None (Ret no_check) 1 0);
  ([R_LARCH_ADD6],
    row AbsoluteAdditionWord6 (ByteSize 1) None (Ret no_check) 1 0);
  ([R_LARCH_ADD8],
    row AbsoluteAddition (ByteSize 1) None (Ret no_check) 1 0);
  ([R_LARCH_ADD16],
    row AbsoluteAddition (ByteSize 2) None (Ret no_check) 1 0);
  ([R_LARCH_ADD24],
    row AbsoluteAddition (ByteSize 3) None (Ret no_check) 1 0);
  ([R_LARCH_ADD32],
    row AbsoluteAddition (ByteSize 4) None (Ret no_check) 1 0);
  ([R_LARCH_ADD64],
    row AbsoluteAddition (ByteSize 8) None (Ret no_check) 1 0);
  ([R_LARCH_SUB6],
    row AbsoluteSubtractionWord6 (ByteSize 1) None (Ret no_check) 1 0);
  ([R_LARCH_SUB8],
    row AbsoluteSubtraction (ByteSize 1) None (Ret no_check) 1 0);
  ([R_LARCH_SUB16],
    row AbsoluteSubtraction (ByteSize 2) None (Ret no_check) 1 0);
  ([R_LARCH_SUB24],
    row AbsoluteSubtraction (ByteSize 3) None (Ret no_check) 1 0);
  ([R_LARCH_SUB32],
    row AbsoluteSubtraction (ByteSize 4) None (Ret no_check) 1 0);
  ([R_LARCH_SUB64],
    row AbsoluteSubtraction (ByteSize 8) None (Ret no_check) 1 0);
  ([R_LARCH_ADD_ULEB128],
    row Relative (ByteSize 0) None (Ret no_check) 1 0);
  ([R_LARCH_SUB_ULEB128],
    row (PairSubtractionULEB128 (num R_LARCH_ADD_ULEB128)) (ByteSize 8) None (Ret no_check) 1 0)
].

Definition loongarch64_arms_2 : list (list loongarch64_reloc * entry) := [
  ([R_LARCH_ABS_HI20],
    row Absolute (bit_mask_loongarch64 12 32 Shift5) None (Ret no_check) 1 0);
  ([R_LARCH_ABS_LO12],
    row Absolute (bit_mask_loongarch64 0 12 Shift10) None (Ret no_check) 1 0);
  ([R_LARCH_ABS64_HI12],
    row Absolute (bit_mask_loongarch64 52 64 Shift10) None (Ret no_check) 1 0);
  ([R_LARCH_ABS64_LO20],
    row Absolute (bit_mask_loongarch64 32 52 Shift5) None (Ret no_check) 1 0);
  ([R_LARCH_PCALA_HI20],
    row Relative (bit_mask_loongarch64 12 32 Shift5) (Some (SymbolPlusAddendAndPosition PAGE_MASK_4KB)) (Ret no_check) 1 SIZE_2KB);
  ([R_LARCH_PCALA_LO12],
    row AbsoluteLowPart (bit_mask_loongarch64 0 12 Shift10) None (Ret no_check) 1 0);
  ([R_LARCH_PCALA64_HI12],
    row RelativeLoongArchHigh (bit_mask_loongarch64 52 64 Shift10) None (Ret no_check) 1 0);
  ([R_LARCH_PCALA64_LO20],
    row RelativeLoongArchHigh (bit_mask_loongarch64 32 52 Shift5) None (Ret no_check) 1 0);
  ([R_LARCH_32_PCREL],
    row Relative (ByteSize 4) None (from_bit_size 32 Signed) 1 0);
  ([R_LARCH_PCREL20_S2],
    row Relative (bit_mask_loongarch64 2 22 Shift5) None (from_bit_size 22 Signed) 4 0);
  ([R_LARCH_64_PCREL],
    row Relative (ByteSize 8) None (Ret no_check) 1 0);
  ([R_LARCH_PCADD_HI20],
    row Relative (bit_mask_loongarch64 12 32 Shift5) None (Ret no_check) 1 SIZE_2KB);
  ([R_LARCH_GOT_PC_HI20],
    row GotRelative (bit_mask_loongarch64 12 32 Shift5) (Some (GotEntryAndPosition PAGE_MASK_4KB)) (Ret no_check) 1 SIZE_2KB);
  ([R_LARCH_GOT_PC_LO12],
    row Got (bit_mask_loongarch64 0 12 Shift10) None (Ret no_check) 1 0);
  ([R_LARCH_GOT64_PC_HI12],
    row GotRelativeLoongArch64 (bit_mask_loongarch64 52 64 Shift10) None (Ret no_check) 1 0);
  ([R_LARCH_GOT64_PC_LO20],
    row GotRelativeLoongArch64 (bit_mask_loongarch64 32 52 Shift5) None (Ret no_check) 1 0)
].

Definition loongarch64_arms_3 : list (list loongarch64_reloc * entry) := [
  ([R_LARCH_B16],
    row Relative (bit_mask_loongarch64 2 18 Shift10) None (from_bit_size 18 Signed) 4 0);
  ([R_LARCH_B21],
    row Relative (bit_mask_loongarch64 2 23 Branch21) None (from_bit_size 23 Signed) 4 0);
  ([R_LARCH_B26],
    row PltRelative (bit_mask_loongarch64 2 28 Branch26) None (from_bit_size 28 Signed) 4 0);
  ([R_LARCH_CALL36],
    row Relative (bit_mask_loongarch64 2 38 Call36) None (from_bit_size 38 Signed) 4 0);
  ([R_LARCH_CALL30],
    row Relative (bit_mask_loongarch64 2 19 Call30) None (Ret no_check) 1 0);
  ([R_LARCH_TLS_LE_HI20],
    row TpOff (bit_mask_loongarch64 12 32 Shift5) None (Ret no_check) 1 0);
  ([R_LARCH_TLS_LE_LO12],
    row TpOff (bit_mask_loongarch64 0 12 Shift10) None (Ret no_check) 1 0);
  ([R_LARCH_TLS_LE64_LO20],
    row TpOff (bit_mask_loongarch64 32 52 Shift5) None (Ret no_check) 1 0);
  ([R_LARCH_TLS_LE64_HI12],
    row TpOff (bit_mask_loongarch64 52 64 Shift10) None (Ret no_check) 1 0);
  ([R_LARCH_TLS_LE_HI20_R],
    row TpOff (bit_mask_loongarch64 12 32 Shift5) None (Ret no_check) 1 SIZE_2KB);
  ([R_LARCH_TLS_LE_LO12_R],
    row TpOff (bit_mask_loongarch64 0 12 Shift10) None (Ret no_check) 1 0);
  ([R_LARCH_TLS_IE_PC_HI20],
    row GotTpOff (bit_mask_loongarch64 12 32 Shift5) (Some (GotEntryAndPosition PAGE_MASK_4KB)) (Ret no_check) 1 SIZE_2KB);
  ([R_LARCH_TLS_IE_PC_LO12],
    row GotTpOffGot (bit_mask_loongarch64 0 12 Shift10) None (Ret no_check) 1 0);
  ([R_LARCH_TLS_IE64_PC_LO20],
    row GotTpOffLoongArch64 (bit_mask_loongarch64 32 52 Shift5) None (Ret no_check) 1 0);
  ([R_LARCH_TLS_IE64_PC_HI12],
    row GotTpOffLoongArch64 (bit_mask_loongarch64 52 64 Shift10) None (Ret no_check) 1 0);
  ([R_LARCH_TLS_IE_HI20],
    row GotTpOffGot (bit_mask_loongarch64 12 32 Shift5) None (Ret no_check) 1 0)
].

Definition loongarch64_arms_4 : list (list loongarch64_reloc * entry) := [
  ([R_LARCH_TLS_IE_LO12],
    row GotTpOffGot (bit_mask_loongarch64 0 12 Shift10) None (Ret no_check) 1 0);
  ([R_LARCH_TLS_IE64_HI12],
    row GotTpOffGot (bit_mask_loongarch64 52 64 Shift10) None (Ret no_check) 1 0);
  ([R_LARCH_TLS_IE64_LO20],
    row GotTpOffGot (bit_mask_loongarch64 32 52 Shift5) None (Ret no_check) 1 0);
  ([R_LARCH_TLS_LD_PC_HI20],
    row TlsGd (bit_mask_loongarch64 12 32 Shift5) (Some (GotEntryAndPosition PAGE_MASK_4KB)) (Ret no_check) 1 SIZE_2KB);
  ([R_LARCH_TLS_LD_HI20],
    row TlsGdGot (bit_mask_loongarch64 12 32 Shift5) None (Ret no_check) 1 0);
  ([R_LARCH_TLS_GD_PC_HI20],
    row TlsGd (bit_mask_loongarch64 12 32 Shift5) (Some (GotEntryAndPosition PAGE_MASK_4KB)) (Ret no_check) 1 SIZE_2KB);
  ([R_LARCH_TLS_GD_HI20],
    row TlsGdGot (bit_mask_loongarch64 12 32 Shift5) None (Ret no_check) 1 0);
  ([R_LARCH_TLS_DESC_PC_HI20],
    row TlsDesc (bit_mask_loongarch64 12 32 Shift5) (Some (GotEntryAndPosition PAGE_MASK_4KB)) (Ret no_check) 1 SIZE_2KB);
  ([R_LARCH_TLS_DESC_PC_LO12],
    row TlsDescGot (bit_mask_loongarch64 0 12 Shift10) None (Ret no_check) 1 0);
  ([R_LARCH_TLS_DESC64_PC_HI12],
    row TlsDescLoongArch64 (bit_mask_loongarch64 52 64 Shift10) None (Ret no_check) 1 0);
  ([R_LARCH_TLS_DESC64_PC_LO20],
    row TlsDescLoongArch64 (bit_mask_loongarch64 32 52 Shift5) None (Ret no_check) 1 0);
  ([R_LARCH_TLS_DESC_LD],
    row KNone (ByteSize 0) None (Ret no_check) 1 0);
  ([R_LARCH_TLS_DESC_CALL],
    row TlsDescCall (ByteSize 0) None (Ret no_check) 1 0);
  ([R_LARCH_TLS_DTPREL32],
    row DtpOff (ByteSize 4) None (Ret no_check) 1 0);
  ([R_LARCH_TLS_DTPREL64],
    row DtpOff (ByteSize 8) None (Ret no_check) 1 0);
  ([R_LARCH_TLS_LD_PCREL20_S2; R_LARCH_TLS_GD_PCREL20_S2; R_LARCH_TLS_DESC_PCREL20_S2], unsupported);
  ([R_LARCH_RELAX; R_LARCH_TLS_LE_ADD_R],
    row KNone (ByteSize 0) None (Ret no_check) 1 0)
].

Definition loongarch64_arms_5 : list (list loongarch64_reloc * entry) := [
  ([R_LARCH_ALIGN],
    row KNone (ByteSize 0) None (Ret no_check) 1 0)
].

#[export] Instance loongarch64_table : RelocTable loongarch64_reloc :=
  {| table_num := num; table_arms := loongarch64_arms_1 ++ loongarch64_arms_2 ++ loongarch64_arms_3 ++ loongarch64_arms_4 ++ loongarch64_arms_5 |}.

Definition loongarch64_relocation_type_from_raw (r_type : Z) : entry := from_raw r_type.
End loongarch64.
