(* ===== verification/TableFacts.v ===== *)
(** What the four relocation tables promise: no lookup and no write panics when the
    buffer has room; checked ranges accept only values that fit the field;
    AArch64 relocations stay inside their instruction's immediate; branch
    relocations lose nothing.  Each theorem is a boolean check of every arm lifted
    through the lemmas of [RelocTables], and the rows that break a promise are
    named. *)
From S2P Require Import Prelude Bits BitMisc RelocInsn RelocInfo RelocTables TableX86 TableAArch64 TableRiscV TableLoongArch.

(** ** Safety *)

Definition safe_table (lookup : Z -> entry) : Prop :=
  forall r, exists found, lookup r = Ret found /\
    forall info, found = Some info -> forall uleb value out, footprint info <= len out ->
      exists res, write_relocation_to_buffer uleb info value out = Ret res /\
        (forall out', res = Ok out' -> len out' = len out).

Definition size_ok (info : RelocationKindInfo) : bool :=
  match ri_size info with ByteSize n => (0 <=? n) && (n <=? 8) | BitMasking _ => true end.

Lemma safe_table_of {N} (num : N -> Z) arms :
  arms_all (fun _ => size_ok) arms = true -> safe_table (match_arms num arms).
Proof.
  intros Hall r. destruct (match_arms_cases num _ arms r Hall) as [->|(pats & n & info & -> & _ & _ & Hok)].
  - by exists None.
  - exists (Some info). split; [done|]. intros ? [= <-] uleb value out Hf.
    apply write_relocation_total; [|done]. intros k Hk. unfold size_ok in Hok. rewrite Hk in Hok. lia.
Qed.

(** ** Ranges *)

(** The low bits of the value a relocation is responsible for: a byte field's own
    width, an immediate's reach, or the upper end of the extracted bits.  [Movnz]
    also stores the sign, by choosing MOVN or MOVZ. *)
Definition value_bits (info : RelocationKindInfo) : Z :=
  match ri_size info with
  | ByteSize n => 8 * n
  | BitMasking m =>
      match bm_instruction m with
      | RiscV BType => 13 | RiscV JType => 21 | RiscV CbType => 9 | RiscV CjType => 12
      | RiscV _ => 32
      | AArch64 Movnz => range_end (bm_range m) + 1
      | _ => range_end (bm_range m)
      end
  end.

Definition checked (info : RelocationKindInfo) : bool :=
  negb ((ar_min (ri_range info) =? ar_min no_check) && (ar_max (ri_range info) =? ar_max no_check)).

Definition range_ok (info : RelocationKindInfo) : bool :=
  negb (checked info) ||
  ((1 <=? value_bits info) && (- 2 ^ (value_bits info - 1) <=? ar_min (ri_range info))
   && (ar_max (ri_range info) <=? 2 ^ value_bits info)).

Definition bounded_table (lookup : Z -> entry) : Prop :=
  forall r info v, lookup r = Ret (Some info) -> checked info = true ->
    verify info v = Ok tt ->
    is_sint (value_bits info) v \/ is_uint (value_bits info) v.

Lemma verify_Ok info v : verify info v = Ok tt ->
  is_multiple_of (u64 v) (ri_alignment info) = true /\ ar_contains (ri_range info) v = true.
Proof. unfold verify. by destruct (is_multiple_of _ _), (ar_contains _ _). Qed.

Lemma bounded_table_of {N} (num : N -> Z) arms :
  arms_all (fun _ => range_ok) arms = true -> bounded_table (match_arms num arms).
Proof.
  intros Hall r info v Hl Hc [_ Hv]%verify_Ok.
  destruct (match_arms_Some num _ arms r info Hall Hl) as (_ & _ & _ & _ & Hok).
  unfold range_ok in Hok. rewrite Hc in Hok. cbn [negb orb] in Hok. unfold ar_contains in Hv.
  set (w := value_bits info) in *. assert (Hw : 1 <= w) by lia.
  assert (E : 2 ^ w = 2 * 2 ^ (w - 1)) by (rewrite <- Z.pow_succ_r by lia; f_equal; lia).
  unfold is_sint, is_uint. destruct (Z_lt_le_dec v 0); [left|right]; lia.
Qed.

(** ** AArch64 immediates *)

Lemma aarch64_write_confined i x w rest negative : i <> Movnz ->
  let v := wrap (aarch64_width i) x in
  exists w', aarch64_write i v negative (le_bytes 4 w ++ rest) = Ret (le_bytes 4 w' ++ rest) /\
    Z.land (u32 w') (Z.lnot (aarch64_field i)) = Z.land (u32 w) (Z.lnot (aarch64_field i)).
Proof.
  intros Hne; destruct i; try (by destruct Hne); clear Hne;
    cbn [aarch64_write aarch64_field aarch64_width]; rewrite or_from_slice_le;
    eexists; (split; [reflexivity|]); bits_norm; bitblast.
Qed.

Lemma movnz_write_confined v w rest negative :
  exists w', aarch64_write Movnz v negative (le_bytes 4 w ++ rest) = Ret (le_bytes 4 w' ++ rest) /\
    Z.land (u32 w') (Z.lnot (aarch64_field Movnz)) = Z.land (u32 w) (Z.lnot (aarch64_field Movnz)).
Proof.
  cbn [aarch64_write aarch64_field]. rewrite and_from_slice_le. cbn [mbind outcome_bind].
  rewrite or_from_slice_le. eexists. split; [reflexivity|].
  destruct negative; [generalize (Z.lnot (i64 v)) | generalize (i64 v)]; intros x; bits_norm; bitblast.
Qed.

Lemma wrap_narrow n m x : 0 <= n <= m -> wrap m (wrap n x) = wrap n x.
Proof.
  intros H. apply wrap_id. pose proof (wrap_bound n x ltac:(lia)). unfold is_uint in *.
  pose proof (Z.pow_le_mono_r 2 n m ltac:(lia) ltac:(lia)). lia.
Qed.

(** The two rows that store more bits than their instruction has. *)
Definition misplaced (n : aarch64_reloc) : bool :=
  match n with R_AARCH64_GOT_LD_PREL19 | R_AARCH64_TLSLD_LD_PREL19 => true | _ => false end.

Definition aarch64_arm_ok (pats : list aarch64_reloc) (info : RelocationKindInfo) : bool :=
  forallb misplaced pats ||
  match ri_size info with
  | ByteSize _ => true
  | BitMasking (mkBitMask (AArch64 i) (mkRange s e)) =>
      negb (is_pair_uleb (ri_kind info)) && (0 <=? s) && (s <? e) && (e <=? 64) &&
      (match i with Movnz => true | _ => e - s <=? aarch64_width i end)
  | BitMasking _ => false
  end.

Lemma aarch64_arms_ok num : arms_all aarch64_arm_ok (@table_arms _ (aarch64_table num)) = true.
Proof. vm_compute. reflexivity. Qed.

Lemma aarch64_extract_confined i s e value w rest negative :
  0 <= s < e -> e <= 64 -> (i = Movnz \/ e - s <= aarch64_width i) ->
  exists w', aarch64_write i (extract_bit_range (u64 value) s e) negative (le_bytes 4 w ++ rest)
      = Ret (le_bytes 4 w' ++ rest) /\
    Z.land (u32 w') (Z.lnot (aarch64_field i)) = Z.land (u32 w) (Z.lnot (aarch64_field i)).
Proof.
  intros Hs He Hi. destruct (decide (i = Movnz)) as [->|Hne]; [apply movnz_write_confined|].
  destruct Hi as [|Hi]; [done|].
  rewrite extract_bit_range_eq by (auto with widths || lia).
  rewrite <- (wrap_narrow (e - s) (aarch64_width i)) by lia. by apply aarch64_write_confined.
Qed.

(** ** Branches *)

Definition branch_ok (info : RelocationKindInfo) : bool :=
  match ri_size info with
  | BitMasking (mkBitMask insn (mkRange s e)) =>
      match pcrel_width insn with
      | Some m =>
          negb (checked info) || (match ri_mask info with None => false | Some _ => true end) ||
          ((0 <=? s) && (e =? s + m) && (e <? 64) && (1 <=? e) && negb (is_pair_uleb (ri_kind info))
           && (ri_alignment info =? 2 ^ s)
           && (ar_min (ri_range info) =? - 2 ^ (e - 1)) && (ar_max (ri_range info) =? 2 ^ (e - 1)))
      | None => true
      end
  | ByteSize _ => true
  end.

Lemma from_bit_size_signed n : 1 <= n < 64 ->
  from_bit_size n Signed = Ret (mkAllowed (- 2 ^ (n - 1)) (2 ^ (n - 1))).
Proof.
  intros Hn. unfold from_bit_size. replace (n =? 0) with false by lia. replace (n =? 64) with false by lia.
  replace ((1 <=? n) && (n <? 64)) with true by lia. by rewrite andb_false_r.
Qed.

(** What a lossless relocation does with a value whose field ends at bit [e] and
    starts at bit [s]. *)
Definition lossless (insn : RelocationInstruction) (s e value : Z)
  (res : outcome (result bytes RelocError)) : Prop :=
  match res with
  | Ret (Ok out) =>
      is_sint e value /\ value mod 2 ^ s = 0 /\
      exists v f, read_value insn out = Ret (v, f) /\ i64 v * 2 ^ s = value
  | Ret (Err _) => value mod 2 ^ s <> 0 \/ ~ is_sint e value
  | Panic => False
  end.

Lemma branch_ok_lossless uleb info insn s e m value w rest :
  branch_ok info = true -> ri_size info = BitMasking (mkBitMask insn (mkRange s e)) ->
  pcrel_width insn = Some m -> checked info = true -> ri_mask info = None ->
  is_sint 64 value -> writable insn w ->
  lossless insn s e value (write_relocation_to_buffer uleb info (u64 value) (le_bytes 4 w ++ rest)).
Proof.
  destruct info as [kind size mask [lo hi] al bias]. unfold branch_ok. cbn [ri_size ri_mask ri_kind
    ri_alignment ri_range ar_min ar_max]. intros Hok -> Hm Hc -> Hv Hw. rewrite Hm, Hc in Hok. cbn [negb orb] in Hok.
  repeat (apply andb_true_iff in Hok as [Hok ?]).
  assert (Es : e = s + m) by lia. subst e.
  replace lo with (- 2 ^ (s + m - 1)) by lia. replace hi with (2 ^ (s + m - 1)) by lia.
  replace al with (2 ^ s) by lia.
  apply (branch_lossless uleb insn m s kind None bias _ value w rest Hm); try done; try lia.
  - by apply negb_true_iff.
  - apply from_bit_size_signed. lia.
Qed.

Lemma aarch64_branches_ok num :
  arms_all (fun pats info => forallb misplaced pats || branch_ok info) (@table_arms _ (aarch64_table num)) = true.
Proof. vm_compute. reflexivity. Qed.

Lemma loongarch64_branches_ok num :
  arms_all (fun _ => branch_ok) (@table_arms _ (loongarch64_table num)) = true.
Proof. vm_compute. reflexivity. Qed.

(** ** Rows that lose data *)

(** The value's upper half never reaches the eight bytes of the field. *)
Definition half_written (found : entry) : Prop :=
  exists info, found = Ret (Some info) /\ ri_alignment info = 1 /\ checked info = false /\
    forall uleb value, is_uint 64 value -> i64 value <> 2 ^ 63 - 1 ->
      write_relocation_to_buffer uleb info value (le_bytes 8 0) = Ret (Ok (le_bytes 8 (wrap 32 value))).

Lemma half_written_of kind bias mask : is_pair_uleb kind = false ->
  half_written (row kind (ByteSize 4) mask (Ret no_check) 1 bias).
Proof.
  intros Hk. eexists. split; [reflexivity|]. split; [done|]. split; [done|]. intros uleb value Hv Hmax.
  unfold write_relocation_to_buffer, verify. cbn [ri_alignment ri_range ri_kind ri_size].
  unfold is_multiple_of. cbn [Z.eqb]. rewrite Z.mod_1_r. cbn [Z.eqb negb].
  replace (ar_contains no_check (i64 value)) with true.
  2:{ pose proof (sext_bound 64 value ltac:(lia)) as Hb. unfold is_sint in Hb. change (64 - 1) with 63 in Hb.
      unfold ar_contains, no_check. cbn [ar_min ar_max]. lia. }
  cbn [negb]. rewrite Hk. change (len (le_bytes 8 0) <? 4) with false. cbv iota.
  change 4 with (Z.of_nat 4). rewrite slice_le_bytes by lia. cbn [mbind outcome_bind].
  rewrite copy_prefix_eq by (rewrite !le_bytes_len; lia). cbn [mbind outcome_bind].
  do 2 f_equal. rewrite le_bytes_length. change (drop 4 (le_bytes 8 0)) with (le_bytes 4 0).
  rewrite le_bytes_join. cbn [Nat.add]. by rewrite Z.shiftl_0_l, Z.lor_0_r.
Qed.

(** An accepted relocation that changes bits outside the literal-load's 19-bit
    immediate. *)
Definition corrupts_load (found : entry) (word value : Z) : Prop :=
  exists info w', found = Ret (Some info) /\ checked info = true /\
    (forall uleb, write_relocation_to_buffer uleb info (u64 value) (le_bytes 4 word) = Ret (Ok (le_bytes 4 w'))) /\
    Z.land w' (Z.lnot (aarch64_field Ldr)) <> Z.land word (Z.lnot (aarch64_field Ldr)).

(** ** Properties *)

(** C37. Whatever numbers the [object] crate gives its constants, looking a number up
    in any of the four tables never panics, and applying what was found to a
    buffer with room for the relocation never panics and never changes the
    buffer's length. *)
Theorem tables_never_panic nx na nr nl :
  safe_table (relocation_from_raw nx) /\ safe_table (aarch64_relocation_type_from_raw na) /\
  safe_table (riscv64_relocation_type_from_raw nr) /\ safe_table (loongarch64_relocation_type_from_raw nl).
Proof. split_and!; apply safe_table_of; vm_compute; reflexivity. Qed.

(** No checked relocation truncates silently: in all four tables, a value that
    passes the range and alignment check fits, as a signed or as an unsigned
    number, in the bits the relocation is responsible for. *)
Theorem checked_ranges_fit nx na nr nl :
  bounded_table (relocation_from_raw nx) /\ bounded_table (aarch64_relocation_type_from_raw na) /\
  bounded_table (riscv64_relocation_type_from_raw nr) /\ bounded_table (loongarch64_relocation_type_from_raw nl).
Proof. split_and!; apply bounded_table_of; vm_compute; reflexivity. Qed.

(** AArch64 relocations patch only the immediate: for every bit-masked relocation
    of the table but two (see [prel19_corrupts]), any accepted value and any
    instruction word, the written word differs from the old one only inside the
    immediate field of the instruction the table names, and the bytes after it
    are untouched. *)
Theorem aarch64_relocations_confined num r info insn s e uleb value w rest out :
  aarch64_relocation_type_from_raw num r = Ret (Some info) ->
  (forall n, misplaced n = true -> r <> num n) ->
  ri_size info = BitMasking (mkBitMask insn (mkRange s e)) ->
  write_relocation_to_buffer uleb info (u64 value) (le_bytes 4 w ++ rest) = Ret (Ok out) ->
  exists i w', insn = AArch64 i /\ out = le_bytes 4 w' ++ rest /\
    Z.land (u32 w') (Z.lnot (aarch64_field i)) = Z.land (u32 w) (Z.lnot (aarch64_field i)).
Proof.
  intros Hl Hex Hsize. destruct (match_arms_Some num _ _ r info (aarch64_arms_ok num) Hl)
    as (pats & n & Hin & Hn & Hok).
  unfold aarch64_arm_ok in Hok. rewrite orb_true_iff in Hok. destruct Hok as [Hok|Hok].
  { rewrite forallb_forall in Hok. by destruct (Hex n (Hok n Hin)). }
  rewrite Hsize in Hok. destruct insn as [i|i|i]; [|done|done].
  repeat (apply andb_true_iff in Hok as [Hok ?]).
  unfold write_relocation_to_buffer. destruct (verify _ _) as [u|]; [|done].
  rewrite (proj1 (negb_true_iff _) Hok), Hsize. cbn [bm_range bm_instruction range_start range_end write_to_value].
  destruct (aarch64_extract_confined i s e value w rest (i64 (u64 value) <? 0)) as (w' & -> & Hw');
    [lia|lia|destruct i; try (right; lia); by left|].
  cbn [mbind outcome_bind]. intros [= <-]. by exists i, w'.
Qed.

Lemma aarch64_relocations_confined_witness :
  let num := fun n => match n with R_AARCH64_MOVW_SABS_G0 => 270 | _ => 0 end in
  exists out i w', write_relocation_to_buffer (fun _ => [])
      (mkInfo Absolute (bit_mask_aarch64 0 16 Movnz) None (mkAllowed (- 2 ^ 16) (2 ^ 16)) 1 0)
      (u64 (-2)) (le_bytes 4 0xD2800003) = Ret (Ok out) /\
    AArch64 Movnz = AArch64 i /\ out = le_bytes 4 w' ++ [] /\
    Z.land (u32 w') (Z.lnot (aarch64_field i)) = Z.land (u32 0xD2800003) (Z.lnot (aarch64_field i)).
Proof.
  intros num.
  match goal with |- context [write_relocation_to_buffer ?u ?i ?v ?d] =>
    destruct (write_relocation_to_buffer u i v d) as [[out|]|] eqn:E;
      [|exfalso; vm_compute in E; discriminate E..] end.
  destruct (aarch64_relocations_confined num 270
    (mkInfo Absolute (bit_mask_aarch64 0 16 Movnz) None (mkAllowed (- 2 ^ 16) (2 ^ 16)) 1 0)
    (AArch64 Movnz) 0 16 (fun _ => []) (-2) 0xD2800003 [] out) as (i & w' & H1 & H2 & H3).
  - reflexivity.
  - intros [] Hn; try discriminate Hn; discriminate.
  - reflexivity.
  - exact E.
  - exists out, i, w'. split_and!; [reflexivity|done|done|done].
Defined.

(** A branch relocation loses nothing.  For every unmasked, checked PC-relative
    relocation of the AArch64 and LoongArch tables whose format is a branch, an
    ADR or a literal load (one misdescribed row excepted), applying it to an
    instruction never panics; it succeeds just when the value is aligned and in
    range, and then decoding the written instruction gives back the value;
    otherwise it is an error. *)
Theorem table_branches_lossless na nl r info insn s e m uleb value w rest :
  (aarch64_relocation_type_from_raw na r = Ret (Some info) /\ (forall n, misplaced n = true -> r <> na n)
   \/ loongarch64_relocation_type_from_raw nl r = Ret (Some info)) ->
  ri_size info = BitMasking (mkBitMask insn (mkRange s e)) -> pcrel_width insn = Some m ->
  checked info = true -> ri_mask info = None -> is_sint 64 value -> writable insn w ->
  lossless insn s e value (write_relocation_to_buffer uleb info (u64 value) (le_bytes 4 w ++ rest)).
Proof.
  intros Hl Hsize Hm Hc Hk Hv Hw. apply (branch_ok_lossless uleb info insn s e m); try done.
  destruct Hl as [[Hl Hex]|Hl].
  - destruct (match_arms_Some na _ _ r info (aarch64_branches_ok na) Hl) as (pats & n & Hin & Hn & Hok).
    rewrite orb_true_iff in Hok. destruct Hok as [Hok|Hok]; [|done].
    rewrite forallb_forall in Hok. by destruct (Hex n (Hok n Hin)).
  - by destruct (match_arms_Some nl _ _ r info (loongarch64_branches_ok nl) Hl) as (_ & _ & _ & _ & Hok).
Qed.

Lemma table_branches_lossless_witness :
  let na := fun n => match n with R_AARCH64_CALL26 => 283 | _ => 0 end in
  let info := mkInfo PltRelative (bit_mask_aarch64 2 28 JumpCall) None (mkAllowed (- 2 ^ 27) (2 ^ 27)) 4 0 in
  aarch64_relocation_type_from_raw na 283 = Ret (Some info) /\
  exists out v f, write_relocation_to_buffer (fun _ => []) info (u64 (-4096)) (le_bytes 4 0x94000000)
      = Ret (Ok out) /\
    read_value (AArch64 JumpCall) out = Ret (v, f) /\ i64 v * 2 ^ 2 = -4096.
Proof.
  intros na info. split; [reflexivity|].
  pose proof (table_branches_lossless na (fun _ => 0) 283 info (AArch64 JumpCall) 2 28 26 (fun _ => [])
    (-4096) 0x94000000 []) as H.
  rewrite app_nil_r in H. unfold lossless in H.
  destruct (write_relocation_to_buffer _ _ _ _) as [[out|e]|] eqn:E.
  - destruct H as (_ & _ & v & f & H1 & H2); [| | | | | | |exists out, v, f; done];
      try reflexivity; try (unfold is_sint; lia); [|by exists 0x94000000].
    left. split; [reflexivity|]. intros [] Hn; try discriminate Hn; discriminate.
  - exfalso. vm_compute in E. discriminate E.
  - exfalso. vm_compute in E. discriminate E.
Defined.

(** Three 64-bit data relocations are written as four bytes: when its number is
    unique, [R_RISCV_64], [R_LARCH_64] and [R_AARCH64_GOTREL64] accept any value,
    report success, and leave the upper half of the eight-byte field as it was. *)
Theorem wide_data_half_written na nr nl :
  distinct na R_AARCH64_GOTREL64 -> distinct nr R_RISCV_64 -> distinct nl R_LARCH_64 ->
  half_written (aarch64_relocation_type_from_raw na (na R_AARCH64_GOTREL64)) /\
  half_written (riscv64_relocation_type_from_raw nr (nr R_RISCV_64)) /\
  half_written (loongarch64_relocation_type_from_raw nl (nl R_LARCH_64)).
Proof.
  intros Ha Hr Hl. split_and!;
    [change (aarch64_relocation_type_from_raw na) with (match_arms na (@table_arms _ (aarch64_table na)));
     rewrite (match_arms_named na (fun n => match n with R_AARCH64_GOTREL64 => true | _ => false end))
    |change (riscv64_relocation_type_from_raw nr) with (match_arms nr (@table_arms _ (riscv64_table nr)));
     rewrite (match_arms_named nr (fun n => match n with R_RISCV_64 => true | _ => false end))
    |change (loongarch64_relocation_type_from_raw nl) with (match_arms nl (@table_arms _ (loongarch64_table nl)));
     rewrite (match_arms_named nl (fun n => match n with R_LARCH_64 => true | _ => false end))];
    try (apply half_written_of; reflexivity).
  all: intros n; split; [intros Hn; (apply Ha in Hn || apply Hr in Hn || apply Hl in Hn); by subst n
                        |by destruct n].
Qed.

Lemma wide_data_half_written_witness :
  exists nr, half_written (riscv64_relocation_type_from_raw nr (nr R_RISCV_64)).
Proof.
  exists (fun n => match n with R_RISCV_64 => 2 | _ => 0 end).
  apply (wide_data_half_written (fun n => match n with R_AARCH64_GOTREL64 => 307 | _ => 0 end)
    (fun n => match n with R_RISCV_64 => 2 | _ => 0 end) (fun n => match n with R_LARCH_64 => 2 | _ => 0 end));
    intros [] Hn; try discriminate Hn; reflexivity.
Defined.

(** Two AArch64 literal-load relocations corrupt the instruction:
    [R_AARCH64_GOT_LD_PREL19] is described with the load/store immediate at bit
    10 and [R_AARCH64_TLSLD_LD_PREL19] stores 21 bits, unshifted, in the 19-bit
    field.  Both accept the value -4 and change opcode bits of [ldr x0, .]. *)
Theorem prel19_corrupts num :
  distinct num R_AARCH64_GOT_LD_PREL19 -> distinct num R_AARCH64_TLSLD_LD_PREL19 ->
  corrupts_load (aarch64_relocation_type_from_raw num (num R_AARCH64_GOT_LD_PREL19)) 0x58000000 (-4) /\
  corrupts_load (aarch64_relocation_type_from_raw num (num R_AARCH64_TLSLD_LD_PREL19)) 0x58000000 (-4).
Proof.
  intros H1 H2. change (aarch64_relocation_type_from_raw num) with (match_arms num (@table_arms _ (aarch64_table num))).
  split;
    [rewrite (match_arms_named num (fun n => match n with R_AARCH64_GOT_LD_PREL19 => true | _ => false end))
    |rewrite (match_arms_named num (fun n => match n with R_AARCH64_TLSLD_LD_PREL19 => true | _ => false end))];
    try (intros n; split; [intros Hn; (apply H1 in Hn || apply H2 in Hn); by subst n|by destruct n]).
  - eexists _, (Z.lor 0x58000000 (Z.shiftl 0x7FFFF 10)). split; [reflexivity|]. split; [reflexivity|].
    split; [intros uleb; vm_compute; reflexivity|vm_compute; discriminate].
  - eexists _, (Z.lor 0x58000000 (Z.shiftl 0x1FFFFC 5)). split; [reflexivity|]. split; [reflexivity|].
    split; [intros uleb; vm_compute; reflexivity|vm_compute; discriminate].
Qed.

Lemma prel19_corrupts_witness :
  exists num, corrupts_load (aarch64_relocation_type_from_raw num (num R_AARCH64_GOT_LD_PREL19)) 0x58000000 (-4).
Proof.
  exists (fun n => match n with R_AARCH64_GOT_LD_PREL19 => 309 | R_AARCH64_TLSLD_LD_PREL19 => 522 | _ => 0 end).
  apply (prel19_corrupts (fun n => match n with R_AARCH64_GOT_LD_PREL19 => 309
    | R_AARCH64_TLSLD_LD_PREL19 => 522 | _ => 0 end)); intros [] Hn; try discriminate Hn; reflexivity.
Defined.
