(* ===== verification/BlockWalker.v ===== *)
(** The control-flow and stack-depth walker ([wilt/src/block_walker.rs]): an iterator
    over instructions that keeps a stack of block frames, the operand-stack
    depth and whether control can reach the current instruction; and the
    signature tables it consults for calls.

    Depths are [i32] and wrap, as the release build's do.  The frames vector is
    kept with its last element first. *)
From S2P Require Import Prelude Leb128 Opcode WasmModule.

Inductive BlockKind := Block | Loop | If | Else.

Record BlockFrame := mkFrame {
  bf_kind : BlockKind;
  branch_arity : Z;
  fallthrough_arity : Z;
  in_arity : Z;
  entry_depth : Z;
  reachable_at_entry : bool;
}.

Record Step := mkStep {
  st_pos : Z;
  st_len : Z;
  st_op : Z;
  stack_depth_before : Z;
  reachable_before : bool;
  closed_frame : option BlockFrame;
}.

(** The trait object: two partial functions. *)
Record SigResolver := {
  func_sig : Z -> option (Z * Z);
  type_sig : Z -> option (Z * Z);
}.

Record BlockWalker := mkWalker {
  bw_iter : InstrIter;
  bw_frames : list BlockFrame;
  bw_resolver : option SigResolver;
  stack_depth : Z;
  reachable : bool;
  bw_failed : bool;
}.

Definition with_resolver (body : bytes) (start : Z) (resolver : option SigResolver) : BlockWalker :=
  mkWalker (iter_new body start) [] resolver 0 true false.

Definition bw_new (body : bytes) (start : Z) : BlockWalker := with_resolver body start None.

Definition failed (w : BlockWalker) : bool := bw_failed w || it_failed (bw_iter w).

Definition set_iter (w : BlockWalker) (it : InstrIter) : BlockWalker :=
  mkWalker it (bw_frames w) (bw_resolver w) (stack_depth w) (reachable w) (bw_failed w).
Definition set_frames (w : BlockWalker) (fs : list BlockFrame) : BlockWalker :=
  mkWalker (bw_iter w) fs (bw_resolver w) (stack_depth w) (reachable w) (bw_failed w).
Definition set_state (w : BlockWalker) (depth : Z) (r : bool) : BlockWalker :=
  mkWalker (bw_iter w) (bw_frames w) (bw_resolver w) depth r (bw_failed w).
Definition set_failed (w : BlockWalker) : BlockWalker :=
  mkWalker (bw_iter w) (bw_frames w) (bw_resolver w) (stack_depth w) (reachable w) true.

Definition mark_unreachable (w : BlockWalker) : BlockWalker := set_state w (stack_depth w) false.

Definition apply_effect (w : BlockWalker) (pops pushes : Z) : BlockWalker :=
  if negb (reachable w) then w
  else set_state w (i32 (i32 (stack_depth w - i32 pops) + i32 pushes)) (reachable w).

Definition stub_step (pos n op : Z) : Step := mkStep pos n op 0 false None.

(** [(in_arity, out_arity)] of a block type. *)
Definition read_blocktype_arity (body : bytes) (off : Z) (resolver : option SigResolver)
  : option (Z * Z) :=
  b ← get body off;
  if b =? 0x40 then Some (0, 0)
  else match valtype_len body off with
       | Some _ => Some (0, 1)
       | None =>
           rest ← get_from body off;
           '(val, _) ← read_u32 rest;
           r ← resolver;
           type_sig r val
       end.

(** [leb128::read_u32(body.get(pos + 1..).unwrap_or(&[]))]. *)
Definition read_imm (body : bytes) (pos : Z) : option Z :=
  fst <$> read_u32 (match get_from body (pos + 1) with Some rest => rest | None => [] end).

(** Effects of the [0xFC] sub-opcodes. *)
Definition fc_effect (sub : Z) : option (Z * Z) :=
  if in_range 0x00 0x07 sub then Some (1, 1)
  else if one_of [0x08; 0x0A; 0x0B; 0x0C; 0x0E; 0x11] sub then Some (3, 0)
  else if one_of [0x09; 0x0D] sub then Some (0, 0)
  else if sub =? 0x0F then Some (2, 1)
  else if sub =? 0x10 then Some (0, 1)
  else None.

(** The arms that only call [apply_effect]: pops and pushes, or failure.  The arms
    without any effect ([nop], [data.drop], [elem.drop]) are [(0, 0)]. *)
Definition straight_effect (resolver : option SigResolver) (body : bytes) (pos op : Z)
  : option (Z * Z) :=
  if op =? 0x01 then Some (0, 0)
  else if op =? 0x0D then Some (1, 0)
  else if op =? 0x10 then
    idx ← read_imm body pos; r ← resolver; func_sig r idx
  else if op =? 0x11 then
    tidx ← read_imm body pos; r ← resolver; '(p, q) ← type_sig r tidx; Some (u32 (p + 1), q)
  else if op =? 0x1A then Some (1, 0)
  else if one_of [0x1B; 0x1C] op then Some (3, 1)
  else if one_of [0x20; 0x23] op then Some (0, 1)
  else if one_of [0x21; 0x24] op then Some (1, 0)
  else if op =? 0x22 then Some (1, 1)
  else if op =? 0x25 then Some (1, 1)
  else if op =? 0x26 then Some (2, 0)
  else if in_range 0x28 0x35 op then Some (1, 1)
  else if in_range 0x36 0x3E op then Some (2, 0)
  else if op =? 0x3F then Some (0, 1)
  else if op =? 0x40 then Some (1, 1)
  else if in_range 0x41 0x44 op then Some (0, 1)
  else if one_of [0x45; 0x50; 0x67; 0x68; 0x69; 0x79; 0x7A; 0x7B] op || in_range 0x8B 0x91 op
       || in_range 0x99 0x9F op || in_range 0xA7 0xC4 op then Some (1, 1)
  else if in_range 0x46 0x4F op || in_range 0x51 0x5A op || in_range 0x5B 0x66 op
       || in_range 0x6A 0x78 op || in_range 0x7C 0x8A op || in_range 0x92 0x98 op
       || in_range 0xA0 0xA6 op then Some (2, 1)
  else if op =? 0xD0 then Some (0, 1)
  else if op =? 0xD1 then Some (1, 1)
  else if op =? 0xD2 then Some (0, 1)
  else if op =? 0xD3 then Some (2, 1)
  else if op =? 0xD4 then Some (1, 1)
  else if op =? 0xFC then sub ← read_imm body pos; fc_effect sub
  else None.

(** The [match op]: the walker after the instruction and the frame [end] closed;
    [None] is the early return with a stub step. *)
Definition step_op (w : BlockWalker) (body : bytes) (pos op : Z)
  : option (BlockWalker * option BlockFrame) :=
  if in_range 0x02 0x04 op then
    let kind := if op =? 0x02 then Block else if op =? 0x03 then Loop else If in
    '(in_a, out_a) ← read_blocktype_arity body (pos + 1) (bw_resolver w);
    let w := if op =? 0x04 then apply_effect w 1 0 else w in
    let branch := match kind with Loop => in_a | _ => out_a end in
    let frame := mkFrame kind branch out_a in_a (i32 (stack_depth w - i32 in_a)) (reachable w) in
    Some (set_frames w (frame :: bw_frames w), None)
  else if op =? 0x05 then
    match bw_frames w with
    | mkFrame If ba fa ia ed re :: fs =>
        Some (set_state (set_frames w (mkFrame Else ba fa ia ed re :: fs)) (i32 (ed + i32 ia)) re, None)
    | _ => Some (w, None)
    end
  else if op =? 0x0B then
    match bw_frames w with
    | frame :: fs =>
        Some (set_state (set_frames w fs) (i32 (entry_depth frame + i32 (fallthrough_arity frame)))
                (reachable_at_entry frame), Some frame)
    | [] => Some (w, None)
    end
  else if op =? 0x00 then Some (mark_unreachable w, None)
  else if op =? 0x0C then Some (mark_unreachable w, None)
  else if op =? 0x0E then Some (mark_unreachable (apply_effect w 1 0), None)
  else if op =? 0x0F then Some (mark_unreachable w, None)
  else
    '(pops, pushes) ← straight_effect (bw_resolver w) body pos op;
    Some (apply_effect w pops pushes, None).

(** [Iterator::next]. *)
Definition bw_next (w : BlockWalker) : outcome (option Step * BlockWalker) :=
  let '(item, it) := iter_next (bw_iter w) in
  let w := set_iter w it in
  match item with
  | None => Ret (None, w)
  | Some (pos, n) =>
      op ← index (it_body it) pos;
      match step_op w (it_body it) pos op with
      | None => Ret (Some (stub_step pos n op), set_failed w)
      | Some (w', closed) =>
          Ret (Some (mkStep pos n op (stack_depth w) (reachable w) closed), w')
      end
  end.

(** Drain the iterator. *)
Fixpoint bw_collect (fuel : nat) (w : BlockWalker) : outcome (list Step * BlockWalker) :=
  match fuel with
  | O => Ret ([], w)
  | S fuel =>
      '(item, w) ← bw_next w;
      match item with
      | None => Ret ([], w)
      | Some s => '(l, w) ← bw_collect fuel w; Ret (s :: l, w)
      end
  end.

(** ** Signatures of a module *)

Record ModuleSigs := mkSigs { ms_types : list (Z * Z); func_types : list Z }.

(** One value type of a signature. *)
Definition skip_param (p : bytes) (off : Z) : option Z :=
  vt ← get p off;
  if in_range 0x7B 0x7F vt || one_of [0x6F; 0x70] vt then Some (off + 1) else None.

(** [let (n, c) = read_u32(p.get(off..)?)?], with the offset after it. *)
Definition leb_at (p : bytes) (off : Z) : option (Z * Z) :=
  rest ← get_from p off; '(n, c) ← read_u32 rest; Some (n, off + c).

(** One entry of the type section. *)
Definition read_type (p : bytes) (s : list (Z * Z) * Z) : option (list (Z * Z) * Z) :=
  let '(out, off) := s in
  form ← get p off;
  if negb (form =? 0x60) then None else
  '(params, off) ← leb_at p (off + 1);
  off ← for_count (S (length p)) params (skip_param p) off;
  '(results, off) ← leb_at p off;
  off ← for_count (S (length p)) results (skip_param p) off;
  Some (out ++ [(params, results)], off).

Definition read_type_arities (m : WasmModule) (data : bytes) : outcome (option (list (Z * Z))) :=
  match section m SECTION_TYPE with
  | None => Ret (Some [])
  | Some sec =>
      p ← span_slice (sec_payload sec) data;
      Ret ('(count, off) ← read_u32 p;
           fst <$> for_count (S (length p)) count (read_type p) ([], off))
  end.

(** Flags, minimum and optional maximum of an imported table or memory. *)
Definition skip_limits (p : bytes) (off : Z) : option Z :=
  flags ← get p off;
  '(_, off) ← leb_at p (off + 1);
  if negb (Z.land flags 1 =? 0) then '(_, off) ← leb_at p off; Some off else Some off.

(** One import: function imports contribute their type index. *)
Definition read_import (p : bytes) (s : list Z * Z) : option (list Z * Z) :=
  let '(out, off) := s in
  '(mlen, off) ← leb_at p off;
  '(flen, off) ← leb_at p (off + mlen);
  let off := off + flen in
  kind ← get p off;
  let off := off + 1 in
  if kind =? 0x00 then '(tidx, off) ← leb_at p off; Some (out ++ [tidx], off)
  else if kind =? 0x01 then off ← skip_limits p (off + 1); Some (out, off)
  else if kind =? 0x02 then off ← skip_limits p off; Some (out, off)
  else if kind =? 0x03 then Some (out, off + 2)
  else None.

Definition read_func_type (p : bytes) (s : list Z * Z) : option (list Z * Z) :=
  let '(out, off) := s in
  '(tidx, off) ← leb_at p off; Some (out ++ [tidx], off).

(** A counted vector of a section, appended to [acc]; a missing section adds nothing. *)
Definition read_section (m : WasmModule) (data : bytes) (id : Z)
  (entry : bytes -> list Z * Z -> option (list Z * Z)) (acc : list Z) : outcome (option (list Z)) :=
  match section m id with
  | None => Ret (Some acc)
  | Some sec =>
      p ← span_slice (sec_payload sec) data;
      Ret ('(count, off) ← read_u32 p;
           fst <$> for_count (S (length p)) count (entry p) (acc, off))
  end.

Definition from_module (m : WasmModule) : outcome (option ModuleSigs) :=
  types ←? read_type_arities m (wm_data m);
  funcs ←? read_section m (wm_data m) SECTION_IMPORT read_import [];
  funcs ←? read_section m (wm_data m) SECTION_FUNCTION read_func_type funcs;
  Ret (Some (mkSigs types funcs)).

Definition module_type_sig (sigs : ModuleSigs) (type_idx : Z) : option (Z * Z) := get (ms_types sigs) type_idx.
Definition module_func_sig (sigs : ModuleSigs) (func_idx : Z) : option (Z * Z) :=
  tidx ← get (func_types sigs) func_idx; module_type_sig sigs tidx.
Definition module_resolver (sigs : ModuleSigs) : SigResolver :=
  {| func_sig := module_func_sig sigs; type_sig := module_type_sig sigs |}.

Example walk_block :
  let body := [0x02; 0x7F; 0x41; 1; 0x0C; 0; 0x41; 2; 0x0B; 0x1A; 0x0B] in
  match bw_collect 12 (bw_new body 0) with
  | Ret (l, w) => (List.map (fun s => (st_pos s, stack_depth_before s, reachable_before s)) l, stack_depth w, failed w)
  | Panic => ([], 0, true)
  end = ([(0, 0, true); (2, 0, true); (4, 1, true); (6, 1, false); (8, 1, false); (9, 1, true); (10, 0, true)], 0, false).
Proof. reflexivity. Qed.

(** ** Reference: the heights of structured code

    [live p h q h' t]: from [p], reached with operand-stack height [h], well-nested
    code runs to [q], reached with height [h'].  [dead p q t] is well-nested code
    after an unconditional branch.  A block body either falls through to its
    closing position with the height [out] its type promises, or ends in dead
    code.  [t] lists every instruction with its height, [None] where dead. *)

Definition trace : Type := list (Z * option Z).

Section structured.
Context (resolver : option SigResolver) (body : bytes).

Definition instr (p n op : Z) : Prop := get body p = Some op /\ instr_len body p = Some n.
Definition terminator (op : Z) : bool := one_of [0x00; 0x0C; 0x0E; 0x0F] op.

Inductive dead : Z -> Z -> trace -> Prop :=
| dead_nil p : dead p p []
| dead_plain p n op e q t :
    instr p n op -> straight_effect resolver body p op = Some e -> dead (p + n) q t ->
    dead p q ((p, None) :: t)
| dead_jump p n op q t :
    instr p n op -> terminator op = true -> dead (p + n) q t -> dead p q ((p, None) :: t)
| dead_block p n op a b e q t1 t2 :
    instr p n op -> in_range 0x02 0x04 op = true ->
    read_blocktype_arity body (p + 1) resolver = Some (a, b) ->
    dead (p + n) e t1 -> get body e = Some 0x0B -> dead (e + 1) q t2 ->
    dead p q ((p, None) :: t1 ++ (e, None) :: t2)
| dead_if_else p n a b m e q t1 t2 t3 :
    instr p n 0x04 -> read_blocktype_arity body (p + 1) resolver = Some (a, b) ->
    dead (p + n) m t1 -> get body m = Some 0x05 ->
    dead (m + 1) e t2 -> get body e = Some 0x0B -> dead (e + 1) q t3 ->
    dead p q ((p, None) :: t1 ++ (m, None) :: t2 ++ (e, None) :: t3).

Inductive live : Z -> Z -> Z -> Z -> trace -> Prop :=
| live_nil p h : live p h p h []
| live_plain p h n op pops pushes q h' t :
    instr p n op -> straight_effect resolver body p op = Some (pops, pushes) ->
    live (p + n) (h - pops + pushes) q h' t -> live p h q h' ((p, Some h) :: t)
| live_block p h n op a b e fin q h' t1 t2 :
    instr p n op -> in_range 0x02 0x03 op = true ->
    read_blocktype_arity body (p + 1) resolver = Some (a, b) ->
    block_body (p + n) h e (h - a + b) fin t1 -> get body e = Some 0x0B ->
    live (e + 1) (h - a + b) q h' t2 ->
    live p h q h' ((p, Some h) :: t1 ++ (e, fin) :: t2)
| live_if p h n a b e fin q h' t1 t2 :
    instr p n 0x04 -> read_blocktype_arity body (p + 1) resolver = Some (a, b) ->
    block_body (p + n) (h - 1) e (h - 1 - a + b) fin t1 -> get body e = Some 0x0B ->
    live (e + 1) (h - 1 - a + b) q h' t2 ->
    live p h q h' ((p, Some h) :: t1 ++ (e, fin) :: t2)
| live_if_else p h n a b m e fin1 fin2 q h' t1 t2 t3 :
    instr p n 0x04 -> read_blocktype_arity body (p + 1) resolver = Some (a, b) ->
    block_body (p + n) (h - 1) m (h - 1 - a + b) fin1 t1 -> get body m = Some 0x05 ->
    block_body (m + 1) (h - 1) e (h - 1 - a + b) fin2 t2 -> get body e = Some 0x0B ->
    live (e + 1) (h - 1 - a + b) q h' t3 ->
    live p h q h' ((p, Some h) :: t1 ++ (m, fin1) :: t2 ++ (e, fin2) :: t3)
with block_body : Z -> Z -> Z -> Z -> option Z -> trace -> Prop :=
| body_falls_through p h e out t : live p h e out t -> block_body p h e out (Some out) t
| body_jumps p h k h1 n op e out t1 t2 :
    live p h k h1 t1 -> instr k n op -> terminator op = true -> dead (k + n) e t2 ->
    block_body p h e out None (t1 ++ (k, Some h1) :: t2).
End structured.

Scheme live_min := Minimality for live Sort Prop
  with block_body_min := Minimality for block_body Sort Prop.
Combined Scheme live_block_body from live_min, block_body_min.

(** ** Running the walker *)

Inductive runs : BlockWalker -> list Step -> BlockWalker -> Prop :=
| runs_nil w : runs w [] w
| runs_cons w s w1 l w2 : bw_next w = Ret (Some s, w1) -> runs w1 l w2 -> runs w (s :: l) w2.

Lemma runs_app w l1 w1 l2 w2 : runs w l1 w1 -> runs w1 l2 w2 -> runs w (l1 ++ l2) w2.
Proof. induction 1; [done|]. intros. econstructor; eauto. Qed.

Lemma iter_next_progress it x it' : iter_next it = (Some x, it') ->
  it_body it' = it_body it /\ it_pos it < it_pos it' /\ 0 <= it_pos it < len (it_body it) /\
  it_failed it' = false /\ exists op, get (it_body it) (fst x) = Some op.
Proof.
  unfold iter_next. destruct (it_failed it || _) eqn:E; [done|].
  destruct (instr_len _ _) as [n|] eqn:En; [|done]. intros [= <- <-]. cbn [it_body it_pos it_failed fst].
  pose proof (instr_len_bounds _ _ _ En). apply orb_false_iff in E as [E _].
  split_and!; try done; try lia. unfold instr_len in En. apply bind_Some in En as (op & Ho & _). by exists op.
Qed.

(** What the walker's own steps do to its iterator. *)
Lemma step_op_iter w body pos op w' c : step_op w body pos op = Some (w', c) ->
  bw_iter w' = bw_iter w /\ bw_failed w' = bw_failed w.
Proof.
  assert (Ha : forall w x y, bw_iter (apply_effect w x y) = bw_iter w /\ bw_failed (apply_effect w x y) = bw_failed w)
    by (intros [] x y; unfold apply_effect; cbn; by destruct (negb _)).
  unfold step_op. intros H.
  repeat match type of H with
    | (if ?b then _ else _) = _ => destruct b
    | (_ ≫= _) = _ => apply bind_Some in H as ([] & _ & H)
    | match ?x with _ => _ end = _ => destruct x
    end; injection H as <- <-; auto; destruct (Ha w 1 0); auto; cbn [bw_iter bw_failed set_frames];
    by destruct (op =? 4).
Qed.

Lemma bw_next_positions w :
  exists item w', bw_next w = Ret (item, w') /\
    bw_iter w' = snd (iter_next (bw_iter w)) /\
    (fun s => (st_pos s, st_len s)) <$> item = fst (iter_next (bw_iter w)) /\
    (bw_failed w = true -> bw_failed w' = true).
Proof.
  unfold bw_next. destruct (iter_next (bw_iter w)) as [[[pos n]|] it] eqn:E; cbn [fst snd].
  - destruct (iter_next_progress _ _ _ E) as (Hb & _ & _ & _ & op & Hop). cbn [fst] in Hop.
    unfold index. rewrite Hb, Hop. cbn [mbind outcome_bind].
    destruct (step_op _ _ _ _) as [[w' c]|] eqn:Es.
    + apply step_op_iter in Es as [H1 H2]. cbn [bw_iter bw_failed set_iter] in *.
      eexists _, w'. split_and!; try done. by rewrite H2.
    + eexists _, _. split; [reflexivity|]. done.
  - eexists _, _. split; [reflexivity|]. done.
Qed.

(** ** Single steps from a known state *)

Section steps.
Context (r : option SigResolver) (body : bytes).

Definition at_pos (p : Z) (fs : list BlockFrame) (d : Z) (re : bool) : BlockWalker :=
  mkWalker {| it_body := body; it_pos := p; it_failed := false |} fs r d re false.

Lemma instr_len_at_end e : get body e = Some 0x0B -> instr_len body e = Some 1.
Proof.
  intros H. unfold instr_len. rewrite H. apply get_Some in H.
  cbn [mbind option_bind]. by rewrite get_from_eq by lia.
Qed.

Lemma instr_len_at_else e : get body e = Some 0x05 -> instr_len body e = Some 1.
Proof.
  intros H. unfold instr_len. rewrite H. apply get_Some in H.
  cbn [mbind option_bind]. by rewrite get_from_eq by lia.
Qed.

Lemma next_at p n op fs d re w c : instr body p n op ->
  step_op (at_pos (p + n) fs d re) body p op = Some (w, c) ->
  bw_next (at_pos p fs d re) = Ret (Some (mkStep p n op d re c), w).
Proof.
  intros [Hop Hn] Hs. pose proof (instr_len_bounds _ _ _ Hn) as [Hp _].
  unfold bw_next, at_pos, iter_next. cbn [bw_iter it_failed it_body it_pos orb].
  replace (len body <=? p) with false by lia. rewrite Hn. cbn [it_body]. unfold index. rewrite Hop.
  cbn [mbind outcome_bind]. unfold set_iter. cbn [bw_frames bw_resolver stack_depth reachable bw_failed].
  unfold at_pos in Hs. by rewrite Hs.
Qed.

Ltac range_cases H := repeat
  match type of H with in_range ?lo ?hi ?op = true =>
    unfold in_range in H;
    let E := fresh in assert (E : op = lo \/ in_range (lo + 1) hi op = true)
      by (unfold in_range; lia); cbn [Z.add Pos.add Pos.succ] in E; clear H; destruct E as [->|H];
    [|try (exfalso; unfold in_range in H; lia)] end.

Lemma straight_step w p op x y : bw_resolver w = r -> straight_effect r body p op = Some (x, y) ->
  step_op w body p op = Some (apply_effect w x y, None).
Proof.
  intros Hr Hs. unfold step_op.
  destruct (in_range 2 4 op) eqn:E1; [range_cases E1; discriminate Hs|].
  destruct (Z.eqb_spec op 0x05) as [->|]; [discriminate Hs|].
  destruct (Z.eqb_spec op 0x0B) as [->|]; [discriminate Hs|].
  destruct (Z.eqb_spec op 0x00) as [->|]; [discriminate Hs|].
  destruct (Z.eqb_spec op 0x0C) as [->|]; [discriminate Hs|].
  destruct (Z.eqb_spec op 0x0E) as [->|]; [discriminate Hs|].
  destruct (Z.eqb_spec op 0x0F) as [->|]; [discriminate Hs|].
  by rewrite Hr, Hs.
Qed.

Lemma terminator_step p op pos fs d re : terminator op = true ->
  exists d', step_op (at_pos pos fs d re) body p op = Some (at_pos pos fs d' false, None).
Proof.
  unfold terminator, one_of. cbn [existsb]. intros H.
  assert (E : op = 0x00 \/ op = 0x0C \/ op = 0x0E \/ op = 0x0F) by lia.
  destruct E as [->|[->|[->| ->]]]; try (eexists; reflexivity).
  destruct re; eexists; reflexivity.
Qed.
End steps.

(** What a step reports: its position and, where reachable, the depth. *)
Definition view (s : Step) : Z * option Z :=
  (st_pos s, if reachable_before s then Some (stack_depth_before s) else None).
Definition wrapped (x : Z * option Z) : Z * option Z := (fst x, i32 <$> snd x).

Lemma i32_effect h pops pushes :
  i32 (i32 (i32 h - i32 pops) + i32 pushes) = i32 (h - pops + pushes).
Proof.
  rewrite sext_sub, sext_add by lia.
  replace (i32 h - pops + i32 pushes) with (i32 h + (i32 pushes - pops)) by lia. rewrite sext_add by lia.
  replace (h + (i32 pushes - pops)) with (i32 pushes + (h - pops)) by lia. rewrite sext_add by lia.
  f_equal. lia.
Qed.

Section run.
Context (r : option SigResolver) (body : bytes).
#[local] Abbreviation at_pos := (at_pos r body).

Lemma runs_step p n op fs d re w c l w' : instr body p n op ->
  step_op (at_pos (p + n) fs d re) body p op = Some (w, c) -> runs w l w' ->
  runs (at_pos p fs d re) (mkStep p n op d re c :: l) w'.
Proof. intros Hi Hs Hr. econstructor; [by eapply next_at|done]. Qed.

(** One run between two positions whose steps report [t]. *)
Definition goes (w : BlockWalker) (t : trace) (w' : BlockWalker) : Prop :=
  exists l, runs w l w' /\ List.map view l = List.map wrapped t.

Lemma goes_nil w : goes w [] w.
Proof. exists []. split; [constructor|done]. Qed.

Lemma goes_app w t1 w1 t2 w2 : goes w t1 w1 -> goes w1 t2 w2 -> goes w (t1 ++ t2) w2.
Proof.
  intros (l1 & H1 & E1) (l2 & H2 & E2). exists (l1 ++ l2). split; [by eapply runs_app|].
  by rewrite !map_app, E1, E2.
Qed.

Lemma goes_dead p n op fs d w c t w' : instr body p n op ->
  step_op (at_pos (p + n) fs d false) body p op = Some (w, c) -> goes w t w' ->
  goes (at_pos p fs d false) ((p, None) :: t) w'.
Proof.
  intros Hi Hs (l & Hl & E). eexists (_ :: l). split; [by eapply runs_step|]. cbn [List.map]. by rewrite E.
Qed.

Lemma goes_live p n op fs h w c t w' : instr body p n op ->
  step_op (at_pos (p + n) fs (i32 h) true) body p op = Some (w, c) -> goes w t w' ->
  goes (at_pos p fs (i32 h) true) ((p, Some h) :: t) w'.
Proof.
  intros Hi Hs (l & Hl & E). eexists (_ :: l). split; [by eapply runs_step|]. cbn [List.map]. by rewrite E.
Qed.

(** The last [end] or [else] of a body that ended live at [x] or dead. *)
Lemma goes_closing p op fs d fin w c t w' : get body p = Some op -> instr_len body p = Some 1 ->
  (forall x, fin = Some x -> d = i32 x) ->
  step_op (at_pos (p + 1) fs d (bool_decide (is_Some fin))) body p op = Some (w, c) -> goes w t w' ->
  goes (at_pos p fs d (bool_decide (is_Some fin))) ((p, fin) :: t) w'.
Proof.
  intros Ho Hn Hd Hs Hg. destruct fin as [x|]; cbn [is_Some] in *.
  - rewrite (Hd x eq_refl) in *. by eapply goes_live.
  - by eapply goes_dead.
Qed.

Lemma apply_live pos fs h x y :
  apply_effect (at_pos pos fs (i32 h) true) x y = at_pos pos fs (i32 (h - x + y)) true.
Proof. unfold apply_effect. cbn [reachable negb at_pos]. unfold set_state, at_pos. cbn. by rewrite i32_effect. Qed.

(** Opening a block: the frame it pushes. *)
Definition opened (op a b d : Z) (re : bool) : BlockFrame :=
  mkFrame (if op =? 0x02 then Block else if op =? 0x03 then Loop else If)
    (match (if op =? 0x02 then Block else if op =? 0x03 then Loop else If) with Loop => a | _ => b end)
    b a (i32 (d - i32 a)) re.

Lemma open_dead p pos op a b fs d : in_range 0x02 0x04 op = true ->
  read_blocktype_arity body (p + 1) r = Some (a, b) ->
  step_op (at_pos pos fs d false) body p op = Some (at_pos pos (opened op a b d false :: fs) d false, None).
Proof.
  intros Hop Hb. unfold step_op. rewrite Hop. cbn [bw_resolver at_pos]. unfold at_pos. cbn [bw_resolver].
  rewrite Hb. cbn [mbind option_bind]. by destruct (op =? 4).
Qed.

Lemma open_live p pos op a b fs h : in_range 0x02 0x04 op = true ->
  read_blocktype_arity body (p + 1) r = Some (a, b) ->
  let h0 := if op =? 0x04 then h - 1 else h in
  step_op (at_pos pos fs (i32 h) true) body p op
    = Some (at_pos pos (opened op a b (i32 h0) true :: fs) (i32 h0) true, None).
Proof.
  intros Hop Hb h0. unfold step_op. rewrite Hop. cbn [bw_resolver at_pos]. unfold at_pos. cbn [bw_resolver].
  rewrite Hb. cbn [mbind option_bind]. subst h0. destruct (op =? 4); [|done].
  change (mkWalker _ fs r (i32 h) true false) with (at_pos pos fs (i32 h) true).
  rewrite apply_live. by rewrite Z.add_0_r.
Qed.

Lemma end_step p pos f fs d re :
  step_op (at_pos pos (f :: fs) d re) body p 0x0B
    = Some (at_pos pos fs (i32 (entry_depth f + i32 (fallthrough_arity f))) (reachable_at_entry f), Some f).
Proof. done. Qed.

(** The frame after [else]. *)
Definition switched (a b d : Z) (re : bool) : BlockFrame := mkFrame Else b b a (i32 (d - i32 a)) re.

Lemma else_step p pos a b d0 re0 fs d re :
  step_op (at_pos pos (opened 0x04 a b d0 re0 :: fs) d re) body p 0x05
    = Some (at_pos pos (switched a b d0 re0 :: fs) (i32 (i32 (d0 - i32 a) + i32 a)) re0, None).
Proof. done. Qed.

Lemma restored h a : i32 (i32 (i32 h - i32 a) + i32 a) = i32 h.
Proof. rewrite i32_effect. f_equal. lia. Qed.

Lemma dead_goes p q t : dead r body p q t -> forall fs d, exists d',
  goes (at_pos p fs d false) t (at_pos q fs d' false).
Proof.
  induction 1 as [p|p n op [x y] q t Hi Hs _ IH|p n op q t Hi Ht _ IH
    |p n op a b e q t1 t2 Hi Hop Hb _ IH1 He _ IH2
    |p n a b m e q t1 t2 t3 Hi Hb _ IH1 Hm _ IH2 He _ IH3]; intros fs d.
  - exists d. apply goes_nil.
  - destruct (IH fs d) as [d' Hg]. exists d'. eapply goes_dead; [exact Hi|by eapply straight_step|done].
  - destruct (terminator_step r body p op (p + n) fs d false Ht) as [d1 Hs].
    destruct (IH fs d1) as [d' Hg]. exists d'. by eapply goes_dead.
  - destruct (IH1 (opened op a b d false :: fs) d) as [d1 Hg1].
    destruct (IH2 fs (i32 (i32 (d - i32 a) + i32 b))) as [d2 Hg2]. exists d2.
    eapply goes_dead; [exact Hi|by apply open_dead|]. eapply goes_app; [exact Hg1|].
    eapply goes_dead; [split; [exact He|by apply instr_len_at_end]|apply end_step|done].
  - destruct (IH1 (opened 0x04 a b d false :: fs) d) as [d1 Hg1].
    destruct (IH2 (switched a b d false :: fs) (i32 (i32 (d - i32 a) + i32 a))) as [d2 Hg2].
    destruct (IH3 fs (i32 (i32 (d - i32 a) + i32 b))) as [d3 Hg3]. exists d3.
    eapply goes_dead; [exact Hi|by apply open_dead|]. eapply goes_app; [exact Hg1|].
    eapply goes_dead; [split; [exact Hm|by apply instr_len_at_else]|apply else_step|].
    eapply goes_app; [exact Hg2|].
    eapply goes_dead; [split; [exact He|by apply instr_len_at_end]|apply end_step|done].
Qed.

Lemma live_goes :
  (forall p h q h' t, live r body p h q h' t -> forall fs,
     goes (at_pos p fs (i32 h) true) t (at_pos q fs (i32 h') true)) /\
  (forall p h e out fin t, block_body r body p h e out fin t -> forall fs, exists d,
     goes (at_pos p fs (i32 h) true) t (at_pos e fs d (bool_decide (is_Some fin))) /\
     (forall x, fin = Some x -> d = i32 x)).
Proof.
  apply live_block_body.
  - intros p h fs. apply goes_nil.
  - intros p h n op x y q h' t Hi Hs _ IH fs.
    eapply goes_live; [exact Hi|by eapply straight_step|]. rewrite apply_live. apply IH.
  - intros p h n op a b e fin q h' t1 t2 Hi Hop Hb _ IH1 He _ IH2 fs.
    assert (Hop' : in_range 0x02 0x04 op = true) by (unfold in_range in *; lia).
    pose proof (open_live p (p + n) op a b fs h Hop' Hb) as Ho. cbv zeta in Ho.
    replace (op =? 4) with false in Ho by (unfold in_range in *; lia).
    destruct (IH1 (opened op a b (i32 h) true :: fs)) as (d & Hg & Hd).
    eapply goes_live; [exact Hi|exact Ho|]. eapply goes_app; [exact Hg|].
    eapply goes_closing; [exact He|by apply instr_len_at_end|exact Hd|apply end_step|].
    cbn [opened entry_depth fallthrough_arity reachable_at_entry]. rewrite i32_effect. apply IH2.
  - intros p h n a b e fin q h' t1 t2 Hi Hb _ IH1 He _ IH2 fs.
    pose proof (open_live p (p + n) 0x04 a b fs h eq_refl Hb) as Ho. cbv zeta in Ho. cbn [Z.eqb Pos.eqb] in Ho.
    destruct (IH1 (opened 0x04 a b (i32 (h - 1)) true :: fs)) as (d & Hg & Hd).
    eapply goes_live; [exact Hi|exact Ho|]. eapply goes_app; [exact Hg|].
    eapply goes_closing; [exact He|by apply instr_len_at_end|exact Hd|apply end_step|].
    cbn [opened entry_depth fallthrough_arity reachable_at_entry]. rewrite i32_effect. apply IH2.
  - intros p h n a b m e fin1 fin2 q h' t1 t2 t3 Hi Hb _ IH1 Hm _ IH2 He _ IH3 fs.
    pose proof (open_live p (p + n) 0x04 a b fs h eq_refl Hb) as Ho. cbv zeta in Ho. cbn [Z.eqb Pos.eqb] in Ho.
    destruct (IH1 (opened 0x04 a b (i32 (h - 1)) true :: fs)) as (d1 & Hg1 & Hd1).
    destruct (IH2 (switched a b (i32 (h - 1)) true :: fs)) as (d2 & Hg2 & Hd2).
    eapply goes_live; [exact Hi|exact Ho|]. eapply goes_app; [exact Hg1|].
    eapply goes_closing; [exact Hm|by apply instr_len_at_else|exact Hd1|apply else_step|].
    rewrite restored. eapply goes_app; [exact Hg2|].
    eapply goes_closing; [exact He|by apply instr_len_at_end|exact Hd2|apply end_step|].
    cbn [switched entry_depth fallthrough_arity reachable_at_entry]. rewrite i32_effect. apply IH3.
  - intros p h e out t _ IH fs. exists (i32 out). split; [apply IH|]. by intros x [= ->].
  - intros p h k h1 n op e out t1 t2 _ IH Hi Ht Hdead fs.
    destruct (terminator_step r body k op (k + n) fs (i32 h1) true Ht) as [d1 Hs].
    destruct (dead_goes _ _ _ Hdead fs d1) as [d2 Hg]. exists d2. split; [|done].
    eapply goes_app; [apply IH|]. by eapply goes_live.
Qed.
End run.

(** ** Draining *)

Lemma runs_count w l w' : runs w l w' -> it_pos (bw_iter w) + Z.of_nat (length l) <= it_pos (bw_iter w').
Proof.
  induction 1 as [|w s w1 l w2 Hn _ IH]; [simpl; lia|].
  destruct (bw_next_positions w) as (item & w1' & E & Hi & Hf & _). rewrite Hn in E. injection E as <- <-.
  destruct (iter_next (bw_iter w)) as [x it] eqn:Ex. cbn [fst snd] in *. subst x it.
  apply iter_next_progress in Ex. cbn [length]. lia.
Qed.

Lemma runs_collect w l w' fuel w'' : runs w l w' -> (length l < fuel)%nat ->
  bw_next w' = Ret (None, w'') -> bw_collect fuel w = Ret (l, w'').
Proof.
  intros Hr. revert fuel. induction Hr as [w|w s w1 l w2 Hn _ IH]; intros [|fuel] Hf He; simpl in Hf; try lia.
  - cbn [bw_collect]. by rewrite He.
  - cbn [bw_collect]. rewrite Hn. cbn [mbind outcome_bind]. rewrite IH by (done || lia). done.
Qed.

Lemma block_body_out r body p h e out fin t : block_body r body p h e out fin t ->
  forall x, fin = Some x -> x = out.
Proof. destruct 1; by intros x [= ->]. Qed.

(** ** Properties of the walker *)

(** The walker computes exactly the operand-stack heights of structured code.
    For every function body whose instructions are well nested and whose blocks
    have the heights their types promise, walking to the closing [end] fails
    nowhere, leaves no frame open, and reports at every reachable instruction
    the height the structured reading gives it (as [i32]) and at every
    instruction after an unconditional branch that it is unreachable. *)
Theorem walker_tracks_heights resolver body start out fin t :
  block_body resolver body start 0 (len body - 1) out fin t ->
  get body (len body - 1) = Some 0x0B -> 0 <= start ->
  exists l w, bw_collect (S (length body)) (with_resolver body start resolver) = Ret (l, w) /\
    failed w = false /\ bw_frames w = [] /\
    List.map view l = List.map wrapped (t ++ [(len body - 1, fin)]) /\
    reachable w = bool_decide (is_Some fin) /\ (reachable w = true -> stack_depth w = i32 out).
Proof.
  intros Hb He Hs. destruct (proj2 (live_goes resolver body) _ _ _ _ _ _ Hb []) as (d & Hg & Hd).
  assert (Hlast : goes (at_pos resolver body (len body - 1) [] d (bool_decide (is_Some fin)))
    [(len body - 1, fin)] (at_pos resolver body (len body) [] d (bool_decide (is_Some fin)))).
  { eapply goes_closing; [exact He|by apply instr_len_at_end|exact Hd|reflexivity|].
    replace (len body - 1 + 1) with (len body) by lia. apply goes_nil. }
  destruct (goes_app _ _ _ _ _ Hg Hlast) as (l & Hr & Hv).
  pose proof (runs_count _ _ _ Hr) as Hc. cbn [bw_iter at_pos it_pos] in Hc.
  eexists l, _. split.
  { apply (runs_collect _ _ _ _ (at_pos resolver body (len body) [] d (bool_decide (is_Some fin))) Hr);
      [unfold len in Hc; lia|]. unfold bw_next, iter_next, at_pos. cbn. by rewrite Z.leb_refl. }
  unfold failed. cbn [bw_failed bw_iter it_failed bw_frames reachable stack_depth at_pos orb].
  split_and!; try done. intros Hre. apply bool_decide_eq_true in Hre as [x Hx].
  rewrite (Hd x Hx). by rewrite (block_body_out _ _ _ _ _ _ _ _ Hb x Hx).
Qed.

Lemma walker_tracks_heights_witness :
  let body := [0x02; 0x7F; 0x41; 1; 0x0C; 0; 0x41; 2; 0x0B; 0x0B] in
  exists l w, bw_collect 11 (with_resolver body 0 None) = Ret (l, w) /\ failed w = false /\
    stack_depth w = 1 /\
    List.map view l = [(0, Some 0); (2, Some 0); (4, Some 1); (6, None); (8, None); (9, Some 1)].
Proof.
  intros body.
  destruct (walker_tracks_heights None body 0 1 (Some 1)
    ((0, Some 0) :: ([(2, Some 0)] ++ (4, Some 1) :: [(6, None)]) ++ (8, None) :: []))
    as (l & w & H1 & H2 & _ & H4 & H5 & H6).
  - apply body_falls_through. eapply (live_block None body 0 0 2 0x02 0 1 8 None 9); try reflexivity.
    + split; reflexivity.
    + eapply (body_jumps None body 2 0 4 1 2 0x0C 8 1 _ _).
      * eapply (live_plain None body 2 0 2 0x41 0 1); [split; reflexivity|reflexivity|apply live_nil].
      * split; reflexivity.
      * reflexivity.
      * eapply (dead_plain None body 6 2 0x41); [split; reflexivity|reflexivity|apply dead_nil].
    + apply live_nil.
  - reflexivity.
  - lia.
  - exists l, w. split_and!; [exact H1|exact H2|by apply H6; rewrite H5|exact H4].
Defined.

(** The walker never panics and never loses its place: on any bytes, from any
    state and for any number of steps, it yields exactly the instructions
    [InstrIter] yields, ends with the same iterator, and once failed stays
    failed. *)
Theorem walker_positions fuel w :
  exists l w', bw_collect fuel w = Ret (l, w') /\
    List.map (fun s => (st_pos s, st_len s)) l = fst (iter_collect fuel (bw_iter w)) /\
    bw_iter w' = snd (iter_collect fuel (bw_iter w)) /\
    (failed w = true -> failed w' = true).
Proof.
  revert w. induction fuel as [|fuel IH]; intros w; [by exists [], w|]. cbn [bw_collect iter_collect].
  destruct (bw_next_positions w) as (item & w1 & -> & Hi & Hf & Hs). cbn [mbind outcome_bind].
  assert (Hfail : failed w = true -> failed w1 = true).
  { unfold failed. rewrite !orb_true_iff, Hi. intros [H|H]; [by left; apply Hs|right].
    unfold iter_next. by rewrite H. }
  destruct (iter_next (bw_iter w)) as [x it] eqn:Ex. cbn [fst snd] in *. subst x it.
  destruct item as [s|]; cbn [fmap option_fmap option_map]; [|by exists [], w1].
  destruct (IH w1) as (l & w2 & -> & Hl & Hit & Hf2). cbn [mbind outcome_bind].
  destruct (iter_collect fuel (bw_iter w1)) as [l' it'] eqn:Ec. cbn [fst snd] in *.
  exists (s :: l), w2. split_and!; [done|by rewrite <- Hl|done|auto].
Qed.

(** ** Reference: the encoding of the sections the resolver reads *)

Definition is_valtype (vt : Z) : Prop := (in_range 0x7B 0x7F vt || one_of [0x6F; 0x70] vt) = true.

(** A function type: its parameter and result types. *)
Definition enc_type (t : bytes * bytes) : bytes :=
  0x60 :: write_u32 (len (fst t)) ++ fst t ++ write_u32 (len (snd t)) ++ snd t.
Definition type_ok (t : bytes * bytes) : Prop :=
  is_uint 32 (len (fst t)) /\ is_uint 32 (len (snd t)) /\ Forall is_valtype (fst t) /\ Forall is_valtype (snd t).
Definition type_arity (t : bytes * bytes) : Z * Z := (len (fst t), len (snd t)).

Inductive ImportDesc :=
| IFunc (tidx : Z)
| ITable (elem : Z) (lim : Z * option Z)
| IMemory (lim : Z * option Z)
| IGlobal (valtype mutability : Z).

Definition enc_limits (l : Z * option Z) : bytes :=
  match snd l with
  | None => 0 :: write_u32 (fst l)
  | Some hi => 1 :: write_u32 (fst l) ++ write_u32 hi
  end.
Definition limits_ok (l : Z * option Z) : Prop :=
  is_uint 32 (fst l) /\ match snd l with None => True | Some hi => is_uint 32 hi end.

Definition enc_desc (d : ImportDesc) : bytes :=
  match d with
  | IFunc tidx => 0x00 :: write_u32 tidx
  | ITable elem l => 0x01 :: elem :: enc_limits l
  | IMemory l => 0x02 :: enc_limits l
  | IGlobal vt mt => [0x03; vt; mt]
  end.
Definition desc_ok (d : ImportDesc) : Prop :=
  match d with IFunc tidx => is_uint 32 tidx | ITable _ l | IMemory l => limits_ok l | IGlobal _ _ => True end.

(** An import: module name, field name, description. *)
Definition enc_import (i : bytes * bytes * ImportDesc) : bytes :=
  let '(m, f, d) := i in write_u32 (len m) ++ m ++ write_u32 (len f) ++ f ++ enc_desc d.
Definition import_ok (i : bytes * bytes * ImportDesc) : Prop :=
  let '(m, f, d) := i in is_uint 32 (len m) /\ is_uint 32 (len f) /\ desc_ok d.
Definition import_types (i : bytes * bytes * ImportDesc) : list Z :=
  match snd i with IFunc tidx => [tidx] | _ => [] end.

Definition enc_vec {A} (enc : A -> bytes) (xs : list A) : bytes :=
  write_u32 (len xs) ++ List.concat (List.map enc xs).

(** The payload of a module's section. *)
Definition has_section (m : WasmModule) (id : Z) (payload : bytes) : Prop :=
  exists sec, section m id = Some sec /\ span_slice (sec_payload sec) (wm_data m) = Ret payload.

(** ** Decoding them back *)

Lemma leb_at_write pre n rest : is_uint 32 n ->
  leb_at (pre ++ write_u32 n ++ rest) (len pre) = Some (n, len pre + len (write_u32 n)).
Proof.
  intros Hn. unfold leb_at. rewrite get_from_len. cbn [mbind option_bind]. by rewrite read_u32_write.
Qed.

(** A counted loop over encoded items, each of which takes at least a byte. *)
Lemma for_count_items {A B} (enc : A -> bytes) (f : B -> A -> B) (step : bytes -> B * Z -> option (B * Z))
  (good : A -> Prop) p xs :
  (forall x pre post acc, good x -> p = pre ++ enc x ++ post ->
     step p (acc, len pre) = Some (f acc x, len pre + len (enc x))) ->
  Forall good xs ->
  forall pre post acc fuel, p = pre ++ List.concat (List.map enc xs) ++ post -> (length xs <= fuel)%nat ->
  for_count fuel (len xs) (step p) (acc, len pre)
    = Some (foldl f acc xs, len pre + len (List.concat (List.map enc xs))).
Proof.
  intros Hstep Hg. induction Hg as [|x xs Hx _ IH]; intros pre post acc fuel Hp Hf.
  - destruct fuel; simpl; by rewrite Z.add_0_r.
  - destruct fuel as [|fuel]; [simpl in Hf; lia|]. cbn [for_count].
    rewrite len_cons. replace (1 + len xs <=? 0) with false by (pose proof (len_nonneg xs); lia).
    cbn [List.map List.concat] in Hp |- *. rewrite <- app_assoc in Hp.
    rewrite (Hstep x pre _ acc Hx Hp). cbn [mbind option_bind foldl].
    replace (1 + len xs - 1) with (len xs) by lia.
    rewrite <- (len_app pre (enc x)). rewrite (IH (pre ++ enc x) post); [|by rewrite <- app_assoc|simpl in Hf; lia].
    by rewrite !len_app, Z.add_assoc.
Qed.

Lemma skip_params_ok vs : Forall is_valtype vs -> forall pre post fuel, (length vs <= fuel)%nat ->
  for_count fuel (len vs) (skip_param (pre ++ vs ++ post)) (len pre) = Some (len pre + len vs).
Proof.
  induction 1 as [|v vs Hv _ IH]; intros pre post fuel Hf.
  - destruct fuel; simpl; by rewrite Z.add_0_r.
  - destruct fuel as [|fuel]; [simpl in Hf; lia|]. cbn [for_count]. rewrite len_cons.
    replace (1 + len vs <=? 0) with false by (pose proof (len_nonneg vs); lia).
    cbn [app]. assert (E : skip_param (pre ++ v :: vs ++ post) (len pre) = Some (len pre + 1)).
    { unfold skip_param. rewrite get_app_cons by done. cbn [mbind option_bind]. by rewrite Hv. }
    rewrite E. cbn [mbind option_bind]. replace (1 + len vs - 1) with (len vs) by lia.
    replace (len pre + 1) with (len (pre ++ [v])) by (rewrite len_app; reflexivity).
    replace (pre ++ v :: vs ++ post) with ((pre ++ [v]) ++ vs ++ post) by (by rewrite <- app_assoc).
    rewrite IH by (simpl in Hf; lia). f_equal. rewrite len_app, len_cons, len_nil. lia.
Qed.

Lemma length_of_app (pre mid post : bytes) n : Z.of_nat n <= len mid -> (n <= S (length (pre ++ mid ++ post)))%nat.
Proof. rewrite !length_app. unfold len. lia. Qed.

Lemma read_type_ok t pre post out p : type_ok t -> p = pre ++ enc_type t ++ post ->
  read_type p (out, len pre) = Some (out ++ [type_arity t], len pre + len (enc_type t)).
Proof.
  destruct t as [ps rs]. intros (Hp & Hr & Hps & Hrs) ->. unfold enc_type, type_arity. cbn [fst snd] in *.
  cbn [app]. unfold read_type. rewrite get_app_cons by done. cbn [mbind option_bind].
  change (negb (0x60 =? 0x60)) with false. cbv iota.
  set (p := pre ++ 0x60 :: _).
  assert (E1 : p = (pre ++ [0x60]) ++ write_u32 (len ps) ++ ps ++ write_u32 (len rs) ++ rs ++ post)
    by (unfold p; by rewrite <- !app_assoc).
  assert (E2 : p = ((pre ++ [0x60]) ++ write_u32 (len ps)) ++ ps ++ write_u32 (len rs) ++ rs ++ post)
    by (by rewrite E1, <- !app_assoc).
  assert (E3 : p = (((pre ++ [0x60]) ++ write_u32 (len ps)) ++ ps) ++ write_u32 (len rs) ++ rs ++ post)
    by (by rewrite E2, <- !app_assoc).
  assert (E4 : p = ((((pre ++ [0x60]) ++ write_u32 (len ps)) ++ ps) ++ write_u32 (len rs)) ++ rs ++ post)
    by (by rewrite E3, <- !app_assoc).
  replace (len pre + 1) with (len (pre ++ [0x60])) by (rewrite len_app; reflexivity).
  rewrite E1 at 1. rewrite leb_at_write by done. cbn [mbind option_bind]. rewrite <- len_app.
  rewrite E2 at 2. rewrite skip_params_ok by (done || (rewrite E2; apply length_of_app; unfold len; lia)).
  cbn [mbind option_bind]. rewrite <- len_app.
  rewrite E3 at 1. rewrite leb_at_write by done. cbn [mbind option_bind]. rewrite <- len_app.
  rewrite E4 at 2. rewrite skip_params_ok by (done || (rewrite E4; apply length_of_app; unfold len; lia)).
  cbn [mbind option_bind]. do 2 f_equal. rewrite len_cons, !len_app, len_cons, len_nil. lia.
Qed.

Lemma leb_at_write_at p pre n rest off : is_uint 32 n -> p = pre ++ write_u32 n ++ rest -> off = len pre ->
  leb_at p off = Some (n, len (pre ++ write_u32 n)).
Proof. intros Hn -> ->. by rewrite leb_at_write, len_app. Qed.

Lemma skip_limits_ok l p pre post off : limits_ok l -> p = pre ++ enc_limits l ++ post -> off = len pre ->
  skip_limits p off = Some (len pre + len (enc_limits l)).
Proof.
  destruct l as [lo [hi|]]; intros [Hlo Hhi] Hp ->; cbn [fst snd enc_limits app] in *; unfold skip_limits;
    rewrite Hp at 1; rewrite get_app_cons by done; cbn [mbind option_bind].
  - rewrite <- app_assoc in Hp.
    rewrite (leb_at_write_at p (pre ++ [1]) lo (write_u32 hi ++ post)); [|done|by rewrite Hp, <- app_assoc|by rewrite len_app].
    cbn [mbind option_bind]. change (negb (Z.land 1 1 =? 0)) with true. cbv iota.
    rewrite (leb_at_write_at p ((pre ++ [1]) ++ write_u32 lo) hi post); [|done|by rewrite Hp, <- !app_assoc|done].
    cbn [mbind option_bind]. f_equal. rewrite !len_app, !len_cons, len_app, len_nil. lia.
  - rewrite (leb_at_write_at p (pre ++ [0]) lo post); [|done|by rewrite Hp, <- app_assoc|by rewrite len_app].
    cbn [mbind option_bind]. change (negb (Z.land 0 1 =? 0)) with false. cbv iota.
    f_equal. rewrite !len_app, !len_cons, len_nil. lia.
Qed.

Lemma read_import_ok i pre post out p : import_ok i -> p = pre ++ enc_import i ++ post ->
  read_import p (out, len pre) = Some (out ++ import_types i, len pre + len (enc_import i)).
Proof.
  destruct i as [[m f] d]. intros (Hm & Hf & Hd) Hp. cbn [enc_import] in *. unfold import_types. cbn [snd].
  rewrite <- !app_assoc in Hp. unfold read_import.
  rewrite (leb_at_write_at p pre (len m) (m ++ write_u32 (len f) ++ f ++ enc_desc d ++ post)) by done.
  cbn [mbind option_bind]. rewrite <- len_app.
  rewrite (leb_at_write_at p ((pre ++ write_u32 (len m)) ++ m) (len f) (f ++ enc_desc d ++ post));
    [|done|by rewrite Hp, <- !app_assoc|done].
  cbn [mbind option_bind]. rewrite <- len_app.
  set (q := (((pre ++ write_u32 (len m)) ++ m) ++ write_u32 (len f)) ++ f).
  assert (Hq : p = q ++ enc_desc d ++ post) by (by rewrite Hp; unfold q; rewrite <- !app_assoc).
  replace (len pre + _) with (len q + len (enc_desc d)) by (unfold q; rewrite !len_app; lia).
  clearbody q. clear Hp.
  destruct d as [tidx|elem l|l|vt mt]; cbn [enc_desc desc_ok app] in *;
    rewrite Hq at 1; rewrite get_app_cons by done; cbn [mbind option_bind Z.eqb Pos.eqb].
  - rewrite (leb_at_write_at p (q ++ [0]) tidx post); [|done|by rewrite Hq, <- app_assoc|by rewrite len_app].
    cbn [mbind option_bind]. do 2 f_equal. rewrite !len_app, !len_cons, len_nil. lia.
  - rewrite (skip_limits_ok l p (q ++ [1; elem]) post); [|done|by rewrite Hq, <- app_assoc
      |rewrite len_app, !len_cons, len_nil; lia].
    cbn [mbind option_bind]. rewrite app_nil_r. do 2 f_equal. rewrite !len_app, !len_cons, len_nil. lia.
  - rewrite (skip_limits_ok l p (q ++ [2]) post); [|done|by rewrite Hq, <- app_assoc
      |rewrite len_app, !len_cons, len_nil; lia].
    cbn [mbind option_bind]. rewrite app_nil_r. do 2 f_equal. rewrite !len_app, !len_cons, len_nil. lia.
  - rewrite app_nil_r. do 2 f_equal. rewrite !len_cons, len_nil. lia.
Qed.

Lemma read_func_type_ok t pre post out p : is_uint 32 t -> p = pre ++ write_u32 t ++ post ->
  read_func_type p (out, len pre) = Some (out ++ [t], len pre + len (write_u32 t)).
Proof.
  intros Ht Hp. unfold read_func_type. rewrite (leb_at_write_at p pre t post) by done.
  cbn [mbind option_bind]. by rewrite len_app.
Qed.

(** A vector read from the start of a payload, items appended one by one. *)
Lemma read_vec_ok {A B} (enc : A -> bytes) (item : A -> list B) step (good : A -> Prop) xs acc :
  (forall x pre post p out, good x -> p = pre ++ enc x ++ post ->
     step p (out, len pre) = Some (out ++ item x, len pre + len (enc x))) ->
  (forall x, 1 <= len (enc x)) -> Forall good xs -> is_uint 32 (len xs) ->
  let p := enc_vec enc xs in
  ('(count, off) ← read_u32 p; fst <$> for_count (S (length p)) count (step p) (acc, off))
    = Some (acc ++ List.concat (List.map item xs)).
Proof.
  intros Hstep Hlen Hg Hn p.
  assert (Hr : read_u32 p = Some (len xs, len (write_u32 (len xs)))) by (by apply read_u32_write).
  rewrite Hr. cbn [mbind option_bind].
  assert (Hcount : (length xs <= length (List.concat (List.map enc xs)))%nat).
  { clear - Hlen. induction xs as [|x xs IH]; [done|]. cbn [List.map List.concat length]. rewrite length_app.
    pose proof (Hlen x) as H. unfold len in H. lia. }
  rewrite (for_count_items enc (fun out x => out ++ item x) step good p xs) with (post := []); try done.
  - cbn [fmap option_fmap option_map fst]. f_equal. clear. revert acc.
    induction xs as [|x xs IH]; intros acc; cbn [foldl List.map List.concat]; [by rewrite app_nil_r|].
    by rewrite IH, app_assoc.
  - intros x pre post out Hx. by apply Hstep.
  - unfold p, enc_vec. by rewrite app_nil_r.
  - unfold p, enc_vec. rewrite length_app. lia.
Qed.

Lemma write_u32_nonempty n : 1 <= len (write_u32 n).
Proof.
  change (write_u32 n) with (write_u32_loop 5 n). rewrite write_u32_loop_unfold.
  case_match; rewrite len_cons; match goal with |- context [len ?l] => pose proof (len_nonneg l) end; lia.
Qed.

Lemma read_section_vec {A} (enc : A -> bytes) (item : A -> list Z) step (good : A -> Prop) m id xs acc :
  (forall x pre post p out, good x -> p = pre ++ enc x ++ post ->
     step p (out, len pre) = Some (out ++ item x, len pre + len (enc x))) ->
  (forall x, 1 <= len (enc x)) -> has_section m id (enc_vec enc xs) -> Forall good xs ->
  is_uint 32 (len xs) ->
  read_section m (wm_data m) id step acc = Ret (Some (acc ++ List.concat (List.map item xs))).
Proof.
  intros Hstep Hlen (sec & Hsec & Hp) Hg Hn. unfold read_section. rewrite Hsec, Hp.
  cbn [mbind outcome_bind]. f_equal. by apply (read_vec_ok enc item step good).
Qed.

(** ** Properties of the signature tables *)

(** The signature tables decode what the binary format encodes: for a module whose
    type, import and function sections are the encodings of function types (over
    numeric, vector and simple reference types), of function, table, memory and
    global imports, and of type indices, [from_module] succeeds; its type table
    has the parameter and result counts, and its function table the type index
    of every imported function, then of every defined one. *)
Theorem module_sigs_decode m types imports funcs :
  has_section m SECTION_TYPE (enc_vec enc_type types) ->
  has_section m SECTION_IMPORT (enc_vec enc_import imports) ->
  has_section m SECTION_FUNCTION (enc_vec write_u32 funcs) ->
  Forall type_ok types -> Forall import_ok imports -> Forall (is_uint 32) funcs ->
  is_uint 32 (len types) -> is_uint 32 (len imports) -> is_uint 32 (len funcs) ->
  from_module m = Ret (Some (mkSigs (List.map type_arity types)
                               (List.concat (List.map import_types imports) ++ funcs))).
Proof.
  intros Ht Hi Hf Hto Hio Hfo Hnt Hni Hnf. unfold from_module.
  assert (E : read_type_arities m (wm_data m) = Ret (Some (List.map type_arity types))).
  { destruct Ht as (sec & Hsec & Hp). unfold read_type_arities. rewrite Hsec, Hp. cbn [mbind outcome_bind].
    f_equal. rewrite (read_vec_ok enc_type (fun t => [type_arity t]) read_type type_ok types []); try done.
    - cbn [app]. f_equal. clear. induction types as [|t ts IH]; [done|]. cbn. by rewrite IH.
    - intros t pre post p out Hok Hp'. by apply (read_type_ok t pre post).
    - intros [ps rs]. unfold enc_type. rewrite len_cons.
      match goal with |- context [len ?l] => pose proof (len_nonneg l) end. lia. }
  rewrite E.
  rewrite (read_section_vec enc_import import_types read_import import_ok m SECTION_IMPORT imports []); try done.
  - cbn [app].
    rewrite (read_section_vec write_u32 (fun t => [t]) read_func_type (is_uint 32) m SECTION_FUNCTION funcs); try done.
    + do 3 f_equal. f_equal. clear. induction funcs as [|t ts IH]; [done|]. cbn. by rewrite IH.
    + intros t pre post p out Hok Hp. by apply (read_func_type_ok t pre post).
    + apply write_u32_nonempty.
  - intros i pre post p out Hok Hp. by apply (read_import_ok i pre post).
  - intros [[mn f] d]. cbn [enc_import]. rewrite len_app. pose proof (write_u32_nonempty (len mn)).
    match goal with |- context [_ + len ?l] => pose proof (len_nonneg l) end. lia.
Qed.

Lemma module_sigs_decode_witness :
  let types := [([0x7F; 0x7F], [0x7E])] in
  let imports := [([109], [102], IFunc 0); ([109], [103], IMemory (1, Some 2))] in
  let data := wasm_header
    ++ 1 :: len (enc_vec enc_type types) :: enc_vec enc_type types
    ++ 2 :: len (enc_vec enc_import imports) :: enc_vec enc_import imports
    ++ 3 :: len (enc_vec write_u32 [0]) :: enc_vec write_u32 [0] in
  exists m, parse data = Ret (Ok m) /\ from_module m = Ret (Some (mkSigs [(2, 1)] [0; 0])).
Proof.
  intros types imports data.
  destruct (parse data) as [[m|]|] eqn:E; [|exfalso; vm_compute in E; discriminate E..].
  exists m. split; [reflexivity|]. vm_compute in E. injection E as <-.
  apply (module_sigs_decode _ types imports [0]).
  - eexists. split; reflexivity.
  - eexists. split; reflexivity.
  - eexists. split; reflexivity.
  - by repeat constructor.
  - by repeat constructor.
  - by repeat constructor.
  - done.
  - done.
  - done.
Defined.
