(* ===== verification/Scan.v ===== *)
(** Call-graph scanning ([wilt/src/scan.rs]): the byte scan for call opcodes and the
    breadth-first closure over the graph it builds. *)
From S2P Require Import Prelude Leb128 Opcode WasmModule.

(** ** The call graph *)

(** Skipping the local declarations of a body; every iteration moves at least one
    byte and panics past the end, so the fuel is never the reason to stop. *)
Fixpoint scan_locals (fuel : nat) (d : bytes) (count pos : Z) : outcome Z :=
  if count <=? 0 then Ret pos else
  match fuel with
  | O => Panic
  | S fuel =>
      rest ← slice_from d pos;
      let pos := match read_u32 rest with Some (_, c) => pos + c | None => pos end in
      scan_locals fuel d (count - 1) (pos + 1)
  end.

Definition body_start (d : bytes) : outcome Z :=
  match read_u32 d with
  | Some (local_count, consumed) => scan_locals (S (S (length d))) d local_count consumed
  | None => Ret 0
  end.

(** The scan proper; [edges] are the targets found so far. *)
Fixpoint scan_calls (fuel : nat) (d : bytes) (num_funcs pos : Z) (edges : list Z) : outcome (list Z) :=
  if negb (pos <? len d) then Ret edges else
  match fuel with
  | O => Panic
  | S fuel =>
      opcode ← index d pos;
      let pos := pos + 1 in
      if opcode =? OP_CALL then
        rest ← slice_from d pos;
        match read_u32 rest with
        | Some (target, consumed) =>
            let edges := if (target <? num_funcs) && negb (existsb (Z.eqb target) edges)
                         then edges ++ [target] else edges in
            scan_calls fuel d num_funcs (pos + consumed) edges
        | None => scan_calls fuel d num_funcs pos edges
        end
      else scan_calls fuel d num_funcs pos edges
  end.

Definition scan_body (d : bytes) (num_funcs : Z) : outcome (list Z) :=
  pos ← body_start d; scan_calls (S (length d)) d num_funcs pos [].

Fixpoint scan_bodies (data : bytes) (num_funcs : Z) (bodies : list FunctionBody) : outcome (list (list Z)) :=
  match bodies with
  | [] => Ret []
  | b :: bodies =>
      d ← span_slice (fb_body b) data;
      row ← scan_body d num_funcs;
      rows ← scan_bodies data num_funcs bodies;
      Ret (row :: rows)
  end.

Definition call_graph (m : WasmModule) : outcome (list (list Z)) :=
  m ← ensure_function_bodies_parsed m;
  scan_bodies (wm_data m) (num_function_bodies m) (function_bodies m).

(** ** Reachability *)

Fixpoint mark_roots (n : Z) (roots : list Z) (r : list bool) : outcome (list bool) :=
  match roots with
  | [] => Ret r
  | root :: roots =>
      r ← (if root <? n then store r root true else Ret r); mark_roots n roots r
  end.

(** [for &target in &graph[i]]: the marks and [changed]. *)
Fixpoint mark_targets (row : list Z) (s : list bool * bool) : outcome (list bool * bool) :=
  match row with
  | [] => Ret s
  | target :: row =>
      b ← index (fst s) target;
      s ← (if negb b then r ← store (fst s) target true; Ret (r, true) else Ret s);
      mark_targets row s
  end.

(** [for i in 0..num_funcs], over the graph's rows from index [i]. *)
Fixpoint sweep (rows : list (list Z)) (i : Z) (s : list bool * bool) : outcome (list bool * bool) :=
  match rows with
  | [] => Ret s
  | row :: rows =>
      b ← index (fst s) i;
      s ← (if negb b then Ret s else mark_targets row s);
      sweep rows (i + 1) s
  end.

(** [while changed].  A sweep that changes something marks a new function, so at
    most one more sweep than there are functions runs. *)
Fixpoint sweeps (fuel : nat) (graph : list (list Z)) (r : list bool) : outcome (list bool) :=
  match fuel with
  | O => Panic
  | S fuel =>
      '(r, changed) ← sweep graph 0 (r, false);
      if changed : bool then sweeps fuel graph r else Ret r
  end.

Definition reachable_from (graph : list (list Z)) (roots : list Z) : outcome (list bool) :=
  r ← mark_roots (len graph) roots (List.repeat false (length graph));
  sweeps (S (length graph)) graph r.

Example reachable_simple :
  reachable_from [[1]; [2]; []; []] [0] = Ret [true; true; true; false].
Proof. reflexivity. Qed.
Example reachable_cycle : reachable_from [[1]; [0]] [0] = Ret [true; true].
Proof. reflexivity. Qed.

(** ** Reference: reachability in the graph *)

Definition edge (graph : list (list Z)) (i j : Z) : Prop := exists row, get graph i = Some row /\ In j row.
Definition in_bounds (graph : list (list Z)) : Prop :=
  Forall (Forall (fun j => 0 <= j < len graph)) graph.
Definition marked (r : list bool) (i : Z) : Prop := get r i = Some true.
Definition reachable (graph : list (list Z)) (roots : list Z) (i : Z) : Prop :=
  exists root, In root roots /\ 0 <= root < len graph /\ rtc (edge graph) root i.

(** ** Marks *)

Fixpoint unmarked (r : list bool) : nat :=
  match r with [] => 0 | b :: r => (if b then 0 else 1) + unmarked r end.

Lemma get_insert_mark (r : list bool) j i : 0 <= j < len r ->
  get (<[Z.to_nat j := true]> r) i = if i =? j then Some true else get r i.
Proof.
  intros Hj. unfold get, len in *. rewrite length_insert.
  destruct ((0 <=? i) && (i <? Z.of_nat (length r))) eqn:E; destruct (Z.eqb_spec i j) as [->|Hne];
    try done; try lia.
  - by rewrite list_lookup_insert_eq by lia.
  - by rewrite list_lookup_insert_ne by lia.
Qed.

Lemma marked_insert (r : list bool) j i : 0 <= j < len r ->
  (marked (<[Z.to_nat j := true]> r) i <-> i = j \/ marked r i).
Proof.
  intros Hj. unfold marked. rewrite get_insert_mark by done. destruct (Z.eqb_spec i j); [tauto|].
  split; [by right|]. by intros [|].
Qed.

Lemma unmarked_insert r n : r !! n = Some false -> unmarked r = S (unmarked (<[n := true]> r)).
Proof.
  revert n. induction r as [|b r IH]; intros [|n] H; try done.
  - by injection H as ->.
  - change (<[S n := true]> (b :: r)) with (b :: <[n := true]> r). cbn [unmarked]. rewrite (IH n H). lia.
Qed.

(** One step of progress: more marks, never fewer, and strictly more exactly when
    [changed] is set. *)
Definition advances (s s' : list bool * bool) : Prop :=
  len (fst s') = len (fst s) /\ (forall i, marked (fst s) i -> marked (fst s') i) /\
  (unmarked (fst s') <= unmarked (fst s))%nat /\
  (snd s' = true -> snd s = true \/ (unmarked (fst s') < unmarked (fst s))%nat) /\
  (snd s' = false -> s' = s).

Lemma advances_refl s : advances s s.
Proof. unfold advances. split_and!; auto. Qed.

Lemma advances_trans s1 s2 s3 : advances s1 s2 -> advances s2 s3 -> advances s1 s3.
Proof.
  intros (L1 & M1 & U1 & C1 & F1) (L2 & M2 & U2 & C2 & F2). unfold advances. split_and!; auto.
  - congruence.
  - lia.
  - intros H. destruct (C2 H) as [H2|]; [|right; lia]. destruct (C1 H2); [by left|right; lia].
  - intros H. pose proof (F2 H) as E. subst s3. auto.
Qed.

Section sweeping.
Context (graph : list (list Z)) (P : Z -> Prop).

Definition within (r : list bool) : Prop := forall i, marked r i -> P i.

Lemma mark_targets_spec row s : Forall (fun j => 0 <= j < len (fst s)) row -> within (fst s) ->
  (forall j, In j row -> P j) ->
  exists s', mark_targets row s = Ret s' /\ advances s s' /\ within (fst s') /\
    (forall j, In j row -> marked (fst s') j).
Proof.
  revert s. induction row as [|j row IH]; intros s Hb Hw Hp.
  - exists s. split_and!; [done|apply advances_refl|done|by intros j []].
  - inversion Hb as [|? ? Hj Hb']; subst. cbn [mark_targets]. unfold index.
    destruct (get_is_Some (fst s) j Hj) as [b Hg]. rewrite Hg. cbn [mbind outcome_bind].
    destruct b; cbn [negb].
    + destruct (IH s Hb' Hw) as (s' & E & Ha & Hw' & Hm); [intros; apply Hp; by right|]. exists s'.
      split_and!; [done|done|done|]. intros i [<-|Hi]; [|by apply Hm]. by apply Ha.
    + unfold store. replace ((0 <=? j) && (j <? len (fst s))) with true by lia. cbn [mbind outcome_bind].
      set (r1 := <[Z.to_nat j := true]> (fst s)).
      assert (Hr1 : forall i, marked r1 i <-> i = j \/ marked (fst s) i) by (intros; by apply marked_insert).
      assert (Hl : len r1 = len (fst s)) by (unfold r1, len; by rewrite length_insert).
      assert (Ha1 : advances s (r1, true)).
      { assert (Hu : unmarked (fst s) = S (unmarked r1)).
        { apply unmarked_insert. unfold get in Hg. by destruct (_ && _) in Hg. }
        unfold advances. cbn [fst snd]. split_and!; [done| |lia|intros _; right; lia|done].
        intros i Hi. apply Hr1. by right. }
      destruct (IH (r1, true)) as (s' & E & Ha & Hw' & Hm); cbn [fst].
      * by rewrite Hl.
      * intros i [->|Hi]%Hr1; [apply Hp; by left|by apply Hw].
      * intros; apply Hp; by right.
      * exists s'. split_and!; [done|by eapply advances_trans|done|].
        intros i [<-|Hi]; [|by apply Hm]. apply Ha. cbn [fst]. apply Hr1. by left.
Qed.

Lemma sweep_spec rows i s : i + len rows = len (fst s) -> 0 <= i ->
  Forall (Forall (fun j => 0 <= j < len (fst s))) rows -> within (fst s) ->
  (forall k row, rows !! k = Some row -> P (i + Z.of_nat k) -> forall j, In j row -> P j) ->
  exists s', sweep rows i s = Ret s' /\ advances s s' /\ within (fst s') /\
    (snd s' = false -> forall k row, rows !! k = Some row -> marked (fst s) (i + Z.of_nat k) ->
       forall j, In j row -> marked (fst s) j).
Proof.
  revert i s. induction rows as [|row rows IH]; intros i s Hn Hi Hb Hw Hp.
  - exists s. split_and!; [done|apply advances_refl|done|by intros _ k row Hk].
  - rewrite len_cons in Hn. inversion Hb as [|? ? Hrow Hb']; subst. cbn [sweep]. unfold index.
    destruct (get_is_Some (fst s) i) as [b Hg]; [pose proof (len_nonneg rows); lia|]. rewrite Hg.
    cbn [mbind outcome_bind].
    assert (Hs1 : exists s1, (if negb b then Ret s else mark_targets row s) = Ret s1 /\ advances s s1 /\
      within (fst s1) /\ (b = true -> forall j, In j row -> marked (fst s1) j)).
    { destruct b; cbn [negb]; [|by exists s; split_and!; [done|apply advances_refl|done|]].
      destruct (mark_targets_spec row s Hrow Hw) as (s1 & E & Ha & Hw1 & Hm); [|by exists s1; auto].
      intros j. apply (Hp 0%nat row eq_refl). rewrite Z.add_0_r. by apply Hw. }
    destruct Hs1 as (s1 & -> & Ha1 & Hw1 & Hm1). cbn [mbind outcome_bind].
    pose proof Ha1 as (Hl1 & _).
    destruct (IH (i + 1) s1) as (s2 & -> & Ha2 & Hw2 & Hc2).
    + lia.
    + lia.
    + by rewrite Hl1.
    + done.
    + intros k row' Hk HP. apply (Hp (S k) row' Hk). replace (i + Z.of_nat (S k)) with (i + 1 + Z.of_nat k) by lia. done.
    + exists s2. split_and!; [done|by eapply advances_trans|done|]. intros Hf.
      assert (E : s1 = s).
      { destruct Ha2 as (_ & _ & _ & _ & F2). destruct Ha1 as (_ & _ & _ & _ & F1).
        apply F1. by rewrite <- (F2 Hf). }
      subst s1. intros [|k] row' Hk Hmk.
      * injection Hk as <-. apply Hm1. unfold marked in Hmk. rewrite Z.add_0_r, Hg in Hmk. by injection Hmk.
      * replace (i + Z.of_nat (S k)) with (i + 1 + Z.of_nat k) in Hmk by lia. by apply (Hc2 Hf k).
Qed.

(** The rows of the graph as the sweep sees them. *)
Context (Hbounds : in_bounds graph) (HP : forall i j, P i -> edge graph i j -> P j).

Lemma sweeps_spec fuel r : len r = len graph -> within r -> (unmarked r < fuel)%nat ->
  exists r', sweeps fuel graph r = Ret r' /\ len r' = len graph /\ within r' /\
    (forall i, marked r i -> marked r' i) /\
    (forall i j, marked r' i -> edge graph i j -> marked r' j).
Proof.
  revert r. induction fuel as [|fuel IH]; intros r Hl Hw Hf; [lia|]. cbn [sweeps].
  destruct (sweep_spec graph 0 (r, false)) as (s & E & Ha & Hw' & Hc); cbn [fst snd] in *.
  - lia.
  - lia.
  - by rewrite Hl.
  - done.
  - intros k row Hk Hk' j Hj. apply (HP (0 + Z.of_nat k)); [done|]. exists row. split; [|done].
    unfold get. apply lookup_lt_Some in Hk as Hlt. unfold len.
    replace ((0 <=? 0 + Z.of_nat k) && (0 + Z.of_nat k <? Z.of_nat (length graph))) with true by lia.
    by rewrite Z.add_0_l, Nat2Z.id.
  - rewrite E. cbn [mbind outcome_bind]. destruct s as [r' ch]. cbn [fst snd] in *.
    destruct Ha as (Hl' & Hm & Hu & Hch & Hsame). cbn [fst snd] in *. destruct ch.
    + destruct (IH r') as (r2 & E2 & Hl2 & Hw2 & Hm2 & Hc2); [lia|done| |].
      * destruct Hch; [done|done|lia].
      * exists r2. split_and!; auto.
    + injection (Hsame eq_refl) as ->. exists r. split_and!; auto.
      intros i j Hi (row & Hg & Hj). unfold get in Hg. destruct (_ && _) eqn:Eb in Hg; [|done].
      apply (Hc eq_refl (Z.to_nat i) row Hg); [|done]. rewrite Z.add_0_l, Z2Nat.id by lia. done.
Qed.
End sweeping.

Lemma mark_roots_spec n roots r : len r = n -> Forall (fun i => 0 <= i) roots ->
  exists r', mark_roots n roots r = Ret r' /\ len r' = n /\
    forall i, marked r' i <-> marked r i \/ (In i roots /\ i < n).
Proof.
  intros Hn Hr. revert r Hn. induction Hr as [|root roots Hroot _ IH]; intros r Hn; cbn [mark_roots].
  - exists r. split_and!; [done..|]. intros i. split; [by left|]. by intros [|[[] _]].
  - destruct (Z.ltb_spec root n) as [Hlt|Hge]; cbn [mbind outcome_bind].
    + unfold store. replace ((0 <=? root) && (root <? len r)) with true by lia. cbn [mbind outcome_bind].
      destruct (IH (<[Z.to_nat root := true]> r)) as (r' & E & Hl & Hm); [unfold len in *; by rewrite length_insert|].
      exists r'. split_and!; [done..|]. intros i. rewrite Hm, marked_insert by lia. cbn [In].
      split; [intros [[->|]|[]]; auto|intros [|[[->|] ?]]; auto].
    + destruct (IH r Hn) as (r' & E & Hl & Hm). exists r'. split_and!; [done..|]. intros i. rewrite Hm. cbn [In].
      split; [intros [|[]]; auto|intros [|[[->|] ?]]; auto; lia].
Qed.

Lemma unmarked_le r : (unmarked r <= length r)%nat.
Proof. induction r as [|[] r IH]; simpl; lia. Qed.

Lemma marked_repeat n i : ~ marked (List.repeat false n) i.
Proof.
  unfold marked, get. destruct (_ && _); [|done]. intros H. apply list_elem_of_lookup_2 in H.
  apply list_elem_of_In, repeat_spec in H. done.
Qed.

(** ** The scan's edges *)

Lemma scan_calls_edges fuel d n pos edges out : 
  Forall (fun j => 0 <= j < n) edges -> NoDup edges -> 0 <= pos ->
  scan_calls fuel d n pos edges = Ret out -> Forall (fun j => 0 <= j < n) out /\ NoDup out.
Proof.
  revert pos edges. induction fuel as [|fuel IH]; intros pos edges He Hnd Hp; cbn [scan_calls];
    (destruct (negb (pos <? len d)); [by intros [= <-]|]); [done|].
  destruct (index d pos) as [op|]; cbn [mbind outcome_bind]; [|done].
  destruct (op =? OP_CALL); [|by apply IH; [..|lia]].
  destruct (slice_from d (pos + 1)) as [rest|]; cbn [mbind outcome_bind]; [|done].
  destruct (read_u32 rest) as [[t c]|] eqn:Er; [|by apply IH; [..|lia]].
  apply read_u32_bounds in Er as (Ht & Hc & _). cbv zeta.
  destruct ((t <? n) && negb (existsb (Z.eqb t) edges)) eqn:Ec; [|by apply IH; [..|lia]].
  apply andb_true_iff in Ec as [Htn Hex]. apply IH; [| |lia].
  - apply Forall_app. split; [done|]. constructor; [|done]. unfold is_uint in Ht. lia.
  - apply NoDup_app. split_and!; [done| |repeat constructor; by intros ?%list_elem_of_In].
    intros j Hj Hj1. apply list_elem_of_In in Hj1 as [<-|[]]. apply negb_true_iff in Hex.
    apply list_elem_of_In in Hj. rewrite <- not_true_iff_false, existsb_exists in Hex. apply Hex. exists t.
    by rewrite Z.eqb_refl.
Qed.

Lemma body_start_nonneg d pos : body_start d = Ret pos -> 0 <= pos.
Proof.
  assert (Hl : forall fuel count p q, 0 <= p -> scan_locals fuel d count p = Ret q -> 0 <= q).
  { induction fuel as [|fuel IH]; intros count p q Hp; cbn [scan_locals];
      (destruct (count <=? 0); [by intros [= <-]|]); [done|].
    destruct (slice_from d p) as [rest|]; cbn [mbind outcome_bind]; [|done].
    destruct (read_u32 rest) as [[t c]|] eqn:E; apply IH; [|lia]. apply read_u32_bounds in E. lia. }
  unfold body_start. destruct (read_u32 d) as [[n c]|] eqn:E; [|by intros [= <-]].
  apply read_u32_bounds in E. apply Hl. lia.
Qed.

Lemma scan_bodies_rows data n bodies g : scan_bodies data n bodies = Ret g ->
  len g = len bodies /\ Forall (fun row => Forall (fun j => 0 <= j < n) row /\ NoDup row) g.
Proof.
  revert g. induction bodies as [|b bodies IH]; intros g; cbn [scan_bodies]; [by intros [= <-]|].
  destruct (span_slice _ data) as [d|]; cbn [mbind outcome_bind]; [|done].
  destruct (scan_body d n) as [row|] eqn:Er; cbn [mbind outcome_bind]; [|done].
  destruct (scan_bodies data n bodies) as [rows|]; cbn [mbind outcome_bind]; [|done]. intros [= <-].
  destruct (IH rows eq_refl) as [Hl Hr]. rewrite !len_cons. split; [lia|]. constructor; [|done].
  unfold scan_body in Er. destruct (body_start d) as [pos|] eqn:Ep; cbn [mbind outcome_bind] in Er; [|done].
  apply body_start_nonneg in Ep. by apply scan_calls_edges in Er; [|constructor..|].
Qed.

Lemma call_graph_rows m g : call_graph m = Ret g ->
  in_bounds g /\ Forall (fun row => NoDup row) g /\
  exists m', ensure_function_bodies_parsed m = Ret m' /\ len g = num_function_bodies m'.
Proof.
  unfold call_graph. destruct (ensure_function_bodies_parsed m) as [m'|] eqn:Em; cbn [mbind outcome_bind]; [|done].
  intros H. apply scan_bodies_rows in H as [Hl Hr].
  assert (Hn : len g = num_function_bodies m').
  { rewrite Hl. unfold num_function_bodies, function_bodies. by destruct (wm_function_bodies m'). }
  split_and!; [|by eapply Forall_impl; [exact Hr|]; intros row []|by exists m'].
  unfold in_bounds. rewrite Hn. eapply Forall_impl; [exact Hr|]. by intros row [].
Qed.

Lemma reachable_from_spec graph roots :
  in_bounds graph -> Forall (fun root => 0 <= root) roots ->
  exists r, reachable_from graph roots = Ret r /\ len r = len graph /\
    forall i, marked r i <-> reachable graph roots i.
Proof.
  intros Hb Hroots. unfold reachable_from.
  destruct (mark_roots_spec (len graph) roots (List.repeat false (length graph))) as (r0 & -> & Hl0 & Hm0);
    [unfold len; by rewrite repeat_length|done|]. cbn [mbind outcome_bind].
  destruct (sweeps_spec graph (reachable graph roots) Hb) with (fuel := S (length graph)) (r := r0)
    as (r & E & Hl & Hw & Hmono & Hclosed).
  - intros i j (root & Hin & Hr & Hp) He. exists root.
    split; [done|]. split; [done|]. by eapply rtc_r.
  - done.
  - intros i [Hi|[Hi Hlt]]%Hm0; [by apply marked_repeat in Hi|]. exists i.
    rewrite Forall_forall in Hroots. split; [done|]. split; [|constructor].
    split; [apply Hroots; by apply list_elem_of_In|done].
  - pose proof (unmarked_le r0). unfold len in Hl0. lia.
  - exists r. split_and!; [done..|]. intros i. split; [apply Hw|].
    intros (root & Hin & Hr & Hp). assert (Hmr : marked r root) by (apply Hmono, Hm0; right; split; [done|lia]).
    clear - Hp Hmr Hclosed. induction Hp as [|a b c He _ IH]; [done|]. apply IH. by apply (Hclosed a b).
Qed.

(** ** Properties *)

(** C38. [reachable_from] terminates without a panic on every graph whose targets are
    functions, and marks exactly the functions a path of call edges leads to
    from some root (roots outside the graph are ignored). *)
Theorem reachable_from_correct graph roots :
  in_bounds graph -> Forall (fun root => 0 <= root) roots ->
  exists r, reachable_from graph roots = Ret r /\ len r = len graph /\
    forall i, marked r i <-> reachable graph roots i.
Proof. apply reachable_from_spec. Qed.

Lemma reachable_from_correct_witness :
  exists r, reachable_from [[1]; [2]; []; []] [0; 7] = Ret r /\ marked r 2 /\ ~ reachable [[1]; [2]; []; []] [0; 7] 3.
Proof.
  destruct (reachable_from_correct [[1]; [2]; []; []] [0; 7]) as (r & E & _ & Hr).
  - by repeat constructor.
  - by repeat constructor.
  - exists r. vm_compute in E. injection E as <-. split_and!; [reflexivity|reflexivity|].
    rewrite <- Hr. discriminate.
Defined.

(** What [call_graph] builds can be closed: it has one row per function body, each
    row lists functions of the module without repetition, and so
    [reachable_from] on it returns for any roots. *)
Theorem call_graph_closes m g roots : call_graph m = Ret g -> Forall (fun root => 0 <= root) roots ->
  (exists m', ensure_function_bodies_parsed m = Ret m' /\ len g = num_function_bodies m') /\
  in_bounds g /\ Forall (fun row => NoDup row) g /\
  exists r, reachable_from g roots = Ret r /\ len r = len g.
Proof.
  intros Hg Hr. destruct (call_graph_rows m g Hg) as (Hb & Hnd & Hm). split_and!; [done..|].
  unfold reachable_from.
  destruct (mark_roots_spec (len g) roots (List.repeat false (length g))) as (r0 & -> & Hl0 & _);
    [unfold len; by rewrite repeat_length|done|]. cbn [mbind outcome_bind].
  destruct (sweeps_spec g (fun _ => True) Hb) with (fuel := S (length g)) (r := r0)
    as (r & E & Hl & _); [done|done|done| |by exists r].
  pose proof (unmarked_le r0). unfold len in Hl0. lia.
Qed.

Lemma call_graph_closes_witness :
  let data := wasm_header ++ [10; 9; 2; 4; 0; 0x10; 1; 0x0B; 2; 0; 0x0B] in
  exists m g, parse data = Ret (Ok m) /\ call_graph m = Ret g /\ g = [[1]; []] /\
    exists r, reachable_from g [0] = Ret r /\ len r = len g.
Proof.
  intros data. destruct (parse data) as [[m|]|] eqn:E; [|exfalso; vm_compute in E; discriminate E..].
  assert (Hg : call_graph m = Ret [[1]; []]) by (vm_compute in E; injection E as <-; reflexivity).
  exists m, [[1]; []]. split; [reflexivity|]. split; [exact Hg|]. split; [reflexivity|].
  apply (call_graph_closes m [[1]; []] [0] Hg). by repeat constructor.
Defined.

Lemma scan_calls_skip fuel d n pos op edges : get d pos = Some op -> op <> OP_CALL ->
  scan_calls (S fuel) d n pos edges = scan_calls fuel d n (pos + 1) edges.
Proof.
  intros Hg Hop. cbn [scan_calls]. unfold index. rewrite Hg. apply get_Some in Hg.
  replace (pos <? len d) with true by lia. cbn [negb mbind outcome_bind].
  by destruct (Z.eqb_spec op OP_CALL).
Qed.

Lemma scan_calls_hit fuel d n pos rest t c : get d pos = Some OP_CALL -> get_from d (pos + 1) = Some rest ->
  read_u32 rest = Some (t, c) ->
  scan_calls (S fuel) d n pos [] = scan_calls fuel d n (pos + 1 + c) (if t <? n then [t] else []).
Proof.
  intros Hg Hr Ht. cbn [scan_calls]. unfold index, slice_from. rewrite Hg, Hr. apply get_Some in Hg.
  replace (pos <? len d) with true by lia. cbn [negb mbind outcome_bind]. rewrite Z.eqb_refl, Ht.
  cbn [existsb negb app]. by rewrite andb_true_r.
Qed.

(** The scan can miss a real call, although it is documented never to: in the body
    [i32.const 16; call f; end] with no locals and [f < 16], whose instructions
    the decoder reads correctly, the constant's byte 16 is taken for a call
    opcode and the real opcode for its target.  The edge to [f] is not in the
    graph; an edge to function 16 is, when that exists. *)
Theorem call_graph_misses_call f num_funcs : 0 <= f < 16 ->
  let d := [0; 0x41; 0x10; 0x10; f; 0x0B] in
  walk d 1 = Some [(1, 2); (3, 2); (5, 1)] /\ get d 3 = Some OP_CALL /\ read_u32 [f; 0x0B] = Some (f, 1) /\
  scan_body d num_funcs = Ret (if 16 <? num_funcs then [16] else []).
Proof.
  intros Hf d. assert (E : f = 0 \/ f = 1 \/ f = 2 \/ f = 3 \/ f = 4 \/ f = 5 \/ f = 6 \/ f = 7 \/ f = 8 \/
    f = 9 \/ f = 10 \/ f = 11 \/ f = 12 \/ f = 13 \/ f = 14 \/ f = 15) by lia.
  assert (Hscan : scan_body d num_funcs = Ret (if 16 <? num_funcs then [16] else [])).
  { unfold scan_body. change (body_start d) with (Ret 1). cbn [mbind outcome_bind].
    change (S (length d)) with 7%nat. rewrite (scan_calls_skip _ _ _ _ 0x41) by done.
    rewrite (scan_calls_hit _ _ _ _ [0x10; f; 0x0B] 16 1) by done.
    change (1 + 1 + 1 + 1) with 4.
    rewrite (scan_calls_skip _ _ _ _ f), (scan_calls_skip _ _ _ _ 0x0B) by (done || (unfold OP_CALL; lia)).
    reflexivity. }
  split_and!; [|done| |exact Hscan]; unfold d; clear d Hscan;
    repeat destruct E as [->|E]; try subst f; reflexivity.
Qed.

Lemma call_graph_misses_call_witness :
  walk [0; 0x41; 0x10; 0x10; 3; 0x0B] 1 = Some [(1, 2); (3, 2); (5, 1)] /\
  scan_body [0; 0x41; 0x10; 0x10; 3; 0x0B] 5 = Ret [].
Proof. by destruct (call_graph_misses_call 3 5 ltac:(lia)) as (H1 & _ & _ & H4). Defined.

(** A body whose locals vector is cut short makes the scan panic. *)
Lemma truncated_locals_panic n : scan_body [2] n = Panic.
Proof. reflexivity. Qed.
