(* ===== verification/Remap.v ===== *)
(** Function- and local-index remap tables ([wilt/src/remap.rs]): partial maps
    from input to output function indices that the renumbering passes produce
    and the driver composes. *)
From S2P Require Import Prelude WasmModule.

(** ** [FuncRemap] *)

Record FuncRemap := mkFuncRemap { entries : list (option Z) }.

(** [(0..n).map(Some).collect()] *)
Definition identity (n : Z) : FuncRemap :=
  mkFuncRemap ((fun i => Some (Z.of_nat i)) <$> seq 0 (Z.to_nat n)).

Definition from_entries (es : list (option Z)) : FuncRemap := mkFuncRemap es.

(** [v.get(i as usize).copied().flatten()] *)
Definition get_flatten (v : list (option Z)) (i : Z) : option Z :=
  match get v i with Some (Some j) => Some j | _ => None end.

Definition remap_lookup (r : FuncRemap) (input : Z) : option Z := get_flatten (entries r) input.

Definition remap_len (r : FuncRemap) : Z := u32 (len (entries r)).
Definition is_empty (r : FuncRemap) : bool := match entries r with [] => true | _ => false end.

Definition remap_compose (self next : FuncRemap) : FuncRemap :=
  mkFuncRemap ((fun slot => match slot with
                            | Some mid => get_flatten (entries next) mid
                            | None => None
                            end) <$> entries self).

(** One iteration of [by_output]: [m.entry(out).or_default().push(i as u32)]. *)
Definition push_input (m : gmap Z (list Z)) (p : nat * option Z) : gmap Z (list Z) :=
  match snd p with
  | Some out => <[out := default [] (m !! out) ++ [u32 (Z.of_nat (fst p))]]> m
  | None => m
  end.

Definition by_output (r : FuncRemap) : gmap Z (list Z) :=
  foldl push_input ∅ (imap pair (entries r)).

(** ** [LocalRemap] *)

Record LocalRemap := mkLocalRemap { per_function : gmap Z (list Z) }.
Definition local_new : LocalRemap := mkLocalRemap ∅.
Definition local_insert (l : LocalRemap) (func : Z) (map : list Z) : LocalRemap :=
  mkLocalRemap (<[func := map]> (per_function l)).
Definition local_lookup (l : LocalRemap) (func input_local : Z) : option Z :=
  v ← per_function l !! func; get v input_local.

Example compose_chains_deletions :
  remap_compose (from_entries [Some 1; Some 0; None]) (from_entries [Some 0; Some 1])
  = from_entries [Some 1; Some 0; None].
Proof. reflexivity. Qed.
Example merge_shows_up :
  by_output (from_entries [Some 0; Some 1; Some 0]) !! 0 = Some [0; 2].
Proof. reflexivity. Qed.

(** ** Lemmas *)

Lemma get_fmap {A B} (f : A -> B) l i : get (f <$> l) i = f <$> get l i.
Proof.
  unfold get, len. rewrite length_fmap. destruct (_ && _); [|done]. by rewrite list_lookup_fmap.
Qed.

Lemma get_seq n i : get (seq 0 n) i = if (0 <=? i) && (i <? Z.of_nat n) then Some (Z.to_nat i) else None.
Proof.
  unfold get, len. rewrite length_seq.
  destruct (Z.leb_spec 0 i), (Z.ltb_spec i (Z.of_nat n)); try done. simpl. by apply lookup_seq_lt; lia.
Qed.

Lemma lookup_identity n i : remap_lookup (identity n) i = if (0 <=? i) && (i <? n) then Some i else None.
Proof.
  unfold remap_lookup, get_flatten, identity. simpl. rewrite get_fmap, get_seq.
  destruct (Z.leb_spec 0 i), (Z.ltb_spec i n); simpl;
    try (destruct (Z.ltb_spec i (Z.of_nat (Z.to_nat n))); simpl; [|lia || done]; try lia); try done.
  all: try (by rewrite Z2Nat.id).
Qed.

Lemma lookup_compose a b i : remap_lookup (remap_compose a b) i = remap_lookup a i ≫= remap_lookup b.
Proof.
  unfold remap_lookup, get_flatten, remap_compose. simpl. rewrite get_fmap.
  destruct (get (entries a) i) as [[mid|]|]; [|done..]. simpl. unfold get_flatten.
  by destruct (get (entries b) mid) as [[]|].
Qed.

(** Two remaps over as many functions are equal when they map alike. *)
Lemma remap_ext a b : len (entries a) = len (entries b) ->
  (forall i, remap_lookup a i = remap_lookup b i) -> a = b.
Proof.
  destruct a as [a], b as [b]. unfold remap_lookup, get_flatten. simpl. intros Hl H. f_equal.
  apply list_eq_same_length with (length b); [done|unfold len in Hl; lia|].
  intros k x y Hk Hx Hy. specialize (H (Z.of_nat k)). unfold len in Hl.
  unfold get in H. replace ((0 <=? Z.of_nat k) && (Z.of_nat k <? len a)) with true in H by (unfold len; lia).
  replace ((0 <=? Z.of_nat k) && (Z.of_nat k <? len b)) with true in H by (unfold len; lia).
  rewrite Nat2Z.id, Hx, Hy in H. by destruct x, y.
Qed.

Lemma compose_len a b : len (entries (remap_compose a b)) = len (entries a).
Proof. unfold len. simpl. by rewrite length_fmap. Qed.

(** The rows of [by_output] after some inputs. *)
Lemma by_output_rows es : forall k m i j, Z.of_nat (k + length es) < 2 ^ 32 ->
  let row := default [] (foldl push_input m (imap (fun n o => (k + n, o)%nat) es) !! j) in
  In i row <-> In i (default [] (m !! j)) \/
    exists n, i = Z.of_nat (k + n) /\ es !! n = Some (Some j).
Proof.
  induction es as [|o es IH]; intros k m i j Hk; cbn [imap foldl].
  - split; [by left|]. by intros [|(n & _ & [=])].
  - simpl length in Hk.
    replace (imap _ es) with (imap (fun n o => (S k + n, o)%nat) es)
      by (apply imap_ext; intros n x _; unfold compose; f_equal; lia).
    cbv zeta. rewrite (IH (S k)) by lia.
    assert (Hhead : In i (default [] (push_input m (k + 0, o)%nat !! j)) <->
      In i (default [] (m !! j)) \/ (i = Z.of_nat k /\ o = Some j)).
    { unfold push_input. simpl. rewrite Nat.add_0_r. destruct o as [out|]; [|split; [by left|by intros [|[_ [=]]]]].
      destruct (decide (out = j)) as [->|Hne].
      - rewrite lookup_insert_eq. simpl. rewrite in_app_iff, wrap_id by (unfold is_uint; lia). simpl.
        split; [intros [|[]]; auto; done|intros [|[-> _]]; auto].
      - rewrite lookup_insert_ne by done. split; [by left|]. by intros [|[_ [= ->]]]. }
    rewrite Hhead. split.
    + intros [[H|[-> ->]]|(n & -> & Hn)]; [by left| |].
      * right. exists 0%nat. split; [f_equal; lia|done].
      * right. exists (S n). split; [f_equal; lia|done].
    + intros [H|(n & -> & Hn)]; [by left; left|]. destruct n as [|n].
      * left. right. injection Hn as ->. split; [f_equal; lia|done].
      * right. exists n. split; [f_equal; lia|done].
Qed.

(** ** Properties *)

(** Composing remaps is composing partial functions: an input is mapped
    through both tables, and stays eliminated when either eliminates it.
    Composition is associative, and the identity tables are neutral on both
    sides (on the right for tables whose targets are below its size). *)
Theorem compose_partial_functions a b c n :
  (forall i, remap_lookup (remap_compose a b) i = remap_lookup a i ≫= remap_lookup b) /\
  remap_compose (remap_compose a b) c = remap_compose a (remap_compose b c) /\
  remap_compose (identity (len (entries a))) a = a /\
  ((forall i j, remap_lookup a i = Some j -> 0 <= j < n) -> remap_compose a (identity n) = a).
Proof.
  split_and!.
  - intros i. apply lookup_compose.
  - apply remap_ext; [by rewrite !compose_len|]. intros i. rewrite !lookup_compose.
    destruct (remap_lookup a i) as [j|]; [|done]. simpl. by rewrite lookup_compose.
  - apply remap_ext.
    + rewrite compose_len. unfold identity, len. simpl. rewrite length_fmap, length_seq. by rewrite Nat2Z.id.
    + intros i. rewrite lookup_compose, lookup_identity.
      destruct (Z.leb_spec 0 i), (Z.ltb_spec i (len (entries a))); simpl; try done;
        unfold remap_lookup, get_flatten, get;
        destruct (Z.leb_spec 0 i), (Z.ltb_spec i (len (entries a))); simpl; done || lia.
  - intros Hn. apply remap_ext; [apply compose_len|]. intros i. rewrite lookup_compose.
    destruct (remap_lookup a i) as [j|] eqn:E; [|done]. simpl. rewrite lookup_identity.
    specialize (Hn i j E). by replace ((0 <=? j) && (j <? n)) with true by lia.
Qed.

Lemma compose_partial_functions_witness :
  let a := from_entries [Some 1; None; Some 0] in
  remap_compose a (identity 2) = a /\
  remap_compose (remap_compose a a) (identity 2) = remap_compose a (remap_compose a (identity 2)).
Proof.
  intros a. destruct (compose_partial_functions a a (identity 2) 2) as (_ & Ha & _ & Hi).
  split; [|exact Ha]. apply Hi. intros i j. unfold remap_lookup, get_flatten.
  destruct (get (entries a) i) as [[k|]|] eqn:E; [|done..]. intros [= <-].
  apply get_lookup in E as [_ E]. destruct (Z.to_nat i) as [|[|[|]]]; simpl in E; try discriminate E; injection E as <-; lia.
Defined.

(** [by_output] inverts a remap of fewer than [2^32] functions: the row of an
    output function lists exactly the inputs mapped to it. *)
Theorem by_output_inverts r i j : len (entries r) < 2 ^ 32 ->
  In i (default [] (by_output r !! j)) <-> remap_lookup r i = Some j.
Proof.
  intros Hl. unfold by_output.
  pose proof (by_output_rows (entries r) 0 ∅ i j ltac:(unfold len in Hl; lia)) as H. cbv zeta in H.
  replace (imap pair (entries r)) with (imap (fun n o => (0 + n, o)%nat) (entries r)) by done.
  rewrite H, lookup_empty. simpl. unfold remap_lookup, get_flatten. split.
  - intros [[]|(n & -> & Hn)]. unfold get. pose proof (lookup_lt_Some _ _ _ Hn).
    replace ((0 <=? Z.of_nat n) && (Z.of_nat n <? len (entries r))) with true by (unfold len; lia).
    by rewrite Nat2Z.id, Hn.
  - intros Hg. right. destruct (get (entries r) i) as [[j'|]|] eqn:E; [|done..]. injection Hg as ->.
    apply get_lookup in E as [Hi E]. exists (Z.to_nat i). split; [lia|done].
Qed.

Lemma by_output_inverts_witness :
  let r := from_entries [Some 0; Some 1; None; Some 0] in
  In 3 (default [] (by_output r !! 0)) <-> remap_lookup r 3 = Some 0.
Proof. apply by_output_inverts. reflexivity. Defined.

Lemma local_lookup_insert l func map f x :
  local_lookup (local_insert l func map) f x = if f =? func then get map x else local_lookup l f x.
Proof.
  unfold local_lookup, local_insert. simpl. destruct (Z.eqb_spec f func) as [->|].
  - by rewrite lookup_insert_eq.
  - by rewrite lookup_insert_ne.
Qed.
