(* ===== verification/Tokens.v ===== *)
(** The instructions of a function body as byte strings of their own.  The
    decoder of [Opcode] is self-delimiting: the length of an instruction is
    determined by its own bytes ([instr_len_token]), so a body can be cut into
    instructions, edited, and decoded again ([boundaries_join]). *)
From S2P Require Import Prelude Leb128 Opcode.

(** ** Decoders only look at the bytes they count *)

Lemma shrink_get_from (t r x : bytes) c :
  get_from (t ++ r) c = Some x -> c <= len t ->
  exists y, get_from t c = Some y /\ x = y ++ r /\ len y = len t - c.
Proof.
  rewrite get_from_Some, len_app. intros [? ->] Hc. exists (drop (Z.to_nat c) t).
  rewrite get_from_Some, len_drop, drop_app_le by (unfold len in *; lia).
  repeat split; lia.
Qed.

Lemma shrink_get (t r : bytes) i x : get (t ++ r) i = Some x -> i < len t -> get t i = Some x.
Proof. intros H Hi. by rewrite get_app_l in H. Qed.

Lemma shrink_read_u32 (t r : bytes) v n :
  read_u32 (t ++ r) = Some (v, n) -> n <= len t -> read_u32 t = Some (v, n).
Proof.
  intros H Hn. pose proof (read_u32_bounds _ _ _ H) as (_ & ? & _). apply read_u32_take in H.
  rewrite take_app_le in H by (unfold len in *; lia).
  rewrite <- (take_drop (Z.to_nat n) t). by apply read_u32_app.
Qed.

Lemma shrink_skip_len_loop fuel i (t r : bytes) n : 0 <= i ->
  skip_len_loop fuel i (t ++ r) = Some n -> n <= len t -> skip_len_loop fuel i t = Some n.
Proof.
  revert i. induction fuel as [|fuel IH]; intros i Hi; simpl; [done|].
  destruct (get (t ++ r) i) as [b|] eqn:Hg; simpl; [|done]. intros H Hn.
  assert (i < len t).
  { destruct (b <? 128); [injection H as <-; lia|]. apply skip_len_loop_bounds in H; lia. }
  rewrite (shrink_get _ _ _ _ Hg) by done. simpl.
  destruct (b <? 128); [done|]. apply IH; [lia|done..].
Qed.

Lemma shrink_skip_len (t r : bytes) n :
  skip_len (t ++ r) = Some n -> n <= len t -> skip_len t = Some n.
Proof. apply shrink_skip_len_loop. lia. Qed.

Lemma shrink_leb_len (t r : bytes) n : leb_len (t ++ r) = Some n -> n <= len t -> leb_len t = Some n.
Proof.
  unfold leb_len. intros ([v m] & H & ->)%fmap_Some Hn. by rewrite (shrink_read_u32 _ _ _ _ H Hn).
Qed.

Lemma shrink_valtype_len (t r : bytes) off n :
  valtype_len (t ++ r) off = Some n -> off < len t -> valtype_len t off = Some n.
Proof.
  unfold valtype_len. intros (v & Hv & H)%bind_Some Hn. by rewrite (shrink_get _ _ _ _ Hv Hn).
Qed.

Lemma shrink_skip_leb (t r : bytes) off n :
  skip_leb (t ++ r) off = Some n -> n <= len t -> skip_leb t off = Some n.
Proof.
  intros H Hn. pose proof (skip_leb_bounds _ _ _ H). unfold skip_leb in *.
  apply bind_Some in H as (x & Hx & H). apply bind_Some in H as (c & Hc & [= <-]).
  destruct (shrink_get_from _ _ _ _ Hx) as (y & -> & -> & Hy); [lia|]. simpl.
  by rewrite (shrink_leb_len _ _ _ Hc) by lia.
Qed.

Lemma shrink_skip_valtype (t r : bytes) off n :
  skip_valtype (t ++ r) off = Some n -> n <= len t -> skip_valtype t off = Some n.
Proof.
  unfold skip_valtype. intros (c & Hc & [= <-])%bind_Some Hn.
  pose proof (valtype_len_bounds _ _ _ Hc). by rewrite (shrink_valtype_len _ _ _ _ Hc) by lia.
Qed.

Lemma shrink_skip_local (t r : bytes) off n :
  skip_local (t ++ r) off = Some n -> n <= len t -> skip_local t off = Some n.
Proof.
  unfold skip_local. intros (o & Ho & H)%bind_Some Hn. apply bind_Some in H as (c & Hc & [= <-]).
  pose proof (valtype_len_bounds _ _ _ Hc).
  rewrite (shrink_skip_leb _ _ _ _ Ho) by lia. simpl. by rewrite (shrink_valtype_len _ _ _ _ Hc) by lia.
Qed.

Lemma shrink_leb_len2 (t r : bytes) n : leb_len2 (t ++ r) = Some n -> n <= len t -> leb_len2 t = Some n.
Proof.
  unfold leb_len2. intros (c & Hc & H)%bind_Some Hn. apply bind_Some in H as (x & Hx & H).
  apply bind_Some in H as (c2 & H2 & [= <-]). pose proof (leb_len_bounds _ _ Hc).
  pose proof (leb_len_bounds _ _ H2). rewrite (shrink_leb_len _ _ _ Hc) by lia. simpl.
  destruct (shrink_get_from _ _ _ _ Hx) as (y & -> & -> & Hy); [lia|]. simpl.
  by rewrite (shrink_leb_len _ _ _ H2) by lia.
Qed.

(** The counted loops: each entry is found again in the shorter buffer, and
    the smaller fuel is still enough. *)
Lemma shrink_for_count (t r : bytes) (step : bytes -> Z -> option Z) f count off n :
  (forall d o m, step d o = Some m -> 0 <= o < m /\ m <= len d) ->
  (forall o m, step (t ++ r) o = Some m -> m <= len t -> step t o = Some m) ->
  0 <= off <= len t -> for_count f count (step (t ++ r)) off = Some n -> n <= len t ->
  for_count (S (length t)) count (step t) off = Some n.
Proof.
  intros Hb Hs Ho H Hn.
  rewrite (skip_vector_enough t (step t) (fun o m => Hb t o m) _ (f + S (length t))) by lia.
  revert count off Ho H. induction f as [|f IH]; intros count off Ho; simpl.
  - destruct (count <=? 0); [done|done].
  - destruct (count <=? 0); [done|].
    destruct (step (t ++ r) off) as [m|] eqn:E; simpl; [|done]. intros H.
    assert (m <= n).
    { pose proof (Hb _ _ _ E) as [? ?].
      apply (skip_vector_bounds (t ++ r) (step (t ++ r)) (fun o m => Hb (t ++ r) o m)) in H; lia. }
    pose proof (Hb _ _ _ E). rewrite (Hs _ _ E) by lia. simpl. apply IH; [lia|done].
Qed.

Lemma shrink_fc_len sub (t r : bytes) n :
  fc_len sub (t ++ r) = Some n -> n <= len t -> fc_len sub t = Some n.
Proof.
  unfold fc_len. intros H Hn.
  repeat match goal with |- (if ?b then _ else _) = _ => destruct b end; try done;
    eauto using shrink_leb_len, shrink_leb_len2.
  apply bind_Some in H as (c & Hc & [= <-]). by rewrite (shrink_leb_len _ _ _ Hc) by lia.
Qed.

Lemma shrink_fb_len sub (t r : bytes) n :
  fb_len sub (t ++ r) = Some n -> n <= len t -> fb_len sub t = Some n.
Proof.
  unfold fb_len. intros H Hn.
  repeat match goal with |- (if ?b then _ else _) = _ => destruct b end; try done;
    eauto using shrink_leb_len, shrink_leb_len2.
  apply bind_Some in H as (c & Hc & H). apply bind_Some in H as (c2 & H2 & H).
  pose proof (skip_leb_bounds _ _ _ H2). pose proof (skip_leb_bounds _ _ _ H).
  rewrite (shrink_skip_leb _ _ _ _ Hc) by lia. simpl.
  rewrite (shrink_skip_leb _ _ _ _ H2) by lia. simpl. by apply (shrink_skip_leb _ r).
Qed.

Lemma shrink_memarg_len (t r : bytes) n :
  memarg_len (t ++ r) = Some n -> n <= len t -> memarg_len t = Some n.
Proof.
  unfold memarg_len. intros ([a c] & Ha & H)%bind_Some Hn.
  apply bind_Some in H as (o & Ho & H). pose proof (skip_leb_bounds _ _ _ H).
  assert (c <= o).
  { destruct (negb _); [apply skip_leb_bounds in Ho; lia|injection Ho; lia]. }
  rewrite (shrink_read_u32 _ _ _ _ Ha) by lia. simpl.
  destruct (negb _).
  - rewrite (shrink_skip_leb _ _ _ _ Ho) by lia. simpl. by apply (shrink_skip_leb _ r).
  - injection Ho as ->. simpl. by apply (shrink_skip_leb _ r).
Qed.

Ltac nonneg :=
  intros;
  repeat match goal with
    | H : (if ?b then _ else _) = Some _ |- _ => destruct b
    | H : Some _ = Some _ |- _ => injection H as <-
    | H : None = Some _ |- _ => discriminate H
    | H : (_ ≫= _) = Some _ |- _ => apply bind_Some in H as (? & ? & H)
    | H : leb_len _ = Some _ |- _ => apply leb_len_bounds in H
    | H : leb_len2 _ = Some _ |- _ => apply leb_len2_bounds in H
    | H : skip_leb _ _ = Some _ |- _ => apply skip_leb_bounds in H
    end; lia.

Lemma fc_len_nonneg sub d n : fc_len sub d = Some n -> 0 <= n.
Proof. unfold fc_len. nonneg. Qed.

Lemma fb_len_nonneg sub d n : fb_len sub d = Some n -> 0 <= n.
Proof. unfold fb_len. nonneg. Qed.

Lemma shrink_prefixed (sub_len : Z -> bytes -> option Z) (t r : bytes) n :
  (forall sub d m, sub_len sub d = Some m -> 0 <= m) ->
  (forall sub u m, sub_len sub (u ++ r) = Some m -> m <= len u -> sub_len sub u = Some m) ->
  ('(sub, c) ← read_u32 (t ++ r); d ← get_from (t ++ r) c; e ← sub_len sub d; Some (c + e)) = Some n ->
  n <= len t ->
  ('(sub, c) ← read_u32 t; d ← get_from t c; e ← sub_len sub d; Some (c + e)) = Some n.
Proof.
  intros Hpos Hs ([sub c] & Hr & H)%bind_Some Hn. apply bind_Some in H as (d & Hd & H).
  apply bind_Some in H as (e & He & [= <-]). pose proof (Hpos _ _ _ He).
  rewrite (shrink_read_u32 _ _ _ _ Hr) by lia. simpl.
  destruct (shrink_get_from _ _ _ _ Hd) as (y & -> & -> & Hy); [lia|]. simpl.
  by rewrite (Hs _ _ _ He) by lia.
Qed.

Lemma shrink_imm_len op (t r : bytes) n :
  imm_len op (t ++ r) = Some n -> n <= len t -> imm_len op t = Some n.
Proof.
  unfold imm_len. intros H Hn.
  repeat match goal with |- (if ?b then _ else _) = _ => destruct b end; try done;
    eauto using shrink_leb_len, shrink_leb_len2, shrink_memarg_len, shrink_skip_len.
  - apply bind_Some in H as ([k c] & Hk & H). pose proof (read_u32_bounds _ _ _ Hk) as (_ & ? & ?).
    pose proof H as H'. apply (skip_vector_bounds _ _ (skip_leb_bounds _)) in H'; [|lia].
    rewrite (shrink_read_u32 _ _ _ _ Hk) by lia.
    eapply (shrink_for_count t r skip_leb); eauto using skip_leb_bounds, shrink_skip_leb. lia.
  - apply bind_Some in H as ([k c] & Hk & H). pose proof (read_u32_bounds _ _ _ Hk) as (_ & ? & ?).
    pose proof H as H'. apply (skip_vector_bounds _ _ (skip_valtype_bounds _)) in H'; [|lia].
    rewrite (shrink_read_u32 _ _ _ _ Hk) by lia.
    eapply (shrink_for_count t r skip_valtype); eauto using skip_valtype_bounds, shrink_skip_valtype. lia.
  - eapply (shrink_prefixed fc_len); eauto using fc_len_nonneg, shrink_fc_len.
  - eapply (shrink_prefixed fb_len); eauto using fb_len_nonneg, shrink_fb_len.
Qed.

(** An instruction decodes alone as it does in front of any other bytes. *)
Lemma shrink_instr_len (t r : bytes) n :
  instr_len (t ++ r) 0 = Some n -> n <= len t -> instr_len t 0 = Some n.
Proof.
  unfold instr_len. intros (op & Ho & H)%bind_Some Hn. apply bind_Some in H as (x & Hx & H).
  apply bind_Some in H as (i & Hi & [= <-]). pose proof (imm_len_nonneg _ _ _ Hi).
  rewrite (shrink_get _ _ _ _ Ho) by lia. simpl.
  destruct (shrink_get_from _ _ _ _ Hx) as (y & Hy & -> & ?); [lia|].
  change (0 + 1) with 1 in *. rewrite Hy. simpl. by rewrite (shrink_imm_len _ _ _ _ Hi) by lia.
Qed.

Lemma shrink_skip_locals (t r : bytes) n :
  skip_locals (t ++ r) = Some n -> n <= len t -> skip_locals t = Some n.
Proof.
  unfold skip_locals. intros ([k c] & Hk & H)%bind_Some Hn.
  pose proof (read_u32_bounds _ _ _ Hk) as (_ & ? & ?).
  pose proof H as H'. apply (skip_vector_bounds _ _ (skip_local_bounds _)) in H'; [|lia].
  rewrite (shrink_read_u32 _ _ _ _ Hk) by lia.
  eapply (shrink_for_count t r skip_local); eauto using skip_local_bounds, shrink_skip_local. lia.
Qed.

Lemma skip_locals_app (t ext : bytes) n : skip_locals t = Some n -> skip_locals (t ++ ext) = Some n.
Proof.
  unfold skip_locals. intros ([k c] & Hk & H)%bind_Some. rewrite (stable_read_u32 _ ext _ Hk).
  exact (stable_for_count k skip_local c t ext n (fun o m => stable_skip_local o t ext m) H).
Qed.

Lemma skip_locals_bounds d n : skip_locals d = Some n -> 1 <= n <= len d.
Proof.
  unfold skip_locals. intros ([k c] & Hk & H)%bind_Some.
  pose proof (read_u32_bounds _ _ _ Hk) as (_ & ? & ?).
  apply (skip_vector_bounds _ _ (skip_local_bounds _)) in H; lia.
Qed.

(** ** Bodies as lists of instructions *)

(** Bytes that are exactly one instruction. *)
Definition complete (t : bytes) : Prop := instr_len t 0 = Some (len t).

#[global] Instance complete_dec t : Decision (complete t).
Proof. unfold complete. apply _. Defined.

Fixpoint spans_at (p : Z) (ts : list bytes) : list (Z * Z) :=
  match ts with [] => [] | t :: ts => (p, len t) :: spans_at (p + len t) ts end.

(** [decodes body locals ts]: the body is the locals header [locals] followed by
    the instructions [ts]. *)
Record decodes (body locals : bytes) (ts : list bytes) : Prop := {
  dec_bytes : body = locals ++ mjoin ts;
  dec_locals : skip_locals body = Some (len locals);
  dec_complete : Forall complete ts;
}.

Lemma complete_cons op imm : complete (op :: imm) <-> imm_len op imm = Some (len imm).
Proof.
  unfold complete, instr_len. change (get (op :: imm) 0) with (Some op). cbn [mbind option_bind].
  rewrite get_from_eq by (rewrite len_cons; pose proof (len_nonneg imm); lia).
  change (drop (Z.to_nat (0 + 1)) (op :: imm)) with (drop 0 imm). rewrite drop_0, len_cons.
  cbn [mbind option_bind]. destruct (imm_len op imm) as [i|]; cbn [mbind option_bind]; [|done].
  split; intros [= H]; f_equal; lia.
Qed.

Lemma complete_ext t ext : complete t -> instr_len (t ++ ext) 0 = Some (len t).
Proof. apply instr_len_app_l. Qed.

Lemma complete_pos t : complete t -> 1 <= len t.
Proof. intros H. apply instr_len_bounds in H. lia. Qed.

Lemma boundaries_join pre ts : Forall complete ts ->
  boundaries (pre ++ mjoin ts) (len pre) (spans_at (len pre) ts) (len (pre ++ mjoin ts)).
Proof.
  intros H. revert pre. induction H as [|t ts Ht _ IH]; intros pre; simpl.
  - rewrite app_nil_r. constructor.
  - constructor.
    + rewrite <- (Z.add_0_r (len pre)), instr_len_app_r by lia. by apply complete_ext.
    + specialize (IH (pre ++ t)). by rewrite len_app, <- app_assoc in IH.
Qed.

Lemma walk_join pre ts : Forall complete ts ->
  walk (pre ++ mjoin ts) (len pre) = Some (spans_at (len pre) ts).
Proof.
  intros H. pose proof (boundaries_join pre ts H) as Hb. set (body := pre ++ mjoin ts) in *.
  assert (Hend : forall q, len body <= q -> instr_len body q = None).
  { intros q Hq. destruct (instr_len body q) eqn:E; [|done]. apply instr_len_bounds in E. lia. }
  destruct (walk_spec body (len pre) (len_nonneg _)) as (l & q & Hl & -> & Hq).
  assert (Hqn : instr_len body q = None).
  { destruct (Z.lt_ge_cases q (len body)); [by apply Hq|by apply Hend]. }
  destruct (boundaries_det _ _ _ _ _ _ Hl Hb Hqn (Hend _ (Z.le_refl _))) as [-> ->].
  by rewrite bool_decide_eq_false_2 by lia.
Qed.

(** A body whose instructions end with the buffer decodes as the instructions
    the walk visits. *)
Lemma boundaries_decode body p l q : boundaries body p l q -> 0 <= p -> q = len body ->
  exists pre ts, body = pre ++ mjoin ts /\ len pre = p /\ Forall complete ts /\ l = spans_at p ts.
Proof.
  induction 1 as [p|p n l q Hn Hb IH]; intros Hp Hq.
  - exists body, []. simpl. rewrite app_nil_r. subst. by repeat split.
  - pose proof (instr_len_bounds _ _ _ Hn) as [? ?]. pose proof (boundaries_mono _ _ _ _ Hb).
    destruct IH as (pre & ts & Hbody & Hpre & Hts & ->); [lia|done|].
    destruct (split_at pre p n) as (a & t & z & Hsplit & Ha & Ht); [lia..|].
    assert (z = []) as ->.
    { apply len_0_inv. subst pre. rewrite !len_app in Hpre. pose proof (len_nonneg z). lia. }
    rewrite app_nil_r in Hsplit. exists a, (t :: ts). simpl.
    assert (Hc : complete t).
    { unfold complete. rewrite Hbody, Hsplit, <- app_assoc in Hn. rewrite <- Ha, <- (Z.add_0_r (len a)) in Hn.
      rewrite instr_len_app_r in Hn by lia. rewrite Ht. by eapply shrink_instr_len; [exact Hn|lia]. }
    split_and!; [by rewrite Hbody, Hsplit, <- app_assoc|done|by constructor|by rewrite Ht].
Qed.

(** ** Reading an instruction through its span *)

(** Bytes meant to be one instruction, and its opcode byte. *)
Abbreviation token := bytes.

Definition opcode (t : token) : Z := default 0 (head t).

Section reading.
Context (body pre : bytes) (t : token) (rest : bytes).
Context (Hbody : body = pre ++ t ++ rest) (Ht : complete t).

Lemma read_opcode : index body (len pre) = Ret (opcode t).
Proof using Hbody Ht.
  pose proof (complete_pos _ Ht). subst body. destruct t as [|op imm]; [done|].
  by apply index_app_cons.
Qed.

Lemma read_immediate : slice body (len pre + 1) (len pre + len t) = Ret (tl t).
Proof using Hbody Ht.
  pose proof (complete_pos _ Ht). subst body. destruct t as [|op imm]; [done|]. simpl.
  replace (pre ++ op :: imm ++ rest) with ((pre ++ [op]) ++ imm ++ rest) by by rewrite <- app_assoc.
  replace (len pre + 1) with (len (pre ++ [op])) by by rewrite len_app.
  replace (len pre + len (op :: imm)) with (len (pre ++ [op]) + len imm)
    by (rewrite len_app, !len_cons, len_nil; lia).
  apply slice_app.
Qed.
End reading.
