(* ===== verification/WasmSem.v ===== *)
(** An operational semantics of WebAssembly function bodies, the specification
    the rewriting passes are judged against.  It is a small-step machine over
    the list of instructions of a body, each instruction given by its bytes.
    Control flow, [i32.const] and the i32 operators without traps are executed
    here; everything else (memory, calls, locals, floats...) is a parameter, so
    a theorem about the machine holds whatever those instructions do. *)
From S2P Require Import Prelude Leb128 Opcode.
From S2P Require Export Tokens.

(** The value of an [i32.const], as the signed integer encoded. *)
Definition const_value (t : token) : option Z :=
  match t with
  | op :: imm => if op =? 0x41 then fst <$> read_i32 imm else None
  | [] => None
  end.

(** The i32 operators, on operands in their unsigned representation. *)
Definition i32_binop (op a b : Z) : option Z :=
  if negb (in_range 0 (2 ^ 32 - 1) a && in_range 0 (2 ^ 32 - 1) b) then None
  else if op =? 0x6A then Some (u32 (a + b))
  else if op =? 0x6B then Some (u32 (a - b))
  else if op =? 0x6C then Some (u32 (a * b))
  else if op =? 0x71 then Some (Z.land a b)
  else if op =? 0x72 then Some (Z.lor a b)
  else if op =? 0x73 then Some (Z.lxor a b)
  else if op =? 0x74 then Some (u32 (a * 2 ^ (b mod 32)))
  else if op =? 0x75 then Some (u32 (i32 a / 2 ^ (b mod 32)))
  else if op =? 0x76 then Some (a / 2 ^ (b mod 32))
  else None.

Definition is_i32_binop (op : Z) : bool := match i32_binop op 0 0 with Some _ => true | None => false end.

(** Every instruction but the structured control instructions. *)
Definition straight (t : token) : bool :=
  negb (one_of [0x00; 0x02; 0x03; 0x04; 0x05; 0x0B; 0x0C; 0x0D; 0x0E; 0x0F] (opcode t)).

Section machine.
(** The values other than [i32], and the state outside the operand stack. *)
Context {Val St : Type}.

Inductive value := I32 (w : Z) | Other (v : Val).

(** What one instruction outside the machine's own fragment does to the state
    and the operand stack: stuck (ill-typed), a trap, a new state and stack, or
    a branch to a label ([br_on_null] and the like). *)
Inductive effect :=
| Stuck | Trap | Done (s : St) (stk : list value) | Jump (label : nat) (s : St) (stk : list value).

(** The instructions outside the fragment, the arities of a block type, the
    label a [br_table] picks, and the number of results of the function. *)
Context (prim : token -> St -> list value -> effect).
Context (arity : token -> option (nat * nat)).
Context (table_label : token -> Z -> option nat).
Context (results : nat).

(** An open block: where a branch to its label continues, how many values it
    carries, the number of results of its fall-through, and the stack below. *)
Record frame := mkFrame {
  fr_target : list token; fr_loop : bool; fr_branch : nat; fr_results : nat; fr_base : list value
}.

Record config := mkConfig {
  cf_code : list token; cf_stack : list value; cf_frames : list frame; cf_state : St
}.

Inductive next := Next (c : config) | Halt (s : St) (stk : list value) | Trapped | StuckAt.

(** The code after the [end] that closes the current block. *)
Fixpoint after_end (depth : nat) (code : list token) : option (list token) :=
  match code with
  | [] => None
  | t :: code =>
      if in_range 0x02 0x04 (opcode t) then after_end (S depth) code
      else if opcode t =? 0x0B then
        match depth with O => Some code | S d => after_end d code end
      else after_end depth code
  end.

(** The [else] arm of the current [if] ([true]) or the code after its [end]. *)
Fixpoint after_then (depth : nat) (code : list token) : option (bool * list token) :=
  match code with
  | [] => None
  | t :: code =>
      if in_range 0x02 0x04 (opcode t) then after_then (S depth) code
      else if opcode t =? 0x0B then
        match depth with O => Some (false, code) | S d => after_then d code end
      else if (opcode t =? 0x05) && (depth =? 0)%nat then Some (true, code)
      else after_then depth code
  end.

(** [take n] of a stack that has at least [n] values. *)
Definition top (n : nat) (stk : list value) : option (list value) :=
  if (n <=? length stk)%nat then Some (take n stk) else None.

Definition of_option {A} (o : option A) (k : A -> next) : next :=
  match o with Some a => k a | None => StuckAt end.

(** Enter a block: the operands move above a fresh base. *)
Definition enter (t : token) (target : list token) (is_loop : bool) (body : list token)
    (c : config) (stk : list value) : next :=
  of_option (arity t) (fun '(n_in, n_out) =>
  of_option (top n_in stk) (fun args =>
  Next (mkConfig body args
          (mkFrame target is_loop (if is_loop then n_in else n_out) n_out (drop n_in stk)
             :: cf_frames c) (cf_state c)))).

(** A stack of [n] values. *)
Definition exactly (n : nat) (stk : list value) : option (list value) :=
  if (length stk =? n)%nat then Some stk else None.

(** Leave the current block by its [end]: validation makes its stack hold the
    results and nothing else. *)
Definition leave (code : list token) (c : config) : next :=
  match cf_frames c with
  | [] => of_option (exactly results (cf_stack c)) (fun r => Halt (cf_state c) r)
  | f :: fs =>
      of_option (exactly (fr_results f) (cf_stack c)) (fun r =>
      Next (mkConfig code (r ++ fr_base f) fs (cf_state c)))
  end.

Definition branch (label : nat) (stk : list value) (c : config) : next :=
  match drop label (cf_frames c) with
  | [] =>
      if (label =? length (cf_frames c))%nat
      then of_option (top results stk) (fun r => Halt (cf_state c) r) else StuckAt
  | f :: fs =>
      of_option (top (fr_branch f) stk) (fun args =>
      if fr_loop f then Next (mkConfig (fr_target f) args (f :: fs) (cf_state c))
      else Next (mkConfig (fr_target f) (args ++ fr_base f) fs (cf_state c)))
  end.

Definition label_of (t : token) : option nat := (fun p => Z.to_nat (fst p)) <$> read_u32 (tail t).

Definition control (t : token) (code : list token) (c : config) : option next :=
  let op := opcode t in
  let stk := cf_stack c in
  if op =? 0x00 then Some Trapped
  else if op =? 0x02 then
    Some (of_option (after_end 0 code) (fun k => enter t k false code c stk))
  else if op =? 0x03 then Some (enter t code true code c stk)
  else if op =? 0x04 then
    Some (match stk with
          | I32 w :: stk =>
              of_option (after_end 0 code) (fun k =>
              if negb (w =? 0) then enter t k false code c stk
              else of_option (after_then 0 code) (fun '(has_else, arm) =>
                   if has_else : bool then enter t k false arm c stk
                   else Next (mkConfig k stk (cf_frames c) (cf_state c))))
          | _ => StuckAt
          end)
  else if op =? 0x05 then Some (of_option (after_end 0 code) (fun k => leave k c))
  else if op =? 0x0B then Some (leave code c)
  else if op =? 0x0C then Some (of_option (label_of t) (fun l => branch l stk c))
  else if op =? 0x0D then
    Some (match stk with
          | I32 w :: stk =>
              if w =? 0 then Next (mkConfig code stk (cf_frames c) (cf_state c))
              else of_option (label_of t) (fun l => branch l stk c)
          | _ => StuckAt
          end)
  else if op =? 0x0E then
    Some (match stk with
          | I32 w :: stk => of_option (table_label t w) (fun l => branch l stk c)
          | _ => StuckAt
          end)
  else if op =? 0x0F then Some (of_option (top results stk) (fun r => Halt (cf_state c) r))
  else None.

Definition plain (t : token) (s : St) (stk : list value) : effect :=
  if opcode t =? 0x41 then
    match const_value t with Some v => Done s (I32 (u32 v) :: stk) | None => Stuck end
  else if is_i32_binop (opcode t) then
    match stk with
    | I32 b :: I32 a :: stk =>
        match i32_binop (opcode t) a b with Some r => Done s (I32 r :: stk) | None => Stuck end
    | _ => Stuck
    end
  else prim t s stk.

Definition step (c : config) : next :=
  match cf_code c with
  | [] => StuckAt
  | t :: code =>
      match control t code c with
      | Some n => n
      | None =>
          match plain t (cf_state c) (cf_stack c) with
          | Stuck => StuckAt
          | Trap => Trapped
          | Done s stk => Next (mkConfig code stk (cf_frames c) s)
          | Jump l s stk => branch l stk (mkConfig code stk (cf_frames c) s)
          end
      end
  end.

(** The result of a run: [None] when the fuel is exhausted. *)
Fixpoint run (fuel : nat) (c : config) : option next :=
  match fuel with
  | O => None
  | S fuel => match step c with Next c => run fuel c | r => Some r end
  end.

Lemma run_next fuel c c' r : step c = Next c' -> run fuel c' = Some r -> run (S fuel) c = Some r.
Proof. simpl. by intros ->. Qed.

Lemma control_straight t code c : straight t = true -> control t code c = None.
Proof.
  unfold straight, control, one_of. simpl. intros H. rewrite !negb_orb in H.
  repeat (apply andb_prop in H as [?%negb_true_iff H]).
  repeat match goal with E : (opcode t =? _) = false |- _ => rewrite E; clear E end. done.
Qed.

(** One step at each structured instruction. *)
Section structured.
Context (t : token) (code : list token) (stk : list value) (fs : list frame) (s : St).
Abbreviation here := (mkConfig (t :: code) stk fs s).

Lemma step_block : opcode t = 0x02 ->
  step here = of_option (after_end 0 code) (fun k => enter t k false code here stk).
Proof using. intros E. unfold step, control. cbn [cf_code cf_stack]. by rewrite E. Qed.

Lemma step_loop : opcode t = 0x03 -> step here = enter t code true code here stk.
Proof using. intros E. unfold step, control. cbn [cf_code cf_stack]. by rewrite E. Qed.

Lemma step_if : opcode t = 0x04 ->
  step here = match stk with
              | I32 w :: stk =>
                  of_option (after_end 0 code) (fun k =>
                  if negb (w =? 0) then enter t k false code here stk
                  else of_option (after_then 0 code) (fun '(has_else, arm) =>
                       if has_else : bool then enter t k false arm here stk
                       else Next (mkConfig k stk fs s)))
              | _ => StuckAt
              end.
Proof using. intros E. unfold step, control. cbn [cf_code cf_stack]. by rewrite E. Qed.

Lemma step_else : opcode t = 0x05 -> step here = of_option (after_end 0 code) (fun k => leave k here).
Proof using. intros E. unfold step, control. cbn [cf_code cf_stack]. by rewrite E. Qed.

Lemma step_end : opcode t = 0x0B -> step here = leave code here.
Proof using. intros E. unfold step, control. cbn [cf_code cf_stack]. by rewrite E. Qed.

(** A block without parameters and results. *)
Lemma enter_void c k tgt is_loop body stk0 : arity t = Some (0, 0)%nat ->
  enter t tgt is_loop body c stk0 = Next (mkConfig body [] (mkFrame tgt is_loop 0 0 stk0 :: cf_frames c) (cf_state c))
  /\ leave k (mkConfig body [] (mkFrame tgt is_loop 0 0 stk0 :: fs) s) = Next (mkConfig k stk0 fs s).
Proof using. intros H. unfold enter, leave. rewrite H. by destruct is_loop. Qed.
End structured.

(** Stack and frames are the only part of a configuration [control] looks at. *)
Lemma control_code t code c k : control t code (mkConfig k (cf_stack c) (cf_frames c) (cf_state c))
  = control t code c.
Proof. by destruct c. Qed.
End machine.

Arguments I32 {Val} w.
Arguments Other {Val} v.
