(* ===== verification/Peephole.v ===== *)
(** Soundness of peephole rewriting on the machine of [WasmSem]: replacing
    straight-line arithmetic fragments of a body, at any number of places and
    at any nesting depth, by fragments that compute the same stack preserves
    every run that does not get stuck. *)
From S2P Require Import Prelude Leb128 WasmSem.

Definition terminator (t : token) : bool := one_of [0x00; 0x0C; 0x0E; 0x0F] (opcode t).

(** The block nesting after [x], starting from [n] open blocks; [None] when [x]
    closes or continues (with [else]) a block it did not open. *)
Fixpoint nest (n : nat) (x : list token) : option nat :=
  match x with
  | [] => Some n
  | t :: x =>
      if in_range 0x02 0x04 (opcode t) then nest (S n) x
      else if opcode t =? 0x0B then match n with O => None | S n => nest n x end
      else if opcode t =? 0x05 then match n with O => None | S _ => nest n x end
      else nest n x
  end.
Definition balanced (x : list token) : Prop := nest 0 x = Some 0%nat.

(** [rewrites R p q]: [q] is [p] with disjoint fragments rewritten by [R] and
    dead code behind terminators dropped. *)
Inductive rewrites (R : list token -> list token -> Prop) : list token -> list token -> Prop :=
| rewrites_nil : rewrites R [] []
| rewrites_keep t p q : rewrites R p q -> rewrites R (t :: p) (t :: q)
| rewrites_here x y p q : R x y -> rewrites R p q -> rewrites R (x ++ p) (y ++ q)
| rewrites_dead t x p q :
    terminator t = true -> balanced x -> rewrites R p q -> rewrites R (t :: x ++ p) (t :: q).

Lemma rewrites_refl R p : rewrites R p p.
Proof. induction p; by constructor. Qed.

(** ** Skipping code *)

Lemma straight_not_block t : straight t = true ->
  in_range 0x02 0x04 (opcode t) = false /\ (opcode t =? 0x0B) = false /\ (opcode t =? 0x05) = false.
Proof.
  unfold straight, one_of, in_range. simpl. intros H. rewrite !negb_orb in H. lia.
Qed.

Lemma nest_straight n x : Forall (fun t => straight t = true) x -> nest n x = Some n.
Proof.
  induction 1 as [|t x Ht _ IH]; [done|]. simpl.
  destruct (straight_not_block t Ht) as (-> & -> & ->). done.
Qed.

Lemma skip_nest x : forall n m d p, nest n x = Some m ->
  after_end (n + d) (x ++ p) = after_end (m + d) p /\
  after_then (n + d) (x ++ p) = after_then (m + d) p.
Proof.
  induction x as [|t x IH]; intros n m d p; cbn [nest app after_end after_then].
  { by intros [= ->]. }
  destruct (in_range 2 4 (opcode t)); [apply (IH (S n))|].
  destruct (opcode t =? 11).
  { destruct n as [|n]; [done|]. apply (IH n). }
  destruct (opcode t =? 5); [|apply IH].
  destruct n as [|n]; [done|]. apply (IH (S n)).
Qed.

Lemma skip_balanced x d p : balanced x ->
  after_end d (x ++ p) = after_end d p /\ after_then d (x ++ p) = after_then d p.
Proof. apply (skip_nest x 0 0 d p). Qed.

Lemma terminator_cases t : terminator t = true ->
  opcode t = 0x00 \/ opcode t = 0x0C \/ opcode t = 0x0E \/ opcode t = 0x0F.
Proof. unfold terminator, one_of. simpl. lia. Qed.

Lemma skip_terminator t d p : terminator t = true ->
  after_end d (t :: p) = after_end d p /\ after_then d (t :: p) = after_then d p.
Proof.
  intros [E|[E|[E|E]]]%terminator_cases; cbn [after_end after_then]; by rewrite E.
Qed.

(** ** Structured bodies *)

(** [closes d ts]: with [d] blocks open inside the function, [ts] closes them all
    and ends with the [end] of the function itself. *)
Fixpoint closes (d : nat) (ts : list token) : bool :=
  match ts with
  | [] => false
  | t :: ts =>
      if in_range 0x02 0x04 (opcode t) then closes (S d) ts
      else if opcode t =? 0x0B then
        match d with O => match ts with [] => true | _ => false end | S d => closes d ts end
      else closes d ts
  end.

Lemma closes_nest x : forall n m d z, nest n x = Some m -> closes (n + d) (x ++ z) = closes (m + d) z.
Proof.
  induction x as [|t x IH]; intros n m d z; cbn [nest app closes]; [by intros [= ->]|].
  destruct (in_range 2 4 (opcode t)); [apply (IH (S n))|].
  destruct (opcode t =? 11).
  { destruct n as [|n]; [done|]. apply (IH n). }
  destruct (opcode t =? 5); [|apply IH]. destruct n as [|n]; [done|]. apply (IH (S n)).
Qed.

Lemma closes_balanced x d z : balanced x -> closes d (x ++ z) = closes d z.
Proof. apply (closes_nest x 0 0 d z). Qed.

Lemma rewrites_nil_inv R q : (forall x y, R x y -> x <> []) -> rewrites R [] q -> q = [].
Proof.
  intros HR H. remember [] as p eqn:Hp. destruct H as [| |x y p q Hxy _|]; [done..| |done].
  destruct x; [by apply HR in Hxy|done].
Qed.

(** Rewriting keeps the structure closed. *)
Lemma closes_rewrites R p q : (forall x y, R x y -> balanced x /\ balanced y) ->
  (forall x y, R x y -> x <> []) -> rewrites R p q -> forall d, closes d p = true -> closes d q = true.
Proof.
  intros HR Hne. induction 1 as [|t p q H IH|x y p q Hxy _ IH|t x p q Ht Hx _ IH]; intros d; [done| | |].
  - cbn [closes]. destruct (in_range 2 4 (opcode t)); [apply IH|]. destruct (opcode t =? 0x0B); [|apply IH].
    destruct d as [|d]; [|apply IH]. destruct p; [|done]. by apply rewrites_nil_inv in H as ->.
  - destruct (HR _ _ Hxy) as [Hx Hy]. rewrite !closes_balanced by done. apply IH.
  - assert (Hop : forall k, closes d (t :: k) = closes d k).
    { intros k. cbn [closes]. apply terminator_cases in Ht as [E|[E|[E|E]]]; by rewrite E. }
    rewrite !Hop, closes_balanced by done. apply IH.
Qed.

Lemma len_join_cons (t : token) ts : len (mjoin (t :: ts)) = len t + len (mjoin ts).
Proof. apply len_app. Qed.

Lemma len_join_nil : len (mjoin (@nil token)) = 0.
Proof. done. Qed.

Lemma rewrites_Forall (P : token -> Prop) R p q : (forall x y, R x y -> Forall P x -> Forall P y) ->
  rewrites R p q -> Forall P p -> Forall P q.
Proof.
  intros HR. induction 1 as [|t p q _ IH|x y p q Hxy _ IH|t x p q _ _ _ IH]; intros Hp; [done|..].
  - apply Forall_cons in Hp as [Ht Hp]. constructor; auto.
  - apply Forall_app in Hp as [Hx Hp]. apply Forall_app. split; [by eapply HR|auto].
  - apply Forall_cons in Hp as [Ht [_ Hp]%Forall_app]. constructor; auto.
Qed.

(** Rules that at most double their fragment at most double the code. *)
Definition doubles (x y : list token) : Prop := Forall complete x -> len (mjoin y) <= 2 * len (mjoin x).

Lemma rewrites_len R p q : (forall x y, R x y -> doubles x y) -> rewrites R p q -> doubles p q.
Proof.
  intros HR. induction 1 as [|t p q _ IH|x y p q Hxy _ IH|t x p q _ _ _ IH]; intros Hp; [done| | |].
  - apply Forall_cons in Hp as [Ht Hp]. specialize (IH Hp). pose proof (len_nonneg t).
    rewrite !len_join_cons. lia.
  - apply Forall_app in Hp as [Hx Hp]. specialize (IH Hp). apply HR in Hxy. specialize (Hxy Hx).
    rewrite !join_app, !len_app. lia.
  - apply Forall_cons in Hp as [Ht [Hx Hp]%Forall_app]. specialize (IH Hp).
    pose proof (len_nonneg t). pose proof (len_nonneg (mjoin x)).
    rewrite !len_join_cons, join_app, len_app. lia.
Qed.

Section rewriting.
Context {Val St : Type}.
Context (prim : token -> St -> list (@value Val) -> @effect Val St).
Context (arity : token -> option (nat * nat)).
Context (table_label : token -> Z -> option nat).
Context (results : nat).

Abbreviation config := (@config Val St).
Abbreviation step := (step prim arity table_label results).
Abbreviation run := (run prim arity table_label results).
Abbreviation control := (control arity table_label results).
Abbreviation plain := (plain prim).

(** [y] does what [x] does: a run through [x] reaches the code behind it, and [y]
    reaches the code behind it with the same stack and state, no later; or the
    run ends inside [x], and one through [y] ends alike whatever is around it. *)
Definition refines_fragment (x y : list token) : Prop :=
  forall n p stk fs s r, run n (mkConfig (x ++ p) stk fs s) = Some r -> r <> StuckAt ->
  (exists m k s' stk', n = (k + m)%nat /\ (0 < k)%nat /\ run m (mkConfig p stk' fs s') = Some r /\
    forall q gs, exists j, (j <= k)%nat /\ forall m' r',
      run m' (mkConfig q stk' gs s') = Some r' -> run (j + m') (mkConfig (y ++ q) stk gs s) = Some r') \/
  (forall q gs, exists j, (j <= n)%nat /\ run j (mkConfig (y ++ q) stk gs s) = Some r).

Context (R : list token -> list token -> Prop).
Context (R_balanced : forall x y, R x y -> balanced x /\ balanced y).
Context (R_refines : forall x y, R x y -> refines_fragment x y).

Abbreviation rw := (rewrites R).

Lemma after_end_rewrites p q : rw p q -> forall d k, after_end d p = Some k ->
  exists k', after_end d q = Some k' /\ rw k k'.
Proof using R_balanced.
  induction 1 as [|t p q H IH|x y p q Hxy H IH|t x p q Ht Hx H IH]; intros d k; [done|..].
  - simpl. repeat case_match; eauto. intros [= <-]. eauto.
  - destruct (R_balanced _ _ Hxy) as [Hx Hy].
    rewrite (proj1 (skip_balanced x d p Hx)), (proj1 (skip_balanced y d q Hy)). apply IH.
  - rewrite (proj1 (skip_terminator t d _ Ht)), (proj1 (skip_terminator t d q Ht)).
    rewrite (proj1 (skip_balanced x d p Hx)). apply IH.
Qed.

Lemma after_then_rewrites p q : rw p q -> forall d b k, after_then d p = Some (b, k) ->
  exists k', after_then d q = Some (b, k') /\ rw k k'.
Proof using R_balanced.
  induction 1 as [|t p q H IH|x y p q Hxy H IH|t x p q Ht Hx H IH]; intros d b k; [done|..].
  - simpl. repeat case_match; eauto; intros [= <- <-]; eauto.
  - destruct (R_balanced _ _ Hxy) as [Hx Hy].
    rewrite (proj2 (skip_balanced x d p Hx)), (proj2 (skip_balanced y d q Hy)). apply IH.
  - rewrite (proj2 (skip_terminator t d _ Ht)), (proj2 (skip_terminator t d q Ht)).
    rewrite (proj2 (skip_balanced x d p Hx)). apply IH.
Qed.

(** ** Related configurations *)

Definition frame_rel (f g : @frame Val) : Prop :=
  rw (fr_target f) (fr_target g) /\ fr_loop f = fr_loop g /\ fr_branch f = fr_branch g /\
  fr_results f = fr_results g /\ fr_base f = fr_base g.

Record config_rel (c d : config) : Prop := {
  rel_code : rw (cf_code c) (cf_code d);
  rel_stack : cf_stack c = cf_stack d;
  rel_frames : Forall2 frame_rel (cf_frames c) (cf_frames d);
  rel_state : cf_state c = cf_state d;
}.

Inductive next_rel : @next Val St -> @next Val St -> Prop :=
| next_next c d : config_rel c d -> next_rel (Next c) (Next d)
| next_halt s stk : next_rel (Halt s stk) (Halt s stk)
| next_trapped : next_rel Trapped Trapped
| next_stuck n : next_rel StuckAt n.
Local Hint Constructors next_rel : core.

Lemma of_option_rel {A B} (P : A -> B -> Prop) (o1 : option A) (o2 : option B) k1 k2 :
  (forall a, o1 = Some a -> exists b, o2 = Some b /\ P a b) ->
  (forall a b, P a b -> next_rel (k1 a) (k2 b)) ->
  next_rel (of_option o1 k1) (of_option o2 k2).
Proof.
  intros Ho Hk. destruct o1 as [a|]; simpl; [|done].
  destruct (Ho a eq_refl) as (b & -> & Hab). by apply Hk.
Qed.

Lemma of_option_same {A} (o : option A) (k1 k2 : A -> @next Val St) :
  (forall a, next_rel (k1 a) (k2 a)) -> next_rel (of_option o k1) (of_option o k2).
Proof. intros Hk. destruct o; simpl; auto. Qed.

Lemma enter_rel t k1 k2 b body1 body2 c d stk :
  rw k1 k2 -> rw body1 body2 -> config_rel c d ->
  next_rel (enter arity t k1 b body1 c stk) (enter arity t k2 b body2 d stk).
Proof.
  intros Hk Hb Hc. unfold enter. apply of_option_same. intros [n_in n_out].
  apply of_option_same. intros args. constructor. destruct Hc.
  constructor; simpl; [done..| |done]. constructor; [|done]. by repeat split.
Qed.

Lemma leave_rel k1 k2 c d : rw k1 k2 -> config_rel c d ->
  next_rel (leave results k1 c) (leave results k2 d).
Proof.
  intros Hk [Hcode Hstk Hfs Hs]. unfold leave. rewrite Hstk, Hs.
  destruct Hfs as [|f g fs gs (Ht & Hl & Hbr & Hr & Hbase) Hfs].
  - apply of_option_same. auto.
  - rewrite Hr, Hbase. apply of_option_same. intros r. by repeat constructor.
Qed.

Lemma branch_rel l stk c d : config_rel c d ->
  next_rel (branch results l stk c) (branch results l stk d).
Proof.
  intros [Hcode Hstk Hfs Hs]. unfold branch. rewrite Hs, (Forall2_length _ _ _ Hfs).
  pose proof (Forall2_drop _ _ _ l Hfs) as Hd.
  destruct Hd as [|f g fs gs Hfg Hd].
  - destruct (_ =? _)%nat; [|done]. apply of_option_same. auto.
  - pose proof Hfg as (Ht & Hl & Hbr & Hr & Hbase). rewrite Hl, Hbr, Hbase.
    apply of_option_same. intros args. destruct (fr_loop g); constructor; constructor; simpl; auto.
Qed.

Lemma control_rel t p q c d : rw p q -> config_rel c d ->
  match control t p c, control t q d with
  | Some n1, Some n2 => next_rel n1 n2
  | None, None => True
  | _, _ => False
  end.
Proof using R_balanced.
  intros Hpq Hcd. pose proof Hcd as [Hcode Hstk Hfs Hs]. unfold control. rewrite Hstk, Hs.
  assert (Hend : forall k, after_end 0 p = Some k -> exists k', after_end 0 q = Some k' /\ rw k k')
    by (intros; by eapply after_end_rewrites).
  repeat match goal with |- match (if ?b then _ else _) with _ => _ end => destruct b end; try done.
  - by eapply of_option_rel; [exact Hend|]; intros; apply enter_rel.
  - by apply enter_rel.
  - destruct (cf_stack d) as [|[w|] stk]; [done| |done].
    eapply of_option_rel; [exact Hend|]. intros k k' Hk. destruct (negb _); [by apply enter_rel|].
    eapply (of_option_rel (fun a b => fst a = fst b /\ rw (snd a) (snd b))).
    + intros [b arm] Ha. destruct (after_then_rewrites _ _ Hpq _ _ _ Ha) as (k2 & E & ?). eauto.
    + intros [b arm] [b' arm'] [Hb Harm]. simpl in Hb, Harm. subst b'.
      destruct b; [by apply enter_rel|]. by repeat constructor.
  - by eapply of_option_rel; [exact Hend|]; intros; apply leave_rel.
  - by apply leave_rel.
  - apply of_option_same. intros l. by apply branch_rel.
  - destruct (cf_stack d) as [|[w|] stk]; [done| |done]. destruct (w =? 0).
    + by repeat constructor.
    + apply of_option_same. intros l. by apply branch_rel.
  - destruct (cf_stack d) as [|[w|] stk]; [done| |done].
    apply of_option_same. intros l. by apply branch_rel.
  - apply of_option_same. auto.
Qed.

Lemma run_rel c d : next_rel (step c) (step d) -> forall n r,
  (forall c' d', config_rel c' d' -> run n c' = Some r -> exists m, (m <= n)%nat /\ run m d' = Some r) ->
  run (S n) c = Some r -> r <> StuckAt -> exists m, (m <= S n)%nat /\ run m d = Some r.
Proof.
  intros H n r IH Hr Hns. simpl in Hr. destruct (step c) as [c1| | |] eqn:E1;
    inversion H as [? d1 Hrel E' E2|? ? E' E2|E' E2|? E' E2]; subst;
    [|exists 1%nat; simpl; rewrite <- E2; (split; [lia|done]) ..|congruence].
  destruct (IH c1 d1 Hrel Hr) as (m & Hm & Hrun).
  exists (S m). split; [lia|]. by apply (run_next _ _ _ _ _ _ d1).
Qed.

(** The same instruction takes related configurations to related ones. *)
Lemma step_keep t p q stk fs gs s : rw p q -> Forall2 frame_rel fs gs ->
  next_rel (step (mkConfig (t :: p) stk fs s)) (step (mkConfig (t :: q) stk gs s)).
Proof using R_balanced.
  intros Hpq Hfs. unfold WasmSem.step. cbn [cf_code cf_stack cf_state cf_frames].
  pose proof (control_rel t p q (mkConfig (t :: p) stk fs s) (mkConfig (t :: q) stk gs s) Hpq) as H.
  specialize (H ltac:(by repeat constructor)).
  repeat case_match; auto; try done.
  - by repeat constructor.
  - by apply branch_rel.
Qed.

(** A terminator does not look at the code behind it. *)
Lemma control_terminator t p q (c : config) : terminator t = true -> control t p c = control t q c.
Proof.
  intros [E|[E|[E|E]]]%terminator_cases; unfold WasmSem.control; by rewrite E.
Qed.

Lemma terminator_control t p (c : config) : terminator t = true -> control t p c <> None.
Proof.
  intros [E|[E|[E|E]]]%terminator_cases; unfold WasmSem.control; by rewrite E.
Qed.

Lemma step_terminator t p q stk fs gs s : terminator t = true -> Forall2 frame_rel fs gs ->
  next_rel (step (mkConfig (t :: p) stk fs s)) (step (mkConfig (t :: q) stk gs s)).
Proof using R_balanced.
  intros Ht Hfs. unfold WasmSem.step. cbn [cf_code cf_stack cf_state cf_frames].
  pose proof (control_rel t [] [] (mkConfig [] stk fs s) (mkConfig [] stk gs s) (rewrites_nil R)) as H.
  specialize (H ltac:(by repeat constructor)).
  rewrite (control_terminator t p [] _ Ht), (control_terminator t q [] _ Ht).
  rewrite <- (control_code arity table_label results t [] (mkConfig (t :: p) stk fs s) []).
  rewrite <- (control_code arity table_label results t [] (mkConfig (t :: q) stk gs s) []).
  cbn [cf_stack cf_state cf_frames] in *.
  pose proof (terminator_control t [] (mkConfig [] stk fs s) Ht).
  destruct (control t [] (mkConfig [] stk fs s)), (control t [] (mkConfig [] stk gs s)); done.
Qed.

(** Every run that does not get stuck is reproduced, in at most as many steps. *)
Lemma rewrites_run n : forall c d r, config_rel c d -> run n c = Some r -> r <> StuckAt ->
  exists m, (m <= n)%nat /\ run m d = Some r.
Proof using R_balanced R_refines.
  induction n as [n IH] using lt_wf_ind. intros [p stk fs s] [q stk' gs s'] r [Hpq Hstk Hfs Hs] Hr Hns.
  simpl in *. subst stk' s'. destruct n as [|n]; [done|].
  destruct Hpq as [|t p q Hpq|x y p q Hxy Hpq|t x p q Ht Hx Hpq].
  - simpl in Hr. congruence.
  - eapply run_rel; [by apply step_keep| |exact Hr|done]. intros. eapply IH; eauto.
  - destruct (R_refines _ _ Hxy (S n) _ _ _ _ _ Hr Hns) as [(m & k & s1 & stk1 & Hn & Hk & Hrun & Hy)|Hend];
      [|apply Hend].
    destruct (IH m ltac:(lia) (mkConfig p stk1 fs s1) (mkConfig q stk1 gs s1) r) as (m' & Hm & Hrun');
      [by constructor|done..|].
    destruct (Hy q gs) as (j & Hj & Hyrun). exists (j + m')%nat. split; [lia|]. by apply Hyrun.
  - eapply run_rel; [by apply step_terminator| |exact Hr|done]. intros. eapply IH; eauto.
Qed.

(** ** Straight-line fragments *)

Fixpoint plains (ts : list token) (s : St) (stk : list (@value Val)) : @effect Val St :=
  match ts with
  | [] => Done s stk
  | t :: ts => match plain t s stk with Done s stk => plains ts s stk | r => r end
  end.

(** A fragment that computes a stack or gets stuck: no trap, no branch. *)
Definition quiet (x : list token) : Prop := forall s stk,
  match plains x s stk with Trap | Jump _ _ _ => False | _ => True end.

Lemma step_straight t p stk fs s : straight t = true ->
  step (mkConfig (t :: p) stk fs s) =
  match plain t s stk with
  | Stuck => StuckAt
  | Trap => Trapped
  | Done s stk => Next (mkConfig p stk fs s)
  | Jump l s stk => branch results l stk (mkConfig p stk fs s)
  end.
Proof.
  intros Ht. unfold WasmSem.step. cbn [cf_code cf_stack cf_state cf_frames].
  by rewrite (control_straight arity table_label results t p _ Ht).
Qed.

Lemma run_fragment x : Forall (fun t => straight t = true) x ->
  forall n p stk fs s r, match plains x s stk with Trap | Jump _ _ _ => False | _ => True end ->
  run n (mkConfig (x ++ p) stk fs s) = Some r -> r <> StuckAt ->
  exists m s' stk', n = (length x + m)%nat /\ plains x s stk = Done s' stk' /\
    run m (mkConfig p stk' fs s') = Some r.
Proof.
  induction 1 as [|t x Ht Hx IH]; intros n p stk fs s r Hq Hr Hns; [by exists n, s, stk|].
  destruct n as [|n]; [done|]. simpl in Hr, Hq |- *. rewrite step_straight in Hr by done.
  destruct (plain t s stk) as [| |s1 stk1|]; [congruence|done| |done].
  destruct (IH _ _ _ _ _ _ Hq Hr Hns) as (m & s' & stk' & -> & Hps & Hrun).
  by exists m, s', stk'.
Qed.

Lemma run_fragment_intro y : Forall (fun t => straight t = true) y ->
  forall m q stk fs s s' stk' r, plains y s stk = Done s' stk' ->
  run m (mkConfig q stk' fs s') = Some r ->
  run (length y + m) (mkConfig (y ++ q) stk fs s) = Some r.
Proof.
  induction 1 as [|t y Ht Hy IH]; intros m q stk fs s s' stk' r Hp Hr; simpl in *.
  - by injection Hp as -> ->.
  - rewrite step_straight by done. destruct (plain t s stk) as [| |s1 stk1|]; [done..| |done]. eauto.
Qed.

(** Quiet straight-line code can be replaced by shorter code that computes the
    same stacks. *)
Lemma straight_refines x y :
  Forall (fun t => straight t = true) x -> Forall (fun t => straight t = true) y ->
  x <> [] -> (length y <= length x)%nat -> quiet x ->
  (forall s stk s' stk', plains x s stk = Done s' stk' -> plains y s stk = Done s' stk') ->
  refines_fragment x y.
Proof.
  intros Hx Hy Hne Hlen Hq Hsound n p stk fs s r Hr Hns.
  destruct (run_fragment x Hx n p stk fs s r (Hq s stk) Hr Hns) as (m & s1 & stk1 & -> & Hps & Hrun).
  left. exists m, (length x), s1, stk1. split_and!; [done|destruct x; [done|simpl; lia]|done|].
  intros q gs. exists (length y). split; [done|]. intros m' r' Hm'.
  by eapply run_fragment_intro; [|apply Hsound|].
Qed.
(** ** Taking steps *)

Lemma run_step c c' n : step c = Next c' -> run (S n) c = run n c'.
Proof using. simpl. by intros ->. Qed.

(** The first steps of a run that does not get stuck. *)
Lemma one_step c c1 n r : step c = Next c1 -> run n c = Some r ->
  exists m, n = (1 + m)%nat /\ run m c1 = Some r.
Proof using.
  intros H1 Hr. destruct n as [|n]; [done|]. rewrite (run_step _ _ _ H1) in Hr. by exists n.
Qed.

Lemma two_steps c c1 c2 n r : step c = Next c1 -> step c1 = Next c2 -> run n c = Some r ->
  exists m, n = (2 + m)%nat /\ run m c2 = Some r.
Proof using.
  intros H1 H2 Hr. destruct (one_step _ _ _ _ H1 Hr) as (m & -> & Hm).
  destruct (one_step _ _ _ _ H2 Hm) as (m' & -> & Hm'). by exists m'.
Qed.
End rewriting.
