(* ===== verification/WasmSpec.v ===== *)
(** The specification of the WebAssembly instructions that the passes rewrite,
    as hypotheses on the primitives of the machine of [WasmSem], and a concrete
    machine that meets them. *)
From S2P Require Import Prelude Leb128 Opcode WasmSem MutModule.

(** The index of a [local.*] instruction. *)
Definition local_of (t : token) : option Z := fst <$> read_u32 (tl t).

(** Not [br_on_null], [br_on_non_null] or the GC prefix, whose casts branch: the
    only instructions besides the machine's own that leave a block. *)
Definition no_ref_branch (t : token) : bool := negb (one_of [0xD5; 0xD6; 0xFB] (opcode t)).

Definition b2z (b : bool) : Z := if b then 1 else 0.

Section spec.
Context {Val St : Type}.
Abbreviation value := (@value Val).
Context (prim : token -> St -> list value -> @effect Val St).
Context (arity : token -> option (nat * nat)).
(** The locals of the state, and the value of [i64.const 0]. *)
Context (lget : St -> Z -> option value) (lset : St -> Z -> value -> option St) (zero64 : value).

(** [nop], [drop], the producers, comparisons with zero, and the locals. *)
Record wasm_instructions : Prop := {
  wi_void op : arity [op; 0x40] = Some (0, 0)%nat;
  wi_nop t s stk : opcode t = 0x01 -> prim t s stk = Done s stk;
  wi_drop t s stk : opcode t = 0x1A ->
    prim t s stk = match stk with _ :: stk => Done s stk | [] => Stuck end;
  wi_eqz t s stk : opcode t = 0x45 ->
    prim t s stk = match stk with I32 a :: stk => Done s (I32 (b2z (a =? 0)) :: stk) | _ => Stuck end;
  wi_eq t s stk : opcode t = 0x46 ->
    prim t s stk = match stk with
                   | I32 b :: I32 a :: stk => Done s (I32 (b2z (a =? b)) :: stk)
                   | _ => Stuck
                   end;
  wi_const64 s stk : prim [0x42; 0] s stk = Done s (zero64 :: stk);
  wi_eqz64 t u s stk : opcode t = 0x51 -> opcode u = 0x50 ->
    prim t s (zero64 :: stk) = prim u s stk /\
    (prim u s stk = Stuck \/ exists stk', prim u s stk = Done s stk');
  wi_producer t s stk : one_of [0x20; 0x23; 0x42; 0x43; 0x44; 0xD0; 0xD2] (opcode t) = true ->
    prim t s stk = Stuck \/ exists v, prim t s stk = Done s (v :: stk);
  wi_local_get t a s stk : opcode t = 0x20 -> local_of t = Some a ->
    prim t s stk = match lget s a with Some v => Done s (v :: stk) | None => Stuck end;
  wi_local_set t a s stk : opcode t = 0x21 -> local_of t = Some a ->
    prim t s stk = match stk with
                   | v :: stk => match lset s a v with Some s => Done s stk | None => Stuck end
                   | [] => Stuck
                   end;
  wi_local_tee t a s stk : opcode t = 0x22 -> local_of t = Some a ->
    prim t s stk = match stk with
                   | v :: stk => match lset s a v with Some s => Done s (v :: stk) | None => Stuck end
                   | [] => Stuck
                   end;
  wi_get_set s a v : lget s a = Some v -> lset s a v = Some s;
  wi_set_get s a v s' : lset s a v = Some s' -> lget s' a = Some v;
}.

(** [prim t s stk] on a stack with more values below. *)
Definition below (ext : list value) (e : @effect Val St) : @effect Val St :=
  match e with
  | Done s stk => Done s (stk ++ ext)
  | Jump l s stk => Jump l s (stk ++ ext)
  | e => e
  end.

(** Instructions work on the top of the stack, and outside the machine's own
    control instructions only [br_on_null], [br_on_non_null] and the casts of the
    GC prefix branch. *)
Record wasm_stack : Prop := {
  ws_frame t s stk ext : prim t s stk <> Stuck -> prim t s (stk ++ ext) = below ext (prim t s stk);
  ws_jump t s stk l s' stk' : prim t s stk = Jump l s' stk' -> one_of [0xD5; 0xD6; 0xFB] (opcode t) = true;
}.
End spec.
Arguments wi_void {Val St prim arity lget lset zero64} _.
Arguments wi_nop {Val St prim arity lget lset zero64} _.
Arguments wi_drop {Val St prim arity lget lset zero64} _.
Arguments wi_eqz {Val St prim arity lget lset zero64} _.
Arguments wi_eq {Val St prim arity lget lset zero64} _.
Arguments wi_const64 {Val St prim arity lget lset zero64} _.
Arguments wi_eqz64 {Val St prim arity lget lset zero64} _.
Arguments wi_producer {Val St prim arity lget lset zero64} _.
Arguments wi_local_get {Val St prim arity lget lset zero64} _.
Arguments wi_local_set {Val St prim arity lget lset zero64} _.
Arguments wi_local_tee {Val St prim arity lget lset zero64} _.
Arguments wi_get_set {Val St prim arity lget lset zero64} _.
Arguments wi_set_get {Val St prim arity lget lset zero64} _.
Arguments ws_frame {Val St prim} _.
Arguments ws_jump {Val St prim} _.

(** ** A concrete machine with locals *)

Section demo.
Abbreviation cell := (@value Z).

Definition demo_get (s : list cell) (a : Z) : option cell := get s a.
Definition demo_set (s : list cell) (a : Z) (v : cell) : option (list cell) :=
  match store s a v with Ret s => Some s | Panic => None end.

Definition demo_prim (t : token) (s : list cell) (stk : list cell) : @effect Z (list cell) :=
  let op := opcode t in
  if op =? 0x01 then Done s stk
  else if op =? 0x1A then match stk with _ :: stk => Done s stk | [] => Stuck end
  else if op =? 0x45 then
    match stk with I32 a :: stk => Done s (I32 (b2z (a =? 0)) :: stk) | _ => Stuck end
  else if op =? 0x46 then
    match stk with I32 b :: I32 a :: stk => Done s (I32 (b2z (a =? b)) :: stk) | _ => Stuck end
  else if op =? 0x42 then
    match read_i64 (tl t) with Some (v, _) => Done s (Other v :: stk) | None => Stuck end
  else if op =? 0x51 then
    match stk with Other b :: Other a :: stk => Done s (I32 (b2z (a =? b)) :: stk) | _ => Stuck end
  else if op =? 0x50 then
    match stk with Other a :: stk => Done s (I32 (b2z (a =? 0)) :: stk) | _ => Stuck end
  else if op =? 0x20 then
    match local_of t ≫= demo_get s with Some v => Done s (v :: stk) | None => Stuck end
  else if (op =? 0x21) || (op =? 0x22) then
    match stk, local_of t with
    | v :: rest, Some a =>
        match demo_set s a v with
        | Some s => Done s (if op =? 0x21 then rest else stk)
        | None => Stuck
        end
    | _, _ => Stuck
    end
  else if op =? 0xD0 then Done s (Other 0 :: stk)
  else if op =? 0xD5 then
    match stk, local_of t with
    | Other v :: rest, Some l => if v =? 0 then Jump (Z.to_nat l) s rest else Done s stk
    | _, _ => Stuck
    end
  else Stuck.

Definition demo_arity (t : token) : option (nat * nat) :=
  match t with [_; 0x40] => Some (0, 0)%nat | _ => None end.

(** Evaluate the comparisons of known opcodes. *)
Ltac eval_tests :=
  repeat match goal with
    | |- context [?a =? ?b] =>
        let c := eval vm_compute in (a =? b) in
        lazymatch c with true => idtac | false => idtac end; change (a =? b) with c
    end; cbn iota; cbn [orb andb].

Lemma demo_wasm : wasm_instructions demo_prim demo_arity demo_get demo_set (Other 0).
Proof.
  constructor; unfold demo_prim; try (intros; repeat match goal with H : opcode _ = _ |- _ => rewrite H; clear H end; done).
  - intros t u s stk Ht Hu. rewrite Ht, Hu. simpl.
    destruct stk as [|[w|v] stk]; split; try done; try (by left); right; by eexists.
  - intros t s stk Ht. unfold one_of in Ht. simpl in Ht.
    assert (Hop : In (opcode t) [0x20; 0x23; 0x42; 0x43; 0x44; 0xD0; 0xD2]) by (simpl; lia).
    simpl in Hop. repeat destruct Hop as [<-|Hop]; eval_tests; try (by left).
    + destruct (local_of t ≫= demo_get s) as [v|]; [right; by eexists|by left].
    + destruct (read_i64 (tl t)) as [[v n]|]; [right; by eexists|by left].
    + right. by eexists.
  - intros t a s stk Ht Ha. rewrite Ht, Ha. done.
  - intros t a s stk Ht Ha. rewrite Ht, Ha. simpl. by destruct stk.
  - intros t a s stk Ht Ha. rewrite Ht, Ha. simpl. by destruct stk.
  - intros s a v Hv. unfold demo_get, demo_set, store in *. apply get_lookup in Hv as [? Hv].
    replace ((0 <=? a) && (a <? len s)) with true by lia. by rewrite list_insert_id.
  - intros s a v s' Hs. unfold demo_get, demo_set in *. destruct (store s a v) as [s1|] eqn:E; [|done].
    injection Hs as <-. rewrite (MutModule.store_get _ _ _ _ a E). by rewrite Z.eqb_refl.
Qed.

Lemma demo_stack : wasm_stack demo_prim.
Proof.
  constructor.
  - intros t s stk ext. unfold demo_prim. repeat (case_match; simplify_eq/=; try done).
  - intros t s stk l s' stk'. unfold demo_prim. repeat (case_match; simplify_eq/=; try done).
Qed.
End demo.

(** Runs with one local and one result. *)
Abbreviation demo_run n code :=
  (run demo_prim demo_arity (fun _ _ => None) 1 n (mkConfig code [] [] [I32 0])).

