(* ===== verification/EditScript.v ===== *)
(** What it means for a list of provenance edits to describe a rewrite: a script
    that copies, replaces and copies again.  The passes produce scripts, and
    [BodyEdits::apply] executes them ([script_apply]). *)
From S2P Require Import Prelude Provenance.

(** [script p o input output es]: from offsets [p] and [o] on, [es] rewrite
    [input] into [output]. *)
Inductive script : Z -> Z -> bytes -> bytes -> list Edit -> Prop :=
| script_same p o same : script p o same same []
| script_edit p o same x new input output es :
    script (p + len same + len x) (o + len same + len new) input output es ->
    script p o (same ++ x ++ input) (same ++ new ++ output)
      (mkEdit (p + len same) (len x) (o + len same) (len new) :: es).

(** Bytes copied in front of a script. *)
Lemma script_copy p o keep input output es :
  script (p + len keep) (o + len keep) input output es -> script p o (keep ++ input) (keep ++ output) es.
Proof.
  intros H. remember (p + len keep) as p' eqn:Hp. remember (o + len keep) as o' eqn:Ho.
  destruct H as [p' o' same|p' o' same x new input output es H]; [constructor|]. subst p' o'.
  replace (mkEdit (p + len keep + len same) (len x) (o + len keep + len same) (len new))
    with (mkEdit (p + len (keep ++ same)) (len x) (o + len (keep ++ same)) (len new))
    by (rewrite len_app; f_equal; lia).
  rewrite !(app_assoc keep). constructor. rewrite len_app, !Z.add_assoc. done.
Qed.

Lemma script_replace p o x new input output es :
  script (p + len x) (o + len new) input output es ->
  script p o (x ++ input) (new ++ output) (mkEdit p (len x) o (len new) :: es).
Proof.
  intros H. pose proof (script_edit p o [] x new input output es) as Hs.
  rewrite len_nil, !Z.add_0_r in Hs. by apply Hs.
Qed.

(** The bytes an edit supplies, read back from the output. *)
Definition supply (es : list Edit) (out : bytes) (i : Z) (_ : option Z) (n : Z) : option bytes :=
  e ← get es i; get_range out (out_start e) (out_start e + n).

Lemma u32_small z : 0 <= z < 2 ^ 32 -> u32 z = z.
Proof. intros. by apply wrap_id. Qed.

Section applying.
Context (body out : bytes) (b : BodyEdits).
Context (Hlen : len body + len out < 2 ^ 32).
Context (Hsrc : src_funcs b = replicate (length (edits b)) None).

Lemma out_small opre new rest : out = opre ++ new ++ rest -> 0 <= len new < 2 ^ 32.
Proof using Hlen.
  intros Hout. rewrite Hout, !len_app in Hlen. pose proof (len_nonneg opre). pose proof (len_nonneg new).
  pose proof (len_nonneg rest). pose proof (len_nonneg body). lia.
Qed.

Lemma edit_bytes_supply dn es opre new rest e : edits b = dn ++ e :: es ->
  out = opre ++ new ++ rest -> out_start e = len opre -> out_len e = len new ->
  edit_bytes (supply (edits b) out) b (len dn) e = Ret (Some new).
Proof using Hlen Hsrc.
  intros Hes Hout Ho Hn. unfold edit_bytes. pose proof (out_small _ _ _ Hout).
  destruct (Z.ltb_spec 0 (out_len e)); [|by rewrite (len_0_inv new) by lia].
  replace (index (src_funcs b) (len dn)) with (Ret (@None Z)).
  2:{ symmetry. unfold index. rewrite (proj2 (get_lookup _ _ None)); [done|].
      rewrite Hsrc, Hes, length_app. simpl. unfold len. rewrite length_replicate.
      split; [lia|]. apply lookup_replicate. split; [done|lia]. }
  cbn [mbind outcome_bind]. unfold supply. rewrite Hes, get_app_cons by done.
  cbn [mbind option_bind]. rewrite Ho, Hn, Hout.
  pose proof (slice_app opre new rest) as Hsl. unfold slice in Hsl.
  destruct (get_range _ _ _) as [x|]; [injection Hsl as ->|done].
  by rewrite u32_small, Z.eqb_refl by lia.
Qed.

Lemma script_apply_loop p o input output es : script p o input output es ->
  forall pre opre dn, body = pre ++ input -> p = len pre -> out = opre ++ output -> o = len opre ->
  edits b = dn ++ es ->
  apply_loop (supply (edits b) out) b body (len dn) (len pre) es = Ret (Some output).
Proof using Hlen Hsrc.
  induction 1 as [p o same|p o same x new input output es _ IH]; intros pre opre dn Hbody Hp Hout Ho Hes;
    cbn [apply_loop].
  - rewrite Hbody, len_app. pose proof (len_nonneg same). replace (_ <? len pre) with false by lia.
    by rewrite slice_from_len.
  - set (e := mkEdit _ _ _ _) in *. subst p o. cbn [e in_start].
    pose proof (len_nonneg same). replace (len pre + len same <? len pre) with false by lia.
    rewrite Hbody, slice_app, <- Hbody. cbn [mbind outcome_bind].
    rewrite (edit_bytes_supply dn es (opre ++ same) new output)
      by (done || (by rewrite Hout, <- app_assoc) || (simpl; by rewrite len_app)).
    assert (Hend : in_end e = len (pre ++ same ++ x)).
    { unfold in_end. simpl. pose proof (len_nonneg pre). pose proof (len_nonneg x). pose proof (len_nonneg out).
      pose proof (len_nonneg input). rewrite Hbody, !len_app in Hlen. rewrite u32_small by lia.
      rewrite !len_app. lia. }
    specialize (IH (pre ++ same ++ x) (opre ++ same ++ new) (dn ++ [e])).
    rewrite (len_app dn) in IH. change (len [e]) with 1 in IH. rewrite Hend, IH; [done|..].
    + by rewrite Hbody, <- !app_assoc.
    + rewrite !len_app. lia.
    + by rewrite Hout, <- !app_assoc.
    + rewrite !len_app. lia.
    + by rewrite Hes, <- app_assoc.
Qed.

Lemma script_fits p o input output es acc : script p o input output es -> 0 <= p ->
  p + len input <= len body -> len input <= acc -> acc + len output < 2 ^ 32 ->
  exists o', check_fit (len body) acc es = Some o'.
Proof using Hlen.
  intros H. revert acc. induction H as [p o same|p o same x new input output es _ IH];
    intros acc Hp Hi Ha Ho; [by exists acc|]. cbn [check_fit]. rewrite !len_app in *.
  pose proof (len_nonneg same). pose proof (len_nonneg x). pose proof (len_nonneg new).
  pose proof (len_nonneg input). pose proof (len_nonneg output). pose proof (len_nonneg out).
  unfold in_end. cbn [in_start in_len out_len]. rewrite u32_small by lia.
  replace (len body <? p + len same + len x) with false by lia.
  replace (acc <? len x) with false by lia. replace (2 ^ 32 <=? acc - len x + len new) with false by lia.
  apply IH; lia.
Qed.

(** Executing the edits of a script rebuilds its output. *)
Lemma script_apply : script 0 0 body out (edits b) ->
  apply (supply (edits b) out) b body = Ret (Some out).
Proof using Hlen Hsrc.
  intros H. unfold apply. pose proof (len_nonneg body). pose proof (len_nonneg out).
  destruct (script_fits _ _ _ _ _ (u32 (len body)) H) as [o' ->]; [lia|lia|rewrite u32_small by lia; lia..|].
  by apply (script_apply_loop 0 0 body out (edits b) H [] [] []).
Qed.
End applying.

(** ** Edits appended one by one *)

Definition extends (e e' : BodyEdits) (es : list Edit) : Prop :=
  edits e' = edits e ++ es /\ src_funcs e' = src_funcs e ++ replicate (length es) None.

Lemma extends_push e e' d es : extends (be_push e d None) e' es -> extends e e' (d :: es).
Proof. intros [H1 H2]. unfold extends. simpl in *. by rewrite H1, H2, <- !app_assoc. Qed.

Lemma slice_keep (pre keep rest : bytes) :
  slice (pre ++ keep ++ rest) (len pre) (len pre + len keep) = Ret keep.
Proof. apply slice_app. Qed.
