(* ===== verification/BodyPass.v ===== *)
(** What the rewriting passes share: applying a rewriting of one body to every
    body of a module ([apply_mut] of each pass), rebuilding a code section, and
    the contract ([BodyPass]) under which passes can be chained. *)
From S2P Require Import Prelude Leb128 Opcode Tokens WasmSem Peephole WasmSpec Provenance EditScript WasmModule MutModule.

(** ** Applying a pass to a module *)

(** [for (i, b, e) in updates { m.set_body_with_edits(i, b, e) }] *)
Definition set_updates (m : MutModule) (updates : list (Z * bytes * BodyEdits)) : outcome MutModule :=
  foldl (fun acc '(i, b, e) => m ← acc; set_body_with_edits m i b e) (Ret m) updates.

Definition body_update (rewrite : bytes -> outcome (option (bytes * BodyEdits))) (m : MutModule) (i : nat)
  : outcome (option (Z * bytes * BodyEdits)) :=
  body ← body_bytes m (Z.of_nat i);
  r ← rewrite body;
  Ret (match r with Some (b, e) => Some (Z.of_nat i, b, e) | None => None end).

(** [apply_mut]: every body is rewritten first (in parallel, on the module as it
    was), then the results are stored. *)
Definition run_pass (rewrite : bytes -> outcome (option (bytes * BodyEdits))) (m : MutModule) : outcome MutModule :=
  updates ← mapM (body_update rewrite m) (seq 0 (length (mm_bodies m)));
  set_updates m (omap id updates).

(** ** Rebuilding a code section *)

Fixpoint rebuild_bodies (payload : bytes) (replacements : list (option bytes)) (off : Z)
  : outcome bytes :=
  match replacements with
  | [] => Ret []
  | replacement :: replacements =>
      rest ← slice_from payload off;
      match read_u32 rest with
      | None => Ret []
      | Some (body_size, size_consumed) =>
          let off := off + size_consumed in
          original_body ← slice payload off (off + body_size);
          tail ← rebuild_bodies payload replacements (off + body_size);
          Ret (match replacement with
               | Some new_body => write_u32 (u32 (len new_body)) ++ new_body
               | None => write_u32 body_size ++ original_body
               end ++ tail)
      end
  end.

Definition position_code (sections : list Section_) : option nat :=
  fst <$> list_find (fun s => sec_id s = SECTION_CODE) sections.

Lemma set_updates_cons m i b e us : set_updates m ((i, b, e) :: us)
  = m1 ← set_body_with_edits m i b e; set_updates m1 us.
Proof.
  unfold set_updates. simpl. destruct (set_body_with_edits m i b e); simpl; [done|].
  induction us as [|[[j b'] e'] us IH]; [done|exact IH].
Qed.

(** Setting a body changes the bytes of that body only. *)
Lemma set_body_bytes m i bs e m' : set_body_with_edits m i bs e = Ret m' ->
  (forall j, body_bytes m' j = if i =? j then Ret bs else body_bytes m j) /\
  mm_sections m' = mm_sections m /\ mm_input m' = mm_input m /\
  section_overrides m' = section_overrides m /\ section_removed m' = section_removed m.
Proof.
  unfold set_body_with_edits. intros H. outcome_inv; unfold body_bytes; simpl; (split; [|done]);
    intros j;
    match goal with E : store (body_overrides m) _ _ = _ |- _ => rewrite (store_get _ _ _ _ j E) end;
    by destruct (i =? j).
Qed.

Definition rewritten_bytes (rewrite : bytes -> outcome (option (bytes * BodyEdits))) (m m' : MutModule)
    (i : nat) : Prop :=
  exists b r, body_bytes m (Z.of_nat i) = Ret b /\ rewrite b = Ret r /\
    body_bytes m' (Z.of_nat i) = Ret (default b (fst <$> r)).

Lemma set_updates_bytes rewrite m0 L us : Forall2 (fun i u => body_update rewrite m0 i = Ret u) L us ->
  NoDup L -> forall m m', (forall i, In i L -> body_bytes m (Z.of_nat i) = body_bytes m0 (Z.of_nat i)) ->
  set_updates m (omap id us) = Ret m' ->
  (forall i, In i L -> rewritten_bytes rewrite m0 m' i) /\
  (forall i, ~ In i L -> body_bytes m' (Z.of_nat i) = body_bytes m (Z.of_nat i)) /\
  section_overrides m' = section_overrides m /\ section_removed m' = section_removed m /\
  mm_sections m' = mm_sections m /\ mm_input m' = mm_input m.
Proof.
  induction 1 as [|i u L us Hu _ IH]; intros Hnd m m' Hm Hset.
  { injection Hset as <-. by split. }
  apply NoDup_cons in Hnd as [Hi Hnd]. rewrite list_elem_of_In in Hi.
  unfold body_update in Hu.
  destruct (body_bytes m0 (Z.of_nat i)) as [b|] eqn:Hb; [|done]. cbn [mbind outcome_bind] in Hu.
  destruct (rewrite b) as [[[b' e]|]|] eqn:Hf; [..|done]; injection Hu as <-.
  - change (omap id (Some (Z.of_nat i, b', e) :: us)) with ((Z.of_nat i, b', e) :: omap id us) in Hset.
    rewrite set_updates_cons in Hset.
    destruct (set_body_with_edits m (Z.of_nat i) b' e) as [m1|] eqn:Hs; [|done]. simpl in Hset.
    destruct (set_body_bytes _ _ _ _ _ Hs) as (Hb1 & H1 & H2 & H3 & H4).
    destruct (IH Hnd m1 m') as (HL & HnL & H5 & H6 & H7 & H8); [|done|].
    { intros j Hj. rewrite Hb1. destruct (Z.eqb_spec (Z.of_nat i) (Z.of_nat j)) as [E|]; [|apply Hm; by right].
      apply Nat2Z.inj in E as ->. done. }
    split_and!; try congruence.
    + intros j [<-|Hj]; [|by apply HL]. exists b, (Some (b', e)).
      split_and!; [done..|]. by rewrite (HnL i Hi), Hb1, Z.eqb_refl.
    + intros j Hj. rewrite HnL by (intros ?; apply Hj; by right). rewrite Hb1.
      destruct (Z.eqb_spec (Z.of_nat i) (Z.of_nat j)) as [E|]; [|done].
      apply Nat2Z.inj in E as ->. destruct Hj. by left.
  - destruct (IH Hnd m m') as (HL & HnL & H5); [|done|].
    { intros j Hj. apply Hm. by right. }
    split_and!; [..|apply H5|apply H5|apply H5|apply H5].
    + intros j [<-|Hj]; [|by apply HL]. exists b, None.
      split_and!; [done..|]. rewrite (HnL i Hi), Hm, Hb by (by left). done.
    + intros j Hj. apply HnL. intros ?. apply Hj. by right.
Qed.

Lemma mapM_Ret_inv {A B} (f : A -> outcome B) l k : mapM f l = Ret k ->
  Forall2 (fun x y => f x = Ret y) l k.
Proof.
  revert k. induction l as [|x l IH]; intros k; simpl; [by intros [= <-]|].
  destruct (f x) as [y|] eqn:E; simpl; [|done]. destruct (mapM f l) as [k'|]; simpl; [|done].
  intros [= <-]. constructor; auto.
Qed.

Lemma run_pass_bytes rewrite m m' : run_pass rewrite m = Ret m' ->
  (forall i, (i < length (mm_bodies m))%nat -> rewritten_bytes rewrite m m' i) /\
  section_overrides m' = section_overrides m /\ section_removed m' = section_removed m /\
  mm_sections m' = mm_sections m /\ mm_input m' = mm_input m.
Proof.
  unfold run_pass. intros H. destruct (mapM (body_update rewrite m) _) as [us|] eqn:E; [|done]. simpl in H.
  apply mapM_Ret_inv in E.
  destruct (set_updates_bytes rewrite m _ us E (NoDup_seq _ _) m m' ltac:(done) H) as (Hin & _ & Hrest).
  split; [|exact Hrest]. intros i Hi. apply Hin, in_seq. lia.
Qed.

(** One body of the rebuilt section. *)
Definition rebuilt (f : body_chunk -> option bytes) (b : body_chunk) : bytes :=
  match f b with
  | Some new => write_u32 (u32 (len new)) ++ new
  | None => write_u32 (len (bc_body b)) ++ bc_body b
  end.

Lemma read_chunk pre b rest : bc_ok b ->
  let payload := pre ++ bc_bytes b ++ rest in
  slice_from payload (len pre) = Ret (bc_bytes b ++ rest) /\
  read_u32 (bc_bytes b ++ rest) = Some (len (bc_body b), len (bc_size b)) /\
  slice payload (len pre + len (bc_size b)) (len pre + len (bc_size b) + len (bc_body b)) = Ret (bc_body b) /\
  len pre + len (bc_size b) + len (bc_body b) = len (pre ++ bc_bytes b).
Proof.
  intros Hb payload. unfold payload, bc_bytes. split_and!.
  - apply slice_from_len.
  - rewrite <- app_assoc. by apply read_u32_app.
  - rewrite <- app_assoc, (app_assoc pre), <- len_app. apply slice_app.
  - rewrite !len_app. lia.
Qed.

Lemma rebuild_bodies_spec f bs : Forall bc_ok bs -> forall pre,
  rebuild_bodies (pre ++ bcs_bytes bs) (f <$> bs) (len pre) = Ret (mjoin (rebuilt f <$> bs)).
Proof.
  induction 1 as [|b bs Hb _ IH]; intros pre; [done|]. cbn [fmap list_fmap rebuild_bodies].
  rewrite bcs_bytes_cons. destruct (read_chunk pre b (bcs_bytes bs) Hb) as (-> & E & Hs & Hl).
  cbn [mbind outcome_bind]. rewrite E, Hs, Hl. cbn [mbind outcome_bind].
  rewrite app_assoc. unfold fmap in IH. rewrite IH. unfold rebuilt at 2. cbn [mjoin list_join].
  by destruct (f b).
Qed.

Lemma forallb_fmap {A B} (p : B -> bool) (f : A -> B) l :
  forallb p (f <$> l) = forallb (fun x => p (f x)) l.
Proof. induction l as [|x l IH]; [done|]. simpl. by rewrite <- IH. Qed.

(** ** The contract of a pass *)

(** A body that decodes into properly nested instructions, all of the kinds whose
    branches every pass understands. *)
Record valid_body (body locals : bytes) (p : list token) : Prop := {
  vb_decodes : decodes body locals p;
  vb_closes : closes 0 p = true;
  vb_branches : Forall (fun t => no_ref_branch t = true) p;
}.

(** [q] reproduces every run of [p] that does not get stuck (a validated program
    never does) in at most as many steps, whatever state and stack it starts
    from, on every machine whose instructions meet the WebAssembly
    specification. *)
Definition preserves (p q : list token) : Prop :=
  forall Val St prim arity table_label results lget lset zero64 (s : St) (stk : list (@value Val)) n res,
    wasm_instructions prim arity lget lset zero64 -> wasm_stack prim ->
    run prim arity table_label results n (mkConfig p stk [] s) = Some res -> res <> StuckAt ->
    exists m, (m <= n)%nat /\ run prim arity table_label results m (mkConfig q stk [] s) = Some res.

#[global] Instance preserves_preorder : PreOrder preserves.
Proof.
  split.
  - intros p Val St prim arity table_label results lget lset zero64 s stk n res _ _ Hrun _. by exists n.
  - intros p q r Hpq Hqr Val St prim arity table_label results lget lset zero64 s stk n res Hi Hs Hrun Hne.
    destruct (Hpq _ _ _ _ _ _ _ _ _ _ _ _ _ Hi Hs Hrun Hne) as (m & Hm & Hrun').
    destruct (Hqr _ _ _ _ _ _ _ _ _ _ _ _ _ Hi Hs Hrun' Hne) as (k & Hk & Hrun'').
    exists k. split; [lia|done].
Qed.

(** What a pass promises to the driver. *)
Class BodyPass (rewrite : bytes -> outcome (option (bytes * BodyEdits))) : Prop := {
  pass_sound body locals p : valid_body body locals p -> 2 * len body < 2 ^ 32 ->
    exists r, rewrite body = Ret r /\ forall out e, r = Some (out, e) ->
      len out <= 2 * len body /\ aligned e /\
      exists q, valid_body out locals q /\ preserves p q;
  pass_edits body locals p out e : valid_body body locals p -> 2 * len body < 2 ^ 32 -> rewrite body = Ret (Some (out, e)) ->
    len body + len out < 2 ^ 32 ->
    Provenance.apply (supply (edits e) out) e body = Ret (Some out);
}.

(** Modules whose tracked edits are aligned. *)
Record tracked (m : MutModule) : Prop := {
  tracked_wf : mm_wf m;
  tracked_edits : Forall (fun o => forall e, o = Some e -> aligned e) (mm_body_edits m);
}.

Lemma set_body_total m i bs e : tracked m -> 0 <= i < len (mm_bodies m) -> aligned e ->
  exists m', set_body_with_edits m i bs e = Ret m' /\ tracked m' /\ mm_bodies m' = mm_bodies m.
Proof.
  intros [Hwf Ht] Hi He. pose proof Hwf as [_ _ H1 H2 H3]. unfold len in Hi.
  assert (Hs : forall A (l : list A) v, length l = length (mm_bodies m) ->
    store l i v = Ret (<[Z.to_nat i := v]> l)).
  { intros A l v Hl. unfold store, len. by replace ((0 <=? i) && (i <? Z.of_nat (length l))) with true by lia. }
  assert (Hstep : forall m', set_body_with_edits m i bs e = Ret m' -> mm_wf m').
  { intros m' Hm'. by eapply mm_step_wf; [eapply step_set_body_with_edits|]. }
  unfold set_body_with_edits in *. rewrite (Hs _ _ _ H1) in *. cbn [mbind outcome_bind] in *.
  destruct (index_is_Ret (tracking_lost m) i) as [lost Hlost]; [unfold len; lia|]. rewrite Hlost in *.
  cbn [mbind outcome_bind] in *. destruct lost.
  { eexists. split; [done|]. split; [|done]. split; [by apply Hstep|done]. }
  destruct (index_is_Ret (mm_body_edits m) i) as [prev Hprev]; [unfold len; lia|]. rewrite Hprev in *.
  cbn [mbind outcome_bind] in *.
  assert (Hn : exists next, match prev with Some prev => Provenance.compose prev e | None => Ret e end = Ret next /\ aligned next).
  { destruct prev as [prev|]; [|by exists e]. apply compose_total; [|done].
    apply index_Ret in Hprev as [_ Hprev]. apply get_lookup in Hprev as [_ Hprev].
    rewrite Forall_lookup in Ht. by eapply Ht. }
  destruct Hn as (next & Hn & Hal). rewrite Hn in *. cbn [mbind outcome_bind] in *.
  rewrite (Hs _ _ _ H2) in *. cbn [mbind outcome_bind] in *.
  eexists. split; [done|]. split; [|done]. split; [by apply Hstep|]. simpl.
  apply Forall_insert; [done|]. by intros e' [= <-].
Qed.

Lemma set_updates_total us : forall m, tracked m ->
  Forall (fun '(i, b, e) => 0 <= i < len (mm_bodies m) /\ aligned e) us ->
  exists m', set_updates m us = Ret m' /\ tracked m' /\ mm_bodies m' = mm_bodies m.
Proof.
  induction us as [|[[i b] e] us IH]; intros m Ht Hus; [by exists m|].
  apply Forall_cons in Hus as [[Hi He] Hus].
  destruct (set_body_total m i b e Ht Hi He) as (m1 & Hm1 & Ht1 & Hb1).
  rewrite set_updates_cons, Hm1. cbn [mbind outcome_bind].
  destruct (IH m1 Ht1) as (m' & -> & Ht' & Hb'); [by rewrite Hb1|].
  exists m'. split_and!; [done..|]. congruence.
Qed.

(** The bodies of a module all decode, and are below a size. *)
Definition valid_module (m : MutModule) (size : Z) : Prop :=
  forall i, (i < length (mm_bodies m))%nat ->
  exists b locals p, body_bytes m (Z.of_nat i) = Ret b /\ valid_body b locals p /\ len b < size.

(** Every body of [m'] reproduces the runs of the body of [m] it replaces. *)
Definition module_preserves (m m' : MutModule) : Prop :=
  mm_bodies m' = mm_bodies m /\ mm_input m' = mm_input m /\ mm_sections m' = mm_sections m /\
  section_overrides m' = section_overrides m /\ section_removed m' = section_removed m /\
  forall i b locals p, (i < length (mm_bodies m))%nat -> body_bytes m (Z.of_nat i) = Ret b ->
    valid_body b locals p ->
    exists b' q, body_bytes m' (Z.of_nat i) = Ret b' /\ valid_body b' locals q /\ preserves p q.

#[global] Instance module_preserves_preorder : PreOrder module_preserves.
Proof.
  split.
  - intros m. split_and!; [done..|]. intros i b locals p _ Hb Hv. by exists b, p.
  - intros m1 m2 m3 (A1 & A2 & A3 & A4 & A5 & A6) (B1 & B2 & B3 & B4 & B5 & B6).
    split_and!; [congruence..|]. intros i b locals p Hi Hb Hv.
    destruct (A6 i b locals p Hi Hb Hv) as (b2 & q2 & Hb2 & Hv2 & Hp2).
    destruct (B6 i b2 locals q2) as (b3 & q3 & Hb3 & Hv3 & Hp3); [by rewrite A1|done..|].
    exists b3, q3. split_and!; [done..|]. by etransitivity.
Qed.

Lemma run_pass_sound rewrite `{!BodyPass rewrite} m size : tracked m -> valid_module m size -> 2 * size <= 2 ^ 32 ->
  exists m', run_pass rewrite m = Ret m' /\ tracked m' /\ valid_module m' (2 * size) /\ module_preserves m m'.
Proof.
  intros Ht Hv Hsize.
  assert (Hup : exists us, mapM (body_update rewrite m) (seq 0 (length (mm_bodies m))) = Ret us /\
    Forall (fun '(i, b, e) => 0 <= i < len (mm_bodies m) /\ aligned e) (omap id us)).
  { assert (Hin : Forall (fun i => (i < length (mm_bodies m))%nat) (seq 0 (length (mm_bodies m)))).
    { apply Forall_forall. intros i Hi%elem_of_seq. lia. }
    induction Hin as [|i l Hi _ IH]; [by exists []|]. destruct IH as (us & Hus & Hall).
    destruct (Hv i Hi) as (b & locals & p & Hb & Hp & Hl).
    destruct (pass_sound b locals p Hp ltac:(lia)) as (r & Hr & Hout).
    assert (Hu : body_update rewrite m i
      = Ret (match r with Some (b, e) => Some (Z.of_nat i, b, e) | None => None end)).
    { unfold body_update. rewrite Hb. cbn [mbind outcome_bind]. by rewrite Hr. }
    cbn [mapM]. rewrite Hu. cbn [mbind outcome_bind]. rewrite Hus. cbn [mbind outcome_bind].
    eexists. split; [done|].
    destruct r as [[out e]|]; [|done]. change (omap id (Some (Z.of_nat i, out, e) :: us))
      with ((Z.of_nat i, out, e) :: omap id us). constructor; [|done].
    destruct (Hout out e eq_refl) as (_ & He & _). split; [unfold len; lia|done]. }
  destruct Hup as (us & Hus & Hall).
  destruct (set_updates_total (omap id us) m Ht Hall) as (m' & Hm' & Ht' & Hb').
  assert (Hrun : run_pass rewrite m = Ret m') by (unfold run_pass; by rewrite Hus).
  destruct (run_pass_bytes _ _ _ Hrun) as (Hbytes & H1 & H2 & H3 & H4).
  assert (Hone : forall i b locals p, (i < length (mm_bodies m))%nat -> body_bytes m (Z.of_nat i) = Ret b ->
    valid_body b locals p -> exists b' q, body_bytes m' (Z.of_nat i) = Ret b' /\ valid_body b' locals q /\
      preserves p q /\ len b' <= 2 * len b).
  { intros i b locals p Hi Hb Hp. destruct (Hbytes i Hi) as (b0 & r & Hb0 & Hr & Hb1).
    rewrite Hb in Hb0. injection Hb0 as <-.
    destruct (Hv i Hi) as (b0 & _ & _ & Hb0 & _ & Hl). rewrite Hb in Hb0. injection Hb0 as <-.
    destruct (pass_sound b locals p Hp ltac:(lia)) as (r' & Hr' & Hout). rewrite Hr in Hr'. injection Hr' as <-.
    destruct r as [[out e]|]; simpl in Hb1.
    - destruct (Hout out e eq_refl) as (Hlen & _ & q & Hq & Hpq). by exists out, q.
    - exists b, p. split_and!; [done..|]. pose proof (len_nonneg b). lia. }
  exists m'. split_and!; [done..| |].
  - intros i Hi. rewrite Hb' in Hi. destruct (Hv i Hi) as (b & locals & p & Hb & Hp & Hl).
    destruct (Hone i b locals p Hi Hb Hp) as (b' & q & Hb1 & Hq & _ & Hlen). exists b', locals, q.
    split_and!; [done..|]. lia.
  - split_and!; [done..|]. intros i b locals p Hi Hb Hp.
    destruct (Hone i b locals p Hi Hb Hp) as (b' & q & Hb1 & Hq & Hpq & _). by exists b', q.
Qed.

(** ** Chains of passes *)

Fixpoint run_passes (passes : list (bytes -> outcome (option (bytes * BodyEdits)))) (m : MutModule)
  : outcome MutModule :=
  match passes with [] => Ret m | r :: passes => m ← run_pass r m; run_passes passes m end.

Lemma run_passes_sound passes : Forall BodyPass passes -> forall m size, tracked m -> valid_module m size ->
  size * 2 ^ len passes <= 2 ^ 32 ->
  exists m', run_passes passes m = Ret m' /\ tracked m' /\ module_preserves m m'.
Proof.
  induction 1 as [|r passes Hr _ IH]; intros m size Ht Hv Hsize; [by exists m|].
  pose proof (len_nonneg passes). rewrite len_cons, Z.pow_add_r in Hsize by lia.
  assert (1 <= 2 ^ len passes) by (pose proof (Z.pow_pos_nonneg 2 (len passes)); lia).
  assert (2 * size <= 2 ^ 32).
  { destruct (Z.le_gt_cases size 0); [lia|]. nia. }
  destruct (run_pass_sound r m size Ht Hv) as (m1 & Hm1 & Ht1 & Hv1 & Hp1); [done|].
  cbn [run_passes]. rewrite Hm1. cbn [mbind outcome_bind].
  destruct (IH m1 (2 * size) Ht1 Hv1) as (m' & -> & Ht' & Hp'); [lia|].
  exists m'. split_and!; [done..|]. by etransitivity.
Qed.
