(* ===== verification/ConstFold.v ===== *)
(** The constant folding pass of wilt ([wilt/src/passes/const_fold.rs]): constant
    triples and right-identity pairs of i32 instructions, with the provenance
    edits of the rewrite.  The pass is judged against the machine of [WasmSem]. *)
From S2P Require Import Prelude Leb128 Opcode Tokens WasmSem Peephole WasmSpec Provenance EditScript WasmModule MutModule Bits BodyPass.

Definition I32_CONST : Z := 0x41.
Definition I32_ADD : Z := 0x6A.
Definition I32_SUB : Z := 0x6B.
Definition I32_MUL : Z := 0x6C.
Definition I32_AND : Z := 0x71.
Definition I32_OR : Z := 0x72.
Definition I32_XOR : Z := 0x73.
Definition I32_SHL : Z := 0x74.
Definition I32_SHR_U : Z := 0x76.

(** ** Signed LEB128, in [i32] arithmetic *)

Fixpoint read_sleb128_i32_loop (data : bytes) (i result shift : Z) : option (Z * Z) :=
  match data with
  | [] => None
  | byte :: rest =>
      let result := Z.lor result (i32 (Z.shiftl (Z.land byte 0x7F) shift)) in
      let shift := shift + 7 in
      if byte <? 0x80 then
        let result :=
          if (shift <? 32) && negb (Z.land byte 0x40 =? 0)
          then Z.lor result (i32 (Z.shiftl (-1) shift)) else result in
        Some (result, i + 1)
      else if 35 <=? shift then None
      else read_sleb128_i32_loop rest (i + 1) result shift
  end.

Definition read_sleb128_i32 (data : bytes) : option (Z * Z) := read_sleb128_i32_loop data 0 0 0.

(** [loop] with the value shifted by 7 each time: 5 groups cover an [i32]. *)
Fixpoint write_sleb128_i32_loop (fuel : nat) (value : Z) : bytes :=
  match fuel with
  | O => []
  | S fuel =>
      let byte := u8 (Z.land value 0x7F) in
      let value := Z.shiftr value 7 in
      let done := ((value =? 0) && (Z.land byte 0x40 =? 0))
                  || ((value =? -1) && negb (Z.land byte 0x40 =? 0)) in
      let byte := if negb done then Z.lor byte 0x80 else byte in
      byte :: (if done then [] else write_sleb128_i32_loop fuel value)
  end.

Definition write_sleb128_i32 (value : Z) : bytes := write_sleb128_i32_loop 5 value.

(** ** Evaluation *)

(** [wrapping_shl] and [wrapping_shr] mask the amount with 31. *)
Definition evaluate (op a b : Z) : option Z :=
  if op =? I32_ADD then Some (i32 (a + b))
  else if op =? I32_SUB then Some (i32 (a - b))
  else if op =? I32_MUL then Some (i32 (a * b))
  else if op =? I32_AND then Some (Z.land a b)
  else if op =? I32_OR then Some (Z.lor a b)
  else if op =? I32_XOR then Some (Z.lxor a b)
  else if op =? I32_SHL then Some (i32 (Z.shiftl a (Z.land (u32 b) 31)))
  else if op =? I32_SHR_U then Some (i32 (Z.shiftr (u32 a) (Z.land (u32 b) 31)))
  else None.

Definition is_rhs_identity (op v : Z) : bool :=
  ((op =? I32_ADD) && (v =? 0)) || ((op =? I32_SUB) && (v =? 0)) || ((op =? I32_OR) && (v =? 0))
  || ((op =? I32_XOR) && (v =? 0)) || ((op =? I32_SHL) && (v =? 0))
  || ((op =? I32_SHR_U) && (v =? 0)) || ((op =? 0x75) && (v =? 0))
  || ((op =? I32_MUL) && (v =? 1)) || ((op =? I32_AND) && (v =? -1)).

(** ** The pass over one body *)

Inductive Repl := RConst (v : Z) | REmpty.

(** The first [if] of the loop: [i32.const; i32.const; op] at three spans. *)
Definition fold_triple (body : bytes) (a b c : Z * Z) : outcome (option Z) :=
  oa ← index body (fst a);
  if negb (oa =? I32_CONST) then Ret None else
  ob ← index body (fst b);
  if negb (ob =? I32_CONST) then Ret None else
  sa ← slice body (fst a + 1) (snd a);
  sb ← slice body (fst b + 1) (snd b);
  match read_sleb128_i32 sa, read_sleb128_i32 sb with
  | Some (va, _), Some (vb, _) => op ← index body (fst c); Ret (evaluate op va vb)
  | _, _ => Ret None
  end.

(** The second one: [i32.const v; op] with [v] the right identity of [op]. *)
Definition fold_pair (body : bytes) (a b : Z * Z) : outcome bool :=
  oa ← index body (fst a);
  if negb (oa =? I32_CONST) then Ret false else
  sa ← slice body (fst a + 1) (snd a);
  match read_sleb128_i32 sa with
  | Some (v, _) => op ← index body (fst b); Ret (is_rhs_identity op v)
  | None => Ret false
  end.

(** The [while] over [spans], from index [i] on: replacements [(from, to, repl)]. *)
Fixpoint find_replacements (body : bytes) (spans : list (Z * Z)) : outcome (list (Z * Z * Repl)) :=
  match spans with
  | [] => Ret []
  | a :: rest =>
      triple ← (match rest with b :: c :: _ => fold_triple body a b c | _ => Ret None end);
      match triple, rest with
      | Some v, _ :: c :: rest => tail ← find_replacements body rest;
                                  Ret ((fst a, snd c, RConst v) :: tail)
      | _, _ =>
          pair ← (match rest with b :: _ => fold_pair body a b | _ => Ret false end);
          match pair : bool, rest with
          | true, b :: rest => tail ← find_replacements body rest;
                               Ret ((fst a, snd b, REmpty) :: tail)
          | _, _ => find_replacements body rest
          end
      end
  end.

(** The rewriting loop: the output and the edits, from [cursor] on. *)
Fixpoint emit_replacements (body : bytes) (repls : list (Z * Z * Repl)) (cursor : Z)
    (out : bytes) (edits : BodyEdits) : outcome (bytes * BodyEdits) :=
  match repls with
  | [] => tail ← slice_from body cursor; Ret (out ++ tail, edits)
  | (from, to, repl) :: repls =>
      same ← slice body cursor from;
      let out := out ++ same in
      let in_start := u32 from in
      let in_len := u32 (to - from) in
      let out_start := u32 (len out) in
      match repl with
      | RConst val =>
          let out := out ++ I32_CONST :: write_sleb128_i32 val in
          let out_len := u32 (u32 (len out) - out_start) in
          emit_replacements body repls to out
            (be_push edits (edit_subst in_start in_len out_start out_len) None)
      | REmpty =>
          emit_replacements body repls to out
            (be_push edits (edit_delete in_start in_len out_start) None)
      end
  end.

Definition fold_body_with_edits (body : bytes) : outcome (option (bytes * BodyEdits)) :=
  match (start ← skip_locals body; walk body start) with
  | None => Ret None
  | Some l =>
      let spans := (fun '(p, n) => (p, p + n)) <$> l in
      replacements ← find_replacements body spans;
      match replacements with
      | [] => Ret None
      | _ => r ← emit_replacements body replacements 0 [] be_identity; Ret (Some r)
      end
  end.

Definition fold_body (body : bytes) : outcome (option bytes) :=
  match fold_body_with_edits body with Ret r => Ret (fst <$> r) | Panic => Panic end.

Example fold_add : fold_body [0; 0x41; 10; 0x41; 20; 0x6A; 0x0B] = Ret (Some [0; 0x41; 30; 0x0B]).
Proof. reflexivity. Qed.
Example fold_identity_mul_one :
  fold_body [0; 0x20; 0; 0x41; 1; 0x6C; 0x0B] = Ret (Some [0; 0x20; 0; 0x0B]).
Proof. reflexivity. Qed.
Example no_fold_without_pattern : fold_body [0; 0x41; 10; 0x0B] = Ret None.
Proof. reflexivity. Qed.

(** ** The codec of the pass *)

(** [write_sleb128_i32] writes what [leb128::write_i32] writes. *)
Lemma write_sleb128_i32_eq v : write_sleb128_i32 v = write_i32 v.
Proof.
  unfold write_sleb128_i32, write_i32. generalize 5%nat as n. intros n. revert v.
  induction n as [|n IH]; intros v; [done|].
  cbn [write_sleb128_i32_loop write_sleb_loop]. rewrite IH. by destruct (_ || _).
Qed.

(** Both readers accumulate the same low 32 bits. *)
Lemma read_sleb128_i32_loop_eq data : forall i r s, 0 <= s < 35 ->
  read_sleb128_i32_loop data i (i32 r) s
  = ('(r, n) ← read_sleb_loop 35 data i r s; Some (i32 r, n)).
Proof.
  induction data as [|b data IH]; intros i r s Hs; [done|].
  cbn [read_sleb128_i32_loop read_sleb_loop].
  rewrite <- (sext_sext 32 64 (Z.shiftl (Z.land b 127) s)), <- sext_lor by lia.
  generalize (Z.lor r (i64 (Z.shiftl (Z.land b 127) s))). intros r'.
  destruct (b <? 128); [|destruct (Z.leb_spec 35 (s + 7)); [done|by apply IH; lia]].
  replace (s + 7 <? 64) with true by lia. cbn [mbind option_bind andb].
  destruct (negb _); [|by rewrite andb_false_r]. rewrite andb_true_r.
  rewrite sext_lor, (sext_sext 32 64) by lia.
  destruct (Z.ltb_spec (s + 7) 32); [done|].
  replace (i32 (Z.shiftl (-1) (s + 7))) with 0; [by rewrite Z.lor_0_r|].
  symmetry. apply sext_0_mod; [lia|]. rewrite Z.shiftl_mul_pow2 by lia.
  replace (s + 7) with (32 + (s - 25)) by lia. rewrite Z.pow_add_r by lia.
  rewrite Z.mul_assoc, (Z.mul_comm _ (2 ^ 32)), <- Z.mul_assoc, Z.mul_comm. apply Z.mod_mul. lia.
Qed.

Lemma read_sleb128_i32_eq data : read_sleb128_i32 data = read_i32 data.
Proof. exact (read_sleb128_i32_loop_eq data 0 0 0 ltac:(lia)). Qed.

Lemma read_i32_sint data v n : read_i32 data = Some (v, n) -> is_sint 32 v.
Proof.
  unfold read_i32. intros ([r k] & _ & [= <- _])%bind_Some. by apply sext_bound.
Qed.

(** ** The operators *)

Lemma shift_amount b : Z.land (u32 b) 31 = u32 b mod 32.
Proof. apply (land_ones_mod (u32 b) 5). lia. Qed.

Lemma wrap_word z : in_range 0 (2 ^ 32 - 1) (u32 z) = true.
Proof. pose proof (wrap_bound 32 z ltac:(lia)) as H. unfold is_uint in H. unfold in_range. lia. Qed.

Lemma wrap_mul w a b : wrap w (wrap w a * wrap w b) = wrap w (a * b).
Proof. unfold wrap. symmetry. apply Zmult_mod. Qed.

Lemma wrap_add w a b : wrap w (wrap w a + wrap w b) = wrap w (a + b).
Proof. unfold wrap. symmetry. apply Zplus_mod. Qed.

Lemma wrap_sub w a b : wrap w (wrap w a - wrap w b) = wrap w (a - b).
Proof. unfold wrap. symmetry. apply Zminus_mod. Qed.

(** The value computed is an [i32], and it is the operator's result. *)
Lemma evaluate_correct op a b r : is_sint 32 a -> is_sint 32 b -> evaluate op a b = Some r ->
  is_sint 32 r /\ i32_binop op (u32 a) (u32 b) = Some (u32 r).
Proof.
  intros Ha Hb. unfold evaluate, i32_binop. rewrite !wrap_word. simpl.
  unfold I32_ADD, I32_SUB, I32_MUL, I32_AND, I32_OR, I32_XOR, I32_SHL, I32_SHR_U.
  repeat match goal with
    | |- (if op =? ?k then _ else _) = _ -> _ =>
        destruct (Z.eqb_spec op k) as [->|]; [intros [= <-]; simpl|]
    end; [..|done].
  - split; [by apply sext_bound|]. by rewrite wrap_add, wrap_sext.
  - split; [by apply sext_bound|]. by rewrite wrap_sub, wrap_sext.
  - split; [by apply sext_bound|]. by rewrite wrap_mul, wrap_sext.
  - split; [by apply (sint_bitop Z.land andb); [..|intros; apply Z.land_spec]|].
    by rewrite (wrap_bitop Z.land andb) by (done || intros; apply Z.land_spec).
  - split; [by apply (sint_bitop Z.lor orb); [..|intros; apply Z.lor_spec]|].
    by rewrite (wrap_bitop Z.lor orb) by (done || intros; apply Z.lor_spec).
  - split; [by apply (sint_bitop Z.lxor xorb); [..|intros; apply Z.lxor_spec]|].
    by rewrite (wrap_bitop Z.lxor xorb) by (done || intros; apply Z.lxor_spec).
  - split; [by apply sext_bound|]. rewrite shift_amount, wrap_sext by lia.
    rewrite Z.shiftl_mul_pow2 by (apply Z.mod_pos_bound; lia).
    f_equal. rewrite <- (wrap_mul 32 (u32 a)), <- (wrap_mul 32 a).
    by rewrite (wrap_id 32 (u32 a)) by (apply wrap_bound; lia).
  - split; [by apply sext_bound|]. rewrite shift_amount, wrap_sext by lia.
    rewrite Z.shiftr_div_pow2 by (apply Z.mod_pos_bound; lia). f_equal. symmetry. apply wrap_id.
    pose proof (wrap_bound 32 a ltac:(lia)) as [? ?]. split.
    + apply Z.div_pos; [done|]. apply Z.pow_pos_nonneg; [lia|]. apply Z.mod_pos_bound. lia.
    + apply Z.le_lt_trans with (u32 a); [|done]. apply Z.div_le_upper_bound.
      * apply Z.pow_pos_nonneg; [lia|]. apply Z.mod_pos_bound. lia.
      * pose proof (Z.pow_pos_nonneg 2 (u32 b mod 32) ltac:(lia) ltac:(apply Z.mod_pos_bound; lia)). nia.
Qed.

(** A right identity leaves every left operand unchanged. *)
Lemma rhs_identity_correct op v w r : is_rhs_identity op v = true ->
  i32_binop op w (u32 v) = Some r -> r = w.
Proof.
  intros Hid. unfold i32_binop. destruct (in_range 0 (2 ^ 32 - 1) w) eqn:Hw; [|done].
  rewrite wrap_word. simpl. unfold in_range in Hw.
  assert (Hu : u32 w = w) by (apply wrap_id; unfold is_uint; lia).
  assert (Hcase : op = 0x6C /\ v = 1 \/ op = 0x71 /\ v = -1 \/
    v = 0 /\ In op [0x6A; 0x6B; 0x72; 0x73; 0x74; 0x75; 0x76]).
  { unfold is_rhs_identity, I32_ADD, I32_SUB, I32_MUL, I32_AND, I32_OR, I32_XOR, I32_SHL, I32_SHR_U in Hid.
    simpl. lia. }
  destruct Hcase as [[-> ->]|[[-> ->]|[-> Hop]]].
  - simpl. intros [= <-]. by rewrite Z.mul_1_r.
  - intros [= <-]. change (u32 (-1)) with (2 ^ 32 - 1). rewrite land_ones_mod by lia. exact Hu.
  - simpl in Hop. destruct Hop as [<-|[<-|[<-|[<-|[<-|[<-|[<-|[]]]]]]]]; simpl; intros [= <-];
      rewrite ?Z.add_0_r, ?Z.sub_0_r, ?Z.lor_0_r, ?Z.lxor_0_r, ?Z.mul_1_r, ?Z.div_1_r; try done.
    by rewrite wrap_sext.
Qed.

(** ** The rewriting rules of the pass *)

Inductive fold_rule : list token -> list token -> Prop :=
| rule_triple a b c va vb r :
    const_value a = Some va -> const_value b = Some vb -> evaluate (opcode c) va vb = Some r ->
    fold_rule [a; b; c] [I32_CONST :: write_sleb128_i32 r]
| rule_pair a b v :
    const_value a = Some v -> is_rhs_identity (opcode b) v = true -> fold_rule [a; b] [].

Lemma const_value_inv t v : const_value t = Some v -> opcode t = 0x41 /\ is_sint 32 v.
Proof.
  destruct t as [|op imm]; [done|]. simpl. destruct (Z.eqb_spec op 0x41); [|done].
  intros ([r n] & H & ->)%fmap_Some. split; [done|]. by eapply read_i32_sint.
Qed.

Lemma const_value_write r : is_sint 32 r -> const_value (I32_CONST :: write_sleb128_i32 r) = Some r.
Proof.
  intros H. simpl. rewrite write_sleb128_i32_eq, <- (app_nil_r (write_i32 r)).
  by rewrite read_i32_write.
Qed.

Lemma evaluate_binop op a b r : evaluate op a b = Some r -> is_i32_binop op = true /\ op <> 0x41.
Proof.
  unfold evaluate, I32_ADD, I32_SUB, I32_MUL, I32_AND, I32_OR, I32_XOR, I32_SHL, I32_SHR_U.
  repeat (case_match; [match goal with H : (_ =? _) = true |- _ => apply Z.eqb_eq in H as -> end; done|]).
  done.
Qed.

Lemma identity_binop op v : is_rhs_identity op v = true -> is_i32_binop op = true /\ op <> 0x41.
Proof.
  unfold is_rhs_identity, I32_ADD, I32_SUB, I32_MUL, I32_AND, I32_OR, I32_XOR, I32_SHL, I32_SHR_U.
  intros H.
  assert (Hop : In op [0x6A; 0x6B; 0x72; 0x73; 0x74; 0x75; 0x76; 0x6C; 0x71]) by (simpl; lia).
  simpl in Hop. repeat destruct Hop as [<-|Hop]; done.
Qed.

Lemma const_straight t v : const_value t = Some v -> straight t = true.
Proof. intros [H _]%const_value_inv. unfold straight. by rewrite H. Qed.

Lemma binop_straight t : is_i32_binop (opcode t) = true -> straight t = true.
Proof.
  unfold straight. intros H. destruct (one_of _ _) eqn:E; [|done]. exfalso. revert E H.
  generalize (opcode t). intros op E. simpl in E.
  assert (Hop : In op [0; 2; 3; 4; 5; 11; 12; 13; 14; 15]) by (simpl; lia).
  simpl in Hop. repeat destruct Hop as [<-|Hop]; done.
Qed.

Lemma fold_rule_straight x y : fold_rule x y ->
  Forall (fun t => straight t = true) x /\ Forall (fun t => straight t = true) y.
Proof.
  intros [a b c va vb r Ha Hb Hr|a b v Ha Hv].
  - pose proof (evaluate_binop _ _ _ _ Hr) as [? _].
    repeat constructor; eauto using const_straight, binop_straight.
  - pose proof (identity_binop _ _ Hv) as [? _].
    repeat constructor; eauto using const_straight, binop_straight.
Qed.

Lemma fold_rule_balanced x y : fold_rule x y -> balanced x /\ balanced y.
Proof. intros [Hx Hy]%fold_rule_straight. unfold balanced. by rewrite !nest_straight. Qed.

Section rules_sound.
Context {Val St : Type} (prim : token -> St -> list (@value Val) -> @effect Val St).

Lemma plain_const t v s stk : const_value t = Some v ->
  plain prim t s stk = Done s (I32 (u32 v) :: stk).
Proof.
  intros H. pose proof (const_value_inv _ _ H) as [E _]. unfold plain. by rewrite E, H.
Qed.

Lemma plain_binop t s stk : is_i32_binop (opcode t) = true -> opcode t <> 0x41 ->
  plain prim t s stk =
  match stk with
  | I32 b :: I32 a :: stk =>
      match i32_binop (opcode t) a b with Some r => Done s (I32 r :: stk) | None => Stuck end
  | _ => Stuck
  end.
Proof.
  intros Hb Hne. unfold plain. replace (opcode t =? 0x41) with false by lia. by rewrite Hb.
Qed.

Lemma fold_rule_quiet x y : fold_rule x y -> quiet prim x.
Proof.
  intros [a b c va vb r Ha Hb Hr|a b v Ha Hv] s stk; simpl.
  - pose proof (evaluate_binop _ _ _ _ Hr) as [Hop Hne].
    rewrite (plain_const _ _ _ _ Ha), (plain_const _ _ _ _ Hb), plain_binop by done.
    by destruct (i32_binop _ _ _).
  - pose proof (identity_binop _ _ Hv) as [Hop Hne].
    rewrite (plain_const _ _ _ _ Ha), plain_binop by done.
    destruct stk as [|[w|] stk]; [done| |done]. by destruct (i32_binop _ _ _).
Qed.

Lemma fold_rule_sound x y s stk s' stk' : fold_rule x y ->
  plains prim x s stk = Done s' stk' -> plains prim y s stk = Done s' stk'.
Proof.
  intros [a b c va vb r Ha Hb Hr|a b v Ha Hv]; simpl.
  - pose proof (evaluate_binop _ _ _ _ Hr) as [Hop Hne].
    rewrite (plain_const _ _ _ _ Ha), (plain_const _ _ _ _ Hb), plain_binop by done.
    destruct (const_value_inv _ _ Ha) as [_ Hsa]. destruct (const_value_inv _ _ Hb) as [_ Hsb].
    destruct (evaluate_correct _ _ _ _ Hsa Hsb Hr) as [Hsr ->].
    by rewrite (plain_const _ _ _ _ (const_value_write r Hsr)).
  - pose proof (identity_binop _ _ Hv) as [Hop Hne].
    rewrite (plain_const _ _ _ _ Ha), plain_binop by done.
    destruct stk as [|[w|] stk]; [done| |done].
    destruct (i32_binop _ _ _) as [r|] eqn:Hr; [|done].
    by rewrite (rhs_identity_correct _ _ _ _ Hv Hr).
Qed.

Context (arity : token -> option (nat * nat)) (table_label : token -> Z -> option nat) (results : nat).

Lemma fold_rule_refines x y : fold_rule x y ->
  refines_fragment prim arity table_label results x y.
Proof.
  intros H. destruct (fold_rule_straight _ _ H) as [Hx Hy].
  apply straight_refines; [done..| | |by eapply fold_rule_quiet|intros; by eapply fold_rule_sound].
  - by destruct H.
  - destruct H; simpl; lia.
Qed.
End rules_sound.

(** ** The pass on instruction lists *)

Definition tok_triple (a b c : token) : option Z :=
  match const_value a, const_value b with
  | Some va, Some vb => evaluate (opcode c) va vb
  | _, _ => None
  end.

Definition tok_pair (a b : token) : bool :=
  match const_value a with Some v => is_rhs_identity (opcode b) v | None => false end.

(** [folded p o ts rs qs es]: the instructions [ts] at offset [p] are rewritten
    by the replacements [rs] into [qs], at offset [o] of the output, and [es]
    are the edits. *)
Inductive folded : Z -> Z -> list token -> list (Z * Z * Repl) -> list token -> list Edit -> Prop :=
| folded_nil p o : folded p o [] [] [] []
| folded_keep p o t ts rs qs es :
    folded (p + len t) (o + len t) ts rs qs es -> folded p o (t :: ts) rs (t :: qs) es
| folded_triple p o a b c v new ts rs qs es :
    tok_triple a b c = Some v -> new = I32_CONST :: write_sleb128_i32 v ->
    let n := len a + len b + len c in
    folded (p + n) (o + len new) ts rs qs es ->
    folded p o (a :: b :: c :: ts) ((p, p + n, RConst v) :: rs) (new :: qs)
      (edit_subst p n o (len new) :: es)
| folded_pair p o a b ts rs qs es :
    tok_pair a b = true ->
    let n := len a + len b in
    folded (p + n) o ts rs qs es ->
    folded p o (a :: b :: ts) ((p, p + n, REmpty) :: rs) qs (edit_delete p n o :: es).

Lemma folded_rewrites p o ts rs qs es : folded p o ts rs qs es -> rewrites fold_rule ts qs.
Proof.
  induction 1 as [| |p o a b c v new ts rs qs es Hv Hnew n _ IH|p o a b ts rs qs es Hv n _ IH].
  - constructor.
  - by constructor.
  - unfold tok_triple in Hv. destruct (const_value a) as [va|] eqn:Ha; [|done].
    destruct (const_value b) as [vb|] eqn:Hb; [|done]. subst new.
    by apply (rewrites_here _ [a; b; c] [_]); [eapply rule_triple|].
  - unfold tok_pair in Hv. destruct (const_value a) as [v|] eqn:Ha; [|done].
    by apply (rewrites_here _ [a; b] []); [eapply rule_pair|].
Qed.

Lemma const_value_eq t : complete t -> const_value t =
  if opcode t =? I32_CONST then fst <$> read_sleb128_i32 (tl t) else None.
Proof. intros H%complete_pos. destruct t; [done|]. by rewrite read_sleb128_i32_eq. Qed.

Abbreviation span_at p t := (p%Z, p%Z + len t).

Lemma fold_triple_spec body pre a b c rest : body = pre ++ a ++ b ++ c ++ rest ->
  complete a -> complete b -> complete c ->
  let p := len pre in
  fold_triple body (p, p + len a) (p + len a, p + len a + len b)
    (p + len a + len b, p + len a + len b + len c) = Ret (tok_triple a b c).
Proof.
  intros Hb Ha Hb' Hc p. unfold fold_triple, tok_triple. cbn [fst snd].
  rewrite !const_value_eq by done.
  assert (Hb2 : body = (pre ++ a) ++ b ++ c ++ rest) by by rewrite <- app_assoc.
  assert (Hb3 : body = (pre ++ a ++ b) ++ c ++ rest) by by rewrite <- !app_assoc.
  replace (p + len a + len b) with (len (pre ++ a ++ b)) by (rewrite !len_app; unfold p; lia).
  unfold p. rewrite (read_opcode body pre a _ Hb Ha), (read_immediate body pre a _ Hb Ha).
  cbn [mbind outcome_bind]. destruct (opcode a =? I32_CONST); simpl; [|done].
  rewrite <- len_app, (read_opcode body _ b _ Hb2 Hb'). simpl.
  replace (len (pre ++ a ++ b)) with (len (pre ++ a) + len b) by (rewrite !len_app; lia).
  rewrite (read_immediate body _ b _ Hb2 Hb').
  destruct (opcode b =? I32_CONST); simpl; [|by destruct (read_sleb128_i32 (tl a)) as [[]|]].
  destruct (read_sleb128_i32 (tl a)) as [[va n]|]; simpl; [|done].
  destruct (read_sleb128_i32 (tl b)) as [[vb m]|]; simpl; [|done].
  replace (len (pre ++ a) + len b) with (len (pre ++ a ++ b)) by (rewrite !len_app; lia).
  by rewrite (read_opcode body _ c _ Hb3 Hc).
Qed.

Lemma fold_pair_spec body pre a b rest : body = pre ++ a ++ b ++ rest ->
  complete a -> complete b ->
  let p := len pre in
  fold_pair body (p, p + len a) (p + len a, p + len a + len b) = Ret (tok_pair a b).
Proof.
  intros Hb Ha Hb' p. unfold fold_pair, tok_pair. cbn [fst snd].
  rewrite !const_value_eq by done.
  assert (Hb2 : body = (pre ++ a) ++ b ++ rest) by by rewrite <- app_assoc.
  unfold p. rewrite (read_opcode body pre a _ Hb Ha), (read_immediate body pre a _ Hb Ha).
  cbn [mbind outcome_bind]. destruct (opcode a =? I32_CONST); simpl; [|done].
  destruct (read_sleb128_i32 (tl a)) as [[va n]|]; simpl; [|done].
  by rewrite <- len_app, (read_opcode body _ b _ Hb2 Hb').
Qed.

(** The spans of the walk, as the pass keeps them. *)
Definition as_spans (l : list (Z * Z)) : list (Z * Z) := (fun '(p, n) => (p, p + n)) <$> l.

(** The search never indexes out of range, and finds a rewriting. *)
Lemma find_folded body n : forall pre ts o, (length ts <= n)%nat -> body = pre ++ mjoin ts ->
  Forall complete ts ->
  exists rs qs es, find_replacements body (as_spans (spans_at (len pre) ts)) = Ret rs /\
    folded (len pre) o ts rs qs es.
Proof.
  induction n as [|n IH]; intros pre ts o Hn Hbody Hts.
  { destruct ts; [|simpl in Hn; lia]. exists [], [], []. split; [done|constructor]. }
  destruct Hts as [|a ts Ha Hts]; [exists [], [], []; split; [done|constructor]|].
  assert (Hkeep : exists rs qs es,
    find_replacements body (as_spans (spans_at (len pre + len a) ts)) = Ret rs /\
    folded (len pre) o (a :: ts) rs (a :: qs) es).
  { destruct (IH (pre ++ a) ts (o + len a)) as (rs & qs & es & Hf & Hr);
      [simpl in Hn; lia|by rewrite <- app_assoc|done|].
    rewrite len_app in Hf, Hr. exists rs, qs, es. split; [done|]. by constructor. }
  destruct Hkeep as (rsk & qsk & esk & Hfk & Hrk).
  destruct Hts as [|b ts Hb Hts]; [by exists rsk, (a :: qsk), esk|].
  assert (Hbody2 : body = (pre ++ a ++ b) ++ mjoin ts) by by rewrite <- !app_assoc.
  pose proof (fold_pair_spec body pre a b (mjoin ts) Hbody Ha Hb) as Hpair.
  assert (Htwo : exists rs qs es,
    (pair ← fold_pair body (span_at (len pre) a) (span_at (len pre + len a) b);
     if pair : bool then
       tail ← find_replacements body (as_spans (spans_at (len pre + len a + len b) ts));
       Ret ((len pre, len pre + len a + len b, REmpty) :: tail)
     else find_replacements body (as_spans (spans_at (len pre + len a) (b :: ts)))) = Ret rs /\
    folded (len pre) o (a :: b :: ts) rs qs es).
  { rewrite Hpair. simpl. destruct (tok_pair a b) eqn:Hp; [|by exists rsk, (a :: qsk), esk].
    destruct (IH (pre ++ a ++ b) ts o) as (rs & qs & es & Hf & Hr); [simpl in Hn; lia|done..|].
    rewrite !len_app in Hf, Hr. rewrite <- Z.add_assoc, Hf. simpl.
    do 3 eexists. split; [done|]. by apply folded_pair. }
  destruct Htwo as (rs2 & qs2 & es2 & Hf2 & Hr2).
  destruct Hts as [|c ts Hc Hts]; [by exists rs2, qs2, es2|].
  pose proof (fold_triple_spec body pre a b c (mjoin ts) Hbody Ha Hb Hc) as Htriple.
  cbn [as_spans spans_at fmap list_fmap find_replacements fst snd].
  cbv zeta in Htriple. rewrite Htriple. cbn [mbind outcome_bind].
  destruct (tok_triple a b c) as [v|] eqn:Hv; [|by exists rs2, qs2, es2].
  destruct (IH (pre ++ a ++ b ++ c) ts (o + len (I32_CONST :: write_sleb128_i32 v)))
    as (rs & qs & es & Hf & Hr); [simpl in Hn; lia|by rewrite Hbody2, <- !app_assoc|done|].
  replace (len (pre ++ a ++ b ++ c)) with (len pre + (len a + len b + len c)) in Hf, Hr
    by (rewrite !len_app; lia).
  replace (len pre + len a + len b + len c) with (len pre + (len a + len b + len c)) by lia.
  unfold as_spans in Hf. rewrite Hf. cbn [mbind outcome_bind].
  do 3 eexists. split; [done|]. by eapply folded_triple.
Qed.

(** ** The output and its edits *)

(** The rewriting loop writes the rewritten instructions; [keep] are the
    instructions copied since the last replacement. *)
Definition emitted (body : bytes) (p o : Z) (ts : list token) (rs : list (Z * Z * Repl))
    (qs : list token) (es : list Edit) : Prop :=
  forall pre keep out e, body = pre ++ keep ++ mjoin ts ->
  p = len pre + len keep -> o = len out + len keep ->
  exists e', emit_replacements body rs (len pre) out e = Ret (out ++ keep ++ mjoin qs, e') /\
    (len body < 2 ^ 32 -> len (out ++ keep ++ mjoin qs) < 2 ^ 32 -> extends e e' es).

(** After a replacement the loop goes on with nothing pending. *)
Lemma emitted_after body p o ts rs qs es x pre keep out e :
  emitted body p o ts rs qs es -> body = pre ++ keep ++ x ++ mjoin ts ->
  p = len pre + len keep + len x -> o = len out ->
  exists e', emit_replacements body rs p out e = Ret (out ++ mjoin qs, e') /\
    (len body < 2 ^ 32 -> len (out ++ mjoin qs) < 2 ^ 32 -> extends e e' es).
Proof.
  intros H Hb Hp Ho. destruct (H (pre ++ keep ++ x) [] out e) as (e' & He & Hx).
  - by rewrite Hb, <- !app_assoc.
  - rewrite !len_app, len_nil. lia.
  - rewrite len_nil. lia.
  - exists e'. rewrite !len_app, Z.add_assoc, <- Hp in He. done.
Qed.

Lemma emit_folded body p o ts rs qs es : folded p o ts rs qs es -> emitted body p o ts rs qs es.
Proof.
  induction 1 as [p o|p o t ts rs qs es _ IH|p o a b c v new ts rs qs es Hv Hnew n _ IH
    |p o a b ts rs qs es Hv n _ IH]; intros pre keep out e Hbody Hp Ho; simpl.
  - rewrite Hbody, slice_from_len. exists e. simpl. rewrite !app_nil_r. split; [done|].
    intros _ _. unfold extends. by rewrite !app_nil_r.
  - destruct (IH pre (keep ++ t) out e) as (e' & He & Hx);
      [by rewrite Hbody, <- !app_assoc|rewrite len_app; lia..|].
    exists e'. rewrite <- !app_assoc in He, Hx. done.
  - assert (Hsl : slice body (len pre) p = Ret keep) by (rewrite Hp, Hbody; apply slice_keep).
    rewrite Hsl, <- Hnew. cbn [mbind outcome_bind].
    match goal with |- context [emit_replacements _ _ _ ?out' ?e1] =>
      destruct (emitted_after body (p + n) (o + len new) ts rs qs es (a ++ b ++ c) pre keep out' e1 IH)
        as (e' & -> & Hx) end.
    { by rewrite Hbody, <- !app_assoc. }
    { rewrite !len_app. lia. }
    { rewrite !len_app. lia. }
    exists e'. rewrite <- !app_assoc in *. split; [done|]. intros Hlb Hlo. apply extends_push.
    specialize (Hx Hlb Hlo). rewrite Hbody in Hlb. unfold edit_subst in *. rewrite !len_app in *.
    change (mjoin (a :: b :: c :: ts)) with (a ++ b ++ c ++ mjoin ts) in Hlb. rewrite !len_app in Hlb.
    pose proof (len_nonneg pre). pose proof (len_nonneg keep). pose proof (len_nonneg out).
    pose proof (len_nonneg new). pose proof (len_nonneg (mjoin qs)). pose proof (len_nonneg (mjoin ts)).
    pose proof (len_nonneg a). pose proof (len_nonneg b). pose proof (len_nonneg c).
    assert (Hn : n = len a + len b + len c) by done. clearbody n.
    rewrite !(u32_small (len out + _)), !u32_small in Hx by lia.
    replace (p + n - p) with n in Hx by lia.
    replace (len out + (len keep + len new) - (len out + len keep)) with (len new) in Hx by lia.
    rewrite <- Ho in Hx. done.
  - assert (Hsl : slice body (len pre) p = Ret keep) by (rewrite Hp, Hbody; apply slice_keep).
    rewrite Hsl. cbn [mbind outcome_bind].
    match goal with |- context [emit_replacements _ _ _ ?out' ?e1] =>
      destruct (emitted_after body (p + n) o ts rs qs es (a ++ b) pre keep out' e1 IH)
        as (e' & -> & Hx) end.
    { by rewrite Hbody, <- !app_assoc. }
    { rewrite !len_app. lia. }
    { rewrite !len_app. lia. }
    exists e'. rewrite <- !app_assoc in *. split; [done|]. intros Hlb Hlo. apply extends_push.
    specialize (Hx Hlb Hlo). rewrite Hbody in Hlb. unfold edit_delete in *. rewrite !len_app in *.
    change (mjoin (a :: b :: ts)) with (a ++ b ++ mjoin ts) in Hlb. rewrite !len_app in Hlb.
    pose proof (len_nonneg pre). pose proof (len_nonneg keep). pose proof (len_nonneg out).
    pose proof (len_nonneg (mjoin qs)). pose proof (len_nonneg (mjoin ts)).
    pose proof (len_nonneg a). pose proof (len_nonneg b).
    assert (Hn : n = len a + len b) by done. clearbody n.
    rewrite !u32_small in Hx by lia.
    replace (p + n - p) with n in Hx by lia. rewrite <- Ho in Hx. done.
Qed.

(** The edits are a script for the rewrite. *)
Lemma folded_script p o ts rs qs es : folded p o ts rs qs es -> forall p' o' keep,
  p = p' + len keep -> o = o' + len keep -> script p' o' (keep ++ mjoin ts) (keep ++ mjoin qs) es.
Proof.
  induction 1 as [p o|p o t ts rs qs es _ IH|p o a b c v new ts rs qs es Hv Hnew n _ IH
    |p o a b ts rs qs es Hv n _ IH]; intros p' o' keep Hp Ho.
  - constructor.
  - change (mjoin (t :: ts)) with (t ++ mjoin ts). change (mjoin (t :: qs)) with (t ++ mjoin qs).
    rewrite !app_assoc. apply IH; rewrite len_app; lia.
  - apply script_copy. rewrite <- Hp, <- Ho. unfold edit_subst, n. rewrite <- Z.add_assoc, <- !len_app.
    change (mjoin (a :: b :: c :: ts)) with (a ++ b ++ c ++ mjoin ts).
    rewrite (app_assoc b), (app_assoc a). apply (script_replace p o (a ++ b ++ c) new).
    apply (IH _ _ []); rewrite ?len_nil, ?len_app; unfold n; lia.
  - apply script_copy. rewrite <- Hp, <- Ho. unfold edit_delete, n. rewrite <- !len_app.
    change (mjoin (a :: b :: ts)) with (a ++ b ++ mjoin ts).
    rewrite (app_assoc a). apply (script_replace p o (a ++ b) []).
    apply (IH _ _ []); rewrite ?len_nil, ?len_app; unfold n; lia.
Qed.

(** The pass as a whole, on a body that decodes. *)
Lemma fold_body_spec body locals ts : decodes body locals ts ->
  exists rs qs es, folded (len locals) (len locals) ts rs qs es /\
    (rs = [] -> fold_body_with_edits body = Ret None) /\
    (rs <> [] -> exists e, fold_body_with_edits body = Ret (Some (locals ++ mjoin qs, e)) /\
       (len body < 2 ^ 32 -> len (locals ++ mjoin qs) < 2 ^ 32 -> extends be_identity e es)).
Proof.
  intros [Hb Hl Hts].
  destruct (find_folded body (length ts) locals ts (len locals)) as (rs & qs & es & Hf & Hr); [done..|].
  exists rs, qs, es. split; [done|].
  assert (Hwalk : (start ← skip_locals body; walk body start) = Some (spans_at (len locals) ts)).
  { rewrite Hl. simpl. rewrite Hb. by apply walk_join. }
  unfold fold_body_with_edits. rewrite Hwalk. unfold as_spans in Hf. rewrite Hf.
  cbn [mbind outcome_bind]. split; [by intros ->|]. intros Hne.
  destruct (emit_folded body _ _ _ _ _ _ Hr [] locals [] be_identity Hb) as (e & He & Hx);
    [rewrite len_nil; lia..|].
  exists e. change (len []) with 0 in He. rewrite app_nil_l in He. rewrite He.
  destruct rs; done.
Qed.

Lemma folded_complete p o ts rs qs es : folded p o ts rs qs es -> Forall complete ts ->
  Forall complete qs.
Proof.
  induction 1 as [| |p o a b c v new ts rs qs es Hv Hnew n _ IH|p o a b ts rs qs es Hv n _ IH];
    intros Hts; [done|..].
  - apply Forall_cons in Hts as [? ?]. by constructor; eauto.
  - do 3 apply Forall_cons in Hts as [_ Hts]. constructor; [|by apply IH].
    unfold tok_triple in Hv. destruct (const_value a) as [va|] eqn:Ha; [|done].
    destruct (const_value b) as [vb|] eqn:Hb; [|done].
    destruct (const_value_inv _ _ Ha) as [_ Hsa]. destruct (const_value_inv _ _ Hb) as [_ Hsb].
    destruct (evaluate_correct _ _ _ _ Hsa Hsb Hv) as [Hsv _]. subst new.
    apply complete_cons. rewrite write_sleb128_i32_eq.
    change (imm_len I32_CONST (write_i32 v)) with (skip_len (write_i32 v)).
    assert (Hw : write_i32 v = write_i64 v).
    { unfold write_i32, write_i64. symmetry. unfold is_sint in Hsv.
      apply write_sleb_loop_enough; [simpl in *; lia|lia]. }
    rewrite skip_len_read_i64, Hw, <- (app_nil_r (write_i64 v)), read_i64_write.
    { by rewrite app_nil_r. }
    unfold is_sint in *. simpl in *. lia.
  - do 2 apply Forall_cons in Hts as [_ Hts]. by apply IH.
Qed.

Lemma folded_no_repls p o ts qs es : folded p o ts [] qs es -> qs = ts.
Proof.
  remember [] as rs eqn:Hrs. induction 1; try done. by f_equal; apply IHfolded.
Qed.

(** ** Applying the pass to a module *)

Definition apply_mut (m : MutModule) : outcome MutModule := run_pass fold_body_with_edits m.

(** [apply]: the pass on a parsed module, with its own loop over the code
    section.  The first loop folds the bodies it can size; the second one
    copies them behind their new sizes. *)
Fixpoint fold_bodies (fuel : nat) (payload : bytes) (count off : Z) : outcome (list (option bytes)) :=
  if count <=? 0 then Ret [] else
  match fuel with
  | O => Panic
  | S fuel =>
      rest ← slice_from payload off;
      match read_u32 rest with
      | None => Ret []
      | Some (body_size, size_consumed) =>
          let off := off + size_consumed in
          body ← slice payload off (off + body_size);
          r ← fold_body body;
          tail ← fold_bodies fuel payload (count - 1) (off + body_size);
          Ret (r :: tail)
      end
  end.

Definition apply (m : WasmModule) : outcome bytes :=
  let data := wm_data m in
  match position_code (wm_sections m) with
  | None => Ret data
  | Some code_sec_idx =>
      code_sec ← index (wm_sections m) (Z.of_nat code_sec_idx);
      payload ← span_slice (sec_payload code_sec) data;
      match read_u32 payload with
      | None => Ret data
      | Some (func_count, off) =>
          replacements ← fold_bodies (S (length payload)) payload func_count off;
          if forallb (fun r => match r with None => true | Some _ => false end) replacements
          then Ret data
          else
            bodies ← rebuild_bodies payload replacements (u32_size func_count);
            emit_with_replacements m {[ code_sec_idx := write_u32 func_count ++ bodies ]}
      end
  end.

(** ** The module-level entry point *)

Definition fold_results (f : body_chunk -> option bytes) (bs : list body_chunk) : Prop :=
  Forall (fun b => fold_body (bc_body b) = Ret (f b)) bs.

Lemma fold_bodies_spec f bs : Forall bc_ok bs -> fold_results f bs ->
  forall fuel pre, (length bs <= fuel)%nat ->
  fold_bodies fuel (pre ++ bcs_bytes bs) (len bs) (len pre) = Ret (f <$> bs).
Proof.
  intros Hok Hf. induction Hf as [|b bs Hb Hf IH]; intros fuel pre Hfuel; [by destruct fuel|].
  apply Forall_cons in Hok as [Hok Hoks]. destruct fuel as [|fuel]; [simpl in Hfuel; lia|].
  cbn [fold_bodies]. pose proof (len_nonneg bs).
  replace (len (b :: bs) <=? 0) with false by (rewrite len_cons; lia).
  rewrite bcs_bytes_cons. destruct (read_chunk pre b (bcs_bytes bs) Hok) as (-> & E & Hs & Hl).
  cbn [mbind outcome_bind]. rewrite E, Hs, Hl. cbn [mbind outcome_bind]. rewrite Hb. cbn [mbind outcome_bind].
  rewrite len_cons, app_assoc. replace (1 + len bs - 1) with (len bs) by lia.
  rewrite IH by (done || (simpl in Hfuel; lia)). done.
Qed.

(** ** The contract *)

Lemma fold_rule_nonempty x y : fold_rule x y -> x <> [].
Proof. by destruct 1. Qed.

Lemma fold_rule_branches x y : fold_rule x y -> Forall (fun t => no_ref_branch t = true) y.
Proof. destruct 1; by repeat constructor. Qed.

Lemma fold_rule_doubles x y : fold_rule x y -> doubles x y.
Proof.
  intros [a b c va vb r _ _ _|a b v _ _] Hx.
  - apply Forall_cons in Hx as [Ha%complete_pos [Hb%complete_pos [Hc%complete_pos _]%Forall_cons]%Forall_cons].
    rewrite !len_join_cons, len_join_nil, write_sleb128_i32_eq, len_cons. pose proof (write_i32_len r). lia.
  - apply Forall_cons in Hx as [Ha%complete_pos [Hb%complete_pos _]%Forall_cons].
    rewrite !len_join_cons, !len_join_nil. lia.
Qed.

Lemma fold_preserves body locals p : decodes body locals p ->
  exists r, fold_body_with_edits body = Ret r /\ forall out e, r = Some (out, e) -> len out <= 2 * len body /\ (2 * len body < 2 ^ 32 -> aligned e) /\ exists q, decodes out locals q /\ rewrites fold_rule p q.
Proof.
  intros Hd. destruct (fold_body_spec _ _ _ Hd) as (rs & qs & es & Hf & Hnone & Hsome).
  destruct (decide (rs = [])) as [E|Hne]; [exists None; by rewrite (Hnone E)|].
  destruct (Hsome Hne) as (e & He & Hx). exists (Some (locals ++ mjoin qs, e)). split; [done|].
  intros out e' [= <- <-]. pose proof Hd as [Hb Hl Hts]. pose proof (rewrites_len _ _ _ fold_rule_doubles (folded_rewrites _ _ _ _ _ _ Hf) Hts).
  pose proof (len_nonneg locals).
  assert (Hlen : len (locals ++ mjoin qs) <= 2 * len body) by (rewrite Hb, !len_app; lia).
  split_and!; [done| |].
  - intros H2. pose proof (len_nonneg body). destruct Hx as [Hx1 Hx2]; [lia..|].
    unfold aligned. rewrite Hx1, Hx2. simpl. by rewrite length_replicate.
  - exists qs. split; [|by eapply folded_rewrites]. constructor; [done| |by eapply folded_complete].
    apply skip_locals_app, (shrink_skip_locals locals (mjoin p)); [by rewrite <- Hb|done].
Qed.

Lemma fold_script body locals p out e :
  decodes body locals p -> len body + len out < 2 ^ 32 ->
  fold_body_with_edits body = Ret (Some (out, e)) ->
  Provenance.apply (supply (edits e) out) e body = Ret (Some out).
Proof.
  intros Hd Hl Hout. destruct (fold_body_spec _ _ _ Hd) as (rs & qs & es & Hf & Hnone & Hsome).
  destruct (decide (rs = [])) as [E|Hne]; [by rewrite (Hnone E) in Hout|].
  destruct (Hsome Hne) as (e' & He & Hx). rewrite Hout in He. injection He as -> ->.
  pose proof (len_nonneg body). pose proof (len_nonneg (locals ++ mjoin qs)).
  destruct Hx as [He1 He2]; [lia|lia|]. simpl in He1, He2.
  apply script_apply; [done|by rewrite He2, He1|]. rewrite He1, (dec_bytes _ _ _ Hd).
  by apply (folded_script _ _ _ _ _ _ Hf).
Qed.

#[global] Instance const_fold_pass : BodyPass fold_body_with_edits.
Proof.
  split.
  - intros body locals p [Hd Hc Hb] Hl. destruct (fold_preserves _ _ _ Hd) as (r & Hr & Hout).
    exists r. split; [done|]. intros out e E. destruct (Hout out e E) as (Hlen & Hal & q & Hq & Hrw).
    split_and!; [done|by apply Hal|]. exists q. split; [split; [done| |]|].
    + by eapply closes_rewrites; [exact fold_rule_balanced|exact fold_rule_nonempty|..].
    + eapply rewrites_Forall; [|exact Hrw|done]. intros x y Hxy _. by eapply fold_rule_branches.
    + intros Val St prim arity table_label results lget lset zero64 s stk n res _ _ Hrun Hns.
      eapply (rewrites_run prim arity table_label results fold_rule fold_rule_balanced
        (fold_rule_refines prim arity table_label results)); [|exact Hrun|done].
      by constructor.
  - intros body locals p out e [Hd _ _] _ Hout Hl. by eapply fold_script.
Qed.

(** ** Properties *)

(** C5. Constant folding preserves the behaviour of a body.  On a body that decodes
    into the instructions [p], the pass never panics; when it rewrites the body,
    the output has the same locals header and decodes into instructions [q] such
    that every run of [p] that does not get stuck (a valid program never does),
    from any state and stack and whatever the other instructions do, is
    reproduced by [q] in at most as many steps, with the same result. *)
Theorem fold_preserves_execution body locals p :
  decodes body locals p ->
  exists r, fold_body_with_edits body = Ret r /\
  forall out e, r = Some (out, e) ->
  exists q, decodes out locals q /\
  forall Val St prim arity table_label results (s : St) (stk : list (@value Val)) n res,
    run prim arity table_label results n (mkConfig p stk [] s) = Some res -> res <> StuckAt ->
    exists m, (m <= n)%nat /\ run prim arity table_label results m (mkConfig q stk [] s) = Some res.
Proof.
  intros Hd. destruct (fold_preserves _ _ _ Hd) as (r & Hr & Hout). exists r. split; [done|].
  intros out e E. destruct (Hout out e E) as (_ & _ & q & Hq & Hrw). exists q. split; [done|].
  intros Val St prim arity table_label results s stk n res Hrun Hns.
  eapply (rewrites_run prim arity table_label results fold_rule fold_rule_balanced
    (fold_rule_refines prim arity table_label results)); [|exact Hrun|done].
  by constructor.
Qed.

Definition sample_body : bytes := [0; 0x41; 10; 0x41; 20; 0x6A; 0x41; 0; 0x72; 0x0B].
Definition sample_code : list token := [[0x41; 10]; [0x41; 20]; [0x6A]; [0x41; 0]; [0x72]; [0x0B]].

Lemma sample_decodes : decodes sample_body [0] sample_code.
Proof. constructor; [done..|]. by repeat constructor. Defined.

Definition no_prim (_ : token) (_ : unit) (_ : list (@value Empty_set)) : @effect Empty_set unit := Stuck.
Abbreviation sample_run n code :=
  (run no_prim (fun _ => Some (0, 1)%nat) (fun _ _ => None) 1 n (mkConfig code [] [] tt)).

Lemma fold_preserves_execution_witness :
  sample_run 6%nat sample_code = Some (Halt tt [I32 30]) /\
  exists out e q m, fold_body_with_edits sample_body = Ret (Some (out, e)) /\ decodes out [0] q /\
    (m <= 6)%nat /\ sample_run m q = Some (Halt tt [I32 30]).
Proof.
  split; [reflexivity|].
  destruct (fold_preserves_execution _ _ _ sample_decodes) as (r & Hr & H).
  assert (E : fold_body_with_edits sample_body = Ret (Some (match r with Some x => x | None => ([], be_identity) end))).
  { rewrite Hr. revert Hr. destruct r as [|]; [reflexivity|discriminate]. }
  destruct r as [[out e]|]; [|discriminate Hr].
  destruct (H out e eq_refl) as (q & Hq & Hrun).
  destruct (Hrun Empty_set unit no_prim (fun _ => Some (0, 1)%nat) (fun _ _ => None) 1%nat tt [] 6%nat
    (Halt tt [I32 30]) ltac:(reflexivity) ltac:(discriminate)) as (m & Hm & Hrm).
  exists out, e, q, m. split; [exact E|]. split; [exact Hq|]. split; [exact Hm|exact Hrm].
Defined.

(** The edits recorded by constant folding are its exact provenance: when the
    body and its output are less than 4 GiB together, applying the edits to the
    body, with the bytes of each substitution read from the output span the edit
    names, rebuilds the output byte for byte. *)
Theorem fold_edits_apply body locals p out e :
  decodes body locals p -> len body + len out < 2 ^ 32 ->
  fold_body_with_edits body = Ret (Some (out, e)) ->
  Provenance.apply (supply (edits e) out) e body = Ret (Some out).
Proof.
  apply fold_script.
Qed.

Lemma fold_edits_apply_witness :
  let e := mkEdits [edit_subst 1 5 1 2; edit_delete 6 3 3] [None; None] in
  fold_body_with_edits sample_body = Ret (Some ([0; 0x41; 30; 0x0B], e)) /\
  Provenance.apply (supply (edits e) [0; 0x41; 30; 0x0B]) e sample_body = Ret (Some [0; 0x41; 30; 0x0B]).
Proof.
  intros e. assert (H : fold_body_with_edits sample_body = Ret (Some ([0; 0x41; 30; 0x0B], e))) by reflexivity.
  split; [exact H|]. refine (fold_edits_apply _ _ _ _ _ sample_decodes _ H). reflexivity.
Defined.

(** [apply_mut] folds every defined function and touches nothing else: each
    body becomes its folding, or stays as it was when nothing folds, and the
    sections of the module and their overrides are unchanged. *)
Theorem apply_mut_bodies m m' : apply_mut m = Ret m' ->
  (forall i, (i < length (mm_bodies m))%nat -> rewritten_bytes fold_body_with_edits m m' i) /\
  section_overrides m' = section_overrides m /\ section_removed m' = section_removed m /\
  mm_sections m' = mm_sections m /\ mm_input m' = mm_input m.
Proof.
  apply run_pass_bytes.
Qed.

Definition foldable_module : bytes :=
  wasm_header ++ [1; 4; 1; 0x60; 0; 0] ++ [3; 3; 2; 0; 0]
    ++ [10; 13; 2; 2; 0; 0x0B; 8; 0; 0x41; 1; 0x41; 2; 0x6A; 0x1A; 0x0B].

Lemma apply_mut_bodies_witness : exists m m',
  mm_new foldable_module = Ret (Ok m) /\ apply_mut m = Ret m' /\ rewritten_bytes fold_body_with_edits m m' 0 /\
  rewritten_bytes fold_body_with_edits m m' 1 /\ body_bytes m' 1 = Ret [0; 0x41; 3; 0x1A; 0x0B].
Proof.
  assert (H : exists m m', mm_new foldable_module = Ret (Ok m) /\ apply_mut m = Ret m' /\
    body_bytes m' 1 = Ret [0; 0x41; 3; 0x1A; 0x0B] /\ length (mm_bodies m) = 2%nat)
    by (do 2 eexists; repeat split).
  destruct H as (m & m' & H1 & H2 & H3 & H4). exists m, m'.
  destruct (apply_mut_bodies m m' H2) as [Hb _]. rewrite H4 in Hb.
  split; [exact H1|]. split; [exact H2|]. split; [apply Hb; lia|]. split; [apply Hb; lia|exact H3].
Defined.

(** The stand-alone entry point [apply] re-emits the module with the folded
    bodies, provided the code section's body count is encoded minimally: the
    second loop restarts at [u32_size] of the count. *)
Theorem apply_folds_code m idx code bs f :
  position_code (wm_sections m) = Some idx -> wm_sections m !! idx = Some code ->
  span_slice (sec_payload code) (wm_data m) = Ret (write_u32 (len bs) ++ bcs_bytes bs) ->
  code_payload_ok (write_u32 (len bs)) bs -> fold_results f bs ->
  apply m = if forallb (fun b => match f b with None => true | Some _ => false end) bs
            then Ret (wm_data m)
            else emit_with_replacements m
                   {[ idx := write_u32 (len bs) ++ mjoin (rebuilt f <$> bs) ]}.
Proof.
  intros Hpos Hcode Hpay [Hcnt Hbs] Hf. unfold apply. rewrite Hpos, (index_lookup _ _ _ Hcode).
  cbn [mbind outcome_bind]. rewrite Hpay. cbn [mbind outcome_bind].
  rewrite (read_u32_app _ _ _ _ Hcnt), (fold_bodies_spec f bs Hbs Hf)
    by (rewrite length_app; pose proof (bcs_count _ Hbs); lia).
  cbn [mbind outcome_bind].
  rewrite forallb_fmap.
  destruct (forallb _ bs); [done|].
  rewrite u32_size_write by (by eapply read_u32_bounds). by rewrite (rebuild_bodies_spec f bs Hbs).
Qed.

Definition foldable_chunks : list body_chunk :=
  [mkBC [2] [0; 0x0B]; mkBC [9] [0; 0x41; 1; 0x41; 2; 0x6A; 0x1A; 0x0B; 0x0B]].
Definition foldable_code (payload : bytes) : WasmModule :=
  {| wm_data := wasm_header ++ [10; len payload] ++ payload;
     wm_sections := [mkSection 10 (mkSpan 10 (len payload)) (mkSpan 8 (2 + len payload)) None];
     wm_function_bodies := None |}.
Definition chunk_fold (b : body_chunk) : option bytes :=
  match fold_body (bc_body b) with Ret r => r | Panic => None end.

Lemma apply_folds_code_witness :
  apply (foldable_code ([2] ++ bcs_bytes foldable_chunks))
  = Ret (wasm_header ++ [10; 11; 2; 2; 0; 0x0B; 6; 0; 0x41; 3; 0x1A; 0x0B; 0x0B]).
Proof.
  rewrite (apply_folds_code (foldable_code ([2] ++ bcs_bytes foldable_chunks)) 0
    (mkSection 10 (mkSpan 10 14) (mkSpan 8 16) None) foldable_chunks chunk_fold).
  - reflexivity.
  - reflexivity.
  - reflexivity.
  - reflexivity.
  - split; [reflexivity|]. repeat constructor.
  - repeat constructor.
Defined.

(** With a padded body count, which every reader of the repository accepts and
    linkers emit, [apply] corrupts the module: the second loop starts inside
    the count, so the first body is replaced by an empty one and the folded
    body follows, although the same module with a minimal count is rewritten
    correctly. *)
Theorem apply_padded_count_corrupts :
  read_u32 [0x82; 0x80; 0x80; 0x80; 0] = Some (2, 5) /\
  fold_bodies 20 ([0x82; 0x80; 0x80; 0x80; 0] ++ bcs_bytes foldable_chunks) 2 5
    = fold_bodies 20 ([2] ++ bcs_bytes foldable_chunks) 2 1 /\
  apply (foldable_code ([0x82; 0x80; 0x80; 0x80; 0] ++ bcs_bytes foldable_chunks))
    = Ret (wasm_header ++ [10; 9; 2; 0; 6; 0; 0x41; 3; 0x1A; 0x0B; 0x0B]).
Proof. repeat split. Qed.
