(* ===== verification/Vacuum.v ===== *)
(** The vacuum pass of wilt ([wilt/src/passes/vacuum.rs]): peephole removal of
    useless instructions and of dead code behind unconditional terminators, and
    the inference of provenance edits from the input and output bodies. *)
From S2P Require Import Prelude Leb128 Opcode Tokens WasmSem Peephole WasmSpec Provenance EditScript WasmModule MutModule Bits ConstFold.

Definition OP_NOP : Z := 0x01.
Definition OP_UNREACHABLE : Z := 0x00.
Definition OP_BLOCK : Z := 0x02.
Definition OP_LOOP : Z := 0x03.
Definition OP_IF : Z := 0x04.
Definition OP_ELSE : Z := 0x05.
Definition OP_END : Z := 0x0B.
Definition OP_BR : Z := 0x0C.
Definition OP_BR_TABLE : Z := 0x0E.
Definition OP_RETURN : Z := 0x0F.
Definition OP_DROP : Z := 0x1A.
Definition OP_LOCAL_GET : Z := 0x20.
Definition OP_LOCAL_SET : Z := 0x21.
Definition OP_LOCAL_TEE : Z := 0x22.
Definition OP_GLOBAL_GET : Z := 0x23.
Definition OP_I64_CONST : Z := 0x42.
Definition OP_F32_CONST : Z := 0x43.
Definition OP_F64_CONST : Z := 0x44.
Definition OP_REF_NULL : Z := 0xD0.
Definition OP_I32_EQ : Z := 0x46.
Definition OP_I32_EQZ : Z := 0x45.
Definition OP_I32_SHR_S : Z := 0x75.
Definition OP_I64_EQ : Z := 0x51.
Definition OP_I64_EQZ : Z := 0x50.

Definition is_pure_producer (op : Z) : bool :=
  one_of [OP_LOCAL_GET; OP_GLOBAL_GET; OP_I32_CONST; OP_I64_CONST; OP_F32_CONST; OP_F64_CONST;
          OP_REF_NULL; OP_REF_FUNC] op.
Definition is_block_starter (op : Z) : bool := one_of [OP_BLOCK; OP_LOOP; OP_IF] op.
Definition is_unconditional_terminator (op : Z) : bool :=
  one_of [OP_UNREACHABLE; OP_BR; OP_BR_TABLE; OP_RETURN] op.

(** ** The peepholes

    Each takes the instruction at hand (position, length, opcode) and the
    instructions that follow; when it fires it yields the number of following
    instructions to discard and the bytes to emit instead. *)

Abbreviation peephole := (outcome (option (Z * bytes))).

(** Empty void-typed control structures. *)
Definition peep_empty_block (body : bytes) (p n op : Z) (rest : list (Z * Z)) : peephole :=
  if negb (is_block_starter op && (n =? 2)) then Ret None else
  bt ← index body (p + 1);
  match rest with
  | (next_p, _) :: rest' =>
      if negb (bt =? 0x40) then Ret None else
      next_op ← index body next_p;
      if next_op =? OP_END then Ret (Some (1, if op =? OP_IF then [OP_DROP] else []))
      else
        match rest' with
        | (end_p, _) :: _ =>
            if (op =? OP_IF) && (next_op =? OP_ELSE) then
              end_op ← index body end_p;
              Ret (if end_op =? OP_END then Some (2, [OP_DROP]) else None)
            else Ret None
        | [] => Ret None
        end
  | [] => Ret None
  end.

(** Identity constants and comparisons with zero. *)
Definition peep_const (body : bytes) (p n op : Z) (rest : list (Z * Z)) : peephole :=
  match rest with
  | (np, _) :: _ =>
      if negb (n =? 2) then Ret None else
      imm ← index body (p + 1);
      nop ← index body np;
      let is_zero := imm =? 0x00 in
      let is_one := imm =? 0x01 in
      Ret (if (op =? OP_I32_CONST) && is_zero
              && one_of [I32_ADD; I32_OR; I32_XOR; I32_SUB; I32_SHL; OP_I32_SHR_S; I32_SHR_U] nop
           then Some (1, [])
           else if (op =? OP_I32_CONST) && is_one && (nop =? I32_MUL) then Some (1, [])
           else if (op =? OP_I32_CONST) && is_zero && (nop =? OP_I32_EQ) then Some (1, [OP_I32_EQZ])
           else if (op =? OP_I64_CONST) && is_zero && (nop =? OP_I64_EQ) then Some (1, [OP_I64_EQZ])
           else None)
  | [] => Ret None
  end.

Definition peep_producer_drop (body : bytes) (op : Z) (rest : list (Z * Z)) : peephole :=
  match rest with
  | (np, _) :: _ =>
      if negb (is_pure_producer op) then Ret None else
      nop ← index body np; Ret (if nop =? OP_DROP then Some (1, []) else None)
  | [] => Ret None
  end.

(** [read_u32(&body[p + 1..p + len]).unwrap_or((default, 0)).0] *)
Definition local_index (body : bytes) (p n default : Z) : outcome Z :=
  s ← slice body (p + 1) (p + n);
  Ret (match read_u32 s with Some (v, _) => v | None => default end).

Definition peep_get_set (body : bytes) (p n op : Z) (rest : list (Z * Z)) : peephole :=
  match rest with
  | (np, nlen) :: _ =>
      if negb (op =? OP_LOCAL_GET) then Ret None else
      nop ← index body np;
      if negb (nop =? OP_LOCAL_SET) then Ret None else
      a ← local_index body p n 0;
      b ← local_index body np nlen (2 ^ 32 - 1);
      Ret (if a =? b then Some (1, []) else None)
  | [] => Ret None
  end.

Definition peep_tee_drop (body : bytes) (p n op : Z) (rest : list (Z * Z)) : peephole :=
  match rest with
  | (np, _) :: _ =>
      if negb (op =? OP_LOCAL_TEE) then Ret None else
      nop ← index body np;
      if negb (nop =? OP_DROP) then Ret None else
      a ← local_index body p n 0;
      Ret (Some (1, OP_LOCAL_SET :: write_u32 a))
  | [] => Ret None
  end.

Definition peep_set_get (body : bytes) (p n op : Z) (rest : list (Z * Z)) : peephole :=
  match rest with
  | (np, nlen) :: _ =>
      if negb (op =? OP_LOCAL_SET) then Ret None else
      nop ← index body np;
      if negb (nop =? OP_LOCAL_GET) then Ret None else
      a ← local_index body p n 0;
      b ← local_index body np nlen (2 ^ 32 - 1);
      Ret (if a =? b then Some (1, OP_LOCAL_TEE :: write_u32 a) else None)
  | [] => Ret None
  end.

(** The first peephole that fires. *)
Fixpoint first_peephole (ps : list peephole) : peephole :=
  match ps with
  | [] => Ret None
  | q :: ps => r ← q; match r with Some x => Ret (Some x) | None => first_peephole ps end
  end.

Definition peepholes (body : bytes) (p n op : Z) (rest : list (Z * Z)) : peephole :=
  first_peephole
    [ peep_empty_block body p n op rest; peep_const body p n op rest;
      peep_producer_drop body op rest; peep_get_set body p n op rest;
      peep_tee_drop body p n op rest; peep_set_get body p n op rest ].

(** ** The pass over one body *)

(** The mutable variables of [clean_body]'s loop. *)
Record clean_state := mkClean {
  cl_dead : bool; cl_nested : Z; cl_skip : Z; cl_out : bytes; cl_changed : bool
}.

(** One iteration: the instruction [(p, n)], followed by [rest]. *)
Definition clean_step (body : bytes) (i : Z * Z) (rest : list (Z * Z)) (st : clean_state)
  : outcome clean_state :=
  let '(p, n) := i in
  if 0 <? cl_skip st then
    Ret (mkClean (cl_dead st) (cl_nested st) (cl_skip st - 1) (cl_out st) (cl_changed st))
  else
    op ← index body p;
    fired ← (if cl_dead st then Ret None else peepholes body p n op rest);
    match fired with
    | Some (k, emitted) =>
        Ret (mkClean (cl_dead st) (cl_nested st) k (cl_out st ++ emitted) true)
    | None =>
        if cl_dead st then
          if is_block_starter op then
            Ret (mkClean true (u32 (cl_nested st + 1)) 0 (cl_out st) true)
          else if (op =? OP_END) && negb (cl_nested st =? 0) then
            Ret (mkClean true (cl_nested st - 1) 0 (cl_out st) true)
          else if ((op =? OP_END) || (op =? OP_ELSE)) && (cl_nested st =? 0) then
            copied ← slice body p (p + n);
            Ret (mkClean false (cl_nested st) 0 (cl_out st ++ copied) (cl_changed st))
          else Ret (mkClean true (cl_nested st) 0 (cl_out st) true)
        else if op =? OP_NOP then
          Ret (mkClean false (cl_nested st) 0 (cl_out st) true)
        else
          copied ← slice body p (p + n);
          let out := cl_out st ++ copied in
          if is_unconditional_terminator op then Ret (mkClean true 0 0 out (cl_changed st))
          else Ret (mkClean false (cl_nested st) 0 out (cl_changed st))
    end.

Fixpoint clean_loop (body : bytes) (instrs : list (Z * Z)) (st : clean_state) : outcome clean_state :=
  match instrs with
  | [] => Ret st
  | i :: rest => st ← clean_step body i rest st; clean_loop body rest st
  end.

(** [instrs.iter().any(|&(p, _)| body[p] == 0xFB)] *)
Fixpoint any_gc (body : bytes) (instrs : list (Z * Z)) : outcome bool :=
  match instrs with
  | [] => Ret false
  | (p, _) :: rest => op ← index body p; if op =? 0xFB then Ret true else any_gc body rest
  end.

Definition clean_body (body : bytes) : outcome (option bytes) :=
  match skip_locals body with
  | None => Ret None
  | Some start =>
      match walk body start with
      | None => Ret None
      | Some instrs =>
          gc ← any_gc body instrs;
          if gc : bool then Ret None else
          header ← slice body 0 start;
          st ← clean_loop body instrs (mkClean false 0 0 header false);
          Ret (if cl_changed st then Some (cl_out st) else None)
      end
  end.

Example strip_nops : clean_body [0; 0x01; 0x01; 0x0B] = Ret (Some [0; 0x0B]).
Proof. reflexivity. Qed.
Example no_change : clean_body [0; 0x20; 0; 0x0B] = Ret None.
Proof. reflexivity. Qed.
Example const_drop : clean_body [0; 0x41; 5; 0x1A; 0x0B] = Ret (Some [0; 0x0B]).
Proof. reflexivity. Qed.
Example tee_drop : clean_body [0; 0x41; 5; 0x22; 3; 0x1A; 0x0B] = Ret (Some [0; 0x41; 5; 0x21; 3; 0x0B]).
Proof. reflexivity. Qed.
Example set_get :
  clean_body [0; 0x41; 5; 0x21; 3; 0x20; 3; 0x1A; 0x0B] = Ret (Some [0; 0x41; 5; 0x22; 3; 0x1A; 0x0B]).
Proof. reflexivity. Qed.
Example return_end_kept : clean_body [0; 0x41; 5; 0x0F; 0x0B] = Ret None.
Proof. reflexivity. Qed.

(** ** The rewriting rules of the pass *)

Inductive vacuum_rule : list token -> list token -> Prop :=
| rule_fold x y : fold_rule x y -> vacuum_rule x y
| rule_block t e : one_of [OP_BLOCK; OP_LOOP] (opcode t) = true -> t = [opcode t; 0x40] ->
    opcode e = OP_END -> vacuum_rule [t; e] []
| rule_if e : opcode e = OP_END -> vacuum_rule [[OP_IF; 0x40]; e] [[OP_DROP]]
| rule_if_else l e : opcode l = OP_ELSE -> opcode e = OP_END ->
    vacuum_rule [[OP_IF; 0x40]; l; e] [[OP_DROP]]
| rule_eqz o : opcode o = OP_I32_EQ -> vacuum_rule [[OP_I32_CONST; 0]; o] [[OP_I32_EQZ]]
| rule_eqz64 o : opcode o = OP_I64_EQ -> vacuum_rule [[OP_I64_CONST; 0]; o] [[OP_I64_EQZ]]
| rule_producer t d : is_pure_producer (opcode t) = true -> opcode d = OP_DROP ->
    vacuum_rule [t; d] []
| rule_get_set t u a : opcode t = OP_LOCAL_GET -> opcode u = OP_LOCAL_SET ->
    local_of t = Some a -> local_of u = Some a -> vacuum_rule [t; u] []
| rule_tee_drop t d a : opcode t = OP_LOCAL_TEE -> opcode d = OP_DROP -> local_of t = Some a ->
    vacuum_rule [t; d] [OP_LOCAL_SET :: write_u32 a]
| rule_set_get t u a : opcode t = OP_LOCAL_SET -> opcode u = OP_LOCAL_GET ->
    local_of t = Some a -> local_of u = Some a -> vacuum_rule [t; u] [OP_LOCAL_TEE :: write_u32 a]
| rule_nop t : opcode t = OP_NOP -> vacuum_rule [t] [].

(** ** The peepholes apply the rules *)

(** A peephole at instruction [t], followed by [ts], fires on a rule. *)
Definition peep_ok (t : token) (ts : list token) (o : peephole) : Prop :=
  exists r, o = Ret r /\ forall k emitted, r = Some (k, emitted) ->
  exists x z y, t :: ts = x ++ z /\ len x = 1 + k /\ vacuum_rule x y /\ emitted = mjoin y /\
    Forall complete y.

Lemma peep_none t ts : peep_ok t ts (Ret None).
Proof. by exists None. Qed.

Lemma peep_fires t ts x z y k : t :: ts = x ++ z -> len x = 1 + k -> vacuum_rule x y ->
  Forall complete y -> peep_ok t ts (Ret (Some (k, mjoin y))).
Proof. intros. eexists. split; [done|]. intros ? ? [= <- <-]. by exists x, z, y. Qed.

Lemma first_peephole_ok t ts ps : Forall (peep_ok t ts) ps -> peep_ok t ts (first_peephole ps).
Proof.
  induction 1 as [|q ps (r & -> & Hr) _ IH]; [apply peep_none|]. simpl.
  destruct r as [[k em]|]; [|done]. by exists (Some (k, em)).
Qed.

Lemma complete_write_u32 op a : is_uint 32 a -> (forall d, imm_len op d = leb_len d) ->
  complete (op :: write_u32 a).
Proof.
  intros Ha Hop. apply complete_cons. rewrite Hop. unfold leb_len.
  rewrite <- (app_nil_r (write_u32 a)), read_u32_write by done. rewrite app_nil_r. reflexivity.
Qed.

Lemma local_of_read t a : local_of t = Some a -> is_uint 32 a.
Proof.
  unfold local_of. intros ([v n] & H & ->)%fmap_Some. by apply read_u32_bounds in H as [? _].
Qed.

(** A complete instruction of two bytes. *)
Lemma two_bytes t : complete t -> len t = 2 -> exists imm, t = [opcode t; imm].
Proof.
  intros _ H. destruct t as [|a [|b [|c t]]]; [done|done|by eexists|].
  rewrite !len_cons in H. pose proof (len_nonneg t). lia.
Qed.

Section peep.
Context (body pre : bytes) (t : token) (ts : list token).
Context (Hbody : body = pre ++ t ++ mjoin ts) (Ht : complete t) (Hts : Forall complete ts).

Abbreviation p := (len pre).
Abbreviation rest := (spans_at (len pre + len t) ts).

Lemma byte_1 imm : t = [opcode t; imm] -> index body (p + 1) = Ret imm.
Proof using Hbody.
  intros E. rewrite Hbody, E. change (pre ++ [opcode t; imm] ++ mjoin ts) with (pre ++ [opcode t] ++ imm :: mjoin ts).
  rewrite app_assoc. apply index_app_cons. by rewrite len_app.
Qed.

Lemma next_opcode u us : ts = u :: us -> index body (p + len t) = Ret (opcode u).
Proof using Hbody Hts.
  intros E. rewrite <- len_app. apply (read_opcode body (pre ++ t) u (mjoin us)).
  - by rewrite Hbody, E, <- app_assoc.
  - rewrite E in Hts. by apply Forall_cons in Hts as [? _].
Qed.

Lemma third_opcode u v us : ts = u :: v :: us -> index body (p + len t + len u) = Ret (opcode v).
Proof using Hbody Hts.
  intros E. rewrite <- !len_app. apply (read_opcode body ((pre ++ t) ++ u) v (mjoin us)).
  - by rewrite Hbody, E, <- !app_assoc.
  - rewrite E in Hts. by apply Forall_cons in Hts as [_ [? _]%Forall_cons].
Qed.

(** [local.*] instructions that decode have an index. *)
Lemma local_index_ok u q d : complete u -> one_of [OP_LOCAL_GET; OP_LOCAL_SET; OP_LOCAL_TEE] (opcode u) = true ->
  slice body (q + 1) (q + len u) = Ret (tl u) ->
  exists a, local_of u = Some a /\ local_index body q (len u) d = Ret a.
Proof using.
  intros Hu Hop Hs. unfold local_index, local_of. rewrite Hs. cbn [mbind outcome_bind].
  destruct u as [|op imm]; [done|].
  apply complete_cons in Hu as Hi. cbn [opcode head default tl from_option id] in *.
  assert (Hl : imm_len op imm = leb_len imm).
  { assert (Hc : op = 0x20 \/ op = 0x21 \/ op = 0x22) by (unfold one_of, OP_LOCAL_GET, OP_LOCAL_SET, OP_LOCAL_TEE in Hop; simpl in Hop; lia).
    destruct Hc as [->|[->| ->]]; reflexivity. }
  rewrite Hl in Hi. unfold leb_len in Hi. apply fmap_Some in Hi as ([v n] & -> & _). by exists v.
Qed.

Lemma this_local d : one_of [OP_LOCAL_GET; OP_LOCAL_SET; OP_LOCAL_TEE] (opcode t) = true ->
  exists a, local_of t = Some a /\ local_index body p (len t) d = Ret a.
Proof using Hbody Ht.
  intros H. apply local_index_ok; [done..|]. by apply (read_immediate body pre t (mjoin ts)).
Qed.

Lemma next_local u us d : ts = u :: us -> one_of [OP_LOCAL_GET; OP_LOCAL_SET; OP_LOCAL_TEE] (opcode u) = true ->
  exists a, local_of u = Some a /\ local_index body (p + len t) (len u) d = Ret a.
Proof using Hbody Hts.
  intros E H. rewrite E in Hts. apply Forall_cons in Hts as [Hu _]. apply local_index_ok; [done..|].
  rewrite <- len_app. apply (read_immediate body (pre ++ t) u (mjoin us)); [|done].
  by rewrite Hbody, E, <- app_assoc.
Qed.

End peep.

Definition located (body pre : bytes) (t : token) (ts : list token) : Prop :=
  body = pre ++ t ++ mjoin ts /\ complete t /\ Forall complete ts.

Lemma peep_empty_block_ok body pre t ts : located body pre t ts ->
  peep_ok t ts (peep_empty_block body (len pre) (len t) (opcode t) (spans_at (len pre + len t) ts)).
Proof.
  intros (Hbody & Ht & Hts). unfold peep_empty_block. destruct (is_block_starter (opcode t)) eqn:Hop; [|apply peep_none].
  destruct (Z.eqb_spec (len t) 2) as [Hl|]; [|apply peep_none]. simpl negb. cbn iota.
  destruct (two_bytes t Ht Hl) as [imm Et]. rewrite (byte_1 body pre t _ Hbody imm Et). cbn [mbind outcome_bind].
  destruct ts as [|u us] eqn:Ets; [apply peep_none|]. cbn [spans_at].
  destruct (Z.eqb_spec imm 0x40) as [->|]; [|apply peep_none]. simpl negb. cbn iota.
  rewrite (next_opcode body pre t _ Hbody Hts u us eq_refl). cbn [mbind outcome_bind].
  destruct (Z.eqb_spec (opcode u) OP_END) as [Hu|].
  - destruct (Z.eqb_spec (opcode t) OP_IF) as [E|].
    + apply (peep_fires t (u :: us) [t; u] us [[OP_DROP]] 1); [done..| |by repeat constructor].
      rewrite Et, E. by apply rule_if.
    + apply (peep_fires t (u :: us) [t; u] us [] 1); [done..| |constructor].
      apply rule_block; [|done..]. unfold is_block_starter, one_of in *. simpl in *. lia.
  - destruct us as [|v us']; [apply peep_none|]. cbn [spans_at].
    destruct (Z.eqb_spec (opcode t) OP_IF) as [E|]; [|apply peep_none].
    destruct (Z.eqb_spec (opcode u) OP_ELSE) as [Hu|]; [|apply peep_none]. simpl andb. cbn iota.
    rewrite (third_opcode body pre t _ Hbody Hts u v us' eq_refl). cbn [mbind outcome_bind].
    destruct (Z.eqb_spec (opcode v) OP_END) as [Hv|]; [|apply peep_none].
    apply (peep_fires t (u :: v :: us') [t; u; v] us' [[OP_DROP]] 2); [done..| |by repeat constructor].
    rewrite Et, E. by apply rule_if_else.
Qed.

Lemma peep_const_ok body pre t ts : located body pre t ts ->
  peep_ok t ts (peep_const body (len pre) (len t) (opcode t) (spans_at (len pre + len t) ts)).
Proof.
  intros (Hbody & Ht & Hts). unfold peep_const. destruct ts as [|u us] eqn:Ets; [apply peep_none|]. cbn [spans_at].
  destruct (Z.eqb_spec (len t) 2) as [Hl|]; [|apply peep_none]. simpl negb. cbn iota.
  destruct (two_bytes t Ht Hl) as [imm Et]. rewrite (byte_1 body pre t _ Hbody imm Et), (next_opcode body pre t _ Hbody Hts u us eq_refl).
  cbn [mbind outcome_bind].
  assert (Hpair : forall v, opcode t = OP_I32_CONST -> const_value [OP_I32_CONST; imm] = Some v ->
    is_rhs_identity (opcode u) v = true -> peep_ok t (u :: us) (Ret (Some (1, [])))).
  { intros v E Hv Hid. apply (peep_fires t (u :: us) [t; u] us [] 1); [done..| |constructor].
    apply rule_fold. rewrite Et, E. by apply (rule_pair _ _ v). }
  destruct (_ && _ && one_of _ _) eqn:E1.
  { apply andb_prop in E1 as [E1 E2]. apply andb_prop in E1 as [E0 E1].
    apply Z.eqb_eq in E0, E1. subst imm. apply (Hpair 0); [done..|].
    revert E2. unfold one_of, is_rhs_identity, OP_I32_SHR_S. simpl. lia. }
  destruct (_ && _ && (_ =? I32_MUL)) eqn:E2.
  { apply andb_prop in E2 as [E2 E4]. apply andb_prop in E2 as [E2 E3].
    apply Z.eqb_eq in E2, E3, E4. subst imm. apply (Hpair 1); [done..|]. rewrite E4. done. }
  destruct (_ && _ && (_ =? OP_I32_EQ)) eqn:E3.
  { apply andb_prop in E3 as [E3 E5]. apply andb_prop in E3 as [E3 E4].
    apply Z.eqb_eq in E3, E4, E5. subst imm.
    apply (peep_fires t (u :: us) [t; u] us [[OP_I32_EQZ]] 1); [done..| |by repeat constructor].
    rewrite Et, E3. by apply rule_eqz. }
  destruct (_ && _ && (_ =? OP_I64_EQ)) eqn:E4; [|apply peep_none].
  apply andb_prop in E4 as [E4 E6]. apply andb_prop in E4 as [E4 E5].
  apply Z.eqb_eq in E4, E5, E6. subst imm.
  apply (peep_fires t (u :: us) [t; u] us [[OP_I64_EQZ]] 1); [done..| |by repeat constructor].
  rewrite Et, E4. by apply rule_eqz64.
Qed.

Lemma peep_producer_drop_ok body pre t ts : located body pre t ts ->
  peep_ok t ts (peep_producer_drop body (opcode t) (spans_at (len pre + len t) ts)).
Proof.
  intros (Hbody & Ht & Hts). unfold peep_producer_drop. destruct ts as [|u us] eqn:Ets; [apply peep_none|]. cbn [spans_at].
  destruct (is_pure_producer (opcode t)) eqn:E; [|apply peep_none]. simpl negb. cbn iota.
  rewrite (next_opcode body pre t _ Hbody Hts u us eq_refl). cbn [mbind outcome_bind].
  destruct (Z.eqb_spec (opcode u) OP_DROP); [|apply peep_none].
  apply (peep_fires t (u :: us) [t; u] us [] 1); [done..|by apply rule_producer|constructor].
Qed.

Lemma peep_get_set_ok body pre t ts : located body pre t ts ->
  peep_ok t ts (peep_get_set body (len pre) (len t) (opcode t) (spans_at (len pre + len t) ts)).
Proof.
  intros (Hbody & Ht & Hts). unfold peep_get_set. destruct ts as [|u us] eqn:Ets; [apply peep_none|]. cbn [spans_at].
  destruct (Z.eqb_spec (opcode t) OP_LOCAL_GET) as [E|]; [|apply peep_none]. simpl negb. cbn iota.
  rewrite (next_opcode body pre t _ Hbody Hts u us eq_refl). cbn [mbind outcome_bind].
  destruct (Z.eqb_spec (opcode u) OP_LOCAL_SET) as [E'|]; [|apply peep_none]. simpl negb. cbn iota.
  destruct (this_local body pre t _ Hbody Ht 0) as (a & Ha & ->); [by rewrite E|]. cbn [mbind outcome_bind].
  destruct (next_local body pre t _ Hbody Hts u us (2 ^ 32 - 1) eq_refl) as (b & Hb & ->); [by rewrite E'|].
  cbn [mbind outcome_bind]. destruct (Z.eqb_spec a b) as [->|]; [|apply peep_none].
  by apply (peep_fires t (u :: us) [t; u] us [] 1); [..|eapply rule_get_set|constructor].
Qed.

Lemma peep_tee_drop_ok body pre t ts : located body pre t ts ->
  peep_ok t ts (peep_tee_drop body (len pre) (len t) (opcode t) (spans_at (len pre + len t) ts)).
Proof.
  intros (Hbody & Ht & Hts). unfold peep_tee_drop. destruct ts as [|u us] eqn:Ets; [apply peep_none|]. cbn [spans_at].
  destruct (Z.eqb_spec (opcode t) OP_LOCAL_TEE) as [E|]; [|apply peep_none]. simpl negb. cbn iota.
  rewrite (next_opcode body pre t _ Hbody Hts u us eq_refl). cbn [mbind outcome_bind].
  destruct (Z.eqb_spec (opcode u) OP_DROP) as [E'|]; [|apply peep_none]. simpl negb. cbn iota.
  destruct (this_local body pre t _ Hbody Ht 0) as (a & Ha & ->); [by rewrite E|]. cbn [mbind outcome_bind].
  rewrite <- (app_nil_r (OP_LOCAL_SET :: write_u32 a)).
  apply (peep_fires t (u :: us) [t; u] us [OP_LOCAL_SET :: write_u32 a] 1);
    [done..|by eapply rule_tee_drop|].
  constructor; [|done]. apply complete_write_u32; [by eapply local_of_read|done].
Qed.

Lemma peep_set_get_ok body pre t ts : located body pre t ts ->
  peep_ok t ts (peep_set_get body (len pre) (len t) (opcode t) (spans_at (len pre + len t) ts)).
Proof.
  intros (Hbody & Ht & Hts). unfold peep_set_get. destruct ts as [|u us] eqn:Ets; [apply peep_none|]. cbn [spans_at].
  destruct (Z.eqb_spec (opcode t) OP_LOCAL_SET) as [E|]; [|apply peep_none]. simpl negb. cbn iota.
  rewrite (next_opcode body pre t _ Hbody Hts u us eq_refl). cbn [mbind outcome_bind].
  destruct (Z.eqb_spec (opcode u) OP_LOCAL_GET) as [E'|]; [|apply peep_none]. simpl negb. cbn iota.
  destruct (this_local body pre t _ Hbody Ht 0) as (a & Ha & ->); [by rewrite E|]. cbn [mbind outcome_bind].
  destruct (next_local body pre t _ Hbody Hts u us (2 ^ 32 - 1) eq_refl) as (b & Hb & ->); [by rewrite E'|].
  cbn [mbind outcome_bind]. destruct (Z.eqb_spec a b) as [->|]; [|apply peep_none].
  rewrite <- (app_nil_r (OP_LOCAL_TEE :: write_u32 b)).
  apply (peep_fires t (u :: us) [t; u] us [OP_LOCAL_TEE :: write_u32 b] 1);
    [done..|by eapply rule_set_get|].
  constructor; [|done]. apply complete_write_u32; [by eapply local_of_read|done].
Qed.

Lemma peepholes_ok body pre t ts : located body pre t ts ->
  peep_ok t ts (peepholes body (len pre) (len t) (opcode t) (spans_at (len pre + len t) ts)).
Proof.
  intros H. apply first_peephole_ok. repeat constructor;
    eauto using peep_empty_block_ok, peep_const_ok, peep_producer_drop_ok, peep_get_set_ok,
      peep_tee_drop_ok, peep_set_get_ok.
Qed.

(** ** The loop *)

(** Dead code in a closed context ends at the closer of its block. *)
Lemma dead_zone ts : forall n d, closes (n + d) ts = true ->
  exists x c z, ts = x ++ c :: z /\ nest n x = Some 0%nat /\
    (opcode c = OP_END /\ (d = 0%nat /\ z = [] \/ exists d', d = S d' /\ closes d' z = true) \/
     opcode c = OP_ELSE /\ closes d z = true).
Proof.
  induction ts as [|t ts IH]; intros n d; [done|]. cbn [closes].
  assert (Hgo : forall n', closes (n' + d) ts = true ->
    (forall x, nest n (t :: x) = nest n' x) -> exists x c z, t :: ts = x ++ c :: z /\
    nest n x = Some 0%nat /\ (opcode c = OP_END /\ (d = 0%nat /\ z = [] \/ exists d', d = S d' /\ closes d' z = true) \/
     opcode c = OP_ELSE /\ closes d z = true)).
  { intros n' H Hn. destruct (IH n' d H) as (x & c & z & -> & Hx & Hc). exists (t :: x), c, z.
    split_and!; [done| |done]. by rewrite Hn. }
  destruct (in_range 2 4 (opcode t)) eqn:E1.
  { intros H. apply (Hgo (S n)); [done|]. intros x. cbn [nest]. by rewrite E1. }
  change 0x0B with OP_END. destruct (Z.eqb_spec (opcode t) OP_END) as [E2|E2].
  { destruct n as [|n]; simpl.
    - intros H. exists [], t, ts. split_and!; [done..|]. left. split; [done|].
      destruct d as [|d]; [left; by destruct ts|right; by exists d].
    - intros H. apply (Hgo n); [done|]. intros x. cbn [nest]. rewrite E1. unfold OP_END in E2.
      by replace (opcode t =? 11) with true by lia. }
  unfold OP_END in E2. destruct (Z.eqb_spec (opcode t) OP_ELSE) as [E3|E3]; unfold OP_ELSE in *.
  { destruct n as [|n]; intros H.
    - exists [], t, ts. split_and!; [done..|]. by right.
    - apply (Hgo (S n)); [done|]. intros x. cbn [nest]. rewrite E1.
      replace (opcode t =? 11) with false by lia. by replace (opcode t =? 5) with true by lia. }
  intros H. apply (Hgo n); [done|]. intros x. cbn [nest]. rewrite E1.
  replace (opcode t =? 11) with false by lia. by replace (opcode t =? 5) with false by lia.
Qed.

Lemma spans_at_app pos x z : spans_at pos (x ++ z) = spans_at pos x ++ spans_at (pos + len (mjoin x)) z.
Proof.
  revert pos. induction x as [|t x IH]; intros pos; [by rewrite Z.add_0_r|]. simpl. rewrite IH.
  by rewrite len_app, Z.add_assoc.
Qed.

(** [skip_remaining] discards the instructions a peephole consumed. *)
Lemma clean_skip body x z : forall pos nested out ch,
  clean_loop body (spans_at pos (x ++ z)) (mkClean false nested (len x) out ch)
  = clean_loop body (spans_at (pos + len (mjoin x)) z) (mkClean false nested 0 out ch).
Proof.
  induction x as [|t x IH]; intros pos nested out ch; [by rewrite Z.add_0_r|].
  cbn [app spans_at clean_loop clean_step cl_skip]. pose proof (len_nonneg x).
  replace (0 <? len (t :: x)) with true by (rewrite len_cons; lia). cbn [mbind outcome_bind].
  rewrite len_cons. replace (1 + len x - 1) with (len x) by lia. rewrite IH.
  change (mjoin (t :: x)) with (t ++ mjoin x). by rewrite len_app, Z.add_assoc.
Qed.

Lemma starter_range op : is_block_starter op = in_range 2 4 op.
Proof.
  unfold is_block_starter, one_of, in_range, OP_BLOCK, OP_LOOP, OP_IF. simpl.
  destruct (Z.leb_spec 2 op), (Z.leb_spec op 4); simpl; lia.
Qed.

(** Dead code is dropped up to the closer, which is copied. *)
Lemma clean_dead body x c z : Forall complete x -> complete c ->
  opcode c = OP_END \/ opcode c = OP_ELSE ->
  forall n pre out ch, nest n x = Some 0%nat -> Z.of_nat n + len x < 2 ^ 32 ->
  body = pre ++ mjoin x ++ c ++ mjoin z ->
  exists ch', clean_loop body (spans_at (len pre) (x ++ c :: z)) (mkClean true (Z.of_nat n) 0 out ch)
    = clean_loop body (spans_at (len (pre ++ mjoin x ++ c)) z) (mkClean false 0 0 (out ++ c) ch').
Proof.
  intros Hx Hc Hop. induction Hx as [|t x Ht Hx IH]; intros n pre out ch Hn Hlen Hbody.
  - injection Hn as ->. exists ch. cbn [app spans_at clean_loop clean_step cl_skip cl_dead cl_nested].
    simpl in Hbody. rewrite (read_opcode body pre c (mjoin z)) by done. simpl (0 <? 0).
    cbn [mbind outcome_bind cl_out cl_changed]. rewrite starter_range.
    replace (in_range 2 4 (opcode c)) with false by by destruct Hop as [-> | ->].
    replace ((opcode c =? OP_END) || (opcode c =? OP_ELSE)) with true by by destruct Hop as [-> | ->].
    simpl (Z.of_nat 0 =? 0). rewrite andb_false_r. simpl andb. cbn iota.
    rewrite Hbody, slice_app. cbn [mbind outcome_bind]. simpl. by rewrite len_app.
  - change (mjoin (t :: x)) with (t ++ mjoin x) in *. rewrite <- app_assoc in Hbody.
    assert (Hbody' : body = (pre ++ t) ++ mjoin x ++ c ++ mjoin z) by by rewrite Hbody, <- !app_assoc.
    rewrite len_cons in Hlen. pose proof (len_nonneg x).
    assert (Hgo : forall n', nest n' x = Some 0%nat -> Z.of_nat n' <= Z.of_nat n + 1 ->
      clean_step body (len pre, len t) (spans_at (len pre + len t) (x ++ c :: z)) (mkClean true (Z.of_nat n) 0 out ch)
        = Ret (mkClean true (Z.of_nat n') 0 out true) ->
      exists ch', clean_loop body (spans_at (len pre) ((t :: x) ++ c :: z)) (mkClean true (Z.of_nat n) 0 out ch)
        = clean_loop body (spans_at (len (pre ++ (t ++ mjoin x) ++ c)) z) (mkClean false 0 0 (out ++ c) ch')).
    { intros n' Hn' Hle Hstep. destruct (IH n' (pre ++ t) out true Hn') as [ch' He]; [lia|done|].
      exists ch'. cbn [app spans_at clean_loop]. rewrite Hstep. cbn [mbind outcome_bind].
      rewrite len_app in He. rewrite He. do 2 f_equal.
      rewrite !len_app. lia. }
    unfold clean_step in Hgo. cbn [cl_skip cl_dead cl_nested cl_out cl_changed] in Hgo.
    rewrite (read_opcode body pre t (mjoin x ++ c ++ mjoin z)) in Hgo
      by done.
    simpl (0 <? 0) in Hgo. cbn [mbind outcome_bind] in Hgo. rewrite starter_range in Hgo.
    cbn [nest] in Hn. unfold OP_END, OP_ELSE in Hgo. destruct (in_range 2 4 (opcode t)).
    { apply (Hgo (S n)); [done|lia|]. rewrite u32_small by lia. do 2 f_equal. lia. }
    destruct (opcode t =? 11).
    { destruct n as [|n]; [done|]. apply (Hgo n); [done|lia|]. 
      rewrite (proj2 (Z.eqb_neq (Z.of_nat (S n)) 0)) by lia. simpl andb. cbn iota. do 2 f_equal. lia. }
    simpl andb in Hgo. simpl orb in Hgo. cbn iota in Hgo. destruct (opcode t =? 5).
    { destruct n as [|n]; [done|]. apply (Hgo (S n)); [done|lia|].
      by rewrite (proj2 (Z.eqb_neq (Z.of_nat (S n)) 0)) by lia. }
    apply (Hgo n); [done|lia|]. done.
Qed.

Lemma straight_balanced x : Forall (fun t => straight t = true) x -> balanced x.
Proof. intros H. unfold balanced. by rewrite nest_straight. Qed.

Lemma straight_of_op t op : opcode t = op ->
  negb (one_of [0x00; 0x02; 0x03; 0x04; 0x05; 0x0B; 0x0C; 0x0D; 0x0E; 0x0F] op) = true -> straight t = true.
Proof. unfold straight. by intros ->. Qed.

Lemma producer_straight t : is_pure_producer (opcode t) = true -> straight t = true.
Proof.
  intros H. apply (straight_of_op t _ eq_refl). revert H.
  unfold is_pure_producer, one_of, OP_LOCAL_GET, OP_GLOBAL_GET, OP_I32_CONST, OP_I64_CONST, OP_F32_CONST,
    OP_F64_CONST, OP_REF_NULL, OP_REF_FUNC. simpl. lia.
Qed.

(** Every rule but the ones on blocks is about straight-line code. *)
Lemma vacuum_rule_cases x y : vacuum_rule x y ->
  Forall (fun t => straight t = true) y /\
  (Forall (fun t => straight t = true) x \/
   exists t e, opcode e = OP_END /\
     ((one_of [OP_BLOCK; OP_LOOP] (opcode t) = true /\ t = [opcode t; 0x40] /\ x = [t; e] /\ y = []) \/
      (t = [OP_IF; 0x40] /\ x = [t; e] /\ y = [[OP_DROP]]) \/
      (exists l, t = [OP_IF; 0x40] /\ opcode l = OP_ELSE /\ x = [t; l; e] /\ y = [[OP_DROP]]))).
Proof.
  assert (Hs : forall t op, opcode t = op ->
    negb (one_of [0x00; 0x02; 0x03; 0x04; 0x05; 0x0B; 0x0C; 0x0D; 0x0E; 0x0F] op) = true -> straight t = true)
    by exact straight_of_op.
  intros [x' y' H|t e Ht E He|e He|l e Hl He|o Ho|o Ho|t d Ht Hd|t u a Ht Hu Ha Hb|t d a Ht Hd Ha|t u a Ht Hu Ha Hb|t Ht];
    try (split; [|left]; repeat constructor; (by eapply Hs; eauto) || by apply producer_straight).
  - apply fold_rule_straight in H as [? ?]. auto.
  - split; [done|]. right. exists t, e. split; [done|]. by left.
  - split; [by repeat constructor|]. right. exists [OP_IF; 0x40], e. split; [done|]. right. by left.
  - split; [by repeat constructor|]. right. exists [OP_IF; 0x40], e. split; [done|]. right. right. by exists l.
Qed.

Lemma vacuum_rule_balanced x y : vacuum_rule x y -> balanced x /\ balanced y.
Proof.
  intros [Hy Hx]%vacuum_rule_cases. split; [|by apply straight_balanced].
  destruct Hx as [Hx|(t & e & He & [(Ht & E & -> & _)|[(-> & -> & _)|(l & -> & Hl & -> & _)]])];
    [by apply straight_balanced|..]; unfold balanced; cbn [nest].
  - replace (in_range 2 4 (opcode t)) with true; [by rewrite He|]. symmetry.
    unfold one_of, in_range, OP_BLOCK, OP_LOOP in *. simpl in Ht. lia.
  - by rewrite He.
  - by rewrite Hl, He.
Qed.

(** The loop, from a live instruction on, rewrites [ts] and reads nothing out of
    range. *)
Definition cleans (body pre : bytes) (ts : list token) : Prop := forall out ch nested,
  exists qs st, clean_loop body (spans_at (len pre) ts) (mkClean false nested 0 out ch) = Ret st /\
    cl_out st = out ++ mjoin qs /\ rewrites vacuum_rule ts qs /\ Forall complete qs.

Lemma cleans_nil body pre : cleans body pre [].
Proof.
  intros out ch nested. exists [], (mkClean false nested 0 out ch). simpl.
  rewrite app_nil_r. by repeat constructor.
Qed.

(** One iteration on a live instruction, once the peepholes are known. *)
Lemma clean_step_live body pre t ts r nested out ch : located body pre t ts ->
  let rest := spans_at (len pre + len t) ts in
  peepholes body (len pre) (len t) (opcode t) rest = Ret r ->
  clean_step body (len pre, len t) rest (mkClean false nested 0 out ch) =
  Ret (match r with
       | Some (k, emitted) => mkClean false nested k (out ++ emitted) true
       | None =>
           if opcode t =? OP_NOP then mkClean false nested 0 out true
           else if is_unconditional_terminator (opcode t) then mkClean true 0 0 (out ++ t) ch
           else mkClean false nested 0 (out ++ t) ch
       end).
Proof.
  intros (Hbody & Ht & _) rest Hp. unfold clean_step. cbn [cl_skip cl_dead cl_nested cl_out cl_changed].
  change (0 <? 0) with false. cbn iota. rewrite (read_opcode body pre t (mjoin ts)) by done.
  cbn [mbind outcome_bind]. rewrite Hp. cbn [mbind outcome_bind].
  destruct r as [[k em]|]; [done|]. destruct (opcode t =? OP_NOP); [done|].
  rewrite Hbody, slice_app. cbn [mbind outcome_bind]. by destruct (is_unconditional_terminator _).
Qed.

Section cleaning.
Context (body pre : bytes) (t : token) (ts : list token) (r : option (Z * bytes)).
Context (Hloc : located body pre t ts).
Context (Hpeep : peepholes body (len pre) (len t) (opcode t) (spans_at (len pre + len t) ts) = Ret r).

Lemma cleans_keep : r = None -> is_unconditional_terminator (opcode t) = false ->
  cleans body (pre ++ t) ts -> cleans body pre (t :: ts).
Proof using Hloc Hpeep.
  intros Hr Hterm H out ch nested. cbn [spans_at clean_loop].
  rewrite (clean_step_live _ _ _ _ r) by done. rewrite Hr, Hterm. cbn [mbind outcome_bind].
  rewrite <- len_app. destruct (Z.eqb_spec (opcode t) OP_NOP) as [E|E].
  - destruct (H out true nested) as (qs & st & Hrun & Hout & Hrw & Hq). exists qs, st.
    split_and!; [done..| |done]. by apply (rewrites_here _ [t] []); [apply rule_nop|].
  - destruct (H (out ++ t) ch nested) as (qs & st & Hrun & Hout & Hrw & Hq). exists (t :: qs), st.
    rewrite <- app_assoc in Hout. split_and!; [done..|by constructor|].
    constructor; [apply Hloc|done].
Qed.

Lemma cleans_fired x z y : r = Some (len x, mjoin y) -> ts = x ++ z -> vacuum_rule (t :: x) y ->
  Forall complete y -> cleans body (pre ++ mjoin (t :: x)) z -> cleans body pre (t :: ts).
Proof using Hloc Hpeep.
  intros Hr Hx Hrule Hy H out ch nested. cbn [spans_at clean_loop].
  rewrite (clean_step_live _ _ _ _ r) by done. rewrite Hr. cbn [mbind outcome_bind].
  rewrite Hx, clean_skip, <- Z.add_assoc, <- !len_app.
  change (t ++ mjoin x) with (mjoin (t :: x)).
  destruct (H (out ++ mjoin y) true nested) as (qs & st & Hrun & Hout & Hrw & Hq).
  exists (y ++ qs), st. rewrite join_app, app_assoc. split_and!; [done..| |by apply Forall_app].
  by apply (rewrites_here _ (t :: x)).
Qed.

Lemma cleans_dead x c z : r = None -> ts = x ++ c :: z -> terminator t = true ->
  nest 0 x = Some 0%nat -> opcode c = OP_END \/ opcode c = OP_ELSE -> len ts < 2 ^ 32 ->
  cleans body (pre ++ t ++ mjoin x ++ c) z -> cleans body pre (t :: ts).
Proof using Hloc Hpeep.
  intros Hr Hx Hterm Hn Hc Hlen H out ch nested. cbn [spans_at clean_loop].
  rewrite (clean_step_live _ _ _ _ r) by done. rewrite Hr.
  replace (opcode t =? OP_NOP) with false by by destruct (terminator_cases t Hterm) as [->|[->|[->| ->]]].
  change (is_unconditional_terminator (opcode t)) with (terminator t). rewrite Hterm.
  cbn [mbind outcome_bind]. destruct Hloc as (Hbody & Ht & Hts). rewrite Hx in *.
  apply Forall_app in Hts as [Hxc [Hcc Hz]%Forall_cons].
  destruct (clean_dead body x c z Hxc Hcc Hc 0%nat (pre ++ t) (out ++ t) ch Hn) as [ch' Hdead].
  { rewrite len_app in Hlen. pose proof (len_nonneg (c :: z)). simpl. lia. }
  { rewrite Hbody, <- app_assoc. by rewrite join_app. }
  rewrite <- len_app. change (Z.of_nat 0) with 0 in Hdead. rewrite Hdead, <- app_assoc.
  destruct (H ((out ++ t) ++ c) ch' 0) as (qs & st & Hrun & Hout & Hrw & Hq).
  exists (t :: c :: qs), st. rewrite <- !app_assoc in *. split_and!; [done..| |by repeat constructor].
  apply (rewrites_dead _ t x (c :: z) (c :: qs)); [done..|by constructor].
Qed.
End cleaning.

Lemma vacuum_rule_nonempty x y : vacuum_rule x y -> exists t x', x = t :: x'.
Proof. intros [? ? []| | | | | | | | | |]; by do 2 eexists. Qed.

Lemma clean_live body k : forall ts d pre, (length ts <= k)%nat ->
  body = pre ++ mjoin ts -> Forall complete ts -> ts = [] \/ closes d ts = true -> len ts < 2 ^ 32 ->
  cleans body pre ts.
Proof.
  induction k as [|k IH]; intros ts d pre Hk Hbody Hts Hcl Hlen.
  { destruct ts; [apply cleans_nil|simpl in Hk; lia]. }
  destruct Hts as [|t ts Ht Hts]; [apply cleans_nil|]. destruct Hcl as [|Hcl]; [done|].
  rewrite len_cons in Hlen. simpl in Hk. assert (Hloc : located body pre t ts) by by repeat split.
  destruct (peepholes_ok _ _ _ _ Hloc) as (r & Hpeep & Hr).
  assert (Hnext : forall d', ts = [] \/ closes d' ts = true -> cleans body (pre ++ t) ts).
  { intros d' Hd. apply (IH ts d'); [lia|by rewrite Hbody, <- app_assoc|done..|lia]. }
  destruct r as [[j em]|].
  - destruct (Hr j em eq_refl) as (x & z & y & Hx & Hj & Hrule & -> & Hy).
    destruct (vacuum_rule_balanced _ _ Hrule) as [Hbx _].
    destruct (vacuum_rule_nonempty _ _ Hrule) as (t' & x' & ->).
    change ((t' :: x') ++ z) with (t' :: (x' ++ z)) in Hx. injection Hx as <- ->.
    rewrite len_cons in Hj. rewrite length_app in Hk. rewrite len_app in Hlen. pose proof (len_nonneg x').
    apply (cleans_fired _ _ _ _ _ Hloc Hpeep x' z y); [by do 2 f_equal; lia|done..|].
    apply (IH z d); [lia| |by apply Forall_app in Hts as [_ ?]| |lia].
    + rewrite Hbody. change (t :: x' ++ z) with ((t :: x') ++ z). by rewrite join_app, app_assoc.
    + right. change (t :: x' ++ z) with ((t :: x') ++ z) in Hcl. by rewrite closes_balanced in Hcl.
  - cbn [closes] in Hcl. destruct (is_unconditional_terminator (opcode t)) eqn:Hterm.
    + assert (Hcl' : closes (0 + d) ts = true) by (by apply terminator_cases in Hterm as [E|[E|[E|E]]]; rewrite E in Hcl).
      destruct (dead_zone ts 0 d Hcl') as (x & c & z & -> & Hn & Hc).
      apply (cleans_dead _ _ _ _ _ Hloc Hpeep x c z);
        [done..|destruct Hc as [[? _]|[? _]]; auto|lia|].
      rewrite length_app in Hk. rewrite len_app, len_cons in Hlen. pose proof (len_nonneg x). simpl in Hk.
      assert (Hd' : exists d', z = [] \/ closes d' z = true).
      { destruct Hc as [[_ [[_ ->]|(d' & -> & ?)]]|[_ ?]];
          [exists 0%nat; by left|exists d'; by right|exists d; by right]. }
      destruct Hd' as [d' Hd']. apply (IH z d'); [lia| |by apply Forall_app in Hts as [_ [_ ?]%Forall_cons]|done|lia].
      rewrite Hbody, <- !app_assoc. change (mjoin (t :: x ++ c :: z)) with (t ++ mjoin (x ++ c :: z)).
      by rewrite join_app.
    + apply (cleans_keep _ _ _ _ _ Hloc Hpeep); [done..|].
      destruct (in_range 2 4 (opcode t)); [by apply (Hnext (S d)); right|].
      destruct (opcode t =? 0x0B); [|by apply (Hnext d); right].
      destruct d as [|d]; [|by apply (Hnext d); right].
      apply (Hnext 0%nat). left. by destruct ts.
Qed.

(** ** What the rules compute *)

Section semantics.
Context {Val St : Type}.
Abbreviation value := (@value Val).
Context (prim : token -> St -> list value -> @effect Val St).
Context (arity : token -> option (nat * nat)).
Context (table_label : token -> Z -> option nat).
Context (results : nat).
Context (lget : St -> Z -> option value) (lset : St -> Z -> value -> option St) (zero64 : value).
Context (Hwasm : wasm_instructions prim arity lget lset zero64).

Abbreviation refines := (refines_fragment prim arity table_label results).
Abbreviation step := (step prim arity table_label results).
Abbreviation run := (run prim arity table_label results).

Lemma plain_prim t s stk : (opcode t =? 0x41) = false -> is_i32_binop (opcode t) = false ->
  plain prim t s stk = prim t s stk.
Proof. intros H1 H2. unfold plain. by rewrite H1, H2. Qed.

Lemma plain_op t op s stk : opcode t = op -> (op =? 0x41) = false -> is_i32_binop op = false ->
  plain prim t s stk = prim t s stk.
Proof. intros <-. apply plain_prim. Qed.

Lemma producer_plain t s stk : is_pure_producer (opcode t) = true ->
  plain prim t s stk = Stuck \/ exists v, plain prim t s stk = Done s (v :: stk).
Proof using Hwasm.
  intros Ht. unfold plain. destruct (Z.eqb_spec (opcode t) 0x41) as [E|E].
  - destruct (const_value t) as [v|]; [|by left]. right. by eexists.
  - assert (Hop : In (opcode t) [OP_LOCAL_GET; OP_GLOBAL_GET; OP_I64_CONST; OP_F32_CONST; OP_F64_CONST;
      OP_REF_NULL; OP_REF_FUNC]).
    { revert Ht. unfold is_pure_producer, one_of, OP_I32_CONST in *. simpl. lia. }
    replace (is_i32_binop (opcode t)) with false by (simpl in Hop; by repeat destruct Hop as [<-|Hop]).
    apply (wi_producer Hwasm). simpl in Hop. by repeat destruct Hop as [<-|Hop].
Qed.

(** Rules on two instructions, given what the two compute. *)
Lemma pair_refines t u y : vacuum_rule [t; u] y -> straight t = true -> straight u = true ->
  (length y <= 2)%nat ->
  (forall s stk, plains prim [t; u] s stk = Stuck \/
     exists s' stk', plains prim [t; u] s stk = Done s' stk' /\ plains prim y s stk = Done s' stk') ->
  refines [t; u] y.
Proof using.
  intros Hrule Ht Hu Hlen H. apply straight_refines; [by repeat constructor| |done|done|..].
  - by apply vacuum_rule_cases in Hrule as [? _].
  - intros s stk. destruct (H s stk) as [->|(s' & stk' & -> & _)]; done.
  - intros s stk s' stk' Hx. destruct (H s stk) as [E|(s1 & stk1 & E & Hy)]; rewrite E in Hx; [done|].
    by rewrite Hy.
Qed.

Lemma producer_refines t d : is_pure_producer (opcode t) = true -> opcode d = OP_DROP ->
  refines [t; d] [].
Proof using Hwasm.
  intros Ht Hd. apply pair_refines; [by apply rule_producer|by apply producer_straight| |simpl; lia|].
  { by apply (straight_of_op d OP_DROP). }
  intros s stk. simpl. destruct (producer_plain t s stk Ht) as [->|[v ->]]; [by left|]. right.
  rewrite (plain_op d OP_DROP), (wi_drop Hwasm) by done. by do 2 eexists.
Qed.

Lemma get_set_refines t u a : opcode t = OP_LOCAL_GET -> opcode u = OP_LOCAL_SET ->
  local_of t = Some a -> local_of u = Some a -> refines [t; u] [].
Proof using Hwasm.
  intros Ht Hu Ha Hb. apply pair_refines; [by eapply rule_get_set| | |simpl; lia|].
  { by apply (straight_of_op t OP_LOCAL_GET). }
  { by apply (straight_of_op u OP_LOCAL_SET). }
  intros s stk. simpl. rewrite (plain_op t OP_LOCAL_GET), (wi_local_get Hwasm _ a) by done.
  destruct (lget s a) as [v|] eqn:Hv; [|by left]. right.
  rewrite (plain_op u OP_LOCAL_SET), (wi_local_set Hwasm _ a), (wi_get_set Hwasm _ _ _ Hv) by done.
  by do 2 eexists.
Qed.

Lemma local_of_write op a : is_uint 32 a -> local_of (op :: write_u32 a) = Some a.
Proof.
  intros H. unfold local_of. cbn [tl]. by rewrite <- (app_nil_r (write_u32 a)), read_u32_write.
Qed.

Lemma tee_drop_refines t d a : opcode t = OP_LOCAL_TEE -> opcode d = OP_DROP -> local_of t = Some a ->
  refines [t; d] [OP_LOCAL_SET :: write_u32 a].
Proof using Hwasm.
  intros Ht Hd Ha. pose proof (local_of_write OP_LOCAL_SET a (local_of_read _ _ Ha)) as Hw.
  apply pair_refines; [by eapply rule_tee_drop| | |simpl; lia|].
  { by apply (straight_of_op t OP_LOCAL_TEE). }
  { by apply (straight_of_op d OP_DROP). }
  intros s stk. cbn [plains]. rewrite (plain_op t OP_LOCAL_TEE), (wi_local_tee Hwasm _ a) by done.
  rewrite (plain_op (OP_LOCAL_SET :: write_u32 a) OP_LOCAL_SET), (wi_local_set Hwasm _ a) by done.
  destruct stk as [|v stk]; [by left|]. destruct (lset s a v) as [s'|]; [|by left]. right.
  rewrite (plain_op d OP_DROP), (wi_drop Hwasm) by done. by do 2 eexists.
Qed.

Lemma set_get_refines t u a : opcode t = OP_LOCAL_SET -> opcode u = OP_LOCAL_GET ->
  local_of t = Some a -> local_of u = Some a -> refines [t; u] [OP_LOCAL_TEE :: write_u32 a].
Proof using Hwasm.
  intros Ht Hu Ha Hb. pose proof (local_of_write OP_LOCAL_TEE a (local_of_read _ _ Ha)) as Hw.
  apply pair_refines; [by eapply rule_set_get| | |simpl; lia|].
  { by apply (straight_of_op t OP_LOCAL_SET). }
  { by apply (straight_of_op u OP_LOCAL_GET). }
  intros s stk. cbn [plains]. rewrite (plain_op t OP_LOCAL_SET), (wi_local_set Hwasm _ a) by done.
  rewrite (plain_op (OP_LOCAL_TEE :: write_u32 a) OP_LOCAL_TEE), (wi_local_tee Hwasm _ a) by done.
  destruct stk as [|v stk]; [by left|]. destruct (lset s a v) as [s'|] eqn:Hs; [|by left]. right.
  rewrite (plain_op u OP_LOCAL_GET), (wi_local_get Hwasm _ a), (wi_set_get Hwasm _ _ _ _ Hs) by done.
  by do 2 eexists.
Qed.

Lemma eqz_refines o : opcode o = OP_I32_EQ -> refines [[OP_I32_CONST; 0]; o] [[OP_I32_EQZ]].
Proof using Hwasm.
  intros Ho. apply pair_refines; [by apply rule_eqz|done|by apply (straight_of_op o OP_I32_EQ)|simpl; lia|].
  intros s stk. cbn [plains]. rewrite (plain_const prim [OP_I32_CONST; 0] 0) by done.
  rewrite (plain_op o OP_I32_EQ), (wi_eq Hwasm), (plain_op [OP_I32_EQZ] OP_I32_EQZ), (wi_eqz Hwasm) by done.
  destruct stk as [|[w|v] stk]; [by left| |by left]. right. by do 2 eexists.
Qed.

Lemma eqz64_refines o : opcode o = OP_I64_EQ -> refines [[OP_I64_CONST; 0]; o] [[OP_I64_EQZ]].
Proof using Hwasm.
  intros Ho. apply pair_refines; [by apply rule_eqz64|done|by apply (straight_of_op o OP_I64_EQ)|simpl; lia|].
  intros s stk. cbn [plains].
  rewrite (plain_op [OP_I64_CONST; 0] OP_I64_CONST), (wi_const64 Hwasm) by done.
  rewrite (plain_op o OP_I64_EQ), (plain_op [OP_I64_EQZ] OP_I64_EQZ) by done.
  destruct (wi_eqz64 Hwasm o [OP_I64_EQZ] s stk Ho eq_refl) as [-> [->|[stk' ->]]]; [by left|right].
  by do 2 eexists.
Qed.

Lemma nop_refines t : opcode t = OP_NOP -> refines [t] [].
Proof using Hwasm.
  intros Ht.
  assert (H : forall s stk, plains prim [t] s stk = Done s stk).
  { intros s stk. simpl. by rewrite (plain_op t OP_NOP), (wi_nop Hwasm). }
  apply straight_refines; [|done|done|simpl; lia|..].
  - repeat constructor. by apply (straight_of_op t OP_NOP).
  - intros s stk. by rewrite H.
  - intros s stk s' stk'. by rewrite H.
Qed.
(** *** The empty control structures *)

Lemma step_leave t e p tgt b stk fs s : arity t = Some (0, 0)%nat -> opcode e = OP_END ->
  step (mkConfig (e :: p) [] (mkFrame tgt b 0 0 stk :: fs) s) = Next (mkConfig p stk fs s).
Proof using.
  intros Ha He. rewrite step_end by done. by apply (enter_void arity results t fs s (mkConfig [] [] [] s)).
Qed.

Lemma skip_end e p : opcode e = OP_END ->
  after_end 0 (e :: p) = Some p /\ after_then 0 (e :: p) = Some (false, p).
Proof using. intros He. cbn [after_end after_then]. by rewrite He. Qed.

Lemma skip_else l e p : opcode l = OP_ELSE -> opcode e = OP_END ->
  after_end 0 (l :: e :: p) = Some p /\ after_then 0 (l :: e :: p) = Some (true, e :: p).
Proof using. intros Hl He. cbn [after_end after_then]. by rewrite Hl, He. Qed.

Lemma block_refines t e : one_of [OP_BLOCK; OP_LOOP] (opcode t) = true -> t = [opcode t; 0x40] ->
  opcode e = OP_END -> refines [t; e] [].
Proof using Hwasm.
  intros Hop Et He n p stk fs s r Hr Hns.
  assert (Ha : arity t = Some (0, 0)%nat) by (rewrite Et; apply (wi_void Hwasm)).
  assert (H1 : exists tgt b, step (mkConfig ([t; e] ++ p) stk fs s)
    = Next (mkConfig (e :: p) [] (mkFrame tgt b 0 0 stk :: fs) s)).
  { assert (Hc : opcode t = 2 \/ opcode t = 3) by (unfold one_of, OP_BLOCK, OP_LOOP in Hop; simpl in Hop; lia).
    change ([t; e] ++ p) with (t :: e :: p). destruct Hc as [E|E].
    - exists p, false. rewrite step_block, (proj1 (skip_end e p He)) by done. simpl of_option.
      by apply (enter_void arity results t fs s).
    - exists (e :: p), true. rewrite step_loop by done. by apply (enter_void arity results t fs s). }
  destruct H1 as (tgt & b & H1).
  destruct (two_steps prim arity table_label results _ _ _ _ _ H1 (step_leave t e p tgt b stk fs s Ha He) Hr) as (m & -> & Hm).
  left. exists m, 2%nat, s, stk. split_and!; [done|lia|done|]. intros q gs. exists 0%nat. by split; [lia|].
Qed.

Lemma drop_refines_to x :
  (forall p v stk fs s n r, run n (mkConfig (x ++ p) (v :: stk) fs s) = Some r -> r <> StuckAt ->
    exists m k, n = (k + m)%nat /\ (0 < k)%nat /\ run m (mkConfig p stk fs s) = Some r) ->
  (forall p fs s, step (mkConfig (x ++ p) [] fs s) = StuckAt) -> refines x [[OP_DROP]].
Proof using Hwasm.
  intros Hx Hstuck n p stk fs s r Hr Hns. destruct stk as [|v stk].
  { exfalso. destruct n; [done|]. simpl in Hr. rewrite Hstuck in Hr. congruence. }
  destruct (Hx p v stk fs s n r Hr Hns) as (m & k & -> & Hk & Hm). left. exists m, k, s, stk.
  split_and!; [done..|]. intros q gs. exists 1%nat. split; [lia|]. intros m' r' Hm'.
  eapply (run_fragment_intro prim arity table_label results [[OP_DROP]]);
    [by repeat constructor| |exact Hm'].
  simpl. by rewrite (plain_op [OP_DROP] OP_DROP), (wi_drop Hwasm).
Qed.

(** [if] with a void type and nothing in its arms is a [drop]. *)
Lemma if_refines e : opcode e = OP_END -> refines [[OP_IF; 0x40]; e] [[OP_DROP]].
Proof using Hwasm.
  intros He. apply drop_refines_to; [|intros; exact (step_if _ _ _ _ [OP_IF; 64] _ [] _ _ eq_refl)].
  intros p v stk fs s n r Hr Hns. change ([[OP_IF; 64]; e] ++ p) with ([OP_IF; 64] :: e :: p) in Hr.
  pose proof (wi_void Hwasm OP_IF) as Ha. destruct v as [w|v].
  2:{ exfalso. destruct n; [done|]. simpl in Hr. congruence. }
  assert (H1 := step_if prim arity table_label results [OP_IF; 64] (e :: p) (I32 w :: stk) fs s eq_refl).
  destruct (skip_end e p He) as [E1 E2]. rewrite E1, E2 in H1. simpl of_option in H1.
  destruct (w =? 0); simpl in H1.
  - destruct (one_step prim arity table_label results _ _ _ _ H1 Hr) as (m & -> & Hm). exists m, 1%nat. by split_and!; [|lia|].
  - rewrite (proj1 (enter_void arity results [OP_IF; 64] fs s _ [] p false (e :: p) stk Ha)) in H1.
    destruct (two_steps prim arity table_label results _ _ _ _ _ H1 (step_leave _ e p p false stk fs s Ha He) Hr) as (m & -> & Hm).
    exists m, 2%nat. by split_and!; [|lia|].
Qed.

Lemma if_else_refines l e : opcode l = OP_ELSE -> opcode e = OP_END ->
  refines [[OP_IF; 0x40]; l; e] [[OP_DROP]].
Proof using Hwasm.
  intros Hl He. apply drop_refines_to; [|intros; exact (step_if _ _ _ _ [OP_IF; 64] _ [] _ _ eq_refl)].
  intros p v stk fs s n r Hr Hns. change ([[OP_IF; 64]; l; e] ++ p) with ([OP_IF; 64] :: l :: e :: p) in Hr.
  pose proof (wi_void Hwasm OP_IF) as Ha. destruct v as [w|v].
  2:{ exfalso. destruct n; [done|]. simpl in Hr. congruence. }
  assert (H1 := step_if prim arity table_label results [OP_IF; 64] (l :: e :: p) (I32 w :: stk) fs s eq_refl).
  destruct (skip_else l e p Hl He) as [E1 E2]. rewrite E1, E2 in H1. simpl of_option in H1.
  assert (H2 : step (mkConfig (l :: e :: p) [] (mkFrame p false 0 0 stk :: fs) s) = Next (mkConfig p stk fs s)).
  { rewrite step_else, (proj1 (skip_end e p He)) by done. simpl of_option.
    by apply (enter_void arity results [OP_IF; 64] fs s (mkConfig [] [] [] s)). }
  destruct (w =? 0); simpl negb in H1; cbn iota in H1.
  - rewrite (proj1 (enter_void arity results [OP_IF; 64] fs s _ [] p false (e :: p) stk Ha)) in H1.
    destruct (two_steps prim arity table_label results _ _ _ _ _ H1 (step_leave _ e p p false stk fs s Ha He) Hr) as (m & -> & Hm).
    exists m, 2%nat. by split_and!; [|lia|].
  - rewrite (proj1 (enter_void arity results [OP_IF; 64] fs s _ [] p false (l :: e :: p) stk Ha)) in H1.
    destruct (two_steps prim arity table_label results _ _ _ _ _ H1 H2 Hr) as (m & -> & Hm).
    exists m, 2%nat. by split_and!; [|lia|].
Qed.

Lemma vacuum_rule_refines x y : vacuum_rule x y -> refines x y.
Proof using Hwasm.
  intros []; eauto using fold_rule_refines, block_refines, if_refines, if_else_refines, eqz_refines,
    eqz64_refines, producer_refines, get_set_refines, tee_drop_refines, set_get_refines, nop_refines.
Qed.
End semantics.

(** ** Properties *)

Lemma any_gc_ok body pre ts : body = pre ++ mjoin ts -> Forall complete ts ->
  exists b, any_gc body (spans_at (len pre) ts) = Ret b.
Proof.
  intros Hb Hts. revert pre Hb. induction Hts as [|t ts Ht _ IH]; intros pre Hb; [by exists false|].
  cbn [spans_at any_gc]. rewrite (read_opcode body pre t (mjoin ts)) by done. cbn [mbind outcome_bind].
  destruct (_ =? 0xFB); [by exists true|]. rewrite <- len_app. apply IH. by rewrite Hb, <- app_assoc.
Qed.

Lemma complete_count ts : Forall complete ts -> len ts <= len (mjoin ts).
Proof.
  induction 1 as [|t ts Ht _ IH]; [done|]. apply complete_pos in Ht.
  change (mjoin (t :: ts)) with (t ++ mjoin ts). rewrite len_cons, len_app. lia.
Qed.

Lemma clean_body_spec body locals p : decodes body locals p -> closes 0 p = true -> len body < 2 ^ 32 ->
  exists r, clean_body body = Ret r /\ forall out, r = Some out ->
  exists qs, out = locals ++ mjoin qs /\ rewrites vacuum_rule p qs /\ Forall complete qs.
Proof.
  intros [Hb Hl Hp] Hc Hlen. unfold clean_body.
  replace (walk body _) with (Some (spans_at (len locals) p)) by (rewrite Hb; symmetry; by apply walk_join).
  rewrite Hl, Hb, walk_join, <- Hb by done.
  destruct (any_gc_ok body locals p Hb Hp) as [b ->]. cbn [mbind outcome_bind].
  destruct b; [by exists None|]. rewrite Hb, slice_prefix, <- Hb. cbn [mbind outcome_bind].
  destruct (clean_live body (length p) p 0 locals) with (out := locals) (ch := false) (nested := 0)
    as (qs & st & -> & Hout & Hrw & Hq); [done..|by right| |].
  { pose proof (complete_count p Hp). pose proof (len_nonneg locals). rewrite Hb, len_app in Hlen. lia. }
  cbn [mbind outcome_bind]. eexists. split; [done|]. intros out. destruct (cl_changed st); [|done].
  intros [= <-]. by exists qs.
Qed.

Lemma vacuum_rule_doubles x y : vacuum_rule x y -> doubles x y.
Proof.
  assert (Hl : forall t a, complete t -> local_of t = Some a -> 2 <= len t).
  { intros t a Ht%complete_pos Ha. apply fmap_Some in Ha as ([v n] & Hv & _). apply read_u32_bounds in Hv as (_ & ? & ?).
    destruct t as [|op imm]; [done|]. rewrite len_cons. simpl in *. lia. }
  assert (Hw : forall a, len (write_u32 a) <= 5) by apply write_u32_len.
  intros Hr. destruct Hr; [by apply fold_rule_doubles| | | | | | | | | |];
    intros Hx; repeat match goal with H : Forall complete (_ :: _) |- _ => apply Forall_cons in H as [? ?] end;
    repeat match goal with H : complete ?t, E : local_of ?t = Some _ |- _ => pose proof (Hl _ _ H E); clear E end;
    repeat match goal with H : complete ?t |- _ => apply complete_pos in H end;
    rewrite !len_join_cons, ?len_join_nil, ?len_cons, ?len_nil; try specialize (Hw a);
    try (pose proof (len_nonneg (@nil token))); lia.
Qed.

Lemma vacuum_preserves body locals p :
  decodes body locals p -> closes 0 p = true -> len body < 2 ^ 32 ->
  exists r, clean_body body = Ret r /\ forall out, r = Some out ->
  len out <= 2 * len body /\ exists q, decodes out locals q /\ rewrites vacuum_rule p q.
Proof.
  intros Hd Hc Hlen. destruct (clean_body_spec _ _ _ Hd Hc Hlen) as (r & Hr & H).
  exists r. split; [done|]. intros out Hout. destruct (H out Hout) as (qs & -> & Hrw & Hq).
  destruct Hd as [Hb Hl Hp]. pose proof (rewrites_len _ _ _ vacuum_rule_doubles Hrw Hp).
  pose proof (len_nonneg locals). split; [rewrite Hb, !len_app; lia|].
  exists qs. split; [|done]. constructor; [done| |done].
  apply skip_locals_app, (shrink_skip_locals locals (mjoin p)); [by rewrite <- Hb|done].
Qed.

Lemma vacuum_rewrites_run (p q : list token) : rewrites vacuum_rule p q ->
  forall Val St prim arity table_label results lget lset zero64 (s : St) (stk : list (@value Val)) n res,
    wasm_instructions prim arity lget lset zero64 ->
    run prim arity table_label results n (mkConfig p stk [] s) = Some res -> res <> StuckAt ->
    exists m, (m <= n)%nat /\ run prim arity table_label results m (mkConfig q stk [] s) = Some res.
Proof.
  intros Hrw Val St prim arity table_label results lget lset zero64 s stk n res Hwasm Hrun Hns.
  eapply (rewrites_run prim arity table_label results vacuum_rule vacuum_rule_balanced
    (vacuum_rule_refines prim arity table_label results lget lset zero64 Hwasm)); [|exact Hrun|done].
  constructor; simpl; done.
Qed.

(** C3. The vacuum pass preserves the behaviour of a function body.  On a body that
    decodes into properly nested instructions [p] the pass never panics; its
    output has the same locals header and decodes into [q] such that, on every
    machine whose [nop], [drop], producers, comparisons with zero and locals
    behave as WebAssembly specifies, every run of [p] that does not get stuck
    is reproduced by [q] in at most as many steps with the same result. *)
Theorem vacuum_preserves_execution body locals p :
  decodes body locals p -> closes 0 p = true -> len body < 2 ^ 32 ->
  exists r, clean_body body = Ret r /\
  forall out, r = Some out ->
  exists q, decodes out locals q /\
  forall Val St prim arity table_label results lget lset zero64 (s : St) (stk : list (@value Val)) n res,
    wasm_instructions prim arity lget lset zero64 ->
    run prim arity table_label results n (mkConfig p stk [] s) = Some res -> res <> StuckAt ->
    exists m, (m <= n)%nat /\ run prim arity table_label results m (mkConfig q stk [] s) = Some res.
Proof.
  intros Hd Hc Hlen. destruct (vacuum_preserves _ _ _ Hd Hc Hlen) as (r & Hr & H).
  exists r. split; [done|]. intros out Hout. destruct (H out Hout) as (_ & q & Hq & Hrw).
  exists q. split; [done|]. by apply vacuum_rewrites_run.
Qed.

Definition messy_code : list token :=
  [[0x41; 7]; [0x21; 0]; [0x20; 0]; [0x01]; [0x41; 0]; [0x46]; [0x04; 0x40]; [0x0B]; [0x02; 0x40];
   [0x0C; 0]; [0x41; 1]; [0x1A]; [0x0B]; [0x20; 0]; [0x0B]].
Definition messy_body : bytes := [1; 1; 0x7F] ++ mjoin messy_code.

Lemma messy_decodes : decodes messy_body [1; 1; 0x7F] messy_code.
Proof. constructor; [reflexivity|reflexivity|repeat constructor]. Defined.

Lemma vacuum_preserves_execution_witness :
  demo_run 20%nat messy_code = Some (Halt [I32 7] [I32 7]) /\
  exists out q m, clean_body messy_body = Ret (Some out) /\
    out = [1; 1; 0x7F; 0x41; 7; 0x22; 0; 0x45; 0x1A; 0x02; 0x40; 0x0C; 0; 0x0B; 0x20; 0; 0x0B] /\
    decodes out [1; 1; 0x7F] q /\ (m <= 20)%nat /\ demo_run m q = Some (Halt [I32 7] [I32 7]).
Proof.
  split; [reflexivity|].
  destruct (vacuum_preserves_execution _ _ _ messy_decodes eq_refl ltac:(reflexivity)) as (r & Hr & H).
  assert (E : clean_body messy_body = Ret (Some [1; 1; 0x7F; 0x41; 7; 0x22; 0; 0x45; 0x1A; 0x02; 0x40; 0x0C; 0; 0x0B; 0x20; 0; 0x0B]))
    by reflexivity.
  rewrite E in Hr. injection Hr as <-.
  destruct (H _ eq_refl) as (q & Hq & Hrun).
  destruct (Hrun Z (list (@value Z)) demo_prim demo_arity (fun _ _ => None) 1%nat demo_get demo_set (Other 0)
    [I32 0] [] 20%nat (Halt [I32 7] [I32 7]) demo_wasm ltac:(reflexivity) ltac:(discriminate)) as (m & Hm & Hrm).
  do 2 eexists. exists m. split; [exact E|]. split; [reflexivity|]. split; [exact Hq|]. split; [exact Hm|exact Hrm].
Defined.

(** A body cut in the middle of a fixed-width immediate crashes the pass: the
    decoder gives the length of [f32.const] without looking at the buffer, and
    copying the instruction slices beyond the end. *)
Theorem clean_body_truncated_panics x : len x < 4 ->
  walk ([0; 0x43] ++ x) 1 = Some [(1, 5)] /\ clean_body ([0; 0x43] ++ x) = Panic.
Proof.
  intros H. destruct x as [|a [|b [|c [|d x]]]]; [by split..|].
  rewrite !len_cons in H. pose proof (len_nonneg x). lia.
Qed.

Lemma clean_body_truncated_panics_witness : clean_body ([0; 0x43] ++ [1; 2]) = Panic.
Proof. apply (clean_body_truncated_panics [1; 2]). reflexivity. Defined.
