(* ===== verification/VacuumEdits.v ===== *)
(** The provenance edits of the vacuum pass ([wilt/src/passes/vacuum.rs]): a fine
    diff over the instruction lists of the two bodies, resynchronised within a
    bounded window, and a coarse common-prefix/suffix diff as the fallback. *)
From S2P Require Import Prelude Leb128 Opcode Tokens WasmSem Peephole WasmSpec Provenance EditScript WasmModule MutModule Bits ConstFold BodyPass Vacuum.

(** [ai == bo && ai.is_some()] on two [get]s. *)
Definition instrs_eq (a b : Z * Z) (in_body out_body : bytes) : bool :=
  match get_range in_body (fst a) (fst a + snd a), get_range out_body (fst b) (fst b + snd b) with
  | Some x, Some y => bool_decide (x = y)
  | _, _ => false
  end.

(** The pairs [(di, dj)] in the order of the nested loops of [resync]. *)
Definition resync_order (max_lookahead : nat) : list (nat * nat) :=
  dist ← seq 1 (max_lookahead * 2);
  (fun di => (di, dist - di)%nat) <$> seq 0 (S dist).

Fixpoint resync_scan (in_instrs out_instrs : list (Z * Z)) (i_start j_start : nat)
    (in_body out_body : bytes) (max_lookahead : nat) (pairs : list (nat * nat))
  : outcome (option (nat * nat)) :=
  match pairs with
  | [] => Ret None
  | (di, dj) :: pairs =>
      if (max_lookahead <? di)%nat || (max_lookahead <? dj)%nat
      then resync_scan in_instrs out_instrs i_start j_start in_body out_body max_lookahead pairs
      else
        let i_at_end := (length in_instrs <=? i_start + di)%nat in
        let j_at_end := (length out_instrs <=? j_start + dj)%nat in
        if i_at_end && j_at_end
        then Ret (Some (length in_instrs - i_start, length out_instrs - j_start)%nat)
        else if negb i_at_end && negb j_at_end then
          a ← index in_instrs (Z.of_nat (i_start + di));
          b ← index out_instrs (Z.of_nat (j_start + dj));
          if instrs_eq a b in_body out_body then Ret (Some (di, dj))
          else resync_scan in_instrs out_instrs i_start j_start in_body out_body max_lookahead pairs
        else resync_scan in_instrs out_instrs i_start j_start in_body out_body max_lookahead pairs
  end.

Definition resync (in_instrs out_instrs : list (Z * Z)) (i_start j_start : nat)
    (in_body out_body : bytes) (max_lookahead : nat) : outcome (option (nat * nat)) :=
  if (length in_instrs <=? i_start)%nat then Ret (Some (0, length out_instrs - j_start)%nat)
  else if (length out_instrs <=? j_start)%nat then Ret (Some (length in_instrs - i_start, 0)%nat)
  else resync_scan in_instrs out_instrs i_start j_start in_body out_body max_lookahead
         (resync_order max_lookahead).

(** [if i < instrs.len() { instrs[i].0 as u32 } else { body.len() as u32 }] *)
Definition byte_start (instrs : list (Z * Z)) (i : nat) (body : bytes) : outcome Z :=
  if (i <? length instrs)%nat then a ← index instrs (Z.of_nat i); Ret (u32 (fst a))
  else Ret (u32 (len body)).

(** [if di > 0 { end of instrs[i + di - 1] } else { start }] *)
Definition byte_end (instrs : list (Z * Z)) (i di : nat) (start : Z) : outcome Z :=
  if (0 <? di)%nat then a ← index instrs (Z.of_nat (i + di - 1)); Ret (u32 (fst a + snd a))
  else Ret start.

(** The inner [while]: advance both sides over equal instructions. *)
Fixpoint identity_run (fuel : nat) (in_instrs out_instrs : list (Z * Z)) (i j : nat)
    (in_body out_body : bytes) : outcome (nat * nat) :=
  match fuel with
  | O => Ret (i, j)
  | S fuel =>
      if (i <? length in_instrs)%nat && (j <? length out_instrs)%nat then
        a ← index in_instrs (Z.of_nat i);
        b ← index out_instrs (Z.of_nat j);
        if instrs_eq a b in_body out_body
        then identity_run fuel in_instrs out_instrs (S i) (S j) in_body out_body
        else Ret (i, j)
      else Ret (i, j)
  end.

(** The edit of one diverging region; [None] for the [(0, 0)] arm. *)
Definition region_edit (in_start in_len out_start out_len : Z) : option Edit :=
  if (in_len =? 0) && (out_len =? 0) then None
  else if out_len =? 0 then Some (edit_delete in_start in_len out_start)
  else if in_len =? 0 then Some (edit_synth in_start out_start out_len)
  else Some (edit_subst in_start in_len out_start out_len).

Fixpoint fine_loop (fuel : nat) (in_instrs out_instrs : list (Z * Z)) (i j : nat)
    (input output : bytes) (edits : BodyEdits) : outcome (option BodyEdits) :=
  if (length in_instrs <=? i)%nat && (length out_instrs <=? j)%nat then Ret (Some edits) else
  match fuel with
  | O => Panic
  | S fuel =>
      '(i, j) ← identity_run (S (length in_instrs)) in_instrs out_instrs i j input output;
      if (length in_instrs <=? i)%nat && (length out_instrs <=? j)%nat then Ret (Some edits) else
      r ← resync in_instrs out_instrs i j input output 6;
      match r with
      | None => Ret None
      | Some (di, dj) =>
          in_byte_start ← byte_start in_instrs i input;
          in_byte_end ← byte_end in_instrs i di in_byte_start;
          out_byte_start ← byte_start out_instrs j output;
          out_byte_end ← byte_end out_instrs j dj out_byte_start;
          let in_len := sat_sub in_byte_end in_byte_start in
          let out_len := sat_sub out_byte_end out_byte_start in
          let edits := match region_edit in_byte_start in_len out_byte_start out_len with
                       | Some e => be_push edits e None
                       | None => edits
                       end in
          fine_loop fuel in_instrs out_instrs (i + di) (j + dj) input output edits
      end
  end.

Definition infer_fine_edits (input output : bytes) : outcome (option BodyEdits) :=
  match skip_locals input, skip_locals output with
  | Some in_start, Some out_start =>
      ih ← slice input 0 in_start;
      oh ← slice output 0 out_start;
      if negb (bool_decide (ih = oh)) then Ret None else
      match walk input in_start, walk output out_start with
      | Some in_instrs, Some out_instrs =>
          fine_loop (S (length in_instrs + length out_instrs)) in_instrs out_instrs 0 0 input output be_identity
      | _, _ => Ret None
      end
  | _, _ => Ret None
  end.

(** [zip().take_while(==).count()] *)
Fixpoint common_prefix (a b : bytes) : nat :=
  match a, b with
  | x :: a, y :: b => if x =? y then S (common_prefix a b) else O
  | _, _ => O
  end.

Definition infer_coarse_edits (input output : bytes) : outcome BodyEdits :=
  let prefix := common_prefix input output in
  let max_suffix := Nat.min (length input - prefix) (length output - prefix) in
  it ← slice_from input (Z.of_nat (length input - max_suffix));
  ot ← slice_from output (Z.of_nat (length output - max_suffix));
  let suffix := common_prefix (rev it) (rev ot) in
  if (prefix =? length input)%nat && (prefix =? length output)%nat then Ret be_identity else
  let in_mid_start := u32 (Z.of_nat prefix) in
  let in_mid_len := u32 (Z.of_nat (length input - prefix - suffix)) in
  let out_mid_start := u32 (Z.of_nat prefix) in
  let out_mid_len := u32 (Z.of_nat (length output - prefix - suffix)) in
  Ret (match region_edit in_mid_start in_mid_len out_mid_start out_mid_len with
       | Some e => be_push be_identity e None
       | None => be_identity
       end).

(** The closure of [apply_mut]: a cleaned body with fine edits or else coarse ones. *)
Definition clean_with_edits (input_body : bytes) : outcome (option (bytes * BodyEdits)) :=
  out ← clean_body input_body;
  match out with
  | None => Ret None
  | Some out =>
      fine ← infer_fine_edits input_body out;
      edits ← (match fine with Some e => Ret e | None => infer_coarse_edits input_body out end);
      Ret (Some (out, edits))
  end.

Definition vacuum_apply_mut (m : MutModule) : outcome MutModule := run_pass clean_with_edits m.

(** [apply]: the pass on a parsed module.  [None] is the early return of the input
    when a body size cannot be read. *)
Fixpoint clean_bodies (fuel : nat) (payload : bytes) (count off : Z) : outcome (option (list (option bytes))) :=
  if count <=? 0 then Ret (Some []) else
  match fuel with
  | O => Panic
  | S fuel =>
      rest ← slice_from payload off;
      match read_u32 rest with
      | None => Ret None
      | Some (body_size, c) =>
          let off := off + c in
          body ← slice payload off (off + body_size);
          r ← clean_body body;
          tail ←? clean_bodies fuel payload (count - 1) (off + body_size);
          Ret (Some (r :: tail))
      end
  end.

Definition vacuum_apply (m : WasmModule) : outcome bytes :=
  let data := wm_data m in
  match position_code (wm_sections m) with
  | None => Ret data
  | Some code_idx =>
      code_sec ← index (wm_sections m) (Z.of_nat code_idx);
      payload ← span_slice (sec_payload code_sec) data;
      match read_u32 payload with
      | None => Ret data
      | Some (func_count, header_len) =>
          new_bodies ← clean_bodies (S (length payload)) payload func_count header_len;
          match new_bodies with
          | None => Ret data
          | Some new_bodies =>
              if forallb (fun r => match r with None => true | Some _ => false end) new_bodies
              then Ret data
              else
                bodies ← rebuild_bodies payload new_bodies header_len;
                emit_with_replacements m {[ code_idx := write_u32 func_count ++ bodies ]}
          end
      end
  end.

Example infer_fine_two_regions :
  infer_fine_edits [0; 0x01; 0x41; 5; 0x1A; 0x41; 9; 0x01; 0x0B] [0; 0x41; 9; 0x0B]
  = Ret (Some (mkEdits [edit_delete 1 4 1; edit_delete 7 1 3] [None; None])).
Proof. reflexivity. Qed.
Example infer_coarse_middle :
  infer_coarse_edits [1; 2; 3; 4] [1; 9; 4] = Ret (mkEdits [edit_subst 1 2 1 1] [None]).
Proof. reflexivity. Qed.

(** ** The coarse diff *)

Lemma region_edit_eq s l o n :
  region_edit s l o n = if (l =? 0) && (n =? 0) then None else Some (mkEdit s l o n).
Proof.
  unfold region_edit, edit_delete, edit_synth, edit_subst.
  destruct (Z.eqb_spec l 0) as [->|], (Z.eqb_spec n 0) as [->|]; done.
Qed.

(** The edit of a region is a step of a script, or the region is empty. *)
Lemma region_script p o x new input output es :
  script (p + len x) (o + len new) input output es ->
  script p o (x ++ input) (new ++ output)
    (match region_edit p (len x) o (len new) with Some e => [e] | None => [] end ++ es).
Proof.
  intros H. rewrite region_edit_eq.
  destruct (Z.eqb_spec (len x) 0) as [Hx|], (Z.eqb_spec (len new) 0) as [Hn|]; simpl;
    try by apply script_replace.
  rewrite Hx, Hn, !Z.add_0_r in H. by rewrite (len_0_inv x), (len_0_inv new).
Qed.

Lemma common_prefix_spec a : forall b, exists p a' b',
  a = p ++ a' /\ b = p ++ b' /\ length p = common_prefix a b.
Proof.
  induction a as [|x a IH]; intros [|y b]; cbn [common_prefix]; [by eexists [], [], _|by exists [], [], (y :: b)|
    by exists [], (x :: a), []|].
  destruct (Z.eqb_spec x y) as [->|]; [|by exists [], (x :: a), (y :: b)].
  destruct (IH b) as (p & a' & b' & -> & -> & Hp). exists (y :: p), a', b'. by rewrite <- Hp.
Qed.

(** Both buffers as prefix, middle and suffix, as the function finds them. *)
Lemma coarse_split input output : exists p x new s,
  input = p ++ x ++ s /\ output = p ++ new ++ s /\
  length p = common_prefix input output /\
  let max_suffix := Nat.min (length input - length p) (length output - length p) in
  length s = common_prefix (rev (drop (length input - max_suffix) input))
                           (rev (drop (length output - max_suffix) output)).
Proof.
  destruct (common_prefix_spec input output) as (p & a & b & -> & -> & Hp).
  set (n := Nat.min (length a) (length b)).
  set (ta := drop (length a - n) a). set (tb := drop (length b - n) b).
  destruct (common_prefix_spec (rev ta) (rev tb)) as (q & ta' & tb' & Ha & Hb & Hq).
  assert (Ea : ta = rev ta' ++ rev q) by (by rewrite <- rev_app_distr, <- Ha, rev_involutive).
  assert (Eb : tb = rev tb' ++ rev q) by (by rewrite <- rev_app_distr, <- Hb, rev_involutive).
  exists p, (take (length a - n) a ++ rev ta'), (take (length b - n) b ++ rev tb'), (rev q).
  rewrite <- !app_assoc, <- Ea, <- Eb. cbv zeta. rewrite length_rev, !length_app.
  replace (length p + length a - length p)%nat with (length a) by lia.
  replace (length p + length b - length p)%nat with (length b) by lia. fold n.
  rewrite !drop_app_ge by lia.
  replace (length p + length a - n - length p)%nat with (length a - n)%nat by lia.
  replace (length p + length b - n - length p)%nat with (length b - n)%nat by lia.
  unfold ta, tb in *. rewrite !take_drop. by split_and!.
Qed.

Lemma infer_coarse_script input output : len input < 2 ^ 32 -> len output < 2 ^ 32 ->
  exists e, infer_coarse_edits input output = Ret e /\
    script 0 0 input output (edits e) /\ src_funcs e = replicate (length (edits e)) None.
Proof.
  intros Hi Ho. destruct (coarse_split input output) as (p & x & new & s & Ein & Eout & Hp & Hs).
  cbv zeta in Hs. unfold infer_coarse_edits. cbv zeta. rewrite <- Hp.
  set (n := Nat.min _ _) in *.
  rewrite !slice_from_eq by (unfold len; lia). rewrite !Nat2Z.id. cbn [mbind outcome_bind].
  rewrite <- Hs. clear Hs. subst input output. rewrite !length_app in *. rewrite !len_app in *.
  destruct (_ && _) eqn:Eq.
  - exists be_identity. split; [done|]. split; [|done].
    apply andb_prop in Eq as [Eq1%Nat.eqb_eq Eq2%Nat.eqb_eq].
    assert (length x = 0 /\ length new = 0 /\ length s = 0)%nat as (E1 & E2 & E3) by lia.
    apply nil_length_inv in E1, E2, E3. subst. constructor.
  - eexists. split; [done|].
    pose proof (len_nonneg p). pose proof (len_nonneg x). pose proof (len_nonneg new). pose proof (len_nonneg s).
    replace (length p + (length x + length s) - length p - length s)%nat with (length x) by lia.
    replace (length p + (length new + length s) - length p - length s)%nat with (length new) by lia.
    change (Z.of_nat (length ?l)) with (len l). rewrite !u32_small by (unfold len in *; lia).
    assert (Hsc : script 0 0 (p ++ x ++ s) (p ++ new ++ s)
      (match region_edit (len p) (len x) (len p) (len new) with Some e => [e] | None => [] end ++ [])).
    { apply script_copy. rewrite !Z.add_0_l. apply region_script. constructor. }
    rewrite app_nil_r in Hsc. unfold len in *. by destruct (region_edit _ _ _ _).
Qed.

(** ** The fine diff *)

(** The offset of instruction [i] of a list that starts at [h]. *)
Definition pos (h : Z) (ts : list token) (i : nat) : Z := h + len (mjoin (take i ts)).

Lemma pos_add h ts i k : pos h ts (i + k) = pos h ts i + len (mjoin (take k (drop i ts))).
Proof. unfold pos. rewrite <- take_take_drop, join_app, len_app. lia. Qed.

Lemma pos_le h ts i : 0 <= h -> 0 <= pos h ts i <= h + len (mjoin ts).
Proof.
  intros Hh. unfold pos. pose proof (len_nonneg (mjoin (take i ts))).
  assert (E : mjoin ts = mjoin (take i ts) ++ mjoin (drop i ts)) by by rewrite <- join_app, take_drop.
  rewrite E, len_app. pose proof (len_nonneg (mjoin (drop i ts))). lia.
Qed.

Lemma join_cut (ts : list token) i k :
  mjoin (drop i ts) = mjoin (take k (drop i ts)) ++ mjoin (drop (i + k) ts).
Proof. rewrite <- (take_drop k (drop i ts)) at 1. by rewrite join_app, drop_drop. Qed.

Lemma spans_at_length p ts : length (spans_at p ts) = length ts.
Proof. revert p. induction ts as [|t ts IH]; intros p; simpl; [done|by rewrite IH]. Qed.

Lemma spans_at_index h ts i t : ts !! i = Some t ->
  index (spans_at h ts) (Z.of_nat i) = Ret (pos h ts i, len t).
Proof.
  intros Ht. apply index_lookup. revert h i Ht. induction ts as [|u ts IH]; intros h i Ht; [done|].
  destruct i as [|i]; simpl in *; [injection Ht as ->; unfold pos; simpl; by rewrite Z.add_0_r|].
  rewrite IH by done. unfold pos. simpl. by rewrite len_app, Z.add_assoc.
Qed.

Lemma get_range_token body pre (ts : list token) i t : body = pre ++ mjoin ts -> ts !! i = Some t ->
  get_range body (pos (len pre) ts i) (pos (len pre) ts i + len t) = Some t.
Proof.
  intros -> Ht. pose proof (slice_app (pre ++ mjoin (take i ts)) t (mjoin (drop (S i) ts))) as H.
  unfold slice in H. rewrite len_app in H. unfold pos.
  assert (E : pre ++ mjoin ts = (pre ++ mjoin (take i ts)) ++ t ++ mjoin (drop (S i) ts)).
  { rewrite <- app_assoc. f_equal. rewrite <- (take_drop_middle ts i t Ht) at 1. by rewrite join_app. }
  rewrite E. destruct (get_range _ _ _); [by injection H as ->|done].
Qed.

Section fine.
Context (input output hdr : bytes) (tin tout : list token).
Context (Hin : input = hdr ++ mjoin tin) (Hout : output = hdr ++ mjoin tout).
Context (Hinlen : len input < 2 ^ 32) (Houtlen : len output < 2 ^ 32).

Abbreviation h := (len hdr).
Abbreviation ins := (spans_at (len hdr) tin).
Abbreviation outs := (spans_at (len hdr) tout).

Lemma pos_in i : 0 <= pos h tin i <= len input.
Proof using Hin. rewrite Hin, len_app. apply pos_le, len_nonneg. Qed.

Lemma pos_out j : 0 <= pos h tout j <= len output.
Proof using Hout. rewrite Hout, len_app. apply pos_le, len_nonneg. Qed.

Lemma instrs_eq_tokens i j t u : tin !! i = Some t -> tout !! j = Some u ->
  instrs_eq (pos h tin i, len t) (pos h tout j, len u) input output = bool_decide (t = u).
Proof using Hin Hout.
  intros Ht Hu. unfold instrs_eq. cbn [fst snd].
  by rewrite (get_range_token _ _ _ _ _ Hin Ht), (get_range_token _ _ _ _ _ Hout Hu).
Qed.

Lemma lookup_below {A} (l : list A) i : (i < length l)%nat -> exists x, l !! i = Some x.
Proof using. intros H. by apply lookup_lt_is_Some. Qed.

Lemma identity_run_spec fuel : forall i j, (i <= length tin)%nat -> (j <= length tout)%nat ->
  exists k, identity_run fuel ins outs i j input output = Ret (i + k, j + k)%nat /\
    (i + k <= length tin)%nat /\ (j + k <= length tout)%nat /\
    take k (drop i tin) = take k (drop j tout).
Proof using Hin Hout.
  assert (Hstop : forall i j : nat, (i <= length tin)%nat -> (j <= length tout)%nat ->
    exists k, Ret (i, j) = Ret (i + k, j + k)%nat /\ (i + k <= length tin)%nat /\
    (j + k <= length tout)%nat /\ take k (drop i tin) = take k (drop j tout)).
  { intros i j Hi Hj. exists 0%nat. rewrite !Nat.add_0_r. by split_and!. }
  induction fuel as [|fuel IH]; intros i j Hi Hj; cbn [identity_run]; [by apply Hstop|].
  rewrite !spans_at_length. destruct (Nat.ltb_spec i (length tin)); [|by apply Hstop].
  destruct (Nat.ltb_spec j (length tout)); [|by apply Hstop]. simpl andb. cbn iota.
  destruct (lookup_below tin i) as [t Ht]; [done|]. destruct (lookup_below tout j) as [u Hu]; [done|].
  rewrite (spans_at_index _ _ _ _ Ht), (spans_at_index _ _ _ _ Hu). cbn [mbind outcome_bind].
  rewrite instrs_eq_tokens by done. case_bool_decide as E; [|by apply Hstop]. subst u.
  destruct (IH (S i) (S j)) as (k & -> & Hk1 & Hk2 & Hk); [lia..|].
  exists (S k). rewrite !Nat.add_succ_r. split_and!; [done|lia|lia|].
  rewrite (drop_S _ _ _ Ht), (drop_S _ _ _ Hu). simpl. by rewrite Hk.
Qed.

Lemma resync_scan_spec ml pairs i j : (i < length tin)%nat -> (j < length tout)%nat ->
  Forall (fun p => (0 < fst p + snd p)%nat) pairs ->
  exists r, resync_scan ins outs i j input output ml pairs = Ret r /\
  forall di dj, r = Some (di, dj) ->
    (i + di <= length tin)%nat /\ (j + dj <= length tout)%nat /\ (0 < di + dj)%nat.
Proof using Hin Hout.
  intros Hi Hj. induction 1 as [|[di dj] pairs Hd _ IH]; cbn [resync_scan]; [by exists None|].
  destruct (_ || _); [done|]. rewrite !spans_at_length.
  destruct (Nat.leb_spec (length tin) (i + di)), (Nat.leb_spec (length tout) (j + dj)); simpl; try done.
  - eexists. split; [done|]. intros ? ? [= <- <-]. lia.
  - destruct (lookup_below tin (i + di)) as [t Ht]; [done|].
    destruct (lookup_below tout (j + dj)) as [u Hu]; [done|].
    rewrite (spans_at_index _ _ _ _ Ht), (spans_at_index _ _ _ _ Hu). cbn [mbind outcome_bind].
    destruct (instrs_eq _ _ _ _); [|done].
    eexists. split; [done|]. intros ? ? [= <- <-]. simpl in Hd. lia.
Qed.

Lemma resync_order_pos ml : Forall (fun p => (0 < fst p + snd p)%nat) (resync_order ml).
Proof using.
  apply Forall_forall. intros [di dj] H. unfold resync_order in H.
  apply list_elem_of_bind in H as (dist & H & Hd%elem_of_seq).
  apply list_elem_of_fmap in H as (k & [= -> ->] & Hk%elem_of_seq). simpl. lia.
Qed.

Lemma resync_spec i j : (i <= length tin)%nat -> (j <= length tout)%nat ->
  (length tin <=? i)%nat && (length tout <=? j)%nat = false ->
  exists r, resync ins outs i j input output 6 = Ret r /\
  forall di dj, r = Some (di, dj) ->
    (i + di <= length tin)%nat /\ (j + dj <= length tout)%nat /\ (0 < di + dj)%nat.
Proof using Hin Hout.
  intros Hi Hj He. unfold resync. rewrite !spans_at_length.
  destruct (Nat.leb_spec (length tin) i); [|destruct (Nat.leb_spec (length tout) j)].
  - simpl in He. apply Nat.leb_gt in He. eexists. split; [done|]. intros ? ? [= <- <-]. lia.
  - eexists. split; [done|]. intros ? ? [= <- <-]. lia.
  - apply resync_scan_spec; [done..|apply resync_order_pos].
Qed.

Lemma byte_bounds body ts i di : body = hdr ++ mjoin ts -> len body < 2 ^ 32 ->
  (i + di <= length ts)%nat ->
  byte_start (spans_at h ts) i body = Ret (pos h ts i) /\
  byte_end (spans_at h ts) i di (pos h ts i) = Ret (pos h ts (i + di)).
Proof using.
  intros Hb Hlen Hi. unfold byte_start, byte_end. rewrite spans_at_length.
  assert (Hp : forall k, 0 <= pos h ts k < 2 ^ 32).
  { intros k. pose proof (pos_le h ts k (len_nonneg hdr)). rewrite Hb, len_app in Hlen. lia. }
  split.
  - destruct (Nat.ltb_spec i (length ts)).
    + destruct (lookup_below ts i) as [t Ht]; [done|]. rewrite (spans_at_index _ _ _ _ Ht).
      cbn [mbind outcome_bind fst]. by rewrite u32_small.
    + assert (Hfull : pos h ts i = len body) by (unfold pos; rewrite take_ge, Hb, len_app by lia; done).
      rewrite <- Hfull. by rewrite u32_small.
  - destruct (Nat.ltb_spec 0 di); [|by replace di with 0%nat by lia; rewrite Nat.add_0_r].
    destruct (lookup_below ts (i + di - 1)) as [t Ht]; [lia|]. rewrite (spans_at_index _ _ _ _ Ht).
    cbn [mbind outcome_bind fst snd].
    replace (pos h ts (i + di - 1) + len t) with (pos h ts (i + di)); [by rewrite u32_small|].
    replace (i + di)%nat with ((i + di - 1) + 1)%nat at 1 by lia. rewrite pos_add. f_equal.
    rewrite (drop_S _ _ _ Ht). simpl. by rewrite app_nil_r.
Qed.

(** The loop terminates within its fuel, and its edits are a script for what is
    left of the two bodies. *)
Lemma fine_loop_spec fuel : forall i j e, (i <= length tin)%nat -> (j <= length tout)%nat ->
  (length tin - i + (length tout - j) < fuel)%nat ->
  exists r, fine_loop fuel ins outs i j input output e = Ret r /\
  forall e', r = Some e' -> exists es, extends e e' es /\
    script (pos h tin i) (pos h tout j) (mjoin (drop i tin)) (mjoin (drop j tout)) es.
Proof using Hin Hout Hinlen Houtlen.
  assert (Hend : forall i j e, (length tin <=? i)%nat && (length tout <=? j)%nat = true ->
    forall e', Some e = Some e' -> exists es, extends e e' es /\
    script (pos h tin i) (pos h tout j) (mjoin (drop i tin)) (mjoin (drop j tout)) es).
  { intros i j e [E1%Nat.leb_le E2%Nat.leb_le]%andb_prop e' [= <-]. exists [].
    rewrite !drop_ge by done. split; [|constructor]. unfold extends. by rewrite !app_nil_r. }
  induction fuel as [|fuel IH]; intros i j e Hi Hj Hf; [lia|]. cbn [fine_loop]. rewrite !spans_at_length.
  destruct (_ && _) eqn:E0; [eexists; split; [done|by apply Hend]|].
  destruct (identity_run_spec (S (length tin)) i j Hi Hj) as (k & -> & Hk1 & Hk2 & Hk).
  cbn [mbind outcome_bind].
  assert (Hcopy : forall e e' es, extends e e' es ->
    script (pos h tin (i + k)) (pos h tout (j + k)) (mjoin (drop (i + k) tin)) (mjoin (drop (j + k) tout)) es ->
    exists es, extends e e' es /\
    script (pos h tin i) (pos h tout j) (mjoin (drop i tin)) (mjoin (drop j tout)) es).
  { intros e1 e' es He Hs. exists es. split; [done|]. rewrite (join_cut tin i k), (join_cut tout j k), <- Hk.
    apply script_copy. rewrite !pos_add, <- Hk in Hs. done. }
  destruct ((length tin <=? i + k)%nat && (length tout <=? j + k)%nat) eqn:E1.
  { eexists. split; [done|]. intros e' He. destruct (Hend _ _ _ E1 e' He) as (es & ? & ?). eauto. }
  destruct (resync_spec (i + k) (j + k) Hk1 Hk2 E1) as (r & -> & Hr). cbn [mbind outcome_bind].
  destruct r as [[di dj]|]; [|by exists None]. destruct (Hr di dj eq_refl) as (Hdi & Hdj & Hpos).
  destruct (byte_bounds input tin (i + k) di Hin Hinlen Hdi) as [-> Hie]. cbn [mbind outcome_bind].
  rewrite Hie. cbn [mbind outcome_bind].
  destruct (byte_bounds output tout (j + k) dj Hout Houtlen Hdj) as [-> Hoe]. cbn [mbind outcome_bind].
  rewrite Hoe. cbn [mbind outcome_bind].
  assert (Hsub : forall ts a b, sat_sub (pos h ts (a + b)) (pos h ts a) = len (mjoin (take b (drop a ts)))).
  { intros ts a b. rewrite pos_add. unfold sat_sub. pose proof (len_nonneg (mjoin (take b (drop a ts)))). lia. }
  rewrite !Hsub.
  set (ed := region_edit _ _ _ _). set (e1 := match ed with Some d => be_push e d None | None => e end).
  destruct (IH (i + k + di)%nat (j + k + dj)%nat e1 Hdi Hdj ltac:(lia)) as (r & -> & Hrec).
  exists r. split; [done|]. intros e' He'. destruct (Hrec e' He') as (es & Hx & Hs).
  apply (Hcopy e e' (match ed with Some d => [d] | None => [] end ++ es)).
  - unfold e1 in Hx. destruct ed as [d|]; [|done]. by apply extends_push.
  - rewrite (join_cut tin (i + k) di), (join_cut tout (j + k) dj). apply region_script.
    by rewrite <- !pos_add.
Qed.
End fine.

(** ** Properties *)

Lemma infer_fine_script input output locals tin tout :
  decodes input locals tin -> decodes output locals tout -> len input < 2 ^ 32 -> len output < 2 ^ 32 ->
  exists r, infer_fine_edits input output = Ret r /\ forall e, r = Some e ->
    script 0 0 input output (edits e) /\ src_funcs e = replicate (length (edits e)) None.
Proof.
  intros [Hi Hli Hti] [Ho Hlo Hto] Hil Hol. unfold infer_fine_edits. rewrite Hli, Hlo.
  rewrite Hi, Ho, !slice_prefix. cbn [mbind outcome_bind]. rewrite bool_decide_eq_true_2 by done.
  simpl negb. cbn iota. rewrite !walk_join, <- Hi, <- Ho by done. rewrite !spans_at_length.
  destruct (fine_loop_spec input output locals tin tout Hi Ho Hil Hol
    (S (length tin + length tout)) 0 0 be_identity) as (r & -> & Hr); [lia..|].
  exists r. split; [done|]. intros e He. destruct (Hr e He) as (es & [He1 He2] & Hs).
  simpl in He1, He2. rewrite He1. split; [|by rewrite He2].
  rewrite Hi, Ho. apply script_copy. rewrite !Z.add_0_l. unfold pos in Hs.
  by rewrite !take_0, !drop_0, !Z.add_0_r in Hs.
Qed.

Lemma clean_with_edits_spec body locals p :
  decodes body locals p -> closes 0 p = true -> 2 * len body < 2 ^ 32 ->
  exists r, clean_with_edits body = Ret r /\ forall out e, r = Some (out, e) ->
  clean_body body = Ret (Some out) /\ len out <= 2 * len body /\
  src_funcs e = replicate (length (edits e)) None /\
  script 0 0 body out (edits e) /\ exists q, decodes out locals q /\ rewrites vacuum_rule p q.
Proof.
  intros Hd Hc Hlen. pose proof (len_nonneg body).
  destruct (vacuum_preserves _ _ _ Hd Hc ltac:(lia)) as (r & Hr & Hq). unfold clean_with_edits. rewrite Hr.
  cbn [mbind outcome_bind]. destruct r as [out|]; [|by eexists].
  destruct (Hq out eq_refl) as (Hl & q & Hdo & Hrw). pose proof (len_nonneg out).
  destruct (infer_fine_script body out locals p q Hd Hdo ltac:(lia) ltac:(lia)) as (f & Hf & Hfs). rewrite Hf.
  cbn [mbind outcome_bind].
  assert (Hpick : exists e, match f with Some e => Ret e | None => infer_coarse_edits body out end = Ret e /\
    script 0 0 body out (edits e) /\ src_funcs e = replicate (length (edits e)) None).
  { destruct f as [e|]; [exists e; split; [done|]; by apply Hfs|].
    destruct (infer_coarse_script body out ltac:(lia) ltac:(lia)) as (e & -> & Hs & Hsrc). by exists e. }
  destruct Hpick as (e & -> & Hs & Hsrc). cbn [mbind outcome_bind]. eexists. split; [done|].
  intros out' e' [= <- <-]. split_and!; [done..|]. by exists q.
Qed.

Lemma vacuum_rule_branches x y : vacuum_rule x y -> Forall (fun t => no_ref_branch t = true) y.
Proof. destruct 1; [by eapply fold_rule_branches|by repeat constructor..]. Qed.

#[global] Instance vacuum_pass : BodyPass clean_with_edits.
Proof.
  split.
  - intros body locals p [Hd Hc Href] Hl. destruct (clean_with_edits_spec _ _ _ Hd Hc Hl) as (r & Hr & Hout).
    exists r. split; [done|]. intros out e E.
    destruct (Hout out e E) as (_ & Hlen & Hsrc & _ & q & Hq & Hrw). split_and!; [done| |].
    + unfold aligned. by rewrite Hsrc, length_replicate.
    + exists q. split; [split; [done| |]|].
      * eapply closes_rewrites; [exact vacuum_rule_balanced| |done..].
        intros x y Hxy. by destruct (vacuum_rule_nonempty _ _ Hxy) as (t & x' & ->).
      * eapply rewrites_Forall; [|exact Hrw|done]. intros x y Hxy _. by eapply vacuum_rule_branches.
      * intros Val St prim arity table_label results lget lset zero64 s stk n res Hi _.
        by eapply (vacuum_rewrites_run p q Hrw).
  - intros body locals p out e [Hd Hc _] Hb Hout Hl.
    destruct (clean_with_edits_spec _ _ _ Hd Hc Hb) as (r & Hr & Hq). rewrite Hout in Hr. injection Hr as <-.
    destruct (Hq out e eq_refl) as (_ & _ & Hsrc & Hs & _). by apply script_apply.
Qed.

(** C4. The edits the vacuum pass infers after the fact are correct provenance,
    whether the bounded resynchronisation of the instruction lists succeeds or
    the coarse diff replaces it: for a well-formed body the inference returns
    (its loops end), and applying the edits to the old body, with the replaced
    bytes read from the new one, gives the new body. *)
Theorem vacuum_edits_apply body locals p :
  decodes body locals p -> closes 0 p = true -> 2 * len body < 2 ^ 32 ->
  exists r, clean_with_edits body = Ret r /\ forall out e, r = Some (out, e) ->
    len body + len out < 2 ^ 32 ->
    Provenance.apply (supply (edits e) out) e body = Ret (Some out).
Proof.
  intros Hd Hc Hlen. destruct (clean_with_edits_spec _ _ _ Hd Hc Hlen) as (r & Hr & Hq).
  exists r. split; [done|]. intros out e E Hl. destruct (Hq out e E) as (_ & _ & Hsrc & Hs & _).
  by apply script_apply.
Qed.

Lemma vacuum_edits_apply_witness :
  exists r, clean_with_edits messy_body = Ret r /\ forall out e, r = Some (out, e) ->
    len messy_body + len out < 2 ^ 32 ->
    Provenance.apply (supply (edits e) out) e messy_body = Ret (Some out).
Proof. exact (vacuum_edits_apply messy_body _ _ messy_decodes eq_refl ltac:(reflexivity)). Defined.

Definition clean_results (f : body_chunk -> option bytes) (bs : list body_chunk) : Prop :=
  Forall (fun b => clean_body (bc_body b) = Ret (f b)) bs.

Lemma clean_bodies_spec f bs : Forall bc_ok bs -> clean_results f bs ->
  forall fuel pre, (length bs <= fuel)%nat ->
  clean_bodies fuel (pre ++ bcs_bytes bs) (len bs) (len pre) = Ret (Some (f <$> bs)).
Proof.
  intros Hok Hf. induction Hf as [|b bs Hb Hf IH]; intros fuel pre Hfuel; [by destruct fuel|].
  apply Forall_cons in Hok as [Hok Hoks]. destruct fuel as [|fuel]; [simpl in Hfuel; lia|].
  cbn [clean_bodies]. pose proof (len_nonneg bs).
  replace (len (b :: bs) <=? 0) with false by (rewrite len_cons; lia).
  rewrite bcs_bytes_cons. destruct (read_chunk pre b (bcs_bytes bs) Hok) as (-> & E & Hs & Hl).
  cbn [mbind outcome_bind]. rewrite E, Hs, Hl. cbn [mbind outcome_bind]. rewrite Hb. cbn [mbind outcome_bind].
  rewrite len_cons, app_assoc. replace (1 + len bs - 1) with (len bs) by lia.
  rewrite IH by (done || (simpl in Hfuel; lia)). done.
Qed.

(** The stand-alone entry point of the vacuum pass re-emits the module with the
    cleaned bodies however the body count is encoded, padded or not: its second
    loop restarts where the bodies start. *)
Theorem vacuum_apply_cleans_code m idx code cnt bs f :
  position_code (wm_sections m) = Some idx -> wm_sections m !! idx = Some code ->
  span_slice (sec_payload code) (wm_data m) = Ret (cnt ++ bcs_bytes bs) ->
  code_payload_ok cnt bs -> clean_results f bs ->
  vacuum_apply m = if forallb (fun b => match f b with None => true | Some _ => false end) bs
            then Ret (wm_data m)
            else emit_with_replacements m {[ idx := write_u32 (len bs) ++ mjoin (rebuilt f <$> bs) ]}.
Proof.
  intros Hpos Hcode Hpay [Hcnt Hbs] Hf. unfold vacuum_apply. rewrite Hpos, (index_lookup _ _ _ Hcode).
  cbn [mbind outcome_bind]. rewrite Hpay. cbn [mbind outcome_bind].
  rewrite (read_u32_app _ _ _ _ Hcnt), (clean_bodies_spec f bs Hbs Hf)
    by (rewrite length_app; pose proof (bcs_count _ Hbs); lia).
  cbn [mbind outcome_bind]. rewrite forallb_fmap.
  destruct (forallb _ bs); [done|]. by rewrite (rebuild_bodies_spec f bs Hbs).
Qed.

Definition padded_code : WasmModule :=
  {| wm_data := wasm_header ++ [10; 11; 0x82; 0; 2; 0; 0x0B; 5; 0; 0x41; 1; 0x1A; 0x0B];
     wm_sections := [mkSection 10 (mkSpan 10 11) (mkSpan 8 13) None];
     wm_function_bodies := None |}.

Lemma vacuum_apply_cleans_code_witness :
  vacuum_apply padded_code = Ret (wasm_header ++ [10; 7; 2; 2; 0; 0x0B; 2; 0; 0x0B]).
Proof.
  rewrite (vacuum_apply_cleans_code padded_code 0 (mkSection 10 (mkSpan 10 11) (mkSpan 8 13) None) [0x82; 0]
    [mkBC [2] [0; 0x0B]; mkBC [5] [0; 0x41; 1; 0x1A; 0x0B]]
    (fun b => match clean_body (bc_body b) with Ret r => r | Panic => None end)).
  - reflexivity.
  - reflexivity.
  - reflexivity.
  - reflexivity.
  - split; [reflexivity|]. repeat constructor.
  - repeat constructor.
Defined.
