(* ===== verification/BodyIr.v ===== *)
(** The per-body instruction index of wilt ([wilt/src/ir/body.rs]). *)
From S2P Require Import Prelude Leb128 Opcode Tokens.

Record Instr := mkInstr { ins_op : Z; ins_start : Z; ins_len : Z }.

(** [Instr::end]; a [u32] addition. *)
Definition instr_end (it : Instr) : Z := u32 (ins_start it + ins_len it).

Record BodyIr := mkBodyIr { ir_body : bytes; instrs : list Instr; instrs_start : Z }.

(** The loop of [BodyIr::new] over the items of the iterator. *)
Fixpoint index_instrs (body : bytes) (items : list (Z * Z)) : outcome (list Instr) :=
  match items with
  | [] => Ret []
  | (p, l) :: items =>
      o ← index body p;
      rest ← index_instrs body items;
      Ret (mkInstr o (u32 p) (u32 l) :: rest)
  end.

Definition ir_new (body : bytes) : outcome (option BodyIr) :=
  match skip_locals body with
  | None => Ret None
  | Some s =>
      let '(items, it) := iter_collect (S (length body)) (iter_new body s) in
      ins ← index_instrs body items;
      Ret (if it_failed it then None else Some (mkBodyIr body ins s))
  end.

Definition instr_bytes (ir : BodyIr) (i : Z) : outcome bytes :=
  it ← index (instrs ir) i; slice (ir_body ir) (ins_start it) (instr_end it).

Definition imm_u32 (ir : BodyIr) (i : Z) : outcome (option Z) :=
  it ← index (instrs ir) i;
  if ins_len it <=? 1 then Ret None else
  rest ← slice_from (ir_body ir) (u32 (ins_start it + 1));
  Ret (fst <$> read_u32 rest).

Definition instr_at_byte (ir : BodyIr) (byte_off : Z) : option nat :=
  fst <$> list_find (fun it => ins_start it <= byte_off < instr_end it) (instrs ir).

Example builds_simple_body :
  ir_new [0; 0x41; 5; 0x41; 7; 0x6A; 0x1A; 0x0B]
  = Ret (Some (mkBodyIr [0; 0x41; 5; 0x41; 7; 0x6A; 0x1A; 0x0B]
      [mkInstr 0x41 1 2; mkInstr 0x41 3 2; mkInstr 0x6A 5 1; mkInstr 0x1A 6 1; mkInstr 0x0B 7 1] 1)).
Proof. reflexivity. Qed.
Example bails_on_simd : ir_new [0; 0xFD; 0x7C; 0x0B] = Ret None.
Proof. reflexivity. Qed.

(** ** The index of a body that decodes *)

Fixpoint instrs_at (p : Z) (ts : list token) : list Instr :=
  match ts with [] => [] | t :: ts => mkInstr (opcode t) p (len t) :: instrs_at (p + len t) ts end.

Lemma instrs_at_length p ts : length (instrs_at p ts) = length ts.
Proof. revert p. induction ts as [|t ts IH]; intros p; [done|]. simpl. by rewrite IH. Qed.

Lemma instrs_at_middle p ts1 t ts2 :
  instrs_at p (ts1 ++ t :: ts2) !! length ts1 = Some (mkInstr (opcode t) (p + len (mjoin ts1)) (len t)).
Proof.
  revert p. induction ts1 as [|u ts1 IH]; intros p; simpl; [by rewrite Z.add_0_r|].
  rewrite IH. do 2 f_equal. change (mjoin (u :: ts1)) with (u ++ mjoin ts1). rewrite len_app. lia.
Qed.

Lemma index_instrs_ok body ts : Forall complete ts -> forall pre, body = pre ++ mjoin ts -> len body < 2 ^ 32 ->
  index_instrs body (spans_at (len pre) ts) = Ret (instrs_at (len pre) ts).
Proof.
  induction 1 as [|t ts Ht _ IH]; intros pre Hb Hl; [done|]. cbn [spans_at index_instrs instrs_at].
  rewrite (read_opcode body pre t (mjoin ts)) by done. cbn [mbind outcome_bind].
  rewrite <- len_app, (IH (pre ++ t)) by (done || by rewrite Hb, <- app_assoc).
  cbn [mbind outcome_bind]. pose proof (len_nonneg pre). pose proof (len_nonneg t). pose proof (len_nonneg (mjoin ts)).
  change (mjoin (t :: ts)) with (t ++ mjoin ts) in Hb. rewrite Hb, !len_app in Hl.
  by rewrite !(wrap_id 32) by (unfold is_uint; lia).
Qed.

(** The iterator visits the instructions of a decoding body and does not fail. *)
Lemma collect_ok body locals ts : decodes body locals ts ->
  exists it, iter_collect (S (length body)) (iter_new body (len locals)) = (spans_at (len locals) ts, it) /\
    it_failed it = false.
Proof.
  intros [Hb _ Hts]. pose proof (walk_join locals ts Hts) as Hw. rewrite <- Hb in Hw. unfold walk in Hw.
  destruct (iter_collect _ _) as [l it] eqn:E. destruct (it_failed it) eqn:Ef; [done|]. injection Hw as ->.
  by exists it.
Qed.

Lemma ir_new_ok body locals ts : decodes body locals ts -> len body < 2 ^ 32 ->
  ir_new body = Ret (Some (mkBodyIr body (instrs_at (len locals) ts) (len locals))).
Proof.
  intros Hd Hl. unfold ir_new. pose proof Hd as [Hb -> Hts].
  destruct (collect_ok _ _ _ Hd) as (it & -> & Hf). rewrite (index_instrs_ok body ts Hts locals Hb Hl).
  cbn [mbind outcome_bind]. by rewrite Hf.
Qed.
