(* ===== verification/IfArms.v ===== *)
(** Moving code out of a block: instructions that do not branch run alike inside
    a frame and outside it, over the stack the frame had below it.  This is what
    makes the folding of [if]s with identical arms sound. *)
From S2P Require Import Prelude Leb128 Opcode WasmSem Peephole WasmSpec.

(** Instructions that leave no block by a branch. *)
Definition no_branch (t : token) : bool := negb (in_range 0x0C 0x0E (opcode t)).

(** ** Skipping inside a fragment *)

Lemma after_end_inside X : forall d n, nest (S (d + n)) X = Some 0%nat ->
  exists X', (forall tl, after_end d (X ++ tl) = Some (X' ++ tl)) /\ nest n X' = Some 0%nat /\ suffix X' X.
Proof.
  induction X as [|t X IH]; intros d n H; [done|]. cbn [nest after_end app] in *.
  assert (Hgo : forall d', nest (S (d' + n)) X = Some 0%nat -> (forall tl, after_end d (t :: X ++ tl) = after_end d' (X ++ tl)) ->
    exists X', (forall tl, after_end d (t :: X ++ tl) = Some (X' ++ tl)) /\ nest n X' = Some 0%nat /\ suffix X' (t :: X)).
  { intros d' Hn Ha. destruct (IH d' n Hn) as (X' & H1 & H2 & H3). exists X'. split_and!; [|done|by apply suffix_cons_r].
    intros tl. by rewrite Ha. }
  cbn [after_end] in Hgo.
  destruct (in_range 2 4 (opcode t)); [by apply (Hgo (S d))|].
  destruct (opcode t =? 11).
  - destruct d as [|d]; [|by apply (Hgo d)]. exists X. split_and!; [done..|]. by apply suffix_cons_r.
  - destruct (opcode t =? 5); by apply (Hgo d).
Qed.

Lemma after_then_inside X : forall d n, nest (S (d + n)) X = Some 0%nat ->
  exists b X', (forall tl, after_then d (X ++ tl) = Some (b, X' ++ tl)) /\
    nest (if b : bool then S n else n) X' = Some 0%nat /\ suffix X' X.
Proof.
  induction X as [|t X IH]; intros d n H; [done|]. cbn [nest after_then app] in *.
  assert (Hgo : forall d', nest (S (d' + n)) X = Some 0%nat -> (forall tl, after_then d (t :: X ++ tl) = after_then d' (X ++ tl)) ->
    exists b X', (forall tl, after_then d (t :: X ++ tl) = Some (b, X' ++ tl)) /\
      nest (if b : bool then S n else n) X' = Some 0%nat /\ suffix X' (t :: X)).
  { intros d' Hn Ha. destruct (IH d' n Hn) as (b & X' & H1 & H2 & H3). exists b, X'.
    split_and!; [|done|by apply suffix_cons_r]. intros tl. by rewrite Ha. }
  cbn [after_then] in Hgo.
  destruct (in_range 2 4 (opcode t)); [by apply (Hgo (S d))|].
  destruct (opcode t =? 11).
  - destruct d as [|d]; [|by apply (Hgo d)]. exists false, X. split_and!; [done..|]. by apply suffix_cons_r.
  - destruct (opcode t =? 5); [|by apply (Hgo d)]. destruct d as [|d]; [|by apply (Hgo (S d))].
    exists true, X. split_and!; [done..|]. by apply suffix_cons_r.
Qed.

Section arms.
Context {Val St : Type}.
Abbreviation value := (@value Val).
Context (prim : token -> St -> list value -> @effect Val St).
Context (arity : token -> option (nat * nat)).
Context (table_label : token -> Z -> option nat).
Context (results : nat).
Context (Hstack : wasm_stack prim).

Abbreviation step := (step prim arity table_label results).
Abbreviation run := (run prim arity table_label results).

(** ** The stacks of the two runs

    [deeper ext s fs s' fs']: the stacks [s] and [s'] and the frames [fs] and
    [fs'] opened inside the moved code agree, except that the values [ext] lie
    under those of the second run. *)
Inductive deeper (ext : list value) : list value -> list (@frame Val) -> list value -> list (@frame Val) -> Prop :=
| deeper_base s : deeper ext s [] (s ++ ext) []
| deeper_frame s f fs g gs : fr_results f = fr_results g ->
    deeper ext (fr_base f) fs (fr_base g) gs -> deeper ext s (f :: fs) s (g :: gs).

Lemma deeper_push ext r s fs s' fs' : deeper ext s fs s' fs' -> deeper ext (r ++ s) fs (r ++ s') fs'.
Proof. intros H. destruct H; [rewrite app_assoc; constructor|by constructor]. Qed.

Lemma deeper_split ext s fs s' fs' n : deeper ext s fs s' fs' -> (n <= length s)%nat ->
  top n s' = top n s /\ deeper ext (drop n s) fs (drop n s') fs'.
Proof.
  intros H Hn. destruct H; [|by split; [|constructor]]. unfold top. rewrite length_app.
  replace (n <=? length s)%nat with true by (symmetry; apply Nat.leb_le; lia).
  replace (n <=? length s + length ext)%nat with true by (symmetry; apply Nat.leb_le; lia).
  rewrite take_app_le, drop_app_le by done. split; [done|constructor].
Qed.

Lemma deeper_cons ext v s fs s' fs' : deeper ext (v :: s) fs s' fs' ->
  exists s1, s' = v :: s1 /\ deeper ext s fs s1 fs'.
Proof. intros H. inversion H; subst; eexists; (split; [done|]); by constructor. Qed.

Lemma top_Some {A} n (s r : list A) : (if (n <=? length s)%nat then Some (take n s) else None) = Some r ->
  (n <= length s)%nat /\ r = take n s.
Proof. destruct (Nat.leb_spec n (length s)); [by intros [= <-]|done]. Qed.

Lemma deeper_length ext s fs s' fs' : deeper ext s fs s' fs' -> length fs = length fs'.
Proof. induction 1; simpl; congruence. Qed.

(** Straight instructions. *)
Lemma below_plain t s stk ext : plain prim t s stk <> Stuck ->
  plain prim t s (stk ++ ext) = below ext (plain prim t s stk).
Proof using Hstack.
  unfold plain. destruct (opcode t =? 0x41).
  { by destruct (const_value t). }
  destruct (is_i32_binop (opcode t)); [|apply (ws_frame Hstack)].
  destruct stk as [|[b|] [|[a|] stk]]; simpl; try done. by destruct (i32_binop (opcode t) a b).
Qed.

Lemma deeper_plain ext t s0 stk fs stk' fs' : deeper ext stk fs stk' fs' ->
  plain prim t s0 stk <> Stuck ->
  match plain prim t s0 stk with
  | Done s1 stk1 => exists stk1', plain prim t s0 stk' = Done s1 stk1' /\ deeper ext stk1 fs stk1' fs'
  | Trap => plain prim t s0 stk' = Trap
  | _ => True
  end.
Proof using Hstack.
  intros H Hns. destruct H as [stk|stk f fs g gs Hr H].
  - rewrite below_plain by done. destruct (plain prim t s0 stk); simpl; try done. eexists. split; [done|constructor].
  - destruct (plain prim t s0 stk) as [| |s1 stk1|]; try done. eexists. split; [done|by constructor].
Qed.

Lemma no_jump t s stk l s' stk' : no_ref_branch t = true -> plain prim t s stk <> Jump l s' stk'.
Proof using Hstack.
  intros Ht. unfold plain. destruct (_ =? 0x41); [by destruct (const_value t)|].
  destruct (is_i32_binop _).
  { destruct stk as [|[b|] [|[a|] stk]]; try done. by destruct (i32_binop _ _ _). }
  intros H%(ws_jump Hstack). unfold no_ref_branch in Ht. by rewrite H in Ht.
Qed.

(** ** One step of each run *)

(** [enter] on both sides. *)
Lemma deeper_enter ext t k l is_loop body body' stk fs stk' fs' outer gs s0 (c1 c2 : @config Val St) :
  deeper ext stk fs stk' fs' -> cf_frames c1 = fs ++ outer -> cf_frames c2 = fs' ++ gs ->
  cf_state c1 = s0 -> cf_state c2 = s0 ->
  enter arity t k is_loop body c1 stk = StuckAt \/
  exists stk1 f g stk1', enter arity t k is_loop body c1 stk = Next (mkConfig body stk1 (f :: fs ++ outer) s0) /\
    enter arity t l is_loop body' c2 stk' = Next (mkConfig body' stk1' (g :: fs' ++ gs) s0) /\
    deeper ext stk1 (f :: fs) stk1' (g :: fs').
Proof using.
  intros H Hf1 Hf2 Hs1 Hs2. unfold enter. destruct (arity t) as [[n_in n_out]|]; [|by left]. simpl of_option.
  destruct (top n_in stk) as [args|] eqn:E; [|by left]. pose proof E as E'. apply top_Some in E' as [Hn ->].
  destruct (deeper_split _ _ _ _ _ _ H Hn) as [Ht Hd]. rewrite Ht, E. simpl of_option. right.
  rewrite Hf1, Hf2, Hs1, Hs2. do 4 eexists. split_and!; [done|done|]. by constructor.
Qed.

Lemma deeper_leave ext f fs fs' outer gs k k' (c1 c2 : @config Val St) :
  deeper ext (cf_stack c1) (f :: fs) (cf_stack c2) fs' -> cf_frames c1 = f :: fs ++ outer ->
  cf_frames c2 = fs' ++ gs -> cf_state c2 = cf_state c1 ->
  leave results k c1 = StuckAt \/
  exists stk1 stk1' fs1', leave results k c1 = Next (mkConfig k stk1 (fs ++ outer) (cf_state c1)) /\
    leave results k' c2 = Next (mkConfig k' stk1' (fs1' ++ gs) (cf_state c1)) /\ deeper ext stk1 fs stk1' fs1'.
Proof using.
  intros H Hf1 Hf2 Hs. inversion H as [|s0 f0 fs0 g gs' Hr Hd E1 E2 E3 E4]. clear H. subst f0 fs0.
  unfold leave. rewrite Hf1, Hf2, <- E4, <- E3, Hs. cbn [app]. rewrite <- Hr.
  destruct (exactly (fr_results f) (cf_stack c1)) as [r|]; [|by left].
  simpl of_option. right. do 3 eexists. split_and!; [done|done|]. by apply deeper_push.
Qed.

(** What the second run does when the first one steps on code moved out of a
    frame: the same, inside the moved code. *)
Definition follows (ext : list value) (X : list token) (tl : list token) (fs outer : list (@frame Val)) (s0 : St)
    (stk : list value) : Prop :=
  let c := mkConfig (X ++ tl) stk (fs ++ outer) s0 in
  step c = StuckAt \/
  ((step c = Trapped \/ exists s v, step c = Halt s v) /\
   forall stk' fs' tl' gs, deeper ext stk fs stk' fs' -> step (mkConfig (X ++ tl') stk' (fs' ++ gs) s0) = step c) \/
  exists X1 stk1 fs1 s1, step c = Next (mkConfig (X1 ++ tl) stk1 (fs1 ++ outer) s1) /\
    nest (length fs1) X1 = Some 0%nat /\ suffix X1 X /\
    forall stk' fs' tl' gs, deeper ext stk fs stk' fs' ->
    exists stk1' fs1', step (mkConfig (X ++ tl') stk' (fs' ++ gs) s0) = Next (mkConfig (X1 ++ tl') stk1' (fs1' ++ gs) s1) /\
      deeper ext stk1 fs1 stk1' fs1'.

Lemma follows_end_else ext t X tl fs outer s0 stk : nest (length fs) (t :: X) = Some 0%nat ->
  opcode t = 0x05 \/ opcode t = 0x0B -> follows ext (t :: X) tl fs outer s0 stk.
Proof using.
  intros Hn Ht. assert (Hfs : exists f fs0, fs = f :: fs0).
  { cbn [nest] in Hn. destruct fs as [|f fs]; [|by eauto]. by destruct Ht as [E|E]; rewrite E in Hn. }
  destruct Hfs as (f & fs0 & ->).
  assert (Hx : exists X1, nest (length fs0) X1 = Some 0%nat /\ suffix X1 (t :: X) /\
    forall tl stk (fs : list (@frame Val)) s0, step (mkConfig ((t :: X) ++ tl) stk fs s0)
      = leave results (X1 ++ tl) (mkConfig (t :: X ++ tl) stk fs s0)).
  { cbn [nest length] in Hn. destruct Ht as [E|E]; rewrite E in Hn; simpl in Hn.
    - destruct (after_end_inside X 0 (length fs0) Hn) as (X1 & H1 & H2 & H3). exists X1.
      split_and!; [done|by apply suffix_cons_r|]. intros tl' stk0 fs1 s1. cbn [app].
      rewrite step_else by done. by rewrite H1.
    - exists X. split_and!; [done|by apply suffix_cons_r|]. intros. cbn [app]. by rewrite step_end. }
  destruct Hx as (X1 & Hn1 & Hsuf & Hstep). unfold follows. cbv zeta. rewrite Hstep.
  destruct (leave results (X1 ++ tl) _) as [c| | |] eqn:El; [|try by left..].
  - right. right. assert (Hd : deeper [] stk (f :: fs0) stk (f :: fs0)).
    { clear. generalize (f :: fs0). intros fs. revert stk. induction fs as [|g fs IH]; intros stk.
      - rewrite <- (app_nil_r stk) at 2. constructor.
      - by constructor. }
    destruct (deeper_leave [] f fs0 (f :: fs0) outer outer (X1 ++ tl) (X1 ++ tl)
      (mkConfig (t :: X ++ tl) stk ((f :: fs0) ++ outer) s0) (mkConfig (t :: X ++ tl) stk ((f :: fs0) ++ outer) s0))
      as [Hs|(stk1 & _ & _ & Hl & _)]; [done..|congruence|].
    rewrite El in Hl. injection Hl as ->. exists X1, stk1, fs0, s0. split_and!; [done..|].
    intros stk' fs' tl' gs H. rewrite Hstep.
    destruct (deeper_leave ext f fs0 fs' outer gs (X1 ++ tl) (X1 ++ tl')
      (mkConfig (t :: X ++ tl) stk ((f :: fs0) ++ outer) s0) (mkConfig (t :: X ++ tl') stk' (fs' ++ gs) s0))
      as [Hs|(stk2 & stk2' & fs2' & Hl1 & Hl2 & Hd2)]; [done..|congruence|].
    rewrite El in Hl1. injection Hl1 as ->. by exists stk2', fs2'.
  - exfalso. unfold leave in El. simpl in El. by destruct (exactly _ _).
  - exfalso. unfold leave in El. simpl in El. by destruct (exactly _ _).
Qed.

(** A configuration at the head of the moved code. *)
Abbreviation at_ X tl stk fs s0 := (mkConfig (X ++ tl) stk fs s0).

Lemma follows_enter ext t X Y tl fs outer s0 stk stk0 b (k : list token -> list token) :
  nest (S (length fs)) Y = Some 0%nat -> suffix Y (t :: X) ->
  step (at_ (t :: X) tl stk (fs ++ outer) s0)
    = enter arity t (k tl) b (Y ++ tl) (at_ (t :: X) tl stk (fs ++ outer) s0) stk0 ->
  (forall stk' fs' tl' gs, deeper ext stk fs stk' fs' -> exists stk0', deeper ext stk0 fs stk0' fs' /\
    step (at_ (t :: X) tl' stk' (fs' ++ gs) s0)
      = enter arity t (k tl') b (Y ++ tl') (at_ (t :: X) tl' stk' (fs' ++ gs) s0) stk0') ->
  follows ext (t :: X) tl fs outer s0 stk.
Proof using.
  intros Hn Hsuf Hs Hr. unfold follows. cbv zeta. unfold enter in Hs.
  destruct (arity t) as [[n_in n_out]|] eqn:Ha; [|by left].
  destruct (top n_in stk0) as [args|] eqn:E; [|left; rewrite Hs; simpl; by rewrite E].
  simpl of_option in Hs. rewrite E in Hs. simpl of_option in Hs. right. right.
  exists Y, args. eexists (_ :: fs), s0. split_and!; [exact Hs|done|done|].
  intros stk' fs' tl' gs Hd. destruct (Hr stk' fs' tl' gs Hd) as (stk0' & Hd0 & ->).
  pose proof E as E'. apply top_Some in E' as [Hle ->].
  destruct (deeper_split _ _ _ _ _ _ Hd0 Hle) as [Ht Hdd]. unfold enter. rewrite Ha. simpl of_option.
  rewrite Ht, E. simpl of_option. eexists _, (_ :: fs'). split; [reflexivity|]. by constructor.
Qed.

Lemma follows_block ext t X tl fs outer s0 stk : nest (length fs) (t :: X) = Some 0%nat ->
  opcode t = 0x02 \/ opcode t = 0x03 -> follows ext (t :: X) tl fs outer s0 stk.
Proof using.
  intros Hn Ht. assert (HnX : nest (S (length fs)) X = Some 0%nat) by (cbn [nest] in Hn; by destruct Ht as [E|E]; rewrite E in Hn).
  assert (Hsuf : suffix X (t :: X)) by by apply suffix_cons_r.
  destruct Ht as [E|E].
  - destruct (after_end_inside X 0 (length fs) HnX) as (X1 & H1 & _ & _).
    apply (follows_enter ext t X X tl fs outer s0 stk stk false (fun tl => X1 ++ tl)); [done..| |].
    + cbn [app]. rewrite step_block by done. by rewrite H1.
    + intros stk' fs' tl' gs Hd. exists stk'. split; [done|]. cbn [app]. rewrite step_block by done. by rewrite H1.
  - apply (follows_enter ext t X X tl fs outer s0 stk stk true (fun tl => X ++ tl)); [done..| |].
    + cbn [app]. by rewrite step_loop.
    + intros stk' fs' tl' gs Hd. exists stk'. split; [done|]. cbn [app]. by rewrite step_loop.
Qed.

Lemma follows_if ext t X tl fs outer s0 stk : nest (length fs) (t :: X) = Some 0%nat ->
  opcode t = 0x04 -> follows ext (t :: X) tl fs outer s0 stk.
Proof using.
  intros Hn Ht. assert (HnX : nest (S (length fs)) X = Some 0%nat) by (cbn [nest] in Hn; by rewrite Ht in Hn).
  destruct (after_end_inside X 0 (length fs) HnX) as (X1 & H1 & Hn1 & Hs1).
  destruct (after_then_inside X 0 (length fs) HnX) as (b & X2 & H2 & Hn2 & Hs2).
  assert (Hstuck : match stk with I32 _ :: _ => False | _ => True end -> follows ext (t :: X) tl fs outer s0 stk).
  { intros H. left. cbn [app]. rewrite step_if by done. by destruct stk as [|[w|] stk]. }
  destruct stk as [|[w|v] stk]; [by apply Hstuck| |by apply Hstuck]. clear Hstuck.
  assert (Hleft : forall tl stk fs s, step (at_ (t :: X) tl (I32 w :: stk) fs s) =
    if negb (w =? 0) then enter arity t (X1 ++ tl) false (X ++ tl) (at_ (t :: X) tl (I32 w :: stk) fs s) stk
    else if b then enter arity t (X1 ++ tl) false (X2 ++ tl) (at_ (t :: X) tl (I32 w :: stk) fs s) stk
    else Next (mkConfig (X1 ++ tl) stk fs s)).
  { intros tl' stk1 fs1 s1. cbn [app]. rewrite step_if by done. cbn iota. rewrite H1, H2. simpl of_option.
    by destruct (negb (w =? 0)), b. }
  destruct (negb (w =? 0)) eqn:Ew.
  - apply (follows_enter ext t X X tl fs outer s0 (I32 w :: stk) stk false (fun tl => X1 ++ tl));
      [done|by apply suffix_cons_r|apply Hleft|].
    intros stk' fs' tl' gs Hd. destruct (deeper_cons _ _ _ _ _ _ Hd) as (stk1 & -> & Hd1).
    exists stk1. split; [done|apply Hleft].
  - destruct b.
    + apply (follows_enter ext t X X2 tl fs outer s0 (I32 w :: stk) stk false (fun tl => X1 ++ tl));
        [done|by apply suffix_cons_r|apply Hleft|].
      intros stk' fs' tl' gs Hd. destruct (deeper_cons _ _ _ _ _ _ Hd) as (stk1 & -> & Hd1).
      exists stk1. split; [done|apply Hleft].
    + right. right. exists X1, stk, fs, s0. rewrite Hleft. split_and!; [done|done|by apply suffix_cons_r|].
      intros stk' fs' tl' gs Hd. destruct (deeper_cons _ _ _ _ _ _ Hd) as (stk1 & -> & Hd1).
      exists stk1, fs'. split; [apply Hleft|done].
Qed.

(** Every instruction but branches. *)
Lemma follows_step ext t X tl fs outer s0 stk : nest (length fs) (t :: X) = Some 0%nat ->
  no_branch t = true -> no_ref_branch t = true -> follows ext (t :: X) tl fs outer s0 stk.
Proof using Hstack.
  intros Hn Hb Hr. destruct (straight t) eqn:Hst.
  - unfold follows. cbv zeta. change ((t :: X) ++ tl) with (t :: (X ++ tl)). rewrite step_straight by done.
    assert (Hns := @deeper_plain ext t s0 stk fs).
    pose proof (no_jump t s0 stk) as Hj. assert (HnX : nest (length fs) X = Some 0%nat).
    { cbn [nest] in Hn. by destruct (straight_not_block t Hst) as (E1 & E2 & E3); rewrite E1, E2, E3 in Hn. }
    destruct (plain prim t s0 stk) as [| |s1 stk1|l s1 stk1] eqn:Ep; [by left| | |by destruct (Hj l s1 stk1 Hr)].
    + right. left. split; [by left|]. intros stk' fs' tl' gs Hd. cbn [app]. rewrite step_straight by done.
      by rewrite (Hns stk' fs' Hd ltac:(done)).
    + right. right. exists X, stk1, fs, s1. split_and!; [done|done|by apply suffix_cons_r|].
      intros stk' fs' tl' gs Hd. destruct (Hns stk' fs' Hd ltac:(done)) as (stk1' & E & Hd1).
      exists stk1', fs'. split; [|done]. cbn [app]. rewrite step_straight by done. by rewrite E.
  - assert (Hop : opcode t = 0 \/ opcode t = 2 \/ opcode t = 3 \/ opcode t = 4 \/ opcode t = 5 \/ opcode t = 11 \/ opcode t = 15).
    { revert Hst Hb. unfold straight, no_branch, one_of, in_range. simpl. lia. }
    destruct Hop as [E|[E|[E|[E|[E|[E|E]]]]]].
    + assert (H0 : forall tl stk (fs : list (@frame Val)) s, step (at_ (t :: X) tl stk fs s) = Trapped)
        by (intros; unfold WasmSem.step, control; simpl; by rewrite E).
      right. left. cbv zeta. rewrite H0. split; [by left|]. intros. apply H0.
    + apply follows_block; auto.
    + apply follows_block; auto.
    + by apply follows_if.
    + apply follows_end_else; auto.
    + apply follows_end_else; auto.
    + assert (H0 : forall tl stk (fs : list (@frame Val)) s, step (at_ (t :: X) tl stk fs s)
        = of_option (top results stk) (fun r => Halt s r))
        by (intros; unfold WasmSem.step, control; simpl; by rewrite E).
      unfold follows. cbv zeta. rewrite H0. destruct (top results stk) as [r|] eqn:Er; [|by left].
      right. left. split; [right; by eexists _, _|]. intros stk' fs' tl' gs Hd. rewrite H0.
      apply top_Some in Er as Hr'. destruct Hr' as [Hle ->].
      destruct (deeper_split _ _ _ _ _ _ Hd Hle) as [Ht _]. by rewrite Ht, Er.
Qed.

(** ** Runs *)

(** A run of moved code inside a frame reaches the code behind it, and so does
    the run outside; or both end alike. *)
Lemma follows_run ext n : forall X fs stk s0 outer tl r, nest (length fs) X = Some 0%nat ->
  Forall (fun t => no_branch t = true /\ no_ref_branch t = true) X ->
  run n (at_ X tl stk (fs ++ outer) s0) = Some r -> r <> StuckAt ->
  (exists m k s1 stk1, n = (k + m)%nat /\ run m (mkConfig tl stk1 outer s1) = Some r /\
    forall stk' fs' tl' gs m' r', deeper ext stk fs stk' fs' ->
      run m' (mkConfig tl' (stk1 ++ ext) gs s1) = Some r' -> run (k + m') (at_ X tl' stk' (fs' ++ gs) s0) = Some r') \/
  (forall stk' fs' tl' gs, deeper ext stk fs stk' fs' -> run n (at_ X tl' stk' (fs' ++ gs) s0) = Some r).
Proof using Hstack.
  induction n as [|n IH]; intros X fs stk s0 outer tl r Hn Hall Hrun Hns; [done|].
  destruct X as [|t X].
  { simpl in Hn. injection Hn as Hfs. destruct fs; [|done]. left. exists (S n), 0%nat, s0, stk.
    split_and!; [done|done|]. intros stk' fs' tl' gs m' r' Hd. by inversion Hd. }
  apply Forall_cons in Hall as Hall'. destruct Hall' as [[Hb Hr] _].
  destruct (follows_step ext t X tl fs outer s0 stk Hn Hb Hr)
    as [E|[[Hend Hsame]|(X1 & stk1 & fs1 & s1 & E & Hn1 & Hsuf & Hnext)]].
  - simpl in Hrun. cbn [app] in E. rewrite E in Hrun. congruence.
  - right. intros stk' fs' tl' gs Hd. cbn [WasmSem.run] in Hrun |- *. rewrite (Hsame stk' fs' tl' gs Hd).
    by destruct Hend as [E|(s & v & E)]; rewrite E in Hrun |- *.
  - cbn [WasmSem.run] in Hrun. rewrite E in Hrun.
    assert (Hall1 : Forall (fun t => no_branch t = true /\ no_ref_branch t = true) X1).
    { destruct Hsuf as [pre Hpre]. rewrite Hpre in Hall. by apply Forall_app in Hall as [_ ?]. }
    destruct (IH X1 fs1 stk1 s1 outer tl r Hn1 Hall1 Hrun Hns) as [(m & k & s2 & stk2 & -> & Hm & Hk)|Hall2].
    + left. exists m, (S k), s2, stk2. split_and!; [done|done|]. intros stk' fs' tl' gs m' r' Hd Hm'.
      destruct (Hnext stk' fs' tl' gs Hd) as (stk1' & fs1' & E' & Hd1).
      change (S k + m')%nat with (S (k + m')). rewrite (run_step _ _ _ _ _ _ _ E'). by eapply Hk.
    + right. intros stk' fs' tl' gs Hd. destruct (Hnext stk' fs' tl' gs Hd) as (stk1' & fs1' & E' & Hd1).
      rewrite (run_step _ _ _ _ _ _ _ E'). by apply Hall2.
Qed.
End arms.
