(* ===== verification/IfFold.v ===== *)
(** Folding of [if]s with identical arms ([wilt/src/passes/if_fold.rs]). *)
From S2P Require Import Prelude Leb128 Opcode Tokens WasmSem Peephole WasmSpec Provenance EditScript WasmModule MutModule BodyPass BodyIr IfArms.

Definition OP_IF : Z := 0x04.
Definition OP_ELSE : Z := 0x05.
Definition OP_DROP : Z := 0x1A.

(** The loop of [has_if_else] over the items of the iterator. *)
Fixpoint if_else_scan (body : bytes) (items : list (Z * Z)) (saw_if : bool) : outcome bool :=
  match items with
  | [] => Ret false
  | (p, _) :: items =>
      o ← index body p;
      if o =? OP_IF then if_else_scan body items true
      else if (o =? OP_ELSE) && saw_if then Ret true
      else if_else_scan body items saw_if
  end.

Definition has_if_else (body : bytes) : outcome bool :=
  match skip_locals body with
  | None => Ret false
  | Some s => if_else_scan body (fst (iter_collect (S (length body)) (iter_new body s))) false
  end.

Fixpoint range_contains_branch_loop (ir : BodyIr) (k : nat) (count : nat) : outcome bool :=
  match count with
  | O => Ret false
  | S count =>
      if (length (instrs ir) <=? k)%nat then Ret false else
      it ← index (instrs ir) (Z.of_nat k);
      if in_range 0x0C 0x0E (ins_op it) then Ret true
      else range_contains_branch_loop ir (S k) count
  end.

(** [for k in start..end]. *)
Definition range_contains_branch (ir : BodyIr) (s e : nat) : outcome bool :=
  range_contains_branch_loop ir s (e - s).

(** The maps from the index of an opening instruction to its [end] and to the
    last [else] of an [if]. *)
Definition structure : Type := gmap nat nat * gmap nat nat.

Fixpoint match_structural_loop (all : list Instr) (ins : list Instr) (i : nat) (stack : list nat)
    (m : structure) : outcome structure :=
  match ins with
  | [] => Ret m
  | it :: ins =>
      let '(ends, elses) := m in
      if in_range 0x02 0x04 (ins_op it) then match_structural_loop all ins (S i) (i :: stack) m
      else if ins_op it =? 0x05 then
        match stack with
        | top :: _ =>
            opener ← index all (Z.of_nat top);
            match_structural_loop all ins (S i) stack
              (if ins_op opener =? 0x04 then (ends, <[top := i]> elses) else m)
        | [] => match_structural_loop all ins (S i) stack m
        end
      else if ins_op it =? 0x0B then
        match stack with
        | open :: stack => match_structural_loop all ins (S i) stack (<[open := i]> ends, elses)
        | [] => match_structural_loop all ins (S i) [] m
        end
      else match_structural_loop all ins (S i) stack m
  end.

Definition match_structural (ir : BodyIr) : outcome structure :=
  match_structural_loop (instrs ir) (instrs ir) 0 [] (∅, ∅).

(** One iteration of the collecting loop, past the [consumed_end] test: the fold
    ([from], [to], kept bytes) and the index of the [end]. *)
Definition fold_at (body : bytes) (ir : BodyIr) (m : structure) (i : nat)
  : outcome (option (Z * Z * bytes * nat)) :=
  it ← index (instrs ir) (Z.of_nat i);
  if negb (ins_op it =? OP_IF) then Ret None
  else if negb (bool_decide (get body (ins_start it + 1) = Some 0x40)) then Ret None
  else
    match fst m !! i, snd m !! i with
    | Some end_idx, Some else_idx =>
        let then_start := instr_end it in
        else_instr ← index (instrs ir) (Z.of_nat else_idx);
        let then_end := ins_start else_instr in
        let else_start := instr_end else_instr in
        end_instr ← index (instrs ir) (Z.of_nat end_idx);
        let else_end := ins_start end_instr in
        if negb (bool_decide (get_range body then_start then_end = get_range body else_start else_end))
        then Ret None
        else
          branch ← range_contains_branch ir (S i) else_idx;
          if branch : bool then Ret None
          else
            keep ← slice body then_start then_end;
            Ret (Some (ins_start it, instr_end end_instr, keep, end_idx))
    | _, _ => Ret None
    end.

Fixpoint collect_folds (count : nat) (body : bytes) (ir : BodyIr) (m : structure) (i consumed_end : nat)
  : outcome (list (Z * Z * bytes)) :=
  match count with
  | O => Ret []
  | S count =>
      if (i <? consumed_end)%nat then collect_folds count body ir m (S i) consumed_end else
      r ← fold_at body ir m i;
      match r with
      | None => collect_folds count body ir m (S i) consumed_end
      | Some (from, to_, keep, end_idx) =>
          rest ← collect_folds count body ir m (S i) (S end_idx);
          Ret ((from, to_, keep) :: rest)
      end
  end.

(** The emission loop; also copies the rest of the body. *)
Fixpoint emit_folds (body : bytes) (folds : list (Z * Z * bytes)) (cursor : Z) (out : bytes) (e : BodyEdits)
  : outcome (bytes * BodyEdits) :=
  match folds with
  | [] => rest ← slice_from body cursor; Ret (out ++ rest, e)
  | (from, to_, keep) :: folds =>
      copied ← slice body cursor from;
      let out := out ++ copied in
      let out_start := u32 (len out) in
      let out := out ++ OP_DROP :: keep in
      let out_len := u32 (u32 (len out) - out_start) in
      emit_folds body folds to_ out
        (be_push e (edit_subst (u32 from) (u32 (to_ - from)) out_start out_len) None)
  end.

Definition if_rewrite_body (body : bytes) : outcome (option (bytes * BodyEdits)) :=
  has ← has_if_else body;
  if negb has then Ret None else
  ir ←? ir_new body;
  let n := length (instrs ir) in
  if (n <? 4)%nat then Ret None else
  m ← match_structural ir;
  folds ← collect_folds n body ir m 0 0;
  match folds with
  | [] => Ret None
  | _ => r ← emit_folds body folds 0 [] be_identity; Ret (Some r)
  end.

Definition if_fold_apply_mut (m : MutModule) : outcome MutModule := run_pass if_rewrite_body m.

Example folds_identical_branches :
  if_rewrite_body [1; 1; 0x7F; 0x20; 0; 0x04; 0x40; 0x01; 0x05; 0x01; 0x0B; 0x0B]
  = Ret (Some ([1; 1; 0x7F; 0x20; 0; 0x1A; 0x01; 0x0B], mkEdits [edit_subst 5 6 5 2] [None])).
Proof. reflexivity. Qed.
Example leaves_differing_branches :
  if_rewrite_body [1; 1; 0x7F; 0x20; 0; 0x04; 0x40; 0x01; 0x05; 0x01; 0x01; 0x0B; 0x0B] = Ret None.
Proof. reflexivity. Qed.
Example bails_on_branch_in_arm :
  if_rewrite_body [1; 1; 0x7F; 0x20; 0; 0x04; 0x40; 0x0C; 0x00; 0x05; 0x0C; 0x00; 0x0B; 0x0B] = Ret None.
Proof. reflexivity. Qed.

(** ** The rewriting rule *)

Definition foldable (t : token) : Prop := no_branch t = true /\ no_ref_branch t = true.

Inductive if_rule : list token -> list token -> Prop :=
| rule_identical A l c : opcode l = OP_ELSE -> opcode c = 0x0B -> balanced A -> Forall foldable A ->
    if_rule ([OP_IF; 0x40] :: A ++ l :: A ++ [c]) ([OP_DROP] :: A).

Lemma nest_app x y : forall n m, nest n x = Some m -> nest n (x ++ y) = nest m y.
Proof.
  induction x as [|t x IH]; intros n m; cbn [nest app]; [by intros [= ->]|].
  destruct (in_range _ _ _); [apply IH|]. destruct (_ =? 0x0B); [destruct n; [done|apply IH]|].
  destruct (_ =? 0x05); [destruct n; [done|apply IH]|apply IH].
Qed.

(** A balanced fragment at any depth. *)
Lemma nest_deeper x : forall n m k, nest n x = Some m -> nest (n + k) x = Some (m + k)%nat.
Proof.
  induction x as [|t x IH]; intros n m k; cbn [nest]; [by intros [= ->]|].
  destruct (in_range _ _ _); [apply (IH (S n))|].
  destruct (_ =? 0x0B); [destruct n; [done|apply IH]|].
  destruct (_ =? 0x05); [destruct n as [|n]; [done|apply (IH (S n))]|apply IH].
Qed.

Lemma if_rule_balanced x y : if_rule x y -> balanced x /\ balanced y.
Proof.
  intros [A l c Hl Hc HA _]. unfold balanced in *. split; [|exact HA]. cbn [nest].
  change (in_range 2 4 (opcode [OP_IF; 64])) with true. cbn iota.
  rewrite (nest_app A _ 1 1) by apply (nest_deeper A 0 0 1 HA). cbn [nest]. rewrite Hl. simpl.
  rewrite (nest_app A _ 1 1) by apply (nest_deeper A 0 0 1 HA). cbn [nest]. by rewrite Hc.
Qed.

Lemma if_rule_nonempty x y : if_rule x y -> x <> [].
Proof. by intros []. Qed.

Lemma if_rule_doubles x y : if_rule x y -> doubles x y.
Proof.
  intros [A l c _ _ _ _] _. rewrite !len_join_cons, !join_app, !len_app, !len_join_cons, !len_cons, !len_nil.
  rewrite !join_app, !len_app. pose proof (len_nonneg (mjoin A)). pose proof (len_nonneg l).
  pose proof (len_nonneg (mjoin [c])). lia.
Qed.

Section semantics.
Context {Val St : Type}.
Abbreviation value := (@value Val).
Context (prim : token -> St -> list value -> @effect Val St).
Context (arity : token -> option (nat * nat)).
Context (table_label : token -> Z -> option nat).
Context (results : nat).
Context (lget : St -> Z -> option value) (lset : St -> Z -> value -> option St) (zero64 : value).
Context (Hwasm : wasm_instructions prim arity lget lset zero64) (Hstack : wasm_stack prim).

Abbreviation step := (step prim arity table_label results).
Abbreviation run := (run prim arity table_label results).

(** The two arms as the machine reaches them. *)
Lemma if_arms A l c p : opcode l = OP_ELSE -> opcode c = 0x0B -> balanced A ->
  after_end 0 (A ++ l :: A ++ c :: p) = Some p /\ after_then 0 (A ++ l :: A ++ c :: p) = Some (true, A ++ c :: p).
Proof using.
  intros Hl Hc HA. destruct (skip_balanced A 0 (l :: A ++ c :: p) HA) as [-> ->].
  cbn [after_end after_then]. rewrite Hl. simpl. split; [|done].
  rewrite (proj1 (skip_balanced A 0 (c :: p) HA)). cbn [after_end]. by rewrite Hc.
Qed.

(** Leaving an arm: the block had no result, so nothing is left of its stack. *)
Lemma leave_arm A l c p stk base tgt fs s n r : opcode l = OP_ELSE -> opcode c = 0x0B -> balanced A ->
  forall arm : bool,
  run n (mkConfig (if arm then l :: A ++ c :: p else c :: p) stk (mkFrame tgt false 0 0 base :: fs) s) = Some r ->
  r <> StuckAt -> exists m, n = S m /\ stk = [] /\ run m (mkConfig p base fs s) = Some r.
Proof using.
  intros Hl Hc HA arm Hr Hns. destruct n as [|n]; [done|].
  assert (Hs : step (mkConfig (if arm then l :: A ++ c :: p else c :: p) stk (mkFrame tgt false 0 0 base :: fs) s)
    = of_option (exactly 0 stk) (fun r => Next (mkConfig p (r ++ base) fs s))).
  { destruct arm.
    - rewrite step_else by done. rewrite (proj1 (skip_balanced A 0 (c :: p) HA)). cbn [after_end]. rewrite Hc. done.
    - by rewrite step_end. }
  cbn [WasmSem.run] in Hr. rewrite Hs in Hr. destruct stk as [|v stk]; [|simpl in Hr; congruence].
  by exists n.
Qed.

(** One arm run in the frame of the [if], and moved out of it. *)
Lemma arm_refines A l c p (arm : bool) base fs s n r : opcode l = OP_ELSE -> opcode c = 0x0B -> balanced A ->
  Forall foldable A ->
  run n (mkConfig (A ++ (if arm then l :: A ++ c :: p else c :: p)) [] (mkFrame p false 0 0 base :: fs) s) = Some r ->
  r <> StuckAt ->
  (exists m k s1, n = (S k + m)%nat /\ run m (mkConfig p base fs s1) = Some r /\ forall q gs m' r',
    run m' (mkConfig q base gs s1) = Some r' -> run (k + m') (mkConfig (A ++ q) base gs s) = Some r') \/
  (forall q gs, run n (mkConfig (A ++ q) base gs s) = Some r).
Proof using Hstack.
  intros Hl Hc HA Hall Hr Hns.
  destruct (follows_run prim arity table_label results Hstack base n A [] [] s (mkFrame p false 0 0 base :: fs)
    (if arm then l :: A ++ c :: p else c :: p) r HA Hall Hr Hns)
    as [(m & k & s1 & stk1 & -> & Hm & Hk)|Hend].
  - destruct (leave_arm A l c p stk1 base p fs s1 m r Hl Hc HA arm Hm Hns) as (m1 & -> & -> & Hm1).
    left. exists m1, k, s1. split_and!; [lia|done|]. intros q gs m' r' Hm'.
    by apply (Hk base [] q gs m' r' (deeper_base base [])).
  - right. intros q gs. by apply (Hend base [] q gs (deeper_base base [])).
Qed.

Lemma if_rule_refines x y : if_rule x y -> refines_fragment prim arity table_label results x y.
Proof using Hwasm Hstack.
  intros [A l c Hl Hc HA Hall] n p stk fs s r Hr Hns.
  assert (Hx : forall p, ([OP_IF; 0x40] :: A ++ l :: A ++ [c]) ++ p = [OP_IF; 0x40] :: A ++ l :: A ++ c :: p).
  { intros p'. cbn [app]. rewrite <- !app_assoc. cbn [app]. by rewrite <- app_assoc. }
  rewrite Hx in Hr. destruct (if_arms A l c p Hl Hc HA) as [E1 E2].
  pose proof (step_if prim arity table_label results [OP_IF; 0x40] (A ++ l :: A ++ c :: p) stk fs s eq_refl) as Hs.
  destruct stk as [|[w|v] stk]; [by destruct n; simpl in Hr; congruence| |by destruct n; simpl in Hr; congruence].
  rewrite E1, E2 in Hs. simpl of_option in Hs.
  assert (Hs' : step (mkConfig ([OP_IF; 0x40] :: A ++ l :: A ++ c :: p) (I32 w :: stk) fs s)
    = Next (mkConfig (A ++ (if negb (w =? 0) then l :: A ++ c :: p else c :: p)) []
        (mkFrame p false 0 0 stk :: fs) s)).
  { rewrite Hs. pose proof (wi_void Hwasm OP_IF) as Ha. unfold enter. rewrite Ha. by destruct (negb (w =? 0)). }
  destruct (one_step _ _ _ _ _ _ _ _ Hs' Hr) as (n1 & -> & Hr1).
  assert (Hdrop : forall q gs, step (mkConfig (([OP_DROP] :: A) ++ q) (I32 w :: stk) gs s)
    = Next (mkConfig (A ++ q) stk gs s)).
  { intros q gs. cbn [app]. rewrite step_straight by done. unfold plain. simpl.
    by rewrite (wi_drop Hwasm). }
  destruct (arm_refines A l c p _ stk fs s n1 r Hl Hc HA Hall Hr1 Hns) as [(m & k & s1 & -> & Hm & Hk)|Hend].
  - left. exists m, (2 + k)%nat, s1, stk. split_and!; [lia|lia|done|]. intros q gs.
    exists (1 + k)%nat. split; [lia|]. intros m' r' Hm'. change (1 + k + m')%nat with (S (k + m')).
    rewrite (run_step _ _ _ _ _ _ _ (Hdrop q gs)). by apply Hk.
  - right. intros q gs. exists (1 + n1)%nat. split; [done|].
    change (1 + n1)%nat with (S n1). rewrite (run_step _ _ _ _ _ _ _ (Hdrop q gs)). apply Hend.
Qed.
End semantics.
