(* ===== verification/IfFoldSpec.v ===== *)
(** What the folding of [if]s computes: the structural maps of
    [match_structural], the folds collected and the body emitted; the pass meets
    the contract of [BodyPass]. *)
From S2P Require Import Prelude Leb128 Opcode Tokens WasmSem Peephole WasmSpec Provenance EditScript WasmModule MutModule BodyPass BodyIr IfArms IfFold.

(** ** The structural maps *)

(** How many instructions before the one that closes the [d]-th open block. *)
Fixpoint close_at (d : nat) (ts : list token) : option nat :=
  match ts with
  | [] => None
  | t :: ts =>
      if in_range 0x02 0x04 (opcode t) then S <$> close_at (S d) ts
      else if opcode t =? 0x0B then match d with O => Some 0%nat | S d => S <$> close_at d ts end
      else S <$> close_at d ts
  end.

(** ... and before its last [else]. *)
Fixpoint last_else (d : nat) (ts : list token) : option nat :=
  match ts with
  | [] => None
  | t :: ts =>
      if in_range 0x02 0x04 (opcode t) then S <$> last_else (S d) ts
      else if opcode t =? 0x05 then
        match d with
        | O => Some (match last_else 0 ts with Some n => S n | None => 0%nat end)
        | S _ => S <$> last_else d ts
        end
      else if opcode t =? 0x0B then match d with O => None | S d => S <$> last_else d ts end
      else S <$> last_else d ts
  end.

Lemma skip_one (o : option nat) i x :
  match S <$> o with Some k => Some (i + k)%nat | None => x end
  = match o with Some k => Some (S i + k)%nat | None => x end.
Proof. destruct o as [k|]; [|done]. simpl. by rewrite Nat.add_succ_r. Qed.

Section matching.
Context (all : list Instr) (opener : nat -> Z).
Context (Hall : forall j it, all !! j = Some it -> ins_op it = opener j).

(** The loop at index [i]: what is on the stack and in the maps is below [i]. *)
Record scan_ok (i : nat) (stack : list nat) (m : structure) : Prop := {
  so_bound : (i <= length all)%nat;
  so_stack : Forall (fun j => (j < i)%nat) stack;
  so_nodup : NoDup stack;
  so_new : forall j, (i <= j)%nat -> fst m !! j = None /\ snd m !! j = None;
}.

Lemma scan_ok_push i stack m : scan_ok i stack m -> (i < length all)%nat -> scan_ok (S i) (i :: stack) m.
Proof using.
  intros [H1 H2 H3 H4] Hi. constructor; [lia| | |].
  - constructor; [lia|]. eapply Forall_impl; [exact H2|]. simpl. lia.
  - constructor; [|done]. intros Hin. rewrite Forall_forall in H2. specialize (H2 i Hin). lia.
  - intros j Hj. apply H4. lia.
Qed.

Lemma scan_ok_skip i stack stack' m ends elses : scan_ok i stack m -> (i < length all)%nat -> sublist stack' stack ->
  (forall j, (i < j)%nat -> ends !! j = fst m !! j /\ elses !! j = snd m !! j) -> scan_ok (S i) stack' (ends, elses).
Proof using.
  intros [H1 H2 H3 H4] Hi Hs Hm. constructor; [lia| | |].
  - apply Forall_forall. intros j Hj. rewrite Forall_forall in H2. assert (j < i)%nat; [|lia]. apply H2.
    by eapply elem_of_submseteq, sublist_submseteq.
  - by eapply sublist_NoDup.
  - intros j Hj. destruct (Hm j ltac:(lia)) as [E1 E2]. simpl. rewrite E1, E2. apply H4. lia.
Qed.

(** What the loop does to the entries of an index [j] before it: a block on the
    stack at depth [d] gets its [end] and, if it is an [if], its last [else]. *)
Definition entries_after (i : nat) (ts : list token) (stack : list nat) (m m' : structure) (j : nat) : Prop :=
  (forall d, stack !! d = Some j ->
     fst m' !! j = match close_at d ts with Some k => Some (i + k)%nat | None => fst m !! j end /\
     snd m' !! j = if opener j =? 0x04
                   then match last_else d ts with Some k => Some (i + k)%nat | None => snd m !! j end
                   else snd m !! j) /\
  (j ∉ stack -> fst m' !! j = fst m !! j /\ snd m' !! j = snd m !! j).

Lemma match_loop_spec ts : forall P i stack m, scan_ok i stack m -> (i + length ts = length all)%nat ->
  exists m', match_structural_loop all (instrs_at P ts) i stack m = Ret m' /\
    forall j, (j < i)%nat -> entries_after i ts stack m m' j.
Proof using Hall.
  induction ts as [|t ts IH]; intros P i stack m Hok Hlen; cbn [instrs_at match_structural_loop].
  { exists m. split; [done|]. intros j Hj. split; [|done]. intros d _. cbn [close_at last_else].
    by destruct (_ =? _). }
  simpl length in Hlen. destruct m as [ends elses]. cbn [ins_op].
  unfold entries_after in *. cbn [close_at last_else].
  destruct (in_range 2 4 (opcode t)) eqn:E1; [|destruct (Z.eqb_spec (opcode t) 5) as [E2|E2]; [|destruct (Z.eqb_spec (opcode t) 11) as [E3|E3]]].
  - destruct (IH (P + len t) (S i) (i :: stack) (ends, elses)) as (m' & -> & Hm'); [by apply scan_ok_push; [|lia]|lia|].
    exists m'. split; [done|]. intros j Hj. destruct (Hm' j ltac:(lia)) as [Hin Hout]. split.
    + intros d Hd. destruct (Hin (S d) Hd) as [-> ->]. by rewrite !skip_one.
    + intros Hj'. apply Hout. intros [->|?]%elem_of_cons; [lia|done].
  - replace (opcode t =? 11) with false by lia.
    destruct stack as [|top stack].
    + destruct (IH (P + len t) (S i) [] (ends, elses)) as (m' & -> & Hm');
        [by eapply scan_ok_skip; [done|lia|done|]|lia|].
      exists m'. split; [done|]. intros j Hj. destruct (Hm' j ltac:(lia)) as [_ Hout]. split; [done|]. intros Hj'. by apply Hout.
    + pose proof (so_stack _ _ _ Hok) as Hst. apply Forall_cons in Hst as [Htop _].
      pose proof (so_nodup _ _ _ Hok) as Hnd. apply NoDup_cons in Hnd as [Hnd _].
      destruct (lookup_lt_is_Some_2 all top) as [it Hit]; [lia|].
      rewrite (index_lookup _ _ _ Hit). cbn [mbind outcome_bind]. rewrite (Hall _ _ Hit).
      set (m1 := if opener top =? 4 then (ends, <[top:=i]> elses) else (ends, elses)).
      assert (Hm1 : forall j, fst m1 !! j = ends !! j /\ (j <> top -> snd m1 !! j = elses !! j)).
      { intros j. unfold m1. destruct (opener top =? 4); simpl; [|done]. split; [done|]. intros Hne.
        by rewrite lookup_insert_ne. }
      destruct (IH (P + len t) (S i) (top :: stack) m1) as (m' & Hrun & Hm').
      { destruct m1 as [e1 e2]. eapply scan_ok_skip; [done|lia|done|]. intros j Hj.
        destruct (Hm1 j) as [H1 H2]. simpl in *. split; [done|apply H2; lia]. }
      { lia. }
      exists m'. split; [exact Hrun|]. intros j Hj. destruct (Hm' j ltac:(lia)) as [Hin Hout]. destruct (Hm1 j) as [G1 G2]. split.
      * intros d Hd. destruct (Hin d Hd) as [-> ->]. rewrite G1. split; [by rewrite skip_one|].
        destruct d as [|d].
        -- injection Hd as ->. unfold m1. destruct (opener j =? 4); [|done]. simpl.
           destruct (last_else 0 ts); simpl; [by rewrite Nat.add_succ_r|]. by rewrite lookup_insert_eq, Nat.add_0_r.
        -- assert (j <> top) by (intros ->; apply Hnd; by eapply list_elem_of_lookup_2).
           rewrite G2 by done. by rewrite skip_one.
      * intros Hj'. destruct (Hout Hj') as [-> ->]. split; [done|]. apply G2. intros ->. apply Hj'. by left.
  - destruct stack as [|open stack].
    + destruct (IH (P + len t) (S i) [] (ends, elses)) as (m' & -> & Hm');
        [by eapply scan_ok_skip; [done|lia|done|]|lia|].
      exists m'. split; [done|]. intros j Hj. destruct (Hm' j ltac:(lia)) as [_ Hout]. split; [done|]. intros Hj'. by apply Hout.
    + pose proof (so_nodup _ _ _ Hok) as Hnd. apply NoDup_cons in Hnd as [Hnd _].
      pose proof (so_stack _ _ _ Hok) as Hst. apply Forall_cons in Hst as [Hopen _].
      destruct (IH (P + len t) (S i) stack (<[open:=i]> ends, elses)) as (m' & -> & Hm').
      { eapply scan_ok_skip; [done|lia|by apply sublist_cons|]. intros j Hj. simpl. rewrite lookup_insert_ne by lia. done. }
      { lia. }
      exists m'. split; [done|]. intros j Hj. destruct (Hm' j ltac:(lia)) as [Hin Hout]. simpl fst in *. simpl snd in *. split.
      * intros [|d] Hd; simpl in Hd.
        -- injection Hd as ->. destruct (Hout Hnd) as [-> ->]. rewrite lookup_insert_eq, Nat.add_0_r.
           split; [done|]. by destruct (_ =? _).
        -- assert (j <> open) by (intros ->; apply Hnd; by eapply list_elem_of_lookup_2).
           destruct (Hin d Hd) as [-> ->]. rewrite lookup_insert_ne by done.
           by rewrite !skip_one.
      * intros Hj'. assert (j <> open) by (intros ->; apply Hj'; by left).
        destruct (Hout ltac:(intros ?; apply Hj'; by right)) as [-> ->]. by rewrite lookup_insert_ne.
  - destruct (IH (P + len t) (S i) stack (ends, elses)) as (m' & -> & Hm');
      [by eapply scan_ok_skip; [done|lia|done|]|lia|].
    exists m'. split; [done|]. intros j Hj. destruct (Hm' j ltac:(lia)) as [Hin Hout]. split; [|done].
    intros d Hd. destruct (Hin d Hd) as [-> ->]. by rewrite !skip_one.
Qed.

(** The loop from the start, at an opening instruction. *)
Lemma match_loop_at a : forall P i stack m t b, scan_ok i stack m -> (i + length (a ++ t :: b) = length all)%nat ->
  in_range 2 4 (opcode t) = true -> opener (i + length a) = opcode t ->
  exists m', match_structural_loop all (instrs_at P (a ++ t :: b)) i stack m = Ret m' /\
    let j := (i + length a)%nat in
    fst m' !! j = (fun k => (S j + k)%nat) <$> close_at 0 b /\
    snd m' !! j = if opcode t =? 0x04 then (fun k => (S j + k)%nat) <$> last_else 0 b else None.
Proof using Hall.
  induction a as [|u a IH]; intros P i stack m t b Hok Hlen Ht Hop.
  - cbn [app instrs_at match_structural_loop length]. destruct m as [ends elses]. cbn [ins_op]. rewrite Ht.
    simpl length in Hlen, Hop. rewrite Nat.add_0_r in *.
    destruct (match_loop_spec b (P + len t) (S i) (i :: stack) (ends, elses)) as (m' & -> & Hm');
      [by apply scan_ok_push; [|lia]|lia|].
    exists m'. split; [done|]. destruct (Hm' i ltac:(lia)) as [Hin _]. destruct (Hin 0%nat eq_refl) as [-> ->].
    destruct (so_new _ _ _ Hok i ltac:(lia)) as [-> ->]. rewrite Hop.
    destruct (close_at 0 b), (last_else 0 b); simpl; done.
  - cbn [app instrs_at match_structural_loop length] in *. destruct m as [ends elses]. cbn [ins_op].
    assert (Hj : (i + S (length a) = S i + length a)%nat) by lia. rewrite Hj in *. cbv zeta.
    destruct (in_range 2 4 (opcode u)) eqn:E1; [|destruct (opcode u =? 5); [|destruct (opcode u =? 11)]].
    + apply IH; [by apply scan_ok_push; [|lia]|lia|done..].
    + destruct stack as [|top stack].
      { apply IH; [by eapply scan_ok_skip; [done|lia|done|]|lia|done..]. }
      pose proof (so_stack _ _ _ Hok) as Hst. apply Forall_cons in Hst as [Htop _].
      destruct (lookup_lt_is_Some_2 all top) as [it Hit]; [lia|].
      rewrite (index_lookup _ _ _ Hit). cbn [mbind outcome_bind].
      destruct (ins_op it =? 4); (apply IH; [|lia|done..]); (eapply scan_ok_skip; [done|lia|done|]); intros j Hj'; simpl;
        [|done]. split; [done|]. rewrite lookup_insert_ne by lia. done.
    + destruct stack as [|open stack].
      { apply IH; [by eapply scan_ok_skip; [done|lia|done|]|lia|done..]. }
      pose proof (so_stack _ _ _ Hok) as Hst. apply Forall_cons in Hst as [Htop _].
      apply IH; [|lia|done..]. eapply scan_ok_skip; [done|lia|by apply sublist_cons|].
      intros j Hj'. simpl. rewrite lookup_insert_ne by lia. done.
    + apply IH; [by eapply scan_ok_skip; [done|lia|done|]|lia|done..].
Qed.
End matching.

(** ** The arms found *)

(** The code before the closing [end] closes what it opens. *)
Lemma close_at_split ts : forall d k, close_at d ts = Some k -> exists X c rest,
  ts = X ++ c :: rest /\ length X = k /\ opcode c = 0x0B /\ (last_else d ts = None -> nest d X = Some 0%nat).
Proof.
  induction ts as [|t ts IH]; intros d k; [done|]. cbn [close_at last_else].
  assert (Hgo : forall d', close_at d' ts = pred <$> Some k -> (0 < k)%nat ->
    (forall X, last_else d (t :: ts) = None -> last_else d' ts = None /\ nest d (t :: X) = nest d' X) ->
    exists X c rest, t :: ts = X ++ c :: rest /\ length X = k /\ opcode c = 0x0B /\
      (last_else d (t :: ts) = None -> nest d X = Some 0%nat)).
  { intros d' Hk Hpos Hl. destruct (IH d' _ Hk) as (X & c & rest & -> & HX & Hc & Hn).
    exists (t :: X), c, rest. split_and!; [done|simpl; lia|done|]. intros H. destruct (Hl X H) as [H1 ->]. auto. }
  cbn [last_else nest] in Hgo.
  destruct (in_range 2 4 (opcode t)); [|destruct (Z.eqb_spec (opcode t) 11) as [E|E]].
  - intros (k' & Hk & ->)%fmap_Some. apply (Hgo (S d)); [done|lia|]. by intros X H%fmap_None.
  - rewrite E in *. change (11 =? 5) with false in *. cbn iota in *. destruct d as [|d].
    + intros [= <-]. by exists [], t, ts.
    + intros (k' & Hk & ->)%fmap_Some. apply (Hgo d); [done|lia|]. by intros X H%fmap_None.
  - intros (k' & Hk & ->)%fmap_Some. apply (Hgo d); [done|lia|]. intros X.
    destruct (opcode t =? 5); [destruct d; [done|]|]; by intros H%fmap_None.
Qed.

Lemma last_else_split ts : forall d e k, last_else d ts = Some e -> close_at d ts = Some k ->
  exists A l rest, ts = A ++ l :: rest /\ length A = e /\ opcode l = 0x05 /\
    close_at 0 rest = Some (k - e - 1)%nat /\ last_else 0 rest = None /\ (e < k)%nat.
Proof.
  induction ts as [|t ts IH]; intros d e k; [done|]. cbn [close_at last_else].
  assert (Hgo : forall d' e' k', last_else d' ts = Some e' -> close_at d' ts = Some k' -> e = S e' -> k = S k' ->
    exists A l rest, t :: ts = A ++ l :: rest /\ length A = e /\ opcode l = 0x05 /\
    close_at 0 rest = Some (k - e - 1)%nat /\ last_else 0 rest = None /\ (e < k)%nat).
  { intros d' e' k' He Hk -> ->. destruct (IH d' e' k' He Hk) as (A & l & rest & -> & HA & Hl & Hc & Hn & Hlt).
    exists (t :: A), l, rest. split_and!; [done|simpl; lia|done|by rewrite Hc|done|lia]. }
  destruct (in_range 2 4 (opcode t)).
  { intros (e' & He & ->)%fmap_Some (k' & Hk & ->)%fmap_Some. by apply (Hgo (S d) e' k'). }
  destruct (Z.eqb_spec (opcode t) 5) as [E|E].
  - rewrite E. change (5 =? 11) with false. cbn iota. intros He (k' & Hk & ->)%fmap_Some.
    destruct d as [|d]; [|apply fmap_Some in He as (e' & He & ->); by apply (Hgo (S d) e' k')].
    destruct (last_else 0 ts) as [e'|] eqn:Hl; injection He as <-; [by apply (Hgo 0%nat e' k')|].
    exists [], t, ts. split_and!; [done..|rewrite Hk; f_equal; lia|done|lia].
  - destruct (opcode t =? 11).
    + destruct d as [|d]; [done|]. intros (e' & He & ->)%fmap_Some (k' & Hk & ->)%fmap_Some. by apply (Hgo d e' k').
    + intros (e' & He & ->)%fmap_Some (k' & Hk & ->)%fmap_Some. by apply (Hgo d e' k').
Qed.

(** Self-delimiting instructions: equal bytes are equal code. *)
Lemma join_inj ts : Forall complete ts -> forall us, Forall complete us -> mjoin ts = mjoin us -> ts = us.
Proof.
  induction 1 as [|t ts Ht _ IH]; intros us Hus E; destruct Hus as [|u us Hu Hus]; [done|..].
  - apply (f_equal len) in E. rewrite len_join_cons, len_join_nil in E. pose proof (complete_pos _ Hu).
    pose proof (len_nonneg (mjoin us)). lia.
  - apply (f_equal len) in E. rewrite len_join_cons, len_join_nil in E. pose proof (complete_pos _ Ht).
    pose proof (len_nonneg (mjoin ts)). lia.
  - change (t ++ mjoin ts = u ++ mjoin us) in E. pose proof (complete_ext t (mjoin ts) Ht) as H1.
    rewrite E, (complete_ext u (mjoin us) Hu) in H1. injection H1 as H1.
    apply app_inj_1 in E as [-> E]; [|unfold len in H1; lia]. by rewrite (IH us Hus E).
Qed.

(** ** The folds collected *)

Lemma instrs_at_op ts : forall p j it, instrs_at p ts !! j = Some it ->
  ins_op it = default 0 (opcode <$> ts !! j).
Proof.
  induction ts as [|t ts IH]; intros p [|j] it; cbn [instrs_at lookup list_lookup]; [done..| |].
  - by intros [= <-].
  - intros H. by rewrite (IH _ _ _ H).
Qed.

Lemma match_structural_spec body p ts : exists m,
  match_structural (mkBodyIr body (instrs_at p ts) p) = Ret m /\
  forall a t b, ts = a ++ t :: b -> in_range 2 4 (opcode t) = true ->
    fst m !! length a = (fun k => S (length a + k)) <$> close_at 0 b /\
    snd m !! length a = if opcode t =? 0x04 then (fun k => S (length a + k)) <$> last_else 0 b else None.
Proof.
  set (opener := fun j => default 0 (opcode <$> ts !! j)).
  assert (Hop : forall j it, instrs_at p ts !! j = Some it -> ins_op it = opener j) by apply instrs_at_op.
  assert (Hok : scan_ok (instrs_at p ts) 0 [] (∅, ∅)).
  { constructor; [lia|constructor|constructor|]. intros j _. cbn [fst snd]. by rewrite !lookup_empty. }
  unfold match_structural. cbn [instrs].
  destruct (match_loop_spec _ opener Hop ts p 0 [] (∅, ∅) Hok) as (m & Hm & _); [by rewrite instrs_at_length|].
  exists m. split; [done|]. intros a t b E Ht.
  destruct (match_loop_at _ opener Hop a p 0 [] (∅, ∅) t b Hok) as (m' & Hm' & Hj).
  - by rewrite instrs_at_length, <- E.
  - done.
  - unfold opener. by rewrite E, Nat.add_0_l, list_lookup_middle.
  - rewrite <- E, Hm in Hm'. injection Hm' as <-. exact Hj.
Qed.

Lemma range_branch_spec body p X : forall a b,
  range_contains_branch_loop (mkBodyIr body (instrs_at p (a ++ X ++ b)) p) (length a) (length X)
  = Ret (negb (forallb no_branch X)).
Proof.
  induction X as [|t X IH]; intros a b; [done|]. cbn [length range_contains_branch_loop instrs app].
  rewrite instrs_at_length, length_app. replace (_ <=? _)%nat with false by (symmetry; apply Nat.leb_gt; simpl; lia).
  rewrite (index_lookup _ _ _ (instrs_at_middle p a t (X ++ b))). cbn [mbind outcome_bind ins_op forallb].
  unfold no_branch at 1. destruct (in_range _ _ _); [done|]. cbn [negb andb].
  specialize (IH (a ++ [t]) b). rewrite <- app_assoc, length_app, Nat.add_1_r in IH. exact IH.
Qed.

(** The code of a fold. *)
Definition if_else_code (A : list token) (l c : token) : list token := [OP_IF; 0x40] :: A ++ l :: A ++ [c].

Definition fold_ok (A : list token) (l c : token) : Prop :=
  opcode l = OP_ELSE /\ opcode c = 0x0B /\ balanced A /\ forallb no_branch A = true.

Section collecting.
Context (body locals : bytes) (ts : list token) (m : structure).
Context (Hdec : decodes body locals ts) (Hlen : len body < 2 ^ 32).
Abbreviation ir := (mkBodyIr body (instrs_at (len locals) ts) (len locals)).
Context (Hm : forall a t b, ts = a ++ t :: b -> in_range 2 4 (opcode t) = true ->
    fst m !! length a = (fun k => S (length a + k)) <$> close_at 0 b /\
    snd m !! length a = if opcode t =? 0x04 then (fun k => S (length a + k)) <$> last_else 0 b else None).

Lemma complete_at a t b : ts = a ++ t :: b -> complete t /\ Forall complete a /\ Forall complete b.
Proof using Hdec.
  intros E. pose proof (dec_complete _ _ _ Hdec) as H. rewrite E in H.
  apply Forall_app in H as [Ha H]. by apply Forall_cons in H as [Ht Hb].
Qed.

Lemma index_instr a t b : ts = a ++ t :: b ->
  index (instrs ir) (Z.of_nat (length a)) = Ret (mkInstr (opcode t) (len (locals ++ mjoin a)) (len t)).
Proof using.
  intros E. apply index_lookup. cbn [instrs]. by rewrite E, len_app, instrs_at_middle.
Qed.

Lemma body_at a b : ts = a ++ b -> body = (locals ++ mjoin a) ++ mjoin b.
Proof using Hdec. intros E. by rewrite (dec_bytes _ _ _ Hdec), E, join_app, app_assoc. Qed.

Lemma instr_end_at a t b : ts = a ++ t :: b ->
  instr_end (mkInstr (opcode t) (len (locals ++ mjoin a)) (len t)) = len (locals ++ mjoin (a ++ [t])).
Proof using Hdec Hlen.
  intros E. assert (Hsum : len (locals ++ mjoin (a ++ [t])) = len (locals ++ mjoin a) + len t).
  { rewrite join_app, !len_app, len_join_cons, len_join_nil. lia. }
  rewrite Hsum. unfold instr_end. cbn [ins_start ins_len]. apply u32_small.
  rewrite (body_at a _ E), len_app, len_join_cons in Hlen.
  pose proof (len_nonneg (locals ++ mjoin a)). pose proof (len_nonneg t). pose proof (len_nonneg (mjoin b)). lia.
Qed.

(** An [if] whose block type is the empty one. *)
Lemma empty_if a t b : ts = a ++ t :: b -> opcode t = OP_IF ->
  get body (len (locals ++ mjoin a) + 1) = Some 0x40 -> t = [OP_IF; 0x40].
Proof using Hdec.
  intros E Hop Hg. destruct (complete_at _ _ _ E) as (Ht & _). rewrite (body_at a _ E) in Hg.
  destruct t as [|op imm]; [done|].
  change (op = OP_IF) in Hop. subst op. apply complete_cons in Ht.
  destruct imm as [|b0 imm]; [done|].
  change (mjoin ((OP_IF :: b0 :: imm) :: b)) with (OP_IF :: b0 :: (imm ++ mjoin b)) in Hg.
  replace ((locals ++ mjoin a) ++ OP_IF :: b0 :: imm ++ mjoin b)
    with (((locals ++ mjoin a) ++ [OP_IF]) ++ b0 :: imm ++ mjoin b) in Hg by by rewrite <- app_assoc.
  rewrite get_app_cons in Hg by (by rewrite (len_app _ [OP_IF])). injection Hg as ->.
  change (imm_len OP_IF (64 :: imm)) with (Some 1) in Ht. rewrite len_cons in Ht. injection Ht as Ht.
  by rewrite (len_0_inv imm) by lia.
Qed.

Lemma range_of a X b : ts = a ++ X ++ b ->
  get_range body (len (locals ++ mjoin a)) (len (locals ++ mjoin a) + len (mjoin X)) = Some (mjoin X).
Proof using Hdec.
  intros E. rewrite (body_at a _ E), join_app. pose proof (slice_app (locals ++ mjoin a) (mjoin X) (mjoin b)) as H.
  unfold slice in H. destruct (get_range _ _ _); [by injection H as ->|done].
Qed.

Lemma fold_at_other a t b : ts = a ++ t :: b -> opcode t <> OP_IF -> fold_at body ir m (length a) = Ret None.
Proof using.
  intros E Ht. unfold fold_at. rewrite (index_instr a t b E). cbn [mbind outcome_bind ins_op].
  by destruct (Z.eqb_spec (opcode t) OP_IF).
Qed.

(** The ranges of an [if] with an [else]. *)
Lemma fold_at_arms a A l B c rest : ts = a ++ [OP_IF; 0x40] :: (A ++ l :: B ++ c :: rest) ->
  fst m !! length a = Some (S (length a + (length A + S (length B))))%nat ->
  snd m !! length a = Some (S (length a + length A)) ->
  fold_at body ir m (length a)
  = Ret (if bool_decide (mjoin A = mjoin B) && forallb no_branch A
         then Some (len (locals ++ mjoin a),
                    len (locals ++ mjoin a) + len (mjoin ([OP_IF; 0x40] :: A ++ l :: B ++ [c])),
                    mjoin A, S (length a + (length A + S (length B))))
         else None).
Proof using Hdec Hlen.
  intros E H1 H2. unfold fold_at. rewrite (index_instr a _ _ E). cbn [mbind outcome_bind ins_op].
  change (opcode [OP_IF; 64] =? OP_IF) with true. cbn [negb ins_start].
  set (i := [OP_IF; 64]) in *.
  assert (Ei : ts = (a ++ [i]) ++ A ++ (l :: B ++ c :: rest)) by by rewrite E, <- app_assoc.
  assert (El : ts = (a ++ i :: A) ++ l :: (B ++ c :: rest)) by by rewrite E, <- app_assoc.
  assert (EB : ts = (a ++ i :: A ++ [l]) ++ B ++ (c :: rest)).
  { rewrite E, <- app_assoc. f_equal. cbn [app]. by rewrite <- app_assoc. }
  assert (Ec : ts = (a ++ i :: A ++ l :: B) ++ c :: rest).
  { rewrite E, <- app_assoc. f_equal. cbn [app]. by rewrite <- app_assoc. }
  assert (Hg : get body (len (locals ++ mjoin a) + 1) = Some 0x40).
  { rewrite (body_at a _ E). change (mjoin (i :: A ++ l :: B ++ c :: rest)) with ([OP_IF] ++ 0x40 :: mjoin (A ++ l :: B ++ c :: rest)).
    rewrite app_assoc. apply get_app_cons. by rewrite (len_app _ [OP_IF]). }
  rewrite bool_decide_eq_true_2 by done. cbn [negb]. rewrite H1, H2.
  replace (S (length a + length A)) with (length (a ++ i :: A)) by (rewrite length_app; simpl; lia).
  replace (S (length a + (length A + S (length B)))) with (length (a ++ i :: A ++ l :: B))
    by (rewrite !length_app; simpl; rewrite length_app; simpl; lia).
  rewrite (index_instr _ _ _ El), (index_instr _ _ _ Ec). cbn [mbind outcome_bind ins_start].
  assert (P2 : len (locals ++ mjoin (a ++ i :: A)) = len (locals ++ mjoin (a ++ [i])) + len (mjoin A)).
  { rewrite !join_app, !len_app, !len_join_cons, len_join_nil. lia. }
  assert (P3 : (a ++ i :: A) ++ [l] = a ++ i :: A ++ [l]) by by rewrite <- app_assoc.
  assert (P4 : len (locals ++ mjoin (a ++ i :: A ++ l :: B)) = len (locals ++ mjoin (a ++ i :: A ++ [l])) + len (mjoin B)).
  { rewrite !join_app, !len_app, !len_join_cons, !join_app, !len_app, !len_join_cons, len_join_nil. lia. }
  rewrite (instr_end_at _ _ _ E), (instr_end_at _ _ _ El), (instr_end_at _ _ _ Ec), P3, P4, P2,
    (range_of _ _ _ Ei), (range_of _ _ _ EB).
  destruct (decide (mjoin A = mjoin B)) as [EAB|EAB].
  2:{ rewrite !bool_decide_eq_false_2 by congruence. done. }
  rewrite !bool_decide_eq_true_2 by congruence. cbn [negb andb].
  assert (Hr : range_contains_branch ir (S (length a)) (length (a ++ i :: A)) = Ret (negb (forallb no_branch A))).
  { unfold range_contains_branch. rewrite length_app. cbn [length].
    replace (length a + S (length A) - S (length a))%nat with (length A) by lia.
    replace (S (length a)) with (length (a ++ [i])) by (rewrite length_app; simpl; lia).
    rewrite Ei. apply range_branch_spec. }
  rewrite Hr. cbn [mbind outcome_bind]. destruct (forallb no_branch A); [|done]. cbn [negb].
  pose proof (range_of _ _ _ Ei) as Hk. unfold slice. rewrite Hk. cbn [mbind outcome_bind]. do 4 f_equal.
  replace ((a ++ i :: A ++ l :: B) ++ [c]) with (a ++ i :: A ++ l :: B ++ [c])
    by (rewrite <- !app_assoc; cbn [app]; by rewrite <- app_assoc).
  rewrite join_app, !len_app. f_equal. lia.
Qed.

Lemma fold_at_spec a t b : ts = a ++ t :: b -> exists r, fold_at body ir m (length a) = Ret r /\
  forall from to_ keep e, r = Some (from, to_, keep, e) -> exists A l c rest,
    t :: b = if_else_code A l c ++ rest /\ fold_ok A l c /\ from = len (locals ++ mjoin a) /\
    to_ = from + len (mjoin (if_else_code A l c)) /\ keep = mjoin A /\
    S e = (length a + length (if_else_code A l c))%nat.
Proof using Hdec Hlen Hm.
  intros E. destruct (decide (opcode t = OP_IF)) as [Hop|Hop]; [|by exists None; rewrite (fold_at_other a t b)].
  destruct (decide (get body (len (locals ++ mjoin a) + 1) = Some 0x40)) as [Hg|Hg].
  2:{ exists None. split; [|done]. unfold fold_at. rewrite (index_instr a t b E). cbn [mbind outcome_bind ins_op].
      rewrite Hop, Z.eqb_refl. cbn [negb ins_start]. by rewrite bool_decide_eq_false_2. }
  assert (Ht : t = [OP_IF; 0x40]) by by eapply empty_if. destruct (Hm a t b E) as [H1 H2]; [by rewrite Hop|].
  rewrite Hop in H2. change (OP_IF =? 4) with true in H2. cbn iota in H2.
  destruct (last_else 0 b) as [e|] eqn:He; [destruct (close_at 0 b) as [k|] eqn:Hk|].
  2,3: exists None; split; [|done]; unfold fold_at; rewrite (index_instr a t b E); cbn [mbind outcome_bind ins_op];
       rewrite Hop, Z.eqb_refl; cbn [negb ins_start]; rewrite bool_decide_eq_true_2 by done; cbn [negb];
       rewrite H1, ?H2; by destruct (close_at 0 b).
  destruct (last_else_split b 0 e k He Hk) as (A & l & rest & -> & HA & Hl & Hc & Hn & Hlt).
  destruct (close_at_split rest 0 _ Hc) as (B & c & rest' & -> & HB & Hcop & Hbal). specialize (Hbal Hn).
  subst t e. rewrite (fold_at_arms a A l B c rest' E).
  2:{ rewrite H1. simpl. do 2 f_equal. lia. }
  2:{ by rewrite H2. }
  eexists. split; [done|]. intros from to_ keep e Hsome.
  case_bool_decide as HAB; [|done]. destruct (forallb no_branch A) eqn:Hnb; [|done]. injection Hsome as <- <- <- <-.
  destruct (complete_at _ _ _ E) as (_ & _ & [HcA [_ [HcB _]%Forall_app]%Forall_cons]%Forall_app).
  assert (B = A) as -> by by (symmetry; apply join_inj).
  exists A, l, c, rest'. unfold if_else_code, fold_ok. split_and!; try done.
  - cbn [app]. rewrite <- !app_assoc. cbn [app]. by rewrite <- app_assoc.
  - cbn [length]. rewrite !length_app. cbn [length]. rewrite length_app. cbn [length]. lia.
Qed.

(** The folds collected from the code [ts] at offset [p], the code they leave
    and, when it is written at offset [o], the edits recorded. *)
Inductive folded : Z -> Z -> list token -> list (Z * Z * bytes) -> list token -> list Edit -> Prop :=
| folded_nil p o : folded p o [] [] [] []
| folded_keep p o t b fs qs es : folded (p + len t) (o + len t) b fs qs es ->
    folded p o (t :: b) fs (t :: qs) es
| folded_fold p o A l c b fs qs es : fold_ok A l c ->
    let n := len (mjoin (if_else_code A l c)) in
    let new := mjoin ([OP_DROP] :: A) in
    folded (p + n) (o + len new) b fs qs es ->
    folded p o (if_else_code A l c ++ b) ((p, p + n, mjoin A) :: fs) (([OP_DROP] :: A) ++ qs)
      (mkEdit p n o (len new) :: es).

Lemma collect_skip k : forall i n,
  collect_folds (k + n) body ir m i (i + k) = collect_folds n body ir m (i + k) (i + k).
Proof using.
  induction k as [|k IH]; intros i n; [by rewrite Nat.add_0_r|]. cbn [Nat.add collect_folds].
  replace (i <? i + S k)%nat with true by (symmetry; apply Nat.ltb_lt; lia).
  rewrite <- Nat.add_succ_comm. apply IH.
Qed.

Lemma collect_spec n : forall a b ce, length b = n -> ts = a ++ b -> (ce <= length a)%nat ->
  exists fs, collect_folds (length b) body ir m (length a) ce = Ret fs /\
    forall o, exists qs es, folded (len (locals ++ mjoin a)) o b fs qs es.
Proof using Hdec Hlen Hm.
  induction n as [n IH] using lt_wf_ind. intros a b ce Hb E Hce.
  destruct b as [|t b]; [exists []; split; [done|]; intros o; exists [], []; constructor|].
  cbn [length collect_folds]. replace (length a <? ce)%nat with false by (symmetry; apply Nat.ltb_ge; lia).
  destruct (fold_at_spec a t b E) as (r & -> & Hr). cbn [mbind outcome_bind].
  destruct r as [[[[from to_] keep] e]|].
  - destruct (Hr _ _ _ _ eq_refl) as (A & l & c & rest & Ex & Hok & -> & -> & -> & He). rewrite Ex in E |- *.
    assert (Hlb : S (length b) = (length (if_else_code A l c) + length rest)%nat) by (by rewrite <- length_app, <- Ex).
    destruct (IH (length rest)) with (a := a ++ if_else_code A l c) (b := rest) (ce := S e) as (fs & Hfs & Hfold).
    + simpl in Hb. unfold if_else_code in Hlb. simpl in Hlb. lia.
    + done.
    + by rewrite E, app_assoc.
    + rewrite length_app, He. lia.
    + pose proof (collect_skip (length A + S (length A) + 1) (S (length a)) (length rest)) as Hskip.
      assert (Hx : length (if_else_code A l c) = S (length A + S (length A) + 1))
        by (unfold if_else_code; cbn [length]; rewrite !length_app; cbn [length]; rewrite length_app; cbn [length]; lia).
      replace (length b) with (length A + S (length A) + 1 + length rest)%nat by lia.
      replace (S (length a) + (length A + S (length A) + 1))%nat with (S e) in Hskip by lia.
      rewrite Hskip. replace (length (a ++ if_else_code A l c)) with (S e) in Hfs by (rewrite length_app; lia).
      rewrite Hfs. cbn [mbind outcome_bind]. eexists. split; [done|]. intros o.
      destruct (Hfold (o + len (mjoin ([OP_DROP] :: A)))) as (qs & es & Hq).
      rewrite join_app, app_assoc, len_app in Hq. do 2 eexists. by constructor.
  - destruct (IH (length b)) with (a := a ++ [t]) (b := b) (ce := ce) as (fs & Hfs & Hfold).
    + simpl in Hb. lia.
    + done.
    + by rewrite <- app_assoc.
    + rewrite length_app. lia.
    + rewrite length_app, Nat.add_1_r in Hfs. exists fs. split; [exact Hfs|]. intros o.
      destruct (Hfold (o + len t)) as (qs & es & Hq). exists (t :: qs), es. constructor.
      rewrite join_app, app_assoc, len_app in Hq. change (mjoin [t]) with (t ++ []) in Hq. by rewrite app_nil_r in Hq.
Qed.
End collecting.

(** ** The body emitted *)

Lemma if_rule_fold A l c : fold_ok A l c -> Forall (fun t => no_ref_branch t = true) (if_else_code A l c) ->
  if_rule (if_else_code A l c) ([OP_DROP] :: A).
Proof.
  intros (Hl & Hc & HA & Hb) Hr. constructor; [done..|].
  apply Forall_cons in Hr as [_ [Hr _]%Forall_app]. apply Forall_forall. intros t Ht. split.
  - rewrite forallb_forall in Hb. apply Hb. by apply list_elem_of_In.
  - rewrite Forall_forall in Hr. by apply Hr.
Qed.

Lemma if_folded_rewrites p o ts fs qs es : folded p o ts fs qs es ->
  Forall (fun t => no_ref_branch t = true) ts -> rewrites if_rule ts qs.
Proof.
  induction 1 as [|p o t b fs qs es _ IH|p o A l c b fs qs es Hok n new _ IH]; intros Hr.
  - constructor.
  - apply Forall_cons in Hr as [_ Hr]. constructor. auto.
  - apply Forall_app in Hr as [Hx Hr]. constructor; [by apply if_rule_fold|auto].
Qed.

(** What holds of every instruction holds of those kept. *)
Lemma if_folded_Forall (P : token -> Prop) p o ts fs qs es : P [OP_DROP] -> folded p o ts fs qs es ->
  Forall P ts -> Forall P qs.
Proof.
  intros HP. induction 1 as [|p o t b fs qs es _ IH|p o A l c b fs qs es Hok n new _ IH]; intros Hts; [done|..].
  - apply Forall_cons in Hts as [Ht Hts]. constructor; auto.
  - apply Forall_app in Hts as [[_ [HA _]%Forall_app]%Forall_cons Hts].
    apply Forall_app. split; [by constructor|auto].
Qed.

Lemma if_folded_script p o ts fs qs es : folded p o ts fs qs es -> script p o (mjoin ts) (mjoin qs) es.
Proof.
  induction 1 as [|p o t b fs qs es _ IH|p o A l c b fs qs es Hok n new _ IH].
  - constructor.
  - by apply script_copy.
  - rewrite !join_app. by apply script_replace.
Qed.

Lemma if_emit_folded body p o ts fs qs es : folded p o ts fs qs es ->
  forall pre keep out e, body = pre ++ keep ++ mjoin ts -> p = len pre + len keep -> o = len out + len keep ->
  exists e', emit_folds body fs (len pre) out e = Ret (out ++ keep ++ mjoin qs, e') /\
    (aligned e -> aligned e') /\
    (len body < 2 ^ 32 -> len (out ++ keep ++ mjoin qs) < 2 ^ 32 -> extends e e' es).
Proof.
  induction 1 as [p o|p o t b fs qs es _ IH|p o A l c b fs qs es Hok n new _ IH]; intros pre keep out e Hb Hp Ho.
  - exists e. cbn [emit_folds]. rewrite Hb, slice_from_len. cbn [mbind outcome_bind].
    split_and!; [done..|]. intros _ _. unfold extends. by rewrite !app_nil_r.
  - destruct (IH pre (keep ++ t) out e) as (e' & He & Hal & Hx);
      [by rewrite Hb, <- !app_assoc|rewrite len_app; lia..|].
    exists e'. rewrite <- !app_assoc in He, Hx. done.
  - assert (Hsl : slice body (len pre) p = Ret keep) by (rewrite Hp, Hb; apply slice_keep).
    cbn [emit_folds]. rewrite Hsl. cbn [mbind outcome_bind].
    change (OP_DROP :: mjoin A) with new. rewrite join_app in Hb |- *.
    match goal with |- context [emit_folds _ _ _ ?out' ?e1] =>
      destruct (IH (pre ++ keep ++ mjoin (if_else_code A l c)) [] out' e1) as (e' & He & Hal & Hx) end.
    { by rewrite Hb, <- !app_assoc. }
    { rewrite !len_app, len_nil. unfold n. lia. }
    { rewrite !len_app, len_nil. lia. }
    replace (len (pre ++ keep ++ mjoin (if_else_code A l c))) with (p + n) in He by (rewrite !len_app; unfold n; lia).
    rewrite He. exists e'. rewrite <- !app_assoc in *. cbn [app] in Hx. split_and!; [done|by intros; apply Hal, be_push_aligned|].
    change (mjoin ([OP_DROP] :: A)) with new.
    intros Hlb Hlo. apply extends_push. specialize (Hx Hlb Hlo). rewrite Hb in Hlb. unfold edit_subst in *.
    rewrite !len_app in *. pose proof (len_nonneg pre). pose proof (len_nonneg keep). pose proof (len_nonneg out).
    pose proof (len_nonneg new). pose proof (len_nonneg (mjoin qs)). pose proof (len_nonneg (mjoin b)).
    assert (0 <= n) by (unfold n; apply len_nonneg). assert (Hn : len (mjoin (if_else_code A l c)) = n) by done. rewrite Hn in *. clearbody n.
    rewrite !u32_small in Hx by (rewrite ?u32_small by lia; lia).
    replace (p + n - p) with n in Hx by lia.
    replace (len out + (len keep + len new) - (len out + len keep)) with (len new) in Hx by lia.
    rewrite <- Ho in Hx. done.
Qed.

(** ** The pass *)

Lemma if_else_scan_total body ts : Forall complete ts -> forall pre saw, body = pre ++ mjoin ts ->
  exists b, if_else_scan body (spans_at (len pre) ts) saw = Ret b.
Proof.
  induction 1 as [|t ts Ht _ IH]; intros pre saw Hb; cbn [spans_at if_else_scan]; [by eexists|].
  rewrite (read_opcode body pre t (mjoin ts)) by done. cbn [mbind outcome_bind].
  specialize (IH (pre ++ t)). rewrite len_app in IH.
  destruct (opcode t =? OP_IF); [apply IH; by rewrite Hb, <- app_assoc|].
  destruct (_ && _); [by eexists|]. apply IH. by rewrite Hb, <- app_assoc.
Qed.

Lemma has_if_else_total body locals ts : decodes body locals ts -> exists b, has_if_else body = Ret b.
Proof.
  intros Hd. unfold has_if_else. rewrite (dec_locals _ _ _ Hd).
  destruct (collect_ok _ _ _ Hd) as (it & -> & _). cbn [fst].
  apply (if_else_scan_total body ts (dec_complete _ _ _ Hd) locals). apply (dec_bytes _ _ _ Hd).
Qed.

Lemma if_rewrite_body_spec body locals p : decodes body locals p -> len body < 2 ^ 32 ->
  exists r, if_rewrite_body body = Ret r /\ forall out e, r = Some (out, e) ->
  aligned e /\ exists fs qs es, folded (len locals) (len locals) p fs qs es /\ out = locals ++ mjoin qs /\
    (len out < 2 ^ 32 -> extends be_identity e es).
Proof.
  intros Hd Hl. unfold if_rewrite_body. destruct (has_if_else_total _ _ _ Hd) as [has ->].
  cbn [mbind outcome_bind]. destruct has; cbn [negb]; [|by exists None].
  rewrite (ir_new_ok _ _ _ Hd Hl). cbn [mbind outcome_bind instrs].
  destruct (_ <? 4)%nat; [by exists None|].
  destruct (match_structural_spec body (len locals) p) as (m & -> & Hm). cbn [mbind outcome_bind].
  destruct (collect_spec body locals p m Hd Hl Hm (length p) [] p 0 eq_refl eq_refl (le_n _)) as (fs & Hfs & Hf).
  rewrite instrs_at_length. simpl length in Hfs at 2. rewrite Hfs. cbn [mbind outcome_bind].
  destruct (Hf (len locals)) as (qs & es & Hq). change (mjoin (@nil token)) with (@nil Z) in Hq. rewrite app_nil_r in Hq.
  destruct fs as [|f fs]; [by exists None|].
  destruct (if_emit_folded body _ _ _ _ _ _ Hq [] locals [] be_identity) as (e & He & Hal & Hx);
    [apply (dec_bytes _ _ _ Hd)|by rewrite len_nil..|].
  change (len (@nil Z)) with 0 in He. rewrite He. cbn [mbind outcome_bind].
  eexists. split; [done|]. intros out e' [= <- <-]. split; [by apply Hal|].
  exists (f :: fs), qs, es. split_and!; [done..|]. auto.
Qed.

Lemma if_fold_preserves body locals p : decodes body locals p -> Forall (fun t => no_ref_branch t = true) p ->
  len body < 2 ^ 32 ->
  exists r, if_rewrite_body body = Ret r /\ forall out e, r = Some (out, e) ->
  aligned e /\ len out <= 2 * len body /\
  (len out < 2 ^ 32 -> script 0 0 body out (edits e) /\ src_funcs e = replicate (length (edits e)) None) /\
  exists q, decodes out locals q /\ Forall (fun t => no_ref_branch t = true) q /\ rewrites if_rule p q.
Proof.
  intros Hd Hr Hl. destruct (if_rewrite_body_spec _ _ _ Hd Hl) as (r & Hrun & Hout).
  exists r. split; [done|]. intros out e E. destruct (Hout out e E) as (Hal & fs & q & es & Hf & -> & Hx).
  pose proof Hd as [Hb Hlo Hp]. pose proof (if_folded_rewrites _ _ _ _ _ _ Hf Hr) as Hrw.
  pose proof (rewrites_len _ _ _ if_rule_doubles Hrw Hp). pose proof (len_nonneg locals).
  split_and!; [done|rewrite Hb, !len_app; lia| |exists q; split_and!; [|by eapply if_folded_Forall|done]].
  - intros Ho. destruct (Hx Ho) as [H1 H2]. simpl in H1, H2. rewrite H2, H1. split; [|done].
    rewrite Hb. apply script_copy. rewrite !Z.add_0_l. by eapply if_folded_script.
  - constructor; [done| |by eapply if_folded_Forall].
    apply skip_locals_app, (shrink_skip_locals locals (mjoin p)); [by rewrite <- Hb|done].
Qed.

Lemma if_rewrites_run (p q : list token) : rewrites if_rule p q -> preserves p q.
Proof.
  intros Hrw Val St prim arity table_label results lget lset zero64 s stk n res Hi Hs Hrun Hns.
  eapply (rewrites_run prim arity table_label results if_rule if_rule_balanced
    (if_rule_refines prim arity table_label results lget lset zero64 Hi Hs)); [|exact Hrun|done].
  by constructor.
Qed.

#[global] Instance if_fold_pass : BodyPass if_rewrite_body.
Proof.
  split.
  - intros body locals p [Hd Hc Hr] Hl. destruct (if_fold_preserves _ _ _ Hd Hr) as (r & Hrun & Hout).
    { pose proof (len_nonneg body). lia. }
    exists r. split; [done|]. intros out e E. destruct (Hout out e E) as (Hal & Hlen & _ & q & Hq & Hqr & Hrw).
    split_and!; [done..|]. exists q. split; [split; [done| |done]|by apply if_rewrites_run].
    by eapply closes_rewrites; [exact if_rule_balanced|exact if_rule_nonempty|..].
  - intros body locals p out e [Hd Hc Hr] Hl Hrun Hlen. pose proof (len_nonneg body).
    destruct (if_fold_preserves _ _ _ Hd Hr) as (r & Hrun' & Hout); [lia|]. rewrite Hrun in Hrun'. injection Hrun' as <-.
    destruct (Hout out e eq_refl) as (_ & _ & Hs & _). destruct Hs as [Hs Hsrc]; [lia|].
    by apply script_apply.
Qed.

(** ** Properties *)

(** C6. Folding [if]s with identical arms preserves the behaviour of a body.  On a
    body that decodes into the instructions [p], none of them a branch on a
    reference, the pass returns; when it rewrites the body, the output has the
    same locals and decodes into instructions [q] that reproduce every run of [p]
    that does not get stuck, in at most as many steps: each fold drops the
    condition and keeps one arm, moved out of the block, whose own
    branches it must not contain. *)
Theorem if_fold_preserves_execution body locals p :
  decodes body locals p -> Forall (fun t => no_ref_branch t = true) p -> len body < 2 ^ 32 ->
  exists r, if_rewrite_body body = Ret r /\ forall out e, r = Some (out, e) ->
  exists q, decodes out locals q /\
  forall Val St prim arity table_label results lget lset zero64 (s : St) (stk : list (@value Val)) n res,
    wasm_instructions prim arity lget lset zero64 -> wasm_stack prim ->
    run prim arity table_label results n (mkConfig p stk [] s) = Some res -> res <> StuckAt ->
    exists m, (m <= n)%nat /\ run prim arity table_label results m (mkConfig q stk [] s) = Some res.
Proof.
  intros Hd Hr Hl. destruct (if_fold_preserves _ _ _ Hd Hr Hl) as (r & Hrun & H). exists r. split; [done|].
  intros out e E. destruct (H out e E) as (_ & _ & _ & q & Hq & _ & Hrw). exists q. split; [done|].
  exact (if_rewrites_run p q Hrw).
Qed.

(** Both arms set local 0 to 5. *)
Definition arms_code : list token :=
  [[0x20; 0]; [0x04; 0x40]; [0x41; 5]; [0x21; 0]; [0x05]; [0x41; 5]; [0x21; 0]; [0x0B]; [0x20; 0]; [0x0B]].
Definition arms_body : bytes := [1; 1; 0x7F] ++ mjoin arms_code.

Lemma arms_decodes : decodes arms_body [1; 1; 0x7F] arms_code.
Proof. constructor; [reflexivity|reflexivity|repeat constructor]. Defined.

Lemma if_fold_preserves_execution_witness :
  demo_run 10%nat arms_code = Some (Halt [I32 5] [I32 5]) /\
  exists out e q m, if_rewrite_body arms_body = Ret (Some (out, e)) /\
    out = [1; 1; 0x7F; 0x20; 0; 0x1A; 0x41; 5; 0x21; 0; 0x20; 0; 0x0B] /\
    decodes out [1; 1; 0x7F] q /\ (m <= 10)%nat /\ demo_run m q = Some (Halt [I32 5] [I32 5]).
Proof.
  split; [reflexivity|].
  destruct (if_fold_preserves_execution _ _ _ arms_decodes ltac:(repeat constructor) ltac:(reflexivity)) as (r & Hr & H).
  assert (E : if_rewrite_body arms_body = Ret (Some ([1; 1; 0x7F; 0x20; 0; 0x1A; 0x41; 5; 0x21; 0; 0x20; 0; 0x0B],
    mkEdits [edit_subst 5 12 5 5] [None]))) by reflexivity.
  rewrite E in Hr. injection Hr as <-. destruct (H _ _ eq_refl) as (q & Hq & Hrun).
  destruct (Hrun Z (list (@value Z)) demo_prim demo_arity (fun _ _ => None) 1%nat demo_get demo_set (Other 0)
    [I32 0] [] 10%nat (Halt [I32 5] [I32 5]) demo_wasm demo_stack ltac:(reflexivity) ltac:(discriminate)) as (m & Hm & Hrm).
  do 3 eexists. exists m. split; [exact E|]. split; [reflexivity|]. split; [exact Hq|]. split; [exact Hm|exact Hrm].
Defined.

(** Both arms leave their block by [br_on_null 0]. *)
Definition null_arm : list token := [[0xD0; 0x70]; [0xD5; 0]; [0x1A]].
Definition null_code : list token :=
  [[0x02; 0x40]; [0x41; 1]] ++ if_else_code null_arm [0x05] [0x0B]
  ++ [[0x41; 5]; [0x21; 0]; [0x0B]; [0x20; 0]; [0x0B]].
Definition null_folded : list token :=
  [[0x02; 0x40]; [0x41; 1]; [0x1A]] ++ null_arm ++ [[0x41; 5]; [0x21; 0]; [0x0B]; [0x20; 0]; [0x0B]].

(** Folding [if]s is wrong for arms that branch on a reference: the check for
    branches knows [br], [br_if] and [br_table] but not [br_on_null], whose label
    counts one block too many once the arm is out of its [if].  The body
    [block (i32.const 1; if (ref.null; br_on_null 0; drop) else (the same) end;
    i32.const 5; local.set 0) end; local.get 0] returns 5; the pass folds it,
    and its output leaves the outer block and returns the old value 0. *)
Theorem if_fold_breaks_br_on_null :
  let body := [1; 1; 0x7F] ++ mjoin null_code in
  let out := [1; 1; 0x7F] ++ mjoin null_folded in
  exists e, if_rewrite_body body = Ret (Some (out, e)) /\
  decodes body [1; 1; 0x7F] null_code /\ decodes out [1; 1; 0x7F] null_folded /\
  wasm_instructions demo_prim demo_arity demo_get demo_set (Other 0) /\ wasm_stack demo_prim /\
  demo_run 10%nat null_code = Some (Halt [I32 5] [I32 5]) /\
  demo_run 10%nat null_folded = Some (Halt [I32 0] [I32 0]).
Proof.
  exists (mkEdits [edit_subst 7 14 7 6] [None]). split_and!; [by vm_compute| | |exact demo_wasm|exact demo_stack|by vm_compute|by vm_compute].
  all: constructor; [reflexivity|by vm_compute|]; by apply (bool_decide_unpack _); vm_compute.
Qed.
