(* ===== verification/Dce.v ===== *)
(** Dead function elimination ([wilt/src/passes/dce.rs]): the reference scans, the
    reachability analysis and the rewriting of every section that carries
    function indices. *)
From S2P Require Import Prelude Leb128 Opcode WasmModule Scan Remap.

(** ** Reference scans *)

(** The body loop of [all_bodies_walkable]. *)
Fixpoint bodies_walkable (data : bytes) (bodies : list FunctionBody) : outcome bool :=
  match bodies with
  | [] => Ret true
  | b :: bodies =>
      bytes ← span_slice (fb_body b) data;
      match skip_locals bytes with
      | None => Ret false
      | Some start =>
          match walk bytes start with
          | None => Ret false
          | Some _ => bodies_walkable data bodies
          end
      end
  end.

Definition all_bodies_walkable (m : WasmModule) : outcome bool :=
  bodies_walkable (wm_data m) (function_bodies m).

Record DceResult := mkDce { index_map : list (option Z); num_imports : Z; defined_kept : Z }.

Definition dce_identity (num_imports num_defined : Z) : DceResult :=
  let total := u32 (num_imports + num_defined) in
  mkDce (entries (identity total)) num_imports num_defined.

(** [leb128::read_u32(&bytes[off..])] where the bound is known. *)
Definition leb_from (bytes : bytes) (off : Z) : option (Z * Z) :=
  rest ← get_from bytes off; read_u32 rest.

(** Each iteration moves past at least one byte. *)
Fixpoint scan_const_expr_loop (fuel : nat) (bytes : bytes) (off : Z) (targets : list Z)
  : option (Z * list Z) :=
  if negb (off <? len bytes) then None else
  match fuel with
  | O => None
  | S fuel =>
      op ← get bytes off;
      if op =? 0x0B then Some (off + 1, targets) else
      n ← instr_len bytes off;
      let targets := match (if op =? OP_REF_FUNC then leb_from bytes (off + 1) else None) with
                     | Some (t, _) => targets ++ [t]
                     | None => targets
                     end in
      scan_const_expr_loop fuel bytes (off + n) targets
  end.

Definition scan_const_expr (bytes : bytes) (start : Z) : option (Z * list Z) :=
  scan_const_expr_loop (S (length bytes)) bytes start [].

Definition scan_global (payload : bytes) (s : Z * list Z) : option (Z * list Z) :=
  let '(off, out) := s in
  if len payload <? off + 2 then None else
  '(e, targets) ← scan_const_expr payload (off + 2);
  Some (e, out ++ targets).

Definition scan_globals_for_ref_func (payload : bytes) : option (list Z) :=
  '(count, off) ← read_u32 payload;
  snd <$> for_count (S (length payload)) count (scan_global payload) (off, []).

Definition read_funcidx (payload : bytes) (s : Z * list Z) : option (Z * list Z) :=
  let '(off, roots) := s in
  '(idx, c) ← leb_from payload off;
  Some (off + c, roots ++ [idx]).

Definition read_funcidx_vec (payload : bytes) (off : Z) (roots : list Z) : option (Z * list Z) :=
  '(n, c) ← leb_from payload off;
  for_count (S (length payload)) n (read_funcidx payload) (off + c, roots).

Definition scan_segment (payload : bytes) (s : Z * list Z) : option (Z * list Z) :=
  let '(off, roots) := s in
  '(flags, c) ← leb_from payload off;
  let off := off + c in
  if flags =? 0 then
    '(e, _) ← scan_const_expr payload off;
    read_funcidx_vec payload e roots
  else if (flags =? 1) || (flags =? 3) then
    read_funcidx_vec payload (off + 1) roots
  else if flags =? 2 then
    '(_, c) ← leb_from payload off;
    '(e, _) ← scan_const_expr payload (off + c);
    read_funcidx_vec payload (e + 1) roots
  else None.

Definition scan_elements_funcidx (payload : bytes) : option (list Z) :=
  '(count, off) ← read_u32 payload;
  snd <$> for_count (S (length payload)) count (scan_segment payload) (off, []).

(** ** Counting function imports *)

(** [if let Some((_, c)) = read_u32(&p[off..]) { off += c } else { return n }] *)
Definition skip_u32 (p : bytes) (off : Z) : outcome (option Z) :=
  rest ← slice_from p off; Ret ((fun r => off + snd r) <$> read_u32 rest).

(** The limits of a table or memory import at [off]. *)
Definition skip_limits_pub (p : bytes) (off : Z) : outcome (option Z) :=
  if len p <=? off then Ret None else
  flags ← index p off;
  off ←? skip_u32 p (off + 1);
  if negb (Z.land flags 1 =? 0) then skip_u32 p off else Ret (Some off).

(** One import: the offset after it and whether it is a function; [None] where
    the code returns early. *)
Definition import_step (p : bytes) (off : Z) : outcome (option (Z * bool)) :=
  rest ← slice_from p off;
  match read_u32 rest with
  | None => Ret None
  | Some (l, c) =>
      let off := off + c + l in
      if len p <? off then Ret None else
      rest ← slice_from p off;
      match read_u32 rest with
      | None => Ret None
      | Some (l, c) =>
          let off := off + c + l in
          if len p <=? off then Ret None else
          kind ← index p off;
          let off := off + 1 in
          if kind =? 0x00 then off ←? skip_u32 p off; Ret (Some (off, true))
          else if kind =? 0x01 then
            if len p <=? off then Ret None else
            off ←? skip_limits_pub p (off + 1); Ret (Some (off, false))
          else if kind =? 0x02 then off ←? skip_limits_pub p off; Ret (Some (off, false))
          else if kind =? 0x03 then Ret (Some (off + 2, false))
          else if kind =? 0x04 then off ←? skip_u32 p (off + 1); Ret (Some (off, false))
          else Ret None
      end
  end.

Fixpoint count_imports_loop (fuel : nat) (p : bytes) (count off n : Z) : outcome Z :=
  if count <=? 0 then Ret n else
  match fuel with
  | O => Panic
  | S fuel =>
      e ← import_step p off;
      match e with
      | None => Ret n
      | Some (off, is_func) =>
          count_imports_loop fuel p (count - 1) off (if is_func : bool then u32 (n + 1) else n)
      end
  end.

Definition count_func_imports_pub (m : WasmModule) : outcome Z :=
  match section m SECTION_IMPORT with
  | None => Ret 0
  | Some sec =>
      p ← span_slice (sec_payload sec) (wm_data m);
      match read_u32 p with
      | None => Ret 0
      | Some (count, off) => count_imports_loop (S (length p)) p count off 0
      end
  end.

(** ** The analysis *)

(** The instruction loop of [analyse]: calls go to the row [abs] of the graph,
    [ref.func] targets to the extra roots. *)
Fixpoint collect_refs (body : bytes) (total abs : Z) (instrs : list (Z * Z))
    (graph : list (list Z)) (roots : list Z) : outcome (list (list Z) * list Z) :=
  match instrs with
  | [] => Ret (graph, roots)
  | (p, _) :: instrs =>
      op ← index body p;
      if op =? OP_CALL then
        rest ← slice_from body (p + 1);
        match read_u32 rest with
        | Some (target, _) =>
            if target <? total then
              row ← index graph abs;
              graph ← store graph abs (row ++ [target]);
              collect_refs body total abs instrs graph roots
            else collect_refs body total abs instrs graph roots
        | None => collect_refs body total abs instrs graph roots
        end
      else if op =? OP_REF_FUNC then
        rest ← slice_from body (p + 1);
        match read_u32 rest with
        | Some (target, _) =>
            collect_refs body total abs instrs graph (if target <? total then roots ++ [target] else roots)
        | None => collect_refs body total abs instrs graph roots
        end
      else collect_refs body total abs instrs graph roots
  end.

(** The body loop of [analyse]; [None] when a body cannot be decoded. *)
Fixpoint scan_all_bodies (data : bytes) (total abs_idx : Z) (bodies : list FunctionBody)
    (graph : list (list Z)) (roots : list Z) : outcome (option (list (list Z) * list Z)) :=
  match bodies with
  | [] => Ret (Some (graph, roots))
  | b :: bodies =>
      body_bytes ← span_slice (fb_body b) data;
      match skip_locals body_bytes with
      | None => Ret None
      | Some start =>
          match walk body_bytes start with
          | None => Ret None
          | Some instrs =>
              '(graph, roots) ← collect_refs body_bytes total abs_idx instrs graph roots;
              scan_all_bodies data total (u32 (abs_idx + 1)) bodies graph roots
          end
      end
  end.

(** The optional scan of one section: the targets, or [None] for a bail-out. *)
Definition section_targets (m : WasmModule) (id : Z) (scan : bytes -> option (list Z))
  : outcome (option (list Z)) :=
  match section m id with
  | None => Ret (Some [])
  | Some sec => p ← span_slice (sec_payload sec) (wm_data m); Ret (scan p)
  end.

(** [for i in 0..num_defined]: the entries of the defined functions and how many
    are kept. *)
Fixpoint number_defined (reachable : list bool) (abs : Z) (n : nat) (new_abs : Z) : list (option Z) * Z :=
  match n with
  | O => ([], 0)
  | S n =>
      if default true (get reachable abs) then
        let '(es, kept) := number_defined reachable (abs + 1) n (u32 (new_abs + 1)) in
        (Some new_abs :: es, u32 (1 + kept))
      else
        let '(es, kept) := number_defined reachable (abs + 1) n new_abs in
        (None :: es, kept)
  end.

Definition no_roots (ls : list (list Z)) (start : option Z) : bool :=
  forallb (fun l => match l with [] => true | _ => false end) ls &&
  match start with None => true | Some _ => false end.

Definition analyse (m : WasmModule) : outcome (WasmModule * DceResult) :=
  m ← ensure_function_bodies_parsed m;
  let num_defined := u32 (num_function_bodies m) in
  num_imports ← count_func_imports_pub m;
  let total := u32 (num_imports + num_defined) in
  let identity_result := (m, dce_identity num_imports num_defined) in
  elements ← section_targets m SECTION_ELEMENT scan_elements_funcidx;
  match elements with None => Ret identity_result | Some element_ref_func_targets =>
  globals ← section_targets m SECTION_GLOBAL scan_globals_for_ref_func;
  match globals with None => Ret identity_result | Some global_ref_func_targets =>
  scanned ← scan_all_bodies (wm_data m) total num_imports (function_bodies m)
              (replicate (Z.to_nat total) []) [];
  match scanned with None => Ret identity_result | Some (graph, extra_roots) =>
  exports ← exported_function_indices m;
  start ← start_function m;
  if no_roots [exports; extra_roots; global_ref_func_targets; element_ref_func_targets] start
  then Ret identity_result else
  let roots := exports ++ option_list start ++ extra_roots ++ global_ref_func_targets
               ++ element_ref_func_targets ++ (Z.of_nat <$> seq 0 (Z.to_nat num_imports)) in
  reachable ← reachable_from graph roots;
  let '(es, kept) := number_defined reachable num_imports (Z.to_nat num_defined) num_imports in
  Ret (m, mkDce (entries (identity num_imports) ++ es) num_imports kept)
  end end end.

(** ** Rewriting function indices *)

(** The instruction loop of [rewrite_body]: output so far and copy cursor. *)
Fixpoint rewrite_loop (body : bytes) (index_map : list (option Z)) (instrs : list (Z * Z))
    (out : bytes) (cursor : Z) : outcome (bytes * Z) :=
  match instrs with
  | [] => Ret (out, cursor)
  | (p, _) :: instrs =>
      op ← index body p;
      if (op =? OP_CALL) || (op =? OP_REF_FUNC) then
        rest ← slice_from body (p + 1);
        match read_u32 rest with
        | Some (target, c) =>
            let new_target := default target (get_flatten index_map target) in
            if negb (new_target =? target) then
              copied ← slice body cursor p;
              rewrite_loop body index_map instrs
                ((out ++ copied) ++ op :: write_u32 new_target) (p + 1 + c)
            else rewrite_loop body index_map instrs out cursor
        | None => rewrite_loop body index_map instrs out cursor
        end
      else rewrite_loop body index_map instrs out cursor
  end.

Definition rewrite_body (body : bytes) (index_map : list (option Z)) : outcome (option bytes) :=
  match skip_locals body with
  | None => Ret None
  | Some start =>
      match walk body start with
      | None => Ret None
      | Some instrs =>
          header ← slice body 0 start;
          '(out, cursor) ← rewrite_loop body index_map instrs header start;
          copied ← slice_from body cursor;
          Ret (Some (out ++ copied))
      end
  end.

Fixpoint rewrite_const_expr_loop (fuel : nat) (d : bytes) (index_map : list (option Z))
    (off : Z) (out : bytes) : outcome bytes :=
  let finish off out := (rest ← slice_from d off; Ret (out ++ rest)) in
  if negb (off <? len d) then finish off out else
  match fuel with
  | O => Panic
  | S fuel =>
      op ← index d off;
      if op =? 0x0B then finish (off + 1) (out ++ [op]) else
      match instr_len d off with
      | None => finish off out
      | Some n =>
          target ← (if op =? OP_REF_FUNC then rest ← slice_from d (off + 1); Ret (read_u32 rest)
                    else Ret None);
          match target with
          | Some (t, c) =>
              let new_t := default t (get_flatten index_map t) in
              rewrite_const_expr_loop fuel d index_map (off + 1 + c) (out ++ op :: write_u32 new_t)
          | None =>
              copied ← slice d off (off + n);
              rewrite_const_expr_loop fuel d index_map (off + n) (out ++ copied)
          end
      end
  end.

Definition rewrite_const_expr (d : bytes) (index_map : list (option Z)) : outcome bytes :=
  rewrite_const_expr_loop (S (length d)) d index_map 0 [].

(** ** Section emission: each yields the bytes appended to the output *)

Fixpoint function_section_loop (fuel : nat) (payload : bytes) (r : DceResult) (count i off : Z)
  : outcome bytes :=
  if count <=? i then Ret [] else
  match fuel with
  | O => Panic
  | S fuel =>
      rest ← slice_from payload off;
      match read_u32 rest with
      | None => Ret []
      | Some (type_idx, c) =>
          let abs := u32 (num_imports r + i) in
          tail ← function_section_loop fuel payload r count (i + 1) (off + c);
          Ret (match get_flatten (index_map r) abs with
               | Some _ => write_u32 type_idx ++ tail
               | None => tail
               end)
      end
  end.

Definition emit_function_section (s : Section_) (data : bytes) (r : DceResult) : outcome bytes :=
  payload ← span_slice (sec_payload s) data;
  match read_u32 payload with
  | None => span_slice (sec_full s) data
  | Some (count, off) =>
      types ← function_section_loop (S (length payload)) payload r count 0 off;
      Ret (encode_section (sec_id s) (write_u32 (defined_kept r) ++ types))
  end.

Fixpoint code_section_loop (data : bytes) (r : DceResult) (i : Z) (bodies : list FunctionBody) : outcome bytes :=
  match bodies with
  | [] => Ret []
  | b :: bodies =>
      let abs := u32 (num_imports r + u32 i) in
      match get_flatten (index_map r) abs with
      | None => code_section_loop data r (i + 1) bodies
      | Some _ =>
          body_bytes ← span_slice (fb_body b) data;
          rewritten ← rewrite_body body_bytes (index_map r);
          match rewritten with
          | None => Panic
          | Some rewritten =>
              tail ← code_section_loop data r (i + 1) bodies;
              Ret (write_u32 (u32 (len rewritten)) ++ rewritten ++ tail)
          end
      end
  end.

Definition emit_code_section (m : WasmModule) (data : bytes) (r : DceResult) : outcome bytes :=
  bodies ← code_section_loop data r 0 (function_bodies m);
  Ret (encode_section SECTION_CODE (write_u32 (defined_kept r) ++ bodies)).

Definition emit_remapped_start_section (s : Section_) (data : bytes) (index_map : list (option Z))
  : outcome bytes :=
  payload ← span_slice (sec_payload s) data;
  match read_u32 payload with
  | None => span_slice (sec_full s) data
  | Some (idx, _) =>
      Ret (encode_section (sec_id s) (write_u32 (default idx (get_flatten index_map idx))))
  end.

Fixpoint global_section_loop (fuel : nat) (payload : bytes) (index_map : list (option Z)) (count off : Z)
  : outcome bytes :=
  if count <=? 0 then Ret [] else
  match fuel with
  | O => Panic
  | S fuel =>
      if len payload <? off + 2 then Ret [] else
      head ← slice payload off (off + 2);
      let off := off + 2 in
      match scan_const_expr payload off with
      | None => rest ← slice_from payload off; Ret (head ++ rest)
      | Some (e, _) =>
          init ← slice payload off e;
          rewritten ← rewrite_const_expr init index_map;
          tail ← global_section_loop fuel payload index_map (count - 1) e;
          Ret (head ++ rewritten ++ tail)
      end
  end.

Definition emit_remapped_global_section (s : Section_) (data : bytes) (index_map : list (option Z))
  : outcome bytes :=
  payload ← span_slice (sec_payload s) data;
  match read_u32 payload with
  | None => span_slice (sec_full s) data
  | Some (count, off) =>
      globals ← global_section_loop (S (length payload)) payload index_map count off;
      Ret (encode_section (sec_id s) (write_u32 count ++ globals))
  end.

(** [skip_funcidx_vec] *)
Definition skip_funcidx (payload : bytes) (off : Z) : option Z :=
  '(_, c) ← leb_from payload off; Some (off + c).

Definition skip_funcidx_vec (payload : bytes) (off : Z) : option Z :=
  '(n, c) ← leb_from payload off;
  for_count (S (length payload)) n (skip_funcidx payload) (off + c).

(** One segment of [all_segments_funcidx_form]: the offset after it. *)
Definition segment_funcidx_form (payload : bytes) (off : Z) : outcome (option Z) :=
  rest ← slice_from payload off;
  match read_u32 rest with
  | None => Ret None
  | Some (flags, c) =>
      let off := off + c in
      if flags =? 0 then
        Ret ('(e, _) ← scan_const_expr payload off; skip_funcidx_vec payload e)
      else if (flags =? 1) || (flags =? 3) then
        if len payload <=? off then Ret None else Ret (skip_funcidx_vec payload (off + 1))
      else if flags =? 2 then
        rest ← slice_from payload off;
        match read_u32 rest with
        | None => Ret None
        | Some (_, c) =>
            match scan_const_expr payload (off + c) with
            | None => Ret None
            | Some (e, _) =>
                if len payload <=? e then Ret None else Ret (skip_funcidx_vec payload (e + 1))
            end
        end
      else Ret None
  end.

Fixpoint all_segments_funcidx_form (fuel : nat) (payload : bytes) (count off : Z) : outcome bool :=
  if count <=? 0 then Ret true else
  match fuel with
  | O => Panic
  | S fuel =>
      r ← segment_funcidx_form payload off;
      match r with
      | None => Ret false
      | Some off => all_segments_funcidx_form fuel payload (count - 1) off
      end
  end.

Fixpoint remapped_funcidx_loop (fuel : nat) (payload : bytes) (index_map : list (option Z))
    (n off : Z) (out : bytes) : outcome (bytes * Z) :=
  if n <=? 0 then Ret (out, off) else
  match fuel with
  | O => Panic
  | S fuel =>
      rest ← slice_from payload off;
      match read_u32 rest with
      | None => Ret (out, off)
      | Some (idx, c) =>
          remapped_funcidx_loop fuel payload index_map (n - 1) (off + c)
            (out ++ write_u32 (default idx (get_flatten index_map idx)))
      end
  end.

(** The bytes written and the offset reached. *)
Definition write_remapped_funcidx_vec (payload : bytes) (off : Z) (index_map : list (option Z))
  : outcome (bytes * Z) :=
  rest ← slice_from payload off;
  match read_u32 rest with
  | None => Ret ([], off)
  | Some (n, c) => remapped_funcidx_loop (S (length payload)) payload index_map n (off + c) (write_u32 n)
  end.

(** [e.expect("pre-checked")] *)
Definition expect {A} (o : option A) : outcome A := match o with Some a => Ret a | None => Panic end.

(** One segment of [emit_remapped_element_section]. *)
Definition element_segment (payload : bytes) (index_map : list (option Z)) (off : Z) : outcome (bytes * Z) :=
  rest ← slice_from payload off;
  '(flags, c) ← expect (read_u32 rest);
  let off := off + c in
  if flags =? 0 then
    '(e, _) ← expect (scan_const_expr payload off);
    offset_expr ← slice payload off e;
    rewritten ← rewrite_const_expr offset_expr index_map;
    '(vec, off) ← write_remapped_funcidx_vec payload e index_map;
    Ret (write_u32 flags ++ rewritten ++ vec, off)
  else if (flags =? 1) || (flags =? 3) then
    kind ← index payload off;
    '(vec, off) ← write_remapped_funcidx_vec payload (off + 1) index_map;
    Ret (write_u32 flags ++ kind :: vec, off)
  else if flags =? 2 then
    rest ← slice_from payload off;
    '(tableidx, c) ← expect (read_u32 rest);
    let off := off + c in
    '(e, _) ← expect (scan_const_expr payload off);
    offset_expr ← slice payload off e;
    rewritten ← rewrite_const_expr offset_expr index_map;
    kind ← index payload e;
    '(vec, off) ← write_remapped_funcidx_vec payload (e + 1) index_map;
    Ret (write_u32 flags ++ write_u32 tableidx ++ rewritten ++ kind :: vec, off)
  else Panic.

Fixpoint element_section_loop (fuel : nat) (payload : bytes) (index_map : list (option Z)) (count off : Z)
  : outcome bytes :=
  if count <=? 0 then Ret [] else
  match fuel with
  | O => Panic
  | S fuel =>
      '(segment, off) ← element_segment payload index_map off;
      tail ← element_section_loop fuel payload index_map (count - 1) off;
      Ret (segment ++ tail)
  end.

Definition emit_remapped_element_section (s : Section_) (data : bytes) (index_map : list (option Z))
  : outcome bytes :=
  payload ← span_slice (sec_payload s) data;
  match read_u32 payload with
  | None => span_slice (sec_full s) data
  | Some (count, start_off) =>
      form ← all_segments_funcidx_form (S (length payload)) payload count start_off;
      if negb form then span_slice (sec_full s) data else
      segments ← element_section_loop (S (length payload)) payload index_map count start_off;
      Ret (encode_section (sec_id s) (write_u32 count ++ segments))
  end.

(** The export entries kept, as (name, kind, new index). *)
Fixpoint export_entries (fuel : nat) (payload : bytes) (index_map : list (option Z)) (count off : Z)
  : outcome (list (bytes * Z * Z)) :=
  if count <=? 0 then Ret [] else
  match fuel with
  | O => Panic
  | S fuel =>
      rest ← slice_from payload off;
      match read_u32 rest with
      | None => Ret []
      | Some (name_len, c) =>
          let name_start := off + c in
          let off := name_start + name_len in
          kind ← index payload off;
          let off := off + 1 in
          rest ← slice_from payload off;
          match read_u32 rest with
          | None => Ret []
          | Some (idx, c) =>
              let off := off + c in
              match (if kind =? 0x00 then get_flatten index_map idx else Some idx) with
              | None => export_entries fuel payload index_map (count - 1) off
              | Some new_index =>
                  name ← slice payload name_start (name_start + name_len);
                  es ← export_entries fuel payload index_map (count - 1) off;
                  Ret ((name, kind, new_index) :: es)
              end
          end
      end
  end.

Definition export_bytes (e : bytes * Z * Z) : bytes :=
  let '(name, kind, idx) := e in write_u32 (u32 (len name)) ++ name ++ kind :: write_u32 idx.

Definition emit_remapped_export_section (s : Section_) (data : bytes) (index_map : list (option Z))
  : outcome bytes :=
  payload ← span_slice (sec_payload s) data;
  match read_u32 payload with
  | None => span_slice (sec_full s) data
  | Some (count, off) =>
      es ← export_entries (S (length payload)) payload index_map count off;
      Ret (encode_section (sec_id s) (write_u32 (u32 (len es)) ++ mjoin (export_bytes <$> es)))
  end.

(** ** The pass *)

Definition emit_dce_section (m : WasmModule) (r : DceResult) (s : Section_) : outcome bytes :=
  let data := wm_data m in
  if sec_id s =? SECTION_FUNCTION then emit_function_section s data r
  else if sec_id s =? SECTION_CODE then emit_code_section m data r
  else if sec_id s =? SECTION_EXPORT then emit_remapped_export_section s data (index_map r)
  else if sec_id s =? SECTION_GLOBAL then emit_remapped_global_section s data (index_map r)
  else if sec_id s =? SECTION_ELEMENT then emit_remapped_element_section s data (index_map r)
  else if sec_id s =? SECTION_START then emit_remapped_start_section s data (index_map r)
  else span_slice (sec_full s) data.

Definition apply_with_remap (m : WasmModule) : outcome (bytes * FuncRemap) :=
  '(m, result) ← analyse m;
  let data := wm_data m in
  let num_defined := u32 (num_function_bodies m) in
  let num_total := u32 (num_imports result + num_defined) in
  if defined_kept result =? num_defined then Ret (data, identity num_total) else
  walkable ← all_bodies_walkable m;
  if negb walkable then Ret (data, identity num_total) else
  header ← slice data 0 8;
  sections ← mapM (emit_dce_section m result) (wm_sections m);
  Ret (header ++ mjoin sections, from_entries (index_map result)).

Definition dce_apply (m : WasmModule) : outcome bytes := r ← apply_with_remap m; Ret (fst r).

Definition test_module (exports : bytes) : bytes :=
  wasm_header ++ [1; 4; 1; 0x60; 0; 0] ++ [3; 4; 3; 0; 0; 0] ++ exports
  ++ [10; 10; 3; 2; 0; 0x0B; 2; 0; 0x0B; 2; 0; 0x0B].

Example dce_removes_unused :
  (m ← parse (test_module [7; 5; 1; 1; 95; 0; 0]);
   match m with Ok m => r ← analyse m; Ret (snd r) | Err _ => Panic end)
  = Ret (mkDce [Some 0; None; None] 0 1).
Proof. reflexivity. Qed.

Example dce_apply_shrinks_output :
  (m ← parse (test_module [7; 5; 1; 1; 95; 0; 0]);
   match m with Ok m => dce_apply m | Err _ => Panic end)
  = Ret (wasm_header ++ [1; 4; 1; 0x60; 0; 0] ++ [3; 2; 1; 0] ++ [7; 5; 1; 1; 95; 0; 0]
         ++ [10; 4; 1; 2; 0; 0x0B]).
Proof. reflexivity. Qed.
