(* ===== verification/DceFacts.v ===== *)
(** What dead function elimination computes, over instructions instead of bytes:
    the reference graph and the functions kept, the renaming of bodies, and
    the sections emitted. *)
From S2P Require Import Prelude Leb128 Opcode Tokens WasmModule Provenance MutModule Scan Remap Dce.

(** ** References of an instruction *)

Definition refers (op : Z) (t : token) : option Z :=
  if opcode t =? op then fst <$> read_u32 (tl t) else None.

Definition below_total (total : Z) (o : option Z) : option Z :=
  match o with Some t => if t <? total then Some t else None | None => None end.

(** The functions that [ts] calls, and those it takes a reference to. *)
Definition call_targets (total : Z) (ts : list token) : list Z := omap (fun t => below_total total (refers OP_CALL t)) ts.
Definition ref_targets (total : Z) (ts : list token) : list Z := omap (fun t => below_total total (refers OP_REF_FUNC t)) ts.

(** The instruction with its function index renamed. *)
Definition rename (index_map : list (option Z)) (t : token) : token :=
  match (if (opcode t =? OP_CALL) || (opcode t =? OP_REF_FUNC) then read_u32 (tl t) else None) with
  | Some (target, _) =>
      let new := default target (get_flatten index_map target) in
      if negb (new =? target) then opcode t :: write_u32 new else t
  | None => t
  end.

Lemma complete_func t : complete t -> (opcode t =? OP_CALL) || (opcode t =? OP_REF_FUNC) = true ->
  exists v, read_u32 (tl t) = Some (v, len (tl t)) /\ t = opcode t :: tl t /\ is_uint 32 v.
Proof.
  intros Ht Hop. destruct t as [|op imm]; [done|]. change (opcode (op :: imm)) with op in *. cbn [tl].
  apply complete_cons in Ht.
  assert (Hl : leb_len imm = Some (len imm)).
  { apply orb_true_iff in Hop as [->%Z.eqb_eq| ->%Z.eqb_eq]; exact Ht. }
  unfold leb_len in Hl. apply fmap_Some in Hl as ([v n] & Hr & ->). exists v. split_and!; [done..|].
  by apply read_u32_bounds in Hr as [? _].
Qed.

Section reading.
Context (body pre : bytes) (t : token) (rest : bytes).
Context (Hbody : body = pre ++ t ++ rest) (Ht : complete t).

Lemma read_func : (opcode t =? OP_CALL) || (opcode t =? OP_REF_FUNC) = true ->
  exists v, slice_from body (len pre + 1) = Ret (tl t ++ rest) /\
    read_u32 (tl t ++ rest) = Some (v, len (tl t)) /\ read_u32 (tl t) = Some (v, len (tl t)) /\
    len t = 1 + len (tl t) /\ is_uint 32 v.
Proof using Hbody Ht.
  intros Hop. destruct (complete_func _ Ht Hop) as (v & Hr & E & Hv). exists v.
  split_and!; [|by apply read_u32_app|done|by rewrite E at 1; rewrite len_cons|done].
  rewrite Hbody, E. cbn [tl]. replace (pre ++ (opcode t :: tl t) ++ rest) with ((pre ++ [opcode t]) ++ tl t ++ rest)
    by (by rewrite <- app_assoc).
  replace (len pre + 1) with (len (pre ++ [opcode t])) by (by rewrite len_app). apply slice_from_len.
Qed.
End reading.

(** ** The reference graph *)

Lemma store_row {A} (done : list A) x rest v : store (done ++ x :: rest) (len done) v = Ret (done ++ v :: rest).
Proof. apply store_app. Qed.

(** Scanning a body appends its calls to its row and its references to the roots. *)
Lemma collect_refs_spec body total ts : Forall complete ts -> forall pre rows row rest roots,
  body = pre ++ mjoin ts ->
  collect_refs body total (len rows) (spans_at (len pre) ts) (rows ++ row :: rest) roots
  = Ret (rows ++ (row ++ call_targets total ts) :: rest, roots ++ ref_targets total ts).
Proof.
  induction 1 as [|t ts Ht _ IH]; intros pre rows row rest roots Hb; cbn [spans_at collect_refs].
  { by rewrite !app_nil_r. }
  assert (Hb' : body = (pre ++ t) ++ mjoin ts) by (by rewrite Hb, <- app_assoc).
  specialize (IH (pre ++ t)). rewrite len_app in IH.
  rewrite (read_opcode body pre t (mjoin ts)) by done. cbn [mbind outcome_bind].
  unfold call_targets, ref_targets, refers, below_total in *. cbn [omap list_omap].
  destruct (Z.eqb_spec (opcode t) OP_CALL) as [E|E]; [|destruct (Z.eqb_spec (opcode t) OP_REF_FUNC) as [E'|E']].
  - rewrite E. change (OP_CALL =? OP_REF_FUNC) with false. cbn iota.
    destruct (read_func body pre t (mjoin ts) Hb Ht) as (v & Hs & Hr & Hr' & _); [by rewrite E|].
    rewrite Hs. cbn [mbind outcome_bind]. rewrite Hr, Hr'. cbn [fmap option_fmap option_map fst].
    destruct (v <? total); [|by apply IH]. rewrite index_app_cons by done. cbn [mbind outcome_bind].
    rewrite store_row. cbn [mbind outcome_bind]. rewrite IH by done. by rewrite <- app_assoc.
  - destruct (read_func body pre t (mjoin ts) Hb Ht) as (v & Hs & Hr & Hr' & _); [by rewrite E'|].
    rewrite Hs. cbn [mbind outcome_bind]. rewrite Hr, Hr'. cbn [fmap option_fmap option_map fst].
    destruct (v <? total); rewrite IH by done; by rewrite <- ?app_assoc.
  - by apply IH.
Qed.

(** The body [b] of the buffer holds the locals and the instructions [c]. *)
Definition code_of (data : bytes) (b : FunctionBody) (c : bytes * list token) : Prop :=
  exists body, span_slice (fb_body b) data = Ret body /\ decodes body (fst c) (snd c).

Lemma decodes_walk body locals ts : decodes body locals ts ->
  skip_locals body = Some (len locals) /\ walk body (len locals) = Some (spans_at (len locals) ts).
Proof. intros [-> H1 H2]. split; [done|by apply walk_join]. Qed.

Lemma scan_all_bodies_spec data total bodies codes : Forall2 (code_of data) bodies codes ->
  forall rows roots, total = len rows + len bodies -> total < 2 ^ 32 ->
  scan_all_bodies data total (len rows) bodies (rows ++ replicate (length bodies) []) roots
  = Ret (Some (rows ++ ((fun c => call_targets total (snd c)) <$> codes),
               roots ++ mjoin ((fun c => ref_targets total (snd c)) <$> codes))).
Proof.
  induction 1 as [|b [locals ts] bodies codes (body & Hb & Hd) _ IH]; intros rows roots Hn Ht; cbn [scan_all_bodies].
  { by rewrite !app_nil_r. }
  cbn [fst snd] in Hd. rewrite Hb. cbn [mbind outcome_bind].
  destruct (decodes_walk _ _ _ Hd) as [-> ->]. cbn [length replicate].
  rewrite (collect_refs_spec body total ts (dec_complete _ _ _ Hd) locals) by apply (dec_bytes _ _ _ Hd).
  cbn [mbind outcome_bind]. rewrite len_cons in Hn. pose proof (len_nonneg rows). pose proof (len_nonneg bodies).
  rewrite wrap_id by (unfold is_uint; lia).
  specialize (IH (rows ++ [call_targets total ts]) (roots ++ ref_targets total ts)).
  rewrite len_app in IH. change (len [call_targets total ts]) with 1 in IH. rewrite <- !app_assoc in IH.
  rewrite app_nil_l. apply IH; lia.
Qed.

(** ** Renumbering *)

(** The functions flagged [true] numbered from [new]. *)
Fixpoint compact (flags : list bool) (new : Z) : list (option Z) :=
  match flags with
  | [] => []
  | true :: flags => Some new :: compact flags (new + 1)
  | false :: flags => None :: compact flags new
  end.

Fixpoint count_kept (flags : list bool) : Z :=
  match flags with [] => 0 | b :: flags => (if b then 1 else 0) + count_kept flags end.

Lemma count_kept_bounds flags : 0 <= count_kept flags <= len flags.
Proof.
  induction flags as [|b flags IH]; cbn [count_kept]; [unfold len; simpl; lia|].
  rewrite len_cons. destruct b.
  - lia.
  - lia.
Qed.

Lemma count_kept_app a b : count_kept (a ++ b) = count_kept a + count_kept b.
Proof. induction a as [|[] a IH]; cbn [count_kept app]; lia. Qed.

Lemma count_kept_replicate n : count_kept (replicate n true) = Z.of_nat n.
Proof. induction n as [|n IH]; cbn [replicate count_kept]; lia. Qed.

Lemma compact_length flags new : length (compact flags new) = length flags.
Proof. revert new. induction flags as [|[] flags IH]; intros new; cbn [compact length]; by rewrite ?IH. Qed.

Lemma compact_app a b new : compact (a ++ b) new = compact a new ++ compact b (new + count_kept a).
Proof.
  revert new. induction a as [|[] a IH]; intros new; cbn [compact app count_kept]; [by rewrite Z.add_0_r|..];
    rewrite IH; do 2 f_equal; f_equal; lia.
Qed.

(** A kept function gets the number of kept functions before it. *)
Lemma compact_lookup flags new k : compact flags new !! k
  = (fun b : bool => if b then Some (new + count_kept (take k flags)) else None) <$> flags !! k.
Proof.
  revert new k. induction flags as [|[] flags IH]; intros new [|k]; cbn [compact lookup list_lookup take count_kept]; try done.
  - simpl. by rewrite Z.add_0_r.
  - etrans; [apply IH|]. destruct (flags !! k) as [[]|]; simpl; try done. do 2 f_equal. lia.
Qed.

Lemma compact_identity n new : compact (replicate n true) new = (fun i => Some (new + Z.of_nat i)) <$> seq 0 n.
Proof.
  revert new. induction n as [|n IH]; intros new; [done|]. cbn [replicate compact seq].
  rewrite IH, <- fmap_S_seq. rewrite !fmap_cons, <- list_fmap_compose. f_equal; [by rewrite Z.add_0_r|].
  apply list_fmap_ext. intros i x Hx. simpl. f_equal. lia.
Qed.

(** [number_defined] numbers the defined functions after the imports. *)
Lemma number_defined_spec pre flags : forall p new, p = len pre -> 0 <= new -> new + len flags < 2 ^ 32 ->
  number_defined (pre ++ flags) p (length flags) new = (compact flags new, count_kept flags).
Proof.
  revert pre. induction flags as [|b flags IH]; intros pre p new Hp Hn Hl; [done|].
  rewrite len_cons in Hl. pose proof (len_nonneg flags). cbn [length number_defined].
  rewrite get_app_cons by done. simpl default. specialize (IH (pre ++ [b])). rewrite <- app_assoc in IH.
  change ([b] ++ flags) with (b :: flags) in IH. pose proof (count_kept_bounds flags).
  destruct b; cbn [compact count_kept].
  - rewrite (IH (p + 1) (u32 (new + 1))) by (rewrite ?len_app, ?wrap_id by (unfold is_uint; lia); subst; done || lia).
    by rewrite !wrap_id by (unfold is_uint; lia).
  - rewrite (IH (p + 1) new) by (rewrite ?len_app; subst; done || lia). by rewrite Z.add_0_l.
Qed.

(** ** Scanned indices are indices *)

Abbreviation naturals := (Forall (fun i => 0 <= i)).

Lemma scan_const_expr_naturals fuel d : forall off ts e ts', naturals ts ->
  scan_const_expr_loop fuel d off ts = Some (e, ts') -> naturals ts'.
Proof.
  induction fuel as [|fuel IH]; intros off ts e ts' Hts; cbn [scan_const_expr_loop];
    (destruct (negb _); [done|]); [done|].
  destruct (get d off) as [op|]; [|done]. cbn [mbind option_bind].
  destruct (op =? 11); [by intros [= <- <-]|]. destruct (instr_len d off) as [n|]; [|done]. cbn [mbind option_bind].
  apply IH. destruct (op =? OP_REF_FUNC); [|done]. destruct (leb_from d (off + 1)) as [[t c]|] eqn:E; [|done].
  apply Forall_app. split; [done|]. constructor; [|done]. unfold leb_from in E.
  apply bind_Some in E as (x & _ & E). apply read_u32_bounds in E as [E _]. unfold is_uint in E. lia.
Qed.

Lemma leb_from_natural d off v c : leb_from d off = Some (v, c) -> 0 <= v.
Proof.
  unfold leb_from. intros (x & _ & E)%bind_Some. apply read_u32_bounds in E as [E _]. unfold is_uint in E. lia.
Qed.

Lemma read_funcidx_vec_naturals d off ts e ts' : naturals ts ->
  read_funcidx_vec d off ts = Some (e, ts') -> naturals ts'.
Proof.
  intros Hts. unfold read_funcidx_vec. intros ([n c] & _ & H)%bind_Some.
  apply (for_count_preserves _ (fun s => naturals (snd s))) in H; [done| |done].
  intros [o l] s' Hl E. unfold read_funcidx in E. apply bind_Some in E as ([i c'] & Hi & [= <-]). simpl in *.
  apply Forall_app. split; [done|]. constructor; [|done]. by eapply leb_from_natural.
Qed.

Lemma scan_globals_naturals d ts : scan_globals_for_ref_func d = Some ts -> naturals ts.
Proof.
  unfold scan_globals_for_ref_func. intros ([n off] & _ & H)%bind_Some. apply fmap_Some in H as ([o l] & H & ->).
  apply (for_count_preserves _ (fun s => naturals (snd s))) in H; [done| |done].
  intros [o1 l1] s' Hl E. unfold scan_global in E. destruct (_ <? _); [done|].
  apply bind_Some in E as ([e l2] & Hs & [= <-]). simpl in *. apply Forall_app. split; [done|].
  by eapply scan_const_expr_naturals; [|exact Hs].
Qed.

Lemma scan_elements_naturals d ts : scan_elements_funcidx d = Some ts -> naturals ts.
Proof.
  unfold scan_elements_funcidx. intros ([n off] & _ & H)%bind_Some. apply fmap_Some in H as ([o l] & H & ->).
  apply (for_count_preserves _ (fun s => naturals (snd s))) in H; [done| |done].
  intros [o1 l1] [o2 l2] Hl E. unfold scan_segment in E. apply bind_Some in E as ([flags c] & _ & E).
  repeat match type of E with
    | (if ?b then _ else _) = _ => destruct b
    | (_ ≫= _) = Some _ => apply bind_Some in E as ([? ?] & _ & E)
    end; try done; by eapply read_funcidx_vec_naturals; [|exact E].
Qed.

Lemma exported_naturals m l : exported_function_indices m = Ret l -> naturals l.
Proof.
  assert (Hloop : forall fuel p count off l, exported_loop fuel p count off = Ret l -> naturals l).
  { induction fuel as [|fuel IH]; intros p count off l'; cbn [exported_loop];
      (destruct (count <=? 0); [by intros [= <-]|]); [done|].
    intros H. outcome_inv; try done.
    repeat (case_match; outcome_inv; try done); [|by eapply IH]. constructor; [|by eapply IH].
    match goal with H : read_u32 _ = Some (z1, _) |- _ => apply read_u32_bounds in H as [Hz _] end.
    unfold is_uint in Hz. lia. }
  unfold exported_function_indices. destruct (section m SECTION_EXPORT); [|by intros [= <-]].
  intros H. outcome_inv. case_match; outcome_inv; [|done]. case_match. by eapply Hloop.
Qed.

(** ** The analysis *)

(** What the analysis reads from a module: its bodies as code, the number of
    imported functions, and the references of the other sections. *)
Record dce_facts := mkDceFacts {
  df_codes : list (bytes * list token);
  df_imports : Z;
  df_exports : list Z;
  df_start : option Z;
  df_globals : list Z;
  df_elements : list Z;
}.

Definition df_total (d : dce_facts) : Z := df_imports d + len (df_codes d).

Record dce_reads (m m' : WasmModule) (d : dce_facts) : Prop := {
  dr_parsed : ensure_function_bodies_parsed m = Ret m';
  dr_bodies : wm_function_bodies m' = Some (function_bodies m');
  dr_codes : Forall2 (code_of (wm_data m')) (function_bodies m') (df_codes d);
  dr_imports : count_func_imports_pub m' = Ret (df_imports d);
  dr_elements : section_targets m' SECTION_ELEMENT scan_elements_funcidx = Ret (Some (df_elements d));
  dr_globals : section_targets m' SECTION_GLOBAL scan_globals_for_ref_func = Ret (Some (df_globals d));
  dr_exports : exported_function_indices m' = Ret (df_exports d);
  dr_start : start_function m' = Ret (df_start d);
  dr_size : 0 <= df_imports d /\ df_total d < 2 ^ 32;
}.

(** The functions that a function refers to by calling them. *)
Definition ref_graph (d : dce_facts) : list (list Z) :=
  replicate (Z.to_nat (df_imports d)) [] ++ ((fun c => call_targets (df_total d) (snd c)) <$> df_codes d).

(** The functions whose references come from outside the call graph. *)
Definition ref_roots (d : dce_facts) : list Z :=
  df_exports d ++ option_list (df_start d) ++ mjoin ((fun c => ref_targets (df_total d) (snd c)) <$> df_codes d)
  ++ df_globals d ++ df_elements d ++ (Z.of_nat <$> seq 0 (Z.to_nat (df_imports d))).

Definition has_roots (d : dce_facts) : Prop :=
  df_exports d <> [] \/ df_start d <> None \/
  mjoin ((fun c => ref_targets (df_total d) (snd c)) <$> df_codes d) <> [] \/
  df_globals d <> [] \/ df_elements d <> [].

Lemma below_total_Some total o j : below_total total o = Some j -> o = Some j /\ j < total.
Proof. unfold below_total. destruct o as [t|]; [|done]. destruct (Z.ltb_spec t total); [by intros [= <-]|done]. Qed.

Lemma refers_natural op t j : refers op t = Some j -> 0 <= j.
Proof.
  unfold refers. destruct (_ =? _); [|done]. intros ([v n] & Hr & ->)%fmap_Some.
  apply read_u32_bounds in Hr as [Hv _]. unfold is_uint in Hv. simpl. lia.
Qed.

Lemma targets_bounds total op ts : Forall (fun j => 0 <= j < total) (omap (fun t => below_total total (refers op t)) ts).
Proof.
  apply Forall_forall. intros j (t & _ & [Hr Hj]%below_total_Some)%list_elem_of_omap.
  by apply refers_natural in Hr.
Qed.

Lemma ref_graph_len d : 0 <= df_imports d -> len (ref_graph d) = df_total d.
Proof.
  intros Hn. unfold ref_graph, df_total. rewrite len_app. unfold len. rewrite length_replicate, length_fmap. lia.
Qed.

Lemma ref_graph_in_bounds d : 0 <= df_imports d -> in_bounds (ref_graph d).
Proof.
  intros Hn. unfold in_bounds. rewrite ref_graph_len by done. unfold ref_graph. apply Forall_app. split.
  - by apply Forall_replicate.
  - apply Forall_fmap, Forall_forall. intros c _. apply targets_bounds.
Qed.

Lemma section_targets_naturals m id scan ts : (forall p ts, scan p = Some ts -> naturals ts) ->
  section_targets m id scan = Ret (Some ts) -> naturals ts.
Proof.
  intros Hs. unfold section_targets. destruct (section m id) as [s|]; [|by intros [= <-]].
  intros H. outcome_inv. by eapply Hs.
Qed.

Lemma start_natural m s : start_function m = Ret s -> naturals (option_list s).
Proof.
  unfold start_function. destruct (section m SECTION_START); [|by intros [= <-]]. intros H. outcome_inv.
  destruct (read_u32 _) as [[v n]|] eqn:Er; [|done]. apply read_u32_bounds in Er as [Er _]. unfold is_uint in Er.
  repeat constructor. simpl. lia.
Qed.

Lemma ref_roots_naturals m m' d : dce_reads m m' d -> naturals (ref_roots d).
Proof.
  intros H. unfold ref_roots. rewrite !Forall_app. split_and!.
  - eapply exported_naturals, dr_exports, H.
  - eapply start_natural, dr_start, H.
  - apply Forall_forall. intros j (l & Hj & (c & -> & _)%list_elem_of_fmap)%list_elem_of_join.
    pose proof (targets_bounds (df_total d) OP_REF_FUNC (snd c)) as Hb. rewrite Forall_forall in Hb. by apply Hb.
  - eapply section_targets_naturals; [exact scan_globals_naturals|apply (dr_globals _ _ _ H)].
  - eapply section_targets_naturals; [exact scan_elements_naturals|apply (dr_elements _ _ _ H)].
  - apply Forall_fmap, Forall_forall. intros i _. simpl. lia.
Qed.

Lemma no_roots_spec d : has_roots d ->
  no_roots [df_exports d; mjoin ((fun c => ref_targets (df_total d) (snd c)) <$> df_codes d); df_globals d; df_elements d]
    (df_start d) = false.
Proof.
  unfold has_roots, no_roots. generalize (mjoin ((fun c => ref_targets (df_total d) (snd c)) <$> df_codes d)).
  intros refs. cbn [forallb]. destruct (df_exports d), refs, (df_globals d), (df_elements d), (df_start d);
    simpl; try done. intros H. exfalso. tauto.
Qed.

(** The imports are roots, so they are the first functions kept. *)
Lemma reach_split d reach : 0 <= df_imports d -> len reach = df_total d ->
  (forall i, marked reach i <-> reachable (ref_graph d) (ref_roots d) i) ->
  exists flags, reach = replicate (Z.to_nat (df_imports d)) true ++ flags /\ len flags = len (df_codes d).
Proof.
  intros Hn Hl Hm. set (n := Z.to_nat (df_imports d)). exists (drop n reach).
  unfold df_total in Hl. pose proof (len_nonneg (df_codes d)).
  split; [|rewrite len_drop; lia]. rewrite <- (take_drop n reach) at 1. f_equal.
  symmetry. apply replicate_as_Forall. split; [rewrite length_take; unfold len in Hl; lia|].
  apply Forall_lookup. intros i b Hb. pose proof (lookup_lt_Some _ _ _ Hb) as Hi. rewrite length_take in Hi.
  rewrite lookup_take_lt in Hb by lia.
  assert (Hmk : marked reach (Z.of_nat i)).
  { apply Hm. exists (Z.of_nat i). split; [|split; [rewrite ref_graph_len by done; unfold df_total; lia|constructor]].
    apply list_elem_of_In. unfold ref_roots. rewrite !elem_of_app. do 5 right. apply list_elem_of_fmap. exists i.
    split; [done|]. apply elem_of_seq. lia. }
  unfold marked in Hmk. apply get_lookup in Hmk as [_ Hmk]. rewrite Nat2Z.id, Hb in Hmk. by injection Hmk.
Qed.

Lemma analyse_spec m m' d : dce_reads m m' d -> has_roots d ->
  exists reach, len reach = df_total d /\
  (forall i, marked reach i <-> reachable (ref_graph d) (ref_roots d) i) /\
  firstn (Z.to_nat (df_imports d)) reach = replicate (Z.to_nat (df_imports d)) true /\
  analyse m = Ret (m', mkDce (compact reach 0) (df_imports d)
                         (count_kept (drop (Z.to_nat (df_imports d)) reach))).
Proof.
  intros H Hroots. pose proof H as [H1 H2 H3 H4 H5 H6 H7 H8 [Hn Ht]]. set (n := Z.to_nat (df_imports d)).
  pose proof (len_nonneg (df_codes d)). pose proof (Forall2_length _ _ _ H3) as Hbl.
  assert (Hnum : num_function_bodies m' = len (df_codes d)).
  { unfold num_function_bodies. rewrite H2. unfold len. by rewrite Hbl. }
  destruct (reachable_from_spec (ref_graph d) (ref_roots d) (ref_graph_in_bounds d Hn) (ref_roots_naturals _ _ _ H))
    as (reach & Hr & Hl & Hm). rewrite ref_graph_len in Hl by done.
  destruct (reach_split d reach Hn Hl Hm) as (flags & Hf & Hfl). fold n in Hf.
  exists reach. split; [done|]. split; [done|]. split; [by rewrite Hf, take_app_length'; [|rewrite length_replicate]|].
  unfold analyse. rewrite H1. cbn [mbind outcome_bind]. rewrite H4. cbn [mbind outcome_bind].
  unfold df_total in *. rewrite Hnum, (wrap_id 32 (len _)) by (unfold is_uint; lia).
  rewrite (wrap_id 32 (df_imports d + _)) by (unfold is_uint; lia).
  rewrite H5. cbn [mbind outcome_bind]. rewrite H6. cbn [mbind outcome_bind].
  pose proof (scan_all_bodies_spec (wm_data m') (df_total d) _ _ H3 (replicate n []) []) as Hscan.
  assert (Hrl : len (replicate n (@nil Z)) = df_imports d) by (unfold len, n; rewrite length_replicate; lia).
  rewrite Hrl in Hscan.
  replace (replicate n [] ++ replicate (length (function_bodies m')) (@nil Z))
    with (replicate (Z.to_nat (df_imports d + len (df_codes d))) (@nil Z)) in Hscan.
  2:{ rewrite <- replicate_add. f_equal. unfold n, len. lia. }
  unfold df_total in Hscan. rewrite Hscan; [|unfold len; lia|done]. cbn [mbind outcome_bind].
  rewrite H7. cbn [mbind outcome_bind]. rewrite H8. cbn [mbind outcome_bind]. rewrite app_nil_l.
  pose proof (no_roots_spec d Hroots) as Hno. unfold df_total in Hno. rewrite Hno.
  change (replicate n [] ++ ((fun c => call_targets (df_imports d + len (df_codes d)) (snd c)) <$> df_codes d))
    with (ref_graph d).
  match goal with |- context [reachable_from _ ?rs] => change rs with (ref_roots d) end.
  rewrite Hr. cbn [mbind outcome_bind].
  replace (Z.to_nat (len (df_codes d))) with (length flags) by (unfold len in *; lia).
  rewrite Hf, (number_defined_spec (replicate n true) flags) by
    (unfold len in *; rewrite ?length_replicate; unfold n; lia).
  rewrite drop_app_length', compact_app, compact_identity by (by rewrite length_replicate).
  do 3 f_equal. f_equal. f_equal. rewrite count_kept_replicate. unfold n. lia.
Qed.

(** ** Renaming bodies *)

Definition index_map_ok (index_map : list (option Z)) : Prop :=
  forall i j, get_flatten index_map i = Some j -> is_uint 32 j.

Lemma rename_cases index_map t : complete t ->
  rename index_map t = t \/
  exists v n new, refers (opcode t) t = Some v /\ read_u32 (tl t) = Some (v, n) /\ n = len (tl t) /\
    get_flatten index_map v = Some new /\ new <> v /\ rename index_map t = opcode t :: write_u32 new /\
    ((opcode t =? OP_CALL) || (opcode t =? OP_REF_FUNC) = true).
Proof.
  intros Ht. unfold rename. destruct ((opcode t =? OP_CALL) || (opcode t =? OP_REF_FUNC)) eqn:Hop; [|by left].
  destruct (complete_func t Ht Hop) as (v & Hr & _ & _). rewrite Hr.
  destruct (get_flatten index_map v) as [new|] eqn:Hg; simpl default; [|rewrite Z.eqb_refl; by left].
  destruct (Z.eqb_spec new v) as [->|Hne]; [by left|]. right. exists v, (len (tl t)), new. unfold refers.
  rewrite Z.eqb_refl, Hr. by split_and!.
Qed.

Lemma rename_opcode index_map t : complete t -> opcode (rename index_map t) = opcode t.
Proof. intros Ht. by destruct (rename_cases index_map t Ht) as [->|(v & n & new & _ & _ & _ & _ & _ & -> & _)]. Qed.

Lemma rename_complete index_map t : index_map_ok index_map -> complete t -> complete (rename index_map t).
Proof.
  intros Hm Ht. destruct (rename_cases index_map t Ht) as [->|(v & n & new & _ & _ & _ & Hg & _ & -> & Hop)]; [done|].
  apply complete_cons.
  assert (Hl : forall op d, (op =? OP_CALL) || (op =? OP_REF_FUNC) = true -> imm_len op d = leb_len d).
  { intros op d [->%Z.eqb_eq| ->%Z.eqb_eq]%orb_true_iff; reflexivity. }
  rewrite Hl by done. unfold leb_len. rewrite <- (app_nil_r (write_u32 new)) at 1.
  by rewrite read_u32_write by (by eapply Hm).
Qed.

(** A renamed instruction refers to the renamed function. *)
Lemma refers_rename index_map op t : index_map_ok index_map -> complete t -> op = OP_CALL \/ op = OP_REF_FUNC ->
  refers op (rename index_map t) = (fun v => default v (get_flatten index_map v)) <$> refers op t.
Proof.
  intros Hm Ht Hop. unfold refers at 1. rewrite rename_opcode by done. unfold refers, rename.
  destruct (Z.eqb_spec (opcode t) op) as [E|]; [|done]. rewrite E.
  replace ((op =? OP_CALL) || (op =? OP_REF_FUNC)) with true by (by destruct Hop as [->| ->]).
  destruct (complete_func t Ht) as (v & Hr & _ & _); [rewrite E; by destruct Hop as [->| ->]|]. rewrite Hr.
  cbn [fmap option_fmap option_map fst].
  destruct (get_flatten index_map v) as [new|] eqn:Hg; simpl default.
  - destruct (Z.eqb_spec new v) as [->|]; cbn [negb]; [by rewrite Hr|]. cbn [tl].
    rewrite <- (app_nil_r (write_u32 new)), read_u32_write; [done|by eapply Hm].
  - rewrite Z.eqb_refl. cbn [negb]. by rewrite Hr.
Qed.

Lemma rewrite_loop_spec body index_map ts : Forall complete ts -> forall pre keep out,
  body = pre ++ keep ++ mjoin ts ->
  exists out' cursor tail, rewrite_loop body index_map (spans_at (len (pre ++ keep)) ts) out (len pre) = Ret (out', cursor) /\
    slice_from body cursor = Ret tail /\ out' ++ tail = out ++ keep ++ mjoin (rename index_map <$> ts).
Proof.
  induction 1 as [|t ts Ht _ IH]; intros pre keep out Hb; cbn [spans_at rewrite_loop].
  { exists out, (len pre), (keep ++ []). split_and!; [done|rewrite Hb; apply slice_from_len|done]. }
  assert (Hb1 : body = (pre ++ keep) ++ t ++ mjoin ts) by (by rewrite Hb, <- app_assoc).
  rewrite (read_opcode body (pre ++ keep) t (mjoin ts) Hb1 Ht). cbn [mbind outcome_bind].
  assert (Hkeep : rename index_map t = t -> exists out' cursor tail,
    rewrite_loop body index_map (spans_at (len (pre ++ keep) + len t) ts) out (len pre) = Ret (out', cursor) /\
    slice_from body cursor = Ret tail /\ out' ++ tail = out ++ keep ++ mjoin (rename index_map <$> (t :: ts))).
  { intros E. destruct (IH pre (keep ++ t) out) as (out' & cursor & tail & Hrun & Hs & Ho); [by rewrite Hb, <- app_assoc|].
    exists out', cursor, tail. split_and!; [|done|].
    - by rewrite app_assoc, len_app in Hrun.
    - rewrite Ho, fmap_cons, E. by rewrite <- !app_assoc. }
  unfold rename in Hkeep at 1.
  destruct ((opcode t =? OP_CALL) || (opcode t =? OP_REF_FUNC)) eqn:Hop; [|by apply Hkeep].
  destruct (read_func body (pre ++ keep) t (mjoin ts) Hb1 Ht Hop) as (v & Hs & Hr & Hr' & Hl & _).
  rewrite Hs. cbn [mbind outcome_bind]. rewrite Hr. rewrite Hr' in Hkeep.
  set (new := default v (get_flatten index_map v)) in *.
  destruct (Z.eqb_spec new v) as [E|E]; cbn [negb] in *; [by apply Hkeep|].
  assert (Hsl : slice body (len pre) (len (pre ++ keep)) = Ret keep) by (rewrite Hb, len_app; apply slice_app).
  rewrite Hsl. cbn [mbind outcome_bind].
  replace (len (pre ++ keep) + 1 + len (tl t)) with (len (pre ++ keep ++ t)) by (rewrite !len_app; lia).
  destruct (IH (pre ++ keep ++ t) [] ((out ++ keep) ++ opcode t :: write_u32 new)) as (out' & cursor & tail & Hrun & Hst & Ho);
    [by rewrite Hb, <- !app_assoc|].
  exists out', cursor, tail. split_and!; [|done|].
  - rewrite app_nil_r in Hrun. rewrite <- Hrun. do 2 f_equal. rewrite !len_app. lia.
  - rewrite Ho, fmap_cons. unfold rename at 2. rewrite Hop, Hr'. fold new.
    destruct (Z.eqb_spec new v); [done|]. cbn [negb]. by rewrite <- !app_assoc.
Qed.

Lemma rewrite_body_spec body locals ts index_map : decodes body locals ts ->
  rewrite_body body index_map = Ret (Some (locals ++ mjoin (rename index_map <$> ts))).
Proof.
  intros Hd. unfold rewrite_body. destruct (decodes_walk _ _ _ Hd) as [-> ->].
  pose proof (dec_bytes _ _ _ Hd) as Hb.
  assert (Hh : slice body 0 (len locals) = Ret locals) by (rewrite Hb; apply slice_prefix).
  rewrite Hh. cbn [mbind outcome_bind].
  destruct (rewrite_loop_spec body index_map ts (dec_complete _ _ _ Hd) locals [] locals Hb) as (out & cursor & tail & Hr & Hs & Ho).
  rewrite app_nil_r in Hr. rewrite Hr. cbn [mbind outcome_bind]. rewrite Hs. cbn [mbind outcome_bind]. by rewrite Ho.
Qed.

Lemma rename_decodes body locals ts index_map : index_map_ok index_map -> decodes body locals ts ->
  decodes (locals ++ mjoin (rename index_map <$> ts)) locals (rename index_map <$> ts).
Proof.
  intros Hm [Hb Hl Hts]. constructor; [done| |].
  - apply skip_locals_app, (shrink_skip_locals locals (mjoin ts)); [by rewrite <- Hb|done].
  - apply Forall_fmap. eapply Forall_impl; [exact Hts|]. intros t Ht. by apply rename_complete.
Qed.

(** ** Numbering and flags *)

Lemma get_flatten_compact reach i : get_flatten (compact reach 0) i
  = match get reach i with Some true => Some (count_kept (take (Z.to_nat i) reach)) | _ => None end.
Proof.
  unfold get_flatten, get. replace (len (compact reach 0)) with (len reach) by (unfold len; by rewrite compact_length).
  destruct (_ && _); [|done]. rewrite compact_lookup. by destruct (reach !! Z.to_nat i) as [[]|].
Qed.

Lemma compact_kept reach i : is_Some (get_flatten (compact reach 0) i) <-> marked reach i.
Proof.
  rewrite get_flatten_compact. unfold marked. destruct (get reach i) as [[]|]; (split; [intros [? ?]|intros ?]); done.
Qed.

Lemma compact_ok reach : len reach < 2 ^ 32 -> index_map_ok (compact reach 0).
Proof.
  intros Hl i j. rewrite get_flatten_compact. destruct (get reach i) as [[]|]; [|done..]. intros [= <-].
  pose proof (count_kept_bounds (take (Z.to_nat i) reach)). rewrite len_take in *. unfold is_uint. lia.
Qed.

(** The elements flagged [true]. *)
Fixpoint kept {A} (flags : list bool) (l : list A) : list A :=
  match flags, l with
  | true :: flags, x :: l => x :: kept flags l
  | false :: flags, _ :: l => kept flags l
  | _, _ => []
  end.

Lemma kept_len {A} (l : list A) : forall flags, length flags = length l -> len (kept flags l) = count_kept flags.
Proof.
  induction l as [|x l IH]; intros [|[] flags] Hl; simpl in Hl; try done; cbn [kept count_kept].
  - rewrite len_cons, IH by lia. done.
  - rewrite IH by lia. done.
Qed.

(** The kept element after [k] others of the kept is the one they precede. *)
Lemma kept_lookup {A} (l : list A) : forall flags k x, flags !! k = Some true -> l !! k = Some x ->
  kept flags l !! Z.to_nat (count_kept (take k flags)) = Some x.
Proof.
  induction l as [|y l IH]; intros [|b flags] [|k] x Hf Hx; try done; cbn [take count_kept kept].
  - injection Hf as ->. done.
  - specialize (IH flags k x Hf Hx). pose proof (count_kept_bounds (take k flags)). destruct b; [|done].
    by replace (Z.to_nat (1 + count_kept (take k flags))) with (S (Z.to_nat (count_kept (take k flags)))) by lia.
Qed.

(** [flags] says which functions from index [base] on the map keeps. *)
Definition flags_of (index_map : list (option Z)) (base : Z) (flags : list bool) : Prop :=
  forall k b, flags !! k = Some b -> (b = true <-> is_Some (get_flatten index_map (base + Z.of_nat k))).

Lemma flags_of_cons index_map base b flags : flags_of index_map base (b :: flags) ->
  (b = true <-> is_Some (get_flatten index_map base)) /\ flags_of index_map (base + 1) flags.
Proof.
  intros H. split; [specialize (H 0%nat b eq_refl); by rewrite Z.add_0_r in H|].
  intros k b' Hk. specialize (H (S k) b' Hk). by replace (base + 1 + Z.of_nat k) with (base + Z.of_nat (S k)) by lia.
Qed.

Lemma flags_of_compact reach n : (n <= length reach)%nat -> flags_of (compact reach 0) (Z.of_nat n) (drop n reach).
Proof.
  intros Hn k b Hk. rewrite lookup_drop in Hk. rewrite compact_kept. unfold marked, get.
  pose proof (lookup_lt_Some _ _ _ Hk). replace ((0 <=? Z.of_nat n + Z.of_nat k) && (Z.of_nat n + Z.of_nat k <? len reach))
    with true by (unfold len; lia).
  replace (Z.to_nat (Z.of_nat n + Z.of_nat k)) with (n + k)%nat by lia. rewrite Hk. by destruct b.
Qed.
