(* ===== verification/DceSections.v ===== *)
(** The sections dead function elimination emits, from the contents of the
    sections it reads: function types, exports, the start function, globals,
    element segments and code. *)
From S2P Require Import Prelude Leb128 Opcode Tokens WasmModule Provenance MutModule Scan Remap Dce DceFacts.

(** ** Code and function types *)

(** The body of the output for the code [c]. *)
Definition renamed_body (index_map : list (option Z)) (c : bytes * list token) : bytes :=
  fst c ++ mjoin (rename index_map <$> snd c).

Lemma code_section_loop_spec data r bodies codes : Forall2 (code_of data) bodies codes -> forall flags i,
  length flags = length codes -> flags_of (index_map r) (num_imports r + i) flags ->
  0 <= num_imports r -> 0 <= i -> num_imports r + i + len codes < 2 ^ 32 ->
  code_section_loop data r i bodies
  = Ret (bcs_bytes ((fun c => bc_written (renamed_body (index_map r) c)) <$> kept flags codes)).
Proof.
  induction 1 as [|b c bodies codes (body & Hb & Hd) _ IH]; intros [|fl flags] i Hl Hf Hn Hi Hs; try done.
  apply flags_of_cons in Hf as [Hfl Hf]. rewrite len_cons in Hs. pose proof (len_nonneg codes).
  cbn [code_section_loop kept]. rewrite (wrap_id 32 i), wrap_id by (unfold is_uint; lia).
  rewrite <- Z.add_assoc in Hf. simpl in Hl. specialize (IH flags (i + 1) ltac:(lia) Hf Hn ltac:(lia) ltac:(lia)).
  destruct fl.
  - destruct (proj1 Hfl eq_refl) as [new ->]. rewrite Hb. cbn [mbind outcome_bind].
    rewrite (rewrite_body_spec _ _ _ (index_map r) Hd). cbn [mbind outcome_bind]. rewrite IH. cbn [mbind outcome_bind].
    change (fst c ++ mjoin (rename (index_map r) <$> snd c)) with (renamed_body (index_map r) c).
    rewrite fmap_cons, bcs_bytes_cons. unfold bc_bytes at 1. by rewrite <- app_assoc.
  - destruct (get_flatten (index_map r) (num_imports r + i)) as [new|] eqn:E; [|done].
    destruct Hfl as [_ Hfl]. discriminate Hfl. by eexists.
Qed.

(** A number encoded in exactly the bytes [u]. *)
Definition leb (u : bytes) (v : Z) : Prop := read_u32 u = Some (v, len u).

Lemma read_leb u v pre post : leb u v ->
  slice_from (pre ++ u ++ post) (len pre) = Ret (u ++ post) /\ read_u32 (u ++ post) = Some (v, len u).
Proof. intros Hu. split; [apply slice_from_len|by apply read_u32_app]. Qed.

Lemma leb_write v : is_uint 32 v -> leb (write_u32 v) v.
Proof. intros Hv. unfold leb. rewrite <- (app_nil_r (write_u32 v)) at 1. by apply read_u32_write. Qed.

Lemma function_section_loop_spec r us vs : Forall2 leb us vs -> forall pre flags i fuel,
  length flags = length us -> flags_of (index_map r) (num_imports r + i) flags ->
  0 <= num_imports r -> 0 <= i -> num_imports r + i + len us < 2 ^ 32 -> (length us <= fuel)%nat ->
  function_section_loop fuel (pre ++ mjoin us) r (i + len us) i (len pre) = Ret (mjoin (write_u32 <$> kept flags vs)).
Proof.
  induction 1 as [|u v us vs Hu _ IH]; intros pre [|fl flags] i fuel Hl Hf Hn Hi Hs Hfuel; try done.
  { cbn [kept]. destruct fuel; cbn [function_section_loop]; rewrite len_nil, Z.add_0_r; by rewrite Z.leb_refl. }
  apply flags_of_cons in Hf as [Hfl Hf]. rewrite len_cons in *. pose proof (len_nonneg us).
  destruct fuel as [|fuel]; [simpl in Hfuel; lia|]. cbn [function_section_loop kept].
  destruct (Z.leb_spec (i + (1 + len us)) i); [lia|].
  destruct (read_leb u v pre (mjoin us) Hu) as [Hs1 Hr]. change (mjoin (u :: us)) with (u ++ mjoin us).
  rewrite Hs1. cbn [mbind outcome_bind]. rewrite Hr, wrap_id by (unfold is_uint; lia).
  rewrite <- Z.add_assoc in Hf. simpl in Hl, Hfuel.
  specialize (IH (pre ++ u) flags (i + 1) fuel ltac:(lia) Hf Hn ltac:(lia) ltac:(lia) ltac:(lia)).
  rewrite <- app_assoc, len_app in IH. replace (i + 1 + len us) with (i + (1 + len us)) in IH by lia.
  rewrite IH. cbn [mbind outcome_bind]. destruct fl.
  - by destruct (proj1 Hfl eq_refl) as [new ->].
  - destruct (get_flatten (index_map r) (num_imports r + i)) as [new|] eqn:E; [|done].
    destruct Hfl as [_ Hfl]. discriminate Hfl. by eexists.
Qed.

(** ** Exports *)

(** An export as the section holds it. *)
Record export_enc := mkExport { ex_size : bytes; ex_name : bytes; ex_kind : Z; ex_index : bytes; ex_target : Z }.

Definition export_ok (e : export_enc) : Prop :=
  leb (ex_size e) (len (ex_name e)) /\ leb (ex_index e) (ex_target e).
Definition export_enc_bytes (e : export_enc) : bytes := ex_size e ++ ex_name e ++ ex_kind e :: ex_index e.

(** The function an export exports. *)
Definition exported_func (e : export_enc) : option Z := if ex_kind e =? 0x00 then Some (ex_target e) else None.

Definition renamed_export (index_map : list (option Z)) (e : export_enc) : option (bytes * Z * Z) :=
  (fun j => (ex_name e, ex_kind e, j))
    <$> (if ex_kind e =? 0x00 then get_flatten index_map (ex_target e) else Some (ex_target e)).

(** The accesses of one iteration. *)
Lemma export_accesses e pre rest : export_ok e ->
  let p := pre ++ export_enc_bytes e ++ rest in
  let name := len pre + len (ex_size e) in
  let kind := name + len (ex_name e) in
  (exists x, slice_from p (len pre) = Ret x /\ read_u32 x = Some (len (ex_name e), len (ex_size e))) /\
  slice p name kind = Ret (ex_name e) /\ index p kind = Ret (ex_kind e) /\ (len p <=? kind) = false /\
  (exists x, slice_from p (kind + 1) = Ret x /\ read_u32 x = Some (ex_target e, len (ex_index e))) /\
  kind + 1 + len (ex_index e) = len (pre ++ export_enc_bytes e).
Proof.
  intros [Hs Hi] p name kind. unfold export_enc_bytes in p.
  assert (E1 : p = pre ++ ex_size e ++ (ex_name e ++ ex_kind e :: ex_index e ++ rest)).
  { unfold p. rewrite <- !app_assoc. cbn [app]. done. }
  assert (E2 : p = (pre ++ ex_size e) ++ ex_name e ++ (ex_kind e :: ex_index e ++ rest)) by by rewrite E1, <- app_assoc.
  assert (E3 : p = ((pre ++ ex_size e) ++ ex_name e) ++ ex_kind e :: (ex_index e ++ rest)) by by rewrite E2, <- !app_assoc.
  assert (E4 : p = (((pre ++ ex_size e) ++ ex_name e) ++ [ex_kind e]) ++ ex_index e ++ rest).
  { rewrite E3. by rewrite <- !app_assoc. }
  assert (Hk : kind = len ((pre ++ ex_size e) ++ ex_name e)) by (unfold kind, name; rewrite !len_app; done).
  split_and!.
  - rewrite E1. eexists. split; [apply slice_from_len|by apply read_u32_app].
  - rewrite E2. unfold kind. replace name with (len (pre ++ ex_size e)) by (by rewrite len_app). apply slice_app.
  - rewrite E3. by apply index_app_cons.
  - rewrite E3, Hk, len_app, len_cons. pose proof (len_nonneg (ex_index e ++ rest)). lia.
  - rewrite E4. replace (kind + 1) with (len (((pre ++ ex_size e) ++ ex_name e) ++ [ex_kind e]))
      by (rewrite Hk, (len_app _ [_]); done).
    eexists. split; [apply slice_from_len|by apply read_u32_app].
  - unfold kind, name, export_enc_bytes. rewrite !len_app, len_cons. lia.
Qed.

Lemma export_entries_spec index_map es : Forall export_ok es -> forall pre fuel, (length es <= fuel)%nat ->
  export_entries fuel (pre ++ mjoin (export_enc_bytes <$> es)) index_map (len es) (len pre)
  = Ret (omap (renamed_export index_map) es).
Proof.
  induction 1 as [|e es He _ IH]; intros pre fuel Hf; [by destruct fuel|].
  destruct fuel as [|fuel]; [simpl in Hf; lia|]. cbn [export_entries]. rewrite len_cons.
  pose proof (len_nonneg es). destruct (Z.leb_spec (1 + len es) 0); [lia|].
  change (mjoin (export_enc_bytes <$> e :: es)) with (export_enc_bytes e ++ mjoin (export_enc_bytes <$> es)).
  destruct (export_accesses e pre (mjoin (export_enc_bytes <$> es)) He)
    as ((x & -> & Hx) & Hname & Hkind & _ & (y & Hy & Hy') & Hend).
  cbn [mbind outcome_bind]. rewrite Hx, Hkind. cbn [mbind outcome_bind]. rewrite Hy. cbn [mbind outcome_bind].
  rewrite Hy', Hend, Hname. replace (1 + len es - 1) with (len es) by lia.
  specialize (IH (pre ++ export_enc_bytes e) fuel ltac:(simpl in Hf; lia)). rewrite <- app_assoc in IH. rewrite IH.
  cbn [omap list_omap]. set (l := omap (renamed_export index_map) es). unfold renamed_export.
  by destruct (if ex_kind e =? 0 then _ else _).
Qed.

Lemma exported_loop_spec es : Forall export_ok es -> forall pre fuel, (length es <= fuel)%nat ->
  exported_loop fuel (pre ++ mjoin (export_enc_bytes <$> es)) (len es) (len pre) = Ret (omap exported_func es).
Proof.
  induction 1 as [|e es He _ IH]; intros pre fuel Hf; [by destruct fuel|].
  destruct fuel as [|fuel]; [simpl in Hf; lia|]. cbn [exported_loop]. rewrite len_cons.
  pose proof (len_nonneg es). destruct (Z.leb_spec (1 + len es) 0); [lia|].
  change (mjoin (export_enc_bytes <$> e :: es)) with (export_enc_bytes e ++ mjoin (export_enc_bytes <$> es)).
  destruct (export_accesses e pre (mjoin (export_enc_bytes <$> es)) He)
    as ((x & -> & Hx) & _ & Hkind & Hk & (y & Hy & Hy') & Hend).
  cbn [mbind outcome_bind]. rewrite Hx, Hk, Hkind. cbn [mbind outcome_bind]. rewrite Hy. cbn [mbind outcome_bind].
  rewrite Hy', Hend. replace (1 + len es - 1) with (len es) by lia.
  specialize (IH (pre ++ export_enc_bytes e) fuel ltac:(simpl in Hf; lia)). rewrite <- app_assoc in IH. rewrite IH.
  cbn [omap list_omap mbind outcome_bind]. set (l := omap exported_func es). unfold exported_func. by destruct (ex_kind e =? 0).
Qed.

(** ** Constant expressions *)

(** The instructions of a constant expression, without the [end]. *)
Definition const_code (ts : list token) : Prop := Forall (fun t => complete t /\ opcode t <> 0x0B) ts.
Definition const_bytes (ts : list token) : bytes := mjoin ts ++ [0x0B].

(** References are re-encoded even when they do not change. *)
Definition rename_ref (index_map : list (option Z)) (t : token) : token :=
  if opcode t =? OP_REF_FUNC then
    match read_u32 (tl t) with
    | Some (v, _) => opcode t :: write_u32 (default v (get_flatten index_map v))
    | None => t
    end
  else t.

Lemma const_step d pre t rest : d = pre ++ t ++ rest -> complete t ->
  (len pre <? len d) = true /\ index d (len pre) = Ret (opcode t) /\ get d (len pre) = Some (opcode t) /\
  instr_len d (len pre) = Some (len t) /\ slice d (len pre) (len pre + len t) = Ret t.
Proof.
  intros Hd Ht. pose proof (complete_pos _ Ht). pose proof (read_opcode d pre t rest Hd Ht) as Ho.
  split_and!; [|done|by apply index_Ret in Ho as [_ Ho]| |rewrite Hd; apply slice_app].
  - rewrite Hd, !len_app. pose proof (len_nonneg rest). lia.
  - rewrite Hd, <- (Z.add_0_r (len pre)), instr_len_app_r by lia. by apply complete_ext.
Qed.

Lemma leb_from_func d pre t rest : d = pre ++ t ++ rest -> complete t -> opcode t = OP_REF_FUNC ->
  exists v, leb_from d (len pre + 1) = Some (v, len (tl t)) /\ read_u32 (tl t) = Some (v, len (tl t)).
Proof.
  intros Hd Ht Hop. destruct (read_func d pre t rest Hd Ht) as (v & Hs & Hr & Hr' & _); [by rewrite Hop|].
  exists v. split; [|done]. unfold leb_from. unfold slice_from in Hs.
  destruct (get_from d (len pre + 1)) as [x|]; [|done]. injection Hs as ->. done.
Qed.

Lemma scan_const_expr_spec ts : const_code ts -> forall pre rest fuel found, (length ts < fuel)%nat ->
  scan_const_expr_loop fuel (pre ++ const_bytes ts ++ rest) (len pre) found
  = Some (len (pre ++ const_bytes ts), found ++ omap (refers OP_REF_FUNC) ts).
Proof.
  induction 1 as [|t ts [Ht Hop] _ IH]; intros pre rest fuel found Hf; (destruct fuel as [|fuel]; [simpl in Hf; lia|]);
    cbn [scan_const_expr_loop].
  - change (const_bytes [] ++ rest) with ([0x0B] ++ rest). pose proof (len_nonneg rest).
    replace (len pre <? len (pre ++ [11] ++ rest)) with true by (rewrite !len_app; change (len [11]) with 1; lia).
    cbn [negb app]. rewrite get_app_cons by done. cbn [mbind option_bind]. change (11 =? 11) with true. cbn iota.
    rewrite app_nil_r. by rewrite len_app.
  - assert (Hd : pre ++ const_bytes (t :: ts) ++ rest = pre ++ t ++ (const_bytes ts ++ rest)).
    { unfold const_bytes. change (mjoin (t :: ts)) with (t ++ mjoin ts). by rewrite <- !app_assoc. }
    destruct (const_step _ pre t _ Hd Ht) as (-> & _ & -> & Hl & _). cbn [negb mbind option_bind].
    destruct (Z.eqb_spec (opcode t) 11); [done|]. rewrite Hl. cbn [mbind option_bind].
    specialize (IH (pre ++ t) rest fuel). rewrite <- app_assoc, <- Hd, len_app in IH.
    rewrite IH by (simpl in Hf; lia). f_equal. f_equal.
    { f_equal. rewrite <- app_assoc. unfold const_bytes. change (mjoin (t :: ts)) with (t ++ mjoin ts). by rewrite <- app_assoc. }
    cbn [omap list_omap]. set (l := omap (refers OP_REF_FUNC) ts). unfold refers. destruct (Z.eqb_spec (opcode t) OP_REF_FUNC) as [E|]; [|done].
    destruct (leb_from_func _ pre t _ Hd Ht E) as (v & -> & ->). cbn [fmap option_fmap option_map fst].
    by rewrite <- app_assoc.
Qed.

Lemma rewrite_const_expr_spec index_map ts : const_code ts -> forall pre fuel out, (length ts < fuel)%nat ->
  rewrite_const_expr_loop fuel (pre ++ const_bytes ts) index_map (len pre) out
  = Ret (out ++ const_bytes (rename_ref index_map <$> ts)).
Proof.
  induction 1 as [|t ts [Ht Hop] _ IH]; intros pre fuel out Hf; (destruct fuel as [|fuel]; [simpl in Hf; lia|]);
    cbn [rewrite_const_expr_loop].
  - change (const_bytes (rename_ref index_map <$> [])) with [0x0B]. change (const_bytes []) with [0x0B].
    replace (len pre <? len (pre ++ [11])) with true by (rewrite len_app; change (len [11]) with 1; lia).
    cbn [negb]. rewrite index_app_cons by done. cbn [mbind outcome_bind]. change (11 =? 11) with true. cbn iota.
    assert (Hend : slice_from (pre ++ [11]) (len pre + 1) = Ret []).
    { rewrite <- (app_nil_r (pre ++ [11])). replace (len pre + 1) with (len (pre ++ [11])) by by rewrite len_app.
      apply slice_from_len. }
    rewrite Hend. cbn [mbind outcome_bind]. by rewrite app_nil_r.
  - assert (Hd : pre ++ const_bytes (t :: ts) = pre ++ t ++ const_bytes ts).
    { unfold const_bytes. change (mjoin (t :: ts)) with (t ++ mjoin ts). by rewrite <- !app_assoc. }
    destruct (const_step _ pre t _ Hd Ht) as (-> & -> & _ & -> & Hsl). cbn [negb mbind outcome_bind].
    destruct (Z.eqb_spec (opcode t) 11); [done|].
    specialize (IH (pre ++ t) fuel). rewrite <- app_assoc, <- Hd, len_app in IH.
    assert (Hout : forall u, const_bytes (rename_ref index_map <$> (t :: ts)) = u ++ const_bytes (rename_ref index_map <$> ts)
      <-> rename_ref index_map t ++ const_bytes (rename_ref index_map <$> ts) = u ++ const_bytes (rename_ref index_map <$> ts)).
    { intros u. unfold const_bytes. rewrite fmap_cons. change (mjoin (?a :: ?l)) with (a ++ mjoin l). by rewrite <- !app_assoc. }
    destruct (Z.eqb_spec (opcode t) OP_REF_FUNC) as [E|E].
    + destruct (read_func _ pre t _ Hd Ht) as (v & -> & Hr & Hr' & Hlt & _); [by rewrite E|].
      cbn [mbind outcome_bind]. rewrite Hr.
      replace (len pre + 1 + len (tl t)) with (len pre + len t) by lia. rewrite IH by (simpl in Hf; lia).
      rewrite (proj2 (Hout (opcode t :: write_u32 (default v (get_flatten index_map v))))); [by rewrite <- app_assoc|].
      unfold rename_ref at 1. rewrite E, Z.eqb_refl, Hr'. done.
    + cbn [mbind outcome_bind]. rewrite Hsl. cbn [mbind outcome_bind]. rewrite IH by (simpl in Hf; lia).
      rewrite (proj2 (Hout t)); [by rewrite <- app_assoc|]. unfold rename_ref at 1.
      by destruct (Z.eqb_spec (opcode t) OP_REF_FUNC).
Qed.

Lemma const_count ts : const_code ts -> (length ts <= length (mjoin ts))%nat.
Proof.
  induction 1 as [|t ts [Ht _] _ IH]; [done|]. pose proof (complete_pos _ Ht).
  change (mjoin (t :: ts)) with (t ++ mjoin ts). rewrite length_app. unfold len in *. simpl. lia.
Qed.

Lemma scan_const_expr_eq ts pre rest : const_code ts ->
  scan_const_expr (pre ++ const_bytes ts ++ rest) (len pre)
  = Some (len (pre ++ const_bytes ts), omap (refers OP_REF_FUNC) ts).
Proof.
  intros Hts. unfold scan_const_expr. rewrite scan_const_expr_spec; [done|done|].
  pose proof (const_count _ Hts). unfold const_bytes. rewrite !length_app. lia.
Qed.

Lemma rewrite_const_expr_eq index_map ts : const_code ts ->
  rewrite_const_expr (const_bytes ts) index_map = Ret (const_bytes (rename_ref index_map <$> ts)).
Proof.
  intros Hts. unfold rewrite_const_expr. pose proof (const_count _ Hts).
  apply (rewrite_const_expr_spec index_map ts Hts []). unfold const_bytes. rewrite length_app. lia.
Qed.

(** ** Globals *)

(** A global: its type and mutability bytes, and its initialiser. *)
Record global_enc := mkGlobal { gl_type : bytes; gl_init : list token }.
Definition global_ok (g : global_enc) : Prop := len (gl_type g) = 2 /\ const_code (gl_init g).
Definition global_bytes (g : global_enc) : bytes := gl_type g ++ const_bytes (gl_init g).
Definition renamed_global (index_map : list (option Z)) (g : global_enc) : global_enc :=
  mkGlobal (gl_type g) (rename_ref index_map <$> gl_init g).

Lemma scan_global_spec g pre rest found : global_ok g ->
  scan_global (pre ++ global_bytes g ++ rest) (len pre, found)
  = Some (len (pre ++ global_bytes g), found ++ omap (refers OP_REF_FUNC) (gl_init g)).
Proof.
  intros [Ht Hi]. unfold scan_global, global_bytes. rewrite <- app_assoc, app_assoc.
  pose proof (len_nonneg (const_bytes (gl_init g) ++ rest)).
  replace (len ((pre ++ gl_type g) ++ const_bytes (gl_init g) ++ rest) <? len pre + 2) with false
    by (rewrite !(len_app (pre ++ _)), len_app; lia).
  replace (len pre + 2) with (len (pre ++ gl_type g)) by (rewrite len_app; lia).
  rewrite scan_const_expr_eq by done. cbn [mbind option_bind]. by rewrite <- app_assoc.
Qed.

Lemma scan_globals_spec gs : Forall global_ok gs -> forall pre fuel found, (length gs <= fuel)%nat ->
  snd <$> for_count fuel (len gs) (scan_global (pre ++ mjoin (global_bytes <$> gs))) (len pre, found)
  = Some (found ++ mjoin ((fun g => omap (refers OP_REF_FUNC) (gl_init g)) <$> gs)).
Proof.
  induction 1 as [|g gs Hg _ IH]; intros pre fuel found Hf.
  { destruct fuel; simpl; by rewrite app_nil_r. }
  destruct fuel as [|fuel]; [simpl in Hf; lia|]. cbn [for_count]. rewrite len_cons. pose proof (len_nonneg gs).
  destruct (Z.leb_spec (1 + len gs) 0); [lia|]. replace (1 + len gs - 1) with (len gs) by lia.
  change (mjoin (global_bytes <$> g :: gs)) with (global_bytes g ++ mjoin (global_bytes <$> gs)).
  rewrite scan_global_spec by done. cbn [mbind option_bind].
  specialize (IH (pre ++ global_bytes g) fuel (found ++ omap (refers OP_REF_FUNC) (gl_init g)) ltac:(simpl in Hf; lia)).
  rewrite <- app_assoc in IH. rewrite IH. by rewrite <- app_assoc.
Qed.

Lemma global_section_loop_spec index_map gs : Forall global_ok gs -> forall pre fuel, (length gs <= fuel)%nat ->
  global_section_loop fuel (pre ++ mjoin (global_bytes <$> gs)) index_map (len gs) (len pre)
  = Ret (mjoin (global_bytes <$> (renamed_global index_map <$> gs))).
Proof.
  induction 1 as [|g gs [Ht Hi] _ IH]; intros pre fuel Hf; [by destruct fuel|].
  destruct fuel as [|fuel]; [simpl in Hf; lia|]. cbn [global_section_loop]. rewrite len_cons. pose proof (len_nonneg gs).
  destruct (Z.leb_spec (1 + len gs) 0); [lia|]. replace (1 + len gs - 1) with (len gs) by lia.
  set (rest := mjoin (global_bytes <$> gs)).
  change (mjoin (global_bytes <$> g :: gs)) with (global_bytes g ++ rest).
  assert (E1 : pre ++ global_bytes g ++ rest = pre ++ gl_type g ++ (const_bytes (gl_init g) ++ rest)).
  { unfold global_bytes. by rewrite <- app_assoc. }
  assert (E2 : pre ++ global_bytes g ++ rest = (pre ++ gl_type g) ++ const_bytes (gl_init g) ++ rest) by by rewrite E1, app_assoc.
  pose proof (len_nonneg (const_bytes (gl_init g) ++ rest)).
  replace (len (pre ++ global_bytes g ++ rest) <? len pre + 2) with false by (rewrite E1, !(len_app pre), len_app; lia).
  replace (len pre + 2) with (len pre + len (gl_type g)) by lia.
  rewrite E1, slice_app, <- E1, <- len_app, E2. cbn [mbind outcome_bind]. rewrite scan_const_expr_eq by done.
  rewrite (len_app (pre ++ gl_type g)), slice_app. cbn [mbind outcome_bind].
  rewrite rewrite_const_expr_eq by done. cbn [mbind outcome_bind].
  specialize (IH (pre ++ global_bytes g) fuel ltac:(simpl in Hf; lia)). fold rest in IH.
  rewrite <- (app_assoc pre), E2 in IH. unfold global_bytes in IH at 1.
  rewrite (app_assoc pre), (len_app (pre ++ gl_type g)) in IH. rewrite IH. cbn [mbind outcome_bind].
  change (mjoin (global_bytes <$> (renamed_global index_map <$> g :: gs)))
    with (global_bytes (renamed_global index_map g) ++ mjoin (global_bytes <$> (renamed_global index_map <$> gs))).
  unfold global_bytes at 2. cbn [renamed_global gl_type gl_init]. by rewrite <- app_assoc.
Qed.

(** ** Element segments *)

(** A vector of function indices: its count and its encoded items. *)
Record func_vec := mkVec { fv_count : bytes; fv_items : list (bytes * Z) }.
Definition vec_ok (v : func_vec) : Prop :=
  leb (fv_count v) (len (fv_items v)) /\ Forall (fun it => leb (fst it) (snd it)) (fv_items v).
Definition items_bytes (its : list (bytes * Z)) : bytes := mjoin (fst <$> its).
Definition vec_bytes (v : func_vec) : bytes := fv_count v ++ items_bytes (fv_items v).

(** An index as the pass writes it. *)
Definition renamed_index (index_map : list (option Z)) (i : Z) : Z := default i (get_flatten index_map i).
Definition renamed_vec (index_map : list (option Z)) (v : func_vec) : bytes :=
  write_u32 (len (fv_items v)) ++ mjoin ((fun it => write_u32 (renamed_index index_map (snd it))) <$> fv_items v).

Lemma leb_pos u v : leb u v -> 1 <= len u /\ is_uint 32 v.
Proof. intros (H1 & H2 & _)%read_u32_bounds. split; [lia|done]. Qed.

Lemma items_count its : Forall (fun it : bytes * Z => leb (fst it) (snd it)) its -> (length its <= length (items_bytes its))%nat.
Proof.
  induction 1 as [|[u i] its Hu _ IH]; [done|]. apply leb_pos in Hu as [Hu _]. unfold items_bytes in *.
  rewrite fmap_cons. change (mjoin (fst (u, i) :: (fst <$> its))) with (u ++ mjoin (fst <$> its)). rewrite length_app.
  unfold len in *. simpl in *. lia.
Qed.

Lemma leb_from_at u v pre rest : leb u v -> leb_from (pre ++ u ++ rest) (len pre) = Some (v, len u).
Proof.
  intros Hu. destruct (read_leb u v pre rest Hu) as [Hs Hr]. unfold leb_from. unfold slice_from in Hs.
  destruct (get_from _ _); [|done]. by injection Hs as ->.
Qed.

Section items.
Context (index_map : list (option Z)).

Lemma items_loops its : Forall (fun it : bytes * Z => leb (fst it) (snd it)) its -> forall pre rest fuel found out,
  (length its <= fuel)%nat ->
  for_count fuel (len its) (read_funcidx (pre ++ items_bytes its ++ rest)) (len pre, found)
    = Some (len (pre ++ items_bytes its), found ++ (snd <$> its)) /\
  for_count fuel (len its) (skip_funcidx (pre ++ items_bytes its ++ rest)) (len pre) = Some (len (pre ++ items_bytes its)) /\
  remapped_funcidx_loop fuel (pre ++ items_bytes its ++ rest) index_map (len its) (len pre) out
    = Ret (out ++ mjoin ((fun it => write_u32 (renamed_index index_map (snd it))) <$> its), len (pre ++ items_bytes its)).
Proof.
  induction 1 as [|[u i] its Hu _ IH]; intros pre rest fuel found out Hf.
  { destruct fuel; simpl; by rewrite !app_nil_r. }
  destruct fuel as [|fuel]; [simpl in Hf; lia|]. cbn [for_count remapped_funcidx_loop]. rewrite len_cons.
  pose proof (len_nonneg its). destruct (Z.leb_spec (1 + len its) 0); [lia|]. replace (1 + len its - 1) with (len its) by lia.
  set (p := pre ++ items_bytes ((u, i) :: its) ++ rest).
  assert (E : p = pre ++ u ++ (items_bytes its ++ rest)).
  { unfold p, items_bytes. rewrite fmap_cons. change (mjoin (fst (u, i) :: (fst <$> its))) with (u ++ mjoin (fst <$> its)).
    by rewrite <- app_assoc. }
  assert (Hend : pre ++ items_bytes ((u, i) :: its) = (pre ++ u) ++ items_bytes its) by (rewrite <- app_assoc; done).
  destruct (IH (pre ++ u) rest fuel (found ++ [i]) (out ++ write_u32 (renamed_index index_map i)) ltac:(simpl in Hf; lia)) as (H1 & H2 & H3).
  rewrite <- app_assoc, <- E, len_app in H1, H2, H3. cbn [fst snd] in Hu.
  pose proof (leb_from_at _ _ pre (items_bytes its ++ rest) Hu) as Hlf. rewrite <- E in Hlf.
  assert (S1 : read_funcidx p (len pre, found) = Some (len pre + len u, found ++ [i])) by (unfold read_funcidx; by rewrite Hlf).
  assert (S2 : skip_funcidx p (len pre) = Some (len pre + len u)) by (unfold skip_funcidx; by rewrite Hlf).
  destruct (read_leb u i pre (items_bytes its ++ rest) Hu) as [Hs Hr]. rewrite <- E in Hs.
  rewrite S1, S2, Hs. cbn [mbind option_bind outcome_bind]. rewrite Hr, Hend. split_and!.
  - by rewrite H1, <- (app_assoc found).
  - exact H2.
  - fold (renamed_index index_map i). rewrite H3. rewrite fmap_cons. cbn [snd mjoin list_join]. by rewrite <- (app_assoc out).
Qed.

Lemma vec_loops v pre rest found : vec_ok v ->
  read_funcidx_vec (pre ++ vec_bytes v ++ rest) (len pre) found
    = Some (len (pre ++ vec_bytes v), found ++ (snd <$> fv_items v)) /\
  skip_funcidx_vec (pre ++ vec_bytes v ++ rest) (len pre) = Some (len (pre ++ vec_bytes v)) /\
  write_remapped_funcidx_vec (pre ++ vec_bytes v ++ rest) (len pre) index_map
    = Ret (renamed_vec index_map v, len (pre ++ vec_bytes v)).
Proof.
  intros [Hc Hi]. pose proof (items_count _ Hi) as Hn. unfold vec_bytes.
  set (p := pre ++ (fv_count v ++ items_bytes (fv_items v)) ++ rest).
  assert (E : p = pre ++ fv_count v ++ (items_bytes (fv_items v) ++ rest)) by (unfold p; by rewrite <- app_assoc).
  assert (E2 : p = (pre ++ fv_count v) ++ items_bytes (fv_items v) ++ rest) by (by rewrite E, <- app_assoc).
  destruct (items_loops _ Hi (pre ++ fv_count v) rest (S (length p)) found (write_u32 (len (fv_items v)))) as (H1 & H2 & H3).
  { unfold p. rewrite !length_app. lia. }
  rewrite <- E2, len_app in H1, H2, H3. rewrite (app_assoc pre).
  unfold read_funcidx_vec, skip_funcidx_vec, write_remapped_funcidx_vec.
  destruct (read_leb _ _ pre (items_bytes (fv_items v) ++ rest) Hc) as [Hs Hr].
  pose proof (leb_from_at _ _ pre (items_bytes (fv_items v) ++ rest) Hc) as Hl.
  rewrite <- E in Hs, Hl. rewrite Hl, Hs. cbn [mbind option_bind outcome_bind]. rewrite Hr. by split_and!.
Qed.
End items.

(** The segments the pass handles: active in table 0 (flags 0), passive (1) or
    declarative (3), and active in a given table (2). *)
Inductive segment_enc :=
| seg_active (flags : bytes) (offset : list token) (funcs : func_vec)
| seg_listed (flags : bytes) (f : Z) (kind : Z) (funcs : func_vec)
| seg_table (flags table : bytes) (t : Z) (offset : list token) (kind : Z) (funcs : func_vec).

Definition seg_funcs (s : segment_enc) : func_vec :=
  match s with seg_active _ _ v | seg_listed _ _ _ v | seg_table _ _ _ _ _ v => v end.
Definition seg_indices (s : segment_enc) : list Z := snd <$> fv_items (seg_funcs s).

Definition segment_ok (s : segment_enc) : Prop :=
  vec_ok (seg_funcs s) /\
  match s with
  | seg_active flags offset _ => leb flags 0 /\ const_code offset
  | seg_listed flags f _ _ => leb flags f /\ (f = 1 \/ f = 3)
  | seg_table flags table t offset _ _ => leb flags 2 /\ leb table t /\ const_code offset
  end.

Definition segment_bytes (s : segment_enc) : bytes :=
  match s with
  | seg_active flags offset v => flags ++ const_bytes offset ++ vec_bytes v
  | seg_listed flags _ kind v => flags ++ [kind] ++ vec_bytes v
  | seg_table flags table _ offset kind v => flags ++ table ++ const_bytes offset ++ [kind] ++ vec_bytes v
  end.

Definition renamed_segment (index_map : list (option Z)) (s : segment_enc) : bytes :=
  match s with
  | seg_active _ offset v =>
      write_u32 0 ++ const_bytes (rename_ref index_map <$> offset) ++ renamed_vec index_map v
  | seg_listed _ f kind v => write_u32 f ++ kind :: renamed_vec index_map v
  | seg_table _ _ t offset kind v =>
      write_u32 2 ++ write_u32 t ++ const_bytes (rename_ref index_map <$> offset) ++ kind :: renamed_vec index_map v
  end.

(** What the three readers of a segment do with it. *)
Definition segment_read (index_map : list (option Z)) (pre : bytes) (s : segment_enc) (rest : bytes) : Prop :=
  let p := pre ++ segment_bytes s ++ rest in
  (forall found, scan_segment p (len pre, found) = Some (len (pre ++ segment_bytes s), found ++ seg_indices s)) /\
  segment_funcidx_form p (len pre) = Ret (Some (len (pre ++ segment_bytes s))) /\
  element_segment p index_map (len pre) = Ret (renamed_segment index_map s, len (pre ++ segment_bytes s)).

(** Reading flags or a table index at [pre]. *)
Lemma leb_reads u v pre rest : leb u v ->
  leb_from (pre ++ u ++ rest) (len pre) = Some (v, len u) /\
  slice_from (pre ++ u ++ rest) (len pre) = Ret (u ++ rest) /\
  read_u32 (u ++ rest) = Some (v, len u) /\ len pre + len u = len (pre ++ u).
Proof.
  intros Hu. destruct (read_leb u v pre rest Hu). by rewrite (leb_from_at _ _ _ _ Hu), len_app.
Qed.

(** An offset expression at [pre]. *)
Lemma offset_reads index_map ts pre rest : const_code ts ->
  scan_const_expr (pre ++ const_bytes ts ++ rest) (len pre)
    = Some (len (pre ++ const_bytes ts), omap (refers OP_REF_FUNC) ts) /\
  slice (pre ++ const_bytes ts ++ rest) (len pre) (len (pre ++ const_bytes ts)) = Ret (const_bytes ts) /\
  rewrite_const_expr (const_bytes ts) index_map = Ret (const_bytes (rename_ref index_map <$> ts)).
Proof.
  intros Hts. split_and!; [by apply scan_const_expr_eq|rewrite len_app; apply slice_app|by apply rewrite_const_expr_eq].
Qed.

(** The kind byte at [pre], followed by more bytes. *)
Lemma kind_reads (pre : bytes) k rest : 
  index (pre ++ [k] ++ rest) (len pre) = Ret k /\ (len (pre ++ [k] ++ rest) <=? len pre) = false /\
  len pre + 1 = len (pre ++ [k]).
Proof.
  split_and!; [by apply index_app_cons| |by rewrite len_app].
  rewrite !len_app. change (len [k]) with 1. pose proof (len_nonneg rest). lia.
Qed.

Lemma segment_read_active index_map flags offset v pre rest :
  segment_ok (seg_active flags offset v) -> segment_read index_map pre (seg_active flags offset v) rest.
Proof.
  intros [Hv [Hf Ho]]. cbn [seg_funcs] in Hv. unfold segment_read. cbn [segment_bytes renamed_segment].
  set (p := pre ++ (flags ++ const_bytes offset ++ vec_bytes v) ++ rest).
  assert (E1 : p = pre ++ flags ++ (const_bytes offset ++ vec_bytes v ++ rest)) by (unfold p; by rewrite <- !app_assoc).
  assert (E2 : p = (pre ++ flags) ++ const_bytes offset ++ (vec_bytes v ++ rest)) by (by rewrite E1, <- app_assoc).
  assert (E3 : p = ((pre ++ flags) ++ const_bytes offset) ++ vec_bytes v ++ rest) by (by rewrite E2, <- !app_assoc).
  destruct (leb_reads flags 0 pre (const_bytes offset ++ vec_bytes v ++ rest) Hf) as (F1 & F2 & F3 & F4). rewrite <- E1 in F1, F2.
  destruct (offset_reads index_map offset (pre ++ flags) (vec_bytes v ++ rest) Ho) as (O1 & O2 & O3). rewrite <- E2 in O1, O2.
  replace (len (pre ++ flags ++ const_bytes offset ++ vec_bytes v)) with (len (((pre ++ flags) ++ const_bytes offset) ++ vec_bytes v))
    by (by rewrite <- !app_assoc).
  split_and!.
  - intros found. destruct (vec_loops index_map v ((pre ++ flags) ++ const_bytes offset) rest found Hv) as (V1 & _). rewrite <- E3 in V1.
    unfold scan_segment. rewrite F1. cbn [mbind option_bind]. rewrite F4. change (0 =? 0) with true. cbn iota.
    rewrite O1. cbn [mbind option_bind]. exact V1.
  - destruct (vec_loops index_map v ((pre ++ flags) ++ const_bytes offset) rest [] Hv) as (_ & V2 & _). rewrite <- E3 in V2.
    unfold segment_funcidx_form. rewrite F2. cbn [mbind outcome_bind]. rewrite F3, F4. change (0 =? 0) with true. cbn iota.
    rewrite O1. cbn [mbind option_bind]. by rewrite V2.
  - destruct (vec_loops index_map v ((pre ++ flags) ++ const_bytes offset) rest [] Hv) as (_ & _ & V3). rewrite <- E3 in V3.
    unfold element_segment. rewrite F2. cbn [mbind outcome_bind]. rewrite F3. cbn [expect mbind outcome_bind]. rewrite F4.
    change (0 =? 0) with true. cbn iota. rewrite O1. cbn [expect mbind outcome_bind]. rewrite O2. cbn [mbind outcome_bind].
    rewrite O3. cbn [mbind outcome_bind]. rewrite V3. done.
Qed.

Lemma segment_read_listed index_map flags f kind v pre rest :
  segment_ok (seg_listed flags f kind v) -> segment_read index_map pre (seg_listed flags f kind v) rest.
Proof.
  intros [Hv [Hf Hor]]. cbn [seg_funcs] in Hv. unfold segment_read. cbn [segment_bytes renamed_segment].
  set (p := pre ++ (flags ++ [kind] ++ vec_bytes v) ++ rest).
  assert (E1 : p = pre ++ flags ++ ([kind] ++ vec_bytes v ++ rest)) by (unfold p; by rewrite <- !app_assoc).
  assert (E2 : p = (pre ++ flags) ++ [kind] ++ (vec_bytes v ++ rest)) by (by rewrite E1, <- app_assoc).
  assert (E3 : p = ((pre ++ flags) ++ [kind]) ++ vec_bytes v ++ rest) by (by rewrite E2, <- !app_assoc).
  destruct (leb_reads flags f pre ([kind] ++ vec_bytes v ++ rest) Hf) as (F1 & F2 & F3 & F4). rewrite <- E1 in F1, F2.
  destruct (kind_reads (pre ++ flags) kind (vec_bytes v ++ rest)) as (K1 & K2 & K3). rewrite <- E2 in K1, K2.
  replace (len (pre ++ flags ++ [kind] ++ vec_bytes v)) with (len (((pre ++ flags) ++ [kind]) ++ vec_bytes v))
    by (by rewrite <- !app_assoc).
  assert (B1 : (f =? 0) = false) by lia. assert (B2 : (f =? 1) || (f =? 3) = true) by lia.
  split_and!.
  - intros found. destruct (vec_loops index_map v ((pre ++ flags) ++ [kind]) rest found Hv) as (V1 & _). rewrite <- E3 in V1.
    unfold scan_segment. rewrite F1. cbn [mbind option_bind]. rewrite F4, B1, B2, K3. exact V1.
  - destruct (vec_loops index_map v ((pre ++ flags) ++ [kind]) rest [] Hv) as (_ & V2 & _). rewrite <- E3 in V2.
    unfold segment_funcidx_form. rewrite F2. cbn [mbind outcome_bind]. rewrite F3, F4, B1, B2, K2, K3. by rewrite V2.
  - destruct (vec_loops index_map v ((pre ++ flags) ++ [kind]) rest [] Hv) as (_ & _ & V3). rewrite <- E3 in V3.
    unfold element_segment. rewrite F2. cbn [mbind outcome_bind]. rewrite F3. cbn [expect mbind outcome_bind].
    rewrite F4, B1, B2, K1. cbn [mbind outcome_bind]. rewrite K3, V3. done.
Qed.

Lemma segment_read_table index_map flags table t offset kind v pre rest :
  segment_ok (seg_table flags table t offset kind v) -> segment_read index_map pre (seg_table flags table t offset kind v) rest.
Proof.
  intros [Hv (Hf & Ht & Ho)]. cbn [seg_funcs] in Hv. unfold segment_read. cbn [segment_bytes renamed_segment].
  set (p := pre ++ (flags ++ table ++ const_bytes offset ++ [kind] ++ vec_bytes v) ++ rest).
  assert (E1 : p = pre ++ flags ++ (table ++ const_bytes offset ++ [kind] ++ vec_bytes v ++ rest)) by (unfold p; by rewrite <- !app_assoc).
  assert (E2 : p = (pre ++ flags) ++ table ++ (const_bytes offset ++ [kind] ++ vec_bytes v ++ rest)) by (by rewrite E1, <- app_assoc).
  assert (E3 : p = ((pre ++ flags) ++ table) ++ const_bytes offset ++ ([kind] ++ vec_bytes v ++ rest)) by (by rewrite E2, <- !app_assoc).
  set (pre3 := (pre ++ flags) ++ table) in *.
  assert (E4 : p = (pre3 ++ const_bytes offset) ++ [kind] ++ (vec_bytes v ++ rest)) by (by rewrite E3, <- !app_assoc).
  assert (E5 : p = ((pre3 ++ const_bytes offset) ++ [kind]) ++ vec_bytes v ++ rest) by (by rewrite E4, <- !app_assoc).
  destruct (leb_reads _ _ pre (table ++ const_bytes offset ++ [kind] ++ vec_bytes v ++ rest) Hf) as (F1 & F2 & F3 & F4). rewrite <- E1 in F1, F2.
  destruct (leb_reads _ _ (pre ++ flags) (const_bytes offset ++ [kind] ++ vec_bytes v ++ rest) Ht) as (T1 & T2 & T3 & T4).
  rewrite <- E2 in T1, T2. fold pre3 in T4.
  destruct (offset_reads index_map offset pre3 ([kind] ++ vec_bytes v ++ rest) Ho) as (O1 & O2 & O3). rewrite <- E3 in O1, O2.
  destruct (kind_reads (pre3 ++ const_bytes offset) kind (vec_bytes v ++ rest)) as (K1 & K2 & K3). rewrite <- E4 in K1, K2.
  replace (len (pre ++ flags ++ table ++ const_bytes offset ++ [kind] ++ vec_bytes v))
    with (len (((pre3 ++ const_bytes offset) ++ [kind]) ++ vec_bytes v)) by (unfold pre3; by rewrite <- !app_assoc).
  assert (B : (2 =? 0) = false /\ (2 =? 1) || (2 =? 3) = false /\ (2 =? 2) = true) by done. destruct B as (B1 & B2 & B3).
  split_and!.
  - intros found. destruct (vec_loops index_map v ((pre3 ++ const_bytes offset) ++ [kind]) rest found Hv) as (V1 & _). rewrite <- E5 in V1.
    unfold scan_segment. rewrite F1. cbn [mbind option_bind]. rewrite F4, B1, B2, B3, T1. cbn [mbind option_bind].
    rewrite T4, O1. cbn [mbind option_bind]. rewrite K3. exact V1.
  - destruct (vec_loops index_map v ((pre3 ++ const_bytes offset) ++ [kind]) rest [] Hv) as (_ & V2 & _). rewrite <- E5 in V2.
    unfold segment_funcidx_form. rewrite F2. cbn [mbind outcome_bind]. rewrite F3, F4, B1, B2, B3, T2. cbn [mbind outcome_bind].
    rewrite T3, T4, O1, K2, K3. by rewrite V2.
  - destruct (vec_loops index_map v ((pre3 ++ const_bytes offset) ++ [kind]) rest [] Hv) as (_ & _ & V3). rewrite <- E5 in V3.
    unfold element_segment. rewrite F2. cbn [mbind outcome_bind]. rewrite F3. cbn [expect mbind outcome_bind].
    rewrite F4, B1, B2, B3, T2. cbn [mbind outcome_bind]. rewrite T3. cbn [expect mbind outcome_bind]. rewrite T4, O1.
    cbn [expect mbind outcome_bind]. rewrite O2. cbn [mbind outcome_bind]. rewrite O3. cbn [mbind outcome_bind].
    rewrite K1. cbn [mbind outcome_bind]. rewrite K3, V3. done.
Qed.

Lemma segment_reads index_map s pre rest : segment_ok s -> segment_read index_map pre s rest.
Proof. destruct s; [apply segment_read_active|apply segment_read_listed|apply segment_read_table]. Qed.

Lemma segments_loops index_map ss : Forall segment_ok ss -> forall pre fuel found, (length ss <= fuel)%nat ->
  let p := pre ++ mjoin (segment_bytes <$> ss) in
  snd <$> for_count fuel (len ss) (scan_segment p) (len pre, found) = Some (found ++ mjoin (seg_indices <$> ss)) /\
  all_segments_funcidx_form fuel p (len ss) (len pre) = Ret true /\
  element_section_loop fuel p index_map (len ss) (len pre) = Ret (mjoin (renamed_segment index_map <$> ss)).
Proof.
  induction 1 as [|s ss Hs _ IH]; intros pre fuel found Hf p.
  { destruct fuel; simpl; by rewrite app_nil_r. }
  destruct fuel as [|fuel]; [simpl in Hf; lia|]. cbn [for_count all_segments_funcidx_form element_section_loop].
  rewrite len_cons. pose proof (len_nonneg ss). destruct (Z.leb_spec (1 + len ss) 0); [lia|].
  replace (1 + len ss - 1) with (len ss) by lia.
  destruct (segment_reads index_map s pre (mjoin (segment_bytes <$> ss)) Hs) as (S1 & S2 & S3).
  change (pre ++ segment_bytes s ++ mjoin (segment_bytes <$> ss)) with p in S1, S2, S3.
  destruct (IH (pre ++ segment_bytes s) fuel (found ++ seg_indices s) ltac:(simpl in Hf; lia)) as (H1 & H2 & H3).
  rewrite <- app_assoc in H1, H2, H3. change (pre ++ segment_bytes s ++ mjoin (segment_bytes <$> ss)) with p in H1, H2, H3.
  rewrite S1, S2, S3. cbn [mbind option_bind outcome_bind]. rewrite H1, H2, H3. cbn [mbind outcome_bind].
  split_and!; [by rewrite <- app_assoc|done|done].
Qed.

Lemma bytes_count {A} (f : A -> bytes) l : Forall (fun x => 1 <= len (f x)) l ->
  (length l <= length (mjoin (f <$> l)))%nat.
Proof.
  induction 1 as [|x l Hx _ IH]; [done|]. rewrite fmap_cons. change (mjoin (f x :: (f <$> l))) with (f x ++ mjoin (f <$> l)).
  rewrite length_app. unfold len in Hx. simpl. lia.
Qed.

Lemma segments_count ss : Forall segment_ok ss -> (length ss <= length (mjoin (segment_bytes <$> ss)))%nat.
Proof.
  intros H. apply bytes_count. eapply Forall_impl; [exact H|]. intros s [_ Hs].
  destruct s; simpl in *; rewrite !len_app;
    match goal with H : leb ?u _ /\ _ |- _ => destruct H as [Hu _]; apply leb_pos in Hu as [Hu _] end;
    repeat match goal with |- context [len ?x] => lazymatch goal with H : 0 <= len x |- _ => fail | _ => pose proof (len_nonneg x) end end; lia.
Qed.

Lemma globals_count gs : Forall global_ok gs -> (length gs <= length (mjoin (global_bytes <$> gs)))%nat.
Proof.
  intros H. apply bytes_count. eapply Forall_impl; [exact H|]. intros g [Ht _]. unfold global_bytes. rewrite len_app.
  pose proof (len_nonneg (const_bytes (gl_init g))). lia.
Qed.

Lemma exports_count es : Forall export_ok es -> (length es <= length (mjoin (export_enc_bytes <$> es)))%nat.
Proof.
  intros H. apply bytes_count. eapply Forall_impl; [exact H|]. intros e _. unfold export_enc_bytes.
  rewrite !len_app, len_cons. pose proof (len_nonneg (ex_size e)). pose proof (len_nonneg (ex_name e)).
  pose proof (len_nonneg (ex_index e)). lia.
Qed.

Lemma lebs_count us vs : Forall2 leb us vs -> (length us <= length (mjoin us))%nat.
Proof.
  intros H. rewrite <- (list_fmap_id us) at 2. apply (bytes_count id). eapply Forall2_Forall_l; [exact H|].
  apply Forall_forall. intros v _ u Hu. apply leb_pos in Hu as [Hu _]. done.
Qed.

(** ** What the pass does to a section *)

(** A section of the input and the one that replaces it, given the renumbering
    and the defined functions kept; the section's payload is a count and the
    encoded items. *)
Inductive dce_chunk (codes : list (bytes * list token)) (index_map : list (option Z)) (flags : list bool)
  : chunk -> chunk -> Prop :=
| dce_untouched c : one_of [SECTION_FUNCTION; SECTION_GLOBAL; SECTION_EXPORT; SECTION_START; SECTION_ELEMENT; SECTION_CODE] (ck_id c) = false ->
    dce_chunk codes index_map flags c c
| dce_functions c n us types : ck_id c = SECTION_FUNCTION -> ck_payload c = n ++ mjoin us -> leb n (len us) ->
    Forall2 leb us types -> length us = length codes ->
    dce_chunk codes index_map flags c
      (written SECTION_FUNCTION (write_u32 (count_kept flags) ++ mjoin (write_u32 <$> kept flags types)))
| dce_globals c n gs : ck_id c = SECTION_GLOBAL -> ck_payload c = n ++ mjoin (global_bytes <$> gs) -> leb n (len gs) ->
    Forall global_ok gs ->
    dce_chunk codes index_map flags c
      (written SECTION_GLOBAL (write_u32 (len gs) ++ mjoin (global_bytes <$> (renamed_global index_map <$> gs))))
| dce_exports c n es : ck_id c = SECTION_EXPORT -> ck_payload c = n ++ mjoin (export_enc_bytes <$> es) -> leb n (len es) ->
    Forall export_ok es ->
    let es' := omap (renamed_export index_map) es in
    dce_chunk codes index_map flags c (written SECTION_EXPORT (write_u32 (len es') ++ mjoin (export_bytes <$> es')))
| dce_start c u f rest : ck_id c = SECTION_START -> ck_payload c = u ++ rest -> leb u f ->
    dce_chunk codes index_map flags c (written SECTION_START (write_u32 (renamed_index index_map f)))
| dce_elements c n ss : ck_id c = SECTION_ELEMENT -> ck_payload c = n ++ mjoin (segment_bytes <$> ss) -> leb n (len ss) ->
    Forall segment_ok ss ->
    dce_chunk codes index_map flags c
      (written SECTION_ELEMENT (write_u32 (len ss) ++ mjoin (renamed_segment index_map <$> ss)))
| dce_code c : ck_id c = SECTION_CODE ->
    dce_chunk codes index_map flags c
      (written SECTION_CODE (write_u32 (count_kept flags)
        ++ bcs_bytes ((fun c => bc_written (renamed_body index_map c)) <$> kept flags codes))).

Lemma read_count n rest v : leb n v -> read_u32 (n ++ rest) = Some (v, len n).
Proof. intros H. by apply read_u32_app. Qed.

Lemma omap_len_le {A B} (f : A -> option B) l : len (omap f l) <= len l.
Proof.
  induction l as [|x l IH]; [done|]. rewrite len_cons. cbn [omap list_omap]. destruct (f x); rewrite ?len_cons; fold (omap f l); lia.
Qed.

Section emitting.
Context (m : WasmModule) (codes : list (bytes * list token)) (r : DceResult) (flags : list bool).
Context (Hbodies : Forall2 (code_of (wm_data m)) (function_bodies m) codes).
Context (Hflags : flags_of (index_map r) (num_imports r) flags) (Hlen : length flags = length codes).
Context (Hkept : defined_kept r = count_kept flags).
Context (Hsize : 0 <= num_imports r /\ num_imports r + len codes < 2 ^ 32).

Lemma emit_chunk pre c c' post : wm_data m = pre ++ ck_bytes c ++ post -> chunk_ok c -> len (wm_data m) < 2 ^ 32 ->
  dce_chunk codes (index_map r) flags c c' ->
  emit_dce_section m r (section_at (len pre) c) = Ret (ck_bytes c').
Proof using Hbodies Hflags Hlen Hkept Hsize.
  intros Hd Hc Hl H. pose proof (span_slice_payload pre c post Hc ltac:(by rewrite <- Hd)) as Hp. rewrite <- Hd in Hp.
  assert (Hfuel : forall a b : bytes, (length b <= S (length (a ++ b)))%nat) by (intros; rewrite length_app; lia).
  unfold emit_dce_section. cbn [section_at sec_id].
  destruct H as [c Hid|c n us types Hid Hpay Hn Hus Hlus|c n gs Hid Hpay Hn Hgs|c n es Hid Hpay Hn Hes es'|c u f rest Hid Hpay Hu|c n ss Hid Hpay Hn Hss|c Hid];
    [|rewrite Hid; simpl (_ =? _); cbn iota..].
  - assert (Hdef : forall A (a b g e x y z : A), (if ck_id c =? SECTION_FUNCTION then a else if ck_id c =? SECTION_CODE then b
      else if ck_id c =? SECTION_EXPORT then g else if ck_id c =? SECTION_GLOBAL then e
      else if ck_id c =? SECTION_ELEMENT then x else if ck_id c =? SECTION_START then y else z) = z).
    { intros. unfold one_of in Hid. cbn [existsb] in Hid. rewrite !orb_false_iff in Hid.
      destruct Hid as (-> & -> & -> & -> & -> & -> & _). done. }
    rewrite Hdef. pose proof (span_slice_full pre c post Hc ltac:(by rewrite <- Hd)) as Hf. by rewrite <- Hd in Hf.
  - unfold emit_function_section. rewrite Hp, Hpay. cbn [mbind outcome_bind]. rewrite (read_count _ _ _ Hn).
    replace (len us) with (0 + len us) by lia.
    rewrite (function_section_loop_spec r us types Hus n flags 0);
      [|lia|by rewrite Z.add_0_r|lia|lia|unfold len in *; rewrite Hlus; lia|].
    2:{ pose proof (lebs_count _ _ Hus). rewrite length_app. lia. }
    cbn [mbind outcome_bind]. rewrite Hkept, encode_section_written. cbn [section_at sec_id]. by rewrite Hid.
  - unfold emit_remapped_global_section. rewrite Hp, Hpay. cbn [mbind outcome_bind]. rewrite (read_count _ _ _ Hn).
    rewrite global_section_loop_spec; [|done|pose proof (globals_count _ Hgs); rewrite length_app; lia].
    cbn [mbind outcome_bind]. rewrite encode_section_written. cbn [section_at sec_id]. by rewrite Hid.
  - unfold emit_remapped_export_section. rewrite Hp, Hpay. cbn [mbind outcome_bind]. rewrite (read_count _ _ _ Hn).
    rewrite export_entries_spec; [|done|pose proof (exports_count _ Hes); rewrite length_app; lia].
    cbn [mbind outcome_bind]. rewrite encode_section_written. cbn [section_at sec_id]. rewrite Hid. fold es'.
    rewrite (wrap_id 32 (len es')); [done|]. apply leb_pos in Hn as [_ Hn]. pose proof (len_nonneg es').
    pose proof (omap_len_le (renamed_export (index_map r)) es). fold es' in H0. unfold is_uint in *. lia.
  - unfold emit_remapped_start_section. rewrite Hp, Hpay. cbn [mbind outcome_bind]. rewrite (read_count _ _ _ Hu).
    rewrite encode_section_written. cbn [section_at sec_id]. by rewrite Hid.
  - unfold emit_remapped_element_section. rewrite Hp, Hpay. cbn [mbind outcome_bind]. rewrite (read_count _ _ _ Hn).
    destruct (segments_loops (index_map r) ss Hss n (S (length (n ++ mjoin (segment_bytes <$> ss)))) []) as (_ & -> & ->).
    { pose proof (segments_count _ Hss). rewrite length_app. lia. }
    cbn [mbind outcome_bind negb]. rewrite encode_section_written. cbn [section_at sec_id]. by rewrite Hid.
  - unfold emit_code_section.
    rewrite (code_section_loop_spec (wm_data m) r _ _ Hbodies flags 0); [|done|by rewrite Z.add_0_r|lia..].
    cbn [mbind outcome_bind]. by rewrite Hkept, encode_section_written.
Qed.
End emitting.
