(* ===== verification/DcePass.v ===== *)
(** Dead function elimination as a whole: the functions kept are those reachable
    from outside, they are renumbered in order, no reference of the output
    dangles, and the output has the sections [dce_chunk] describes. *)
From S2P Require Import Prelude Leb128 Opcode Tokens WasmModule Provenance MutModule Scan Remap Dce DceFacts DceSections.

(** ** Renumbering *)

(** [reach] is what the analysis marks. *)
Record dce_marks (d : dce_facts) (reach : list bool) : Prop := {
  dm_len : len reach = df_total d;
  dm_reach : forall i, marked reach i <-> reachable (ref_graph d) (ref_roots d) i;
  dm_imports : firstn (Z.to_nat (df_imports d)) reach = replicate (Z.to_nat (df_imports d)) true;
}.

(** Which defined functions a result keeps. *)
Definition kept_flags (r : DceResult) : list bool :=
  is_some <$> drop (Z.to_nat (num_imports r)) (index_map r).

Lemma compact_flags l : forall new, is_some <$> compact l new = l.
Proof. induction l as [|[] l IH]; intros new; [done|..]; cbn [compact]; rewrite fmap_cons, IH; done. Qed.

Lemma kept_flags_compact reach n k : kept_flags (mkDce (compact reach 0) n k) = drop (Z.to_nat n) reach.
Proof. unfold kept_flags. cbn [index_map num_imports]. by rewrite <- skipn_map, compact_flags. Qed.

Section numbering.
Context (d : dce_facts) (reach : list bool) (Hm : dce_marks d reach).
Context (Hn : 0 <= df_imports d) (Ht : df_total d < 2 ^ 32).

Abbreviation n := (Z.to_nat (df_imports d)).
Abbreviation index_map := (compact reach 0).
Abbreviation flags := (drop (Z.to_nat (df_imports d)) reach).

Lemma reach_eq : reach = replicate n true ++ flags.
Proof using Hm. rewrite <- (take_drop n reach) at 1. by rewrite (dm_imports _ _ Hm). Qed.

Lemma flags_length : length flags = length (df_codes d).
Proof using Hm Hn.
  pose proof (dm_len _ _ Hm) as Hl. unfold df_total in Hl. rewrite length_drop. unfold len in Hl. lia.
Qed.

Lemma flags_of_marks : flags_of index_map (df_imports d) flags.
Proof using Hm Hn.
  pose proof (flags_of_compact reach n) as Hf. rewrite Z2Nat.id in Hf by done. apply Hf.
  pose proof (dm_len _ _ Hm) as Hl. pose proof (len_nonneg (df_codes d)). unfold df_total, len in *. lia.
Qed.

Lemma new_index_import i : 0 <= i < df_imports d -> get_flatten index_map i = Some i.
Proof using Hm Hn.
  intros Hi. pose proof (dm_len _ _ Hm) as Hl. unfold df_total in Hl. pose proof (len_nonneg (df_codes d)).
  rewrite get_flatten_compact, reach_eq.
  assert (Hlk : (replicate n true ++ flags) !! Z.to_nat i = Some true).
  { rewrite lookup_app_l by (rewrite length_replicate; lia). apply lookup_replicate. split; [done|lia]. }
  assert (Hg : get (replicate n true ++ flags) i = Some true).
  { apply get_lookup. rewrite <- reach_eq. split; [lia|]. by rewrite reach_eq. }
  rewrite Hg. rewrite take_app_le by (rewrite length_replicate; lia).
  rewrite take_replicate, count_kept_replicate. f_equal. lia.
Qed.

(** A kept defined function is numbered after the imports and the kept functions
    before it. *)
Lemma new_index_defined k j : get_flatten index_map (df_imports d + Z.of_nat k) = Some j ->
  flags !! k = Some true /\ j = df_imports d + count_kept (take k flags).
Proof using Hm Hn.
  rewrite get_flatten_compact. destruct (get reach _) as [[]|] eqn:Hg; [|done..]. intros [= <-].
  apply get_lookup in Hg as [_ Hg]. replace (Z.to_nat (df_imports d + Z.of_nat k)) with (n + k)%nat in * by lia.
  rewrite lookup_drop. split; [done|]. rewrite reach_eq at 1. rewrite take_app_ge by (rewrite length_replicate; lia).
  rewrite count_kept_app, count_kept_replicate, length_replicate. replace (n + k - n)%nat with k by lia. lia.
Qed.

(** ... and the body that lands there is its own. *)
Lemma new_index_body k j c : get_flatten index_map (df_imports d + Z.of_nat k) = Some j -> df_codes d !! k = Some c ->
  kept flags (df_codes d) !! Z.to_nat (j - df_imports d) = Some c /\ j < df_imports d + count_kept flags.
Proof using Hm Hn.
  intros [Hf ->]%new_index_defined Hc.
  replace (Z.to_nat (df_imports d + count_kept (take k flags) - df_imports d)) with (Z.to_nat (count_kept (take k flags))) by lia.
  split; [by apply kept_lookup|].
  rewrite <- (take_drop_middle flags k true Hf) at 2. rewrite count_kept_app. cbn [count_kept].
  pose proof (count_kept_bounds (drop (S k) flags)). lia.
Qed.

Lemma count_kept_take_mono (l : list bool) i j : (i <= j)%nat -> count_kept (take i l) <= count_kept (take j l).
Proof using.
  intros Hij. replace (take i l) with (take i (take j l)) by (rewrite take_take; f_equal; lia).
  rewrite <- (take_drop i (take j l)) at 2. rewrite count_kept_app.
  pose proof (count_kept_bounds (drop i (take j l))). lia.
Qed.

Lemma new_index_mono f g f' g' : f < g -> get_flatten index_map f = Some f' -> get_flatten index_map g = Some g' -> f' < g'.
Proof using.
  intros Hfg. rewrite !get_flatten_compact. destruct (get reach f) as [[]|] eqn:Ef; [|done..].
  destruct (get reach g) as [[]|] eqn:Eg; [|done..]. intros [= <-] [= <-].
  apply get_lookup in Ef as [Hf Ef], Eg as [Hg Eg].
  pose proof (count_kept_take_mono reach (S (Z.to_nat f)) (Z.to_nat g) ltac:(lia)) as H.
  rewrite (take_S_r _ _ _ Ef), count_kept_app in H. simpl in H. lia.
Qed.

(** The numbers below the count are all used. *)
Lemma compact_onto l : forall new j, new <= j < new + count_kept l -> exists k, compact l new !! k = Some (Some j).
Proof using.
  induction l as [|b l IH]; intros new j Hj; cbn [count_kept] in Hj; [lia|].
  destruct b; cbn [compact].
  - destruct (Z.eq_dec j new) as [->|Hne]; [by exists 0%nat|].
    destruct (IH (new + 1) j) as [k Hk]; [lia|]. by exists (S k).
  - destruct (IH new j) as [k Hk]; [lia|]. by exists (S k).
Qed.

Lemma new_index_onto j : 0 <= j < df_imports d + count_kept flags -> exists f, get_flatten index_map f = Some j.
Proof using Hm Hn.
  intros Hj. destruct (compact_onto reach 0 j) as [k Hk].
  - rewrite reach_eq, count_kept_app, count_kept_replicate. lia.
  - exists (Z.of_nat k). unfold get_flatten, get. pose proof (lookup_lt_Some _ _ _ Hk).
    replace ((0 <=? Z.of_nat k) && (Z.of_nat k <? len (compact reach 0))) with true by (unfold len; lia).
    by rewrite Nat2Z.id, Hk.
Qed.

(** ** References *)

Lemma ref_graph_row k c : df_codes d !! k = Some c ->
  get (ref_graph d) (df_imports d + Z.of_nat k) = Some (call_targets (df_total d) (snd c)).
Proof using Hn.
  intros Hc. pose proof (lookup_lt_Some _ _ _ Hc). apply get_lookup. rewrite ref_graph_len by done.
  unfold df_total, len. split; [lia|]. unfold ref_graph.
  replace (Z.to_nat (df_imports d + Z.of_nat k)) with (n + k)%nat by lia.
  rewrite lookup_app_r, length_replicate by (rewrite length_replicate; lia).
  replace (n + k - n)%nat with k by lia. by rewrite list_lookup_fmap, Hc.
Qed.

(** A kept function only calls kept functions, and every function some body takes
    a reference to is kept. *)
Lemma target_kept k c op t j : df_codes d !! k = Some c -> marked reach (df_imports d + Z.of_nat k) ->
  In t (snd c) -> op = OP_CALL \/ op = OP_REF_FUNC -> refers op t = Some j -> j < df_total d -> marked reach j.
Proof using Hm Hn.
  intros Hc Hk Hin Hop Hr Hj. pose proof (refers_natural _ _ _ Hr) as Hj0. apply (dm_reach _ _ Hm).
  assert (Htgt : In j (omap (fun t => below_total (df_total d) (refers op t)) (snd c))).
  { apply list_elem_of_In, list_elem_of_omap. exists t. split; [by apply list_elem_of_In|].
    rewrite Hr. unfold below_total. by destruct (Z.ltb_spec j (df_total d)); [|lia]. }
  destruct Hop as [->| ->].
  - apply (dm_reach _ _ Hm) in Hk as (root & Hroot & Hb & Hp). exists root. split_and!; [done|lia..|].
    eapply rtc_r; [exact Hp|]. eexists. split; [by apply ref_graph_row|]. exact Htgt.
  - exists j. split; [|split; [rewrite ref_graph_len by done; lia|constructor]].
    unfold ref_roots. rewrite !in_app_iff. right. right. left. apply list_elem_of_In, list_elem_of_join.
    eexists. split; [by apply list_elem_of_In|]. apply list_elem_of_fmap. exists c. split; [done|].
    by eapply list_elem_of_lookup_2.
Qed.
End numbering.

Lemma analyse_marks m m' d : dce_reads m m' d -> has_roots d ->
  exists reach, dce_marks d reach /\
  analyse m = Ret (m', mkDce (compact reach 0) (df_imports d) (count_kept (drop (Z.to_nat (df_imports d)) reach))).
Proof.
  intros H Hr. destruct (analyse_spec m m' d H Hr) as (reach & Hl & Hm & Hi & Ha). exists reach. by split.
Qed.

Lemma bodies_walkable_ok data bodies codes : Forall2 (code_of data) bodies codes -> bodies_walkable data bodies = Ret true.
Proof.
  induction 1 as [|b c bodies codes (body & Hb & Hd) _ IH]; [done|]. cbn [bodies_walkable]. rewrite Hb.
  cbn [mbind outcome_bind]. by destruct (decodes_walk _ _ _ Hd) as [-> ->].
Qed.

Lemma ensure_same m m' : ensure_function_bodies_parsed m = Ret m' ->
  wm_data m' = wm_data m /\ wm_sections m' = wm_sections m.
Proof.
  unfold ensure_function_bodies_parsed. destruct (wm_function_bodies m); [by intros [= <-]|].
  intros H. outcome_inv. done.
Qed.

(** The sections of the output, one after the other. *)
Lemma emit_all m codes r flags : Forall2 (code_of (wm_data m)) (function_bodies m) codes ->
  flags_of (index_map r) (num_imports r) flags -> length flags = length codes -> defined_kept r = count_kept flags ->
  0 <= num_imports r /\ num_imports r + len codes < 2 ^ 32 -> len (wm_data m) < 2 ^ 32 ->
  forall cs cs', Forall2 (dce_chunk codes (index_map r) flags) cs cs' -> Forall chunk_ok cs ->
  forall pre, wm_data m = pre ++ chunks_bytes cs ->
  mapM (emit_dce_section m r) (sections_at (len pre) cs) = Ret (ck_bytes <$> cs').
Proof.
  intros Hb Hf Hl Hk Hs Hsize cs cs' H. induction H as [|c c' cs cs' Hc _ IH]; intros Hok pre Hd; [done|].
  apply Forall_cons in Hok as [Hcok Hok]. rewrite chunks_bytes_cons in Hd. cbn [sections_at mapM].
  rewrite (emit_chunk m codes r flags Hb Hf Hl Hk Hs pre c c' (chunks_bytes cs) Hd Hcok Hsize Hc).
  cbn [mbind outcome_bind]. specialize (IH Hok (pre ++ ck_bytes c)). rewrite len_app in IH.
  rewrite IH by (by rewrite Hd, <- app_assoc). done.
Qed.

(** One reference. *)
Lemma reference_follows m m' d reach : dce_reads m m' d -> dce_marks d reach ->
  let r := mkDce (compact reach 0) (df_imports d) (count_kept (drop (Z.to_nat (df_imports d)) reach)) in
  forall k c t op j, df_codes d !! k = Some c -> is_Some (get_flatten (index_map r) (df_imports d + Z.of_nat k)) ->
    In t (snd c) -> op = OP_CALL \/ op = OP_REF_FUNC -> refers op t = Some j -> j < df_total d ->
    exists j', refers op (rename (index_map r) t) = Some j' /\ get_flatten (index_map r) j = Some j' /\
    j' < df_imports d + defined_kept r /\
    forall i c', j = df_imports d + Z.of_nat i -> df_codes d !! i = Some c' ->
      kept (kept_flags r) (df_codes d) !! Z.to_nat (j' - df_imports d) = Some c'.
Proof.
  intros H Hm r. pose proof (dr_size _ _ _ H) as [Hn Ht]. pose proof (dm_len _ _ Hm) as Hl. subst r.
  intros k c t op j Hc Hk Hin Hop Href Hj. rewrite kept_flags_compact. cbn [index_map defined_kept] in *.
  apply compact_kept in Hk. pose proof (target_kept d reach Hm Hn k c op t j Hc Hk Hin Hop Href Hj) as Hmj.
  apply compact_kept in Hmj as [j' Hj']. exists j'. pose proof (refers_natural _ _ _ Href) as Hj0.
  assert (Hct : complete t).
  { destruct (Forall2_lookup_r _ _ _ _ _ (dr_codes _ _ _ H) Hc) as (b & _ & body & _ & [_ _ Hts]).
    rewrite Forall_forall in Hts. by apply Hts, list_elem_of_In. }
  split; [|split; [done|split]].
  - rewrite refers_rename, Href by (done || apply compact_ok; lia). cbn [fmap option_fmap option_map]. by rewrite Hj'.
  - destruct (Z.lt_ge_cases j (df_imports d)) as [Hlt|Hge].
    + rewrite (new_index_import d reach Hm Hn) in Hj' by lia. injection Hj' as <-.
      pose proof (count_kept_bounds (drop (Z.to_nat (df_imports d)) reach)). lia.
    + destruct (lookup_lt_is_Some_2 (df_codes d) (Z.to_nat (j - df_imports d))) as [c' Hc'].
      { unfold df_total, len in *. lia. }
      eapply (new_index_body d reach Hm Hn); [|exact Hc']. by replace (df_imports d + Z.of_nat (Z.to_nat (j - df_imports d))) with j by lia.
  - intros i c' -> Hc'. by eapply (new_index_body d reach Hm Hn).
Qed.

Lemma rename_other index_map t : opcode t <> OP_CALL -> opcode t <> OP_REF_FUNC -> rename index_map t = t.
Proof. intros H1 H2. unfold rename. by rewrite (proj2 (Z.eqb_neq _ _) H1), (proj2 (Z.eqb_neq _ _) H2). Qed.

(** ** Properties *)

(** C8. The analysis keeps exactly the functions that are reachable from outside
    (exports, the start function, [ref.func] in bodies, globals and element
    segments, and the imports) along the calls of the decoded bodies.  It
    numbers them without gaps in their old order, the imports keeping their
    numbers.  It returns whenever the sections it reads are readable, and bails
    out only when there is no root at all. *)
Theorem dce_keeps_reachable m m' d : dce_reads m m' d -> has_roots d ->
  exists r, analyse m = Ret (m', r) /\ num_imports r = df_imports d /\
  (forall f, is_Some (get_flatten (index_map r) f) <-> reachable (ref_graph d) (ref_roots d) f) /\
  (forall f, 0 <= f < df_imports d -> get_flatten (index_map r) f = Some f) /\
  (forall f g f' g', f < g -> get_flatten (index_map r) f = Some f' -> get_flatten (index_map r) g = Some g' -> f' < g') /\
  (forall j, 0 <= j < df_imports d + defined_kept r -> exists f, get_flatten (index_map r) f = Some j).
Proof.
  intros H Hr. destruct (analyse_marks m m' d H Hr) as (reach & Hm & Ha). pose proof (dr_size _ _ _ H) as [Hn _].
  eexists. split; [exact Ha|]. cbn [num_imports index_map defined_kept]. split_and!; [done| | | |].
  - intros f. rewrite compact_kept. apply (dm_reach _ _ Hm).
  - by apply new_index_import.
  - by apply new_index_mono.
  - by apply (new_index_onto d).
Qed.

(** C7. References follow the functions they mean.  Rewriting the body of a kept function returns a
    body with the same locals and as many instructions, in order; an instruction that is no call and no
    [ref.func] is copied byte for byte, and a call or [ref.func] of the function [j] becomes, under the
    same opcode, a reference to a number [j'] that exists in the output and is the new number of
    [j]; when [j] is defined in the module, the [j']-th function of the output is made from
    the body of [j]. *)
Theorem dce_references_follow m m' d : dce_reads m m' d -> has_roots d ->
  exists r, analyse m = Ret (m', r) /\
  forall k c body, df_codes d !! k = Some c -> decodes body (fst c) (snd c) ->
    is_Some (get_flatten (index_map r) (df_imports d + Z.of_nat k)) ->
    exists out ts, rewrite_body body (index_map r) = Ret (Some out) /\ decodes out (fst c) ts /\
    Forall2 (fun t t' =>
      (opcode t <> OP_CALL -> opcode t <> OP_REF_FUNC -> t' = t) /\
      forall op j, op = OP_CALL \/ op = OP_REF_FUNC -> refers op t = Some j -> j < df_total d ->
        exists j', refers op t' = Some j' /\ get_flatten (index_map r) j = Some j' /\
        j' < df_imports d + defined_kept r /\
        forall i c', j = df_imports d + Z.of_nat i -> df_codes d !! i = Some c' ->
          kept (kept_flags r) (df_codes d) !! Z.to_nat (j' - df_imports d) = Some c') (snd c) ts.
Proof.
  intros H Hr. destruct (analyse_marks m m' d H Hr) as (reach & Hm & Ha). pose proof (dr_size _ _ _ H) as [Hn Ht].
  eexists. split; [exact Ha|]. intros k c body Hc Hd Hk. cbn [index_map] in *.
  assert (Hok : index_map_ok (compact reach 0)) by (apply compact_ok; rewrite (dm_len _ _ Hm); lia).
  exists (fst c ++ mjoin (rename (compact reach 0) <$> snd c)), (rename (compact reach 0) <$> snd c).
  split_and!; [by apply rewrite_body_spec|by eapply rename_decodes|]. apply Forall2_fmap_r, Forall_Forall2_diag, Forall_forall.
  intros t Hin. apply list_elem_of_In in Hin. split; [by apply rename_other|]. intros op j Hop Href Hj.
  by apply (reference_follows m m' d reach H Hm k c t op j).
Qed.

(** C2. The pass as a whole.  On a module whose bodies decode and whose sections have
    the usual contents, the pass returns: the input itself when every function
    is reachable, and otherwise the input with each section replaced as
    [dce_chunk] says - the types and bodies of the functions kept, with every
    function index of the exports, the start section, the globals, the element
    segments and the code renumbered by the table that it also returns. *)
Theorem dce_apply_refines data cs m' d :
  data = wasm_header ++ chunks_bytes cs -> Forall chunk_ok cs -> len data < 2 ^ 32 ->
  let m := mkModule data (sections_at 8 cs) None in
  dce_reads m m' d -> has_roots d ->
  exists r, analyse m = Ret (m', r) /\
  forall cs', Forall2 (dce_chunk (df_codes d) (index_map r) (kept_flags r)) cs cs' ->
  apply_with_remap m = Ret (if defined_kept r =? len (df_codes d)
                            then (data, identity (df_total d))
                            else (wasm_header ++ chunks_bytes cs', from_entries (index_map r))).
Proof.
  intros Hdata Hcs Hl m H Hr. destruct (ensure_same m m' (dr_parsed _ _ _ H)) as [Hwd Hws]. cbn [m wm_data wm_sections] in Hwd, Hws.
  destruct (analyse_marks m m' d H Hr) as (reach & Hm & Ha). eexists. split; [exact Ha|].
  intros cs'. rewrite kept_flags_compact. cbn [index_map defined_kept]. intros Hc. pose proof (dr_size _ _ _ H) as [Hn Ht].
  pose proof (len_nonneg (df_codes d)) as Hc0. pose proof (dr_codes _ _ _ H) as Hcodes.
  assert (Hnum : num_function_bodies m' = len (df_codes d)).
  { unfold num_function_bodies. rewrite (dr_bodies _ _ _ H). unfold len. by rewrite (Forall2_length _ _ _ Hcodes). }
  unfold apply_with_remap. rewrite Ha. cbn [mbind outcome_bind num_imports defined_kept].
  set (fl := drop (Z.to_nat (df_imports d)) reach) in *.
  unfold df_total in *. rewrite Hnum, (wrap_id 32 (len _)) by (unfold is_uint; lia).
  rewrite wrap_id by (unfold is_uint; lia). rewrite Hwd.
  destruct (count_kept fl =? len (df_codes d)); [done|].
  unfold all_bodies_walkable. rewrite (bodies_walkable_ok _ _ _ Hcodes). cbn [mbind outcome_bind negb].
  assert (Hh : slice data 0 8 = Ret wasm_header) by (rewrite Hdata; exact (slice_prefix wasm_header (chunks_bytes cs))).
  rewrite Hh. cbn [mbind outcome_bind]. rewrite Hws.
  set (r := mkDce (compact reach 0) (df_imports d) (count_kept fl)).
  pose proof (flags_of_marks d reach Hm Hn) as Hfl. fold fl in Hfl.
  pose proof (emit_all m' (df_codes d) r fl Hcodes Hfl (flags_length d reach Hm Hn) eq_refl (conj Hn Ht)
    ltac:(by rewrite Hwd) cs cs' Hc Hcs wasm_header ltac:(by rewrite Hwd)) as Hemit.
  change (len wasm_header) with 8 in Hemit. by rewrite Hemit.
Qed.

(** ** An example *)

(** Function 0 is exported and calls 2; 3 is in the table; 1 is dead. *)
Definition sample_dce_chunks : list chunk :=
  [mkChunk 1 [4] [1; 0x60; 0; 0]; mkChunk 3 [5] [4; 0; 0; 0; 0]; mkChunk 6 [6] [1; 0x70; 0; 0xD2; 0; 0x0B];
   mkChunk 7 [5] [1; 1; 95; 0; 0]; mkChunk 8 [1] [2]; mkChunk 9 [7] [1; 0; 0x41; 0; 0x0B; 1; 3];
   mkChunk 10 [17] [4; 4; 0; 16; 2; 11; 2; 0; 11; 2; 0; 11; 4; 0; 16; 0; 11]].
Definition sample_dce_data : bytes := wasm_header ++ chunks_bytes sample_dce_chunks.
Definition sample_dce_module : WasmModule := mkModule sample_dce_data (sections_at 8 sample_dce_chunks) None.
Definition sample_dce_parsed : WasmModule :=
  mkModule sample_dce_data (sections_at 8 sample_dce_chunks)
    (match parse_function_bodies sample_dce_module with Ret b => Some b | Panic => None end).
Definition sample_dce_facts : dce_facts :=
  mkDceFacts [([0], [[16; 2]; [11]]); ([0], [[11]]); ([0], [[11]]); ([0], [[16; 0]; [11]])] 0 [0] (Some 2) [0] [3].

Lemma sample_dce_reads : dce_reads sample_dce_module sample_dce_parsed sample_dce_facts.
Proof.
  constructor; try reflexivity; [|by split].
  repeat (apply Forall2_cons; split; [eexists; split; [reflexivity|by repeat constructor]|]). constructor.
Defined.

Lemma sample_dce_roots : has_roots sample_dce_facts.
Proof. by left. Defined.

Lemma dce_keeps_reachable_witness :
  exists r, analyse sample_dce_module = Ret (sample_dce_parsed, r) /\ index_map r = [Some 0; None; Some 1; Some 2] /\
    reachable (ref_graph sample_dce_facts) (ref_roots sample_dce_facts) 2 /\
    ~ reachable (ref_graph sample_dce_facts) (ref_roots sample_dce_facts) 1.
Proof.
  destruct (dce_keeps_reachable _ _ _ sample_dce_reads sample_dce_roots) as (r & Ha & _ & Hk & _).
  exists r. split; [exact Ha|]. assert (Er : r = mkDce [Some 0; None; Some 1; Some 2] 0 3).
  { vm_compute in Ha. congruence. }
  subst r. split; [reflexivity|]. split.
  - apply Hk. by eexists.
  - intros H. apply Hk in H as [j Hj]. discriminate Hj.
Defined.

(** The call of function 2 in function 0, whose body is [call 2; end]. *)
Lemma dce_references_follow_witness :
  exists r out t ts j', analyse sample_dce_module = Ret (sample_dce_parsed, r) /\
    rewrite_body [0; 16; 2; 11] (index_map r) = Ret (Some out) /\ decodes out [0] (t :: ts) /\ refers OP_CALL t = Some j' /\
    kept (kept_flags r) (df_codes sample_dce_facts) !! Z.to_nat j' = Some ([0], [[11]]).
Proof.
  destruct (dce_references_follow _ _ _ sample_dce_reads sample_dce_roots) as (r & Ha & H).
  assert (Er : r = mkDce [Some 0; None; Some 1; Some 2] 0 3) by (vm_compute in Ha; congruence).
  subst r. destruct (H 0%nat ([0], [[16; 2]; [11]]) [0; 16; 2; 11]) as (out & ts & Ho & Hd & Hf);
    [reflexivity|by repeat constructor|by eexists|].
  destruct ts as [|t ts]; [inversion Hf|]. apply Forall2_cons in Hf as [[_ Ht] _].
  destruct (Ht OP_CALL 2) as (j' & Hj & _ & _ & Hb); [by left|reflexivity|reflexivity|].
  exists (mkDce [Some 0; None; Some 1; Some 2] 0 3), out, t, ts, j'. split; [exact Ha|]. split; [exact Ho|]. split; [exact Hd|]. split; [exact Hj|].
  specialize (Hb 2%nat ([0], [[11]]) eq_refl eq_refl).
  change (df_imports sample_dce_facts) with 0 in Hb. by rewrite Z.sub_0_r in Hb.
Defined.

Definition sample_dce_output : list chunk :=
  [mkChunk 1 [4] [1; 0x60; 0; 0]; mkChunk 3 [4] [3; 0; 0; 0]; mkChunk 6 [6] [1; 0x70; 0; 0xD2; 0; 0x0B];
   mkChunk 7 [5] [1; 1; 95; 0; 0]; mkChunk 8 [1] [1]; mkChunk 9 [7] [1; 0; 0x41; 0; 0x0B; 1; 2];
   mkChunk 10 [14] [3; 4; 0; 16; 1; 11; 2; 0; 11; 4; 0; 16; 0; 11]].

Lemma sample_dce_chunk : Forall2 (dce_chunk (df_codes sample_dce_facts) [Some 0; None; Some 1; Some 2] [true; false; true; true])
  sample_dce_chunks sample_dce_output.
Proof.
  constructor; [by apply dce_untouched|].
  constructor; [exact (dce_functions (df_codes sample_dce_facts) [Some 0; None; Some 1; Some 2] [true; false; true; true] (mkChunk 3 [5] [4; 0; 0; 0; 0]) [4] [[0]; [0]; [0]; [0]] [0; 0; 0; 0] eq_refl eq_refl eq_refl ltac:(by repeat constructor) eq_refl)|].
  constructor; [exact (dce_globals (df_codes sample_dce_facts) [Some 0; None; Some 1; Some 2] [true; false; true; true] (mkChunk 6 [6] [1; 0x70; 0; 0xD2; 0; 0x0B]) [1] [mkGlobal [0x70; 0] [[0xD2; 0]]] eq_refl eq_refl eq_refl ltac:(by repeat constructor))|].
  constructor; [exact (dce_exports (df_codes sample_dce_facts) [Some 0; None; Some 1; Some 2] [true; false; true; true] (mkChunk 7 [5] [1; 1; 95; 0; 0]) [1] [mkExport [1] [95] 0 [0] 0] eq_refl eq_refl eq_refl ltac:(by repeat constructor))|].
  constructor; [exact (dce_start (df_codes sample_dce_facts) [Some 0; None; Some 1; Some 2] [true; false; true; true] (mkChunk 8 [1] [2]) [2] 2 [] eq_refl eq_refl eq_refl)|].
  constructor; [exact (dce_elements (df_codes sample_dce_facts) [Some 0; None; Some 1; Some 2] [true; false; true; true] (mkChunk 9 [7] [1; 0; 0x41; 0; 0x0B; 1; 3]) [1]
    [seg_active [0] [[0x41; 0]] (mkVec [1] [([3], 3)])] eq_refl eq_refl eq_refl ltac:(by repeat constructor))|].
  constructor; [|constructor].
  exact (dce_code (df_codes sample_dce_facts) [Some 0; None; Some 1; Some 2] [true; false; true; true]
    (mkChunk 10 [17] [4; 4; 0; 16; 2; 11; 2; 0; 11; 2; 0; 11; 4; 0; 16; 0; 11]) eq_refl).
Defined.

Lemma dce_apply_refines_witness :
  apply_with_remap sample_dce_module
  = Ret (wasm_header ++ chunks_bytes sample_dce_output, from_entries [Some 0; None; Some 1; Some 2]).
Proof.
  destruct (dce_apply_refines sample_dce_data sample_dce_chunks sample_dce_parsed sample_dce_facts eq_refl
    ltac:(by repeat constructor) eq_refl sample_dce_reads sample_dce_roots) as (r & Ha & H).
  assert (Er : r = mkDce [Some 0; None; Some 1; Some 2] 0 3) by (vm_compute in Ha; congruence).
  subst r. exact (H _ sample_dce_chunk).
Defined.

(** Three functions: 0 is exported, 1 is dead, and 2 is the initial element of the
    table, whose entry has an initialiser expression. *)
Definition table_sections (functions code : bytes) : bytes :=
  wasm_header ++ [1; 4; 1; 0x60; 0; 0] ++ functions ++ [4; 9; 1; 0x40; 0; 0x70; 0; 1; 0xD2; 2; 0x0B]
  ++ [7; 5; 1; 1; 95; 0; 0] ++ code.

(** Function references in table initialisers are neither followed nor
    renumbered, although the pass is documented to bail out on tables that carry
    them: of the module above it deletes function 2 and copies the table section, so
    the output, a module of one function, initialises its table with
    [ref.func 2]. *)
Theorem dce_table_initialiser_dangles :
  let input := table_sections [3; 4; 3; 0; 0; 0] [10; 10; 3; 2; 0; 0x0B; 2; 0; 0x0B; 2; 0; 0x0B] in
  exists m, parse input = Ret (Ok m) /\
  apply_with_remap m = Ret (table_sections [3; 2; 1; 0] [10; 4; 1; 2; 0; 0x0B], from_entries [Some 0; None; None]) /\
  remap_lookup (from_entries [Some 0; None; None]) 2 = None.
Proof. eexists. split_and!; reflexivity. Qed.
