(* ===== verification/Pipeline.v ===== *)
(** The body passes chained, as the driver ([wilt/src/lib.rs], the [MutModule]
    block of [optimise_once_with_hints]) chains them on one copy-on-write module:
    each pass meets the contract [BodyPass], so any sequence of them preserves
    the behaviour of every body. *)
From S2P Require Import Prelude Leb128 Opcode Tokens WasmSem Peephole WasmSpec Provenance WasmModule MutModule BodyPass ConstFold Vacuum VacuumEdits IfFold IfFoldSpec.

(** The passes modelled, in the driver's order. *)
Definition body_passes : list (bytes -> outcome (option (bytes * BodyEdits))) :=
  [fold_body_with_edits; if_rewrite_body; clean_with_edits].

Lemma body_passes_ok : Forall BodyPass body_passes.
Proof. unfold body_passes. repeat (apply Forall_cons; split; [apply _|]). constructor. Qed.

Lemma mm_new_tracked input m : mm_new input = Ret (Ok m) -> tracked m.
Proof.
  intros H. split; [by eapply mm_new_wf|]. unfold mm_new in H. destruct (parse input) as [[w|]|]; [|done..].
  outcome_inv. simpl. apply Forall_replicate. done.
Qed.

Lemma chosen_ok passes : Forall (fun r => In r body_passes) passes -> Forall BodyPass passes.
Proof.
  intros H. eapply Forall_impl; [exact H|]. intros r Hr. pose proof body_passes_ok as Hall.
  rewrite Forall_forall in Hall. by apply Hall, list_elem_of_In.
Qed.

(** ** Properties *)

(** C1. Any sequence of the modelled passes, run on a module as [MutModule::new]
    builds it whose bodies are all valid, succeeds and leaves everything but the
    bodies alone; and each final body is still valid, under the same locals, and
    its code reproduces every run of the original body that does not get stuck,
    on every machine that implements the WebAssembly instructions.  A body is valid
    when it decodes, its blocks are properly nested, and it has none of the
    instructions that branch on references ([br_on_null], [br_on_non_null] and those
    with prefix 0xFB): for those the claim is false, since [if_fold] breaks them
    ([IfFoldSpec.if_fold_breaks_br_on_null]).  The bodies must be small enough that doubling in
    every pass stays below 4 GiB. *)
Theorem pipeline_preserves input m passes size :
  mm_new input = Ret (Ok m) -> Forall (fun r => In r body_passes) passes ->
  valid_module m size -> size * 2 ^ len passes <= 2 ^ 32 ->
  exists m', run_passes passes m = Ret m' /\ tracked m' /\
  mm_sections m' = mm_sections m /\ section_overrides m' = section_overrides m /\
  section_removed m' = section_removed m /\
  forall i b locals p, (i < length (mm_bodies m))%nat -> body_bytes m (Z.of_nat i) = Ret b ->
    valid_body b locals p ->
    exists b' q, body_bytes m' (Z.of_nat i) = Ret b' /\ valid_body b' locals q /\ preserves p q.
Proof.
  intros Hn Hp Hv Hs.
  destruct (run_passes_sound passes (chosen_ok _ Hp) m size (mm_new_tracked _ _ Hn) Hv Hs)
    as (m' & Hrun & Ht & _ & _ & H1 & H2 & H3 & Hb).
  exists m'. by split_and!.
Qed.

(** A module with one function of code [2 + 3; if (nop) else (nop) end] and more. *)
Definition pipeline_code : list token :=
  [[0x41; 2]; [0x41; 3]; [0x6A]; [0x04; 0x40]; [0x01]; [0x05]; [0x01]; [0x0B]; [0x20; 0]; [0x0B]].
Definition pipeline_body : bytes := [0] ++ mjoin pipeline_code.
Definition pipeline_module : bytes :=
  wasm_header ++ [1; 6; 1; 0x60; 1; 0x7F; 1; 0x7F] ++ [3; 2; 1; 0]
    ++ [10; 17; 1; 15] ++ pipeline_body.

Example pipeline_runs :
  (m ←! mm_new pipeline_module; m ← run_passes body_passes m; bs ← body_bytes m 0; Ret (Ok bs))
  = Ret (Ok [0; 0x20; 0; 0x0B]).
Proof. by vm_compute. Qed.

Definition pipeline_input : MutModule :=
  match mm_new pipeline_module with Ret (Ok m) => m | _ => mkMut [] [] [] [] [] [] [] [] (mkFacts 0 [] None) end.

Lemma pipeline_input_eq : mm_new pipeline_module = Ret (Ok pipeline_input).
Proof. reflexivity. Defined.

Lemma pipeline_body_valid : valid_body pipeline_body [0] pipeline_code.
Proof. repeat constructor. Defined.

Lemma pipeline_input_valid : valid_module pipeline_input 100.
Proof.
  intros [|i] Hi; [|exfalso; change (length (mm_bodies pipeline_input)) with 1%nat in Hi; lia].
  exists pipeline_body, [0], pipeline_code. split; [reflexivity|]. split; [exact pipeline_body_valid|reflexivity].
Defined.

Lemma pipeline_preserves_witness :
  demo_run 10%nat pipeline_code = Some (Halt [I32 0] [I32 0]) /\
  exists m' b' q n, run_passes body_passes pipeline_input = Ret m' /\ body_bytes m' 0 = Ret b' /\
    valid_body b' [0] q /\ (n <= 10)%nat /\ demo_run n q = Some (Halt [I32 0] [I32 0]).
Proof.
  split; [reflexivity|].
  destruct (pipeline_preserves _ _ body_passes 100 pipeline_input_eq) as (m' & Hm' & _ & _ & _ & _ & H).
  - repeat constructor; simpl; tauto.
  - exact pipeline_input_valid.
  - discriminate.
  - destruct (H 0%nat pipeline_body [0] pipeline_code) as (b' & q & Hb & Hq & Hp);
      [constructor|reflexivity|exact pipeline_body_valid|].
    destruct (Hp Z (list (@value Z)) demo_prim demo_arity (fun _ _ => None) 1%nat demo_get demo_set (Other 0)
      [I32 0] [] 10%nat (Halt [I32 0] [I32 0]) demo_wasm demo_stack ltac:(reflexivity) ltac:(discriminate)) as (n & Hn & Hrn).
    exists m', b', q, n. split; [exact Hm'|]. split; [exact Hb|]. split; [exact Hq|]. split; [exact Hn|exact Hrn].
Defined.
