(* ===== verification/ByteOrder.v ===== *)
(** The order of byte strings that sorting and [BTreeSet] use. *)
From stdpp Require Import sorting.
From S2P Require Import Prelude.

(** [a <= b] for [Ord] on byte strings. *)
Fixpoint bytes_le (a b : bytes) : bool :=
  match a, b with
  | [], _ => true
  | _ :: _, [] => false
  | x :: a, y :: b => (x <? y) || ((x =? y) && bytes_le a b)
  end.
Definition byte_order : relation bytes := fun a b => bytes_le a b = true.
#[export] Instance byte_order_dec : RelDecision byte_order := fun a b => bool_eq_dec (bytes_le a b) true.

#[export] Instance byte_order_total : Total byte_order.
Proof.
  intros a. unfold byte_order. induction a as [|x a IH]; intros b; [by left|]. destruct b as [|y b]; [by right|].
  simpl. destruct (Z.lt_trichotomy x y) as [?|[->|?]]; [left; lia| |right; lia].
  destruct (IH b) as [->| ->]; [left|right]; rewrite Z.eqb_refl; simpl; apply orb_true_r.
Qed.

#[export] Instance byte_order_trans : Transitive byte_order.
Proof.
  intros a. unfold byte_order. induction a as [|x a IH]; intros [|y b] [|z c]; try done. simpl.
  rewrite !orb_true_iff, !andb_true_iff, !Z.ltb_lt, !Z.eqb_eq.
  intros [?|[-> Hab]] [?|[-> Hbc]]; [left; lia..|]. right. split; [done|by eapply IH].
Qed.

#[export] Instance byte_order_antisymm : AntiSymm (=) byte_order.
Proof.
  intros a. unfold byte_order. induction a as [|x a IH]; intros [|y b]; try done. simpl.
  rewrite !orb_true_iff, !andb_true_iff, !Z.ltb_lt, !Z.eqb_eq.
  intros [?|[-> Hab]] [?|[? Hba]]; [lia..|]. f_equal. by apply IH.
Qed.
