(* ===== verification/SuffixShare.v ===== *)
(** Suffix sharing of string tables ([libwild/src/suffix_share.rs]): a set of names
    is packed into one buffer of NUL-terminated strings in which a name that ends
    another one costs nothing.  The packer sorts by reversed bytes and only ever
    looks at neighbours; the theorems say that this finds every shared suffix. *)
From stdpp Require Import sorting gmap.
From S2P Require Import Prelude ByteOrder.

(** ** The packer *)

(** The order of names read backwards. *)
Definition rev_order : relation bytes := fun a b => bytes_le (reverse a) (reverse b) = true.
#[export] Instance rev_order_dec : RelDecision rev_order := fun a b => bool_eq_dec (bytes_le (reverse a) (reverse b)) true.

(** [names.into_iter().collect::<BTreeSet<_>>().into_iter().collect()] *)
Definition btree_set (names : list bytes) : list bytes :=
  merge_sort byte_order (remove_dups names).

(** [t.ends_with(s)] *)
Definition ends_with (t s : bytes) : bool := bool_decide (s `suffix_of` t).

Record Packed := mkPacked { pk_bytes : bytes; pk_offsets : gmap bytes Z }.

Definition with_leading_nul : Packed := mkPacked [0] {[ [] := 0 ]}.

(** The distinct non-empty names, by reversed bytes. *)
Definition unique_names (names : list bytes) : list bytes :=
  merge_sort rev_order (filter (fun s => s <> []) (btree_set names)).

(** [ownership[i] = Some(i + 1)] when the next name ends with name [i]. *)
Definition ownership (unique : list bytes) : list (option nat) :=
  imap (fun i s => match unique !! S i with
                   | Some t => if ends_with t s then Some (S i) else None
                   | None => None
                   end) unique.

(** The emission loop: the buffer and [emitted_offsets]. *)
Fixpoint emit_owners (l : list (bytes * option nat)) (out : bytes) : bytes * list Z :=
  match l with
  | [] => (out, [])
  | (s, None) :: l =>
      let '(buf, offsets) := emit_owners l (out ++ s ++ [0]) in (buf, u32 (len out) :: offsets)
  | (_, Some _) :: l =>
      let '(buf, offsets) := emit_owners l out in (buf, 2 ^ 32 - 1 :: offsets)
  end.

(** [while let Some(next) = ownership[owner] { owner = next; }] *)
Fixpoint find_owner (fuel : nat) (own : list (option nat)) (owner : nat) : outcome nat :=
  match fuel with
  | O => Ret owner
  | S fuel =>
      o ← index own (Z.of_nat owner);
      match o with Some next => find_owner fuel own next | None => Ret owner end
  end.

(** The offset of the name [i]. *)
Definition resolve_offset (unique : list bytes) (own : list (option nat)) (emitted : list Z) (i : nat)
  : outcome (bytes * Z) :=
  owner ← find_owner (length unique) own i;
  owner_offset ← index emitted (Z.of_nat owner);
  owner_name ← index unique (Z.of_nat owner);
  name ← index unique (Z.of_nat i);
  Ret (name, u32 (owner_offset + u32 (u32 (len owner_name) - u32 (len name)))).

Definition pack (names : list bytes) : outcome Packed :=
  let unique := unique_names names in
  let own := ownership unique in
  let '(buf, emitted) := emit_owners (zip unique own) [0] in
  offsets ← mapM (resolve_offset unique own emitted) (seq 0 (length unique));
  Ret (mkPacked buf (foldl (fun m '(name, off) => <[name := off]> m) {[ [] := 0 ]} offsets)).

(** The size loop of [packed_size]. *)
Fixpoint packed_size_loop (unique : list bytes) (size : Z) : Z :=
  match unique with
  | [] => size
  | s :: rest =>
      let is_absorbed := match rest with t :: _ => ends_with t s | [] => false end in
      packed_size_loop rest (if is_absorbed then size else size + (len s + 1))
  end.

Definition packed_size (names : list bytes) : Z := packed_size_loop (unique_names names) 1.

(** [.map(|s| s.len() + 1).sum()] *)
Definition total_size (l : list bytes) : Z := foldr (fun s acc => len s + 1 + acc) 0 l.

Definition naive_size (names : list bytes) : Z :=
  1 + total_size (filter (fun s => s <> []) (btree_set names)).

(** The unit tests of the module ([foobar]/[bar], a chain, the drift guard). *)
Example exact_suffix_absorbed :
  pack [[102; 111; 111; 98; 97; 114]; [98; 97; 114]]
  = Ret (mkPacked [0; 102; 111; 111; 98; 97; 114; 0]
      (<[[102; 111; 111; 98; 97; 114] := 1]> (<[[98; 97; 114] := 4]> {[ [] := 0 ]}))).
Proof. vm_compute. reflexivity. Qed.
Example chain_of_suffixes :
  pk_bytes <$> pack [[97; 98; 99]; [98; 99]; [99]] = Ret [0; 97; 98; 99; 0].
Proof. vm_compute. reflexivity. Qed.
Example drift_guard :
  pk_bytes <$> pack [[102; 111; 111]; [102; 111; 111; 98; 97; 114]; [98; 97; 114]; [113; 117; 117; 120]]
  = Ret [0; 102; 111; 111; 0; 102; 111; 111; 98; 97; 114; 0; 113; 117; 117; 120; 0].
Proof. vm_compute. reflexivity. Qed.

(** ** The order *)

Lemma rev_order_byte a b : rev_order a b <-> byte_order (reverse a) (reverse b).
Proof. done. Qed.

#[export] Instance rev_order_total : Total rev_order.
Proof. intros a b. apply (total byte_order). Qed.
#[export] Instance rev_order_trans : Transitive rev_order.
Proof. intros a b c. rewrite !rev_order_byte. apply transitivity. Qed.
#[export] Instance rev_order_antisymm : AntiSymm (=) rev_order.
Proof.
  intros a b Hab Hba. rewrite <- (reverse_involutive a), <- (reverse_involutive b). f_equal. by apply (anti_symm byte_order).
Qed.

(** Everything between a word and one of its extensions extends the word. *)
Lemma prefix_between p u t : p `prefix_of` t -> byte_order p u -> byte_order u t -> p `prefix_of` u.
Proof.
  intros [k ->]. revert u. unfold byte_order. induction p as [|x p IH]; intros u; [intros; apply prefix_nil|].
  destruct u as [|y u]; [done|]. simpl.
  rewrite !orb_true_iff, !andb_true_iff, !Z.ltb_lt, !Z.eqb_eq.
  intros [?|[<- Hpu]] [?|[? Hut]]; [lia..|]. apply prefix_cons. by apply IH.
Qed.

Lemma suffix_reverse (s t : bytes) : s `suffix_of` t <-> reverse s `prefix_of` reverse t.
Proof. by rewrite suffix_prefix_reverse. Qed.

Lemma suffix_between s u t : s `suffix_of` t -> rev_order s u -> rev_order u t -> s `suffix_of` u.
Proof. rewrite !suffix_reverse, !rev_order_byte. apply prefix_between. Qed.

Lemma suffix_order s t : s `suffix_of` t -> rev_order s t.
Proof.
  rewrite suffix_reverse, rev_order_byte. intros [k ->]. unfold byte_order.
  induction (reverse s) as [|x p IH]; [done|]. simpl. by rewrite IH, Z.eqb_refl, orb_true_r.
Qed.

(** ** The names *)

Lemma unique_names_perm names : unique_names names ≡ₚ filter (fun s => s <> []) (remove_dups names).
Proof.
  unfold unique_names, btree_set. rewrite merge_sort_Permutation. by rewrite merge_sort_Permutation.
Qed.

Lemma elem_of_unique names s : s ∈ unique_names names <-> s <> [] /\ s ∈ names.
Proof. by rewrite unique_names_perm, list_elem_of_filter, elem_of_remove_dups. Qed.

Lemma unique_names_NoDup names : NoDup (unique_names names).
Proof. rewrite unique_names_perm. apply NoDup_filter, NoDup_remove_dups. Qed.

Lemma unique_names_sorted names : StronglySorted rev_order (unique_names names).
Proof. apply StronglySorted_merge_sort; apply _. Qed.

(** The order and the multiplicity of the names do not matter. *)
Lemma unique_names_ext names names' : (forall s, s ∈ names <-> s ∈ names') -> unique_names names = unique_names names'.
Proof.
  intros H. apply (StronglySorted_unique rev_order); [apply unique_names_sorted..|].
  apply NoDup_Permutation; [apply unique_names_NoDup..|]. intros s. by rewrite !elem_of_unique, H.
Qed.

(** Looking at the next name is enough. *)
Lemma absorbed_next p s rest : StronglySorted rev_order (p ++ s :: rest) -> NoDup (p ++ s :: rest) ->
  (exists t, t ∈ p ++ s :: rest /\ t <> s /\ s `suffix_of` t) <-> exists t rest', rest = t :: rest' /\ s `suffix_of` t.
Proof.
  intros Hs Hnd. split.
  - intros (t & Ht & Hne & Hst). apply StronglySorted_app in Hs as (Hps & _ & Hs).
    apply StronglySorted_cons in Hs as [Hs Hs'].
    assert (Htr : t ∈ rest).
    { apply elem_of_app in Ht as [Ht|Ht].
      - exfalso. apply Hne. apply (anti_symm rev_order); [|by apply suffix_order].
        apply Hps; [done|apply list_elem_of_here].
      - by apply elem_of_cons in Ht as [?|?]. }
    destruct rest as [|u rest]; [by apply elem_of_nil in Htr|]. exists u, rest. split; [done|].
    apply Forall_cons in Hs as [Hsu _]. apply StronglySorted_cons in Hs' as [Hu _].
    apply elem_of_cons in Htr as [->|Htr]; [done|]. eapply suffix_between; [exact Hst|done|].
    rewrite Forall_forall in Hu. by apply Hu.
  - intros (t & rest' & -> & Hst). exists t. split_and!; [|intros ->|done].
    + apply elem_of_app. right. apply elem_of_cons. right. apply list_elem_of_here.
    + apply NoDup_app in Hnd as (_ & _ & Hnd). apply NoDup_cons in Hnd as [Hn _]. apply Hn, list_elem_of_here.
Qed.

(** ** Emission *)

Definition owned (l : list (bytes * option nat)) : list bytes :=
  omap (fun '(s, o) => match o with None => Some s | Some _ => None end) l.
Definition terminated (l : list bytes) : bytes := mjoin ((fun s => s ++ [0]) <$> l).

Lemma owned_app l1 l2 : owned (l1 ++ l2) = owned l1 ++ owned l2.
Proof. apply omap_app. Qed.
Lemma owned_cons s o l : owned ((s, o) :: l) = match o with None => s :: owned l | Some _ => owned l end.
Proof. by destruct o. Qed.

Lemma terminated_cons s l : terminated (s :: l) = s ++ 0 :: terminated l.
Proof. unfold terminated. simpl. by rewrite <- app_assoc. Qed.

Lemma terminated_app l1 l2 : terminated (l1 ++ l2) = terminated l1 ++ terminated l2.
Proof. unfold terminated. by rewrite fmap_app, join_app. Qed.

Lemma terminated_len l : len (terminated l) = total_size l.
Proof.
  induction l as [|s l IH]; [done|]. rewrite terminated_cons, len_app, len_cons, IH. simpl. lia.
Qed.

Lemma emit_owners_buf l out : fst (emit_owners l out) = out ++ terminated (owned l).
Proof.
  revert out. induction l as [|[s [o|]] l IH]; intros out; simpl.
  - by rewrite app_nil_r.
  - specialize (IH out). by destruct (emit_owners l out).
  - specialize (IH (out ++ s ++ [0])). destruct (emit_owners l _) as [buf offs]. simpl in *.
    unfold owned in *. simpl. rewrite IH, terminated_cons, <- !app_assoc. done.
Qed.

Lemma emit_owners_at pre s post out :
  snd (emit_owners (pre ++ (s, None) :: post) out) !! length pre = Some (u32 (len out + total_size (owned pre))).
Proof.
  revert out. induction pre as [|[t [o|]] pre IH]; intros out; simpl.
  - destruct (emit_owners post _). simpl. do 2 f_equal. lia.
  - specialize (IH out). by destruct (emit_owners _ out).
  - specialize (IH (out ++ t ++ [0])). destruct (emit_owners _ (out ++ t ++ [0])). simpl in *. rewrite IH.
    do 2 f_equal. rewrite !len_app, len_cons, len_nil. fold (owned pre). lia.
Qed.

Lemma ownership_lookup unique i s : unique !! i = Some s ->
  ownership unique !! i = Some (match unique !! S i with
                                | Some t => if ends_with t s then Some (S i) else None
                                | None => None
                                end).
Proof. intros H. unfold ownership. by rewrite list_lookup_imap, H. Qed.

(** The chain of owners ends, at a name that ends with the one it started from. *)
Lemma find_owner_spec unique fuel i s : unique !! i = Some s -> (length unique <= i + fuel)%nat ->
  exists k t, find_owner fuel (ownership unique) i = Ret k /\ unique !! k = Some t /\
    ownership unique !! k = Some None /\ s `suffix_of` t.
Proof.
  revert i s. induction fuel as [|fuel IH]; intros i s Hi Hf.
  { apply lookup_lt_Some in Hi. lia. }
  cbn [find_owner]. pose proof (ownership_lookup _ _ _ Hi) as Ho. rewrite (index_lookup _ _ _ Ho). cbn [mbind outcome_bind].
  destruct (unique !! S i) as [t|] eqn:Et; [|by exists i, s].
  unfold ends_with in *. case_bool_decide as Hst; [|by exists i, s].
  destruct (IH (S i) t Et) as (k & r & Hk & Hr & Hok & Htr); [lia|].
  exists k, r. split_and!; [done..|]. by etransitivity.
Qed.

(** The bytes of an owner in the buffer. *)
Lemma owner_bytes unique k t : unique !! k = Some t -> ownership unique !! k = Some None ->
  let l := zip unique (ownership unique) in
  exists off post, fst (emit_owners l [0]) = (take (Z.to_nat off) (fst (emit_owners l [0]))) ++ t ++ 0 :: post /\
    0 <= off <= len (fst (emit_owners l [0])) /\ snd (emit_owners l [0]) !! k = Some (u32 off).
Proof.
  intros Ht Ho l.
  assert (Hl : l !! k = Some (t, None)) by (by apply lookup_zip_Some).
  pose proof (lookup_lt_Some _ _ _ Hl) as Hlt.
  assert (Hs : l = take k l ++ (t, None) :: drop (S k) l) by (by rewrite take_drop_middle).
  assert (Hlen : length (take k l) = k) by (rewrite length_take; lia).
  exists (1 + total_size (owned (take k l))), (terminated (owned (drop (S k) l))).
  assert (Hb : fst (emit_owners l [0]) = ([0] ++ terminated (owned (take k l))) ++ t ++ 0 :: terminated (owned (drop (S k) l))).
  { rewrite emit_owners_buf. rewrite Hs at 1. rewrite owned_app, owned_cons.
    rewrite terminated_app, terminated_cons, <- !app_assoc. done. }
  assert (Hp : len ([0] ++ terminated (owned (take k l))) = 1 + total_size (owned (take k l))).
  { by rewrite len_app, terminated_len. }
  pose proof (len_nonneg ([0] ++ terminated (owned (take k l)))). rewrite Hp in *.
  split_and!; [|lia| |].
  - rewrite Hb. rewrite take_app_length'; [done|]. unfold len in Hp. lia.
  - rewrite Hb, len_app, Hp. pose proof (len_nonneg (t ++ 0 :: terminated (owned (drop (S k) l)))). lia.
  - pose proof (emit_owners_at (take k l) t (drop (S k) l) [0]) as He. rewrite <- Hs, Hlen in He. exact He.
Qed.

(** What an entry of the offset table must satisfy: the name is there, and ends. *)
Definition resolves (buf : bytes) (s : bytes) (off : Z) : Prop :=
  get_range buf off (off + len s + 1) = Some (s ++ [0]).

Lemma resolve_offset_spec unique i s : unique !! i = Some s ->
  let l := zip unique (ownership unique) in
  exists off, resolve_offset unique (ownership unique) (snd (emit_owners l [0])) i = Ret (s, off) /\
    (len (fst (emit_owners l [0])) < 2 ^ 32 -> resolves (fst (emit_owners l [0])) s off).
Proof.
  intros Hi l. destruct (find_owner_spec unique (length unique) i s Hi) as (k & t & Hk & Ht & Hok & [r ->]); [lia|].
  destruct (owner_bytes unique k _ Ht Hok) as (off & post & Hb & Hoff & He). fold l in Hb, Hoff, He.
  set (buf := fst (emit_owners l [0])) in *. set (emitted := snd (emit_owners l [0])) in *.
  exists (u32 (u32 off + u32 (u32 (len (r ++ s)) - u32 (len s)))). split.
  { unfold resolve_offset. rewrite Hk. cbn [mbind outcome_bind].
    rewrite (index_lookup _ _ _ He). cbn [mbind outcome_bind].
    rewrite (index_lookup _ _ _ Ht). cbn [mbind outcome_bind].
    by rewrite (index_lookup _ _ _ Hi). }
  intros Hlen. pose proof (f_equal len Hb) as Hl.
  rewrite !len_app, len_take, len_cons in Hl.
  pose proof (len_nonneg r). pose proof (len_nonneg s). pose proof (len_nonneg post).
  assert (Hbuf : exists p, buf = (p ++ r) ++ (s ++ [0]) ++ post /\ len p = off).
  { exists (take (Z.to_nat off) buf). split; [rewrite <- !app_assoc; rewrite <- app_assoc in Hb; exact Hb|].
    rewrite len_take. lia. }
  destruct Hbuf as (p & Hbuf & Hp).
  rewrite (wrap_id 32 off), (wrap_id 32 (len (r ++ s))), (wrap_id 32 (len s)) by (rewrite ?len_app; unfold is_uint; lia).
  rewrite len_app. replace (len r + len s - len s) with (len r) by lia.
  rewrite (wrap_id 32 (len r)), wrap_id by (unfold is_uint; lia).
  pose proof (slice_app (p ++ r) (s ++ [0]) post) as Hs. unfold slice in Hs.
  unfold resolves. rewrite Hbuf at 1. rewrite !len_app, Hp in Hs. replace (len [0]) with 1 in Hs by done.
  rewrite Z.add_assoc in Hs. by destruct (get_range _ _ _) as [x|]; [injection Hs as ->|].
Qed.

Lemma foldl_insert_other (l : list (bytes * Z)) m s : s ∉ l.*1 ->
  foldl (fun (m : gmap bytes Z) '(name, off) => <[name := off]> m) m l !! s = m !! s.
Proof.
  revert m. induction l as [|[t off] l IH]; intros m H; simpl in *; [done|].
  apply not_elem_of_cons in H as [? H]. by rewrite IH, lookup_insert_ne.
Qed.

Lemma foldl_insert_in (l : list (bytes * Z)) m i s off : NoDup l.*1 -> l !! i = Some (s, off) ->
  foldl (fun (m : gmap bytes Z) '(name, off) => <[name := off]> m) m l !! s = Some off.
Proof.
  revert m i. induction l as [|[t o] l IH]; intros m i Hnd Hi; [done|]. simpl in *.
  apply NoDup_cons in Hnd as [Hn Hnd]. destruct i as [|i]; [|by eapply IH].
  injection Hi as -> ->. rewrite foldl_insert_other by done. by rewrite lookup_insert_eq.
Qed.

(** The whole packer: the table is total on the names. *)
Lemma pack_spec names : exists p, pack names = Ret p /\
  pk_bytes p = [0] ++ terminated (owned (zip (unique_names names) (ownership (unique_names names)))) /\
  pk_offsets p !! [] = Some 0 /\
  forall s, s <> [] -> if decide (s ∈ names)
    then exists off, pk_offsets p !! s = Some off /\ (len (pk_bytes p) < 2 ^ 32 -> resolves (pk_bytes p) s off)
    else pk_offsets p !! s = None.
Proof.
  set (unique := unique_names names). set (l := zip unique (ownership unique)).
  set (buf := fst (emit_owners l [0])). set (emitted := snd (emit_owners l [0])).
  assert (Hoffs : exists offs, mapM (resolve_offset unique (ownership unique) emitted) (seq 0 (length unique)) = Ret offs /\
    offs.*1 = unique /\ forall i s off, offs !! i = Some (s, off) -> len buf < 2 ^ 32 -> resolves buf s off).
  { assert (H : forall (us : list bytes) k, (forall j s, us !! j = Some s -> unique !! (k + j)%nat = Some s) ->
      exists offs, mapM (resolve_offset unique (ownership unique) emitted) (seq k (length us)) = Ret offs /\
        offs.*1 = us /\ forall i s off, offs !! i = Some (s, off) -> len buf < 2 ^ 32 -> resolves buf s off).
    { induction us as [|s us IH]; intros k Hus; [by exists []|]. cbn [length seq mapM].
      destruct (resolve_offset_spec unique k s) as (off & Hr & Hres); [specialize (Hus 0%nat s eq_refl); by rewrite Nat.add_0_r in Hus|].
      fold l buf emitted in Hr, Hres. rewrite Hr. cbn [mbind outcome_bind].
      destruct (IH (S k)) as (offs & -> & Ho & Hall). { intros j t Hj. rewrite <- (Hus (S j) t Hj). f_equal. lia. }
      cbn [mbind outcome_bind mret outcome_ret]. exists ((s, off) :: offs). split_and!; [done|by apply (f_equal (cons s))|].
      intros [|i] t o; simpl; [by intros [= <- <-]|apply Hall]. }
    by apply (H unique 0%nat). }
  destruct Hoffs as (offs & Hm & Hfst & Hres).
  exists (mkPacked buf (foldl (fun m '(name, off) => <[name := off]> m) {[ [] := 0 ]} offs)).
  unfold pack. fold unique l. rewrite (surjective_pairing (emit_owners l [0])). fold buf emitted. rewrite Hm.
  cbn [mbind outcome_bind pk_bytes pk_offsets]. split_and!; [done| | |].
  - unfold buf. by rewrite emit_owners_buf.
  - rewrite foldl_insert_other; [by rewrite lookup_singleton_eq|].
    rewrite Hfst. intros [? _]%elem_of_unique. done.
  - intros s Hs. destruct (decide (s ∈ names)) as [Hin|Hin].
    + assert (Hu : s ∈ offs.*1) by (rewrite Hfst; by apply elem_of_unique).
      apply list_elem_of_lookup in Hu as (i & Hi). apply list_lookup_fmap_Some in Hi as ([s' off] & -> & Hi).
      exists off. split; [|by eapply Hres]. eapply foldl_insert_in; [|exact Hi]. rewrite Hfst. apply unique_names_NoDup.
    + rewrite foldl_insert_other; [by rewrite lookup_singleton_ne|]. rewrite Hfst. by intros [_ ?]%elem_of_unique.
Qed.

(** ** Sizes *)

(** The names that are written out: those that end no other name. *)
Definition maximal (names : list bytes) (s : bytes) : Prop := s <> [] /\ Forall (fun t => s `suffix_of` t -> t = s) names.

#[export] Instance maximal_dec names s : Decision (maximal names s) := _.

(** The names the neighbour test keeps. *)
Fixpoint kept_names (unique : list bytes) : list bytes :=
  match unique with
  | [] => []
  | s :: rest =>
      if match rest with t :: _ => ends_with t s | [] => false end then kept_names rest else s :: kept_names rest
  end.

Lemma packed_size_kept unique size : packed_size_loop unique size = size + total_size (kept_names unique).
Proof.
  revert size. induction unique as [|s rest IH]; intros size; simpl; [lia|].
  rewrite IH. destruct (match rest with t :: _ => ends_with t s | [] => false end); simpl; lia.
Qed.

Lemma owned_kept unique : owned (zip unique (ownership unique)) = kept_names unique.
Proof.
  assert (H : forall pre us, unique = pre ++ us ->
    owned (zip us (imap (fun i s => match unique !! S (length pre + i) with
                                    | Some t => if ends_with t s then Some (S (length pre + i)) else None
                                    | None => None
                                    end) us)) = kept_names us); [|by apply (H [] unique)].
  intros pre us. revert pre. induction us as [|s us IH]; intros pre Hu; [done|].
  specialize (IH (pre ++ [s])). rewrite <- app_assoc in IH. specialize (IH Hu).
  cbn [imap zip kept_names]. rewrite owned_cons, Nat.add_0_r.
  replace (unique !! S (length pre)) with (head us).
  2:{ rewrite Hu, lookup_app_r by lia. replace (S (length pre) - length pre)%nat with 1%nat by lia. by destruct us. }
  rewrite <- IH.
  match goal with |- context [owned (zip us ?a)] => match goal with |- context [owned (zip us ?b)] =>
    replace a with b; [|apply imap_ext; intros i t _; unfold compose; rewrite length_app; simpl;
      by replace (length pre + S i)%nat with (length pre + 1 + i)%nat by lia] end end.
  destruct us as [|t us]; cbn [head]; [done|]. by destruct (ends_with t s).
Qed.

Lemma maximal_last names p s rest : unique_names names = p ++ s :: rest ->
  maximal names s <-> ~ exists t rest', rest = t :: rest' /\ s `suffix_of` t.
Proof.
  intros Hu. pose proof (elem_of_unique names) as Hin.
  rewrite <- (absorbed_next p s rest) by (rewrite <- Hu; apply unique_names_sorted || apply unique_names_NoDup).
  rewrite <- Hu. assert (Hne : s <> []). { apply (Hin s). rewrite Hu. apply elem_of_app. right. apply list_elem_of_here. }
  unfold maximal. rewrite Forall_forall. split.
  - intros [_ Hall] (t & Ht & Hts & Hst). apply Hts, Hall; [by apply Hin|done].
  - intros Hno. split; [done|]. intros t Ht Hst. destruct (decide (t = s)) as [|Hts]; [done|]. exfalso. apply Hno.
    exists t. split_and!; [|done..]. apply Hin. split; [|done]. intros ->. by apply suffix_nil_inv in Hst.
Qed.

Lemma kept_maximal names : kept_names (unique_names names) = filter (maximal names) (unique_names names).
Proof.
  assert (H : forall us p, unique_names names = p ++ us -> kept_names us = filter (maximal names) us); [|by apply (H _ [])].
  induction us as [|s us IH]; intros p Hu; [done|]. cbn [kept_names]. rewrite filter_cons.
  pose proof (maximal_last names p s us Hu) as Hm. rewrite (IH (p ++ [s])) by (by rewrite <- app_assoc).
  destruct us as [|t us].
  - rewrite decide_True; [done|]. apply Hm. by intros (? & ? & [=] & _).
  - unfold ends_with. case_bool_decide as Hst.
    + rewrite decide_False; [done|]. rewrite Hm. intros Hno. apply Hno. by exists t, us.
    + rewrite decide_True; [done|]. apply Hm. by intros (? & ? & [= -> ->] & ?).
Qed.

#[export] Instance total_size_proper : Proper ((≡ₚ) ==> (=)) total_size.
Proof. intros l k. unfold total_size. induction 1 as [| | |? ? ? ? Hlk ? Hkm]; simpl; [done|lia..]. Qed.

Lemma total_size_filter (P : bytes -> Prop) `{!forall s, Decision (P s)} l : 0 <= total_size (filter P l) <= total_size l.
Proof.
  induction l as [|s l IH]; [done|]. rewrite filter_cons. pose proof (len_nonneg s).
  case_decide; unfold total_size in *; simpl; lia.
Qed.

Lemma packed_size_maximal names : packed_size names = 1 + total_size (filter (maximal names) (remove_dups names)).
Proof.
  unfold packed_size. rewrite packed_size_kept, kept_maximal, (unique_names_perm names).
  rewrite list_filter_filter. do 2 f_equal. apply list_filter_iff. intros s. unfold maximal. naive_solver.
Qed.

Lemma naive_size_eq names : naive_size names = 1 + total_size (unique_names names).
Proof. unfold naive_size. rewrite unique_names_perm. unfold btree_set. by rewrite merge_sort_Permutation. Qed.

(** Every name passed to the packer can be found in the buffer. *)
Lemma pack_entries names p : pack names = Ret p ->
  (forall s, is_Some (pk_offsets p !! s) <-> s = [] \/ s ∈ names) /\
  (len (pk_bytes p) < 2 ^ 32 -> forall s off, pk_offsets p !! s = Some off -> resolves (pk_bytes p) s off).
Proof.
  intros Hpack. destruct (pack_spec names) as (p' & Hp & Hb & Hnil & Hall). assert (p' = p) as -> by congruence.
  split; [intros s|intros Hlen s off Hs]; (destruct (decide (s = [])) as [->|Hne]; [|specialize (Hall s Hne)]).
  - rewrite Hnil. split; [by left|done].
  - destruct (decide (s ∈ names)) as [Hin|Hin].
    + destruct Hall as (off & -> & _). split; [by right|done].
    + rewrite Hall. split; [by intros [? ?]|by intros [?|?]].
  - rewrite Hnil in Hs. injection Hs as <-. rewrite Hb. unfold resolves, get_range.
    rewrite len_app. change (len (@nil Z)) with 0. pose proof (len_nonneg (terminated (owned (zip (unique_names names) (ownership (unique_names names)))))).
    replace (len [0]) with 1 by done. replace ((0 <=? 0) && _ && _) with true by lia. done.
  - destruct (decide (s ∈ names)) as [Hin|Hin]; [|congruence].
    destruct Hall as (off' & Hoff & Hres). rewrite Hoff in Hs. injection Hs as ->. by apply Hres.
Qed.

(** *** No table is smaller *)

(** A table that holds a name at an offset holds its bytes there, up to the terminator. *)
Lemma resolves_lookup buf s off : resolves buf s off ->
  0 <= off /\ off + len s + 1 <= len buf /\ forall i, (i <= length s)%nat -> buf !! (Z.to_nat off + i)%nat = (s ++ [0]) !! i.
Proof.
  unfold resolves, get_range. destruct (Z.leb_spec 0 off); [|done]. destruct (Z.leb_spec off (off + len s + 1)); [|done].
  destruct (Z.leb_spec (off + len s + 1) (len buf)); [|done]. cbn [andb]. intros [= E]. split_and!; [done..|]. intros i Hi.
  rewrite <- E, lookup_take_lt, lookup_drop by (unfold len; lia). f_equal.
Qed.

Lemma resolves_end buf s off : resolves buf s off -> buf !! (Z.to_nat off + length s)%nat = Some 0.
Proof. intros (_ & _ & ->)%resolves_lookup; [|done]. by rewrite list_lookup_middle. Qed.

Lemma resolves_inside buf s off i : resolves buf s off -> (i < length s)%nat -> buf !! (Z.to_nat off + i)%nat = s !! i.
Proof. intros (_ & _ & Hi)%resolves_lookup Hl. rewrite Hi by lia. by apply lookup_app_l. Qed.

(** Names that end at the same place share a suffix. *)
Lemma same_end buf s t off off' : resolves buf s off -> resolves buf t off' -> off + len s = off' + len t -> off' <= off -> s `suffix_of` t.
Proof.
  intros Hs Ht He Hle. destruct (resolves_lookup _ _ _ Hs) as (H0 & _ & _), (resolves_lookup _ _ _ Ht) as (H0' & _ & _).
  set (d := Z.to_nat (off - off')). assert (s = drop d t) as ->; [|by exists (take d t); rewrite take_drop].
  unfold len in He. apply list_eq. intros i. rewrite lookup_drop. destruct (decide (i < length s)%nat) as [Hi|Hi].
  - rewrite <- (resolves_inside _ _ _ _ Hs Hi), <- (resolves_inside _ _ _ (d + i) Ht) by lia. f_equal. lia.
  - rewrite !lookup_ge_None_2 by lia. done.
Qed.

(** Names without a NUL that have a byte in common end at the same place. *)
Lemma overlap_end buf s t off off' k : resolves buf s off -> resolves buf t off' -> 0 ∉ t ->
  k <= off + len s -> off' <= k -> off + len s < off' + len t -> False.
Proof.
  intros Hs Ht Hn H1 H2 H3. destruct (resolves_lookup _ _ _ Hs) as (H0 & _ & _), (resolves_lookup _ _ _ Ht) as (H0' & _ & _).
  apply Hn. apply (list_elem_of_lookup_2 t (Z.to_nat (off + len s - off'))). unfold len in *.
  rewrite <- (resolves_inside _ _ _ _ Ht), <- (resolves_end _ _ _ Hs) by lia. f_equal. lia.
Qed.

Lemma maximal_apart names buf s t off off' k : maximal names s -> maximal names t -> s ∈ names -> t ∈ names -> 0 ∉ s -> 0 ∉ t ->
  resolves buf s off -> resolves buf t off' -> off <= k <= off + len s -> off' <= k <= off' + len t -> s = t.
Proof.
  intros [_ Ms] [_ Mt] Hs Ht Ns Nt Rs Rt Hk Hk'. rewrite Forall_forall in Ms, Mt. destruct (Z.lt_trichotomy (off + len s) (off' + len t)) as [Hlt|[He|Hlt]].
  - exfalso. by eapply (overlap_end buf s t off off' k); try done; lia.
  - destruct (Z.le_ge_cases off' off); [symmetry; apply Ms; [done|]|apply Mt; [done|]]; eapply same_end; try done; lia.
  - exfalso. by eapply (overlap_end buf t s off' off k); try done; lia.
Qed.

Lemma total_size_positions (offsets : bytes -> Z) l : Z.of_nat (length (l ≫= fun s => seqZ (offsets s) (len s + 1))) = total_size l.
Proof.
  induction l as [|s l IH]; [done|]. cbn [mbind list_bind]. rewrite length_app, Nat2Z.inj_add, IH, length_seqZ. unfold total_size in *. cbn [foldr]. pose proof (len_nonneg s). lia.
Qed.

(** Whatever the table, names that end no other one have bytes of their own in it. *)
Lemma sharing_minimal names buf offsets : Forall (fun s => 0 ∉ s) names -> get buf 0 = Some 0 ->
  (forall s, s ∈ names -> resolves buf s (offsets s)) -> packed_size names <= len buf.
Proof.
  intros Hn H0 Hr. rewrite packed_size_maximal. set (ms := filter _ _). rewrite <- (total_size_positions offsets). rewrite Forall_forall in Hn.
  assert (Hms : forall s, s ∈ ms <-> maximal names s /\ s ∈ names) by (intros s; unfold ms; by rewrite list_elem_of_filter, elem_of_remove_dups).
  apply get_lookup in H0 as [[_ H0] Hz]. assert (Hsub : (ms ≫= fun s => seqZ (offsets s) (len s + 1)) ⊆+ seqZ 1 (len buf - 1)).
  - apply NoDup_submseteq.
    + apply NoDup_bind; [|by intros; apply NoDup_seqZ|apply NoDup_filter, NoDup_remove_dups].
      intros s t k [Ms Hs]%Hms [Mt Ht]%Hms Hk%elem_of_seqZ Hk'%elem_of_seqZ.
      eapply (maximal_apart names buf s t _ _ k Ms Mt); try done; try (by apply Hn); try (by apply Hr); lia.
    + intros k (s & Hk & [[Hne _] Hs]%Hms)%list_elem_of_bind. apply elem_of_seqZ in Hk. destruct (resolves_lookup _ _ _ (Hr s Hs)) as (Ho & Hle & _).
      apply elem_of_seqZ. assert (offsets s <> 0) as Hpos; [|lia]. intros E. apply (Hn s Hs). destruct s as [|x s]; [done|].
      pose proof (resolves_inside _ _ _ 0 (Hr _ Hs)) as Hx.
      rewrite E, Nat.add_0_r, Hz in Hx. specialize (Hx ltac:(cbn; lia)). injection Hx as <-. by left.
  - apply submseteq_length in Hsub. rewrite length_seqZ in Hsub. lia.
Qed.

(** ** Properties *)

(** C22. Suffix sharing is complete although only neighbours are compared.  The packer returns; its
    buffer consists of a leading NUL and the names that are not the proper suffix of any other name,
    each once and terminated; the offset table has the empty name and the names passed, and no other,
    and when the buffer is addressable by 32 bits each of them is found at its offset, up to its NUL.
    [packed_size] predicts the length; it is never more than that of the unshared table, and for names without NULs
    no table with a leading NUL that has each of them, terminated, at some offset is shorter.  The
    result depends neither on the order nor on the multiplicity of the names. *)
Theorem pack_shares_all names : exists p ns, pack names = Ret p /\
  pk_bytes p = [0] ++ terminated ns /\ NoDup ns /\ (forall s, s ∈ ns <-> s ∈ names /\ maximal names s) /\
  (forall s, is_Some (pk_offsets p !! s) <-> s = [] \/ s ∈ names) /\
  (len (pk_bytes p) < 2 ^ 32 -> forall s off, pk_offsets p !! s = Some off -> resolves (pk_bytes p) s off) /\
  len (pk_bytes p) = packed_size names /\ packed_size names <= naive_size names /\
  (Forall (fun s => 0 ∉ s) names -> forall buf offsets, get buf 0 = Some 0 ->
     (forall s, s ∈ names -> resolves buf s (offsets s)) -> packed_size names <= len buf) /\
  forall names', (forall s, s ∈ names <-> s ∈ names') -> pack names' = Ret p.
Proof.
  destruct (pack_spec names) as (p & Hp & Hb & Hnil & Hall). exists p, (filter (maximal names) (unique_names names)).
  rewrite owned_kept, kept_maximal in Hb. split_and!; [done|done|apply NoDup_filter, unique_names_NoDup| | | | | | |].
  - intros s. rewrite list_elem_of_filter, elem_of_unique. unfold maximal. tauto.
  - by apply (pack_entries names p).
  - intros Hlen s off Hs. by apply (pack_entries names p).
  - by rewrite Hb, len_app, terminated_len, <- kept_maximal, <- packed_size_kept.
  - rewrite naive_size_eq. unfold packed_size. rewrite packed_size_kept, kept_maximal.
    pose proof (total_size_filter (maximal names) (unique_names names)). lia.
  - intros Hn buf offsets. by apply sharing_minimal.
  - intros names' H. rewrite <- Hp. unfold pack. by rewrite (unique_names_ext names names' H).
Qed.

(** [b] ends [ab]; [c] and [ab] are written. *)
Lemma pack_shares_all_witness :
  exists p, pack [[98]; [97; 98]; [99]] = Ret p /\ len (pk_bytes p) = 6 /\ resolves (pk_bytes p) [98] 2 /\
    forall buf offsets, get buf 0 = Some 0 -> (forall s, s ∈ [[98]; [97; 98]; [99]] -> resolves buf s (offsets s)) -> 6 <= len buf.
Proof.
  destruct (pack_shares_all [[98]; [97; 98]; [99]]) as (p & ns & Hp & _ & _ & _ & _ & Hr & Hl & _ & Hm & _). exists p.
  assert (Hl6 : len (pk_bytes p) = 6) by (rewrite Hl; vm_compute; reflexivity). split; [exact Hp|]. split; [exact Hl6|]. split.
  - apply Hr; [lia|]. vm_compute in Hp. injection Hp as <-. vm_compute. reflexivity.
  - intros buf offsets H0 Hres. rewrite <- Hl6, Hl. apply (Hm ltac:(apply (bool_decide_eq_true_1 _); vm_compute; reflexivity) buf offsets H0 Hres).
Defined.
