(* ===== verification/Utf8.v ===== *)
(** UTF-8 validity as [str::from_utf8] of the Rust standard library decides it:
    the well-formed byte sequences of the Unicode standard, without surrogates and
    without overlong forms. *)
From S2P Require Import Prelude.

Definition is_cont (b : Z) : bool := in_range 0x80 0xBF b.

(** [Some n] when a scalar value of [n] bytes starts the input. *)
Definition utf8_scalar (d : bytes) : option nat :=
  match d with
  | [] => None
  | b0 :: d =>
      if in_range 0 0x7F b0 then Some 1%nat
      else if in_range 0xC2 0xDF b0 then
        match d with b1 :: _ => if is_cont b1 then Some 2%nat else None | _ => None end
      else if in_range 0xE0 0xEF b0 then
        match d with
        | b1 :: b2 :: _ =>
            let lo := if b0 =? 0xE0 then 0xA0 else 0x80 in
            let hi := if b0 =? 0xED then 0x9F else 0xBF in
            if in_range lo hi b1 && is_cont b2 then Some 3%nat else None
        | _ => None
        end
      else if in_range 0xF0 0xF4 b0 then
        match d with
        | b1 :: b2 :: b3 :: _ =>
            let lo := if b0 =? 0xF0 then 0x90 else 0x80 in
            let hi := if b0 =? 0xF4 then 0x8F else 0xBF in
            if in_range lo hi b1 && is_cont b2 && is_cont b3 then Some 4%nat else None
        | _ => None
        end
      else None
  end.

Fixpoint utf8_loop (fuel : nat) (d : bytes) : bool :=
  match d with
  | [] => true
  | _ =>
      match fuel, utf8_scalar d with
      | S fuel, Some n => utf8_loop fuel (drop n d)
      | _, _ => false
      end
  end.

Definition utf8_valid (d : bytes) : bool := utf8_loop (length d) d.

Example utf8_ascii : utf8_valid [119; 105; 108; 100] = true.
Proof. reflexivity. Qed.
Example utf8_euro : utf8_valid [0xE2; 0x82; 0xAC] = true.
Proof. reflexivity. Qed.
Example utf8_surrogate : utf8_valid [0xED; 0xA0; 0x80] = false.
Proof. reflexivity. Qed.
Example utf8_overlong : utf8_valid [0xC0; 0xAF] = false.
Proof. reflexivity. Qed.

(** The fuel is enough: every scalar value takes a byte, and more fuel changes
    nothing. *)
Lemma utf8_scalar_pos d n : utf8_scalar d = Some n -> (1 <= n <= length d)%nat.
Proof.
  intros H. destruct d as [|b0 [|b1 [|b2 [|b3 d]]]]; simpl in H; [done|..];
    repeat match type of H with context [if ?b then _ else _] => destruct b end;
    try done; injection H as <-; simpl; lia.
Qed.

Lemma utf8_loop_enough f1 f2 d : (length d <= f1)%nat -> (length d <= f2)%nat -> utf8_loop f1 d = utf8_loop f2 d.
Proof.
  revert f2 d. induction f1 as [|f1 IH]; intros f2 d H1 H2.
  - destruct d; [by destruct f2|simpl in H1; lia].
  - destruct d as [|b d]; [by destruct f2|]. destruct f2 as [|f2]; [simpl in H2; lia|].
    cbn [utf8_loop]. destruct (utf8_scalar (b :: d)) as [n|] eqn:E; [|done].
    apply utf8_scalar_pos in E. apply IH; rewrite length_drop; simpl in *; lia.
Qed.

Lemma utf8_ascii_valid d : Forall (fun b => in_range 0 0x7F b = true) d -> utf8_valid d = true.
Proof.
  unfold utf8_valid. induction 1 as [|b d Hb _ IH]; [done|]. cbn [utf8_loop length utf8_scalar].
  by rewrite Hb.
Qed.
