(* ===== verification/Daemon.v ===== *)
(** The wire protocol of the linker daemon ([libwild/src/daemon_protocol.rs]):
    length-prefixed strings in requests and responses, with caps that only the
    reading side checks. *)
From S2P Require Import Prelude BitMisc Utf8.

(** ** Data *)

(** A [String] and the bytes of a [PathBuf] are byte strings; the first kind is
    valid UTF-8 by its type. *)
Record Request := mkRequest { argv : list bytes; env : list (bytes * bytes); cwd : bytes }.
Record Response := mkResponse { stderr_bytes : bytes; stdout_bytes : bytes; exit_code : Z }.

Definition MAX_ARG_LEN : Z := 64 * 1024.
Definition MAX_ENV_LEN : Z := 64 * 1024.
Definition MAX_PATH_LEN : Z := 64 * 1024.
Definition MAX_ARGS : Z := Z.shiftl 1 16.
Definition MAX_ENV_ENTRIES : Z := Z.shiftl 1 16.
Definition MAX_STREAM_BYTES : Z := 16 * 1024 * 1024.

(** The [InvalidData] errors, by their messages. *)
Inductive protocol_error :=
| ShortRead | ExceedsCap (n cap : Z) | NotUtf8 | ExceedsU32.

Notation "x ←r e ; k" := (match e with Ok x => k | Err er => Err er end)
  (at level 20, e at level 100, k at level 200, only parsing) : rust_scope.
Notation "' x ←r e ; k" := (match e with Ok x => k | Err er => Err er end)
  (at level 20, x pattern, e at level 100, k at level 200, only parsing) : rust_scope.

(** ** Reading

    A reader is the bytes it has left; it is returned advanced. *)

Definition reading (A : Type) : Type := result (A * bytes) protocol_error.

(** [r.read_exact(&mut [0u8; n])] with the error mapped. *)
Definition read_exact (r : bytes) (n : Z) : reading bytes :=
  match get_range r 0 n, get_from r n with
  | Some d, Some rest => Ok (d, rest)
  | _, _ => Err ShortRead
  end.

Definition read_le_u32 (r : bytes) : reading Z :=
  '(d, r) ←r read_exact r 4; Ok (le_combine d, r).

Definition read_lp_bytes (r : bytes) (cap : Z) : reading bytes :=
  '(n, r) ←r read_le_u32 r;
  if n >? cap then Err (ExceedsCap n cap) else read_exact r n.

Definition read_lp_string (r : bytes) (cap : Z) : reading bytes :=
  '(d, r) ←r read_lp_bytes r cap;
  if utf8_valid d then Ok (d, r) else Err NotUtf8.

(** [for _ in 0..n { v.push(item(r)?) }] *)
Fixpoint read_items {A} (item : bytes -> reading A) (n : nat) (r : bytes) : reading (list A) :=
  match n with
  | O => Ok ([], r)
  | S n => '(x, r) ←r item r; '(xs, r) ←r read_items item n r; Ok (x :: xs, r)
  end.

Definition read_count (r : bytes) (cap : Z) : reading nat :=
  '(n, r) ←r read_le_u32 r;
  if n >? cap then Err (ExceedsCap n cap) else Ok (Z.to_nat n, r).

Definition read_env_entry (r : bytes) : reading (bytes * bytes) :=
  '(k, r) ←r read_lp_string r MAX_ENV_LEN;
  '(v, r) ←r read_lp_string r MAX_ENV_LEN;
  Ok ((k, v), r).

Definition read_request (r : bytes) : reading Request :=
  '(argc, r) ←r read_count r MAX_ARGS;
  '(argv, r) ←r read_items (fun r => read_lp_string r MAX_ARG_LEN) argc r;
  '(envc, r) ←r read_count r MAX_ENV_ENTRIES;
  '(env, r) ←r read_items read_env_entry envc r;
  '(cwd, r) ←r read_lp_string r MAX_PATH_LEN;
  Ok (mkRequest argv env cwd, r).

Definition read_response (r : bytes) : reading Response :=
  '(stderr_bytes, r) ←r read_lp_bytes r MAX_STREAM_BYTES;
  '(stdout_bytes, r) ←r read_lp_bytes r MAX_STREAM_BYTES;
  '(code, r) ←r read_exact r 4;
  Ok (mkResponse stderr_bytes stdout_bytes (i32 (le_combine code)), r).

(** ** Writing, to a writer that accepts every byte *)

Definition writing : Type := result bytes protocol_error.

(** [u32::try_from(n)] and the four bytes of it. *)
Definition write_count (n : Z) : writing := if n <? 2 ^ 32 then Ok (le_bytes 4 n) else Err ExceedsU32.

Definition write_lp_bytes (d : bytes) : writing := n ←r write_count (len d); Ok (n ++ d).

Fixpoint write_items {A} (item : A -> writing) (xs : list A) : writing :=
  match xs with
  | [] => Ok []
  | x :: xs => a ←r item x; b ←r write_items item xs; Ok (a ++ b)
  end.

Definition write_env_entry (e : bytes * bytes) : writing :=
  k ←r write_lp_bytes (fst e); v ←r write_lp_bytes (snd e); Ok (k ++ v).

Definition write_request (req : Request) : writing :=
  argc ←r write_count (len (argv req));
  args ←r write_items write_lp_bytes (argv req);
  envc ←r write_count (len (env req));
  entries ←r write_items write_env_entry (env req);
  cwd ←r write_lp_bytes (cwd req);
  Ok (argc ++ args ++ envc ++ entries ++ cwd).

Definition write_response (resp : Response) : writing :=
  a ←r write_lp_bytes (stderr_bytes resp);
  b ←r write_lp_bytes (stdout_bytes resp);
  Ok (a ++ b ++ le_bytes 4 (u32 (exit_code resp))).

(** The unit tests of the module. *)
Definition demo_request : Request :=
  mkRequest [[119; 105; 108; 100]; [45; 111]] [([65], [49]); ([66], [116; 119; 111])] [47; 112].
Example request_round_trip :
  match write_request demo_request with Ok d => read_request d | Err e => Err e end = Ok (demo_request, []).
Proof. vm_compute. reflexivity. Qed.
Example rejects_argc_overflow : read_request (le_bytes 4 (2 ^ 32 - 1)) = Err (ExceedsCap (2 ^ 32 - 1) MAX_ARGS).
Proof. vm_compute. reflexivity. Qed.

(** ** Codecs

    A writer and a reader fit together when the reader takes back exactly the
    values that satisfy [P], leaving what follows, refuses the encodings of the
    others, and accepts nothing that the writer would not have produced. *)
Class Codec {A} (write : A -> writing) (read : bytes -> reading A) (P : A -> Prop) : Prop := {
  codec_reads x d rest : write x = Ok d ->
    (P x /\ read (d ++ rest) = Ok (x, rest)) \/ (~ P x /\ exists e, read (d ++ rest) = Err e);
  codec_sound r x rest : is_bytes r -> read r = Ok (x, rest) ->
    P x /\ exists d, write x = Ok d /\ r = d ++ rest;
}.

Lemma read_exact_app d rest : read_exact (d ++ rest) (len d) = Ok (d, rest).
Proof.
  unfold read_exact. pose proof (slice_prefix d rest) as H. unfold slice in H.
  destruct (get_range _ _ _) as [x|]; [|done]. injection H as ->. by rewrite get_from_len.
Qed.

Lemma read_exact_sound r n d rest : read_exact r n = Ok (d, rest) -> r = d ++ rest /\ len d = n.
Proof.
  unfold read_exact. destruct (get_range r 0 n) as [x|] eqn:E; [|done].
  destruct (get_from r n) as [y|] eqn:E'; [|done]. intros [= -> ->].
  apply get_from_Some in E' as [Hn ->].
  assert (Hs : slice r 0 n = Ret d) by (unfold slice; by rewrite E).
  pose proof (slice_len _ _ _ _ Hs) as Hl. apply slice_Ret in Hs as (_ & _ & ->).
  split; [|lia]. rewrite drop_0. replace (n - 0) with n by lia. by rewrite take_drop.
Qed.

Lemma read_le_u32_app n rest : is_uint 32 n -> read_le_u32 (le_bytes 4 n ++ rest) = Ok (n, rest).
Proof.
  intros Hn. unfold read_le_u32. replace 4 with (len (le_bytes 4 n)) at 2 by apply le_bytes_len.
  rewrite read_exact_app, le_combine_le_bytes. by rewrite wrap_id.
Qed.

Lemma read_le_u32_sound r n rest : is_bytes r -> read_le_u32 r = Ok (n, rest) ->
  is_uint 32 n /\ r = le_bytes 4 n ++ rest /\ is_bytes rest.
Proof.
  intros Hr. unfold read_le_u32. destruct (read_exact r 4) as [[d r']|] eqn:E; [|done]. intros [= <- ->].
  apply read_exact_sound in E as [-> Hl]. apply is_bytes_app in Hr as [Hd Hrest].
  pose proof (le_bytes_combine d Hd) as Hc. assert (Hlen : length d = 4%nat) by (unfold len in Hl; lia). rewrite Hlen in Hc.
  assert (Hu : is_uint 32 (le_combine d)).
  { rewrite Hc, le_combine_le_bytes. apply wrap_bound. lia. }
  split_and!; [done|by rewrite <- Hc|done].
Qed.

Lemma write_count_Ok n d : write_count n = Ok d -> n < 2 ^ 32 /\ d = le_bytes 4 n.
Proof. unfold write_count. destruct (Z.ltb_spec n (2 ^ 32)); [by intros [= <-]|done]. Qed.

Lemma lp_bytes_codec cap : cap < 2 ^ 32 -> Codec write_lp_bytes (fun r => read_lp_bytes r cap) (fun d => len d <= cap).
Proof.
  intros Hcap. split.
  - intros x d rest H. unfold write_lp_bytes in H. destruct (write_count (len x)) as [n|] eqn:E; [|done].
    injection H as <-. apply write_count_Ok in E as [Hn ->]. pose proof (len_nonneg x).
    rewrite <- app_assoc. unfold read_lp_bytes. rewrite read_le_u32_app by done.
    destruct (Z.gtb_spec (len x) cap); [right; split; [lia|by eexists]|left]. split; [lia|apply read_exact_app].
  - intros r x rest Hr. unfold read_lp_bytes. destruct (read_le_u32 r) as [[n r']|] eqn:E; [|done].
    destruct (Z.gtb_spec n cap) as [|Hle]; [done|]. intros H. apply read_exact_sound in H as [-> Hl].
    apply read_le_u32_sound in E as (Hn & -> & _); [|done]. split; [lia|].
    exists (le_bytes 4 n ++ x). rewrite <- app_assoc. split; [|done].
    unfold write_lp_bytes, write_count. rewrite Hl. unfold is_uint in Hn. by replace (n <? 2 ^ 32) with true by lia.
Qed.

Lemma read_lp_string_Ok r cap x rest : read_lp_string r cap = Ok (x, rest) <->
  read_lp_bytes r cap = Ok (x, rest) /\ utf8_valid x = true.
Proof.
  unfold read_lp_string. destruct (read_lp_bytes r cap) as [[d r']|]; [|naive_solver].
  destruct (utf8_valid d) eqn:E; naive_solver congruence.
Qed.

(** What a string must satisfy to be read back. *)
Definition string_fits (cap : Z) (d : bytes) : Prop := len d <= cap /\ utf8_valid d = true.

Lemma lp_string_codec cap : cap < 2 ^ 32 -> Codec write_lp_bytes (fun r => read_lp_string r cap) (string_fits cap).
Proof.
  intros Hcap. pose proof (lp_bytes_codec cap Hcap) as [Hreads Hsound]. split.
  - intros x d rest H. destruct (Hreads x d rest H) as [[Hc E]|[Hc [e E]]]; unfold read_lp_string; rewrite E.
    + unfold string_fits. destruct (utf8_valid x) eqn:Eu; [by left|right]. split; [naive_solver congruence|by eexists].
    + right. unfold string_fits. split; [naive_solver|by eexists].
  - intros r x rest Hr H. apply read_lp_string_Ok in H as [H Hu]. destruct (Hsound r x rest Hr H) as [? ?]. done.
Qed.

#[export] Instance arg_codec : Codec write_lp_bytes (fun r => read_lp_string r MAX_ARG_LEN) (string_fits MAX_ARG_LEN).
Proof. by apply lp_string_codec. Qed.

Definition entry_fits (e : bytes * bytes) : Prop := string_fits MAX_ENV_LEN (fst e) /\ string_fits MAX_ENV_LEN (snd e).

(** Two fields in sequence. *)
Lemma codec_seq {A B} wa wb ra rb (P : A -> Prop) (Q : B -> Prop) `{!Codec wa ra P} `{!Codec wb rb Q} :
  Codec (fun p => a ←r wa (fst p); b ←r wb (snd p); Ok (a ++ b))
        (fun r => '(a, r) ←r ra r; '(b, r) ←r rb r; Ok ((a, b), r))
        (fun p => P (fst p) /\ Q (snd p)).
Proof.
  split.
  - intros [x y] d rest H. simpl in *. destruct (wa x) as [da|] eqn:Ea; [|done]. destruct (wb y) as [db|] eqn:Eb; [|done].
    injection H as <-. rewrite <- app_assoc.
    destruct (codec_reads x da (db ++ rest) Ea) as [[Hp ->]|[Hp [e ->]]]; [|right; naive_solver].
    destruct (codec_reads y db rest Eb) as [[Hq ->]|[Hq [e ->]]]; [by left|right; naive_solver].
  - intros r [x y] rest Hr H. simpl. destruct (ra r) as [[a r1]|] eqn:Ea; [|done].
    destruct (codec_sound r a r1 Hr Ea) as (Hp & da & Hda & ->). apply is_bytes_app in Hr as [_ Hr].
    destruct (rb r1) as [[b r2]|] eqn:Eb; [|done]. injection H as -> -> ->.
    destruct (codec_sound r1 y rest Hr Eb) as (Hq & db & Hdb & ->).
    split; [done|]. exists (da ++ db). by rewrite Hda, Hdb, <- app_assoc.
Qed.

#[export] Instance env_codec : Codec write_env_entry read_env_entry entry_fits.
Proof. exact (codec_seq _ _ _ _ _ _ (Codec0 := lp_string_codec MAX_ENV_LEN eq_refl) (Codec1 := lp_string_codec MAX_ENV_LEN eq_refl)). Qed.

(** A counted list of items. *)
Definition write_list {A} (write : A -> writing) (xs : list A) : writing :=
  n ←r write_count (len xs); d ←r write_items write xs; Ok (n ++ d).
Definition read_list {A} (read : bytes -> reading A) (cap : Z) (r : bytes) : reading (list A) :=
  '(n, r) ←r read_count r cap; read_items read n r.

Section items.
Context {A : Type} (write : A -> writing) (read : bytes -> reading A) (P : A -> Prop).
Context `{!Codec write read P}.

Lemma read_items_app xs d rest : write_items write xs = Ok d ->
  (Forall P xs /\ read_items read (length xs) (d ++ rest) = Ok (xs, rest)) \/
  (~ Forall P xs /\ exists e, read_items read (length xs) (d ++ rest) = Err e).
Proof using Codec0.
  revert d. induction xs as [|x xs IH]; intros d H; simpl in H; [left; split; [constructor|by injection H as <-]|].
  destruct (write x) as [dx|] eqn:Ex; [|done]. destruct (write_items write xs) as [ds|]; [|done].
  injection H as <-. rewrite <- app_assoc. cbn [length read_items]. rewrite Forall_cons.
  destruct (codec_reads x dx (ds ++ rest) Ex) as [[Hp ->]|[Hp [e ->]]]; [|right; naive_solver].
  destruct (IH ds eq_refl) as [[Hps ->]|[Hps [e ->]]]; [by left|right; naive_solver].
Qed.

Lemma read_items_sound n r xs rest : is_bytes r -> read_items read n r = Ok (xs, rest) ->
  length xs = n /\ Forall P xs /\ exists d, write_items write xs = Ok d /\ r = d ++ rest.
Proof using Codec0.
  revert r xs. induction n as [|n IH]; intros r xs Hr H; simpl in H; [injection H as <- <-; split_and!; [done..|by exists []]|].
  destruct (read r) as [[x r1]|] eqn:Ex; [|done]. destruct (codec_sound r x r1 Hr Ex) as (Hp & dx & Hdx & ->).
  apply is_bytes_app in Hr as [_ Hr]. destruct (read_items read n r1) as [[ys r2]|] eqn:E; [|done]. injection H as <- ->.
  destruct (IH r1 ys Hr E) as (Hl & Hps & ds & Hds & ->). split_and!; [by simpl; f_equal|by constructor|].
  exists (dx ++ ds). simpl. by rewrite Hdx, Hds, <- app_assoc.
Qed.

Lemma list_codec cap : cap < 2 ^ 32 -> Codec (write_list write) (read_list read cap) (fun xs => len xs <= cap /\ Forall P xs).
Proof using Codec0.
  intros Hcap. split.
  - intros xs d rest H. unfold write_list in H. destruct (write_count (len xs)) as [n|] eqn:En; [|done].
    destruct (write_items write xs) as [ds|] eqn:Ed; [|done]. injection H as <-. apply write_count_Ok in En as [Hn ->].
    pose proof (len_nonneg xs). rewrite <- app_assoc. unfold read_list, read_count. rewrite read_le_u32_app by done.
    destruct (Z.gtb_spec (len xs) cap) as [|Hle]; [right; split; [lia|by eexists]|].
    replace (Z.to_nat (len xs)) with (length xs) by (unfold len; lia).
    destruct (read_items_app xs ds rest Ed) as [[Hp ->]|[Hp [e ->]]]; [left; split; [|done]; split; [lia|done]|right; naive_solver].
  - intros r xs rest Hr. unfold read_list, read_count. destruct (read_le_u32 r) as [[n r1]|] eqn:En; [|done].
    apply read_le_u32_sound in En as (Hn & -> & Hr1); [|done]. destruct (Z.gtb_spec n cap) as [|Hle]; [done|].
    intros H. apply read_items_sound in H as (Hl & Hp & ds & Hds & ->); [|done]. unfold is_uint in Hn.
    assert (Hlen : len xs = n) by (unfold len; lia). split; [split; [lia|done]|].
    exists (le_bytes 4 n ++ ds). unfold write_list, write_count. rewrite Hlen. replace (n <? 2 ^ 32) with true by lia.
    by rewrite Hds, <- app_assoc.
Qed.
End items.

(** ** Requests and responses *)

Definition request_fits (req : Request) : Prop :=
  (len (argv req) <= MAX_ARGS /\ Forall (string_fits MAX_ARG_LEN) (argv req)) /\
  (len (env req) <= MAX_ENV_ENTRIES /\ Forall entry_fits (env req)) /\
  string_fits MAX_PATH_LEN (cwd req).

(** A request is its three parts in sequence. *)
Definition request_parts :=
  codec_seq _ _ _ _ _ _
    (Codec0 := list_codec _ _ (string_fits MAX_ARG_LEN) MAX_ARGS eq_refl)
    (Codec1 := codec_seq _ _ _ _ _ _ (Codec0 := list_codec _ _ entry_fits MAX_ENV_ENTRIES eq_refl)
                                      (Codec1 := lp_string_codec MAX_PATH_LEN eq_refl)).

Ltac next_field := match goal with |- context [match ?e with Ok _ => _ | Err _ => _ end] => destruct e as [?|?] end.

Definition to_request (x : reading (list bytes * (list (bytes * bytes) * bytes))) : reading Request :=
  match x with Ok ((a, (b, c)), r) => Ok (mkRequest a b c, r) | Err e => Err e end.

#[export] Instance request_codec : Codec write_request read_request request_fits.
Proof.
  pose proof request_parts as [Hreads Hsound].
  assert (Hw : forall req, write_request req =
    (a ←r write_list write_lp_bytes (argv req);
     b ←r (c ←r write_list write_env_entry (env req); d ←r write_lp_bytes (cwd req); Ok (c ++ d)); Ok (a ++ b))).
  { intros req. unfold write_request, write_list. repeat next_field; try done. by rewrite <- !app_assoc. }
  assert (Hr : forall r, read_request r =
    to_request ('(a, r) ←r read_list (fun r => read_lp_string r MAX_ARG_LEN) MAX_ARGS r;
                '(bc, r) ←r ('(b, r) ←r read_list read_env_entry MAX_ENV_ENTRIES r;
                             '(c, r) ←r read_lp_string r MAX_PATH_LEN; Ok ((b, c), r));
                Ok ((a, bc), r))).
  { intros r. unfold read_request, read_list. repeat (next_field; [|done]; match goal with x : _ * _ |- _ => destruct x end); done. }
  split.
  - intros [a b c] d rest H. rewrite Hw in H. simpl in H. rewrite Hr.
    destruct (Hreads (a, (b, c)) d rest H) as [[Hf E]|[Hf [e E]]]; [left|right; split; [done|exists e]].
    + split; [done|exact (f_equal to_request E)].
    + exact (f_equal to_request E).
  - intros r [a b c] rest Hb H. rewrite Hr in H. rewrite Hw.
    revert H. match goal with |- to_request ?x = _ -> _ => destruct x as [[[a' [b' c']] r']|] eqn:E end; [|done].
    intros [= -> -> -> ->]. exact (Hsound r (a, (b, c)) rest Hb E).
Qed.

(** ** Properties *)

(** C30. The daemon understands exactly the requests within its limits.  What the
    client writes for a request is read back as that request, with the stream at
    what follows, when the argument and environment counts, the lengths of
    the strings and their encodings are within what the server allows; and
    otherwise reading it is an error, never another request. *)
Theorem request_read_back req d rest : write_request req = Ok d ->
  (request_fits req /\ read_request (d ++ rest) = Ok (req, rest)) \/
  (~ request_fits req /\ exists e, read_request (d ++ rest) = Err e).
Proof. apply codec_reads. Qed.

Lemma request_read_back_witness : exists d, write_request demo_request = Ok d /\
  ((request_fits demo_request /\ read_request (d ++ [7]) = Ok (demo_request, [7])) \/
   (~ request_fits demo_request /\ exists e, read_request (d ++ [7]) = Err e)).
Proof. eexists. split; [reflexivity|]. apply request_read_back. vm_compute. reflexivity. Defined.

(** Whatever bytes arrive, an accepted request is within the limits and is the
    one the bytes say: writing it gives the bytes consumed. *)
Theorem request_parse_sound r req rest : is_bytes r -> read_request r = Ok (req, rest) ->
  request_fits req /\ exists d, write_request req = Ok d /\ r = d ++ rest.
Proof. apply codec_sound. Qed.

Lemma request_parse_sound_witness :
  let r := [1; 0; 0; 0; 1; 0; 0; 0; 97; 0; 0; 0; 0; 1; 0; 0; 0; 47; 9] in
  request_fits (mkRequest [[97]] [] [47]) /\ exists d, write_request (mkRequest [[97]] [] [47]) = Ok d /\ r = d ++ [9].
Proof. apply request_parse_sound; [|reflexivity]. by apply (bool_decide_unpack _); vm_compute. Defined.

(** Responses survive the wire: streams of at most 16 MiB and any 32-bit exit code
    are read back; longer streams are refused. *)
Theorem response_roundtrip resp d rest : is_sint 32 (exit_code resp) -> write_response resp = Ok d ->
  if bool_decide (len (stderr_bytes resp) <= MAX_STREAM_BYTES /\ len (stdout_bytes resp) <= MAX_STREAM_BYTES)
  then read_response (d ++ rest) = Ok (resp, rest)
  else exists e, read_response (d ++ rest) = Err e.
Proof.
  destruct resp as [a b c]. cbn [stderr_bytes stdout_bytes exit_code]. intros Hc H. unfold write_response in H.
  cbn [stderr_bytes stdout_bytes exit_code] in H.
  destruct (write_lp_bytes a) as [da|] eqn:Ea; [|done]. destruct (write_lp_bytes b) as [db|] eqn:Eb; [|done].
  assert (Hd : d = da ++ db ++ le_bytes 4 (u32 c)) by congruence. rewrite Hd, <- !app_assoc. unfold read_response.
  pose proof (lp_bytes_codec MAX_STREAM_BYTES eq_refl) as [Hreads _].
  destruct (Hreads a da (db ++ le_bytes 4 (u32 c) ++ rest) Ea) as [[Ha ->]|[Ha [e ->]]].
  2:{ rewrite bool_decide_false by naive_solver. by eexists. }
  destruct (Hreads b db (le_bytes 4 (u32 c) ++ rest) Eb) as [[Hb ->]|[Hb [e ->]]].
  2:{ rewrite bool_decide_false by naive_solver. by eexists. }
  rewrite bool_decide_true by done. replace 4 with (len (le_bytes 4 (u32 c))) at 1 by apply le_bytes_len.
  rewrite read_exact_app, le_combine_le_bytes. do 2 f_equal. f_equal.
  change (8 * Z.of_nat 4) with 32. rewrite (wrap_id 32 (u32 c)) by (apply wrap_bound; lia).
  rewrite <- (sext_id 32 c) at 2 by (done || lia). unfold sext, wrap. f_equal. by rewrite Zplus_mod_idemp_l.
Qed.

Lemma response_roundtrip_witness : exists d, write_response (mkResponse [111] [107] (-1)) = Ok d /\
  (if bool_decide (len [111] <= MAX_STREAM_BYTES /\ len [107] <= MAX_STREAM_BYTES)
   then read_response (d ++ []) = Ok (mkResponse [111] [107] (-1), []) else exists e, read_response (d ++ []) = Err e).
Proof.
  eexists. split; [reflexivity|].
  apply (response_roundtrip (mkResponse [111] [107] (-1))); [unfold is_sint; simpl; lia|vm_compute; reflexivity].
Defined.
