(* ===== verification/Snapshot.v ===== *)
(** The layout snapshot of incremental linking ([libwild/src/layout_snapshot.rs]):
    the sections of an output file with the inputs that contributed to them, its
    on-disk format, and the predicates that decide what a later link may reuse. *)
From stdpp Require Import sorting gmap.
From S2P Require Import Prelude ByteOrder BitMisc.

(** ** Data *)

Definition MAGIC : bytes := [87; 73; 76; 68; 76; 79; 48; 49].
Definition SCHEMA : Z := 2.
Definition REQUIRED_ALIGN : Z := 8.
Definition KEY_LEN : Z := 16.

(** The fields of the [repr(C)] structs by their widths in bytes; [Header] without
    its leading [magic]. *)
Definition Header : list nat := [4; 4; 4; 4; 8; 8; 8; 8; 8]%nat.
Definition SectionEntry : list nat := [4; 4; 8; 8; 8; 8; 8]%nat.
Definition struct_size (ws : list nat) : Z := foldr (fun w n => Z.of_nat w + n) 0 ws.
Definition HEADER_SIZE : Z := 8 + struct_size Header.
Definition ENTRY_SIZE : Z := struct_size SectionEntry.

(** The memory of a struct on a little-endian host, and the fields of such memory. *)
Fixpoint struct_bytes (ws : list nat) (zs : list Z) : bytes :=
  match ws, zs with
  | w :: ws, z :: zs => le_bytes w z ++ struct_bytes ws zs
  | _, _ => []
  end.
Fixpoint struct_fields (ws : list nat) (d : bytes) : list Z :=
  match ws with
  | [] => []
  | w :: ws => le_combine (take w d) :: struct_fields ws (drop w d)
  end.

Record SnapshotSection := mkSnap {
  ss_name : bytes; ss_alignment : Z; ss_file_offset : Z; ss_file_size : Z;
  ss_mem_offset : Z; ss_mem_size : Z; ss_contributors : list bytes
}.
#[export] Instance snapshot_section_eq_dec : EqDecision SnapshotSection.
Proof. solve_decision. Defined.

(** [LayoutSnapshot] is its [sections]. *)
Abbreviation LayoutSnapshot := (list SnapshotSection).

Definition snap_push (s : LayoutSnapshot) (x : SnapshotSection) : LayoutSnapshot := s ++ [x].

(** [Vec::dedup] *)
Fixpoint dedup (l : list bytes) : list bytes :=
  match l with
  | [] => []
  | x :: l => x :: match dedup l with
                   | y :: l' => if bool_decide (x = y) then l' else y :: l'
                   | [] => []
                   end
  end.

Definition with_contributors (s : SnapshotSection) (c : list bytes) : SnapshotSection :=
  mkSnap (ss_name s) (ss_alignment s) (ss_file_offset s) (ss_file_size s) (ss_mem_offset s) (ss_mem_size s) c.

Definition canonicalize (s : LayoutSnapshot) : LayoutSnapshot :=
  (fun x => with_contributors x (dedup (merge_sort byte_order (ss_contributors x)))) <$> s.

(** ** What a later link may reuse *)

Definition same_place (a b : SnapshotSection) : bool :=
  bool_decide (ss_name a = ss_name b) && (ss_file_offset a =? ss_file_offset b)
  && (ss_file_size a =? ss_file_size b) && (ss_mem_offset a =? ss_mem_offset b)
  && (ss_mem_size a =? ss_mem_size b).

Definition all_clean (clean : gset bytes) (s : SnapshotSection) : bool :=
  forallb (fun k => bool_decide (k ∈ clean)) (ss_contributors s).

Definition is_fully_reusable (prev cur : LayoutSnapshot) (clean : gset bytes) : bool :=
  (length prev =? length cur)%nat && forallb (fun '(a, b) => same_place a b && all_clean clean a) (zip prev cur).

(** The section loop of [reusable_section_indices], from index [i]. *)
Fixpoint reusable_loop (clean : gset bytes) (i : nat) (pairs : list (SnapshotSection * SnapshotSection)) : list nat :=
  match pairs with
  | [] => []
  | (a, b) :: pairs =>
      if negb (same_place a b) then reusable_loop clean (S i) pairs
      else if match ss_contributors a with [] => true | _ => false end then reusable_loop clean (S i) pairs
      else if negb (all_clean clean a) then reusable_loop clean (S i) pairs
      else i :: reusable_loop clean (S i) pairs
  end.

Definition reusable_section_indices (prev cur : LayoutSnapshot) (clean : gset bytes) : list nat :=
  reusable_loop clean 0 (zip prev cur).

Fixpoint dirty_loop (clean : gset bytes) (i : nat) (s : LayoutSnapshot) : list nat :=
  match s with
  | [] => []
  | x :: s => if negb (all_clean clean x) then i :: dirty_loop clean (S i) s else dirty_loop clean (S i) s
  end.

Definition dirty_section_indices (s : LayoutSnapshot) (clean : gset bytes) : list nat := dirty_loop clean 0 s.

(** ** Encoding *)

(** [out[off..off + src.len()].copy_from_slice(src)] *)
Definition copy_at (out : bytes) (off : Z) (src : bytes) : outcome bytes :=
  if (0 <=? off) && (off + len src <=? len out)
  then Ret (take (Z.to_nat off) out ++ src ++ drop (Z.to_nat (off + len src)) out) else Panic.

(** The loop that builds the name blob and the entries. *)
Fixpoint name_entries (s : LayoutSnapshot) (names_blob : bytes) : bytes * list (list Z) :=
  match s with
  | [] => (names_blob, [])
  | x :: s =>
      let '(blob, es) := name_entries s (names_blob ++ ss_name x) in
      (blob, [u32 (len names_blob); u32 (len (ss_name x)); ss_alignment x; ss_file_offset x;
              ss_file_size x; ss_mem_offset x; ss_mem_size x] :: es)
  end.

Definition contributor_record (x : SnapshotSection) : bytes :=
  le_bytes 4 (u32 (len (ss_contributors x))) ++ [0; 0; 0; 0] ++ mjoin (ss_contributors x).

Definition next_multiple_of (n m : Z) : Z := (n + m - 1) / m * m.

Definition finish (s : LayoutSnapshot) : outcome bytes :=
  let s := canonicalize s in
  let n := len s in
  let sections_off := HEADER_SIZE in
  let sections_size := n * ENTRY_SIZE in
  let names_off := sections_off + sections_size in
  let '(names_blob, entries) := name_entries s [] in
  let names_len := len names_blob in
  let contributors_off := names_off + names_len in
  let contributors_off_aligned := next_multiple_of contributors_off REQUIRED_ALIGN in
  let contributors_blob := mjoin (contributor_record <$> s) in
  let contributors_len := len contributors_blob in
  let total := contributors_off_aligned + contributors_len in
  let out := replicate (Z.to_nat total) 0 in
  let header := MAGIC ++ struct_bytes Header
    [SCHEMA; 0; u32 n; 0; sections_off; names_off; names_len; contributors_off_aligned; contributors_len] in
  out ← copy_at out 0 header;
  out ← copy_at out sections_off (mjoin (struct_bytes SectionEntry <$> entries));
  out ← copy_at out names_off names_blob;
  copy_at out contributors_off_aligned contributors_blob.

(** ** Decoding *)

(** [checked_add] and [checked_mul] on [usize]. *)
Definition checked (z : Z) : outcome (option Z) := Ret (if z <? 2 ^ 64 then Some z else None).

(** One iteration of the entry loop: the section and the advanced cursor. *)
Definition read_section (names contributors : bytes) (cursor : Z) (e : list Z)
  : outcome (option (SnapshotSection * Z)) :=
  match e with
  | [name_off; name_len; alignment; file_offset; file_size; mem_offset; mem_size] =>
      name_end ←? checked (name_off + name_len);
      if name_end >? len names then Ret None
      else if cursor + 8 >? len contributors then Ret None
      else
        count ← slice contributors cursor (cursor + 4);
        let n_keys := le_combine count in
        let cursor := cursor + 8 in
        keys_bytes ←? checked (n_keys * KEY_LEN);
        keys_end ←? checked (cursor + keys_bytes);
        if keys_end >? len contributors then Ret None
        else
          keys ← mapM (fun i => let off := cursor + Z.of_nat i * KEY_LEN in slice contributors off (off + KEY_LEN))
                   (seq 0 (Z.to_nat n_keys));
          name ← slice names name_off name_end;
          Ret (Some (mkSnap name alignment file_offset file_size mem_offset mem_size keys, keys_end))
  | _ => Panic
  end.

Fixpoint read_sections (names contributors : bytes) (entries : list bytes) (cursor : Z)
  : outcome (option LayoutSnapshot) :=
  match entries with
  | [] => Ret (Some [])
  | e :: entries =>
      '(s, cursor) ←? read_section names contributors cursor (struct_fields SectionEntry e);
      rest ←? read_sections names contributors entries cursor;
      Ret (Some (s :: rest))
  end.

(** [aligned] says whether the buffer starts at a multiple of [REQUIRED_ALIGN]. *)
Definition from_bytes (aligned : bool) (d : bytes) : outcome (option LayoutSnapshot) :=
  if len d <? HEADER_SIZE then Ret None
  else if negb aligned then Ret None
  else
    magic ← slice d 0 8;
    header ← slice d 8 HEADER_SIZE;
    match struct_fields Header header with
    | [schema; _; n; _; sections_off; names_off; names_len; contributors_off; contributors_len] =>
        if negb (bool_decide (magic = MAGIC)) then Ret None
        else if negb (schema =? SCHEMA) then Ret None
        else
          sections_size ←? checked (n * ENTRY_SIZE);
          sections_end ←? checked (sections_off + sections_size);
          if sections_end >? len d then Ret None
          else if negb (sections_off mod 8 =? 0) then Ret None
          else
            names_end ←? checked (names_off + names_len);
            if names_end >? len d then Ret None
            else
              contributors_end ←? checked (contributors_off + contributors_len);
              if contributors_end >? len d then Ret None
              else
                entries ← mapM (fun i => let off := sections_off + Z.of_nat i * ENTRY_SIZE in
                                         slice d off (off + ENTRY_SIZE)) (seq 0 (Z.to_nat n));
                names ← slice d names_off names_end;
                contributors_slice ← slice d contributors_off contributors_end;
                read_sections names contributors_slice entries 0
    | _ => Panic
    end.

Definition demo_key (b : Z) : bytes := replicate 16 b.
Definition demo_snapshot : LayoutSnapshot :=
  [mkSnap [95; 116] 16 4096 16384 65536 16384 [demo_key 2; demo_key 1; demo_key 2];
   mkSnap [95; 99; 115] 1 20480 2048 81920 2048 [demo_key 3];
   mkSnap [] 1 0 0 0 0 []].

Example round_trip :
  match finish demo_snapshot with Ret d => from_bytes true d | Panic => Panic end = Ret (Some (canonicalize demo_snapshot)).
Proof. vm_compute. reflexivity. Qed.
Example truncated_rejected :
  match finish demo_snapshot with Ret d => from_bytes true (take 100 d) | Panic => Panic end = Ret None.
Proof. vm_compute. reflexivity. Qed.

(** ** Lemmas on the format *)

Lemma struct_bytes_len ws zs : length ws = length zs -> len (struct_bytes ws zs) = struct_size ws.
Proof.
  revert zs. induction ws as [|w ws IH]; intros [|z zs] H; try done. cbn [struct_bytes struct_size foldr].
  rewrite len_app, le_bytes_len, IH by (simpl in H; lia). unfold struct_size. lia.
Qed.

Lemma struct_fields_bytes ws zs rest : Forall2 (fun w z => is_uint (8 * Z.of_nat w) z) ws zs ->
  struct_fields ws (struct_bytes ws zs ++ rest) = zs.
Proof.
  induction 1 as [|w z ws zs Hz _ IH]; [done|]. cbn [struct_bytes struct_fields]. rewrite <- app_assoc.
  rewrite take_app_length', drop_app_length' by (by rewrite le_bytes_length).
  by rewrite le_combine_le_bytes, wrap_id, IH.
Qed.

Lemma len_replicate {A} n (x : A) : len (replicate n x) = Z.of_nat n.
Proof. unfold len. by rewrite length_replicate. Qed.

(** Filling a zeroed buffer from the left. *)
Lemma copy_at_fill p k src : len src <= k ->
  copy_at (p ++ replicate (Z.to_nat k) 0) (len p) src = Ret (p ++ src ++ replicate (Z.to_nat (k - len src)) 0).
Proof.
  intros Hk. pose proof (len_nonneg p). pose proof (len_nonneg src). unfold copy_at.
  assert (Hl : len (p ++ replicate (Z.to_nat k) 0) = len p + k).
  { rewrite len_app, len_replicate. lia. }
  rewrite Hl. replace ((0 <=? len p) && (len p + len src <=? len p + k)) with true by lia.
  rewrite take_app_length' by (unfold len; lia).
  rewrite drop_app_ge by (unfold len in *; lia).
  replace (Z.to_nat (len p + len src) - length p)%nat with (Z.to_nat (len src)) by (unfold len in *; lia).
  do 3 f_equal. rewrite drop_replicate. f_equal. lia.
Qed.

Lemma join_len (w : Z) (l : list bytes) : Forall (fun k => len k = w) l -> len (mjoin l) = Z.of_nat (length l) * w.
Proof.
  induction 1 as [|x l Hx _ IH]; [done|]. change (mjoin (x :: l)) with (x ++ mjoin l). rewrite len_app, IH, Hx. simpl. lia.
Qed.

(** Equal chunks in the middle of a buffer. *)
Lemma slice_chunks (w : Z) (ks : list bytes) p q : Forall (fun k => len k = w) ks ->
  mapM (fun i => let off := len p + Z.of_nat i * w in slice (p ++ mjoin ks ++ q) off (off + w)) (seq 0 (length ks)) = Ret ks.
Proof.
  intros Hks. assert (H : forall seen, Forall (fun k => len k = w) seen ->
    mapM (fun i => let off := len p + Z.of_nat i * w in slice (p ++ mjoin (seen ++ ks) ++ q) off (off + w))
      (seq (length seen) (length ks)) = Ret ks); [|by apply (H [])].
  induction Hks as [|k ks Hk Hks IH]; intros seen Hd; [done|]. cbn [length seq mapM].
  assert (Hs : slice (p ++ mjoin (seen ++ k :: ks) ++ q) (len p + Z.of_nat (length seen) * w)
                 (len p + Z.of_nat (length seen) * w + w) = Ret k).
  { rewrite join_app. change (mjoin (k :: ks)) with (k ++ mjoin ks).
    pose proof (slice_app (p ++ mjoin seen) k (mjoin ks ++ q)) as Hs. rewrite !len_app, (join_len w _ Hd), Hk in Hs.
    rewrite <- Hs. f_equal. by rewrite <- !app_assoc. }
  cbv zeta in *. rewrite Hs. cbn [mbind outcome_bind].
  specialize (IH (seen ++ [k])). rewrite <- app_assoc in IH. cbn [app] in IH.
  rewrite length_app in IH. cbn [length] in IH. replace (length seen + 1)%nat with (S (length seen)) in IH by lia.
  by rewrite IH by (apply Forall_app; by split; [|constructor]).
Qed.

Lemma name_entries_blob s pre : fst (name_entries s pre) = pre ++ mjoin (ss_name <$> s).
Proof.
  revert pre. induction s as [|x s IH]; intros pre; simpl; [by rewrite app_nil_r|].
  specialize (IH (pre ++ ss_name x)). destruct (name_entries s _). simpl in *. rewrite IH. by rewrite <- app_assoc.
Qed.

(** What the fields of a section must fit. *)
Record section_ok (x : SnapshotSection) : Prop := {
  so_alignment : is_uint 64 (ss_alignment x);
  so_file_offset : is_uint 64 (ss_file_offset x);
  so_file_size : is_uint 64 (ss_file_size x);
  so_mem_offset : is_uint 64 (ss_mem_offset x);
  so_mem_size : is_uint 64 (ss_mem_size x);
  so_keys : Forall (fun k => len k = KEY_LEN) (ss_contributors x);
  so_count : len (ss_contributors x) < 2 ^ 32;
}.

Lemma keys_len x : section_ok x -> len (mjoin (ss_contributors x)) = len (ss_contributors x) * KEY_LEN.
Proof.
  intros [_ _ _ _ _ Hk _]. by apply join_len.
Qed.

Lemma record_len x : section_ok x -> len (contributor_record x) = 8 + len (ss_contributors x) * KEY_LEN.
Proof.
  intros Hok. unfold contributor_record. rewrite !len_app, le_bytes_len, keys_len by done.
  change (len [0; 0; 0; 0]) with 4. lia.
Qed.

(** Where the count and the keys of a record are. *)
Lemma record_slices x cpre cpost : section_ok x ->
  let c := cpre ++ contributor_record x ++ cpost in
  slice c (len cpre) (len cpre + 4) = Ret (le_bytes 4 (u32 (len (ss_contributors x)))) /\
  mapM (fun i => slice c (len cpre + 8 + Z.of_nat i * KEY_LEN) (len cpre + 8 + Z.of_nat i * KEY_LEN + KEY_LEN))
    (seq 0 (length (ss_contributors x))) = Ret (ss_contributors x).
Proof.
  intros [_ _ _ _ _ Hkeys _] c. unfold c, contributor_record. set (n := le_bytes 4 (u32 (len (ss_contributors x)))).
  assert (Hn : len n = 4) by apply le_bytes_len. rewrite <- !app_assoc. split.
  - pose proof (slice_app cpre n ([0; 0; 0; 0] ++ mjoin (ss_contributors x) ++ cpost)) as Hs. by rewrite Hn in Hs.
  - pose proof (slice_chunks KEY_LEN (ss_contributors x) (cpre ++ n ++ [0; 0; 0; 0]) cpost Hkeys) as Hm.
    rewrite !len_app, Hn in Hm. change (len [0; 0; 0; 0]) with 4 in Hm.
    replace (len cpre + (4 + 4)) with (len cpre + 8) in Hm by lia. by rewrite <- !app_assoc in Hm.
Qed.

Lemma read_section_spec x npre npost cpre cpost : section_ok x ->
  len (npre ++ ss_name x ++ npost) < 2 ^ 32 -> len (cpre ++ contributor_record x ++ cpost) < 2 ^ 64 ->
  read_section (npre ++ ss_name x ++ npost) (cpre ++ contributor_record x ++ cpost) (len cpre)
    [u32 (len npre); u32 (len (ss_name x)); ss_alignment x; ss_file_offset x; ss_file_size x; ss_mem_offset x; ss_mem_size x]
  = Ret (Some (x, len (cpre ++ contributor_record x))).
Proof.
  intros Hok Hnl Hcl. destruct (record_slices x cpre cpost Hok) as [Hs Hm].
  pose proof (record_len x Hok) as Hrec. destruct Hok as [_ _ _ _ _ _ Hcount].
  pose proof (len_nonneg npre). pose proof (len_nonneg npost). pose proof (len_nonneg (ss_name x)).
  pose proof (len_nonneg cpre). pose proof (len_nonneg cpost). pose proof (len_nonneg (ss_contributors x)).
  pose proof (slice_app npre (ss_name x) npost) as Hname.
  assert (Hnames : len (npre ++ ss_name x ++ npost) = len npre + len (ss_name x) + len npost) by (rewrite !len_app; lia).
  assert (Hcon : len (cpre ++ contributor_record x ++ cpost) = len cpre + len (contributor_record x) + len cpost) by (rewrite !len_app; lia).
  rewrite len_app, Hrec. rewrite Hrec in Hcon.
  set (names := npre ++ ss_name x ++ npost) in *. set (c := cpre ++ contributor_record x ++ cpost) in *. clearbody names c.
  unfold KEY_LEN in *. unfold read_section, checked, KEY_LEN. rewrite !(wrap_id 32) by (unfold is_uint; lia).
  replace (len npre + len (ss_name x) <? 2 ^ 64) with true by lia.
  replace (len npre + len (ss_name x) >? len names) with false by lia.
  replace (len cpre + 8 >? len c) with false by lia.
  rewrite Hs. cbn [mbind outcome_bind]. rewrite le_combine_le_bytes. change (8 * Z.of_nat 4) with 32.
  rewrite !(wrap_id 32) by (unfold is_uint; rewrite ?wrap_id; unfold is_uint; lia).
  replace (len (ss_contributors x) * 16 <? 2 ^ 64) with true by lia.
  replace (len cpre + 8 + len (ss_contributors x) * 16 <? 2 ^ 64) with true by lia.
  replace (len cpre + 8 + len (ss_contributors x) * 16 >? len c) with false by lia.
  replace (Z.to_nat (len (ss_contributors x))) with (length (ss_contributors x)) by (unfold len; lia).
  cbv zeta. rewrite Hm. cbn [mbind outcome_bind]. rewrite Hname. cbn [mbind outcome_bind].
  rewrite Z.add_assoc. by destruct x.
Qed.

Lemma name_entries_cons x s pre : name_entries (x :: s) pre =
  (fst (name_entries s (pre ++ ss_name x)),
   [u32 (len pre); u32 (len (ss_name x)); ss_alignment x; ss_file_offset x; ss_file_size x; ss_mem_offset x; ss_mem_size x]
     :: snd (name_entries s (pre ++ ss_name x))).
Proof. simpl. by destruct (name_entries s (pre ++ ss_name x)). Qed.

Lemma entry_fields x off : section_ok x ->
  struct_fields SectionEntry (struct_bytes SectionEntry
    [u32 off; u32 (len (ss_name x)); ss_alignment x; ss_file_offset x; ss_file_size x; ss_mem_offset x; ss_mem_size x])
  = [u32 off; u32 (len (ss_name x)); ss_alignment x; ss_file_offset x; ss_file_size x; ss_mem_offset x; ss_mem_size x].
Proof.
  intros [? ? ? ? ? _ _]. rewrite <- (app_nil_r (struct_bytes _ _)). apply struct_fields_bytes.
  repeat first [apply Forall2_cons; split; [first [done|apply wrap_bound; lia]|]|apply Forall2_nil; done].
Qed.

Lemma join_fmap_cons {A} (f : A -> bytes) x l : mjoin (f <$> x :: l) = f x ++ mjoin (f <$> l).
Proof. done. Qed.

Lemma read_sections_spec s npre cpre : Forall section_ok s ->
  len (npre ++ mjoin (ss_name <$> s)) < 2 ^ 32 -> len (cpre ++ mjoin (contributor_record <$> s)) < 2 ^ 64 ->
  read_sections (npre ++ mjoin (ss_name <$> s)) (cpre ++ mjoin (contributor_record <$> s))
    (struct_bytes SectionEntry <$> snd (name_entries s npre)) (len cpre) = Ret (Some s).
Proof.
  intros Hok. revert npre cpre. induction Hok as [|x s Hx Hok IH]; intros npre cpre Hn Hc; [done|].
  rewrite name_entries_cons. rewrite !join_fmap_cons in *. cbn [snd fmap list_fmap read_sections]. rewrite entry_fields by done.
  rewrite read_section_spec by done.
  specialize (IH (npre ++ ss_name x) (cpre ++ contributor_record x)). rewrite <- !app_assoc in IH.
  by rewrite IH.
Qed.

(** ** Canonical snapshots *)

Lemma elem_of_dedup l k : k ∈ dedup l <-> k ∈ l.
Proof.
  induction l as [|x l IH]; [done|]. cbn [dedup]. rewrite !elem_of_cons, <- IH. clear IH.
  destruct (dedup l) as [|y l']; [done|].
  case_bool_decide; subst; rewrite ?elem_of_cons; naive_solver.
Qed.

Lemma dedup_length l : (length (dedup l) <= length l)%nat.
Proof.
  induction l as [|x l IH]; [done|]. cbn [dedup]. destruct (dedup l) as [|y l']; [simpl; lia|].
  case_bool_decide; simpl in *; lia.
Qed.

(** On a sorted list all duplicates are neighbours. *)
Lemma dedup_sorted l : StronglySorted byte_order l -> StronglySorted byte_order (dedup l) /\ NoDup (dedup l).
Proof.
  induction 1 as [|x l Hs IH Hx]; [split; constructor|]. cbn [dedup]. destruct IH as [IHs IHn].
  assert (Hx' : Forall (byte_order x) (dedup l)).
  { rewrite Forall_forall in *. intros k Hk. apply Hx. by rewrite <- elem_of_dedup. }
  destruct (dedup l) as [|y l'] eqn:E; [split; repeat constructor; by apply not_elem_of_nil|].
  case_bool_decide as Hxy; [by subst|]. split; [by constructor|].
  constructor; [|done]. intros [->|Hin]%elem_of_cons; [done|]. apply Hxy. apply Forall_cons in Hx' as [Hxy' _].
  apply (anti_symm byte_order); [done|]. apply StronglySorted_cons in IHs as [Hy _]. rewrite Forall_forall in Hy. by apply Hy.
Qed.

Definition canonical_keys (ks : list bytes) : list bytes := dedup (merge_sort byte_order ks).

Lemma elem_of_canonical ks k : k ∈ canonical_keys ks <-> k ∈ ks.
Proof. unfold canonical_keys. by rewrite elem_of_dedup, merge_sort_Permutation. Qed.

Lemma canonical_keys_ext ks ks' : (forall k, k ∈ ks <-> k ∈ ks') -> canonical_keys ks = canonical_keys ks'.
Proof.
  intros H. unfold canonical_keys.
  destruct (dedup_sorted (merge_sort byte_order ks)) as [Hs Hn]; [apply StronglySorted_merge_sort; apply _|].
  destruct (dedup_sorted (merge_sort byte_order ks')) as [Hs' Hn']; [apply StronglySorted_merge_sort; apply _|].
  apply (StronglySorted_unique byte_order); [done..|]. apply NoDup_Permutation; [done..|].
  intros k. change (k ∈ canonical_keys ks <-> k ∈ canonical_keys ks'). by rewrite !elem_of_canonical.
Qed.

Lemma canonical_ok x : section_ok x -> section_ok (with_contributors x (canonical_keys (ss_contributors x))).
Proof.
  intros [? ? ? ? ? Hk Hc]. split; [done..| |].
  - cbn [with_contributors ss_contributors]. rewrite Forall_forall in *. intros k Hin. apply Hk. by apply elem_of_canonical.
  - cbn [with_contributors ss_contributors]. unfold canonical_keys.
    pose proof (dedup_length (merge_sort byte_order (ss_contributors x))) as Hl.
    rewrite (Permutation_length (merge_sort_Permutation byte_order (ss_contributors x))) in Hl. unfold len in *. lia.
Qed.

(** ** Encoding and decoding a whole snapshot *)

Definition layout_bytes (s : LayoutSnapshot) : bytes :=
  let blob := mjoin (ss_name <$> s) in
  let records := mjoin (contributor_record <$> s) in
  let names_off := HEADER_SIZE + len s * ENTRY_SIZE in
  let contributors_off := next_multiple_of (names_off + len blob) REQUIRED_ALIGN in
  (MAGIC ++ struct_bytes Header
     [SCHEMA; 0; u32 (len s); 0; HEADER_SIZE; names_off; len blob; contributors_off; len records])
  ++ mjoin (struct_bytes SectionEntry <$> snd (name_entries s [])) ++ blob
  ++ replicate (Z.to_nat (contributors_off - (names_off + len blob))) 0 ++ records.

Lemma entry_chunks s pre : Forall (fun e => len e = ENTRY_SIZE) (struct_bytes SectionEntry <$> snd (name_entries s pre)).
Proof.
  revert pre. induction s as [|x s IH]; intros pre; [constructor|]. rewrite name_entries_cons.
  apply Forall_cons. split; [by apply struct_bytes_len|apply IH].
Qed.

Lemma entry_count s pre : length (snd (name_entries s pre)) = length s.
Proof. revert pre. induction s as [|x s IH]; intros pre; [done|]. rewrite name_entries_cons. simpl. by rewrite IH. Qed.

Lemma entries_len s : len (mjoin (struct_bytes SectionEntry <$> snd (name_entries s []))) = len s * ENTRY_SIZE.
Proof. rewrite (join_len _ _ (entry_chunks s [])), length_fmap, entry_count. unfold len. lia. Qed.

Lemma next_multiple_8 n : 0 <= n -> n <= next_multiple_of n REQUIRED_ALIGN < n + 8.
Proof. unfold next_multiple_of, REQUIRED_ALIGN. intros. pose proof (Z.div_mod (n + 8 - 1) 8). pose proof (Z.mod_pos_bound (n + 8 - 1) 8). lia. Qed.

Lemma finish_spec s : finish s = Ret (layout_bytes (canonicalize s)).
Proof.
  unfold finish, layout_bytes. set (c := canonicalize s).
  set (records := mjoin (contributor_record <$> c)). set (blob := mjoin (ss_name <$> c)).
  rewrite (surjective_pairing (name_entries c [])), name_entries_blob. fold blob. cbn [app].
  set (off := next_multiple_of _ _).
  set (header := MAGIC ++ _). set (es := mjoin (struct_bytes SectionEntry <$> _)).
  assert (Hh : len header = HEADER_SIZE) by (unfold header; by rewrite len_app, struct_bytes_len).
  assert (He : len es = len c * ENTRY_SIZE) by apply entries_len.
  pose proof (len_nonneg c). pose proof (len_nonneg blob). pose proof (len_nonneg records).
  change ENTRY_SIZE with 48 in *. change HEADER_SIZE with 64 in *.
  assert (Hoff : 64 + len c * 48 + len blob <= off < 64 + len c * 48 + len blob + 8) by (apply next_multiple_8; lia).
  pose proof (copy_at_fill [] (off + len records) header) as C1. cbn [app] in C1. change (len []) with 0 in C1.
  rewrite C1 by lia. cbn [mbind outcome_bind].
  pose proof (copy_at_fill header (off + len records - len header) es) as C2. rewrite Hh in *.
  rewrite C2 by lia. cbn [mbind outcome_bind].
  pose proof (copy_at_fill (header ++ es) (off + len records - 64 - len es) blob) as C3. rewrite len_app, Hh, He in C3.
  rewrite <- !app_assoc in C3. rewrite He, C3 by lia. cbn [mbind outcome_bind].
  replace (Z.to_nat (off + len records - 64 - len c * 48 - len blob))
    with (Z.to_nat (off - (64 + len c * 48 + len blob)) + Z.to_nat (len records))%nat by lia.
  rewrite replicate_add.
  pose proof (copy_at_fill (header ++ es ++ blob ++ replicate (Z.to_nat (off - (64 + len c * 48 + len blob))) 0)
                (len records) records) as C4.
  rewrite !len_app, Hh, He in C4. rewrite len_replicate in C4.
  replace (64 + (len c * 48 + (len blob + Z.of_nat (Z.to_nat (off - (64 + len c * 48 + len blob)))))) with off in C4 by lia.
  rewrite <- !app_assoc in C4. rewrite C4 by lia. replace (len records - len records) with 0 by lia.
  cbn [Z.to_nat replicate]. by rewrite !app_nil_r.
Qed.

Lemma slice_at {A} (d p m q : list A) a b : d = p ++ m ++ q -> a = len p -> b = a + len m -> slice d a b = Ret m.
Proof. intros -> -> ->. apply slice_app. Qed.

(** Decoding, once the tables are located. *)
Lemma from_bytes_located d fields x n y so no nl co cl entries names contributors :
  slice d 0 8 = Ret MAGIC -> slice d 8 HEADER_SIZE = Ret fields ->
  struct_fields Header fields = [SCHEMA; x; n; y; so; no; nl; co; cl] ->
  HEADER_SIZE <= len d < 2 ^ 64 -> 0 <= n /\ 0 <= so /\ so + n * ENTRY_SIZE <= len d -> so mod 8 = 0 ->
  no + nl <= len d -> co + cl <= len d ->
  mapM (fun i => slice d (so + Z.of_nat i * ENTRY_SIZE) (so + Z.of_nat i * ENTRY_SIZE + ENTRY_SIZE)) (seq 0 (Z.to_nat n)) = Ret entries ->
  slice d no (no + nl) = Ret names -> slice d co (co + cl) = Ret contributors ->
  from_bytes true d = read_sections names contributors entries 0.
Proof.
  intros Hm Hh Hf Hlen Hso Hmod Hno Hco Hes Hn Hc. unfold from_bytes, checked.
  replace (len d <? HEADER_SIZE) with false by lia. cbn [negb]. rewrite Hm. cbn [mbind outcome_bind].
  rewrite Hh. cbn [mbind outcome_bind]. rewrite Hf, bool_decide_true, Z.eqb_refl by done. cbn [negb].
  replace (n * ENTRY_SIZE <? 2 ^ 64) with true by (change ENTRY_SIZE with 48 in *; lia).
  replace (so + n * ENTRY_SIZE <? 2 ^ 64) with true by lia. replace (so + n * ENTRY_SIZE >? len d) with false by lia.
  rewrite Hmod, Z.eqb_refl. cbn [negb]. replace (no + nl <? 2 ^ 64) with true by lia.
  replace (no + nl >? len d) with false by lia. replace (co + cl <? 2 ^ 64) with true by lia.
  replace (co + cl >? len d) with false by lia. cbv zeta. rewrite Hes. cbn [mbind outcome_bind].
  rewrite Hn. cbn [mbind outcome_bind]. by rewrite Hc.
Qed.

Lemma from_bytes_layout s : Forall section_ok s -> len s < 2 ^ 32 -> len (mjoin (ss_name <$> s)) < 2 ^ 32 ->
  len (layout_bytes s) < 2 ^ 64 -> from_bytes true (layout_bytes s) = Ret (Some s).
Proof.
  intros Hok Hn Hb. pose proof (read_sections_spec s [] [] Hok) as Hread. cbn [app] in Hread. change (len []) with 0 in Hread.
  pose proof (entries_len s) as He.
  unfold layout_bytes. set (blob := mjoin (ss_name <$> s)) in *. set (records := mjoin (contributor_record <$> s)) in *.
  set (off := next_multiple_of _ _). set (header := [SCHEMA; _; _; _; _; _; _; _; _]).
  set (es := mjoin (struct_bytes SectionEntry <$> _)) in *. set (pad := replicate _ 0).
  set (fields := struct_bytes Header header). assert (Hf : len fields = 56) by (by apply struct_bytes_len).
  pose proof (len_nonneg s). pose proof (len_nonneg blob). pose proof (len_nonneg records).
  assert (Hoff : 64 + len s * 48 + len blob <= off < 64 + len s * 48 + len blob + 8) by (apply next_multiple_8; change HEADER_SIZE with 64; change ENTRY_SIZE with 48; lia).
  assert (Hpad : len pad = off - (64 + len s * 48 + len blob)).
  { unfold pad. rewrite len_replicate. change HEADER_SIZE with 64. change ENTRY_SIZE with 48. lia. }
  assert (Hm : len MAGIC = 8) by done. change ENTRY_SIZE with 48 in He.
  intros Htotal. set (d := (MAGIC ++ fields) ++ es ++ blob ++ pad ++ records) in *.
  assert (Hlen : len d = off + len records) by (unfold d; rewrite !len_app; lia).
  rewrite (from_bytes_located d fields 0 (u32 (len s)) 0 HEADER_SIZE (HEADER_SIZE + len s * ENTRY_SIZE) (len blob) off (len records)
             (struct_bytes SectionEntry <$> snd (name_entries s [])) blob records);
    rewrite ?(wrap_id 32 (len s)) by (unfold is_uint; lia); change HEADER_SIZE with 64; change ENTRY_SIZE with 48;
    [| | | |lia|lia|done|lia|lia| | |].
  - apply Hread; lia.
  - apply (slice_at _ [] MAGIC (fields ++ es ++ blob ++ pad ++ records)); [unfold d; by rewrite <- !app_assoc|done..].
  - apply (slice_at _ MAGIC fields (es ++ blob ++ pad ++ records)); [unfold d; by rewrite <- !app_assoc|lia..].
  - transitivity header; [|unfold header; by rewrite wrap_id by (unfold is_uint; lia)].
    unfold fields. rewrite <- (app_nil_r (struct_bytes Header header)). apply struct_fields_bytes.
    unfold header, SCHEMA. change HEADER_SIZE with 64. change ENTRY_SIZE with 48.
    repeat first [apply Forall2_cons; split; [first [apply wrap_bound; lia|unfold is_uint; simpl; lia]|]|apply Forall2_nil; done].
  - pose proof (slice_chunks ENTRY_SIZE _ (MAGIC ++ fields) (blob ++ pad ++ records) (entry_chunks s [])) as Hes.
    rewrite length_fmap, entry_count, len_app, Hf in Hes. replace (Z.to_nat (len s)) with (length s) by (unfold len; lia). exact Hes.
  - apply (slice_at _ ((MAGIC ++ fields) ++ es) blob (pad ++ records)); [unfold d; by rewrite <- !app_assoc|rewrite !len_app; lia|lia].
  - apply (slice_at _ ((MAGIC ++ fields) ++ es ++ blob ++ pad) records []); [unfold d; by rewrite app_nil_r, <- !app_assoc|rewrite !len_app; lia|lia].
Qed.

(** ** Decoding never fails *)

Lemma le_combine_nonneg d : is_bytes d -> 0 <= le_combine d.
Proof. intros Hd. rewrite (le_bytes_combine d Hd), le_combine_le_bytes. apply wrap_bound. lia. Qed.

Lemma is_bytes_sub d n m : is_bytes d -> is_bytes (take n (drop m d)).
Proof. intros. by apply Forall_take, Forall_drop. Qed.

Lemma slice_total d a b : is_bytes d -> 0 <= a <= b -> b <= len d -> exists t, slice d a b = Ret t /\ is_bytes t.
Proof. intros. rewrite slice_eq by done. eexists. split; [done|by apply is_bytes_sub]. Qed.

Lemma struct_fields_nonneg ws d : is_bytes d -> Forall (fun z => 0 <= z) (struct_fields ws d).
Proof.
  revert d. induction ws as [|w ws IH]; intros d Hd; [constructor|]. constructor; [by apply le_combine_nonneg, Forall_take|].
  by apply IH, Forall_drop.
Qed.

Lemma struct_fields_length ws d : length (struct_fields ws d) = length ws.
Proof. revert d. induction ws as [|w ws IH]; intros d; simpl; [done|]. by rewrite IH. Qed.

(** Chunks inside a buffer are all there. *)
Lemma chunks_total d off w n : is_bytes d -> 0 <= off -> 0 <= w -> off + Z.of_nat n * w <= len d ->
  exists es, mapM (fun i => slice d (off + Z.of_nat i * w) (off + Z.of_nat i * w + w)) (seq 0 n) = Ret es /\ Forall is_bytes es.
Proof.
  intros Hd Hoff Hw Hn. assert (H : forall k i, (i + k = n)%nat ->
    exists es, mapM (fun i => slice d (off + Z.of_nat i * w) (off + Z.of_nat i * w + w)) (seq i k) = Ret es /\ Forall is_bytes es);
    [|by apply (H n 0%nat)].
  induction k as [|k IH]; intros i Hi; [by exists []|]. cbn [seq mapM].
  destruct (slice_total d (off + Z.of_nat i * w) (off + Z.of_nat i * w + w) Hd) as (t & -> & Ht); [nia..|].
  destruct (IH (S i)) as (es & He & Hes); [lia|]. cbn [mbind outcome_bind]. rewrite He. exists (t :: es). by split; [|constructor].
Qed.

Lemma read_section_total names contributors cursor e : is_bytes names -> is_bytes contributors -> 0 <= cursor ->
  length e = 7%nat -> Forall (fun z => 0 <= z) e ->
  exists r, read_section names contributors cursor e = Ret r /\ forall x c, r = Some (x, c) -> 0 <= c.
Proof.
  intros Hn Hc Hcur Hl He. do 7 (destruct e as [|? e]; [done|]). destruct e; [|done].
  rewrite !Forall_cons in He. destruct He as (? & ? & _). unfold read_section, checked.
  destruct (Z.ltb_spec (z + z0) (2 ^ 64)); [|by exists None]. destruct (Z.gtb_spec (z + z0) (len names)); [by exists None|].
  destruct (Z.gtb_spec (cursor + 8) (len contributors)); [by exists None|].
  destruct (slice_total contributors cursor (cursor + 4) Hc) as (t & -> & Ht); [lia..|]. cbn [mbind outcome_bind].
  pose proof (le_combine_nonneg t Ht). set (k := le_combine t) in *.
  destruct (Z.ltb_spec (k * KEY_LEN) (2 ^ 64)); [|by exists None].
  destruct (Z.ltb_spec (cursor + 8 + k * KEY_LEN) (2 ^ 64)); [|by exists None].
  destruct (Z.gtb_spec (cursor + 8 + k * KEY_LEN) (len contributors)); [by exists None|].
  destruct (chunks_total contributors (cursor + 8) KEY_LEN (Z.to_nat k) Hc) as (es & Hes & _); [unfold KEY_LEN in *; lia..|].
  cbv zeta. rewrite Hes. cbn [mbind outcome_bind].
  destruct (slice_total names z (z + z0) Hn) as (nm & -> & _); [lia..|]. cbn [mbind outcome_bind].
  eexists. split; [done|]. unfold KEY_LEN. intros x c [= <- <-]. lia.
Qed.

Lemma read_sections_total names contributors entries cursor : is_bytes names -> is_bytes contributors -> 0 <= cursor ->
  Forall is_bytes entries -> exists r, read_sections names contributors entries cursor = Ret r.
Proof.
  intros Hn Hc Hcur He. revert cursor Hcur. induction He as [|e entries Hb _ IH]; intros cursor Hcur; [by eexists|].
  cbn [read_sections]. destruct (read_section_total names contributors cursor (struct_fields SectionEntry e)) as (r & -> & Hr);
    [done..|by rewrite struct_fields_length|by apply struct_fields_nonneg|].
  destruct r as [[x c]|]; [|by eexists]. destruct (IH c) as [r ->]; [by eapply Hr|]. destruct r; by eexists.
Qed.

(** ** The reuse predicates *)

Lemma all_clean_spec clean x : all_clean clean x = true <-> forall k, k ∈ ss_contributors x -> k ∈ clean.
Proof.
  unfold all_clean. rewrite forallb_forall. split; intros H k Hk.
  - apply (bool_decide_eq_true_1 (k ∈ clean)), H. by apply list_elem_of_In.
  - apply bool_decide_eq_true_2, H. by apply list_elem_of_In.
Qed.

Lemma reusable_loop_spec clean i pairs j : j ∈ reusable_loop clean i pairs <->
  exists a b, (i <= j)%nat /\ pairs !! (j - i)%nat = Some (a, b) /\ same_place a b = true /\ ss_contributors a <> [] /\ all_clean clean a = true.
Proof.
  revert i. induction pairs as [|[a b] pairs IH]; intros i; cbn [reusable_loop].
  - split; [by intros ?%elem_of_nil|]. by intros (? & ? & _ & ? & _).
  - assert (Hstep : forall P : Prop, (P <-> same_place a b = true /\ ss_contributors a <> [] /\ all_clean clean a = true) ->
      ((j = i /\ P) \/ j ∈ reusable_loop clean (S i) pairs <->
       exists a0 b0, (i <= j)%nat /\ ((a, b) :: pairs) !! (j - i)%nat = Some (a0, b0) /\ same_place a0 b0 = true /\
         ss_contributors a0 <> [] /\ all_clean clean a0 = true)).
    { intros P HP. rewrite IH, HP. split.
      - intros [[-> ?]|(a0 & b0 & ? & Hl & ?)]; [exists a, b; by rewrite Nat.sub_diag|].
        exists a0, b0. split; [lia|]. by replace (j - i)%nat with (S (j - S i)) by lia.
      - intros (a0 & b0 & ? & Hl & ?). destruct (decide (j = i)) as [->|Hne].
        + rewrite Nat.sub_diag in Hl. injection Hl as <- <-. by left.
        + right. exists a0, b0. split; [lia|]. by replace (j - i)%nat with (S (j - S i)) in Hl by lia. }
    destruct (same_place a b); cbn [negb]; [|rewrite <- (Hstep False); naive_solver].
    destruct (ss_contributors a) as [|k ks] eqn:Ek; [rewrite <- (Hstep False); naive_solver|].
    destruct (all_clean clean a) eqn:Ec; cbn [negb]; [|rewrite <- (Hstep False); naive_solver].
    rewrite elem_of_cons, <- (Hstep True); naive_solver.
Qed.

Lemma dirty_loop_spec clean i s j : j ∈ dirty_loop clean i s <->
  exists a, (i <= j)%nat /\ s !! (j - i)%nat = Some a /\ all_clean clean a = false.
Proof.
  revert i. induction s as [|x s IH]; intros i; cbn [dirty_loop].
  - split; [by intros ?%elem_of_nil|]. by intros (? & _ & ? & _).
  - assert (Hstep : (j = i /\ all_clean clean x = false) \/ j ∈ dirty_loop clean (S i) s <->
      exists a, (i <= j)%nat /\ (x :: s) !! (j - i)%nat = Some a /\ all_clean clean a = false).
    { rewrite IH. split.
      - intros [[-> ?]|(a & ? & Hl & ?)]; [exists x; by rewrite Nat.sub_diag|].
        exists a. split; [lia|]. by replace (j - i)%nat with (S (j - S i)) by lia.
      - intros (a & ? & Hl & ?). destruct (decide (j = i)) as [->|Hne].
        + rewrite Nat.sub_diag in Hl. injection Hl as <-. by left.
        + right. exists a. split; [lia|]. by replace (j - i)%nat with (S (j - S i)) in Hl by lia. }
    rewrite <- Hstep. destruct (all_clean clean x); cbn [negb]; rewrite ?elem_of_cons; naive_solver.
Qed.

Lemma reusable_spec prev cur clean i : i ∈ reusable_section_indices prev cur clean <->
  exists a b, prev !! i = Some a /\ cur !! i = Some b /\ same_place a b = true /\
    ss_contributors a <> [] /\ forall k, k ∈ ss_contributors a -> k ∈ clean.
Proof.
  unfold reusable_section_indices. rewrite reusable_loop_spec. setoid_rewrite all_clean_spec.
  rewrite Nat.sub_0_r. setoid_rewrite lookup_zip_Some. split; [naive_solver|].
  intros (a & b & ? & ? & ?). exists a, b. split; [lia|naive_solver].
Qed.

Lemma dirty_spec prev clean i : i ∈ dirty_section_indices prev clean <->
  exists a k, prev !! i = Some a /\ k ∈ ss_contributors a /\ k ∉ clean.
Proof.
  unfold dirty_section_indices. rewrite dirty_loop_spec, Nat.sub_0_r. split.
  - intros (a & _ & Ha & Hc). apply not_true_iff_false in Hc. rewrite all_clean_spec in Hc.
    exists a. destruct (decide (Exists (fun k => k ∉ clean) (ss_contributors a))) as [He|He].
    + apply Exists_exists in He as (k & ? & ?). by exists k.
    + exfalso. apply Hc. intros k Hk. apply dec_stable. intros Hn. apply He, Exists_exists. by exists k.
  - intros (a & k & Ha & Hk & Hn). exists a. split_and!; [lia|done|]. apply not_true_iff_false.
    rewrite all_clean_spec. naive_solver.
Qed.

Lemma fully_reusable_spec prev cur clean : is_fully_reusable prev cur clean = true ->
  forall i a, prev !! i = Some a ->
  exists b, cur !! i = Some b /\ same_place a b = true /\ forall k, k ∈ ss_contributors a -> k ∈ clean.
Proof.
  intros Hf. unfold is_fully_reusable in Hf. apply andb_true_iff in Hf as [Hlen Hf].
  apply Nat.eqb_eq in Hlen. rewrite forallb_forall in Hf. intros i a Ha. setoid_rewrite <- all_clean_spec.
  destruct (lookup_lt_is_Some_2 cur i) as [b Hb]; [rewrite <- Hlen; by eapply lookup_lt_Some|].
  exists b. split; [done|]. apply andb_true_iff. apply (Hf (a, b)). apply list_elem_of_In, list_elem_of_lookup. exists i.
  by apply lookup_zip_Some.
Qed.

Lemma same_place_spec a b : same_place a b = true <-> ss_name a = ss_name b /\ ss_file_offset a = ss_file_offset b /\
  ss_file_size a = ss_file_size b /\ ss_mem_offset a = ss_mem_offset b /\ ss_mem_size a = ss_mem_size b.
Proof. unfold same_place. rewrite !andb_true_iff, bool_decide_eq_true, !Z.eqb_eq. tauto. Qed.

Lemma fully_reusable_iff prev cur clean : is_fully_reusable prev cur clean = true <->
  length prev = length cur /\ forall i a b, prev !! i = Some a -> cur !! i = Some b ->
    (ss_name a = ss_name b /\ ss_file_offset a = ss_file_offset b /\ ss_file_size a = ss_file_size b /\
     ss_mem_offset a = ss_mem_offset b /\ ss_mem_size a = ss_mem_size b) /\ forall k, k ∈ ss_contributors a -> k ∈ clean.
Proof.
  setoid_rewrite <- same_place_spec. split.
  - intros Hf. split; [unfold is_fully_reusable in Hf; by apply andb_true_iff in Hf as [Hl%Nat.eqb_eq _]|]. intros i a b Ha Hb.
    destruct (fully_reusable_spec _ _ _ Hf i a Ha) as (b' & Hb' & ?). congruence.
  - intros [Hl Hf]. unfold is_fully_reusable. rewrite Hl, Nat.eqb_refl. apply forallb_forall. intros [a b] [i [Ha Hb]%lookup_zip_Some]%list_elem_of_In%list_elem_of_lookup.
    destruct (Hf i a b Ha Hb). by apply andb_true_iff; rewrite all_clean_spec.
Qed.

(** ** Properties *)

(** C28. A snapshot survives the disk.  [finish] never fails; on sections whose fields
    fit their widths, [from_bytes] reads an aligned copy of what it wrote back as
    the canonical snapshot, provided there are fewer than [2^32] sections,
    their names take fewer than [2^32] bytes and the file is addressable. *)
Theorem snapshot_roundtrip s : Forall section_ok s ->
  exists d, finish s = Ret d /\
  (len s < 2 ^ 32 -> len (mjoin (ss_name <$> s)) < 2 ^ 32 -> len d < 2 ^ 64 ->
   from_bytes true d = Ret (Some (canonicalize s))).
Proof.
  intros Hok. exists (layout_bytes (canonicalize s)). split; [apply finish_spec|]. intros Hn Hb Hd.
  apply from_bytes_layout; [| | |done].
  - unfold canonicalize. apply Forall_fmap. eapply Forall_impl; [exact Hok|]. intros x Hx. by apply canonical_ok.
  - unfold canonicalize, len in *. by rewrite length_fmap.
  - unfold canonicalize. by rewrite <- list_fmap_compose.
Qed.

Lemma snapshot_roundtrip_witness : exists d, finish demo_snapshot = Ret d /\ from_bytes true d = Ret (Some (canonicalize demo_snapshot)).
Proof.
  destruct (snapshot_roundtrip demo_snapshot) as (d & Hd & H).
  { repeat constructor; try (unfold is_uint; simpl; lia). }
  exists d. split; [exact Hd|]. apply H; [reflexivity|reflexivity|].
  vm_compute in Hd. injection Hd as <-. reflexivity.
Defined.

(** Reading a snapshot never fails the link: whatever bytes are on disk, and
    however they are aligned, the decoder returns a snapshot or nothing. *)
Theorem snapshot_total aligned d : is_bytes d -> exists r, from_bytes aligned d = Ret r.
Proof.
  intros Hd. unfold from_bytes. destruct (Z.ltb_spec (len d) HEADER_SIZE) as [|Hlen]; [by exists None|].
  destruct aligned; cbn [negb]; [|by exists None]. change HEADER_SIZE with 64 in *.
  destruct (slice_total d 0 8 Hd) as (magic & -> & _); [lia..|]. cbn [mbind outcome_bind].
  destruct (slice_total d 8 64 Hd) as (h & -> & Hh); [lia..|]. cbn [mbind outcome_bind].
  pose proof (struct_fields_length Header h) as Hfl. pose proof (struct_fields_nonneg Header h Hh) as Hnn.
  destruct (struct_fields Header h) as [|? l]; [done|]. do 8 (destruct l as [|? l]; [done|]). destruct l; [|done].
  rewrite !Forall_cons in Hnn. destruct Hnn as (? & ? & ? & ? & ? & ? & ? & ? & ? & _). unfold checked.
  repeat match goal with
    | |- context [if negb ?b then _ else _] => destruct b; cbn [negb]; [|by exists None]
    | |- context [if ?a <? ?b then _ else _] => destruct (Z.ltb_spec a b); [|by exists None]
    | |- context [if ?a >? ?b then _ else _] => destruct (Z.gtb_spec a b); [by exists None|]
    end.
  destruct (chunks_total d z3 ENTRY_SIZE (Z.to_nat z1) Hd) as (es & Hes & Hesb); [change ENTRY_SIZE with 48 in *; lia..|].
  cbv zeta. rewrite Hes. cbn [mbind outcome_bind].
  destruct (slice_total d z4 (z4 + z5) Hd) as (names & -> & Hn); [lia..|]. cbn [mbind outcome_bind].
  destruct (slice_total d z6 (z6 + z7) Hd) as (cs & -> & Hc); [lia..|]. cbn [mbind outcome_bind].
  by apply read_sections_total.
Qed.

Lemma snapshot_total_witness : exists r, from_bytes true (MAGIC ++ replicate 56 255) = Ret r.
Proof. apply snapshot_total. by apply (bool_decide_unpack _); vm_compute. Defined.

(** C29. What is reused is safe to reuse.  The indices offered for reuse are exactly those of
    sections that are at the same index under the same name, at the same offset and of the same
    size in the file and in memory, have contributors, and none of whose contributors
    changed; the dirty ones are exactly those with a changed contributor; and the whole output is declared
    reusable exactly when there are as many sections, each at the same place with no contributor
    changed: then nothing is dirty and every section with contributors is among those offered. *)
Theorem reuse_sound prev cur clean :
  let unmoved a b := ss_name a = ss_name b /\ ss_file_offset a = ss_file_offset b /\ ss_file_size a = ss_file_size b /\
    ss_mem_offset a = ss_mem_offset b /\ ss_mem_size a = ss_mem_size b in
  (forall i, i ∈ reusable_section_indices prev cur clean <->
     exists a b, prev !! i = Some a /\ cur !! i = Some b /\ unmoved a b /\
       ss_contributors a <> [] /\ forall k, k ∈ ss_contributors a -> k ∈ clean) /\
  (forall i, i ∈ dirty_section_indices prev clean <->
     exists a k, prev !! i = Some a /\ k ∈ ss_contributors a /\ k ∉ clean) /\
  (is_fully_reusable prev cur clean = true <->
     length prev = length cur /\ forall i a b, prev !! i = Some a -> cur !! i = Some b ->
       unmoved a b /\ forall k, k ∈ ss_contributors a -> k ∈ clean) /\
  (is_fully_reusable prev cur clean = true ->
     dirty_section_indices prev clean = [] /\
     forall i a, prev !! i = Some a -> ss_contributors a <> [] -> i ∈ reusable_section_indices prev cur clean).
Proof.
  cbv zeta. split_and!; [|apply dirty_spec|apply fully_reusable_iff|].
  - intros i. rewrite reusable_spec. by setoid_rewrite same_place_spec.
  - intros Hf. split.
    + destruct (dirty_section_indices prev clean) as [|i l] eqn:E; [done|]. exfalso.
      destruct (proj1 (dirty_spec prev clean i)) as (a & k & Ha & Hk & Hn); [rewrite E; apply list_elem_of_here|].
      destruct (fully_reusable_spec prev cur clean Hf i a Ha) as (_ & _ & _ & Hc). naive_solver.
    + intros i a Ha Hne. apply reusable_spec. destruct (fully_reusable_spec prev cur clean Hf i a Ha) as (b & Hb & Hp & Hc).
      by exists a, b.
Qed.

(** A section that stayed and one that moved in memory; only the first is offered, and not all is reusable. *)
Definition stayed : SnapshotSection := mkSnap [46; 116] 16 64 16 4096 16 [[1]; [2]].
Definition moved (address : Z) : SnapshotSection := mkSnap [46; 100] 8 80 8 address 8 [[2]].

Definition unchanged : gset bytes := {[ [1%Z]; [2%Z] ]}.

Lemma reuse_sound_witness :
  is_fully_reusable [stayed; moved 8192] [stayed; moved 8192] unchanged = true /\
  dirty_section_indices [stayed; moved 8192] unchanged = [] /\ (1 ∈ reusable_section_indices [stayed; moved 8192] [stayed; moved 8192] unchanged)%nat /\
  (1 ∉ reusable_section_indices [stayed; moved 8192] [stayed; moved 8200] unchanged)%nat.
Proof.
  destruct (reuse_sound [stayed; moved 8192] [stayed; moved 8192] unchanged) as (_ & _ & _ & H).
  destruct (reuse_sound [stayed; moved 8192] [stayed; moved 8200] unchanged) as (Hr & _).
  assert (is_fully_reusable [stayed; moved 8192] [stayed; moved 8192] unchanged = true) as Hf by reflexivity.
  split; [exact Hf|]. destruct (H Hf) as [Hd Hin]. split; [exact Hd|]. split.
  - apply (Hin 1%nat (moved 8192)); [reflexivity|discriminate].
  - intros (a & b & Ha & Hb & (_ & _ & _ & Hm & _) & _)%Hr. injection Ha as <-. injection Hb as <-. discriminate Hm.
Defined.

(** Snapshots of the same layout with the same contributors are the same file. *)
Theorem finish_deterministic s s' :
  Forall2 (fun a b => with_contributors a [] = with_contributors b [] /\
                      forall k, k ∈ ss_contributors a <-> k ∈ ss_contributors b) s s' -> finish s = finish s'.
Proof.
  intros H. rewrite !finish_spec. f_equal. f_equal. unfold canonicalize.
  induction H as [|a b s s' [Hab Hk] _ IH]; [done|]. rewrite !fmap_cons. f_equal; [|done].
  fold (canonical_keys (ss_contributors a)) (canonical_keys (ss_contributors b)). rewrite (canonical_keys_ext _ _ Hk).
  destruct a, b. unfold with_contributors in *. cbn in *. congruence.
Qed.
