(* ===== verification/Alignment.v ===== *)
(** Alignments and the rounding of addresses ([libwild/src/alignment.rs]). *)
From S2P Require Import Prelude.

(** ** Alignments *)

(** An alignment is the power of two with this exponent. *)
Record Alignment := mkAlignment { exponent : Z }.

Definition MAX_ALIGNMENT_EXPONENT : Z := 16.
Definition NUM_ALIGNMENTS : Z := MAX_ALIGNMENT_EXPONENT + 1.
Definition MIN : Alignment := mkAlignment 0.
Definition MAX : Alignment := mkAlignment MAX_ALIGNMENT_EXPONENT.

Inductive alignment_error := InvalidAlignment (raw : Z) | UnsupportedAlignment (raw : Z).

(** [u64::is_power_of_two] and [u64::trailing_zeros]. *)
Definition is_power_of_two (z : Z) : bool := (0 <? z) && (Z.land z (z - 1) =? 0).
Fixpoint pos_trailing_zeros (p : positive) : Z :=
  match p with xO p => 1 + pos_trailing_zeros p | _ => 0 end.
Definition trailing_zeros (z : Z) : Z := match z with Zpos p => pos_trailing_zeros p | _ => 64 end.

Definition alignment_new (raw : Z) : result Alignment alignment_error :=
  if negb (is_power_of_two raw) then Err (InvalidAlignment raw)
  else
    let e := trailing_zeros raw in
    if e >? exponent MAX then Err (UnsupportedAlignment raw) else Ok (mkAlignment (u8 e)).

(** [1 << self.exponent] *)
Definition value (a : Alignment) : Z := u64 (Z.shiftl 1 (exponent a mod 64)).
Definition mask (a : Alignment) : Z := u64 (value a - 1).

(** [v.next_multiple_of(m)] in a release build. *)
Definition next_multiple (v m : Z) : Z := if v mod m =? 0 then v else u64 (v + (m - v mod m)).

Definition align_up (a : Alignment) (v : Z) : Z := next_multiple v (value a).
Definition align_up_usize (a : Alignment) (v : Z) : Z := next_multiple v (value a).
Definition align_down (a : Alignment) (v : Z) : Z := Z.land v (not_w 64 (mask a)).

Definition align_modulo (a : Alignment) (ref_offset offset : Z) : Z :=
  let m := mask a in
  let offset := align_up a offset in
  if Z.land offset m =? Z.land ref_offset m then offset
  else
    let adjustment := u64 (u64 (Z.land ref_offset m + value a) - Z.land offset m) in
    let adjustment := if adjustment >? value a then u64 (adjustment - value a) else adjustment in
    u64 (offset + adjustment).

(** The tests of the module. *)
Example align_up_tests : align_up (mkAlignment 4) <$> [16; 15; 1; 0; 31] = [16; 16; 16; 0; 32].
Proof. reflexivity. Qed.
Example align_modulo_tests :
  (fun '(r, o) => align_modulo (mkAlignment 12) r o)
    <$> [(0x123456, 0x987456); (0x123456, 0x987555); (0x123456, 0x987000); (0x2afce, 0x42af7e)]
  = [0x988456; 0x988456; 0x987456; 0x42bfce].
Proof. reflexivity. Qed.

(** ** Lemmas *)

(** The alignments that [alignment_new] makes. *)
Definition supported (a : Alignment) : Prop := 0 <= exponent a <= MAX_ALIGNMENT_EXPONENT.

Lemma pow_bounds e : 0 <= e <= 16 -> 1 <= 2 ^ e <= 2 ^ 16.
Proof. intros. pose proof (Z.pow_le_mono_r 2 0 e). pose proof (Z.pow_le_mono_r 2 e 16). lia. Qed.

Lemma value_pow a : supported a -> value a = 2 ^ exponent a.
Proof.
  unfold supported, MAX_ALIGNMENT_EXPONENT. intros H. unfold value. rewrite Z.mod_small, Z.shiftl_1_l by lia.
  pose proof (pow_bounds _ H). apply wrap_id. unfold is_uint. lia.
Qed.

Lemma land_mask a v : supported a -> Z.land v (mask a) = v mod value a.
Proof.
  intros H. pose proof (value_pow a H) as Hv. pose proof (pow_bounds _ H). unfold mask.
  rewrite wrap_id by (unfold is_uint; lia). rewrite Hv. apply land_ones_mod. unfold supported in H. lia.
Qed.

Lemma next_multiple_spec v m : 0 <= v -> 0 < m -> v + (m - 1) < 2 ^ 64 ->
  next_multiple v m mod m = 0 /\ v <= next_multiple v m < v + m.
Proof.
  intros Hv Hm Hb. unfold next_multiple. pose proof (Z.mod_pos_bound v m). pose proof (Z.div_mod v m).
  destruct (Z.eqb_spec (v mod m) 0); [lia|]. rewrite wrap_id by (unfold is_uint; lia). split; [|lia].
  replace (v + (m - v mod m)) with ((v / m + 1) * m) by lia. by rewrite Z.mod_mul by lia.
Qed.

Lemma land_ldiff_split v m : Z.land v m + Z.ldiff v m = v.
Proof.
  rewrite Z.add_nocarry_lxor; [rewrite Z.lxor_lor|].
  - rewrite Z.lor_comm. apply Z.lor_ldiff_and.
  - rewrite Z.land_comm. apply Z.bits_inj'. intros i Hi. rewrite Z.land_spec, Z.ldiff_spec, Z.land_spec, Z.bits_0.
    by destruct (Z.testbit v i), (Z.testbit m i).
  - rewrite Z.land_comm. apply Z.bits_inj'. intros i Hi. rewrite Z.land_spec, Z.ldiff_spec, Z.land_spec, Z.bits_0.
    by destruct (Z.testbit v i), (Z.testbit m i).
Qed.

Lemma pos_trailing_zeros_nonneg p : 0 <= pos_trailing_zeros p.
Proof. induction p; cbn [pos_trailing_zeros]; lia. Qed.

Lemma power_of_two_pos p : is_power_of_two (Zpos p) = true -> Zpos p = 2 ^ pos_trailing_zeros p.
Proof.
  unfold is_power_of_two. cbn [Z.ltb Z.compare andb]. rewrite Z.eqb_eq. induction p as [p _|p IH|]; cbn [pos_trailing_zeros]; intros H.
  - exfalso. assert (Z.pos p = 0); [|lia]. apply Z.bits_inj'. intros i Hi. rewrite Z.bits_0.
    assert (Hb : Z.testbit (Z.land (Z.pos p~1) (Z.pos p~1 - 1)) (Z.succ i) = false) by (rewrite H; apply Z.bits_0).
    rewrite (Pos2Z.inj_xI p) in Hb. replace (2 * Z.pos p + 1 - 1) with (2 * Z.pos p) in Hb by lia.
    rewrite Z.land_spec, Z.double_bits_succ, Z.testbit_odd_succ in Hb by lia. by rewrite andb_diag in Hb.
  - rewrite Z.pow_add_r by (pose proof (pos_trailing_zeros_nonneg p); lia). rewrite <- IH; [lia|].
    rewrite (Pos2Z.inj_xO p) in H. apply Z.bits_inj'. intros i Hi. rewrite Z.bits_0.
    assert (Hb : Z.testbit (Z.land (2 * Z.pos p) (2 * Z.pos p - 1)) (Z.succ i) = false) by (rewrite H; apply Z.bits_0).
    rewrite Z.land_spec in Hb |- *. rewrite Z.double_bits_succ in Hb.
    replace (2 * Z.pos p - 1) with (2 * (Z.pos p - 1) + 1) in Hb by lia. by rewrite Z.testbit_odd_succ in Hb by lia.
  - reflexivity.
Qed.

Lemma pow_is_power_of_two e : 0 <= e -> is_power_of_two (2 ^ e) = true /\ trailing_zeros (2 ^ e) = e.
Proof.
  intros He. split.
  - unfold is_power_of_two. replace (0 <? 2 ^ e) with true by lia. cbn [andb].
    rewrite land_ones_mod by done. rewrite Z.mod_same by lia. done.
  - assert (H : forall n : nat, trailing_zeros (2 ^ Z.of_nat n) = Z.of_nat n).
    { induction n as [|n IH]; [done|]. rewrite Nat2Z.inj_succ, Z.pow_succ_r by lia.
      destruct (2 ^ Z.of_nat n) as [|p|p] eqn:E; [lia| |lia].
      change (1 + pos_trailing_zeros p = Z.succ (Z.of_nat n)). cbn [trailing_zeros] in IH. lia. }
    rewrite <- (Z2Nat.id e) by lia. apply H.
Qed.

(** ** Properties *)

(** Alignments are the powers of two up to [2^16], and rounding is exact.  The
    constructor accepts a number when it is such a power and then has it as value;
    [align_up] gives the least multiple not below its argument, [align_down] the
    greatest not above it, and [align_modulo] the least number not below the rounded
    offset that has the residue of the reference, all without wrapping when the
    next multiple of the alignment after the result fits in 64 bits. *)
Theorem alignment_rounds :
  (forall raw a, is_uint 64 raw -> (alignment_new raw = Ok a <-> supported a /\ raw = 2 ^ exponent a)) /\
  forall a v, supported a -> 0 <= v ->
  (v + value a <= 2 ^ 64 -> align_up a v mod value a = 0 /\ v <= align_up a v < v + value a) /\
  (v < 2 ^ 64 -> align_down a v mod value a = 0 /\ align_down a v <= v < align_down a v + value a) /\
  (forall r, 0 <= r -> v + 2 * value a <= 2 ^ 64 ->
     align_modulo a r v mod value a = r mod value a /\
     align_up a v <= align_modulo a r v < align_up a v + value a).
Proof.
  split.
  - intros raw a Hraw. unfold alignment_new. split.
    + destruct (is_power_of_two raw) eqn:E; [|done]. cbn [negb]. destruct raw as [|p|p]; [done| |done].
      cbn [trailing_zeros]. pose proof (power_of_two_pos p E) as Hp. pose proof (pos_trailing_zeros_nonneg p).
      destruct (Z.gtb_spec (pos_trailing_zeros p) (exponent MAX)) as [|Hle]; [done|]. intros [= <-].
      cbn [exponent MAX] in *. unfold supported, MAX_ALIGNMENT_EXPONENT in *. cbn [exponent].
      rewrite wrap_id by (unfold is_uint; lia). split; [lia|done].
    + intros [Ha ->]. destruct (pow_is_power_of_two (exponent a)) as [-> ->]; [unfold supported in Ha; lia|]. cbn [negb].
      unfold supported, MAX_ALIGNMENT_EXPONENT in Ha. cbn [exponent MAX]. unfold MAX_ALIGNMENT_EXPONENT.
      replace (exponent a >? 16) with false by lia. rewrite wrap_id by (unfold is_uint; lia). by destruct a.
  - intros a v Ha Hv. pose proof (value_pow a Ha) as Hval. pose proof (pow_bounds _ Ha) as Hpow.
    split_and!.
    + intros Hb. apply next_multiple_spec; lia.
    + intros Hb. unfold align_down, not_w.
      assert (Hd : Z.land v (wrap 64 (Z.lnot (mask a))) = v - v mod value a).
      { assert (Hv' : Z.land v (wrap 64 (Z.lnot (mask a))) = Z.ldiff v (mask a)).
        { rewrite Z.ldiff_land. unfold wrap. rewrite <- Z.land_ones by lia. rewrite (Z.land_comm _ (Z.ones 64)), Z.land_assoc.
          rewrite Z.land_ones by lia. by rewrite Z.mod_small by lia. }
        rewrite Hv', <- (land_mask a v Ha). pose proof (land_ldiff_split v (mask a)). lia. }
      rewrite Hd. pose proof (Z.mod_pos_bound v (value a)). split; [|lia].
      rewrite Zminus_mod_idemp_r. by rewrite Z.sub_diag, Z.mod_0_l by lia.
    + intros r Hr Hb. destruct (next_multiple_spec v (value a)) as [Hm Hup]; [lia..|]. fold (align_up a v) in Hm, Hup.
      unfold align_modulo. rewrite !land_mask by done. rewrite Hm. pose proof (Z.mod_pos_bound r (value a)).
      destruct (Z.eqb_spec 0 (r mod value a)) as [He|He]; [lia|].
      rewrite (wrap_id 64 (r mod value a + value a)), (wrap_id 64 (r mod value a + value a - 0)) by (unfold is_uint; lia).
      rewrite Z.sub_0_r. replace (r mod value a + value a >? value a) with true by lia.
      replace (r mod value a + value a - value a) with (r mod value a) by lia.
      rewrite (wrap_id 64 (r mod value a)), wrap_id by (unfold is_uint; lia). split; [|lia].
      rewrite <- Zplus_mod_idemp_l, Hm. by rewrite Z.add_0_l, Z.mod_mod by lia.
Qed.
