(* ===== verification/ScriptExpr.v ===== *)
(** Expressions of linker scripts and the ASSERT commands over them
    ([libwild/src/expression_eval.rs], with the data of [linker_script.rs],
    [layout.rs] and [output_section_id.rs] they read).

    The evaluator follows a memory region's ORIGIN or LENGTH into the region's own
    expression, so its recursion is not structural: [evaluate_expression] has fuel
    for those steps alone, and running out of it is the value [Deep]. *)
From stdpp Require Import gmap.
From S2P Require Import Prelude BitMisc Alignment.

(** ** Data *)

Inductive Expression :=
| Number (n : Z)
| Symbol (name : bytes)
| LocationCounter
| Add (l r : Expression) | Subtract (l r : Expression)
| Multiply (l r : Expression) | Divide (l r : Expression)
| LessThan (l r : Expression) | GreaterThan (l r : Expression)
| LessEqual (l r : Expression) | GreaterEqual (l r : Expression)
| Equal (l r : Expression) | NotEqual (l r : Expression)
| Sizeof (name : bytes) | Alignof (name : bytes)
| Origin (name : bytes) | Length (name : bytes)
| Addr (name : bytes) | Loadaddr (name : bytes)
| Align (e : Expression)
| Min (l r : Expression) | Max (l r : Expression)
| BitwiseAnd (l r : Expression) | BitwiseOr (l r : Expression) | BitwiseXor (l r : Expression)
| LeftShift (l r : Expression) | RightShift (l r : Expression)
| LogicalAnd (l r : Expression) | LogicalOr (l r : Expression)
| LogicalNot (e : Expression) | BitwiseNot (e : Expression) | Negate (e : Expression).

#[export] Instance Expression_eq_dec : EqDecision Expression.
Proof. solve_decision. Defined.

Record MemoryRegion := mkRegion { region_name : bytes; origin : Expression; length : Expression }.
Record AssertCommand := mkAssert { expression : Expression; message : bytes; remainder : bytes }.

Record OutputRecordLayout := mkLayout {
  file_size : Z; mem_size : Z; alignment : Alignment; file_offset : Z; mem_offset : Z }.

Inductive SectionKind := Primary (name : bytes) | Secondary (primary : Z).

(** The fields of [OutputSections] that a lookup by name reads. *)
Record OutputSections := mkSections { custom_by_name : gmap bytes Z; section_infos : list SectionKind }.

(** A script after parsing, and the groups of inputs; the other groups have no
    assertions and are kept without their contents. *)
Record Script := mkScript {
  input : bytes; assertions : list AssertCommand; file_bytes : bytes; memory_regions : list MemoryRegion }.
Inductive Group :=
| GPrelude | GObjects | LinkerScripts (scripts : list Script) | SyntheticSymbols | LtoInputs.

(** ** Evaluation with warnings

    An evaluation leaves the symbols it warned about and an answer: a value, an
    error of the linker, a panic, or the end of the fuel. *)

Inductive script_error := DivisionByZero | AlignZero | AddrNotFound (name : bytes)
| OriginNotFound (name : bytes) | LengthNotFound (name : bytes).

Inductive answer (A : Type) := Value (a : A) | Bail (e : script_error) | Crash | Deep.
Arguments Value {A} a.
Arguments Bail {A} e.
Arguments Crash {A}.
Arguments Deep {A}.

Definition eval (A : Type) : Type := list bytes * answer A.

#[export] Instance eval_ret : MRet eval := fun A a => ([], Value a).
#[export] Instance eval_bind : MBind eval := fun A B f m =>
  match m with
  | (w, Value a) => (w ++ (f a).1, (f a).2)
  | (w, Bail e) => (w, Bail e) | (w, Crash) => (w, Crash) | (w, Deep) => (w, Deep)
  end.
Definition bail {A} (e : script_error) : eval A := ([], Bail e).
Definition warn (name : bytes) : eval () := ([name], Value ()).

(** [u64::from(b)] *)
Definition of_bool (b : bool) : Z := if b then 1 else 0.

(** ** Looking sections up *)

Definition kind_name (k : SectionKind) : option bytes :=
  match k with Primary name => Some name | Secondary _ => None end.

(** The first index at which the section has this name. *)
Fixpoint find_name (infos : list SectionKind) (name : bytes) (id : Z) : option Z :=
  match infos with
  | [] => None
  | k :: infos => if decide (kind_name k = Some name) then Some id else find_name infos name (id + 1)
  end.

Definition section_id_by_name (sections : OutputSections) (name : bytes) : option Z :=
  match custom_by_name sections !! name with
  | Some id => Some id
  | None => find_name (section_infos sections) name 0
  end.

Section evaluation.
Context (section_layouts : list OutputRecordLayout) (output_sections : OutputSections).

(** [section_layouts.get(id)] indexes the vector. *)
Definition layout_of (id : Z) : eval OutputRecordLayout :=
  match get section_layouts id with Some l => mret l | None => ([], Crash) end.

Definition section_size (name : bytes) : eval Z :=
  match section_id_by_name output_sections name with
  | None => mret 0
  | Some id => l ← layout_of id; mret (mem_size l)
  end.
Definition section_align (name : bytes) : eval Z :=
  match section_id_by_name output_sections name with
  | None => mret 0
  | Some id => l ← layout_of id; mret (value (alignment l))
  end.
Definition section_address (name : bytes) : eval Z :=
  match section_id_by_name output_sections name with
  | None => bail (AddrNotFound name)
  | Some id => l ← layout_of id; mret (mem_offset l)
  end.

Context (memory_regions : list MemoryRegion).

Definition find_region (name : bytes) : option MemoryRegion :=
  snd <$> list_find (fun r => region_name r = name) memory_regions.

(** One call of the evaluator, with [deref] for the calls on a region's expressions. *)
Fixpoint evaluate_with (deref : Expression -> eval Z) (expr : Expression) : eval Z :=
  let ev := evaluate_with deref in
  match expr with
  | Number n => mret n
  | LocationCounter => mret 0
  | Symbol name => _ ← warn name; mret 1
  | Add l r => x ← ev l; y ← ev r; mret (u64 (x + y))
  | Subtract l r => x ← ev l; y ← ev r; mret (u64 (x - y))
  | Multiply l r => x ← ev l; y ← ev r; mret (u64 (x * y))
  | Divide l r =>
      divisor ← ev r;
      if divisor =? 0 then bail DivisionByZero else x ← ev l; mret (x / divisor)
  | LessThan l r => x ← ev l; y ← ev r; mret (of_bool (x <? y))
  | GreaterThan l r => x ← ev l; y ← ev r; mret (of_bool (x >? y))
  | LessEqual l r => x ← ev l; y ← ev r; mret (of_bool (x <=? y))
  | GreaterEqual l r => x ← ev l; y ← ev r; mret (of_bool (x >=? y))
  | Equal l r => x ← ev l; y ← ev r; mret (of_bool (x =? y))
  | NotEqual l r => x ← ev l; y ← ev r; mret (of_bool (negb (x =? y)))
  | Sizeof name => section_size name
  | Alignof name => section_align name
  | Addr name | Loadaddr name => section_address name
  | Align e =>
      align ← ev e;
      if align =? 0 then bail AlignZero
      else mret (Z.land (u64 (0 + (align - 1))) (not_w 64 (align - 1)))
  | Min l r => x ← ev l; y ← ev r; mret (Z.min x y)
  | Max l r => x ← ev l; y ← ev r; mret (Z.max x y)
  | BitwiseAnd l r => x ← ev l; y ← ev r; mret (Z.land x y)
  | BitwiseOr l r => x ← ev l; y ← ev r; mret (Z.lor x y)
  | BitwiseXor l r => x ← ev l; y ← ev r; mret (Z.lxor x y)
  | LeftShift l r => x ← ev l; y ← ev r; mret (u64 (Z.shiftl x (u32 y mod 64)))
  | RightShift l r => x ← ev l; y ← ev r; mret (Z.shiftr x (u32 y mod 64))
  | LogicalAnd l r =>
      x ← ev l;
      if x =? 0 then mret (of_bool false) else y ← ev r; mret (of_bool (negb (y =? 0)))
  | LogicalOr l r =>
      x ← ev l;
      if negb (x =? 0) then mret (of_bool true) else y ← ev r; mret (of_bool (negb (y =? 0)))
  | LogicalNot e => x ← ev e; mret (of_bool (x =? 0))
  | BitwiseNot e => x ← ev e; mret (not_w 64 x)
  | Negate e => x ← ev e; mret (u64 (- x))
  | Origin name =>
      match find_region name with None => bail (OriginNotFound name) | Some r => deref (origin r) end
  | Length name =>
      match find_region name with None => bail (LengthNotFound name) | Some r => deref (length r) end
  end.

Fixpoint evaluate_expression (fuel : nat) (expr : Expression) : eval Z :=
  match fuel with
  | O => ([], Deep)
  | S fuel => evaluate_with (evaluate_expression fuel) expr
  end.
End evaluation.

(** The fuel of the theorems: one call for the expression, and one for each
    expression that the regions hold. *)
Definition region_fuel (regions : list MemoryRegion) : nat := S (2 * List.length regions).

(** ** Assertions *)

(** 1-based; the count is cast to [u32] before the addition. *)
Definition line_number (file_bytes remainder : bytes) : Z :=
  let parsed_len := Z.max 0 (len file_bytes - len remainder) in
  u32 (u32 (len (filter (fun b => b = 10) (take (Z.to_nat parsed_len) file_bytes))) + 1).

Inductive assertion_error :=
| EvaluationFailed (input : bytes) (line : Z) (e : script_error)
| AssertionFailed (input : bytes) (line : Z) (message : bytes).

(** What checking assertions ends in: [Passed], an error, a panic or no return. *)
Inductive verdict := Passed | Failed (e : assertion_error) | Crashed | NoReturn.

Section assertions.
Context (section_layouts : list OutputRecordLayout) (output_sections : OutputSections).

Definition check_assertion (script : Script) (a : AssertCommand) : list bytes * verdict :=
  let line := line_number (file_bytes script) (remainder a) in
  let '(w, result) := evaluate_expression section_layouts output_sections (memory_regions script)
                        (region_fuel (memory_regions script)) (expression a) in
  (w, match result with
      | Value v => if v =? 0 then Failed (AssertionFailed (input script) line (message a)) else Passed
      | Bail e => Failed (EvaluationFailed (input script) line e)
      | Crash => Crashed
      | Deep => NoReturn
      end).

(** A loop over steps that stops at the first that does not pass. *)
Fixpoint until_failure {A} (step : A -> list bytes * verdict) (xs : list A) : list bytes * verdict :=
  match xs with
  | [] => ([], Passed)
  | x :: xs =>
      match step x with
      | (w, Passed) => let '(w', v) := until_failure step xs in (w ++ w', v)
      | stopped => stopped
      end
  end.

Definition evaluate_script (script : Script) : list bytes * verdict :=
  until_failure (check_assertion script) (assertions script).

Definition evaluate_group (group : Group) : list bytes * verdict :=
  match group with
  | LinkerScripts scripts => until_failure evaluate_script scripts
  | _ => ([], Passed)
  end.

Definition evaluate_assertions (groups : list Group) : list bytes * verdict :=
  until_failure evaluate_group groups.
End assertions.

(** ** Lemmas: the order of fuel *)

(** [m] says no more than [m']: it ran out of fuel, or it is [m']. *)
Definition below {A} (m m' : eval A) : Prop := m.2 = Deep \/ m = m'.
Definition returns {A} (m : eval A) : bool := match m.2 with Deep => false | _ => true end.

Lemma below_refl {A} (m : eval A) : below m m.
Proof. by right. Qed.

Lemma below_trans {A} (m1 m2 m3 : eval A) : below m1 m2 -> below m2 m3 -> below m1 m3.
Proof. unfold below. intros [?| ->]; [by left|done]. Qed.

Lemma below_bind {A B} (m m' : eval A) (k k' : A -> eval B) :
  below m m' -> (forall x, below (k x) (k' x)) -> below (m ≫= k) (m' ≫= k').
Proof.
  destruct m as [w a]. intros [Hd|<-] Hk; [cbn in Hd; subst a; by left|].
  destruct a as [x|e| |]; [|by right..]. unfold below. cbn. destruct (Hk x) as [-> | ->]; [by left|by right].
Qed.

Lemma below_returns {A} (m m' : eval A) : below m m' -> returns m = true -> m = m'.
Proof. unfold returns. intros [-> | ]; done. Qed.

Lemma not_returns {A} (m : eval A) : returns m = false -> m.2 = Deep.
Proof. unfold returns. by destruct m.2. Qed.

(** The expressions that a region lookup can lead to. *)
Definition region_expressions (regions : list MemoryRegion) : list Expression :=
  regions ≫= (fun r => [origin r; length r]).

Lemma find_region_In regions name r : find_region regions name = Some r ->
  r ∈ regions /\ origin r ∈ region_expressions regions /\ length r ∈ region_expressions regions.
Proof.
  unfold find_region. intros H. apply fmap_Some in H as ((i & r') & Hf & ->). apply list_find_Some in Hf as (Hi & _ & _).
  apply list_elem_of_lookup_2 in Hi. split; [done|]. unfold region_expressions. cbn.
  split; apply list_elem_of_bind; exists r'; (split; [|done]); set_solver.
Qed.

Lemma region_expressions_length regions : List.length (region_expressions regions) = (2 * List.length regions)%nat.
Proof. induction regions as [|r regions IH]; [done|]. cbn. unfold region_expressions in IH. rewrite IH. lia. Qed.

Section fuel.
Context (layouts : list OutputRecordLayout) (sections : OutputSections) (regions : list MemoryRegion).
Abbreviation step := (evaluate_with layouts sections regions).
Abbreviation ev := (evaluate_expression layouts sections regions).
Abbreviation exprs := (region_expressions regions).

Lemma evaluate_with_below d d' :
  (forall x, x ∈ exprs -> below (d x) (d' x)) -> forall e, below (step d e) (step d' e).
Proof.
  intros Hd e. induction e; cbn [evaluate_with];
    try (repeat first [ apply below_refl | done | apply below_bind; [|intros ?] | case_match ]).
  - apply Hd. by apply (find_region_In regions name).
  - apply Hd. by apply (find_region_In regions name).
Qed.

Lemma evaluate_S_below n : forall e, below (ev n e) (ev (S n) e).
Proof.
  induction n as [|n IH]; intros e; [by left|].
  change (below (step (ev n) e) (step (ev (S n)) e)). apply evaluate_with_below. auto.
Qed.

Lemma evaluate_below n k e : below (ev n e) (ev (n + k) e).
Proof.
  induction k as [|k IH]; [rewrite Nat.add_0_r; apply below_refl|].
  eapply below_trans; [apply IH|]. rewrite Nat.add_succ_r. apply evaluate_S_below.
Qed.

(** One more unit of fuel settles no further expression of a region. *)
Definition settled n : Prop := forall x, x ∈ exprs -> below (ev (S n) x) (ev n x).

Lemma settled_S n e : settled n -> below (ev (S (S n)) e) (ev (S n) e).
Proof. intros H. exact (evaluate_with_below (ev (S n)) (ev n) H e). Qed.

Lemma settled_below n k : settled n -> forall e, below (ev (S n + k) e) (ev (S n) e).
Proof.
  intros Hn. assert (Hk : settled (n + k)).
  { induction k as [|k IH]; [by rewrite Nat.add_0_r|]. rewrite Nat.add_succ_r. intros x _. by apply settled_S. }
  clear Hk. revert n Hn. induction k as [|k IH]; intros n Hn e; [rewrite Nat.add_0_r; apply below_refl|].
  assert (Hs : settled (S n)) by (intros x _; by apply settled_S).
  rewrite Nat.add_succ_r. change (S (S n + k)) with (S (S n) + k)%nat.
  eapply below_trans; [by apply IH|]. by apply settled_S.
Qed.

(** Below the bound, each unit of fuel either settles an expression or none is left to settle. *)
Definition returning n : nat := List.length (List.filter (fun x => returns (ev n x)) exprs).

Lemma returning_S n : settled n \/ (returning n < returning (S n))%nat.
Proof.
  unfold settled, returning. induction exprs as [|x xs IH]; [left; set_solver|]. cbn [List.filter].
  pose proof (evaluate_S_below n x) as Hx.
  destruct (returns (ev n x)) eqn:E1.
  - pose proof (below_returns _ _ Hx E1) as Heq. rewrite <- Heq, E1. cbn [List.length].
    destruct IH as [IH|IH]; [left|right; lia]. intros y [->|Hy]%elem_of_cons; [rewrite <- Heq; apply below_refl|by apply IH].
  - destruct (returns (ev (S n) x)) eqn:E2; cbn [List.length].
    + right. destruct IH as [IH|IH]; [|lia]. apply Nat.lt_succ_r. clear -IH. induction xs as [|y ys IHy]; [done|].
      cbn [List.filter]. pose proof (evaluate_S_below n y) as Hy. assert (IHy' := IHy (fun z Hz => IH z (proj2 (elem_of_cons _ _ _) (or_intror Hz)))).
      destruct (returns (ev n y)) eqn:Ey; [|destruct (returns (ev (S n) y)); cbn [List.length]; lia].
      rewrite <- (below_returns _ _ Hy Ey), Ey. cbn [List.length]. lia.
    + destruct IH as [IH|IH]; [left|by right]. intros y [->|Hy]%elem_of_cons; [left; by apply not_returns|by apply IH].
Qed.

Lemma settled_within n : (exists m, (m < n)%nat /\ settled m) \/ (n <= returning n)%nat.
Proof.
  induction n as [|n [(m & Hm & Hs)|IH]]; [right; lia|left; exists m; split; [lia|done]|].
  destruct (returning_S n) as [Hs|]; [left; exists n; split; [lia|done]|right; lia].
Qed.

Lemma settled_exists : exists m, (m < region_fuel regions)%nat /\ settled m.
Proof.
  destruct (settled_within (region_fuel regions)) as [|H]; [done|]. exfalso. unfold returning in H.
  pose proof (List.filter_length_le (fun x => returns (ev (region_fuel regions) x)) exprs) as Hl.
  rewrite region_expressions_length in Hl. unfold region_fuel in *. lia.
Qed.

Lemma evaluate_fuel_enough n e : returns (ev n e) = true -> ev (region_fuel regions) e = ev n e.
Proof.
  intros Hr. destruct settled_exists as (m & Hm & Hs).
  replace (region_fuel regions) with (S m + (region_fuel regions - S m))%nat by lia.
  set (k := (region_fuel regions - S m)%nat).
  pose proof (below_returns _ _ (evaluate_below n (S m) e) Hr) as Hn.
  rewrite Nat.add_comm in Hn. pose proof (settled_below m n Hs e) as Hb. rewrite <- Hn in Hb.
  rewrite <- (below_returns _ _ (evaluate_below (S m) k e)); destruct Hb as [Hd|<-]; try done.
  - unfold returns in Hr. by rewrite Hd in Hr.
  - unfold returns in Hr. by rewrite Hd in Hr.
Qed.
End fuel.

(** ** Lemmas: regions that refer to earlier regions *)

(** The region names an expression refers to. *)
Fixpoint mentions (e : Expression) : list bytes :=
  match e with
  | Origin name | Length name => [name]
  | Add l r | Subtract l r | Multiply l r | Divide l r | LessThan l r | GreaterThan l r
  | LessEqual l r | GreaterEqual l r | Equal l r | NotEqual l r | Min l r | Max l r
  | BitwiseAnd l r | BitwiseOr l r | BitwiseXor l r | LeftShift l r | RightShift l r
  | LogicalAnd l r | LogicalOr l r => mentions l ++ mentions r
  | Align e | LogicalNot e | BitwiseNot e | Negate e => mentions e
  | _ => []
  end.

(** Some measure of the regions goes down along every reference. *)
Definition ranked (regions : list MemoryRegion) (rank : MemoryRegion -> nat) : Prop :=
  forall r name r', r ∈ regions -> name ∈ mentions (origin r) ++ mentions (length r) ->
  find_region regions name = Some r' -> (rank r' < rank r)%nat.

Lemma returns_bind {A B} (m : eval A) (k : A -> eval B) :
  returns m = true -> (forall x, returns (k x) = true) -> returns (m ≫= k) = true.
Proof. destruct m as [w [x|e| |]]; intros Hm Hk; try done. apply (Hk x). Qed.

Lemma section_lookup_returns layouts sections name :
  returns (section_size layouts sections name) = true /\ returns (section_align layouts sections name) = true /\
  returns (section_address layouts sections name) = true.
Proof.
  unfold section_size, section_align, section_address, layout_of.
  destruct (section_id_by_name sections name) as [id|]; [|done]. by destruct (get layouts id).
Qed.

Lemma evaluate_with_returns layouts sections regions d e :
  (forall name r, name ∈ mentions e -> find_region regions name = Some r ->
     returns (d (origin r)) = true /\ returns (d (length r)) = true) ->
  returns (evaluate_with layouts sections regions d e) = true.
Proof.
  induction e; cbn [evaluate_with mentions]; intros Hd; try apply section_lookup_returns;
    try (repeat first [ done | apply returns_bind; [|intros ?] | progress case_match
                      | match goal with IH : _ -> returns (evaluate_with _ _ _ _ ?e) = true |- returns (evaluate_with _ _ _ _ ?e) = true =>
                          apply IH; intros ? ? ?; apply Hd; set_solver end ]).
  - eapply (Hd name); [set_solver|done].
  - eapply (Hd name); [set_solver|done].
Qed.

Lemma ranked_returns layouts sections regions rank n : ranked regions rank ->
  forall r, r ∈ regions -> (rank r < n)%nat ->
  returns (evaluate_expression layouts sections regions n (origin r)) = true /\
  returns (evaluate_expression layouts sections regions n (length r)) = true.
Proof.
  intros Hrank. induction n as [|n IH]; intros r Hr Hn; [lia|].
  assert (Hall : forall name r', name ∈ mentions (origin r) ++ mentions (length r) -> find_region regions name = Some r' ->
    returns (evaluate_expression layouts sections regions n (origin r')) = true /\
    returns (evaluate_expression layouts sections regions n (length r')) = true).
  { intros name r' Hname Hf. apply IH; [by apply (find_region_In regions name)|].
    pose proof (Hrank r name r' Hr Hname Hf). lia. }
  split; (apply evaluate_with_returns; intros name r' Hname; apply Hall; set_solver).
Qed.

Lemma ranked_evaluate layouts sections regions rank e : ranked regions rank ->
  exists n, returns (evaluate_expression layouts sections regions n e) = true.
Proof.
  intros Hrank. set (n := S (list_max (rank <$> regions))). exists (S n).
  change (returns (evaluate_with layouts sections regions (evaluate_expression layouts sections regions n) e) = true).
  apply evaluate_with_returns. intros name r _ Hf. destruct (find_region_In regions name r Hf) as (Hr & _).
  apply (ranked_returns layouts sections regions rank); [done..|]. apply Nat.lt_succ_r.
  pose proof (proj1 (list_max_le (rank <$> regions) _) (Nat.le_refl _)) as Hle.
  rewrite List.Forall_forall in Hle. apply Hle. apply list_elem_of_In, list_elem_of_fmap. by exists r.
Qed.

Lemma self_origin_deep layouts sections regions name r : find_region regions name = Some r ->
  origin r = Origin name -> forall n, returns (evaluate_expression layouts sections regions n (Origin name)) = false.
Proof.
  intros Hf Ho n. induction n as [|n IH]; [done|]. cbn [evaluate_expression evaluate_with]. rewrite Hf, Ho. exact IH.
Qed.

(** ** Lemmas: values stay in 64 bits *)

(** The numbers of an expression are [u64]. *)
Fixpoint numbers_u64 (e : Expression) : Prop :=
  match e with
  | Number n => is_uint 64 n
  | Add l r | Subtract l r | Multiply l r | Divide l r | LessThan l r | GreaterThan l r
  | LessEqual l r | GreaterEqual l r | Equal l r | NotEqual l r | Min l r | Max l r
  | BitwiseAnd l r | BitwiseOr l r | BitwiseXor l r | LeftShift l r | RightShift l r
  | LogicalAnd l r | LogicalOr l r => numbers_u64 l /\ numbers_u64 r
  | Align e | LogicalNot e | BitwiseNot e | Negate e => numbers_u64 e
  | _ => True
  end.

Definition layout_u64 (l : OutputRecordLayout) : Prop :=
  is_uint 64 (mem_size l) /\ is_uint 64 (mem_offset l) /\ supported (alignment l).

(** There is a layout for every section that a lookup can find. *)
Definition sections_laid_out (layouts : list OutputRecordLayout) (sections : OutputSections) : Prop :=
  map_Forall (fun _ id => 0 <= id < len layouts) (custom_by_name sections) /\
  len (section_infos sections) <= len layouts.

(** A value of 64 bits, an error or the end of the fuel, but no panic. *)
Definition sound (P : Z -> Prop) (m : eval Z) : Prop :=
  match m.2 with Value v => P v | Crash => False | _ => True end.
Abbreviation u64_or_error := (sound (is_uint 64)).

Lemma sound_bind (P Q : Z -> Prop) (m : eval Z) (k : Z -> eval Z) :
  sound P m -> (forall x, P x -> sound Q (k x)) -> sound Q (m ≫= k).
Proof. destruct m as [w [x|e| |]]; intros Hm Hk; try done. apply (Hk x), Hm. Qed.

Lemma of_bool_u64 b : is_uint 64 (of_bool b).
Proof. destruct b; unfold is_uint; cbn; lia. Qed.

Lemma is_uint_land w a b : 0 <= w -> is_uint w a -> is_uint w b -> is_uint w (Z.land a b).
Proof. intros Hw Ha Hb. rewrite <- (wrap_id w a), <- (wrap_id w b), <- wrap_land by done. by apply wrap_bound. Qed.

Lemma is_uint_lxor w a b : 0 <= w -> is_uint w a -> is_uint w b -> is_uint w (Z.lxor a b).
Proof.
  intros Hw Ha Hb. rewrite <- (wrap_id w a), <- (wrap_id w b) by done. unfold wrap.
  rewrite <- !Z.land_ones by done.
  replace (Z.lxor (Z.land a (Z.ones w)) (Z.land b (Z.ones w))) with (wrap w (Z.lxor a b)); [by apply wrap_bound|].
  unfold wrap. rewrite <- Z.land_ones by done. apply Z.bits_inj'. intros i Hi.
  rewrite !Z.land_spec, !Z.lxor_spec, !Z.land_spec. by destruct (Z.testbit a i), (Z.testbit b i), (Z.testbit (Z.ones w) i).
Qed.

Lemma is_uint_shiftr w a n : 0 <= w -> 0 <= n -> is_uint w a -> is_uint w (Z.shiftr a n).
Proof.
  unfold is_uint. intros Hw Hn Ha. rewrite Z.shiftr_div_pow2 by done. assert (1 <= 2 ^ n) by lia.
  split; [apply Z.div_pos; lia|]. apply Z.div_lt_upper_bound; nia.
Qed.

Lemma is_uint_div w a b : is_uint w a -> 0 < b -> is_uint w (a / b).
Proof. unfold is_uint. intros Ha Hb. split; [apply Z.div_pos; lia|]. apply Z.div_lt_upper_bound; nia. Qed.

Create HintDb u64.
#[export] Hint Resolve wrap_bound of_bool_u64 is_uint_land is_uint_lor is_uint_lxor : u64.

Section typing.
Context (layouts : list OutputRecordLayout) (sections : OutputSections) (regions : list MemoryRegion).
Context (Hlayouts : Forall layout_u64 layouts) (Hsections : sections_laid_out layouts sections).

Lemma find_name_range infos name id i : find_name infos name id = Some i -> id <= i < id + len infos.
Proof.
  revert id. induction infos as [|k infos IH]; intros id; cbn [find_name]; [done|]. rewrite len_cons.
  pose proof (len_nonneg infos). case_decide; [intros [= ->]; lia|]. intros H1%IH. lia.
Qed.

Lemma section_id_layout name id : section_id_by_name sections name = Some id ->
  exists l, layout_of layouts id = ([], Value l) /\ layout_u64 l.
Proof.
  unfold section_id_by_name, layout_of. destruct Hsections as [Hc Hn]. intros H.
  assert (Hid : 0 <= id < len layouts).
  { destruct (custom_by_name sections !! name) as [id'|] eqn:E.
    - injection H as <-. exact (Hc name id' E).
    - apply find_name_range in H. lia. }
  destruct (get_is_Some layouts id Hid) as [l Hl]. rewrite Hl. exists l. split; [done|].
  apply get_lookup in Hl as [_ Hl]. by eapply Forall_lookup_1.
Qed.

Lemma section_lookup_sound name :
  u64_or_error (section_size layouts sections name) /\ u64_or_error (section_align layouts sections name) /\
  u64_or_error (section_address layouts sections name).
Proof.
  unfold section_size, section_align, section_address.
  destruct (section_id_by_name sections name) as [id|] eqn:E; [|by repeat split].
  destruct (section_id_layout name id E) as (l & -> & Hsize & Hoff & Hal).
  cbv [sound mbind eval_bind mret eval_ret snd]. split_and!; [done| |done].
  rewrite value_pow by done. pose proof (pow_bounds _ Hal). unfold is_uint. lia.
Qed.

Lemma evaluate_with_sound d e : numbers_u64 e ->
  (forall x, x ∈ region_expressions regions -> u64_or_error (d x)) ->
  u64_or_error (evaluate_with layouts sections regions d e).
Proof.
  intros He Hd. induction e; cbn [evaluate_with numbers_u64] in *; try apply section_lookup_sound;
    try match type of He with _ /\ _ => destruct He as [Hl Hr] end; try done;
    try (repeat first [ by eauto | eapply sound_bind; [by eauto|intros ? ?] | progress case_match
                      | unfold sound; cbn; by auto with u64 zarith ]).
  - apply Z.eqb_neq in H0. apply is_uint_div; [done|]. unfold is_uint in *. lia.
  - apply Hd. by apply (find_region_In regions name).
  - apply Hd. by apply (find_region_In regions name).
  - apply is_uint_land; [lia|by apply wrap_bound..].
  - unfold sound, is_uint in *. cbn. lia.
  - unfold sound, is_uint in *. cbn. lia.
  - apply is_uint_shiftr; [lia|by apply Z.mod_pos_bound|done].
  - by apply wrap_bound.
Qed.

Lemma evaluate_sound n : Forall numbers_u64 (region_expressions regions) ->
  forall e, numbers_u64 e -> u64_or_error (evaluate_expression layouts sections regions n e).
Proof.
  intros Hr. induction n as [|n IH]; intros e He; [done|]. cbn [evaluate_expression].
  apply evaluate_with_sound; [done|]. intros x Hx. apply IH. rewrite Forall_forall in Hr. by apply Hr.
Qed.
End typing.

(** ** Lemmas: assertions in order *)

(** The assertions of the scripts among the groups, each with its script. *)
Definition all_assertions (groups : list Group) : list (Script * AssertCommand) :=
  groups ≫= (fun g => match g with
    | LinkerScripts scripts => scripts ≫= (fun s => pair s <$> assertions s)
    | _ => []
    end).

Section until_failure.
Context {A : Type} (step : A -> list bytes * verdict).

Lemma until_failure_app xs ys :
  until_failure step (xs ++ ys)
  = match until_failure step xs with
    | (w, Passed) => let '(w', v) := until_failure step ys in (w ++ w', v)
    | stopped => stopped
    end.
Proof.
  induction xs as [|x xs IH]; cbn [until_failure app]; [by destruct (until_failure step ys)|].
  destruct (step x) as [w []]; [|done..]. rewrite IH. destruct (until_failure step xs) as [w' []]; [|done..].
  destruct (until_failure step ys) as [w'' v]. by rewrite app_assoc.
Qed.

Lemma until_failure_bind {B} (f : B -> list A) ys :
  until_failure (fun y => until_failure step (f y)) ys = until_failure step (ys ≫= f).
Proof.
  induction ys as [|y ys IH]; [done|]. rewrite bind_cons, until_failure_app. cbn [until_failure].
  destruct (until_failure step (f y)) as [w []]; [|done..]. by rewrite IH.
Qed.

Lemma until_failure_fmap {B} (f : B -> A) ys :
  until_failure step (f <$> ys) = until_failure (fun y => step (f y)) ys.
Proof. induction ys as [|y ys IH]; [done|]. cbn. by rewrite <- IH. Qed.

Lemma until_failure_ext step' xs : (forall x, step' x = step x) -> until_failure step' xs = until_failure step xs.
Proof. intros H. induction xs as [|x xs IH]; [done|]. cbn. by rewrite H, IH. Qed.

Lemma until_failure_passed xs :
  (until_failure step xs).2 = Passed <-> Forall (fun x => (step x).2 = Passed) xs.
Proof.
  induction xs as [|x xs IH]; [done|]. cbn [until_failure]. rewrite Forall_cons, <- IH.
  destruct (step x) as [w []]; cbn; try (split; [done|by intros []]). destruct (until_failure step xs). cbn. tauto.
Qed.

Lemma until_failure_stopped xs v : v <> Passed ->
  (until_failure step xs).2 = v <->
  exists before x after, xs = before ++ x :: after /\ Forall (fun x => (step x).2 = Passed) before /\ (step x).2 = v.
Proof.
  intros Hv. split.
  - induction xs as [|x xs IH]; [cbn; congruence|]. cbn [until_failure].
    destruct (step x) as [w []] eqn:E;
      [|intros <-; exists [], x, xs; split; [done|]; split; [done|by rewrite E]..].
    destruct (until_failure step xs) as [w' v']. cbn in *. intros Hv'. destruct (IH Hv') as (b & y & a & -> & Hb & Hy).
    exists (x :: b), y, a. split; [done|]. split; [|done]. constructor; [by rewrite E|done].
  - intros (b & x & a & -> & Hb & Hx). rewrite until_failure_app. apply until_failure_passed in Hb.
    destruct (until_failure step b) as [w vb]. cbn in Hb. subst vb. cbn [until_failure].
    destruct (step x) as [w' vx]. cbn in Hx. subst vx. by destruct v.
Qed.
End until_failure.

Lemma evaluate_assertions_flat layouts sections groups :
  evaluate_assertions layouts sections groups
  = until_failure (fun sa => check_assertion layouts sections sa.1 sa.2) (all_assertions groups).
Proof.
  unfold evaluate_assertions, all_assertions. rewrite <- until_failure_bind. apply until_failure_ext.
  intros [| |scripts| |]; try done. cbn [evaluate_group]. rewrite <- until_failure_bind. apply until_failure_ext.
  intros s. unfold evaluate_script. by rewrite until_failure_fmap.
Qed.

(** ** Properties *)

(** C26. Evaluating an expression goes on for ever exactly when a bounded number of
    steps into memory regions does not end it.  Whatever fuel an answer takes, one
    step per expression of the regions gives the same answer; when the regions refer
    to each other without a cycle there is one; and a region whose origin is its own
    ORIGIN has none, whatever the fuel. *)
Theorem expression_returns layouts sections regions :
  (forall n e, (evaluate_expression layouts sections regions n e).2 <> Deep ->
     evaluate_expression layouts sections regions (region_fuel regions) e
     = evaluate_expression layouts sections regions n e) /\
  (forall rank e, ranked regions rank ->
     (evaluate_expression layouts sections regions (region_fuel regions) e).2 <> Deep) /\
  (forall name r n, find_region regions name = Some r -> origin r = Origin name ->
     (evaluate_expression layouts sections regions n (Origin name)).2 = Deep).
Proof.
  split_and!.
  - intros n e Hn. apply evaluate_fuel_enough. unfold returns. by destruct (_.2).
  - intros rank e Hr. destruct (ranked_evaluate layouts sections regions rank e Hr) as [n Hn].
    rewrite (evaluate_fuel_enough _ _ _ n e Hn). unfold returns in Hn. by destruct (_.2).
  - intros name r n Hf Ho. apply not_returns. by apply (self_origin_deep layouts sections regions name r).
Qed.

(** C27. The value of an expression is a 64-bit number: when the literals of the
    expression and of the regions and the sizes and addresses of the sections are,
    and every section that a name can resolve to has a layout, evaluation never
    panics, and what it returns is in range for every operator, the wrapping sums
    and products, the shifts, whose distance is reduced, and the ALIGN of any
    non-zero number included. *)
Theorem expression_type layouts sections regions n e :
  Forall layout_u64 layouts -> sections_laid_out layouts sections ->
  Forall numbers_u64 (region_expressions regions) -> numbers_u64 e ->
  match (evaluate_expression layouts sections regions n e).2 with
  | Value v => is_uint 64 v
  | Crash => False
  | Bail _ | Deep => True
  end.
Proof. intros Hl Hs Hr He. exact (evaluate_sound layouts sections regions Hl Hs n Hr e He). Qed.

(** The ASSERT commands are checked in the order of the scripts, and the first
    that does not hold decides.  The check of all groups passes exactly when every
    assertion does, and an assertion passes exactly when its expression evaluates
    to a non-zero number; any other end is that of the first assertion that does
    not pass, an error then naming the script and the line. *)
Theorem assertions_first_failure layouts sections groups :
  ((evaluate_assertions layouts sections groups).2 = Passed <->
     Forall (fun sa => exists v, v <> 0 /\
  (evaluate_expression layouts sections (memory_regions sa.1) (region_fuel (memory_regions sa.1)) (expression sa.2)).2
       = Value v) (all_assertions groups)) /\
  (forall v, v <> Passed -> (evaluate_assertions layouts sections groups).2 = v <->
     exists before sa after, all_assertions groups = before ++ sa :: after /\
  Forall (fun sa => (check_assertion layouts sections sa.1 sa.2).2 = Passed) before /\
       (check_assertion layouts sections sa.1 sa.2).2 = v).
Proof.
  rewrite evaluate_assertions_flat. split; [|apply until_failure_stopped]. rewrite until_failure_passed.
  apply Forall_iff. intros [s a]. unfold check_assertion. cbn [fst snd].
  destruct (evaluate_expression layouts sections (memory_regions s) (region_fuel (memory_regions s)) (expression a))
    as [w [v|err| |]]; cbn; try (split; [done|by intros (? & ? & ?)]).
  destruct (Z.eqb_spec v 0) as [->|Hv]; split; try done.
  - intros (v' & Hv' & [= <-]). done.
  - intros _. by exists v.
Qed.

(** An assertion over a symbol is not skipped.  The evaluator takes a symbol as
    the number one and warns that it skips the assertion, so a comparison with the
    symbol is decided with that number, and the link fails where the comparison
    with one does. *)
Theorem symbol_assertion_not_skipped layouts sections script name bound line :
  memory_regions script = [] -> 1 <= bound -> line_number (file_bytes script) (remainder line) = 1 ->
  expression line = GreaterThan (Symbol name) (Number bound) -> assertions script = [line] ->
  evaluate_assertions layouts sections [LinkerScripts [script]]
  = ([name], Failed (AssertionFailed (input script) 1 (message line))).
Proof.
  intros Hm Hb Hl He Ha. unfold evaluate_assertions, evaluate_group, evaluate_script, check_assertion.
  cbn [until_failure]. rewrite Ha. cbn [until_failure]. rewrite Hm, He, Hl. cbn [region_fuel List.length evaluate_expression evaluate_with].
  cbv [mbind eval_bind mret eval_ret warn fst snd app]. replace (1 >? bound) with false by lia. reflexivity.
Qed.

(** ** Witnesses *)

Definition example_sections : OutputSections :=
  mkSections {[ [46; 120] := 1 ]} [Primary [46; 116]; Primary [46; 120]].
Definition example_layouts : list OutputRecordLayout :=
  [mkLayout 16 16 (mkAlignment 4) 0 4096; mkLayout 8 8 (mkAlignment 3) 16 4112].

(** [rom : ORIGIN = 8M, LENGTH = 1M] and [ram : ORIGIN = ORIGIN(rom) + LENGTH(rom), LENGTH = 4K]. *)
Definition example_regions : list MemoryRegion :=
  [mkRegion [1] (Number 8388608) (Number 1048576);
   mkRegion [2] (Add (Origin [1]) (Length [1])) (Number 4096)].

Definition looping_regions : list MemoryRegion := [mkRegion [1] (Origin [1]) (Number 1)].

Definition example_script : Script :=
  mkScript [97] [mkAssert (GreaterThan (Symbol [115]) (Number 4096)) [109] []] [] [].

Lemma expression_returns_witness :
  ranked example_regions (fun r => if decide (region_name r = [2]) then 1%nat else O) /\
  (evaluate_expression [] example_sections example_regions 3 (Origin [2])).2 = Value 9437184 /\
  (evaluate_expression [] example_sections example_regions (region_fuel example_regions) (Origin [2])
   = evaluate_expression [] example_sections example_regions 3 (Origin [2])) /\
  (evaluate_expression [] example_sections looping_regions 100 (Origin [1])).2 = Deep.
Proof.
  assert (Hr : ranked example_regions (fun r => if decide (region_name r = [2]) then 1%nat else O)).
  { intros r name r' Hr Hn Hf. repeat (apply elem_of_cons in Hr as [->|Hr]); [| |by apply elem_of_nil in Hr].
    - by apply elem_of_nil in Hn.
    - cbn in Hn. repeat (apply elem_of_cons in Hn as [->|Hn]); [| |by apply elem_of_nil in Hn];
        vm_compute in Hf; injection Hf as <-; vm_compute; lia. }
  split_and!; [exact Hr|reflexivity| |].
  - apply (proj1 (expression_returns [] example_sections example_regions) 3%nat (Origin [2])). by vm_compute.
  - by apply (proj2 (proj2 (expression_returns [] example_sections looping_regions)) [1] (mkRegion [1] (Origin [1]) (Number 1))).
Defined.

Lemma expression_type_witness :
  match (evaluate_expression example_layouts example_sections example_regions 2
           (Add (Addr [46; 120]) (LeftShift (Sizeof [46; 120]) (Number 68)))).2 with
  | Value v => is_uint 64 v
  | Crash => False
  | Bail _ | Deep => True
  end.
Proof.
  apply (expression_type example_layouts example_sections example_regions 2).
  - unfold example_layouts, layout_u64, supported, is_uint, MAX_ALIGNMENT_EXPONENT. rewrite !Forall_cons. cbn. split_and!; try done; lia.
  - split; [|by vm_compute]. apply map_Forall_singleton. unfold len. cbn. lia.
  - unfold example_regions. cbn. rewrite !Forall_cons. cbn. unfold is_uint. split_and!; try done; lia.
  - cbn. unfold is_uint. split_and!; try done; lia.
Defined.

Lemma symbol_assertion_not_skipped_witness :
  evaluate_assertions [] example_sections [LinkerScripts [example_script]]
  = ([[115]], Failed (AssertionFailed [97] 1 [109])).
Proof.
  by apply (symbol_assertion_not_skipped [] example_sections example_script [115] 4096
              (mkAssert (GreaterThan (Symbol [115]) (Number 4096)) [109] [])).
Defined.
