(* ===== verification/ScriptParse.v ===== *)
(** The parser of linker-script expressions ([libwild/src/linker_script.rs]): a
    recursive descent through nine levels of operators over the combinators of a
    parser library, which are parameters here. *)
From Stdlib Require Import String Ascii.
From stdpp Require Import gmap.
From S2P Require Import Prelude Alignment ScriptExpr.

Local Open Scope list_scope.

(** The bytes of a literal. *)
Definition b (s : string) : bytes := (fun a => Z.of_N (N_of_ascii a)) <$> list_ascii_of_string s.

(** ** The parser library

    A parser takes the input to a value and the input it leaves, or fails. *)
Definition parser (A : Type) : Type := bytes -> option (A * bytes).

Class Winnow := {
  literal : bytes -> parser bytes;
  multispace0 : parser bytes;
  (** [take_while(1.., f)] *)
  take_while1 : (Z -> bool) -> parser bytes;
  one_of : bytes -> parser Z;
  hex_uint : parser Z;
  dec_uint : parser Z;
  opt : forall {A}, parser A -> parser (option A);
  (** [combinator::not] *)
  not_followed : forall {A}, parser A -> parser ();
  alt : forall {A}, list (parser A) -> parser A;
  (** A tuple of parsers, and [Parser::map] and [Parser::verify]. *)
  tuple : forall {A B}, parser A -> parser B -> parser (A * B);
  pmap : forall {A B}, (A -> B) -> parser A -> parser B;
  verify : forall {A}, (A -> bool) -> parser A -> parser A;
  preceded : forall {A B}, parser A -> parser B -> parser B;
  delimited : forall {A B C}, parser A -> parser B -> parser C -> parser B;
}.

(** ** Characters *)

Definition is_digit (c : Z) : bool := (48 <=? c) && (c <=? 57).
Definition is_ascii_alphabetic (c : Z) : bool := (65 <=? c) && (c <=? 90) || (97 <=? c) && (c <=? 122).
Definition is_ascii_alphanumeric (c : Z) : bool := is_digit c || is_ascii_alphabetic c.
(** Letters, digits, underscores and dots. *)
Definition ident_char (c : Z) : bool := is_ascii_alphanumeric c || (c =? 95) || (c =? 46).
Definition ident_start (c : Z) : bool := is_ascii_alphabetic c || (c =? 95) || (c =? 46).
(** [s[0]] of a non-empty slice. *)
Definition starts_ident (s : bytes) : bool := match s with c :: _ => ident_start c | [] => false end.

(** ** The parser *)

Definition binop : Type := Expression -> Expression -> Expression.

Section parse.
Context {W : Winnow}.

(** The operators of a level; the value is the constructor that the level's match
    selects for it. *)
Definition or_op : parser binop := pmap (fun _ => LogicalOr) (literal (b "||")).
Definition and_op : parser binop := pmap (fun _ => LogicalAnd) (literal (b "&&")).
Definition comparison_op : parser binop := alt [
  pmap (fun _ => LessEqual) (literal (b "<="));
  pmap (fun _ => GreaterEqual) (literal (b ">="));
  pmap (fun _ => Equal) (literal (b "=="));
  pmap (fun _ => NotEqual) (literal (b "!="));
  pmap (fun _ => LessThan) (literal (b "<"));
  pmap (fun _ => GreaterThan) (literal (b ">"))].
Definition bitwise_or_op : parser binop :=
  pmap (fun _ => BitwiseOr) (tuple (literal (b "|")) (not_followed (literal (b "|")))).
Definition bitwise_xor_op : parser binop := pmap (fun _ => BitwiseXor) (literal (b "^")).
Definition bitwise_and_op : parser binop :=
  pmap (fun _ => BitwiseAnd) (tuple (literal (b "&")) (not_followed (literal (b "&")))).
Definition shift_op : parser binop := alt [
  pmap (fun _ => LeftShift) (literal (b "<<"));
  pmap (fun _ => RightShift) (literal (b ">>"))].
Definition additive_op : parser binop := alt [
  pmap (fun _ => Add) (literal (b "+"));
  pmap (fun _ => Subtract) (literal (b "-"))].
Definition multiplicative_op : parser binop := alt [
  pmap (fun _ => Multiply) (literal (b "*"));
  pmap (fun _ => Divide) (literal (b "/"))].

(** [while let Some(op) = opt(..)? { .. }] *)
Fixpoint while_op (fuel : nat) (op : parser binop) (next : parser Expression) (lhs : Expression) : parser Expression :=
  fun input =>
    match fuel with
    | O => None
    | S fuel =>
        '(o, input) ← opt op input;
        match o with
        | None => Some (lhs, input)
        | Some op' =>
            '(_, input) ← multispace0 input;
            '(rhs, input) ← next input;
            '(_, input) ← multispace0 input;
            while_op fuel op next (op' lhs rhs) input
        end
    end.

Definition left_assoc (fuel : nat) (op : parser binop) (next : parser Expression) : parser Expression :=
  fun input =>
    '(lhs, input) ← next input;
    '(_, input) ← multispace0 input;
    while_op fuel op next lhs input.

(** The levels over the unary operators; [fuel] bounds the loops. *)
Section levels.
Context (fuel : nat) (parse_unary : parser Expression).

Definition parse_multiplicative : parser Expression := left_assoc fuel multiplicative_op parse_unary.
Definition parse_additive : parser Expression := left_assoc fuel additive_op parse_multiplicative.
Definition parse_shift : parser Expression := left_assoc fuel shift_op parse_additive.
Definition parse_bitwise_and : parser Expression := left_assoc fuel bitwise_and_op parse_shift.
Definition parse_bitwise_xor : parser Expression := left_assoc fuel bitwise_xor_op parse_bitwise_and.
Definition parse_bitwise_or : parser Expression := left_assoc fuel bitwise_or_op parse_bitwise_xor.

(** At most one comparison: the level does not loop. *)
Definition compare_once (op : parser binop) (next : parser Expression) (lhs : Expression) : parser Expression :=
  fun input =>
    '(o, input) ← opt op input;
    match o with
    | None => Some (lhs, input)
    | Some op' =>
        '(_, input) ← multispace0 input;
        '(rhs, input) ← next input;
        '(_, input) ← multispace0 input;
        Some (op' lhs rhs, input)
    end.
Definition parse_comparison : parser Expression :=
  fun input =>
    '(lhs, input) ← parse_bitwise_or input;
    '(_, input) ← multispace0 input;
    compare_once comparison_op parse_bitwise_or lhs input.

Definition parse_logical_and : parser Expression := left_assoc fuel and_op parse_comparison.
Definition parse_logical_or : parser Expression := left_assoc fuel or_op parse_logical_and.
End levels.

(** The suffix multiplies modulo [2^64]. *)
Definition scale (base : Z) (suffix : option Z) : Z :=
  match suffix with
  | Some c => if (c =? 75) || (c =? 107) then u64 (base * 1024)
              else if (c =? 77) || (c =? 109) then u64 (base * (1024 * 1024)) else base
  | None => base
  end.

Definition parse_number_with_suffix : parser Expression :=
  fun input =>
    '(base, input) ← alt [preceded (alt [literal (b "0x"); literal (b "0X")]) hex_uint; dec_uint] input;
    '(suffix, input) ← opt (one_of (b "KkMm")) input;
    Some (Number (scale base suffix), input).

Definition parse_function_arg : parser bytes :=
  fun input =>
    '(_, input) ← multispace0 input;
    '(arg, input) ← verify starts_ident (take_while1 ident_char) input;
    '(_, input) ← multispace0 input;
    '(_, input) ← literal (b ")") input;
    Some (arg, input).

Section primary.
Context (parse_expression : parser Expression).

(** The arguments of MIN and MAX, with the closing parenthesis. *)
Definition parse_two : parser (Expression * Expression) :=
  fun input =>
    '(first, input) ← parse_expression input;
    '(_, input) ← multispace0 input;
    '(_, input) ← literal (b ",") input;
    '(_, input) ← multispace0 input;
    '(second, input) ← parse_expression input;
    '(_, input) ← multispace0 input;
    '(_, input) ← literal (b ")") input;
    Some ((first, second), input).

Definition parse_call (ident : bytes) : parser Expression :=
  fun input =>
    let with_arg (f : bytes -> Expression) := '(arg, input) ← parse_function_arg input; Some (f arg, input) in
    if decide (ident = b "SIZEOF") then with_arg Sizeof
    else if decide (ident = b "ALIGNOF") then with_arg Alignof
    else if decide (ident = b "ADDR") then with_arg Addr
    else if decide (ident = b "ORIGIN") then with_arg Origin
    else if decide (ident = b "LENGTH") then with_arg Length
    else if decide (ident = b "LOADADDR") then with_arg Loadaddr
    else if decide (ident = b "ALIGN") then
      '(arg_expr, input) ← parse_expression input;
      '(_, input) ← multispace0 input;
      '(_, input) ← literal (b ")") input;
      Some (Align arg_expr, input)
    else if decide (ident = b "MIN") then
      '(first, second, input) ← parse_two input; Some (Min first second, input)
    else if decide (ident = b "MAX") then
      '(first, second, input) ← parse_two input; Some (Max first second, input)
    else None.

Definition parse_identifier_or_function : parser Expression :=
  fun input =>
    '(ident, input) ← verify starts_ident (take_while1 ident_char) input;
    if decide (ident = b ".") then Some (LocationCounter, input)
    else
      '(_, input) ← multispace0 input;
      '(o, input) ← opt (literal (b "(")) input;
      match o with
      | Some _ => '(_, input) ← multispace0 input; parse_call ident input
      | None => Some (Symbol ident, input)
      end.

Definition parse_primary : parser Expression :=
  fun input =>
    '(_, input) ← multispace0 input;
    alt [delimited (literal (b "(")) parse_expression (literal (b ")"));
         parse_number_with_suffix;
         parse_identifier_or_function] input.
End primary.

Fixpoint parse_unary (fuel : nat) : parser Expression :=
  fun input =>
    match fuel with
    | O => None
    | S fuel =>
        '(_, input) ← multispace0 input;
        '(o, input) ← opt (tuple (literal (b "!")) (not_followed (literal (b "=")))) input;
        match o with
        | Some _ => '(operand, input) ← parse_unary fuel input; Some (LogicalNot operand, input)
        | None =>
            '(o, input) ← opt (literal (b "~")) input;
            match o with
            | Some _ => '(operand, input) ← parse_unary fuel input; Some (BitwiseNot operand, input)
            | None =>
                '(o, input) ← opt (literal (b "-")) input;
                match o with
                | Some _ => '(operand, input) ← parse_unary fuel input; Some (Negate operand, input)
                | None => parse_primary (parse_logical_or fuel (parse_unary fuel)) input
                end
            end
        end
    end.

(** [parse_expression], with fuel for the nesting and the loops. *)
Definition parse_expression (fuel : nat) : parser Expression := parse_logical_or fuel (parse_unary fuel).
End parse.

(** ** What the parser library documents *)

(** [multispace0] takes spaces, tabs, carriage returns and line feeds. *)
Definition is_space (c : Z) : bool := (c =? 32) || (c =? 9) || (c =? 13) || (c =? 10).
Definition is_hex_digit (c : Z) : bool := is_digit c || (65 <=? c) && (c <=? 70) || (97 <=? c) && (c <=? 102).

Fixpoint span (f : Z -> bool) (i : bytes) : bytes * bytes :=
  match i with
  | c :: i' => if f c then let '(s, r) := span f i' in (c :: s, r) else ([], i)
  | [] => ([], [])
  end.
(** The input after a prefix. *)
Fixpoint strip (t i : bytes) : option bytes :=
  match t, i with
  | [], _ => Some i
  | c :: t, d :: i => if c =? d then strip t i else None
  | _ :: _, [] => None
  end.
(** No byte of this kind comes first. *)
Definition not_first (f : Z -> bool) (i : bytes) : Prop := match i with c :: _ => f c = false | [] => True end.

Definition digit_value (c : Z) : Z :=
  if is_digit c then c - 48 else if c <=? 70 then c - 55 else c - 87.
Definition number_value (base : Z) (ds : bytes) : Z := foldl (fun n c => n * base + digit_value c) 0 ds.

Class WinnowLaws {W : Winnow} : Prop := {
  literal_law t i : literal t i = pair t <$> strip t i;
  multispace0_law i : multispace0 i = Some (span is_space i);
  take_while1_law f i :
    take_while1 f i = match span f i with ([], _) => None | sr => Some sr end;
  one_of_law cs i :
    one_of cs i = match i with c :: r => if bool_decide (c ∈ cs) then Some (c, r) else None | [] => None end;
  opt_law {A} (p : parser A) i :
    opt p i = match p i with Some (x, r) => Some (Some x, r) | None => Some (None, i) end;
  not_followed_law {A} (p : parser A) i :
    not_followed p i = match p i with Some _ => None | None => Some ((), i) end;
  alt_nil_law {A} i : alt (@nil (parser A)) i = None;
  alt_cons_law {A} (p : parser A) ps i :
    alt (p :: ps) i = match p i with Some r => Some r | None => alt ps i end;
  tuple_law {A B} (p : parser A) (q : parser B) i :
    tuple p q i = '(x, i) ← p i; '(y, i) ← q i; Some ((x, y), i);
  pmap_law {A B} (f : A -> B) (p : parser A) i : pmap f p i = '(x, i) ← p i; Some (f x, i);
  verify_law {A} (f : A -> bool) (p : parser A) i :
    verify f p i = '(x, r) ← p i; if f x then Some (x, r) else None;
  preceded_law {A B} (p : parser A) (q : parser B) i : preceded p q i = '(_, i) ← p i; q i;
  delimited_law {A B C} (p : parser A) (q : parser B) (r : parser C) i :
    delimited p q r i = '(_, i) ← p i; '(x, i) ← q i; '(_, i) ← r i; Some (x, i);
  (** A decimal number has no superfluous zeros in front and fits in 64 bits. *)
  dec_uint_ok ds i :
    Forall is_digit ds -> ds <> [] -> (hd 0 ds = 48 -> ds = [48]) -> number_value 10 ds < 2 ^ 64 ->
    not_first is_digit i -> dec_uint (ds ++ i) = Some (number_value 10 ds, i);
  dec_uint_takes i n r : dec_uint i = Some (n, r) -> exists d ds, i = d :: ds ++ r /\ is_digit d = true;
  (** A hexadecimal number has at most sixteen digits. *)
  hex_uint_ok ds i :
    Forall is_hex_digit ds -> ds <> [] -> len ds <= 16 ->
    not_first is_hex_digit i -> hex_uint (ds ++ i) = Some (number_value 16 ds, i);
  hex_uint_takes i n r : hex_uint i = Some (n, r) -> exists d ds, i = d :: ds ++ r /\ is_hex_digit d = true;
}.

(** ** Lemmas: fuel

    A parser of the expression levels leaves less input than it got, and its answer
    does not depend on the fuel when this exceeds the length of the input. *)

Definition shrinks {A} (p : parser A) : Prop :=
  forall i x r, p i = Some (x, r) -> (List.length r < List.length i)%nat.
Definition keeps {A} (p : parser A) : Prop :=
  forall i x r, p i = Some (x, r) -> (List.length r <= List.length i)%nat.
(** The parsers agree on the inputs shorter than [n]. *)
Definition agree {A} (n : nat) (p q : parser A) : Prop := forall i, (List.length i < n)%nat -> p i = q i.

Lemma shrinks_keeps {A} (p : parser A) : shrinks p -> keeps p.
Proof. intros H i x r Hp. specialize (H i x r Hp). lia. Qed.

Lemma span_app f i : let '(s, r) := span f i in i = s ++ r.
Proof.
  induction i as [|c i IH]; [done|]. cbn [span]. destruct (f c); [|done]. destruct (span f i) as [s r]. cbn. by rewrite <- IH.
Qed.

Lemma strip_Some t i r : strip t i = Some r <-> i = t ++ r.
Proof.
  revert i. induction t as [|c t IH]; intros i; cbn [strip app]; [naive_solver|].
  destruct i as [|d i]; [done|]. destruct (Z.eqb_spec c d) as [->|Hn]; [rewrite IH; naive_solver|]. split; [done|congruence].
Qed.

(** Take a parse apart, a step at a time. *)
Ltac parse_inv :=
  repeat match goal with
  | H : (_ ≫= _) = Some _ |- _ => apply bind_Some in H; destruct H as ([? ?] & ? & H)
  | H : Some _ = Some _ |- _ => injection H; clear H; intros; subst
  | H : None = Some _ |- _ => discriminate H
  end.

Section fuel.
Context {W : Winnow} {L : WinnowLaws}.

Lemma literal_shrinks t : t <> [] -> shrinks (literal t).
Proof.
  intros Ht i x r H. rewrite literal_law in H. apply fmap_Some in H as (r' & Hs & [= -> ->]).
  apply strip_Some in Hs as ->. rewrite length_app. destruct t; [done|cbn; lia].
Qed.

Lemma multispace0_keeps : keeps multispace0.
Proof.
  intros i x r. rewrite multispace0_law. pose proof (span_app is_space i) as Hs. intros [= H]. rewrite H in Hs.
  subst i. rewrite length_app. lia.
Qed.

Lemma take_while1_shrinks f : shrinks (take_while1 f).
Proof.
  intros i x r. rewrite take_while1_law. pose proof (span_app f i) as Hs.
  destruct (span f i) as [[|c s] r']; [done|]. intros [= <- <-]. subst i. rewrite length_app. cbn. lia.
Qed.

Lemma opt_keeps {A} (p : parser A) : keeps p -> keeps (opt p).
Proof. intros Hp i x r. rewrite opt_law. destruct (p i) as [[y r']|] eqn:E; intros [= <- <-]; [by eapply Hp|lia]. Qed.

Lemma opt_some {A} (p : parser A) i x r : opt p i = Some (Some x, r) <-> p i = Some (x, r).
Proof. rewrite opt_law. destruct (p i) as [[y r']|]; naive_solver. Qed.
Lemma opt_none {A} (p : parser A) i r : opt p i = Some (None, r) <-> p i = None /\ r = i.
Proof. rewrite opt_law. destruct (p i) as [[y r']|]; naive_solver. Qed.

Lemma alt_shrinks {A} (ps : list (parser A)) : Forall shrinks ps -> shrinks (alt ps).
Proof.
  induction 1 as [|p ps Hp Hps IH]; intros i x r; [by rewrite alt_nil_law|]. rewrite alt_cons_law.
  destruct (p i) as [[y r']|] eqn:E; [|apply IH]. intros [= -> ->]. by eapply Hp.
Qed.

Lemma pmap_shrinks {A B} (f : A -> B) p : shrinks p -> shrinks (pmap f p).
Proof. intros Hp i x r. rewrite pmap_law. intros H. parse_inv. by eapply Hp. Qed.

Lemma tuple_not_shrinks {A B} (p : parser A) (q : parser B) : shrinks p -> shrinks (tuple p (not_followed q)).
Proof.
  intros Hp i x r. rewrite tuple_law. intros H. parse_inv. rewrite not_followed_law in *.
  case_match; [done|]. parse_inv. by eapply Hp.
Qed.

Lemma verify_shrinks {A} f (p : parser A) : shrinks p -> shrinks (verify f p).
Proof. intros Hp i x r. rewrite verify_law. intros H. parse_inv. destruct (f a); parse_inv. by eapply Hp. Qed.

Lemma verify_agree {A} f (p : parser A) i x r : verify f p i = Some (x, r) -> p i = Some (x, r) /\ f x = true.
Proof. rewrite verify_law. intros H. parse_inv. by destruct (f a) eqn:E; parse_inv. Qed.

(** The operators of the nine levels, from the multiplicative ones, and the level
    that has them on top of the unary operators. *)
Definition operator (j : nat) : parser binop :=
  match j with
  | 0 => multiplicative_op | 1 => additive_op | 2 => shift_op | 3 => bitwise_and_op | 4 => bitwise_xor_op
  | 5 => bitwise_or_op | 6 => comparison_op | 7 => and_op | _ => or_op
  end%nat.
Definition tail (fuel : nat) (j : nat) (next : parser Expression) (lhs : Expression) : parser Expression :=
  if decide (j = 6%nat) then compare_once (operator j) next lhs else while_op fuel (operator j) next lhs.
Fixpoint level (fuel : nat) (u : parser Expression) (j : nat) : parser Expression :=
  match j with
  | O => u
  | S j => fun input =>
      '(lhs, input) ← level fuel u j input;
      '(_, input) ← multispace0 input;
      tail fuel j (level fuel u j) lhs input
  end.

Lemma level_9 fuel u : parse_logical_or fuel u = level fuel u 9.
Proof. reflexivity. Qed.

Lemma operator_shrinks j : shrinks (operator j).
Proof.
  assert (Hl : forall c t, shrinks (literal (c :: t))) by (intros; by apply literal_shrinks).
  do 8 (destruct j as [|j]; [cbn [operator];
    try (apply alt_shrinks; repeat constructor); apply pmap_shrinks; first [apply tuple_not_shrinks|idtac]; apply Hl|]).
  apply pmap_shrinks, Hl.
Qed.

(** ** The loops and the levels *)

Lemma tail_keeps fuel j next lhs : keeps next -> keeps (tail fuel j next lhs).
Proof.
  intros Hn. pose proof (opt_keeps _ (shrinks_keeps _ (operator_shrinks j))) as Ho. unfold tail. case_decide.
  - intros i x r H1. unfold compare_once in H1. parse_inv. apply Ho in H0. destruct o; parse_inv; [|done].
    repeat match goal with H : multispace0 _ = _ |- _ => apply multispace0_keeps in H end. apply Hn in H3. lia.
  - revert lhs. induction fuel as [|fuel IH]; intros lhs i x r H1; cbn [while_op] in H1; [done|]. parse_inv. apply Ho in H0.
    destruct o; parse_inv; [|done]. apply IH in H1.
    repeat match goal with H : multispace0 _ = _ |- _ => apply multispace0_keeps in H end. apply Hn in H3. lia.
Qed.

Lemma level_keeps fuel u j : keeps u -> keeps (level fuel u j).
Proof.
  intros Hu. induction j as [|j IH]; [done|]. intros i x r H. cbn [level] in H. parse_inv.
  apply IH in H0. apply multispace0_keeps in H1. apply tail_keeps in H; [lia|done].
Qed.

(** With enough fuel a loop depends on the fuel no more. *)
Lemma tail_agree n j next next' lhs fuel fuel' : agree n next next' -> keeps next ->
  (n <= fuel)%nat -> (n <= fuel')%nat -> agree n (tail fuel j next lhs) (tail fuel' j next' lhs).
Proof.
  intros Ha Hk. unfold tail. case_decide as Hj.
  - intros _ _ i Hi. unfold compare_once. destruct (opt (operator j) i) as [[o i1]|] eqn:Eo; [|done]. cbn.
    destruct o; [|done]. apply opt_some, operator_shrinks in Eo.
    destruct (multispace0 i1) as [[w i2]|] eqn:Em; [|done]. apply multispace0_keeps in Em. cbn. by rewrite Ha by lia.
  - intros Hf Hf' i Hi. revert n fuel' lhs i Ha Hf Hf' Hi. induction fuel as [|fuel IH]; intros n fuel' lhs i Ha Hf Hf' Hi; [lia|].
    destruct fuel' as [|fuel']; [lia|]. cbn [while_op].
    destruct (opt (operator j) i) as [[o i1]|] eqn:Eo; [|done]. cbn. destruct o; [|done]. apply opt_some, operator_shrinks in Eo.
    destruct (multispace0 i1) as [[w i2]|] eqn:Em; [|done]. apply multispace0_keeps in Em. cbn.
    rewrite <- Ha by lia. destruct (next i2) as [[rhs i3]|] eqn:En; [|done]. apply Hk in En. cbn.
    destruct (multispace0 i3) as [[w' i4]|] eqn:Em'; [|done]. apply multispace0_keeps in Em'. cbn.
    apply (IH (pred n)); try lia. intros i' Hi'. apply Ha. lia.
Qed.

Lemma level_agree n u u' fuel fuel' j : agree n u u' -> keeps u -> (n <= fuel)%nat -> (n <= fuel')%nat ->
  agree n (level fuel u j) (level fuel' u' j).
Proof.
  intros Ha Hk Hf Hf'. induction j as [|j IH]; [done|]. intros i Hi. cbn [level]. rewrite <- IH by done.
  destruct (level fuel u j i) as [[lhs i1]|] eqn:E; [|done]. apply (level_keeps fuel u j Hk) in E. cbn.
  destruct (multispace0 i1) as [[w i2]|] eqn:Em; [|done]. apply multispace0_keeps in Em. cbn.
  eapply tail_agree; [apply IH|by apply level_keeps|done|done|lia].
Qed.

(** ** The unary operators and the primaries *)

(** Turn the steps of a parse into what they say of the lengths. *)
Ltac sizes :=
  repeat match goal with
  | H : multispace0 _ = Some _ |- _ => apply multispace0_keeps in H
  | H : literal _ _ = Some _ |- _ => apply literal_shrinks in H; [|done]
  | Hp : keeps ?p, H : ?p _ = Some _ |- _ => apply Hp in H
  end; lia.

Lemma number_shrinks : shrinks parse_number_with_suffix.
Proof.
  intros i x r H. unfold parse_number_with_suffix in H. parse_inv.
  assert (Ho : keeps (opt (one_of (b "KkMm")))).
  { apply opt_keeps. intros j y r'. rewrite one_of_law. destruct j as [|c j]; [done|].
    case_bool_decide; [|done]. intros [= <- <-]. cbn. lia. }
  apply Ho in H1. rewrite !alt_cons_law, alt_nil_law, preceded_law in H0.
  destruct (alt _ i ≫= _) as [[v r']|] eqn:E.
  - injection H0 as -> ->. parse_inv. apply hex_uint_takes in E as (d & ds & -> & _).
    assert (Ha : shrinks (alt [literal (b "0x"); literal (b "0X")])).
    { apply alt_shrinks. repeat constructor; by apply literal_shrinks. }
    apply Ha in H. cbn in H. rewrite length_app in H. lia.
  - destruct (dec_uint i) as [[v r']|] eqn:E'; [|done]. injection H0 as -> ->.
    apply dec_uint_takes in E' as (d & ds & -> & _). cbn. rewrite length_app. lia.
Qed.

Lemma function_arg_shrinks : shrinks parse_function_arg.
Proof.
  intros i x r H. unfold parse_function_arg in H. parse_inv.
  match goal with H : verify _ _ _ = _ |- _ => apply verify_agree in H as [H%take_while1_shrinks _] end. sizes.
Qed.

Lemma two_keeps pe : keeps pe -> keeps (parse_two pe).
Proof. intros Hp i x r H. unfold parse_two in H. parse_inv. sizes. Qed.

Lemma call_keeps pe ident : keeps pe -> keeps (parse_call pe ident).
Proof.
  intros Hp i x r H. pose proof (two_keeps pe Hp) as H2. pose proof (shrinks_keeps _ function_arg_shrinks) as Ha.
  unfold parse_call in H. repeat case_decide; parse_inv; try destruct p as [x' y']; parse_inv; sizes.
Qed.

Lemma identifier_shrinks pe : keeps pe -> shrinks (parse_identifier_or_function pe).
Proof.
  intros Hp i x r H. pose proof (call_keeps pe) as Hc. unfold parse_identifier_or_function in H. parse_inv.
  match goal with H : verify _ _ _ = _ |- _ => apply verify_agree in H as [H%take_while1_shrinks _] end.
  case_decide; parse_inv; [done|].
  match goal with H : opt _ _ = _ |- _ => apply (opt_keeps _ (shrinks_keeps _ (literal_shrinks (b "(") ltac:(done)))) in H end.
  case_match; parse_inv; [|sizes].
  match goal with H : parse_call _ _ _ = _ |- _ => apply (call_keeps pe _ Hp) in H end. sizes.
Qed.

Lemma primary_shrinks pe : keeps pe -> shrinks (parse_primary pe).
Proof.
  intros Hp i x r H. unfold parse_primary in H. parse_inv.
  match goal with H : alt _ _ = _ |- _ => apply alt_shrinks in H; [sizes|] end.
  repeat constructor; [|apply number_shrinks|by apply identifier_shrinks].
  intros j y r' Hd. rewrite delimited_law in Hd. parse_inv. sizes.
Qed.

Lemma unary_shrinks fuel : shrinks (parse_unary fuel).
Proof.
  induction fuel as [|fuel IH]; [done|]. intros i x r H. cbn [parse_unary] in H.
  assert (Hk : keeps (parse_unary fuel)) by by apply shrinks_keeps.
  assert (Hb : shrinks (tuple (literal (b "!")) (not_followed (literal (b "="))))) by by apply tuple_not_shrinks, literal_shrinks.
  parse_inv. case_match; parse_inv; [match goal with H : opt _ _ = _ |- _ => apply opt_some, Hb in H end; sizes|].
  match goal with H : opt _ _ = _ |- _ => apply opt_none in H as [_ ->] end.
  case_match; parse_inv; [match goal with H : opt _ _ = _ |- _ => apply opt_some, literal_shrinks in H; [|done] end; sizes|].
  match goal with H : opt _ _ = _ |- _ => apply opt_none in H as [_ ->] end.
  case_match; parse_inv; [match goal with H : opt _ _ = _ |- _ => apply opt_some, literal_shrinks in H; [|done] end; sizes|].
  match goal with H : opt _ _ = _ |- _ => apply opt_none in H as [_ ->] end.
  match goal with H : parse_primary _ _ = _ |- _ => apply primary_shrinks in H; [sizes|] end.
  rewrite level_9. by apply level_keeps.
Qed.

(** ** Agreement *)

(** Rewrite the first step of a parse by what is known of the rest of its input. *)
Lemma bind_agree {A B} (m : option (A * bytes)) (f g : A * bytes -> option B) :
  (forall x r, m = Some (x, r) -> f (x, r) = g (x, r)) -> (m ≫= f) = (m ≫= g).
Proof. destruct m as [[x r]|]; cbn; [intros H; by apply H|done]. Qed.

Lemma two_agree n pe pe' : agree n pe pe' -> keeps pe -> agree n (parse_two pe) (parse_two pe').
Proof.
  intros Ha Hk i Hi. unfold parse_two. rewrite <- Ha by done.
  apply bind_agree; intros e1 i1 H1. apply bind_agree; intros w i2 H2. apply bind_agree; intros c i3 H3.
  apply bind_agree; intros w' i4 H4. rewrite Ha; [done|]. sizes.
Qed.

Lemma call_agree n pe pe' ident : agree n pe pe' -> keeps pe -> agree n (parse_call pe ident) (parse_call pe' ident).
Proof.
  intros Ha Hk i Hi. unfold parse_call. repeat case_decide; try done; rewrite ?(two_agree n pe pe'), ?Ha by done; done.
Qed.

Lemma primary_agree n pe pe' : agree n pe pe' -> keeps pe -> agree (S n) (parse_primary pe) (parse_primary pe').
Proof.
  intros Ha Hk i Hi. unfold parse_primary. apply bind_agree; intros w i1 H1. rewrite !alt_cons_law, !alt_nil_law.
  assert (Hd : delimited (literal (b "(")) pe (literal (b ")")) i1 = delimited (literal (b "(")) pe' (literal (b ")")) i1).
  { rewrite !delimited_law. apply bind_agree; intros c i2 H2. rewrite Ha; [done|]. sizes. }
  rewrite Hd. case_match; [done|]. case_match; [done|].
  assert (Hf : parse_identifier_or_function pe i1 = parse_identifier_or_function pe' i1); [|by rewrite Hf].
  unfold parse_identifier_or_function. apply bind_agree; intros ident i2 [H2%take_while1_shrinks _]%verify_agree.
  case_decide as Hdot; [done|]. apply bind_agree; intros w' i3 H3. apply bind_agree; intros o i4 H4.
  apply (opt_keeps _ (shrinks_keeps _ (literal_shrinks (b "(") ltac:(done)))) in H4. destruct o; [|done].
  apply bind_agree; intros w'' i5 H5. apply (call_agree n); [done..|]. sizes.
Qed.

Lemma unary_agree n : forall fuel fuel', (n <= fuel)%nat -> (n <= fuel')%nat ->
  agree n (parse_unary fuel) (parse_unary fuel').
Proof.
  induction n as [|n IH]; intros fuel fuel' Hf Hf'; [intros i Hi; lia|].
  destruct fuel as [|fuel]; [lia|]. destruct fuel' as [|fuel']; [lia|]. intros i Hi. cbn [parse_unary].
  assert (Hu := IH fuel fuel' ltac:(lia) ltac:(lia)).
  assert (Hb : shrinks (tuple (literal (b "!")) (not_followed (literal (b "="))))) by by apply tuple_not_shrinks, literal_shrinks.
  apply bind_agree; intros w i1 H1. apply bind_agree; intros o1 i2 H2. destruct o1.
  { apply opt_some, Hb in H2. rewrite Hu; [done|]. sizes. }
  apply opt_none in H2 as [_ ->]. apply bind_agree; intros o2 i3 H3. destruct o2.
  { apply opt_some, literal_shrinks in H3; [|done]. rewrite Hu; [done|]. sizes. }
  apply opt_none in H3 as [_ ->]. apply bind_agree; intros o3 i4 H4. destruct o3.
  { apply opt_some, literal_shrinks in H4; [|done]. rewrite Hu; [done|]. sizes. }
  apply opt_none in H4 as [_ ->]. rewrite !level_9.
  apply (primary_agree n); [|apply level_keeps, shrinks_keeps, unary_shrinks|sizes].
  apply level_agree; [done|apply shrinks_keeps, unary_shrinks|lia|lia].
Qed.

(** Once the fuel exceeds the length of the input, the answer is that of any such fuel. *)
Lemma expression_agree n fuel fuel' : (n <= fuel)%nat -> (n <= fuel')%nat ->
  agree n (parse_expression fuel) (parse_expression fuel').
Proof.
  intros Hf Hf'. unfold parse_expression. rewrite !level_9.
  apply level_agree; [by apply unary_agree|apply shrinks_keeps, unary_shrinks|done|done].
Qed.
End fuel.
