(* ===== verification/ScriptGrammar.v ===== *)
(** The grammar of linker-script expressions, as a specification of their parser:
    which texts stand for which expression, by the precedence of the operators.  The
    parser finds the expression of every text of the grammar ([parse_complete]), so
    no text has two. *)
From Stdlib Require Import String Ascii.
From stdpp Require Import gmap.
From S2P Require Import Prelude Alignment ScriptExpr ScriptParse.

Local Open Scope list_scope.

(** The bytes of the literals in the goal. *)
Ltac eval_literals := repeat match goal with |- context [b ?s] => let v := eval vm_compute in (b s) in change (b s) with v end.

(** Bounds on the lengths of texts, from that on a whole text. *)
Ltac lengths Hf :=
  repeat match type of Hf with context [b ?s] => let v := eval vm_compute in (b s) in change (b s) with v in Hf end;
  repeat (progress (rewrite ?length_app, ?length_cons in Hf; rewrite ?length_app, ?length_cons; cbn [List.length] in Hf |- *)); lia.

(** ** The grammar *)

Definition spaces (w : bytes) : Prop := Forall is_space w.
Definition is_ident (name : bytes) : Prop := starts_ident name /\ Forall ident_char name.

(** The binary operators, from those that bind tightest. *)
Definition symbols (j : nat) : list (string * binop) :=
  match j with
  | 0 => [("*", Multiply); ("/", Divide)]
  | 1 => [("+", Add); ("-", Subtract)]
  | 2 => [("<<", LeftShift); (">>", RightShift)]
  | 3 => [("&", BitwiseAnd)]
  | 4 => [("^", BitwiseXor)]
  | 5 => [("|", BitwiseOr)]
  | 6 => [("<=", LessEqual); (">=", GreaterEqual); ("==", Equal); ("!=", NotEqual); ("<", LessThan); (">", GreaterThan)]
  | 7 => [("&&", LogicalAnd)]
  | 8 => [("||", LogicalOr)]
  | _ => []
  end%nat%string.

Definition prefixes : list (string * (Expression -> Expression)) :=
  [("!", LogicalNot); ("~", BitwiseNot); ("-", Negate)]%string.
Definition section_functions : list (string * (bytes -> Expression)) :=
  [("SIZEOF", Sizeof); ("ALIGNOF", Alignof); ("ADDR", Addr); ("ORIGIN", Origin); ("LENGTH", Length);
   ("LOADADDR", Loadaddr)]%string.
Definition pair_functions : list (string * binop) := [("MIN", Min); ("MAX", Max)]%string.

(** Decimal numbers without superfluous zeros and hexadecimal ones, with an optional
    suffix of kilo or mega. *)
Definition suffix_ok (suffix : option Z) : Prop := match suffix with Some c => c ∈ b "KkMm" | None => True end.
Inductive number_token : Z -> bytes -> Prop :=
| decimal ds suffix :
    Forall is_digit ds -> ds <> [] -> (hd 0 ds = 48 -> ds = [48]) -> number_value 10 ds < 2 ^ 64 -> suffix_ok suffix ->
    number_token (scale (number_value 10 ds) suffix) (ds ++ option_list suffix)
| hexadecimal x ds suffix :
    x = "0x"%string \/ x = "0X"%string -> Forall is_hex_digit ds -> ds <> [] -> len ds <= 16 -> suffix_ok suffix ->
    number_token (scale (number_value 16 ds) suffix) (b x ++ ds ++ option_list suffix).

(** [grammar j e s]: the text [s], from its first to its last character, is an
    expression of level [j]; level 0 is that of the unary operators and what they
    apply to.  All binary operators associate to the left but the comparisons, which
    do not associate. *)
Inductive grammar : nat -> Expression -> bytes -> Prop :=
| g_prefix sym op w e s : In (sym, op) prefixes -> spaces w -> grammar 0 e s -> grammar 0 (op e) (b sym ++ w ++ s)
| g_paren w w' e s : spaces w -> spaces w' -> grammar 9 e s -> grammar 0 e (b "(" ++ w ++ s ++ w' ++ b ")")
| g_number n s : number_token n s -> grammar 0 (Number n) s
| g_dot : grammar 0 LocationCounter (b ".")
| g_symbol name : is_ident name -> name <> b "." -> grammar 0 (Symbol name) name
| g_section sym f name w1 w2 w3 :
    In (sym, f) section_functions -> spaces w1 -> spaces w2 -> spaces w3 -> is_ident name ->
    grammar 0 (f name) (b sym ++ w1 ++ b "(" ++ w2 ++ name ++ w3 ++ b ")")
| g_align w1 w2 w3 e s :
    spaces w1 -> spaces w2 -> spaces w3 -> grammar 9 e s ->
    grammar 0 (Align e) (b "ALIGN" ++ w1 ++ b "(" ++ w2 ++ s ++ w3 ++ b ")")
| g_pair sym f w1 w2 w3 w4 w5 e1 s1 e2 s2 :
    In (sym, f) pair_functions -> spaces w1 -> spaces w2 -> spaces w3 -> spaces w4 -> spaces w5 ->
    grammar 9 e1 s1 -> grammar 9 e2 s2 ->
    grammar 0 (f e1 e2) (b sym ++ w1 ++ b "(" ++ w2 ++ s1 ++ w3 ++ b "," ++ w4 ++ s2 ++ w5 ++ b ")")
| g_up j e s : (j < 9)%nat -> grammar j e s -> grammar (S j) e s
| g_infix j sym op w w' e1 s1 e2 s2 :
    In (sym, op) (symbols j) -> spaces w -> spaces w' ->
    grammar (if decide (j = 6) then 6 else S j)%nat e1 s1 -> grammar j e2 s2 ->
    grammar (S j) (op e1 e2) (s1 ++ w ++ b sym ++ w' ++ s2).

(** ** Spaces and first characters *)

Definition ws (i : bytes) : bytes := (span is_space i).2.

Lemma span_all (f : Z -> bool) s i : Forall f s -> not_first f i -> span f (s ++ i) = (s, i).
Proof.
  intros Hs Hi. induction s as [|c s IH]; cbn [app span].
  - destruct i as [|c i]; [done|]. cbn in *. by rewrite Hi.
  - apply Forall_cons in Hs as [Hc Hs]. apply Is_true_true in Hc. rewrite Hc. by rewrite IH.
Qed.

Lemma ws_app w i : spaces w -> ws (w ++ i) = ws i.
Proof.
  unfold ws. intros Hw. induction w as [|c w IH]; [done|]. apply Forall_cons in Hw as [Hc Hw]. cbn [app span].
  apply Is_true_true in Hc. rewrite Hc, <- IH by done. by destruct (span is_space (w ++ i)).
Qed.

Lemma ws_id i : not_first is_space i -> ws i = i.
Proof. unfold ws. destruct i as [|c i]; [done|]. cbn. by intros ->. Qed.

Lemma ws_first i : not_first is_space (ws i).
Proof.
  unfold ws. induction i as [|c i IH]; [done|]. cbn [span]. destruct (is_space c) eqn:E; [|by cbn].
  by destruct (span is_space i).
Qed.

Lemma ws_ws i : ws (ws i) = ws i.
Proof. apply ws_id, ws_first. Qed.

Lemma ws_length i : (List.length (ws i) <= List.length i)%nat.
Proof.
  unfold ws. pose proof (span_app is_space i) as H. destruct (span is_space i) as [s r]. cbn. subst i. rewrite length_app. lia.
Qed.

(** What an expression starts with. *)
Definition expr_start (c : Z) : bool := ident_start c || is_digit c || bool_decide (c ∈ b "(!~-").

Lemma expr_start_not (f : Z -> bool) c : (forall c', f c' = true -> expr_start c' = false) -> expr_start c = true -> f c = false.
Proof. intros H Hc. destruct (f c) eqn:E; [|done]. by rewrite (H c E) in Hc. Qed.

Ltac char_cases := unfold expr_start, ident_start, ident_char, is_ascii_alphanumeric, is_ascii_alphabetic, is_digit, is_space in *.

Lemma space_not_start c : is_space c = true -> expr_start c = false.
Proof.
  char_cases. intros H. assert (Hc : c = 32 \/ c = 9 \/ c = 13 \/ c = 10) by lia. by destruct Hc as [->|[->|[->| ->]]].
Qed.

Lemma number_token_starts n s : number_token n s -> exists c s', s = c :: s' /\ is_digit c = true.
Proof.
  intros [ds suffix Hd Hn _ _ _|x ds suffix [->| ->] _ _ _ _].
  - destruct ds as [|d ds]; [done|]. apply Forall_cons in Hd as [Hd _]. exists d, (ds ++ option_list suffix). split; [done|]. by apply Is_true_true.
  - by exists 48, (b "x" ++ ds ++ option_list suffix).
  - by exists 48, (b "X" ++ ds ++ option_list suffix).
Qed.

Lemma grammar_starts j e s : grammar j e s -> exists c s', s = c :: s' /\ expr_start c = true.
Proof.
  induction 1 as [sym op w e s Hin| | n s Hn| |name [Hs _] _|sym f name w1 w2 w3 Hin| |sym f w1 w2 w3 w4 w5 e1 s1 e2 s2 Hin| |
                  j sym op w w' e1 s1 e2 s2 _ _ _ _ IH _ _].
  - unfold prefixes in Hin. cbn in Hin. destruct Hin as [[= <- _]|[[= <- _]|[[= <- _]|[]]]]; cbn; eauto.
  - cbn; eauto.
  - apply number_token_starts in Hn as (c & s' & -> & Hc). exists c, s'. split; [done|]. unfold expr_start. rewrite Hc. by rewrite orb_true_r.
  - cbn; eauto.
  - destruct name as [|c name]; [done|]. exists c, name. split; [done|]. unfold expr_start. cbn in Hs. apply Is_true_true in Hs. by rewrite Hs.
  - unfold section_functions in Hin. cbn in Hin.
    destruct Hin as [[= <- _]|[[= <- _]|[[= <- _]|[[= <- _]|[[= <- _]|[[= <- _]|[]]]]]]]; cbn; eauto.
  - cbn; eauto.
  - unfold pair_functions in Hin. cbn in Hin. destruct Hin as [[= <- _]|[[= <- _]|[]]]; cbn; eauto.
  - done.
  - destruct IH as (c & s' & -> & Hc). cbn. eauto.
Qed.

(** An operator is followed by spaces or an expression. *)
Definition op_char (c : Z) : bool := bool_decide (c ∈ b "=<>|&").

Lemma op_char_neither c : op_char c = true -> is_space c = false /\ expr_start c = false.
Proof. unfold op_char. rewrite bool_decide_eq_true. cbn. set_unfold. intuition (subst; done). Qed.

Lemma operand_first (f : Z -> bool) w s t j e : spaces w -> grammar j e s ->
  (forall c, f c = true -> is_space c = false /\ expr_start c = false) -> not_first f (w ++ s ++ t).
Proof.
  intros Hw Hs Hf. destruct w as [|c w].
  - apply grammar_starts in Hs as (c & s' & -> & Hc). cbn. destruct (f c) eqn:E; [|done]. apply Hf in E as [_ E]. by rewrite E in Hc.
  - apply Forall_cons in Hw as [Hc%Is_true_true _]. cbn. destruct (f c) eqn:E; [|done]. apply Hf in E as [E _]. by rewrite E in Hc.
Qed.

Lemma operand_ws w s t j e : spaces w -> grammar j e s -> ws (w ++ s ++ t) = s ++ t.
Proof.
  intros Hw Hs. rewrite ws_app by done. apply ws_id. apply grammar_starts in Hs as (c & s' & -> & Hc). cbn.
  destruct (is_space c) eqn:E; [|done]. apply space_not_start in E. by rewrite E in Hc.
Qed.

(** ** Operators on their symbols *)

Section complete.
Context {W : Winnow} {L : WinnowLaws}.

Lemma multispace0_ws i : exists s, multispace0 i = Some (s, ws i).
Proof. rewrite multispace0_law. unfold ws. destruct (span is_space i) as [s r]. by exists s. Qed.

Ltac in_cases H := cbn in H; repeat (destruct H as [H|H]; [injection H as <- <-|]); [..|destruct H].
#[local] Arguments Z.eqb !_ !_ /.

(** Run the operators of a level on an input whose first characters are known. *)
Ltac run_operators :=
  cbn [operator];
  unfold multiplicative_op, additive_op, shift_op, bitwise_and_op, bitwise_xor_op, bitwise_or_op, comparison_op, and_op, or_op; eval_literals;
  repeat (rewrite ?alt_cons_law, ?alt_nil_law, ?pmap_law, ?tuple_law, ?not_followed_law, ?literal_law; cbn;
          repeat match goal with H : ?c <> ?k |- context [?k =? ?c] => rewrite (proj2 (Z.eqb_neq k c)) by congruence; cbn end).

Lemma op_char_false c : op_char c = false -> c <> 61 /\ c <> 60 /\ c <> 62 /\ c <> 124 /\ c <> 38.
Proof. unfold op_char. rewrite bool_decide_eq_false. cbn. set_solver. Qed.

Lemma operator_parses j sym op t : In (sym, op) (symbols j) -> not_first op_char t ->
  operator j (b sym ++ t) = Some (op, t).
Proof.
  intros Hin Ht. destruct t as [|c t]; [|apply op_char_false in Ht as (? & ? & ? & ? & ?)];
    destruct j as [|[|[|[|[|[|[|[|[|j]]]]]]]]]; in_cases Hin; run_operators; done.
Qed.

(** An operator is not one of a level that binds tighter. *)
Lemma operator_tighter i j sym op t : (i < j)%nat -> In (sym, op) (symbols j) -> not_first op_char t ->
  operator i (b sym ++ t) = None.
Proof.
  intros Hij Hin Ht. destruct t as [|c t]; [|apply op_char_false in Ht as (? & ? & ? & ? & ?)];
    destruct j as [|[|[|[|[|[|[|[|[|j]]]]]]]]]; try lia; in_cases Hin;
    (destruct i as [|[|[|[|[|[|[|[|i]]]]]]]]; [..|lia]); first [lia|run_operators; done].
Qed.

Lemma opt_parses {A} (p : parser A) i x r : p i = Some (x, r) -> opt p i = Some (Some x, r).
Proof. rewrite opt_law. by intros ->. Qed.
Lemma opt_fails {A} (p : parser A) i : p i = None -> opt p i = Some (None, i).
Proof. rewrite opt_law. by intros ->. Qed.

(** ** What follows a text *)

(** The text ends here: no character continues its last word, and it is not the name
    of a function call. *)
Definition boundary (rest : bytes) : Prop := not_first ident_char rest /\ not_first (fun c => c =? 40) (ws rest).
(** And no operator of the levels below [j] follows. *)
Definition stops (j : nat) (rest : bytes) : Prop := boundary rest /\ forall i, (i < j)%nat -> operator i (ws rest) = None.

Lemma stops_le i j rest : (i <= j)%nat -> stops j rest -> stops i rest.
Proof. intros Hij [Hb Hs]. split; [done|]. intros k Hk. apply Hs. lia. Qed.

Lemma space_boundary c : is_space c = true -> ident_char c = false.
Proof. char_cases. lia. Qed.

Lemma op_boundary j sym op c t : In (sym, op) (symbols j) -> b sym = c :: t ->
  ident_char c = false /\ is_space c = false /\ (c =? 40) = false.
Proof.
  intros Hin. destruct j as [|[|[|[|[|[|[|[|[|j]]]]]]]]]; in_cases Hin; intros [= <- <-]; done.
Qed.

Lemma symbols_stop j sym op w w' s e rest : In (sym, op) (symbols j) -> spaces w -> spaces w' -> grammar j e s ->
  stops j (w ++ b sym ++ w' ++ s ++ rest) /\
  ws (w ++ b sym ++ w' ++ s ++ rest) = b sym ++ w' ++ s ++ rest /\
  operator j (b sym ++ w' ++ s ++ rest) = Some (op, w' ++ s ++ rest).
Proof.
  intros Hin Hw Hw' Hs. destruct (b sym) as [|c t] eqn:E.
  { exfalso. destruct j as [|[|[|[|[|[|[|[|[|j]]]]]]]]]; in_cases Hin; done. }
  destruct (op_boundary j sym op c t Hin E) as (Hi & Hsp & Hp).
  assert (Hws : ws (w ++ (c :: t) ++ w' ++ s ++ rest) = (c :: t) ++ w' ++ s ++ rest).
  { rewrite ws_app by done. by apply ws_id. }
  pose proof (operand_first op_char w' s rest j e Hw' Hs op_char_neither) as Hf.
  split_and!; [|done|rewrite <- E; by apply operator_parses]. split; [split|].
  - destruct w as [|d w]; [done|]. apply Forall_cons in Hw as [Hd%Is_true_true _]. by eapply space_boundary.
  - by rewrite Hws.
  - intros i Hij. rewrite Hws, <- E. by eapply operator_tighter.
Qed.

(** ** Levels *)

Abbreviation lv fuel := (level fuel (parse_unary fuel)).

(** What the parser of a level makes of a text of the level: the expression, and for
    the levels that loop, the loop goes on with it. *)
Definition parses_at (j : nat) (e : Expression) (s : bytes) : Prop :=
  forall fuel w rest, spaces w -> (List.length (w ++ s ++ rest) < fuel)%nat ->
  match j with
  | O => boundary rest -> exists r, parse_unary fuel (w ++ s ++ rest) = Some (e, r) /\ ws r = ws rest
  | S j => stops (if decide (j = 6) then 7 else j)%nat rest ->
      lv fuel (S j) (w ++ s ++ rest)
      = if decide (j = 6%nat) then Some (e, ws rest) else while_op fuel (operator j) (lv fuel j) e (ws rest)
  end.

Lemma parses_level j e s fuel w rest : parses_at (S j) e s -> spaces w -> (List.length (w ++ s ++ rest) < fuel)%nat ->
  stops (S j) rest -> lv fuel (S j) (w ++ s ++ rest) = Some (e, ws rest).
Proof.
  intros Hp Hw Hf Hs. pose proof (Hp fuel w rest Hw Hf) as H. cbv iota beta in H.
  rewrite H by (case_decide; [subst; done|by eapply stops_le, Hs; lia]).
  case_decide; [done|]. destruct fuel as [|fuel]; [lia|]. cbn [while_op]. rewrite opt_fails; [done|]. apply Hs. lia.
Qed.

Lemma parses_operand j e s fuel w rest : parses_at j e s -> spaces w -> (List.length (w ++ s ++ rest) < fuel)%nat ->
  stops j rest -> exists r, lv fuel j (w ++ s ++ rest) = Some (e, r) /\ ws r = ws rest.
Proof.
  intros Hp Hw Hf Hs. destruct j as [|j]; [by apply (Hp fuel w rest Hw Hf), Hs|].
  exists (ws rest). split; [by apply parses_level|apply ws_ws].
Qed.

Lemma parses_up j e s : (j < 9)%nat -> parses_at j e s -> parses_at (S j) e s.
Proof.
  intros Hj Hp fuel w rest Hw Hf Hs. assert (Hs' : stops j rest) by (case_decide; [subst; by eapply stops_le, Hs; lia|done]).
  destruct (parses_operand j e s fuel w rest Hp Hw Hf Hs') as (r & Hr & Hws).
  cbn [level]. rewrite Hr. cbn. destruct (multispace0_ws r) as [w' ->]. cbn. rewrite Hws.
  unfold tail. case_decide; [|done]. subst j. unfold compare_once. rewrite opt_fails; [done|]. apply Hs. lia.
Qed.

Lemma parses_infix j sym op w w' e1 s1 e2 s2 : In (sym, op) (symbols j) -> spaces w -> spaces w' -> grammar j e2 s2 ->
  parses_at (if decide (j = 6) then 6 else S j)%nat e1 s1 -> parses_at j e2 s2 ->
  parses_at (S j) (op e1 e2) (s1 ++ w ++ b sym ++ w' ++ s2).
Proof.
  intros Hin Hw Hw' Hg H1 H2 fuel w0 rest Hw0 Hf Hs.
  assert (Hs' : stops j rest) by (case_decide; [subst; by eapply stops_le, Hs; lia|done]).
  destruct (symbols_stop j sym op w w' s2 e2 rest Hin Hw Hw' Hg) as (Hstop & Hws & Hop).
  rewrite <- !app_assoc in Hf |- *. set (rest1 := w ++ b sym ++ w' ++ s2 ++ rest) in *.
  assert (Hl : lv fuel (S j) (w0 ++ s1 ++ rest1) = tail fuel j (lv fuel j) e1 (ws rest1)).
  { unfold tail. case_decide as Hj; [|pose proof (H1 fuel w0 rest1 Hw0 Hf) as H; cbv iota beta in H; rewrite !decide_False in H by done; by apply H].
    destruct (parses_operand 6 e1 s1 fuel w0 rest1 H1 Hw0 Hf) as (r & Hr & Hwr); [by rewrite <- Hj|].
    subst j. cbn [level] in Hr |- *. rewrite Hr. cbn. destruct (multispace0_ws r) as [x ->]. cbn. by rewrite Hwr. }
  rewrite Hl, Hws. clear Hl. unfold rest1 in Hf. rewrite !length_app in Hf.
  destruct (parses_operand j e2 s2 fuel [] rest H2) as (r & Hr & Hwr);
    [constructor|rewrite !length_app; cbn; lia|done|].
  cbn [app] in Hr. pose proof (operand_ws w' s2 rest j e2 Hw' Hg) as Hw2.
  unfold tail. case_decide as Hj.
  - unfold compare_once. rewrite (opt_parses _ _ _ _ Hop). cbn. destruct (multispace0_ws (w' ++ s2 ++ rest)) as [x ->]. cbn.
    rewrite Hw2, Hr. cbn. destruct (multispace0_ws r) as [y ->]. cbn. by rewrite Hwr.
  - destruct fuel as [|fuel]; [lia|]. cbn [while_op]. rewrite (opt_parses _ _ _ _ Hop). cbn [mbind option_bind].
    destruct (multispace0_ws (w' ++ s2 ++ rest)) as [x ->]. cbn [mbind option_bind].
    rewrite Hw2, Hr. cbn [mbind option_bind]. destruct (multispace0_ws r) as [y ->]. cbn [mbind option_bind]. rewrite Hwr.
    pose proof (ws_length rest).
    pose proof (tail_agree (S (List.length (ws rest))) j (lv (S fuel) j) (lv (S fuel) j) (op e1 e2) fuel (S fuel)) as Ht.
    unfold tail in Ht. rewrite !decide_False in Ht by done. apply Ht; [done|by apply level_keeps, shrinks_keeps, unary_shrinks|..|lia].
    + destruct (grammar_starts _ _ _ Hg) as (c & t & -> & _). cbn in Hf. lia.
    + lia.
Qed.

(** ** Primaries *)

(** What closes a text: the end of the input, or one of these characters. *)
Definition closer (c : Z) : bool := bool_decide (c ∈ b "),;}").
Definition ends (i : bytes) : Prop := match i with c :: _ => closer c = true | [] => True end.

Lemma closer_cases c : closer c = true -> c = 41 \/ c = 44 \/ c = 59 \/ c = 125.
Proof. unfold closer. rewrite bool_decide_eq_true. cbn. set_solver. Qed.

Lemma ends_stops rest : ends (ws rest) -> stops 9 rest.
Proof.
  intros He. split.
  - split; [|destruct (ws rest) as [|c t]; [done|]; by destruct (closer_cases c He) as [->|[->|[->| ->]]]].
    destruct rest as [|c t]; [done|]. cbn. unfold ws in He. cbn in He. destruct (is_space c) eqn:E; [by apply space_boundary|].
    cbn in He. by destruct (closer_cases c He) as [->|[->|[->| ->]]].
  - intros i _. destruct (ws rest) as [|c t]; [|destruct (closer_cases c He) as [->|[->|[->| ->]]]];
      (destruct i as [|[|[|[|[|[|[|[|i]]]]]]]]; run_operators; done).
Qed.

Lemma closes_ends w c t : spaces w -> closer c = true -> ends (ws (w ++ c :: t)) /\ ws (w ++ c :: t) = c :: t.
Proof.
  intros Hw Hc. rewrite ws_app by done. rewrite ws_id; [done|]. by destruct (closer_cases c Hc) as [->|[->|[->| ->]]].
Qed.

(** An expression inside, up to a closing character. *)
Lemma parses_inside e s fuel w w' c rest : parses_at 9 e s -> spaces w -> spaces w' -> closer c = true ->
  (List.length (w ++ s ++ w' ++ c :: rest) < fuel)%nat ->
  parse_logical_or fuel (parse_unary fuel) (w ++ s ++ w' ++ c :: rest) = Some (e, c :: rest).
Proof.
  intros Hp Hw Hw' Hc Hf. destruct (closes_ends w' c rest Hw' Hc) as [He Hws].
  rewrite level_9, (parses_level 8 e s fuel w) by (try done; by apply ends_stops). by rewrite Hws.
Qed.

Lemma parses_inside_nil e s fuel w c rest : parses_at 9 e s -> spaces w -> closer c = true ->
  (List.length (s ++ w ++ c :: rest) < fuel)%nat ->
  parse_logical_or fuel (parse_unary fuel) (s ++ w ++ c :: rest) = Some (e, c :: rest).
Proof. intros Hp Hw Hc Hf. by apply (parses_inside e s fuel [] w c rest Hp (Forall_nil_2 _)). Qed.

Lemma literal_parses t i : literal t (t ++ i) = Some (t, i).
Proof. rewrite literal_law. by rewrite (proj2 (strip_Some t (t ++ i) i)). Qed.
Lemma literal_char c i : literal [c] (c :: i) = Some ([c], i).
Proof. exact (literal_parses [c] i). Qed.
Lemma literal_fails c t d i : c <> d -> literal (c :: t) (d :: i) = None.
Proof. intros H. rewrite literal_law. cbn. by rewrite (proj2 (Z.eqb_neq c d) H). Qed.

Lemma primary_skips fuel w c t : spaces w -> is_space c = false -> c <> 33 -> c <> 126 -> c <> 45 ->
  parse_unary (S fuel) (w ++ c :: t)
  = alt [delimited (literal (b "(")) (parse_logical_or fuel (parse_unary fuel)) (literal (b ")"));
         parse_number_with_suffix; parse_identifier_or_function (parse_logical_or fuel (parse_unary fuel))] (c :: t).
Proof.
  intros Hw Hc H1 H2 H3. cbn [parse_unary]. destruct (multispace0_ws (w ++ c :: t)) as [x ->]. cbn [mbind option_bind].
  rewrite ws_app, ws_id by done. rewrite opt_fails by (rewrite tuple_law; eval_literals; by rewrite literal_fails by congruence).
  cbn [mbind option_bind]. rewrite opt_fails by (eval_literals; by rewrite literal_fails by congruence).
  cbn [mbind option_bind]. rewrite opt_fails by (eval_literals; by rewrite literal_fails by congruence).
  cbn [mbind option_bind]. unfold parse_primary. destruct (multispace0_ws (c :: t)) as [y ->]. cbn [mbind option_bind].
  by rewrite ws_id.
Qed.

Lemma parses_prefix sym op w e s : In (sym, op) prefixes -> spaces w -> grammar 0 e s -> parses_at 0 e s ->
  parses_at 0 (op e) (b sym ++ w ++ s).
Proof.
  intros Hin Hw Hg Hp fuel w0 rest Hw0 Hf Hb. destruct fuel as [|fuel]; [lia|]. rewrite <- !app_assoc in *.
  assert (Hf' : (List.length (w ++ s ++ rest) < fuel)%nat).
  { unfold prefixes in Hin. in_cases Hin; lengths Hf. }
  destruct (Hp fuel w rest Hw Hf' Hb) as (r & Hr & Hws). exists r. split; [|done].
  cbn [parse_unary]. destruct (multispace0_ws (w0 ++ b sym ++ w ++ s ++ rest)) as [x ->]. cbn [mbind option_bind].
  rewrite ws_app by done.
  pose proof (operand_first (fun c => c =? 61) w s rest 0 e Hw Hg) as H61.
  unfold prefixes in Hin. in_cases Hin; eval_literals; (rewrite ws_id by done).
  - rewrite (opt_parses _ _ ([33], ()) (w ++ s ++ rest)).
    + cbn [mbind option_bind]. by rewrite Hr.
    + rewrite tuple_law, literal_parses. cbn [mbind option_bind]. rewrite not_followed_law, literal_law.
      destruct (w ++ s ++ rest) as [|d t]; [done|]. cbn. cbn in H61.
      destruct (Z.eqb_spec 61 d) as [<-|]; [|done]. discriminate H61. intros c. destruct (Z.eqb_spec c 61) as [->|]; [done|done].
  - cbn [app]. rewrite opt_fails by (rewrite tuple_law; by rewrite literal_fails). cbn [mbind option_bind].
    rewrite (opt_parses _ _ [126] (w ++ s ++ rest)) by apply literal_char. cbn [mbind option_bind]. by rewrite Hr.
  - cbn [app]. rewrite opt_fails by (rewrite tuple_law; by rewrite literal_fails). cbn [mbind option_bind].
    rewrite opt_fails by (by rewrite literal_fails). cbn [mbind option_bind].
    rewrite (opt_parses _ _ [45] (w ++ s ++ rest)) by apply literal_char. cbn [mbind option_bind]. by rewrite Hr.
Qed.

Lemma parses_paren w w' e s : spaces w -> spaces w' -> parses_at 9 e s ->
  parses_at 0 e (b "(" ++ w ++ s ++ w' ++ b ")").
Proof.
  intros Hw Hw' Hp fuel w0 rest Hw0 Hf Hb. destruct fuel as [|fuel]; [lia|]. rewrite <- !app_assoc in *.
  exists rest. split; [|done]. eval_literals. cbn [app] in *. rewrite primary_skips by done.
  rewrite alt_cons_law, delimited_law. eval_literals. rewrite literal_char. cbn [mbind option_bind].
  rewrite (parses_inside e s fuel w w' 41 rest Hp Hw Hw' eq_refl).
  - cbn [mbind option_bind]. by rewrite literal_char.
  - lengths Hf.
Qed.

(** ** Numbers, names and calls *)

Lemma number_fails c t : is_digit c = false -> parse_number_with_suffix (c :: t) = None.
Proof.
  intros Hc. unfold parse_number_with_suffix.
  destruct (alt _ (c :: t)) as [[n r]|] eqn:E; [|done]. exfalso. rewrite !alt_cons_law, alt_nil_law in E.
  rewrite preceded_law, !alt_cons_law, alt_nil_law in E.
  change (b "0x") with [48; 120] in E. change (b "0X") with [48; 88] in E.
  rewrite !literal_fails in E by (intros <-; done). cbn [mbind option_bind] in E.
  destruct (dec_uint (c :: t)) as [[n' r']|] eqn:Ed; [|done]. apply dec_uint_takes in Ed as (d & ds & [= -> ->] & Hd). congruence.
Qed.

(** A suffix and what follows it. *)
Lemma suffix_parses suffix rest : suffix_ok suffix -> not_first ident_char rest ->
  opt (one_of (b "KkMm")) (option_list suffix ++ rest) = Some (suffix, rest).
Proof.
  intros Hs Hr. destruct suffix as [c|]; cbn.
  - apply opt_parses. rewrite one_of_law. by rewrite bool_decide_eq_true_2.
  - apply opt_fails. rewrite one_of_law. destruct rest as [|c t]; [done|]. case_bool_decide as H; [|done].
    cbn in H, Hr. set_unfold in H. by destruct H as [->|[->|[->|[->|[]]]]].
Qed.

Lemma suffix_no_digit f suffix rest : suffix_ok suffix -> not_first ident_char rest ->
  (forall c, f c = true -> ident_char c = true /\ ~ c ∈ b "KkMm") -> not_first f (option_list suffix ++ rest).
Proof.
  intros Hs Hr Hf. destruct suffix as [c|]; cbn.
  - destruct (f c) eqn:E; [|done]. apply Hf in E as [_ E]. done.
  - destruct rest as [|c t]; [done|]. cbn in *. destruct (f c) eqn:E; [|done]. apply Hf in E as [E _]. congruence.
Qed.

Lemma digit_no_suffix c : is_digit c = true -> ident_char c = true /\ ~ c ∈ b "KkMm".
Proof. intros H. split; [unfold ident_char, is_ascii_alphanumeric; by rewrite H|]. cbn. set_unfold. intros [->|[->|[->|[->|[]]]]]; done. Qed.
Lemma hex_digit_no_suffix c : is_hex_digit c = true -> ident_char c = true /\ ~ c ∈ b "KkMm".
Proof.
  intros H. split; [unfold is_hex_digit in H; char_cases; lia|]. cbn. set_unfold. intros [->|[->|[->|[->|[]]]]]; done.
Qed.

Lemma number_parses n s rest : number_token n s -> boundary rest ->
  parse_number_with_suffix (s ++ rest) = Some (Number n, rest).
Proof.
  intros Hn [Hb _]. unfold parse_number_with_suffix. destruct Hn as [ds suffix Hd Hne Hz Hmax Hs|x ds suffix Hx Hd Hne Hlen Hs].
  - rewrite <- app_assoc. pose proof (suffix_no_digit is_digit suffix rest Hs Hb digit_no_suffix) as Hnd.
    rewrite !alt_cons_law, preceded_law, !alt_cons_law, alt_nil_law.
    rewrite (dec_uint_ok ds (option_list suffix ++ rest)) by done.
    assert (Hl : forall x, literal [48; x] (ds ++ option_list suffix ++ rest) = None \/ is_digit x = true \/ x = 75 \/ x = 107 \/ x = 77 \/ x = 109 \/ ident_char x = false).
    { intros x. rewrite literal_law. destruct ds as [|d ds]; [done|]. cbn. destruct (Z.eqb_spec 48 d) as [<-|]; [|by left].
      pose proof (Hz eq_refl) as Heq. injection Heq as ->. cbn. destruct suffix as [c|]; cbn.
      - destruct (Z.eqb_spec x c) as [->|]; [|by left]. right. cbn in Hs. set_unfold in Hs. tauto.
      - destruct rest as [|c t]; [by left|]. cbn in Hb. destruct (Z.eqb_spec x c) as [->|]; [|by left]. tauto. }
    eval_literals. destruct (Hl 120) as [-> |H]; [|exfalso; char_cases; lia]. destruct (Hl 88) as [-> |H]; [|exfalso; char_cases; lia].
    cbn [mbind option_bind]. by rewrite suffix_parses.
  - rewrite <- !app_assoc. pose proof (suffix_no_digit is_hex_digit suffix rest Hs Hb hex_digit_no_suffix) as Hnd.
    rewrite alt_cons_law, preceded_law, !alt_cons_law.
    assert (Hp : (match literal (b "0x") (b x ++ ds ++ option_list suffix ++ rest) with
                  | Some r => Some r | None => match literal (b "0X") (b x ++ ds ++ option_list suffix ++ rest) with
                    | Some r => Some r | None => alt [] (b x ++ ds ++ option_list suffix ++ rest) end end)
                 = Some (b x, ds ++ option_list suffix ++ rest)).
    { destruct Hx as [-> | ->]; [by rewrite literal_parses|]. rewrite literal_parses.
      rewrite literal_law. by eval_literals. }
    rewrite Hp. cbn [mbind option_bind]. rewrite hex_uint_ok by done. cbn [mbind option_bind]. by rewrite suffix_parses.
Qed.

Lemma ident_parses name rest : is_ident name -> not_first ident_char rest ->
  verify starts_ident (take_while1 ident_char) (name ++ rest) = Some (name, rest).
Proof.
  intros [Hs Hn] Hr. apply Is_true_true in Hs. rewrite verify_law, take_while1_law, span_all by done.
  destruct name as [|c name]; [done|]. cbn [mbind option_bind]. by rewrite Hs.
Qed.

Lemma ident_start_other c : ident_start c = true ->
  is_space c = false /\ is_digit c = false /\ c <> 33 /\ c <> 126 /\ c <> 45 /\ c <> 40.
Proof. char_cases. lia. Qed.

(** A word reaches the alternative for names. *)
Lemma primary_name fuel w name rest : spaces w -> starts_ident name ->
  parse_unary (S fuel) (w ++ name ++ rest)
  = parse_identifier_or_function (parse_logical_or fuel (parse_unary fuel)) (name ++ rest).
Proof.
  intros Hw Hs. destruct name as [|c name]; [done|]. apply Is_true_true in Hs. cbn in Hs.
  destruct (ident_start_other c Hs) as (H1 & H2 & H3 & H4 & H5 & H6). cbn [app]. rewrite primary_skips by done.
  rewrite !alt_cons_law, alt_nil_law, delimited_law. eval_literals. rewrite literal_fails by congruence.
  cbn [mbind option_bind]. rewrite number_fails by done. by case_match.
Qed.

Lemma parses_name name : is_ident name -> name <> b "." -> parses_at 0 (Symbol name) name.
Proof.
  intros Hn Hd fuel w rest Hw Hf [Hb1 Hb2]. destruct fuel as [|fuel]; [lia|].
  rewrite primary_name by (done || apply Hn). unfold parse_identifier_or_function. rewrite ident_parses by done.
  cbn [mbind option_bind]. rewrite decide_False by done. destruct (multispace0_ws rest) as [x ->]. cbn [mbind option_bind].
  exists (ws rest). split; [|apply ws_ws]. rewrite opt_fails; [done|]. rewrite literal_law. eval_literals.
  destruct (ws rest) as [|c t]; [done|]. cbn in Hb2 |- *. destruct (Z.eqb_spec 40 c) as [<-|]; done.
Qed.

Lemma parses_dot : parses_at 0 LocationCounter (b ".").
Proof.
  intros fuel w rest Hw Hf [Hb1 Hb2]. destruct fuel as [|fuel]; [lia|]. rewrite primary_name by done.
  unfold parse_identifier_or_function. rewrite ident_parses; [|split; [done|by repeat constructor]|done].
  cbn [mbind option_bind]. rewrite decide_True by done. by exists rest.
Qed.

Lemma parses_number n s : number_token n s -> parses_at 0 (Number n) s.
Proof.
  intros Hn fuel w rest Hw Hf Hb. destruct fuel as [|fuel]; [lia|]. exists rest. split; [|done].
  pose proof (number_parses n s rest Hn Hb) as Hp. destruct (number_token_starts n s Hn) as (c & s' & -> & Hc). cbn [app] in *.
  rewrite primary_skips by (done || (intros ->; done) || (char_cases; lia)).
  rewrite !alt_cons_law, alt_nil_law, delimited_law. eval_literals. rewrite literal_fails by (intros <-; done).
  cbn [mbind option_bind]. by rewrite Hp.
Qed.

(** A word before an opening parenthesis is a call. *)
Lemma primary_call fuel w word w1 rest : spaces w -> is_ident word -> word <> b "." -> spaces w1 ->
  parse_unary (S fuel) (w ++ word ++ w1 ++ b "(" ++ rest)
  = parse_call (parse_logical_or fuel (parse_unary fuel)) word (ws rest).
Proof.
  intros Hw Hn Hd Hw1. rewrite primary_name by (done || apply Hn). unfold parse_identifier_or_function.
  rewrite ident_parses; [|done|].
  - cbn [mbind option_bind]. rewrite decide_False by done. destruct (multispace0_ws (w1 ++ b "(" ++ rest)) as [x ->].
    cbn [mbind option_bind]. rewrite ws_app, ws_id by done. rewrite (opt_parses _ _ (b "(") rest) by apply literal_parses.
    cbn [mbind option_bind]. destruct (multispace0_ws rest) as [y ->]. done.
  - destruct w1 as [|c w1]; [done|]. apply Forall_cons in Hw1 as [Hc%Is_true_true _]. by apply space_boundary.
Qed.

Lemma function_arg_parses w w' name rest : spaces w -> spaces w' -> is_ident name ->
  parse_function_arg (ws (w ++ name ++ w' ++ b ")" ++ rest)) = Some (name, rest).
Proof.
  intros Hw Hw' Hn. unfold parse_function_arg.
  assert (Hfirst : ws (w ++ name ++ w' ++ b ")" ++ rest) = name ++ w' ++ b ")" ++ rest).
  { rewrite ws_app by done. apply ws_id. destruct Hn as [Hs _]. destruct name as [|c name]; [done|].
    apply Is_true_true in Hs. by apply ident_start_other. }
  rewrite Hfirst. destruct (multispace0_ws (name ++ w' ++ b ")" ++ rest)) as [x ->]. cbn [mbind option_bind].
  rewrite <- Hfirst, ws_ws, Hfirst. rewrite ident_parses; [|done|].
  - cbn [mbind option_bind]. destruct (multispace0_ws (w' ++ b ")" ++ rest)) as [y ->]. cbn [mbind option_bind].
    rewrite ws_app, ws_id by done. by rewrite literal_parses.
  - destruct w' as [|c w']; [done|]. apply Forall_cons in Hw' as [Hc%Is_true_true _]. by apply space_boundary.
Qed.

Lemma parses_section sym f name w1 w2 w3 : In (sym, f) section_functions -> spaces w1 -> spaces w2 -> spaces w3 ->
  is_ident name -> parses_at 0 (f name) (b sym ++ w1 ++ b "(" ++ w2 ++ name ++ w3 ++ b ")").
Proof.
  intros Hin Hw1 Hw2 Hw3 Hn fuel w rest Hw Hf Hb. destruct fuel as [|fuel]; [lia|]. rewrite <- !app_assoc.
  exists rest. split; [|done]. unfold section_functions in Hin. in_cases Hin;
    (rewrite primary_call by first [done | split; [done|by repeat constructor]]; unfold parse_call;
     repeat (rewrite decide_False by done); rewrite decide_True by done; by rewrite function_arg_parses).
Qed.

Lemma parses_align w1 w2 w3 e s : spaces w1 -> spaces w2 -> spaces w3 -> grammar 9 e s -> parses_at 9 e s ->
  parses_at 0 (Align e) (b "ALIGN" ++ w1 ++ b "(" ++ w2 ++ s ++ w3 ++ b ")").
Proof.
  intros Hw1 Hw2 Hw3 Hg Hp fuel w rest Hw Hf Hb. destruct fuel as [|fuel]; [lia|]. rewrite <- !app_assoc in *.
  exists rest. split; [|done]. rewrite primary_call by first [done | split; [done|by repeat constructor]]. unfold parse_call.
  repeat (rewrite decide_False by done). rewrite decide_True by done.
  change (b ")" ++ rest) with (41 :: rest) in *. rewrite (operand_ws w2 s _ 9 e) by done.
  rewrite (parses_inside_nil e s fuel w3 41 rest Hp) by first [done | lengths Hf]. cbn [mbind option_bind].
  destruct (multispace0_ws (41 :: rest)) as [y ->]. cbn [mbind option_bind]. rewrite ws_id by done.
  change (b ")") with [41]. by rewrite literal_char.
Qed.

Lemma parses_pair sym f w1 w2 w3 w4 w5 e1 s1 e2 s2 : In (sym, f) pair_functions -> spaces w1 -> spaces w2 ->
  spaces w3 -> spaces w4 -> spaces w5 -> grammar 9 e1 s1 -> grammar 9 e2 s2 -> parses_at 9 e1 s1 -> parses_at 9 e2 s2 ->
  parses_at 0 (f e1 e2) (b sym ++ w1 ++ b "(" ++ w2 ++ s1 ++ w3 ++ b "," ++ w4 ++ s2 ++ w5 ++ b ")").
Proof.
  intros Hin Hw1 Hw2 Hw3 Hw4 Hw5 Hg1 Hg2 Hp1 Hp2 fuel w rest Hw Hf Hb. destruct fuel as [|fuel]; [lia|].
  rewrite <- !app_assoc in *. exists rest. split; [|done].
  change (b ")" ++ rest) with (41 :: rest) in *. change (b "," ++ w4 ++ s2 ++ w5 ++ 41 :: rest) with (44 :: w4 ++ s2 ++ w5 ++ 41 :: rest) in *.
  assert (H2 : parse_two (parse_logical_or fuel (parse_unary fuel)) (ws (w2 ++ s1 ++ w3 ++ 44 :: w4 ++ s2 ++ w5 ++ 41 :: rest))
               = Some ((e1, e2), rest)).
  { unfold parse_two. rewrite (operand_ws w2 s1 _ 9 e1) by done.
    rewrite (parses_inside_nil e1 s1 fuel w3 44 _ Hp1) by first [done | lengths Hf]. cbn [mbind option_bind].
    destruct (multispace0_ws (44 :: w4 ++ s2 ++ w5 ++ 41 :: rest)) as [y1 ->]. cbn [mbind option_bind]. rewrite ws_id by done.
    change (b ",") with [44]. rewrite literal_char. cbn [mbind option_bind].
    destruct (multispace0_ws (w4 ++ s2 ++ w5 ++ 41 :: rest)) as [y2 ->]. cbn [mbind option_bind].
    rewrite (operand_ws w4 s2 _ 9 e2) by done.
    rewrite (parses_inside_nil e2 s2 fuel w5 41 _ Hp2) by first [done | lengths Hf]. cbn [mbind option_bind].
    destruct (multispace0_ws (41 :: rest)) as [y3 ->]. cbn [mbind option_bind]. rewrite ws_id by done.
    change (b ")") with [41]. by rewrite literal_char. }
  unfold pair_functions in Hin. in_cases Hin;
    (rewrite primary_call by first [done | split; [done|by repeat constructor]]; unfold parse_call;
     repeat (rewrite decide_False by done); rewrite decide_True by done; by rewrite H2).
Qed.

Lemma grammar_parses j e s : grammar j e s -> parses_at j e s.
Proof.
  induction 1.
  - by apply parses_prefix.
  - by apply parses_paren.
  - by apply parses_number.
  - apply parses_dot.
  - by apply parses_name.
  - by apply parses_section.
  - by apply parses_align.
  - by apply parses_pair.
  - by apply parses_up.
  - by apply parses_infix.
Qed.

(** Parsing stops in front of a closing character. *)
Lemma grammar_expression e s w rest fuel : grammar 9 e s -> spaces w -> ends (ws rest) ->
  (List.length (w ++ s ++ rest) < fuel)%nat -> parse_expression fuel (w ++ s ++ rest) = Some (e, ws rest).
Proof.
  intros Hg Hw He Hf. unfold parse_expression. rewrite level_9.
  apply (parses_level 8 e s fuel w rest); [by apply grammar_parses|done|done|by apply ends_stops].
Qed.
End complete.

(** ** A text for every expression *)

(** Decimal digits, most significant first. *)
Fixpoint dec_digits (fuel : nat) (n : Z) : bytes :=
  match fuel with
  | O => []
  | S fuel => if n <? 10 then [48 + n] else dec_digits fuel (n / 10) ++ [48 + n mod 10]
  end.

(** The expression with every operation in parentheses. *)
Fixpoint show (e : Expression) : bytes :=
  let infix (sym : string) l r := (b "(" ++ show l ++ b sym ++ show r ++ b ")")%list in
  let call (f : string) args := (b f ++ b "(" ++ args ++ b ")")%list in
  match e with
  | Number n => dec_digits 20 n
  | Symbol name => name
  | LocationCounter => b "."
  | Add l r => infix "+" l r | Subtract l r => infix "-" l r
  | Multiply l r => infix "*" l r | Divide l r => infix "/" l r
  | LessThan l r => infix "<" l r | GreaterThan l r => infix ">" l r
  | LessEqual l r => infix "<=" l r | GreaterEqual l r => infix ">=" l r
  | Equal l r => infix "==" l r | NotEqual l r => infix "!=" l r
  | Sizeof name => call "SIZEOF" name | Alignof name => call "ALIGNOF" name
  | Origin name => call "ORIGIN" name | Length name => call "LENGTH" name
  | Addr name => call "ADDR" name | Loadaddr name => call "LOADADDR" name
  | Align e => call "ALIGN" (show e)
  | Min l r => call "MIN" (show l ++ b "," ++ show r)%list | Max l r => call "MAX" (show l ++ b "," ++ show r)%list
  | BitwiseAnd l r => infix "&" l r | BitwiseOr l r => infix "|" l r | BitwiseXor l r => infix "^" l r
  | LeftShift l r => infix "<<" l r | RightShift l r => infix ">>" l r
  | LogicalAnd l r => infix "&&" l r | LogicalOr l r => infix "||" l r
  | LogicalNot e => (b "!" ++ show e)%list | BitwiseNot e => (b "~" ++ show e)%list | Negate e => (b "-" ++ show e)%list
  end%string.

(** The expressions a text can stand for: 64-bit numbers, and names that are words, the
    dot alone being the location counter. *)
Fixpoint printable (e : Expression) : Prop :=
  match e with
  | Number n => is_uint 64 n
  | Symbol name => is_ident name /\ name <> b "."
  | LocationCounter => True
  | Sizeof name | Alignof name | Origin name | Length name | Addr name | Loadaddr name => is_ident name
  | Add l r | Subtract l r | Multiply l r | Divide l r | LessThan l r | GreaterThan l r
  | LessEqual l r | GreaterEqual l r | Equal l r | NotEqual l r | Min l r | Max l r
  | BitwiseAnd l r | BitwiseOr l r | BitwiseXor l r | LeftShift l r | RightShift l r
  | LogicalAnd l r | LogicalOr l r => printable l /\ printable r
  | Align e | LogicalNot e | BitwiseNot e | Negate e => printable e
  end.

Lemma number_value_snoc base ds d : number_value base (ds ++ [d]) = number_value base ds * base + digit_value d.
Proof. unfold number_value. by rewrite foldl_app. Qed.

Lemma digit_char d : 0 <= d < 10 -> is_digit (48 + d) = true /\ digit_value (48 + d) = d.
Proof. intros H. assert (Hd : is_digit (48 + d) = true) by (unfold is_digit; lia). unfold digit_value. rewrite Hd. split; [done|lia]. Qed.

Lemma dec_digits_ok fuel n : 0 <= n < 10 ^ Z.of_nat fuel -> (0 < fuel)%nat ->
  Forall is_digit (dec_digits fuel n) /\ dec_digits fuel n <> [] /\ number_value 10 (dec_digits fuel n) = n /\
  (hd 0 (dec_digits fuel n) = 48 -> dec_digits fuel n = [48]).
Proof.
  revert n. induction fuel as [|fuel IH]; intros n Hn Hf; [lia|]. cbn [dec_digits]. destruct (Z.ltb_spec n 10) as [Hlt|Hge].
  - destruct (digit_char n) as [Hd Hv]; [lia|]. split_and!; [|done|unfold number_value; cbn [foldl]; by rewrite Hv|cbn; intros; f_equal; lia].
    constructor; [by rewrite Hd|done].
  - destruct (IH (n / 10)) as (Hd & Hne & Hv & Hz).
    + rewrite Nat2Z.inj_succ, Z.pow_succ_r in Hn by lia. split; [apply Z.div_pos; lia|apply Z.div_lt_upper_bound; lia].
    + destruct fuel; [cbn in Hn; lia|lia].
    + pose proof (Z.mod_pos_bound n 10). destruct (digit_char (n mod 10)) as [Hd' Hv']; [lia|].
      pose proof (Z.div_mod n 10). split_and!.
      * apply Forall_app. split; [done|]. constructor; [by rewrite Hd'|done].
      * by destruct (dec_digits fuel (n / 10)).
      * rewrite number_value_snoc, Hv, Hv'. lia.
      * intros H48. exfalso. destruct (dec_digits fuel (n / 10)) as [|d ds]; [done|]. cbn in H48, Hz. specialize (Hz H48).
        injection Hz as -> ->. unfold number_value in Hv. cbn in Hv. assert (1 <= n / 10) by (apply Z.div_le_lower_bound; lia). lia.
Qed.

Lemma grammar_le i j e s : (i <= j)%nat -> (j <= 9)%nat -> grammar i e s -> grammar j e s.
Proof. induction 1 as [|j Hij IH]; [done|]. intros Hj Hg. apply g_up; [lia|]. apply IH; [lia|done]. Qed.

Lemma spaces_nil : spaces [].
Proof. constructor. Qed.
#[local] Hint Resolve spaces_nil : core.

Lemma grammar_infix_paren j sym op l r : In (sym, op) (symbols j) -> (j < 9)%nat -> grammar 0 l (show l) -> grammar 0 r (show r) ->
  grammar 0 (op l r) (b "(" ++ show l ++ b sym ++ show r ++ b ")").
Proof.
  intros Hin Hj Hl Hr. replace (b "(" ++ show l ++ b sym ++ show r ++ b ")")
    with (b "(" ++ [] ++ (show l ++ [] ++ b sym ++ [] ++ show r) ++ [] ++ b ")") by (cbn [app]; by rewrite <- !app_assoc).
  apply g_paren; [done..|]. apply (grammar_le (S j)); [lia|done|].
  apply (g_infix j); [done..| |by apply (grammar_le 0); [lia..|]]. case_decide; (apply (grammar_le 0); [lia..|done]).
Qed.

Lemma grammar_section sym f name : In (sym, f) section_functions -> is_ident name ->
  grammar 0 (f name) (b sym ++ b "(" ++ name ++ b ")").
Proof. intros Hin Hn. exact (g_section sym f name [] [] [] Hin spaces_nil spaces_nil spaces_nil Hn). Qed.

Lemma grammar_pair sym f l r : In (sym, f) pair_functions -> grammar 0 l (show l) -> grammar 0 r (show r) ->
  grammar 0 (f l r) (b sym ++ b "(" ++ (show l ++ b "," ++ show r) ++ b ")").
Proof.
  intros Hin Hl Hr. rewrite <- app_assoc. change ((b "," ++ show r) ++ b ")") with (b "," ++ show r ++ b ")").
  apply (g_pair sym f [] [] [] [] [] l (show l) r (show r)); try done; (apply (grammar_le 0); [lia..|done]).
Qed.

Lemma grammar_show e : printable e -> grammar 0 e (show e).
Proof.
  induction e; cbn [printable show]; intros He;
    try (match type of He with _ /\ _ => destruct He as [Hl Hr] end;
         first [ apply (grammar_infix_paren 0); [cbn; tauto|lia|by auto..] | apply (grammar_infix_paren 1); [cbn; tauto|lia|by auto..]
               | apply (grammar_infix_paren 2); [cbn; tauto|lia|by auto..] | apply (grammar_infix_paren 3); [cbn; tauto|lia|by auto..]
               | apply (grammar_infix_paren 4); [cbn; tauto|lia|by auto..] | apply (grammar_infix_paren 5); [cbn; tauto|lia|by auto..]
               | apply (grammar_infix_paren 6); [cbn; tauto|lia|by auto..] | apply (grammar_infix_paren 7); [cbn; tauto|lia|by auto..]
               | apply (grammar_infix_paren 8); [cbn; tauto|lia|by auto..] | apply grammar_pair; [cbn; tauto|by auto..] ]);
    try (apply grammar_section; [cbn; tauto|done]);
    try (apply (g_prefix _ _ []); [cbn; tauto|done|by auto]).
  - unfold is_uint in He. destruct (dec_digits_ok 20 n) as (Hd & Hne & Hv & Hz); [cbn; lia|lia|].
    pose proof (decimal (dec_digits 20 n) None Hd Hne Hz) as Ht. rewrite Hv in Ht. cbn [scale] in Ht.
    apply g_number. rewrite <- (app_nil_r (dec_digits 20 n)). apply Ht; [lia|done].
  - by apply g_symbol; destruct He.
  - apply g_dot.
  - apply (g_align [] [] [] e (show e)); [done..|]. apply (grammar_le 0); [lia..|by auto].
Qed.

(** ** Properties *)

(** C25. Parsing an expression ends.  The answer for an input does not depend on the
    fuel once this exceeds the length of the input, so a failure then is the
    parser's and not the fuel's; and what is parsed is taken off the input. *)
Theorem parse_fuel_enough {W : Winnow} {L : WinnowLaws} input fuel :
  (List.length input < fuel)%nat ->
  parse_expression fuel input = parse_expression (S (List.length input)) input /\
  (forall e rest, parse_expression fuel input = Some (e, rest) -> (List.length rest <= List.length input)%nat).
Proof.
  intros Hf. split; [apply (expression_agree (S (List.length input))); lia|].
  intros e rest H. unfold parse_expression in H. rewrite level_9 in H.
  by apply level_keeps in H; [|apply shrinks_keeps, unary_shrinks].
Qed.

(** C23. The parser implements the grammar.  A text of the grammar, with spaces before
    it and a closing character or the end of the input after it, is parsed to the
    expression that it stands for, by the precedence of the operators and their
    association to the left, and no text stands for two expressions. *)
Theorem parse_complete {W : Winnow} {L : WinnowLaws} e s w rest fuel :
  grammar 9 e s -> spaces w -> ends (ws rest) -> (List.length (w ++ s ++ rest) < fuel)%nat ->
  parse_expression fuel (w ++ s ++ rest) = Some (e, ws rest) /\
  forall e', grammar 9 e' s -> e' = e.
Proof.
  intros Hg Hw He Hf. pose proof (grammar_expression e s w rest fuel Hg Hw He Hf) as Hp. split; [done|].
  intros e' Hg'. pose proof (grammar_expression e' s w rest fuel Hg' Hw He Hf) as Hp'. congruence.
Qed.

(** C24. Every expression over 64-bit numbers and well-formed names survives printing
    and parsing: its text with every operation in parentheses is parsed to the
    expression again, whatever closing character follows. *)
Theorem show_parses {W : Winnow} {L : WinnowLaws} e rest :
  printable e -> ends rest ->
  parse_expression (S (List.length (show e ++ rest))) (show e ++ rest) = Some (e, rest).
Proof.
  intros He Hr. assert (Hws : ws rest = rest).
  { apply ws_id. destruct rest as [|c t]; [done|]. by destruct (closer_cases c Hr) as [->|[->|[->| ->]]]. }
  pose proof (grammar_expression e (show e) [] rest (S (List.length (show e ++ rest)))) as H. rewrite Hws in H.
  apply H; [|done|done|cbn [app]; lia]. apply (grammar_le 0); [lia..|]. by apply grammar_show.
Qed.

(** ** Witnesses

    A parser library with the documented behaviour. *)

Definition plain_alt {A} (ps : list (parser A)) : parser A :=
  fun i => foldr (fun p r => match p i with Some x => Some x | None => r end) None ps.

(** Decimal: a zero stands alone. *)
Definition plain_dec : parser Z := fun i =>
  match span is_digit i with
  | ([], _) => None
  | (48 :: ds, r) => Some (0, ds ++ r)
  | (ds, r) => if number_value 10 ds <? 2 ^ 64 then Some (number_value 10 ds, r) else None
  end.
Definition plain_hex : parser Z := fun i =>
  match span is_hex_digit i with
  | ([], _) => None
  | (ds, r) => if len ds <=? 16 then Some (number_value 16 ds, r) else None
  end.

#[export] Instance plain_winnow : Winnow := {|
  literal t i := pair t <$> strip t i;
  multispace0 i := Some (span is_space i);
  take_while1 f i := match span f i with ([], _) => None | sr => Some sr end;
  one_of cs i := match i with c :: r => if bool_decide (c ∈ cs) then Some (c, r) else None | [] => None end;
  hex_uint := plain_hex;
  dec_uint := plain_dec;
  opt _ p i := match p i with Some (x, r) => Some (Some x, r) | None => Some (None, i) end;
  not_followed _ p i := match p i with Some _ => None | None => Some ((), i) end;
  alt _ ps := plain_alt ps;
  tuple _ _ p q i := '(x, i) ← p i; '(y, i) ← q i; Some ((x, y), i);
  pmap _ _ f p i := '(x, i) ← p i; Some (f x, i);
  verify _ f p i := '(x, r) ← p i; if f x then Some (x, r) else None;
  preceded _ _ p q i := '(_, i) ← p i; q i;
  delimited _ _ _ p q r i := '(_, i) ← p i; '(x, i) ← q i; '(_, i) ← r i; Some (x, i);
|}.

#[export] Instance plain_winnow_laws : WinnowLaws.
Proof.
  split; try done.
  - intros ds i Hd Hne Hz Hmax Hi. cbn. unfold plain_dec. rewrite span_all by done. destruct ds as [|d ds]; [done|].
    destruct (decide (d = 48)) as [-> | Hn]; [by injection (Hz eq_refl) as ->|].
    replace (number_value 10 (d :: ds) <? 2 ^ 64) with true by lia.
    destruct d as [|p|p]; try done. repeat (destruct p as [p|p|]; try done).
  - intros i n r. cbn. unfold plain_dec. pose proof (span_app is_digit i) as Hs.
    assert (Hf : forall d ds t, span is_digit i = (d :: ds, t) -> is_digit d = true).
    { intros d ds t E. destruct i as [|c i]; [done|]. cbn in E. destruct (is_digit c) eqn:Ec; [|done].
      destruct (span is_digit i). by injection E as -> _ _. }
    destruct (span is_digit i) as [[|d ds] t] eqn:E; [done|]. specialize (Hf d ds t eq_refl). subst i.
    intros H. exists d. destruct (decide (d = 48)) as [-> | Hn].
    + injection H as <- <-. by exists [].
    + exists ds. split; [|done]. cbn. f_equal. f_equal.
      destruct d as [|p|p]; try done. repeat (destruct p as [p|p|]; try done); by case_match; simplify_eq.
  - intros ds i Hd Hne Hl Hi. cbn. unfold plain_hex. rewrite span_all by done. destruct ds as [|d ds]; [done|].
    by replace (len (d :: ds) <=? 16) with true by lia.
  - intros i n r. cbn. unfold plain_hex. pose proof (span_app is_hex_digit i) as Hs.
    assert (Hf : forall d ds t, span is_hex_digit i = (d :: ds, t) -> is_hex_digit d = true).
    { intros d ds t E. destruct i as [|c i]; [done|]. cbn in E. destruct (is_hex_digit c) eqn:Ec; [|done].
      destruct (span is_hex_digit i). by injection E as -> _ _. }
    destruct (span is_hex_digit i) as [[|d ds] t] eqn:E; [done|]. specialize (Hf d ds t eq_refl). subst i.
    case_match; [|done]. intros [= <- <-]. by exists d, ds.
Qed.

(** The tests of the module on precedence and suffixes. *)
Definition parsed (s : string) : option (Expression * bytes) := parse_expression (S (List.length (b s))) (b s).

Example parse_tests :
  parsed "1 + 2 * 3 == 7" = Some (Equal (Add (Number 1) (Multiply (Number 2) (Number 3))) (Number 7), []) /\
  parsed "0xFF & 0x0F == 0x0F" = Some (Equal (BitwiseAnd (Number 255) (Number 15)) (Number 15), []) /\
  parsed "~0xFF & 4K)" = Some (BitwiseAnd (BitwiseNot (Number 255)) (Number 4096), b ")") /\
  parsed "1 == 2 == 3" = Some (Equal (Number 1) (Number 2), b "== 3") /\
  parsed "MIN(SIZEOF(.text), a), x" = Some (Min (Sizeof (b ".text")) (Symbol (b "a")), b ", x") /\
  parsed "(1" = None.
Proof. split_and!; vm_compute; reflexivity. Qed.

Definition example_sum : Expression := Add (Negate (Number 18446744073709551615)) (Origin (b "rom")).

Lemma parse_fuel_enough_witness :
  parse_expression 100 (b "1-2-3") = parse_expression 6 (b "1-2-3") /\
  (forall e rest, parse_expression 100 (b "1-2-3") = Some (e, rest) -> (List.length rest <= 5)%nat).
Proof. apply (parse_fuel_enough (b "1-2-3") 100). vm_compute. lia. Defined.

Lemma parse_complete_witness :
  parse_expression 12 (b " 1- 2 -3 ,m") = Some (Subtract (Subtract (Number 1) (Number 2)) (Number 3), b ",m") /\
  forall e', grammar 9 e' (b "1- 2 -3") -> e' = Subtract (Subtract (Number 1) (Number 2)) (Number 3).
Proof.
  apply (parse_complete (Subtract (Subtract (Number 1) (Number 2)) (Number 3)) (b "1- 2 -3") (b " ") (b " ,m") 12).
  - assert (Hn : forall d, 1 <= d < 10 -> grammar 1 (Number d) [48 + d]).
    { intros d Hd. apply (grammar_le 0); [lia..|]. apply g_number. destruct (digit_char d) as [H1 H2]; [lia|].
      assert (Hv : number_value 10 [48 + d] = d) by (unfold number_value; cbn [foldl]; lia).
      rewrite <- Hv at 1. apply (decimal [48 + d] None); [by repeat constructor; rewrite H1|done|cbn; lia|lia|done]. }
    apply (grammar_le 2); [lia..|].
    apply (g_infix 1 "-" Subtract (b " ") [] _ (b "1- 2") _ (b "3")); [cbn; tauto|by repeat constructor|done| |by apply (Hn 3)].
    apply (g_infix 1 "-" Subtract [] (b " ") _ (b "1") _ (b "2")); [cbn; tauto|done|by repeat constructor| |by apply (Hn 2)].
    apply g_up; [lia|]. by apply (Hn 1).
  - by repeat constructor.
  - done.
  - vm_compute. lia.
Defined.

Lemma show_parses_witness :
  parse_expression (S (List.length (show example_sum ++ b ")"))) (show example_sum ++ b ")") = Some (example_sum, b ")").
Proof.
  apply (show_parses example_sum (b ")")); [|done]. split; [|split; [done|by repeat constructor]].
  cbn [printable]. unfold is_uint. lia.
Defined.
