(* ===== verification/ValueFlags.v ===== *)
(** The flags of a symbol ([libwild/src/value_flags.rs]) and the kind of output
    ([libwild/src/output_kind.rs]), with the concurrent update of the flags: many
    threads call [AtomicValueFlags::fetch_or] on one symbol, and the one that sees
    no resolution flag set is the one that requests the symbol.  The operations are
    relaxed but all on one location, so they are steps of one interleaving. *)
From stdpp Require Import base numbers list relations.
From S2P Require Import Prelude RelocInfo.
Open Scope Z_scope.

(** ** Bits *)

Definition ABSOLUTE : Z := Z.shiftl 1 0.
Definition DYNAMIC : Z := Z.shiftl 1 1.
Definition IFUNC : Z := Z.shiftl 1 2.
Definition NON_INTERPOSABLE : Z := Z.shiftl 1 3.
Definition DOWNGRADE_TO_LOCAL : Z := Z.shiftl 1 4.
Definition FUNCTION : Z := Z.shiftl 1 5.
Definition DIRECT : Z := Z.shiftl 1 6.
Definition GOT : Z := Z.shiftl 1 7.
Definition PLT : Z := Z.shiftl 1 8.
Definition GOT_TLS_MODULE : Z := Z.shiftl 1 9.
Definition GOT_TLS_OFFSET : Z := Z.shiftl 1 10.
Definition GOT_TLS_DESCRIPTOR : Z := Z.shiftl 1 11.
Definition EXPORT_DYNAMIC : Z := Z.shiftl 1 12.
Definition COPY_RELOCATION : Z := Z.shiftl 1 13.
Definition IFUNC_GOT_FOR_ADDRESS : Z := Z.shiftl 1 14.

(** [ValueFlags::contains], for [u16] bit sets. *)
Definition contains (flags other : Z) : bool := Z.land flags other =? other.

Definition merge (flags other : Z) : Z :=
  if contains other NON_INTERPOSABLE then Z.lor flags NON_INTERPOSABLE else flags.

Definition RESOLUTION_FLAGS : Z :=
  Z.lor DIRECT (Z.lor GOT (Z.lor PLT (Z.lor GOT_TLS_MODULE (Z.lor GOT_TLS_OFFSET
    (Z.lor GOT_TLS_DESCRIPTOR (Z.lor EXPORT_DYNAMIC (Z.lor COPY_RELOCATION IFUNC_GOT_FOR_ADDRESS))))))).

(** [self.intersection(..)]. *)
Definition resolution_part (flags : Z) : Z := Z.land flags RESOLUTION_FLAGS.
Definition has_resolution (flags : Z) : bool := negb (resolution_part flags =? 0).

Definition is_dynamic (flags : Z) : bool := contains flags DYNAMIC.
Definition is_ifunc (flags : Z) : bool := contains flags IFUNC.
Definition is_absolute (flags : Z) : bool := contains flags ABSOLUTE.
Definition is_address (flags : Z) : bool :=
  negb (contains flags IFUNC) && negb (contains flags DYNAMIC) && negb (contains flags ABSOLUTE).
Definition is_function (flags : Z) : bool := contains flags FUNCTION.
Definition is_downgraded_to_local (flags : Z) : bool := contains flags DOWNGRADE_TO_LOCAL.
Definition is_interposable (flags : Z) : bool := negb (contains flags NON_INTERPOSABLE).
Definition needs_direct (flags : Z) : bool := contains flags DIRECT.
Definition needs_copy_relocation (flags : Z) : bool := contains flags COPY_RELOCATION.
Definition needs_export_dynamic (flags : Z) : bool := contains flags EXPORT_DYNAMIC.
Definition needs_got (flags : Z) : bool := contains flags GOT.
Definition needs_plt (flags : Z) : bool := contains flags PLT.
Definition needs_got_tls_offset (flags : Z) : bool := contains flags GOT_TLS_OFFSET.
Definition needs_got_tls_module (flags : Z) : bool := contains flags GOT_TLS_MODULE.
Definition needs_got_tls_descriptor (flags : Z) : bool := contains flags GOT_TLS_DESCRIPTOR.
Definition needs_ifunc_got_for_address (flags : Z) : bool := contains flags IFUNC_GOT_FOR_ADDRESS.
Definition is_tls_symbol (flags : Z) : bool :=
  contains flags GOT_TLS_OFFSET || contains flags GOT_TLS_MODULE || contains flags GOT_TLS_DESCRIPTOR.

(** [resolution_flags] of [libwild/src/layout.rs]: what a relocation asks of its symbol. *)
Definition resolution_flags (k : RelocationKind) : Z :=
  match k with
  | PltRelative | PltRelGotBase => Z.lor PLT GOT
  | Got | GotRelGotBase | GotRelative | GotRelativeLoongArch64 => GOT
  | GotTpOff | GotTpOffLoongArch64 | GotTpOffGot | GotTpOffGotBase => GOT_TLS_OFFSET
  | TlsGd | TlsGdGot | TlsGdGotBase => GOT_TLS_MODULE
  | TlsDesc | TlsDescLoongArch64 | TlsDescGot | TlsDescGotBase | TlsDescCall => GOT_TLS_DESCRIPTOR
  | TlsLd | TlsLdGot | TlsLdGotBase => 0
  | Absolute | AbsoluteSet | AbsoluteSetWord6 | AbsoluteAddition | AbsoluteAdditionWord6
  | AbsoluteSubtraction | AbsoluteSubtractionWord6 | Relative | RelativeRiscVLow12
  | RelativeLoongArchHigh | DtpOff | TpOff | SymRelGotBase | PairSubtractionULEB128 _ => DIRECT
  | KNone | AbsoluteLowPart | Alignment => 0
  end.

(** ** The kind of output *)

Inductive RelocationModel := NonRelocatable | Relocatable.
Inductive OutputKind :=
| StaticExecutable (m : RelocationModel) | DynamicExecutable (m : RelocationModel) | SharedObject | RelocatableObject.

#[export] Instance RelocationModel_eq_dec : EqDecision RelocationModel.
Proof. solve_decision. Defined.

(** [OutputKind::new], over what the arguments and the inputs say. *)
Definition new_output_kind (model : RelocationModel) (output_executable partial_object dynamic_linker has_dynamic : bool)
  : OutputKind :=
  if negb output_executable then (if partial_object then RelocatableObject else SharedObject)
  else if dynamic_linker && bool_decide (model = Relocatable) then DynamicExecutable model
  else if has_dynamic then DynamicExecutable model
  else StaticExecutable model.

Definition is_executable (o : OutputKind) : bool :=
  match o with SharedObject | RelocatableObject => false | _ => true end.
Definition is_shared_object (o : OutputKind) : bool := match o with SharedObject => true | _ => false end.
Definition is_static_executable (o : OutputKind) : bool := match o with StaticExecutable _ => true | _ => false end.
Definition is_relocatable (o : OutputKind) : bool :=
  match o with
  | StaticExecutable Relocatable | DynamicExecutable Relocatable | SharedObject | RelocatableObject => true
  | _ => false
  end.
Definition needs_dynsym (o : OutputKind) : bool :=
  match o with DynamicExecutable _ | SharedObject | StaticExecutable Relocatable => true | _ => false end.
Definition needs_dynamic (o : OutputKind) : bool :=
  match o with StaticExecutable NonRelocatable | RelocatableObject => false | _ => true end.

(** ** Concurrent updates *)

(** A call of [fetch_or]: not yet loaded, loaded with some bit missing, or returned with the flags it saw. *)
Inductive call := Started (f : Z) | Slow (f : Z) | Returned (f previous : Z).

Record shared := mkShared { sh_flags : Z; sh_calls : list call }.

(** One atomic operation of call [i]. *)
Definition call_step (i : nat) (s : shared) : option shared :=
  match sh_calls s !! i with
  | Some (Started f) =>
      if contains (sh_flags s) f
      then Some (mkShared (sh_flags s) (<[i := Returned f (sh_flags s)]> (sh_calls s)))
      else Some (mkShared (sh_flags s) (<[i := Slow f]> (sh_calls s)))
  | Some (Slow f) =>
      Some (mkShared (Z.lor (sh_flags s) f) (<[i := Returned f (sh_flags s)]> (sh_calls s)))
  | _ => None
  end.

(** The steps of all threads.  Other code sets or clears flags outside [mask]
    ([or_assign], [remove]). *)
Inductive step (mask : Z) : shared -> shared -> Prop :=
| step_call i s s' : call_step i s = Some s' -> step mask s s'
| step_other s flags : Z.land flags mask = Z.land (sh_flags s) mask ->
    step mask s (mkShared flags (sh_calls s)).

(** A schedule: which call moves next, or what other code makes of the flags. *)
Inductive event := Run (i : nat) | Other (flags : Z).

Definition exec (mask : Z) (e : event) (s : shared) : shared :=
  match e with
  | Run i => match call_step i s with Some s' => s' | None => s end
  | Other flags => mkShared (Z.lor (Z.land (sh_flags s) mask) (Z.ldiff flags mask)) (sh_calls s)
  end.

Definition turns (i : nat) (es : list event) : nat :=
  length (List.filter (fun e => match e with Run j => bool_decide (i = j) | Other _ => false end) es).

(** A returned call that asked for a flag of [mask], and one that saw none set. *)
Definition asked (mask : Z) (c : call) : bool :=
  match c with Returned f _ => negb (Z.land f mask =? 0) | _ => false end.
Definition activates (mask : Z) (c : call) : bool :=
  match c with Returned f previous => negb (Z.land f mask =? 0) && (Z.land previous mask =? 0) | _ => false end.
Definition returned (c : call) : bool := match c with Returned _ _ => true | _ => false end.
Definition started (c : call) : bool := match c with Started _ => true | _ => false end.

Definition activations (mask : Z) (s : shared) : nat := length (List.filter (activates mask) (sh_calls s)).

(** ** One activation *)

Lemma land_lor_zero a b m : Z.land (Z.lor a b) m = 0 <-> Z.land a m = 0 /\ Z.land b m = 0.
Proof. rewrite Z.land_lor_distr_l. apply Z.lor_eq_0_iff. Qed.

Lemma contains_land_zero a f m : contains a f = true -> Z.land a m = 0 -> Z.land f m = 0.
Proof.
  unfold contains. intros <-%Z.eqb_eq Ha.
  by rewrite <- Z.land_assoc, (Z.land_comm f), Z.land_assoc, Ha, Z.land_0_l.
Qed.

Lemma existsb_replace {A} (p : A -> bool) (l : list A) i x y : l !! i = Some x -> p x = false ->
  existsb p (<[i := y]> l) = p y || existsb p l.
Proof.
  revert i. induction l as [|a l IH]; intros [|i]; try done.
  - cbn. by intros [= ->] ->.
  - intros Hx Hp. change (<[S i:=y]> (a :: l)) with (a :: <[i:=y]> l). cbn [existsb].
    rewrite (IH _ Hx Hp). by destruct (p a), (p y).
Qed.

Lemma filter_replace {A} (p : A -> bool) (l : list A) i x y : l !! i = Some x -> p x = false ->
  length (List.filter p (<[i := y]> l)) = ((if p y then 1 else 0) + length (List.filter p l))%nat.
Proof.
  revert i. induction l as [|a l IH]; intros [|i]; try done.
  - cbn. intros [= ->] ->. by destruct (p y).
  - intros Hx Hp. change (<[S i:=y]> (a :: l)) with (a :: <[i:=y]> l). cbn [List.filter].
    destruct (p a); cbn [length]; rewrite (IH _ Hx Hp); by destruct (p y).
Qed.

(** The flags of [mask] are set once a call that asked for one has returned, by one activation. *)
Definition activated_once (mask : Z) (s : shared) : Prop :=
  (Z.land (sh_flags s) mask =? 0) = negb (existsb (asked mask) (sh_calls s)) /\
  activations mask s = (if existsb (asked mask) (sh_calls s) then 1 else 0)%nat.

Lemma activated_once_start mask s :
  Z.land (sh_flags s) mask = 0 -> forallb started (sh_calls s) = true -> activated_once mask s.
Proof.
  intros Hz Hs. unfold activated_once, activations. rewrite Hz. cbn.
  induction (sh_calls s) as [|c l IH]; [done|]. cbn in Hs. apply andb_true_iff in Hs as [Hc Hs].
  destruct c; try done. cbn. by apply IH.
Qed.

Lemma activated_once_step mask s s' : step mask s s' -> activated_once mask s -> activated_once mask s'.
Proof.
  unfold activated_once, activations. intros [i s1 s2 Hstep|s1 flags Hf] [Hz Hn].
  - unfold call_step in Hstep. destruct (sh_calls s1 !! i) as [[f|f|f p]|] eqn:Hi; [| |done..].
    + destruct (contains (sh_flags s1) f) eqn:Hc; injection Hstep as <-; cbn [sh_flags sh_calls].
      * rewrite (existsb_replace _ _ _ _ _ Hi) by done. rewrite (filter_replace _ _ _ _ _ Hi) by done. cbn.
        destruct (Z.eqb_spec (Z.land (sh_flags s1) mask) 0) as [E|E].
        -- rewrite (contains_land_zero _ _ _ Hc E). cbn. by rewrite <- Hz, Hn.
        -- rewrite andb_false_r. symmetry in Hz. apply negb_false_iff in Hz. rewrite Hz in *.
           by rewrite orb_true_r, Hn.
      * by rewrite (existsb_replace _ _ _ _ _ Hi), (filter_replace _ _ _ _ _ Hi) by done.
    + injection Hstep as <-; cbn [sh_flags sh_calls].
      rewrite (existsb_replace _ _ _ _ _ Hi), (filter_replace _ _ _ _ _ Hi) by done. cbn.
      pose proof (land_lor_zero (sh_flags s1) f mask) as Hl.
      rewrite Hn. destruct (existsb (asked mask) (sh_calls s1)), (Z.eqb_spec (Z.land (sh_flags s1) mask) 0);
        cbn in Hz; try discriminate Hz;
        destruct (Z.eqb_spec (Z.land (Z.lor (sh_flags s1) f) mask) 0), (Z.eqb_spec (Z.land f mask) 0); cbn; tauto.
  - cbn [sh_flags sh_calls]. by rewrite Hf.
Qed.

(** C18. [AtomicValueFlags::fetch_or] activates a symbol once.  Whatever the interleaving of the calls
    with each other and with updates of other flags, when no flag of [mask] is set at first, exactly
    one of the returned calls that asked for a flag of [mask] saw none set (none, when no such call
    has returned): the thread that is to request the symbol. *)
Theorem fetch_or_activates_once mask s s' :
  Z.land (sh_flags s) mask = 0 -> forallb started (sh_calls s) = true -> rtc (step mask) s s' ->
  activations mask s' = (if existsb (asked mask) (sh_calls s') then 1 else 0)%nat.
Proof.
  intros Hz Hs Hr. pose proof (activated_once_start _ _ Hz Hs) as Hi. clear Hz Hs.
  induction Hr as [s|s1 s2 s3 H12 _ IH]; [apply Hi|]. by apply IH, (activated_once_step _ _ _ H12).
Qed.

(** Two threads both find the flags empty; the second to update sees the first's bit. *)
Lemma fetch_or_activates_once_witness :
  activations RESOLUTION_FLAGS (mkShared (Z.lor GOT DIRECT) [Returned GOT 0; Returned DIRECT GOT]) = 1%nat.
Proof.
  apply (fetch_or_activates_once RESOLUTION_FLAGS (mkShared 0 [Started GOT; Started DIRECT])); [reflexivity|reflexivity|].
  eapply rtc_l; [apply (step_call _ 0%nat); vm_compute; reflexivity|].
  eapply rtc_l; [apply (step_call _ 1%nat); vm_compute; reflexivity|].
  eapply rtc_l; [apply (step_call _ 0%nat); vm_compute; reflexivity|].
  eapply rtc_l; [apply (step_call _ 1%nat); vm_compute; reflexivity|].
  apply rtc_refl.
Defined.

(** ** Wait-freedom *)

Definition steps_left (c : call) : nat := match c with Started _ => 2 | Slow _ => 1 | Returned _ _ => 0 end.

Lemma exec_lookup mask e s i c : sh_calls s !! i = Some c ->
  exists c', sh_calls (exec mask e s) !! i = Some c' /\ (steps_left c' + turns i [e] <= steps_left c \/ steps_left c' = 0)%nat.
Proof.
  intros Hi. destruct e as [j|flags]; cbn [exec]; [|exists c; cbn; split; [done|lia]].
  unfold turns. cbn. destruct (decide (i = j)) as [->|Hne].
  - rewrite bool_decide_true by done. unfold call_step. rewrite Hi.
    assert (Hlt : (j < length (sh_calls s))%nat) by by eapply lookup_lt_Some.
    destruct c as [f|f|f p]; [destruct (contains (sh_flags s) f)| |].
    all: try (cbn [sh_calls]; rewrite list_lookup_insert_eq by done; eexists; split; [done|cbn; lia]).
    exists (Returned f p). split; [done|by right].
  - rewrite bool_decide_false by done. exists c. split; [|cbn; lia]. unfold call_step.
    destruct (sh_calls s !! j) as [[f|f|f p]|]; [destruct (contains (sh_flags s) f)| | |]; cbn [sh_calls];
      try done; by rewrite list_lookup_insert_ne.
Qed.

Lemma call_returns mask es s i : (i < length (sh_calls s))%nat -> (2 <= turns i es)%nat ->
  exists c, sh_calls (foldl (fun s e => exec mask e s) s es) !! i = Some c /\ returned c = true.
Proof.
  intros [c Hc]%lookup_lt_is_Some Ht.
  assert (Hl : (steps_left c <= turns i es)%nat) by (destruct c; cbn; lia). clear Ht.
  revert s c Hc Hl. induction es as [|e es IH]; intros s c Hc Hl.
  - exists c. split; [done|]. by destruct c; cbn in Hl; try lia.
  - destruct (exec_lookup mask e s i c Hc) as (c' & Hc' & Hs). cbn [foldl]. apply (IH _ c' Hc').
    assert (turns i (e :: es) = turns i [e] + turns i es)%nat as Hsum.
    { unfold turns. cbn. by destruct e as [j|]; [destruct (bool_decide (i = j))|]. }
    lia.
Qed.

(** ** One call after the other *)

(** The flags of [mask] that each call sees when the calls follow each other. *)
Fixpoint one_by_one (mask flags : Z) (fs : list Z) : list Z :=
  match fs with [] => [] | f :: fs => Z.land flags mask :: one_by_one mask (Z.lor flags f) fs end.

Definition has_returned (s : shared) (i : nat) : bool := match sh_calls s !! i with Some c => returned c | None => false end.

(** The calls that return along a schedule, in the order in which they do. *)
Fixpoint return_order (mask : Z) (es : list event) (s : shared) : list nat :=
  match es with
  | [] => []
  | e :: es =>
      let s' := exec mask e s in
      match e with
      | Run i => if negb (has_returned s i) && has_returned s' i then i :: return_order mask es s' else return_order mask es s'
      | Other _ => return_order mask es s'
      end
  end.

#[local] Abbreviation schedule mask es start := (foldl (fun s e => exec mask e s) start es).

(** What a call that has not returned asks for. *)
Definition asking (s : shared) (i : nat) (f : Z) : Prop := sh_calls s !! i = Some (Started f) \/ sh_calls s !! i = Some (Slow f).

Lemma asking_not_returned s i f : asking s i f -> has_returned s i = false.
Proof. unfold has_returned. by intros [-> | ->]. Qed.

Lemma lor_land_same a b f mask : Z.land a mask = Z.land b mask -> Z.land (Z.lor a f) mask = Z.land (Z.lor b f) mask.
Proof. intros E. by rewrite !Z.land_lor_distr_l, E. Qed.

Lemma one_by_one_masked mask a b fs : Z.land a mask = Z.land b mask ->
  one_by_one mask a fs = one_by_one mask b fs /\ Z.land (foldl Z.lor a fs) mask = Z.land (foldl Z.lor b fs) mask.
Proof.
  revert a b. induction fs as [|f fs IH]; intros a b E; [done|]. cbn. destruct (IH _ _ (lor_land_same _ _ f _ E)) as [-> ->]. by rewrite E.
Qed.

Lemma other_masked s flags mask : Z.land (sh_flags (exec mask (Other flags) s)) mask = Z.land (sh_flags s) mask.
Proof.
  cbn. apply Z.bits_inj'. intros n Hn. rewrite !Z.land_spec, Z.lor_spec, Z.land_spec, Z.ldiff_spec.
  by destruct (Z.testbit (sh_flags s) n), (Z.testbit flags n), (Z.testbit mask n).
Qed.

Lemma contained_lor flags f : contains flags f = true -> Z.lor flags f = flags.
Proof.
  unfold contains. intros E%Z.eqb_eq. rewrite <- E. apply Z.bits_inj'. intros n Hn. rewrite Z.lor_spec, Z.land_spec.
  by destruct (Z.testbit flags n), (Z.testbit f n).
Qed.

(** A turn: the call goes on without any effect, or it returns, what it saw being what was there. *)
Inductive turn (s s' : shared) (i : nat) : Prop :=
| turn_idle : sh_flags s' = sh_flags s -> (forall j f, asking s' j f -> asking s j f) -> (forall j, has_returned s' j = has_returned s j) ->
    turn s s' i
| turn_return f : asking s i f -> sh_calls s' = <[i := Returned f (sh_flags s)]> (sh_calls s) -> sh_flags s' = Z.lor (sh_flags s) f -> turn s s' i.

Lemma exec_turn mask i s : turn s (exec mask (Run i) s) i.
Proof.
  cbn. unfold call_step. destruct (sh_calls s !! i) as [[f|f|f p]|] eqn:E; [destruct (contains (sh_flags s) f) eqn:Ec| | |].
  - apply (turn_return _ _ _ f); [by left|done|cbn; by rewrite contained_lor].
  - pose proof (lookup_lt_Some _ _ _ E). apply turn_idle; [done| |].
    + intros j g. unfold asking. cbn. destruct (decide (i = j)) as [<-|Hne]; [|by rewrite list_lookup_insert_ne].
      rewrite list_lookup_insert_eq by done. intros [|[= ->]]; [done|by left].
    + intros j. unfold has_returned. cbn. destruct (decide (i = j)) as [<-|Hne]; [by rewrite list_lookup_insert_eq, E|by rewrite list_lookup_insert_ne].
  - apply (turn_return _ _ _ f); [by right|done|done].
  - by apply turn_idle.
  - by apply turn_idle.
Qed.

Lemma returned_stays mask es s i f p : sh_calls s !! i = Some (Returned f p) -> sh_calls (schedule mask es s) !! i = Some (Returned f p).
Proof.
  revert s. induction es as [|e es IH]; intros s Hi; [done|]. cbn [foldl]. apply IH. destruct e as [j|flags]; [|done]. cbn. unfold call_step.
  destruct (decide (i = j)) as [<-|Hne]; [by rewrite Hi|].
  destruct (sh_calls s !! j) as [[g|g|g q]|]; [destruct (contains (sh_flags s) g)| | |]; cbn [sh_calls]; try done; by rewrite list_lookup_insert_ne.
Qed.

(** What the calls that return in a run have seen. *)
Definition in_order (mask : Z) (es : list event) (s : shared) (calls : list (Z * Z)) : Prop :=
  Forall2 (fun i '(f, previous) => asking s i f /\ sh_calls (schedule mask es s) !! i = Some (Returned f previous)) (return_order mask es s) calls /\
  (fun '(_, previous) => Z.land previous mask) <$> calls = one_by_one mask (sh_flags s) calls.*1 /\
  Z.land (sh_flags (schedule mask es s)) mask = Z.land (foldl Z.lor (sh_flags s) calls.*1) mask.

Lemma return_order_new mask es s : NoDup (return_order mask es s) /\
  forall i, i ∈ return_order mask es s <-> has_returned (schedule mask es s) i = true /\ has_returned s i = false.
Proof.
  revert s. induction es as [|e es IH]; intros s.
  - split; [constructor|]. intros i. rewrite elem_of_nil. cbn. split; [done|]. intros [-> ?]. done.
  - destruct (IH (exec mask e s)) as [Hnd Hin]. destruct e as [i|flags]; cbn [return_order foldl]; [|done].
    destruct (exec_turn mask i s) as [_ _ Hr|f Ha Hc _].
    + rewrite Hr, andb_negb_l. split; [done|]. intros j. by rewrite Hin, Hr.
    + assert (Hlt : (i < length (sh_calls s))%nat) by (by destruct Ha as [Ha|Ha]; apply lookup_lt_Some in Ha).
      assert (Hi : sh_calls (exec mask (Run i) s) !! i = Some (Returned f (sh_flags s))) by (by rewrite Hc, list_lookup_insert_eq).
      assert (Hret : has_returned (exec mask (Run i) s) i = true) by (unfold has_returned; by rewrite Hi).
      rewrite (asking_not_returned _ _ _ Ha), Hret. cbn [negb andb].
      split; [constructor; [|done]; rewrite Hin; intros [_ H]; congruence|]. intros j. rewrite elem_of_cons, Hin.
      destruct (decide (j = i)) as [->|Hne].
      * rewrite Hret, (asking_not_returned _ _ _ Ha). assert (has_returned (schedule mask es (exec mask (Run i) s)) i = true); [|tauto].
        unfold has_returned. by rewrite (returned_stays mask es _ i _ _ Hi).
      * unfold has_returned at 2 4. rewrite Hc, list_lookup_insert_ne by done. naive_solver.
Qed.

Lemma run_in_order mask es s : exists calls, in_order mask es s calls.
Proof.
  unfold in_order. revert s. induction es as [|e es IH]; intros s; [exists []; split_and!; [constructor|done..]|].
  destruct (IH (exec mask e s)) as (calls & H1 & H2 & H3). destruct e as [i|flags]; cbn [return_order foldl].
  - destruct (exec_turn mask i s) as [Hf Ha Hr|f Ha Hc Hf].
    + rewrite Hr, andb_negb_l. exists calls. rewrite <- Hf. split_and!; [|done|done].
      eapply Forall2_impl; [exact H1|]. intros j [g q] [Hj ?]. split; [by apply Ha|done].
    + assert (Hlt : (i < length (sh_calls s))%nat) by (by destruct Ha as [Ha|Ha]; apply lookup_lt_Some in Ha).
      assert (Hi : sh_calls (exec mask (Run i) s) !! i = Some (Returned f (sh_flags s))) by (by rewrite Hc, list_lookup_insert_eq).
      assert (Hret : has_returned (exec mask (Run i) s) i = true) by (unfold has_returned; by rewrite Hi).
      rewrite (asking_not_returned _ _ _ Ha), Hret. cbn [negb andb]. exists ((f, sh_flags s) :: calls). rewrite fmap_cons. cbn [fst]. split_and!.
      * constructor; [split; [done|by apply returned_stays]|]. eapply Forall2_impl; [exact H1|]. intros j [g q] [Hj ?]. split; [|done].
        assert (i <> j) as Hne by (intros <-; rewrite (asking_not_returned _ _ _ Hj) in Hret; done).
        unfold asking in Hj. by rewrite Hc, list_lookup_insert_ne in Hj.
      * cbn [one_by_one]. rewrite fmap_cons, H2, Hf. done.
      * cbn [foldl]. by rewrite H3, Hf.
  - exists calls. destruct (one_by_one_masked mask _ _ calls.*1 (other_masked s flags mask)) as [E1 E2].
    rewrite <- E1, <- E2. by split_and!.
Qed.

(** C19. [AtomicValueFlags::fetch_or] is linearizable and wait-free, although it skips the update when nothing is missing.  Whatever
    the schedule of the calls and of updates of other flags, the calls that have returned have, on the flags of [mask], the effect
    and the results of calls that follow each other, in the order in which they returned, each one reading the flags and or-ing its
    own into them at once; calls that have not returned have changed nothing; and a call that is given two turns has returned. *)
Theorem fetch_or_linearizable mask es s : forallb started (sh_calls s) = true ->
  let s' := foldl (fun s e => exec mask e s) s es in
  let order := return_order mask es s in
  NoDup order /\ (forall i, i ∈ order <-> has_returned s' i = true) /\
  (forall i, (i < length (sh_calls s))%nat -> (2 <= turns i es)%nat -> i ∈ order) /\
  exists calls,
    Forall2 (fun i '(f, previous) => sh_calls s !! i = Some (Started f) /\ sh_calls s' !! i = Some (Returned f previous)) order calls /\
    (fun '(_, previous) => Z.land previous mask) <$> calls = one_by_one mask (sh_flags s) calls.*1 /\
    Z.land (sh_flags s') mask = Z.land (foldl Z.lor (sh_flags s) calls.*1) mask.
Proof.
  intros Hs s' order. destruct (return_order_new mask es s) as [Hnd Hin]. destruct (run_in_order mask es s) as (calls & H1 & H2 & H3).
  assert (Hstart : forall i c, sh_calls s !! i = Some c -> started c = true).
  { intros i c Hi%list_elem_of_lookup_2%list_elem_of_In. rewrite forallb_forall in Hs. by apply Hs. }
  assert (Hnew : forall i, has_returned s i = false).
  { intros i. unfold has_returned. destruct (sh_calls s !! i) as [c|] eqn:Hi; [|done]. apply Hstart in Hi. by destruct c. }
  assert (Hin' : forall i, i ∈ order <-> has_returned s' i = true) by (intros i; unfold order; rewrite Hin, Hnew; tauto).
  split_and!; [done|done| |].
  - intros i Hi Ht. apply Hin'. destruct (call_returns mask es s i Hi Ht) as (c & Hc & Hr). unfold has_returned, s'. by rewrite Hc.
  - exists calls. split_and!; [|done|done]. eapply Forall2_impl; [exact H1|]. intros i [f p] [[Ha|Ha] Hp]; [done|]. by apply Hstart in Ha.
Qed.

(** Three calls: the first sees the flag of the second, whose update came in between; the third finds its flag set. *)
Lemma fetch_or_linearizable_witness :
  exists calls, (fun '(_, previous) => Z.land previous RESOLUTION_FLAGS) <$> calls = one_by_one RESOLUTION_FLAGS 0 calls.*1 /\
    Forall2 (fun i '(f, previous) => sh_calls (foldl (fun s e => exec RESOLUTION_FLAGS e s) (mkShared 0 [Started GOT; Started DIRECT; Started DIRECT])
      [Run 0; Run 1; Run 1; Other NON_INTERPOSABLE; Run 2; Run 0]%nat) !! i = Some (Returned f previous)) [1; 2; 0]%nat calls.
Proof.
  destruct (fetch_or_linearizable RESOLUTION_FLAGS [Run 0; Run 1; Run 1; Other NON_INTERPOSABLE; Run 2; Run 0]%nat
    (mkShared 0 [Started GOT; Started DIRECT; Started DIRECT]) ltac:(reflexivity)) as (_ & _ & _ & calls & H1 & H2 & _).
  exists calls. split; [exact H2|]. eapply Forall2_impl; [exact H1|]. intros i [f p] [_ H]. exact H.
Defined.
