(* ===== verification/GotAlloc.v ===== *)
(** What one symbol needs of the linker's tables: the sizes that layout allocates
    ([allocate_resolution] of [libwild/src/elf.rs]), the addresses it hands out
    ([create_resolution]) and the entries the writer fills in
    ([TableWriter::process_resolution] of [libwild/src/elf_writer.rs]).  The three
    are written apart and must agree on every combination of flags. *)
From stdpp Require Import base numbers list.
From S2P Require Import Prelude RelocInfo ValueFlags.
Open Scope Z_scope.

(** ** Sizes and offsets *)

Inductive part := GOT_PART | PLT_GOT | RELA_PLT | RELA_DYN_GENERAL | RELA_DYN_RELATIVE | RELR_DYN.
#[export] Instance part_eq_dec : EqDecision part.
Proof. solve_decision. Defined.

Definition GOT_ENTRY_SIZE : Z := 8.
Definition PLT_ENTRY_SIZE : Z := 0x10.
Definition RELA_ENTRY_SIZE : Z := 24.
Definition RELR_ENTRY_SIZE : Z := 8.
Definition CURRENT_EXE_TLS_MOD : Z := 1.
Definition TLS_OFFSET_OFFSET : Z := 8.

(** [OutputSectionPartMap<u64>], at the parts this code uses. *)
Definition part_map : Type := part -> Z.

Definition increment (p : part) (size : Z) (m : part_map) : part_map :=
  fun q => if decide (q = p) then u64 (m q + size) else m q.

Definition when (b : bool) {A} (f : A -> A) (x : A) : A := if b then f x else x.

(** A relative relocation: packed when RELR is enabled. *)
Definition allocate_relative (relr : bool) : part_map -> part_map :=
  if relr then increment RELR_DYN RELR_ENTRY_SIZE else increment RELA_DYN_RELATIVE RELA_ENTRY_SIZE.

Definition allocate_resolution (o : OutputKind) (relr : bool) (flags : Z) (m : part_map) : part_map :=
  let has_dynamic_symbol := is_dynamic flags || needs_export_dynamic flags in
  let m := when (needs_got flags && negb (is_tls_symbol flags)) (fun m =>
    let m := increment GOT_PART GOT_ENTRY_SIZE m in
    let m := when (needs_plt flags) (increment PLT_GOT PLT_ENTRY_SIZE) m in
    if is_ifunc flags then increment RELA_PLT RELA_ENTRY_SIZE m
    else if is_interposable flags && has_dynamic_symbol then increment RELA_DYN_GENERAL RELA_ENTRY_SIZE m
    else if is_address flags && is_relocatable o then allocate_relative relr m
    else m) m in
  let m := when (needs_ifunc_got_for_address flags) (fun m =>
    let m := increment GOT_PART GOT_ENTRY_SIZE m in
    when (is_relocatable o) (allocate_relative relr) m) m in
  let m := when (needs_got_tls_offset flags) (fun m =>
    let m := increment GOT_PART GOT_ENTRY_SIZE m in
    when (is_interposable flags || is_shared_object o) (increment RELA_DYN_GENERAL RELA_ENTRY_SIZE) m) m in
  let m := when (needs_got_tls_module flags) (fun m =>
    let m := increment GOT_PART (GOT_ENTRY_SIZE * 2) m in
    let m := when (negb (is_executable o) || is_dynamic flags) (increment RELA_DYN_GENERAL RELA_ENTRY_SIZE) m in
    when (is_interposable flags && has_dynamic_symbol) (increment RELA_DYN_GENERAL RELA_ENTRY_SIZE) m) m in
  when (needs_got_tls_descriptor flags) (fun m =>
    let m := increment GOT_PART (GOT_ENTRY_SIZE * 2) m in
    increment RELA_DYN_GENERAL RELA_ENTRY_SIZE m) m.

(** ** Addresses *)

Record Resolution := mkResolution {
  rs_raw_value : Z; rs_dynamic_symbol_index : option Z; rs_got_address : option Z; rs_plt_address : option Z; rs_flags : Z }.

Definition non_zero (x : Z) : outcome Z := if x =? 0 then Panic else Ret x.

Definition allocate_got (num_entries : Z) (m : part_map) : outcome (Z * part_map) :=
  got_address ← non_zero (m GOT_PART);
  Ret (got_address, increment GOT_PART (GOT_ENTRY_SIZE * num_entries) m).

Definition allocate_plt (m : part_map) : outcome (Z * part_map) :=
  plt_address ← non_zero (m PLT_GOT);
  Ret (plt_address, increment PLT_GOT PLT_ENTRY_SIZE m).

Definition b2z (b : bool) : Z := if b then 1 else 0.

Definition create_resolution (flags raw_value : Z) (dynamic_symbol_index : option Z) (m : part_map)
  : outcome (Resolution * part_map) :=
  if needs_plt flags then
    p ← allocate_plt m;
    let '(plt_address, m) := p : Z * part_map in
    let raw_value := if is_dynamic flags then plt_address else raw_value in
    g ← allocate_got (if needs_ifunc_got_for_address flags then 2 else 1) m;
    let '(got_address, m) := g : Z * part_map in
    Ret (mkResolution raw_value dynamic_symbol_index (Some got_address) (Some plt_address) flags, m)
  else if is_tls_symbol flags then
    g ← allocate_got (b2z (needs_got_tls_offset flags) + 2 * b2z (needs_got_tls_module flags)
                      + 2 * b2z (needs_got_tls_descriptor flags)) m;
    let '(got_address, m) := g : Z * part_map in
    Ret (mkResolution raw_value dynamic_symbol_index (Some got_address) None flags, m)
  else if needs_got flags then
    g ← allocate_got 1 m;
    let '(got_address, m) := g : Z * part_map in
    Ret (mkResolution raw_value dynamic_symbol_index (Some got_address) None flags, m)
  else Ret (mkResolution raw_value dynamic_symbol_index None None flags, m).

(** ** Writing *)

Inductive WriteError :=
| Insufficient (p : part) | Excessive (p : part) | MissingDynamicSymbolIndex | MissingLayout
| NotInTlsSegment | StaticTlsDescriptor | MissingGotEntry | MissingPltAddress | NotAnAddress | PltTooFar.

(** A dynamic relocation: where, against which symbol, of what kind, with what addend. *)
Record Rela := mkRela { r_offset : Z; r_sym : Z; r_kind : DynamicRelocationKind; r_addend : Z }.

(** A table being filled: the entries left, and those written. *)
Record table (A : Type) := mkTable { left_over : Z; written : list A }.
Arguments mkTable {A}. Arguments left_over {A}. Arguments written {A}.

(** [split_off_first_mut] and the assignment of the entry. *)
Definition push {A} (x : A) (t : table A) : option (table A) :=
  if 0 <? left_over t then Some (mkTable (left_over t - 1) (written t ++ [x])) else None.

Record TableWriter := mkWriter {
  tw_got : table Z; tw_plt_got : table (Z * Z); tw_rela_plt : table Rela;
  tw_rela_dyn_relative : table Rela; tw_rela_dyn_general : table Rela; tw_relr_dyn : option (table Z) }.

Definition io (A : Type) : Type := outcome (result A WriteError).
Definition ok {A} (a : A) : io A := Ret (Ok a).
Definition fail {A} (e : WriteError) : io A := Ret (Err e).

(** [take_next_got_entry] and an assignment of the entry. *)
Definition put_got (v : Z) (w : TableWriter) : io TableWriter :=
  match push v (tw_got w) with
  | Some t => ok (mkWriter t (tw_plt_got w) (tw_rela_plt w) (tw_rela_dyn_relative w) (tw_rela_dyn_general w) (tw_relr_dyn w))
  | None => fail (Insufficient GOT_PART)
  end.

(** The assignment of the entry taken last. *)
Definition assign_got (v : Z) (w : TableWriter) : TableWriter :=
  mkWriter (mkTable (left_over (tw_got w)) (removelast (written (tw_got w)) ++ [v])) (tw_plt_got w) (tw_rela_plt w)
    (tw_rela_dyn_relative w) (tw_rela_dyn_general w) (tw_relr_dyn w).

(** [take_rela_dyn] and the fields of the entry ([write_dynamic_symbol_relocation], [write_rela_dyn_general]). *)
Definition put_general (r : Rela) (w : TableWriter) : io TableWriter :=
  match push r (tw_rela_dyn_general w) with
  | Some t => ok (mkWriter (tw_got w) (tw_plt_got w) (tw_rela_plt w) (tw_rela_dyn_relative w) t (tw_relr_dyn w))
  | None => fail (Insufficient RELA_DYN_GENERAL)
  end.

Definition write_ifunc_relocation (res : Resolution) (w : TableWriter) : io TableWriter :=
  match rs_got_address res with
  | None => fail MissingGotEntry
  | Some got_address =>
      match push (mkRela got_address 0 DIrelative (i64 (rs_raw_value res))) (tw_rela_plt w) with
      | Some t => ok (mkWriter (tw_got w) (tw_plt_got w) t (tw_rela_dyn_relative w) (tw_rela_dyn_general w) (tw_relr_dyn w))
      | None => Panic
      end
  end.

(** The value for the place, and the writer with the RELR or RELA entry. *)
Definition write_address_relocation (place relative_address : Z) (w : TableWriter) : io (Z * TableWriter) :=
  match tw_relr_dyn w with
  | Some relr =>
      if is_multiple_of place 2 then
        match push place relr with
        | Some t => ok (relative_address,
            mkWriter (tw_got w) (tw_plt_got w) (tw_rela_plt w) (tw_rela_dyn_relative w) (tw_rela_dyn_general w) (Some t))
        | None => fail (Insufficient RELR_DYN)
        end
      else
        match push (mkRela place 0 DRelative (i64 relative_address)) (tw_rela_dyn_relative w) with
        | Some t => ok (0, mkWriter (tw_got w) (tw_plt_got w) (tw_rela_plt w) t (tw_rela_dyn_general w) (tw_relr_dyn w))
        | None => fail (Insufficient RELA_DYN_RELATIVE)
        end
  | None =>
      match push (mkRela place 0 DRelative (i64 relative_address)) (tw_rela_dyn_relative w) with
      | Some t => ok (0, mkWriter (tw_got w) (tw_plt_got w) (tw_rela_plt w) t (tw_rela_dyn_general w) (tw_relr_dyn w))
      | None => fail (Insufficient RELA_DYN_RELATIVE)
      end
  end.

Definition dynamic_symbol_index (res : Resolution) : io Z :=
  ok_or (rs_dynamic_symbol_index res) MissingDynamicSymbolIndex.

(** [map_or(0, NonZero::get)] *)
Definition index_or_zero (res : Resolution) : Z := match rs_dynamic_symbol_index res with Some i => i | None => 0 end.

(** A GOT entry that holds an address. *)
Definition put_got_address (place address : Z) (w : TableWriter) : io TableWriter :=
  w ←! put_got 0 w;
  p ←! write_address_relocation place address w;
  let '(v, w) := p : Z * TableWriter in ok (assign_got v w).

Section writing.
(** The output, the TLS segment, and what the architecture says: where thread pointer offsets start
    ([None] when there is no layout), the offset of the thread vector, and whether a PLT entry can reach its
    GOT entry (the entry's bytes are [Plt]'s subject). *)
Context (o : OutputKind) (tls_start tls_end : Z) (tp_offset_start : option Z) (dtv_offset : Z)
  (plt_reaches : Z -> Z -> bool).

Definition write_plt_entry (got_address plt_address : Z) (w : TableWriter) : io TableWriter :=
  match push (got_address, plt_address) (tw_plt_got w) with
  | Some t =>
      if plt_reaches got_address plt_address
      then ok (mkWriter (tw_got w) t (tw_rela_plt w) (tw_rela_dyn_relative w) (tw_rela_dyn_general w) (tw_relr_dyn w))
      else fail PltTooFar
  | None => fail (Insufficient PLT_GOT)
  end.

Definition process_got_tls_offset (res : Resolution) (tp_offset_start got_address : Z) (w : TableWriter) : io TableWriter :=
  let flags := rs_flags res in
  if is_dynamic flags || (needs_export_dynamic flags && is_interposable flags) then
    w ←! put_got 0 w;
    i ←! dynamic_symbol_index res;
    put_general (mkRela got_address i DTpOff 0) w
  else
    let address := rs_raw_value res in
    if address =? 0 then put_got 0 w
    else if negb ((tls_start <=? address) && (address <=? tls_end)) then
      w ←! put_got 0 w; fail NotInTlsSegment
    else if is_executable o then put_got (u64 (address - tp_offset_start)) w
    else
      w ←! put_got 0 w;
      put_general (mkRela got_address 0 DTpOff (i64 (address - tls_start))) w.

Definition process_got_tls_mod_and_offset (res : Resolution) (got_address : Z) (w : TableWriter) : io TableWriter :=
  let flags := rs_flags res in
  w ←! (if is_executable o && negb (is_dynamic flags) then put_got CURRENT_EXE_TLS_MOD w
        else w ←! put_got 0 w; put_general (mkRela got_address (index_or_zero res) DDtpMod 0) w);
  match rs_dynamic_symbol_index res with
  | Some i =>
      w ←! put_got 0 w;
      if is_interposable flags
      then put_general (mkRela (u64 (got_address + TLS_OFFSET_OFFSET)) i DDtpOff 0) w else ok w
  | None =>
      w ←! put_got 0 w;
      if is_address flags then ok (assign_got (u64 (u64 (rs_raw_value res - tls_start) - dtv_offset)) w)
      else fail NotAnAddress
  end.

Definition process_got_tls_descriptor (res : Resolution) (got_address : Z) (w : TableWriter) : io TableWriter :=
  w ←! put_got 0 w;
  w ←! put_got 0 w;
  if is_static_executable o then fail StaticTlsDescriptor
  else
    let addend := match rs_dynamic_symbol_index res with
                  | None => i64 (rs_raw_value res - tls_start) | Some _ => 0 end in
    put_general (mkRela got_address (index_or_zero res) DTlsDesc addend) w.

(** The TLS entries of one symbol, in the order of [create_resolution]. *)
Definition process_tls (res : Resolution) (got_address : Z) (w : TableWriter) : io TableWriter :=
  let flags := rs_flags res in
  p ←! (if needs_got_tls_offset flags then
          match tp_offset_start with
          | None => fail MissingLayout
          | Some tp => w ←! process_got_tls_offset res tp got_address w; ok (u64 (got_address + GOT_ENTRY_SIZE), w)
          end
        else ok (got_address, w));
  let '(got_address, w) := p : Z * TableWriter in
  p ←! (if needs_got_tls_module flags then
          w ←! process_got_tls_mod_and_offset res got_address w; ok (u64 (got_address + 2 * GOT_ENTRY_SIZE), w)
        else ok (got_address, w));
  let '(got_address, w) := p : Z * TableWriter in
  if needs_got_tls_descriptor flags then process_got_tls_descriptor res got_address w else ok w.

(** The first GOT entry of a symbol that is not thread-local. *)
Definition process_got (res : Resolution) (got_address : Z) (w : TableWriter) : io TableWriter :=
  let flags := rs_flags res in
  if is_dynamic flags || (needs_export_dynamic flags && is_interposable flags) && negb (is_ifunc flags) then
    w ←! put_got 0 w;
    i ←! dynamic_symbol_index res;
    put_general (mkRela got_address i DGotEntry 0) w
  else if is_ifunc flags then
    w ←! put_got 0 w; write_ifunc_relocation res w
  else if is_address flags && is_relocatable o then
    put_got_address got_address (rs_raw_value res) w
  else put_got (rs_raw_value res) w.

(** The entry that gives an ifunc one address. *)
Definition process_ifunc_got (res : Resolution) (got_address : Z) (w : TableWriter) : io TableWriter :=
  w ←! put_got 0 w;
  plt_address ←! ok_or (rs_plt_address res) MissingPltAddress;
  if is_relocatable o then
    p ←! write_address_relocation (u64 (got_address + GOT_ENTRY_SIZE)) plt_address w;
    let '(v, w) := p : Z * TableWriter in ok (assign_got v w)
  else ok (assign_got plt_address w).

Definition process_resolution (res : Resolution) (w : TableWriter) : io TableWriter :=
  match rs_got_address res with
  | None => ok w
  | Some got_address =>
      let flags := rs_flags res in
      if needs_got_tls_offset flags || needs_got_tls_module flags || needs_got_tls_descriptor flags
      then process_tls res got_address w
      else
        w ←! process_got res got_address w;
        w ←! match rs_plt_address res with
             | Some plt_address => write_plt_entry got_address plt_address w
             | None => ok w
             end;
        if needs_ifunc_got_for_address flags then process_ifunc_got res got_address w else ok w
  end.

(** One group's symbols, in order. *)
Fixpoint process_all (rs : list Resolution) (w : TableWriter) : io TableWriter :=
  match rs with [] => ok w | res :: rs => w ←! process_resolution res w; process_all rs w end.
End writing.

(** ** A group of symbols *)

(** What layout knows of a symbol when it hands out addresses. *)
Record symbol := mkSymbol { sy_flags : Z; sy_raw_value : Z; sy_dynamic_symbol_index : option Z }.

(** [finalise_symbol_sizes], over the canonical symbols. *)
Definition allocate_all (o : OutputKind) (relr : bool) (symbols : list symbol) (m : part_map) : part_map :=
  foldl (fun m s => allocate_resolution o relr (sy_flags s) m) m symbols.

Fixpoint create_all (symbols : list symbol) (m : part_map) : outcome (list Resolution * part_map) :=
  match symbols with
  | [] => Ret ([], m)
  | s :: symbols =>
      p ← create_resolution (sy_flags s) (sy_raw_value s) (sy_dynamic_symbol_index s) m;
      let '(res, m) := p : Resolution * part_map in
      q ← create_all symbols m;
      let '(rs, m) := q : list Resolution * part_map in
      Ret (res :: rs, m)
  end.

(** [slice_from_all_bytes_mut]: the entries of a part. *)
Definition entries {A} (size entry_size : Z) : table A := mkTable (size / entry_size) [].

(** [TableWriter::new]: tables over the allocated sizes. *)
Definition new_writer (pack_relative_relocs : bool) (m : part_map) : TableWriter :=
  mkWriter (entries (m GOT_PART) GOT_ENTRY_SIZE) (entries (m PLT_GOT) PLT_ENTRY_SIZE) (entries (m RELA_PLT) RELA_ENTRY_SIZE)
    (entries (m RELA_DYN_RELATIVE) RELA_ENTRY_SIZE) (entries (m RELA_DYN_GENERAL) RELA_ENTRY_SIZE)
    (if pack_relative_relocs && negb (m RELR_DYN / RELR_ENTRY_SIZE =? 0)
     then Some (entries (m RELR_DYN) RELR_ENTRY_SIZE) else None).

Definition unused {A} (t : table A) : bool := negb (left_over t =? 0).

(** [validate_empty], at these tables. *)
Definition validate_empty (w : TableWriter) : option WriteError :=
  if unused (tw_got w) then Some (Excessive GOT_PART)
  else if unused (tw_rela_dyn_relative w) then Some (Excessive RELA_DYN_RELATIVE)
  else if unused (tw_rela_dyn_general w) then Some (Excessive RELA_DYN_GENERAL)
  else match tw_relr_dyn w with
       | Some t => if unused t then Some (Excessive RELR_DYN) else None
       | None => None
       end.

(** [verify_consistent_allocation_handling] and [verify_resolution_allocation]: the same three steps for one
    combination of flags, with made-up addresses and no layout. *)
Definition verify_consistent_allocation_handling (o : OutputKind) (relr : bool) (dtv_offset : Z) (plt_reaches : Z -> Z -> bool)
  (flags : Z) : io unit :=
  let mem_sizes := allocate_resolution o relr flags (fun _ => 0) in
  let memory_offsets p := match p with GOT_PART | PLT_GOT => 0x10 | _ => 0 end in
  let has_dynamic_symbol := is_dynamic flags || (needs_export_dynamic flags && is_interposable flags) in
  match create_resolution flags 0 (if has_dynamic_symbol then Some 1 else None) memory_offsets with
  | Panic => Panic
  | Ret (resolution, _) =>
      w ←! process_resolution o 0 100 None dtv_offset plt_reaches resolution (new_writer relr mem_sizes);
      match validate_empty w with Some e => fail e | None => ok tt end
  end.
