(* ===== verification/GotSpec.v ===== *)
(** Layout and writer agree on the symbol tables.  [effect] is what one symbol adds
    to each table; layout's sizes, layout's addresses and the writer's entries are each
    shown to be those of the effect, for every combination of flags that [consistent]
    admits; and what the dynamic loader makes of the entries is what the code that reads
    the GOT expects. *)
From stdpp Require Import base numbers list.
From S2P Require Import Prelude RelocInfo ValueFlags GotAlloc.
Open Scope Z_scope.

(** ** Effects *)

Record effect := mkEffect {
  ef_got : list Z; ef_plt : list (Z * Z); ef_rela_plt : list Rela;
  ef_relative : list Rela; ef_general : list Rela; ef_relr : list Z }.

Definition nothing : effect := mkEffect [] [] [] [] [] [].
Definition join (d e : effect) : effect :=
  mkEffect (ef_got d ++ ef_got e) (ef_plt d ++ ef_plt e) (ef_rela_plt d ++ ef_rela_plt e)
    (ef_relative d ++ ef_relative e) (ef_general d ++ ef_general e) (ef_relr d ++ ef_relr e).

Definition slot (v : Z) : effect := mkEffect [v] [] [] [] [] [].
Definition general (r : Rela) : effect := mkEffect [] [] [] [] [r] [].
Definition plt_rela (r : Rela) : effect := mkEffect [] [] [r] [] [] [].
Definition plt_stub (g p : Z) : effect := mkEffect [] [(g, p)] [] [] [] [].

(** A slot with a relative relocation: packed, the address is in the slot; else in the addend. *)
Definition address_slot (relr : bool) (place address : Z) : effect :=
  if relr then mkEffect [address] [] [] [] [] [place]
  else mkEffect [0] [] [] [mkRela place 0 DRelative (i64 address)] [] [].

Definition given (b : bool) (e : effect) : effect := if b then e else nothing.

(** Entries are bound at load time to the dynamic symbol. *)
Definition dynamically_bound (flags : Z) : bool :=
  is_dynamic flags || (needs_export_dynamic flags && is_interposable flags).

Section effects.
Context (o : OutputKind) (relr : bool) (tls_start tls_end tp_start dtv_offset : Z).

Definition tls_offset_effect (res : Resolution) (a : Z) : effect :=
  if dynamically_bound (rs_flags res) then join (slot 0) (general (mkRela a (index_or_zero res) DTpOff 0))
  else if rs_raw_value res =? 0 then slot 0
  else if is_executable o then slot (u64 (rs_raw_value res - tp_start))
  else join (slot 0) (general (mkRela a 0 DTpOff (i64 (rs_raw_value res - tls_start)))).

Definition tls_module_effect (res : Resolution) (a : Z) : effect :=
  join (if is_executable o && negb (is_dynamic (rs_flags res)) then slot CURRENT_EXE_TLS_MOD
        else join (slot 0) (general (mkRela a (index_or_zero res) DDtpMod 0)))
       match rs_dynamic_symbol_index res with
       | Some i => join (slot 0) (given (is_interposable (rs_flags res)) (general (mkRela (a + 8) i DDtpOff 0)))
       | None => slot (u64 (u64 (rs_raw_value res - tls_start) - dtv_offset))
       end.

Definition tls_descriptor_effect (res : Resolution) (a : Z) : effect :=
  join (slot 0) (join (slot 0)
    (general (mkRela a (index_or_zero res) DTlsDesc
       match rs_dynamic_symbol_index res with None => i64 (rs_raw_value res - tls_start) | Some _ => 0 end))).

Definition got_effect (res : Resolution) (a : Z) : effect :=
  if is_dynamic (rs_flags res) || (needs_export_dynamic (rs_flags res) && is_interposable (rs_flags res))
     && negb (is_ifunc (rs_flags res))
  then join (slot 0) (general (mkRela a (index_or_zero res) DGotEntry 0))
  else if is_ifunc (rs_flags res) then join (slot 0) (plt_rela (mkRela a 0 DIrelative (i64 (rs_raw_value res))))
  else if is_address (rs_flags res) && is_relocatable o then address_slot relr a (rs_raw_value res)
  else slot (rs_raw_value res).

Definition plt_effect (res : Resolution) (a : Z) : effect :=
  match rs_plt_address res with Some p => plt_stub a p | None => nothing end.

Definition ifunc_got_effect (res : Resolution) (a : Z) : effect :=
  match rs_plt_address res with
  | Some p => if is_relocatable o then address_slot relr (a + 8) p else slot p
  | None => nothing
  end.

Definition effect_at (res : Resolution) (a : Z) : effect :=
  let flags := rs_flags res in
  if is_tls_symbol flags then
    let off := needs_got_tls_offset flags in let md := needs_got_tls_module flags in
    join (given off (tls_offset_effect res a))
      (join (given md (tls_module_effect res (a + 8 * b2z off)))
         (given (needs_got_tls_descriptor flags) (tls_descriptor_effect res (a + 8 * b2z off + 16 * b2z md))))
  else join (got_effect res a) (join (plt_effect res a)
         (given (needs_ifunc_got_for_address flags) (ifunc_got_effect res a))).

Definition effect_of (res : Resolution) : effect :=
  match rs_got_address res with Some a => effect_at res a | None => nothing end.

(** ** The combinations that layout and writer handle alike *)

Definition consistent (flags raw_value : Z) (index : option Z) : bool :=
  let has_index := bool_decide (is_Some index) in
  let in_segment := (tls_start <=? raw_value) && (raw_value <=? tls_end) in
  (* a PLT entry is for a symbol with a GOT entry of its own *)
  implb (needs_plt flags) (needs_got flags && negb (is_tls_symbol flags)) &&
  implb (needs_ifunc_got_for_address flags) (needs_plt flags) &&
  (* a symbol of a shared object can be interposed and is no ifunc *)
  implb (is_dynamic flags) (is_interposable flags && negb (is_ifunc flags)) &&
  (* the dynamic symbol table has the symbols that are bound at load time, and only exported or dynamic ones *)
  implb (dynamically_bound flags) has_index &&
  implb has_index (is_dynamic flags || needs_export_dynamic flags) &&
  (* the offset of a variable of the output's own segment *)
  implb (needs_got_tls_offset flags && negb (dynamically_bound flags))
    (if is_executable o then negb (is_interposable flags) && ((raw_value =? 0) || in_segment)
     else is_shared_object o && negb (raw_value =? 0) && in_segment) &&
  implb (needs_got_tls_module flags && negb has_index) (is_address flags) &&
  implb (needs_got_tls_descriptor flags) (negb (is_static_executable o)).
End effects.

(** ** Filling the tables *)

Definition ext {A} (l : list A) (t : table A) : table A := mkTable (left_over t - len l) (written t ++ l).

Definition extend (e : effect) (w : TableWriter) : TableWriter :=
  mkWriter (ext (ef_got e) (tw_got w)) (ext (ef_plt e) (tw_plt_got w)) (ext (ef_rela_plt e) (tw_rela_plt w))
    (ext (ef_relative e) (tw_rela_dyn_relative w)) (ext (ef_general e) (tw_rela_dyn_general w))
    (ext (ef_relr e) <$> tw_relr_dyn w).

(** The tables have room for the effect. *)
Definition fits (relr : bool) (e : effect) (w : TableWriter) : Prop :=
  len (ef_got e) <= left_over (tw_got w) /\ len (ef_plt e) <= left_over (tw_plt_got w) /\
  len (ef_rela_plt e) <= left_over (tw_rela_plt w) /\ len (ef_relative e) <= left_over (tw_rela_dyn_relative w) /\
  len (ef_general e) <= left_over (tw_rela_dyn_general w) /\
  match tw_relr_dyn w with
  | Some t => relr = true /\ len (ef_relr e) <= left_over t
  | None => ef_relr e = []
  end.

Lemma ext_nil {A} (t : table A) : ext [] t = t.
Proof. destruct t. unfold ext. cbn. by rewrite Z.sub_0_r, app_nil_r. Qed.

Lemma ext_app {A} (l k : list A) t : ext (l ++ k) t = ext k (ext l t).
Proof. unfold ext. cbn. rewrite len_app. f_equal; [lia|by rewrite app_assoc]. Qed.

Lemma extend_nothing w : extend nothing w = w.
Proof. destruct w as [g p rp rr rg rl]. unfold extend. cbn. rewrite !ext_nil. by destruct rl as [t|]; cbn; rewrite ?ext_nil. Qed.

Lemma extend_join d e w : extend (join d e) w = extend e (extend d w).
Proof. unfold extend. cbn. rewrite !ext_app. by destruct (tw_relr_dyn w) as [t|]; cbn; rewrite ?ext_app. Qed.

Lemma fits_join relr d e w : fits relr (join d e) w -> fits relr d w /\ fits relr e (extend d w).
Proof.
  unfold fits. cbn. rewrite !len_app. pose proof (len_nonneg (ef_got e)). pose proof (len_nonneg (ef_plt e)).
  pose proof (len_nonneg (ef_rela_plt e)). pose proof (len_nonneg (ef_relative e)). pose proof (len_nonneg (ef_general e)).
  pose proof (len_nonneg (ef_relr e)).
  intros (? & ? & ? & ? & ? & Hr). destruct (tw_relr_dyn w) as [t|]; cbn.
  - destruct Hr. split; repeat split; try done; lia.
  - apply app_eq_nil in Hr as [-> ->]. split; repeat split; lia.
Qed.

(** ** The writer writes the effect *)

Lemma push_ok {A} (x : A) t : 1 <= left_over t -> push x t = Some (ext [x] t).
Proof. intros H. unfold push. by rewrite (proj2 (Z.ltb_lt _ _)) by lia. Qed.

Lemma put_got_room v w : 1 <= left_over (tw_got w) -> put_got v w = ok (extend (slot v) w).
Proof.
  intros Hg. unfold put_got. rewrite push_ok by apply Hg.
  unfold extend. cbn. rewrite !ext_nil. by destruct (tw_relr_dyn w) as [t|]; cbn; rewrite ?ext_nil.
Qed.

Lemma put_got_ok relr v w : fits relr (slot v) w -> put_got v w = ok (extend (slot v) w).
Proof. intros (Hg & _). by apply put_got_room. Qed.

Lemma put_general_ok relr r w : fits relr (general r) w -> put_general r w = ok (extend (general r) w).
Proof.
  intros (_ & _ & _ & _ & Hg & _). unfold put_general. rewrite push_ok by apply Hg.
  unfold extend. cbn. rewrite !ext_nil. by destruct (tw_relr_dyn w) as [t|]; cbn; rewrite ?ext_nil.
Qed.

Lemma write_ifunc_ok relr res a w : rs_got_address res = Some a ->
  fits relr (plt_rela (mkRela a 0 DIrelative (i64 (rs_raw_value res)))) w ->
  write_ifunc_relocation res w = ok (extend (plt_rela (mkRela a 0 DIrelative (i64 (rs_raw_value res)))) w).
Proof.
  intros Ha (_ & _ & Hg & _). unfold write_ifunc_relocation. rewrite Ha, push_ok by apply Hg.
  unfold extend. cbn. rewrite !ext_nil. by destruct (tw_relr_dyn w) as [t|]; cbn; rewrite ?ext_nil.
Qed.

Lemma write_plt_entry_ok relr reaches g p w : reaches g p = true ->
  fits relr (plt_stub g p) w -> write_plt_entry reaches g p w = ok (extend (plt_stub g p) w).
Proof.
  intros Hr (_ & Hg & _). unfold write_plt_entry. rewrite push_ok by apply Hg. rewrite Hr.
  unfold extend. cbn. rewrite !ext_nil. by destruct (tw_relr_dyn w) as [t|]; cbn; rewrite ?ext_nil.
Qed.

Lemma assign_slot v v' w : assign_got v (extend (slot v') w) = extend (slot v) w.
Proof. unfold assign_got, extend, ext. cbn. by rewrite removelast_last. Qed.

(** A slot and its relative relocation, written in either order. *)
Lemma address_slot_ok relr place address w : is_multiple_of place 2 = true ->
  fits relr (address_slot relr place address) w ->
  exists v w', write_address_relocation place address (extend (slot 0) w) = ok (v, w') /\
    assign_got v w' = extend (address_slot relr place address) w.
Proof.
  intros Ha Hf. unfold write_address_relocation, fits in *. cbn [extend tw_relr_dyn slot ef_relr].
  destruct (tw_relr_dyn w) as [t|] eqn:Ht; cbn [fmap option_fmap option_map].
  - destruct Hf as (_ & _ & _ & _ & _ & -> & Hl). cbn in Hl. rewrite Ha, ext_nil, push_ok by apply Hl.
    eexists _, _. split; [done|]. unfold assign_got, extend, ext. cbn. rewrite Ht. cbn. by rewrite removelast_last.
  - destruct relr; [by destruct Hf as (_ & _ & _ & _ & _ & Hl)|]. destruct Hf as (_ & _ & _ & Hl & _). cbn in Hl.
    cbn [extend slot tw_rela_dyn_relative ef_relative]. rewrite ext_nil, push_ok by apply Hl.
    eexists _, _. split; [done|]. unfold assign_got, extend, ext. cbn. rewrite Ht. cbn. by rewrite removelast_last.
Qed.

(** A write of a joined effect, one part after the other. *)
Ltac write_step lem :=
  match goal with
  | H : fits ?r (join _ _) _ |- _ => apply fits_join in H as [?Hfits H]
  | |- _ => idtac
  end;
  erewrite lem by eassumption; cbn [ok]; rewrite ?extend_join.

Section writes.
Context (o : OutputKind) (relr : bool) (tls_start tls_end tp dtv_offset : Z) (reaches : Z -> Z -> bool).

Lemma process_got_tls_offset_ok res a w :
  (dynamically_bound (rs_flags res) = true -> is_Some (rs_dynamic_symbol_index res)) ->
  (dynamically_bound (rs_flags res) = false -> rs_raw_value res = 0 \/ tls_start <= rs_raw_value res <= tls_end) ->
  fits relr (tls_offset_effect o tls_start tp res a) w ->
  process_got_tls_offset o tls_start tls_end res tp a w = ok (extend (tls_offset_effect o tls_start tp res a) w).
Proof.
  intros Hi Hr Hf. unfold process_got_tls_offset, tls_offset_effect in *.
  change (is_dynamic _ || _) with (dynamically_bound (rs_flags res)). destruct (dynamically_bound (rs_flags res)).
  - destruct (Hi eq_refl) as [i Ei]. unfold dynamic_symbol_index, index_or_zero, ok_or in *. rewrite Ei in *.
    write_step put_got_ok. by write_step put_general_ok.
  - specialize (Hr eq_refl). destruct (Z.eqb_spec (rs_raw_value res) 0) as [E|E]; [by write_step put_got_ok|].
    rewrite (proj2 (Z.leb_le _ _)), (proj2 (Z.leb_le _ _)) by lia. cbn [andb negb].
    destruct (is_executable o); [by write_step put_got_ok|]. write_step put_got_ok. by write_step put_general_ok.
Qed.

Lemma process_got_tls_mod_ok res a w : 0 <= a -> a + 8 < 2 ^ 64 ->
  (rs_dynamic_symbol_index res = None -> is_address (rs_flags res) = true) ->
  fits relr (tls_module_effect o tls_start dtv_offset res a) w ->
  process_got_tls_mod_and_offset o tls_start dtv_offset res a w
  = ok (extend (tls_module_effect o tls_start dtv_offset res a) w).
Proof.
  intros Ha Hb Hi Hf. unfold process_got_tls_mod_and_offset, tls_module_effect in *. cbv zeta.
  apply fits_join in Hf as [Hm Hf]. rewrite extend_join.
  set (em := if is_executable o && _ then _ else _) in *.
  assert ((if is_executable o && negb (is_dynamic (rs_flags res)) then put_got CURRENT_EXE_TLS_MOD w
           else w ←! put_got 0 w; put_general (mkRela a (index_or_zero res) DDtpMod 0) w) = ok (extend em w)) as ->.
  { subst em. destruct (is_executable o && _); [by write_step put_got_ok|].
    write_step put_got_ok. by write_step put_general_ok. }
  cbn [ok]. generalize dependent (extend em w). clear em w Hm. intros w Hf.
  destruct (rs_dynamic_symbol_index res) as [i|].
  - write_step put_got_ok. destruct (is_interposable (rs_flags res)); cbn [given] in *; [|by rewrite extend_nothing].
    unfold TLS_OFFSET_OFFSET. rewrite wrap_id by (unfold is_uint; lia). by write_step put_general_ok.
  - rewrite (Hi eq_refl), (put_got_ok relr 0) by exact Hf. cbn [ok]. by rewrite assign_slot.
Qed.

Lemma process_got_tls_descriptor_ok res a w : is_static_executable o = false ->
  fits relr (tls_descriptor_effect tls_start res a) w ->
  process_got_tls_descriptor o tls_start res a w = ok (extend (tls_descriptor_effect tls_start res a) w).
Proof.
  intros Hs Hf. unfold process_got_tls_descriptor, tls_descriptor_effect in *. rewrite Hs, !extend_join.
  write_step put_got_ok. write_step put_got_ok. by write_step put_general_ok.
Qed.

Lemma process_got_ok res a w : rs_got_address res = Some a -> is_multiple_of a 2 = true ->
  (dynamically_bound (rs_flags res) = true -> is_Some (rs_dynamic_symbol_index res)) ->
  fits relr (got_effect o relr res a) w ->
  process_got o res a w = ok (extend (got_effect o relr res a) w).
Proof.
  intros Hg Ha Hi Hf. unfold process_got, got_effect in *. cbv zeta.
  destruct (is_dynamic (rs_flags res) || _ && _) eqn:Hd.
  - destruct Hi as [i Ei].
    { unfold dynamically_bound. by destruct (is_dynamic _), (needs_export_dynamic _ && _). }
    unfold dynamic_symbol_index, index_or_zero, ok_or in *. rewrite Ei in *.
    write_step put_got_ok. by write_step put_general_ok.
  - destruct (is_ifunc (rs_flags res)); [write_step put_got_ok; by write_step write_ifunc_ok|].
    destruct (is_address (rs_flags res) && is_relocatable o); [|by write_step put_got_ok].
    unfold put_got_address. destruct (address_slot_ok _ _ _ _ Ha Hf) as (v & w' & Hw & Hv).
    rewrite (put_got_room 0) by (destruct relr; apply Hf). cbn [ok]. rewrite Hw. cbn [ok]. by rewrite Hv.
Qed.

Lemma process_ifunc_got_ok res a p w : rs_plt_address res = Some p -> 0 <= a -> a + 8 < 2 ^ 64 ->
  is_multiple_of a 2 = true -> fits relr (ifunc_got_effect o relr res a) w ->
  process_ifunc_got o res a w = ok (extend (ifunc_got_effect o relr res a) w).
Proof.
  intros Hp H0 Hb Ha Hf. unfold process_ifunc_got, ifunc_got_effect, ok_or, GOT_ENTRY_SIZE in *. rewrite Hp in *.
  rewrite wrap_id by (unfold is_uint; lia). destruct (is_relocatable o).
  - assert (is_multiple_of (a + 8) 2 = true) as Ha8.
    { unfold is_multiple_of in *. cbn in *. apply Z.eqb_eq in Ha. apply Z.eqb_eq. rewrite Z.add_mod, Ha by lia. done. }
    destruct (address_slot_ok _ _ _ _ Ha8 Hf) as (v & w' & Hw & Hv).
    rewrite (put_got_room 0) by (destruct relr; apply Hf). cbn [ok]. rewrite Hw. cbn [ok]. by rewrite Hv.
  - rewrite (put_got_ok relr 0) by exact Hf. cbn [ok]. by rewrite assign_slot.
Qed.

(** A resolution as layout leaves it: addresses for the entries its flags ask for, in range and aligned. *)
Record shaped (res : Resolution) : Prop := {
  sh_got : is_Some (rs_got_address res) <->
    needs_plt (rs_flags res) || is_tls_symbol (rs_flags res) || needs_got (rs_flags res) = true;
  sh_plt : is_Some (rs_plt_address res) <-> needs_plt (rs_flags res) = true;
  sh_range : forall a, rs_got_address res = Some a -> 0 <= a /\ a + 48 <= 2 ^ 64 /\ a mod 8 = 0;
  sh_reach : forall a p, rs_got_address res = Some a -> rs_plt_address res = Some p -> reaches a p = true }.

Definition agreeable (res : Resolution) : bool :=
  consistent o tls_start tls_end (rs_flags res) (rs_raw_value res) (rs_dynamic_symbol_index res).

Record agreement (res : Resolution) : Prop := {
  ag_plt : needs_plt (rs_flags res) = true -> needs_got (rs_flags res) = true /\ is_tls_symbol (rs_flags res) = false;
  ag_ifunc : needs_ifunc_got_for_address (rs_flags res) = true -> needs_plt (rs_flags res) = true;
  ag_dynamic : is_dynamic (rs_flags res) = true -> is_interposable (rs_flags res) = true /\ is_ifunc (rs_flags res) = false;
  ag_bound : dynamically_bound (rs_flags res) = true -> is_Some (rs_dynamic_symbol_index res);
  ag_index : is_Some (rs_dynamic_symbol_index res) -> is_dynamic (rs_flags res) || needs_export_dynamic (rs_flags res) = true;
  ag_offset : needs_got_tls_offset (rs_flags res) = true -> dynamically_bound (rs_flags res) = false ->
    (rs_raw_value res = 0 \/ tls_start <= rs_raw_value res <= tls_end) /\
    (if is_executable o then is_interposable (rs_flags res) = false else is_shared_object o = true /\ rs_raw_value res <> 0);
  ag_module : needs_got_tls_module (rs_flags res) = true -> rs_dynamic_symbol_index res = None -> is_address (rs_flags res) = true;
  ag_descriptor : needs_got_tls_descriptor (rs_flags res) = true -> is_static_executable o = false }.

Lemma agreeable_agreement res : agreeable res = true -> agreement res.
Proof.
  unfold agreeable, consistent. rewrite !andb_true_iff. intros (((((((H1 & H2) & H3) & H4) & H5) & H6) & H7) & H8).
  split.
  - intros E. rewrite E in H1. cbn in H1. apply andb_true_iff in H1 as [? ?%negb_true_iff]. done.
  - intros E. by rewrite E in H2.
  - intros E. rewrite E in H3. cbn in H3. apply andb_true_iff in H3 as [? ?%negb_true_iff]. done.
  - intros E. rewrite E in H4. by apply bool_decide_eq_true in H4.
  - intros E. rewrite bool_decide_true in H5 by done. done.
  - intros E Eb. rewrite E, Eb in H6. cbn in H6. destruct (is_executable o).
    + apply andb_true_iff in H6 as [?%negb_true_iff H6]. split; [|done]. lia.
    + rewrite !andb_true_iff in H6. destruct H6 as [[Hs Hz%negb_true_iff] H6]. split; [lia|]. split; [done|lia].
  - intros E Ei. rewrite E, Ei in H7. cbn in H7. done.
  - intros E. rewrite E in H8. by apply negb_true_iff in H8.
Qed.

Abbreviation effect_here := (effect_of o relr tls_start tp dtv_offset).

(** The address of the next entry, without wrap-around. *)
Lemma next_entry a n : 0 <= a -> 0 <= n -> a + n < 2 ^ 64 -> u64 (a + n) = a + n.
Proof. intros. apply wrap_id. unfold is_uint. lia. Qed.

Lemma tls_offset_stage res a w (b := needs_got_tls_offset (rs_flags res)) (e := given b (tls_offset_effect o tls_start tp res a)) :
  agreement res -> 0 <= a -> a + 8 < 2 ^ 64 -> fits relr e w ->
  (if b then w ←! process_got_tls_offset o tls_start tls_end res tp a w; ok (u64 (a + GOT_ENTRY_SIZE), w) else ok (a, w))
  = ok (a + 8 * b2z b, extend e w).
Proof.
  subst b e. intros Hag H0 Hr Hf. destruct (needs_got_tls_offset (rs_flags res)) eqn:Eo; cbn [given b2z] in *.
  - rewrite process_got_tls_offset_ok; [|by apply ag_bound| |done]; [|intros Eb; by destruct (ag_offset _ Hag Eo Eb)].
    cbn [ok]. unfold GOT_ENTRY_SIZE. by rewrite next_entry by lia.
  - by rewrite extend_nothing, Z.add_0_r.
Qed.

Lemma tls_module_stage res a w (b := needs_got_tls_module (rs_flags res)) (e := given b (tls_module_effect o tls_start dtv_offset res a)) :
  agreement res -> 0 <= a -> a + 16 < 2 ^ 64 -> fits relr e w ->
  (if b then w ←! process_got_tls_mod_and_offset o tls_start dtv_offset res a w; ok (u64 (a + 2 * GOT_ENTRY_SIZE), w)
   else ok (a, w)) = ok (a + 16 * b2z b, extend e w).
Proof.
  subst b e. intros Hag H0 Hr Hf. destruct (needs_got_tls_module (rs_flags res)) eqn:Em; cbn [given b2z] in *.
  - rewrite process_got_tls_mod_ok; [|lia..|by apply ag_module|done].
    cbn [ok]. unfold GOT_ENTRY_SIZE. by rewrite next_entry by lia.
  - by rewrite extend_nothing, Z.add_0_r.
Qed.

Lemma process_tls_ok res a w : agreement res -> 0 <= a -> a + 48 <= 2 ^ 64 -> is_tls_symbol (rs_flags res) = true ->
  fits relr (effect_at o relr tls_start tp dtv_offset res a) w ->
  process_tls o tls_start tls_end (Some tp) dtv_offset res a w
  = ok (extend (effect_at o relr tls_start tp dtv_offset res a) w).
Proof.
  intros Hag H0 Hr Ht Hf. unfold process_tls, effect_at in *. rewrite Ht in *. cbv zeta in *.
  apply fits_join in Hf as [Ho Hf]. apply fits_join in Hf as [Hm Hd]. rewrite !extend_join.
  rewrite (tls_offset_stage _ _ _ Hag H0) by (done || lia). cbn [ok].
  assert (0 <= b2z (needs_got_tls_offset (rs_flags res)) <= 1) by (destruct (needs_got_tls_offset _); cbn; lia).
  rewrite (tls_module_stage _ _ _ Hag) by (done || lia). cbn [ok].
  destruct (needs_got_tls_descriptor (rs_flags res)) eqn:Ed; cbn [given] in *; [|by rewrite extend_nothing].
  apply process_got_tls_descriptor_ok; [by apply (ag_descriptor _ Hag)|done].
Qed.

Lemma is_multiple_of_8 a : a mod 8 = 0 -> is_multiple_of a 2 = true.
Proof.
  intros H. unfold is_multiple_of. cbn. apply Z.eqb_eq. apply Z.mod_divide in H; [|lia]. apply Z.mod_divide; [lia|].
  etransitivity; [|apply H]. by exists 4.
Qed.

Lemma process_resolution_ok res w : agreement res -> shaped res -> fits relr (effect_here res) w ->
  process_resolution o tls_start tls_end (Some tp) dtv_offset reaches res w = ok (extend (effect_here res) w).
Proof.
  intros Hag Hsh Hf. unfold process_resolution, effect_of in *.
  destruct (rs_got_address res) as [a|] eqn:Ea; [|by rewrite extend_nothing].
  destruct (sh_range _ Hsh a Ea) as (H0 & Hr & H8). cbv zeta.
  assert (needs_got_tls_offset (rs_flags res) || needs_got_tls_module (rs_flags res) || needs_got_tls_descriptor (rs_flags res)
          = is_tls_symbol (rs_flags res)) as -> by done.
  destruct (is_tls_symbol (rs_flags res)) eqn:Ht; [by apply process_tls_ok|].
  unfold effect_at in *. rewrite Ht in *. cbv zeta in *.
  apply fits_join in Hf as [Hg Hf]. apply fits_join in Hf as [Hp Hi]. rewrite !extend_join.
  rewrite process_got_ok by (done || by apply is_multiple_of_8 || by apply ag_bound). cbn [ok].
  unfold plt_effect in *. pose proof (sh_plt _ Hsh) as Hplt. pose proof (ag_ifunc _ Hag) as Hif.
  destruct (rs_plt_address res) as [p|] eqn:Ep.
  - rewrite (write_plt_entry_ok relr) by (done || by eapply sh_reach). cbn [ok].
    destruct (needs_ifunc_got_for_address (rs_flags res)); cbn [given] in *; [|by rewrite extend_nothing].
    apply process_ifunc_got_ok with p; [done|lia|lia|by apply is_multiple_of_8|done].
  - rewrite extend_nothing in *. cbn [ok].
    destruct (needs_ifunc_got_for_address (rs_flags res)); cbn [given] in *; [|by rewrite extend_nothing].
    destruct Hplt as [_ Hplt]. by destruct (Hplt (Hif eq_refl)).
Qed.

(** The effect of a group's symbols. *)
Definition effects (rs : list Resolution) : effect := foldr (fun res e => join (effect_here res) e) nothing rs.

Lemma process_all_ok rs w : Forall (fun res => agreement res /\ shaped res) rs -> fits relr (effects rs) w ->
  process_all o tls_start tls_end (Some tp) dtv_offset reaches rs w = ok (extend (effects rs) w).
Proof.
  intros Hall. revert w. induction Hall as [|res rs [Hag Hsh] _ IH]; intros w Hf; cbn [process_all effects foldr].
  - by rewrite extend_nothing.
  - apply fits_join in Hf as [Hr Hf]. rewrite process_resolution_ok by done. cbn [ok].
    rewrite IH by done. by rewrite extend_join.
Qed.
End writes.

(** ** Layout allocates the effect's size *)

Definition sizes : Type := part -> Z.
Definition size_of (e : effect) : sizes := fun p =>
  match p with
  | GOT_PART => GOT_ENTRY_SIZE * len (ef_got e) | PLT_GOT => PLT_ENTRY_SIZE * len (ef_plt e)
  | RELA_PLT => RELA_ENTRY_SIZE * len (ef_rela_plt e) | RELA_DYN_GENERAL => RELA_ENTRY_SIZE * len (ef_general e)
  | RELA_DYN_RELATIVE => RELA_ENTRY_SIZE * len (ef_relative e) | RELR_DYN => RELR_ENTRY_SIZE * len (ef_relr e)
  end.

(** [f] adds [s], unless the sum passes [u64]. *)
Definition adds (f : part_map -> part_map) (s : sizes) : Prop :=
  (forall p, 0 <= s p) /\
  forall m, (forall p, 0 <= m p /\ m p + s p < 2 ^ 64) -> forall p, f m p = m p + s p.

Definition one (q : part) (n : Z) : sizes := fun p => if decide (p = q) then n else 0.
Definition plus (s t : sizes) : sizes := fun p => s p + t p.

Lemma adds_increment q n : 0 <= n -> adds (increment q n) (one q n).
Proof.
  intros Hn. unfold adds, increment, one. split; [intros p; destruct (decide _); lia|].
  intros m Hm p. specialize (Hm p). destruct (decide (p = q)); [|lia]. rewrite wrap_id; [done|unfold is_uint; lia].
Qed.

Lemma adds_id : adds (fun m => m) (fun _ => 0).
Proof. split; [lia|]. intros. lia. Qed.

Lemma adds_compose f g s t : adds f s -> adds g t -> adds (fun m => g (f m)) (plus s t).
Proof.
  unfold plus. intros [Hs Hf] [Ht Hg]. split; [intros p; specialize (Hs p); specialize (Ht p); lia|].
  intros m Hm p. rewrite Hg.
  - rewrite Hf; [lia|]. intros q. specialize (Hm q). specialize (Ht q). lia.
  - intros q. rewrite Hf; [|intros r; specialize (Hm r); specialize (Ht r); lia].
    specialize (Hm q). specialize (Hs q). lia.
Qed.

Lemma adds_when b f s : adds f s -> adds (when b f) (fun p => if b then s p else 0).
Proof. intros H. destruct b; [apply H|apply adds_id]. Qed.

Lemma adds_ext f s t : (forall p, s p = t p) -> adds f s -> adds f t.
Proof. intros He [Hs Hf]. split; [intros p; by rewrite <- He|]. intros m Hm p. rewrite <- He. apply Hf. intros q. by rewrite He. Qed.

Lemma size_join d e p : size_of (join d e) p = size_of d p + size_of e p.
Proof. destruct p; cbn; rewrite len_app; lia. Qed.

Lemma size_given b e p : size_of (given b e) p = if b then size_of e p else 0.
Proof. by destruct b, p. Qed.

Lemma size_nothing p : size_of nothing p = 0.
Proof. by destruct p. Qed.

Lemma adds_join f g d e : adds f (size_of d) -> adds g (size_of e) -> adds (fun m => g (f m)) (size_of (join d e)).
Proof.
  intros Hf Hg. eapply adds_ext; [|apply (adds_compose _ _ _ _ Hf Hg)]. intros p. unfold plus. by rewrite size_join.
Qed.

Lemma adds_given b f e : (b = true -> adds f (size_of e)) -> adds (when b f) (size_of (given b e)).
Proof.
  intros H. destruct b; [by apply H|]. eapply adds_ext; [|apply adds_id]. intros p. by rewrite size_nothing.
Qed.

(** The increments of a block, against the lengths of an effect's lists. *)
Ltac adds_steps :=
  repeat first [ apply adds_increment; vm_compute; discriminate | apply adds_id | apply adds_when | eapply adds_compose ].

Section allocation.
Context (o : OutputKind) (relr : bool) (tls_start tls_end tp dtv_offset : Z) (reaches : Z -> Z -> bool).

Lemma adds_relative place address : adds (fun m => allocate_relative relr (increment GOT_PART GOT_ENTRY_SIZE m))
  (size_of (address_slot relr place address)).
Proof.
  eapply adds_ext with (s := plus (one GOT_PART GOT_ENTRY_SIZE)
    (if relr then one RELR_DYN RELR_ENTRY_SIZE else one RELA_DYN_RELATIVE RELA_ENTRY_SIZE)).
  - intros p. unfold plus. by destruct relr, p.
  - unfold allocate_relative. destruct relr; adds_steps.
Qed.

Lemma adds_tls_offset res a : agreement o tls_start tls_end res -> needs_got_tls_offset (rs_flags res) = true ->
  adds (fun m => when (is_interposable (rs_flags res) || is_shared_object o) (increment RELA_DYN_GENERAL RELA_ENTRY_SIZE)
                   (increment GOT_PART GOT_ENTRY_SIZE m))
       (size_of (tls_offset_effect o tls_start tp res a)).
Proof.
  intros Hag Eo. eapply adds_ext; [|adds_steps]. intros p. unfold tls_offset_effect, plus, one. cbv beta.
  destruct (dynamically_bound (rs_flags res)) eqn:Eb.
  - assert (is_interposable (rs_flags res) = true) as ->; [|by destruct p].
    unfold dynamically_bound in Eb. apply orb_true_iff in Eb as [Eb|Eb]; [by apply (ag_dynamic _ _ _ _ Hag)|].
    by apply andb_true_iff in Eb as [_ ->].
  - destruct (ag_offset _ _ _ _ Hag Eo Eb) as [_ Hx]. destruct (is_executable o) eqn:Ex.
    + rewrite Hx. assert (is_shared_object o = false) as -> by by destruct o. destruct (_ =? 0); by destruct p.
    + destruct Hx as [-> Hz%Z.eqb_neq]. rewrite orb_true_r, Hz. by destruct p.
Qed.

Lemma adds_tls_module res a : agreement o tls_start tls_end res ->
  adds (fun m => when (is_interposable (rs_flags res) && (is_dynamic (rs_flags res) || needs_export_dynamic (rs_flags res)))
                   (increment RELA_DYN_GENERAL RELA_ENTRY_SIZE)
                   (when (negb (is_executable o) || is_dynamic (rs_flags res)) (increment RELA_DYN_GENERAL RELA_ENTRY_SIZE)
                   (increment GOT_PART (GOT_ENTRY_SIZE * 2) m)))
       (size_of (tls_module_effect o tls_start dtv_offset res a)).
Proof.
  intros Hag. eapply adds_ext; [|eapply adds_compose; [eapply adds_compose; [adds_steps|adds_steps]|adds_steps]].
  intros p. unfold tls_module_effect, plus, one. cbv beta. rewrite size_join.
  pose proof (ag_bound _ _ _ _ Hag) as Hb. pose proof (ag_index _ _ _ _ Hag) as Hi. unfold dynamically_bound in Hb.
  destruct (rs_dynamic_symbol_index res) as [i|].
  - rewrite (Hi (ex_intro _ i eq_refl)).
    destruct (is_interposable (rs_flags res)), (is_executable o), (is_dynamic (rs_flags res)); by destruct p.
  - destruct (is_dynamic (rs_flags res)); [by destruct (Hb eq_refl)|].
    destruct (is_interposable (rs_flags res)), (needs_export_dynamic (rs_flags res)); try by destruct (Hb eq_refl).
    all: destruct (is_executable o); by destruct p.
Qed.

Lemma adds_tls_descriptor res a :
  adds (fun m => increment RELA_DYN_GENERAL RELA_ENTRY_SIZE (increment GOT_PART (GOT_ENTRY_SIZE * 2) m))
       (size_of (tls_descriptor_effect tls_start res a)).
Proof. eapply adds_ext; [|adds_steps]. intros p. unfold plus, one. by destruct p. Qed.

(** Both read the same branch off the flags. *)
Lemma bound_alike flags : (is_dynamic flags = true -> is_interposable flags = true /\ is_ifunc flags = false) ->
  is_ifunc flags = false ->
  is_dynamic flags || (needs_export_dynamic flags && is_interposable flags) && negb (is_ifunc flags)
  = is_interposable flags && (is_dynamic flags || needs_export_dynamic flags).
Proof.
  intros Hd Hi. rewrite Hi. destruct (is_dynamic flags); [destruct Hd as [-> _]; done|].
  by destruct (needs_export_dynamic flags), (is_interposable flags).
Qed.

Lemma adds_got res a : agreement o tls_start tls_end res -> shaped reaches res ->
  adds (fun m =>
    let m := when (needs_plt (rs_flags res)) (increment PLT_GOT PLT_ENTRY_SIZE) (increment GOT_PART GOT_ENTRY_SIZE m) in
    if is_ifunc (rs_flags res) then increment RELA_PLT RELA_ENTRY_SIZE m
    else if is_interposable (rs_flags res) && (is_dynamic (rs_flags res) || needs_export_dynamic (rs_flags res))
    then increment RELA_DYN_GENERAL RELA_ENTRY_SIZE m
    else if is_address (rs_flags res) && is_relocatable o then allocate_relative relr m
    else m) (size_of (join (got_effect o relr res a) (plt_effect res a))).
Proof.
  intros Hag Hsh. pose proof (bound_alike _ (ag_dynamic _ _ _ _ Hag)) as Hb. pose proof (sh_plt _ _ Hsh) as Hp.
  assert (forall p, size_of (plt_effect res a) p = if needs_plt (rs_flags res) then one PLT_GOT PLT_ENTRY_SIZE p else 0) as Hplt.
  { intros p. unfold plt_effect. destruct (rs_plt_address res) as [x|].
    - rewrite (proj1 Hp) by done. by destruct p.
    - destruct (needs_plt (rs_flags res)); [|by destruct p]. by destruct (proj2 Hp eq_refl). }
  unfold got_effect. cbv zeta. destruct (is_ifunc (rs_flags res)) eqn:Ei.
  - eapply adds_ext; [|adds_steps]. intros p. unfold plus. cbv beta. rewrite size_join, Hplt.
    destruct (is_dynamic (rs_flags res)) eqn:Ed; [by destruct (ag_dynamic _ _ _ _ Hag Ed); congruence|].
    rewrite andb_false_r. unfold one. by destruct (needs_plt (rs_flags res)), p.
  - rewrite Hb by done. destruct (_ && (_ || _)).
    + eapply adds_ext; [|adds_steps]. intros p. unfold plus. cbv beta. rewrite size_join, Hplt.
      unfold one. by destruct (needs_plt (rs_flags res)), p.
    + destruct (is_address (rs_flags res) && is_relocatable o).
      * unfold allocate_relative. destruct relr; (eapply adds_ext; [|adds_steps]; intros p; unfold plus; cbv beta;
          rewrite size_join, Hplt; unfold one; by destruct (needs_plt (rs_flags res)), p).
      * eapply adds_ext; [|adds_steps]. intros p. unfold plus. cbv beta. rewrite size_join, Hplt.
        unfold one. by destruct (needs_plt (rs_flags res)), p.
Qed.

Lemma adds_ifunc_got res a p : rs_plt_address res = Some p ->
  adds (fun m => when (is_relocatable o) (allocate_relative relr) (increment GOT_PART GOT_ENTRY_SIZE m))
       (size_of (ifunc_got_effect o relr res a)).
Proof.
  intros Hp. unfold ifunc_got_effect. rewrite Hp. destruct (is_relocatable o); [apply adds_relative|].
  eapply adds_ext; [|adds_steps]. intros q. by destruct q.
Qed.

(** Layout's sizes are those of the effect. *)
Lemma allocate_resolution_adds res : agreement o tls_start tls_end res -> shaped reaches res ->
  adds (allocate_resolution o relr (rs_flags res)) (size_of (effect_of o relr tls_start tp dtv_offset res)).
Proof.
  intros Hag Hsh. pose proof (ag_plt _ _ _ _ Hag) as Hplt. pose proof (ag_ifunc _ _ _ _ Hag) as Hif.
  pose proof (sh_got _ _ Hsh) as Hgot. pose proof (sh_plt _ _ Hsh) as Hp. unfold effect_of.
  unfold allocate_resolution. cbv zeta.
  assert (is_tls_symbol (rs_flags res) = needs_got_tls_offset (rs_flags res) || needs_got_tls_module (rs_flags res)
          || needs_got_tls_descriptor (rs_flags res)) as Etls by done.
  destruct (is_tls_symbol (rs_flags res)) eqn:Et.
  - assert (needs_plt (rs_flags res) = false) as Ep by (destruct (needs_plt _); [by destruct (Hplt eq_refl)|done]).
    assert (needs_ifunc_got_for_address (rs_flags res) = false) as Ei
      by (destruct (needs_ifunc_got_for_address _); [rewrite Hif in Ep by done|]; done).
    rewrite Ei, andb_false_r. destruct (proj2 Hgot) as [a ->]; [by rewrite orb_true_r|].
    unfold effect_at. rewrite Et. cbv zeta.
    apply (adds_join (when (needs_got_tls_offset (rs_flags res)) _) (fun m => when _ _ (when _ _ m))).
    + apply adds_given, adds_tls_offset; done.
    + apply (adds_join (when _ _) (when _ _)); apply adds_given; intros _; [by apply adds_tls_module|apply adds_tls_descriptor].
  - symmetry in Etls. apply orb_false_iff in Etls as [[Eo Em]%orb_false_iff Ed]. rewrite Eo, Em, Ed.
    rewrite andb_true_r. destruct (rs_got_address res) as [a|] eqn:Ea.
    + assert (needs_got (rs_flags res) = true) as ->.
      { pose proof (proj1 Hgot (ex_intro _ a eq_refl)) as Hn. rewrite orb_false_r in Hn.
        apply orb_true_iff in Hn as [Hn|Hn]; [by apply Hplt|done]. }
      unfold effect_at. rewrite Et. cbv zeta.
      eapply adds_ext with (s := size_of (join (join (got_effect o relr res a) (plt_effect res a))
                                   (given (needs_ifunc_got_for_address (rs_flags res)) (ifunc_got_effect o relr res a)))).
      { intros p. rewrite !size_join. lia. }
      refine (adds_join _ (when (needs_ifunc_got_for_address (rs_flags res))
                             (fun m => when (is_relocatable o) (allocate_relative relr) (increment GOT_PART GOT_ENTRY_SIZE m)))
                _ _ (adds_got res a Hag Hsh) _).
      apply adds_given. intros Ei. destruct (proj2 Hp (Hif Ei)) as [p Ep]. by apply adds_ifunc_got with p.
    + rewrite orb_false_r in Hgot.
      destruct (needs_plt (rs_flags res)) eqn:Ep; [by destruct (proj2 Hgot eq_refl)|].
      destruct (needs_got (rs_flags res)) eqn:Eg; [by destruct (proj2 Hgot eq_refl)|].
      destruct (needs_ifunc_got_for_address (rs_flags res)); [by specialize (Hif eq_refl)|].
      eapply adds_ext; [|apply adds_id]. intros p. by rewrite size_nothing.
Qed.

(** ** Layout's addresses are those of the effect *)

(** No table grows by more than this for one symbol. *)
Definition per_symbol : Z := 200.

Abbreviation effect_here := (effect_of o relr tls_start tp dtv_offset).

(** A part of an effect: bounded, and packed only when RELR is enabled. *)
Definition small (e : effect) : Prop := (forall p, 0 <= size_of e p <= 50) /\ (relr = false -> ef_relr e = []).

Lemma small_given b e : small e -> small (given b e).
Proof. intros [H Hr]. split; [|by destruct b]. intros p. rewrite size_given. specialize (H p). destruct b; lia. Qed.

Ltac small_cases := split; [intros p; rewrite ?size_join; destruct p; vm_compute; split; discriminate|done].

Lemma small_tls_offset res a : small (tls_offset_effect o tls_start tp res a).
Proof. unfold tls_offset_effect. destruct (dynamically_bound _), (rs_raw_value res =? 0), (is_executable o); small_cases. Qed.

Lemma small_tls_module res a : small (tls_module_effect o tls_start dtv_offset res a).
Proof.
  unfold tls_module_effect.
  destruct (is_executable o && negb (is_dynamic (rs_flags res))), (rs_dynamic_symbol_index res),
    (is_interposable (rs_flags res)); cbn [given]; small_cases.
Qed.

Lemma small_tls_descriptor res a : small (tls_descriptor_effect tls_start res a).
Proof. small_cases. Qed.

Lemma small_got res a : small (got_effect o relr res a).
Proof.
  unfold small, got_effect, address_slot. destruct (is_dynamic (rs_flags res) || _), (is_ifunc (rs_flags res)),
    (is_address (rs_flags res) && is_relocatable o), relr; small_cases.
Qed.

Lemma small_plt res a : small (plt_effect res a).
Proof. unfold plt_effect. destruct (rs_plt_address res); small_cases. Qed.

Lemma small_ifunc_got res a : small (ifunc_got_effect o relr res a).
Proof. unfold small, ifunc_got_effect, address_slot. destruct (rs_plt_address res), (is_relocatable o), relr; small_cases. Qed.

Lemma size_bound res p : 0 <= size_of (effect_here res) p <= per_symbol.
Proof.
  unfold effect_of, effect_at, per_symbol. cbv zeta. destruct (rs_got_address res) as [a|]; [|rewrite size_nothing; lia].
  destruct (is_tls_symbol _); rewrite !size_join.
  - pose proof (proj1 (small_given (needs_got_tls_offset (rs_flags res)) _ (small_tls_offset res a)) p) as H.
    epose proof (proj1 (small_given (needs_got_tls_module (rs_flags res)) _ (small_tls_module res _)) p) as H1.
    epose proof (proj1 (small_given (needs_got_tls_descriptor (rs_flags res)) _ (small_tls_descriptor res _)) p) as H2.
    split; [apply Z.add_nonneg_nonneg; [lia|apply Z.add_nonneg_nonneg; [apply H1|apply H2]]|].
    etransitivity; [apply Z.add_le_mono; [apply H|apply Z.add_le_mono; [apply H1|apply H2]]|lia].
  - pose proof (proj1 (small_got res a) p). pose proof (proj1 (small_plt res a) p).
    pose proof (proj1 (small_given (needs_ifunc_got_for_address (rs_flags res)) _ (small_ifunc_got res a)) p). lia.
Qed.

Lemma got_slots res a : rs_got_address res = Some a ->
  size_of (effect_here res) GOT_PART =
  if is_tls_symbol (rs_flags res)
  then 8 * (b2z (needs_got_tls_offset (rs_flags res)) + 2 * b2z (needs_got_tls_module (rs_flags res))
            + 2 * b2z (needs_got_tls_descriptor (rs_flags res)))
  else 8 * (1 + b2z (needs_ifunc_got_for_address (rs_flags res) && bool_decide (is_Some (rs_plt_address res)))).
Proof.
  intros Ea. unfold effect_of. rewrite Ea. unfold effect_at. cbv zeta. destruct (is_tls_symbol _); rewrite !size_join, !size_given.
  - assert (forall x, size_of (tls_offset_effect o tls_start tp res x) GOT_PART = 8) as ->.
    { intros x. unfold tls_offset_effect. by destruct (dynamically_bound _), (rs_raw_value res =? 0), (is_executable o). }
    assert (forall x, size_of (tls_module_effect o tls_start dtv_offset res x) GOT_PART = 16) as ->.
    { intros x. unfold tls_module_effect.
      by destruct (is_executable o && negb (is_dynamic (rs_flags res))), (rs_dynamic_symbol_index res), (is_interposable (rs_flags res)). }
    assert (forall x, size_of (tls_descriptor_effect tls_start res x) GOT_PART = 16) as -> by done.
    by destruct (needs_got_tls_offset _), (needs_got_tls_module _), (needs_got_tls_descriptor _).
  - assert (size_of (got_effect o relr res a) GOT_PART = 8) as ->.
    { unfold got_effect, address_slot. by destruct (is_dynamic (rs_flags res) || _), (is_ifunc (rs_flags res)),
        (is_address (rs_flags res) && is_relocatable o), relr. }
    unfold plt_effect, ifunc_got_effect, address_slot.
    by destruct (rs_plt_address res), (needs_ifunc_got_for_address _), (is_relocatable o), relr.
Qed.

Lemma plt_slots res a : rs_got_address res = Some a ->
  size_of (effect_here res) PLT_GOT =
  if is_tls_symbol (rs_flags res) then 0 else 16 * b2z (bool_decide (is_Some (rs_plt_address res))).
Proof.
  intros Ea. unfold effect_of. rewrite Ea. unfold effect_at. cbv zeta. destruct (is_tls_symbol _); rewrite !size_join, !size_given.
  - assert (forall x, size_of (tls_offset_effect o tls_start tp res x) PLT_GOT = 0) as ->.
    { intros x. unfold tls_offset_effect. by destruct (dynamically_bound _), (rs_raw_value res =? 0), (is_executable o). }
    assert (forall x, size_of (tls_module_effect o tls_start dtv_offset res x) PLT_GOT = 0) as ->.
    { intros x. unfold tls_module_effect.
      by destruct (is_executable o && negb (is_dynamic (rs_flags res))), (rs_dynamic_symbol_index res), (is_interposable (rs_flags res)). }
    by destruct (needs_got_tls_offset _), (needs_got_tls_module _), (needs_got_tls_descriptor _).
  - assert (size_of (got_effect o relr res a) PLT_GOT = 0) as ->.
    { unfold got_effect, address_slot. by destruct (is_dynamic (rs_flags res) || _), (is_ifunc (rs_flags res)),
        (is_address (rs_flags res) && is_relocatable o), relr. }
    unfold plt_effect, ifunc_got_effect, address_slot.
    by destruct (rs_plt_address res), (needs_ifunc_got_for_address _), (is_relocatable o), relr.
Qed.

Lemma consistent_raw flags r r' i : needs_got_tls_offset flags = false ->
  consistent o tls_start tls_end flags r i = consistent o tls_start tls_end flags r' i.
Proof. intros H. unfold consistent. by rewrite H. Qed.

(** Where the next group of entries starts: aligned, in range, and reachable from its PLT entry. *)
Record cursor_ok (m : part_map) : Prop := {
  cu_got : 0 < m GOT_PART /\ m GOT_PART + per_symbol < 2 ^ 64 /\ m GOT_PART mod 8 = 0;
  cu_plt : 0 < m PLT_GOT /\ m PLT_GOT + per_symbol < 2 ^ 64;
  cu_reach : reaches (m GOT_PART) (m PLT_GOT) = true }.

Lemma increment_at q n m p : increment q n m p = if decide (p = q) then u64 (m p + n) else m p.
Proof. done. Qed.

Lemma non_zero_ok x : 0 < x -> non_zero x = Ret x.
Proof. intros H. unfold non_zero. by rewrite (proj2 (Z.eqb_neq _ _)) by lia. Qed.

Lemma create_resolution_ok flags raw i m : consistent o tls_start tls_end flags raw i = true -> cursor_ok m ->
  exists res m', create_resolution flags raw i m = Ret (res, m') /\
    rs_flags res = flags /\ rs_dynamic_symbol_index res = i /\
    (needs_plt flags && is_dynamic flags = false -> rs_raw_value res = raw) /\
    agreement o tls_start tls_end res /\ shaped reaches res /\
    (forall a, rs_got_address res = Some a -> a = m GOT_PART) /\
    (forall p, p = GOT_PART \/ p = PLT_GOT -> m' p = m p + size_of (effect_here res) p).
Proof.
  intros Hc Hm. destruct (cu_got _ Hm) as (G0 & G1 & G8), (cu_plt _ Hm) as (P0 & P1). pose proof (cu_reach _ Hm) as Hr.
  unfold per_symbol in *.
  unfold create_resolution, allocate_plt, allocate_got. rewrite !(non_zero_ok (m PLT_GOT)) by lia. cbn [mbind outcome_bind].
  rewrite !increment_at. rewrite !decide_False by done. rewrite !(non_zero_ok (m GOT_PART)) by lia. cbn [mbind outcome_bind].
  assert (forall r g p, needs_got_tls_offset flags = false \/ r = raw ->
            agreement o tls_start tls_end (mkResolution r i g p flags)) as Hag.
  { intros r g p Hr'. apply agreeable_agreement. unfold agreeable. cbn. destruct Hr' as [Ho| ->]; [|done].
    by rewrite (consistent_raw _ _ raw). }
  assert (forall x y, 0 <= x -> 0 <= y <= 64 -> x + 200 < 2 ^ 64 -> u64 (x + y) = x + y) as Hu
    by (intros; apply next_entry; lia).
  pose proof (Hag raw None None (or_intror eq_refl)) as Hag0.
  pose proof (ag_plt _ _ _ _ Hag0) as Hplt. pose proof (ag_ifunc _ _ _ _ Hag0) as Hif. cbn in Hplt, Hif.
  destruct (needs_plt flags) eqn:Ep; [|destruct (is_tls_symbol flags) eqn:Et; [|destruct (needs_got flags) eqn:Eg]].
  all: eexists _, _; split; [done|]; split; [done|]; split; [done|].
  - destruct Hplt as [_ Et]; [done|].
    assert (needs_got_tls_offset flags = false) as Eo
      by (unfold is_tls_symbol, needs_got_tls_offset in *; by destruct (contains flags GOT_TLS_OFFSET)).
    split; [cbn; by intros ->|]. split; [apply Hag; by left|]. split; [|split].
    + split; cbn; rewrite ?Ep; [by split; [done|intros _; eexists]..| |]; [intros ? [= <-]; lia|by intros ? ? [= <-] [= <-]].
    + by intros ? [= <-].
    + intros p Hp. pose proof (got_slots (mkResolution (if is_dynamic flags then m PLT_GOT else raw) i (Some (m GOT_PART))
        (Some (m PLT_GOT)) flags) _ eq_refl) as Hs1. pose proof (plt_slots (mkResolution (if is_dynamic flags then m PLT_GOT else raw) i
        (Some (m GOT_PART)) (Some (m PLT_GOT)) flags) _ eq_refl) as Hs2. cbn [rs_flags rs_plt_address] in Hs1, Hs2. rewrite Et in Hs1, Hs2.
      rewrite bool_decide_true in Hs1, Hs2 by done. unfold GOT_ENTRY_SIZE, PLT_ENTRY_SIZE. rewrite !increment_at.
      destruct Hp as [-> | ->]; [rewrite Hs1|rewrite Hs2]; repeat first [rewrite decide_True by done|rewrite decide_False by done].
      1: destruct (needs_ifunc_got_for_address flags).
      all: rewrite Hu by lia; cbn [b2z andb]; lia.
  - split; [done|]. split; [apply Hag; by right|]. split; [|split].
    + split; cbn; rewrite ?Ep, ?Et; [by split; [done|intros _; eexists]|by split; [intros [? ?]|]| |done].
      intros ? [= <-]. lia.
    + by intros ? [= <-].
    + intros p Hp. pose proof (got_slots (mkResolution raw i (Some (m GOT_PART)) None flags) _ eq_refl) as Hs1.
      pose proof (plt_slots (mkResolution raw i (Some (m GOT_PART)) None flags) _ eq_refl) as Hs2.
      cbn [rs_flags] in Hs1, Hs2. rewrite Et in Hs1, Hs2. unfold GOT_ENTRY_SIZE. rewrite !increment_at.
      destruct Hp as [-> | ->]; [rewrite Hs1, decide_True by done|by rewrite Hs2, decide_False, Z.add_0_r].
      destruct (needs_got_tls_offset flags), (needs_got_tls_module flags), (needs_got_tls_descriptor flags);
        cbn [b2z]; rewrite Hu by lia; lia.
  - split; [done|]. split; [apply Hag; by right|]. split; [|split].
    + split; cbn; rewrite ?Ep, ?Et, ?Eg; [by split; [done|intros _; eexists]|by split; [intros [? ?]|]| |done].
      intros ? [= <-]. lia.
    + by intros ? [= <-].
    + intros p Hp. pose proof (got_slots (mkResolution raw i (Some (m GOT_PART)) None flags) _ eq_refl) as Hs1.
      pose proof (plt_slots (mkResolution raw i (Some (m GOT_PART)) None flags) _ eq_refl) as Hs2.
      cbn [rs_flags rs_plt_address] in Hs1, Hs2. rewrite Et, bool_decide_false in Hs1, Hs2 by (by intros [? ?]).
      rewrite andb_false_r in Hs1. unfold GOT_ENTRY_SIZE. rewrite !increment_at.
      destruct Hp as [-> | ->]; [rewrite Hs1, decide_True, Hu by (done || lia); cbn [b2z]; lia|by rewrite Hs2, decide_False, Z.add_0_r].
  - split; [done|]. split; [apply Hag; by right|]. split; [|split].
    + split; cbn; rewrite ?Ep, ?Et, ?Eg; [by split; [intros [? ?]|]..|done|done].
    + done.
    + intros p Hp. unfold effect_of. cbn [rs_got_address]. by rewrite size_nothing, Z.add_0_r.
Qed.

(** ** A group of symbols *)

Abbreviation effects_here := (effects o relr tls_start tp dtv_offset).

(** Each symbol's GOT entries follow the previous one's. *)
Fixpoint consecutive (c : Z) (rs : list Resolution) : Prop :=
  match rs with
  | [] => True
  | res :: rs =>
      (forall a, rs_got_address res = Some a -> a = c) /\ consecutive (c + size_of (effect_here res) GOT_PART) rs
  end.

(** Room for [n] symbols' entries from the cursor on. *)
Record room (n : Z) (m : part_map) : Prop := {
  ro_got : 0 < m GOT_PART /\ m GOT_PART + per_symbol * (n + 1) < 2 ^ 64 /\ m GOT_PART mod 8 = 0;
  ro_plt : 0 < m PLT_GOT /\ m PLT_GOT + per_symbol * (n + 1) < 2 ^ 64;
  ro_reach : forall g p, m GOT_PART <= g <= m GOT_PART + per_symbol * n -> m PLT_GOT <= p <= m PLT_GOT + per_symbol * n ->
    reaches g p = true }.

Lemma got_size_8 res : size_of (effect_here res) GOT_PART mod 8 = 0.
Proof. cbn [size_of]. unfold GOT_ENTRY_SIZE. rewrite Z.mul_comm. apply Z.mod_mul. lia. Qed.

Lemma create_all_ok symbols m :
  forallb (fun s => consistent o tls_start tls_end (sy_flags s) (sy_raw_value s) (sy_dynamic_symbol_index s)) symbols = true ->
  room (len symbols) m ->
  exists rs m', create_all symbols m = Ret (rs, m') /\
    Forall2 (fun s res => rs_flags res = sy_flags s /\ rs_dynamic_symbol_index res = sy_dynamic_symbol_index s /\
      (needs_plt (sy_flags s) && is_dynamic (sy_flags s) = false -> rs_raw_value res = sy_raw_value s)) symbols rs /\
    Forall (fun res => agreement o tls_start tls_end res /\ shaped reaches res) rs /\
    consecutive (m GOT_PART) rs /\
    (forall p, p = GOT_PART \/ p = PLT_GOT -> m' p = m p + size_of (effects_here rs) p).
Proof.
  revert m. induction symbols as [|s symbols IH]; intros m Hall Hroom; cbn [create_all].
  - exists [], m. do 4 (split; [constructor|]). intros p _. cbn [effects foldr]. by rewrite size_nothing, Z.add_0_r.
  - cbn [forallb] in Hall. apply andb_true_iff in Hall as [Hs Hall]. rewrite len_cons in Hroom.
    destruct (ro_got _ _ Hroom) as (G0 & G1 & G8), (ro_plt _ _ Hroom) as (P0 & P1). pose proof (ro_reach _ _ Hroom) as Hr.
    pose proof (len_nonneg symbols) as Hn. unfold per_symbol in *.
    destruct (create_resolution_ok (sy_flags s) (sy_raw_value s) (sy_dynamic_symbol_index s) m Hs)
      as (res & m1 & -> & Hf & Hi & Hv & Hag & Hsh & Ha & Hm1).
    { split; unfold per_symbol; [lia..|apply Hr; lia]. }
    cbn [mbind outcome_bind].
    pose proof (size_bound res GOT_PART) as Bg. pose proof (size_bound res PLT_GOT) as Bp. unfold per_symbol in *.
    pose proof (Hm1 GOT_PART (or_introl eq_refl)) as E1. pose proof (Hm1 PLT_GOT (or_intror eq_refl)) as E2.
    destruct (IH m1 Hall) as (rs & m2 & -> & Hf2 & Hall2 & Hc & Hm2).
    { split; rewrite ?E1, ?E2; unfold per_symbol.
      - split; [lia|split; [lia|]]. by rewrite Z.add_mod, G8, got_size_8 by lia.
      - lia.
      - intros g p Hg Hp. apply Hr; lia. }
    exists (res :: rs), m2. cbn [mbind outcome_bind]. split; [done|]. split; [by constructor|].
    split; [by constructor|]. split; [split; [done|by rewrite <- E1]|].
    intros p Hp. rewrite Hm2, Hm1 by done. cbn [effects foldr]. rewrite size_join. unfold effects. lia.
Qed.

Lemma size_effects_bound rs p : 0 <= size_of (effects_here rs) p <= per_symbol * len rs.
Proof.
  induction rs as [|res rs IH]; cbn [effects foldr]; [rewrite size_nothing; vm_compute; split; discriminate|].
  rewrite size_join, len_cons. pose proof (size_bound res p). unfold per_symbol, effects in *. lia.
Qed.

Lemma allocate_all_ok symbols rs m :
  Forall2 (fun s res => rs_flags res = sy_flags s /\ agreement o tls_start tls_end res /\ shaped reaches res) symbols rs ->
  (forall p, 0 <= m p /\ m p + per_symbol * len rs < 2 ^ 64) ->
  forall p, allocate_all o relr symbols m p = m p + size_of (effects_here rs) p.
Proof.
  intros Hall. revert m. induction Hall as [|s res symbols rs (Hf & Hag & Hsh) _ IH]; intros m Hm p.
  - cbn. rewrite size_nothing. lia.
  - change (allocate_all o relr (s :: symbols) m) with (allocate_all o relr symbols (allocate_resolution o relr (sy_flags s) m)).
    cbn [effects foldr]. rewrite size_join.
    rewrite len_cons in Hm. pose proof (len_nonneg rs) as Hn. unfold per_symbol in Hm.
    assert (forall q, allocate_resolution o relr (sy_flags s) m q = m q + size_of (effect_here res) q) as Hq.
    { rewrite <- Hf. apply (allocate_resolution_adds res Hag Hsh). intros q. specialize (Hm q). pose proof (size_bound res q) as B.
      unfold per_symbol in B. lia. }
    rewrite IH.
    + rewrite Hq. unfold effects. lia.
    + intros q. rewrite Hq. specialize (Hm q). pose proof (size_bound res q) as B. unfold per_symbol in *. lia.
Qed.

(** Tables of just the effect's size. *)
Definition exact (e : effect) (m : part_map) : Prop := forall p, m p = size_of e p.

Lemma exact_len (n l : Z) : 0 < n -> n * l / n = l.
Proof. intros H. rewrite Z.mul_comm. apply Z.div_mul. lia. Qed.

Lemma exact_fits e m : exact e m -> (relr = false -> ef_relr e = []) -> fits relr e (new_writer relr m).
Proof.
  intros He Hr. unfold fits, new_writer, entries. cbn [tw_got tw_plt_got tw_rela_plt tw_rela_dyn_relative tw_rela_dyn_general tw_relr_dyn left_over].
  rewrite !He. cbn [size_of]. unfold GOT_ENTRY_SIZE, PLT_ENTRY_SIZE, RELA_ENTRY_SIZE, RELR_ENTRY_SIZE.
  rewrite !exact_len by lia. do 5 (split; [lia|]). destruct relr; cbn [andb]; [|by apply Hr].
  destruct (Z.eqb_spec (len (ef_relr e)) 0) as [E|E]; cbn [negb]; [|split; [done|cbn [left_over]; lia]].
  by apply len_0_inv in E.
Qed.

Lemma exact_filled e m (w := extend e (new_writer relr m)) : exact e m -> (relr = false -> ef_relr e = []) ->
  validate_empty w = None /\ left_over (tw_plt_got w) = 0 /\ left_over (tw_rela_plt w) = 0.
Proof.
  intros He Hr. subst w. unfold validate_empty, unused, extend, new_writer, entries, ext.
  cbn [tw_got tw_plt_got tw_rela_plt tw_rela_dyn_relative tw_rela_dyn_general tw_relr_dyn left_over].
  rewrite !He. cbn [size_of]. unfold GOT_ENTRY_SIZE, PLT_ENTRY_SIZE, RELA_ENTRY_SIZE, RELR_ENTRY_SIZE.
  rewrite !exact_len by lia. rewrite !Z.sub_diag. cbn [Z.eqb negb]. split; [|done].
  destruct (relr && _); cbn; [|done]. by rewrite Z.sub_diag.
Qed.

Lemma effects_relr rs : relr = false -> ef_relr (effects_here rs) = [].
Proof.
  intros Hr. induction rs as [|res rs IH]; [done|]. cbn [effects foldr join ef_relr]. unfold effects in IH. rewrite IH, app_nil_r.
  unfold effect_of, effect_at. cbv zeta. destruct (rs_got_address res) as [a|]; [|done].
  destruct (is_tls_symbol _); cbn [join ef_relr].
  - rewrite (proj2 (small_given _ _ (small_tls_offset res a)) Hr).
    rewrite (proj2 (small_given _ _ (small_tls_module res _)) Hr).
    by rewrite (proj2 (small_given _ _ (small_tls_descriptor res _)) Hr).
  - rewrite (proj2 (small_got res a) Hr), (proj2 (small_plt res a) Hr).
    by rewrite (proj2 (small_given _ _ (small_ifunc_got res a)) Hr).
Qed.
End allocation.
