(* ===== verification/GotLoad.v ===== *)
(** What the tables of [GotAlloc] come to: layout and writer agree for every group of
    consistent symbols, and after the dynamic loader has applied the relocations each GOT
    entry holds what the code that reads it expects. *)
From stdpp Require Import base numbers list.
From S2P Require Import Prelude RelocInfo ValueFlags GotAlloc GotSpec.
Open Scope Z_scope.

(** ** The loader *)

(** The values the dynamic loader finds at run time: a dynamic symbol's address, what an ifunc's resolver
    returns, the thread-pointer offset of a symbol plus addend, a symbol's module and its offset there. *)
Record loader := mkLoader {
  ld_symbol : Z -> Z; ld_resolver : Z -> Z; ld_tp_offset : Z -> Z -> Z; ld_module : Z -> Z; ld_dtp_offset : Z -> Z -> Z }.

(** The word at the place of a relocation once it is applied, the output being loaded at [base]. *)
Definition relocated (L : loader) (base : Z) (v : Z) (r : Rela) : Z :=
  match r_kind r with
  | DRelative => u64 (base + r_addend r)
  | DGotEntry => ld_symbol L (r_sym r)
  | DIrelative => ld_resolver L (u64 (base + r_addend r))
  | DTpOff => ld_tp_offset L (r_sym r) (r_addend r)
  | DDtpMod => ld_module L (r_sym r)
  | DDtpOff => ld_dtp_offset L (r_sym r) (r_addend r)
  | _ => v
  end.

(** The word at [place] that was written as [v]: packed relocations first, then the others. *)
Definition loaded (L : loader) (base place v : Z) (e : effect) : Z :=
  foldl (relocated L base)
    (foldl (fun v _ => u64 (v + base)) v (filter (fun p => p = place) (ef_relr e)))
    (filter (fun r => r_offset r = place) (ef_relative e ++ ef_rela_plt e ++ ef_general e)).

(** The places an effect relocates. *)
Definition places (e : effect) : list Z :=
  ef_relr e ++ (r_offset <$> ef_relative e) ++ (r_offset <$> ef_rela_plt e) ++ (r_offset <$> ef_general e).

Definition within (lo hi : Z) (e : effect) : Prop := Forall (fun p => lo <= p < hi) (places e).

Lemma within_parts lo hi e : within lo hi e <->
  Forall (fun p => lo <= p < hi) (ef_relr e) /\ Forall (fun r => lo <= r_offset r < hi) (ef_relative e) /\
  Forall (fun r => lo <= r_offset r < hi) (ef_rela_plt e) /\ Forall (fun r => lo <= r_offset r < hi) (ef_general e).
Proof. unfold within, places. by rewrite !Forall_app, !Forall_fmap. Qed.

Lemma within_weaken lo hi lo' hi' e : lo' <= lo -> hi <= hi' -> within lo hi e -> within lo' hi' e.
Proof. intros Hl Hh H. eapply Forall_impl; [apply H|]. cbn. lia. Qed.

Lemma within_join lo hi d e : within lo hi d -> within lo hi e -> within lo hi (join d e).
Proof.
  rewrite !within_parts. intros (? & ? & ? & ?) (? & ? & ? & ?). cbn. by rewrite !Forall_app.
Qed.

Lemma filter_nothing {A} (f : A -> Z) place lo hi (l : list A) : Forall (fun x => lo <= f x < hi) l ->
  place < lo \/ hi <= place -> filter (fun x => f x = place) l = [].
Proof.
  intros H Hp. induction H as [|x l Hx _ IH]; [done|]. rewrite filter_cons_False by lia. apply IH.
Qed.

Lemma loaded_left L base place v d e lo hi : within lo hi d -> place < lo \/ hi <= place ->
  loaded L base place v (join d e) = loaded L base place v e.
Proof.
  rewrite within_parts. intros (H1 & H2 & H3 & H4) Hp. unfold loaded. cbn. rewrite !filter_app.
  rewrite (filter_nothing (fun x => x) _ _ _ _ H1 Hp), (filter_nothing r_offset _ _ _ _ H2 Hp),
    (filter_nothing r_offset _ _ _ _ H3 Hp), (filter_nothing r_offset _ _ _ _ H4 Hp). done.
Qed.

Lemma loaded_right L base place v d e lo hi : within lo hi e -> place < lo \/ hi <= place ->
  loaded L base place v (join d e) = loaded L base place v d.
Proof.
  rewrite within_parts. intros (H1 & H2 & H3 & H4) Hp. unfold loaded. cbn. rewrite !filter_app.
  rewrite (filter_nothing (fun x => x) _ _ _ _ H1 Hp), (filter_nothing r_offset _ _ _ _ H2 Hp),
    (filter_nothing r_offset _ _ _ _ H3 Hp), (filter_nothing r_offset _ _ _ _ H4 Hp). by rewrite !app_nil_r.
Qed.

Section slots.
Context (o : OutputKind) (relr : bool) (tls_start tls_end tp dtv_offset : Z) (reaches : Z -> Z -> bool).

Abbreviation effect_here := (effect_of o relr tls_start tp dtv_offset).
Abbreviation effects_here := (effects o relr tls_start tp dtv_offset).

Ltac one_place := apply within_parts; repeat split; repeat constructor; cbn; lia.

Lemma within_tls_offset res a : within a (a + 8) (tls_offset_effect o tls_start tp res a).
Proof. unfold tls_offset_effect. destruct (dynamically_bound _), (rs_raw_value res =? 0), (is_executable o); one_place. Qed.

Lemma within_tls_module res a : within a (a + 16) (tls_module_effect o tls_start dtv_offset res a).
Proof.
  unfold tls_module_effect. destruct (is_executable o && negb (is_dynamic (rs_flags res))), (rs_dynamic_symbol_index res),
    (is_interposable (rs_flags res)); cbn [given]; one_place.
Qed.

Lemma within_tls_descriptor res a : within a (a + 16) (tls_descriptor_effect tls_start res a).
Proof. one_place. Qed.

Lemma within_got res a : within a (a + 8) (got_effect o relr res a).
Proof.
  unfold got_effect, address_slot. destruct (is_dynamic (rs_flags res) || _), (is_ifunc (rs_flags res)),
    (is_address (rs_flags res) && is_relocatable o), relr; one_place.
Qed.

Lemma within_plt res a lo hi : within lo hi (plt_effect res a).
Proof. unfold plt_effect. destruct (rs_plt_address res); apply within_parts; repeat constructor. Qed.

Lemma within_ifunc_got res a : within (a + 8) (a + 16) (ifunc_got_effect o relr res a).
Proof. unfold ifunc_got_effect, address_slot. destruct (rs_plt_address res), (is_relocatable o), relr; one_place. Qed.

Lemma within_given b lo hi e : (b = true -> within lo hi e) -> within lo hi (given b e).
Proof. intros H. destruct b; [by apply H|]. by apply within_parts. Qed.

(** A symbol's relocations are within its own entries. *)
Lemma within_symbol res a : rs_got_address res = Some a -> agreement o tls_start tls_end res -> shaped reaches res ->
  within a (a + size_of (effect_here res) GOT_PART) (effect_here res).
Proof.
  intros Ea Hag Hsh. rewrite (got_slots o relr tls_start tp dtv_offset res a Ea). unfold effect_of. rewrite Ea.
  unfold effect_at. cbv zeta. destruct (is_tls_symbol _).
  - assert (forall b, 0 <= b2z b <= 1) as Hb by (intros []; cbn; lia).
    pose proof (Hb (needs_got_tls_offset (rs_flags res))). pose proof (Hb (needs_got_tls_module (rs_flags res))).
    pose proof (Hb (needs_got_tls_descriptor (rs_flags res))).
    apply within_join; [|apply within_join]; apply within_given; intros E.
    + rewrite E in *. cbn [b2z]. eapply within_weaken; [..|apply within_tls_offset]; lia.
    + rewrite E in *. cbn [b2z]. eapply within_weaken; [..|apply within_tls_module]; lia.
    + rewrite E in *. cbn [b2z]. eapply within_weaken; [..|apply within_tls_descriptor]; lia.
  - assert (forall b, 0 <= b2z b) as Hb by (intros []; cbn; lia).
    match goal with |- context [b2z ?b] => pose proof (Hb b) as Hc end.
    apply within_join; [eapply within_weaken; [..|apply within_got]; lia|].
    apply within_join; [apply within_plt|]. apply within_given. intros E.
    destruct (proj2 (sh_plt _ _ Hsh) (ag_ifunc _ _ _ _ Hag E)) as [p Ep].
    rewrite E, Ep, bool_decide_true in * by done. cbn [andb b2z].
    eapply within_weaken; [..|apply within_ifunc_got]; lia.
Qed.

Lemma within_symbols c rs : consecutive o relr tls_start tp dtv_offset c rs ->
  Forall (fun res => agreement o tls_start tls_end res /\ shaped reaches res) rs ->
  within c (c + size_of (effects_here rs) GOT_PART) (effects_here rs).
Proof.
  intros Hc Hall. revert c Hc. induction Hall as [|res rs [Hag Hsh] _ IH]; intros c Hc; [by apply within_parts|].
  destruct Hc as [Ha Hc]. cbn [effects foldr]. rewrite size_join. fold (effects_here rs).
  pose proof (size_bound o relr tls_start tp dtv_offset res GOT_PART) as [B1 _].
  pose proof (size_effects_bound o relr tls_start tp dtv_offset rs GOT_PART) as [B2 _].
  apply within_join.
  - destruct (rs_got_address res) as [a|] eqn:Ea.
    + rewrite <- (Ha _ eq_refl) in *. eapply within_weaken; [..|by apply within_symbol]; lia.
    + unfold effect_of. rewrite Ea. by apply within_parts.
  - eapply within_weaken; [..|apply IH, Hc]; lia.
Qed.

Lemma effects_app rs1 rs2 : effects_here (rs1 ++ rs2) = join (effects_here rs1) (effects_here rs2).
Proof.
  induction rs1 as [|res rs1 IH].
  - change ([] ++ rs2) with rs2. cbn [effects foldr]. by destruct (effects_here rs2).
  - change (effects_here ((res :: rs1) ++ rs2)) with (join (effect_here res) (effects_here (rs1 ++ rs2))).
    rewrite IH. cbn [effects foldr]. fold (effects_here rs1). unfold join. cbn. by rewrite !app_assoc.
Qed.

Lemma consecutive_app c rs1 rs2 : consecutive o relr tls_start tp dtv_offset c (rs1 ++ rs2) <->
  consecutive o relr tls_start tp dtv_offset c rs1 /\
  consecutive o relr tls_start tp dtv_offset (c + size_of (effects_here rs1) GOT_PART) rs2.
Proof.
  revert c. induction rs1 as [|res rs1 IH]; intros c; cbn [consecutive app effects foldr].
  - rewrite size_nothing, Z.add_0_r. tauto.
  - rewrite IH, size_join. unfold effects. rewrite Z.add_assoc. tauto.
Qed.

(** The entry of a group's symbol is the symbol's own. *)
Lemma symbol_slot L base c rs res a k v : consecutive o relr tls_start tp dtv_offset c rs ->
  Forall (fun res => agreement o tls_start tls_end res /\ shaped reaches res) rs ->
  res ∈ rs -> rs_got_address res = Some a -> ef_got (effect_here res) !! k = Some v ->
  let place := a + 8 * Z.of_nat k in
  ef_got (effects_here rs) !! Z.to_nat ((place - c) / 8) = Some v /\
  loaded L base place v (effects_here rs) = loaded L base place v (effect_here res).
Proof.
  intros Hc Hall Hin Ea Hk. cbv zeta. apply list_elem_of_split in Hin as (rs1 & rs2 & ->).
  apply consecutive_app in Hc as [Hc1 [Ha Hc2]]. apply Forall_app in Hall as [Hall1 Hall2].
  apply Forall_cons in Hall2 as [[Hag Hsh] Hall2]. specialize (Ha a Ea).
  pose proof (within_symbols _ _ Hc1 Hall1) as W1. pose proof (within_symbols _ _ Hc2 Hall2) as W2.
  pose proof (lookup_lt_Some _ _ _ Hk) as Hlt.
  assert (size_of (effect_here res) GOT_PART = 8 * len (ef_got (effect_here res))) as Es by done.
  assert (size_of (effects_here rs1) GOT_PART = 8 * len (ef_got (effects_here rs1))) as Es1 by done.
  unfold len in *. rewrite effects_app. cbn [effects foldr]. fold (effects_here rs2).
  split.
  - cbn [join ef_got]. rewrite lookup_app_r.
    + rewrite lookup_app_l; [|].
      * rewrite <- Hk. f_equal.
        replace (a + 8 * Z.of_nat k - c) with ((Z.of_nat (length (ef_got (effects_here rs1))) + Z.of_nat k) * 8) by lia.
        rewrite Z.div_mul by lia. lia.
      * replace (a + 8 * Z.of_nat k - c) with ((Z.of_nat (length (ef_got (effects_here rs1))) + Z.of_nat k) * 8) by lia.
        rewrite Z.div_mul by lia. lia.
    + replace (a + 8 * Z.of_nat k - c) with ((Z.of_nat (length (ef_got (effects_here rs1))) + Z.of_nat k) * 8) by lia.
      rewrite Z.div_mul by lia. lia.
  - rewrite (loaded_left _ _ _ _ _ _ _ _ W1) by lia. apply (loaded_right _ _ _ _ _ _ _ _ W2). lia.
Qed.
End slots.

(** ** Arithmetic modulo the word *)

Lemma u64_cong a b k : a = b + k * 2 ^ 64 -> u64 a = u64 b.
Proof. intros ->. apply Z.mod_add. lia. Qed.

Lemma u64_shift x : exists k, u64 x = x + k * 2 ^ 64.
Proof. exists (- (x / 2 ^ 64)). unfold wrap. pose proof (Z.div_mod x (2 ^ 64)). lia. Qed.

Lemma i64_shift x : exists k, i64 x = x + k * 2 ^ 64.
Proof.
  exists (- ((x + 2 ^ 63) / 2 ^ 64)). unfold sext. change (64 - 1) with 63.
  pose proof (Z.div_mod (x + 2 ^ 63) (2 ^ 64)). lia.
Qed.

Lemma u64_add_i64 b x : u64 (b + i64 x) = u64 (b + x).
Proof. destruct (i64_shift x) as [k ->]. apply u64_cong with k. lia. Qed.

(** ** A group of symbols *)

(** The tables as an effect. *)
Definition tables_of (w : TableWriter) : effect :=
  mkEffect (written (tw_got w)) (written (tw_plt_got w)) (written (tw_rela_plt w)) (written (tw_rela_dyn_relative w))
    (written (tw_rela_dyn_general w)) (match tw_relr_dyn w with Some t => written t | None => [] end).

Lemma tables_of_extend relr e m : fits relr e (new_writer relr m) -> tables_of (extend e (new_writer relr m)) = e.
Proof.
  intros (_ & _ & _ & _ & _ & Hr). unfold tables_of, extend, new_writer in *. cbn in *. destruct e. cbn in *.
  destruct (relr && _); cbn in *; [done|by subst].
Qed.

(** The entry at an address of the GOT, which starts at [c]. *)
Definition got_entry (c : Z) (w : TableWriter) (address : Z) : option Z :=
  written (tw_got w) !! Z.to_nat ((address - c) / GOT_ENTRY_SIZE).

Section group.
Context (o : OutputKind) (relr : bool) (tls_start tls_end tp dtv_offset : Z) (reaches : Z -> Z -> bool).

Abbreviation effect_here := (effect_of o relr tls_start tp dtv_offset).
Abbreviation effects_here := (effects o relr tls_start tp dtv_offset).
Abbreviation consistent_symbol :=
  (fun s => consistent o tls_start tls_end (sy_flags s) (sy_raw_value s) (sy_dynamic_symbol_index s)).
Abbreviation mem_sizes symbols := (allocate_all o relr symbols (fun _ => 0)).
Abbreviation write rs symbols :=
  (process_all o tls_start tls_end (Some tp) dtv_offset reaches rs (new_writer relr (mem_sizes symbols))).

Lemma group_run symbols m : forallb consistent_symbol symbols = true -> room reaches (len symbols) m ->
  exists rs m', create_all symbols m = Ret (rs, m') /\
    write rs symbols = ok (extend (effects_here rs) (new_writer relr (mem_sizes symbols))) /\
    fits relr (effects_here rs) (new_writer relr (mem_sizes symbols)) /\
    (forall p, mem_sizes symbols p = size_of (effects_here rs) p) /\
    Forall (fun res => agreement o tls_start tls_end res /\ shaped reaches res) rs /\
    consecutive o relr tls_start tp dtv_offset (m GOT_PART) rs /\
    (forall p, p = GOT_PART \/ p = PLT_GOT -> m' p = m p + size_of (effects_here rs) p).
Proof.
  intros Hall Hroom. destruct (create_all_ok o relr tls_start tls_end tp dtv_offset reaches symbols m Hall Hroom)
    as (rs & m' & Hcr & Hf2 & Hag & Hc & Hm').
  assert (Hlen : len rs = len symbols) by (unfold len; by rewrite (Forall2_length _ _ _ Hf2)).
  destruct (ro_got _ _ _ Hroom) as (G0 & G1 & _).
  assert (forall p, mem_sizes symbols p = size_of (effects_here rs) p) as Hex.
  { intros p. rewrite (allocate_all_ok o relr tls_start tls_end tp dtv_offset reaches symbols rs (fun _ => 0)); [lia| |].
    - clear -Hf2 Hag. revert Hag. induction Hf2 as [|s res symbols rs (? & _) _ IH]; intros Hag; constructor;
        apply Forall_cons in Hag as [[] Hag]; [done|by apply IH].
    - intros q. rewrite Hlen. unfold per_symbol in *. lia. }
  pose proof (exact_fits relr (effects_here rs) (mem_sizes symbols) Hex (effects_relr o relr tls_start tp dtv_offset rs)) as Hfits.
  exists rs, m'. split; [done|]. split; [by apply process_all_ok|]. done.
Qed.

(** C13. Layout and writer agree.  For every group of symbols whose flags are consistent, with room in the
    address space, handing out addresses succeeds; writing the tables, sized as layout allocated them,
    succeeds; every table is used up exactly ([validate_empty] finds nothing left, and neither is there in
    [.plt.got] and [.rela.plt]); and the addresses advance by just the bytes that were allocated. *)
Theorem layout_writer_agree symbols m : forallb consistent_symbol symbols = true -> room reaches (len symbols) m ->
  exists rs m' w, create_all symbols m = Ret (rs, m') /\ write rs symbols = ok w /\
    validate_empty w = None /\ left_over (tw_plt_got w) = 0 /\ left_over (tw_rela_plt w) = 0 /\
    m' GOT_PART = m GOT_PART + mem_sizes symbols GOT_PART /\ m' PLT_GOT = m PLT_GOT + mem_sizes symbols PLT_GOT.
Proof.
  intros Hall Hroom. destruct (group_run symbols m Hall Hroom) as (rs & m' & Hcr & Hw & Hf & Hex & _ & _ & Hm').
  exists rs, m', (extend (effects_here rs) (new_writer relr (mem_sizes symbols))). split; [done|]. split; [done|].
  destruct (exact_filled relr (effects_here rs) (mem_sizes symbols) Hex (effects_relr o relr tls_start tp dtv_offset rs)) as (? & ? & ?).
  do 3 (split; [done|]). rewrite !Hex. split; apply Hm'; tauto.
Qed.

(** A slot of a written group. *)
Lemma written_slot symbols m rs m' w res a k v L base : forallb consistent_symbol symbols = true ->
  room reaches (len symbols) m -> create_all symbols m = Ret (rs, m') -> write rs symbols = ok w ->
  res ∈ rs -> rs_got_address res = Some a ->
  (agreement o tls_start tls_end res -> shaped reaches res -> ef_got (effect_here res) !! k = Some v) ->
  got_entry (m GOT_PART) w (a + 8 * Z.of_nat k) = Some v /\
  loaded L base (a + 8 * Z.of_nat k) v (tables_of w) = loaded L base (a + 8 * Z.of_nat k) v (effect_here res) /\
  agreement o tls_start tls_end res /\ shaped reaches res.
Proof.
  intros Hall Hroom Hcr Hw Hin Ea Hk. destruct (group_run symbols m Hall Hroom) as (rs2 & m2 & Hcr2 & Hw2 & Hf & Hex & Hag & Hc & _).
  rewrite Hcr2 in Hcr. injection Hcr as -> ->. rewrite Hw2 in Hw. injection Hw as <-.
  destruct (proj1 (Forall_forall _ _) Hag res Hin) as [Hag1 Hsh1]. specialize (Hk Hag1 Hsh1).
  pose proof (tables_of_extend _ _ _ Hf) as Ht. unfold got_entry.
  change (written (tw_got ?w)) with (ef_got (tables_of w)). rewrite Ht.
  by destruct (symbol_slot o relr tls_start tls_end tp dtv_offset reaches L base _ rs res a k v Hc Hag Hin Ea Hk).
Qed.

(** ** What the entries mean *)

Lemma loaded_plain L base place v x : loaded L base place v (slot x) = v.
Proof. done. Qed.

Lemma loaded_rela L base a v x r : r_offset r = a ->
  loaded L base a v (join (slot x) (general r)) = relocated L base v r.
Proof. intros E. unfold loaded. cbn. by rewrite decide_True by done. Qed.

Lemma loaded_plt_rela L base a v x r : r_offset r = a ->
  loaded L base a v (join (slot x) (plt_rela r)) = relocated L base v r.
Proof. intros E. unfold loaded. cbn. by rewrite decide_True by done. Qed.

(** A slot with a relative relocation comes to the loaded address, packed or not. *)
Lemma loaded_address L base a address : exists v, ef_got (address_slot relr a address) = [v] /\
  loaded L base a v (address_slot relr a address) = u64 (base + address).
Proof.
  unfold address_slot. destruct relr; eexists; (split; [done|]); unfold loaded; cbn; rewrite decide_True by done; cbn.
  - f_equal. lia.
  - apply u64_add_i64.
Qed.

(** The run-time value of a symbol that is not thread-local. *)
Definition runtime_value (L : loader) (base : Z) (res : Resolution) : Z :=
  if is_dynamic (rs_flags res) || needs_export_dynamic (rs_flags res) && is_interposable (rs_flags res)
     && negb (is_ifunc (rs_flags res)) then ld_symbol L (index_or_zero res)
  else if is_ifunc (rs_flags res) then ld_resolver L (u64 (base + rs_raw_value res))
  else if is_absolute (rs_flags res) then rs_raw_value res
  else u64 (base + rs_raw_value res).

Lemma loaded_got L base res a : is_uint 64 (rs_raw_value res) -> (is_relocatable o = false -> base = 0) ->
  exists v, ef_got (got_effect o relr res a) = [v] /\
    loaded L base a v (got_effect o relr res a) = runtime_value L base res.
Proof.
  intros Hu Hb. unfold got_effect, runtime_value.
  destruct (is_dynamic (rs_flags res) || _) eqn:Ed; [by exists 0; split; [|rewrite loaded_rela]|].
  apply orb_false_iff in Ed as [Ed _]. destruct (is_ifunc (rs_flags res)) eqn:Ei.
  { exists 0. split; [done|]. rewrite loaded_plt_rela by done. cbn. by rewrite u64_add_i64. }
  assert (is_address (rs_flags res) = negb (is_absolute (rs_flags res))) as ->.
  { unfold is_address, is_dynamic, is_ifunc in *. by rewrite Ed, Ei. }
  destruct (is_absolute (rs_flags res)); cbn [negb andb]; [by exists (rs_raw_value res)|].
  destruct (is_relocatable o) eqn:Er.
  - apply loaded_address.
  - exists (rs_raw_value res). split; [done|]. by rewrite Hb, loaded_plain, wrap_id.
Qed.

(** C14. Loading binds the GOT.  When the tables of a group have been written and the dynamic loader has applied
    every relocation in them, the GOT entry of a symbol that is not thread-local holds the symbol's run-time value:
    the dynamic symbol's address for one bound at load time, the resolver's result for an ifunc, the value itself for
    an absolute symbol and the address moved by the load base for any other; and the second entry of an ifunc holds
    the address of its PLT entry. *)
Theorem got_slots_resolve symbols m rs m' w L base res a :
  forallb consistent_symbol symbols = true -> room reaches (len symbols) m ->
  create_all symbols m = Ret (rs, m') -> write rs symbols = ok w ->
  res ∈ rs -> rs_got_address res = Some a -> is_tls_symbol (rs_flags res) = false ->
  is_uint 64 (rs_raw_value res) -> (is_relocatable o = false -> base = 0) ->
  (exists v, got_entry (m GOT_PART) w a = Some v /\ loaded L base a v (tables_of w) = runtime_value L base res) /\
  (needs_ifunc_got_for_address (rs_flags res) = true -> exists p v, rs_plt_address res = Some p /\
    got_entry (m GOT_PART) w (a + 8) = Some v /\
    loaded L base (a + 8) v (tables_of w) = if is_relocatable o then u64 (base + p) else p).
Proof.
  intros Hall Hroom Hcr Hw Hin Ea Ht Hu Hb. destruct (loaded_got L base res a Hu Hb) as (v & Hv & Hl).
  assert (effect_here res = join (got_effect o relr res a) (join (plt_effect res a)
           (given (needs_ifunc_got_for_address (rs_flags res)) (ifunc_got_effect o relr res a)))) as He.
  { unfold effect_of. rewrite Ea. unfold effect_at. by rewrite Ht. }
  split.
  - exists v. destruct (written_slot symbols m rs m' w res a 0 v L base Hall Hroom Hcr Hw Hin Ea) as (Hg & Hld & _).
    { intros _ _. by rewrite He; cbn [join ef_got]; rewrite Hv. }
    rewrite Z.add_0_r in *. split; [done|]. rewrite Hld, He, <- Hl. eapply loaded_right with (lo := a + 8) (hi := a + 16); [|lia].
    apply within_join; [apply within_plt|apply within_given; intros _; apply within_ifunc_got].
  - intros Hi.
    assert (forall p, rs_plt_address res = Some p -> exists v, ef_got (ifunc_got_effect o relr res a) = [v] /\
              loaded L base (a + 8) v (ifunc_got_effect o relr res a) = if is_relocatable o then u64 (base + p) else p) as Hif.
    { intros p Ep. unfold ifunc_got_effect. rewrite Ep. destruct (is_relocatable o); [|by exists p].
      apply loaded_address. }
    assert (forall v', (exists p, rs_plt_address res = Some p /\ ef_got (ifunc_got_effect o relr res a) = [v']) ->
              ef_got (effect_here res) !! 1%nat = Some v') as Hk.
    { intros v' (p & Ep & Hv'). rewrite He. cbn [join ef_got]. rewrite Hv, Hi. cbn [given]. rewrite Hv'.
      unfold plt_effect. by rewrite Ep. }
    destruct (rs_plt_address res) as [p|] eqn:Ep.
    + destruct (Hif p eq_refl) as (v' & Hv' & Hl'). exists p, v'. split; [done|].
      destruct (written_slot symbols m rs m' w res a 1 v' L base Hall Hroom Hcr Hw Hin Ea) as (Hg & Hld & _).
      { intros _ _. apply Hk. by exists p. }
      change (a + 8 * Z.of_nat 1) with (a + 8) in *. split; [done|]. rewrite Hld, He, Hi. cbn [given].
      rewrite (loaded_left _ _ _ _ _ _ _ _ (within_got o relr res a)) by lia.
      rewrite (loaded_left _ _ _ _ _ _ _ _ (within_plt res a a a)) by lia. by rewrite Hl'.
    + destruct (group_run symbols m Hall Hroom) as (rs2 & m2 & Hcr2 & _ & _ & _ & Hag & _). rewrite Hcr2 in Hcr. injection Hcr as -> ->.
      destruct (proj1 (Forall_forall _ _) Hag res Hin) as [Hag1 Hsh1].
      destruct (proj2 (sh_plt _ _ Hsh1) (ag_ifunc _ _ _ _ Hag1 Hi)) as [p Ep']. congruence.
Qed.

(** ** Thread-local storage *)

(** The run time of thread-local storage, for one thread: the output's own block, the thread pointer and the
    blocks of the modules.  A thread-pointer offset against no symbol is an offset into the own block; an
    executable's thread pointer is where [tp_offset_start] puts it; the executable is module 1. *)
Record tls_runtime (L : loader) (block thread_pointer : Z) (module_block : Z -> Z) : Prop := {
  tr_own_offset : forall x, ld_tp_offset L 0 x = u64 (block + x - thread_pointer);
  tr_executable : is_executable o = true -> thread_pointer = block + (tp - tls_start);
  tr_module : module_block (if is_executable o then CURRENT_EXE_TLS_MOD else ld_module L 0) = block }.

(** What [__tls_get_addr] computes from a pair of entries. *)
Definition tls_get_addr (module_block : Z -> Z) (m offset : Z) : Z := u64 (module_block m + offset + dtv_offset).

Lemma tls_effect_at res a : rs_got_address res = Some a -> is_tls_symbol (rs_flags res) = true ->
  effect_here res = join (given (needs_got_tls_offset (rs_flags res)) (tls_offset_effect o tls_start tp res a))
    (join (given (needs_got_tls_module (rs_flags res))
             (tls_module_effect o tls_start dtv_offset res (a + 8 * b2z (needs_got_tls_offset (rs_flags res)))))
       (given (needs_got_tls_descriptor (rs_flags res)) (tls_descriptor_effect tls_start res
             (a + 8 * b2z (needs_got_tls_offset (rs_flags res)) + 16 * b2z (needs_got_tls_module (rs_flags res)))))).
Proof. intros Ea Ht. unfold effect_of. rewrite Ea. unfold effect_at. by rewrite Ht. Qed.

Lemma tls_offset_symbol flags : needs_got_tls_offset flags = true -> is_tls_symbol flags = true.
Proof. unfold is_tls_symbol, needs_got_tls_offset. by intros ->. Qed.

Lemma tls_module_symbol flags : needs_got_tls_module flags = true -> is_tls_symbol flags = true.
Proof. unfold is_tls_symbol, needs_got_tls_module. intros ->. by rewrite orb_true_r. Qed.

(** The offset entry is the symbol's first. *)
Lemma offset_entry_own L base res a v : rs_got_address res = Some a -> needs_got_tls_offset (rs_flags res) = true ->
  loaded L base a v (effect_here res) = loaded L base a v (tls_offset_effect o tls_start tp res a).
Proof.
  intros Ea Eo. rewrite (tls_effect_at res a Ea (tls_offset_symbol _ Eo)), Eo. cbn [given b2z].
  assert (0 <= b2z (needs_got_tls_module (rs_flags res)) <= 1) by (destruct (needs_got_tls_module _); cbn; lia).
  eapply loaded_right with (lo := a + 8) (hi := a + 64); [|lia].
  apply within_join; apply within_given; intros _.
  - eapply within_weaken; [..|apply within_tls_module]; lia.
  - eapply within_weaken; [..|apply within_tls_descriptor]; lia.
Qed.

(** The module pair follows it. *)
Lemma module_entry_own L base res a v k : rs_got_address res = Some a -> needs_got_tls_module (rs_flags res) = true ->
  0 <= k < 16 -> let a2 := a + 8 * b2z (needs_got_tls_offset (rs_flags res)) in
  loaded L base (a2 + k) v (effect_here res) = loaded L base (a2 + k) v (tls_module_effect o tls_start dtv_offset res a2).
Proof.
  intros Ea Em Hk. cbv zeta. rewrite (tls_effect_at res a Ea (tls_module_symbol _ Em)), Em. cbn [given b2z].
  rewrite loaded_left with (lo := a) (hi := a + 8 * b2z (needs_got_tls_offset (rs_flags res))); [|..|lia].
  - eapply loaded_right; [apply within_given; intros _; apply within_tls_descriptor|lia].
  - apply within_given. intros Eo. rewrite Eo. cbn [b2z]. apply within_tls_offset.
Qed.

Lemma module_slot_lookup res a j v : rs_got_address res = Some a -> needs_got_tls_module (rs_flags res) = true ->
  ef_got (tls_module_effect o tls_start dtv_offset res (a + 8 * b2z (needs_got_tls_offset (rs_flags res)))) !! j = Some v ->
  ef_got (effect_here res) !! (Z.to_nat (b2z (needs_got_tls_offset (rs_flags res))) + j)%nat = Some v.
Proof.
  intros Ea Em Hj. rewrite (tls_effect_at res a Ea (tls_module_symbol _ Em)), Em. cbn [given join ef_got].
  destruct (needs_got_tls_offset (rs_flags res)); cbn [given b2z nothing ef_got] in *.
  - assert (exists x, ef_got (tls_offset_effect o tls_start tp res a) = [x]) as [x ->].
    { unfold tls_offset_effect. destruct (dynamically_bound _), (rs_raw_value res =? 0), (is_executable o); by eexists. }
    cbn. by apply lookup_app_l_Some.
  - cbn. by apply lookup_app_l_Some.
Qed.

(** The two entries of the pair, and what they are loaded as. *)
Definition module_word (L : loader) (res : Resolution) : Z :=
  if is_executable o && negb (is_dynamic (rs_flags res)) then CURRENT_EXE_TLS_MOD else ld_module L (index_or_zero res).

Definition offset_word (L : loader) (res : Resolution) : Z :=
  match rs_dynamic_symbol_index res with
  | Some i => if is_interposable (rs_flags res) then ld_dtp_offset L i 0 else 0
  | None => u64 (u64 (rs_raw_value res - tls_start) - dtv_offset)
  end.

Lemma module_effect_words L base res a : exists v1 v2,
  ef_got (tls_module_effect o tls_start dtv_offset res a) = [v1; v2] /\
  loaded L base a v1 (tls_module_effect o tls_start dtv_offset res a) = module_word L res /\
  loaded L base (a + 8) v2 (tls_module_effect o tls_start dtv_offset res a) = offset_word L res.
Proof.
  unfold tls_module_effect, module_word, offset_word.
  destruct (is_executable o && negb (is_dynamic (rs_flags res))), (rs_dynamic_symbol_index res) as [i|],
    (is_interposable (rs_flags res)); eexists _, _; (split; [done|]); unfold loaded; cbn;
    repeat first [ rewrite decide_True by lia; cbn | rewrite decide_False by lia; cbn ]; done.
Qed.

Lemma written_module_pair symbols m rs m' w res a L base : forallb consistent_symbol symbols = true ->
  room reaches (len symbols) m -> create_all symbols m = Ret (rs, m') -> write rs symbols = ok w ->
  res ∈ rs -> rs_got_address res = Some a -> needs_got_tls_module (rs_flags res) = true ->
  let a2 := a + 8 * b2z (needs_got_tls_offset (rs_flags res)) in
  exists v1 v2, got_entry (m GOT_PART) w a2 = Some v1 /\ got_entry (m GOT_PART) w (a2 + 8) = Some v2 /\
    loaded L base a2 v1 (tables_of w) = module_word L res /\ loaded L base (a2 + 8) v2 (tables_of w) = offset_word L res /\
    agreement o tls_start tls_end res.
Proof.
  intros Hall Hroom Hcr Hw Hin Ea Em a2. destruct (module_effect_words L base res a2) as (v1 & v2 & Hv & H1 & H2).
  exists v1, v2. set (n := Z.to_nat (b2z (needs_got_tls_offset (rs_flags res)))).
  destruct (written_slot symbols m rs m' w res a (n + 0) v1 L base Hall Hroom Hcr Hw Hin Ea) as (Hg1 & Hl1 & Hag & _).
  { intros _ _. apply (module_slot_lookup res a); [done..|]. fold a2. by rewrite Hv. }
  destruct (written_slot symbols m rs m' w res a (n + 1) v2 L base Hall Hroom Hcr Hw Hin Ea) as (Hg2 & Hl2 & _).
  { intros _ _. apply (module_slot_lookup res a); [done..|]. fold a2. by rewrite Hv. }
  replace (a + 8 * Z.of_nat (n + 0)) with a2 in * by (subst a2 n; destruct (needs_got_tls_offset _); cbn; lia).
  replace (a + 8 * Z.of_nat (n + 1)) with (a2 + 8) in * by (subst a2 n; destruct (needs_got_tls_offset _); cbn; lia).
  do 2 (split; [done|]). rewrite Hl1, Hl2.
  pose proof (module_entry_own L base res a v1 0 Ea Em) as E1. pose proof (module_entry_own L base res a v2 8 Ea Em) as E2.
  cbv zeta in E1, E2. fold a2 in E1, E2. rewrite Z.add_0_r in E1. rewrite E1, E2 by lia. done.
Qed.

(** C15. Loading binds thread-local storage.  For a variable of the output's own segment that is not bound at load
    time, the thread pointer plus the loaded offset entry is the variable's address in the thread's block, and
    [__tls_get_addr] of the loaded pair of module entries is that address too. *)
Theorem tls_slots_resolve symbols m rs m' w L base block thread_pointer module_block res a :
  forallb consistent_symbol symbols = true -> room reaches (len symbols) m ->
  create_all symbols m = Ret (rs, m') -> write rs symbols = ok w ->
  res ∈ rs -> rs_got_address res = Some a -> rs_dynamic_symbol_index res = None -> rs_raw_value res <> 0 ->
  tls_runtime L block thread_pointer module_block ->
  let variable := u64 (block + (rs_raw_value res - tls_start)) in
  (needs_got_tls_offset (rs_flags res) = true -> exists v, got_entry (m GOT_PART) w a = Some v /\
     u64 (thread_pointer + loaded L base a v (tables_of w)) = variable) /\
  (needs_got_tls_module (rs_flags res) = true ->
     let a2 := a + 8 * b2z (needs_got_tls_offset (rs_flags res)) in
     exists v1 v2, got_entry (m GOT_PART) w a2 = Some v1 /\ got_entry (m GOT_PART) w (a2 + 8) = Some v2 /\
       tls_get_addr module_block (loaded L base a2 v1 (tables_of w)) (loaded L base (a2 + 8) v2 (tables_of w)) = variable).
Proof.
  intros Hall Hroom Hcr Hw Hin Ea Ei Hz Hrt variable.
  assert (forall Hag : agreement o tls_start tls_end res, dynamically_bound (rs_flags res) = false) as Hnb.
  { intros Hag. destruct (dynamically_bound _) eqn:E; [|done]. destruct (ag_bound _ _ _ _ Hag E) as [? ?]. congruence. }
  split.
  - intros Eo.
    assert (forall Hag : agreement o tls_start tls_end res, exists v, ef_got (tls_offset_effect o tls_start tp res a) = [v] /\
              u64 (thread_pointer + loaded L base a v (tls_offset_effect o tls_start tp res a)) = variable) as Hv.
    { intros Hag. unfold tls_offset_effect. rewrite (Hnb Hag), (proj2 (Z.eqb_neq _ _) Hz). destruct (is_executable o) eqn:Ex.
      - eexists. split; [done|]. rewrite loaded_plain, (tr_executable _ _ _ _ Hrt Ex).
        destruct (u64_shift (rs_raw_value res - tp)) as [k ->]. apply u64_cong with k. lia.
      - eexists. split; [done|]. rewrite loaded_rela by done. cbn. rewrite (tr_own_offset _ _ _ _ Hrt).
        destruct (i64_shift (rs_raw_value res - tls_start)) as [k ->].
        match goal with |- context [u64 (?x - thread_pointer)] => destruct (u64_shift (x - thread_pointer)) as [j ->] end.
        apply u64_cong with (k + j). lia. }
    destruct (group_run symbols m Hall Hroom) as (rs2 & m2 & Hcr2 & _ & _ & _ & Hag & _). rewrite Hcr2 in Hcr. injection Hcr as -> ->.
    destruct (proj1 (Forall_forall _ _) Hag res Hin) as [Hag1 _]. destruct (Hv Hag1) as (v & Hg & Hl). exists v.
    destruct (written_slot symbols m rs m' w res a 0 v L base Hall Hroom Hcr2 Hw Hin Ea) as (Hge & Hld & _).
    { intros _ _. rewrite (tls_effect_at res a Ea (tls_offset_symbol _ Eo)), Eo. cbn [given join ef_got]. by rewrite Hg. }
    rewrite Z.add_0_r in *. split; [done|]. by rewrite Hld, offset_entry_own.
  - intros Em. destruct (written_module_pair symbols m rs m' w res a L base Hall Hroom Hcr Hw Hin Ea Em) as (v1 & v2 & G1 & G2 & L1 & L2 & Hag).
    exists v1, v2. split; [done|]. split; [done|]. rewrite L1, L2. unfold tls_get_addr, module_word, offset_word, index_or_zero. rewrite Ei.
    assert (is_dynamic (rs_flags res) = false) as ->.
    { pose proof (Hnb Hag) as E. unfold dynamically_bound in E. by destruct (is_dynamic _). }
    rewrite andb_true_r, (tr_module _ _ _ _ Hrt).
    destruct (u64_shift (rs_raw_value res - tls_start)) as [k ->].
    match goal with |- context [u64 (?x - dtv_offset)] => destruct (u64_shift (x - dtv_offset)) as [j ->] end.
    apply u64_cong with (k + j). lia.
Qed.

(** C39. The offset of an exported variable that cannot be interposed is lost: its pair of entries has the
    symbol's module and, with no relocation, the offset 0, whatever the variable's address. *)
Theorem exported_tls_offset_lost symbols m rs m' w L base res a i :
  forallb consistent_symbol symbols = true -> room reaches (len symbols) m ->
  create_all symbols m = Ret (rs, m') -> write rs symbols = ok w ->
  res ∈ rs -> rs_got_address res = Some a -> needs_got_tls_module (rs_flags res) = true ->
  rs_dynamic_symbol_index res = Some i -> is_interposable (rs_flags res) = false -> is_executable o = false ->
  let a2 := a + 8 * b2z (needs_got_tls_offset (rs_flags res)) in
  exists v1 v2, got_entry (m GOT_PART) w a2 = Some v1 /\ got_entry (m GOT_PART) w (a2 + 8) = Some v2 /\
    loaded L base a2 v1 (tables_of w) = ld_module L i /\ loaded L base (a2 + 8) v2 (tables_of w) = 0.
Proof.
  intros Hall Hroom Hcr Hw Hin Ea Em Ei Hni Hx.
  destruct (written_module_pair symbols m rs m' w res a L base Hall Hroom Hcr Hw Hin Ea Em) as (v1 & v2 & G1 & G2 & L1 & L2 & _).
  cbv zeta. exists v1, v2. rewrite L1, L2. unfold module_word, offset_word, index_or_zero. by rewrite Hx, Ei, Hni.
Qed.
End group.

(** ** Checks *)

(** [verify_consistent_allocation_handling] reports every combination that has a thread-pointer offset
    entry, though the writer handles the consistent ones: it runs the writer without a layout, which only
    that entry asks for. *)
Theorem verify_rejects_tls_offset o relr dtv_offset reaches flags : needs_got_tls_offset flags = true ->
  verify_consistent_allocation_handling o relr dtv_offset reaches flags = fail MissingLayout.
Proof.
  intros Eo. unfold verify_consistent_allocation_handling. cbv zeta.
  set (m := fun p : part => match p with GOT_PART | PLT_GOT => 0x10 | _ => 0 end).
  set (idx := if is_dynamic flags || _ then Some 1 else None).
  assert (exists res m', create_resolution flags 0 idx m = Ret (res, m') /\ is_Some (rs_got_address res) /\ rs_flags res = flags)
    as (res & m' & -> & [a Ea] & Ef).
  { unfold create_resolution. rewrite (tls_offset_symbol _ Eo). destruct (needs_plt flags); by eexists _, _. }
  unfold process_resolution. rewrite Ea, Ef, Eo. cbv zeta. cbn [orb]. unfold process_tls. by rewrite Ef, Eo.
Qed.

(** A shared object with an ordinary symbol, an imported function, an ifunc with its own address, a
    thread-local variable and an exported one that cannot be interposed. *)
Definition sample : list symbol := [
  mkSymbol (Z.lor GOT NON_INTERPOSABLE) 0x1500 None;
  mkSymbol (Z.lor DYNAMIC (Z.lor GOT PLT)) 0 (Some 3);
  mkSymbol (Z.lor IFUNC (Z.lor GOT (Z.lor PLT (Z.lor IFUNC_GOT_FOR_ADDRESS NON_INTERPOSABLE)))) 0x1600 None;
  mkSymbol (Z.lor GOT_TLS_OFFSET (Z.lor GOT_TLS_MODULE NON_INTERPOSABLE)) 0x3010 None;
  mkSymbol (Z.lor EXPORT_DYNAMIC (Z.lor GOT_TLS_MODULE NON_INTERPOSABLE)) 0x3020 (Some 4)].
Definition sample_start : part_map := fun p => match p with GOT_PART => 0x2000 | PLT_GOT => 0x1000 | _ => 0 end.
Definition anywhere (_ _ : Z) : bool := true.

Definition sample_run : list Resolution * part_map :=
  match create_all sample sample_start with Ret p => p | Panic => ([], sample_start) end.
Definition sample_resolution (k : nat) : Resolution :=
  nth k (fst sample_run) (mkResolution 0 None None None 0).
Definition sample_written : io TableWriter :=
  process_all SharedObject 0x3000 0x4000 (Some 0x4000) 0 anywhere (fst sample_run)
    (new_writer true (allocate_all SharedObject true sample (fun _ => 0))).
Definition sample_writer : TableWriter := match sample_written with Ret (Ok w) => w | _ => new_writer true (fun _ => 0) end.

Lemma sample_room : room anywhere (len sample) sample_start.
Proof. split; [vm_compute; intuition congruence..|done]. Qed.

Definition sample_loader : loader :=
  mkLoader (fun i => 0x7000 + i) (fun r => r + 1) (fun i x => match i with 0 => u64 (0x9000 + x - 0x9800) | _ => i end)
    (fun i => 5 + i) (fun i _ => i).

Lemma layout_writer_agree_witness :
  exists rs m' w, create_all sample sample_start = Ret (rs, m') /\
    process_all SharedObject 0x3000 0x4000 (Some 0x4000) 0 anywhere rs
      (new_writer true (allocate_all SharedObject true sample (fun _ => 0))) = ok w /\
    validate_empty w = None /\ left_over (tw_plt_got w) = 0 /\ left_over (tw_rela_plt w) = 0 /\
    m' GOT_PART = sample_start GOT_PART + allocate_all SharedObject true sample (fun _ => 0) GOT_PART /\
    m' PLT_GOT = sample_start PLT_GOT + allocate_all SharedObject true sample (fun _ => 0) PLT_GOT.
Proof. apply layout_writer_agree; [vm_compute; reflexivity|apply sample_room]. Defined.

Lemma got_slots_resolve_witness :
  exists v, got_entry 0x2000 sample_writer 0x2008 = Some v /\
    loaded sample_loader 0x100000 0x2008 v (tables_of sample_writer) = 0x7003.
Proof.
  eapply (proj1 (got_slots_resolve SharedObject true 0x3000 0x4000 0x4000 0 anywhere sample sample_start (fst sample_run)
    (snd sample_run) sample_writer sample_loader 0x100000 (sample_resolution 1) 0x2008 ltac:(vm_compute; reflexivity)
    sample_room eq_refl ltac:(vm_compute; reflexivity) ltac:(apply (list_elem_of_lookup_2 _ 1); vm_compute; reflexivity)
    eq_refl eq_refl ltac:(by vm_compute) ltac:(done))).
Defined.

Lemma tls_slots_resolve_witness :
  exists v, got_entry 0x2000 sample_writer 0x2020 = Some v /\
    u64 (0x9800 + loaded sample_loader 0x100000 0x2020 v (tables_of sample_writer)) = u64 (0x9000 + (0x3010 - 0x3000)).
Proof.
  eapply (proj1 (tls_slots_resolve SharedObject true 0x3000 0x4000 0x4000 0 anywhere sample sample_start (fst sample_run)
    (snd sample_run) sample_writer sample_loader 0x100000 0x9000 0x9800 (fun _ => 0x9000) (sample_resolution 3) 0x2020
    ltac:(vm_compute; reflexivity) sample_room eq_refl ltac:(vm_compute; reflexivity)
    ltac:(apply (list_elem_of_lookup_2 _ 3); vm_compute; reflexivity) eq_refl eq_refl ltac:(done)
    ltac:(by split))); vm_compute; reflexivity.
Defined.

Lemma exported_tls_offset_lost_witness :
  exists v1 v2, got_entry 0x2000 sample_writer 0x2038 = Some v1 /\ got_entry 0x2000 sample_writer 0x2040 = Some v2 /\
    loaded sample_loader 0x100000 0x2038 v1 (tables_of sample_writer) = 9 /\
    loaded sample_loader 0x100000 0x2040 v2 (tables_of sample_writer) = 0.
Proof.
  apply (exported_tls_offset_lost SharedObject true 0x3000 0x4000 0x4000 0 anywhere sample sample_start (fst sample_run)
    (snd sample_run) sample_writer sample_loader 0x100000 (sample_resolution 4) 0x2038 4
    ltac:(vm_compute; reflexivity) sample_room eq_refl ltac:(vm_compute; reflexivity)
    ltac:(apply (list_elem_of_lookup_2 _ 4); vm_compute; reflexivity) eq_refl eq_refl eq_refl eq_refl eq_refl).
Defined.

Lemma verify_rejects_tls_offset_witness :
  verify_consistent_allocation_handling (DynamicExecutable Relocatable) false 0 anywhere (Z.lor GOT_TLS_OFFSET NON_INTERPOSABLE)
  = fail MissingLayout.
Proof. apply verify_rejects_tls_offset. vm_compute. reflexivity. Defined.

(** A thread-local symbol that is undefined, read through its thread-pointer offset in a shared object: layout
    allocates a relocation, the writer writes none, and the output is rejected. *)
Lemma undefined_tls_offset_overallocates relr tls_start tls_end tp dtv_offset reaches :
  let flags := Z.lor ABSOLUTE (Z.lor GOT_TLS_OFFSET NON_INTERPOSABLE) in
  match create_resolution flags 0 None sample_start with
  | Ret (res, _) =>
      exists w, process_resolution SharedObject tls_start tls_end (Some tp) dtv_offset reaches res
          (new_writer relr (allocate_resolution SharedObject relr flags (fun _ => 0))) = ok w /\
        validate_empty w = Some (Excessive RELA_DYN_GENERAL)
  | Panic => False
  end.
Proof. destruct relr; eexists; by split. Qed.
