(* ===== verification/RelaxX86.v ===== *)
(** Link-time relaxation on x86_64: which instruction a relocation lets the linker
    rewrite ([new_relaxation] of [libwild/src/elf_x86_64.rs]) and the rewriting
    ([RelaxationKind::apply] of [linker-utils/src/x86_64.rs]). *)
From S2P Require Import Prelude BitMisc RelocInsn RelocInfo RelocTables TableX86 ValueFlags.

(** ** Rewriting *)

Inductive RelaxationKind :=
| MovIndirectToLea
| MovIndirectToAbsolute
| RexMovIndirectToAbsolute (inst_offset : Z)
| RexAddIndirectToAbsolute (inst_offset : Z)
| RexSubIndirectToAbsolute (inst_offset : Z)
| RexCmpIndirectToAbsolute (inst_offset : Z)
| CallIndirectToRelative
| JmpIndirectToRelative
| NoOp
| TlsGdToLocalExec
| TlsGdToLocalExecLarge
| TlsLdToLocalExec
| TlsLdToLocalExecNoPlt
| TlsLdToLocalExec64
| TlsGdToInitialExec
| TlsDescToLocalExec (inst_offset : Z)
| TlsDescToInitialExec
| SkipTlsDescCall.

Inductive RelocationModifier := Normal | SkipNextRelocation.

(** [d[off..off + src.len()].copy_from_slice(src)] *)
Definition copy_to (d : bytes) (off : Z) (src : bytes) : outcome bytes :=
  if (0 <=? off) && (off + len src <=? len d)
  then Ret (take (Z.to_nat off) d ++ src ++ drop (Z.to_nat (off + len src)) d) else Panic.

(** [d[i] = f(d[i])] *)
Definition modify (d : bytes) (i : Z) (f : Z -> Z) : outcome bytes :=
  x ← index d i; store d i (f x).

(** [(rex & !m) | ((rex & m) >> 2)]: the bits of the reg field move to those of the r/m field. *)
Definition rex_reg_to_rm (m rex : Z) : Z := Z.lor (Z.land rex (not_w 8 m)) (Z.shiftr (Z.land rex m) 2).

(** [( *mod_rm >> 3) & 0x7 | tag]: a register operand with the number of the reg field. *)
Definition modrm_register (tag modrm : Z) : Z := Z.lor (Z.land (Z.shiftr modrm 3) 0x7) tag.

(** The adjustment of a REX or REX2 prefix. *)
Definition fix_prefix (inst_offset : Z) (d : bytes) (offset : Z) : outcome bytes :=
  rex ← index d (offset - 3);
  if inst_offset =? 3 then store d (offset - 3) (rex_reg_to_rm 0x4 rex)
  else if inst_offset =? 4 then store d (offset - 3) (rex_reg_to_rm 0x44 rex)
  else Ret d.

(** The two EVEX bits of [RexAddIndirectToAbsolute(6)]. *)
Definition fix_evex (l5 : Z) : Z :=
  let l5 := if Z.land l5 (Z.shiftl 1 7) =? 0
            then Z.land (Z.lor l5 (Z.shiftl 1 7)) (not_w 8 (Z.shiftl 1 5)) else l5 in
  if Z.land l5 (Z.shiftl 1 4) =? 0 then Z.lor (Z.lor l5 (Z.shiftl 1 4)) (Z.shiftl 1 3) else l5.

(** An opcode and a register operand in front of the immediate. *)
Definition write_op_modrm (d : bytes) (offset op tag : Z) : outcome bytes :=
  d ← store d (offset - 2) op; modify d (offset - 1) (modrm_register tag).

(** The section, the offset of the relocated field and the addend. *)
Definition patch : Type := bytes * Z * Z.

(** [mov $offset, %reg] over the LEA of a descriptor. *)
Definition tlsdesc_to_local_exec (inst_offset : Z) (d : bytes) (offset addend : Z) : outcome patch :=
  rex ← index d (offset - 3);
  modrm ← index d (offset - 1);
  let rex_r := Z.land (Z.shiftr rex 2) 1 in
  let reg := Z.land (Z.shiftr modrm 3) 0x7 in
  let go rex :=
    d ← copy_to d (offset - 3) [rex; 0xc7; Z.lor 0xc0 reg; 0; 0; 0; 0]; Ret (d, offset, 0) in
  if inst_offset =? 3 then go (if rex_r =? 0 then 0x48 else 0x49)
  else if inst_offset =? 4 then go (if rex_r =? 0 then 0x18 else 0x19)
  else Ret (d, offset, addend).

(** [mov GOT(%rip), %reg] over it. *)
Definition tlsdesc_to_initial_exec (d : bytes) (offset addend : Z) : outcome patch :=
  rex ← index d (offset - 3);
  modrm ← index d (offset - 1);
  let rex_r := Z.land (Z.shiftr rex 2) 1 in
  let reg := Z.land (Z.shiftr modrm 3) 0x7 in
  let rex := if rex_r =? 0 then 0x48 else 0x4c in
  d ← copy_to d (offset - 3) [rex; 0x8b; Z.lor 0x05 (u8 (Z.shiftl reg 3)); 0; 0; 0; 0];
  Ret (d, offset, addend).

Definition apply (k : RelaxationKind) (d : bytes) (offset addend : Z) : outcome patch :=
  match k with
  | MovIndirectToLea => d ← store d (offset - 2) 0x8d; Ret (d, offset, addend)
  | MovIndirectToAbsolute => d ← write_op_modrm d offset 0xc7 0xc0; Ret (d, offset, 0)
  | RexMovIndirectToAbsolute inst_offset =>
      d ← fix_prefix inst_offset d offset;
      d ← write_op_modrm d offset 0xc7 0xc0; Ret (d, offset, 0)
  | RexAddIndirectToAbsolute inst_offset =>
      d ← (if (inst_offset =? 3) || (inst_offset =? 4) then fix_prefix inst_offset d offset
           else if inst_offset =? 6 then modify d (offset - 5) fix_evex else Ret d);
      d ← write_op_modrm d offset 0x81 0xc0; Ret (d, offset, 0)
  | RexSubIndirectToAbsolute inst_offset =>
      d ← fix_prefix inst_offset d offset;
      d ← write_op_modrm d offset 0x81 0xe8; Ret (d, offset, 0)
  | RexCmpIndirectToAbsolute inst_offset =>
      d ← fix_prefix inst_offset d offset;
      d ← write_op_modrm d offset 0x81 0xf8; Ret (d, offset, 0)
  | CallIndirectToRelative => d ← copy_to d (offset - 2) [0x67; 0xe8]; Ret (d, offset, addend)
  | JmpIndirectToRelative =>
      d ← copy_to d (offset - 2) [0xe9; 0; 0; 0; 0; 0x90]; Ret (d, u64 (offset - 1), addend)
  | TlsGdToLocalExec =>
      d ← copy_to d (offset - 4) [0x64; 0x48; 0x8b; 0x04; 0x25; 0; 0; 0; 0; 0x48; 0x8d; 0x80];
      Ret (d, u64 (offset + 8), 0)
  | TlsGdToLocalExecLarge =>
      d ← copy_to d (offset - 3)
            [0x64; 0x48; 0x8b; 0x04; 0x25; 0; 0; 0; 0; 0x48; 0x8d; 0x80; 0; 0; 0; 0; 0x66; 0x0f; 0x1f; 0x44; 0; 0];
      Ret (d, u64 (offset + 9), 0)
  | TlsGdToInitialExec =>
      d ← copy_to d (offset - 4) [0x64; 0x48; 0x8b; 0x04; 0x25; 0; 0; 0; 0; 0x48; 0x03; 0x05];
      Ret (d, u64 (offset + 8), addend)
  | TlsLdToLocalExec =>
      d ← copy_to d (offset - 3) [0x66; 0x66; 0x66; 0x64; 0x48; 0x8b; 0x04; 0x25; 0; 0; 0; 0];
      Ret (d, u64 (offset + 5), addend)
  | TlsLdToLocalExecNoPlt =>
      d ← copy_to d (offset - 3) [0x66; 0x66; 0x66; 0x66; 0x64; 0x48; 0x8b; 0x04; 0x25; 0; 0; 0; 0];
      Ret (d, u64 (offset + 5), addend)
  | TlsLdToLocalExec64 =>
      d ← copy_to d (offset - 3)
            [0x66; 0x66; 0x66; 0x66; 0x2e; 0x0f; 0x1f; 0x84; 0; 0; 0; 0; 0; 0x64; 0x48; 0x8b; 0x04; 0x25; 0; 0; 0; 0];
      Ret (d, u64 (offset + 15), addend)
  | TlsDescToLocalExec inst_offset => tlsdesc_to_local_exec inst_offset d offset addend
  | TlsDescToInitialExec => tlsdesc_to_initial_exec d offset addend
  | SkipTlsDescCall => d ← copy_to d offset [0x66; 0x90]; Ret (d, offset, addend)
  | NoOp => Ret (d, offset, addend)
  end.

Definition next_modifier (k : RelaxationKind) : RelocationModifier :=
  match k with
  | TlsGdToInitialExec | TlsGdToLocalExec | TlsGdToLocalExecLarge | TlsLdToLocalExec
  | TlsLdToLocalExecNoPlt | TlsLdToLocalExec64 => SkipNextRelocation
  | _ => Normal
  end.

(** ** Choosing a relaxation *)

Record Relaxation := mkRelaxation { rx_kind : RelaxationKind; rx_info : RelocationKindInfo; rx_mandatory : bool }.

Inductive TlsGdForm := Regular | Large.

(** [bytes.get(a..b) == Some(pattern)] *)
Definition window_is (d : bytes) (a b : Z) (pattern : bytes) : bool := bool_decide (get_range d a b = Some pattern).

Definition identify (d : bytes) (offset : Z) : option TlsGdForm :=
  if window_is d (offset - 4) offset [0x66; 0x48; 0x8d; 0x3d]
     && window_is d (offset + 4) (offset + 8) [0x66; 0x66; 0x48; 0xe8]
  then Some Regular
  else if window_is d (offset - 3) offset [0x48; 0x8d; 0x3d]
       && window_is d (offset + 4) (offset + 6) [0x48; 0xb8]
       && window_is d (offset + 14) (offset + 19) [0x48; 0x01; 0xd8; 0xff; 0xd0]
  then Some Large
  else None.

(** [SectionFlags::contains]. *)
Definition flags_contain (f g : Z) : bool := negb (Z.land f g =? 0).

(** [0x48 | 0x4c]. *)
Definition rex_w (b : Z) : bool := (b =? 0x48) || (b =? 0x4c).

Section choice.
(** The numbers of the relocation types and of the section flag, as the [object] crate gives them. *)
Context (num : x86_64_reloc -> Z) (EXECINSTR : Z).

Definition choose (k : RelaxationKind) (r : x86_64_reloc) (mandatory : bool) : outcome (option Relaxation) :=
  info ← relocation_from_raw num (num r);
  match info with Some i => Ret (Some (mkRelaxation k i mandatory)) | None => Panic end.

(** [(relocation_kind == code_4 && (offset >= 4 && section_bytes[offset - 4] == 0xd5)) || offset >= 3] *)
Definition prefix_guard (code_4 : x86_64_reloc) (relocation_kind : Z) (d : bytes) (offset : Z) : outcome bool :=
  if (relocation_kind =? num code_4) && (4 <=? offset)
  then b ← index d (offset - 4); Ret ((b =? 0xd5) || (3 <=? offset))
  else Ret (3 <=? offset).

(** [3] for the type without a REX2 prefix, [4] for the other. *)
Definition inst_offset_of (plain : x86_64_reloc) (relocation_kind : Z) : Z :=
  if relocation_kind =? num plain then 3 else 4.

(** [R_X86_64_REX_GOTPCRELX] and [R_X86_64_CODE_4_GOTPCRELX]. *)
Definition relax_rex_gotpcrelx (relocation_kind : Z) (d : bytes) (offset : Z) (absolute interposable : bool) (o : OutputKind)
  : outcome (option Relaxation) :=
  b1 ← index d (offset - 2);
  rex ← index d (offset - 3);
  if negb (rex_w rex) then Ret None
  else if absolute then
    let inst_offset := inst_offset_of R_X86_64_REX_GOTPCRELX relocation_kind in
    if b1 =? 0x8b then choose (RexMovIndirectToAbsolute inst_offset) R_X86_64_32 (is_static_executable o)
    else if b1 =? 0x2b then choose (RexSubIndirectToAbsolute inst_offset) R_X86_64_32 (is_static_executable o)
    else if b1 =? 0x3b then choose (RexCmpIndirectToAbsolute inst_offset) R_X86_64_32 (is_static_executable o)
    else Ret None
  else if negb interposable then
    if b1 =? 0x8b then choose MovIndirectToLea R_X86_64_PC32 (is_static_executable o) else Ret None
  else Ret None.

(** [R_X86_64_GOTPCRELX]. *)
Definition relax_gotpcrelx (d : bytes) (offset : Z) (absolute interposable : bool) (o : OutputKind)
  : outcome (option Relaxation) :=
  match get d (offset - 2) with
  | None => Ret None
  | Some b1 =>
      if (b1 =? 0x8b) && absolute then choose MovIndirectToAbsolute R_X86_64_32 (is_static_executable o)
      else if (b1 =? 0x8b) && negb interposable then choose MovIndirectToLea R_X86_64_PC32 (is_static_executable o)
      else if negb interposable then
        if window_is d (offset - 2) offset [0xff; 0x15]
        then choose CallIndirectToRelative R_X86_64_PC32 (is_static_executable o)
        else if window_is d (offset - 2) offset [0xff; 0x25]
        then choose JmpIndirectToRelative R_X86_64_PC32 (is_static_executable o)
        else Ret None
      else Ret None
  end.

(** [R_X86_64_GOTPCREL]. *)
Definition relax_gotpcrel (d : bytes) (offset : Z) : outcome (option Relaxation) :=
  match get d (offset - 2) with
  | None => Ret None
  | Some b1 => if b1 =? 0x8b then choose MovIndirectToLea R_X86_64_PC32 false else Ret None
  end.

(** [R_X86_64_GOTTPOFF] and [R_X86_64_CODE_4_GOTTPOFF]. *)
Definition relax_gottpoff (relocation_kind : Z) (d : bytes) (offset : Z) : outcome (option Relaxation) :=
  let inst_offset := inst_offset_of R_X86_64_GOTTPOFF relocation_kind in
  match get_range d (offset - 3) (offset - 1) with
  | Some [rex; op] =>
      if rex_w rex && (op =? 0x8b) then choose (RexMovIndirectToAbsolute inst_offset) R_X86_64_TPOFF32 false
      else if rex_w rex && (op =? 0x03) then choose (RexAddIndirectToAbsolute inst_offset) R_X86_64_TPOFF32 false
      else Ret None
  | _ => Ret None
  end.

(** [R_X86_64_CODE_6_GOTTPOFF]. *)
Definition relax_code_6_gottpoff (d : bytes) (offset : Z) (o : OutputKind) : outcome (option Relaxation) :=
  match get_range d (offset - 6) (offset - 1) with
  | Some [evex; l5; l4; l3; op] =>
      if (evex =? 0x62) && ((op =? 0x1) || (op =? 0x3))
         && (Z.land l5 0x47 =? 0x44) && (Z.land l4 0x87 =? 0x84) && negb (Z.land l3 0x14 =? 0)
      then choose (RexAddIndirectToAbsolute 6) R_X86_64_TPOFF32 (is_static_executable o)
      else Ret None
  | _ => Ret None
  end.

(** [R_X86_64_TLSGD], in an executable. *)
Definition relax_tlsgd (d : bytes) (offset : Z) (interposable : bool) (o : OutputKind) : outcome (option Relaxation) :=
  match identify d offset, interposable with
  | None, _ => Ret None
  | Some Regular, false => choose TlsGdToLocalExec R_X86_64_TPOFF32 (is_static_executable o)
  | Some Large, false => choose TlsGdToLocalExecLarge R_X86_64_TPOFF32 (is_static_executable o)
  | Some Regular, true => choose TlsGdToInitialExec R_X86_64_GOTTPOFF false
  | Some Large, true => Ret None
  end.

(** [R_X86_64_TLSLD], in an executable. *)
Definition relax_tlsld (d : bytes) (offset : Z) (o : OutputKind) : outcome (option Relaxation) :=
  if window_is d (offset - 3) offset [0x48; 0x8d; 0x3d] then
    match get_range d (offset + 4) (offset + 6) with
    | Some [b0; b1] =>
        if b0 =? 0xe8 then choose TlsLdToLocalExec R_X86_64_NONE (is_static_executable o)
        else if (b0 =? 0x48) && (b1 =? 0xb8) then choose TlsLdToLocalExec64 R_X86_64_NONE false
        else if (b0 =? 0xff) && (b1 =? 0x15) then choose TlsLdToLocalExecNoPlt R_X86_64_NONE (is_static_executable o)
        else Ret None
    | _ => Ret None
    end
  else Ret None.

(** The LEA that the TLSDESC relaxations require. *)
Definition tlsdesc_lea (d : bytes) (offset : Z) : bool :=
  window_is d (offset - 3) (offset - 1) [0x48; 0x8d] || window_is d (offset - 3) (offset - 1) [0x4c; 0x8d].

(** [R_X86_64_GOTPC32_TLSDESC] and [R_X86_64_CODE_4_GOTPC32_TLSDESC] of a symbol that cannot be interposed. *)
Definition relax_tlsdesc_local (relocation_kind : Z) (d : bytes) (offset : Z) (o : OutputKind)
  : outcome (option Relaxation) :=
  if tlsdesc_lea d offset
  then choose (TlsDescToLocalExec (inst_offset_of R_X86_64_GOTPC32_TLSDESC relocation_kind)) R_X86_64_TPOFF32
         (is_static_executable o)
  else Ret None.

(** [R_X86_64_GOTPC32_TLSDESC], otherwise. *)
Definition relax_tlsdesc_initial (d : bytes) (offset : Z) (o : OutputKind) : outcome (option Relaxation) :=
  if tlsdesc_lea d offset
  then choose TlsDescToInitialExec R_X86_64_GOTTPOFF (is_static_executable o) else Ret None.

(** The arms of the TLS relocations. *)
Definition relax_tls (relocation_kind : Z) (d : bytes) (offset : Z) (interposable : bool) (o : OutputKind)
  : outcome (option Relaxation) :=
  let arm r := relocation_kind =? num r in
  if (arm R_X86_64_TLSGD) && is_executable o then relax_tlsgd d offset interposable o
  else if (arm R_X86_64_TLSLD) && is_executable o then relax_tlsld d offset o
  else if (arm R_X86_64_GOTPC32_TLSDESC || arm R_X86_64_CODE_4_GOTPC32_TLSDESC) && negb interposable && is_executable o then
    g ← prefix_guard R_X86_64_CODE_4_GOTPC32_TLSDESC relocation_kind d offset;
    if g : bool then relax_tlsdesc_local relocation_kind d offset o
    else if arm R_X86_64_GOTPC32_TLSDESC then relax_tlsdesc_initial d offset o
    else Ret None
  else if (arm R_X86_64_GOTPC32_TLSDESC) && is_executable o then relax_tlsdesc_initial d offset o
  else if (arm R_X86_64_TLSDESC_CALL) && is_executable o
  then choose SkipTlsDescCall R_X86_64_NONE (is_static_executable o)
  else Ret None.

(** The match on the relocation type. *)
Definition relax_code (relocation_kind : Z) (d : bytes) (offset : Z) (absolute interposable : bool) (o : OutputKind)
  : outcome (option Relaxation) :=
  let arm r := relocation_kind =? num r in
  if arm R_X86_64_REX_GOTPCRELX || arm R_X86_64_CODE_4_GOTPCRELX then
    g ← prefix_guard R_X86_64_CODE_4_GOTPCRELX relocation_kind d offset;
    if g : bool then relax_rex_gotpcrelx relocation_kind d offset absolute interposable o else Ret None
  else if arm R_X86_64_GOTPCRELX then relax_gotpcrelx d offset absolute interposable o
  else if arm R_X86_64_GOTPCREL && negb interposable && (2 <=? offset) then relax_gotpcrel d offset
  else if (arm R_X86_64_GOTTPOFF || arm R_X86_64_CODE_4_GOTTPOFF) && is_executable o && negb interposable then
    g ← prefix_guard R_X86_64_CODE_4_GOTTPOFF relocation_kind d offset;
    if g : bool then relax_gottpoff relocation_kind d offset else Ret None
  else if arm R_X86_64_CODE_6_GOTTPOFF && is_executable o && negb interposable && (6 <=? offset)
  then relax_code_6_gottpoff d offset o
  else if arm R_X86_64_PLT32 && negb interposable then choose NoOp R_X86_64_PC32 (is_static_executable o)
  else if arm R_X86_64_PLTOFF64 && negb interposable then choose NoOp R_X86_64_GOTOFF64 (is_static_executable o)
  else relax_tls relocation_kind d offset interposable o.

Definition new_relaxation (relocation_kind : Z) (d : bytes) (offset flags : Z) (o : OutputKind) (section_flags : Z)
  : outcome (option Relaxation) :=
  let is_known_address := is_address flags in
  let absolute := is_absolute flags && negb (is_dynamic flags) in
  let is_absolute_address := is_known_address && negb (is_relocatable o) in
  if is_ifunc flags then
    if relocation_kind =? num R_X86_64_PC32 then choose NoOp R_X86_64_PLT32 true else Ret None
  else if negb (flags_contain section_flags EXECINSTR) then Ret None
  else relax_code relocation_kind d offset (absolute || is_absolute_address) (is_interposable flags) o.
End choice.
