(* ===== verification/ApplyReloc.v ===== *)
(** Applying the relocations of a section ([apply_relocations], [apply_relocation] and what
    they call in [libwild/src/elf_writer.rs], the address accessors of [Resolution] in
    [libwild/src/elf.rs]), over the interface of an architecture. *)
From stdpp Require Import base numbers list.
From S2P Require Import Prelude BitMisc RelocInsn RelocInfo ValueFlags GotAlloc Relaxation RelaxX86.
Open Scope Z_scope.

(** ** The interface of an architecture *)

(** [platform::Relaxation]: how it rewrites (section, offset, addend) and what it makes of the relocation. *)
Record relaxation := mkRelax {
  rel_info : RelocationKindInfo; rel_apply : bytes -> Z -> Z -> outcome patch;
  rel_next_modifier : RelocationModifier; is_mandatory : bool }.

(** The part of [platform::Arch] that relocation needs. *)
Class Arch := {
  relocation_type : Z -> outcome (option RelocationKindInfo);
  new_relaxation_of : Z -> bytes -> Z -> Z -> OutputKind -> Z -> bool -> option SectionDeltas -> outcome (option relaxation);
  high_part_relocations : list Z;
  fill_nop_padding : bytes -> Z -> Z -> outcome bytes }.

(** ** What relocations refer to *)

Record Reloc := mkReloc { rl_offset : Z; rl_type : Z; rl_addend : Z; rl_symbol : option Z }.

Inductive ApplyError :=
| TableError (e : WriteError) | FieldError (e : RelocError) | NoSymbol | MissingResolution | UnsupportedType
| MissingGotAddress | NonZeroLowAddend | MissingHighRelocation | UnsupportedHighKind | MissingPrevious
| UnequalOffsets | UnexpectedPrevious | UnexpectedSize | UnexpectedKind | MergedStringError.

Abbreviation run A := (outcome (result A ApplyError)).
Definition done_with {A} (a : A) : run A := Ret (Ok a).
Definition failed {A} (e : ApplyError) : run A := Ret (Err e).

(** [?] on the errors of the table writer and of [write_relocation_to_buffer]. *)
Definition from_table {A} (x : io A) : run A :=
  match x with Ret (Ok a) => Ret (Ok a) | Ret (Err e) => Ret (Err (TableError e)) | Panic => Panic end.
Definition from_field {A} (x : outcome (result A RelocError)) : run A :=
  match x with Ret (Ok a) => Ret (Ok a) | Ret (Err e) => Ret (Err (FieldError e)) | Panic => Panic end.

Definition got_address (res : Resolution) : run Z := ok_or (rs_got_address res) MissingGotAddress.
Definition plt_address (res : Resolution) : run Z := ok_or (rs_plt_address res) (TableError MissingPltAddress).

Definition got_address_for_relocation (res : Resolution) : run Z :=
  g ←! got_address res;
  done_with (if needs_ifunc_got_for_address (rs_flags res) then u64 (g + GOT_ENTRY_SIZE) else g).

Definition tlsgd_got_address (res : Resolution) : run Z :=
  g ←! got_address res;
  done_with (if needs_got_tls_offset (rs_flags res) then u64 (g + GOT_ENTRY_SIZE) else g).

Definition tls_descriptor_got_address (res : Resolution) : run Z :=
  g ←! got_address res;
  let g := if needs_got_tls_offset (rs_flags res) then u64 (g + GOT_ENTRY_SIZE) else g in
  done_with (if needs_got_tls_module (rs_flags res) then u64 (g + 2 * GOT_ENTRY_SIZE) else g).

(** What layout has decided, as far as relocations see it. *)
Record ElfLayout := mkLayout {
  ly_output_kind : OutputKind; ly_relax : bool;
  ly_got_base : Z; ly_tls_start : Z; ly_tls_end : Z; ly_tp_offset_start : Z; ly_tlsld_got_entry : option Z;
  ly_definition : Z -> Z; ly_resolutions : Z -> option Resolution; ly_flags : Z -> Z }.

(** An object file: symbol indices to symbol ids, the address of a symbol's section plus its offset, and the
    output address of a string in a merged section ([get_merged_string_output_address], not modelled). *)
Record ObjectLayout := mkObject {
  ob_input_to_id : Z -> Z; ob_section_value : Z -> option Z; ob_merged_string : Z -> Z -> result (option Z) ApplyError }.

(** [Layout::flags_for_symbol]. *)
Definition flags_for_symbol (ly : ElfLayout) (id : Z) : Z := merge (ly_flags ly (ly_definition ly id)) (ly_flags ly id).

Definition merged_symbol_resolution (ly : ElfLayout) (id : Z) : option Resolution :=
  res ← ly_resolutions ly (ly_definition ly id);
  Some (mkResolution (rs_raw_value res) (rs_dynamic_symbol_index res) (rs_got_address res) (rs_plt_address res)
          (merge (rs_flags res) (flags_for_symbol ly id))).

Definition get_resolution (rel : Reloc) (ob : ObjectLayout) (ly : ElfLayout) : run (Resolution * Z * Z) :=
  sym ←! ok_or (rl_symbol rel) NoSymbol;
  let id := ob_input_to_id ob sym in
  match merged_symbol_resolution ly id with
  | Some res => done_with (res, sym, id)
  | None =>
      match ob_section_value ob sym with
      | Some v => done_with (mkResolution v None None None 0, sym, id)
      | None => failed MissingResolution
      end
  end.

Definition value_with_addend (res : Resolution) (addend symbol_index : Z) (ob : ObjectLayout) : run Z :=
  if is_ifunc (rs_flags res) then p ←! plt_address res; done_with (u64 (p + addend))
  else if rs_raw_value res =? 0 then
    match ob_merged_string ob symbol_index addend with
    | Err e => failed e
    | Ok (Some r) => done_with r
    | Ok None => done_with (u64 (rs_raw_value res + addend))
    end
  else done_with (u64 (rs_raw_value res + addend)).


(** ** The value of a relocation *)

(** [highest_relocation_with_bias] of [linker-utils/src/loongarch64.rs]. *)
Definition highest_relocation_with_bias (symbol_with_addend pc : Z) : Z :=
  u64 (Z.land (u64 (u64 (symbol_with_addend + SIZE_2GB)
                    + (if negb (Z.land symbol_with_addend SIZE_2KB =? 0) then u64 (SIZE_4KB - SIZE_4GB) else 0)))
         (not_w 64 PAGE_MASK_4KB)
       - Z.land (u64 (pc - 8)) (not_w 64 PAGE_MASK_4KB)).

Record RelocationCache := mkCache { previous : option Reloc; high_part_symbols : list (Z * Reloc) }.

(** [HashMap::get]; the newest entry of a key comes first. *)
Fixpoint cached (symbols : list (Z * Reloc)) (key : Z) : option Reloc :=
  match symbols with
  | [] => None
  | (k, r) :: symbols => if k =? key then Some r else cached symbols key
  end.

(** [SectionInfo]. *)
Record SectionInfo := mkSection { section_address : Z; is_writable : bool; section_flags : Z }.

Section apply.
Context {A : Arch} (ly : ElfLayout) (ob : ObjectLayout) (ALLOC : Z) (uleb : Z -> bytes).

(** The high part a low part refers to: in the cache, else later in the section. *)
Fixpoint find_high (relax_deltas : option SectionDeltas) (rest : list Reloc) (key : Z) : outcome (option Reloc) :=
  match rest with
  | [] => Ret None
  | r :: rest =>
      if bool_decide (rl_type r ∈ high_part_relocations) then
        out ← opt_input_to_output relax_deltas (rl_offset r);
        if out =? key then Ret (Some r) else find_high relax_deltas rest key
      else find_high relax_deltas rest key
  end.

(** [.wrapping_add(addend).wrapping_add(bias)]. *)
Definition biased (v addend bias : Z) : Z := u64 (u64 (v + addend) + bias).

(** [tlsld_got_entry.unwrap()]. *)
Definition tlsld_got_entry : run Z := match ly_tlsld_got_entry ly with Some g => done_with g | None => Panic end.

(** [RelocationKind::RelativeRiscVLow12]. *)
Definition riscv_low12_value (res : Resolution) (symbol_index addend bias section_address : Z)
  (cache : RelocationCache) (rest : list Reloc) (relax_deltas : option SectionDeltas) : run Z :=
  if negb (addend =? 0) then failed NonZeroLowAddend else
  v ←! value_with_addend res addend symbol_index ob;
  let hi_offset := u64 (v - section_address) in
  hi ← match cached (high_part_symbols cache) hi_offset with
       | Some r => Ret (Some r)
       | None => find_high relax_deltas rest hi_offset
       end;
  hi_rel ←! ok_or hi MissingHighRelocation;
  info ← relocation_type (rl_type hi_rel);
  hi_info ←! ok_or info UnsupportedType;
  let addend := rl_addend hi_rel in
  q ←! get_resolution hi_rel ob ly;
  let '(res, symbol_index, _) := q : Resolution * Z * Z in
  let place := u64 (section_address + hi_offset) in
  match ri_kind hi_info with
  | Relative => v ←! value_with_addend res addend symbol_index ob; done_with (u64 (u64 (v + bias) - place))
  | GotRelative => g ←! got_address_for_relocation res; done_with (u64 (biased g addend bias - place))
  | TlsGd => g ←! tlsgd_got_address res; done_with (u64 (biased g addend bias - place))
  | TlsLd => g ←! tlsld_got_entry; done_with (u64 (biased g addend bias - place))
  | GotTpOff => g ←! got_address res; done_with (u64 (biased g addend bias - place))
  | _ => failed UnsupportedHighKind
  end.

Definition pair_subtraction_value (rel : Reloc) (res : Resolution) (symbol_index addend : Z) (set_rel : Reloc)
  (expected_r_type : Z) : run Z :=
  if negb (rl_offset set_rel =? rl_offset rel) then failed UnequalOffsets
  else if negb (rl_type set_rel =? expected_r_type) then failed UnexpectedPrevious
  else
    q ←! get_resolution set_rel ob ly;
    let '(set_res, set_symbol_index, _) := q : Resolution * Z * Z in
    set_val ←! value_with_addend set_res (rl_addend set_rel) set_symbol_index ob;
    sub_val ←! value_with_addend res addend symbol_index ob;
    done_with (u64 (set_val - sub_val)).

(** The dynamic relocation that stands in for an absolute value, or the value. *)
Definition write_absolute_relocation (res : Resolution) (place addend symbol_index : Z) (info : SectionInfo) (w : TableWriter)
  : run (Z * TableWriter) :=
  let o := ly_output_kind ly in
  if negb (flags_contain (section_flags info) ALLOC) then
    v ←! value_with_addend res addend symbol_index ob; done_with (v, w)
  else if is_dynamic (rs_flags res) && is_absolute (rs_flags res) && negb (is_writable info) then done_with (0, w)
  else if is_interposable (rs_flags res) && is_writable info then
    i ←! from_table (dynamic_symbol_index res);
    w ←! from_table (put_general (mkRela place i DAbsolute addend) w);
    done_with (0, w)
  else if is_ifunc (rs_flags res) && is_writable info && is_relocatable o then
    w ←! from_table (put_general (mkRela place 0 DIrelative (i64 (rs_raw_value res + addend))) w);
    done_with (0, w)
  else if is_relocatable o && negb (is_absolute (rs_flags res)) then
    address ←! value_with_addend res addend symbol_index ob;
    from_table (write_address_relocation place address w)
  else v ←! value_with_addend res addend symbol_index ob; done_with (v, w).

(** The kinds that use the symbol's value. *)
Definition symbol_value (k : RelocationKind) (mask : PageMaskValue) (bias : Z) (res : Resolution) (symbol_index addend place : Z)
  : run Z :=
  match k with
  | DtpOff =>
      done_with (u64 (biased (rs_raw_value res) addend bias
                      - match ly_output_kind ly with SharedObject => ly_tls_start ly | _ => ly_tls_end ly end))
  | TpOff => done_with (u64 (biased (rs_raw_value res) addend bias - ly_tp_offset_start ly))
  | _ =>
      v ←! value_with_addend res addend symbol_index ob;
      match k with
      | AbsoluteLowPart => done_with (Z.land v (pm_symbol_plus_addend mask))
      | Relative => done_with (u64 (Z.land (u64 (v + bias)) (pm_symbol_plus_addend mask) - Z.land place (pm_place mask)))
      | RelativeLoongArchHigh => done_with (highest_relocation_with_bias v place)
      | SymRelGotBase =>
          done_with (u64 (Z.land (u64 (v + bias)) (pm_symbol_plus_addend mask) - Z.land (ly_got_base ly) (pm_got mask)))
      | _ => done_with v
      end
  end.

(** The kinds that use an entry of the GOT: its address, and from there the value. *)
Definition entry_value (k : RelocationKind) (mask : PageMaskValue) (bias : Z) (addend place g : Z) : Z :=
  let got := Z.land (ly_got_base ly) (pm_got mask) in
  match k with
  | GotRelative => u64 (Z.land (u64 (u64 (g + bias) + addend)) (pm_got_entry mask) - Z.land place (pm_place mask))
  | TlsGd | TlsLd | GotTpOff | TlsDesc =>
      u64 (Z.land (biased g addend bias) (pm_got_entry mask) - Z.land place (pm_place mask))
  | GotRelGotBase | TlsGdGotBase | TlsLdGotBase | GotTpOffGotBase | TlsDescGotBase =>
      u64 (Z.land (biased g addend bias) (pm_got_entry mask) - got)
  | TlsGdGot | TlsLdGot | GotTpOffGot | TlsDescGot => Z.land (biased g addend bias) (pm_got_entry mask)
  | Got => Z.land (u64 (g + bias)) (pm_got_entry mask)
  | GotRelativeLoongArch64 | GotTpOffLoongArch64 | TlsDescLoongArch64 => highest_relocation_with_bias (u64 (g + addend)) place
  | PltRelGotBase => u64 (u64 (g + bias) - got)
  | PltRelative => u64 (biased g addend bias - Z.land place (pm_place mask))
  | _ => 0
  end.

Definition entry_address (k : RelocationKind) (res : Resolution) : run Z :=
  match k with
  | GotRelative | GotRelativeLoongArch64 | GotRelGotBase => got_address_for_relocation res
  | Got => if needs_got_tls_module (rs_flags res) then tlsgd_got_address res else got_address_for_relocation res
  | PltRelGotBase | PltRelative => plt_address res
  | TlsGd | TlsGdGot | TlsGdGotBase => tlsgd_got_address res
  | TlsLd | TlsLdGot | TlsLdGotBase => tlsld_got_entry
  | GotTpOff | GotTpOffLoongArch64 | GotTpOffGot | GotTpOffGotBase => got_address res
  | _ => tls_descriptor_got_address res
  end.

Definition relocation_value (info : RelocationKindInfo) (rel : Reloc) (res : Resolution) (symbol_index addend place : Z)
  (section : SectionInfo) (cache : RelocationCache) (rest : list Reloc) (relax_deltas : option SectionDeltas) (w : TableWriter)
  : run (Z * TableWriter) :=
  let mask := get_page_mask (ri_mask info) in
  let bias := ri_bias info in
  match ri_kind info with
  | Absolute => write_absolute_relocation res place addend symbol_index section w
  | RelativeRiscVLow12 =>
      v ←! riscv_low12_value res symbol_index addend bias (section_address section) cache rest relax_deltas; done_with (v, w)
  | PairSubtractionULEB128 expected =>
      set_rel ←! ok_or (previous cache) MissingPrevious;
      v ←! pair_subtraction_value rel res symbol_index addend set_rel expected; done_with (v, w)
  | KNone | TlsDescCall => done_with (0, w)
  | Alignment => Panic
  | AbsoluteSet | AbsoluteSetWord6 | AbsoluteAddition | AbsoluteAdditionWord6 | AbsoluteSubtraction | AbsoluteSubtractionWord6
  | AbsoluteLowPart | Relative | RelativeLoongArchHigh | SymRelGotBase | DtpOff | TpOff =>
      v ←! symbol_value (ri_kind info) mask bias res symbol_index addend place; done_with (v, w)
  | k => g ←! entry_address k res; done_with (entry_value k mask bias addend place g, w)
  end.

Definition LOW6_MASK : Z := 0x3f.

(** The kinds that combine the value with what the field holds. *)
Definition adjusts (k : RelocationKind) : bool :=
  match k with
  | AbsoluteAddition | AbsoluteAdditionWord6 | AbsoluteSubtraction | AbsoluteSetWord6 | AbsoluteSubtractionWord6 => true
  | _ => false
  end.

(** The six low bits of [value] under the upper bits of [current]. *)
Definition keep_high (value current : Z) : Z := Z.lor value (Z.land current (not_w 64 LOW6_MASK)).

Definition adjust_relocation_based_on_value (value : Z) (info : RelocationKindInfo) (out : bytes) (offset : Z) : run Z :=
  match ri_size info with
  | BitMasking _ => failed UnexpectedSize
  | ByteSize rel_size =>
      field ← slice out offset (offset + rel_size);
      if 8 <? rel_size then Panic else
      let current := le_combine field in
      let low x := Z.land x LOW6_MASK in
      match ri_kind info with
      | AbsoluteSetWord6 => done_with (keep_high (low value) current)
      | AbsoluteAddition => done_with (u64 (current + value))
      | AbsoluteAdditionWord6 => done_with (keep_high (low (u64 (low current + low value))) current)
      | AbsoluteSubtraction => done_with (u64 (current - value))
      | AbsoluteSubtractionWord6 => done_with (keep_high (low (u64 (low current - low value))) current)
      | _ => failed UnexpectedKind
      end
  end.

(** The relocated value over the field. *)
Definition write_field (info : RelocationKindInfo) (value : Z) (out : bytes) (offset : Z) : run bytes :=
  tail ← slice_from out offset;
  written ←! from_field (write_relocation_to_buffer uleb info value tail);
  done_with (take (Z.to_nat offset) out ++ written).

(** The relocation applied as it is, or as the relaxation makes it. *)
Definition apply_chosen (relax : option relaxation) (rel : Reloc) (info : RelocationKindInfo) (res : Resolution) (symbol_index offset : Z)
  (section : SectionInfo) (out : bytes) (w : TableWriter) (cache : RelocationCache) (rest : list Reloc)
  (relax_deltas : option SectionDeltas) : run (bytes * TableWriter * RelocationModifier) :=
  p ← match relax with Some r => rel_apply r out offset (rl_addend rel) | None => Ret (out, offset, rl_addend rel) end;
  let '(out, offset, addend) := p : patch in
  let info := match relax with Some r => rel_info r | None => info end in
  let next := match relax with Some r => rel_next_modifier r | None => Normal end in
  let place := u64 (section_address section + offset) in
  q ←! relocation_value info rel res symbol_index addend place section cache rest relax_deltas w;
  let '(value, w) := q : Z * TableWriter in
  value ←! (if adjusts (ri_kind info) then adjust_relocation_based_on_value value info out offset else done_with value);
  out ←! write_field info value out offset;
  done_with (out, w, next).

Definition apply_relocation (offset : Z) (rel : Reloc) (section : SectionInfo) (out : bytes) (w : TableWriter)
  (cache : RelocationCache) (rest : list Reloc) (relax_deltas : option SectionDeltas)
  : run (bytes * TableWriter * RelocationModifier) :=
  row ← relocation_type (rl_type rel);
  info ←! ok_or row UnsupportedType;
  match ri_kind info with
  | KNone => done_with (out, w, Normal)
  | Alignment =>
      removed ← match relax_deltas with None => Ret 0 | Some d => delta_at d (rl_offset rel) end;
      out ← fill_nop_padding out offset (Z.max 0 (u64 (rl_addend rel) - u64 removed));
      done_with (out, w, Normal)
  | _ =>
      q ←! get_resolution rel ob ly;
      let '(res, symbol_index, id) := q : Resolution * Z * Z in
      found ← new_relaxation_of (rl_type rel) out offset (flags_for_symbol ly id) (ly_output_kind ly) (section_flags section)
                (negb (rs_raw_value res =? 0)) relax_deltas;
      let relax := match found with Some r => if ly_relax ly || is_mandatory r then Some r else None | None => None end in
      apply_chosen relax rel info res symbol_index offset section out w cache rest relax_deltas
  end.

(** The loop over the relocations of a section. *)
Fixpoint apply_loop (relocations : list Reloc) (section : SectionInfo) (relax_deltas : option SectionDeltas)
  (relax_cursor : RelaxCursor) (modifier : RelocationModifier) (cache : RelocationCache) (out : bytes) (w : TableWriter)
  : run (bytes * TableWriter) :=
  match relocations with
  | [] => done_with (out, w)
  | rel :: rest =>
      symbols ← (if bool_decide (rl_type rel ∈ high_part_relocations) then
                   key ← opt_input_to_output relax_deltas (rl_offset rel); Ret ((key, rel) :: high_part_symbols cache)
                 else Ret (high_part_symbols cache));
      let after := mkCache (Some rel) symbols in
      match modifier with
      | SkipNextRelocation => apply_loop rest section relax_deltas relax_cursor Normal after out w
      | Normal =>
          let '(offset, relax_cursor) :=
            match relax_deltas with
            | Some d => translate d relax_cursor (rl_offset rel)
            | None => (rl_offset rel, relax_cursor)
            end in
          q ←! apply_relocation offset rel section out w (mkCache (previous cache) symbols) rest relax_deltas;
          let '(out, w, modifier) := q : bytes * TableWriter * RelocationModifier in
          apply_loop rest section relax_deltas relax_cursor modifier after out w
      end
  end.

Definition apply_relocations (relocations : list Reloc) (section : SectionInfo) (relax_deltas : option SectionDeltas)
  (out : bytes) (w : TableWriter) : run (bytes * TableWriter) :=
  apply_loop relocations section relax_deltas cursor Normal (mkCache None []) out w.
End apply.
