(* ===== verification/ScanReloc.v ===== *)
(** Scanning the relocations of a section ([load_section_relocations] and
    [process_relocation] of [libwild/src/elf.rs]): what each asks of its symbol, which
    dynamic relocations are reserved for it, and which symbols must be loaded.  The writer
    ([ApplyReloc]) later relies on every decision made here. *)
From stdpp Require Import base numbers list.
From S2P Require Import Prelude RelocInfo ValueFlags GotAlloc Relaxation RelaxX86 ApplyReloc.
Open Scope Z_scope.

(** The state the scan changes: the sizes of the group, the flags of every symbol, two flags of the whole link, the
    symbols requested, the copy relocations requested and the undefined symbols reported. *)
Record ScanState := mkScan {
  sc_sizes : part_map; sc_flags : Z -> Z; sc_static_tls : bool; sc_uses_tlsld : bool;
  sc_requests : list Z; sc_copies : list Z; sc_undefined : list Z }.

Inductive ScanError := TextRelocation | CopyRelocationDisallowed | Unsupported.
Definition scan_error {A} (e : ScanError) : outcome (result A ScanError) := Ret (Err e).

(** [common.allocate]. *)
Definition allocate (p : part) (size : Z) (st : ScanState) : ScanState :=
  mkScan (increment p size (sc_sizes st)) (sc_flags st) (sc_static_tls st) (sc_uses_tlsld st) (sc_requests st) (sc_copies st)
    (sc_undefined st).

(** [has_static_tls.store(true)] and [uses_tlsld.store(true)]. *)
Definition store_tls (static_tls uses_tlsld : bool) (st : ScanState) : ScanState :=
  mkScan (sc_sizes st) (sc_flags st) (static_tls || sc_static_tls st) (uses_tlsld || sc_uses_tlsld st) (sc_requests st)
    (sc_copies st) (sc_undefined st).

(** [fetch_or] on the flags of a symbol. *)
Definition or_flags (id flags : Z) (st : ScanState) : ScanState :=
  mkScan (sc_sizes st) (fun s => if s =? id then Z.lor (sc_flags st s) flags else sc_flags st s) (sc_static_tls st)
    (sc_uses_tlsld st) (sc_requests st) (sc_copies st) (sc_undefined st).

Definition request (id : Z) (st : ScanState) : ScanState :=
  mkScan (sc_sizes st) (sc_flags st) (sc_static_tls st) (sc_uses_tlsld st) (sc_requests st ++ [id]) (sc_copies st) (sc_undefined st).
Definition request_copy (id : Z) (st : ScanState) : ScanState :=
  mkScan (sc_sizes st) (sc_flags st) (sc_static_tls st) (sc_uses_tlsld st) (sc_requests st) (sc_copies st ++ [id]) (sc_undefined st).
Definition report_undefined (id : Z) (st : ScanState) : ScanState :=
  mkScan (sc_sizes st) (sc_flags st) (sc_static_tls st) (sc_uses_tlsld st) (sc_requests st) (sc_copies st) (sc_undefined st ++ [id]).

Definition does_relocation_require_static_tls (k : RelocationKind) : bool := resolution_flags k =? GOT_TLS_OFFSET.

Definition needs_tlsld (k : RelocationKind) : bool :=
  match k with TlsLd | TlsLdGot | TlsLdGotBase => true | _ => false end.

Definition is_Absolute (k : RelocationKind) : bool := match k with Absolute => true | _ => false end.

(** The arguments and the symbol table, as far as the scan asks them. *)
Record ScanResources := mkResources {
  sr_output_kind : OutputKind; sr_relax : bool; sr_relr : bool; sr_copy_allowed : bool;
  sr_definition : Z -> Z; sr_input_to_id : Z -> Z;
  sr_weak : Z -> bool; sr_allow_undefined : bool; sr_ignore_in_objects : bool; sr_undefined : Z -> bool; sr_in_dylib : Z -> bool }.

(** The section: its flags, whether it is writable, its bytes. *)
Record ScanSection := mkScanSection { ss_flags : Z; ss_writable : bool; ss_bytes : bytes }.

Section scan.
Context {A : Arch} (sr : ScanResources) (ALLOC : Z).
Let o := sr_output_kind sr.

(** The reservations for a relocation of kind [k], and the flags to add to its symbol. *)
Definition reserve (k : RelocationKind) (flags rel_offset : Z) (section : ScanSection) (is_debug_section : bool) (st : ScanState)
  : outcome (result (Z * ScanState) ScanError) :=
  let flags_to_add := resolution_flags k in
  if negb (flags_contain (ss_flags section) ALLOC) then Ret (Ok (flags_to_add, st))
  else if is_tls k then Ret (Ok (flags_to_add, store_tls (does_relocation_require_static_tls k) (needs_tlsld k) st))
  else if needs_direct flags_to_add && is_interposable flags then
    if ss_writable section then Ret (Ok (flags_to_add, allocate RELA_DYN_GENERAL RELA_ENTRY_SIZE st))
    else if is_function flags then Ret (Ok (Z.lor (Z.ldiff flags_to_add DIRECT) (Z.lor PLT GOT), st))
    else if negb (is_absolute flags) then
      if sr_copy_allowed sr then Ret (Ok (Z.lor flags_to_add COPY_RELOCATION, st)) else scan_error CopyRelocationDisallowed
    else Ret (Ok (flags_to_add, st))
  else if is_ifunc flags && is_Absolute k && ss_writable section && is_relocatable o
  then Ret (Ok (flags_to_add, allocate RELA_DYN_GENERAL RELA_ENTRY_SIZE st))
  else if is_relocatable o && is_Absolute k && is_address flags then
    if ss_writable section then
      if sr_relr sr && is_multiple_of rel_offset 2 then Ret (Ok (flags_to_add, allocate RELR_DYN RELR_ENTRY_SIZE st))
      else Ret (Ok (flags_to_add, allocate RELA_DYN_RELATIVE RELA_ENTRY_SIZE st))
    else if negb is_debug_section then scan_error TextRelocation
    else Ret (Ok (flags_to_add, st))
  else Ret (Ok (flags_to_add, st)).

(** What an ifunc needs besides. *)
Definition ifunc_flags (flags flags_to_add : Z) : Z :=
  let relocation_needs_got := needs_got flags_to_add in
  let flags_to_add := if is_ifunc flags && negb (is_static_executable o) then Z.lor flags_to_add (Z.lor GOT PLT) else flags_to_add in
  if is_ifunc flags && relocation_needs_got && negb (is_relocatable o) then Z.lor flags_to_add IFUNC_GOT_FOR_ADDRESS else flags_to_add.

Definition should_emit_undefined_error (sym flags id : Z) : bool :=
  is_absolute flags && negb (sr_allow_undefined sr || sr_weak sr sym) && negb (sr_ignore_in_objects sr)
  && sr_undefined sr id && negb (sr_in_dylib sr id).

(** The update of the symbol's flags, and the requests that follow from what they were. *)
Definition update_symbol (sym id flags flags_to_add : Z) (st : ScanState) : ScanState :=
  let previous_flags := sc_flags st id in
  let st := or_flags id flags_to_add st in
  let st := if negb (has_resolution previous_flags) then
              request id (if is_ifunc flags && is_static_executable o then or_flags id (Z.lor GOT PLT) st else st)
            else st in
  let st := if should_emit_undefined_error sym flags id then report_undefined id st else st in
  if needs_copy_relocation flags_to_add && negb (needs_copy_relocation previous_flags) then request_copy id st else st.

(** The relaxation that will be used, and the relocation that it leaves. *)
Definition choose_relaxation (rel : Reloc) (section : ScanSection) (flags : Z) : outcome (option relaxation) :=
  found ← new_relaxation_of (rl_type rel) (ss_bytes section) (rl_offset rel) flags o (ss_flags section) true None;
  Ret match found with Some r => if sr_relax sr || is_mandatory r then Some r else None | None => None end.

Definition chosen_info (rel : Reloc) (relax : option relaxation) : outcome (option RelocationKindInfo) :=
  match relax with Some r => Ret (Some (rel_info r)) | None => relocation_type (rl_type rel) end.

(** The flags of the definition, as this reference may bind to it. *)
Definition reference_flags (sym : Z) (st : ScanState) : Z :=
  let local := sr_input_to_id sr sym in merge (sc_flags st (sr_definition sr local)) (sc_flags st local).

Definition process_relocation (rel : Reloc) (section : ScanSection) (is_debug_section : bool) (st : ScanState)
  : outcome (result (ScanState * RelocationModifier) ScanError) :=
  match rl_symbol rel with
  | None => Ret (Ok (st, Normal))
  | Some sym =>
      let id := sr_definition sr (sr_input_to_id sr sym) in
      let flags := reference_flags sym st in
      relax ← choose_relaxation rel section flags;
      row ← chosen_info rel relax;
      info ←! ok_or row Unsupported;
      q ←! reserve (ri_kind info) flags (rl_offset rel) section is_debug_section st;
      let '(flags_to_add, st) := q : Z * ScanState in
      Ret (Ok (update_symbol sym id flags (ifunc_flags flags flags_to_add) st,
               match relax with Some r => rel_next_modifier r | None => Normal end))
  end.

Fixpoint scan_loop (relocations : list Reloc) (section : ScanSection) (modifier : RelocationModifier) (st : ScanState)
  : outcome (result ScanState ScanError) :=
  match relocations with
  | [] => Ret (Ok st)
  | rel :: relocations =>
      match modifier with
      | SkipNextRelocation => scan_loop relocations section Normal st
      | Normal =>
          q ←! process_relocation rel section false st;
          let '(st, modifier) := q : ScanState * RelocationModifier in
          scan_loop relocations section modifier st
      end
  end.

Definition load_section_relocations (relocations : list Reloc) (section : ScanSection) (st : ScanState)
  : outcome (result ScanState ScanError) := scan_loop relocations section Normal st.
End scan.
