(* ===== verification/ScanSpec.v ===== *)
(** Scanning and writing agree on relocations.  Every relocation that has been scanned can be
    written from the final flags: the addresses it uses have been handed out, and the dynamic
    relocations that its absolute value needs are those that were reserved for it. *)
From stdpp Require Import base numbers list relations.
From S2P Require Import Prelude RelocInfo ValueFlags GotAlloc Relaxation GotSpec RelaxX86 ApplyReloc ScanReloc.
Open Scope Z_scope.

(** ** Flags *)

(** The flags that describe a symbol's value; the scan only adds others. *)
Definition VALUE_FLAGS : Z := 0x3f.
Definition same_value (a b : Z) : Prop := Z.land a VALUE_FLAGS = Z.land b VALUE_FLAGS.

#[export] Instance same_value_equivalence : Equivalence same_value.
Proof. unfold same_value. split; [done|by intros ?|by intros ? ? ? -> ->]. Qed.

Lemma contains_lor a b m : contains a m = true -> contains (Z.lor a b) m = true.
Proof.
  unfold contains. intros H%Z.eqb_eq. apply Z.eqb_eq. rewrite Z.land_lor_distr_l, H. apply Z.bits_inj'. intros i Hi.
  rewrite Z.lor_spec, Z.land_spec. destruct (Z.testbit m i); by rewrite ?andb_false_r.
Qed.

Lemma contains_refl a : contains a a = true.
Proof. unfold contains. by rewrite Z.land_diag, Z.eqb_refl. Qed.

Lemma contains_lor_r a b m : contains b m = true -> contains (Z.lor a b) m = true.
Proof. rewrite Z.lor_comm. apply contains_lor. Qed.

Lemma contains_trans a b m : contains a b = true -> contains b m = true -> contains a m = true.
Proof.
  unfold contains. intros Ha%Z.eqb_eq Hb%Z.eqb_eq. apply Z.eqb_eq. rewrite <- Hb at 1. by rewrite Z.land_assoc, Ha.
Qed.

Lemma contains_lor_inv a m n : contains a (Z.lor m n) = true <-> contains a m = true /\ contains a n = true.
Proof.
  split.
  - intros H. split; (eapply contains_trans; [exact H|]); [apply contains_lor|apply contains_lor_r]; apply contains_refl.
  - unfold contains. intros [Hm%Z.eqb_eq Hn%Z.eqb_eq]. apply Z.eqb_eq. by rewrite Z.land_lor_distr_r, Hm, Hn.
Qed.

(** A flag of the mask is the same in flags with the same value. *)
Lemma contains_value a b m : Z.land VALUE_FLAGS m = m -> same_value a b -> contains a m = contains b m.
Proof.
  unfold same_value, contains. intros Hm Hab. rewrite <- Hm at 1 3. rewrite !Z.land_assoc, Hab. by rewrite <- Z.land_assoc, Hm.
Qed.

Lemma same_value_lor a b : Z.land b VALUE_FLAGS = 0 -> same_value (Z.lor a b) a.
Proof. unfold same_value. intros Hb. by rewrite Z.land_lor_distr_l, Hb, Z.lor_0_r. Qed.

Lemma same_value_merge a b c d : same_value a c -> same_value b d -> same_value (merge a b) (merge c d).
Proof.
  intros Ha Hb. unfold merge. rewrite (contains_value b d) by done. destruct (contains d _); [|done].
  unfold same_value in *. by rewrite !Z.land_lor_distr_l, Ha.
Qed.

#[export] Instance merge_proper : Proper (same_value ==> same_value ==> same_value) merge.
Proof. intros a c Ha b d Hb. by apply same_value_merge. Qed.

(** The accessors that depend on the value only. *)
Ltac value_flag := intros a b Hab; unfold is_ifunc, is_absolute, is_dynamic, is_interposable, is_function; by rewrite (contains_value a b).
#[export] Instance is_ifunc_proper : Proper (same_value ==> eq) is_ifunc.
Proof. value_flag. Qed.
#[export] Instance is_absolute_proper : Proper (same_value ==> eq) is_absolute.
Proof. value_flag. Qed.
#[export] Instance is_dynamic_proper : Proper (same_value ==> eq) is_dynamic.
Proof. value_flag. Qed.
#[export] Instance is_interposable_proper : Proper (same_value ==> eq) is_interposable.
Proof. value_flag. Qed.

Lemma merge_contains a b m : contains a m = true -> contains (merge a b) m = true.
Proof. intros H. unfold merge. destruct (contains b _); [by apply contains_lor|done]. Qed.

(** Merging changes nothing but whether the symbol can be interposed. *)
Lemma merge_other a b m : Z.land NON_INTERPOSABLE m = 0 -> contains (merge a b) m = contains a m.
Proof.
  intros Hm. unfold merge. destruct (contains b _); [|done]. unfold contains. by rewrite Z.land_lor_distr_l, Hm, Z.lor_0_r.
Qed.

Lemma merge_twice a b : merge a (merge a b) = merge a b.
Proof.
  unfold merge at 1. destruct (contains (merge a b) NON_INTERPOSABLE) eqn:E.
  - unfold merge in *. destruct (contains b _); [done|]. unfold contains in E. apply Z.eqb_eq in E.
    apply Z.bits_inj'. intros i Hi. rewrite Z.lor_spec. apply (f_equal (fun x => Z.testbit x i)) in E.
    rewrite Z.land_spec in E. destruct (Z.testbit a i); [done|]. cbn in E. by rewrite <- E.
  - unfold merge in *. destruct (contains b NON_INTERPOSABLE) eqn:Eb; [|done].
    rewrite (contains_lor_r a NON_INTERPOSABLE NON_INTERPOSABLE) in E; [done|apply contains_refl].
Qed.

(** ** What a scan step keeps *)

(** Flags are only added, and none that describes a value. *)
Record grows (st st' : ScanState) : Prop := {
  gr_flags : forall id m, contains (sc_flags st id) m = true -> contains (sc_flags st' id) m = true;
  gr_value : forall id, same_value (sc_flags st' id) (sc_flags st id);
  gr_tlsld : sc_uses_tlsld st = true -> sc_uses_tlsld st' = true;
  gr_static_tls : sc_static_tls st = true -> sc_static_tls st' = true }.

#[export] Instance grows_preorder : PreOrder grows.
Proof.
  split; [by split|]. intros a b c [] []. split; eauto. intros id. etransitivity; eauto.
Qed.

(** Only flags outside the value. *)
Definition adds_only (flags : Z) : Prop := Z.land flags VALUE_FLAGS = 0.

Lemma adds_only_lor a b : adds_only a -> adds_only b -> adds_only (Z.lor a b).
Proof. unfold adds_only. intros Ha Hb. by rewrite Z.land_lor_distr_l, Ha, Hb. Qed.

Lemma adds_only_resolution k : adds_only (resolution_flags k).
Proof. by destruct k. Qed.

Lemma adds_only_ldiff a b : adds_only a -> adds_only (Z.ldiff a b).
Proof.
  unfold adds_only. intros Ha. apply Z.bits_inj'. intros i Hi. apply (f_equal (fun x => Z.testbit x i)) in Ha.
  rewrite Z.land_spec, Z.bits_0 in *. rewrite Z.ldiff_spec. by destruct (Z.testbit a i), (Z.testbit VALUE_FLAGS i), (Z.testbit b i).
Qed.

Lemma grows_or id flags st : adds_only flags -> grows st (or_flags id flags st).
Proof.
  intros Hf. split; [| |done..]; intros s; cbn; destruct (s =? id).
  - intros m. apply contains_lor.
  - done.
  - by apply same_value_lor.
  - done.
Qed.

Lemma grows_allocate p n st : grows st (allocate p n st).
Proof. by split. Qed.
Lemma grows_request id st : grows st (request id st).
Proof. by split. Qed.
Lemma grows_request_copy id st : grows st (request_copy id st).
Proof. by split. Qed.
Lemma grows_report id st : grows st (report_undefined id st).
Proof. by split. Qed.
Lemma grows_tls a b st : grows st (store_tls a b st).
Proof. split; [done|done|..]; cbn; intros ->; apply orb_true_r. Qed.

Lemma grows_refl st : grows st st.
Proof. done. Qed.

Create HintDb scan.
#[export] Hint Resolve grows_refl grows_or grows_allocate grows_request grows_request_copy grows_report grows_tls
  adds_only_lor adds_only_resolution adds_only_ldiff : scan.
#[export] Hint Extern 1 (adds_only _) => reflexivity : scan.

Section steps.
Context {A : Arch} (sr : ScanResources) (ALLOC : Z).
Abbreviation o := (sr_output_kind sr).

Lemma reserve_grows k flags off section debug st fa st' : reserve sr ALLOC k flags off section debug st = Ret (Ok (fa, st')) ->
  grows st st' /\ adds_only fa /\ sc_flags st' = sc_flags st.
Proof.
  unfold reserve, scan_error. intros H. repeat case_match; try discriminate H; injection H as <- <-; split_and!; auto 8 with scan.
Qed.

Lemma ifunc_flags_adds flags fa : adds_only fa -> adds_only (ifunc_flags sr flags fa).
Proof. intros H. unfold ifunc_flags. repeat case_match; auto with scan. Qed.

Lemma ifunc_flags_contains flags fa m : contains fa m = true -> contains (ifunc_flags sr flags fa) m = true.
Proof. intros H. unfold ifunc_flags. repeat case_match; auto using contains_lor. Qed.

Lemma update_grows sym id flags fa st : adds_only fa -> grows st (update_symbol sr sym id flags fa st).
Proof.
  intros Hf. unfold update_symbol. repeat case_match; repeat (first [by apply grows_or | etransitivity; [|by apply grows_request_copy]
    | etransitivity; [|by apply grows_report] | etransitivity; [|by apply grows_request] | etransitivity; [|by apply grows_or] ]).
Qed.

(** The symbol has the flags that were asked, and an ifunc a GOT and a PLT entry once it has any. *)
Definition ifunc_ready (st : ScanState) : Prop := forall id, is_ifunc (sc_flags st id) = true ->
  has_resolution (sc_flags st id) = true -> contains (sc_flags st id) (Z.lor GOT PLT) = true.

Lemma update_flags sym id flags fa st s : sc_flags (update_symbol sr sym id flags fa st) s =
  if s =? id then Z.lor (Z.lor (sc_flags st id) fa)
       (if negb (has_resolution (sc_flags st id)) && (is_ifunc flags && is_static_executable o) then Z.lor GOT PLT else 0)
  else sc_flags st s.
Proof.
  unfold update_symbol. destruct (negb (has_resolution _)), (is_ifunc flags && is_static_executable o),
    (should_emit_undefined_error _ _ _ _), (needs_copy_relocation fa && _); cbn;
    destruct (Z.eqb_spec s id) as [->|]; by rewrite ?Z.lor_0_r.
Qed.

Abbreviation symbol_id := (fun sym => sr_definition sr (sr_input_to_id sr sym)).

(** How a relocation is processed. *)
Lemma process_inv rel section debug st st' next : process_relocation sr ALLOC rel section debug st = Ret (Ok (st', next)) ->
  rl_symbol rel = None /\ st' = st \/
  exists sym relax info fa st1, rl_symbol rel = Some sym /\
    choose_relaxation sr rel section (reference_flags sr sym st) = Ret relax /\ chosen_info rel relax = Ret (Some info) /\
    reserve sr ALLOC (ri_kind info) (reference_flags sr sym st) (rl_offset rel) section debug st = Ret (Ok (fa, st1)) /\
    st' = update_symbol sr sym (symbol_id sym) (reference_flags sr sym st) (ifunc_flags sr (reference_flags sr sym st) fa) st1.
Proof.
  unfold process_relocation. destruct (rl_symbol rel) as [sym|]; [|intros [= <- <-]; by left]. intros H. right. exists sym.
  destruct (choose_relaxation _ _ _ _) as [relax|] eqn:E1; [|done]. cbn [mbind outcome_bind] in H.
  destruct (chosen_info rel relax) as [[info|]|] eqn:E2; cbn [mbind outcome_bind] in H; [|discriminate H|discriminate H]. unfold ok_or in H.
  destruct (reserve _ _ _ _ _ _ _ _) as [[[fa st1]|]|] eqn:E3; try discriminate H. injection H as <- _.
  by exists relax, info, fa, st1.
Qed.

Lemma process_grows rel section debug st st' next : process_relocation sr ALLOC rel section debug st = Ret (Ok (st', next)) -> grows st st'.
Proof.
  intros [[_ ->]|(sym & relax & info & fa & st1 & _ & _ & _ & Hr & ->)]%process_inv; [done|].
  destruct (reserve_grows _ _ _ _ _ _ _ _ Hr) as (Hg & Hf & _). etransitivity; [exact Hg|]. by apply update_grows, ifunc_flags_adds.
Qed.

Lemma reference_ifunc sym st : is_ifunc (reference_flags sr sym st) = is_ifunc (sc_flags st (symbol_id sym)).
Proof. unfold reference_flags, is_ifunc. by apply merge_other. Qed.

Lemma has_resolution_lor a b : has_resolution (Z.lor a b) = has_resolution a || has_resolution b.
Proof.
  unfold has_resolution, resolution_part. rewrite Z.land_lor_distr_l.
  destruct (Z.eqb_spec (Z.land a RESOLUTION_FLAGS) 0) as [->|Ha]; [by rewrite Z.lor_0_l|].
  cbn. apply negb_true_iff, Z.eqb_neq. intros [E _]%Z.lor_eq_0_iff. done.
Qed.

(** An ifunc has a GOT and a PLT entry after the first relocation against it. *)
Lemma update_ifunc sym flags fa st : is_ifunc flags = is_ifunc (sc_flags st (symbol_id sym)) -> adds_only fa -> ifunc_ready st ->
  is_ifunc flags = true ->
  contains (sc_flags (update_symbol sr sym (symbol_id sym) flags (ifunc_flags sr flags fa) st) (symbol_id sym)) (Z.lor GOT PLT) = true.
Proof.
  intros Hfl Hf Hst Hi. rewrite update_flags, Z.eqb_refl, Hi. rewrite Hi in Hfl. cbn [andb].
  destruct (is_static_executable o) eqn:Es; cbn [andb].
  - destruct (has_resolution (sc_flags st (symbol_id sym))) eqn:Eh; cbn [negb andb].
    + rewrite Z.lor_0_r. by apply contains_lor, Hst.
    + apply contains_lor_r, contains_refl.
  - rewrite andb_false_r, Z.lor_0_r. apply contains_lor_r. unfold ifunc_flags. rewrite Hi, Es. cbn [andb negb].
    case_match; [apply contains_lor|]; apply contains_lor_r, contains_refl.
Qed.

Lemma process_ready rel section debug st st' next : process_relocation sr ALLOC rel section debug st = Ret (Ok (st', next)) ->
  ifunc_ready st -> ifunc_ready st'.
Proof.
  intros H Hst. pose proof (process_grows _ _ _ _ _ _ H) as Hg. intros id Hi Hr.
  rewrite (is_ifunc_proper _ _ (gr_value _ _ Hg id)) in Hi.
  apply process_inv in H as [[_ ->]|(sym & relax & info & fa & st1 & _ & _ & _ & Hres & ->)]; [by apply Hst|].
  destruct (reserve_grows _ _ _ _ _ _ _ _ Hres) as (_ & Hf & Hsame).
  destruct (decide (id = symbol_id sym)) as [->|Hne].
  - apply update_ifunc; [by rewrite Hsame, reference_ifunc|done| |by rewrite reference_ifunc].
    intros x. rewrite Hsame. apply Hst.
  - rewrite update_flags, (proj2 (Z.eqb_neq _ _) Hne), Hsame in *. by apply Hst.
Qed.

(** One relocation of any section. *)
Inductive scan_step : ScanState -> ScanState -> Prop :=
| scan_relocation rel section st st' next : process_relocation sr ALLOC rel section false st = Ret (Ok (st', next)) -> scan_step st st'.

Lemma steps_grow st st' : rtc scan_step st st' -> grows st st'.
Proof. induction 1 as [|st1 st2 st3 [rel section st st' next H] _ IH]; [done|]. etransitivity; [by eapply process_grows|done]. Qed.

Lemma steps_ready st st' : rtc scan_step st st' -> ifunc_ready st -> ifunc_ready st'.
Proof. induction 1 as [|st1 st2 st3 [rel section st st' next H] _ IH]; [done|]. intros ?. by eapply IH, process_ready. Qed.
End steps.

(** ** Addresses *)

Lemma created F raw idx m r m' : create_resolution F raw idx m = Ret (r, m') ->
  rs_flags r = F /\ rs_dynamic_symbol_index r = idx /\ (needs_plt F = true -> is_Some (rs_plt_address r)) /\
  (needs_plt F || is_tls_symbol F || needs_got F = true -> is_Some (rs_got_address r)).
Proof.
  unfold create_resolution, allocate_plt, allocate_got, non_zero. intros H.
  destruct (needs_plt F), (is_tls_symbol F), (needs_got F);
    repeat (match type of H with context [if ?b then Panic else _] => destruct b end; cbn [mbind outcome_bind] in H); try discriminate H;
    injection H as <- _; cbn; repeat split; intros; try done; by eexists.
Qed.

(** The kinds whose value is computed from this relocation alone. *)
Definition self_contained (k : RelocationKind) : bool :=
  match k with RelativeRiscVLow12 | PairSubtractionULEB128 _ | KNone | Alignment => false | _ => true end.

Definition uses_entry (k : RelocationKind) : bool :=
  match k with
  | GotRelative | GotRelativeLoongArch64 | GotRelGotBase | Got | PltRelGotBase | PltRelative | TlsGd | TlsGdGot | TlsGdGotBase
  | TlsLd | TlsLdGot | TlsLdGotBase | GotTpOff | GotTpOffLoongArch64 | GotTpOffGot | GotTpOffGotBase
  | TlsDesc | TlsDescLoongArch64 | TlsDescGot | TlsDescGotBase => true
  | _ => false
  end.

(** A resolution with the addresses that its flags ask for. *)
Definition complete (res : Resolution) : Prop :=
  (needs_plt (rs_flags res) = true -> is_Some (rs_plt_address res)) /\
  (needs_plt (rs_flags res) || is_tls_symbol (rs_flags res) || needs_got (rs_flags res) = true -> is_Some (rs_got_address res)).

Lemma got_available res m : complete res -> contains (rs_flags res) m = true ->
  m ∈ [GOT; Z.lor PLT GOT; GOT_TLS_MODULE; GOT_TLS_OFFSET; GOT_TLS_DESCRIPTOR] -> exists g, rs_got_address res = Some g.
Proof.
  intros [_ Hc] Hm Hin. destruct Hc as [g Hg]; [|by exists g]. unfold is_tls_symbol, needs_got, needs_plt.
  rewrite !elem_of_cons, elem_of_nil in Hin. destruct Hin as [-> |[-> |[-> |[-> |[-> |[]]]]]]; [..|by rewrite Hm, !orb_true_r].
  - by rewrite Hm, orb_true_r.
  - by apply contains_lor_inv in Hm as [-> _].
  - by rewrite Hm, !orb_true_r.
  - by rewrite Hm, !orb_true_r.
Qed.

Lemma entry_available ly k res : complete res -> uses_entry k = true -> contains (rs_flags res) (resolution_flags k) = true ->
  (needs_tlsld k = true -> is_Some (ly_tlsld_got_entry ly)) -> exists g, entry_address ly k res = done_with g.
Proof.
  intros Hc Hu Hf Hl.
  assert (needs_tlsld k = false -> exists g, rs_got_address res = Some g) as Hg.
  { intros Ht. apply (got_available res (resolution_flags k)); [done..|]. rewrite !elem_of_cons. destruct k; try discriminate Hu; try discriminate Ht; auto 8. }
  assert (resolution_flags k = Z.lor PLT GOT -> exists p, rs_plt_address res = Some p) as Hp.
  { intros E. rewrite E in Hf. apply contains_lor_inv in Hf as [Hp _]. by destruct (proj1 Hc Hp) as [p ?]; exists p. }
  destruct k; try discriminate Hu; unfold entry_address, got_address_for_relocation, tlsgd_got_address, tls_descriptor_got_address,
    got_address, plt_address, tlsld_got_entry, ok_or;
    try (destruct (Hp eq_refl) as [p ->]; by eexists); try (destruct (Hl eq_refl) as [g ->]; by eexists);
    destruct (Hg eq_refl) as [g ->]; cbn; repeat case_match; by eexists.
Qed.

Lemma value_available ob res a sym : complete res -> (is_ifunc (rs_flags res) = true -> needs_plt (rs_flags res) = true) ->
  (forall s a, exists v, ob_merged_string ob s a = Ok v) -> exists v, value_with_addend res a sym ob = done_with v.
Proof.
  intros Hc Hi Hm. unfold value_with_addend, plt_address, ok_or. destruct (is_ifunc _).
  - destruct (proj1 Hc (Hi eq_refl)) as [p ->]. by eexists.
  - destruct (rs_raw_value res =? 0); [|by eexists]. destruct (Hm sym a) as [[v|] ->]; by eexists.
Qed.

(** ** Dynamic relocations *)

(** A relative relocation of a place that is not in a table of its own. *)
Definition relative_entry (relr : bool) (place address : Z) : effect :=
  if relr && is_multiple_of place 2 then mkEffect [] [] [] [] [] [place]
  else mkEffect [] [] [] [mkRela place 0 DRelative (i64 address)] [] [].

Lemma relative_entry_ok (relr : bool) place address w : fits relr (relative_entry relr place address) w ->
  write_address_relocation place address w
  = ok (if relr && is_multiple_of place 2 then address else 0, extend (relative_entry relr place address) w).
Proof.
  unfold write_address_relocation, relative_entry, fits, extend, ext. intros H.
  destruct (tw_relr_dyn w) as [t|] eqn:Ht; cbn [fmap option_fmap option_map].
  - destruct H as (_ & _ & _ & Hl & _ & -> & Hr). cbn [andb] in *.
    destruct (is_multiple_of place 2); cbn in *; rewrite push_ok by done; unfold ext; rewrite !Z.sub_0_r, !app_nil_r; by destruct w as [[] [] [] [] [] ?], t.
  - destruct H as (_ & _ & _ & Hl & _ & Hr). destruct (relr && is_multiple_of place 2); [by cbn in Hr|]. cbn in *.
    rewrite push_ok by done. unfold ext. rewrite !Z.sub_0_r, !app_nil_r. by destruct w as [[] [] [] [] [] ?].
Qed.

(** What an absolute value adds to the tables. *)
Definition absolute_effect (o : OutputKind) (relr writable : bool) (res : Resolution) (place addend address : Z) : effect :=
  let flags := rs_flags res in
  if is_dynamic flags && is_absolute flags && negb writable then nothing
  else if is_interposable flags && writable then general (mkRela place (index_or_zero res) DAbsolute addend)
  else if is_ifunc flags && writable && is_relocatable o then general (mkRela place 0 DIrelative (i64 (rs_raw_value res + addend)))
  else if is_relocatable o && negb (is_absolute flags) then relative_entry relr place address
  else nothing.

Lemma put_general_from (relr : bool) r w : fits relr (general r) w -> from_table (put_general r w) = done_with (extend (general r) w).
Proof. intros H. by rewrite (put_general_ok relr) by done. Qed.

Lemma write_absolute_ok ly ob ALLOC (relr : bool) res place addend sym si address :
  flags_contain (section_flags si) ALLOC = true -> value_with_addend res addend sym ob = done_with address ->
  (is_interposable (rs_flags res) = true -> is_Some (rs_dynamic_symbol_index res)) ->
  exists v, forall w, let e := absolute_effect (ly_output_kind ly) relr (is_writable si) res place addend address in
    fits relr e w -> write_absolute_relocation ly ob ALLOC res place addend sym si w = done_with (v, extend e w).
Proof.
  intros Ha Hv Hi. unfold write_absolute_relocation, absolute_effect. cbv zeta. rewrite Ha, Hv. cbn [negb].
  destruct (is_dynamic _ && is_absolute _ && _); [exists 0; intros w _; by rewrite extend_nothing|].
  destruct (is_interposable _) eqn:Ei; cbn [andb].
  - destruct (is_writable si); cbn [andb].
    + destruct (Hi eq_refl) as [i Ex]. exists 0. intros w Hf. unfold dynamic_symbol_index, index_or_zero, ok_or in *. rewrite Ex in *.
      cbn [from_table]. by rewrite (put_general_from relr) by done.
    + rewrite andb_false_r. cbn [andb].
      destruct (is_relocatable _ && _); [|exists address; intros w _; by rewrite extend_nothing].
      eexists. intros w Hf. unfold done_with. by rewrite (relative_entry_ok relr) by exact Hf.
  - destruct (is_ifunc _ && is_writable si && _).
    + exists 0. intros w Hf. by rewrite (put_general_from relr) by done.
    + destruct (is_relocatable _ && _); [|exists address; intros w _; by rewrite extend_nothing].
      eexists. intros w Hf. unfold done_with. by rewrite (relative_entry_ok relr) by exact Hf.
Qed.

Section agreement.
Context {A : Arch} (sr : ScanResources) (ALLOC : Z).
Abbreviation o := (sr_output_kind sr).

(** The relocations whose entries scan and writer count alike: a direct reference from writable data to a symbol that
    can be interposed is absolute; code and constants of a position-independent output hold absolute values of absolute
    symbols only; RELR is chosen by the parity of the offset, so the section is at an even address; and every dynamic symbol
    can be interposed. *)
Record well_placed (k : RelocationKind) (flags rel_offset place : Z) (writable : bool) : Prop := {
  wp_direct : is_interposable flags = true -> writable = true -> needs_direct (resolution_flags k) = true -> is_tls k = false -> k = Absolute;
  wp_readonly : k = Absolute -> is_relocatable o = true -> writable = false -> is_absolute flags = true;
  wp_parity : sr_relr sr = true -> is_multiple_of place 2 = is_multiple_of rel_offset 2;
  wp_dynamic : is_dynamic flags = true -> is_interposable flags = true }.

(** The entries of one relocation. *)
Definition relocation_effect (k : RelocationKind) (writable : bool) (res : Resolution) (place addend address : Z) : effect :=
  if is_Absolute k then absolute_effect o (sr_relr sr) writable res place addend address else nothing.

Lemma relocation_effect_small k writable res place addend address p :
  0 <= size_of (relocation_effect k writable res place addend address) p <= 24.
Proof.
  unfold relocation_effect, absolute_effect, relative_entry. repeat case_match; destruct p; vm_compute; split; discriminate.
Qed.

Lemma update_sizes sym id flags fa st : sc_sizes (update_symbol sr sym id flags fa st) = sc_sizes st.
Proof. unfold update_symbol. by repeat case_match. Qed.

Lemma adds_general r : adds (increment RELA_DYN_GENERAL RELA_ENTRY_SIZE) (size_of (general r)).
Proof. eapply adds_ext; [|by apply adds_increment]. by intros []. Qed.

Lemma adds_relative_entry relr place address :
  adds (if relr && is_multiple_of place 2 then increment RELR_DYN RELR_ENTRY_SIZE else increment RELA_DYN_RELATIVE RELA_ENTRY_SIZE)
       (size_of (relative_entry relr place address)).
Proof.
  unfold relative_entry. destruct (relr && _); (eapply adds_ext; [|by apply adds_increment]); by intros [].
Qed.

Lemma adds_nothing : adds (fun m => m) (size_of nothing).
Proof. eapply adds_ext; [|apply adds_id]. by intros []. Qed.

(** The scan reserves what the writer will use. *)
Lemma reserve_adds k flags rel_offset section st fa st' res place addend address :
  reserve sr ALLOC k flags rel_offset section false st = Ret (Ok (fa, st')) -> flags_contain (ss_flags section) ALLOC = true ->
  well_placed k flags rel_offset place (ss_writable section) -> same_value (rs_flags res) flags ->
  exists f, sc_sizes st' = f (sc_sizes st) /\ adds f (size_of (relocation_effect k (ss_writable section) res place addend address)).
Proof.
  unfold reserve, relocation_effect, absolute_effect. intros H Ha Hw Hfl. rewrite Ha in H. cbn [negb] in H.
  rewrite (is_dynamic_proper _ _ Hfl), (is_absolute_proper _ _ Hfl), (is_interposable_proper _ _ Hfl), (is_ifunc_proper _ _ Hfl).
  assert (is_address flags = negb (is_ifunc flags) && negb (is_dynamic flags) && negb (is_absolute flags)) as Haddr by done.
  pose proof (wp_direct _ _ _ _ _ Hw) as H1. pose proof (wp_readonly _ _ _ _ _ Hw) as H2. pose proof (wp_dynamic _ _ _ _ _ Hw) as H4.
  assert (k = Absolute \/ is_Absolute k = false) as [->|Hk] by (destruct k; auto).
  - cbn [is_Absolute is_tls resolution_flags] in *. change (needs_direct DIRECT) with true in H. cbn [andb] in H.
    rewrite Haddr in H. unfold scan_error in H.
    destruct (is_interposable flags) eqn:Ei, (is_dynamic flags) eqn:Ed, (is_absolute flags) eqn:Eb, (is_ifunc flags) eqn:Ef,
      (ss_writable section) eqn:Ew, (is_relocatable o) eqn:Er; cbn [negb andb] in *;
      try (exfalso; (discriminate (H4 eq_refl) || discriminate (H2 eq_refl eq_refl eq_refl))).
    all: try (injection H as <- <-; eexists; split; [reflexivity|]; first [apply adds_general | apply adds_nothing]).
    all: repeat case_match; try discriminate H; simplify_eq; try (eexists (fun m => m); split; [reflexivity|apply adds_nothing]).
    all: pose proof (adds_relative_entry (sr_relr sr) place address) as Had.
    all: match goal with Hb : _ && is_multiple_of _ 2 = ?b |- _ =>
           assert (sr_relr sr && is_multiple_of place 2 = b) as Ep
             by (destruct (sr_relr sr) eqn:Erelr; cbn [andb] in *; [by rewrite (wp_parity _ _ _ _ _ Hw Erelr)|done]) end.
    all: rewrite Ep in Had; eexists; split; [reflexivity|exact Had].
  - rewrite Hk, !andb_false_r in *. cbn [andb] in H.
    destruct (is_tls k) eqn:Et; [injection H as <- <-; exists (fun m => m); split; [done|apply adds_nothing]|].
    destruct (needs_direct (resolution_flags k) && is_interposable flags) eqn:Ed.
    + apply andb_true_iff in Ed as [Ed Ei]. destruct (ss_writable section); [by rewrite H1 in Hk|]. unfold scan_error in H.
      repeat case_match; try discriminate H; simplify_eq; exists (fun m => m); split; (done || apply adds_nothing).
    + injection H as <- <-. exists (fun m => m). split; [done|apply adds_nothing].
Qed.

(** ** From scan to write *)

Abbreviation symbol_id := (fun sym => sr_definition sr (sr_input_to_id sr sym)).

(** Layout has been made from the final flags: every symbol that was asked for has the addresses its flags ask for, and a
    dynamic symbol when it can be interposed. *)
Record laid_out (st : ScanState) (ly : ElfLayout) (ob : ObjectLayout) : Prop := {
  lo_output : ly_output_kind ly = o;
  lo_definition : forall id, ly_definition ly id = sr_definition sr id;
  lo_ids : forall sym, ob_input_to_id ob sym = sr_input_to_id sr sym;
  lo_flags : forall id, ly_flags ly id = sc_flags st id;
  lo_resolution : forall id, has_resolution (sc_flags st id) = true -> exists r raw index m m',
    ly_resolutions ly id = Some r /\ create_resolution (sc_flags st id) raw index m = Ret (r, m') /\
    (is_interposable (sc_flags st id) = true -> is_Some index);
  lo_tlsld : sc_uses_tlsld st = true -> is_Some (ly_tlsld_got_entry ly);
  lo_strings : forall sym a, exists v, ob_merged_string ob sym a = Ok v }.

Lemma is_interposable_merge a b : is_interposable (merge a b) = true -> is_interposable a = true.
Proof. unfold is_interposable. destruct (contains a NON_INTERPOSABLE) eqn:E; [by rewrite merge_contains|done]. Qed.

(** The symbol resolves to what layout made of the merged flags. *)
Lemma get_resolution_laid st ly ob rel sym : laid_out st ly ob -> rl_symbol rel = Some sym ->
  has_resolution (sc_flags st (symbol_id sym)) = true ->
  exists res, get_resolution rel ob ly = done_with (res, sym, sr_input_to_id sr sym) /\
    rs_flags res = reference_flags sr sym st /\ complete res /\
    (is_interposable (rs_flags res) = true -> is_Some (rs_dynamic_symbol_index res)).
Proof.
  intros Hlo Hs Hr. destruct (lo_resolution _ _ _ Hlo _ Hr) as (r & raw & index & m & m' & Hr1 & Hc & Hi).
  destruct (created _ _ _ _ _ _ Hc) as (Hf & Hx & Hp & Hg). set (F := sc_flags st (symbol_id sym)) in *.
  set (fl := reference_flags sr sym st).
  assert (merge (rs_flags r) (flags_for_symbol ly (sr_input_to_id sr sym)) = fl) as Efl.
  { unfold flags_for_symbol. rewrite (lo_definition _ _ _ Hlo), !(lo_flags _ _ _ Hlo), Hf. apply merge_twice. }
  exists (mkResolution (rs_raw_value r) (rs_dynamic_symbol_index r) (rs_got_address r) (rs_plt_address r) fl).
  split; [|split; [done|split]].
  - unfold get_resolution, merged_symbol_resolution. rewrite Hs. cbn [ok_or].
    rewrite (lo_ids _ _ _ Hlo), (lo_definition _ _ _ Hlo), Hr1. cbn. by rewrite Efl.
  - unfold complete. cbn [rs_flags rs_plt_address rs_got_address].
    assert (forall m, Z.land NON_INTERPOSABLE m = 0 -> contains fl m = contains F m) as Hm by (intros; by apply merge_other).
    unfold needs_plt, needs_got, is_tls_symbol in *. by rewrite !Hm.
  - cbn [rs_flags rs_dynamic_symbol_index]. intros E. rewrite Hx. by eapply Hi, is_interposable_merge.
Qed.

Lemma reserve_entry k flags off section debug st fa st' : reserve sr ALLOC k flags off section debug st = Ret (Ok (fa, st')) ->
  uses_entry k = true -> fa = resolution_flags k.
Proof.
  intros H Hu. assert (needs_direct (resolution_flags k) = false) as Hd by (by destruct k).
  unfold reserve, scan_error in H. rewrite Hd in H. cbn [andb] in H. repeat case_match; try discriminate H; by simplify_eq.
Qed.

Lemma reserve_resolution k flags off section debug st fa st' : reserve sr ALLOC k flags off section debug st = Ret (Ok (fa, st')) ->
  resolution_flags k <> 0 -> has_resolution fa = true.
Proof.
  intros H Hk. assert (has_resolution (resolution_flags k) = true) as Hd by (by destruct k).
  unfold reserve, scan_error in H. repeat case_match; try discriminate H; simplify_eq; try done;
    rewrite has_resolution_lor; apply orb_true_iff; [by right|by left].
Qed.

Lemma reserve_tlsld k flags off section debug st fa st' : reserve sr ALLOC k flags off section debug st = Ret (Ok (fa, st')) ->
  flags_contain (ss_flags section) ALLOC = true -> needs_tlsld k = true -> sc_uses_tlsld st' = true.
Proof. unfold reserve. intros H Ha Hk. rewrite Ha in H. cbn [negb] in H. destruct k; try discriminate Hk; by injection H as <- <-. Qed.

Lemma contains_resolution a b : contains a b = true -> has_resolution b = true -> has_resolution a = true.
Proof.
  unfold contains. intros <-%Z.eqb_eq H. unfold has_resolution, resolution_part in *. apply negb_true_iff, Z.eqb_neq in H.
  apply negb_true_iff, Z.eqb_neq. intros E. apply H. by rewrite <- Z.land_assoc, (Z.land_comm b), Z.land_assoc, E, Z.land_0_l.
Qed.

(** The value of a relocation whose symbol has what it needs, and the entries it writes. *)
Lemma value_written ly ob info rel res sym addend place si cache rest relax_deltas :
  self_contained (ri_kind info) = true -> flags_contain (section_flags si) ALLOC = true -> ly_output_kind ly = o -> complete res ->
  (is_ifunc (rs_flags res) = true -> needs_plt (rs_flags res) = true) -> (forall s a, exists v, ob_merged_string ob s a = Ok v) ->
  (uses_entry (ri_kind info) = true -> contains (rs_flags res) (resolution_flags (ri_kind info)) = true) ->
  (needs_tlsld (ri_kind info) = true -> is_Some (ly_tlsld_got_entry ly)) ->
  (is_interposable (rs_flags res) = true -> is_Some (rs_dynamic_symbol_index res)) ->
  exists v address, forall w, let e := relocation_effect (ri_kind info) (is_writable si) res place addend address in
    fits (sr_relr sr) e w -> relocation_value ly ob ALLOC info rel res sym addend place si cache rest relax_deltas w = done_with (v, extend e w).
Proof.
  intros Hk Ha Ho Hc Hi Hm Hu Hl Hx. cbv zeta. destruct (value_available ob res addend sym Hc Hi Hm) as [address Hv].
  assert (is_Absolute (ri_kind info) = false ->
    forall v, (forall w, relocation_value ly ob ALLOC info rel res sym addend place si cache rest relax_deltas w = done_with (v, w)) ->
    exists v address, forall w, fits (sr_relr sr) (relocation_effect (ri_kind info) (is_writable si) res place addend address) w ->
      relocation_value ly ob ALLOC info rel res sym addend place si cache rest relax_deltas w
      = done_with (v, extend (relocation_effect (ri_kind info) (is_writable si) res place addend address) w)) as Hplain.
  { intros Hna v Hw. exists v, 0. intros w _. unfold relocation_effect. by rewrite Hna, extend_nothing. }
  assert (uses_entry (ri_kind info) = true -> exists g, entry_address ly (ri_kind info) res = done_with g) as He.
  { intros E. by apply entry_available; auto. }
  unfold relocation_value in *. destruct (ri_kind info) eqn:Ek; try discriminate Hk; cbn [is_Absolute] in *.
  1: { destruct (write_absolute_ok ly ob ALLOC (sr_relr sr) res place addend sym si address Ha Hv Hx) as (v & Hw).
       exists v, address. intros w Hf. unfold relocation_effect in *. cbn [is_Absolute] in *. rewrite <- Ho in *. by apply Hw. }
  all: try (destruct (He eq_refl) as [g Hg]; eapply (Hplain eq_refl); intros w; rewrite Hg; reflexivity).
  all: eapply (Hplain eq_refl); intros w; unfold symbol_value; rewrite ?Hv; reflexivity.
Qed.

(** What the symbol of a processed relocation has in the end. *)
Lemma processed_flags sym k section off debug st fa st1 : ifunc_ready st ->
  reserve sr ALLOC k (reference_flags sr sym st) off section debug st = Ret (Ok (fa, st1)) ->
  let fl := reference_flags sr sym st in
  let F := sc_flags (update_symbol sr sym (symbol_id sym) fl (ifunc_flags sr fl fa) st1) (symbol_id sym) in
  contains F fa = true /\ (is_ifunc fl = true -> contains F (Z.lor GOT PLT) = true).
Proof.
  intros Hst Hr. destruct (reserve_grows sr ALLOC _ _ _ _ _ _ _ _ Hr) as (_ & Hf & Hsame). cbv zeta. split.
  - rewrite update_flags, Z.eqb_refl. apply contains_lor, contains_lor_r, ifunc_flags_contains, contains_refl.
  - intros Hi. apply update_ifunc; [by rewrite Hsame, reference_ifunc|done| |done]. intros x. rewrite Hsame. apply Hst.
Qed.

Lemma reference_same_value sym st st' : grows st st' -> same_value (reference_flags sr sym st') (reference_flags sr sym st).
Proof. intros Hg. unfold reference_flags. apply same_value_merge; apply (gr_value _ _ Hg). Qed.

(** Every relocation that was scanned can be written.  Scan the relocations of any sections in any order, from a state
    in which no symbol has been asked for; let layout hand out addresses for the final flags.  Then each of those
    relocations (in an allocated section, well placed, of a kind that depends on no other relocation) finds its symbol's
    resolution, and with the relocation that the scan chose its value is computed without a missing address and the
    tables of dynamic relocations get the very entries that the scan reserved for it. *)
Lemma scanned_relocation st0 st st' st_f ly ob rel section next sym relax info addend place si cache rest relax_deltas :
  (forall id, has_resolution (sc_flags st0 id) = false) -> rtc (scan_step sr ALLOC) st0 st ->
  process_relocation sr ALLOC rel section false st = Ret (Ok (st', next)) -> rtc (scan_step sr ALLOC) st' st_f ->
  laid_out st_f ly ob -> rl_symbol rel = Some sym ->
  choose_relaxation sr rel section (reference_flags sr sym st) = Ret relax -> chosen_info rel relax = Ret (Some info) ->
  self_contained (ri_kind info) = true -> (resolution_flags (ri_kind info) = 0 -> has_resolution (sc_flags st_f (symbol_id sym)) = true) ->
  flags_contain (ss_flags section) ALLOC = true -> section_flags si = ss_flags section -> is_writable si = ss_writable section ->
  well_placed (ri_kind info) (reference_flags sr sym st) (rl_offset rel) place (ss_writable section) ->
  (forall p, 0 <= sc_sizes st p < 2 ^ 64 - 24) ->
  exists res v e, get_resolution rel ob ly = done_with (res, sym, sr_input_to_id sr sym) /\
    (forall p, sc_sizes st' p = sc_sizes st p + size_of e p /\ 0 <= size_of e p <= 24) /\
    forall w, fits (sr_relr sr) e w ->
      relocation_value ly ob ALLOC info rel res sym addend place si cache rest relax_deltas w = done_with (v, extend e w).
Proof.
  intros H0 Hs0 Hp Hs1 Hlo Hsym Hrelax Hinfo Hk Hzero Ha Hsf Hsw Hw Hroom.
  pose proof (steps_ready sr ALLOC _ _ Hs0 ltac:(intros id _ E; by rewrite H0 in E)) as Hst.
  pose proof (process_grows sr ALLOC _ _ _ _ _ _ Hp) as Hg. pose proof (steps_grow sr ALLOC _ _ Hs1) as Hg1.
  apply process_inv in Hp as [[E _]|(sym' & relax' & info' & fa & st1 & Esym & Erelax & Einfo & Hr & Est)]; [congruence|].
  assert (sym' = sym) as -> by congruence. assert (relax' = relax) as -> by congruence. assert (info' = info) as -> by congruence.
  set (fl := reference_flags sr sym st) in *. set (F := sc_flags st_f (symbol_id sym)).
  destruct (processed_flags _ _ _ _ _ _ _ _ Hst Hr) as [Hfa Hif]. fold fl in Hfa, Hif. rewrite <- Est in Hfa, Hif.
  apply (gr_flags _ _ Hg1) in Hfa.
  assert (has_resolution F = true) as HF.
  { destruct (Z.eq_dec (resolution_flags (ri_kind info)) 0) as [E|E]; [by apply Hzero|].
    eapply contains_resolution; [exact Hfa|]. by eapply reserve_resolution. }
  destruct (get_resolution_laid _ _ _ _ _ Hlo Hsym HF) as (res & Hres & Hflags & Hc & Hi).
  assert (same_value (rs_flags res) fl) as Hval by (rewrite Hflags; apply reference_same_value; by etransitivity).
  assert (forall m, contains F m = true -> contains (rs_flags res) m = true) as Hin.
  { intros m. rewrite Hflags. apply merge_contains. }
  destruct (value_written ly ob info rel res sym addend place si cache rest relax_deltas Hk) as (v & address & Hwr);
    [by rewrite Hsf|apply (lo_output _ _ _ Hlo)|done| |apply (lo_strings _ _ _ Hlo)| | |done|].
  { intros E. rewrite (is_ifunc_proper _ _ Hval) in E. apply Hin.
    by apply (gr_flags _ _ Hg1), contains_lor_inv in Hif as [_ ?]. }
  { intros E. apply Hin. by rewrite (reserve_entry _ _ _ _ _ _ _ _ Hr E) in Hfa. }
  { intros E. apply (lo_tlsld _ _ _ Hlo), (gr_tlsld _ _ Hg1). rewrite Est.
    apply (gr_tlsld _ _ (update_grows sr _ _ _ _ _ (ifunc_flags_adds sr _ _ (proj1 (proj2 (reserve_grows sr ALLOC _ _ _ _ _ _ _ _ Hr)))))).
    by eapply reserve_tlsld. }
  destruct (reserve_adds _ _ _ _ _ _ _ res place addend address Hr Ha Hw Hval) as (f & Hsz & _ & Hf).
  rewrite Hsw in Hwr. eexists res, v, _. split; [done|]. split; [|exact Hwr].
  intros p. split; [|apply relocation_effect_small]. rewrite Est, update_sizes, Hsz. apply Hf. intros q. specialize (Hroom q).
  pose proof (relocation_effect_small (ri_kind info) (ss_writable section) res place addend address q). lia.
Qed.
End agreement.
