(* ===== verification/X86Spec.v ===== *)
(** The x86_64 relaxations do not change what the program computes.  A small decoder gives
    the instructions around a relocated field their meaning (operation, width, register,
    where the operand comes from); the relaxed bytes, with the relocation that
    [new_relaxation] names written over the field, decode to an instruction that does the
    same with the same operand. *)
From stdpp Require Import base numbers list.
From S2P Require Import Prelude Bits BitMisc RelocInsn RelocInfo RelocTables TableX86 ValueFlags GotAlloc Relaxation RelaxX86 ApplyReloc.
Open Scope Z_scope.

(** ** Instructions *)

(** How the instruction starts: no prefix of its own, a REX byte, or [0xd5] and a REX2 payload. *)
Inductive prefix := Legacy | Rex | Rex2.
#[export] Instance prefix_eq_dec : EqDecision prefix.
Proof. solve_decision. Defined.
Inductive operation := Mov | Add | Sub | Cmp.
(** The operand: the memory at [rip + field], that address itself, or the field. *)
Inductive source := Slot | Address | Immediate.
Record insn := mkInsn { in_op : operation; in_wide : bool; in_reg : Z; in_source : source }.

#[export] Instance source_eq_dec : EqDecision source.
Proof. solve_decision. Defined.

Definition bit (x k : Z) : Z := if Z.testbit x k then 1 else 0.

(** The width bit and the high bits of the reg and the r/m operand. *)
Definition extension (f : prefix) (d : bytes) (offset : Z) : option (bool * Z * Z) :=
  match f with
  | Legacy => Some (false, 0, 0)
  | Rex =>
      p ← get d (offset - 3);
      if Z.land p 0xf0 =? 0x40 then Some (Z.testbit p 3, 8 * bit p 2, 8 * bit p 0) else None
  | Rex2 =>
      e ← get d (offset - 4); p ← get d (offset - 3);
      if (e =? 0xd5) && negb (Z.testbit p 7)
      then Some (Z.testbit p 3, 8 * bit p 2 + 16 * bit p 6, 8 * bit p 0 + 16 * bit p 4) else None
  end.

(** A ModRM byte whose operand is [rip + disp32], and one whose operand is a register. *)
Definition rip_operand (m : Z) : bool := (m / 64 =? 0) && (m mod 8 =? 5).
Definition register_operand (m : Z) : bool := m / 64 =? 3.
Definition reg_field (m : Z) : Z := m / 8 mod 8.

Definition decode_op (op m : Z) : option (operation * source) :=
  if rip_operand m then
    if op =? 0x8b then Some (Mov, Slot) else if op =? 0x03 then Some (Add, Slot)
    else if op =? 0x2b then Some (Sub, Slot) else if op =? 0x3b then Some (Cmp, Slot)
    else if op =? 0x8d then Some (Mov, Address) else None
  else if register_operand m then
    if (op =? 0xc7) && (reg_field m =? 0) then Some (Mov, Immediate)
    else if (op =? 0x81) && (reg_field m =? 0) then Some (Add, Immediate)
    else if (op =? 0x81) && (reg_field m =? 5) then Some (Sub, Immediate)
    else if (op =? 0x81) && (reg_field m =? 7) then Some (Cmp, Immediate)
    else None
  else None.

(** The instruction whose 32-bit field is at [offset]. *)
Definition decode (f : prefix) (d : bytes) (offset : Z) : option insn :=
  x ← extension f d offset;
  op ← get d (offset - 2); m ← get d (offset - 1);
  o ← decode_op op m;
  let '(wide, r, b) := x : bool * Z * Z in
  Some (mkInsn (fst o) wide (if decide (snd o = Immediate) then m mod 8 + b else reg_field m + r) (snd o)).

Definition width (wide : bool) : Z := if wide then 64 else 32.

(** The operand of an instruction whose field, [field], is at the address [place]. *)
Definition operand (mem : Z -> Z) (place field : Z) (i : insn) : Z :=
  let w := width (in_wide i) in
  match in_source i with
  | Slot => wrap w (mem (u64 (place + 4 + sext 32 field)))
  | Address => wrap w (place + 4 + sext 32 field)
  | Immediate => wrap w (sext 32 field)
  end.

(** The field at [offset]. *)
Definition field_at (d : bytes) (offset : Z) : Z := le_combine (take 4 (drop (Z.to_nat offset) d)).

(** ** The architecture *)

(** [platform::Relaxation] of the x86_64 [Relaxation]. *)
Definition as_relaxation (rx : Relaxation) : relaxation :=
  mkRelax (rx_info rx) (apply (rx_kind rx)) (next_modifier (rx_kind rx)) (rx_mandatory rx).

(** [Arch::new_relaxation]; the last two arguments are not used on x86_64. *)
Definition x86_64_new_relaxation (num : x86_64_reloc -> Z) (EXECINSTR r_type : Z) (d : bytes) (offset flags : Z)
  (o : OutputKind) (section_flags : Z) (_ : bool) (_ : option SectionDeltas) : outcome (option relaxation) :=
  x ← new_relaxation num EXECINSTR r_type d offset flags o section_flags; Ret (option_map as_relaxation x).

#[export] Instance x86_64_arch (num : x86_64_reloc -> Z) (EXECINSTR : Z) : Arch := {|
  relocation_type := relocation_from_raw num;
  new_relaxation_of := x86_64_new_relaxation num EXECINSTR;
  high_part_relocations := [];
  fill_nop_padding := fun d _ _ => Ret d |}.

(** ** The table's rows *)

#[export] Instance x86_64_reloc_eq_dec : EqDecision x86_64_reloc.
Proof. solve_decision. Defined.

Definition signed_row (k : RelocationKind) : RelocationKindInfo := mkInfo k (ByteSize 4) None (mkAllowed (- 2 ^ 31) (2 ^ 31)) 1 0.
Definition unsigned_row (k : RelocationKind) : RelocationKindInfo := mkInfo k (ByteSize 4) None (mkAllowed 0 (2 ^ 32)) 1 0.

Section rows.
Context (num : x86_64_reloc -> Z) (num_inj : forall a b, num a = num b -> a = b).

Lemma row_of r : relocation_from_raw num (num r) = first_arm (fun n => bool_decide (n = r)) (x86_64_arms_1).
Proof.
  unfold relocation_from_raw, from_raw. apply match_arms_named. intros n. rewrite bool_decide_eq_true.
  split; [apply num_inj|by intros ->].
Qed.

Lemma choose_abs32 k m : choose num k R_X86_64_32 m = Ret (Some (mkRelaxation k (unsigned_row Absolute) m)).
Proof. unfold choose. rewrite row_of. vm_compute. reflexivity. Qed.

Lemma choose_pc32 k m : choose num k R_X86_64_PC32 m = Ret (Some (mkRelaxation k (signed_row Relative) m)).
Proof. unfold choose. rewrite row_of. vm_compute. reflexivity. Qed.

Lemma choose_tpoff32 k m : choose num k R_X86_64_TPOFF32 m = Ret (Some (mkRelaxation k (signed_row TpOff) m)).
Proof. unfold choose. rewrite row_of. vm_compute. reflexivity. Qed.
End rows.

(** ** Bytes *)

Definition set (d : bytes) (i v : Z) : bytes := <[Z.to_nat i := v]> d.
Definition put_field (d : bytes) (offset v : Z) : bytes :=
  take (Z.to_nat offset) d ++ le_bytes 4 v ++ drop (Z.to_nat (offset + 4)) d.

Lemma len_set d i v : len (set d i v) = len d.
Proof. unfold set, len. by rewrite length_insert. Qed.

Lemma store_set d i v : 0 <= i < len d -> store d i v = Ret (set d i v).
Proof. intros H. unfold store. rewrite (proj2 (Z.leb_le _ _)), (proj2 (Z.ltb_lt _ _)) by lia. done. Qed.

Lemma get_set d i v j : 0 <= i < len d -> get (set d i v) j = if j =? i then Some v else get d j.
Proof.
  intros Hi. unfold get. rewrite len_set. destruct (Z.eqb_spec j i) as [->|Hne].
  - rewrite (proj2 (Z.leb_le _ _)), (proj2 (Z.ltb_lt _ _)) by lia. cbn [andb].
    unfold set, len in *. by rewrite list_lookup_insert_eq by lia.
  - destruct (_ && _) eqn:Hb; [|done]. unfold set. rewrite list_lookup_insert_ne; [done|lia].
Qed.

Lemma index_get (d : bytes) i x : get d i = Some x -> index d i = Ret x.
Proof. unfold index. by intros ->. Qed.

Lemma get_put_field d offset v j : 0 <= offset -> offset + 4 <= len d -> j < offset -> get (put_field d offset v) j = get d j.
Proof.
  intros H0 Hl Hj. unfold put_field. rewrite get_app_l.
  - rewrite <- (take_drop (Z.to_nat offset) d) at 2. rewrite get_app_l; [done|]. unfold len in *. rewrite length_take. lia.
  - unfold len in *. rewrite length_take. lia.
Qed.

Lemma field_put_field d offset v : 0 <= offset -> offset + 4 <= len d -> field_at (put_field d offset v) offset = u32 v.
Proof.
  intros H0 Hl. unfold field_at, put_field. rewrite drop_app_length' by (unfold len in *; rewrite length_take; lia).
  rewrite take_app_length' by (by rewrite le_bytes_length). by rewrite le_combine_le_bytes.
Qed.

Lemma len_put_field d offset v : 0 <= offset -> offset + 4 <= len d -> len (put_field d offset v) = len d.
Proof.
  intros H0 Hl. unfold put_field. rewrite !len_app, le_bytes_len. unfold len in *. rewrite length_take, length_drop. lia.
Qed.

(** Applying a four-byte relocation with a range check. *)
Lemma write_field_row uleb k r v d offset : is_pair_uleb k = false -> 0 <= offset -> offset + 4 <= len d ->
  write_field uleb (mkInfo k (ByteSize 4) None r 1 0) v d offset
  = if ar_contains r (i64 v) then done_with (put_field d offset v) else failed (FieldError OutsideRange).
Proof.
  intros Hk H0 Hl. unfold write_field. rewrite slice_from_eq by lia. cbn [mbind outcome_bind].
  unfold write_relocation_to_buffer, verify. cbn [ri_kind ri_size ri_range ri_alignment]. rewrite Hk.
  change 1 with (2 ^ 0) at 1. rewrite u64_multiple, Z.mod_1_r by lia. cbn [Z.eqb negb].
  destruct (ar_contains r (i64 v)); cbn [negb]; [|done].
  assert (len (drop (Z.to_nat offset) d) = len d - offset) as Hd by (unfold len in *; rewrite length_drop; lia).
  rewrite (proj2 (Z.ltb_ge _ _)) by lia. change 4 with (Z.of_nat 4) at 1. rewrite slice_le_bytes by lia. cbn [mbind outcome_bind].
  rewrite copy_prefix_eq by (rewrite le_bytes_len; lia). cbn [mbind outcome_bind from_field].
  rewrite le_bytes_length. unfold put_field, done_with. rewrite drop_drop. do 5 f_equal. lia.
Qed.

(** ** Checks over a byte *)

Lemma every_byte (p : Z -> bool) : forallb p (seqZ 0 256) = true -> forall x, is_uint 8 x -> p x = true.
Proof. intros H x Hx. eapply forallb_forall; [apply H|]. apply list_elem_of_In, elem_of_seqZ. unfold is_uint in Hx. lia. Qed.

(** Rewriting the ModRM byte makes the reg field the register operand. *)
Lemma modrm_register_spec m : is_uint 8 m -> rip_operand m = true ->
  forall tag ext, In (tag, ext) [(0xc0, 0); (0xe8, 5); (0xf8, 7)] ->
  let m' := modrm_register tag m in
  rip_operand m' = false /\ register_operand m' = true /\ reg_field m' = ext /\ m' mod 8 = reg_field m.
Proof.
  intros Hm Hr tag ext Hin.
  set (p := fun m => implb (rip_operand m) (forallb (fun te : Z * Z => let m' := modrm_register (fst te) m in
    negb (rip_operand m') && register_operand m' && (reg_field m' =? snd te) && (m' mod 8 =? reg_field m))
    [(0xc0, 0); (0xe8, 5); (0xf8, 7)])).
  pose proof (every_byte p ltac:(vm_compute; reflexivity) m Hm) as H. unfold p in H. rewrite Hr in H.
  cbn [implb] in H. pose proof (proj1 (forallb_forall _ _) H _ Hin) as H1. cbv zeta in H1. cbn [fst snd] in H1.
  rewrite !andb_true_iff, negb_true_iff, !Z.eqb_eq in H1. cbv zeta. tauto.
Qed.

(** ** Decoding a relaxed instruction *)

Lemma decode_inv f d offset i : decode f d offset = Some i -> in_source i <> Immediate ->
  exists w r b op m, extension f d offset = Some (w, r, b) /\ get d (offset - 2) = Some op /\ get d (offset - 1) = Some m /\
    rip_operand m = true /\ i = mkInsn (in_op i) w (reg_field m + r) (in_source i) /\
    In (op, in_op i, in_source i) [(0x8b, Mov, Slot); (0x03, Add, Slot); (0x2b, Sub, Slot); (0x3b, Cmp, Slot); (0x8d, Mov, Address)].
Proof.
  unfold decode. destruct (extension f d offset) as [[[w r] b]|]; [|done]. cbn.
  destruct (get d (offset - 2)) as [op|]; [|done]. destruct (get d (offset - 1)) as [m|]; [|done]. cbn.
  unfold decode_op. destruct (rip_operand m) eqn:Er.
  - repeat match goal with |- context [?x =? ?y] => destruct (Z.eqb_spec x y) as [->|?] end; cbn; intros [= <-] _ || done.
    all: exists w, r, b; eexists _, m; (do 4 (split; [done|])); split; [done|]; cbn; tauto.
  - destruct (register_operand m); [|done].
    destruct (_ && _); [by intros [= <-]|]. destruct (_ && _); [by intros [= <-]|]. destruct (_ && _); [by intros [= <-]|].
    destruct (_ && _); [by intros [= <-]|done].
Qed.

(** The mask of the prefix's register bits. *)
Definition prefix_mask (f : prefix) : Z := match f with Legacy => 0 | Rex => 0x4 | Rex2 => 0x44 end.

Lemma extension_fixed f d d' offset w r b rex : f <> Legacy -> extension f d offset = Some (w, r, b) ->
  get d (offset - 3) = Some rex -> rex_w rex = true ->
  get d' (offset - 3) = Some (rex_reg_to_rm (prefix_mask f) rex) -> get d' (offset - 4) = get d (offset - 4) ->
  w = true /\ exists r', extension f d' offset = Some (true, r', r).
Proof.
  intros Hf He Hrex Hw Hrex' H4. unfold rex_w in Hw. apply orb_true_iff in Hw as [->%Z.eqb_eq| ->%Z.eqb_eq].
  all: destruct f; [done|..]; unfold extension in *; rewrite Hrex in He; rewrite ?H4, ?Hrex'; cbn in He |- *.
  all: try (injection He as <- <- <-; by eauto).
  all: destruct (get d (offset - 4)) as [e|]; [|done]; cbn in He |- *; destruct (e =? 0xd5); [|done];
    cbn in He |- *; injection He as <- <- <-; by eauto.
Qed.

Lemma extension_legacy d d' offset w r b : extension Legacy d offset = Some (w, r, b) ->
  w = false /\ r = 0 /\ extension Legacy d' offset = Some (false, 0, 0).
Proof. by intros [= <- <- <-]. Qed.

(** The opcode and ModRM extension of each immediate form. *)
Definition immediate_form (o : operation) : Z * Z * Z :=
  match o with Mov => (0xc7, 0xc0, 0) | Add => (0x81, 0xc0, 0) | Sub => (0x81, 0xe8, 5) | Cmp => (0x81, 0xf8, 7) end.

Lemma decode_immediate f d offset w r m o : (exists r', extension f d offset = Some (w, r', r)) ->
  is_uint 8 m -> rip_operand m = true ->
  let '(op, tag, _) := immediate_form o in
  get d (offset - 2) = Some op -> get d (offset - 1) = Some (modrm_register tag m) ->
  decode f d offset = Some (mkInsn o w (reg_field m + r) Immediate).
Proof.
  intros [r' E] Hm Hr.
  destruct (immediate_form o) as [[op tag] ext] eqn:Eo. intros H2 H1. unfold decode. rewrite E, H2, H1. cbn.
  assert (In (tag, ext) [(0xc0, 0); (0xe8, 5); (0xf8, 7)]) as Hin by (destruct o; injection Eo as <- <- <-; cbn; tauto).
  destruct (modrm_register_spec m Hm Hr tag ext Hin) as (E1 & E2 & E3 & E4).
  unfold decode_op. rewrite E1, E2, E3. destruct o; injection Eo as <- <- <-; cbn; by rewrite E4.
Qed.

(** Writing an opcode and a register operand. *)
Lemma write_op_modrm_ok d offset op tag m : 2 <= offset -> offset <= len d -> get d (offset - 1) = Some m ->
  write_op_modrm d offset op tag = Ret (set (set d (offset - 2) op) (offset - 1) (modrm_register tag m)).
Proof.
  intros H2 Hl Hm. unfold write_op_modrm, modify. rewrite store_set by lia. cbn [mbind outcome_bind].
  rewrite (index_get _ _ m) by (rewrite get_set, (proj2 (Z.eqb_neq _ _)) by lia; done). cbn [mbind outcome_bind].
  by rewrite store_set by (rewrite len_set; lia).
Qed.

Definition inst_offset_for (f : prefix) : Z := match f with Legacy => 0 | Rex => 3 | Rex2 => 4 end.

Lemma fix_prefix_ok f d offset rex : f <> Legacy -> 3 <= offset -> offset <= len d -> get d (offset - 3) = Some rex ->
  fix_prefix (inst_offset_for f) d offset = Ret (set d (offset - 3) (rex_reg_to_rm (prefix_mask f) rex)).
Proof.
  intros Hf H3 Hl Hrex. unfold fix_prefix. rewrite (index_get _ _ _ Hrex). cbn [mbind outcome_bind].
  destruct f; [done|..]; cbn; by rewrite store_set by lia.
Qed.

(** An instruction rewritten to its immediate form: with the prefix's register bits moved, when it has one. *)
Definition immediate_bytes (f : prefix) (o : operation) (d : bytes) (offset : Z) : outcome bytes :=
  d ← match f with Legacy => Ret d | _ => fix_prefix (inst_offset_for f) d offset end;
  let '(op, tag, _) := immediate_form o in write_op_modrm d offset op tag.

(** Moving the prefix's bits makes the reg operand's high bits the r/m operand's. *)
Lemma prefix_moved f d offset w r b : extension f d offset = Some (w, r, b) ->
  (f <> Legacy -> exists rex, get d (offset - 3) = Some rex /\ rex_w rex = true) -> 2 <= offset <= len d ->
  exists d1, match f with Legacy => Ret d | _ => fix_prefix (inst_offset_for f) d offset end = Ret d1 /\
    len d1 = len d /\ (forall j, offset - 2 <= j -> get d1 j = get d j) /\
    (forall d2, (forall j, j < offset - 2 -> get d2 j = get d1 j) -> exists b', extension f d2 offset = Some (w, b', r)).
Proof.
  intros He Hrex Hl. destruct (decide (f = Legacy)) as [->|Hf].
  - exists d. do 3 (split; [done|]). intros d2 _. destruct (extension_legacy _ d2 _ _ _ _ He) as (-> & -> & ->). by eauto.
  - destruct (Hrex Hf) as (rex & Hr & Hw). pose proof (get_Some _ _ _ Hr).
    exists (set d (offset - 3) (rex_reg_to_rm (prefix_mask f) rex)). split; [|split; [by rewrite len_set|split]].
    + destruct f; [done|apply (fix_prefix_ok Rex); (done || lia)|apply (fix_prefix_ok Rex2); (done || lia)].
    + intros j Hj. by rewrite get_set, (proj2 (Z.eqb_neq _ _)) by lia.
    + intros d2 Hd2. destruct (extension_fixed f d d2 offset w r b rex Hf He Hr Hw) as (-> & r' & E); [..|by eauto].
      * by rewrite Hd2, get_set, Z.eqb_refl by lia.
      * by rewrite Hd2, get_set, (proj2 (Z.eqb_neq _ _)) by lia.
Qed.

Lemma immediate_bytes_ok f o d offset i : decode f d offset = Some i -> in_source i <> Immediate -> is_bytes d ->
  (f <> Legacy -> exists rex, get d (offset - 3) = Some rex /\ rex_w rex = true) -> 0 <= offset -> offset + 4 <= len d ->
  exists d', immediate_bytes f o d offset = Ret d' /\ len d' = len d /\
    forall v, decode f (put_field d' offset v) offset = Some (mkInsn o (in_wide i) (in_reg i) Immediate).
Proof.
  intros Hd Hs Hb Hrex H0 Hl. destruct (decode_inv _ _ _ _ Hd Hs) as (w & r & b & op & m & He & H2 & H1 & Hrip & Hi & _).
  pose proof (get_Some _ _ _ H2). pose proof (is_bytes_get _ _ _ Hb H1) as Hm.
  destruct (prefix_moved f d offset w r b He Hrex ltac:(lia)) as (d1 & E1 & Hl1 & Hg & Hx).
  unfold immediate_bytes. rewrite E1. cbn [mbind outcome_bind].
  destruct (immediate_form o) as [[op' tag] ext] eqn:Eo.
  rewrite (write_op_modrm_ok d1 offset op' tag m) by (rewrite ?Hg by lia; (done || lia)).
  eexists. split; [done|]. split; [by rewrite !len_set|]. intros v. rewrite Hi. cbn [in_wide in_reg].
  pose proof (decode_immediate f (put_field (set (set d1 (offset - 2) op') (offset - 1) (modrm_register tag m)) offset v)
    offset w r m o) as Hdec. rewrite Eo in Hdec. apply Hdec; [|done|done|..].
  - apply Hx. intros j Hj. rewrite get_put_field, !get_set by (rewrite ?len_set; lia).
    by rewrite !(proj2 (Z.eqb_neq _ _)) by lia.
  - rewrite get_put_field, !get_set by (rewrite ?len_set; lia). by rewrite (proj2 (Z.eqb_neq _ _)), Z.eqb_refl by lia.
  - rewrite get_put_field, !get_set by (rewrite ?len_set; lia). by rewrite Z.eqb_refl.
Qed.

(** An instruction rewritten to LEA. *)
Lemma lea_bytes_ok f d offset i : decode f d offset = Some i -> in_source i = Slot -> in_op i = Mov ->
  0 <= offset -> offset + 4 <= len d ->
  exists d', store d (offset - 2) 0x8d = Ret d' /\ len d' = len d /\
    forall v, decode f (put_field d' offset v) offset = Some (mkInsn Mov (in_wide i) (in_reg i) Address).
Proof.
  intros Hd Hs Ho H0 Hl. destruct (decode_inv _ _ _ _ Hd) as (w & r & b & op & m & He & H2 & H1 & Hrip & Hi & _); [by rewrite Hs|].
  pose proof (get_Some _ _ _ H2). rewrite store_set by lia. eexists. split; [done|]. split; [by rewrite len_set|]. intros v.
  assert (forall j, j <> offset - 2 -> j < offset -> get (put_field (set d (offset - 2) 0x8d) offset v) j = get d j) as Hg.
  { intros j Hj Hlt. rewrite get_put_field, get_set by (rewrite ?len_set; lia). by rewrite (proj2 (Z.eqb_neq _ _)). }
  assert (extension f (put_field (set d (offset - 2) 0x8d) offset v) offset = Some (w, r, b)) as Hx.
  { rewrite <- He. unfold extension. destruct f; rewrite ?Hg by lia; done. }
  assert (get (put_field (set d (offset - 2) 0x8d) offset v) (offset - 2) = Some 0x8d) as Hop.
  { by rewrite get_put_field, get_set, Z.eqb_refl by (rewrite ?len_set; lia). }
  unfold decode. rewrite Hx, Hop, Hg, H1 by lia. rewrite Hi. cbn. unfold decode_op. by rewrite Hrip.
Qed.

(** ** The choices of [new_relaxation] *)

(** The arms of a known relocation type. *)
Ltac decide_arms H :=
  repeat match type of H with
    | context [bool_decide (?a = ?b)] =>
        let v := eval vm_compute in (bool_decide (a = b)) in change (bool_decide (a = b)) with v in H
    end.

Section choices.
Context (num : x86_64_reloc -> Z) (num_inj : forall a b, num a = num b -> a = b) (EXECINSTR : Z).

Lemma arm_eq a b : (num a =? num b) = bool_decide (a = b).
Proof.
  destruct (Z.eqb_spec (num a) (num b)) as [E|E]; symmetry; [by apply bool_decide_eq_true, num_inj|].
  apply bool_decide_eq_false. by intros ->.
Qed.

(** The direct use of a value that is known when linking. *)
Definition known_value (flags : Z) (o : OutputKind) : bool :=
  is_absolute flags && negb (is_dynamic flags) || is_address flags && negb (is_relocatable o).

(** An instruction that reads its operand from a GOT slot, and what it is rewritten to. *)
Inductive rewritten (f : prefix) (i : insn) (d : bytes) (offset : Z) (flags : Z) (o : OutputKind) (rx : Relaxation) : Prop :=
| to_immediate : known_value flags o = true -> rx_info rx = unsigned_row Absolute ->
    (f <> Legacy -> exists rex, get d (offset - 3) = Some rex /\ rex_w rex = true) ->
    (forall a, apply (rx_kind rx) d offset a = (d' ← immediate_bytes f (in_op i) d offset; Ret (d', offset, 0))) ->
    rewritten f i d offset flags o rx
| to_address : is_interposable flags = false -> rx_info rx = signed_row Relative -> in_op i = Mov ->
    (forall a, apply (rx_kind rx) d offset a = (d' ← store d (offset - 2) 0x8d; Ret (d', offset, a))) ->
    rewritten f i d offset flags o rx.

(** The relocation is not one of those without a value. *)
Definition is_applied (k : RelocationKind) : bool := match k with KNone | Alignment => false | _ => true end.

(** The relocation type that the assembler puts on an instruction with the prefix. *)
Definition got_type (f : prefix) (r : x86_64_reloc) : bool :=
  match f, r with
  | Legacy, R_X86_64_GOTPCRELX | Rex, R_X86_64_REX_GOTPCRELX | Rex2, R_X86_64_CODE_4_GOTPCRELX | _, R_X86_64_GOTPCREL => true
  | _, _ => false
  end.

Lemma relax_rex_cases f r d offset flags o i rx k : (f = Rex /\ r = R_X86_64_REX_GOTPCRELX \/ f = Rex2 /\ r = R_X86_64_CODE_4_GOTPCRELX) ->
  k = known_value flags o -> decode f d offset = Some i -> in_source i = Slot ->
  relax_rex_gotpcrelx num (num r) d offset k (is_interposable flags) o = Ret (Some rx) -> rewritten f i d offset flags o rx.
Proof.
  intros Hf -> Hd Hs Hr. destruct (decode_inv _ _ _ _ Hd) as (w & re & b & op & m & _ & H2 & H1 & _ & _ & Hin); [by rewrite Hs|].
  unfold relax_rex_gotpcrelx, inst_offset_of in Hr. rewrite (index_get _ _ _ H2) in Hr. cbn [mbind outcome_bind] in Hr.
  destruct (get d (offset - 3)) as [rex|] eqn:H3; [|by unfold index in Hr; rewrite H3 in Hr]. rewrite (index_get _ _ _ H3) in Hr.
  cbn [mbind outcome_bind] in Hr. rewrite !arm_eq, !(choose_abs32 num num_inj), !(choose_pc32 num num_inj) in Hr.
  destruct (rex_w rex) eqn:Hw; [|done]. cbn [negb] in Hr.
  assert (f <> Legacy -> exists rex, get d (offset - 3) = Some rex /\ rex_w rex = true) as Hx by eauto.
  rewrite Hs in Hin.
  destruct (known_value flags o) eqn:Hk.
  - assert (f <> Legacy) as Hf0 by (by destruct Hf as [[-> _]|[-> _]]).
    assert ((if bool_decide (r = R_X86_64_REX_GOTPCRELX) then 3 else 4) = inst_offset_for f) as E.
    { by destruct Hf as [[-> ->]|[-> ->]]. }
    rewrite E in Hr. cbn in Hin.
    assert (match f with Legacy => Ret d | _ => fix_prefix (inst_offset_for f) d offset end
            = fix_prefix (inst_offset_for f) d offset) as Ef by (by destruct f).
    destruct Hin as [[= <- Ho]|[[= <- Ho]|[[= <- Ho]|[[= <- Ho]|[[= <- ?]|[]]]]]]; cbn in Hr;
      try discriminate Hr; injection Hr as <-; (constructor 1; [done|done|done|]); intros a; unfold immediate_bytes;
      rewrite Ef, <- Ho; cbn [rx_kind apply]; by destruct (fix_prefix _ d offset).
  - destruct (is_interposable flags) eqn:Hi; [done|]. cbn [negb] in Hr. cbn in Hin.
    destruct Hin as [[= <- Ho]|[[= <- Ho]|[[= <- Ho]|[[= <- Ho]|[[= <- ?]|[]]]]]]; cbn in Hr;
      try discriminate Hr; injection Hr as <-; by constructor 2.
Qed.

Lemma relax_legacy_cases d offset flags o i rx k : k = known_value flags o -> decode Legacy d offset = Some i -> in_source i = Slot ->
  relax_gotpcrelx num d offset k (is_interposable flags) o = Ret (Some rx) -> rewritten Legacy i d offset flags o rx.
Proof.
  intros -> Hd Hs Hr. destruct (decode_inv _ _ _ _ Hd) as (w & re & b & op & m & _ & H2 & H1 & _ & _ & Hin); [by rewrite Hs|].
  unfold relax_gotpcrelx in Hr. rewrite H2 in Hr.
  assert (forall x, op <> 0xff -> window_is d (offset - 2) offset [0xff; x] = false) as Hwin.
  { intros x Hne. unfold window_is. apply bool_decide_eq_false. unfold get_range. intros Hg.
    case_match eqn:Hb; [|discriminate Hg]. apply get_lookup in H2 as [_ H2].
    injection Hg as Hg. rewrite (drop_S d op) in Hg by apply H2.
    replace (Z.to_nat (offset - (offset - 2))) with 2%nat in Hg by lia. cbn in Hg. congruence. }
  rewrite !(choose_abs32 num num_inj), !(choose_pc32 num num_inj) in Hr. rewrite Hs in Hin. cbn in Hin.
  destruct (known_value flags o) eqn:Hk.
  - destruct Hin as [[= <- Ho]|Hin].
    + cbn in Hr. injection Hr as <-. constructor 1; [done|done|done|]. intros a. unfold immediate_bytes. rewrite <- Ho. cbn. done.
    + exfalso. destruct Hin as [[= <- Ho]|[[= <- Ho]|[[= <- Ho]|[[= <- ?]|[]]]]]; cbn in Hr; rewrite !Hwin in Hr by done;
        by destruct (is_interposable flags).
  - destruct (is_interposable flags) eqn:Hi.
    + exfalso. by destruct Hin as [[= <- Ho]|[[= <- Ho]|[[= <- Ho]|[[= <- Ho]|[[= <- ?]|[]]]]]].
    + destruct Hin as [[= <- Ho]|Hin]; [cbn in Hr; injection Hr as <-; by constructor 2|].
      exfalso. destruct Hin as [[= <- Ho]|[[= <- Ho]|[[= <- Ho]|[[= <- ?]|[]]]]]; cbn in Hr; by rewrite !Hwin in Hr by done.
Qed.

Lemma relax_gotpcrel_cases f d offset flags o i rx : is_interposable flags = false -> decode f d offset = Some i -> in_source i = Slot ->
  relax_gotpcrel num d offset = Ret (Some rx) -> rewritten f i d offset flags o rx.
Proof.
  intros Hi Hd Hs Hr. destruct (decode_inv _ _ _ _ Hd) as (w & re & b & op & m & _ & H2 & H1 & _ & _ & Hin); [by rewrite Hs|].
  unfold relax_gotpcrel in Hr. rewrite H2, !(choose_pc32 num num_inj) in Hr. rewrite Hs in Hin.
  destruct Hin as [[= <- Ho]|[[= <- Ho]|[[= <- Ho]|[[= <- Ho]|[[= <- ?]|[]]]]]]; cbn in Hr;
    try discriminate Hr; injection Hr as <-; by constructor 2.
Qed.

Lemma got_row f r : got_type f r = true ->
  exists info, relocation_from_raw num (num r) = Ret (Some info) /\ is_applied (ri_kind info) = true.
Proof. intros Hg. rewrite (row_of num num_inj). destruct f, r; try discriminate Hg; (eexists; split; [vm_compute; reflexivity|done]). Qed.

(** Every relaxation of an instruction that reads a GOT slot. *)
Lemma got_relaxation f r d offset flags o sf i rx : got_type f r = true -> decode f d offset = Some i -> in_source i = Slot ->
  new_relaxation num EXECINSTR (num r) d offset flags o sf = Ret (Some rx) ->
  is_ifunc flags = false /\ rewritten f i d offset flags o rx.
Proof.
  intros Hg Hd Hs Hr. unfold new_relaxation in Hr. rewrite !arm_eq in Hr.
  destruct (is_ifunc flags) eqn:Hf.
  { rewrite bool_decide_false in Hr; [done|]. by destruct f, r. }
  split; [done|]. destruct (negb (flags_contain sf EXECINSTR)); [done|]. unfold relax_code in Hr. rewrite !arm_eq in Hr. cbv zeta in Hr.
  fold (known_value flags o) in Hr.
  destruct f, r; try discriminate Hg; decide_arms Hr; cbn [orb andb] in Hr.
  all: try (destruct (is_interposable flags) eqn:Hi, (2 <=? offset); cbn [negb andb] in Hr;
            solve [ by apply relax_gotpcrel_cases with (d := d) (offset := offset)
                  | unfold relax_tls in Hr; rewrite !arm_eq in Hr; decide_arms Hr; discriminate Hr ]).
  - by eapply relax_legacy_cases.
  - unfold prefix_guard in Hr. rewrite arm_eq in Hr. decide_arms Hr. cbn in Hr.
    destruct (3 <=? offset); [|done]. eapply relax_rex_cases with (k := known_value flags o); eauto.
  - unfold prefix_guard in Hr. rewrite arm_eq in Hr. decide_arms Hr. cbn [andb] in Hr.
    destruct (4 <=? offset).
    + destruct (index d (offset - 4)) as [e|]; [|done]. cbn [mbind outcome_bind] in Hr.
      destruct ((e =? 0xd5) || (3 <=? offset)); [|done]. eapply relax_rex_cases with (k := known_value flags o); eauto.
    + cbn [mbind outcome_bind] in Hr. destruct (3 <=? offset); [|done].
      eapply relax_rex_cases with (k := known_value flags o); eauto.
Qed.
End choices.

(** ** Values through the field *)

Lemma sext_cases w x : 0 < w -> exists k, sext w x = x + k * 2 ^ w /\ - 2 ^ (w - 1) <= sext w x < 2 ^ (w - 1).
Proof.
  intros Hw. exists (- ((x + 2 ^ (w - 1)) / 2 ^ w)). unfold sext.
  assert (0 < 2 ^ (w - 1)) by (apply Z.pow_pos_nonneg; lia). assert (2 ^ w = 2 * 2 ^ (w - 1)) as E.
  { rewrite <- Z.pow_succ_r by lia. f_equal. lia. }
  pose proof (Z.div_mod (x + 2 ^ (w - 1)) (2 ^ w)). pose proof (Z.mod_pos_bound (x + 2 ^ (w - 1)) (2 ^ w)). lia.
Qed.

Lemma wrap_shift w x : 0 <= w -> exists k, wrap w x = x + k * 2 ^ w.
Proof.
  intros Hw. exists (- (x / 2 ^ w)). unfold wrap. assert (0 < 2 ^ w) by (apply Z.pow_pos_nonneg; lia).
  pose proof (Z.div_mod x (2 ^ w)). lia.
Qed.

Lemma wrap_cong w a b k : 0 <= w -> a = b + k * 2 ^ w -> wrap w a = wrap w b.
Proof. intros Hw ->. apply Z.mod_add. apply Z.pow_nonzero; lia. Qed.

(** Equal modulo the word, so equal at either width. *)
Lemma wrap_width wide a b k : a = b + k * 2 ^ 64 -> wrap (width wide) a = wrap (width wide) b.
Proof. intros ->. destruct wide; [by apply wrap_cong with k|apply wrap_cong with (k * 2 ^ 32); cbn; lia]. Qed.

(** A signed field reads back as the value. *)
Lemma signed_field v : - 2 ^ 31 <= i64 v < 2 ^ 31 -> sext 32 (u32 v) = i64 v.
Proof.
  intros H. destruct (sext_cases 64 v) as (a & Ha & _); [lia|]. destruct (wrap_shift 32 v) as [b Hb]; [lia|].
  destruct (sext_cases 32 (u32 v)) as (c & Hc & Hr); [lia|]. change (32 - 1) with 31 in *.
  assert (exists k, sext 32 (u32 v) - i64 v = k * 2 ^ 32) as [k Hk] by (exists (b + c - a * 2 ^ 32); lia). lia.
Qed.

Lemma unsigned_field v : is_uint 64 v -> 0 <= i64 v < 2 ^ 32 -> u32 v = v /\ 0 <= v < 2 ^ 32.
Proof.
  intros Hv H. destruct (sext_cases 64 v) as (a & Ha & _); [lia|]. unfold is_uint in Hv.
  assert (a = 0) as -> by nia. assert (0 <= v < 2 ^ 32) by lia. split; [|done]. apply wrap_id. done.
Qed.

Lemma i64_shift_of x : exists k, i64 x = x + k * 2 ^ 64.
Proof. destruct (sext_cases 64 x) as (k & ? & _); [lia|]. by exists k. Qed.

(** ** Thread-local variables *)

Lemma len_copy d off src d' : copy_to d off src = Ret d' -> len d' = len d /\ 0 <= off /\ off + len src <= len d.
Proof.
  unfold copy_to. destruct (_ && _) eqn:Hb; [|done]. intros [= <-]. rewrite !len_app. pose proof (len_nonneg src).
  unfold len in *. rewrite length_take, length_drop. lia.
Qed.

Lemma get_copy d off src j : 0 <= off -> off + len src <= len d ->
  exists d', copy_to d off src = Ret d' /\
    get d' j = if (off <=? j) && (j <? off + len src) then get src (j - off) else get d j.
Proof.
  intros H0 Hl. unfold copy_to. rewrite (proj2 (Z.leb_le _ _)), (proj2 (Z.leb_le _ _)) by lia. cbn [andb].
  eexists. split; [done|]. pose proof (len_nonneg src).
  assert (len (take (Z.to_nat off) d) = off) as Ht by (unfold len in *; rewrite length_take; lia).
  destruct (Z.leb_spec off j).
  - replace j with (len (take (Z.to_nat off) d) + (j - off)) at 1 by lia. rewrite get_app_r by lia. cbn [andb].
    destruct (Z.ltb_spec j (off + len src)); [by rewrite get_app_l by lia|].
    replace (j - off) with (len src + (j - off - len src)) by lia. rewrite get_app_r by lia.
    rewrite <- (take_drop (Z.to_nat (off + len src)) d) at 2.
    replace j with (len (take (Z.to_nat (off + len src)) d) + (j - off - len src)) at 2; [by rewrite get_app_r by lia|].
    unfold len in *. rewrite length_take. lia.
  - cbn [andb]. rewrite get_app_l by lia. rewrite <- (take_drop (Z.to_nat off) d) at 2. by rewrite get_app_l by lia.
Qed.

(** The LEA of a TLS descriptor rewritten to a mov of the offset. *)
Lemma tlsdesc_bytes_ok f d offset i a : f <> Legacy -> decode f d offset = Some i -> in_source i = Address -> is_bytes d ->
  (exists rex, get d (offset - 3) = Some rex /\ rex_w rex = true) -> 3 <= offset -> offset + 4 <= len d ->
  exists d', apply (TlsDescToLocalExec (inst_offset_for f)) d offset a = Ret (d', offset, 0) /\ len d' = len d /\
    forall v, decode f (put_field d' offset v) offset = Some (mkInsn Mov (in_wide i) (in_reg i) Immediate).
Proof.
  intros Hf Hd Hs Hb (rex & Hr & Hw) H3 Hl. destruct (decode_inv _ _ _ _ Hd) as (w & r & b & op & m & He & H2 & H1 & Hrip & Hi & _); [by rewrite Hs|].
  pose proof (is_bytes_get _ _ _ Hb H1) as Hm.
  set (src := [rex_reg_to_rm (prefix_mask f) rex; 0xc7; modrm_register 0xc0 m; 0; 0; 0; 0]).
  assert (apply (TlsDescToLocalExec (inst_offset_for f)) d offset a
          = (d' ← copy_to d (offset - 3) src; Ret (d', offset, 0))) as ->.
  { cbn [apply]. unfold tlsdesc_to_local_exec. rewrite (index_get _ _ _ Hr), (index_get _ _ _ H1). cbn [mbind outcome_bind]. subst src. unfold modrm_register.
    rewrite (Z.lor_comm _ 0xc0). unfold rex_w in Hw. apply orb_true_iff in Hw as [->%Z.eqb_eq| ->%Z.eqb_eq]; by destruct f. }
  destruct (get_copy d (offset - 3) src 0 ltac:(lia) ltac:(change (len src) with 7; lia)) as (d' & E & _). rewrite E. exists d'.
  split; [done|]. destruct (len_copy _ _ _ _ E) as (Hld & _ & _). split; [done|]. intros v.
  assert (forall j, j < offset -> get (put_field d' offset v) j
            = if offset - 3 <=? j then get src (j - (offset - 3)) else get d j) as Hg.
  { intros j Hj. rewrite get_put_field by lia. destruct (get_copy d (offset - 3) src j ltac:(lia) ltac:(change (len src) with 7; lia)) as (d2 & E2 & Hg).
    rewrite E in E2. injection E2 as <-. rewrite Hg. change (len src) with 7. by rewrite (proj2 (Z.ltb_lt j _)), andb_true_r by lia. }
  rewrite Hi. cbn [in_wide in_reg]. apply (decode_immediate f _ offset w r m Mov); [|done|done|..].
  - destruct (extension_fixed f d (put_field d' offset v) offset w r b rex Hf He Hr Hw) as (-> & r' & Hx); [..|by eauto].
    + rewrite Hg, (proj2 (Z.leb_le _ _)) by lia. by replace (offset - 3 - (offset - 3)) with 0 by lia.
    + by rewrite Hg, (proj2 (Z.leb_gt _ _)) by lia.
  - rewrite Hg, (proj2 (Z.leb_le _ _)) by lia. by replace (offset - 2 - (offset - 3)) with 1 by lia.
  - rewrite Hg, (proj2 (Z.leb_le _ _)) by lia. by replace (offset - 1 - (offset - 3)) with 2 by lia.
Qed.

(** The instruction and relocation types of the thread-pointer offset: a mov or add of its GOT entry, or the LEA of
    a descriptor. *)
Definition tp_type (f : prefix) (i : insn) (r : x86_64_reloc) : bool :=
  match f, in_source i, r with
  | Rex, Slot, R_X86_64_GOTTPOFF | Rex2, Slot, R_X86_64_CODE_4_GOTTPOFF
  | Rex, Address, R_X86_64_GOTPC32_TLSDESC | Rex2, Address, R_X86_64_CODE_4_GOTPC32_TLSDESC => true
  | _, _, _ => false
  end.

Lemma get_pair (d : bytes) offset x y : get d (offset - 3) = Some x -> get d (offset - 2) = Some y ->
  get_range d (offset - 3) (offset - 1) = Some [x; y].
Proof.
  intros Hx%get_lookup Hy%get_lookup. unfold get_range.
  rewrite (proj2 (Z.leb_le _ _)), (proj2 (Z.leb_le _ _)), (proj2 (Z.leb_le _ _)) by lia. cbn [andb].
  replace (Z.to_nat (offset - 1 - (offset - 3))) with 2%nat by lia. rewrite (drop_S d x) by apply Hx.
  rewrite (drop_S d y); [done|]. replace (S (Z.to_nat (offset - 3))) with (Z.to_nat (offset - 2)) by lia. apply Hy.
Qed.

Section tls.
Context (num : x86_64_reloc -> Z) (num_inj : forall a b, num a = num b -> a = b) (EXECINSTR : Z).

Lemma relax_gottpoff_cases f r d offset i rx : (f = Rex /\ r = R_X86_64_GOTTPOFF \/ f = Rex2 /\ r = R_X86_64_CODE_4_GOTTPOFF) ->
  decode f d offset = Some i -> in_source i = Slot -> is_bytes d -> 3 <= offset -> offset + 4 <= len d ->
  relax_gottpoff num (num r) d offset = Ret (Some rx) ->
  rx_info rx = signed_row TpOff /\ forall a, exists d', apply (rx_kind rx) d offset a = Ret (d', offset, 0) /\ len d' = len d /\
    forall v, decode f (put_field d' offset v) offset = Some (mkInsn (in_op i) (in_wide i) (in_reg i) Immediate).
Proof.
  intros Hf Hd Hs Hb H3 Hl Hr. destruct (decode_inv _ _ _ _ Hd) as (w & re & b & op & m & _ & H2 & H1 & _ & _ & Hin); [by rewrite Hs|].
  unfold relax_gottpoff, inst_offset_of in Hr. destruct (get_is_Some d (offset - 3) ltac:(lia)) as [rex Hrex].
  rewrite (get_pair _ _ _ _ Hrex H2), !(arm_eq num num_inj), !(choose_tpoff32 num num_inj) in Hr. destruct (rex_w rex) eqn:Hw; [|done].
  cbn [andb] in Hr.
  assert ((if bool_decide (r = R_X86_64_GOTTPOFF) then 3 else 4) = inst_offset_for f) as E by (by destruct Hf as [[-> ->]|[-> ->]]).
  rewrite E in Hr. assert (f <> Legacy) as Hf0 by (by destruct Hf as [[-> _]|[-> _]]).
  destruct (immediate_bytes_ok f (in_op i) d offset i Hd ltac:(by rewrite Hs) Hb ltac:(by eauto) ltac:(lia) Hl) as (d' & Eb & Hl' & Hdec).
  assert (immediate_bytes f (in_op i) d offset = (d ← fix_prefix (inst_offset_for f) d offset;
            let '(op, tag, _) := immediate_form (in_op i) in write_op_modrm d offset op tag)) as Ef by (by destruct f).
  rewrite Ef in Eb. rewrite Hs in Hin. cbn in Hin.
  destruct Hin as [[= <- Ho]|[[= <- Ho]|[[= <- Ho]|[[= <- Ho]|[[= <- ?]|[]]]]]]; cbn in Hr; try discriminate Hr;
    injection Hr as <-; (split; [done|]); intros a; exists d'; (split; [|done]); rewrite <- Ho in Eb; cbn [rx_kind apply].
  - destruct (fix_prefix _ d offset); [|done]. cbn [mbind outcome_bind immediate_form] in Eb |- *. by rewrite Eb.
  - assert ((inst_offset_for f =? 3) || (inst_offset_for f =? 4) = true) as -> by (by destruct f).
    destruct (fix_prefix _ d offset); [|done]. cbn [mbind outcome_bind immediate_form] in Eb |- *. by rewrite Eb.
Qed.

Lemma relax_tlsdesc_cases f r d offset i o rx : (f = Rex /\ r = R_X86_64_GOTPC32_TLSDESC \/ f = Rex2 /\ r = R_X86_64_CODE_4_GOTPC32_TLSDESC) ->
  decode f d offset = Some i -> in_source i = Address -> is_bytes d -> 3 <= offset -> offset + 4 <= len d ->
  relax_tlsdesc_local num (num r) d offset o = Ret (Some rx) ->
  rx_info rx = signed_row TpOff /\ forall a, exists d', apply (rx_kind rx) d offset a = Ret (d', offset, 0) /\ len d' = len d /\
    forall v, decode f (put_field d' offset v) offset = Some (mkInsn Mov (in_wide i) (in_reg i) Immediate).
Proof.
  intros Hf Hd Hs Hb H3 Hl Hr. unfold relax_tlsdesc_local, inst_offset_of, tlsdesc_lea, window_is in Hr.
  destruct (decode_inv _ _ _ _ Hd) as (w & re & b & op & m & _ & H2 & H1 & _ & _ & _); [by rewrite Hs|].
  destruct (get_is_Some d (offset - 3) ltac:(lia)) as [rex Hrex].
  rewrite (get_pair _ _ _ _ Hrex H2), !(arm_eq num num_inj), !(choose_tpoff32 num num_inj) in Hr.
  assert (exists rex, get d (offset - 3) = Some rex /\ rex_w rex = true) as Hw.
  { exists rex. split; [done|]. unfold rex_w. repeat case_bool_decide; simplify_eq; done. }
  assert ((if bool_decide (r = R_X86_64_GOTPC32_TLSDESC) then 3 else 4) = inst_offset_for f) as E by (by destruct Hf as [[-> ->]|[-> ->]]).
  rewrite E in Hr. assert (f <> Legacy) as Hf0 by (by destruct Hf as [[-> _]|[-> _]]).
  destruct (_ || _); [|done]. injection Hr as <-. split; [done|]. intros a. by apply tlsdesc_bytes_ok.
Qed.

(** With three bytes before the field the guard holds, whatever it reads. *)
Lemma prefix_guard_true c k d offset : 3 <= offset -> offset + 4 <= len d -> prefix_guard num c k d offset = Ret true.
Proof.
  intros H3 Hl. unfold prefix_guard. rewrite (proj2 (Z.leb_le 3 _)) by lia. destruct (_ && _) eqn:Hc; [|done].
  apply andb_true_iff in Hc as [_ Hc%Z.leb_le]. destruct (get_is_Some d (offset - 4) ltac:(lia)) as [e He].
  rewrite (index_get _ _ _ He). cbn [mbind outcome_bind]. by rewrite orb_true_r.
Qed.

Lemma tp_row f i r : tp_type f i r = true ->
  exists info, relocation_from_raw num (num r) = Ret (Some info) /\ is_applied (ri_kind info) = true.
Proof.
  unfold tp_type. intros Ht. rewrite (row_of num num_inj).
  destruct f, (in_source i), r; try discriminate Ht; (eexists; split; [vm_compute; reflexivity|done]).
Qed.

Lemma tp_relaxation f r d offset flags o sf i rx : tp_type f i r = true -> decode f d offset = Some i -> is_bytes d ->
  3 <= offset -> offset + 4 <= len d -> is_interposable flags = false ->
  new_relaxation num EXECINSTR (num r) d offset flags o sf = Ret (Some rx) ->
  rx_info rx = signed_row TpOff /\ exists d', apply (rx_kind rx) d offset (-4) = Ret (d', offset, 0) /\ len d' = len d /\
    forall v, decode f (put_field d' offset v) offset = Some (mkInsn (in_op i) (in_wide i) (in_reg i) Immediate).
Proof.
  intros Ht Hd Hb H3 Hl Hi Hr. unfold new_relaxation in Hr. rewrite !(arm_eq num num_inj) in Hr.
  destruct (is_ifunc flags).
  { rewrite bool_decide_false in Hr; [done|]. intros ->. by destruct f, i as [? ? ? []]. }
  destruct (negb (flags_contain sf EXECINSTR)); [done|].
  unfold tp_type in Ht. unfold relax_code, relax_tls in Hr. rewrite !(arm_eq num num_inj), Hi in Hr. cbv zeta in Hr.
  destruct f, (in_source i) eqn:Hs, r; try discriminate Ht; decide_arms Hr; cbn [orb andb negb] in Hr;
    destruct (is_executable o); cbn [andb] in Hr; try discriminate Hr;
    rewrite prefix_guard_true in Hr by done; cbn [mbind outcome_bind] in Hr.
  1, 3: eapply relax_gottpoff_cases in Hr as (? & Ha); eauto.
  all: assert (in_op i = Mov) as -> by
         (destruct (decode_inv _ _ _ _ Hd) as (? & ? & ? & ? & ? & _ & _ & _ & _ & _ & Hin); [by rewrite Hs|];
          rewrite Hs in Hin; cbn in Hin; destruct Hin as [?|[?|[?|[?|[?|[]]]]]]; congruence).
  all: eapply relax_tlsdesc_cases in Hr as (? & Ha); eauto.
Qed.
End tls.

(** ** Relaxation preserves the operand *)

Lemma relative_value S a place : is_uint 64 place ->
  exists j, u64 (Z.land (u64 (u64 (S + a) + 0)) (pm_symbol_plus_addend (get_page_mask None)) - Z.land place (pm_place (get_page_mask None)))
            = S + a - place + j * 2 ^ 64.
Proof.
  intros Hp. cbn [get_page_mask pm_symbol_plus_addend pm_place page_mask_default].
  change u64_max with (Z.ones 64). rewrite !Z.land_ones by lia. fold (wrap 64 (u64 (u64 (S + a) + 0))). fold (wrap 64 place).
  rewrite (wrap_id 64 place Hp). destruct (wrap_shift 64 (S + a)) as [b ->]; [lia|].
  destruct (wrap_shift 64 (S + a + b * 2 ^ 64 + 0)) as [c ->]; [lia|].
  destruct (wrap_shift 64 (S + a + b * 2 ^ 64 + 0 + c * 2 ^ 64)) as [e ->]; [lia|].
  match goal with |- context [u64 ?x] => destruct (wrap_shift 64 x) as [g ->]; [lia|] end.
  exists (b + c + e + g). lia.
Qed.

(** What running the instruction at [offset] with its field at [place] uses, when it decodes as [j]. *)
Definition uses (f : prefix) (out : bytes) (offset place : Z) (mem : Z -> Z) (j : insn) (x : Z) : Prop :=
  decode f out offset = Some j /\ operand mem place (field_at out offset) j = x.

(** The flags that say what a symbol's value is. *)
Definition same_value_flags (a b : Z) : Prop :=
  is_absolute a = is_absolute b /\ is_dynamic a = is_dynamic b /\ is_ifunc a = is_ifunc b.

Section preservation.
Context (num : x86_64_reloc -> Z) (num_inj : forall a b, num a = num b -> a = b) (EXECINSTR ALLOC : Z) (uleb : Z -> bytes).
(** The relocation of type [r] on the instruction [i] of the section's bytes [d]. *)
Context (ly : ElfLayout) (ob : ObjectLayout) (f : prefix) (r : x86_64_reloc) (d : bytes) (offset : Z) (i : insn)
  (rel : Reloc) (section : SectionInfo) (w : TableWriter) (cache : RelocationCache) (rest : list Reloc) (relax_deltas : option SectionDeltas)
  (res : Resolution) (sym id : Z) (rx : Relaxation) (mem : Z -> Z).
Let o := ly_output_kind ly.
Let flags := flags_for_symbol ly id.
Let place := u64 (section_address section + offset).
Let S := rs_raw_value res.
Let arch := x86_64_arch num EXECINSTR.

(** What the theorems below assume of a relocation that is relaxed: it is in code, and its symbol's value is known
    not to be the address of a merged string. *)
Record relaxed_relocation : Prop := {
  rr_type : rl_type rel = num r; rr_addend : rl_addend rel = -4;
  rr_decode : decode f d offset = Some i; rr_bytes : is_bytes d; rr_offset : 0 <= offset; rr_field : offset + 4 <= len d;
  rr_resolution : get_resolution rel ob ly = done_with (res, sym, id);
  rr_value : is_uint 64 S; rr_not_merged : S <> 0; rr_flags : same_value_flags (rs_flags res) flags;
  rr_code : is_writable section = false;
  rr_chosen : new_relaxation num EXECINSTR (num r) d offset flags o (section_flags section) = Ret (Some rx);
  rr_wanted : ly_relax ly || rx_mandatory rx = true }.

Definition apply_it : run (bytes * TableWriter * RelocationModifier) :=
  apply_relocation (A := arch) ly ob ALLOC uleb offset rel section d w cache rest relax_deltas.

Lemma apply_it_chosen info : relaxed_relocation -> relocation_from_raw num (num r) = Ret (Some info) -> is_applied (ri_kind info) = true ->
  apply_it = apply_chosen (A := arch) ly ob ALLOC uleb (Some (as_relaxation rx)) rel info res sym offset
               section d w cache rest relax_deltas.
Proof.
  intros H Hrow Hk. unfold apply_it, apply_relocation. rewrite (rr_type H).
  change (@relocation_type arch) with (relocation_from_raw num). rewrite Hrow. cbn [mbind outcome_bind]. unfold ok_or.
  change (@new_relaxation_of arch) with (x86_64_new_relaxation num EXECINSTR). unfold x86_64_new_relaxation.
  rewrite (rr_resolution H). unfold done_with. fold flags o. rewrite (rr_chosen H). cbn [mbind outcome_bind option_map].
  change (is_mandatory (as_relaxation rx)) with (rx_mandatory rx). rewrite (rr_wanted H). by destruct (ri_kind info).
Qed.

(** One relocation of a four-byte field, relaxed. *)
Lemma apply_it_field k range d' a v info : relaxed_relocation -> relocation_from_raw num (num r) = Ret (Some info) ->
  is_applied (ri_kind info) = true -> rx_info rx = mkInfo k (ByteSize 4) None range 1 0 -> is_pair_uleb k = false -> adjusts k = false ->
  apply (rx_kind rx) d offset (-4) = Ret (d', offset, a) -> len d' = len d ->
  relocation_value (A := arch) ly ob ALLOC (rx_info rx) rel res sym a place section cache rest relax_deltas w = done_with (v, w) ->
  apply_it = if ar_contains range (i64 v) then done_with (put_field d' offset v, w, next_modifier (rx_kind rx))
             else failed (FieldError OutsideRange).
Proof.
  intros H Hrow Hk Hinfo Hu Hadj Ha Hl Hv. rewrite (apply_it_chosen info H Hrow Hk). unfold apply_chosen.
  cbn [as_relaxation rel_apply rel_info rel_next_modifier]. rewrite (rr_addend H), Ha. cbn [mbind outcome_bind]. fold place.
  rewrite Hv. unfold done_with at 1. rewrite Hinfo. cbn [ri_kind]. rewrite Hadj. unfold done_with at 1.
  rewrite write_field_row by (done || pose proof (rr_offset H); pose proof (rr_field H); lia). by destruct (ar_contains _ _).
Qed.

Lemma symbol_value_plain a : relaxed_relocation -> is_ifunc flags = false ->
  value_with_addend res a sym ob = done_with (u64 (S + a)).
Proof.
  intros H Hf. destruct (rr_flags H) as (_ & _ & Ei). unfold value_with_addend. fold S.
  by rewrite Ei, Hf, (proj2 (Z.eqb_neq _ _) (rr_not_merged H)).
Qed.

(** A known value is written as it is: no zero for a missing symbol and no dynamic relocation. *)
Lemma absolute_value : relaxed_relocation -> is_ifunc flags = false -> known_value flags o = true ->
  relocation_value (A := arch) ly ob ALLOC (unsigned_row Absolute) rel res sym 0 place section cache rest relax_deltas w = done_with (S, w).
Proof.
  intros H Hf Hk. unfold relocation_value. cbn [unsigned_row ri_kind]. unfold write_absolute_relocation.
  destruct (rr_flags H) as (Ea & Ed & Ei). rewrite (rr_code H), !andb_false_r. cbn [negb andb]. rewrite !andb_true_r.
  rewrite (symbol_value_plain 0 H Hf), Z.add_0_r, (wrap_id 64) by apply (rr_value H).
  unfold done_with at 1 2. rewrite Ea, Ed. unfold known_value, is_address in Hk.
  unfold is_absolute, is_dynamic, is_ifunc in *. rewrite Hf in Hk. fold o.
  destruct (negb (flags_contain _ _)); [done|].
  by destruct (contains flags ABSOLUTE), (contains flags DYNAMIC), (is_relocatable o).
Qed.

(** Both rewritings of a read of a GOT slot, with the relocation over the field. *)
Lemma relocated_immediate info : relaxed_relocation -> relocation_from_raw num (num r) = Ret (Some info) -> is_applied (ri_kind info) = true ->
  in_source i = Slot -> is_ifunc flags = false -> known_value flags o = true -> rx_info rx = unsigned_row Absolute ->
  (f <> Legacy -> exists rex, get d (offset - 3) = Some rex /\ rex_w rex = true) ->
  (forall a, apply (rx_kind rx) d offset a = (d' ← immediate_bytes f (in_op i) d offset; Ret (d', offset, 0))) ->
  if ar_contains (mkAllowed 0 (2 ^ 32)) (i64 S) then
    0 <= S < 2 ^ 32 /\ exists out, apply_it = done_with (out, w, next_modifier (rx_kind rx)) /\ len out = len d /\
      uses f out offset place mem (mkInsn (in_op i) (in_wide i) (in_reg i) Immediate) (wrap (width (in_wide i)) (sext 32 S))
  else apply_it = failed (FieldError OutsideRange).
Proof.
  intros H Hrow Happ Hs Hf Hk Hinfo Hrex Happly. pose proof (rr_decode H) as Hd. pose proof (rr_offset H) as H0. pose proof (rr_field H) as Hl.
  destruct (immediate_bytes_ok f (in_op i) d offset i Hd ltac:(by rewrite Hs) (rr_bytes H) Hrex H0 Hl) as (d' & E & Hl' & Hdec).
  pose proof (absolute_value H Hf Hk) as Hv. rewrite <- Hinfo in Hv.
  rewrite (apply_it_field Absolute (mkAllowed 0 (2 ^ 32)) d' 0 S info H Hrow Happ Hinfo eq_refl eq_refl) by (done || by rewrite Happly, E).
  destruct (ar_contains _ _) eqn:Hc; [|done]. unfold ar_contains in Hc. cbn [ar_min ar_max] in Hc.
  destruct (unsigned_field S (rr_value H) ltac:(lia)) as [Hfield Hr]. split; [done|].
  eexists. split; [done|]. split; [rewrite len_put_field; lia|]. split; [apply Hdec|].
  unfold operand. cbn [in_source in_wide]. by rewrite field_put_field, Hfield by lia.
Qed.

Lemma relocated_address info : relaxed_relocation -> relocation_from_raw num (num r) = Ret (Some info) -> is_applied (ri_kind info) = true ->
  in_source i = Slot -> in_op i = Mov -> is_ifunc flags = false -> rx_info rx = signed_row Relative ->
  (forall a, apply (rx_kind rx) d offset a = (d' ← store d (offset - 2) 0x8d; Ret (d', offset, a))) ->
  apply_it = failed (FieldError OutsideRange) \/
  exists out, apply_it = done_with (out, w, next_modifier (rx_kind rx)) /\ len out = len d /\
    uses f out offset place mem (mkInsn Mov (in_wide i) (in_reg i) Address) (wrap (width (in_wide i)) S).
Proof.
  intros H Hrow Happ Hs Ho Hf Hinfo Happly. pose proof (rr_decode H) as Hd. pose proof (rr_offset H) as H0. pose proof (rr_field H) as Hl.
  destruct (lea_bytes_ok f d offset i Hd Hs Ho H0 Hl) as (d' & E & Hl' & Hdec).
  destruct (relative_value S (-4) place ltac:(by apply wrap_bound)) as [k Hv].
  assert (relocation_value (A := arch) ly ob ALLOC (rx_info rx) rel res sym (-4) place section cache rest relax_deltas w
          = done_with (S + -4 - place + k * 2 ^ 64, w)) as Hval.
  { rewrite Hinfo. unfold relocation_value, symbol_value. cbn [signed_row ri_kind ri_mask ri_bias].
    rewrite (symbol_value_plain (-4) H Hf). unfold done_with at 1 2. by rewrite Hv. }
  rewrite (apply_it_field Relative (mkAllowed (- 2 ^ 31) (2 ^ 31)) d' (-4) _ info H Hrow Happ Hinfo eq_refl eq_refl
             ltac:(by rewrite Happly, E) Hl' Hval).
  destruct (ar_contains _ _) eqn:Hc; [right|by left]. unfold ar_contains in Hc. cbn [ar_min ar_max] in Hc.
  eexists. split; [done|]. split; [rewrite len_put_field; lia|]. split; [apply Hdec|].
  unfold operand. cbn [in_source in_wide]. rewrite field_put_field, signed_field by lia.
  destruct (i64_shift_of (S + -4 - place + k * 2 ^ 64)) as [b ->]. apply wrap_width with (k + b). lia.
Qed.

(** C16. Reading a symbol's GOT entry is relaxed to computing its value.  For a mov, add, sub or cmp in code whose operand
    is the GOT entry of a symbol (with no prefix, a REX or a REX2 prefix, as the relocation type says), applying the
    relocation with whatever [new_relaxation] chooses does not panic and writes no dynamic relocation; and either the
    range check rejects the value, or the bytes decode to an instruction with the same operation, width and register
    whose operand is the symbol's value, provided a sign-extended 32-bit immediate can hold it: always when the
    operand is 32 bits wide or an address, and below 2 GiB otherwise. *)
Theorem got_relaxation_preserves : relaxed_relocation -> got_type f r = true -> in_source i = Slot ->
  apply_it = failed (FieldError OutsideRange) \/
  exists out j, apply_it = done_with (out, w, next_modifier (rx_kind rx)) /\ len out = len d /\
    in_op j = in_op i /\ in_reg j = in_reg i /\ in_wide j = in_wide i /\
    ((in_source j = Immediate -> in_wide j = true -> S < 2 ^ 31) ->
     uses f out offset place mem j (wrap (width (in_wide i)) S)).
Proof.
  intros H Hg Hs. destruct (got_row num num_inj f r Hg) as (info & Hrow & Happ).
  destruct (got_relaxation num num_inj EXECINSTR f r d offset flags o _ i rx Hg (rr_decode H) Hs (rr_chosen H)) as [Hf Hrw].
  destruct Hrw as [Hk Hinfo Hrex Happly|_ Hinfo Ho Happly].
  - pose proof (relocated_immediate info H Hrow Happ Hs Hf Hk Hinfo Hrex Happly) as Hc.
    destruct (ar_contains _ _); [|by left]. destruct Hc as (Hr & out & Ha & Hl & [Hdec Hop]). right.
    exists out, (mkInsn (in_op i) (in_wide i) (in_reg i) Immediate). do 2 (split; [done|]). do 3 (split; [done|]). intros Hlim. split; [done|]. rewrite Hop. cbn in Hlim.
    destruct (in_wide i); [by rewrite sext_id by (unfold is_sint; specialize (Hlim eq_refl eq_refl); lia)|].
    apply (wrap_sext 32); lia.
  - destruct (relocated_address info H Hrow Happ Hs Ho Hf Hinfo Happly) as [Ha|(out & Ha & Hl & Hu)]; [by left|right].
    exists out, (mkInsn Mov (in_wide i) (in_reg i) Address). do 2 (split; [done|]). by do 3 (split; [done|]).
Qed.

(** C40. The range check of the immediate forms does not exclude values that the immediate cannot hold: with a
    64-bit operand, a value in the upper half of the first 4 GiB passes the check of [R_X86_64_32], and the
    relaxed instruction uses that value less 4 GiB. *)
Theorem wide_immediate_sign_extended : relaxed_relocation -> got_type f r = true -> in_source i = Slot ->
  in_wide i = true -> 2 ^ 31 <= S < 2 ^ 32 -> ri_kind (rx_info rx) = Absolute ->
  exists out j, apply_it = done_with (out, w, next_modifier (rx_kind rx)) /\
    uses f out offset place mem j (u64 (S - 2 ^ 32)) /\ u64 (S - 2 ^ 32) <> S.
Proof.
  intros H Hg Hs Hw HS Habs. destruct (got_row num num_inj f r Hg) as (info & Hrow & Happ).
  destruct (got_relaxation num num_inj EXECINSTR f r d offset flags o _ i rx Hg (rr_decode H) Hs (rr_chosen H)) as [Hf Hrw].
  destruct Hrw as [Hk Hinfo Hrex Happly|? Hinfo _ _]; [|by rewrite Hinfo in Habs].
  pose proof (relocated_immediate info H Hrow Happ Hs Hf Hk Hinfo Hrex Happly) as Hc. unfold ar_contains in Hc. cbn [ar_min ar_max] in Hc.
  rewrite sext_id in Hc by (unfold is_sint; lia). rewrite (proj2 (Z.leb_le _ _)), (proj2 (Z.ltb_lt _ _)) in Hc by lia. cbn [andb] in Hc.
  destruct Hc as (_ & out & Ha & _ & [Hdec Hop]). eexists out, _. split; [done|]. split; [split; [done|]|].
  - rewrite Hop, Hw. destruct (sext_cases 32 S) as (k & E & B); [lia|]. rewrite E in *. apply wrap_cong with 0; [cbn; lia|]. lia.
  - destruct (wrap_shift 64 (S - 2 ^ 32)) as [k ->]; [lia|]. lia.
Qed.
(** C17. Reading a thread-local variable's offset is relaxed to the constant.  For a mov or add in code whose operand is
    the GOT entry with the variable's offset from the thread pointer, and for the LEA of its TLS descriptor (whose call,
    which is then skipped, would leave that offset in the register), with a REX or REX2 prefix: applying the
    relocation with whatever [new_relaxation] chooses for a symbol that cannot be interposed does not panic, and either
    the range check rejects the offset or the bytes decode to an instruction with the same operation, width and register
    whose operand is the variable's address less the thread pointer. *)
Theorem tp_relaxation_preserves : relaxed_relocation -> tp_type f i r = true -> 3 <= offset -> is_interposable flags = false ->
  apply_it = failed (FieldError OutsideRange) \/
  exists out j, apply_it = done_with (out, w, next_modifier (rx_kind rx)) /\ len out = len d /\
    in_op j = in_op i /\ in_reg j = in_reg i /\ in_wide j = in_wide i /\
    uses f out offset place mem j (wrap (width (in_wide i)) (S - ly_tp_offset_start ly)).
Proof.
  intros H Ht H3 Hi. destruct (tp_row num num_inj f i r Ht) as (info & Hrow & Happ). pose proof (rr_field H) as Hl.
  destruct (tp_relaxation num num_inj EXECINSTR f r d offset _ _ _ i rx Ht (rr_decode H) (rr_bytes H) H3 Hl Hi (rr_chosen H))
    as (Hinfo & d' & Ha & Hl' & Hdec).
  set (v := u64 (u64 (u64 (S + 0) + 0) - ly_tp_offset_start ly)).
  rewrite (apply_it_field TpOff (mkAllowed (- 2 ^ 31) (2 ^ 31)) d' 0 v info H Hrow Happ Hinfo eq_refl eq_refl Ha Hl') by (by rewrite Hinfo).
  destruct (ar_contains _ _) eqn:Hc; [right|by left]. unfold ar_contains in Hc. cbn [ar_min ar_max] in Hc.
  exists (put_field d' offset v), (mkInsn (in_op i) (in_wide i) (in_reg i) Immediate).
  split; [done|]. split; [rewrite len_put_field; lia|]. do 3 (split; [done|]). split; [apply Hdec|].
  unfold operand. cbn [in_source in_wide]. rewrite field_put_field, signed_field by lia.
  destruct (i64_shift_of v) as [a ->]. subst v.
  destruct (wrap_shift 64 (S + 0)) as [b ->]; [lia|]. destruct (wrap_shift 64 (S + 0 + b * 2 ^ 64 + 0)) as [c ->]; [lia|].
  destruct (wrap_shift 64 (S + 0 + b * 2 ^ 64 + 0 + c * 2 ^ 64 - ly_tp_offset_start ly)) as [e ->]; [lia|].
  apply wrap_width with (a + b + c + e). lia.
Qed.
End preservation.

(** ** Concrete relaxations *)

(** The numbers of the psABI. *)
Definition abi_num (r : x86_64_reloc) : Z :=
  match r with
  | R_X86_64_NONE => 0 | R_X86_64_64 => 1 | R_X86_64_PC32 => 2 | R_X86_64_GOT32 => 3 | R_X86_64_PLT32 => 4
  | R_X86_64_GOTPCREL => 9 | R_X86_64_32 => 10 | R_X86_64_32S => 11 | R_X86_64_16 => 12 | R_X86_64_PC16 => 13
  | R_X86_64_8 => 14 | R_X86_64_PC8 => 15 | R_X86_64_DTPOFF64 => 17 | R_X86_64_TLSGD => 19 | R_X86_64_TLSLD => 20
  | R_X86_64_DTPOFF32 => 21 | R_X86_64_GOTTPOFF => 22 | R_X86_64_TPOFF32 => 23 | R_X86_64_PC64 => 24
  | R_X86_64_GOTOFF64 => 25 | R_X86_64_GOTPC32 => 26 | R_X86_64_GOT64 => 27 | R_X86_64_GOTPC64 => 29
  | R_X86_64_PLTOFF64 => 31 | R_X86_64_GOTPC32_TLSDESC => 34 | R_X86_64_TLSDESC_CALL => 35
  | R_X86_64_GOTPCRELX => 41 | R_X86_64_REX_GOTPCRELX => 42 | R_X86_64_CODE_4_GOTPCRELX => 43
  | R_X86_64_CODE_4_GOTTPOFF => 44 | R_X86_64_CODE_4_GOTPC32_TLSDESC => 45 | R_X86_64_CODE_5_GOTPCRELX => 46
  | R_X86_64_CODE_5_GOTTPOFF => 47 | R_X86_64_CODE_5_GOTPC32_TLSDESC => 48 | R_X86_64_CODE_6_GOTPCRELX => 49
  | R_X86_64_CODE_6_GOTTPOFF => 50 | R_X86_64_CODE_6_GOTPC32_TLSDESC => 51
  end.

Lemma abi_num_inj a b : abi_num a = abi_num b -> a = b.
Proof. destruct a; (destruct b; first [reflexivity | discriminate]). Qed.

(** A section of code at 0x401000 with one instruction, whose relocation is against the symbol 1. *)
Definition code_section : SectionInfo := mkSection 0x401000 false 6.
Definition code_object : ObjectLayout := mkObject id (fun _ => None) (fun _ _ => Ok None).
Definition code_relocation (r : x86_64_reloc) : Reloc := mkReloc 3 (abi_num r) (-4) (Some 1).
Definition code_resolution (flags value : Z) : Resolution := mkResolution value None None None flags.
Definition code_layout (o : OutputKind) (flags value : Z) : ElfLayout :=
  mkLayout o true 0x403000 0 0 0x4000 None id (fun _ => Some (code_resolution flags value)) (fun _ => flags).
Definition code_run (o : OutputKind) (flags value : Z) (r : x86_64_reloc) (d : bytes) :=
  apply_it abi_num 4 2 (fun _ => []) (code_layout o flags value) code_object d 3 (code_relocation r) code_section
    (new_writer false (fun _ => 0)) (mkCache None []) [] None.

Ltac concrete_relaxation :=
  constructor; try reflexivity; try (unfold is_uint; cbn; lia);
  [ repeat (constructor; [unfold is_uint; lia|]); constructor | done ].

(** [mov r9, [rip + slot]] of a symbol that a static executable defines. *)
Lemma got_relaxation_preserves_witness :
  exists out w j, code_run (StaticExecutable NonRelocatable) NON_INTERPOSABLE 0x404010 R_X86_64_REX_GOTPCRELX [0x4c; 0x8b; 0x0d; 0; 0; 0; 0]
      = done_with (out, w, Normal) /\
    in_op j = Mov /\ in_reg j = 9 /\ uses Rex out 3 0x401003 (fun _ => 0) j 0x404010.
Proof.
  pose (w := new_writer false (fun _ => 0)).
  destruct (got_relaxation_preserves abi_num abi_num_inj 4 2 (fun _ => []) (code_layout (StaticExecutable NonRelocatable) NON_INTERPOSABLE 0x404010)
    code_object Rex R_X86_64_REX_GOTPCRELX [0x4c; 0x8b; 0x0d; 0; 0; 0; 0] 3 (mkInsn Mov true 9 Slot) (code_relocation R_X86_64_REX_GOTPCRELX)
    code_section w (mkCache None []) [] None (code_resolution NON_INTERPOSABLE 0x404010) 1 1
    (mkRelaxation (RexMovIndirectToAbsolute 3) (unsigned_row Absolute) true) (fun _ => 0)
    ltac:(concrete_relaxation) eq_refl eq_refl) as [He|(out & j & Ha & _ & Hop & Hreg & _ & Hu)].
  - exfalso. vm_compute in He. discriminate He.
  - exists out, w, j. do 3 (split; [done|]). apply Hu. intros _ _. cbn. lia.
Defined.

(** [sub rax, [rip + slot]] of a symbol at 2 GiB: the immediate is sign-extended. *)
Lemma wide_immediate_sign_extended_witness :
  exists out w j, code_run (StaticExecutable NonRelocatable) NON_INTERPOSABLE 0x80000000 R_X86_64_REX_GOTPCRELX [0x48; 0x2b; 0x05; 0; 0; 0; 0]
      = done_with (out, w, Normal) /\
    uses Rex out 3 0x401003 (fun _ => 0) j 0xffffffff80000000.
Proof.
  pose (w := new_writer false (fun _ => 0)).
  destruct (wide_immediate_sign_extended abi_num abi_num_inj 4 2 (fun _ => []) (code_layout (StaticExecutable NonRelocatable) NON_INTERPOSABLE 0x80000000)
    code_object Rex R_X86_64_REX_GOTPCRELX [0x48; 0x2b; 0x05; 0; 0; 0; 0] 3 (mkInsn Sub true 0 Slot) (code_relocation R_X86_64_REX_GOTPCRELX)
    code_section w (mkCache None []) [] None (code_resolution NON_INTERPOSABLE 0x80000000) 1 1
    (mkRelaxation (RexSubIndirectToAbsolute 3) (unsigned_row Absolute) true) (fun _ => 0)
    ltac:(concrete_relaxation) eq_refl eq_refl eq_refl ltac:(cbn; lia) eq_refl) as (out & j & Ha & Hu & _).
  by exists out, w, j.
Defined.

(** [add rcx, [rip + slot]] of the offset of a variable 8 bytes below the thread pointer. *)
Lemma tp_relaxation_preserves_witness :
  exists out w j, code_run (DynamicExecutable Relocatable) NON_INTERPOSABLE 0x3ff8 R_X86_64_GOTTPOFF [0x48; 0x03; 0x0d; 0; 0; 0; 0]
      = done_with (out, w, Normal) /\
    in_op j = Add /\ in_reg j = 1 /\ uses Rex out 3 0x401003 (fun _ => 0) j (u64 (-8)).
Proof.
  pose (w := new_writer false (fun _ => 0)).
  destruct (tp_relaxation_preserves abi_num abi_num_inj 4 2 (fun _ => []) (code_layout (DynamicExecutable Relocatable) NON_INTERPOSABLE 0x3ff8)
    code_object Rex R_X86_64_GOTTPOFF [0x48; 0x03; 0x0d; 0; 0; 0; 0] 3 (mkInsn Add true 1 Slot) (code_relocation R_X86_64_GOTTPOFF)
    code_section w (mkCache None []) [] None (code_resolution NON_INTERPOSABLE 0x3ff8) 1 1
    (mkRelaxation (RexAddIndirectToAbsolute 3) (signed_row TpOff) false) (fun _ => 0)
    ltac:(concrete_relaxation) eq_refl ltac:(lia) eq_refl) as [He|(out & j & Ha & _ & Hop & Hreg & _ & Hu)].
  - exfalso. vm_compute in He. discriminate He.
  - exists out, w, j. by do 3 (split; [done|]).
Defined.
