(* ===== verification/ScanWrite.v ===== *)
(** Sections, scanned and written.  The tables of dynamic relocations that
    [load_section_relocations] makes room for are filled exactly by [apply_relocations],
    for sections whose relocations rewrite no instruction (data, and code whose
    relaxations change the kind of relocation only). *)
From stdpp Require Import base numbers list relations.
From S2P Require Import Prelude RelocInsn RelocInfo RelocTables TableX86 ValueFlags GotAlloc Relaxation GotSpec RelaxX86 ApplyReloc ScanReloc ScanSpec X86Spec.
Open Scope Z_scope.

(** ** Writing a field *)

(** The field is in the section, and the value can be combined with what it holds. *)
Record field_inside (info : RelocationKindInfo) (total offset : Z) : Prop := {
  fi_start : 0 <= offset; fi_bytes : forall n, ri_size info = ByteSize n -> 0 <= n <= 8;
  fi_end : offset + footprint info <= total; fi_known : 0 <= footprint info;
  fi_adjusts : adjusts (ri_kind info) = true -> exists n, ri_size info = ByteSize n }.

(** The value is checked against the range of the field, and no byte outside the section is touched. *)
Definition written (out : bytes) (x : run bytes) : Prop :=
  (exists e, x = failed (FieldError e)) \/ exists out', x = done_with out' /\ len out' = len out.

Lemma write_field_total uleb info v out offset : field_inside info (len out) offset -> written out (write_field uleb info v out offset).
Proof.
  intros [H0 Hn He Hk _]. unfold write_field. rewrite slice_from_eq by lia. cbn [mbind outcome_bind].
  destruct (write_relocation_total uleb info v (drop (Z.to_nat offset) out)) as (res & -> & Hl); [done|rewrite len_drop; lia|].
  destruct res as [out'|e]; [right|left; by exists e]. eexists. split; [reflexivity|].
  rewrite len_app, (Hl out' eq_refl), len_take, len_drop. lia.
Qed.

Lemma adjust_total v info out offset : field_inside info (len out) offset -> adjusts (ri_kind info) = true ->
  exists v', adjust_relocation_based_on_value v info out offset = done_with v'.
Proof.
  intros [H0 Hn He _ Ha] Hk. destruct (Ha Hk) as [n En]. specialize (Hn n En). unfold footprint in He. rewrite En in He.
  unfold adjust_relocation_based_on_value. rewrite En, slice_eq by lia. cbn [mbind outcome_bind].
  rewrite (proj2 (Z.ltb_ge _ _)) by lia. destruct (ri_kind info); try discriminate Hk; by eexists.
Qed.

Section sections.
Context {A : Arch} (sr : ScanResources) (ALLOC : Z) (uleb : Z -> bytes).
Abbreviation o := (sr_output_kind sr).

(** ** Relocations that rewrite nothing *)

(** What [new_relaxation] chooses for the relocation type depends on the value of the symbol only, and leaves the bytes. *)
Definition leaves_bytes (sf r_type flags : Z) (relax : option relaxation) : Prop :=
  (forall d offset flags' non_zero, same_value flags' flags -> new_relaxation_of r_type d offset flags' o sf non_zero None = Ret relax) /\
  match relax with
  | Some r => rel_next_modifier r = Normal /\ forall d offset addend, rel_apply r d offset addend = Ret (d, offset, addend)
  | None => True
  end.

(** The relaxation that is used, and the relocation that it leaves. *)
Definition used (relax : option relaxation) : option relaxation :=
  match relax with Some r => if sr_relax sr || is_mandatory r then Some r else None | None => None end.
Definition left_info (row : RelocationKindInfo) (relax : option relaxation) : RelocationKindInfo :=
  match used relax with Some r => rel_info r | None => row end.

(** A relocation of the section, seen from the final flags. *)
Record plain_relocation (st_f : ScanState) (section : ScanSection) (si : SectionInfo) (total : Z) (rel : Reloc)
  (sym : Z) (row : RelocationKindInfo) (relax : option relaxation) : Prop := {
  pr_symbol : rl_symbol rel = Some sym;
  pr_row : relocation_type (rl_type rel) = Ret (Some row);
  pr_known : self_contained (ri_kind row) = true;
  pr_relax : leaves_bytes (ss_flags section) (rl_type rel) (reference_flags sr sym st_f) relax;
  pr_kind : self_contained (ri_kind (left_info row relax)) = true;
  pr_needs : resolution_flags (ri_kind (left_info row relax)) <> 0;
  pr_placed : well_placed sr (ri_kind (left_info row relax)) (reference_flags sr sym st_f) (rl_offset rel)
                (u64 (section_address si + rl_offset rel)) (ss_writable section);
  pr_field : field_inside (left_info row relax) total (rl_offset rel) }.

Lemma well_placed_value k flags flags' off place writable : same_value flags' flags ->
  well_placed sr k flags off place writable -> well_placed sr k flags' off place writable.
Proof.
  intros Hv [H1 H2 H3 H4]. split; [..|done|];
    rewrite ?(is_interposable_proper _ _ Hv), ?(is_absolute_proper _ _ Hv), ?(is_dynamic_proper _ _ Hv); done.
Qed.

Lemma plain_chosen st st_f section si total rel sym row relax : plain_relocation st_f section si total rel sym row relax -> grows st st_f ->
  choose_relaxation sr rel section (reference_flags sr sym st) = Ret (used relax) /\
  chosen_info rel (used relax) = Ret (Some (left_info row relax)).
Proof.
  intros Hp Hg. destruct (pr_relax _ _ _ _ _ _ _ _ Hp) as [Hr _]. split.
  - unfold choose_relaxation. by rewrite Hr by (symmetry; by apply reference_same_value).
  - unfold chosen_info, left_info. destruct (used relax); [done|]. apply (pr_row _ _ _ _ _ _ _ _ Hp).
Qed.

Lemma plain_next st st' st_f section si total rel sym row relax next : plain_relocation st_f section si total rel sym row relax -> grows st st_f ->
  process_relocation sr ALLOC rel section false st = Ret (Ok (st', next)) -> next = Normal.
Proof.
  intros Hp Hg. destruct (plain_chosen _ _ _ _ _ _ _ _ _ Hp Hg) as [Hc Hi]. destruct (pr_relax _ _ _ _ _ _ _ _ Hp) as [_ Hn].
  unfold process_relocation. rewrite (pr_symbol _ _ _ _ _ _ _ _ Hp), Hc. cbn [mbind outcome_bind]. rewrite Hi. cbn [mbind outcome_bind ok_or].
  destruct (reserve _ _ _ _ _ _ _ _) as [[[fa st1]|]|]; [|done..]. cbn. intros [= _ <-]. unfold used.
  destruct relax as [r|]; [|done]. by destruct (_ || _), Hn.
Qed.

(** The relocation is applied with what was scanned. *)
Definition fills (out : bytes) (w : TableWriter) (e : effect) (x : run (bytes * TableWriter * RelocationModifier)) : Prop :=
  (exists err, x = failed (FieldError err)) \/ exists out', x = done_with (out', extend e w, Normal) /\ len out' = len out.

Lemma plain_applied ly ob st_f section si rel sym row relax out w e res v cache rest :
  plain_relocation st_f section si (len out) rel sym row relax -> laid_out sr st_f ly ob -> ly_relax ly = sr_relax sr ->
  section_flags si = ss_flags section -> get_resolution rel ob ly = done_with (res, sym, sr_input_to_id sr sym) ->
  relocation_value ly ob ALLOC (left_info row relax) rel res sym (rl_addend rel) (u64 (section_address si + rl_offset rel)) si cache rest None w
    = done_with (v, extend e w) ->
  fills out w e (apply_relocation ly ob ALLOC uleb (rl_offset rel) rel si out w cache rest None).
Proof.
  intros Hp Hlo Hrel Hsf Hres Hv. destruct (pr_relax _ _ _ _ _ _ _ _ Hp) as [Hr Hn].
  assert (flags_for_symbol ly (sr_input_to_id sr sym) = reference_flags sr sym st_f) as Hfl.
  { unfold flags_for_symbol, reference_flags. by rewrite (lo_definition _ _ _ _ Hlo), !(lo_flags _ _ _ _ Hlo). }
  assert (fills out w e (apply_chosen ly ob ALLOC uleb (used relax) rel row res sym (rl_offset rel) si out w cache rest None)) as Hdone.
  { unfold apply_chosen. unfold left_info in Hv.
    assert (match used relax with Some r => rel_apply r out (rl_offset rel) (rl_addend rel) | None => Ret (out, rl_offset rel, rl_addend rel) end
            = Ret (out, rl_offset rel, rl_addend rel)) as ->.
    { unfold used. destruct relax as [r|]; [|done]. by destruct (_ || _), Hn. }
    assert (match used relax with Some r => rel_next_modifier r | None => Normal end = Normal) as ->.
    { unfold used. destruct relax as [r|]; [|done]. by destruct (_ || _), Hn. }
    cbn [mbind outcome_bind]. rewrite Hv. cbn [done_with]. pose proof (pr_field _ _ _ _ _ _ _ _ Hp) as Hf. unfold left_info in Hf.
    set (info := match used relax with Some r => rel_info r | None => row end) in *.
    assert (exists v', (if adjusts (ri_kind info) then adjust_relocation_based_on_value v info out (rl_offset rel) else done_with v) = done_with v')
      as [v' ->] by (destruct (adjusts _) eqn:Ea; [by apply adjust_total|by eexists]).
    cbn [done_with]. destruct (write_field_total uleb info v' out (rl_offset rel) Hf) as [[err ->]|(out' & -> & Hl)]; [left; by exists err|right].
    by exists out'. }
  unfold apply_relocation. rewrite (pr_row _ _ _ _ _ _ _ _ Hp). cbn [mbind outcome_bind ok_or done_with].
  pose proof (pr_known _ _ _ _ _ _ _ _ Hp) as Hk. rewrite Hres. cbn [done_with].
  rewrite (lo_output _ _ _ _ Hlo), Hsf, Hr by by rewrite Hfl. unfold used in Hdone. rewrite <- Hrel in Hdone.
  destruct (ri_kind row); try discriminate Hk; exact Hdone.
Qed.

(** ** The loops *)

Lemma loop_steps relocations section modifier st st' :
  scan_loop sr ALLOC relocations section modifier st = Ret (Ok st') -> rtc (scan_step sr ALLOC) st st'.
Proof.
  revert modifier st. induction relocations as [|rel relocations IH]; intros modifier st; cbn [scan_loop]; [by intros [= ->]|].
  destruct modifier; [|apply IH]. destruct (process_relocation _ _ _ _ _ _) as [[[st1 next]|]|] eqn:E; try discriminate.
  intros H. eapply rtc_l; [by econstructor|]. by eapply IH.
Qed.

Abbreviation plain st_f section si total :=
  (fun rel => exists sym row relax, plain_relocation st_f section si total rel sym row relax).

(** How the loop over the relocations of a section goes. *)
Definition section_fills (out : bytes) (w : TableWriter) (e : effect) (x : run (bytes * TableWriter)) : Prop :=
  (exists err, x = failed (FieldError err)) \/ exists out', x = done_with (out', extend e w) /\ len out' = len out.

Section run.
Context (st0 st_f : ScanState) (ly : ElfLayout) (ob : ObjectLayout) (section : ScanSection) (si : SectionInfo).
Hypothesis Hstart : forall id, has_resolution (sc_flags st0 id) = false.
Hypothesis Hlo : laid_out sr st_f ly ob.
Hypothesis Hrelax : ly_relax ly = sr_relax sr.
Hypothesis Halloc : flags_contain (ss_flags section) ALLOC = true.
Hypothesis Hflags : section_flags si = ss_flags section.
Hypothesis Hwritable : is_writable si = ss_writable section.

Lemma value_alone info rel res sym addend place cache rest cache' rest' w : self_contained (ri_kind info) = true ->
  relocation_value ly ob ALLOC info rel res sym addend place si cache rest None w
  = relocation_value ly ob ALLOC info rel res sym addend place si cache' rest' None w.
Proof. unfold relocation_value. by destruct (ri_kind info). Qed.

Lemma plain_agrees rel st st1 next total : rtc (scan_step sr ALLOC) st0 st ->
  process_relocation sr ALLOC rel section false st = Ret (Ok (st1, next)) -> rtc (scan_step sr ALLOC) st1 st_f ->
  plain st_f section si total rel -> (forall p, 0 <= sc_sizes st p < 2 ^ 64 - 24) ->
  next = Normal /\ exists e, (forall p, sc_sizes st1 p = sc_sizes st p + size_of e p /\ 0 <= size_of e p <= 24) /\
    forall out w cache rest, len out = total -> fits (sr_relr sr) e w ->
      fills out w e (apply_relocation ly ob ALLOC uleb (rl_offset rel) rel si out w cache rest None).
Proof.
  intros Hs0 Hp Hs1 (sym & row & relax & Hpl) Hroom.
  assert (grows st st_f) as Hg by (etransitivity; [by eapply process_grows|by eapply steps_grow]).
  destruct (plain_chosen _ _ _ _ _ _ _ _ _ Hpl Hg) as [Hc Hi].
  split; [by eapply plain_next|].
  destruct (scanned_relocation sr ALLOC st0 st st1 st_f ly ob rel section next sym _ _ (rl_addend rel) (u64 (section_address si + rl_offset rel))
    si (mkCache None []) [] None Hstart Hs0 Hp Hs1 Hlo (pr_symbol _ _ _ _ _ _ _ _ Hpl) Hc Hi (pr_kind _ _ _ _ _ _ _ _ Hpl)) as (res & v & e & Hres & Hsz & Hv);
    try done.
  { intros E. by destruct (pr_needs _ _ _ _ _ _ _ _ Hpl). }
  { eapply well_placed_value, (pr_placed _ _ _ _ _ _ _ _ Hpl). symmetry. by apply reference_same_value. }
  exists e. split; [exact Hsz|]. intros out w cache rest <- Hf. eapply plain_applied; try done. rewrite <- (Hv w Hf).
  apply value_alone, (pr_kind _ _ _ _ _ _ _ _ Hpl).
Qed.

Lemma loops_agree relocations st st' total c : rtc (scan_step sr ALLOC) st0 st ->
  scan_loop sr ALLOC relocations section Normal st = Ret (Ok st') ->
  rtc (scan_step sr ALLOC) st' st_f -> Forall (plain st_f section si total) relocations ->
  (forall p, 0 <= sc_sizes st p /\ sc_sizes st p + 24 * len relocations < 2 ^ 64) ->
  exists e, (forall p, sc_sizes st' p = sc_sizes st p + size_of e p) /\
    forall out w cache, len out = total -> fits (sr_relr sr) e w ->
      section_fills out w e (apply_loop ly ob ALLOC uleb relocations si None c Normal cache out w).
Proof.
  revert st. induction relocations as [|rel relocations IH]; intros st Hs0 Hl Hs1 Hpl Hroom; cbn [scan_loop] in Hl.
  - injection Hl as <-. exists nothing. split; [intros p; rewrite size_nothing; lia|]. intros out w cache _ _. right. exists out.
    by rewrite extend_nothing.
  - apply Forall_cons in Hpl as [Hpl Hpls]. rewrite len_cons in Hroom. pose proof (len_nonneg relocations).
    destruct (process_relocation _ _ _ _ _ _) as [[[st1 next]|]|] eqn:E; try discriminate Hl.
    assert (rtc (scan_step sr ALLOC) st0 st1) as Hs01 by (eapply rtc_r; [done|by econstructor]).
    assert (rtc (scan_step sr ALLOC) st1 st_f) as Hs1f by (etransitivity; [by eapply loop_steps|done]).
    destruct (plain_agrees _ _ _ _ _ Hs0 E Hs1f Hpl) as (-> & d & Hd & Hw); [intros p; specialize (Hroom p); lia|].
    destruct (IH st1 Hs01 Hl Hs1 Hpls) as (e & He & Hws); [intros p; specialize (Hroom p); specialize (Hd p); lia|].
    exists (join d e). split; [intros p; rewrite size_join, He, (proj1 (Hd p)); lia|].
    intros out w cache Ho [Hfd Hfe]%fits_join. cbn [apply_loop opt_input_to_output].
    match goal with |- context [x ← ?s; @?k x] => assert (exists symbols, s = Ret symbols) as [symbols ->] by (destruct (bool_decide _); by eexists) end.
    cbn [mbind outcome_bind].
    destruct (Hw out w (mkCache (previous cache) symbols) relocations Ho Hfd) as [[err ->]|(out1 & -> & Hl1)]; [left; by exists err|].
    cbn [done_with]. destruct (Hws out1 (extend d w) (mkCache (Some rel) symbols)) as [Herr|(out2 & -> & Hl2)]; [congruence|done|by left|right].
    exists out2. rewrite extend_join. split; [done|congruence].
Qed.

(** C12. A section that was scanned can be written, and what was reserved for it is used up.  Scan the relocations of any
    sections in any order, from a state in which no symbol has been asked for, with the relocations of one section among
    them; let layout hand out addresses for the final flags.  When the relocations of that section are plain (each has a
    symbol, rewrites no instruction, depends on no other relocation, is well placed and inside the section), there is
    one sequence of dynamic relocations such that the scan of the section reserved exactly its size, and applying the
    relocations of the section, with any tables that have room for it, does not panic, misses no address, no table entry
    and no symbol, and appends exactly that sequence to the tables, unless a value does not fit its field. *)
Theorem scanned_section_written relocations st st' total :
  rtc (scan_step sr ALLOC) st0 st -> load_section_relocations sr ALLOC relocations section st = Ret (Ok st') ->
  rtc (scan_step sr ALLOC) st' st_f -> Forall (plain st_f section si total) relocations ->
  (forall p, 0 <= sc_sizes st p /\ sc_sizes st p + 24 * len relocations < 2 ^ 64) ->
  exists e, (forall p, sc_sizes st' p = sc_sizes st p + size_of e p) /\
    forall out w, len out = total -> fits (sr_relr sr) e w ->
      section_fills out w e (apply_relocations ly ob ALLOC uleb relocations si None out w).
Proof.
  intros Hs0 Hl Hs1 Hpl Hroom. destruct (loops_agree _ _ _ _ cursor Hs0 Hl Hs1 Hpl Hroom) as (e & He & Hw).
  exists e. split; [done|]. intros out w Ho Hf. by apply Hw.
Qed.
End run.
End sections.

(** ** References that the two sides count differently *)

(** A reference of another kind than an absolute one, from writable data to a symbol that can be interposed: the scan makes
    room for a dynamic relocation, the writer writes none, and the room left over is an error. *)
Lemma direct_reference_over_reserved `{A : Arch} sr ALLOC info flags off section debug st :
  flags_contain (ss_flags section) ALLOC = true -> ss_writable section = true -> is_interposable flags = true ->
  needs_direct (resolution_flags (ri_kind info)) = true -> is_tls (ri_kind info) = false -> is_Absolute (ri_kind info) = false ->
  reserve sr ALLOC (ri_kind info) flags off section debug st
    = Ret (Ok (resolution_flags (ri_kind info), allocate RELA_DYN_GENERAL RELA_ENTRY_SIZE st)) /\
  forall ly ob rel res sym addend place si cache rest relax_deltas w v w',
    relocation_value ly ob ALLOC info rel res sym addend place si cache rest relax_deltas w = done_with (v, w') -> w' = w.
Proof.
  intros Ha Hw Hi Hd Ht Hk. split; [unfold reserve; by rewrite Ha, Ht, Hd, Hi, Hw|].
  intros ly ob rel res sym addend place si cache rest rd w v w' H. unfold relocation_value in H.
  destruct (ri_kind info); try discriminate Hk; repeat case_match; try discriminate H; by injection H.
Qed.

(** ** x86_64 *)

(** The relocation types whose instruction may be rewritten. *)
Definition rewrites (r : x86_64_reloc) : bool :=
  match r with
  | R_X86_64_GOTPCREL | R_X86_64_GOTPCRELX | R_X86_64_REX_GOTPCRELX | R_X86_64_CODE_4_GOTPCRELX
  | R_X86_64_GOTTPOFF | R_X86_64_CODE_4_GOTTPOFF | R_X86_64_CODE_6_GOTTPOFF | R_X86_64_TLSGD | R_X86_64_TLSLD
  | R_X86_64_GOTPC32_TLSDESC | R_X86_64_CODE_4_GOTPC32_TLSDESC | R_X86_64_TLSDESC_CALL => true
  | _ => false
  end.

Section x86_64.
Context (num : x86_64_reloc -> Z) (num_inj : forall a b, num a = num b -> a = b) (EXECINSTR : Z).

Definition got_offset_row : RelocationKindInfo := mkInfo SymRelGotBase (ByteSize 8) None no_check 1 0.

Lemma choose_rows m : choose num NoOp R_X86_64_PLT32 m = Ret (Some (mkRelaxation NoOp (signed_row PltRelative) m)) /\
  choose num NoOp R_X86_64_PC32 m = Ret (Some (mkRelaxation NoOp (signed_row Relative) m)) /\
  choose num NoOp R_X86_64_GOTOFF64 m = Ret (Some (mkRelaxation NoOp got_offset_row m)).
Proof. unfold choose. rewrite !(row_of num num_inj). vm_compute. done. Qed.

(** The others: the choice is made from the type and the symbol alone. *)
Definition kept_choice (o : OutputKind) (sf : Z) (r : x86_64_reloc) (flags : Z) : option Relaxation :=
  if is_ifunc flags then
    match r with R_X86_64_PC32 => Some (mkRelaxation NoOp (signed_row PltRelative) true) | _ => None end
  else if negb (flags_contain sf EXECINSTR) then None
  else if is_interposable flags then None
  else match r with
       | R_X86_64_PLT32 => Some (mkRelaxation NoOp (signed_row Relative) (is_static_executable o))
       | R_X86_64_PLTOFF64 => Some (mkRelaxation NoOp got_offset_row (is_static_executable o))
       | _ => None
       end.

Lemma kept_choice_kind o sf r flags rx : kept_choice o sf r flags = Some rx -> rx_kind rx = NoOp.
Proof. unfold kept_choice. intros H. repeat case_match; try discriminate H; by injection H as <-. Qed.

Lemma x86_leaves_bytes sr sf r flags : rewrites r = false ->
  @leaves_bytes (x86_64_arch num EXECINSTR) sr sf (num r) flags (option_map as_relaxation (kept_choice (sr_output_kind sr) sf r flags)).
Proof.
  intros Hr. unfold leaves_bytes. cbn [new_relaxation_of x86_64_arch]. split.
  - intros d offset flags' nz Hv. unfold x86_64_new_relaxation, new_relaxation, relax_code, relax_tls, kept_choice.
    set (m := is_static_executable (sr_output_kind sr)). destruct (choose_rows true) as (E1 & _ & _), (choose_rows m) as (_ & E2 & E3).
    rewrite (is_ifunc_proper _ _ Hv), (is_interposable_proper _ _ Hv), !(arm_eq num num_inj), E1, E2, E3.
    destruct (is_ifunc flags); [|destruct (negb (flags_contain sf EXECINSTR)); [|destruct (is_interposable flags)]];
      destruct r; try discriminate Hr; reflexivity.
  - destruct (kept_choice _ _ _ _) as [rx|] eqn:E; [|done]. cbn. by rewrite (kept_choice_kind _ _ _ _ _ E).
Qed.

(** The LEA of a descriptor that is not relaxed and the call of it that is: in an executable, the call after the
    [R_X86_64_CODE_4_GOTPC32_TLSDESC] form for a symbol that can be interposed is skipped although the LEA stays. *)
Lemma tlsdesc_call_skipped_alone d offset d' offset' flags o sf : flags_contain sf EXECINSTR = true -> is_ifunc flags = false ->
  is_interposable flags = true -> is_executable o = true ->
  new_relaxation num EXECINSTR (num R_X86_64_CODE_4_GOTPC32_TLSDESC) d offset flags o sf = Ret None /\
  exists rx, new_relaxation num EXECINSTR (num R_X86_64_TLSDESC_CALL) d' offset' flags o sf = Ret (Some rx) /\ rx_kind rx = SkipTlsDescCall.
Proof.
  intros Hs Hf Hi Ho. unfold new_relaxation, relax_code, relax_tls. rewrite Hf, Hs, Hi, Ho, !(arm_eq num num_inj). split; [reflexivity|].
  exists (mkRelaxation SkipTlsDescCall (mkInfo KNone (ByteSize 0) None no_check 1 0) (is_static_executable o)). split; [|done].
  transitivity (choose num SkipTlsDescCall R_X86_64_NONE (is_static_executable o)); [reflexivity|].
  unfold choose. rewrite (row_of num num_inj). vm_compute. done.
Qed.
End x86_64.

(** ** A section of data *)

(** A position-independent executable with RELR.  The symbol 1 is local, the symbol 2 comes from a shared object. *)
Definition data_resources : ScanResources :=
  mkResources (DynamicExecutable Relocatable) true true true id id (fun _ => false) false false (fun _ => false) (fun _ => false).
Definition data_start : ScanState :=
  mkScan (fun _ => 0) (fun id => if id =? 2 then DYNAMIC else NON_INTERPOSABLE) false false [] [] [].
Definition data_section : ScanSection := mkScanSection 3 true (repeat 0 40).
Definition data_info : SectionInfo := mkSection 0x3000 true 3.

(** Two pointers to the symbol 1, one of them at an odd offset, a pointer to the symbol 2 and an offset to the symbol 1. *)
Definition data_relocations : list Reloc := [
  mkReloc 0 (abi_num R_X86_64_64) 4 (Some 1); mkReloc 9 (abi_num R_X86_64_64) 0 (Some 1);
  mkReloc 24 (abi_num R_X86_64_64) 0 (Some 2); mkReloc 32 (abi_num R_X86_64_PC32) 0 (Some 1)].

Definition data_resolution (id : Z) : option Resolution :=
  if id =? 1 then Some (mkResolution 0x2000 None None None (Z.lor NON_INTERPOSABLE DIRECT))
  else if id =? 2 then Some (mkResolution 0 (Some 5) None None (Z.lor DYNAMIC DIRECT)) else None.
Definition data_scanned : ScanState :=
  match @load_section_relocations (x86_64_arch abi_num 4) data_resources 2 data_relocations data_section data_start with
  | Ret (Ok st) => st | _ => data_start end.
Definition data_layout : ElfLayout :=
  mkLayout (DynamicExecutable Relocatable) true 0 0 0 0 None id data_resolution (sc_flags data_scanned).
Definition data_object : ObjectLayout := mkObject id (fun _ => None) (fun _ _ => Ok None).

Lemma data_laid_out : laid_out data_resources data_scanned data_layout data_object.
Proof.
  split; try done; [|by eexists]. intros id.
  assert (sc_flags data_scanned id = if id =? 1 then Z.lor NON_INTERPOSABLE DIRECT
    else if id =? 2 then Z.lor DYNAMIC DIRECT else NON_INTERPOSABLE) as ->.
  { transitivity (sc_flags (or_flags 1 DIRECT (or_flags 2 DIRECT (or_flags 1 DIRECT (or_flags 1 DIRECT data_start)))) id); [reflexivity|].
    cbn [sc_flags or_flags data_start]. destruct (Z.eqb_spec id 1) as [->|]; [done|]. by destruct (id =? 2). }
  cbn [ly_resolutions data_layout]. unfold data_resolution.
  destruct (id =? 1); [|destruct (id =? 2); [|done]]; intros _; eexists _, _, _, (fun _ => 0), _; (split; [done|]); (split; [reflexivity|]); by eauto.
Qed.

Ltac plain_data r sym row :=
  exists sym, row, None; constructor; try reflexivity; try discriminate;
  [ apply (x86_leaves_bytes abi_num abi_num_inj 4 data_resources 3 r (reference_flags data_resources sym data_scanned) eq_refl)
  | constructor; vm_compute; intros; try discriminate; reflexivity
  | constructor; [ cbn; lia | intros n [= <-]; lia | cbn; lia | cbn; lia | discriminate ] ].

Lemma data_plain : Forall (fun rel => exists sym row relax,
  @plain_relocation (x86_64_arch abi_num 4) data_resources data_scanned data_section data_info 40 rel sym row relax) data_relocations.
Proof.
  repeat apply Forall_cons_2; [| | | |apply Forall_nil_2].
  - plain_data R_X86_64_64 1 (mkInfo Absolute (ByteSize 8) None no_check 1 0).
  - plain_data R_X86_64_64 1 (mkInfo Absolute (ByteSize 8) None no_check 1 0).
  - plain_data R_X86_64_64 2 (mkInfo Absolute (ByteSize 8) None no_check 1 0).
  - plain_data R_X86_64_PC32 1 (signed_row Relative).
Qed.

(** The section is written, with one entry in each of the three tables. *)
Lemma scanned_section_written_witness : exists e,
  (len (ef_relr e), len (ef_relative e), len (ef_general e)) = (1, 1, 1) /\
  exists out, @apply_relocations (x86_64_arch abi_num 4) data_layout data_object 2 (fun _ => []) data_relocations data_info None (repeat 0 40)
      (new_writer true (sc_sizes data_scanned)) = done_with (out, extend e (new_writer true (sc_sizes data_scanned))).
Proof.
  destruct (@scanned_section_written (x86_64_arch abi_num 4) data_resources 2 (fun _ => []) data_start data_scanned data_layout data_object
    data_section data_info ltac:(intros id; cbn; by destruct (id =? 2)) data_laid_out eq_refl eq_refl eq_refl eq_refl
    data_relocations data_start data_scanned 40 (rtc_refl _ _) ltac:(reflexivity) (rtc_refl _ _) data_plain
    ltac:(intros p; vm_compute; split; [discriminate|reflexivity])) as (e & He & Hw).
  assert (forall p n, sc_sizes data_scanned p = n -> size_of e p = n) as Hsz by (intros p n <-; by rewrite He).
  pose proof (Hsz GOT_PART 0 eq_refl) as H1. pose proof (Hsz PLT_GOT 0 eq_refl) as H2. pose proof (Hsz RELA_PLT 0 eq_refl) as H3.
  pose proof (Hsz RELA_DYN_RELATIVE 24 eq_refl) as H4. pose proof (Hsz RELA_DYN_GENERAL 24 eq_refl) as H5. pose proof (Hsz RELR_DYN 8 eq_refl) as H6.
  cbn [size_of] in *. unfold GOT_ENTRY_SIZE, PLT_ENTRY_SIZE, RELA_ENTRY_SIZE, RELR_ENTRY_SIZE in *.
  exists e. split; [do 2 f_equal; lia|].
  destruct (Hw (repeat 0 40) (new_writer true (sc_sizes data_scanned)) eq_refl) as [[err E]|(out & E & _)]; [| |by exists out].
  - unfold fits. vm_compute (new_writer _ _). cbn [tw_got tw_plt_got tw_rela_plt tw_rela_dyn_relative tw_rela_dyn_general tw_relr_dyn left_over]. repeat split; lia.
  - exfalso. vm_compute in E. discriminate E.
Defined.
