(* ===== verification/OutputOrder.v ===== *)
(** Output sections, their parts, the order in which they are written and the program
    segments that cover them ([libwild/src/part_id.rs], [output_section_id.rs],
    [program_segments.rs], [output_section_part_map.rs] and the tables of [elf.rs]). *)
From stdpp Require Import base numbers list.
From S2P Require Import Prelude ValueFlags Alignment.
Open Scope Z_scope.

(** ** Sections and parts *)

(** Sections that the linker makes have one part; the others have a part for each alignment, the largest first. *)
Definition NUM_SINGLE_PART_SECTIONS : Z := 38.
Definition NUM_BUILT_IN_REGULAR_SECTIONS : Z := 16.
Definition NUM_BUILT_IN_SECTIONS : Z := NUM_SINGLE_PART_SECTIONS + NUM_BUILT_IN_REGULAR_SECTIONS.

Definition output_section_id (part : Z) : Z :=
  if part <? NUM_SINGLE_PART_SECTIONS then part
  else u32 (u32 (part - NUM_SINGLE_PART_SECTIONS) / NUM_ALIGNMENTS + NUM_SINGLE_PART_SECTIONS).

Definition part_offset (part n : Z) : Z := u32 (part + u32 n).

Definition num_parts (id : Z) : Z := if id <? NUM_SINGLE_PART_SECTIONS then 1 else NUM_ALIGNMENTS.

Definition base_part_id (id : Z) : Z :=
  if id <? NUM_SINGLE_PART_SECTIONS then id
  else u32 (NUM_SINGLE_PART_SECTIONS + u32 (u32 (id - NUM_SINGLE_PART_SECTIONS) * NUM_ALIGNMENTS)).

(** The parts of a section, in order. *)
Definition part_ids (id : Z) : list Z := (fun n => part_offset (base_part_id id) (Z.of_nat n)) <$> seq 0 (Z.to_nat (num_parts id)).

Definition part_id_with_alignment (id : Z) (a : Alignment) : outcome Z :=
  if id <? NUM_SINGLE_PART_SECTIONS then Panic
  else Ret (u32 (NUM_SINGLE_PART_SECTIONS + (id - NUM_SINGLE_PART_SECTIONS) * NUM_ALIGNMENTS + NUM_ALIGNMENTS - 1 - exponent a)).

Definition is_custom (id : Z) : bool := NUM_BUILT_IN_SECTIONS <=? id.

Module Id.
Definition FILE_HEADER : Z := 0.
Definition PROGRAM_HEADERS : Z := 1.
Definition SECTION_HEADERS : Z := 2.
Definition SHSTRTAB : Z := 3.
Definition STRTAB : Z := 4.
Definition GOT : Z := 5.
Definition PLT_GOT : Z := 6.
Definition RELA_PLT : Z := 7.
Definition EH_FRAME : Z := 8.
Definition EH_FRAME_HDR : Z := 9.
Definition SFRAME : Z := 10.
Definition DYNAMIC : Z := 11.
Definition HASH : Z := 12.
Definition GNU_HASH : Z := 13.
Definition DYNSYM : Z := 14.
Definition DYNSTR : Z := 15.
Definition INTERP : Z := 16.
Definition GNU_VERSION : Z := 17.
Definition GNU_VERSION_D : Z := 18.
Definition GNU_VERSION_R : Z := 19.
Definition NOTE_GNU_PROPERTY : Z := 20.
Definition NOTE_GNU_BUILD_ID : Z := 21.
Definition SYMTAB_LOCAL : Z := 22.
Definition SYMTAB_GLOBAL : Z := 23.
Definition RELA_DYN_RELATIVE : Z := 24.
Definition RELA_DYN_GENERAL : Z := 25.
Definition RISCV_ATTRIBUTES : Z := 26.
Definition RELRO_PADDING : Z := 27.
Definition RELR_DYN : Z := 28.
Definition SYMTAB_SHNDX_LOCAL : Z := 29.
Definition SYMTAB_SHNDX_GLOBAL : Z := 30.
Definition regular (n : Z) : Z := NUM_SINGLE_PART_SECTIONS + n.
Definition RODATA : Z := regular 0.
Definition INIT_ARRAY : Z := regular 1.
Definition FINI_ARRAY : Z := regular 2.
Definition PREINIT_ARRAY : Z := regular 3.
Definition TEXT : Z := regular 4.
Definition INIT : Z := regular 5.
Definition FINI : Z := regular 6.
Definition DATA : Z := regular 7.
Definition TDATA : Z := regular 8.
Definition TBSS : Z := regular 9.
Definition BSS : Z := regular 10.
Definition COMMENT : Z := regular 11.
Definition GCC_EXCEPT_TABLE : Z := regular 12.
Definition NOTE_ABI_TAG : Z := regular 13.
Definition DATA_REL_RO : Z := regular 14.
End Id.

(** ** What is known of a section *)

(** The section types that layout tells apart. *)
Inductive SectionType := NOBITS | NOTE | RISCV_ATTRIBUTES_TYPE | OTHER_TYPE.
Record SectionAttributes := mkAttributes { is_alloc : bool; at_writable : bool; at_executable : bool; at_tls : bool; at_ty : SectionType }.
Definition is_no_bits (a : SectionAttributes) : bool := match at_ty a with NOBITS => true | _ => false end.
Definition is_note (a : SectionAttributes) : bool := match at_ty a with NOTE => true | _ => false end.

Inductive SectionKind := Primary | Secondary (primary : Z).

Record SectionOutputInfo := mkSectionInfo {
  so_kind : SectionKind; section_attributes : SectionAttributes; so_min_alignment : Alignment;
  so_location : option Z; so_secondary_order : option Z }.

(** The infos of all sections (ids are handed out by the map that holds them, so a lookup finds one), the base address
    and the indexes of the sections that are written. *)
Record OutputSections := mkSections { base_address : Z; output_info : Z -> SectionOutputInfo; output_section_index : Z -> option Z }.

Definition merge_target (os : OutputSections) (id : Z) : option Z :=
  match so_kind (output_info os id) with Primary => None | Secondary p => Some p end.
Definition primary_output_section (os : OutputSections) (id : Z) : Z := default id (merge_target os id).
Definition min_alignment (os : OutputSections) (id : Z) : Alignment := so_min_alignment (output_info os id).
Definition section_flags (os : OutputSections) (id : Z) : SectionAttributes := section_attributes (output_info os id).

(** TLS sections have data in the file even when they are NOBITS. *)
Definition has_data_in_file (os : OutputSections) (id : Z) : bool :=
  let attributes := section_attributes (output_info os id) in negb (is_no_bits attributes) || at_tls attributes.

(** [PartId::alignment]. *)
Definition part_alignment (os : OutputSections) (part : Z) : Alignment :=
  if part <? NUM_SINGLE_PART_SECTIONS then min_alignment os (output_section_id part)
  else mkAlignment (u8 (NUM_ALIGNMENTS - 1 - (part - NUM_SINGLE_PART_SECTIONS) mod NUM_ALIGNMENTS)).

Definition alignment_min (a b : Alignment) : Alignment := mkAlignment (Z.min (exponent a) (exponent b)).
Definition alignment_max (a b : Alignment) : Alignment := mkAlignment (Z.max (exponent a) (exponent b)).

(** [OutputSectionPartMap::max_alignment]: the alignment of the first part that is not empty, but not below the minimum. *)
Definition max_alignment (os : OutputSections) (sizes : Z -> Z) (id : Z) : Alignment :=
  alignment_max
    match list_find (fun p => sizes p <> 0) (part_ids id) with
    | Some (_, p) => part_alignment os p
    | None => MIN
    end
    (min_alignment os (output_section_id (base_part_id id))).

(** ** Segments *)

Inductive SegmentType :=
| PHDR | INTERP | PT_NOTE | GNU_PROPERTY | LOAD | PT_TLS | GNU_EH_FRAME | GNU_SFRAME | PT_DYNAMIC | GNU_RELRO | PT_RISCV_ATTRIBUTES | GNU_STACK.
#[export] Instance segment_type_eq_dec : EqDecision SegmentType.
Proof. solve_decision. Defined.

Record ProgramSegmentDef := mkSegment { segment_type : SegmentType; sd_writable : bool; sd_executable : bool }.
Definition is_loadable (d : ProgramSegmentDef) : bool := bool_decide (segment_type d = LOAD).
Definition is_stack (d : ProgramSegmentDef) : bool := bool_decide (segment_type d = GNU_STACK).
Definition is_tls_def (d : ProgramSegmentDef) : bool := bool_decide (segment_type d = PT_TLS).
Definition should_cut_rw_segment_when_ending (d : ProgramSegmentDef) : bool := bool_decide (segment_type d = GNU_RELRO).

Definition PROGRAM_SEGMENT_DEFS : list ProgramSegmentDef := [
  mkSegment PHDR false false; mkSegment INTERP false false; mkSegment PT_NOTE false false; mkSegment GNU_PROPERTY false false;
  mkSegment LOAD false false; mkSegment LOAD false true; mkSegment LOAD true false; mkSegment PT_TLS false false;
  mkSegment GNU_EH_FRAME false false; mkSegment GNU_SFRAME false false; mkSegment PT_DYNAMIC true false;
  mkSegment GNU_RELRO false false; mkSegment PT_RISCV_ATTRIBUTES false false ].
Definition UNCONDITIONAL_SEGMENT_DEFS : list ProgramSegmentDef := [ mkSegment GNU_STACK true false ].

(** The built-in sections: what layout uses of [SECTION_DEFINITIONS]. *)
Record BuiltInSectionDetails := mkDetails {
  bd_kind : SectionKind; bd_attributes : SectionAttributes; bd_min_alignment : Alignment; is_relro : bool; target_segment_type : option SegmentType }.

Inductive OrderEvent := SegmentStart (segment : Z) | SegmentEnd (segment : Z) | OutputSection (id : Z) | SetLocation (address : Z).

Definition no_attributes : SectionAttributes := mkAttributes false false false false OTHER_TYPE.
Definition DEFAULT_DEFS : BuiltInSectionDetails := mkDetails Primary no_attributes MIN false None.

Definition SECTION_DEFINITIONS : list (Z * BuiltInSectionDetails) := [
  (Id.FILE_HEADER, mkDetails Primary (mkAttributes true false false false OTHER_TYPE) (mkAlignment 0) false None);
  (Id.PROGRAM_HEADERS, mkDetails Primary (mkAttributes true false false false OTHER_TYPE) (mkAlignment 3) false (Some PHDR));
  (Id.SECTION_HEADERS, mkDetails Primary (mkAttributes true false false false OTHER_TYPE) (mkAlignment 0) false None);
  (Id.SHSTRTAB, mkDetails Primary (mkAttributes false false false false OTHER_TYPE) (mkAlignment 0) false None);
  (Id.STRTAB, mkDetails Primary (mkAttributes false false false false OTHER_TYPE) (mkAlignment 0) false None);
  (Id.GOT, mkDetails Primary (mkAttributes true true false false OTHER_TYPE) (mkAlignment 3) true None);
  (Id.PLT_GOT, mkDetails Primary (mkAttributes true false true false OTHER_TYPE) (mkAlignment 4) false None);
  (Id.RELA_PLT, mkDetails Primary (mkAttributes true false false false OTHER_TYPE) (mkAlignment 3) false None);
  (Id.EH_FRAME, mkDetails Primary (mkAttributes true false false false OTHER_TYPE) (mkAlignment 3) false None);
  (Id.EH_FRAME_HDR, mkDetails Primary (mkAttributes true false false false OTHER_TYPE) (mkAlignment 2) false (Some GNU_EH_FRAME));
  (Id.SFRAME, mkDetails Primary (mkAttributes true false false false OTHER_TYPE) (mkAlignment 3) false (Some GNU_SFRAME));
  (Id.DYNAMIC, mkDetails Primary (mkAttributes true true false false OTHER_TYPE) (mkAlignment 3) true (Some PT_DYNAMIC));
  (Id.HASH, mkDetails Primary (mkAttributes true false false false OTHER_TYPE) (mkAlignment 2) false None);
  (Id.GNU_HASH, mkDetails Primary (mkAttributes true false false false OTHER_TYPE) (mkAlignment 3) false None);
  (Id.DYNSYM, mkDetails Primary (mkAttributes true false false false OTHER_TYPE) (mkAlignment 3) false None);
  (Id.DYNSTR, mkDetails Primary (mkAttributes true false false false OTHER_TYPE) (mkAlignment 0) false None);
  (Id.INTERP, mkDetails Primary (mkAttributes true false false false OTHER_TYPE) (mkAlignment 0) false (Some INTERP));
  (Id.GNU_VERSION, mkDetails Primary (mkAttributes true false false false OTHER_TYPE) (mkAlignment 1) false None);
  (Id.GNU_VERSION_D, mkDetails Primary (mkAttributes true false false false OTHER_TYPE) (mkAlignment 3) false None);
  (Id.GNU_VERSION_R, mkDetails Primary (mkAttributes true false false false OTHER_TYPE) (mkAlignment 3) false None);
  (Id.NOTE_GNU_PROPERTY, mkDetails Primary (mkAttributes true false false false NOTE) (mkAlignment 3) false (Some GNU_PROPERTY));
  (Id.NOTE_GNU_BUILD_ID, mkDetails Primary (mkAttributes true false false false NOTE) (mkAlignment 2) false None);
  (Id.SYMTAB_LOCAL, mkDetails Primary (mkAttributes false false false false OTHER_TYPE) (mkAlignment 3) false None);
  (Id.SYMTAB_GLOBAL, mkDetails (Secondary Id.SYMTAB_LOCAL) (mkAttributes false false false false OTHER_TYPE) (mkAlignment 0) false None);
  (Id.RELA_DYN_RELATIVE, mkDetails Primary (mkAttributes true false false false OTHER_TYPE) (mkAlignment 3) false None);
  (Id.RELA_DYN_GENERAL, mkDetails (Secondary Id.RELA_DYN_RELATIVE) (mkAttributes false false false false OTHER_TYPE) (mkAlignment 0) false None);
  (Id.RELR_DYN, mkDetails Primary (mkAttributes true false false false OTHER_TYPE) (mkAlignment 3) false None);
  (Id.RISCV_ATTRIBUTES, mkDetails Primary (mkAttributes false false false false RISCV_ATTRIBUTES_TYPE) (mkAlignment 0) false (Some PT_RISCV_ATTRIBUTES));
  (Id.RELRO_PADDING, mkDetails Primary (mkAttributes true true false false NOBITS) (mkAlignment 0) true None);
  (Id.SYMTAB_SHNDX_LOCAL, mkDetails Primary (mkAttributes false false false false OTHER_TYPE) (mkAlignment 2) false None);
  (Id.SYMTAB_SHNDX_GLOBAL, mkDetails (Secondary Id.SYMTAB_SHNDX_LOCAL) (mkAttributes false false false false OTHER_TYPE) (mkAlignment 0) false None);
  (Id.RODATA, mkDetails Primary (mkAttributes true false false false OTHER_TYPE) (mkAlignment 0) false None);
  (Id.INIT_ARRAY, mkDetails Primary (mkAttributes true true false false OTHER_TYPE) (mkAlignment 3) true None);
  (Id.FINI_ARRAY, mkDetails Primary (mkAttributes true true false false OTHER_TYPE) (mkAlignment 3) true None);
  (Id.PREINIT_ARRAY, mkDetails Primary (mkAttributes true true false false OTHER_TYPE) (mkAlignment 0) true None);
  (Id.TEXT, mkDetails Primary (mkAttributes true false true false OTHER_TYPE) (mkAlignment 0) false None);
  (Id.INIT, mkDetails Primary (mkAttributes true false true false OTHER_TYPE) (mkAlignment 0) false None);
  (Id.FINI, mkDetails Primary (mkAttributes true false true false OTHER_TYPE) (mkAlignment 0) false None);
  (Id.DATA, mkDetails Primary (mkAttributes true true false false OTHER_TYPE) (mkAlignment 0) false None);
  (Id.TDATA, mkDetails Primary (mkAttributes true true false true OTHER_TYPE) (mkAlignment 0) false None);
  (Id.TBSS, mkDetails Primary (mkAttributes true true false true NOBITS) (mkAlignment 0) false None);
  (Id.BSS, mkDetails Primary (mkAttributes true true false false NOBITS) (mkAlignment 0) false None);
  (Id.COMMENT, mkDetails Primary (mkAttributes false false false false OTHER_TYPE) (mkAlignment 0) false None);
  (Id.GCC_EXCEPT_TABLE, mkDetails Primary (mkAttributes true false false false OTHER_TYPE) (mkAlignment 0) false None);
  (Id.NOTE_ABI_TAG, mkDetails Primary (mkAttributes true false false false NOTE) (mkAlignment 0) false None);
  (Id.DATA_REL_RO, mkDetails Primary (mkAttributes true true false false OTHER_TYPE) (mkAlignment 0) true None) ].

(** [opt_built_in_details]: the Mach-O sections have the default details. *)
Fixpoint find_details (rows : list (Z * BuiltInSectionDetails)) (id : Z) : BuiltInSectionDetails :=
  match rows with [] => DEFAULT_DEFS | (i, d) :: rows => if i =? id then d else find_details rows id end.
Definition opt_built_in_details (id : Z) : option BuiltInSectionDetails :=
  if (0 <=? id) && (id <? NUM_BUILT_IN_SECTIONS) then Some (find_details SECTION_DEFINITIONS id) else None.

(** [built_in_section_infos]. *)
Definition built_in_info (id : Z) : SectionOutputInfo :=
  let d := default DEFAULT_DEFS (opt_built_in_details id) in
  mkSectionInfo (bd_kind d) (bd_attributes d) (bd_min_alignment d) None None.

(** [ProgramSegmentDef::should_include_section]. *)
Definition should_include_section (d : ProgramSegmentDef) (info : SectionOutputInfo) (id : Z) : bool :=
  let a := section_attributes info in
  match segment_type d with
  | PT_NOTE => is_note a
  | PT_TLS => at_tls a
  | LOAD => is_alloc a && Bool.eqb (at_writable a) (sd_writable d) && Bool.eqb (at_executable a) (sd_executable d)
  | GNU_RELRO => at_tls a || match opt_built_in_details id with Some b => is_relro b | None => false end
  | other =>
      match opt_built_in_details id with
      | Some b => match target_segment_type b with Some t => bool_decide (t = other) | None => false end
      | None => false
      end
  end.

(** ** The order *)

(** A stable sort, by [le] on keys. *)
Fixpoint insert_by {A} (le : A -> A -> bool) (x : A) (l : list A) : list A :=
  match l with [] => [x] | y :: l => if le x y then x :: y :: l else y :: insert_by le x l end.
Definition sort_by {A} (le : A -> A -> bool) (l : list A) : list A := foldr (insert_by le) [] l.

Definition is_partial_object (o : OutputKind) : bool := match o with RelocatableObject => true | _ => false end.

(** [OutputOrderBuilder]: the events, the segments so far and the active one of each kind. *)
Record Builder := mkBuilder { bl_events : list OrderEvent; bl_segments : list ProgramSegmentDef; bl_active : list (option Z) }.

Section builder.
Context (o : OutputKind) (os : OutputSections) (secondary : Z -> list Z).

Definition new_builder : Builder := mkBuilder [] [] (repeat None (length PROGRAM_SEGMENT_DEFS)).
Definition push_events (events : list OrderEvent) (b : Builder) : Builder :=
  mkBuilder (bl_events b ++ events) (bl_segments b) (bl_active b).

Definition should_include_in_segment (id : Z) (d : ProgramSegmentDef) : bool := should_include_section d (output_info os id) id.

Definition should_end_current_rw_segment (id : Z) (b : Builder) : bool :=
  existsb (fun '(active, d) => match active with
                               | Some _ => should_cut_rw_segment_when_ending d && negb (should_include_in_segment id d)
                               | None => false
                               end) (zip (bl_active b) PROGRAM_SEGMENT_DEFS).

Definition end_rw_load_segment (b : Builder) : Builder :=
  match list_find (fun d => is_loadable d && sd_writable d && negb (sd_executable d)) PROGRAM_SEGMENT_DEFS with
  | Some (i, _) =>
      match bl_active b !! i with
      | Some (Some segment) => push_events [SegmentEnd segment] (mkBuilder (bl_events b) (bl_segments b) (<[i := None]> (bl_active b)))
      | _ => b
      end
  | None => b
  end.

(** The segments that are active, in the order of their kinds. *)
Definition active_ids (active : list (option Z)) : list Z := omap id active.

(** [ProgramSegments::add_segment]: ids have 8 bits. *)
Definition add_segment (d : ProgramSegmentDef) (segments : list ProgramSegmentDef) : outcome (Z * list ProgramSegmentDef) :=
  let id := Z.of_nat (length segments) in if id <? 2 ^ 8 then Ret (id, segments ++ [d]) else Panic.

(** The pass over the kinds: the segments to stop, those to start, the active ones and all segments. *)
Fixpoint switch_segments (id : Z) (defs : list ProgramSegmentDef) (active : list (option Z)) (segments : list ProgramSegmentDef)
  : outcome (list Z * list Z * list (option Z) * list ProgramSegmentDef) :=
  match defs, active with
  | d :: defs, a :: active =>
      match a, should_include_in_segment id d with
      | None, true =>
          '(new, segments) ← add_segment d segments;
          '(stop, start, active, segments) ← switch_segments id defs active segments;
          Ret (stop, new :: start, Some new :: active, segments)
      | Some s, false =>
          '(stop, start, active, segments) ← switch_segments id defs active segments;
          Ret (s :: stop, start, None :: active, segments)
      | a, _ =>
          '(stop, start, active, segments) ← switch_segments id defs active segments;
          Ret (stop, start, a :: active, segments)
      end
  | _, active => Ret ([], [], active, segments)
  end.

Definition start_stop_segments_for_section (id : Z) (b : Builder) : outcome (list Z * list Z * Builder) :=
  if is_partial_object o then Ret ([], [], b)
  else match merge_target os id with
       | Some _ => Ret ([], [], b)
       | None =>
           let '(stop, active) :=
             match so_location (output_info os id) with
             | Some _ => (active_ids (bl_active b), repeat None (length (bl_active b)))
             | None => ([], bl_active b)
             end in
           '(stop', start, active, segments) ← switch_segments id PROGRAM_SEGMENT_DEFS active (bl_segments b);
           Ret (stop ++ stop', start, mkBuilder (bl_events b) segments active)
       end.

(** The secondary sections of a section: those with a priority first, in its order. *)
Definition ordered_secondaries (id : Z) : list Z :=
  let priority s := default (2 ^ 16 - 1) (so_secondary_order (output_info os s)) in
  sort_by (fun s t => priority s <=? priority t) (secondary id).

Definition add_section (id : Z) (b : Builder) : outcome Builder :=
  let b := if should_end_current_rw_segment id b then end_rw_load_segment b else b in
  '(stop, start, b) ← start_stop_segments_for_section id b;
  let info := output_info os id in
  let location := match so_location info with
                  | Some address => if is_alloc (section_attributes info) then [SetLocation address] else []
                  | None => []
                  end in
  Ret (push_events (map SegmentEnd stop ++ location ++ map SegmentStart start ++ OutputSection id :: map OutputSection (ordered_secondaries id)) b).

Fixpoint add_sections (ids : list Z) (b : Builder) : outcome Builder :=
  match ids with [] => Ret b | id :: ids => b ← add_section id b; add_sections ids b end.

(** The segments without sections. *)
Fixpoint add_unconditional (defs : list ProgramSegmentDef) (b : Builder) : outcome Builder :=
  match defs with
  | [] => Ret b
  | d :: defs =>
      '(segment, segments) ← add_segment d (bl_segments b);
      add_unconditional defs (mkBuilder (bl_events b ++ [SegmentStart segment; SegmentEnd segment]) segments (bl_active b))
  end.

Definition build (b : Builder) : outcome (list OrderEvent * list ProgramSegmentDef) :=
  let b := push_events (map SegmentEnd (active_ids (bl_active b))) b in
  b ← (if is_partial_object o then Ret b else add_unconditional UNCONDITIONAL_SEGMENT_DEFS b);
  Ret (bl_events b, bl_segments b).

(** [CustomSectionIds]. *)
Record CustomSectionIds := mkCustom {
  cu_ro : list Z; cu_exec : list Z; cu_data : list Z; cu_bss : list Z; cu_nonalloc : list Z; cu_tdata : list Z; cu_tbss : list Z }.

(** The order of the sections of an ELF file. *)
Definition section_order (custom : CustomSectionIds) : list Z :=
  [Id.FILE_HEADER; Id.PROGRAM_HEADERS; Id.SECTION_HEADERS; Id.NOTE_GNU_PROPERTY; Id.NOTE_GNU_BUILD_ID; Id.INTERP; Id.NOTE_ABI_TAG; Id.HASH;
   Id.GNU_HASH; Id.DYNSYM; Id.DYNSTR; Id.GNU_VERSION; Id.GNU_VERSION_D; Id.GNU_VERSION_R; Id.RELA_DYN_RELATIVE; Id.RELR_DYN; Id.RELA_PLT;
   Id.RODATA; Id.EH_FRAME_HDR; Id.EH_FRAME; Id.SFRAME; Id.GCC_EXCEPT_TABLE] ++ cu_ro custom ++
  [Id.PLT_GOT; Id.TEXT; Id.INIT; Id.FINI] ++ cu_exec custom ++
  [Id.TDATA] ++ cu_tdata custom ++ [Id.TBSS] ++ cu_tbss custom ++
  [Id.INIT_ARRAY; Id.FINI_ARRAY; Id.PREINIT_ARRAY; Id.DATA_REL_RO; Id.DYNAMIC; Id.GOT; Id.RELRO_PADDING; Id.DATA] ++ cu_data custom ++
  [Id.BSS] ++ cu_bss custom ++ cu_nonalloc custom ++
  [Id.COMMENT; Id.RISCV_ATTRIBUTES; Id.SHSTRTAB; Id.SYMTAB_LOCAL; Id.SYMTAB_SHNDX_LOCAL; Id.STRTAB].

Definition build_output_order_and_program_segments (custom : CustomSectionIds) : outcome (list OrderEvent * list ProgramSegmentDef) :=
  b ← add_sections (section_order custom) new_builder;
  build b.
End builder.

(** The class of a custom section. *)
Definition classify (os : OutputSections) (id : Z) (c : CustomSectionIds) : CustomSectionIds :=
  let a := section_attributes (output_info os id) in
  let '(mkCustom ro exec data bss nonalloc tdata tbss) := c in
  if at_executable a then mkCustom ro (exec ++ [id]) data bss nonalloc tdata tbss
  else if at_tls a then
    if is_no_bits a then mkCustom ro exec data bss nonalloc tdata (tbss ++ [id]) else mkCustom ro exec data bss nonalloc (tdata ++ [id]) tbss
  else if negb (at_writable a) then
    if is_alloc a then mkCustom (ro ++ [id]) exec data bss nonalloc tdata tbss else mkCustom ro exec data bss (nonalloc ++ [id]) tdata tbss
  else if is_no_bits a then mkCustom ro exec data (bss ++ [id]) nonalloc tdata tbss
  else mkCustom ro exec (data ++ [id]) bss nonalloc tdata tbss.

(** [OutputSections::output_order], for [n] sections. *)
Definition secondaries_of (os : OutputSections) (ids : list Z) (primary : Z) : list Z :=
  filter (fun id => merge_target os id = Some primary) ids.
Definition custom_sections (os : OutputSections) (ids : list Z) : CustomSectionIds :=
  foldl (fun c id => match merge_target os id with
                     | Some _ => c
                     | None => if is_custom id then classify os id c else c
                     end) (mkCustom [] [] [] [] [] [] []) ids.
Definition output_order (o : OutputKind) (os : OutputSections) (n : nat) : outcome (list OrderEvent * list ProgramSegmentDef) :=
  let ids := Z.of_nat <$> seq 0 n in
  build_output_order_and_program_segments o os (secondaries_of os ids) (custom_sections os ids).
