(* ===== verification/AddressLayout.v ===== *)
(** Addresses and file offsets of sections and segments ([layout_section_parts],
    [compute_segment_alignments], [layout_sections], [merge_secondary_parts] and
    [compute_segment_layout] of [libwild/src/layout.rs]). *)
From stdpp Require Import base numbers list gmap.
From S2P Require Import Prelude ValueFlags Alignment OutputOrder.
Open Scope Z_scope.

Record OutputRecordLayout := mkRecord { file_size : Z; mem_size : Z; alignment : Alignment; file_offset : Z; mem_offset : Z }.
Definition no_record : OutputRecordLayout := mkRecord 0 0 MIN 0 0.

(** The arguments that layout reads. *)
Record LayoutArgs := mkLayoutArgs {
  loadable_segment_alignment : Alignment; should_output_partial_object : bool; writes_cache : bool; stack_size_override : option Z }.

(** Ids of segments are handed out by the vector that holds them, so a lookup finds one. *)
Definition segment_is (test : ProgramSegmentDef -> bool) (segments : list ProgramSegmentDef) (id : Z) : bool :=
  match segments !! Z.to_nat id with Some d => test d | None => false end.
Definition is_load_segment := segment_is is_loadable.
Definition is_stack_segment := segment_is is_stack.
Definition is_tls_segment := segment_is is_tls_def.

Section layout.
Context (os : OutputSections) (args : LayoutArgs) (segments : list ProgramSegmentDef).

(** ** Parts *)

Section parts.
Context (sizes : Z -> Z).

(** The greatest alignment in each LOAD segment. *)
Fixpoint segment_alignments_loop (events : list OrderEvent) (alignments : gmap Z Alignment) (active : list Z) : gmap Z Alignment :=
  match events with
  | [] => alignments
  | SegmentStart s :: events =>
      if is_load_segment segments s then
        let alignments := match alignments !! s with Some _ => alignments | None => <[s := loadable_segment_alignment args]> alignments end in
        segment_alignments_loop events alignments (active ++ [s])
      else segment_alignments_loop events alignments active
  | SegmentEnd s :: events => segment_alignments_loop events alignments (filter (fun id => id <> s) active)
  | OutputSection id :: events =>
      let a := max_alignment os sizes id in
      segment_alignments_loop events (foldl (fun m s => alter (fun x => alignment_max x a) s m) alignments active) active
  | SetLocation _ :: events => segment_alignments_loop events alignments active
  end.

Definition compute_segment_alignments (events : list OrderEvent) : gmap Z Alignment := segment_alignments_loop events ∅ [].

(** Where layout has got to: the file and memory offsets, the offsets of sections that are not in memory or are in a
    partial object, and the location to go to. *)
Record Cursor := mkCursor {
  at_file : Z; at_mem : Z; nonalloc_mem_offsets : Z -> Z; reloc_alloc_mem_offsets : Z -> Z; pending_location : option Z }.

Definition set_at (f : Z -> Z) (id v : Z) : Z -> Z := fun s => if s =? id then v else f s.

Definition layout_part (id : Z) (max_alignment : Alignment) (part : Z) (c : Cursor) : Cursor * OutputRecordLayout :=
  let alignment := alignment_min (part_alignment os part) max_alignment in
  let target := primary_output_section os id in
  let mem_size := if id =? Id.RELRO_PADDING then u64 (align_up (loadable_segment_alignment args) (at_mem c) - at_mem c) else sizes part in
  let file := align_up_usize alignment (at_file c) in
  let section_id := output_section_id part in
  if is_alloc (section_flags os target) then
    let file_size := if has_data_in_file os target then mem_size else 0 in
    if should_output_partial_object args then
      let mem := align_up alignment (reloc_alloc_mem_offsets c section_id) in
      (mkCursor (u64 (file + file_size)) (at_mem c) (nonalloc_mem_offsets c)
         (set_at (reloc_alloc_mem_offsets c) section_id (u64 (mem + mem_size))) (pending_location c),
       mkRecord file_size mem_size alignment file mem)
    else
      let mem := align_up alignment (at_mem c) in
      (mkCursor (u64 (file + file_size)) (u64 (mem + mem_size)) (nonalloc_mem_offsets c) (reloc_alloc_mem_offsets c) (pending_location c),
       mkRecord file_size mem_size alignment file mem)
  else
    let mem := align_up alignment (nonalloc_mem_offsets c section_id) in
    (mkCursor (u64 (file + mem_size)) (at_mem c)
       (set_at (nonalloc_mem_offsets c) section_id (u64 (nonalloc_mem_offsets c section_id + mem_size)))
       (reloc_alloc_mem_offsets c) (pending_location c),
     mkRecord mem_size mem_size alignment file mem).

Fixpoint layout_parts (id : Z) (max_alignment : Alignment) (parts : list Z) (c : Cursor) : Cursor * list OutputRecordLayout :=
  match parts with
  | [] => (c, [])
  | part :: parts =>
      let '(c, r) := layout_part id max_alignment part c in
      let '(c, rs) := layout_parts id max_alignment parts c in
      (c, r :: rs)
  end.

Definition TIER4_PAD : Z := 4096.

(** In incremental links a section that has moved the file offset is padded to a page. *)
Definition pad_section (id start_file : Z) (c : Cursor) : Cursor :=
  if writes_cache args && (start_file <? at_file c) then
    if is_alloc (section_flags os (primary_output_section os id)) && negb (should_output_partial_object args) then
      let padded := next_multiple (at_file c) TIER4_PAD in
      mkCursor padded (u64 (at_mem c + u64 (padded - at_file c))) (nonalloc_mem_offsets c) (reloc_alloc_mem_offsets c) (pending_location c)
    else c
  else c.

Definition layout_section (id : Z) (c : Cursor) : Cursor * list OutputRecordLayout :=
  let mem := default (at_mem c) (so_location (output_info os id)) in
  let c := mkCursor (at_file c) mem (nonalloc_mem_offsets c) (reloc_alloc_mem_offsets c) (pending_location c) in
  let '(c', rs) := layout_parts id (max_alignment os sizes id) (part_ids id) c in
  (pad_section id (at_file c) c', rs).

(** A LOAD segment starts at the pending location, or on a page of its own. *)
Definition start_segment (alignments : gmap Z Alignment) (s : Z) (c : Cursor) : Cursor :=
  if is_load_segment segments s then
    let a := default (loadable_segment_alignment args) (alignments !! s) in
    match pending_location c with
    | Some address => mkCursor (align_modulo a address (at_file c)) address (nonalloc_mem_offsets c) (reloc_alloc_mem_offsets c) None
    | None =>
        let file := align_up a (at_file c) in
        mkCursor file (align_modulo a file (at_mem c)) (nonalloc_mem_offsets c) (reloc_alloc_mem_offsets c) None
    end
  else c.

Definition move (alignments : gmap Z Alignment) (event : OrderEvent) (c : Cursor) : Cursor :=
  match event with
  | SetLocation address => mkCursor (at_file c) (at_mem c) (nonalloc_mem_offsets c) (reloc_alloc_mem_offsets c) (Some address)
  | SegmentStart s => start_segment alignments s c
  | SegmentEnd _ => c
  | OutputSection id => fst (layout_section id c)
  end.

(** Records over the parts of a section. *)
Fixpoint set_parts (parts : list Z) (rs : list OutputRecordLayout) (records : Z -> OutputRecordLayout) : Z -> OutputRecordLayout :=
  match parts, rs with
  | p :: parts, r :: rs => set_parts parts rs (fun q => if q =? p then r else records q)
  | _, _ => records
  end.

Fixpoint layout_loop (alignments : gmap Z Alignment) (events : list OrderEvent) (c : Cursor) (records : Z -> OutputRecordLayout)
  : Z -> OutputRecordLayout :=
  match events with
  | [] => records
  | event :: events =>
      let records := match event with OutputSection id => set_parts (part_ids id) (snd (layout_section id c)) records | _ => records end in
      layout_loop alignments events (move alignments event c) records
  end.

Definition first_cursor : Cursor := mkCursor 0 (base_address os) (fun _ => 0) (fun _ => 0) None.

Definition layout_section_parts (events : list OrderEvent) : Z -> OutputRecordLayout :=
  layout_loop (compute_segment_alignments events) events first_cursor (fun _ => no_record).
End parts.

(** ** Sections *)

Definition U64_MAX : Z := 2 ^ 64 - 1.

Record extent := mkExtent { ex_file_start : Z; ex_file_end : Z; ex_mem_start : Z; ex_mem_end : Z; ex_alignment : Alignment }.

Definition cover (file_offset file_size mem_offset mem_size : Z) (a : Alignment) (e : extent) : extent :=
  mkExtent (Z.min (ex_file_start e) file_offset) (Z.max (ex_file_end e) (u64 (file_offset + file_size)))
    (Z.min (ex_mem_start e) mem_offset) (Z.max (ex_mem_end e) (u64 (mem_offset + mem_size))) (alignment_max (ex_alignment e) a).

(** The extent of the parts of a section; the alignment is that of parts with a size. *)
Definition cover_part (e : extent) (r : OutputRecordLayout) : extent :=
  cover (file_offset r) (file_size r) (mem_offset r) (mem_size r) (if 0 <? mem_size r then alignment r else ex_alignment e) e.

Definition layout_sections (records : Z -> OutputRecordLayout) (id : Z) : OutputRecordLayout :=
  let e := foldl cover_part (mkExtent U64_MAX 0 U64_MAX 0 (min_alignment os id)) (records <$> part_ids id) in
  mkRecord (u64 (ex_file_end e - ex_file_start e)) (u64 (ex_mem_end e - ex_mem_start e)) (ex_alignment e) (ex_file_start e) (ex_mem_start e).

(** [OutputRecordLayout::merge]. *)
Definition merge_record (r other : OutputRecordLayout) : OutputRecordLayout :=
  mkRecord (u64 (file_size r + file_size other)) (u64 (mem_size r + mem_size other))
    (if 0 <? mem_size other then alignment_max (alignment r) (alignment other) else alignment r) (file_offset r) (mem_offset r).

(** Secondary sections are merged into their primary one, for the sections [ids]. *)
Fixpoint merge_secondary_parts (ids : list Z) (layouts : Z -> OutputRecordLayout) : Z -> OutputRecordLayout :=
  match ids with
  | [] => layouts
  | id :: ids =>
      merge_secondary_parts ids
        match merge_target os id with
        | Some primary =>
            let secondary := layouts id in
            let layouts := fun s => if s =? id then no_record else layouts s in
            fun s => if s =? primary then merge_record (layouts primary) secondary else layouts s
        | None => layouts
        end
  end.

(** ** Segments *)

Inductive SegmentError := UnmatchedSegmentEnd | ExpectedZeroAddress (id : Z) | AllocOutsideSegments (id : Z) | MissingMemoryOffset (id : Z) | MissingAllocFlag (id : Z).

(** [validate_section] of ELF. *)
Definition validate_section (id : Z) (l : OutputRecordLayout) : result () SegmentError :=
  let target := primary_output_section os id in
  match at_ty (section_attributes (output_info os id)) with
  | NOTE | RISCV_ATTRIBUTES_TYPE => Ok tt
  | _ =>
      if (mem_offset l =? 0) && negb (target =? Id.FILE_HEADER) then Err (MissingMemoryOffset id)
      else if negb (is_alloc (section_flags os target)) then Err (MissingAllocFlag id)
      else Ok tt
  end.

(** A segment that has started: the stack has a size but no sections. *)
Definition started (s : Z) : extent :=
  if is_stack_segment segments s then mkExtent 0 0 0 (default 0 (stack_size_override args)) MIN
  else mkExtent U64_MAX 0 U64_MAX 0 MIN.

Abbreviation run A := (outcome (result A SegmentError)).

(** A section widens every active segment. *)
Definition cover_section (l : OutputRecordLayout) (active : list (option extent)) : list (option extent) :=
  (fun a => match a with Some e => Some (cover (file_offset l) (file_size l) (mem_offset l) (mem_size l) (alignment l) e) | None => None end)
    <$> active.

(** Sections that are empty and not written are passed over. *)
Definition is_ignored (id : Z) (l : OutputRecordLayout) : bool :=
  (file_size l =? 0) && (mem_size l =? 0) && bool_decide (output_section_index os (primary_output_section os id) = None).

Fixpoint segments_loop (layouts : Z -> OutputRecordLayout) (events : list OrderEvent) (active : list (option extent)) (complete : list (Z * extent))
  : run (list (Z * extent)) :=
  match events with
  | [] => Ret (Ok complete)
  | SegmentStart s :: events =>
      if s <? len active then segments_loop layouts events (<[Z.to_nat s := Some (started s)]> active) complete else Panic
  | SegmentEnd s :: events =>
      match active !! Z.to_nat s with
      | None => Panic
      | Some None => Ret (Err UnmatchedSegmentEnd)
      | Some (Some e) => segments_loop layouts events (<[Z.to_nat s := None]> active) (complete ++ [(s, e)])
      end
  | OutputSection id :: events =>
      let l := layouts id in
      if is_ignored id l then segments_loop layouts events active complete
      else if forallb (fun a => match a with None => true | Some _ => false end) active then
        if negb (mem_offset l =? 0) then Ret (Err (ExpectedZeroAddress id))
        else if is_alloc (section_flags os (primary_output_section os id)) then Ret (Err (AllocOutsideSegments id))
        else segments_loop layouts events active complete
      else
        _ ←! Ret (validate_section id l);
        segments_loop layouts events (cover_section l active) complete
  | SetLocation _ :: events => segments_loop layouts events active complete
  end.

Record SegmentLayout := mkSegmentLayout { sl_id : Z; sl_sizes : OutputRecordLayout }.
Record SegmentLayouts := mkSegmentLayouts { sl_segments : list SegmentLayout; tls_layout : option OutputRecordLayout }.

(** ** Segments that are kept *)

(** Segments that hold a section that is kept; those that are marked are not looked at again. *)
Fixpoint mark_segments (keep_section : Z -> bool) (events : list OrderEvent) (active : list Z) (keep : list bool) : list bool :=
  match events with
  | [] => keep
  | SegmentStart s :: events => mark_segments keep_section events (active ++ [s]) keep
  | SegmentEnd s :: events => mark_segments keep_section events (filter (fun a => a <> s) active) keep
  | OutputSection id :: events =>
      if keep_section id then mark_segments keep_section events [] (foldl (fun keep s => <[Z.to_nat s := true]> keep) keep active)
      else mark_segments keep_section events active keep
  | SetLocation _ :: events => mark_segments keep_section events active keep
  end.

Definition always_keep (d : ProgramSegmentDef) : bool := bool_decide (segment_type d = PHDR).

(** Without relro its segment goes. *)
Definition update_segment_keep_list (relro : bool) (keep : list bool) : list bool :=
  if relro then keep else zip_with (fun (d : ProgramSegmentDef) k => if bool_decide (segment_type d = GNU_RELRO) then false else k) segments keep.

(** [active_segment_ids] of [determine_header_sizes]. *)
Definition active_segment_ids (relro : bool) (keep_section : Z -> bool) (events : list OrderEvent) : list Z :=
  if should_output_partial_object args then []
  else
    let keep := mark_segments keep_section events [] (always_keep <$> segments) in
    let keep := update_segment_keep_list relro (<[0%nat := true]> keep) in
    filter (fun id => keep !! Z.to_nat id = Some true \/ is_stack_segment segments id = true) (Z.of_nat <$> seq 0 (length segments)).

(** ** Sizes of segments *)

Definition saturating_sub (a b : Z) : Z := Z.max 0 (a - b).

(** The sizes of a complete segment. *)
Definition segment_sizes (e : extent) : OutputRecordLayout :=
  mkRecord (saturating_sub (ex_file_end e) (ex_file_start e)) (saturating_sub (ex_mem_end e) (ex_mem_start e)) (ex_alignment e)
    (ex_file_start e) (ex_mem_start e).

Fixpoint sized_segments (complete : list (Z * extent)) (ids : list Z) : outcome (list SegmentLayout) :=
  match ids with
  | [] => Ret []
  | id :: ids =>
      match complete !! Z.to_nat id with
      | Some (_, e) => rest ← sized_segments complete ids; Ret (mkSegmentLayout id (segment_sizes e) :: rest)
      | None => Panic
      end
  end.

(** The segment types that come first, then the others by number. *)
Definition order_key (number : SegmentType -> Z) (d : ProgramSegmentDef) : Z :=
  match segment_type d with PHDR => 0 | INTERP => 1 | LOAD => 2 | PT_DYNAMIC => 3 | t => 4 + number t end.
Definition segment_key (number : SegmentType -> Z) (s : SegmentLayout) : Z * Z :=
  (match segments !! Z.to_nat (sl_id s) with Some d => order_key number d | None => 0 end, mem_offset (sl_sizes s)).
Definition key_le (a b : Z * Z) : bool := (fst a <? fst b) || (fst a =? fst b) && (snd a <=? snd b).

(** The last TLS segment. *)
Definition tls_layout_of (sized : list SegmentLayout) : option OutputRecordLayout :=
  foldl (fun found s => if is_tls_segment segments (sl_id s) then Some (sl_sizes s) else found) None sized.

Definition compute_segment_layout (number : SegmentType -> Z) (layouts : Z -> OutputRecordLayout) (events : list OrderEvent)
  (active_segment_ids : list Z) : run SegmentLayouts :=
  if should_output_partial_object args then Ret (Ok (mkSegmentLayouts [] None))
  else
    complete ←! segments_loop layouts events (repeat None (length segments)) [];
    let complete := sort_by (fun a b => fst a <=? fst b) complete in
    if negb (len complete =? len segments) then Panic
    else
      sized ← sized_segments complete active_segment_ids;
      Ret (Ok (mkSegmentLayouts (sort_by (fun a b => key_le (segment_key number a) (segment_key number b)) sized) (tls_layout_of sized))).

(** The alignment in the program header ([write_program_headers] of [elf_writer.rs]). *)
Definition p_align (s : SegmentLayout) : Alignment :=
  if is_load_segment segments (sl_id s) then alignment_max (alignment (sl_sizes s)) (loadable_segment_alignment args)
  else if is_stack_segment segments (sl_id s) then mkAlignment 4
  else alignment (sl_sizes s).
End layout.
