(* ===== verification/Placement.v ===== *)
(** Where parts, sections and segments are placed: the records of sections follow each other
    in the file and in memory, and within a LOAD segment the distance from file offset to address
    never falls below the one it starts with, which sections with data keep. *)
From stdpp Require Import base numbers list gmap.
From S2P Require Import Prelude ValueFlags Alignment OutputOrder AddressLayout.
Open Scope Z_scope.

(** ** Rounding *)

Lemma value_divide a b : supported a -> supported b -> exponent a <= exponent b -> (value a | value b).
Proof.
  intros Ha Hb He. rewrite !value_pow by done. exists (2 ^ (exponent b - exponent a)).
  unfold supported in *. rewrite <- Z.pow_add_r by lia. f_equal. lia.
Qed.

Lemma value_bounds a : supported a -> 1 <= value a <= 2 ^ 16.
Proof. intros H. rewrite value_pow by done. by apply pow_bounds. Qed.

Lemma align_up_spec a v : supported a -> 0 <= v -> v + value a <= 2 ^ 64 -> align_up a v mod value a = 0 /\ v <= align_up a v < v + value a.
Proof. intros Ha Hv Hb. pose proof (value_bounds a Ha). apply next_multiple_spec; lia. Qed.

Lemma align_up_divides a v : supported a -> 0 <= v -> v mod value a = 0 -> align_up a v = v.
Proof. intros Ha Hv Hm. unfold align_up, next_multiple. by rewrite Hm. Qed.

Lemma mod_shift v d m : 0 < m -> d mod m = 0 -> (v + d) mod m = v mod m.
Proof. intros Hm Hd. by rewrite <- Zplus_mod_idemp_r, Hd, Z.add_0_r. Qed.

(** Offsets that agree modulo the alignment are rounded alike. *)
Lemma align_up_shift a v d : supported a -> 0 <= v -> 0 <= v + d -> v + value a <= 2 ^ 64 -> v + d + value a <= 2 ^ 64 ->
  d mod value a = 0 -> align_up a (v + d) = align_up a v + d.
Proof.
  intros Ha Hv Hvd Hb Hbd Hd. pose proof (value_bounds a Ha) as Hval. unfold align_up, next_multiple. rewrite mod_shift by (done || lia).
  destruct (Z.eqb_spec (v mod value a) 0); [done|]. pose proof (Z.mod_pos_bound v (value a)).
  rewrite !wrap_id by (unfold is_uint; lia). lia.
Qed.

Lemma divides_mod d a b : supported a -> supported b -> exponent a <= exponent b -> d mod value b = 0 -> d mod value a = 0.
Proof.
  intros Ha Hb He Hd. pose proof (value_bounds a Ha). pose proof (value_bounds b Hb).
  apply Z.mod_divide; [lia|]. eapply Z.divide_trans; [by apply value_divide|]. apply Z.mod_divide; [lia|done].
Qed.

(** ** Chains *)

(** Records that follow each other, in the file and in memory, between two pairs of offsets. *)
Fixpoint chain (f m : Z) (rs : list OutputRecordLayout) (f' m' : Z) : Prop :=
  match rs with
  | [] => f <= f' /\ m <= m'
  | r :: rs => f <= file_offset r /\ m <= mem_offset r /\ 0 <= file_size r /\ 0 <= mem_size r /\
      chain (file_offset r + file_size r) (mem_offset r + mem_size r) rs f' m'
  end.

(** The distance from a place in the file to its address. *)
Definition distance (r : OutputRecordLayout) : Z := mem_offset r - file_offset r.
Definition cursor_distance (c : Cursor) : Z := at_mem c - at_file c.

Lemma chain_le f m rs f' m' : chain f m rs f' m' -> f <= f' /\ m <= m'.
Proof. revert f m. induction rs as [|r rs IH]; intros f m; cbn; [done|]. intros (? & ? & ? & ? & Hc%IH). lia. Qed.

Lemma chain_weaken f m rs f' m' g n g' n' : chain f m rs f' m' -> g <= f -> n <= m -> f' <= g' -> m' <= n' -> chain g n rs g' n'.
Proof.
  revert f m g n. induction rs as [|r rs IH]; intros f m g n; cbn; [lia|]. intros (H1 & H2 & H3 & H4 & Hc) H5 H6 H7 H8.
  split_and!; try lia. eapply IH; [exact Hc|lia..].
Qed.

Lemma chain_app f m rs f1 m1 ts f' m' : chain f m rs f1 m1 -> chain f1 m1 ts f' m' -> chain f m (rs ++ ts) f' m'.
Proof.
  revert f m. induction rs as [|r rs IH]; intros f m; cbn.
  - intros [H1 H2] H. eapply chain_weaken; [exact H|lia..].
  - intros (H1 & H2 & H3 & H4 & Hc) Ht. split_and!; try done. by apply IH.
Qed.

Lemma chain_in f m rs f' m' r : chain f m rs f' m' -> r ∈ rs ->
  f <= file_offset r /\ file_offset r + file_size r <= f' /\ m <= mem_offset r /\ mem_offset r + mem_size r <= m' /\ 0 <= file_size r /\ 0 <= mem_size r.
Proof.
  intros H Hin. revert f m H. induction Hin as [r rs|r q rs _ IH]; intros f m; cbn.
  - intros (H1 & H2 & H3 & H4 & Hc%chain_le). lia.
  - intros (H1 & H2 & H3 & H4 & Hc). apply IH in Hc. lia.
Qed.

(** A chain of records never overlaps itself. *)
Lemma chain_split f m rs f' m' i j r q : chain f m rs f' m' -> rs !! i = Some r -> rs !! j = Some q -> (i < j)%nat ->
  file_offset r + file_size r <= file_offset q /\ mem_offset r + mem_size r <= mem_offset q.
Proof.
  revert f m i j. induction rs as [|t rs IH]; intros f m i j; [done|]. cbn [chain]. intros (? & ? & ? & ? & Hc) Hi Hj Hlt.
  destruct j as [|j]; [lia|]. cbn in Hj. destruct i as [|i]; cbn in Hi.
  - injection Hi as ->. destruct (chain_in _ _ _ _ _ q Hc) as (? & ? & ? & ? & _); [by eapply list_elem_of_lookup_2|]. lia.
  - eapply IH; [exact Hc|exact Hi|exact Hj|lia].
Qed.

(** ** Parts *)

Lemma supported_min a b : supported a -> supported b -> supported (alignment_min a b).
Proof. unfold supported, alignment_min. cbn. lia. Qed.
Lemma supported_max a b : supported a -> supported b -> supported (alignment_max a b).
Proof. unfold supported, alignment_max. cbn. lia. Qed.
Lemma supported_MIN : supported MIN.
Proof. unfold supported, MIN, MAX_ALIGNMENT_EXPONENT. cbn. lia. Qed.

Lemma align_up_mono a v w : supported a -> 0 <= v -> v <= w -> w + value a <= 2 ^ 64 -> align_up a v <= align_up a w.
Proof.
  intros Ha Hv Hvw Hb. pose proof (value_bounds a Ha) as Hval.
  destruct (align_up_spec a v Ha) as [Hm Hr]; [lia..|]. destruct (align_up_spec a w Ha) as [Hn Hs]; [lia..|].
  destruct (Z.le_gt_cases (align_up a v) (align_up a w)) as [|Hlt]; [done|exfalso].
  apply Z.mod_divide in Hm as [i Hi]; [|lia]. apply Z.mod_divide in Hn as [j Hj]; [|lia].
  assert (j < i) by nia. nia.
Qed.

Create HintDb layout.
#[export] Hint Resolve supported_min supported_max supported_MIN value_bounds : layout.

Section placement.
Context (os : OutputSections) (args : LayoutArgs) (segments : list ProgramSegmentDef) (sizes : Z -> Z).
Hypothesis Hfull : should_output_partial_object args = false.
Hypothesis Hpage : supported (loadable_segment_alignment args).
Hypothesis Hmin : forall id, supported (min_alignment os id).
Hypothesis Hsizes : forall p, 0 <= sizes p.

Abbreviation primary := (primary_output_section os).
Abbreviation has_data := (fun id => has_data_in_file os (primary id)).
Abbreviation in_memory := (fun id => is_alloc (section_flags os (primary id))).

Lemma supported_part part : supported (part_alignment os part).
Proof.
  unfold part_alignment. destruct (part <? _); [done|]. unfold supported, NUM_ALIGNMENTS, MAX_ALIGNMENT_EXPONENT. cbn [exponent].
  change (16 + 1) with 17. pose proof (Z.mod_pos_bound (part - NUM_SINGLE_PART_SECTIONS) 17 eq_refl). rewrite wrap_id by (unfold is_uint; lia). lia.
Qed.

Lemma supported_max_alignment id : supported (max_alignment os sizes id).
Proof. unfold max_alignment. repeat case_match; auto using supported_part with layout. Qed.

(** More than a part moves the offsets. *)
Definition part_room (part : Z) : Z := Z.max (sizes part) (2 ^ 16) + 2 ^ 16.

(** The offsets leave [room] in 64 bits. *)
Definition roomy (c : Cursor) (room : Z) : Prop := 0 <= at_file c /\ 0 <= at_mem c /\ at_file c + room < 2 ^ 63 /\ at_mem c + room < 2 ^ 63.

Record part_placed (id : Z) (ma : Alignment) (part : Z) (c c' : Cursor) (r : OutputRecordLayout) : Prop := {
  pp_alignment : alignment r = alignment_min (part_alignment os part) ma;
  pp_mem_aligned : mem_offset r mod value (alignment r) = 0;
  pp_file_aligned : file_offset r mod value (alignment r) = 0;
  pp_after : at_file c <= file_offset r /\ at_mem c <= mem_offset r;
  pp_size : 0 <= mem_size r /\ file_size r = (if has_data id then mem_size r else 0);
  pp_own_size : id <> Id.RELRO_PADDING -> mem_size r = sizes part;
  pp_cursor : at_file c' = file_offset r + file_size r /\ at_mem c' = mem_offset r + mem_size r;
  pp_room : at_file c' <= at_file c + part_room part /\ at_mem c' <= at_mem c + part_room part;
  pp_pending : pending_location c' = pending_location c;
  pp_distance : forall d, d mod value ma = 0 -> d <= cursor_distance c -> d <= distance r;
  pp_same : cursor_distance c mod value ma = 0 -> distance r = cursor_distance c }.

Lemma relro_padding_size v : 0 <= v -> v + 2 ^ 16 < 2 ^ 64 -> 0 <= u64 (align_up (loadable_segment_alignment args) v - v) < 2 ^ 16.
Proof.
  intros Hv Hb. pose proof (value_bounds _ Hpage). destruct (align_up_spec (loadable_segment_alignment args) v Hpage) as [_ Hr]; [lia..|].
  rewrite wrap_id by (unfold is_uint; lia). lia.
Qed.

Lemma layout_part_placed id ma part c : in_memory id = true -> supported ma -> roomy c (part_room part) ->
  part_placed id ma part c (fst (layout_part os args sizes id ma part c)) (snd (layout_part os args sizes id ma part c)).
Proof.
  intros Ha Hma (Hf & Hm & Hrf & Hrm). unfold part_room in *. pose proof (Hsizes part) as Hsz.
  set (size := if id =? Id.RELRO_PADDING then u64 (align_up (loadable_segment_alignment args) (at_mem c) - at_mem c) else sizes part).
  assert (0 <= size <= Z.max (sizes part) (2 ^ 16)) as Hsize.
  { unfold size. destruct (id =? _); [|lia]. pose proof (relro_padding_size (at_mem c)). lia. }
  set (al := alignment_min (part_alignment os part) ma). assert (supported al) as Hal by (apply supported_min; auto using supported_part).
  pose proof (value_bounds al Hal) as Hval.
  destruct (align_up_spec al (at_file c) Hal) as [Hfm Hfr]; [lia..|]. destruct (align_up_spec al (at_mem c) Hal) as [Hmm Hmr]; [lia..|].
  assert (exponent al <= exponent ma) as Hle by (unfold al, alignment_min; cbn; lia).
  unfold layout_part. rewrite Ha, Hfull. fold size. fold al. unfold align_up_usize. fold (align_up al (at_file c)).
  set (fs := if has_data_in_file os (primary id) then size else 0). assert (0 <= fs <= size) by (unfold fs; destruct (has_data_in_file _ _); lia).
  rewrite !wrap_id by (unfold is_uint; lia). cbn [fst snd]. split; unfold distance, cursor_distance; cbn; try done; try (unfold part_room; lia).
  - intros Hne. unfold size. by rewrite (proj2 (Z.eqb_neq _ _) Hne).
  - intros d Hd Hdle. assert (d mod value al = 0) as Hdal by (by apply (divides_mod d al ma)).
    destruct (Z.le_gt_cases 0 (at_file c + d)) as [H0|H0].
    + pose proof (align_up_shift al (at_file c) d Hal) as Hs. pose proof (align_up_mono al (at_file c + d) (at_mem c) Hal). lia.
    + assert (align_up al (at_file c) + d <= 0); [|lia]. apply Z.mod_divide in Hfm as [i Hi]; [|lia]. apply Z.mod_divide in Hdal as [j Hj]; [|lia].
      assert (i + j <= 0); [|nia]. assert ((i + j) * value al < value al) by nia. nia.
  - intros Hd. assert ((at_mem c - at_file c) mod value al = 0) as Hdal by (by apply (divides_mod _ al ma)).
    pose proof (align_up_shift al (at_file c) (at_mem c - at_file c) Hal) as Hs. replace (at_file c + (at_mem c - at_file c)) with (at_mem c) in Hs by lia. lia.
Qed.

(** What layout promises of a part, whatever the offsets are. *)
Record part_ok (id : Z) (ma : Alignment) (part : Z) (r : OutputRecordLayout) : Prop := {
  po_alignment : alignment r = alignment_min (part_alignment os part) ma;
  po_mem_aligned : mem_offset r mod value (alignment r) = 0;
  po_file_aligned : file_offset r mod value (alignment r) = 0;
  po_file_size : file_size r = if has_data id then mem_size r else 0;
  po_own_size : id <> Id.RELRO_PADDING -> mem_size r = sizes part }.

Fixpoint parts_room (parts : list Z) : Z := match parts with [] => 0 | p :: parts => part_room p + parts_room parts end.

Lemma part_room_pos p : 0 < part_room p.
Proof. unfold part_room. pose proof (Hsizes p). lia. Qed.
Lemma parts_room_nonneg parts : 0 <= parts_room parts.
Proof. induction parts as [|p parts IH]; cbn; [lia|]. pose proof (part_room_pos p). lia. Qed.

(** The offsets of [c'] follow those of [c], by no more than [room]. *)
Definition follows (c c' : Cursor) (room : Z) : Prop :=
  at_file c <= at_file c' <= at_file c + room /\ at_mem c <= at_mem c' <= at_mem c + room /\ pending_location c' = pending_location c.

(** Distances never fall below one that the alignments divide, and keep it while the file moves with the addresses. *)
Record distances (id : Z) (ma : Alignment) (c c' : Cursor) (rs : list OutputRecordLayout) : Prop := {
  ds_le : forall d, d mod value ma = 0 -> d <= cursor_distance c -> Forall (fun r => d <= distance r) rs /\ d <= cursor_distance c';
  ds_first : cursor_distance c mod value ma = 0 -> forall r, head rs = Some r -> distance r = cursor_distance c;
  ds_same : cursor_distance c mod value ma = 0 -> has_data id = true \/ Forall (fun r => mem_size r = 0) rs ->
    Forall (fun r => distance r = cursor_distance c) rs /\ cursor_distance c' = cursor_distance c }.

Lemma layout_parts_placed id ma parts c : in_memory id = true -> supported ma -> roomy c (parts_room parts) ->
  let '(c', rs) := layout_parts os args sizes id ma parts c in
  chain (at_file c) (at_mem c) rs (at_file c') (at_mem c') /\ follows c c' (parts_room parts) /\ Forall2 (part_ok id ma) parts rs /\
  distances id ma c c' rs.
Proof.
  intros Ha Hma. revert c. induction parts as [|part parts IH]; intros c Hroom; cbn [layout_parts].
  - unfold follows. split_and!; cbn; try done; try lia.
  - cbn [parts_room] in Hroom. pose proof (part_room_pos part). pose proof (parts_room_nonneg parts).
    destruct (layout_part_placed id ma part c Ha Hma) as [Hal Hmm Hfm [Hf1 Hm1] [Hs0 Hfs] Hown [Hcf Hcm] [Hrf Hrm] Hpend Hdist Hsame]; [unfold roomy in *; lia|].
    destruct (layout_part _ _ _ _ _ _ _) as [c1 r]. cbn [fst snd] in *.
    assert (0 <= file_size r) by (rewrite Hfs; destruct (has_data_in_file _ _); lia).
    specialize (IH c1). destruct (layout_parts _ _ _ _ _ _ _) as [c' rs]. destruct IH as (Hch & Hfo & Hok & Hmap); [unfold roomy in *; lia|].
    unfold follows in *. cbn [parts_room]. split_and!; try lia; try (by destruct Hfo as (_ & _ & ->)).
    + cbn. split_and!; try lia. by rewrite <- Hcf, <- Hcm.
    + constructor; [by split|done].
    + destruct Hmap as [Hmap1 Hmap2 Hmap3]. split.
      * intros d Hd Hle. specialize (Hdist d Hd Hle). destruct (Hmap1 d Hd) as [Hall Hc']; [|by split; [constructor|]].
        unfold distance, cursor_distance in *. rewrite Hfs in Hcf. destruct (has_data_in_file _ _); lia.
      * intros Hd q [= <-]. by apply Hsame.
      * intros Hd Hor. specialize (Hsame Hd).
        assert (cursor_distance c1 = cursor_distance c) as Hc1.
        { unfold distance, cursor_distance in *. destruct Hor as [E|[Hz _]%Forall_cons]; [rewrite E in Hfs; lia|].
          rewrite Hfs in Hcf. destruct (has_data_in_file _ _); lia. }
        rewrite <- Hc1 in *. destruct Hmap3 as [Hall Hc']; [done|destruct Hor as [E|[_ Hz]%Forall_cons]; auto|]. split; [by constructor|done].
Qed.

(** ** Sections *)

Definition section_room (id : Z) : Z := parts_room (part_ids id) + TIER4_PAD.

Lemma section_room_pos id : 0 < section_room id.
Proof. unfold section_room, TIER4_PAD. pose proof (parts_room_nonneg (part_ids id)). lia. Qed.

(** Padding moves both offsets alike. *)
Lemma pad_section_spec id start c : roomy c TIER4_PAD -> exists n, 0 <= n < TIER4_PAD /\
  at_file (pad_section os args id start c) = at_file c + n /\ at_mem (pad_section os args id start c) = at_mem c + (if in_memory id then n else 0) /\
  pending_location (pad_section os args id start c) = pending_location c.
Proof.
  unfold roomy, TIER4_PAD. intros (Hf & Hm & Hrf & Hrm). unfold pad_section.
  destruct (writes_cache args && _); [|exists 0; destruct (in_memory id); split_and!; lia || done]. rewrite Hfull.
  destruct (in_memory id); cbn [andb negb]; [|exists 0; split_and!; lia || done]. unfold TIER4_PAD.
  destruct (next_multiple_spec (at_file c) 4096) as [_ Hn]; [lia..|]. exists (next_multiple (at_file c) 4096 - at_file c). cbn.
  rewrite !wrap_id by (unfold is_uint; rewrite ?wrap_id by (unfold is_uint; lia); lia). split_and!; lia || done.
Qed.

Lemma layout_section_placed id c : in_memory id = true -> so_location (output_info os id) = None -> roomy c (section_room id) ->
  let '(c', rs) := layout_section os args sizes id c in
  chain (at_file c) (at_mem c) rs (at_file c') (at_mem c') /\ follows c c' (section_room id) /\
  Forall2 (part_ok id (max_alignment os sizes id)) (part_ids id) rs /\
  distances id (max_alignment os sizes id) c c' rs.
Proof.
  intros Ha Hl Hroom. unfold layout_section. rewrite Hl. cbn [default]. set (c0 := mkCursor _ _ _ _ _).
  pose proof (layout_parts_placed id (max_alignment os sizes id) (part_ids id) c0 Ha (supported_max_alignment id)) as H.
  unfold section_room, roomy, TIER4_PAD in *. pose proof (parts_room_nonneg (part_ids id)).
  destruct (layout_parts _ _ _ _ _ _ _) as [c1 rs]. destruct H as (Hch & Hfo & Hok & Hmap); [cbn; lia|]. unfold follows in *. cbn [at_file at_mem pending_location c0] in *.
  destruct (pad_section_spec id (at_file c) c1) as (n & Hn & Hpf & Hpm & Hpp); [unfold roomy, TIER4_PAD; lia|]. rewrite Ha in Hpm. unfold TIER4_PAD in Hn.
  split_and!; try lia; try done; [|by rewrite Hpp; destruct Hfo as (_ & _ & ->)|].
  - eapply chain_weaken; [exact Hch|lia..].
  - assert (cursor_distance (pad_section os args id (at_file c) c1) = cursor_distance c1) as E by (unfold cursor_distance; lia).
    destruct Hmap as [H1 H2 H3]. split; [rewrite E|done|rewrite E]; assumption.
Qed.

(** Sections that are not loaded move the file offset only. *)
Fixpoint file_chain (f : Z) (rs : list OutputRecordLayout) (f' : Z) : Prop :=
  match rs with
  | [] => f <= f'
  | r :: rs => f <= file_offset r /\ 0 <= file_size r /\ file_chain (file_offset r + file_size r) rs f'
  end.

Lemma chain_file f m rs f' m' : chain f m rs f' m' -> file_chain f rs f'.
Proof. revert f m. induction rs as [|r rs IH]; intros f m; cbn; [by intros []|]. intros (H1 & H2 & H3 & H4 & Hc). eauto. Qed.

Lemma file_chain_weaken f rs f' g g' : file_chain f rs f' -> g <= f -> f' <= g' -> file_chain g rs g'.
Proof.
  revert f g. induction rs as [|r rs IH]; intros f g; cbn; [lia|]. intros (H1 & H2 & Hc) H3 H4. split_and!; try lia. eapply IH; [exact Hc|lia..].
Qed.

Definition moves_file (c c' : Cursor) (room : Z) : Prop :=
  at_file c <= at_file c' <= at_file c + room /\ at_mem c' = at_mem c /\ pending_location c' = pending_location c.

Lemma layout_parts_outside id ma parts c : id <> Id.RELRO_PADDING -> in_memory id = false -> supported ma -> roomy c (parts_room parts) ->
  let '(c', rs) := layout_parts os args sizes id ma parts c in
  file_chain (at_file c) rs (at_file c') /\ moves_file c c' (parts_room parts) /\ length rs = length parts.
Proof.
  intros Hne Ha Hma. revert c. induction parts as [|part parts IH]; intros c Hroom; cbn [layout_parts parts_room] in *; [unfold moves_file; cbn; split_and!; lia || done|].
  pose proof (part_room_pos part). pose proof (parts_room_nonneg parts). unfold layout_part. rewrite Ha, (proj2 (Z.eqb_neq _ _) Hne).
  set (al := alignment_min (part_alignment os part) ma). assert (supported al) as Hal by (apply supported_min; auto using supported_part).
  unfold align_up_usize. fold (align_up al (at_file c)). pose proof (value_bounds al Hal). pose proof (Hsizes part). unfold roomy, part_room in *.
  destruct (align_up_spec al (at_file c) Hal) as [_ Hfr]; [lia..|]. rewrite (wrap_id 64 (align_up al (at_file c) + sizes part)) by (unfold is_uint; lia).
  set (c1 := mkCursor _ _ _ _ _). specialize (IH c1). destruct (layout_parts _ _ _ _ _ _ _) as [c' rs].
  destruct IH as (Hch & (Hf & Hm & Hp) & Hlen); [cbn; lia|]. cbn [at_file at_mem pending_location c1] in *. unfold moves_file, part_room. cbn.
  split_and!; try lia; try done.
Qed.

Lemma layout_section_outside id c : id <> Id.RELRO_PADDING -> in_memory id = false -> so_location (output_info os id) = None -> roomy c (section_room id) ->
  let '(c', rs) := layout_section os args sizes id c in
  file_chain (at_file c) rs (at_file c') /\ moves_file c c' (section_room id) /\ length rs = length (part_ids id).
Proof.
  intros Hne Ha Hl Hroom. unfold layout_section. rewrite Hl. cbn [default]. set (c0 := mkCursor _ _ _ _ _).
  pose proof (layout_parts_outside id (max_alignment os sizes id) (part_ids id) c0 Hne Ha (supported_max_alignment id)) as H.
  unfold section_room, roomy, TIER4_PAD in *. pose proof (parts_room_nonneg (part_ids id)).
  destruct (layout_parts _ _ _ _ _ _ _) as [c1 rs]. destruct H as (Hch & (Hf & Hm & Hp) & Hlen); [cbn; lia|]. cbn [at_file at_mem pending_location c0] in *.
  destruct (pad_section_spec id (at_file c) c1) as (n & Hn & Hpf & Hpm & Hpp); [unfold roomy, TIER4_PAD; lia|]. rewrite Ha in Hpm. unfold TIER4_PAD in Hn.
  unfold moves_file. split_and!; try lia; try congruence. eapply file_chain_weaken; [exact Hch|lia..].
Qed.
End placement.

(** ** The parts of a section *)

(** Ids small enough that their part ids fit in 32 bits. *)
Definition small_id (id : Z) : Prop := 0 <= id < 2 ^ 27.

Lemma part_ids_section id p : small_id id -> p ∈ part_ids id -> output_section_id p = id.
Proof.
  unfold small_id, part_ids, num_parts, base_part_id, part_offset, output_section_id, NUM_SINGLE_PART_SECTIONS, NUM_ALIGNMENTS, MAX_ALIGNMENT_EXPONENT.
  intros Hid [n [-> Hn%elem_of_seq]]%list_elem_of_fmap. destruct (Z.ltb_spec id 38) as [Hlt|Hge].
  - replace n with 0%nat by lia. change (u32 (Z.of_nat 0)) with 0. rewrite Z.add_0_r, wrap_id by (unfold is_uint; lia).
    by rewrite (proj2 (Z.ltb_lt _ _)) by lia.
  - change (16 + 1) with 17 in *. assert (Z.of_nat n < 17) by lia.
    rewrite (wrap_id 32 (id - 38)), (wrap_id 32 (Z.of_nat n)), (wrap_id 32 ((id - 38) * 17)), (wrap_id 32 (38 + _)) by (unfold is_uint; lia).
    rewrite wrap_id by (unfold is_uint; lia). rewrite (proj2 (Z.ltb_ge _ _)) by lia. rewrite (wrap_id 32 (_ - 38)) by (unfold is_uint; lia).
    replace (38 + (id - 38) * 17 + Z.of_nat n - 38) with (Z.of_nat n + (id - 38) * 17) by lia. rewrite Z.div_add, Z.div_small by lia.
    rewrite wrap_id by (unfold is_uint; lia). lia.
Qed.

Lemma part_ids_NoDup id : small_id id -> NoDup (part_ids id).
Proof.
  unfold small_id. intros Hid. unfold part_ids. apply NoDup_fmap_2_strong; [|apply NoDup_seq].
  unfold num_parts, base_part_id, part_offset, NUM_SINGLE_PART_SECTIONS, NUM_ALIGNMENTS, MAX_ALIGNMENT_EXPONENT.
  intros i j Hi%elem_of_seq Hj%elem_of_seq. destruct (Z.ltb_spec id 38); [lia|]. change (16 + 1) with 17 in *.
  rewrite (wrap_id 32 (id - 38)), (wrap_id 32 ((id - 38) * 17)), (wrap_id 32 (38 + _)), (wrap_id 32 (Z.of_nat i)), (wrap_id 32 (Z.of_nat j)) by (unfold is_uint; lia).
  rewrite !wrap_id by (unfold is_uint; lia). lia.
Qed.

Lemma part_ids_nonempty id : exists p ps, part_ids id = p :: ps.
Proof. unfold part_ids, num_parts. destruct (id <? _); cbn; by eexists _, _. Qed.

Lemma set_parts_other parts rs records p : p ∉ parts -> set_parts parts rs records p = records p.
Proof.
  revert rs records. induction parts as [|q parts IH]; intros [|r rs] records Hp; cbn; try done. apply not_elem_of_cons in Hp as [Hne Hp].
  rewrite IH by done. by rewrite (proj2 (Z.eqb_neq _ _) Hne).
Qed.

Lemma set_parts_at parts rs records : NoDup parts -> length rs = length parts -> set_parts parts rs records <$> parts = rs.
Proof.
  revert rs records. induction parts as [|q parts IH]; intros [|r rs] records Hnd Hl; try done. apply NoDup_cons in Hnd as [Hq Hnd].
  cbn. rewrite set_parts_other, Z.eqb_refl by done. f_equal. apply IH; [done|]. by injection Hl.
Qed.

(** ** The run of events *)

Definition section_ids (events : list OrderEvent) : list Z := omap (fun e => match e with OutputSection id => Some id | _ => None end) events.

Lemma section_ids_app a b : section_ids (a ++ b) = section_ids a ++ section_ids b.
Proof. apply omap_app. Qed.

Section run.
Context (os : OutputSections) (args : LayoutArgs) (segments : list ProgramSegmentDef) (sizes : Z -> Z).

Lemma layout_parts_length id ma parts c : length (snd (layout_parts os args sizes id ma parts c)) = length parts.
Proof.
  revert c. induction parts as [|p parts IH]; intros c; [done|]. cbn [layout_parts]. destruct (layout_part _ _ _ _ _ _ _) as [c1 r].
  specialize (IH c1). destruct (layout_parts _ _ _ _ _ _ _). cbn in *. by rewrite IH.
Qed.

Lemma layout_section_length id c : length (snd (layout_section os args sizes id c)) = length (part_ids id).
Proof.
  unfold layout_section. set (c0 := mkCursor _ _ _ _ _). pose proof (layout_parts_length id (max_alignment os sizes id) (part_ids id) c0) as H.
  by destruct (layout_parts _ _ _ _ _ _ _).
Qed.

(** Where the cursor is after some events. *)
Definition after (alignments : gmap Z Alignment) (events : list OrderEvent) (c : Cursor) : Cursor :=
  foldl (fun c e => move os args segments sizes alignments e c) c events.

Lemma after_app alignments a b c : after alignments (a ++ b) c = after alignments b (after alignments a c).
Proof. apply foldl_app. Qed.

Lemma layout_loop_other alignments events c records p : Forall small_id (section_ids events) -> output_section_id p ∉ section_ids events ->
  layout_loop os args segments sizes alignments events c records p = records p.
Proof.
  revert c records. induction events as [|e events IH]; intros c records Hs Hp; [done|]. cbn [layout_loop].
  destruct e as [s|s|id|a]; cbn [section_ids omap list_omap] in *; try (by rewrite IH).
  apply Forall_cons in Hs as [Hid Hs]. apply not_elem_of_cons in Hp as [Hne Hp]. rewrite IH by done. apply set_parts_other.
  intros Hin. by apply part_ids_section in Hin.
Qed.

(** The final records of a section are those that its event made. *)
Lemma layout_loop_at alignments pre id post c records : Forall small_id (section_ids (pre ++ OutputSection id :: post)) ->
  NoDup (section_ids (pre ++ OutputSection id :: post)) ->
  layout_loop os args segments sizes alignments (pre ++ OutputSection id :: post) c records <$> part_ids id
  = snd (layout_section os args sizes id (after alignments pre c)).
Proof.
  revert c records. induction pre as [|e pre IH]; intros c records Hs Hnd; cbn [app layout_loop after foldl].
  - cbn [app section_ids omap list_omap] in *. apply Forall_cons in Hs as [Hid Hs]. apply NoDup_cons in Hnd as [Hn Hnd]. cbn in Hn.
    erewrite list_fmap_ext; [apply set_parts_at; [by apply part_ids_NoDup|apply layout_section_length]|].
    intros i p Hp%list_elem_of_lookup_2. cbn. rewrite layout_loop_other; [done|done|]. by rewrite (part_ids_section id).
  - destruct e; cbn [app section_ids omap list_omap] in *; try (by apply IH). apply Forall_cons in Hs as [Hid Hs]. apply NoDup_cons in Hnd as [Hn Hnd]. by apply IH.
Qed.
End run.

(** ** Extents *)

(** The end of the last record. *)
Fixpoint file_end (f : Z) (rs : list OutputRecordLayout) : Z :=
  match rs with [] => f | r :: rs => file_end (file_offset r + file_size r) rs end.
Fixpoint mem_end (m : Z) (rs : list OutputRecordLayout) : Z :=
  match rs with [] => m | r :: rs => mem_end (mem_offset r + mem_size r) rs end.

Lemma chain_ends f m rs f' m' : chain f m rs f' m' -> f <= file_end f rs <= f' /\ m <= mem_end m rs <= m' /\
  forall r, r ∈ rs -> file_offset r + file_size r <= file_end f rs /\ mem_offset r + mem_size r <= mem_end m rs.
Proof.
  revert f m. induction rs as [|r rs IH]; intros f m; cbn; [intros []; split_and!; try lia; by intros r Hr%elem_of_nil|].
  intros (H1 & H2 & H3 & H4 & Hc). destruct (IH _ _ Hc) as (I1 & I2 & I3). split_and!; try lia.
  intros q [->|Hq]%elem_of_cons; [lia|by apply I3].
Qed.

(** Widening an extent by the records of a chain, whatever their alignments are taken to be. *)
Section covering.
Context (al : extent -> OutputRecordLayout -> Alignment).
Definition widen (e : extent) (r : OutputRecordLayout) : extent := cover (file_offset r) (file_size r) (mem_offset r) (mem_size r) (al e r) e.

Lemma widen_chain rs f m f' m' e : chain f m rs f' m' -> 0 <= f -> 0 <= m -> f' < 2 ^ 63 -> m' < 2 ^ 63 ->
  ex_file_start e <= f -> ex_mem_start e <= m -> ex_file_end e = f -> ex_mem_end e = m ->
  exists a, foldl widen e rs = mkExtent (ex_file_start e) (file_end f rs) (ex_mem_start e) (mem_end m rs) a.
Proof.
  revert f m e. induction rs as [|r rs IH]; intros f m e; cbn [foldl file_end mem_end chain].
  - intros _ _ _ _ _ _ _ <- <-. exists (ex_alignment e). by destruct e.
  - intros (H1 & H2 & H3 & H4 & Hc) Hf Hm Hf' Hm' Hfs Hms Hfe Hme. pose proof (chain_le _ _ _ _ _ Hc).
    destruct (IH _ _ (widen e r) Hc) as [a E]; try (unfold widen; cbn; rewrite ?wrap_id by (unfold is_uint; lia); lia).
    exists a. rewrite E. f_equal; unfold widen; cbn; lia.
Qed.

(** From the empty extent: the first record gives the start, the last the end. *)
Lemma widen_first r rs f m f' m' a0 : chain f m (r :: rs) f' m' -> 0 <= f -> 0 <= m -> f' < 2 ^ 63 -> m' < 2 ^ 63 ->
  exists a, foldl widen (mkExtent U64_MAX 0 U64_MAX 0 a0) (r :: rs) = mkExtent (file_offset r) (file_end f (r :: rs)) (mem_offset r) (mem_end m (r :: rs)) a.
Proof.
  cbn [chain]. intros (H1 & H2 & H3 & H4 & Hc) Hf Hm Hf' Hm'. pose proof (chain_le _ _ _ _ _ Hc). cbn [foldl]. set (e := mkExtent _ _ _ _ _).
  assert (widen e r = mkExtent (file_offset r) (file_offset r + file_size r) (mem_offset r) (mem_offset r + mem_size r) (alignment_max a0 (al e r))) as ->.
  { unfold widen, cover, e, U64_MAX. cbn. rewrite !wrap_id by (unfold is_uint; lia). f_equal; lia. }
  destruct (widen_chain rs _ _ f' m' (mkExtent (file_offset r) (file_offset r + file_size r) (mem_offset r) (mem_offset r + mem_size r) (alignment_max a0 (al e r))) Hc)
    as [a E]; cbn; try lia. exists a. exact E.
Qed.

(** The alignment grows to that of the records. *)
Lemma widen_alignment rs e n : exponent (ex_alignment e) <= n -> (forall e r, r ∈ rs -> exponent (ex_alignment e) <= n -> exponent (al e r) <= n) ->
  exponent (ex_alignment (foldl widen e rs)) <= n.
Proof.
  revert e. induction rs as [|r rs IH]; intros e He Hal; [done|]. cbn [foldl]. apply IH.
  - unfold widen, cover, alignment_max. cbn. specialize (Hal e r). pose proof (Hal ltac:(left) He). lia.
  - intros e' q Hq. apply Hal. by right.
Qed.
End covering.

(** A section covers its parts. *)
Lemma layout_sections_chain os records id r rs f m f' m' : records <$> part_ids id = r :: rs -> chain f m (r :: rs) f' m' ->
  0 <= f -> 0 <= m -> f' < 2 ^ 63 -> m' < 2 ^ 63 ->
  let l := layout_sections os records id in
  file_offset l = file_offset r /\ mem_offset l = mem_offset r /\ file_offset l + file_size l = file_end f (r :: rs) /\ mem_offset l + mem_size l = mem_end m (r :: rs).
Proof.
  intros E Hc Hf Hm Hf' Hm'. cbv zeta. unfold layout_sections. rewrite E.
  destruct (widen_first (fun e r => if 0 <? mem_size r then alignment r else ex_alignment e) r rs f m f' m' (min_alignment os id) Hc) as [a Ea]; [done..|].
  unfold cover_part. unfold widen in Ea. rewrite Ea. cbn [file_offset mem_offset file_size mem_size ex_file_start ex_file_end ex_mem_start ex_mem_end].
  destruct (chain_ends _ _ _ _ _ Hc) as (H1 & H2 & H3). destruct (chain_in _ _ _ _ _ r Hc) as (I1 & I2 & I3 & I4 & I5 & I6); [left|].
  destruct (H3 r ltac:(left)) as [J1 J2]. rewrite !wrap_id by (unfold is_uint; lia). split_and!; lia.
Qed.

(** ** Segments *)

Lemma align_modulo_zero a r v : supported a -> 0 <= v -> v + value a <= 2 ^ 64 -> r mod value a = 0 -> align_modulo a r v = align_up a v.
Proof.
  intros Ha Hv Hb Hr. unfold align_modulo. rewrite !land_mask by done. destruct (align_up_spec a v Ha Hv Hb) as [-> _]. by rewrite Hr.
Qed.

Section segments.
Context (os : OutputSections) (args : LayoutArgs) (segments : list ProgramSegmentDef) (sizes : Z -> Z).

Abbreviation primary := (primary_output_section os).
Abbreviation has_data := (fun id => has_data_in_file os (primary id)).
Abbreviation in_memory := (fun id => is_alloc (section_flags os (primary id))).
Abbreviation load := (is_load_segment segments).
Abbreviation al := (max_alignment os sizes).

(** *** Alignments *)

Definition grows_to (a : Alignment) (m : gmap Z Alignment) (s : Z) : Prop := exists b, m !! s = Some b /\ exponent a <= exponent b.

Lemma grows_alter a b m s t : grows_to a m s -> grows_to a (alter (fun x => alignment_max x b) t m) s.
Proof.
  intros (c & E & Hle). destruct (decide (t = s)) as [->|Hne].
  - exists (alignment_max c b). rewrite lookup_alter_eq, E. split; [done|]. unfold alignment_max. cbn. lia.
  - exists c. by rewrite lookup_alter_ne.
Qed.

Lemma grows_alters a b m s ts : grows_to a m s -> grows_to a (foldl (fun m t => alter (fun x => alignment_max x b) t m) m ts) s.
Proof. revert m. induction ts as [|t ts IH]; intros m Hm; [done|]. cbn [foldl]. by apply IH, grows_alter. Qed.

Lemma alters_reach a b m s ts : grows_to a m s -> s ∈ ts -> grows_to b (foldl (fun m t => alter (fun x => alignment_max x b) t m) m ts) s.
Proof.
  revert m. induction ts as [|t ts IH]; intros m Hm Hin; cbn [foldl]; [by apply elem_of_nil in Hin|]. apply elem_of_cons in Hin as [->|Hin].
  - apply grows_alters. destruct Hm as (c & E & _). exists (alignment_max c b). rewrite lookup_alter_eq, E. split; [done|]. unfold alignment_max. cbn. lia.
  - apply IH; [by apply grows_alter|done].
Qed.

Lemma alignments_grow a m s events active : grows_to a m s -> grows_to a (segment_alignments_loop os args segments sizes events m active) s.
Proof.
  revert m active. induction events as [|[t|t|id|l] events IH]; intros m active Hm; cbn [segment_alignments_loop]; [done|..|by apply IH].
  - destruct (load t); [|by apply IH]. apply IH. destruct (m !! t) eqn:E; [done|]. destruct Hm as (b & Hb & Hle). exists b.
    rewrite lookup_insert_ne; [done|]. intros ->. congruence.
  - by apply IH.
  - by apply IH, grows_alters.
Qed.

Lemma alignments_cover a m s body post active id : grows_to a m s -> s ∈ active -> SegmentEnd s ∉ body -> id ∈ section_ids body ->
  grows_to (al id) (segment_alignments_loop os args segments sizes (body ++ post) m active) s.
Proof.
  revert m active. induction body as [|[t|t|i|l] body IH]; intros m active Hm Ha He Hin; cbn [app segment_alignments_loop]; [by apply elem_of_nil in Hin|..];
    apply not_elem_of_cons in He as [Hne He].
  - destruct (load t); [|by apply IH]. apply IH; try done; [|set_solver]. destruct (m !! t) eqn:E; [done|]. destruct Hm as (b & Hb & Hle).
    exists b. rewrite lookup_insert_ne; [done|]. intros ->. congruence.
  - apply IH; try done. apply list_elem_of_filter. split; [|done]. intros ->. done.
  - cbn [section_ids omap list_omap] in Hin. apply elem_of_cons in Hin as [->|Hin].
    + apply alignments_grow. by eapply alters_reach.
    + apply IH; try done. by apply grows_alters.
  - by apply IH.
Qed.

(** The alignment of a LOAD segment reaches that of its sections and of pages. *)
Lemma segment_alignment pre s body post : load s = true -> SegmentEnd s ∉ body ->
  exists a, compute_segment_alignments os args segments sizes (pre ++ SegmentStart s :: body ++ post) !! s = Some a /\
    exponent (loadable_segment_alignment args) <= exponent a /\ forall id, id ∈ section_ids body -> exponent (al id) <= exponent a.
Proof.
  intros Hs He. unfold compute_segment_alignments.
  enough (forall m active, (forall t, is_Some (m !! t) -> grows_to (loadable_segment_alignment args) m t) ->
    grows_to (loadable_segment_alignment args) (segment_alignments_loop os args segments sizes (pre ++ SegmentStart s :: body ++ post) m active) s /\
    forall id, id ∈ section_ids body -> grows_to (al id) (segment_alignments_loop os args segments sizes (pre ++ SegmentStart s :: body ++ post) m active) s) as H.
  { destruct (H ∅ []) as [(a & E & Ha) Hb]; [intros t [x Hx]; by rewrite lookup_empty in Hx|]. exists a. split_and!; [done..|].
    intros id Hid. destruct (Hb id Hid) as (b & E' & Hle). congruence. }
  induction pre as [|[t|t|i|l] pre IH]; intros m active Hm; cbn [app segment_alignments_loop].
  - rewrite Hs. set (m' := match m !! s with Some _ => m | None => _ end).
    assert (grows_to (loadable_segment_alignment args) m' s) as Hg.
    { unfold m'. destruct (m !! s) eqn:E; [by apply Hm|]. exists (loadable_segment_alignment args). by rewrite lookup_insert_eq. }
    split; [by apply alignments_grow|]. intros id Hid. eapply alignments_cover; [exact Hg|set_solver|done..].
  - destruct (load t); [|by apply IH]. apply IH. intros u Hu. destruct (m !! t) eqn:E; [by apply Hm|]. destruct (decide (t = u)) as [->|Hne].
    + exists (loadable_segment_alignment args). by rewrite lookup_insert_eq.
    + rewrite lookup_insert_ne in Hu by done. destruct (Hm u Hu) as (b & Eb & Hb). exists b. by rewrite lookup_insert_ne.
  - by apply IH.
  - apply IH. intros u Hu. apply grows_alters, Hm. clear -Hu. revert m Hu. induction active as [|x xs IH]; intros m Hu; [done|].
    cbn [foldl] in Hu. specialize (IH _ Hu). destruct (decide (x = u)) as [->|]; [|by rewrite lookup_alter_ne in IH].
    rewrite lookup_alter_eq in IH. by apply fmap_is_Some in IH.
  - by apply IH.
Qed.

Hypothesis Hfull : should_output_partial_object args = false.
Hypothesis Hpage : supported (loadable_segment_alignment args).
Hypothesis Hmin : forall id, supported (min_alignment os id).
Hypothesis Hsizes : forall p, 0 <= sizes p.
Hypothesis Hrelro : is_alloc (section_flags os (primary_output_section os Id.RELRO_PADDING)) = true.

Definition all_supported (m : gmap Z Alignment) : Prop := forall t a, m !! t = Some a -> supported a.

Lemma all_supported_alters b m ts : supported b -> all_supported m -> all_supported (foldl (fun m t => alter (fun x => alignment_max x b) t m) m ts).
Proof.
  intros Hb. revert m. induction ts as [|t ts IH]; intros m Hm; [done|]. cbn [foldl]. apply IH. intros u a E. destruct (decide (t = u)) as [->|Hne].
  - rewrite lookup_alter_eq in E. apply fmap_Some in E as (x & Ex & ->). apply supported_max; [by eapply Hm|done].
  - rewrite lookup_alter_ne in E by done. by eapply Hm.
Qed.

Lemma alignments_supported events : all_supported (compute_segment_alignments os args segments sizes events).
Proof.
  unfold compute_segment_alignments. generalize (@nil Z) as active.
  assert (all_supported ∅) as H by (intros t a E; by rewrite lookup_empty in E). revert H. generalize (∅ : gmap Z Alignment) as m.
  induction events as [|[t|t|i|l] events IH]; intros m Hm active; cbn [segment_alignments_loop]; [done|..|by apply IH].
  - destruct (load t); [|by apply IH]. apply IH. destruct (m !! t) eqn:E; [done|]. intros u a Eu. destruct (decide (t = u)) as [->|Hne].
    + rewrite lookup_insert_eq in Eu. by injection Eu as <-.
    + rewrite lookup_insert_ne in Eu by done. by eapply Hm.
  - by apply IH.
  - apply IH, all_supported_alters; [|done]. by apply supported_max_alignment.
Qed.

(** *** The cursor *)

(** Orders in which LOAD segments follow each other and hold the sections that are loaded, no section being at a fixed address. *)
Fixpoint well_nested (open : option Z) (events : list OrderEvent) : bool :=
  match events with
  | [] => bool_decide (open = None)
  | SegmentStart s :: events => if load s then bool_decide (open = None) && well_nested (Some s) events else well_nested open events
  | SegmentEnd s :: events => if load s then bool_decide (open = Some s) && well_nested None events else well_nested open events
  | OutputSection id :: events =>
      Bool.eqb (in_memory id) (bool_decide (is_Some open)) && bool_decide (so_location (output_info os id) = None) && well_nested open events
  | SetLocation _ :: _ => false
  end.

Definition event_room (e : OrderEvent) : Z := match e with OutputSection id => section_room sizes id | SegmentStart _ => 2 ^ 17 | _ => 0 end.
Fixpoint events_room (events : list OrderEvent) : Z := match events with [] => 0 | e :: events => event_room e + events_room events end.

Lemma event_room_nonneg e : 0 <= event_room e.
Proof. destruct e; cbn; try lia. pose proof (section_room_pos sizes Hsizes id). lia. Qed.
Lemma events_room_nonneg events : 0 <= events_room events.
Proof. induction events as [|e events IH]; cbn; [lia|]. pose proof (event_room_nonneg e). lia. Qed.
Lemma events_room_app a b : events_room (a ++ b) = events_room a + events_room b.
Proof. induction a as [|e a IH]; cbn; lia. Qed.

Context (alignments : gmap Z Alignment) (Halignments : all_supported alignments).
Abbreviation step := (move os args segments sizes alignments).
Abbreviation run := (after os args segments sizes alignments).

Definition fixed_nowhere (e : OrderEvent) : Prop :=
  match e with OutputSection id => so_location (output_info os id) = None | SetLocation _ => False | _ => True end.

(** A LOAD segment starts on a page of its own, with the file as far into a page as the memory. *)
Lemma start_segment_spec s c : load s = true -> pending_location c = None -> roomy c (2 ^ 17) ->
  let a := default (loadable_segment_alignment args) (alignments !! s) in let c' := start_segment args segments alignments s c in
  follows c c' (2 ^ 17) /\ at_file c' mod value a = 0 /\ at_mem c' mod value a = 0.
Proof.
  intros Hs Hp (Hf & Hm & Hrf & Hrm). cbv zeta. unfold start_segment. rewrite Hs, Hp. set (a := default _ _).
  assert (supported a) as Ha by (unfold a; destruct (alignments !! s) eqn:E; [by eapply Halignments|done]). pose proof (value_bounds a Ha).
  destruct (align_up_spec a (at_file c) Ha) as [Hfm Hfr]; [lia..|]. destruct (align_up_spec a (at_mem c) Ha) as [Hmm Hmr]; [lia..|].
  rewrite align_modulo_zero by (done || lia). unfold follows. cbn. rewrite Hp. split_and!; lia || done.
Qed.

Lemma move_follows e c : fixed_nowhere e -> pending_location c = None -> roomy c (event_room e) -> follows c (step e c) (event_room e).
Proof.
  intros Hx Hp Hroom. assert (follows c c (event_room e)) as Hsame by (unfold follows; pose proof (event_room_nonneg e); split_and!; lia || done).
  destruct e as [s|s|id|l]; cbn [move event_room fixed_nowhere] in *; try done.
  - destruct (load s) eqn:Hs; [by apply start_segment_spec|]. unfold start_segment. by rewrite Hs.
  - destruct (in_memory id) eqn:Ha.
    + pose proof (layout_section_placed os args sizes Hfull Hpage Hmin Hsizes id c Ha Hx Hroom) as H.
      destruct (layout_section _ _ _ _ _). cbn. apply H.
    + pose proof (layout_section_outside os args sizes Hfull Hmin Hsizes id c) as H.
      destruct (layout_section _ _ _ _ _) as [c' rs]. cbn. destruct H as (_ & (Hf & Hm & Hpe) & _); [intros ->; congruence|done..|].
      unfold follows. pose proof (section_room_pos sizes Hsizes id). split_and!; lia || done.
Qed.

Lemma run_follows events c : Forall fixed_nowhere events -> pending_location c = None -> roomy c (events_room events) ->
  follows c (run events c) (events_room events).
Proof.
  revert c. induction events as [|e events IH]; intros c Hx Hp Hroom; cbn [after foldl events_room] in *; [unfold follows; split_and!; lia || done|].
  apply Forall_cons in Hx as [He Hx]. pose proof (event_room_nonneg e). pose proof (events_room_nonneg events).
  destruct (move_follows e c He Hp) as (Hf & Hm & Hpe); [unfold roomy in *; lia|].
  destruct (IH (step e c)) as (If & Im & Ip); [done|congruence|unfold roomy in *; lia|]. unfold follows. fold (run events (step e c)) in *.
  split_and!; try lia. congruence.
Qed.

(** *** Inside a segment *)

Definition calm (e : OrderEvent) : Prop :=
  match e with
  | SegmentStart s | SegmentEnd s => load s = false
  | OutputSection id => in_memory id = true /\ so_location (output_info os id) = None
  | SetLocation _ => False
  end.

Lemma calm_fixed e : calm e -> fixed_nowhere e.
Proof. destruct e; cbn; try done. by intros []. Qed.

(** Sections whose addresses move with the file. *)
Definition steady (c : Cursor) (body : list OrderEvent) : Prop := forall pre id post, body = pre ++ OutputSection id :: post ->
  has_data id = true \/ Forall (fun r => mem_size r = 0) (snd (layout_section os args sizes id (run pre c))).

Lemma calm_step e c d : calm e -> pending_location c = None -> roomy c (event_room e) ->
  (forall id, e = OutputSection id -> d mod value (al id) = 0) -> d <= cursor_distance c ->
  d <= cursor_distance (step e c) /\
  (cursor_distance c = d -> (forall id, e = OutputSection id -> has_data id = true \/ Forall (fun r => mem_size r = 0) (snd (layout_section os args sizes id c))) ->
   cursor_distance (step e c) = d).
Proof.
  intros He Hp Hroom Hd Hle. destruct e as [s|s|id|l]; cbn [calm move] in *; try done.
  - unfold start_segment. by rewrite He.
  - destruct He as [Ha Hl]. pose proof (layout_section_placed os args sizes Hfull Hpage Hmin Hsizes id c Ha Hl Hroom) as H.
    specialize (Hd id eq_refl). destruct (layout_section os args sizes id c) as [c' rs] eqn:E. destruct H as (_ & _ & _ & [H1 _ H3]). cbn [fst snd].
    split; [by apply H1|]. intros Hc Hor. specialize (Hor id eq_refl). rewrite E in Hor. destruct H3 as [_ H3]; [by rewrite Hc|done|]. congruence.
Qed.

Lemma run_distance body c d : Forall calm body -> pending_location c = None -> roomy c (events_room body) ->
  (forall id, id ∈ section_ids body -> d mod value (al id) = 0) -> d <= cursor_distance c ->
  d <= cursor_distance (run body c) /\ (cursor_distance c = d -> steady c body -> cursor_distance (run body c) = d).
Proof.
  revert c. induction body as [|e body IH]; intros c Hx Hp Hroom Hd Hle; [done|]. cbn [after foldl events_room] in *. fold (run body (step e c)).
  apply Forall_cons in Hx as [He Hx]. pose proof (event_room_nonneg e). pose proof (events_room_nonneg body).
  assert (roomy c (event_room e)) as Hre by (unfold roomy in *; lia).
  destruct (move_follows e c (calm_fixed e He) Hp Hre) as (Hf & Hm & Hpe).
  destruct (calm_step e c d He Hp Hre) as [H1 H2]; [intros id ->; apply Hd; by left|done|].
  destruct (IH (step e c)) as [I1 I2]; [done|congruence|unfold roomy in *; lia|intros id Hid; apply Hd; destruct e; try done; by right|done|].
  split; [done|]. intros Hc Hst. apply I2.
  - apply H2; [done|]. intros id ->. by apply (Hst [] id body).
  - intros pre id post ->. by apply (Hst (e :: pre) id post).
Qed.

(** *** The shape of an order *)

Lemma well_nested_left open l1 l2 : well_nested open (l1 ++ l2) = true -> exists open', well_nested open' l2 = true /\
  match open' with
  | Some s => (exists pre b, l1 = pre ++ SegmentStart s :: b /\ load s = true /\ Forall calm b) \/ open = Some s /\ Forall calm l1
  | None => True
  end.
Proof.
  revert open. induction l1 as [|e l1 IH]; intros open H.
  - exists open. split; [done|]. destruct open; [by right|done].
  - cbn [app well_nested] in H.
    assert (forall open1, well_nested open1 (l1 ++ l2) = true -> (forall s, open1 = Some s -> open = Some s /\ calm e \/ e = SegmentStart s /\ load s = true) ->
      exists open', well_nested open' l2 = true /\ match open' with
        | Some s => (exists pre b, e :: l1 = pre ++ SegmentStart s :: b /\ load s = true /\ Forall calm b) \/ open = Some s /\ Forall calm (e :: l1)
        | None => True end) as Hgo.
    { intros open1 H1 Hs. destruct (IH open1 H1) as (open' & Hw & Ho). exists open'. split; [done|]. destruct open' as [s|]; [|done].
      destruct Ho as [(pre & b & -> & Hld & Hb)|[-> Hb]]; [left; by exists (e :: pre), b|].
      destruct (Hs s eq_refl) as [[-> Hc]|[-> Hld]]; [right; split; [done|by constructor]|left; by exists [], l1]. }
    destruct e as [s|s|id|l]; cbn [calm] in Hgo; [destruct (load s) eqn:Hld..| |done].
    + apply andb_true_iff in H as [Ho H]. apply (Hgo _ H). intros t [= <-]. by right.
    + apply (Hgo _ H). intros t ->. by left.
    + apply andb_true_iff in H as [Ho H]. by apply (Hgo _ H).
    + apply (Hgo _ H). intros t ->. by left.
    + apply andb_true_iff in H as [[Ha Hl%bool_decide_eq_true]%andb_true_iff H]. apply (Hgo _ H). intros t ->. left. split; [done|]. split; [|done].
      by destruct (in_memory id).
Qed.

Lemma well_nested_right s l : well_nested (Some s) l = true -> exists b post, l = b ++ SegmentEnd s :: post /\ Forall calm b /\ load s = true /\ well_nested None post = true.
Proof.
  induction l as [|e l IH]; intros H; cbn [well_nested] in H; [done|].
  assert (well_nested (Some s) l = true -> calm e -> exists b post, e :: l = b ++ SegmentEnd s :: post /\ Forall calm b /\ load s = true /\ well_nested None post = true) as Hgo.
  { intros Hl He. destruct (IH Hl) as (b & post & -> & Hb & Hld). exists (e :: b), post. split; [done|]. split; [by constructor|done]. }
  destruct e as [t|t|id|a]; [destruct (load t) eqn:Hld..| |done].
  - by apply andb_true_iff in H as [Ho%bool_decide_eq_true H].
  - by apply Hgo.
  - apply andb_true_iff in H as [Ho%bool_decide_eq_true H]. injection Ho as ->. by exists [], l.
  - by apply Hgo.
  - apply andb_true_iff in H as [[Ha Hl%bool_decide_eq_true]%andb_true_iff H]. apply Hgo; [done|]. split; [|done]. by destruct (in_memory id).
Qed.

(** A loaded section lies in a LOAD segment, between whose ends no other starts. *)
Lemma section_in_segment l1 id l2 : well_nested None (l1 ++ OutputSection id :: l2) = true -> in_memory id = true ->
  exists pre s b1 b2 post, l1 = pre ++ SegmentStart s :: b1 /\ l2 = b2 ++ SegmentEnd s :: post /\ load s = true /\ Forall calm b1 /\ Forall calm b2 /\
    so_location (output_info os id) = None.
Proof.
  intros H Ha. apply well_nested_left in H as (open & H & Ho). cbn [well_nested] in H. rewrite Ha in H.
  apply andb_true_iff in H as [[Hs Hl%bool_decide_eq_true]%andb_true_iff H]. destruct open as [s|]; [|done].
  destruct Ho as [(pre & b1 & -> & Hld & Hb1)|[? _]]; [|done]. apply well_nested_right in H as (b2 & post & -> & Hb2 & _ & _).
  by exists pre, s, b1, b2, post.
Qed.

(** A LOAD segment that ends has started, with nothing of another in between. *)
Lemma segment_body l1 s l2 : well_nested None (l1 ++ SegmentEnd s :: l2) = true -> load s = true ->
  exists pre b, l1 = pre ++ SegmentStart s :: b /\ Forall calm b.
Proof.
  intros H Hld. apply well_nested_left in H as (open & H & Ho). cbn [well_nested] in H. rewrite Hld in H.
  apply andb_true_iff in H as [->%bool_decide_eq_true H]. destruct Ho as [(pre & b & -> & _ & Hb)|[? _]]; [|done]. by exists pre, b.
Qed.
End segments.
