(* ===== verification/SegmentExtents.v ===== *)
(** The extents of segments are those of their sections: where they are within the run of
    layout, and that LOAD segments keep the distance from file to memory and share no page. *)
From stdpp Require Import base numbers list gmap sorting.
From S2P Require Import Prelude ValueFlags Alignment OutputOrder AddressLayout Placement.
Open Scope Z_scope.

(** Lists that differ in the way they are put together. *)
Ltac same_list := repeat (rewrite <- app_assoc || rewrite <- app_comm_cons || (progress cbn [app])); reflexivity.

(** Two places in a list. *)
Lemma split_cases {A} (l k l' k' : list A) x y : l ++ x :: k = l' ++ y :: k' ->
  (l = l' /\ x = y /\ k = k') \/ (exists m, l = l' ++ y :: m /\ k' = m ++ x :: k) \/ (exists m, l' = l ++ x :: m /\ k = m ++ y :: k').
Proof.
  revert l'. induction l as [|z l IH]; intros [|z' l'] H; cbn in H; injection H as -> H.
  - by left.
  - right; right. exists l'. by rewrite H.
  - right; left. exists l. by rewrite H.
  - destruct (IH l' H) as [(-> & -> & ->)|[(m & -> & ->)|(m & -> & ->)]]; [by left|right; left; by exists m|right; right; by exists m].
Qed.

(** ** Sorting *)

Lemma insert_by_perm {A} (le : A -> A -> bool) x l : insert_by le x l ≡ₚ x :: l.
Proof. induction l as [|y l IH]; [done|]. cbn. destruct (le x y); [done|]. rewrite IH. apply Permutation_swap. Qed.

Lemma sort_by_perm {A} (le : A -> A -> bool) l : sort_by le l ≡ₚ l.
Proof. induction l as [|x l IH]; [done|]. cbn. by rewrite insert_by_perm, IH. Qed.

Lemma sort_by_sorted {A} (key : A -> Z) l : StronglySorted Z.le (key <$> sort_by (fun a b => key a <=? key b) l).
Proof.
  induction l as [|x l IH]; [constructor|]. cbn [sort_by foldr]. fold (sort_by (fun a b => key a <=? key b) l). revert IH.
  generalize (sort_by (fun a b => key a <=? key b) l) as k. induction k as [|y k IHk]; intros Hs; cbn; [by repeat constructor|].
  cbn in Hs. apply StronglySorted_inv in Hs as [Hs Hy]. destruct (Z.leb_spec (key x) (key y)) as [Hle|Hlt].
  - cbn. constructor; [by constructor|]. constructor; [done|]. eapply Forall_impl; [exact Hy|]. intros; lia.
  - cbn. constructor; [by apply IHk|]. apply Forall_fmap, Forall_forall. intros z Hz. rewrite insert_by_perm in Hz.
    apply elem_of_cons in Hz as [->|Hz]; cbn; [lia|]. rewrite Forall_fmap, Forall_forall in Hy. by apply Hy.
Qed.

(** Distinct ids below [n], as many as [n]: sorted, each is at its own place. *)
Lemma sorted_ids (l : list Z) n : StronglySorted Z.le l -> NoDup l -> Forall (fun i => 0 <= i < Z.of_nat n) l -> length l = n -> l = Z.of_nat <$> seq 0 n.
Proof.
  intros Hs Hnd Hb Hl.
  assert (l ≡ₚ Z.of_nat <$> seq 0 n) as Hp.
  { apply submseteq_length_Permutation; [|by rewrite length_fmap, length_seq, Hl].
    apply NoDup_submseteq; [done|]. intros i Hi. rewrite Forall_forall in Hb. specialize (Hb i Hi).
    apply list_elem_of_fmap. exists (Z.to_nat i). rewrite elem_of_seq. lia. }
  apply (StronglySorted_unique Z.le); [done| |done].
  clear. generalize 0%nat. induction n as [|n IH]; intros k; cbn; constructor; [apply IH|].
  apply Forall_fmap, Forall_forall. intros i Hi%elem_of_seq. cbn. lia.
Qed.

(** ** The extents of segments *)

Section extents.
Context (os : OutputSections) (args : LayoutArgs) (segments : list ProgramSegmentDef) (layouts : Z -> OutputRecordLayout).

Definition segment_ends (events : list OrderEvent) : list Z := omap (fun e => match e with SegmentEnd s => Some s | _ => None end) events.

(** The sections that count. *)
Definition visible (events : list OrderEvent) : list OutputRecordLayout :=
  layouts <$> filter (fun id => is_ignored os id (layouts id) = false) (section_ids events).

Definition widen_section : extent -> OutputRecordLayout -> extent := widen (fun _ l => alignment l).

Abbreviation loop := (segments_loop os args segments layouts).

Lemma loop_ends events active complete all : loop events active complete = Ret (Ok all) ->
  map fst all = map fst complete ++ segment_ends events /\ Forall (fun s => 0 <= s -> s < len active) (segment_ends events).
Proof.
  revert active complete. induction events as [|[s|s|id|l] events IH]; intros active complete H; cbn [segments_loop segment_ends omap list_omap] in *.
  - injection H as ->. by rewrite app_nil_r.
  - destruct (s <? len active); [|done]. apply IH in H. unfold len in *. by rewrite length_insert in H.
  - destruct (active !! Z.to_nat s) as [[e|]|] eqn:E; try done. apply IH in H as [H Hb]. split; [by rewrite H, map_app, <- app_assoc|].
    apply lookup_lt_Some in E. unfold len in *. rewrite length_insert in Hb. constructor; [lia|done].
  - cbv zeta in H. destruct (is_ignored _ _ _); [by apply IH|]. destruct (forallb _ _).
    + destruct (negb _); [done|]. destruct (is_alloc _); [done|]. by apply IH.
    + destruct (validate_section _ _ _); [|done]. apply IH in H. unfold cover_section, len in *. by rewrite length_fmap in H.
  - by apply IH.
Qed.

Lemma loop_complete events active complete all x : loop events active complete = Ret (Ok all) -> x ∈ complete -> x ∈ all.
Proof.
  revert active complete. induction events as [|[s|s|id|l] events IH]; intros active complete H Hx; cbn [segments_loop] in *.
  - by injection H as ->.
  - destruct (s <? len active); [|done]. by eapply IH.
  - destruct (active !! Z.to_nat s) as [[e|]|] eqn:E; try done. eapply IH; [done|]. apply elem_of_app. by left.
  - cbv zeta in H. destruct (is_ignored _ _ _); [by eapply IH|]. destruct (forallb _ _).
    + destruct (negb _); [done|]. destruct (is_alloc _); [done|]. by eapply IH.
    + destruct (validate_section _ _ _); [|done]. by eapply IH.
  - by eapply IH.
Qed.

(** A segment that is active gets the extents of the sections up to its end. *)
Lemma loop_body body s post active complete all e : 0 <= s ->
  (forall t, SegmentStart t ∈ body \/ SegmentEnd t ∈ body -> 0 <= t /\ t <> s) ->
  active !! Z.to_nat s = Some (Some e) -> loop (body ++ SegmentEnd s :: post) active complete = Ret (Ok all) ->
  (s, foldl widen_section e (visible body)) ∈ all.
Proof.
  intros Hs0. revert active complete e. induction body as [|ev body IH]; intros active complete e Hne Ha H; cbn [app segments_loop] in H.
  - rewrite Ha in H. eapply loop_complete; [exact H|]. apply elem_of_app. right. by left.
  - assert (forall t, SegmentStart t ∈ body \/ SegmentEnd t ∈ body -> 0 <= t /\ t <> s) as Hne' by (intros t Ht; apply Hne; set_solver).
    destruct ev as [t|t|id|l]; cbn [segments_loop] in H.
    + destruct (t <? len active); [|done]. destruct (Hne t) as [Ht0 Hts]; [left; left|]. eapply IH; [done| |exact H].
      rewrite list_lookup_insert_ne; [done|lia].
    + destruct (active !! Z.to_nat t) as [[e'|]|] eqn:E; try done. destruct (Hne t) as [Ht0 Hts]; [right; left|].
      eapply IH; [done| |exact H]. rewrite list_lookup_insert_ne; [done|lia].
    + cbv zeta in H. unfold visible. cbn [section_ids omap list_omap].
      destruct (is_ignored os id (layouts id)) eqn:Ei.
      * rewrite filter_cons_False by congruence. by eapply IH.
      * rewrite filter_cons_True by done. cbn [fmap list_fmap foldl].
        assert (forallb (fun a : option extent => match a with None => true | Some _ => false end) active = false) as Hf.
        { apply not_true_iff_false. intros Hf. rewrite forallb_forall in Hf. apply list_elem_of_lookup_2, list_elem_of_In in Ha. by specialize (Hf _ Ha). }
        rewrite Hf in H. destruct (validate_section _ _ _); [|done]. eapply IH; [done| |exact H].
        unfold cover_section. by rewrite list_lookup_fmap, Ha.
    + by eapply IH.
Qed.

Lemma loop_segment pre s body post active complete all : 0 <= s ->
  (forall t, SegmentStart t ∈ body \/ SegmentEnd t ∈ body -> 0 <= t /\ t <> s) ->
  loop (pre ++ SegmentStart s :: body ++ SegmentEnd s :: post) active complete = Ret (Ok all) ->
  (s, foldl widen_section (started args segments s) (visible body)) ∈ all.
Proof.
  intros Hs0 Hne. revert active complete. induction pre as [|[t|t|id|l] pre IH]; intros active complete H; cbn [app segments_loop] in H.
  - destruct (Z.ltb_spec s (len active)) as [Hlt|]; [|done]. eapply loop_body; [done..| |exact H].
    rewrite list_lookup_insert_eq; [done|]. unfold len in Hlt. lia.
  - destruct (t <? len active); [|done]. by eapply IH.
  - destruct (active !! Z.to_nat t) as [[e|]|] eqn:E; try done. by eapply IH.
  - cbv zeta in H. destruct (is_ignored _ _ _); [by eapply IH|]. destruct (forallb _ _).
    + destruct (negb _); [done|]. destruct (is_alloc _); [done|]. by eapply IH.
    + destruct (validate_section _ _ _); [|done]. by eapply IH.
  - by eapply IH.
Qed.

(** The segments of the result: the complete ones, by their ids. *)
Lemma sized_segments_in complete ids sized sl : sized_segments complete ids = Ret sized ->
  sl ∈ sized <-> exists t e, sl_id sl ∈ ids /\ complete !! Z.to_nat (sl_id sl) = Some (t, e) /\ sl = mkSegmentLayout (sl_id sl) (segment_sizes e).
Proof.
  revert sized. induction ids as [|id ids IH]; intros sized H; cbn [sized_segments] in H.
  - injection H as <-. split; [by intros ?%elem_of_nil|]. by intros (t & e & ?%elem_of_nil & _).
  - destruct (complete !! Z.to_nat id) as [[t e]|] eqn:E; [|done]. destruct (sized_segments complete ids) as [rest|]; [|done].
    injection H as <-. specialize (IH rest eq_refl). rewrite elem_of_cons, IH. split.
    + intros [->|(t' & e' & Hin & Hl & Hsl)]; [exists t, e; split_and!; [left|done|done]|exists t', e'; split_and!; [by right|done|done]].
    + intros (t' & e' & Hin & Hl & Hsl). apply elem_of_cons in Hin as [Heq|Hin]; [left|right; by exists t', e'].
      rewrite Heq, E in Hl. injection Hl as <- <-. by rewrite Hsl, Heq.
Qed.

Lemma segment_layouts number events ids res : should_output_partial_object args = false -> NoDup (segment_ends events) ->
  Forall (fun s => 0 <= s) (segment_ends events) ->
  compute_segment_layout os args segments number layouts events ids = Ret (Ok res) ->
  exists all, loop events (repeat None (length segments)) [] = Ret (Ok all) /\ (forall sl, sl ∈ sl_segments res -> sl_id sl ∈ ids) /\
    forall sl, 0 <= sl_id sl -> sl ∈ sl_segments res <-> exists e, sl_id sl ∈ ids /\ (sl_id sl, e) ∈ all /\ sl = mkSegmentLayout (sl_id sl) (segment_sizes e).
Proof.
  intros Hp Hnd Hpos H. unfold compute_segment_layout in H. rewrite Hp in H.
  destruct (loop events _ _) as [[all|]|] eqn:E; try done. exists all. split; [done|]. set (sorted := sort_by _ all) in H.
  destruct (Z.eqb_spec (len sorted) (len segments)) as [Hl|]; [|done]. cbn [negb] in H.
  destruct (sized_segments sorted ids) as [sized|] eqn:Es; [|done]. cbn in H. injection H as <-. cbn [sl_segments].
  destruct (loop_ends _ _ _ _ E) as [Hends Hb]. cbn [map app] in Hends.
  assert (sorted ≡ₚ all) as Hperm by apply sort_by_perm.
  assert (sorted.*1 = Z.of_nat <$> seq 0 (length segments)) as Hids.
  { apply sorted_ids.
    - apply (sort_by_sorted fst).
    - rewrite Hperm. change (all.*1) with (map fst all). by rewrite Hends.
    - rewrite Hperm. change (all.*1) with (map fst all). rewrite Hends. rewrite Forall_forall in Hb, Hpos. apply Forall_forall. intros s Hs.
      specialize (Hb s Hs (Hpos s Hs)). specialize (Hpos s Hs). unfold len in Hb. rewrite repeat_length in Hb. lia.
    - rewrite length_fmap. unfold len in Hl. lia. }
  split; [intros sl; rewrite (sort_by_perm _ sized), (sized_segments_in _ _ _ _ Es); by intros (? & ? & ? & _)|].
  intros sl Hsl. rewrite (sort_by_perm _ sized), (sized_segments_in _ _ _ _ Es). split.
  - intros (t & e & Hin & Hlk & Heq). exists e. split_and!; [done| |done]. rewrite <- Hperm. apply list_elem_of_lookup_2 in Hlk as Hm.
    assert (sorted.*1 !! Z.to_nat (sl_id sl) = Some t) as Ht by (by rewrite list_lookup_fmap, Hlk).
    rewrite Hids, list_lookup_fmap in Ht. apply fmap_Some in Ht as (n & Hn & ->). apply lookup_seq in Hn as [-> _].
    replace (Z.of_nat (0 + Z.to_nat (sl_id sl))) with (sl_id sl) in Hm by lia. done.
  - intros (e & Hin & Hm & Heq). exists (sl_id sl), e. split_and!; [done| |done]. rewrite <- Hperm in Hm. apply list_elem_of_lookup in Hm as [n Hn].
    assert (sorted.*1 !! n = Some (sl_id sl)) as Ht by (by rewrite list_lookup_fmap, Hn).
    rewrite Hids, list_lookup_fmap in Ht. apply fmap_Some in Ht as (m & Hseq & Heq'). apply lookup_seq in Hseq as [-> _].
    by replace (Z.to_nat (sl_id sl)) with n by lia.
Qed.
End extents.

(** ** Alignments of sections *)

Lemma base_part_in id : small_id id -> base_part_id id ∈ part_ids id.
Proof.
  unfold small_id. intros Hid. unfold part_ids. apply list_elem_of_fmap. exists 0%nat. split; [|rewrite elem_of_seq; unfold num_parts, NUM_ALIGNMENTS, MAX_ALIGNMENT_EXPONENT; destruct (id <? _); lia].
  unfold part_offset, base_part_id, NUM_SINGLE_PART_SECTIONS, NUM_ALIGNMENTS, MAX_ALIGNMENT_EXPONENT. change (u32 (Z.of_nat 0)) with 0. rewrite Z.add_0_r.
  symmetry. apply wrap_id. destruct (Z.ltb_spec id 38); [unfold is_uint; lia|]. unfold is_uint. apply Z.mod_pos_bound. lia.
Qed.

Lemma min_le_max os sizes id : small_id id -> exponent (min_alignment os id) <= exponent (max_alignment os sizes id).
Proof.
  intros Hid. unfold max_alignment. rewrite (part_ids_section id _ Hid (base_part_in id Hid)). unfold alignment_max. cbn. lia.
Qed.

Lemma layout_alignment os records id n : exponent (min_alignment os id) <= n -> (forall r, r ∈ records <$> part_ids id -> exponent (alignment r) <= n) ->
  exponent (alignment (layout_sections os records id)) <= n.
Proof.
  intros Hmin Hall. unfold layout_sections. cbn [alignment].
  apply (widen_alignment (fun e r => if 0 <? mem_size r then alignment r else ex_alignment e) _ (mkExtent U64_MAX 0 U64_MAX 0 (min_alignment os id))); [done|].
  intros e r Hr He. destruct (0 <? mem_size r); [by apply Hall|done].
Qed.

(** ** What layout is given *)

Abbreviation loaded os := (fun id => is_alloc (section_flags os (primary_output_section os id))).
Abbreviation with_data os := (fun id => has_data_in_file os (primary_output_section os id)).

(** In each LOAD segment, the sections without data in the file come last. *)
Fixpoint bss_last (os : OutputSections) (segments : list ProgramSegmentDef) (bss : bool) (events : list OrderEvent) : bool :=
  match events with
  | [] => true
  | SegmentStart s :: events | SegmentEnd s :: events => bss_last os segments (if is_load_segment segments s then false else bss) events
  | OutputSection id :: events => if with_data os id then negb bss && bss_last os segments bss events else bss_last os segments true events
  | _ :: events => bss_last os segments bss events
  end.

Record sound_input (os : OutputSections) (args : LayoutArgs) (segments : list ProgramSegmentDef) (sizes : Z -> Z) (events : list OrderEvent) : Prop := {
  si_full : should_output_partial_object args = false;
  si_page : supported (loadable_segment_alignment args);
  si_min : forall id, supported (min_alignment os id);
  si_sizes : forall p, 0 <= sizes p;
  si_relro : loaded os Id.RELRO_PADDING = true;
  si_nested : well_nested os segments None events = true;
  si_bss : bss_last os segments false events = true;
  si_sections : NoDup (section_ids events);
  si_small : Forall small_id (section_ids events);
  si_ends : NoDup (segment_ends events);
  si_ids : forall s, SegmentStart s ∈ events \/ SegmentEnd s ∈ events -> 0 <= s;
  si_base : 0 <= base_address os;
  si_room : base_address os + events_room sizes events < 2 ^ 63 }.

Section input.
Context (os : OutputSections) (args : LayoutArgs) (segments : list ProgramSegmentDef) (sizes : Z -> Z) (events : list OrderEvent).
Hypothesis Hin : sound_input os args segments sizes events.

Abbreviation load := (is_load_segment segments).
Definition alignments := compute_segment_alignments os args segments sizes events.
Abbreviation run := (after os args segments sizes alignments).
Abbreviation records := (layout_section_parts os args segments sizes events).
Abbreviation layouts := (layout_sections os records).
Abbreviation start := (first_cursor os).

Lemma alignments_ok : all_supported alignments.
Proof. apply alignments_supported; apply Hin. Qed.

(** *** The run *)

Lemma events_fixed l : (exists k, events = l ++ k) -> Forall (fixed_nowhere os) l.
Proof.
  intros [k E]. pose proof (si_nested _ _ _ _ _ Hin) as H. rewrite E in H. clear E. revert H. generalize (@None Z) as open.
  induction l as [|e l IH]; intros open H; [constructor|]. cbn [app well_nested] in H.
  destruct e as [s|s|id|a]; [destruct (load s)..| |done]; try (apply andb_true_iff in H as [? H]); constructor; try done; try (by eapply IH).
  by apply andb_true_iff in H0 as [_ H0%bool_decide_eq_true].
Qed.

(** At any point the offsets are between those of the start and 64 bits. *)
Lemma run_bounds l k : events = l ++ k -> roomy (run l start) (events_room sizes k) /\ pending_location (run l start) = None /\
  at_file start <= at_file (run l start) /\ at_mem start <= at_mem (run l start).
Proof.
  intros E. pose proof (si_room _ _ _ _ _ Hin) as Hr. pose proof (si_base _ _ _ _ _ Hin). rewrite E, events_room_app in Hr.
  pose proof (events_room_nonneg sizes (si_sizes _ _ _ _ _ Hin) l). pose proof (events_room_nonneg sizes (si_sizes _ _ _ _ _ Hin) k).
  destruct (run_follows os args segments sizes (si_full _ _ _ _ _ Hin) (si_page _ _ _ _ _ Hin) (si_min _ _ _ _ _ Hin) (si_sizes _ _ _ _ _ Hin)
    (si_relro _ _ _ _ _ Hin) alignments alignments_ok l start) as (Hf & Hm & Hp).
  - apply events_fixed. by exists k.
  - done.
  - unfold roomy. cbn. lia.
  - cbn in *. unfold roomy. split_and!; try lia. done.
Qed.

(** And they never go back. *)
Lemma run_mono l k m : events = l ++ k ++ m -> at_file (run l start) <= at_file (run (l ++ k) start) /\ at_mem (run l start) <= at_mem (run (l ++ k) start).
Proof.
  intros E. destruct (run_bounds l (k ++ m) E) as (Hroom & Hp & _). rewrite events_room_app in Hroom. rewrite after_app.
  pose proof (events_room_nonneg sizes (si_sizes _ _ _ _ _ Hin) m).
  destruct (run_follows os args segments sizes (si_full _ _ _ _ _ Hin) (si_page _ _ _ _ _ Hin) (si_min _ _ _ _ _ Hin) (si_sizes _ _ _ _ _ Hin)
    (si_relro _ _ _ _ _ Hin) alignments alignments_ok k (run l start)) as (Hf & Hm & _).
  - assert (Forall (fixed_nowhere os) (l ++ k)) as Hx by (apply events_fixed; exists m; by rewrite <- app_assoc). by apply Forall_app in Hx as [_ Hx].
  - done.
  - unfold roomy in *. lia.
  - lia.
Qed.

(** *** Sections *)

Lemma section_records l id k : events = l ++ OutputSection id :: k ->
  records <$> part_ids id = snd (layout_section os args sizes id (run l start)).
Proof.
  intros E. unfold layout_section_parts. fold alignments.
  pose proof (si_small _ _ _ _ _ Hin) as Hs. pose proof (si_sections _ _ _ _ _ Hin) as Hn. rewrite E in Hs, Hn.
  rewrite E at 1. by apply layout_loop_at.
Qed.

Lemma section_roomy l id k : events = l ++ OutputSection id :: k -> roomy (run l start) (section_room sizes id).
Proof.
  intros E. destruct (run_bounds l (OutputSection id :: k) E) as (Hroom & _). cbn [events_room event_room] in Hroom.
  pose proof (events_room_nonneg sizes (si_sizes _ _ _ _ _ Hin) k). unfold roomy in *. lia.
Qed.

Lemma section_location l id k : events = l ++ OutputSection id :: k -> so_location (output_info os id) = None.
Proof.
  intros E. assert (Forall (fixed_nowhere os) events) as H by (apply events_fixed; exists []; by rewrite app_nil_r).
  rewrite E in H. by apply Forall_app in H as [_ [H _]%Forall_cons].
Qed.

(** Any section: its parts follow each other in the file. *)
Lemma section_file l id k : events = l ++ OutputSection id :: k ->
  file_chain (at_file (run l start)) (records <$> part_ids id) (at_file (run (l ++ [OutputSection id]) start)).
Proof.
  intros E. rewrite (section_records _ _ _ E), after_app. cbn [after foldl move].
  pose proof (section_roomy _ _ _ E) as Hroom. pose proof (section_location _ _ _ E) as Hloc.
  destruct (loaded os id) eqn:Ha.
  - pose proof (layout_section_placed os args sizes (si_full _ _ _ _ _ Hin) (si_page _ _ _ _ _ Hin) (si_min _ _ _ _ _ Hin) (si_sizes _ _ _ _ _ Hin) id
      (run l start) Ha Hloc Hroom) as H. fold (run l start) in *. destruct (layout_section _ _ _ _ _). cbn. eapply chain_file. apply H.
  - pose proof (layout_section_outside os args sizes (si_full _ _ _ _ _ Hin) (si_min _ _ _ _ _ Hin) (si_sizes _ _ _ _ _ Hin) id (run l start)) as H.
    fold (run l start) in *. destruct (layout_section _ _ _ _ _). cbn. apply H; [|done..]. intros ->. pose proof (si_relro _ _ _ _ _ Hin). congruence.
Qed.

(** A loaded section. *)
Lemma section_placed l id k : events = l ++ OutputSection id :: k -> loaded os id = true ->
  let c := run l start in let c' := run (l ++ [OutputSection id]) start in let rs := records <$> part_ids id in
  chain (at_file c) (at_mem c) rs (at_file c') (at_mem c') /\ Forall2 (part_ok os sizes id (max_alignment os sizes id)) (part_ids id) rs /\
  distances os id (max_alignment os sizes id) c c' rs.
Proof.
  intros E Ha. cbv zeta. rewrite (section_records _ _ _ E), after_app. cbn [after foldl move].
  pose proof (layout_section_placed os args sizes (si_full _ _ _ _ _ Hin) (si_page _ _ _ _ _ Hin) (si_min _ _ _ _ _ Hin) (si_sizes _ _ _ _ _ Hin) id
    (run l start) Ha (section_location _ _ _ E) (section_roomy _ _ _ E)) as H. fold (run l start) in *.
  destruct (layout_section _ _ _ _ _). cbn. by destruct H as (H1 & _ & H2 & H3).
Qed.

(** *** A LOAD segment *)

Lemma bss_last_skip bss l k : bss_last os segments bss (l ++ k) = true -> exists bss', bss_last os segments bss' k = true.
Proof.
  revert bss. induction l as [|e l IH]; intros bss H; [by exists bss|]. cbn [app bss_last] in H.
  destruct e; try (by eapply IH). destruct (with_data os id); [apply andb_true_iff in H as [_ H]|]; by eapply IH.
Qed.

Lemma calm_no_load l t : Forall (calm os segments) l -> SegmentStart t ∈ l \/ SegmentEnd t ∈ l -> load t = false.
Proof. intros Hl [Ht|Ht]; by apply (proj1 (Forall_forall _ _) Hl _ Ht). Qed.

Lemma bss_last_calm bss l k : Forall (calm os segments) l -> bss_last os segments bss (l ++ k) = true ->
  (bss = true -> forall j, j ∈ section_ids l -> with_data os j = false) /\
  exists bss', bss_last os segments bss' k = true /\ (bss' = false -> bss = false /\ forall j, j ∈ section_ids l -> with_data os j = true).
Proof.
  intros Hl. revert bss. induction Hl as [|e l He Hl IH]; intros bss H.
  - split; [by intros _ j ?%elem_of_nil|]. exists bss. split; [done|]. intros ->. split; [done|]. by intros j ?%elem_of_nil.
  - cbn [app bss_last] in H. destruct e as [s|s|id|a]; cbn [section_ids omap list_omap calm] in *; [rewrite He in H; by apply IH|rewrite He in H; by apply IH| |done].
    destruct (with_data os id) eqn:Ed.
    + apply andb_true_iff in H as [Hb%negb_true_iff H]. subst bss. split; [done|]. destruct (IH _ H) as (_ & bss' & Hk & Hd). exists bss'. split; [done|].
      intros E. split; [done|]. intros j [->|Hj]%elem_of_cons; [done|by apply Hd].
    + destruct (IH _ H) as (H1 & bss' & Hk & Hd). split; [intros _ j [->|Hj]%elem_of_cons; [done|by apply H1]|].
      exists bss'. split; [done|]. intros E. by destruct (Hd E).
Qed.

Section segment.
Context (pre : list OrderEvent) (s : Z) (body post : list OrderEvent).
Hypothesis E : events = pre ++ SegmentStart s :: body ++ SegmentEnd s :: post.
Hypothesis Hs : load s = true.
Hypothesis Hbody : Forall (calm os segments) body.

(** The cursor at the start of the segment, and after some events of its body. *)
Definition inside (b : list OrderEvent) : Cursor := run (pre ++ SegmentStart s :: b) start.
Definition base_distance : Z := cursor_distance (inside []).
Definition granularity : Alignment := default (loadable_segment_alignment args) (alignments !! s).

Lemma inside_app b b' : inside (b ++ b') = run b' (inside b).
Proof. unfold inside. rewrite <- after_app. by rewrite <- app_assoc. Qed.

Lemma granularity_spec : supported granularity /\ exponent (loadable_segment_alignment args) <= exponent granularity /\
  forall id, id ∈ section_ids body -> exponent (max_alignment os sizes id) <= exponent granularity.
Proof.
  destruct (segment_alignment os args segments sizes pre s body (SegmentEnd s :: post) Hs) as (a & Ea & Hp & Hal).
  { intros Hin'. pose proof (calm_no_load body s Hbody (or_intror Hin')). congruence. }
  rewrite <- E in Ea. unfold granularity, alignments. rewrite Ea. cbn. split_and!; try done. eapply alignments_ok. unfold alignments. exact Ea.
Qed.

Lemma inside_start : at_file (inside []) mod value granularity = 0 /\ at_mem (inside []) mod value granularity = 0.
Proof.
  destruct (run_bounds pre (SegmentStart s :: body ++ SegmentEnd s :: post) E) as (Hroom & Hp & _). unfold inside. rewrite after_app. cbn [after foldl move].
  cbn [events_room event_room] in Hroom. pose proof (events_room_nonneg sizes (si_sizes _ _ _ _ _ Hin) (body ++ SegmentEnd s :: post)).
  destruct (start_segment_spec args segments (si_page _ _ _ _ _ Hin) alignments alignments_ok s (run pre start) Hs Hp) as (_ & H1 & H2); [unfold roomy in *; lia|]. done.
Qed.

Lemma base_distance_divides a : supported a -> exponent a <= exponent granularity -> base_distance mod value a = 0.
Proof.
  intros Ha Hle. destruct granularity_spec as (Hg & _ & _). apply (divides_mod _ a granularity Ha Hg Hle).
  destruct inside_start as [H1 H2]. unfold base_distance, cursor_distance. by rewrite Zminus_mod, H1, H2.
Qed.

Lemma inside_split b b' : body = b ++ b' -> events = (pre ++ SegmentStart s :: b) ++ b' ++ SegmentEnd s :: post.
Proof. intros Eb. rewrite E, Eb. same_list. Qed.

Lemma inside_distance b b' : body = b ++ b' -> base_distance <= cursor_distance (inside b) /\
  (steady os args segments sizes alignments (inside []) b -> cursor_distance (inside b) = base_distance).
Proof.
  intros Eb. rewrite <- (app_nil_l b), inside_app. cbn [app].
  destruct (run_bounds (pre ++ [SegmentStart s]) (b ++ b' ++ SegmentEnd s :: post)) as (Hroom & Hp & _).
  { rewrite E, Eb. same_list. }
  fold (inside []) in Hroom, Hp. rewrite events_room_app in Hroom. pose proof (events_room_nonneg sizes (si_sizes _ _ _ _ _ Hin) (b' ++ SegmentEnd s :: post)).
  destruct (run_distance os args segments sizes (si_full _ _ _ _ _ Hin) (si_page _ _ _ _ _ Hin) (si_min _ _ _ _ _ Hin) (si_sizes _ _ _ _ _ Hin)
    (si_relro _ _ _ _ _ Hin) alignments alignments_ok b (inside []) base_distance) as [H1 H2].
  - rewrite Eb in Hbody. by apply Forall_app in Hbody as [Hb _].
  - done.
  - unfold roomy in *. lia.
  - intros id Hid. apply base_distance_divides; [apply supported_max_alignment; apply Hin|]. apply granularity_spec. rewrite Eb, section_ids_app. set_solver.
  - done.
  - split; [done|]. intros Hst. by apply H2.
Qed.

(** A section of the segment. *)
Lemma inside_section b id b' : body = b ++ OutputSection id :: b' -> loaded os id = true /\
  let rs := records <$> part_ids id in
  chain (at_file (inside b)) (at_mem (inside b)) rs (at_file (inside (b ++ [OutputSection id]))) (at_mem (inside (b ++ [OutputSection id]))) /\
  Forall2 (part_ok os sizes id (max_alignment os sizes id)) (part_ids id) rs /\
  Forall (fun r => base_distance <= distance r) rs /\
  (cursor_distance (inside b) = base_distance -> forall r, head rs = Some r -> distance r = base_distance) /\
  (cursor_distance (inside b) = base_distance -> with_data os id = true -> Forall (fun r => distance r = base_distance) rs).
Proof.
  intros Eb. pose proof Hbody as Hc. rewrite Eb in Hc. apply Forall_app in Hc as [_ [[Ha _] _]%Forall_cons]. split; [done|].
  destruct (section_placed (pre ++ SegmentStart s :: b) id (b' ++ SegmentEnd s :: post)) as (Hch & Hok & [Hle Hfirst Hsame]); [|done|].
  { by rewrite (inside_split b (OutputSection id :: b') Eb). }
  rewrite <- app_assoc, <- app_comm_cons in Hch, Hle, Hsame. fold (inside b) in *. fold (inside (b ++ [OutputSection id])) in *.
  assert (base_distance mod value (max_alignment os sizes id) = 0) as Hd.
  { apply base_distance_divides; [apply supported_max_alignment; apply Hin|]. apply granularity_spec. rewrite Eb, section_ids_app. cbn. set_solver. }
  destruct (inside_distance b (OutputSection id :: b') Eb) as [Hle' _]. cbv zeta. split_and!; [done|done|by apply Hle|..].
  - intros Hc. rewrite Hc in Hfirst. by apply Hfirst.
  - intros Hc Hdat. rewrite Hc in Hsame. apply Hsame; [done|by left].
Qed.

(** With data, at the distance of the segment; and no data follows a section without. *)
Lemma data_distance b id b' : body = b ++ OutputSection id :: b' -> with_data os id = true ->
  Forall (fun r => distance r = base_distance) (records <$> part_ids id).
Proof.
  intros Eb Hd. destruct (inside_section b id b' Eb) as (_ & _ & _ & _ & _ & Hsame). apply Hsame; [|done].
  destruct (inside_distance b (OutputSection id :: b') Eb) as [_ Hst]. apply Hst.
  pose proof (si_bss _ _ _ _ _ Hin) as Hb. rewrite E in Hb. apply bss_last_skip in Hb as [bss Hb]. cbn [bss_last] in Hb. rewrite Hs, Eb, <- app_assoc in Hb.
  apply bss_last_calm in Hb as (_ & bss' & Hb & Hall); [|pose proof Hbody as Hc; rewrite Eb in Hc; by apply Forall_app in Hc as [Hc _]].
  cbn [app bss_last] in Hb. rewrite Hd in Hb. apply andb_true_iff in Hb as [Hbss%negb_true_iff _]. destruct (Hall Hbss) as [_ Hall'].
  intros p j q ->. left. apply Hall'. rewrite section_ids_app. cbn. set_solver.
Qed.

Lemma no_data_after b id b' j : body = b ++ OutputSection id :: b' -> with_data os id = false -> j ∈ section_ids b' -> with_data os j = false.
Proof.
  intros Eb Hd Hj. pose proof (si_bss _ _ _ _ _ Hin) as Hb. rewrite E in Hb. apply bss_last_skip in Hb as [bss Hb]. cbn [bss_last] in Hb.
  rewrite Hs, Eb, <- app_assoc in Hb. pose proof Hbody as Hc. rewrite Eb in Hc. apply Forall_app in Hc as [Hc1 [_ Hc2]%Forall_cons].
  apply bss_last_calm in Hb as (_ & bss' & Hb & _); [|done]. cbn [app bss_last] in Hb. rewrite Hd in Hb.
  apply bss_last_calm in Hb as (Hb & _); [|done]. by apply Hb.
Qed.
(** The layout of a section of the segment. *)
Record section_within (id : Z) (c c' : Cursor) (l : OutputRecordLayout) : Prop := {
  sw_file : at_file c <= file_offset l /\ 0 <= file_size l /\ file_offset l + file_size l <= at_file c';
  sw_mem : at_mem c <= mem_offset l /\ 0 <= mem_size l /\ mem_offset l + mem_size l <= at_mem c';
  sw_distance : base_distance <= distance l;
  sw_end : base_distance + file_offset l + file_size l <= mem_offset l + mem_size l;
  sw_parts : forall p, p ∈ part_ids id -> 0 <= mem_size (records p) /\ 0 <= file_size (records p) /\
    file_offset l <= file_offset (records p) /\ file_offset (records p) + file_size (records p) <= file_offset l + file_size l /\
    mem_offset l <= mem_offset (records p) /\ mem_offset (records p) + mem_size (records p) <= mem_offset l + mem_size l;
  sw_first : cursor_distance c = base_distance -> distance l = base_distance }.

Lemma ends_distance d f m rs : rs <> [] -> Forall (fun r => d + file_offset r + file_size r <= mem_offset r + mem_size r) rs ->
  d + file_end f rs <= mem_end m rs.
Proof.
  revert f m. induction rs as [|r rs IH]; intros f m Hne Hall; [done|]. cbn [file_end mem_end] in *.
  apply Forall_cons in Hall as [Hd Hall]. destruct rs as [|q rs]; [cbn; lia|by apply IH].
Qed.

Lemma chain_head f m r rs f' m' q : chain f m (r :: rs) f' m' -> q ∈ r :: rs -> file_offset r <= file_offset q /\ mem_offset r <= mem_offset q.
Proof.
  intros Hch Hq. cbn [chain] in Hch. destruct Hch as (? & ? & ? & ? & Hch). apply elem_of_cons in Hq as [->|Hq]; [lia|].
  destruct (chain_in _ _ _ _ _ q Hch Hq). lia.
Qed.

Lemma section_layout b id b' : body = b ++ OutputSection id :: b' -> section_within id (inside b) (inside (b ++ [OutputSection id])) (layouts id).
Proof.
  intros Eb. destruct (inside_section b id b' Eb) as (_ & Hch & Hok & Hdist & Hfirst & _).
  destruct (run_bounds _ _ (inside_split b _ Eb)) as (Hr & _ & Hf & Hm). fold (inside b) in *.
  destruct (run_bounds (pre ++ SegmentStart s :: b ++ [OutputSection id]) (b' ++ SegmentEnd s :: post)) as (Hr' & _ & Hf' & Hm').
  { rewrite E, Eb. same_list. }
  fold (inside (b ++ [OutputSection id])) in *. pose proof (si_base _ _ _ _ _ Hin).
  pose proof (events_room_nonneg sizes (si_sizes _ _ _ _ _ Hin) (b' ++ SegmentEnd s :: post)). unfold roomy in *. cbn [first_cursor at_file at_mem] in *.
  destruct (part_ids_nonempty id) as (p0 & ps & Ep). destruct (records <$> part_ids id) as [|r rs] eqn:Ers; [by rewrite Ep in Ers|].
  destruct (layout_sections_chain os records id r rs _ _ _ _ Ers Hch) as (L1 & L2 & L3 & L4); [lia..|].
  destruct (chain_ends _ _ _ _ _ Hch) as (E1 & E2 & E3). destruct (chain_in _ _ _ _ _ r Hch) as (I1 & I2 & I3 & I4 & I5 & I6); [left|].
  destruct (E3 r ltac:(left)) as [J1 J2]. pose proof Hdist as Hd1. apply Forall_cons in Hd1 as [Hd1 _].
  split; try (unfold distance in *; lia).
  - enough (base_distance + file_end (at_file (inside b)) (r :: rs) <= mem_end (at_mem (inside b)) (r :: rs)) by lia.
    apply ends_distance; [done|]. apply Forall_forall. intros q Hq. pose proof (proj1 (Forall_forall _ _) Hdist q Hq) as Hd. unfold distance in Hd.
    destruct (chain_in _ _ _ _ _ q Hch Hq) as (_ & _ & _ & _ & Q5 & Q6).
    apply list_elem_of_lookup in Hq as [n Hn]. destruct (Forall2_lookup_r _ _ _ _ _ Hok Hn) as (p & _ & Hp). rewrite (po_file_size _ _ _ _ _ _ Hp).
    destruct (with_data os id); lia.
  - intros p Hp. assert (records p ∈ r :: rs) as Hq by (rewrite <- Ers; by apply list_elem_of_fmap_2). destruct (chain_head _ _ _ _ _ _ _ Hch Hq).
    destruct (E3 _ Hq). destruct (chain_in _ _ _ _ _ _ Hch Hq) as (? & ? & ? & ? & ? & ?). lia.
  - intros Hc. specialize (Hfirst Hc r eq_refl). unfold distance in *. lia.
Qed.

(** The visible sections follow each other. *)
Lemma inside_mono b b' b2 : body = b ++ b' ++ b2 -> at_file (inside b) <= at_file (inside (b ++ b')) /\ at_mem (inside b) <= at_mem (inside (b ++ b')).
Proof.
  intros Eb. destruct (run_mono (pre ++ SegmentStart s :: b) b' (b2 ++ SegmentEnd s :: post)) as [H1 H2].
  - rewrite E, Eb. same_list.
  - unfold inside. rewrite <- app_assoc in H1, H2. done.
Qed.

Lemma visible_chain b b' : body = b ++ b' ->
  chain (at_file (inside [])) (at_mem (inside [])) (visible os layouts b) (at_file (inside b)) (at_mem (inside b)).
Proof.
  revert b'. induction b as [|e b IH] using rev_ind; intros b' Eb; [cbn; lia|]. rewrite <- app_assoc in Eb. specialize (IH _ Eb).
  unfold visible in *. rewrite section_ids_app, filter_app, fmap_app.
  destruct (inside_mono b [e] b' Eb) as [Hf Hm]. destruct e as [t|t|id|a]; cbn [section_ids omap list_omap]; [| | |]; 
    try (rewrite filter_nil, app_nil_r; eapply chain_weaken; [exact IH|lia..]).
  destruct (decide (is_ignored os id (layouts id) = false)) as [Hv|Hv].
  - rewrite filter_cons_True, filter_nil by done. eapply chain_app; [exact IH|]. destruct (section_layout b id b' Eb) as [? ? _ _ _ _]. cbn [fmap list_fmap chain]. lia.
  - rewrite filter_cons_False, filter_nil, app_nil_r by done. eapply chain_weaken; [exact IH|lia..].
Qed.

Lemma ignored_sizes id l : is_ignored os id l = true -> file_size l = 0 /\ mem_size l = 0.
Proof. unfold is_ignored. rewrite !andb_true_iff, !Z.eqb_eq. tauto. Qed.

(** Nothing that is visible comes before the first visible section. *)
Lemma first_visible b id b' : body = b ++ OutputSection id :: b' -> visible os layouts b = [] -> distance (layouts id) = base_distance.
Proof.
  intros Eb Hv. apply (sw_first _ _ _ _ (section_layout b id b' Eb)). apply (inside_distance b _ Eb).
  intros p j q ->. right. assert (body = p ++ OutputSection j :: q ++ OutputSection id :: b') as Ej by (rewrite Eb; same_list).
  rewrite <- inside_app. cbn [app]. unfold inside at 1.
  rewrite <- (section_records (pre ++ SegmentStart s :: p) j (q ++ OutputSection id :: b' ++ SegmentEnd s :: post)).
  - apply Forall_fmap, Forall_forall. intros r Hr. cbn. destruct (sw_parts _ _ _ _ (section_layout p j _ Ej) r Hr) as (H1 & _ & _ & _ & H2 & H3).
    unfold visible in Hv. rewrite section_ids_app, filter_app, fmap_app in Hv. apply app_nil in Hv as [_ Hv]. cbn [section_ids omap list_omap] in Hv.
    destruct (is_ignored os j (layouts j)) eqn:Ei; [|by rewrite filter_cons_True in Hv]. apply ignored_sizes in Ei as [_ Ei]. lia.
  - rewrite E, Ej. same_list.
Qed.

Lemma visible_head l0 ls : visible os layouts body = l0 :: ls -> exists b id b', body = b ++ OutputSection id :: b' /\ visible os layouts b = [] /\ l0 = layouts id.
Proof.
  generalize body as k. induction k as [|e k IH]; intros Hk; [done|]. unfold visible in *. destruct e as [t|t|id|a]; cbn [section_ids omap list_omap] in *.
  1: destruct (IH Hk) as (b & id' & b' & -> & Hb & Hl); by exists (SegmentStart t :: b), id', b'.
  1: destruct (IH Hk) as (b & id' & b' & -> & Hb & Hl); by exists (SegmentEnd t :: b), id', b'.
  2: destruct (IH Hk) as (b & id' & b' & -> & Hb & Hl); by exists (SetLocation a :: b), id', b'.
  destruct (decide (is_ignored os id (layouts id) = false)) as [Hv|Hv].
  - rewrite filter_cons_True in Hk by done. injection Hk as <- _. by exists [], id, k.
  - rewrite filter_cons_False in Hk by done. destruct (IH Hk) as (b & id' & b' & -> & Hb & Hl). exists (OutputSection id :: b), id', b'.
    split_and!; try done. cbn [section_ids omap list_omap]. by rewrite filter_cons_False.
Qed.

(** *** The extent of the segment *)

Definition sizes_of_segment : OutputRecordLayout := segment_sizes (foldl widen_section (started args segments s) (visible os layouts body)).

(** Within the offsets of the segment; and, if it is not empty, at its distance and around its sections. *)
Record segment_shape (l : OutputRecordLayout) : Prop := {
  sh_file_size : 0 <= file_size l;
  sh_mem_size : 0 <= mem_size l;
  sh_distance : distance l = base_distance \/ distance l = 0;
  sh_end : file_size l <= mem_size l;
  sh_within : 0 < mem_size l -> at_file (inside []) <= file_offset l /\ file_offset l + file_size l <= at_file (inside body) /\
    at_mem (inside []) <= mem_offset l /\ mem_offset l + mem_size l <= at_mem (inside body);
  sh_parts : forall id p, id ∈ section_ids body -> p ∈ part_ids id -> 0 < mem_size (records p) ->
    distance l = base_distance /\ file_offset l <= file_offset (records p) /\ file_offset (records p) + file_size (records p) <= file_offset l + file_size l /\
    mem_offset l <= mem_offset (records p) /\ mem_offset (records p) + mem_size (records p) <= mem_offset l + mem_size l }.

Lemma section_split id : id ∈ section_ids body -> exists b b', body = b ++ OutputSection id :: b'.
Proof.
  intros Hid. apply list_elem_of_omap in Hid as (e & He & Ei). destruct e as [| |j|]; try done. injection Ei as ->. by apply list_elem_of_split.
Qed.

Lemma started_load : started args segments s = mkExtent U64_MAX 0 U64_MAX 0 MIN.
Proof.
  unfold started. enough (is_stack_segment segments s = false) as -> by done. revert Hs. unfold is_load_segment, is_stack_segment, segment_is.
  destruct (segments !! Z.to_nat s) as [d|]; [|done]. unfold is_loadable, is_stack. rewrite bool_decide_eq_true, bool_decide_eq_false. congruence.
Qed.

Lemma visible_in l : l ∈ visible os layouts body -> exists b id b', body = b ++ OutputSection id :: b' /\ l = layouts id.
Proof.
  intros (id & -> & [_ Hid]%list_elem_of_filter)%list_elem_of_fmap. apply section_split in Hid as (b & b' & ->). by exists b, id, b'.
Qed.

Lemma body_bounds : 0 <= at_file (inside []) /\ 0 <= at_mem (inside []) /\ at_file (inside []) <= at_file (inside body) < 2 ^ 63 /\
  at_mem (inside []) <= at_mem (inside body) < 2 ^ 63.
Proof.
  destruct (run_bounds _ _ (inside_split [] body eq_refl)) as (_ & _ & Hf & Hm). fold (inside []) in *. pose proof (si_base _ _ _ _ _ Hin).
  destruct (run_bounds (pre ++ SegmentStart s :: body) (SegmentEnd s :: post)) as (Hr & _); [rewrite E; same_list|]. fold (inside body) in *.
  pose proof (events_room_nonneg sizes (si_sizes _ _ _ _ _ Hin) (SegmentEnd s :: post)).
  destruct (inside_mono [] body []) as [H1 H2]; [by rewrite app_nil_r|]. unfold roomy in *. cbn [app first_cursor at_file at_mem] in *. lia.
Qed.

Lemma extent_shape : segment_shape sizes_of_segment.
Proof.
  pose proof (visible_chain body [] ltac:(by rewrite app_nil_r)) as Hch. destruct body_bounds as (B1 & B2 & B3 & B4).
  unfold sizes_of_segment. rewrite started_load. destruct (visible os layouts body) as [|l0 ls] eqn:Ev.
  - change (segment_sizes _) with (mkRecord 0 0 MIN U64_MAX U64_MAX). split; unfold distance; cbn [file_size mem_size file_offset mem_offset]; try lia.
    intros id p Hid Hp Hsz. exfalso. destruct (section_split id Hid) as (b & b' & Eb). destruct (sw_parts _ _ _ _ (section_layout b id b' Eb) p Hp) as (_ & _ & _ & _ & ? & ?).
      enough (layouts id ∈ visible os layouts body) as Hv by (rewrite Ev in Hv; by apply elem_of_nil in Hv).
      apply list_elem_of_fmap_2, list_elem_of_filter. split; [|done]. destruct (is_ignored _ _ _) eqn:Ei; [|done]. apply ignored_sizes in Ei as [_ Ei]. lia.
  - destruct (widen_first (fun _ l => alignment l) l0 ls _ _ _ _ MIN Hch) as [a Ea]; [lia..|]. unfold widen_section. rewrite Ea.
    destruct (chain_ends _ _ _ _ _ Hch) as (E1 & E2 & E3). destruct (chain_in _ _ _ _ _ l0 Hch) as (I1 & I2 & I3 & I4 & I5 & I6); [left|].
    destruct (E3 l0 ltac:(left)) as [J1 J2]. destruct (visible_head l0 ls Ev) as (b & id & b' & Eb & Hb & El).
    pose proof (first_visible b id b' Eb Hb) as Hd. rewrite <- El in Hd.
    assert (base_distance + file_end (at_file (inside [])) (l0 :: ls) <= mem_end (at_mem (inside [])) (l0 :: ls)) as He.
    { apply ends_distance; [done|]. apply Forall_forall. intros l Hl. rewrite <- Ev in Hl. destruct (visible_in l Hl) as (c & j & c' & Ec & ->).
      pose proof (sw_end _ _ _ _ (section_layout c j c' Ec)). lia. }
    unfold segment_sizes, saturating_sub. cbn [ex_file_start ex_file_end ex_mem_start ex_mem_end ex_alignment]. unfold distance in *.
    split; cbn [file_size mem_size file_offset mem_offset]; unfold distance; cbn [file_offset mem_offset]; try lia.
    intros j p Hj Hp Hsz. destruct (section_split j Hj) as (c & c' & Ec). destruct (sw_parts _ _ _ _ (section_layout c j c' Ec) p Hp) as (P1 & P2 & P3 & P4 & P5 & P6).
    assert (layouts j ∈ visible os layouts body) as Hv.
    { apply list_elem_of_fmap_2, list_elem_of_filter. split; [|done]. destruct (is_ignored _ _ _) eqn:Ei; [|done]. apply ignored_sizes in Ei as [_ Ei]. lia. }
    rewrite Ev in Hv. destruct (E3 _ Hv). destruct (chain_head _ _ _ _ _ _ _ Hch Hv). unfold distance in *. lia.
Qed.

(** Its alignment is one that its start has. *)
Lemma segment_alignment_le : exponent (alignment sizes_of_segment) <= exponent granularity.
Proof.
  destruct granularity_spec as (Hg & _ & Hal). unfold sizes_of_segment. cbn [segment_sizes alignment]. apply widen_alignment.
  - rewrite started_load. cbn. apply Hg.
  - intros _ l Hl _. destruct (visible_in l Hl) as (b & id & b' & Eb & ->). assert (id ∈ section_ids body) as Hid by (rewrite Eb, section_ids_app; set_solver).
    assert (small_id id) as Hsm.
    { apply (proj1 (Forall_forall _ _) (si_small _ _ _ _ _ Hin)). rewrite E, !section_ids_app. cbn. rewrite section_ids_app. set_solver. }
    transitivity (exponent (max_alignment os sizes id)); [|by apply Hal]. apply layout_alignment; [by apply min_le_max|]. intros r Hr.
    destruct (inside_section b id b' Eb) as (_ & _ & Hok & _). apply list_elem_of_lookup in Hr as [n Hn].
    destruct (Forall2_lookup_r _ _ _ _ _ Hok Hn) as (p & _ & Hp). rewrite (po_alignment _ _ _ _ _ _ Hp). unfold alignment_min. cbn. lia.
Qed.
End segment.

(** *** All LOAD segments *)

(** A LOAD segment, with what is between its start and its end. *)
Record load_at (pre : list OrderEvent) (s : Z) (body post : list OrderEvent) : Prop := {
  la_events : events = pre ++ SegmentStart s :: body ++ SegmentEnd s :: post;
  la_load : load s = true;
  la_calm : Forall (calm os segments) body }.

Lemma load_at_shape pre s body post : load_at pre s body post -> segment_shape pre s body (sizes_of_segment s body).
Proof. intros [E Hs Hb]. by apply (extent_shape pre s body post). Qed.

(** Of two LOAD segments one comes first. *)
Lemma load_at_order pre s body post pre' s' body' post' : load_at pre s body post -> load_at pre' s' body' post' -> s <> s' ->
  (exists m, pre' = pre ++ SegmentStart s :: body ++ SegmentEnd s :: m) \/ (exists m, pre = pre' ++ SegmentStart s' :: body' ++ SegmentEnd s' :: m).
Proof.
  assert (forall (pre : list OrderEvent) s body post pre' s' body' post', load_at pre s body post -> load_at pre' s' body' post' ->
    forall m, pre' = pre ++ SegmentStart s :: m -> exists n, m = body ++ SegmentEnd s :: n) as Haux.
  { clear. intros pre s body post pre' s' body' post' [E Hs Hb] [E' Hs' Hb'] m ->. rewrite E, <- app_assoc in E'. apply app_inv_head in E'. injection E' as E'.
    apply split_cases in E' as [(-> & [=] & _)|[(n & -> & _)|(n & -> & _)]]; [|by exists n].
    apply Forall_app in Hb as [_ [Hc _]%Forall_cons]. cbn in Hc. congruence. }
  intros H1 H2 Hne. pose proof (la_events _ _ _ _ H1) as E. rewrite (la_events _ _ _ _ H2) in E. apply split_cases in E as [(_ & [= ->] & _)|[(m & Em & _)|(m & Em & _)]]; [done|..].
  - left. destruct (Haux _ _ _ _ _ _ _ _ H1 H2 m Em) as [n ->]. by exists n.
  - right. destruct (Haux _ _ _ _ _ _ _ _ H2 H1 m Em) as [n ->]. by exists n.
Qed.

Definition page : Z := value (loadable_segment_alignment args).

(** The one that comes first ends before the page where the other starts. *)
Lemma pages_before pre s body post s' body' post' m : load_at pre s body post -> load_at (pre ++ SegmentStart s :: body ++ SegmentEnd s :: m) s' body' post' ->
  exists n, at_mem (inside pre s body) <= n /\ n mod page = 0 /\ n <= at_mem (inside (pre ++ SegmentStart s :: body ++ SegmentEnd s :: m) s' []).
Proof.
  intros [E Hs Hb] [E' Hs' Hb']. exists (at_mem (inside (pre ++ SegmentStart s :: body ++ SegmentEnd s :: m) s' [])). split_and!; [|..|lia].
  - destruct (run_mono (pre ++ SegmentStart s :: body) (SegmentEnd s :: m ++ [SegmentStart s']) (body' ++ SegmentEnd s' :: post')) as [_ H].
    + rewrite E'. same_list.
    + unfold inside. replace ((pre ++ SegmentStart s :: body ++ SegmentEnd s :: m) ++ [SegmentStart s']) with
        ((pre ++ SegmentStart s :: body) ++ SegmentEnd s :: m ++ [SegmentStart s']) by same_list. exact H.
  - destruct (granularity_spec _ _ _ _ E' Hs' Hb') as (Hg & Hp & _). destruct (inside_start _ _ _ _ E' Hs') as [_ Hm].
    by apply (divides_mod _ (loadable_segment_alignment args) (granularity s') (si_page _ _ _ _ _ Hin) Hg Hp).
Qed.

Definition in_mem (l : OutputRecordLayout) (a : Z) : Prop := mem_offset l <= a < mem_offset l + mem_size l.

Lemma segments_apart pre s body post pre' s' body' post' a b : load_at pre s body post -> load_at pre' s' body' post' -> s <> s' ->
  in_mem (sizes_of_segment s body) a -> in_mem (sizes_of_segment s' body') b -> a / page <> b / page.
Proof.
  assert (forall (pre : list OrderEvent) s body post pre' s' body' post' a b, load_at pre s body post -> load_at pre' s' body' post' ->
    (exists m, pre' = pre ++ SegmentStart s :: body ++ SegmentEnd s :: m) ->
    in_mem (sizes_of_segment s body) a -> in_mem (sizes_of_segment s' body') b -> a / page < b / page) as Haux.
  { clear -Hin. intros pre s body post pre' s' body' post' a b H1 H2 [m ->] Ha Hb. destruct (pages_before _ _ _ _ _ _ _ _ H1 H2) as (n & Hn1 & Hn2 & Hn3).
    destruct (load_at_shape _ _ _ _ H1) as [_ _ _ _ W1 _]. destruct (load_at_shape _ _ _ _ H2) as [_ _ _ _ W2 _]. unfold in_mem in *.
    destruct W1 as (_ & _ & _ & W1); [lia|]. destruct W2 as (_ & _ & W2 & _); [lia|].
    pose proof (value_bounds _ (si_page _ _ _ _ _ Hin)) as Hv. fold page in Hv. apply Z.mod_divide in Hn2 as [q Hq]; [|lia].
    assert (a / page < q) by (apply Z.div_lt_upper_bound; lia). assert (q <= b / page) by (apply Z.div_le_lower_bound; lia). lia. }
  intros H1 H2 Hne Ha Hb. destruct (load_at_order _ _ _ _ _ _ _ _ H1 H2 Hne) as [Hm|Hm].
  - pose proof (Haux _ _ _ _ _ _ _ _ a b H1 H2 Hm Ha Hb). lia.
  - pose proof (Haux _ _ _ _ _ _ _ _ b a H2 H1 Hm Hb Ha). lia.
Qed.
End input.
