(* ===== verification/OrderSpec.v ===== *)
(** The order of sections and segments that is built: LOAD segments follow each other and hold
    the sections that are loaded, every segment starts and ends once and is open at the sections its
    kind wants, every section is there once. *)
From stdpp Require Import base numbers list gmap.
From S2P Require Import Prelude ValueFlags Alignment OutputOrder AddressLayout Placement SegmentExtents.
Open Scope Z_scope.

Section order.
Context (os : OutputSections).

(** ** Events *)

(** Segments so far, and any that come later. *)
Definition kind_is (segs : list ProgramSegmentDef) (s : Z) (d : ProgramSegmentDef) : Prop := 0 <= s /\ segs !! Z.to_nat s = Some d.

Lemma kind_prefix segs segs' s d : kind_is segs s d -> segs `prefix_of` segs' -> kind_is segs' s d.
Proof. intros [H0 Hl] Hp. split; [done|]. by eapply prefix_lookup_Some. Qed.

Lemma kind_load segs s d : kind_is segs s d -> is_load_segment segs s = is_loadable d.
Proof. intros [_ Hl]. unfold is_load_segment, segment_is. by rewrite Hl. Qed.

(** Events that take nesting from one open segment to another, whatever follows. *)
Definition nests (segs : list ProgramSegmentDef) (open : option Z) (events : list OrderEvent) (open' : option Z) : Prop :=
  forall segs' rest, segs `prefix_of` segs' -> well_nested os segs' open' rest = true -> well_nested os segs' open (events ++ rest) = true.

Lemma nests_nil segs open : nests segs open [] open.
Proof. by intros segs' rest _. Qed.

Lemma nests_app segs segs2 o1 e1 o2 e2 o3 : nests segs o1 e1 o2 -> segs `prefix_of` segs2 -> nests segs2 o2 e2 o3 -> nests segs2 o1 (e1 ++ e2) o3.
Proof. intros H1 Hp H2 segs' rest Hs Hr. rewrite <- app_assoc. apply H1; [by etrans|]. by apply H2. Qed.

Lemma nests_grow segs segs2 o e o' : nests segs o e o' -> segs `prefix_of` segs2 -> nests segs2 o e o'.
Proof. intros H Hp segs' rest Hs Hr. apply H; [by etrans|done]. Qed.

Definition other_kind (segs : list ProgramSegmentDef) (s : Z) : Prop := exists d, kind_is segs s d /\ is_loadable d = false.

Lemma nests_others (ev : Z -> OrderEvent) segs open l : ev = SegmentStart \/ ev = SegmentEnd -> Forall (other_kind segs) l -> nests segs open (map ev l) open.
Proof.
  intros Hev. induction 1 as [|s l (d & Hk & Hd) Hl IH]; [apply nests_nil|]. intros segs' rest Hp Hr. specialize (IH segs' rest Hp Hr).
  pose proof (kind_load _ _ _ (kind_prefix _ _ _ _ Hk Hp)) as Hld. rewrite Hd in Hld. destruct Hev as [-> | ->]; cbn [map app well_nested]; by rewrite Hld.
Qed.

Lemma nests_other (ev : Z -> OrderEvent) segs open s : ev = SegmentStart \/ ev = SegmentEnd -> other_kind segs s -> nests segs open [ev s] open.
Proof. intros Hev Hs. apply (nests_others ev segs open [s] Hev). by constructor. Qed.

Lemma nests_start segs s d : kind_is segs s d -> is_loadable d = true -> nests segs None [SegmentStart s] (Some s).
Proof.
  intros Hk Hd segs' rest Hp Hr. cbn [app well_nested]. rewrite (kind_load _ _ _ (kind_prefix _ _ _ _ Hk Hp)), Hd. by rewrite bool_decide_true.
Qed.

Lemma nests_end segs s d : kind_is segs s d -> is_loadable d = true -> nests segs (Some s) [SegmentEnd s] None.
Proof.
  intros Hk Hd segs' rest Hp Hr. cbn [app well_nested]. rewrite (kind_load _ _ _ (kind_prefix _ _ _ _ Hk Hp)), Hd. by rewrite bool_decide_true.
Qed.

Lemma nests_sections segs open ids :
  Forall (fun id => loaded os id = bool_decide (is_Some open) /\ so_location (output_info os id) = None) ids -> nests segs open (map OutputSection ids) open.
Proof.
  induction 1 as [|id ids [Ha Hl] Hids IH]; [apply nests_nil|]. intros segs' rest Hp Hr. cbn [map app well_nested].
  rewrite Ha, Hl, eqb_reflx, bool_decide_true by done. by apply IH.
Qed.

(** ** Open segments *)

(** Segments start and end one by one, each end being that of an open segment, none being open at the end; and at each section
    the open segments are one of each kind that wants the section (its primary, for a secondary one), and no other. *)
Definition open_for (segs : list ProgramSegmentDef) (open : gset Z) (id : Z) : Prop :=
  (forall d, (exists s, s ∈ open /\ segs !! Z.to_nat s = Some d) <->
     d ∈ PROGRAM_SEGMENT_DEFS /\ should_include_in_segment os (primary_output_section os id) d = true) /\
  (forall s t d, s ∈ open -> t ∈ open -> segs !! Z.to_nat s = Some d -> segs !! Z.to_nat t = Some d -> s = t).

Fixpoint covered (segs : list ProgramSegmentDef) (open : gset Z) (events : list OrderEvent) : Prop :=
  match events with
  | [] => open = ∅
  | SegmentStart s :: events => ~ s ∈ open /\ covered segs ({[s]} ∪ open) events
  | SegmentEnd s :: events => s ∈ open /\ covered segs (open ∖ {[s]}) events
  | OutputSection id :: events => open_for segs open id /\ covered segs open events
  | SetLocation _ :: events => covered segs open events
  end.

(** Events that take the open segments from one set to another, whatever follows. *)
Definition covers (segs : list ProgramSegmentDef) (open : gset Z) (events : list OrderEvent) (open' : gset Z) : Prop :=
  forall segs' rest, segs `prefix_of` segs' -> covered segs' open' rest -> covered segs' open (events ++ rest).

Lemma covers_nil segs open : covers segs open [] open.
Proof. by intros segs' rest _. Qed.

Lemma covers_app segs segs2 o1 e1 o2 e2 o3 : covers segs o1 e1 o2 -> segs `prefix_of` segs2 -> covers segs2 o2 e2 o3 -> covers segs2 o1 (e1 ++ e2) o3.
Proof. intros H1 Hp H2 segs' rest Hs Hr. rewrite <- app_assoc. apply H1; [by etrans|]. by apply H2. Qed.

Lemma covers_starts segs open l : NoDup l -> (forall s, s ∈ l -> s ∉ open) -> covers segs open (map SegmentStart l) (list_to_set l ∪ open).
Proof.
  intros Hnd. revert open. induction Hnd as [|s l Hs Hnd IH]; intros open Ho segs' rest Hp Hr; cbn [map app covered list_to_set] in *.
  - by rewrite union_empty_l_L in Hr.
  - split; [apply Ho; by left|]. apply (IH ({[s]} ∪ open)); [set_solver|done|]. by rewrite union_assoc_L, (union_comm_L _ {[s]}).
Qed.

Lemma covers_ends segs open l : NoDup l -> (forall s, s ∈ l -> s ∈ open) -> covers segs open (map SegmentEnd l) (open ∖ list_to_set l).
Proof.
  intros Hnd. revert open. induction Hnd as [|s l Hs Hnd IH]; intros open Ho segs' rest Hp Hr; cbn [map app covered list_to_set] in *.
  - by rewrite difference_empty_L in Hr.
  - split; [apply Ho; by left|]. apply (IH (open ∖ {[s]})); [set_solver|done|]. by rewrite difference_difference_l_L.
Qed.

Lemma covers_sections segs open ids : (forall segs' id, segs `prefix_of` segs' -> id ∈ ids -> open_for segs' open id) -> covers segs open (map OutputSection ids) open.
Proof.
  induction ids as [|id ids IH]; intros Ho segs' rest Hp Hr; [done|]. cbn [map app covered]. split; [by apply Ho; [|left]|].
  apply IH; [intros; apply Ho; [done|by right]|done|done].
Qed.

Lemma covers_alone segs s : covers segs ∅ [SegmentStart s; SegmentEnd s] ∅.
Proof.
  intros segs' rest _ Hr. cbn [app covered]. split; [by apply not_elem_of_empty|]. split; [set_solver|].
  by replace (({[s]} ∪ ∅) ∖ {[s]}) with (∅ : gset Z) by set_solver.
Qed.

(** ** The pass over the kinds *)

Definition typed (segs : list ProgramSegmentDef) (defs : list ProgramSegmentDef) (active : list (option Z)) : Prop :=
  Forall2 (fun d a => match a with Some s => kind_is segs s d | None => True end) defs active.

Lemma typed_prefix segs segs' defs active : typed segs defs active -> segs `prefix_of` segs' -> typed segs' defs active.
Proof. intros H Hp. eapply Forall2_impl; [exact H|]. intros d [s|]; [|done]. intros Hk. by eapply kind_prefix. Qed.

Lemma add_segment_spec d segs new segs' : add_segment d segs = Ret (new, segs') ->
  segs' = segs ++ [d] /\ new = Z.of_nat (length segs) /\ kind_is segs' new d /\ segs `prefix_of` segs'.
Proof.
  unfold add_segment. destruct (_ <? _); [|done]. intros [= <- <-]. split_and!; [done..| |by apply prefix_app_r].
  split; [lia|]. rewrite Nat2Z.id. apply list_lookup_middle. done.
Qed.

(** What the pass does, kind by kind: the active segments stay or go, those that are wanted are there. *)
Inductive switched (wanted : ProgramSegmentDef -> bool) : list ProgramSegmentDef -> list (option Z) -> list ProgramSegmentDef ->
  list Z -> list Z -> list (option Z) -> list ProgramSegmentDef -> Prop :=
| sw_done segs : switched wanted [] [] segs [] [] [] segs
| sw_idle d defs active segs stop start active' segs' : wanted d = false -> switched wanted defs active segs stop start active' segs' ->
    switched wanted (d :: defs) (None :: active) segs stop start (None :: active') segs'
| sw_stay d s defs active segs stop start active' segs' : wanted d = true -> switched wanted defs active segs stop start active' segs' ->
    switched wanted (d :: defs) (Some s :: active) segs stop start (Some s :: active') segs'
| sw_stop d s defs active segs stop start active' segs' : wanted d = false -> switched wanted defs active segs stop start active' segs' ->
    switched wanted (d :: defs) (Some s :: active) segs (s :: stop) start (None :: active') segs'
| sw_start d defs active segs stop start active' segs' : wanted d = true ->
    switched wanted defs active (segs ++ [d]) stop start active' segs' ->
    switched wanted (d :: defs) (None :: active) segs stop (Z.of_nat (length segs) :: start) (Some (Z.of_nat (length segs)) :: active') segs'.

Lemma switch_switched id defs active segs stop start active' segs' : length active = length defs ->
  switch_segments os id defs active segs = Ret (stop, start, active', segs') ->
  switched (should_include_in_segment os id) defs active segs stop start active' segs'.
Proof.
  revert active segs stop start active' segs'. induction defs as [|d defs IH]; intros [|a active] segs stop start active' segs' Hl H; try done.
  - cbn in H. injection H as <- <- <- <-. constructor.
  - injection Hl as Hl. cbn [switch_segments] in H. destruct (should_include_in_segment os id d) eqn:Ew, a as [s|].
    + destruct (switch_segments _ _ _ _ _) as [[[[? ?] ?] ?]|] eqn:E; [|done]. injection H as <- <- <- <-. constructor; [done|]. by apply IH.
    + destruct (add_segment d segs) as [[new segs1]|] eqn:Ea; [|done]. cbn in H. apply add_segment_spec in Ea as (-> & -> & _ & _).
      destruct (switch_segments _ _ _ _ _) as [[[[? ?] ?] ?]|] eqn:E; [|done]. injection H as <- <- <- <-. constructor; [done|]. by apply IH.
    + destruct (switch_segments _ _ _ _ _) as [[[[? ?] ?] ?]|] eqn:E; [|done]. injection H as <- <- <- <-. constructor; [done|]. by apply IH.
    + destruct (switch_segments _ _ _ _ _) as [[[[? ?] ?] ?]|] eqn:E; [|done]. injection H as <- <- <- <-. constructor; [done|]. by apply IH.
Qed.

Abbreviation few l := (length l <= 1)%nat.
Lemma few_cons {A} (x : A) l : few (x :: l) -> l = [].
Proof. destruct l; [done|]. cbn. lia. Qed.

Section switched.
Context (wanted : ProgramSegmentDef -> bool).

Lemma switched_prefix defs active segs stop start active' segs' : switched wanted defs active segs stop start active' segs' -> segs `prefix_of` segs'.
Proof. induction 1; try done. etrans; [|done]. by apply prefix_app_r. Qed.

Lemma switched_typed defs active segs stop start active' segs' : switched wanted defs active segs stop start active' segs' ->
  typed segs defs active -> typed segs' defs active'.
Proof.
  intros H. pose proof (switched_prefix _ _ _ _ _ _ _ H) as Hp. induction H as [segs|d defs active segs stop start active' segs' Hw H IH|d s defs active segs stop start active' segs' Hw H IH
    |d s defs active segs stop start active' segs' Hw H IH|d defs active segs stop start active' segs' Hw H IH]; intros Ht; [constructor|..]; apply Forall2_cons in Ht as [Hd Ht].
  - constructor; [done|by apply IH].
  - constructor; [by eapply kind_prefix|by apply IH].
  - constructor; [done|by apply IH].
  - pose proof (switched_prefix _ _ _ _ _ _ _ H) as Hp'. constructor; [|apply IH; [done|by eapply typed_prefix, prefix_app_r]].
    eapply kind_prefix; [|exact Hp']. split; [lia|]. rewrite Nat2Z.id. by apply list_lookup_middle.
Qed.

(** The ids of segments: those that were active and those that start are those that stop and those that are active then. *)
Lemma switched_ids defs active segs stop start active' segs' : switched wanted defs active segs stop start active' segs' ->
  stop ++ active_ids active' ≡ₚ start ++ active_ids active /\ NoDup start /\ Forall (fun s => Z.of_nat (length segs) <= s < Z.of_nat (length segs')) start.
Proof.
  induction 1 as [segs|d defs active segs stop start active' segs' Hw H (IH1 & IH2 & IH3)|d s defs active segs stop start active' segs' Hw H (IH1 & IH2 & IH3)
    |d s defs active segs stop start active' segs' Hw H (IH1 & IH2 & IH3)|d defs active segs stop start active' segs' Hw H (IH1 & IH2 & IH3)].
  - split_and!; constructor.
  - done.
  - split_and!; [|done..]. change (active_ids (Some s :: ?l)) with (s :: active_ids l). by rewrite <- !Permutation_middle, IH1.
  - split_and!; [|done..]. change (active_ids (Some s :: ?l)) with (s :: active_ids l). change (active_ids (None :: ?l)) with (active_ids l).
    rewrite <- Permutation_middle. cbn. by rewrite IH1.
  - change (active_ids (Some ?s :: ?l)) with (s :: active_ids l). change (active_ids (None :: ?l)) with (active_ids l).
    pose proof (prefix_length _ _ (switched_prefix _ _ _ _ _ _ _ H)) as Hlen. rewrite length_app in Hlen, IH3. cbn in Hlen, IH3. split_and!.
    + rewrite <- Permutation_middle. cbn. by rewrite IH1.
    + constructor; [|done]. intros Hin. rewrite Forall_forall in IH3. specialize (IH3 _ Hin). lia.
    + constructor; [lia|]. eapply Forall_impl; [exact IH3|]. cbn. intros; lia.
Qed.

(** LOAD segments: those that are active, the kinds that are wanted, and those that stay. *)
Fixpoint loads (defs : list ProgramSegmentDef) (active : list (option Z)) : list Z :=
  match defs, active with
  | d :: defs, Some s :: active => if is_loadable d then s :: loads defs active else loads defs active
  | _ :: defs, None :: active => loads defs active
  | _, _ => []
  end.
Definition wanted_loads (defs : list ProgramSegmentDef) : list ProgramSegmentDef := filter (fun d => is_loadable d && wanted d = true) defs.
Fixpoint kept (defs : list ProgramSegmentDef) (active : list (option Z)) : list Z :=
  match defs, active with
  | d :: defs, Some s :: active => if is_loadable d && wanted d then s :: kept defs active else kept defs active
  | _ :: defs, None :: active => kept defs active
  | _, _ => []
  end.

Lemma kept_loads defs active : loads defs active = [] -> kept defs active = [].
Proof.
  revert active. induction defs as [|d defs IH]; intros [|[s|] active] H; try done; cbn in *; [|by apply IH]. destruct (is_loadable d); [done|by apply IH].
Qed.

Lemma kept_wanted defs active : wanted_loads defs = [] -> kept defs active = [].
Proof.
  unfold wanted_loads. revert active. induction defs as [|d defs IH]; intros [|[s|] active] H; try done; cbn [kept].
  - destruct (is_loadable d && wanted d) eqn:E; [by rewrite filter_cons_True in H|]. rewrite filter_cons_False in H by congruence. by apply IH.
  - destruct (decide (is_loadable d && wanted d = true)); [by rewrite filter_cons_True in H|]. rewrite filter_cons_False in H by congruence. by apply IH.
Qed.

Lemma stops_others defs active segs stop start active' segs' : switched wanted defs active segs stop start active' segs' -> typed segs defs active ->
  loads defs active = [] -> Forall (other_kind segs') stop.
Proof.
  intros H. pose proof (switched_prefix _ _ _ _ _ _ _ H) as Hp. induction H as [segs|d defs active segs stop start active' segs' Hw H IH|d s defs active segs stop start active' segs' Hw H IH
    |d s defs active segs stop start active' segs' Hw H IH|d defs active segs stop start active' segs' Hw H IH]; intros Ht Hl; [constructor|..];
    apply Forall2_cons in Ht as [Hd Ht]; cbn [loads] in Hl.
  - by apply IH.
  - destruct (is_loadable d); [done|by apply IH].
  - destruct (is_loadable d) eqn:El; [done|]. constructor; [|by apply IH]. exists d. split; [by eapply kind_prefix|done].
  - apply IH; [by apply (switched_prefix _ _ _ _ _ _ _ H)|by eapply typed_prefix, prefix_app_r|done].
Qed.

Lemma starts_others defs active segs stop start active' segs' : switched wanted defs active segs stop start active' segs' -> wanted_loads defs = [] ->
  Forall (other_kind segs') start /\ loads defs active' = [].
Proof.
  unfold wanted_loads. induction 1 as [segs|d defs active segs stop start active' segs' Hw H IH|d s defs active segs stop start active' segs' Hw H IH
    |d s defs active segs stop start active' segs' Hw H IH|d defs active segs stop start active' segs' Hw H IH]; intros Hl; [by split|..];
    destruct (decide (is_loadable d && wanted d = true)) as [Ew|Ew]; try (by rewrite filter_cons_True in Hl); rewrite filter_cons_False in Hl by congruence;
    destruct (IH Hl) as [IH1 IH2]; split; try done; cbn [loads].
  - destruct (is_loadable d) eqn:El; [by rewrite Hw in Ew|done].
  - constructor; [|done]. exists d. split; [|by destruct (is_loadable d); [rewrite Hw in Ew|]]. eapply kind_prefix; [|by apply (switched_prefix _ _ _ _ _ _ _ H)].
    split; [lia|]. rewrite Nat2Z.id. by apply list_lookup_middle.
  - destruct (is_loadable d) eqn:El; [by rewrite Hw in Ew|done].
Qed.

Lemma switched_nests defs active segs stop start active' segs' : switched wanted defs active segs stop start active' segs' -> typed segs defs active ->
  few (loads defs active) -> few (wanted_loads defs) ->
  nests segs' (head (loads defs active)) (map SegmentEnd stop) (head (kept defs active)) /\
  nests segs' (head (kept defs active)) (map SegmentStart start) (head (loads defs active')) /\ few (loads defs active').
Proof.
  intros H. induction H as [segs|d defs active segs stop start active' segs' Hw H IH|d s defs active segs stop start active' segs' Hw H IH
    |d s defs active segs stop start active' segs' Hw H IH|d defs active segs stop start active' segs' Hw H IH]; intros Ht Hl Hf.
  - split_and!; [apply nests_nil..|done].
  - apply Forall2_cons in Ht as [_ Ht]. cbn [loads kept] in *. unfold wanted_loads in Hf. rewrite filter_cons_False in Hf by (rewrite Hw; by destruct (is_loadable d)). by apply IH.
  - apply Forall2_cons in Ht as [Hd Ht]. cbn [loads kept] in *. rewrite Hw, andb_true_r. unfold wanted_loads in Hf. destruct (is_loadable d) eqn:El.
    + rewrite filter_cons_True in Hf by (by rewrite El, Hw). apply few_cons in Hf. apply few_cons in Hl. destruct (starts_others _ _ _ _ _ _ _ H Hf) as [Hs Hl'].
      rewrite Hl'. cbn [head length]. split_and!; [|by apply nests_others; [left|]|lia]. apply nests_others; [by right|]. by eapply stops_others.
    + rewrite filter_cons_False in Hf by (by rewrite El). by apply IH.
  - pose proof (switched_prefix _ _ _ _ _ _ _ H) as Hp. apply Forall2_cons in Ht as [Hd Ht]. cbn [loads kept] in *. rewrite Hw, andb_false_r.
    unfold wanted_loads in Hf. rewrite filter_cons_False in Hf by (rewrite Hw; by destruct (is_loadable d)). cbn [map].
    change (SegmentEnd s :: ?l) with ([SegmentEnd s] ++ l). destruct (is_loadable d) eqn:El.
    + apply few_cons in Hl. destruct IH as (_ & IH2 & IH3); [done|by rewrite Hl; cbn; lia|done|]. rewrite (kept_loads _ _ Hl) in *. split_and!; try done.
      eapply nests_app; [by eapply nests_end; [eapply kind_prefix|]|done|]. apply nests_others; [by right|]. by eapply stops_others.
    + destruct IH as (IH1 & IH2 & IH3); [done..|]. split_and!; try done. eapply (nests_app segs' segs'); [|done|exact IH1].
      apply nests_other; [by right|]. exists d. split; [by eapply kind_prefix|done].
  - pose proof (switched_prefix _ _ _ _ _ _ _ H) as Hp. apply Forall2_cons in Ht as [Hd Ht]. cbn [loads kept] in *.
    assert (kind_is segs' (Z.of_nat (length segs)) d) as Hk.
    { eapply kind_prefix; [|exact Hp]. split; [lia|]. rewrite Nat2Z.id. by apply list_lookup_middle. }
    assert (typed (segs ++ [d]) defs active) as Ht' by (by eapply typed_prefix, prefix_app_r).
    cbn [map]. change (SegmentStart ?s :: ?l) with ([SegmentStart s] ++ l). unfold wanted_loads in Hf. destruct (is_loadable d) eqn:El.
    + rewrite filter_cons_True in Hf by (by rewrite El, Hw). apply few_cons in Hf. destruct IH as (IH1 & _ & _); [done..|unfold wanted_loads; by rewrite Hf; cbn; lia|].
      destruct (starts_others _ _ _ _ _ _ _ H Hf) as [Hs Hl']. rewrite (kept_wanted _ _ Hf) in *. rewrite Hl'. cbn [head length]. split_and!; [done| |lia].
      eapply nests_app; [by eapply nests_start|done|]. by apply nests_others; [left|].
    + rewrite filter_cons_False in Hf by (by rewrite El). destruct IH as (IH1 & IH2 & IH3); [done..|]. split_and!; try done. eapply (nests_app segs' segs'); [|done|exact IH2].
      apply nests_other; [by left|]. by exists d.
Qed.

Lemma switched_count defs active segs stop start active' segs' : switched wanted defs active segs stop start active' segs' ->
  length (loads defs active') = length (wanted_loads defs).
Proof.
  unfold wanted_loads. induction 1 as [segs|d defs active segs stop start active' segs' Hw H IH|d s defs active segs stop start active' segs' Hw H IH
    |d s defs active segs stop start active' segs' Hw H IH|d defs active segs stop start active' segs' Hw H IH]; cbn [loads]; [done|..].
  - by rewrite filter_cons_False by (rewrite Hw; by destruct (is_loadable d)).
  - destruct (is_loadable d) eqn:El; [rewrite filter_cons_True by (by rewrite El, Hw); cbn; by rewrite IH|by rewrite filter_cons_False by (by rewrite El)].
  - by rewrite filter_cons_False by (rewrite Hw; by destruct (is_loadable d)).
  - destruct (is_loadable d) eqn:El; [rewrite filter_cons_True by (by rewrite El, Hw); cbn; by rewrite IH|by rewrite filter_cons_False by (by rewrite El)].
Qed.
End switched.

(** Ending all segments. *)
Lemma switched_none defs active segs : length active = length defs -> switched (fun _ => false) defs active segs (active_ids active) [] (repeat None (length defs)) segs.
Proof.
  revert active. induction defs as [|d defs IH]; intros [|[s|] active] Hl; try done; [constructor|..]; injection Hl as Hl.
  - change (active_ids (Some s :: active)) with (s :: active_ids active). cbn. constructor; [done|by apply IH].
  - cbn. constructor; [done|by apply IH].
Qed.

(** *** Starts and active kinds *)

Lemma switched_start wanted defs active segs stop start active' segs' : switched wanted defs active segs stop start active' segs' ->
  start = Z.of_nat <$> seq (length segs) (length segs' - length segs).
Proof.
  induction 1 as [segs|d defs active segs stop start active' segs' Hw H IH|d s defs active segs stop start active' segs' Hw H IH
    |d s defs active segs stop start active' segs' Hw H IH|d defs active segs stop start active' segs' Hw H IH]; try done.
  - by rewrite Nat.sub_diag.
  - pose proof (prefix_length _ _ (switched_prefix _ _ _ _ _ _ _ _ H)) as Hlen. rewrite length_app in Hlen, IH. cbn in Hlen, IH.
    replace (length segs' - length segs)%nat with (S (length segs' - (length segs + 1))) by lia. cbn [seq]. rewrite fmap_cons, IH. do 3 f_equal. lia.
Qed.

Lemma switched_stop wanted defs active segs stop start active' segs' : switched wanted defs active segs stop start active' segs' ->
  forall s, s ∈ stop -> s ∈ active_ids active.
Proof.
  induction 1 as [segs|d defs active segs stop start active' segs' Hw H IH|d s defs active segs stop start active' segs' Hw H IH
    |d s defs active segs stop start active' segs' Hw H IH|d defs active segs stop start active' segs' Hw H IH]; intros t Ht; try done.
  - by apply IH.
  - change (active_ids (Some s :: active)) with (s :: active_ids active). right. by apply IH.
  - change (active_ids (Some s :: active)) with (s :: active_ids active). apply elem_of_cons in Ht as [->|Ht]; [by left|right; by apply IH].
  - by apply IH.
Qed.

Lemma switched_wanted wanted defs active segs stop start active' segs' : switched wanted defs active segs stop start active' segs' ->
  Forall2 (fun d a => is_Some a <-> wanted d = true) defs active'.
Proof.
  induction 1; constructor; try done; (split; [intros [? [=]] || done|]); intros E; (by rewrite E in *) || done.
Qed.

#[local] Instance segment_def_eq_dec : EqDecision ProgramSegmentDef.
Proof. solve_decision. Defined.

Lemma kinds_distinct : NoDup PROGRAM_SEGMENT_DEFS.
Proof. apply (bool_decide_eq_true_1 (NoDup PROGRAM_SEGMENT_DEFS)). vm_compute. reflexivity. Qed.

Lemma elem_of_active active s : s ∈ active_ids active <-> exists i, active !! i = Some (Some s).
Proof.
  unfold active_ids. rewrite list_elem_of_omap. split.
  - intros (a & Ha & E). cbn in E. subst a. by apply list_elem_of_lookup in Ha.
  - intros [i Hi%list_elem_of_lookup_2]. by exists (Some s).
Qed.

(** The active segments are those that the section wants. *)
Lemma active_open segs active id : typed segs PROGRAM_SEGMENT_DEFS active ->
  Forall2 (fun d a => is_Some a <-> should_include_in_segment os (primary_output_section os id) d = true) PROGRAM_SEGMENT_DEFS active ->
  forall segs', segs `prefix_of` segs' -> open_for segs' (list_to_set (active_ids active)) id.
Proof.
  intros Ht Hw segs' Hp. assert (forall s, s ∈ (list_to_set (active_ids active) : gset Z) -> exists i d, active !! i = Some (Some s) /\
    PROGRAM_SEGMENT_DEFS !! i = Some d /\ segs' !! Z.to_nat s = Some d /\ should_include_in_segment os (primary_output_section os id) d = true) as Hs.
  { intros s [i Hi]%elem_of_list_to_set%elem_of_active. destruct (Forall2_lookup_r _ _ _ _ _ Ht Hi) as (d & Hd & Hk).
    exists i, d. split_and!; [done..| |].
    - by apply (kind_prefix _ _ _ _ Hk Hp).
    - apply (Forall2_lookup_lr _ _ _ _ _ _ Hw Hd Hi). by eexists. }
  split.
  - intros d. split.
    + intros (s & Hin & Hd). destruct (Hs s Hin) as (i & d' & _ & Hd' & Hk & Hwd). assert (d' = d) as -> by congruence. split; [by eapply list_elem_of_lookup_2|done].
    + intros [[i Hd]%list_elem_of_lookup Hwd]. destruct (Forall2_lookup_l _ _ _ _ _ Hw Hd) as (a & Ha & Hiff). destruct (proj2 Hiff Hwd) as [s ->].
      exists s. split; [apply elem_of_list_to_set, elem_of_active; by exists i|]. by apply (kind_prefix _ _ _ _ (Forall2_lookup_lr _ _ _ _ _ _ Ht Hd Ha) Hp).
  - intros s t d Hin1 Hin2 Hd1 Hd2. destruct (Hs s Hin1) as (i & d1 & Hi & Hid & Hk1 & _), (Hs t Hin2) as (j & d2 & Hj & Hjd & Hk2 & _).
    assert (d1 = d) as -> by congruence. assert (d2 = d) as -> by congruence.
    assert (i = j) as -> by by eapply (NoDup_lookup _ _ _ _ kinds_distinct). congruence.
Qed.

(** ** The builder *)

Record sound_builder (b : Builder) : Prop := {
  sb_typed : typed (bl_segments b) PROGRAM_SEGMENT_DEFS (bl_active b);
  sb_few : few (loads PROGRAM_SEGMENT_DEFS (bl_active b));
  sb_nests : nests (bl_segments b) None (bl_events b) (head (loads PROGRAM_SEGMENT_DEFS (bl_active b)));
  sb_distinct : NoDup (segment_ends (bl_events b) ++ active_ids (bl_active b));
  sb_ends : Forall (fun s => s < Z.of_nat (length (bl_segments b))) (segment_ends (bl_events b) ++ active_ids (bl_active b));
  sb_ids : forall s, SegmentStart s ∈ bl_events b \/ SegmentEnd s ∈ bl_events b -> 0 <= s;
  sb_all : segment_ends (bl_events b) ++ active_ids (bl_active b) ≡ₚ Z.of_nat <$> seq 0 (length (bl_segments b));
  sb_covers : covers (bl_segments b) ∅ (bl_events b) (list_to_set (active_ids (bl_active b))) }.

Lemma new_sound : sound_builder new_builder.
Proof.
  split; cbn; try done.
  - repeat constructor.
  - lia.
  - apply nests_nil.
  - constructor.
  - intros s [H|H]; by apply elem_of_nil in H.
  - apply covers_nil.
Qed.

Lemma segment_ends_app a b : segment_ends (a ++ b) = segment_ends a ++ segment_ends b.
Proof. apply omap_app. Qed.
Lemma segment_ends_ends l : segment_ends (map SegmentEnd l) = l.
Proof. induction l as [|s l IH]; [done|]. cbn. by rewrite <- IH at 2. Qed.
Lemma segment_ends_starts l : segment_ends (map SegmentStart l) = [].
Proof. by induction l. Qed.
Lemma segment_ends_sections l : segment_ends (map OutputSection l) = [].
Proof. by induction l. Qed.

Lemma active_ids_typed segs defs active s : typed segs defs active -> s ∈ active_ids active -> 0 <= s.
Proof.
  induction 1 as [|d [t|] defs active Hk H IH]; cbn; intros Hs; [by apply elem_of_nil in Hs|apply elem_of_cons in Hs as [->|Hs]; [apply Hk|by apply IH]|by apply IH].
Qed.

Lemma in_map_event (ev : Z -> OrderEvent) l e : e ∈ map ev l -> exists s, s ∈ l /\ e = ev s.
Proof. intros (s & -> & Hs)%list_elem_of_fmap. by exists s. Qed.

(** The open segments across the pass over the kinds. *)
Lemma switched_covers wanted b stop start active segs sections :
  typed (bl_segments b) PROGRAM_SEGMENT_DEFS (bl_active b) -> NoDup (active_ids (bl_active b)) ->
  Forall (fun s => s < Z.of_nat (length (bl_segments b))) (active_ids (bl_active b)) ->
  switched wanted PROGRAM_SEGMENT_DEFS (bl_active b) (bl_segments b) stop start active segs ->
  Forall (fun id => loaded os id = bool_decide (is_Some (head (wanted_loads wanted PROGRAM_SEGMENT_DEFS))) /\ so_location (output_info os id) = None /\
    should_include_in_segment os (primary_output_section os id) = wanted) sections ->
  covers segs (list_to_set (active_ids (bl_active b))) (map SegmentEnd stop ++ map SegmentStart start ++ map OutputSection sections) (list_to_set (active_ids active)).
Proof.
  intros T Hnd B Hsw Hsec. destruct (switched_ids _ _ _ _ _ _ _ _ Hsw) as (P & Dst & Rst). pose proof (switched_stop _ _ _ _ _ _ _ _ Hsw) as Hstop.
  rewrite Forall_forall in B, Rst. assert (NoDup (stop ++ active_ids active)) as Hnd'.
  { rewrite P. apply NoDup_app. split_and!; [done| |done]. intros s Hs Ha. specialize (B s Ha). specialize (Rst s Hs). lia. }
  apply NoDup_app in Hnd' as (Hnds & Hdis & Hnda).
  eapply (covers_app segs segs); [apply (covers_ends _ _ stop Hnds); intros s Hs; by apply elem_of_list_to_set, Hstop|done|].
  eapply (covers_app segs segs); [apply (covers_starts _ _ start Dst); intros s Hs [Ha%elem_of_list_to_set _]%elem_of_difference|done|].
  { specialize (B s Ha). specialize (Rst s Hs). lia. }
  assert (list_to_set start ∪ list_to_set (active_ids (bl_active b)) ∖ list_to_set stop = (list_to_set (active_ids active) : gset Z)) as ->.
  { apply set_eq. intros s. rewrite elem_of_union, elem_of_difference, !elem_of_list_to_set.
    assert (s ∈ stop \/ s ∈ active_ids active <-> s ∈ start \/ s ∈ active_ids (bl_active b)) as Hs by (by rewrite <- !elem_of_app, P).
    specialize (Hstop s). specialize (Hdis s). assert (s ∈ start -> s ∉ stop); [|tauto].
    intros H1 H2. specialize (B s (Hstop H2)). specialize (Rst s H1). lia. }
  apply covers_sections. intros segs' id Hp' Hid. eapply (active_open segs); [by eapply switched_typed| |done].
  rewrite Forall_forall in Hsec. destruct (Hsec id Hid) as (_ & _ & ->). by eapply switched_wanted.
Qed.

(** A step of the builder: the pass over the kinds, with the sections that follow it. *)
Lemma switched_sound wanted b stop start active segs sections : sound_builder b ->
  switched wanted PROGRAM_SEGMENT_DEFS (bl_active b) (bl_segments b) stop start active segs -> few (wanted_loads wanted PROGRAM_SEGMENT_DEFS) ->
  Forall (fun id => loaded os id = bool_decide (is_Some (head (wanted_loads wanted PROGRAM_SEGMENT_DEFS))) /\ so_location (output_info os id) = None /\
    should_include_in_segment os (primary_output_section os id) = wanted) sections ->
  sound_builder (mkBuilder (bl_events b ++ map SegmentEnd stop ++ map SegmentStart start ++ map OutputSection sections) segs active).
Proof.
  intros [T F N D B I A C] Hsw Hw Hsec. pose proof (switched_prefix _ _ _ _ _ _ _ _ Hsw) as Hp. pose proof (prefix_length _ _ Hp) as Hlen.
  destruct (switched_nests _ _ _ _ _ _ _ _ Hsw T F Hw) as (N1 & N2 & F'). destruct (switched_ids _ _ _ _ _ _ _ _ Hsw) as (P & Dst & Rst).
  pose proof (switched_count _ _ _ _ _ _ _ _ Hsw) as Hc. split; cbn [bl_events bl_segments bl_active].
  - by eapply switched_typed.
  - exact F'.
  - eapply nests_app; [exact N|exact Hp|]. eapply nests_app; [exact N1|done|]. eapply nests_app; [exact N2|done|]. apply nests_sections.
    eapply Forall_impl; [exact Hsec|]. intros id (-> & Hl & _). split; [|done].
    destruct (wanted_loads wanted PROGRAM_SEGMENT_DEFS), (loads PROGRAM_SEGMENT_DEFS active); done.
  - rewrite !segment_ends_app, segment_ends_ends, segment_ends_starts, segment_ends_sections, !app_nil_r, <- app_assoc, P, (Permutation_app_comm start), app_assoc.
    apply NoDup_app. split_and!; [done| |done]. intros s Hs Hst. rewrite Forall_forall in B, Rst. specialize (B s Hs). specialize (Rst s Hst). lia.
  - rewrite !segment_ends_app, segment_ends_ends, segment_ends_starts, segment_ends_sections, !app_nil_r, <- app_assoc, P, (Permutation_app_comm start), app_assoc.
    apply Forall_app. split; [eapply Forall_impl; [exact B|]; cbn; intros; lia|eapply Forall_impl; [exact Rst|]; cbn; intros; lia].
  - intros s Hs. assert (s ∈ stop ++ active_ids active -> 0 <= s) as Hst.
    { rewrite P. intros [Hst|Hst]%elem_of_app; [rewrite Forall_forall in Rst; specialize (Rst s Hst); lia|by eapply active_ids_typed]. }
    rewrite !elem_of_app in Hs. destruct Hs as [[Hs|[Hs|[Hs|Hs]]]|[Hs|[Hs|[Hs|Hs]]]]; try (by apply I; auto);
      apply in_map_event in Hs as (t & Ht & [= ->]); [|apply Hst, elem_of_app; by left].
    rewrite Forall_forall in Rst. specialize (Rst t Ht). lia.
  - rewrite !segment_ends_app, segment_ends_ends, segment_ends_starts, segment_ends_sections, !app_nil_r, <- app_assoc, P, (Permutation_app_comm start), app_assoc, A.
    rewrite (switched_start _ _ _ _ _ _ _ _ Hsw), <- fmap_app, <- (seq_app (length (bl_segments b)) _ 0). by replace (length (bl_segments b) + (length segs - length (bl_segments b)))%nat with (length segs) by lia.
  - eapply covers_app; [exact C|exact Hp|]. apply NoDup_app in D as (_ & _ & D). apply Forall_app in B as [_ B]. by eapply switched_covers.
Qed.

(** Ending the writable LOAD segment. *)
Lemma active_ids_take (active : list (option Z)) i s : active !! i = Some (Some s) -> active_ids active ≡ₚ s :: active_ids (<[i := None]> active).
Proof.
  revert i. induction active as [|a active IH]; intros [|i] H; cbn in H; try done.
  - by injection H as ->.
  - cbn [insert list_insert]. specialize (IH i H). destruct a as [t|].
    + change (active_ids (Some t :: active)) with (t :: active_ids active). rewrite IH. apply Permutation_swap.
    + exact IH.
Qed.

Lemma loads_take defs active i s d : length active = length defs -> defs !! i = Some d -> is_loadable d = true -> active !! i = Some (Some s) -> few (loads defs active) ->
  loads defs active = [s] /\ loads defs (<[i := None]> active) = [].
Proof.
  revert defs i. induction active as [|a active IH]; intros [|d' defs] [|i] Hl Hd Hld Ha Hf; try done; injection Hl as Hl; cbn in Hd, Ha.
  - injection Hd as ->. injection Ha as ->. cbn [loads] in Hf |- *. rewrite Hld in *. apply few_cons in Hf. by rewrite Hf.
  - cbn [insert list_insert loads] in *. destruct a as [t|]; [|by eapply IH]. destruct (is_loadable d'); [|by eapply IH].
    apply few_cons in Hf as Hn. exfalso. destruct (IH defs i Hl Hd Hld Ha) as [E _]; [rewrite Hn; cbn; lia|]. by rewrite E in Hn.
Qed.

Lemma end_rw_sound b : sound_builder b -> sound_builder (end_rw_load_segment b).
Proof.
  intros Hb. unfold end_rw_load_segment. change (list_find _ PROGRAM_SEGMENT_DEFS) with (Some (6%nat, mkSegment LOAD true false)). cbv iota beta.
  match goal with |- context [match ?x with _ => _ end] => destruct x as [[s|]|] eqn:Ea end; try done. destruct Hb as [T F N D B I A C].
  pose proof (Forall2_length _ _ _ T) as Hlen. destruct (loads_take PROGRAM_SEGMENT_DEFS (bl_active b) 6 s _ (eq_sym Hlen) eq_refl eq_refl Ea F) as [El El'].
  pose proof (active_ids_take _ _ _ Ea) as P. destruct (Forall2_lookup_l _ _ _ 6%nat (mkSegment LOAD true false) T eq_refl) as (a & Ha & Hk).
  rewrite Ea in Ha. injection Ha as <-. split; cbn [push_events bl_events bl_segments bl_active].
  - apply Forall2_same_length_lookup. split; [by rewrite length_insert|]. intros j d a Hd Haj. destruct (decide (j = 6%nat)) as [->|Hne].
    + rewrite list_lookup_insert_eq in Haj by (by apply lookup_lt_Some in Ea). by injection Haj as <-.
    + rewrite list_lookup_insert_ne in Haj by done. exact (Forall2_lookup_lr _ _ _ _ _ _ T Hd Haj).
  - rewrite El'. cbn. lia.
  - rewrite El'. rewrite El in N. cbn [head] in *. eapply nests_app; [exact N|done|]. by eapply nests_end.
  - rewrite segment_ends_app, <- app_assoc. cbn [segment_ends omap list_omap app]. by rewrite <- P.
  - rewrite segment_ends_app, <- app_assoc. cbn [segment_ends omap list_omap app]. by rewrite <- P.
  - intros t [Ht|Ht]; apply elem_of_app in Ht as [Ht|Ht]; try (by apply I; auto); apply list_elem_of_singleton in Ht; [done|]. injection Ht as ->. apply Hk.
  - rewrite segment_ends_app, <- app_assoc. cbn [segment_ends omap list_omap app]. by rewrite <- P.
  - eapply covers_app; [exact C|done|]. apply NoDup_app in D as (_ & _ & D). rewrite P in D. apply NoDup_cons in D as [Hs _].
    assert (list_to_set (active_ids (<[6%nat := None]> (bl_active b))) = (list_to_set (active_ids (bl_active b)) ∖ list_to_set [s] : gset Z)) as ->.
    { apply set_eq. intros t. rewrite elem_of_difference, !elem_of_list_to_set, P, list_elem_of_singleton, elem_of_cons. naive_solver. }
    apply (covers_ends _ _ [s]); [by apply NoDup_singleton|]. intros t ->%list_elem_of_singleton. apply elem_of_list_to_set. rewrite P. by left.
Qed.

Section building.
Context (o : OutputKind) (secondary : Z -> list Z).
Hypothesis Hfull : is_partial_object o = false.
Hypothesis Hloc : forall id, so_location (output_info os id) = None.
(** No loaded section is both writable and executable: no kind of segment would hold it. *)
Hypothesis Hwx : forall id, let a := section_attributes (output_info os id) in is_alloc a = true -> at_writable a && at_executable a = false.
Hypothesis Hsec : forall id s, s ∈ secondary id -> merge_target os s = Some id.

Lemma wanted_kinds id : length (wanted_loads (should_include_in_segment os id) PROGRAM_SEGMENT_DEFS) = if is_alloc (section_attributes (output_info os id)) then 1%nat else 0%nat.
Proof.
  unfold wanted_loads, PROGRAM_SEGMENT_DEFS. set (w := should_include_in_segment os id).
  assert (forall a b, w (mkSegment LOAD a b) = is_alloc (section_attributes (output_info os id)) && Bool.eqb (at_writable (section_attributes (output_info os id))) a &&
    Bool.eqb (at_executable (section_attributes (output_info os id))) b) as Hw by reflexivity.
  specialize (Hwx id). cbv zeta in Hwx. generalize dependent w. intros w Hw. cbn. rewrite !Hw. revert Hwx.
  destruct (is_alloc _), (at_writable _), (at_executable _); cbn; try done. intros H. by discriminate (H eq_refl).
Qed.

Lemma ordered_secondaries_in id s : s ∈ ordered_secondaries os secondary id -> s ∈ secondary id.
Proof. unfold ordered_secondaries. by rewrite sort_by_perm. Qed.

Lemma add_section_sound id b b' : merge_target os id = None -> sound_builder b -> add_section o os secondary id b = Ret b' -> sound_builder b' /\
  section_ids (bl_events b') = section_ids (bl_events b) ++ id :: ordered_secondaries os secondary id.
Proof.
  intros Hm Hb H. unfold add_section in H. set (b1 := if should_end_current_rw_segment os id b then _ else b) in H.
  assert (sound_builder b1 /\ section_ids (bl_events b1) = section_ids (bl_events b)) as [Hb1 Hs1].
  { unfold b1. destruct (should_end_current_rw_segment os id b); [|done]. split; [by apply end_rw_sound|]. unfold end_rw_load_segment.
    destruct (list_find _ _) as [[i d]|]; [|done]. match goal with |- context [match ?x with _ => _ end] => destruct x as [[s|]|] end; [|done..]. cbn [push_events bl_events]. by rewrite section_ids_app, app_nil_r. }
  clearbody b1. unfold start_stop_segments_for_section in H. rewrite Hfull, Hm, !Hloc in H.
  destruct (switch_segments os id PROGRAM_SEGMENT_DEFS (bl_active b1) (bl_segments b1)) as [[[[stop start] active] segs]|] eqn:E; [|done].
  cbn [mbind outcome_bind app push_events bl_events bl_segments bl_active] in H. injection H as <-.
  pose proof (Forall2_length _ _ _ (sb_typed _ Hb1)) as Hlen. apply switch_switched in E; [|done].
  pose proof (wanted_kinds id) as Hw. split.
  - change (OutputSection id :: map OutputSection (ordered_secondaries os secondary id)) with (map OutputSection (id :: ordered_secondaries os secondary id)).
    eapply (switched_sound _ b1); [done|exact E|rewrite Hw; destruct (is_alloc _); lia|].
    assert (forall j, primary_output_section os j = id -> loaded os j = bool_decide (is_Some (head (wanted_loads (should_include_in_segment os id) PROGRAM_SEGMENT_DEFS)))) as Hl.
    { intros j ->. unfold section_flags. destruct (wanted_loads _ _) as [|d l], (is_alloc _); done. }
    assert (forall j, primary_output_section os j = id -> loaded os j = bool_decide (is_Some (head (wanted_loads (should_include_in_segment os id) PROGRAM_SEGMENT_DEFS))) /\
      so_location (output_info os j) = None /\ should_include_in_segment os (primary_output_section os j) = should_include_in_segment os id) as Hj.
    { intros j Hj. split_and!; [by apply Hl|apply Hloc|by rewrite Hj]. }
    constructor; [apply Hj; unfold primary_output_section; by rewrite Hm|]. apply Forall_forall. intros j Hjs%ordered_secondaries_in%Hsec.
    apply Hj. unfold primary_output_section. by rewrite Hjs.
  - cbn [push_events bl_events]. rewrite !section_ids_app, Hs1. f_equal. assert (forall l, section_ids (map SegmentEnd l) = []) as -> by (by induction l).
    assert (forall l, section_ids (map SegmentStart l) = []) as -> by (by induction l). cbn. f_equal.
    generalize (ordered_secondaries os secondary id) as l. induction l as [|j l IH]; [done|]. cbn. by rewrite <- IH at 2.
Qed.

Lemma add_sections_sound ids b b' : Forall (fun id => merge_target os id = None) ids -> sound_builder b -> add_sections o os secondary ids b = Ret b' -> sound_builder b' /\
  section_ids (bl_events b') = section_ids (bl_events b) ++ (ids ≫= fun id => id :: ordered_secondaries os secondary id).
Proof.
  intros Hm. revert b. induction Hm as [|id ids Hid Hm IH]; intros b Hb H; cbn [add_sections] in H.
  - injection H as <-. by rewrite app_nil_r.
  - destruct (add_section o os secondary id b) as [b1|] eqn:E; [|done]. destruct (add_section_sound id b b1 Hid Hb E) as [Hb1 Hs1].
    destruct (IH b1 Hb1 H) as [Hb' Hs']. split; [done|]. rewrite Hs', Hs1. cbn [mbind list_bind]. by rewrite <- app_assoc.
Qed.

(** The stack, and whatever has no sections. *)
Lemma add_unconditional_sound defs b b' : Forall (fun d => is_loadable d = false) defs -> sound_builder b -> bl_active b = repeat None (length PROGRAM_SEGMENT_DEFS) ->
  add_unconditional defs b = Ret b' -> sound_builder b' /\ section_ids (bl_events b') = section_ids (bl_events b) /\ bl_active b' = bl_active b.
Proof.
  intros Hd. revert b. induction Hd as [|d defs Hld Hd IH]; intros b Hb Hn H; cbn [add_unconditional] in H; [by injection H as <-|].
  destruct (add_segment d (bl_segments b)) as [[new segs]|] eqn:Ea; [|done]. apply add_segment_spec in Ea as (-> & -> & Hk & Hp). cbn in H.
  assert (sound_builder (mkBuilder (bl_events b ++ [SegmentStart (Z.of_nat (length (bl_segments b))); SegmentEnd (Z.of_nat (length (bl_segments b)))])
    (bl_segments b ++ [d]) (bl_active b))) as Hb1; [|destruct (IH _ Hb1 Hn H) as (H1 & H2 & H3)].
  - destruct Hb as [T F N D B I A C]. rewrite Hn in *. change (active_ids (repeat None _)) with (@nil Z) in *. rewrite app_nil_r in *.
    split; cbn [bl_events bl_segments bl_active]; change (active_ids (repeat None _)) with (@nil Z); rewrite ?app_nil_r.
    + by eapply typed_prefix.
    + done.
    + eapply nests_app; [exact N|done|]. change [SegmentStart ?s; SegmentEnd ?t] with ([SegmentStart s] ++ [SegmentEnd t]).
      eapply (nests_app (bl_segments b ++ [d]) (bl_segments b ++ [d])); [|done|]; apply nests_other; [by left|by exists d|by right|by exists d].
    + rewrite segment_ends_app. cbn. apply NoDup_app. split_and!; [done| |by apply NoDup_singleton]. intros s Hs ->%list_elem_of_singleton.
      rewrite Forall_forall in B. specialize (B _ Hs). lia.
    + rewrite segment_ends_app, length_app. cbn. apply Forall_app. split; [eapply Forall_impl; [exact B|]; cbn; intros; lia|]. constructor; [lia|constructor].
    + intros s Hs. rewrite !elem_of_app in Hs. destruct Hs as [[Hs|Hs]|[Hs|Hs]]; try (by apply I; auto); apply elem_of_cons in Hs as [Hs|Hs%list_elem_of_singleton]; try done;
        injection Hs as ->; lia.
    + rewrite segment_ends_app, length_app, Nat.add_1_r, seq_S, fmap_app, <- A. done.
    + eapply covers_app; [exact C|done|]. apply covers_alone.
  - split; [done|]. cbn in H2, H3. split; [|done]. by rewrite H2, section_ids_app, app_nil_r.
Qed.

Lemma build_sound b events segs : sound_builder b -> build o b = Ret (events, segs) ->
  well_nested os segs None events = true /\ covered segs ∅ events /\ segment_ends events ≡ₚ Z.of_nat <$> seq 0 (length segs) /\
  (forall s, SegmentStart s ∈ events \/ SegmentEnd s ∈ events -> 0 <= s) /\ section_ids events = section_ids (bl_events b).
Proof.
  intros Hb H. unfold build in H. rewrite Hfull in H. pose proof (Forall2_length _ _ _ (sb_typed _ Hb)) as Hlen.
  pose proof (switched_none PROGRAM_SEGMENT_DEFS (bl_active b) (bl_segments b) (eq_sym Hlen)) as Hsw.
  pose proof (switched_sound _ b _ _ _ _ [] Hb Hsw (Nat.le_0_l 1) ltac:(constructor)) as Hb1. cbn [map] in Hb1. rewrite !app_nil_r in Hb1.
  set (b0 := push_events _ b) in H. set (b1 := mkBuilder _ _ (repeat None _)) in Hb1.
  destruct (add_unconditional UNCONDITIONAL_SEGMENT_DEFS b0) as [b2|] eqn:E; [|done]. cbn in H. injection H as <- <-.
  assert (add_unconditional UNCONDITIONAL_SEGMENT_DEFS b1 = Ret (mkBuilder (bl_events b2) (bl_segments b2) (bl_active b1))) as E1.
  { revert E. unfold UNCONDITIONAL_SEGMENT_DEFS, b0, b1, push_events. cbn [add_unconditional bl_events bl_segments bl_active].
    destruct (add_segment _ (bl_segments b)) as [[new segs]|]; [|done]. cbn. by intros [= <-]. }
  destruct (add_unconditional_sound UNCONDITIONAL_SEGMENT_DEFS b1 _ ltac:(by repeat constructor) Hb1 eq_refl E1) as ([T F N D B I A C] & Hs & Ha). cbn [bl_events bl_segments bl_active b1] in *.
  change (loads _ (repeat None _)) with (@nil Z) in N. change (active_ids (repeat None _)) with (@nil Z) in A, C. rewrite app_nil_r in A. split_and!; [| |done..|].
  - rewrite <- (app_nil_r (bl_events b2)). by apply (N (bl_segments b2) [] ltac:(done)).
  - rewrite <- (app_nil_r (bl_events b2)). by apply (C (bl_segments b2) [] ltac:(done)).
  - rewrite Hs, section_ids_app. assert (forall l, section_ids (map SegmentEnd l) = []) as -> by (by induction l). by rewrite app_nil_r.
Qed.
End building.

(** ** Which sections there are *)

Definition all_custom (c : CustomSectionIds) : list Z := cu_ro c ++ cu_exec c ++ cu_tdata c ++ cu_tbss c ++ cu_data c ++ cu_bss c ++ cu_nonalloc c.
Definition no_custom : CustomSectionIds := mkCustom [] [] [] [] [] [] [].

Lemma classify_perm id c : all_custom (classify os id c) ≡ₚ id :: all_custom c.
Proof.
  destruct c as [ro exec data bss nonalloc tdata tbss]. unfold classify. repeat case_match; unfold all_custom;
    cbn [cu_ro cu_exec cu_data cu_bss cu_nonalloc cu_tdata cu_tbss]; solve_Permutation.
Qed.

Lemma custom_sections_perm ids c : all_custom (foldl (fun c id => match merge_target os id with
    | Some _ => c | None => if is_custom id then classify os id c else c end) c ids)
  ≡ₚ filter (fun id => merge_target os id = None /\ is_custom id = true) ids ++ all_custom c.
Proof.
  revert c. induction ids as [|id ids IH]; intros c; [done|]. cbn [foldl]. rewrite IH. destruct (merge_target os id) eqn:Em; [|destruct (is_custom id) eqn:Ec].
  - rewrite filter_cons_False; [done|]. intros [H _]. congruence.
  - rewrite filter_cons_True by done. rewrite classify_perm. cbn. by rewrite Permutation_middle.
  - rewrite filter_cons_False; [done|]. intros [_ H]. congruence.
Qed.

Lemma section_order_perm c : section_order c ≡ₚ section_order no_custom ++ all_custom c.
Proof.
  destruct c as [ro exec data bss nonalloc tdata tbss]. unfold section_order, all_custom, no_custom. cbn [cu_ro cu_exec cu_data cu_bss cu_nonalloc cu_tdata cu_tbss].
  rewrite !app_nil_l. solve_Permutation.
Qed.

(** The built-in sections that are asked for by name. *)
Definition named_sections : list Z := section_order no_custom.

Lemma named_small : NoDup named_sections /\ Forall (fun id => id < NUM_BUILT_IN_SECTIONS) named_sections.
Proof.
  split; [apply (bool_decide_eq_true_1 (NoDup named_sections)); vm_compute; reflexivity|].
  apply Forall_forall. intros id Hid. apply Z.ltb_lt. assert (forallb (fun id => id <? NUM_BUILT_IN_SECTIONS) named_sections = true) as H by (vm_compute; reflexivity).
  rewrite forallb_forall in H. by apply H, list_elem_of_In.
Qed.

(** They are all the built-in sections of ELF that are not secondary. *)
Lemma built_in_named id d : (id, d) ∈ SECTION_DEFINITIONS -> bd_kind d = Primary -> id ∈ named_sections.
Proof.
  intros Hin Hk. assert (forallb (fun row => match bd_kind (snd row) with Primary => bool_decide (fst row ∈ named_sections) | _ => true end) SECTION_DEFINITIONS = true) as H
    by (vm_compute; reflexivity).
  rewrite forallb_forall in H. apply list_elem_of_In, H in Hin. cbn in Hin. rewrite Hk in Hin. by apply bool_decide_eq_true in Hin.
Qed.
End order.

(** C11. The order that the linker builds is sound, in a full link (no partial object), for any sections of which none has a fixed
    address, no loaded one is both writable and executable (no kind of segment holds those) and the built-in ones that the order
    names are not secondary.  LOAD segments never overlap and a section is in one exactly if it is loaded.  Every segment of
    the program headers starts once and ends once, after it started; and at each section exactly one segment is open of each kind
    that wants it (its primary, for a secondary one), and no other.  Every section is there at most once; none is left out
    whose primary is one that the order names, which are all the primary built-in sections of ELF, or a custom one. *)
Theorem output_order_sound os o n events segments :
  is_partial_object o = false -> (forall id, so_location (output_info os id) = None) ->
  (forall id, let a := section_attributes (output_info os id) in is_alloc a = true -> at_writable a && at_executable a = false) ->
  Forall (fun id => merge_target os id = None) named_sections ->
  output_order o os n = Ret (events, segments) ->
  well_nested os segments None events = true /\ covered os segments ∅ events /\
  segment_ends events ≡ₚ Z.of_nat <$> seq 0 (length segments) /\ NoDup (section_ids events) /\
  (forall s, SegmentStart s ∈ events \/ SegmentEnd s ∈ events -> 0 <= s) /\
  (forall id d, (id, d) ∈ SECTION_DEFINITIONS -> bd_kind d = Primary -> id ∈ named_sections) /\
  (forall id, 0 <= id < Z.of_nat n -> let p := primary_output_section os id in
     p ∈ named_sections \/ (0 <= p < Z.of_nat n /\ is_custom p = true /\ merge_target os p = None) -> id ∈ section_ids events).
Proof.
  intros Hfull Hloc Hwx Hnamed H. unfold output_order, build_output_order_and_program_segments in H.
  set (ids := Z.of_nat <$> seq 0 n) in H. set (custom := custom_sections os ids) in H.
  destruct (add_sections o os (secondaries_of os ids) (section_order custom) new_builder) as [b|] eqn:E; [|done]. cbn [mbind outcome_bind] in H.
  assert (forall id s, s ∈ secondaries_of os ids id -> merge_target os s = Some id) as Hsec by (by intros id s [Hs _]%list_elem_of_filter).
  assert (section_order custom ≡ₚ named_sections ++ filter (fun id => merge_target os id = None /\ is_custom id = true) ids) as Hord.
  { rewrite section_order_perm. unfold custom, custom_sections. rewrite custom_sections_perm. unfold all_custom at 1. cbn. by rewrite app_nil_r. }
  assert (Forall (fun id => merge_target os id = None) (section_order custom)) as Hprim.
  { rewrite Hord. apply Forall_app. split; [done|]. apply Forall_forall. by intros id [[Hm _] _]%list_elem_of_filter. }
  destruct (add_sections_sound os o _ Hfull Hloc Hwx Hsec _ _ b Hprim (new_sound os) E) as [Hb Hs]. cbn [new_builder bl_events section_ids omap list_omap app] in Hs.
  destruct (build_sound os o Hfull b events segments Hb H) as (Hw & Hcov & Hends & Hids & Hse). rewrite Hse, Hs.
  assert (forall id s, s ∈ ordered_secondaries os (secondaries_of os ids) id <-> merge_target os s = Some id /\ s ∈ ids) as Hos.
  { intros id s. unfold ordered_secondaries. rewrite sort_by_perm. unfold secondaries_of. by rewrite list_elem_of_filter. }
  assert (NoDup ids) as Hnd by (apply NoDup_fmap_2; [apply _|apply NoDup_seq]).
  split_and!; try done.
  - apply NoDup_bind.
    + rewrite Forall_forall in Hprim. intros x y s Hx Hy Hxs Hys. pose proof (Hprim x Hx). pose proof (Hprim y Hy).
      apply elem_of_cons in Hxs as [->|[Hxs _]%Hos], Hys as [->|[Hys _]%Hos]; congruence.
    + rewrite Forall_forall in Hprim. intros x Hx. constructor; [intros [Hm _]%Hos; by rewrite Hprim in Hm|].
      unfold ordered_secondaries. rewrite sort_by_perm. by apply NoDup_filter.
    + rewrite Hord. destruct named_small as [H1 H2]. apply NoDup_app. split_and!; [done| |by apply NoDup_filter].
      intros id Hid [[_ Hc] _]%list_elem_of_filter. rewrite Forall_forall in H2. specialize (H2 id Hid). unfold is_custom in Hc. lia.
  - apply built_in_named.
  - intros id Hid p Hp. apply list_elem_of_bind. exists p. split.
    + unfold p, primary_output_section. destruct (merge_target os id) as [q|] eqn:Eq; cbn [default]; [|by left]. right. apply Hos. split; [done|].
      apply list_elem_of_fmap. exists (Z.to_nat id). rewrite elem_of_seq. lia.
    + rewrite Hord. apply elem_of_app. destruct Hp as [Hp|(Hp & Hc & Hm)]; [by left|]. right. apply list_elem_of_filter. split; [done|].
      apply list_elem_of_fmap. exists (Z.to_nat p). rewrite elem_of_seq. lia.
Qed.

(** The built-in sections, a custom section with data (54) and constructors with a priority (55). *)
Definition mixed_info (id : Z) : SectionOutputInfo :=
  if id =? 54 then mkSectionInfo Primary (mkAttributes true true false false OTHER_TYPE) (mkAlignment 4) None None
  else if id =? 55 then mkSectionInfo (Secondary Id.INIT_ARRAY) (mkAttributes true true false false OTHER_TYPE) (mkAlignment 3) None (Some 101)
  else built_in_info id.
Definition mixed_sections : OutputSections := mkSections 0 mixed_info (fun _ => None).
Definition mixed_order : list OrderEvent * list ProgramSegmentDef :=
  match output_order (SharedObject) mixed_sections 56 with Ret order => order | _ => ([], []) end.

Lemma built_in_writable id : let a := section_attributes (built_in_info id) in is_alloc a = true -> at_writable a && at_executable a = false.
Proof.
  cbv zeta. unfold built_in_info. cbn [section_attributes]. unfold opt_built_in_details. destruct ((0 <=? id) && _); [|done]. cbn [default].
  assert (Forall (fun row : Z * BuiltInSectionDetails => at_writable (bd_attributes (snd row)) && at_executable (bd_attributes (snd row)) = false) SECTION_DEFINITIONS) as H
    by (by repeat constructor).
  intros _. induction H as [|[i d] rows Hd _ IH]; [done|]. cbn [find_details]. by destruct (i =? id).
Qed.

Lemma output_order_sound_witness : well_nested mixed_sections (snd mixed_order) None (fst mixed_order) = true /\
  segment_ends (fst mixed_order) ≡ₚ Z.of_nat <$> seq 0 (length (snd mixed_order)) /\
  54 ∈ section_ids (fst mixed_order) /\ 55 ∈ section_ids (fst mixed_order).
Proof.
  destruct (output_order_sound mixed_sections SharedObject 56 (fst mixed_order) (snd mixed_order)) as (Hw & _ & He & _ & _ & _ & Hc).
  - reflexivity.
  - intros id. cbn. unfold mixed_info. destruct (id =? 54); [done|]. destruct (id =? 55); done.
  - intros id. cbn [mixed_sections output_info]. unfold mixed_info. destruct (id =? 54); [done|]. destruct (id =? 55); [done|]. apply built_in_writable.
  - unfold named_sections. cbn. repeat constructor.
  - vm_compute. reflexivity.
  - split; [exact Hw|]. split; [exact He|]. split.
    + apply (Hc 54); [lia|]. right. split; [vm_compute; split; [discriminate|reflexivity]|]. split; reflexivity.
    + apply (Hc 55); [lia|]. left. apply (bool_decide_eq_true_1 (primary_output_section mixed_sections 55 ∈ named_sections)). vm_compute. reflexivity.
Defined.
