(* ===== verification/LayoutImage.v ===== *)
(** Loading what layout has placed: mapping the LOAD segments that are kept puts the contents
    of every loaded part at its address, and zeros where a section has no data in the file. *)
From stdpp Require Import base numbers list gmap.
From S2P Require Import Prelude ValueFlags Alignment OutputOrder AddressLayout Placement SegmentExtents.
Open Scope Z_scope.

(** ** The file and its image *)

Definition in_file (r : OutputRecordLayout) (o : Z) : bool := (file_offset r <=? o) && (o <? file_offset r + file_size r).
Definition in_memory (r : OutputRecordLayout) (a : Z) : bool := (mem_offset r <=? a) && (a <? mem_offset r + mem_size r).

(** The file: the contents of the parts, at their file offsets, and zeros between them. *)
Definition written (records : Z -> OutputRecordLayout) (parts : list Z) (contents : Z -> Z -> Z) (o : Z) : Z :=
  match find (fun p => in_file (records p) o) parts with
  | Some p => contents p (o - file_offset (records p))
  | None => 0
  end.

(** The byte that a loader puts at an address: that of the file, or zero past the file size of the segment. *)
Definition loaded_byte (segments : list ProgramSegmentDef) (loaded : list SegmentLayout) (file : Z -> Z) (a : Z) : option Z :=
  match find (fun sl => is_load_segment segments (sl_id sl) && in_memory (sl_sizes sl) a) loaded with
  | Some sl => let o := a - mem_offset (sl_sizes sl) in Some (if o <? file_size (sl_sizes sl) then file (file_offset (sl_sizes sl) + o) else 0)
  | None => None
  end.

(** The parts of the sections, in order. *)
Definition event_parts (events : list OrderEvent) : list Z := section_ids events ≫= part_ids.

(** The LOAD segment that is open at a section. *)
Fixpoint load_segment_of (segments : list ProgramSegmentDef) (open : option Z) (events : list OrderEvent) (id : Z) : option Z :=
  match events with
  | [] => None
  | SegmentStart s :: events => load_segment_of segments (if is_load_segment segments s then Some s else open) events id
  | SegmentEnd s :: events => load_segment_of segments (if is_load_segment segments s then None else open) events id
  | OutputSection j :: events => if j =? id then open else load_segment_of segments open events id
  | SetLocation _ :: events => load_segment_of segments open events id
  end.

Lemma find_unique {A} (f : A -> bool) l x : x ∈ l -> f x = true -> (forall y, y ∈ l -> f y = true -> y = x) -> find f l = Some x.
Proof.
  intros Hx Hf Hu. destruct (find f l) as [y|] eqn:E.
  - apply find_some in E as [Hy Hfy]. f_equal. apply Hu; [by apply list_elem_of_In|done].
  - apply find_none with (x := x) in E; [congruence|by apply list_elem_of_In].
Qed.

Lemma find_nothing {A} (f : A -> bool) l : (forall y, y ∈ l -> f y = false) -> find f l = None.
Proof.
  intros Hu. destruct (find f l) as [y|] eqn:E; [|done]. apply find_some in E as [Hy Hfy]. rewrite Hu in Hfy; [done|by apply list_elem_of_In].
Qed.

Lemma NoDup_fst_unique {A B} (l : list (A * B)) k x y : NoDup l.*1 -> (k, x) ∈ l -> (k, y) ∈ l -> x = y.
Proof.
  intros Hnd Hx Hy. apply list_elem_of_lookup in Hx as [i Hi], Hy as [j Hj].
  assert (i = j) as -> by (apply (NoDup_lookup l.*1 i j k Hnd); by rewrite list_lookup_fmap, ?Hi, ?Hj). congruence.
Qed.

(** ** Segments that are kept *)

Section keeping.
Context (keep_section : Z -> bool).

Lemma foldl_keeps (l : list Z) (keep : list bool) n : keep !! n = Some true -> foldl (fun keep s => <[Z.to_nat s := true]> keep) keep l !! n = Some true.
Proof.
  revert keep. induction l as [|s l IH]; intros keep Hk; [done|]. cbn [foldl]. apply IH. destruct (decide (Z.to_nat s = n)) as [->|Hne].
  - apply list_lookup_insert_eq. by apply lookup_lt_Some in Hk.
  - by rewrite list_lookup_insert_ne.
Qed.

Lemma foldl_length (l : list Z) (keep : list bool) : length (foldl (fun keep s => <[Z.to_nat s := true]> keep) keep l) = length keep.
Proof. revert keep. induction l as [|s l IH]; intros keep; [done|]. cbn [foldl]. by rewrite IH, length_insert. Qed.

Lemma foldl_marks (l : list Z) (keep : list bool) s : s ∈ l -> (Z.to_nat s < length keep)%nat ->
  foldl (fun keep s => <[Z.to_nat s := true]> keep) keep l !! Z.to_nat s = Some true.
Proof.
  intros Hin. revert keep. induction Hin as [s l|s t l _ IH]; intros keep Hlt; cbn [foldl].
  - apply foldl_keeps. by apply list_lookup_insert_eq.
  - apply IH. by rewrite length_insert.
Qed.

Lemma mark_keeps events active keep n : keep !! n = Some true -> mark_segments keep_section events active keep !! n = Some true.
Proof.
  revert active keep. induction events as [|[s|s|id|a] events IH]; intros active keep Hk; cbn [mark_segments]; auto.
  destruct (keep_section id); auto using foldl_keeps.
Qed.

Lemma mark_length events active keep : length (mark_segments keep_section events active keep) = length keep.
Proof.
  revert active keep. induction events as [|[s|s|id|a] events IH]; intros active keep; cbn [mark_segments]; auto.
  destruct (keep_section id); rewrite IH; auto using foldl_length.
Qed.

Lemma mark_active body post active keep s j : s ∈ active -> SegmentEnd s ∉ body -> j ∈ section_ids body -> keep_section j = true ->
  (Z.to_nat s < length keep)%nat -> mark_segments keep_section (body ++ post) active keep !! Z.to_nat s = Some true.
Proof.
  intros Ha He Hj Hk Hlt. revert active keep Ha Hlt. induction body as [|e body IH]; intros active keep Ha Hlt; [by apply elem_of_nil in Hj|].
  apply not_elem_of_cons in He as [Hne He]. destruct e as [t|t|id|a]; cbn [app mark_segments section_ids omap list_omap] in *.
  - apply IH; set_solver.
  - apply IH; try done. apply list_elem_of_filter. split; [|done]. intros ->. done.
  - destruct (keep_section id) eqn:Eid.
    + by apply mark_keeps, foldl_marks.
    + apply IH; try done. apply elem_of_cons in Hj as [->|Hj]; [congruence|done].
  - by apply IH.
Qed.

Lemma mark_segment pre s body post active keep j : SegmentEnd s ∉ body -> j ∈ section_ids body -> keep_section j = true ->
  (Z.to_nat s < length keep)%nat -> mark_segments keep_section (pre ++ SegmentStart s :: body ++ post) active keep !! Z.to_nat s = Some true.
Proof.
  intros He Hj Hk. revert active keep. induction pre as [|e pre IH]; intros active keep Hlt; cbn [app mark_segments].
  - apply (mark_active _ _ _ _ _ j); try done. set_solver.
  - destruct e as [t|t|id|a]; try by apply IH. destruct (keep_section id); apply IH; by rewrite ?foldl_length.
Qed.
End keeping.

(** ** The segment of a section *)

Lemma load_segment_of_split os segments open events id s : well_nested os segments open events = true -> load_segment_of segments open events id = Some s ->
  (exists pre body post, load_at os segments events pre s body post /\ id ∈ section_ids body) \/
  open = Some s /\ exists body post, events = body ++ SegmentEnd s :: post /\ is_load_segment segments s = true /\ Forall (calm os segments) body /\ id ∈ section_ids body.
Proof.
  revert open. induction events as [|e events IH]; intros open Hw Hl; [done|].
  assert (forall open', well_nested os segments open' events = true -> load_segment_of segments open' events id = Some s -> (open' = Some s -> open = Some s /\ calm os segments e) ->
    (exists pre body post, load_at os segments (e :: events) pre s body post /\ id ∈ section_ids body) \/
    open = Some s /\ exists body post, e :: events = body ++ SegmentEnd s :: post /\ is_load_segment segments s = true /\ Forall (calm os segments) body /\ id ∈ section_ids body) as Hgo.
  { intros open' Hw' Hl' Ho. destruct (IH open' Hw' Hl') as [(pre & body & post & [-> Hs Hb] & Hid)|(Hos & body & post & -> & Hs & Hb & Hid)].
    - left. by exists (e :: pre), body, post.
    - destruct (Ho Hos) as [-> Hc]. right. split; [done|]. exists (e :: body), post. split_and!; [done..|by constructor|]. destruct e; try done. by right. }
  destruct e as [t|t|j|a]; cbn [well_nested load_segment_of] in Hw, Hl; [destruct (is_load_segment segments t) eqn:Ht..| |done].
  - apply andb_true_iff in Hw as [Hn%bool_decide_eq_true Hw]. destruct (IH _ Hw Hl) as [(pre & body & post & [-> Hs Hb] & Hid)|([= ->] & body & post & -> & Hs & Hb & Hid)].
    + left. by exists (SegmentStart t :: pre), body, post.
    + left. by exists [], body, post.
  - apply (Hgo open Hw Hl). by intros ->.
  - apply andb_true_iff in Hw as [Ho Hw]. apply (Hgo None Hw Hl). done.
  - apply (Hgo open Hw Hl). by intros ->.
  - pose proof Hw as Hw0. apply andb_true_iff in Hw as [[Ha Hloc%bool_decide_eq_true]%andb_true_iff Hw]. destruct (Z.eqb_spec j id) as [->|Hne].
    + subst open. right. split; [done|]. destruct (well_nested_right os segments s (OutputSection id :: events) Hw0) as (b & post & Eb & Hb & Hs & _).
      exists b, post. split_and!; try done. destruct b as [|e b]; [done|]. injection Eb as <- _. by left.
    + apply (Hgo open Hw Hl). intros ->. split; [done|]. split; [|done]. by destruct (is_alloc _).
Qed.

(** A loaded section has one. *)
Lemma load_segment_of_some os segments events id : well_nested os segments None events = true -> loaded os id = true -> id ∈ section_ids events ->
  exists s, load_segment_of segments None events id = Some s.
Proof.
  generalize (@None Z) as open. induction events as [|e events IH]; intros open Hw Ha Hid; [by apply elem_of_nil in Hid|].
  destruct e as [t|t|j|a]; cbn [well_nested load_segment_of section_ids omap list_omap] in *; [destruct (is_load_segment segments t); try (apply andb_true_iff in Hw as [_ Hw]); by apply IH..| |done].
  apply andb_true_iff in Hw as [[Ho _]%andb_true_iff Hw]. destruct (Z.eqb_spec j id) as [->|Hne].
  - rewrite Ha in Ho. destruct open; [by eexists|done].
  - apply elem_of_cons in Hid as [->|Hid]; [done|by apply IH].
Qed.

(** ** Alignments of parts *)

Lemma regular_part_alignment os id n p : NUM_SINGLE_PART_SECTIONS <= id -> small_id id -> part_ids id !! n = Some p ->
  exponent (part_alignment os p) = 16 - Z.of_nat n.
Proof.
  unfold small_id, part_ids, num_parts, base_part_id, part_offset, part_alignment, NUM_SINGLE_PART_SECTIONS, NUM_ALIGNMENTS, MAX_ALIGNMENT_EXPONENT.
  intros Hge Hid Hn. rewrite list_lookup_fmap in Hn. apply fmap_Some in Hn as (m & Hm & ->). apply lookup_seq in Hm as [-> Hlt].
  rewrite (proj2 (Z.ltb_ge id 38)) in * by lia. change (16 + 1) with 17 in *.
  rewrite (wrap_id 32 (id - 38)), (wrap_id 32 ((id - 38) * 17)), (wrap_id 32 (38 + _)), (wrap_id 32 (Z.of_nat _)), (wrap_id 32 (38 + _ + _)) by (unfold is_uint; lia).
  rewrite (proj2 (Z.ltb_ge _ 38)) by lia. cbn [exponent]. replace (38 + (id - 38) * 17 + Z.of_nat (0 + n) - 38) with (Z.of_nat n + (id - 38) * 17) by lia.
  rewrite Z.mod_add, Z.mod_small by lia. rewrite wrap_id by (unfold is_uint; lia). lia.
Qed.

(** Parts with a size keep the alignment that they are for. *)
Lemma part_alignment_kept os sizes id p : small_id id -> p ∈ part_ids id -> sizes p <> 0 ->
  alignment_min (part_alignment os p) (max_alignment os sizes id) = part_alignment os p.
Proof.
  intros Hid Hp Hsz. enough (exponent (part_alignment os p) <= exponent (max_alignment os sizes id)) as Hle.
  { unfold alignment_min. rewrite Z.min_l by done. by destruct (part_alignment os p). }
  destruct (Z.lt_ge_cases id NUM_SINGLE_PART_SECTIONS) as [Hlt|Hge].
  - assert ((p <? NUM_SINGLE_PART_SECTIONS) = true) as Hps.
    { pose proof (part_ids_section id p Hid Hp) as Ho. unfold output_section_id in Ho. destruct (p <? _) eqn:E; [done|]. exfalso.
      unfold part_ids, num_parts, base_part_id, part_offset in Hp. rewrite (proj2 (Z.ltb_lt _ _) Hlt) in Hp. cbn in Hp. apply elem_of_cons in Hp as [->|Hp]; [|by apply elem_of_nil in Hp].
      unfold small_id, NUM_SINGLE_PART_SECTIONS in *. rewrite Z.ltb_ge in E. change (u32 0) with 0 in E. rewrite Z.add_0_r, wrap_id in E by (unfold is_uint; lia). lia. }
    unfold part_alignment. rewrite Hps, (part_ids_section id p Hid Hp). by apply min_le_max.
  - apply list_elem_of_lookup in Hp as [n Hn]. rewrite (regular_part_alignment os id n p Hge Hid Hn). unfold max_alignment.
    destruct (list_find (fun p => sizes p <> 0) (part_ids id)) as [[i q]|] eqn:Ef.
    + apply list_find_Some in Ef as (Hi & _ & Hfirst). assert (i <= n)%nat as Hin.
      { destruct (Nat.le_gt_cases i n) as [|Hlt]; [done|]. by destruct (Hfirst n p Hn Hlt). }
      pose proof (regular_part_alignment os id i q Hge Hid Hi). unfold alignment_max. cbn. lia.
    + apply list_find_None in Ef. rewrite Forall_forall in Ef. exfalso. by apply (Ef p); [by eapply list_elem_of_lookup_2|].
Qed.

Section input.
Context (os : OutputSections) (args : LayoutArgs) (segments : list ProgramSegmentDef) (sizes : Z -> Z) (events : list OrderEvent).
Hypothesis Hin : sound_input os args segments sizes events.

Abbreviation load := (is_load_segment segments).
Abbreviation run := (after os args segments sizes (alignments os args segments sizes events)).
Abbreviation records := (layout_section_parts os args segments sizes events).
Abbreviation layouts := (layout_sections os records).
Abbreviation start := (first_cursor os).
Abbreviation load_at := (load_at os segments events).
Abbreviation sizes_of := (sizes_of_segment os args segments sizes events).

Lemma load_at_start pre s body post : load_at pre s body post -> 0 <= s /\ (Z.to_nat s < length segments)%nat /\ SegmentEnd s ∉ body.
Proof.
  intros [E Hs Hb]. split_and!.
  - apply (si_ids _ _ _ _ _ Hin). left. rewrite E. set_solver.
  - revert Hs. unfold is_load_segment, segment_is. destruct (segments !! Z.to_nat s) eqn:Es; [|done]. intros _. by apply lookup_lt_Some in Es.
  - intros He. pose proof (calm_no_load os segments body s Hb (or_intror He)). congruence.
Qed.

(** A LOAD segment with a section that is kept is kept. *)
Lemma load_kept relro keep pre s body post j : load_at pre s body post -> j ∈ section_ids body -> keep j = true ->
  s ∈ active_segment_ids args segments relro keep events.
Proof.
  intros Hla Hj Hk. destruct (load_at_start _ _ _ _ Hla) as (H0 & Hlt & He). destruct Hla as [E Hs _]. unfold active_segment_ids. rewrite (si_full _ _ _ _ _ Hin).
  apply list_elem_of_filter. split; [left|apply list_elem_of_fmap; exists (Z.to_nat s); rewrite elem_of_seq; lia].
  set (marked := mark_segments _ _ _ _).
  assert (marked !! Z.to_nat s = Some true) as Hm.
  { unfold marked. rewrite E. apply (mark_segment _ _ _ _ _ _ _ j); try done. by rewrite length_fmap. }
  assert (<[0%nat:=true]> marked !! Z.to_nat s = Some true) as Hm'.
  { destruct (decide (0%nat = Z.to_nat s)) as [<-|Hne]; [apply list_lookup_insert_eq; apply lookup_lt_Some in Hm; lia|by rewrite list_lookup_insert_ne]. }
  unfold update_segment_keep_list. destruct relro; [done|]. rewrite lookup_zip_with, Hm'. unfold is_load_segment, segment_is, is_loadable in Hs.
  destruct (segments !! Z.to_nat s) as [d|]; [|done]. apply bool_decide_eq_true in Hs. cbn. by rewrite Hs.
Qed.

Lemma active_ids_nonneg relro keep s : s ∈ active_segment_ids args segments relro keep events -> 0 <= s.
Proof.
  unfold active_segment_ids. rewrite (si_full _ _ _ _ _ Hin). intros [_ (n & -> & _)%list_elem_of_fmap]%list_elem_of_filter. lia.
Qed.

(** *** Where parts are in the file *)

Lemma file_chain_in f rs f' r : file_chain f rs f' -> r ∈ rs -> f <= file_offset r /\ 0 <= file_size r /\ file_offset r + file_size r <= f'.
Proof.
  assert (forall f rs f', file_chain f rs f' -> f <= f') as Hle.
  { clear. intros f rs. revert f. induction rs as [|q rs IH]; intros f f'; cbn; [done|]. intros (? & ? & Hc%IH). lia. }
  intros H Hr. revert f H. induction Hr as [r rs|r q rs _ IH]; intros f; cbn.
  - intros (H1 & H2 & Hc%Hle). lia.
  - intros (H1 & H2 & Hc). apply IH in Hc. lia.
Qed.

Lemma file_chain_split f rs f' i j r q : file_chain f rs f' -> rs !! i = Some r -> rs !! j = Some q -> (i < j)%nat -> file_offset r + file_size r <= file_offset q.
Proof.
  revert f i j. induction rs as [|t rs IH]; intros f i j; [done|]. cbn [file_chain]. intros (? & ? & Hc) Hi Hj Hlt. destruct j as [|j]; [lia|].
  cbn in Hj. destruct i as [|i]; cbn in Hi.
  - injection Hi as ->. destruct (file_chain_in _ _ _ q Hc); [by eapply list_elem_of_lookup_2|]. lia.
  - eapply IH; [exact Hc|exact Hi|exact Hj|lia].
Qed.

Lemma part_in_file l id k p : events = l ++ OutputSection id :: k -> p ∈ part_ids id ->
  at_file (run l start) <= file_offset (records p) /\ 0 <= file_size (records p) /\
  file_offset (records p) + file_size (records p) <= at_file (run (l ++ [OutputSection id]) start).
Proof. intros E Hp. eapply file_chain_in; [by eapply section_file|]. by apply list_elem_of_fmap_2. Qed.

Lemma in_file_spec r o : in_file r o = true <-> file_offset r <= o < file_offset r + file_size r.
Proof. unfold in_file. rewrite andb_true_iff, Z.leb_le, Z.ltb_lt. done. Qed.

Lemma in_memory_spec r a : in_memory r a = true <-> in_mem r a.
Proof. unfold in_memory, in_mem. rewrite andb_true_iff, Z.leb_le, Z.ltb_lt. done. Qed.

(** No two parts share a place in the file. *)
Lemma file_owner l id k l' j k' p q o : events = l ++ OutputSection id :: k -> events = l' ++ OutputSection j :: k' -> p ∈ part_ids id -> q ∈ part_ids j ->
  in_file (records p) o = true -> in_file (records q) o = true -> p = q.
Proof.
  assert (forall l id m j k p q, events = l ++ OutputSection id :: m ++ OutputSection j :: k -> p ∈ part_ids id -> q ∈ part_ids j ->
    file_offset (records p) + file_size (records p) <= file_offset (records q)) as Haux.
  { clear -Hin. intros l id m j k p q E Hp Hq. destruct (part_in_file _ _ _ _ E Hp) as (_ & _ & H1).
    destruct (part_in_file (l ++ OutputSection id :: m) j k q) as (H2 & _); [rewrite E; same_list|done|].
    destruct (run_mono os args segments sizes events Hin (l ++ [OutputSection id]) m (OutputSection j :: k)) as [H3 _]; [rewrite E; same_list|].
    replace ((l ++ [OutputSection id]) ++ m) with (l ++ OutputSection id :: m) in H3 by same_list. lia. }
  intros E E' Hp Hq. rewrite !in_file_spec. intros Hop Hoq. pose proof E as E2. rewrite E' in E2. apply split_cases in E2 as [(-> & [= ->] & _)|[(m & -> & ->)|(m & -> & ->)]].
  - apply list_elem_of_lookup in Hp as [i Hi], Hq as [i' Hi']. pose proof (section_file os args segments sizes events Hin _ _ _ E) as Hch.
    assert ((records <$> part_ids id) !! i = Some (records p)) as Hri by (by rewrite list_lookup_fmap, Hi).
    assert ((records <$> part_ids id) !! i' = Some (records q)) as Hri' by (by rewrite list_lookup_fmap, Hi').
    destruct (Nat.lt_trichotomy i i') as [Hlt|[->|Hlt]]; [|congruence|].
    + pose proof (file_chain_split _ _ _ _ _ _ _ Hch Hri Hri' Hlt). lia.
    + pose proof (file_chain_split _ _ _ _ _ _ _ Hch Hri' Hri Hlt). lia.
  - pose proof (Haux l id m j k' p q E Hp Hq). lia.
  - pose proof (Haux l' j m id k q p E' Hq Hp). lia.
Qed.

(** The byte that is written at a place of a part. *)
Lemma written_at contents id p o : id ∈ section_ids events -> p ∈ part_ids id -> in_file (records p) o = true ->
  written records (event_parts events) contents o = contents p (o - file_offset (records p)).
Proof.
  intros Hid Hp Ho. unfold written. rewrite (find_unique _ _ p); [done| |done|].
  - apply list_elem_of_bind. by exists id.
  - intros q (j & Hq & Hj)%list_elem_of_bind Hoq. apply list_elem_of_omap in Hid as (e & He & Ei), Hj as (e' & He' & Ej).
    destruct e; try done. destruct e'; try done. injection Ei as ->. injection Ej as ->.
    apply list_elem_of_split in He as (l & k & E), He' as (l' & k' & E'). symmetry. by apply (file_owner _ _ _ _ _ _ _ _ o E E').
Qed.

(** *** The contents of a LOAD segment *)

Lemma section_at id : id ∈ section_ids events -> exists l k, events = l ++ OutputSection id :: k.
Proof. intros (e & He & Ei)%list_elem_of_omap. destruct e; try done. injection Ei as ->. by apply list_elem_of_split. Qed.

Lemma part_sizes pre s body post b id b' q : load_at pre s body post -> body = b ++ OutputSection id :: b' -> q ∈ part_ids id ->
  base_distance os args segments sizes events pre s <= distance (records q) /\ file_size (records q) = (if with_data os id then mem_size (records q) else 0).
Proof.
  intros [E Hs Hb] Eb Hq. destruct (inside_section os args segments sizes events Hin _ _ _ _ E Hs Hb b id b' Eb) as (_ & _ & Hok & Hd & _).
  split; [apply (proj1 (Forall_forall _ _) Hd); by apply list_elem_of_fmap_2|]. apply list_elem_of_lookup in Hq as [n Hn].
  assert ((records <$> part_ids id) !! n = Some (records q)) as Hr by (by rewrite list_lookup_fmap, Hn).
  destruct (Forall2_lookup_l _ _ _ _ _ Hok Hn) as (r & Hr' & Hpo). rewrite Hr in Hr'. injection Hr' as <-. apply Hpo.
Qed.

(** Nothing is written where a section without data would be. *)
Lemma written_gap contents pre s body post b id b' p o : load_at pre s body post -> body = b ++ OutputSection id :: b' -> with_data os id = false ->
  p ∈ part_ids id -> file_offset (records p) <= o < at_file (inside os args segments sizes events pre s body) ->
  written records (event_parts events) contents o = 0.
Proof.
  intros Hla Eb Hd Hp [Ho1 Ho2]. pose proof Hla as [E Hs Hb]. unfold written. rewrite find_nothing; [done|].
  intros q (j & Hq & Hj)%list_elem_of_bind. apply section_at in Hj as (l & k & Ej). apply not_true_iff_false. rewrite in_file_spec. intros Hoq.
  destruct (part_in_file l j k q Ej Hq) as (Hf1 & _ & Hf2).
  assert (events = (pre ++ SegmentStart s :: b) ++ OutputSection id :: b' ++ SegmentEnd s :: post) as E1 by (rewrite E, Eb; same_list).
  destruct (part_in_file _ _ _ p E1 Hp) as (Hp1 & _ & _). pose proof Ej as E2. rewrite E1 in E2.
  apply split_cases in E2 as [(_ & [= <-] & _)|[(m & Em & _)|(m & -> & Ek)]].
  - destruct (part_sizes _ _ _ _ _ _ _ q Hla Eb Hq) as [_ Hz]. rewrite Hd in Hz. lia.
  - destruct (run_mono os args segments sizes events Hin (l ++ [OutputSection j]) m (OutputSection id :: b' ++ SegmentEnd s :: post)) as [Hm _].
    { rewrite E1, Em. same_list. }
    replace ((l ++ [OutputSection j]) ++ m) with (pre ++ SegmentStart s :: b) in Hm by (rewrite Em; same_list). lia.
  - apply split_cases in Ek as [(_ & [=] & _)|[(n & En & _)|(n & En & _)]].
    + assert (body = (b ++ OutputSection id :: m) ++ OutputSection j :: n) as Ej' by (rewrite Eb, En; same_list).
      destruct (part_sizes _ _ _ _ _ _ _ q Hla Ej' Hq) as [_ Hz].
      rewrite (no_data_after os args segments sizes events Hin _ _ _ _ E Hs Hb b id b' j Eb Hd) in Hz; [lia|]. rewrite En, section_ids_app. set_solver.
    + destruct (run_mono os args segments sizes events Hin (pre ++ SegmentStart s :: body) (SegmentEnd s :: n) (OutputSection j :: k)) as [Hm _].
      { rewrite Ej, Eb, En. same_list. }
      fold (inside os args segments sizes events pre s body) in Hm.
      replace ((pre ++ SegmentStart s :: body) ++ SegmentEnd s :: n) with ((pre ++ SegmentStart s :: b) ++ OutputSection id :: m) in Hm
        by (rewrite Eb, En; same_list). lia.
Qed.

(** What the segment puts at the addresses of a part. *)
Lemma part_loaded contents pre s body post id p i : load_at pre s body post -> id ∈ section_ids body -> p ∈ part_ids id -> 0 <= i < mem_size (records p) ->
  let l := sizes_of s body in let o := mem_offset (records p) + i - mem_offset l in
  in_mem l (mem_offset (records p) + i) /\
  (if o <? file_size l then written records (event_parts events) contents (file_offset l + o) else 0) = if with_data os id then contents p i else 0.
Proof.
  intros Hla Hid Hp Hi. cbv zeta. pose proof Hla as [E Hs Hb]. pose proof (load_at_shape os args segments sizes events Hin _ _ _ _ Hla) as [_ _ _ _ Hw Hparts].
  destruct (Hparts id p Hid Hp ltac:(lia)) as (Hdist & P1 & P2 & P3 & P4). destruct Hw as (W1 & W2 & W3 & W4); [lia|].
  split; [unfold in_mem; lia|]. destruct (section_split body id Hid) as (b & b' & Eb).
  destruct (part_sizes _ _ _ _ _ _ _ p Hla Eb Hp) as [Hge Hfs].
  destruct (with_data os id) eqn:Hd.
  - pose proof (data_distance os args segments sizes events Hin _ _ _ _ E Hs Hb b id b' Eb Hd) as Hall.
    assert (distance (records p) = base_distance os args segments sizes events pre s) as Hrd.
    { apply (proj1 (Forall_forall _ _) Hall). by apply list_elem_of_fmap_2. }
    unfold distance in *. rewrite (proj2 (Z.ltb_lt _ _)) by lia. rewrite (written_at contents id p).
    + f_equal. lia.
    + rewrite E, !section_ids_app. cbn. rewrite section_ids_app. set_solver.
    + done.
    + apply in_file_spec. lia.
  - destruct (Z.ltb_spec (mem_offset (records p) + i - mem_offset (sizes_of s body)) (file_size (sizes_of s body))) as [Hlt|]; [|done].
    eapply written_gap; [exact Hla|exact Eb|done|exact Hp|]. unfold distance in *. lia.
Qed.

Section result.
Context (number : SegmentType -> Z) (relro : bool) (keep : Z -> bool) (res : SegmentLayouts).
Hypothesis Hres : compute_segment_layout os args segments number layouts events (active_segment_ids args segments relro keep events) = Ret (Ok res).

Lemma ends_nonneg : Forall (fun s => 0 <= s) (segment_ends events).
Proof.
  apply Forall_forall. intros s (e & He & Es)%list_elem_of_omap. destruct e; try done. injection Es as ->. apply (si_ids _ _ _ _ _ Hin). by right.
Qed.

(** The LOAD segments of the result are those of the order that are kept. *)
Lemma result_segments : exists all : list (Z * extent), NoDup all.*1 /\ all.*1 = segment_ends events /\
  (forall sl, sl ∈ sl_segments res -> exists e, (sl_id sl, e) ∈ all /\ sl = mkSegmentLayout (sl_id sl) (segment_sizes e)) /\
  (forall s e, 0 <= s -> s ∈ active_segment_ids args segments relro keep events -> (s, e) ∈ all -> mkSegmentLayout s (segment_sizes e) ∈ sl_segments res) /\
  (forall pre s body post, load_at pre s body post -> exists e, (s, e) ∈ all /\ segment_sizes e = sizes_of s body).
Proof.
  destruct (segment_layouts os args segments layouts number events _ res (si_full _ _ _ _ _ Hin) (si_ends _ _ _ _ _ Hin) ends_nonneg Hres) as (all & Hall & Hids & Hsl).
  destruct (loop_ends _ _ _ _ _ _ _ _ Hall) as [Hends _]. cbn [map app] in Hends. change (map fst all) with all.*1 in Hends. exists all. split_and!.
  - rewrite Hends. apply Hin.
  - done.
  - intros sl Hsm. pose proof (active_ids_nonneg _ _ _ (Hids sl Hsm)) as H0. apply (Hsl sl H0) in Hsm as (e & _ & He & Heq). by exists e.
  - intros s e H0 Hs He. apply Hsl; [done|]. by exists e.
  - intros pre s body post Hla. destruct (load_at_start _ _ _ _ Hla) as (H0 & _). destruct Hla as [E Hs Hb].
    eexists. split; [eapply (loop_segment os args segments layouts pre s body post); [done| |rewrite <- E; exact Hall]|done].
    intros t Ht. split; [apply (si_ids _ _ _ _ _ Hin); rewrite E; set_solver|]. pose proof (calm_no_load os segments body t Hb Ht). congruence.
Qed.

Lemma result_ids sl : sl ∈ sl_segments res -> 0 <= sl_id sl.
Proof.
  destruct (segment_layouts os args segments layouts number events _ res (si_full _ _ _ _ _ Hin) (si_ends _ _ _ _ _ Hin) ends_nonneg Hres) as (all & _ & Hids & _).
  intros Hsl. by apply (active_ids_nonneg relro keep), Hids.
Qed.

Lemma result_load sl : sl ∈ sl_segments res -> load (sl_id sl) = true -> exists pre body post, load_at pre (sl_id sl) body post /\ sl_sizes sl = sizes_of (sl_id sl) body.
Proof.
  intros Hsl Hld. destruct result_segments as (all & Hnd & Hends & Hof & _ & Hext). destruct (Hof sl Hsl) as (e & He & Heq).
  assert (sl_id sl ∈ segment_ends events) as (ev & Hev & Es)%list_elem_of_omap by (rewrite <- Hends; apply list_elem_of_fmap; by exists (sl_id sl, e)).
  destruct ev as [|t| |]; try done. injection Es as ->. apply list_elem_of_split in Hev as (l1 & l2 & El).
  pose proof (si_nested _ _ _ _ _ Hin) as Hw. rewrite El in Hw. apply segment_body in Hw as (pre & b & -> & Hb); [|done].
  assert (load_at pre (sl_id sl) b l2) as Hla by (split; [rewrite El; same_list|done..]). exists pre, b, l2. split; [done|].
  destruct (Hext _ _ _ _ Hla) as (e' & He' & <-). rewrite Heq. cbn. f_equal. by apply (NoDup_fst_unique all (sl_id sl)).
Qed.

(** Addresses of a part are in one LOAD segment only. *)
Lemma result_find pre s body post a : load_at pre s body post -> s ∈ active_segment_ids args segments relro keep events -> in_mem (sizes_of s body) a ->
  find (fun sl => load (sl_id sl) && in_memory (sl_sizes sl) a) (sl_segments res) = Some (mkSegmentLayout s (sizes_of s body)).
Proof.
  intros Hla Hs Ha. destruct result_segments as (all & Hnd & _ & Hof & Hto & Hext). destruct (load_at_start _ _ _ _ Hla) as (H0 & _).
  destruct (Hext _ _ _ _ Hla) as (e & He & Hse). apply find_unique.
  - rewrite <- Hse. by apply Hto.
  - cbn. by rewrite (la_load _ _ _ _ _ _ _ Hla), (proj2 (in_memory_spec _ _) Ha).
  - intros sl Hsl [Hld Hm%in_memory_spec]%andb_true_iff. destruct (result_load sl Hsl Hld) as (pre' & body' & post' & Hla' & Hsz).
    destruct (decide (sl_id sl = s)) as [Heq|Hne].
    + destruct (Hof sl Hsl) as (e' & He' & ->). cbn in *. subst s. rewrite <- Hse. f_equal. f_equal. by apply (NoDup_fst_unique all (sl_id sl)).
    + rewrite Hsz in Hm. by destruct (segments_apart os args segments sizes events Hin _ _ _ _ _ _ _ _ a a Hla' Hla Hne Hm Ha).
Qed.
End result.
End input.

(** ** What layout promises *)

(** C9. Loading the output puts every loaded part where layout says it is: in a full link (no partial object) without fixed
    addresses whose LOAD segments follow each other and have their sections without data last, with sizes that leave room
    below 2^63 ([sound_input]), if the extents of the segments can be computed then each part
    of a loaded section is at an address with the alignment that the part is for and has the size that was asked for it, and the
    LOAD segments of the result (kept because some section of the same segment is) map the byte of its contents to each of its
    addresses, or zero where its section has no data in the file. *)
Theorem loaded_image os args segments sizes events number relro keep res contents id j p :
  sound_input os args segments sizes events ->
  let records := layout_section_parts os args segments sizes events in
  compute_segment_layout os args segments number (layout_sections os records) events (active_segment_ids args segments relro keep events) = Ret (Ok res) ->
  id ∈ section_ids events -> loaded os id = true -> p ∈ part_ids id ->
  keep j = true -> load_segment_of segments None events j = load_segment_of segments None events id ->
  (sizes p <> 0 -> mem_offset (records p) mod value (part_alignment os p) = 0) /\
  (id <> Id.RELRO_PADDING -> mem_size (records p) = sizes p) /\
  forall i, 0 <= i < mem_size (records p) ->
    loaded_byte segments (sl_segments res) (written records (event_parts events) contents) (mem_offset (records p) + i)
    = Some (if with_data os id then contents p i else 0).
Proof.
  intros Hin records Hres Hid Ha Hp Hk Hj. subst records. pose proof (si_nested _ _ _ _ _ Hin) as Hw.
  destruct (load_segment_of_some os segments events id Hw Ha Hid) as [s Es]. rewrite Es in Hj.
  destruct (load_segment_of_split _ _ _ _ _ _ Hw Es) as [(pre & body & post & Hla & Hb)|[[=] _]].
  destruct (load_segment_of_split _ _ _ _ _ _ Hw Hj) as [(pre' & body' & post' & Hla' & Hb')|[[=] _]].
  pose proof (load_kept _ _ _ _ _ Hin relro keep _ _ _ _ j Hla' Hb' Hk) as Hs.
  assert (small_id id) as Hsm by (by apply (proj1 (Forall_forall _ _) (si_small _ _ _ _ _ Hin))).
  pose proof Hla as [E Hld Hcalm]. destruct (section_split body id Hb) as (b & b' & Eb).
  destruct (inside_section os args segments sizes events Hin _ _ _ _ E Hld Hcalm b id b' Eb) as (_ & _ & Hok & _).
  pose proof Hp as Hp'. apply list_elem_of_lookup in Hp' as [n Hn]. destruct (Forall2_lookup_l _ _ _ _ _ Hok Hn) as (r & Hr & [Hpa Hpm _ _ Hpo]).
  rewrite list_lookup_fmap, Hn in Hr. injection Hr as <-. split_and!.
  - intros Hz. rewrite Hpa, part_alignment_kept in Hpm by done. exact Hpm.
  - exact Hpo.
  - intros i Hi. destruct (part_loaded os args segments sizes events Hin contents _ _ _ _ id p i Hla Hb Hp Hi) as [Hm Hv].
    unfold loaded_byte. rewrite (result_find os args segments sizes events Hin number relro keep res Hres _ _ _ _ _ Hla Hs Hm). cbn [sl_sizes]. f_equal. exact Hv.
Qed.

(** C10. The LOAD segments that layout makes can be mapped, in a full link without fixed addresses: when no partial object is
    written, neither a section nor a linker script sets a location, LOAD segments follow each other in the order of the output
    and hold exactly the loaded sections, those without data come last in them, alignments are supported ones and the sizes, each
    rounded up, leave room below 2^63 from a base address that is not negative ([sound_input]), and the extents of the segments
    can be computed.  Then no more of a LOAD segment is in the file than in memory, its address and its file offset agree modulo
    the alignment of its program header, and two LOAD segments have no page of memory in common. *)
Theorem load_segments_mappable os args segments sizes events number relro keep res s1 s2 :
  sound_input os args segments sizes events ->
  compute_segment_layout os args segments number (layout_sections os (layout_section_parts os args segments sizes events)) events
    (active_segment_ids args segments relro keep events) = Ret (Ok res) ->
  s1 ∈ sl_segments res -> is_load_segment segments (sl_id s1) = true ->
  s2 ∈ sl_segments res -> is_load_segment segments (sl_id s2) = true ->
  0 <= file_size (sl_sizes s1) <= mem_size (sl_sizes s1) /\
  (mem_offset (sl_sizes s1) - file_offset (sl_sizes s1)) mod value (p_align args segments s1) = 0 /\
  (sl_id s1 <> sl_id s2 -> forall a b, in_mem (sl_sizes s1) a -> in_mem (sl_sizes s2) b -> a / page args <> b / page args).
Proof.
  intros Hin Hres H1 L1 H2 L2. destruct (result_load os args segments sizes events Hin number relro keep res Hres s1 H1 L1) as (pre & body & post & Hla & Es).
  destruct (result_load os args segments sizes events Hin number relro keep res Hres s2 H2 L2) as (pre' & body' & post' & Hla' & Es').
  destruct (load_at_shape os args segments sizes events Hin _ _ _ _ Hla) as [F _ D M _ _]. pose proof Hla as [E Hld Hcalm]. split_and!.
  - by rewrite Es.
  - by rewrite Es.
  - destruct (granularity_spec os args segments sizes events Hin _ _ _ _ E Hld Hcalm) as (Hg & Hgp & _).
    pose proof (segment_alignment_le os args segments sizes events Hin _ _ _ _ E Hld Hcalm) as Hle. rewrite <- Es in Hle, D.
    assert (exponent (p_align args segments s1) <= exponent (granularity os args segments sizes events (sl_id s1))) as Hpa.
    { unfold p_align. rewrite L1. unfold alignment_max. cbn. lia. }
    destruct D as [D|D]; unfold distance in D; rewrite D; [|done].
    apply (base_distance_divides os args segments sizes events Hin _ _ _ _ E Hld Hcalm); [|done].
    pose proof (si_page _ _ _ _ _ Hin). unfold supported, p_align in *. rewrite L1 in *. unfold alignment_max in *. cbn in *. lia.
  - intros Hne a b Ha Hb. rewrite Es in Ha. rewrite Es' in Hb. by apply (segments_apart os args segments sizes events Hin _ _ _ _ _ _ _ _ a b Hla Hla').
Qed.

(** ** An executable *)

(** A static executable with the built-in sections; every fourth part holds a few bytes. *)
Definition exe_sections : OutputSections := mkSections 4194304 built_in_info (fun id => Some id).
Definition exe_args : LayoutArgs := mkLayoutArgs (mkAlignment 12) false false None.
Definition exe_sizes (p : Z) : Z := if p mod 4 =? 0 then 24 else 0.
Definition exe_order : list OrderEvent * list ProgramSegmentDef :=
  match output_order (StaticExecutable NonRelocatable) exe_sections 54 with Ret order => order | _ => ([], []) end.
Definition exe_records := layout_section_parts exe_sections exe_args (snd exe_order) exe_sizes (fst exe_order).
(** Sections that are not empty are kept. *)
Definition exe_keep (id : Z) : bool := existsb (fun p => negb (exe_sizes p =? 0)) (part_ids id).
Definition exe_segments : SegmentLayouts :=
  match compute_segment_layout exe_sections exe_args (snd exe_order) (fun _ => 9) (layout_sections exe_sections exe_records) (fst exe_order)
          (active_segment_ids exe_args (snd exe_order) true exe_keep (fst exe_order)) with
  | Ret (Ok res) => res
  | _ => mkSegmentLayouts [] None
  end.

Lemma exe_supported id : supported (min_alignment exe_sections id).
Proof.
  unfold min_alignment, exe_sections. cbn [output_info]. unfold built_in_info. cbn [so_min_alignment]. unfold opt_built_in_details.
  destruct ((0 <=? id) && (id <? NUM_BUILT_IN_SECTIONS)); cbn [default bd_min_alignment DEFAULT_DEFS]; [|by apply supported_MIN].
  assert (Forall (fun row : Z * BuiltInSectionDetails => supported (bd_min_alignment (snd row))) SECTION_DEFINITIONS) as H.
  { unfold SECTION_DEFINITIONS. repeat constructor; cbn; unfold MAX_ALIGNMENT_EXPONENT; lia. }
  induction H as [|[i d] rows Hd _ IH]; cbn [find_details]; [by apply supported_MIN|]. by destruct (i =? id).
Qed.

Definition nonneg_ids (events : list OrderEvent) : bool := forallb (fun e => match e with SegmentStart s | SegmentEnd s => 0 <=? s | _ => true end) events.

Lemma exe_sound : sound_input exe_sections exe_args (snd exe_order) exe_sizes (fst exe_order).
Proof.
  split.
  - reflexivity.
  - unfold supported. cbn. unfold MAX_ALIGNMENT_EXPONENT. lia.
  - apply exe_supported.
  - intros p. unfold exe_sizes. destruct (_ =? _); lia.
  - reflexivity.
  - vm_compute. reflexivity.
  - vm_compute. reflexivity.
  - apply (bool_decide_eq_true_1 (NoDup (section_ids (fst exe_order)))). vm_compute. reflexivity.
  - apply Forall_forall. intros id Hid. assert (forallb (fun id => (0 <=? id) && (id <? 2 ^ 27)) (section_ids (fst exe_order)) = true) as H.
    { vm_compute. reflexivity. }
    rewrite forallb_forall in H. apply list_elem_of_In, H in Hid. unfold small_id. lia.
  - apply (bool_decide_eq_true_1 (NoDup (segment_ends (fst exe_order)))). vm_compute. reflexivity.
  - intros s Hs. assert (nonneg_ids (fst exe_order) = true) as H by (vm_compute; reflexivity). unfold nonneg_ids in H. rewrite forallb_forall in H.
    destruct Hs as [Hs|Hs]; apply list_elem_of_In, H in Hs; by apply Z.leb_le.
  - cbn. lia.
  - vm_compute. reflexivity.
Qed.

Lemma exe_in (x : Z) (l : list Z) : bool_decide (x ∈ l) = true -> x ∈ l.
Proof. apply bool_decide_eq_true_1. Qed.

(** The bytes of .text that are aligned to 64, which are in the third LOAD segment. *)
Lemma loaded_image_witness :
  loaded_byte (snd exe_order) (sl_segments exe_segments) (written exe_records (event_parts (fst exe_order)) (fun p i => p + i)) (mem_offset (exe_records 116) + 3)
  = Some 119.
Proof.
  destruct (loaded_image exe_sections exe_args (snd exe_order) exe_sizes (fst exe_order) (fun _ => 9) true exe_keep exe_segments (fun p i => p + i)
    Id.TEXT Id.TEXT 116 exe_sound) as (_ & _ & H).
  - vm_compute. reflexivity.
  - apply exe_in. vm_compute. reflexivity.
  - reflexivity.
  - apply exe_in. vm_compute. reflexivity.
  - vm_compute. reflexivity.
  - reflexivity.
  - exact (H 3 ltac:(vm_compute; split; [discriminate|reflexivity])).
Defined.

(** The segments of the headers and of .text. *)
Lemma load_segments_mappable_witness : match sl_segments exe_segments !! 2%nat, sl_segments exe_segments !! 3%nat with
  | Some headers, Some text => forall a b, in_mem (sl_sizes headers) a -> in_mem (sl_sizes text) b -> a / page exe_args <> b / page exe_args
  | _, _ => False
  end.
Proof.
  destruct (sl_segments exe_segments !! 2%nat) as [s1|] eqn:E1; [|vm_compute in E1; discriminate].
  destruct (sl_segments exe_segments !! 3%nat) as [s2|] eqn:E2; [|vm_compute in E2; discriminate].
  apply (load_segments_mappable exe_sections exe_args (snd exe_order) exe_sizes (fst exe_order) (fun _ => 9) true exe_keep exe_segments s1 s2 exe_sound).
  - vm_compute. reflexivity.
  - by eapply list_elem_of_lookup_2.
  - vm_compute in E1. injection E1 as <-. reflexivity.
  - by eapply list_elem_of_lookup_2.
  - vm_compute in E2. injection E2 as <-. reflexivity.
  - vm_compute in E1, E2. injection E1 as <-. injection E2 as <-. discriminate.
Defined.

(** ** Read-only sections without data *)

(** A read-only custom section without data (54) comes before the other read-only custom sections (55), so that
    [bss_last] does not hold; what is loaded at the address of the latter is not its contents. *)
Definition nobits_info (id : Z) : SectionOutputInfo :=
  if id =? 54 then mkSectionInfo Primary (mkAttributes true false false false NOBITS) MIN None None
  else if id =? 55 then mkSectionInfo Primary (mkAttributes true false false false OTHER_TYPE) MIN None None
  else built_in_info id.
Definition nobits_sections : OutputSections := mkSections 4194304 nobits_info (fun id => Some id).
Definition nobits_order : list OrderEvent * list ProgramSegmentDef :=
  match output_order (StaticExecutable NonRelocatable) nobits_sections 56 with Ret order => order | _ => ([], []) end.
Definition nobits_sizes (p : Z) : Z := if (p =? 0) || (p =? 1) || (p =? 326) || (p =? 343) then 24 else 0.
Definition nobits_records := layout_section_parts nobits_sections exe_args (snd nobits_order) nobits_sizes (fst nobits_order).

Lemma read_only_nobits_displaces : 343 ∈ part_ids 55 /\ bss_last nobits_sections (snd nobits_order) false (fst nobits_order) = false /\
  match compute_segment_layout nobits_sections exe_args (snd nobits_order) (fun _ => 9) (layout_sections nobits_sections nobits_records) (fst nobits_order)
          (active_segment_ids exe_args (snd nobits_order) true (fun _ => true) (fst nobits_order)) with
  | Ret (Ok res) =>
      loaded_byte (snd nobits_order) (sl_segments res) (written nobits_records (event_parts (fst nobits_order)) (fun p _ => p)) (mem_offset (nobits_records 343))
      = Some 0
  | _ => False
  end.
Proof. split; [apply exe_in|split]; vm_compute; reflexivity. Qed.
