(* ===== verification/HashTables.v ===== *)
(** The hash tables of dynamic symbols, [.gnu.hash] and [.hash]: their layout
    ([create_gnu_hash_layout], [allocate_sysv_hash] of [libwild/src/elf.rs]), what the writer
    puts in them ([write_gnu_hash_tables], [write_sysv_hash_table] of [elf_writer.rs]) and what
    the dynamic loader finds there. *)
From stdpp Require Import base numbers list sorting.
From S2P Require Import Prelude ByteOrder.
Open Scope Z_scope.

(** A symbol that is defined for others. *)
Record DynamicSymbolDefinition := mkDefinition { ds_symbol_id : Z; ds_name : bytes; ds_hash : Z; ds_version : Z }.

(** The parts of its raw name and the version that the script gives it are found elsewhere;
    [gnu_hash] is that of the [object] crate. *)
Definition create_dynamic_symbol_definition (gnu_hash : bytes -> Z) (symbol_id : Z) (name : bytes) (is_default : bool) (script_version : option Z)
  : DynamicSymbolDefinition :=
  let version := match script_version with None => 1 | Some v => if is_default then v else Z.lor v (2 ^ 15) end in
  mkDefinition symbol_id name (gnu_hash name) version.

(** [usize::next_power_of_two]. *)
Definition next_power_of_two (n : Z) : Z := if n <=? 1 then 1 else 2 ^ Z.log2_up n.

(** A remainder panics for a zero divisor. *)
Definition rem (a b : Z) : outcome Z := if b =? 0 then Panic else Ret (a mod b).

(** ** .gnu.hash *)

Record GnuHashLayout := mkGnuLayout { num_defs : Z; bucket_count : Z; bloom_shift : Z; bloom_count : Z; symbol_base : Z }.

Definition bucket_for_hash (l : GnuHashLayout) (hash : Z) : outcome Z := rem hash (bucket_count l).

(** Definitions are sorted by bucket and then by name. *)
Definition before (l : GnuHashLayout) (d e : DynamicSymbolDefinition) : Prop :=
  ds_hash d mod bucket_count l < ds_hash e mod bucket_count l \/
  ds_hash d mod bucket_count l = ds_hash e mod bucket_count l /\ byte_order (ds_name d) (ds_name e).
#[export] Instance before_dec l : RelDecision (before l).
Proof. intros d e. unfold before. apply _. Defined.

Definition create_gnu_hash_layout (includes_gnu needs_dynamic : bool) (definitions : list DynamicSymbolDefinition)
  : option (GnuHashLayout * list DynamicSymbolDefinition) :=
  if negb includes_gnu || negb needs_dynamic then None
  else
    let l := mkGnuLayout (u32 (len definitions)) (u32 (next_power_of_two (len definitions / 2))) 6 1 0 in
    Some (l, merge_sort (before l) definitions).

Definition gnu_hash_size (l : GnuHashLayout) : Z := 16 + 8 * 1 + 4 * bucket_count l + 4 * num_defs l.

(** Where the definitions start among the dynamic symbols. *)
Definition set_symbol_base (l : GnuHashLayout) (dynsym_start_index : Z) : GnuHashLayout :=
  mkGnuLayout (num_defs l) (bucket_count l) (bloom_shift l) (bloom_count l) dynsym_start_index.

(** The table: its header and its arrays. *)
Record GnuHashTable := mkGnuTable { gt_header : GnuHashLayout; gt_bloom : list Z; gt_buckets : list Z; gt_chains : list Z }.

Inductive HashError := InsufficientAllocation | InsufficientBloom | InsufficientBuckets | InsufficientChains | TooManySymbols | InvalidChain.

Definition bit64 (n : Z) : Z := Z.shiftl 1 n.

Fixpoint gnu_hash_loop (l : GnuHashLayout) (i : Z) (start_of_chain : bool) (bloom buckets : list Z) (definitions : list DynamicSymbolDefinition)
  : outcome (list Z * list Z * list Z) :=
  match definitions with
  | [] => Ret (bloom, buckets, [])
  | d :: rest =>
      let hash := ds_hash d in
      bloom_index ← rem (hash / 64) (bloom_count l);
      let bits := Z.lor (bit64 (hash mod 64)) (bit64 (Z.shiftr hash (bloom_shift l) mod 64)) in
      word ← index bloom bloom_index;
      bloom ← store bloom bloom_index (Z.lor word bits);
      bucket ← bucket_for_hash l hash;
      buckets ← (if start_of_chain then store buckets bucket (u32 (u32 i + symbol_base l)) else Ret buckets);
      last_in_chain ← (match rest with
                       | [] => Ret true
                       | next :: _ => b ← bucket_for_hash l (ds_hash next); Ret (negb (b =? bucket))
                       end : outcome bool);
      let chain := Z.land hash (2 ^ 32 - 2) in
      let chain := if last_in_chain : bool then Z.lor chain 1 else chain in
      '(bloom, buckets, chains) ← gnu_hash_loop l (i + 1) last_in_chain bloom buckets rest;
      Ret (bloom, buckets, chain :: chains)
  end.

(** The arrays follow each other in a buffer of [size] bytes. *)
Definition write_gnu_hash_tables (l : GnuHashLayout) (definitions : list DynamicSymbolDefinition) (size : Z) : outcome (result GnuHashTable HashError) :=
  if size <? 16 then Ret (Err InsufficientAllocation)
  else if size - 16 <? 8 * bloom_count l then Ret (Err InsufficientBloom)
  else if size - 16 - 8 * bloom_count l <? 4 * bucket_count l then Ret (Err InsufficientBuckets)
  else if size - 16 - 8 * bloom_count l - 4 * bucket_count l <? 4 * len definitions then Ret (Err InsufficientChains)
  else
    '(bloom, buckets, chains) ← gnu_hash_loop l 0 true (replicate (Z.to_nat (bloom_count l)) 0) (replicate (Z.to_nat (bucket_count l)) 0) definitions;
    Ret (Ok (mkGnuTable l bloom buckets chains)).

(** ** What the dynamic loader finds in .gnu.hash *)

(** The chain from symbol [i] on, up to a hash whose lowest bit is set. *)
Fixpoint walk_chain (matches : Z -> bool) (hash i : Z) (chain : list Z) : option Z :=
  match chain with
  | [] => None
  | c :: chain =>
      if (Z.lor c 1 =? Z.lor hash 1) && matches i then Some i
      else if Z.odd c then None
      else walk_chain matches hash (i + 1) chain
  end.

(** Looking a hash up: the filter, the bucket and its chain; [matches] compares names. *)
Definition gnu_lookup (t : GnuHashTable) (matches : Z -> bool) (hash : Z) : option Z :=
  let h := gt_header t in
  word ← gt_bloom t !! Z.to_nat ((hash / 64) mod bloom_count h);
  if Z.testbit word (hash mod 64) && Z.testbit word (Z.shiftr hash (bloom_shift h) mod 64) then
    first ← gt_buckets t !! Z.to_nat (hash mod bucket_count h);
    if first =? 0 then None else walk_chain matches hash first (drop (Z.to_nat (first - symbol_base h)) (gt_chains t))
  else None.

(** ** .hash *)

Record SysvHashLayout := mkSysvLayout { sv_bucket_count : Z; sv_chain_count : Z }.

(** [None] is an error; without definitions there is no table. *)
Definition byte_size (l : SysvHashLayout) : Z := 4 * (2 + sv_bucket_count l + sv_chain_count l).

Definition allocate_sysv_hash (dynsym_size : Z) (definitions : list DynamicSymbolDefinition) : result (option SysvHashLayout) HashError :=
  let num_defs := len definitions in
  if num_defs =? 0 then Ok None
  else
    let bucket_count := u32 (next_power_of_two (Z.max (num_defs / 2) 1)) in
    let num_dynsym := dynsym_size / 24 in
    if num_dynsym <? 2 ^ 32 then Ok (Some (mkSysvLayout bucket_count num_dynsym)) else Err TooManySymbols.

(** The chains cover the symbols up to the last definition. *)
Definition finalise_sysv_hash (l : SysvHashLayout) (dynsym_start_index : Z) (definitions : list DynamicSymbolDefinition) : result SysvHashLayout HashError :=
  let chain_count := dynsym_start_index + u32 (len definitions) in
  if chain_count <? 2 ^ 32 then Ok (mkSysvLayout (sv_bucket_count l) chain_count) else Err TooManySymbols.

Record SysvHashTable := mkSysvTable { st_buckets : list Z; st_chains : list Z }.

Section sysv.
(** [object::elf::hash]. *)
Context (sysv_hash : bytes -> Z).

Fixpoint sysv_hash_loop (l : SysvHashLayout) (dynsym_start_index i : Z) (buckets chains : list Z) (last_in_bucket : list (option Z))
  (definitions : list DynamicSymbolDefinition) : outcome (result SysvHashTable HashError) :=
  match definitions with
  | [] => Ret (Ok (mkSysvTable buckets chains))
  | d :: rest =>
      let sym_index := dynsym_start_index + i in
      if negb (i <? 2 ^ 32) || negb (sym_index <? 2 ^ 32) then Ret (Err TooManySymbols)
      else
        bucket ← rem (sysv_hash (ds_name d)) (sv_bucket_count l);
        head ← index buckets bucket;
        if head =? 0 then
          buckets ← store buckets bucket sym_index;
          last_in_bucket ← store last_in_bucket bucket (Some sym_index);
          sysv_hash_loop l dynsym_start_index (i + 1) buckets chains last_in_bucket rest
        else
          last ← index last_in_bucket bucket;
          match last with
          | None => Ret (Err InvalidChain)
          | Some last =>
              chains ← store chains last sym_index;
              last_in_bucket ← store last_in_bucket bucket (Some sym_index);
              sysv_hash_loop l dynsym_start_index (i + 1) buckets chains last_in_bucket rest
          end
  end.

(** [None] when nothing is written. *)
Definition write_sysv_hash_table (l : SysvHashLayout) (dynsym_start_index : Z) (definitions : list DynamicSymbolDefinition) (size : Z)
  : outcome (result (option SysvHashTable) HashError) :=
  if (sv_bucket_count l =? 0) || (sv_chain_count l =? 0) then Ret (Ok None)
  else if size <? byte_size l then Ret (Err InsufficientAllocation)
  else
    t ←! sysv_hash_loop l dynsym_start_index 0 (replicate (Z.to_nat (sv_bucket_count l)) 0) (replicate (Z.to_nat (sv_chain_count l)) 0)
           (replicate (Z.to_nat (sv_bucket_count l)) None) definitions;
    Ret (Ok (Some t)).
End sysv.

(** What the dynamic loader finds in .hash: the symbols of a bucket, linked until zero. *)
Fixpoint walk_links (fuel : nat) (chains : list Z) (matches : Z -> bool) (i : Z) : option Z :=
  match fuel with
  | O => None
  | S fuel => if i =? 0 then None else if matches i then Some i else next ← chains !! Z.to_nat i; walk_links fuel chains matches next
  end.
Definition sysv_lookup (t : SysvHashTable) (matches : Z -> bool) (hash : Z) : option Z :=
  first ← st_buckets t !! Z.to_nat (hash mod len (st_buckets t));
  walk_links (S (length (st_chains t))) (st_chains t) matches first.
