(* ===== verification/HashSpec.v ===== *)
(** The loader finds what was exported: looking up a name in the tables that
    [write_gnu_hash_tables] and [write_sysv_hash_table] write gives the index of the definition
    of that name among the dynamic symbols, and nothing when there is none. *)
From stdpp Require Import base numbers list sorting.
From S2P Require Import Prelude Bits ByteOrder HashTables.
Open Scope Z_scope.

(** ** Sizes *)

Lemma next_power_bounds n : 0 <= n -> 1 <= next_power_of_two n <= Z.max 1 (2 * n).
Proof.
  intros Hn. unfold next_power_of_two. destruct (Z.leb_spec n 1) as [|Hgt]; [lia|].
  destruct (Z.log2_up_spec n Hgt) as [H1 _]. assert (0 < Z.log2_up n) as H0 by (apply Z.log2_up_pos; lia).
  assert (0 < 2 ^ Z.pred (Z.log2_up n)) by (apply Z.pow_pos_nonneg; lia).
  assert (2 ^ Z.log2_up n = 2 * 2 ^ Z.pred (Z.log2_up n)) as ->; [|lia]. rewrite <- Z.pow_succ_r by lia. f_equal. lia.
Qed.

(** ** The GNU table *)

Section gnu.
Context (l : GnuHashLayout).
Hypothesis Hbuckets : 0 < bucket_count l.
Hypothesis Hbloom : bloom_count l = 1.
Hypothesis Hshift : bloom_shift l = 6.

Abbreviation bucket := (fun d => ds_hash d mod bucket_count l).

(** What the loop makes of each array. *)
Definition ends_chain (d : DynamicSymbolDefinition) (rest : list DynamicSymbolDefinition) : bool :=
  match rest with [] => true | next :: _ => negb (bucket next =? bucket d) end.

Fixpoint chain_words (defs : list DynamicSymbolDefinition) : list Z :=
  match defs with
  | [] => []
  | d :: rest => (let c := Z.land (ds_hash d) (2 ^ 32 - 2) in if ends_chain d rest then Z.lor c 1 else c) :: chain_words rest
  end.

Fixpoint bucket_starts (i : Z) (start : bool) (buckets : list Z) (defs : list DynamicSymbolDefinition) : list Z :=
  match defs with
  | [] => buckets
  | d :: rest => bucket_starts (i + 1) (ends_chain d rest) (if start then <[Z.to_nat (bucket d) := u32 (u32 i + symbol_base l)]> buckets else buckets) rest
  end.

Definition hash_bits (d : DynamicSymbolDefinition) : Z := Z.lor (bit64 (ds_hash d mod 64)) (bit64 (Z.shiftr (ds_hash d) 6 mod 64)).
Definition filter_word (w : Z) (defs : list DynamicSymbolDefinition) : Z := foldl (fun w d => Z.lor w (hash_bits d)) w defs.

Lemma bucket_bound d : 0 <= bucket d < bucket_count l.
Proof. apply Z.mod_pos_bound. lia. Qed.

Lemma bucket_for_hash_Ret h : bucket_for_hash l h = Ret (h mod bucket_count l).
Proof. unfold bucket_for_hash, rem. by rewrite (proj2 (Z.eqb_neq _ _)) by lia. Qed.

Lemma gnu_hash_loop_runs defs i start w buckets : len buckets = bucket_count l ->
  gnu_hash_loop l i start [w] buckets defs = Ret ([filter_word w defs], bucket_starts i start buckets defs, chain_words defs).
Proof.
  revert i start w buckets. induction defs as [|d rest IH]; intros i start w buckets Hl; [done|]. cbn [gnu_hash_loop bucket_starts chain_words filter_word foldl].
  unfold rem at 1. rewrite Hbloom, Z.mod_1_r. change (1 =? 0) with false. cbn [mbind outcome_bind]. rewrite Hshift.
  change (index [w] 0) with (Ret w). cbn [mbind outcome_bind]. fold (hash_bits d). change (store [w] 0 ?x) with (Ret [x]). cbn [mbind outcome_bind].
  rewrite bucket_for_hash_Ret. cbn [mbind outcome_bind].
  set (buckets' := if start then <[_ := _]> buckets else buckets).
  assert ((if start then store buckets (bucket d) (u32 (u32 i + symbol_base l)) else Ret buckets) = Ret buckets') as ->.
  { unfold buckets', store. destruct start; [|done]. pose proof (bucket_bound d). by rewrite Hl, (proj2 (Z.leb_le _ _)), (proj2 (Z.ltb_lt _ _)) by lia. }
  cbn [mbind outcome_bind].
  assert (match rest with [] => Ret true | next :: _ => b ← bucket_for_hash l (ds_hash next); Ret (negb (b =? bucket d)) end = Ret (ends_chain d rest)) as ->.
  { destruct rest as [|next rest]; [done|]. by rewrite bucket_for_hash_Ret. }
  cbn [mbind outcome_bind]. rewrite IH; [done|]. unfold buckets', len in *. destruct start; [by rewrite length_insert|done].
Qed.

(** The filter lets every hash through that it was made of. *)
Lemma filter_word_grows w defs n : Z.testbit w n = true -> Z.testbit (filter_word w defs) n = true.
Proof. revert w. induction defs as [|d defs IH]; intros w Hw; [done|]. cbn. apply IH. by rewrite Z.lor_spec, Hw. Qed.

Lemma filter_word_passes w defs d : d ∈ defs ->
  Z.testbit (filter_word w defs) (ds_hash d mod 64) = true /\ Z.testbit (filter_word w defs) (Z.shiftr (ds_hash d) 6 mod 64) = true.
Proof.
  intros Hd. revert w. induction Hd as [d defs|d e defs _ IH]; intros w; [|apply IH]. cbn.
  pose proof (Z.mod_pos_bound (ds_hash d) 64 eq_refl). pose proof (Z.mod_pos_bound (Z.shiftr (ds_hash d) 6) 64 eq_refl).
  split; apply filter_word_grows; rewrite Z.lor_spec; unfold hash_bits, bit64; rewrite Z.lor_spec, !Z.shiftl_1_l, !Z.pow2_bits_eqb, Z.eqb_refl by lia;
    by rewrite ?orb_true_r.
Qed.

(** Each bucket has the first of its definitions. *)
Lemma ends_chain_first d rest b : StronglySorted (fun d e => bucket d <= bucket e) (d :: rest) -> ends_chain d rest = true -> bucket d = b ->
  list_find (fun e => bucket e = b) rest = None.
Proof.
  intros Hs He <-. apply list_find_None. apply StronglySorted_inv in Hs as [Hs Hd]. destruct rest as [|n rest]; [done|]. cbn in He.
  apply negb_true_iff, Z.eqb_neq in He. apply Forall_cons in Hd as [Hdn Hd]. apply StronglySorted_inv in Hs as [Hs Hn].
  constructor; [lia|]. eapply Forall_impl; [exact Hn|]. cbn. intros; lia.
Qed.

Lemma bucket_starts_at defs i start buckets b : 0 <= b < bucket_count l -> len buckets = bucket_count l -> StronglySorted (fun d e => bucket d <= bucket e) defs ->
  0 <= i -> 0 <= symbol_base l -> i + len defs + symbol_base l < 2 ^ 32 ->
  bucket_starts i start buckets defs !! Z.to_nat b =
    match list_find (fun d => bucket d = b) defs with
    | Some (k, _) => if negb start && Nat.eqb k 0 then buckets !! Z.to_nat b else Some (symbol_base l + i + Z.of_nat k)
    | None => buckets !! Z.to_nat b
    end.
Proof.
  intros Hb. revert i start buckets. induction defs as [|d rest IH]; intros i start buckets Hl Hs Hi Hbase Hroom; [done|].
  rewrite len_cons in Hroom. pose proof (len_nonneg rest). cbn [bucket_starts]. set (buckets' := if start then _ else buckets).
  assert (len buckets' = bucket_count l) as Hl' by (unfold buckets', len in *; destruct start; [by rewrite length_insert|done]).
  rewrite IH by (done || lia || by apply StronglySorted_inv in Hs as [? _]). cbn [list_find].
  assert (u32 (u32 i + symbol_base l) = symbol_base l + i) as Hu by (rewrite !wrap_id by (unfold is_uint; rewrite ?wrap_id by (unfold is_uint; lia); lia); lia).
  assert (forall c, Z.to_nat b <> Z.to_nat c -> <[Z.to_nat c := u32 (u32 i + symbol_base l)]> buckets !! Z.to_nat b = buckets !! Z.to_nat b) as Hne
    by (intros c Hc; by apply list_lookup_insert_ne).
  pose proof (bucket_bound d) as Hd. unfold len in Hl. destruct (decide (bucket d = b)) as [Heq|Hneq].
  - assert (buckets' !! Z.to_nat b = if start then Some (symbol_base l + i) else buckets !! Z.to_nat b) as Hb'.
    { unfold buckets'. destruct start; [|done]. rewrite Heq, list_lookup_insert_eq by lia. by rewrite Hu. }
    assert ((if negb start && Nat.eqb 0 0 then buckets !! Z.to_nat b else Some (symbol_base l + i + Z.of_nat 0)) = buckets' !! Z.to_nat b) as ->.
    { rewrite Hb'. destruct start; [|done]. cbn. f_equal. lia. }
    destruct (ends_chain d rest) eqn:Ee; [by rewrite (ends_chain_first d rest b Hs Ee Heq)|]. destruct rest as [|n rest]; [done|]. cbn in Ee.
    apply negb_false_iff, Z.eqb_eq in Ee. cbn [list_find]. by rewrite decide_True by congruence.
  - assert (buckets' !! Z.to_nat b = buckets !! Z.to_nat b) as -> by (unfold buckets'; destruct start; [apply Hne; lia|done]).
    destruct (list_find (fun e => bucket e = b) rest) as [[k e]|] eqn:Ef; [|done]. cbn. rewrite andb_false_r.
    destruct (negb (ends_chain d rest) && Nat.eqb k 0) eqn:Ek; [|f_equal; lia]. exfalso. apply andb_true_iff in Ek as [Ee%negb_true_iff ->%Nat.eqb_eq].
    apply list_find_Some in Ef as (Hk & He & _). destruct rest as [|n rest]; [done|]. injection Hk as ->. cbn in Ee.
    apply negb_false_iff, Z.eqb_eq in Ee. congruence.
Qed.

(** The words of a chain: the hash but for its lowest bit, which tells the end. *)
Lemma chain_word_hash h (e : bool) : 0 <= h < 2 ^ 32 -> Z.lor (let c := Z.land h (2 ^ 32 - 2) in if e then Z.lor c 1 else c) 1 = Z.lor h 1.
Proof.
  intros Hh. assert (h = wrap 32 h) as E by (symmetry; by apply wrap_id). rewrite E. cbv zeta. change (2 ^ 32 - 2) with 4294967294. destruct e; bitblast.
Qed.

Lemma chain_word_odd h (e : bool) : Z.odd (let c := Z.land h (2 ^ 32 - 2) in if e then Z.lor c 1 else c) = e.
Proof.
  cbv zeta. rewrite <- !Z.bit0_odd. destruct e; rewrite ?Z.lor_spec, Z.land_spec; change (Z.testbit (2 ^ 32 - 2) 0) with false; by rewrite andb_false_r.
Qed.

Fixpoint first_match (matches : Z -> bool) (hash i : Z) (defs : list DynamicSymbolDefinition) : option Z :=
  match defs with
  | [] => None
  | d :: rest => if (Z.lor (ds_hash d) 1 =? Z.lor hash 1) && matches i then Some i else first_match matches hash (i + 1) rest
  end.

(** Walking a chain looks at the definitions of one bucket. *)
Lemma walk_group matches hash i g rest : g <> [] -> Forall (fun d => 0 <= ds_hash d < 2 ^ 32) g ->
  (exists b, Forall (fun d => bucket d = b) g /\ match rest with [] => True | n :: _ => bucket n <> b end) ->
  walk_chain matches hash i (chain_words (g ++ rest)) = first_match matches hash i g.
Proof.
  intros Hg Hh (b & Hb & Hr). revert i. induction Hb as [|d g Hd Hb IH]; intros i; [done|]. apply Forall_cons in Hh as [Hd32 Hh].
  cbn [app chain_words walk_chain first_match]. rewrite chain_word_hash, chain_word_odd by done. destruct (_ && matches i); [done|].
  destruct g as [|d' g].
  - cbn [app first_match]. assert (ends_chain d rest = true) as ->; [|done]. destruct rest as [|n rest]; [done|]. cbn. apply negb_true_iff, Z.eqb_neq. congruence.
  - assert (ends_chain d ((d' :: g) ++ rest) = false) as ->; [|by apply IH]. apply Forall_cons in Hb as [Hd' _]. cbn. apply negb_false_iff, Z.eqb_eq. congruence.
Qed.
End gnu.

(** ** Looking names up *)

Section lookup.
Context (hash_of : bytes -> Z).
Hypothesis Hhash : forall name, 0 <= hash_of name < 2 ^ 32.

(** Comparing the name of dynamic symbol [i] when the definitions start at [base]. *)
Definition has_name (base : Z) (defs : list DynamicSymbolDefinition) (name : bytes) (i : Z) : bool :=
  bool_decide (ds_name <$> defs !! Z.to_nat (i - base) = Some name).

(** The index of the first definition of a name. *)
Definition defined_at (base : Z) (defs : list DynamicSymbolDefinition) (name : bytes) : option Z :=
  (fun '(k, _) => base + Z.of_nat k) <$> list_find (fun d => ds_name d = name) defs.

Definition hashed (defs : list DynamicSymbolDefinition) : Prop := Forall (fun d => ds_hash d = hash_of (ds_name d)) defs.

Lemma created_hashed symbols : hashed ((fun '(id, name, is_default, version) => create_dynamic_symbol_definition hash_of id name is_default version) <$> symbols).
Proof. apply Forall_fmap, Forall_forall. by intros [[[id name] is_default] version] _. Qed.

Lemma defined_cons base d defs name : defined_at base (d :: defs) name = if decide (ds_name d = name) then Some base else defined_at (base + 1) defs name.
Proof.
  unfold defined_at. cbn [list_find]. destruct (decide (ds_name d = name)); [cbn; f_equal; lia|].
  destruct (list_find _ defs) as [[k e]|]; [|done]. cbn. f_equal. lia.
Qed.

Lemma defined_app base p defs name : Forall (fun d => ds_name d <> name) p -> defined_at base (p ++ defs) name = defined_at (base + len p) defs name.
Proof.
  intros Hp. revert base. induction Hp as [|d p Hd Hp IH]; intros base; cbn [app]; [by rewrite Z.add_0_r|].
  rewrite defined_cons, decide_False, IH, len_cons by done. f_equal. lia.
Qed.

Lemma defined_app_r base g post name : Forall (fun d => ds_name d <> name) post -> defined_at base (g ++ post) name = defined_at base g name.
Proof.
  intros Hp. revert base. induction g as [|d g IH]; intros base; cbn [app]; [|by rewrite !defined_cons, IH].
  unfold defined_at. replace (list_find (fun d => ds_name d = name) post) with (@None (nat * DynamicSymbolDefinition)); [done|]. symmetry. by apply list_find_None.
Qed.

(** Within a bucket the hash of a name decides nothing that the name does not. *)
Lemma first_match_defined base all p g post name i : all = p ++ g ++ post -> i = base + len p -> hashed g ->
  first_match (has_name base all name) (hash_of name) i g = defined_at i g name.
Proof.
  intros E Ei Hg. revert p i E Ei. induction Hg as [|d g Hd Hg IH]; intros p i E Ei; [done|]. cbn [first_match]. rewrite defined_cons.
  assert (has_name base all name i = bool_decide (ds_name d = name)) as ->.
  { unfold has_name. rewrite E, Ei. replace (Z.to_nat (base + len p - base)) with (length p) by (unfold len; lia).
    rewrite (list_lookup_middle p (g ++ post) d) by done. cbn. apply bool_decide_ext. split; [by intros [= ->]|by intros ->]. }
  destruct (decide (ds_name d = name)) as [Heq|Hne].
  - by rewrite Hd, Heq, Z.eqb_refl, bool_decide_true.
  - rewrite (bool_decide_false (ds_name d = name)), andb_false_r by done. apply (IH (p ++ [d])); [by rewrite E, <- app_assoc|rewrite len_app; unfold len in *; cbn; lia].
Qed.

(** *** .gnu.hash *)

Section table.
Context (l : GnuHashLayout).
Hypothesis Hbuckets : 0 < bucket_count l.
Hypothesis Hbloom : bloom_count l = 1.
Hypothesis Hshift : bloom_shift l = 6.
Hypothesis Hbase : 1 <= symbol_base l.

Abbreviation bucket := (fun d => ds_hash d mod bucket_count l).

Lemma sorted_group (defs : list DynamicSymbolDefinition) b : StronglySorted (fun d e => bucket d <= bucket e) defs ->
  exists p g post, defs = p ++ g ++ post /\ Forall (fun d => bucket d <> b) p /\ Forall (fun d => bucket d = b) g /\ Forall (fun d => bucket d <> b) post /\ (g = [] -> post = []).
Proof.
  induction 1 as [|d rest Hs (p & g & post & -> & Hp & Hg & Hpost & Hnil) Hd]; [by exists [], [], []|].
  destruct (decide (bucket d = b)) as [Heq|Hne]; [|by exists (d :: p), g, post; split_and!; [|constructor|..]].
  destruct p as [|e p]; [by exists [], (d :: g), post; split_and!; [| |constructor|..]|].
  destruct g as [|f g].
  - rewrite (Hnil eq_refl), app_nil_r. exists [], [d], (e :: p). split_and!; [done..|by constructor|done|done].
  - exfalso. apply Forall_cons in Hp as [He _], Hg as [Hf _], Hd as [Hde _]. cbn in Hs. apply StronglySorted_inv in Hs as [_ Hs].
    rewrite !Forall_app in Hs. destruct Hs as [_ Hs]. apply Forall_cons in Hs as [Hef _]. lia.
Qed.

Lemma gnu_table_finds defs name : StronglySorted (fun d e => bucket d <= bucket e) defs -> hashed defs -> len defs + symbol_base l < 2 ^ 32 ->
  gnu_lookup (mkGnuTable l [filter_word 0 defs] (bucket_starts l 0 true (replicate (Z.to_nat (bucket_count l)) 0) defs) (chain_words l defs))
    (has_name (symbol_base l) defs name) (hash_of name) = defined_at (symbol_base l) defs name.
Proof.
  intros Hs Hh Hroom. set (b := hash_of name mod bucket_count l). assert (0 <= b < bucket_count l) as Hb by (apply Z.mod_pos_bound; lia).
  destruct (sorted_group defs b Hs) as (p & g & post & E & Hp & Hg & Hpost & Hnil).
  assert (forall q, hashed q -> Forall (fun d => bucket d <> b) q -> Forall (fun d => ds_name d <> name) q) as Hother.
  { intros q Hq Hne. apply Forall_forall. intros d Hd <-. apply (proj1 (Forall_forall _ _) Hne d Hd). unfold b.
    pose proof (proj1 (Forall_forall _ _) Hq d Hd) as Hdq. cbn in Hdq. by rewrite <- Hdq. }
  pose proof Hh as Hh'. unfold hashed in Hh'. rewrite E, !Forall_app in Hh'. destruct Hh' as (Hhp & Hhg & Hhpost).
  assert (defined_at (symbol_base l) defs name = defined_at (symbol_base l + len p) g name) as Hdef.
  { rewrite E, defined_app, defined_app_r; [done|by apply Hother..]. }
  unfold gnu_lookup. cbn [gt_header gt_bloom gt_buckets gt_chains]. rewrite Hbloom, Hshift, Z.mod_1_r.
  change ([?w] !! Z.to_nat 0) with (Some w). cbn [mbind option_bind]. fold b.
  destruct (Z.testbit (filter_word 0 defs) (hash_of name mod 64) && Z.testbit (filter_word 0 defs) (Z.shiftr (hash_of name) 6 mod 64)) eqn:Ef.
  - rewrite (bucket_starts_at l Hbuckets) by (done || lia || by unfold len; rewrite length_replicate; lia).
    assert (len p + len g + len post = len defs) as Hlen by (rewrite E, !len_app; lia). pose proof (len_nonneg p). pose proof (len_nonneg g). pose proof (len_nonneg post).
    destruct g as [|d g].
    + rewrite (Hnil eq_refl), !app_nil_r in E. assert (list_find (fun d => bucket d = b) defs = None) as -> by (rewrite E; by apply list_find_None).
      rewrite lookup_replicate_2 by lia. rewrite Hdef. reflexivity.
    + assert (list_find (fun d => bucket d = b) defs = Some (length p, d)) as ->.
      { apply list_find_Some. rewrite E. split_and!; [by apply list_lookup_middle|by apply Forall_cons in Hg as [? _]|].
        intros j e Hj Hlt. rewrite lookup_app_l in Hj by done. apply (proj1 (Forall_forall _ _) Hp). by eapply list_elem_of_lookup_2. }
      cbn [negb andb mbind option_bind]. rewrite Z.add_0_r. fold (len p). rewrite (proj2 (Z.eqb_neq _ _)) by lia.
      replace (Z.to_nat (symbol_base l + len p - symbol_base l)) with (length p) by (unfold len; lia).
      assert (drop (length p) (chain_words l defs) = chain_words l ((d :: g) ++ post)) as ->.
      { rewrite E. clear. induction p as [|e p IH]; [done|]. exact IH. }
      rewrite (walk_group l _ _ _ (d :: g) post).
      * rewrite (first_match_defined (symbol_base l) defs p (d :: g) post name); [by rewrite Hdef|done|done|done].
      * done.
      * apply Forall_forall. intros e He. rewrite (proj1 (Forall_forall _ _) Hhg e He). apply Hhash.
      * exists b. split; [done|]. destruct post as [|n post]; [done|]. by apply Forall_cons in Hpost as [? _].
  - symmetry. unfold defined_at. destruct (list_find (fun d => ds_name d = name) defs) as [[k d]|] eqn:El; [|done]. exfalso.
    apply list_find_Some in El as (Hk & Hn & _). apply list_elem_of_lookup_2 in Hk. pose proof (proj1 (Forall_forall _ _) Hh d Hk) as Hd. cbn in Hd.
    destruct (filter_word_passes 0 defs d Hk) as [F1 F2]. rewrite Hd, Hn in F1, F2. by rewrite F1, F2 in Ef.
Qed.
End table.

(** *** .hash *)

Section links.
Context (l : SysvHashLayout) (base : Z).
Hypothesis Hbuckets : 0 < sv_bucket_count l.
Hypothesis Hbase : 1 <= base.

Abbreviation bucket := (fun d => hash_of (ds_name d) mod sv_bucket_count l).

(** The symbols of a bucket in a list that starts at symbol [i]. *)
Fixpoint bucket_path (b i : Z) (defs : list DynamicSymbolDefinition) : list Z :=
  match defs with
  | [] => []
  | d :: rest => if bucket d =? b then i :: bucket_path b (i + 1) rest else bucket_path b (i + 1) rest
  end.

Lemma bucket_path_app b i p q : bucket_path b i (p ++ q) = bucket_path b i p ++ bucket_path b (i + len p) q.
Proof.
  revert i. induction p as [|d p IH]; intros i; cbn [app bucket_path]; [by rewrite Z.add_0_r|]. rewrite IH, len_cons.
  replace (i + 1 + len p) with (i + (1 + len p)) by lia. by destruct (bucket d =? b).
Qed.

Lemma bucket_path_in b i defs x : x ∈ bucket_path b i defs -> i <= x < i + len defs /\ exists d, defs !! Z.to_nat (x - i) = Some d /\ bucket d = b.
Proof.
  revert i. induction defs as [|d defs IH]; intros i Hx; cbn [bucket_path] in Hx; [by apply elem_of_nil in Hx|]. rewrite len_cons. pose proof (len_nonneg defs).
  assert (x ∈ bucket_path b (i + 1) defs -> i <= x < i + (1 + len defs) /\ exists e, (d :: defs) !! Z.to_nat (x - i) = Some e /\ bucket e = b) as Hgo.
  { intros Hin. destruct (IH _ Hin) as (H1 & e & He & Hb). split; [lia|]. exists e. split; [|done].
    by replace (Z.to_nat (x - i)) with (S (Z.to_nat (x - (i + 1)))) by lia. }
  destruct (Z.eqb_spec (bucket d) b) as [Hb|]; [|by apply Hgo]. apply elem_of_cons in Hx as [->|Hx]; [|by apply Hgo].
  split; [lia|]. exists d. by rewrite Z.sub_diag.
Qed.

(** The chains link a path from [i] on, up to zero. *)
Fixpoint linked (chains : list Z) (i : Z) (path : list Z) : Prop :=
  match path with
  | [] => i = 0
  | x :: path => i = x /\ 0 < x /\ exists next, chains !! Z.to_nat x = Some next /\ linked chains next path
  end.

Lemma linked_other chains i path y v : linked chains i path -> 0 < y -> y ∉ path -> linked (<[Z.to_nat y := v]> chains) i path.
Proof.
  revert i. induction path as [|x path IH]; intros i Hl Hy Hn; [done|]. cbn [linked] in *. destruct Hl as (-> & Hx & next & Hc & Hl).
  apply not_elem_of_cons in Hn as [Hne Hn]. split_and!; [done..|]. exists next. split; [|by apply IH]. rewrite list_lookup_insert_ne; [done|lia].
Qed.

Lemma linked_append chains i path y x : linked chains i path -> last path = Some y -> NoDup path -> x ∉ path -> 0 < x -> chains !! Z.to_nat x = Some 0 ->
  linked (<[Z.to_nat y := x]> chains) i (path ++ [x]).
Proof.
  revert i. induction path as [|z path IH]; intros i Hl Hy Hnd Hn Hx Hc; [done|]. cbn [app linked] in *. destruct Hl as (-> & Hz & next & Hcz & Hl).
  apply not_elem_of_cons in Hn as [Hne Hn]. apply NoDup_cons in Hnd as [Hzn Hnd]. split_and!; [done..|]. destruct path as [|w path].
  - injection Hy as ->. exists x. rewrite list_lookup_insert_eq by (by apply lookup_lt_Some in Hcz). split; [done|]. cbn. split_and!; [done..|].
    exists 0. split; [|done]. rewrite list_lookup_insert_ne; [done|lia].
  - exists next. assert (y ∈ w :: path) as Hyp.
    { apply last_Some in Hy as (q & Hq). destruct q as [|a q]; cbn in Hq; injection Hq as _ Hq; [done|]. rewrite Hq. apply elem_of_app. right. by left. }
    assert (0 < y) as H0.
    { clear -Hl Hyp. revert next Hl. induction Hyp as [a q|a c q _ IH]; intros next (-> & ? & n & _ & Hl); [done|by eapply IH]. }
    split; [|by apply IH]. rewrite list_lookup_insert_ne; [done|]. intros Heq. assert (y = z) as -> by lia. done.
Qed.

(** The state of the loop when the definitions in [p] are in the table. *)
Record linking (p : list DynamicSymbolDefinition) (buckets chains : list Z) (lasts : list (option Z)) : Prop := {
  lk_buckets : len buckets = sv_bucket_count l;
  lk_lasts : len lasts = sv_bucket_count l;
  lk_paths : forall b, 0 <= b < sv_bucket_count l -> exists first, buckets !! Z.to_nat b = Some first /\ linked chains first (bucket_path b base p) /\
    lasts !! Z.to_nat b = Some (last (bucket_path b base p));
  lk_free : forall x, base + len p <= x < len chains -> chains !! Z.to_nat x = Some 0 }.

Lemma bucket_path_NoDup b i defs : NoDup (bucket_path b i defs).
Proof.
  revert i. induction defs as [|d defs IH]; intros i; cbn [bucket_path]; [constructor|]. destruct (bucket d =? b); [|done]. constructor; [|done].
  intros [Hin _]%bucket_path_in. lia.
Qed.

Lemma index_at {A} (v : list A) i x : 0 <= i -> v !! Z.to_nat i = Some x -> index v i = Ret x.
Proof. intros Hi Hx. rewrite <- (Z2Nat.id i) by done. by apply index_lookup. Qed.

Lemma store_at {A} (v : list A) i x : 0 <= i < len v -> store v i x = Ret (<[Z.to_nat i := x]> v).
Proof. intros Hi. unfold store. by rewrite (proj2 (Z.leb_le _ _)), (proj2 (Z.ltb_lt _ _)) by lia. Qed.

Lemma last_is_Some {A} (v : list A) : v <> [] -> is_Some (last v).
Proof. intros Hv. rewrite last_is_Some. done. Qed.

Lemma sysv_hash_loop_links p rest buckets chains lasts : linking p buckets chains lasts -> base + len p + len rest <= len chains -> len chains < 2 ^ 32 ->
  exists t lasts', sysv_hash_loop hash_of l base (len p) buckets chains lasts rest = Ret (Ok t) /\ linking (p ++ rest) (st_buckets t) (st_chains t) lasts' /\
    len (st_chains t) = len chains.
Proof.
  revert p buckets chains lasts. induction rest as [|d rest IH]; intros p buckets chains lasts Hlk Hroom H32; cbn [sysv_hash_loop].
  - exists (mkSysvTable buckets chains), lasts. by rewrite app_nil_r.
  - rewrite len_cons in Hroom. pose proof (len_nonneg p). pose proof (len_nonneg rest). rewrite !(proj2 (Z.ltb_lt _ _)) by lia. cbn [negb orb].
    set (b := bucket d). assert (0 <= b < sv_bucket_count l) as Hb by (apply Z.mod_pos_bound; lia).
    unfold rem. rewrite (proj2 (Z.eqb_neq _ _)) by lia. cbn [mbind outcome_bind]. fold b. destruct Hlk as [H1 H2 H3 H4].
    destruct (H3 b Hb) as (first & Hf & Hl & Hlast). rewrite (index_at _ _ _ (proj1 Hb) Hf). cbn [mbind outcome_bind].
    set (x := base + len p). assert (chains !! Z.to_nat x = Some 0) as Hx0 by (apply H4; lia).
    assert (forall b', bucket_path b' base (p ++ [d]) = bucket_path b' base p ++ if b =? b' then [x] else []) as Hpath.
    { intros b'. rewrite bucket_path_app. reflexivity. }
    assert (forall buckets' chains' first' , len buckets' = sv_bucket_count l -> len chains' = len chains ->
      (forall b', 0 <= b' -> b' <> b -> buckets' !! Z.to_nat b' = buckets !! Z.to_nat b') -> buckets' !! Z.to_nat b = Some first' ->
      (forall i b', b' <> b -> linked chains i (bucket_path b' base p) -> linked chains' i (bucket_path b' base p)) ->
      linked chains' first' (bucket_path b base p ++ [x]) -> (forall y, x < y < len chains -> chains' !! Z.to_nat y = chains !! Z.to_nat y) ->
      linking (p ++ [d]) buckets' chains' (<[Z.to_nat b := Some x]> lasts)) as Hnext.
    { intros buckets' chains' first' L1 L2 L3 L4 L5 L6 L7. split; [done|unfold len in *; by rewrite length_insert| |].
      - intros b' Hb'. rewrite Hpath. destruct (Z.eqb_spec b b') as [<-|Hne].
        + exists first'. split_and!; [done..|]. rewrite list_lookup_insert_eq by (unfold len in H2; lia). by rewrite last_snoc.
        + destruct (H3 b' Hb') as (f & Hf' & Hl' & Hla'). exists f. rewrite app_nil_r, L3 by (done || lia). split_and!; [done|by apply L5|].
          rewrite list_lookup_insert_ne; [done|lia].
      - intros y Hy. rewrite len_app, L2 in Hy. change (len [d]) with 1 in Hy. rewrite L7 by lia. apply H4. lia. }
    rewrite (store_at lasts) by lia. assert (len (p ++ [d]) = len p + 1) as Hlen by (by rewrite len_app).
    destruct (Z.eqb_spec first 0) as [->|Hne].
    + assert (bucket_path b base p = []) as Hnil by (destruct (bucket_path b base p); [done|cbn in Hl; destruct Hl as (<- & ? & _); lia]).
      rewrite store_at by lia. cbn [mbind outcome_bind]. rewrite <- Hlen, (cons_middle d p rest), app_assoc. apply IH; [|rewrite Hlen; lia|done].
      apply (Hnext _ _ x); try done.
      * unfold len in *. by rewrite length_insert.
      * intros b' Hb0 Hb'. apply list_lookup_insert_ne. lia.
      * apply list_lookup_insert_eq. unfold len in H1. lia.
      * rewrite Hnil. cbn. split_and!; [done|lia|]. by exists 0.
    + assert (bucket_path b base p <> []) as Hnn by (intros E; rewrite E in Hl; done).
      destruct (last_is_Some _ Hnn) as [y Hy]. rewrite Hy in Hlast. rewrite (index_at _ _ _ (proj1 Hb) Hlast). cbn [mbind outcome_bind].
      assert (y ∈ bucket_path b base p) as Hyp by (apply last_Some in Hy as (q & ->); apply elem_of_app; right; by left).
      destruct (bucket_path_in _ _ _ _ Hyp) as (Hyb & e & He & Heb).
      rewrite store_at by lia. cbn [mbind outcome_bind]. rewrite <- Hlen, (cons_middle d p rest), app_assoc.
      assert (len (<[Z.to_nat y := x]> chains) = len chains) as Hlc by (unfold len; by rewrite length_insert).
      rewrite <- Hlc. apply IH; [|rewrite Hlen, Hlc; lia|by rewrite Hlc]. apply (Hnext _ _ first); try done.
      * intros i b' Hb' Hl'. apply linked_other; [done|lia|]. intros Hin. destruct (bucket_path_in _ _ _ _ Hin) as (_ & e' & He' & Heb'). congruence.
      * apply linked_append; [done|done|apply bucket_path_NoDup| |lia|done]. intros Hin%bucket_path_in. lia.
      * intros z Hz. apply list_lookup_insert_ne. lia.
Qed.

(** Walking the links visits the path. *)
Lemma walk_links_path fuel chains matches i path : linked chains i path -> (length path < fuel)%nat -> walk_links fuel chains matches i = find matches path.
Proof.
  revert fuel i. induction path as [|x path IH]; intros [|fuel] i Hl Hf; cbn in Hf; try lia; cbn [linked] in Hl; cbn [walk_links find].
  - by rewrite Hl.
  - destruct Hl as (-> & Hx & next & Hc & Hl). rewrite (proj2 (Z.eqb_neq _ _)) by lia. destruct (matches x); [done|]. rewrite Hc. cbn. apply IH; [done|lia].
Qed.

Lemma bucket_path_length b i defs : (length (bucket_path b i defs) <= length defs)%nat.
Proof. revert i. induction defs as [|d defs IH]; intros i; cbn [bucket_path]; [done|]. specialize (IH (i + 1)). destruct (bucket d =? b); cbn; lia. Qed.

Lemma find_path_defined all p defs name i : all = p ++ defs -> i = base + len p ->
  find (has_name base all name) (bucket_path (hash_of name mod sv_bucket_count l) i defs) = defined_at i defs name.
Proof.
  revert p i. induction defs as [|d defs IH]; intros p i E Ei; [done|]. cbn [bucket_path]. rewrite defined_cons.
  assert (find (has_name base all name) (bucket_path (hash_of name mod sv_bucket_count l) (i + 1) defs) = defined_at (i + 1) defs name) as Hrest.
  { apply (IH (p ++ [d])); [by rewrite E, <- app_assoc|rewrite len_app; change (len [d]) with 1; lia]. }
  assert (has_name base all name i = bool_decide (ds_name d = name)) as Hm.
  { unfold has_name. rewrite E, Ei. replace (Z.to_nat (base + len p - base)) with (length p) by (unfold len; lia).
    rewrite (list_lookup_middle p defs d) by done. cbn. apply bool_decide_ext. split; [by intros [= ->]|by intros ->]. }
  destruct (decide (ds_name d = name)) as [Heq|Hne].
  - rewrite Heq, Z.eqb_refl. cbn [find]. by rewrite Hm, bool_decide_true.
  - destruct (bucket d =? _); [|done]. cbn [find]. by rewrite Hm, bool_decide_false.
Qed.
End links.
End lookup.

(** ** The tables that are written *)

#[export] Instance before_trans l : Transitive (before l).
Proof.
  intros d e f. unfold before. intros [H1|[H1 H1']] [H2|[H2 H2']]; [left; lia..|]. right. split; [lia|by etrans].
Qed.

#[export] Instance before_total l : Total (before l).
Proof.
  intros d e. unfold before. destruct (Z.lt_trichotomy (ds_hash d mod bucket_count l) (ds_hash e mod bucket_count l)) as [|[H|]]; [by left; left| |by right; left].
  destruct (total byte_order (ds_name d) (ds_name e)); [left|right]; by right.
Qed.

Lemma StronglySorted_weaken {A} (R S : A -> A -> Prop) v : (forall x y, R x y -> S x y) -> StronglySorted R v -> StronglySorted S v.
Proof. intros HRS. induction 1 as [|x v Hv IH Hx]; constructor; [done|]. eapply Forall_impl; [exact Hx|apply HRS]. Qed.

(** C20. Looking a name up in the table of [.gnu.hash], with the filter, the buckets and the
    chains, gives the dynamic symbol that defines it, and nothing for other names; the table is
    written for any list of definitions that fits 32 bits, in the space that was allocated. *)
Theorem gnu_hash_finds (gnu_hash : bytes -> Z) (defs sorted : list DynamicSymbolDefinition) (l : GnuHashLayout) (base size : Z) :
  (forall name, 0 <= gnu_hash name < 2 ^ 32) -> hashed gnu_hash defs ->
  create_gnu_hash_layout true true defs = Some (l, sorted) ->
  1 <= base -> len defs + base < 2 ^ 32 -> gnu_hash_size l <= size ->
  sorted ≡ₚ defs /\
  exists t, write_gnu_hash_tables (set_symbol_base l base) sorted size = Ret (Ok t) /\
    forall name, gnu_lookup t (has_name base sorted name) (gnu_hash name) = defined_at base sorted name.
Proof.
  intros Hhash Hh [= <- <-] Hbase Hroom Hsize. set (l := mkGnuLayout _ _ _ _ _) in *. pose proof (len_nonneg defs).
  pose proof (next_power_bounds (len defs / 2) ltac:(apply Z.div_pos; lia)) as Hnp. pose proof (Z.mul_div_le (len defs) 2 ltac:(lia)).
  assert (num_defs l = len defs) as Hn by (cbn; rewrite wrap_id; [done|unfold is_uint; lia]).
  assert (bucket_count l = next_power_of_two (len defs / 2)) as Hb by (cbn; rewrite wrap_id; [done|unfold is_uint; lia]).
  pose proof (merge_sort_Permutation (before l) defs) as Hp. assert (len (merge_sort (before l) defs) = len defs) as Hlen by (unfold len; by rewrite Hp).
  split; [done|]. set (lb := set_symbol_base l base). assert (0 < bucket_count lb) as Hbk by (change (0 < bucket_count l); lia).
  unfold gnu_hash_size in Hsize. rewrite Hn in Hsize. unfold write_gnu_hash_tables. rewrite Hlen. change (bucket_count lb) with (bucket_count l). change (bloom_count lb) with 1.
  rewrite !(proj2 (Z.ltb_ge _ _)) by lia. change (replicate (Z.to_nat 1) 0) with [0].
  rewrite (gnu_hash_loop_runs lb Hbk) by (done || unfold len; rewrite length_replicate; change (bucket_count lb) with (bucket_count l); lia).
  cbn [mbind outcome_bind]. eexists. split; [reflexivity|]. intros name. change (bucket_count l) with (bucket_count lb).
  apply (gnu_table_finds gnu_hash Hhash lb); try done.
  - eapply StronglySorted_weaken; [|apply (StronglySorted_merge_sort (before l))]. intros d e [Hde|[Hde _]]; cbn in *; lia.
  - unfold hashed. by rewrite Hp.
  - rewrite Hlen. done.
Qed.

(** C21. Looking a name up in the table of [.hash], along the links of its bucket, gives the
    dynamic symbol that defines it, and nothing for other names; the table is written whenever
    the numbers of symbols fit 32 bits, in the space that was allocated for all of them. *)
Theorem sysv_hash_finds (sysv_hash : bytes -> Z) (defs : list DynamicSymbolDefinition) (dynsym_size base size : Z) (l0 l : SysvHashLayout) :
  allocate_sysv_hash dynsym_size defs = Ok (Some l0) -> finalise_sysv_hash l0 base defs = Ok l -> len defs < 2 ^ 32 ->
  1 <= base -> byte_size l <= size ->
  exists t, write_sysv_hash_table sysv_hash l base defs size = Ret (Ok (Some t)) /\
    forall name, sysv_lookup t (has_name base defs name) (sysv_hash name) = defined_at base defs name.
Proof.
  intros Ha Hf H32 Hbase Hsize. unfold allocate_sysv_hash in Ha. destruct (Z.eqb_spec (len defs) 0) as [|Hne]; [done|]. pose proof (len_nonneg defs).
  destruct (dynsym_size / 24 <? 2 ^ 32); [|done]. injection Ha as <-. unfold finalise_sysv_hash in Hf.
  rewrite (wrap_id 32 (len defs)) in Hf by (unfold is_uint; lia). destruct (Z.ltb_spec (base + len defs) (2 ^ 32)) as [Hroom|]; [|done]. injection Hf as <-.
  cbn [sv_bucket_count]. set (l := mkSysvLayout _ _) in *. pose proof (Z.mul_div_le (len defs) 2 ltac:(lia)).
  pose proof (next_power_bounds (Z.max (len defs / 2) 1) ltac:(lia)) as Hnp.
  assert (sv_bucket_count l = next_power_of_two (Z.max (len defs / 2) 1)) as Hb by (cbn; rewrite wrap_id; [done|unfold is_uint; lia]).
  assert (0 < sv_bucket_count l) as Hbk by lia. assert (sv_chain_count l = base + len defs) as Hc by done.
  unfold write_sysv_hash_table. rewrite !(proj2 (Z.eqb_neq _ _)), (proj2 (Z.ltb_ge _ _)) by lia. cbn [orb].
  destruct (sysv_hash_loop_links sysv_hash l base Hbk Hbase [] defs (replicate (Z.to_nat (sv_bucket_count l)) 0) (replicate (Z.to_nat (sv_chain_count l)) 0)
    (replicate (Z.to_nat (sv_bucket_count l)) None)) as (t & lasts & Ht & Hlk & Hlc).
  - split; try (unfold len; rewrite length_replicate; lia).
    + intros b Hbb. exists 0. by rewrite !lookup_replicate_2 by lia.
    + intros x Hx. unfold len in Hx. rewrite length_replicate in Hx. cbn in Hx. apply lookup_replicate_2. lia.
  - unfold len. rewrite length_replicate. cbn. unfold len in *. lia.
  - unfold len. rewrite length_replicate. unfold len in *. lia.
  - change (len (@nil DynamicSymbolDefinition)) with 0 in Ht. rewrite Ht. cbn [mbind outcome_bind app] in *. eexists. split; [reflexivity|]. intros name.
    destruct Hlk as [L1 _ L3 _]. unfold sysv_lookup. rewrite L1. destruct (L3 (sysv_hash name mod sv_bucket_count l)) as (first & Hfirst & Hl & _); [apply Z.mod_pos_bound; lia|].
    rewrite Hfirst. cbn [mbind option_bind]. rewrite (walk_links_path _ _ _ _ _ Hl).
    + by apply (find_path_defined sysv_hash l base defs []); [|rewrite Z.add_0_r].
    + pose proof (bucket_path_length sysv_hash l (sysv_hash name mod sv_bucket_count l) base defs). unfold len in *. rewrite length_replicate in Hlc. lia.
Qed.

(** Five names with the hash of [DT_GNU_HASH] and the one of the System V ABI. *)
Definition name_hash (name : bytes) : Z := u32 (foldl (fun h c => h * 33 + c) 5381 name).
Definition abi_hash (name : bytes) : Z := foldl (fun h c => let h := h * 16 + c in Z.land h (2 ^ 28 - 1)) 0 name.
Definition five_names : list DynamicSymbolDefinition :=
  (fun '(id, name, is_default, version) => create_dynamic_symbol_definition name_hash id name is_default version) <$>
    [(3, [102; 111; 111], true, None); (4, [98; 97; 114], false, Some 2); (5, [98; 97; 122], true, None); (8, [113], true, None); (9, [113; 117; 120], true, Some 2)].

Example gnu_hash_finds_witness :
  exists l sorted t, create_gnu_hash_layout true true five_names = Some (l, sorted) /\ write_gnu_hash_tables (set_symbol_base l 7) sorted 60 = Ret (Ok t) /\
    gnu_lookup t (has_name 7 sorted [113]) (name_hash [113]) = defined_at 7 sorted [113] /\ is_Some (defined_at 7 sorted [113]) /\
    gnu_lookup t (has_name 7 sorted [100]) (name_hash [100]) = None.
Proof.
  destruct (create_gnu_hash_layout true true five_names) as [[l sorted]|] eqn:E; [|discriminate E].
  assert (hashed name_hash five_names) as Hh by exact (created_hashed name_hash _).
  destruct (gnu_hash_finds name_hash five_names sorted l 7 60 (fun n => wrap_bound 32 _ ltac:(lia)) Hh E ltac:(lia) ltac:(vm_compute; reflexivity)) as (_ & t & Ht & Hfind).
  - vm_compute in E. injection E as <- _. vm_compute. discriminate.
  - exists l, sorted, t. split_and!; [reflexivity|exact Ht|apply Hfind| |rewrite Hfind]; vm_compute in E; injection E as <- <-; vm_compute; eauto.
Defined.

Example sysv_hash_finds_witness :
  exists l0 l t, allocate_sysv_hash (24 * 12) five_names = Ok (Some l0) /\ finalise_sysv_hash l0 7 five_names = Ok l /\
    write_sysv_hash_table abi_hash l 7 five_names 64 = Ret (Ok (Some t)) /\
    sysv_lookup t (has_name 7 five_names [113]) (abi_hash [113]) = Some 10 /\ sysv_lookup t (has_name 7 five_names [100]) (abi_hash [100]) = None.
Proof.
  destruct (sysv_hash_finds abi_hash five_names (24 * 12) 7 64 (mkSysvLayout 2 12) (mkSysvLayout 2 12)) as (t & Ht & Hfind);
    [reflexivity|reflexivity|reflexivity|lia|vm_compute; discriminate|].
  exists (mkSysvLayout 2 12), (mkSysvLayout 2 12), t. split_and!; [reflexivity|reflexivity|exact Ht|by rewrite Hfind|by rewrite Hfind].
Defined.
